(* ===== verification/_CoqProject ===== *)
-Q . S2P
Prelude.v
RangeList.v
RustStr.v
Resp.v
Packet.v
Command.v
ClusterMeta.v
Wire.v
MetaMap.v
Blocking.v
Store.v
SlotInv.v
Query.v
Migrate.v
Plan.v
Balance.v
Commit.v
ChunkAlloc.v
Update.v
Registry.v
NewChunks.v
Failover.v
Broker.v
Reach.v
Resource.v
Api.v
Service.v
Lifecycle.v
Limit.v
Sync.v
Route.v
Switch.v
ClusterCmd.v
Keys.v
Strings.v
Transfer.v
Linear.v
MiniRedis.v
Transparent.v
Batch.v
Backend.v
Session.v
Compress.v
Slowlog.v
Replicate.v
DataCmd.v
MultiKey.v
BlockPop.v
Control.v
Executor.v
Redirect.v
Coordinator.v
Detect.v
SyncRound.v
External.v
Replicas.v
WaitRegistry.v
Shutdown.v
Client.v
Recovery.v
Http.v
