(* ===== verification/Prelude.v ===== *)
(** * Undermoon: a verification development

    Undermoon manages Redis clusters.  Three kinds of processes work together:

    - the _broker_ ([src/src/broker]) keeps the metadata: proxies, clusters,
      which node owns which of the 16384 slots, running slot migrations and
      epochs.  It serves requests that change this store, over HTTP, and keeps
      it in memory with a meta file and replicas, or in an external service;
    - the _coordinator_ ([src/src/coordinator]) reads the metadata of a proxy
      from the broker and sends it to the proxy with the commands
      [UMCTL SETREPL] and [UMCTL SETCLUSTER], commits finished migrations,
      reports proxies that do not answer and has them replaced;
    - the _server proxies_ ([src/src/proxy], [src/src/migration],
      [src/src/replication]) parse these commands, route the commands of Redis
      clients and move keys during a migration.

    All of them speak RESP, the protocol of Redis ([src/src/protocol]).

    ** Conventions

    A Rust function is a Rocq function of the same name.  [usize] and [u64]
    values are [N] with the wrap-around of release builds written out where
    the code can overflow; positions in vectors are [nat].  Fallible code
    returns [outcome E A], with constructors [Ok], [Err] and [Panic]: a panic
    ([expect], an index out of range) is a value, so that its absence can be
    proved.  The operations of the broker run in the state monad [SM], which
    returns the store also when the operation fails.  A [HashMap] is a [gmap];
    where the code iterates over one, the order is that of the class
    [HashOrder], of which only permutation is known.  Logging is left out.

    Concurrent code is an executable step function on actions, split at its
    atomic accesses or at its points of suspension, with an inductive
    reachability predicate; its theorems hold for every interleaving.  A
    future that is polled takes what the channels, sockets and timers answer
    as an argument of the step.  The tasks of the coordinator are programs of
    calls ([coord]), which are run against arbitrary answers ([Detect]) or in
    the world of the broker and the proxies, with other tasks interleaved
    ([serve] and [pool_step] of [Coordinator]).

    Third-party code is a parameter with documented behaviour as the laws of a
    class: [btoi] and the largest vector capacity ([DecoderEnv], [BtoiLaws]),
    other parsers of numbers ([NumberParsers], [NumberLaws]), the Unicode case
    mapping ([UnicodeCase]), JSON, gzip and base64 ([MetaCodec],
    [MetaCodecLaws]), CRC16 ([Crc16]), zstd ([Zstd], [ZstdLaws]), Redis
    ([Redis], [RedisLaws], [Strings]) and the external storage service
    ([HttpStore], [HttpStoreLaws]).  Each class has a concrete instance, which
    the witnesses use.

    ** The files

    Values and protocols.
    - [RangeList]: slot ranges, [common/cluster.rs]; [RustStr]: strings and
      numbers of Rust; [ClusterMeta]: the data shared by all the processes,
      [common/cluster.rs], [common/config.rs].
    - [Resp], [Packet]: [protocol/resp.rs], [encoder.rs], [stateless.rs],
      [decoder.rs], [packet.rs]; [Client]: the pooled client,
      [protocol/client.rs].
    - [Wire]: the text form of the metadata, [common/proto.rs],
      [replication/replicator.rs]; [Control]: that of migration tasks,
      [migration/task.rs], [coordinator/migration.rs].

    The broker.
    - [Store], [Update], [ChunkAlloc], [Migrate], [Query]: the store and its
      operations, [broker/store.rs], [update.rs], [migrate.rs], [query.rs];
      [Reach]: the requests of [broker/storage.rs].
    - [SlotInv], [Plan], [Balance], [Commit], [Registry], [NewChunks],
      [Failover], [Broker]: the invariant of the store and its preservation by
      every operation; [Lifecycle], [Limit]: the life of a migration.
    - [Resource], [Api], [Service], [Recovery], [Replicas]: the service,
      [broker/resource.rs], [service.rs], [persistence.rs], [epoch.rs],
      [replication.rs]; [External]: [broker/external.rs].

    The proxy.
    - [Command], [Session], [Executor], [DataCmd], [MultiKey], [BlockPop],
      [Redirect], [Compress], [Slowlog]: commands from the connection of a
      client to the reply, [proxy/command.rs], [session.rs], [executor.rs],
      [compress.rs], [reply.rs], [slowlog.rs], [table.rs], [service.rs].
    - [MetaMap], [Route], [ClusterCmd]: metadata and routing,
      [proxy/slot.rs], [cluster.rs], [manager.rs], [migration/manager.rs];
      [Replicate]: [replication/manager.rs], [redis_replicator.rs].
    - [Backend], [Batch], [Blocking]: connections to Redis and the queue that
      holds commands back, [proxy/backend.rs], [sender.rs], [blocking.rs],
      [common/batch.rs], [try_chunks.rs], [biatomic.rs].
    - [Switch], [Keys], [Strings], [Transfer], [Linear], [MiniRedis],
      [Transparent], [WaitRegistry], [Shutdown]: the migration of slots and of
      keys and its end,
      [migration/scan_task.rs], [scan_migration.rs],
      [proxy/migration_backend.rs], [common/slot_lock.rs].

    The coordinator.
    - [Sync], [Coordinator], [Detect], [SyncRound]: [coordinator/sync.rs],
      [core.rs], [detector.rs], [migration.rs], [recover.rs], [broker.rs].
    - [Http]: [coordinator/http_meta_broker.rs], [http_mani_broker.rs].

    ** The theorems

    The comment on each theorem names the conditions under which it holds.

    - The broker: every slot of a cluster has one owner in every reachable
      store, no request panics, epochs order the versions of a cluster, every
      proxy gets complete metadata, migrations complete, failover keeps the
      slots ([Reach], [Lifecycle]); the resource check is right for the order
      of the failovers that it takes ([Resource]); several brokers on an
      external service that checks versions are linearizable ([External]),
      replicas follow ([Replicas]), a scaling in two phases is not disturbed
      and acknowledged changes survive a restart while the writes to the file
      are complete ([Service]), and the epochs of the slots are recovered
      ([Recovery]).
    - From the broker to the proxies: the metadata arrives as it is ([Sync]),
      out-of-order messages converge ([MetaMap]), and after a round of
      synchronisation that has reached every proxy, and while the ends of each
      migration agree, every command reaches the owner of its slot within two
      redirections ([Route], [SyncRound]).  [Http] shows that the HTTP clients
      and brokers of one iteration order refine the calls these theorems
      assume.
    - The migration: the source and the destination exclude each other but for
      two races ([Switch], [Blocking]); the clients see one store while the
      keys move and nothing stays behind, for commands that are classified as
      they should ([Transparent]); a task that is stopped finishes the commands
      on their way, loses none and ends ([Shutdown], with the registry of
      [WaitRegistry]).
    - The proxy: a session handles its commands without a panic outside of the
      slow log ([Executor]), commands are answered once and in order
      ([MetaMap], [Backend], [Session], [Client]), and commands of several keys
      and, for whole strings, compression do what one Redis would do
      ([MultiKey], [Compress]).
    - The protocol: decoding undoes encoding and ends on any bytes ([Resp],
      [Packet], [Wire]).

    Some theorems are runs in which the code does not do what it means to,
    such as [scale_down_duplicates_slots], [switch_race], [stale_route_race],
    [msetnx_not_atomic], [acknowledged_change_lost], [acknowledged_file_cut],
    [wait_signal_early], [shutdown_early], [nested_arrays_overflow] and
    [pages_of_two_brokers_miss].

    ** Fuel and bounds

    Loops that are not structural have fuel.  Running out of it is [Panic] or
    [None], and lemmas show that the fuel given is enough: the loops of the
    decoder and of [compact] consume their input, the planners give a quota to
    one destination in each round, the allocation removes a chunk in each
    round, routing ends within the retries of the code, and the pages of a
    list end with the first empty one.  The fuel of the decoder stands for the
    frames of its stack: [parse_resp] gives it as many as the input can use,
    and the theorem on its safety is about any number of them.  Theorems on
    the broker assume that a cluster has at most [MAX_SAFE_CHUNKS] chunks,
    above which the planners are wrong, and that the global epoch stays below
    2^64 ([room], [within_limits]); buffers and counters of tasks are assumed
    to be below 2^64 where a length is added up.

    ** Not modelled

    Sockets, TCP, HTTP, JSON and the runtime: what they deliver is an argument
    or a step.  The start-up of the processes and their configuration files
    ([src/src/bin], [coordinator/service.rs], [coordinator/api.rs]); the
    counters that are only reported ([migration/stats.rs], [common/track.rs]);
    adapters to traits ([protocol/codec.rs], [protocol/fp.rs]); pairs of
    futures and yielding ([common/future_group.rs], [common/yield_now.rs]); the
    temporary files that are left when the meta file cannot be written; the
    serde implementations. *)

From stdpp Require Export base tactics option list numbers strings gmap fin_maps.
From Stdlib Require Export Lia Sorted.

(** ** Machine integers

    [usize] and [u64] values are kept as [N].  The release build of the
    program has overflow checks off, so its additions and subtractions wrap
    around modulo [2^64]; the wrapping versions are used wherever the source
    arithmetic is not bounded by construction. *)
Definition u64_modulus : N := 2 ^ 64.
Definition u64_max : N := u64_modulus - 1.

Definition wadd (a b : N) : N := (a + b) `mod` u64_modulus.
Definition wsub (a b : N) : N := (a + u64_modulus - b) `mod` u64_modulus.

Definition bool_to_N (b : bool) : N := if b then 1 else 0.

Lemma wadd_small a b : (a + b < u64_modulus)%N → wadd a b = (a + b)%N.
Proof. intros. unfold wadd. by apply N.mod_small. Qed.

Lemma wsub_small a b :
  (b ≤ a)%N → (a < u64_modulus)%N → wsub a b = (a - b)%N.
Proof.
  intros. unfold wsub.
  replace (a + u64_modulus - b)%N with ((a - b) + 1 * u64_modulus)%N by lia.
  rewrite N.Div0.mod_add. apply N.mod_small. lia.
Qed.

(** ** Results

    A Rust function that returns [Result<A, E>] can also panic (an [expect]
    on [None], an index out of range).  [outcome] has the three cases. *)
Inductive outcome (E A : Type) : Type :=
| Ok (a : A)
| Err (e : E)
| Panic.
Arguments Ok {E A} _.
Arguments Err {E A} _.
Arguments Panic {E A}.

#[global] Instance outcome_ret {E} : MRet (outcome E) := λ _ a, Ok a.
#[global] Instance outcome_bind {E} : MBind (outcome E) := λ _ _ k m,
  match m with Ok a => k a | Err e => Err e | Panic => Panic end.

#[global] Instance outcome_fmap {E} : FMap (outcome E) := λ _ _ f m,
  match m with Ok a => Ok (f a) | Err e => Err e | Panic => Panic end.

(** [Option::expect] and [Option::ok_or]. *)
Definition expect {E A} (o : option A) : outcome E A :=
  match o with Some a => Ok a | None => Panic end.
Definition ok_or {E A} (o : option A) (e : E) : outcome E A :=
  match o with Some a => Ok a | None => Err e end.

(** Mapping a function that can fail or panic over a list, left to right. *)
Fixpoint omapM {E A B} (f : A → outcome E B) (l : list A) : outcome E (list B) :=
  match l with
  | [] => Ok []
  | x :: l' => y ← f x; ys ← omapM f l'; Ok (y :: ys)
  end.

Lemma omapM_Ok {E A B} (f : A → outcome E B) (g : A → B) l :
  (∀ x, x ∈ l → f x = Ok (g x)) → omapM f l = Ok (g <$> l).
Proof.
  induction l as [|x l IH]; intros Hf; [done|].
  cbn. rewrite (Hf x) by set_solver. cbn. rewrite IH by set_solver. done.
Qed.

Lemma omapM_Ok_inv {E A B} (f : A → outcome E B) l ys :
  omapM f l = Ok ys → Forall2 (λ x y, f x = Ok y) l ys.
Proof.
  revert ys. induction l as [|x l IH]; intros ys H; cbn in H.
  - by simplify_eq.
  - destruct (f x) eqn:Hx; cbn in H; [|done..].
    destruct (omapM f l) eqn:Hl; cbn in H; [|done..]. simplify_eq. eauto.
Qed.

(** ** Runs

    A state machine is a function from an action and a state to the next state,
    if the action is possible. *)
Definition run_steps {S A} (step : A → S → option S) (actions : list A) (s : S) : option S :=
  foldl (λ s a, s ≫= step a) (Some s) actions.

Lemma run_steps_cons {S A} (step : A → S → option S) a actions s :
  run_steps step (a :: actions) s = step a s ≫= run_steps step actions.
Proof.
  unfold run_steps. cbn. destruct (step a s) as [s1|]; [done|]. cbn. by induction actions.
Qed.

(** What holds at the start and is kept by the actions holds at the end. *)
Lemma run_steps_invariant {S A} (step : A → S → option S) (I : S → Prop) actions s s' :
  (∀ a s s', a ∈ actions → I s → step a s = Some s' → I s') → I s → run_steps step actions s = Some s' → I s'.
Proof.
  revert s. induction actions as [|a actions IH]; intros s Hstep Hs; [by intros [= <-]|].
  rewrite run_steps_cons. destruct (step a s) as [s1|] eqn:Hs1; [|done]. cbn. apply IH.
  - intros b t t' Hb. apply Hstep. by right.
  - eapply (Hstep a); [by left|done..].
Qed.

(** ** Sums over maps *)
Definition map_sum {A} (f : A → nat) (m : gmap nat A) : nat := sum_list_with (f ∘ snd) (map_to_list m).

#[global] Instance sum_list_with_perm {A} (f : A → nat) : Proper ((≡ₚ) ==> (=)) (sum_list_with f).
Proof. induction 1; cbn; lia. Qed.

Section map_sum.
Context {A : Type} (f : A → nat).
Implicit Types (m : gmap nat A).

Lemma map_sum_insert m i x : m !! i = None → map_sum f (<[i := x]> m) = f x + map_sum f m.
Proof. intros Hi. unfold map_sum. by rewrite map_to_list_insert. Qed.

Lemma map_sum_delete m i x : m !! i = Some x → map_sum f m = f x + map_sum f (delete i m).
Proof.
  intros Hi. rewrite <-(insert_delete_id m i x Hi) at 1. by rewrite map_sum_insert by apply lookup_delete_eq.
Qed.

Lemma map_sum_update m i x y : m !! i = Some x → map_sum f (<[i := y]> m) + f x = map_sum f m + f y.
Proof.
  intros Hi. rewrite <-insert_delete_eq, map_sum_insert by apply lookup_delete_eq.
  rewrite (map_sum_delete m i x Hi). lia.
Qed.

Lemma map_sum_le m i x : m !! i = Some x → f x ≤ map_sum f m.
Proof. intros Hi. rewrite (map_sum_delete m i x Hi). lia. Qed.

Lemma map_sum_pos m : 0 < map_sum f m → ∃ i x, m !! i = Some x ∧ 0 < f x.
Proof.
  unfold map_sum. setoid_rewrite <-elem_of_map_to_list. induction (map_to_list m) as [|[i x] l IH]; cbn; [lia|].
  intros Hs. destruct (decide (0 < f x)) as [Hx|Hx]; [exists i, x; split; [left|done]|].
  destruct IH as (j & y & Hin & Hy); [lia|]. exists j, y. split; [by right|done].
Qed.
End map_sum.

(** ** Fixed-size arrays *)
Record arr2 (A : Type) : Type := Arr2 { at0 : A; at1 : A }.
Arguments Arr2 {A} _ _.
Arguments at0 {A} _.
Arguments at1 {A} _.

#[global] Instance arr2_eq_dec {A} `{EqDecision A} : EqDecision (arr2 A).
Proof. solve_decision. Defined.

(** [<[T; 2]>::get] and the write through [get_mut]. *)
Definition arr2_get {A} (x : arr2 A) (i : nat) : option A :=
  match i with 0 => Some (at0 x) | 1 => Some (at1 x) | _ => None end.
Definition arr2_set {A} (x : arr2 A) (i : nat) (v : A) : arr2 A :=
  match i with 0 => Arr2 v (at1 x) | 1 => Arr2 (at0 x) v | _ => x end.
Definition arr2_map {A B} (f : A → B) (x : arr2 A) : arr2 B :=
  Arr2 (f (at0 x)) (f (at1 x)).
Definition arr2_list {A} (x : arr2 A) : list A := [at0 x; at1 x].

Record arr4 (A : Type) : Type := Arr4 { q0 : A; q1 : A; q2 : A; q3 : A }.
Arguments Arr4 {A} _ _ _ _.
Arguments q0 {A} _.
Arguments q1 {A} _.
Arguments q2 {A} _.
Arguments q3 {A} _.

#[global] Instance arr4_eq_dec {A} `{EqDecision A} : EqDecision (arr4 A).
Proof. solve_decision. Defined.

Definition arr4_get {A} (x : arr4 A) (i : nat) : option A :=
  match i with
  | 0 => Some (q0 x) | 1 => Some (q1 x) | 2 => Some (q2 x) | 3 => Some (q3 x)
  | _ => None
  end.

Lemma arr2_get_lt {A} (x : arr2 A) i : i < 2 → is_Some (arr2_get x i).
Proof. intros. destruct i as [|[|]]; cbn; eauto; lia. Qed.

Lemma arr2_get_Some {A} (x : arr2 A) i v : arr2_get x i = Some v → i < 2.
Proof. destruct i as [|[|]]; cbn; intros; simplify_eq; lia. Qed.

(** ** Lists *)

(** [slice::sort_by_key]: a stable sort by an [N] key. *)
Fixpoint insert_by_key {A} (key : A → N) (x : A) (l : list A) : list A :=
  match l with
  | [] => [x]
  | y :: l' =>
      if (key x <=? key y)%N then x :: y :: l' else y :: insert_by_key key x l'
  end.
Fixpoint sort_by_key {A} (key : A → N) (l : list A) : list A :=
  match l with
  | [] => []
  | x :: l' => insert_by_key key x (sort_by_key key l')
  end.

Section sort.
Context {A : Type} (key : A → N).

Lemma insert_by_key_perm x l : insert_by_key key x l ≡ₚ x :: l.
Proof.
  induction l as [|y l IH]; cbn; [done|].
  destruct (_ <=? _)%N; [done|]. rewrite IH. constructor.
Qed.

Lemma sort_by_key_perm l : sort_by_key key l ≡ₚ l.
Proof.
  induction l as [|x l IH]; cbn; [done|]. by rewrite insert_by_key_perm, IH.
Qed.

Lemma insert_by_key_sorted x l :
  StronglySorted (λ a b, key a ≤ key b)%N l →
  StronglySorted (λ a b, key a ≤ key b)%N (insert_by_key key x l).
Proof.
  induction 1 as [|y l Hs IH Hy]; cbn; [repeat constructor|].
  destruct (N.leb_spec (key x) (key y)) as [Hxy|Hxy].
  - constructor; [by constructor|]. constructor; [done|].
    eapply Forall_impl; [exact Hy|]. cbn. lia.
  - constructor; [done|]. rewrite insert_by_key_perm. constructor; [lia|done].
Qed.

Lemma sort_by_key_sorted l :
  StronglySorted (λ a b, key a ≤ key b)%N (sort_by_key key l).
Proof.
  induction l; cbn; [constructor|]. by apply insert_by_key_sorted.
Qed.

(** A list whose keys already ascend strictly is left as it is. *)
Lemma sort_by_key_id l :
  StronglySorted (λ a b, key a < key b)%N l → sort_by_key key l = l.
Proof.
  induction 1 as [|x l Hs IH Hx]; cbn; [done|]. rewrite IH.
  destruct l as [|y l]; cbn; [done|].
  inversion Hx; subst. destruct (N.leb_spec (key x) (key y)); [done|lia].
Qed.
End sort.

Lemma filter_all {A} (P : A → Prop) `{∀ x, Decision (P x)} (l : list A) :
  (∀ x, x ∈ l → P x) → filter P l = l.
Proof.
  induction l as [|x l IH]; intros HP; [done|].
  rewrite filter_cons_True by (apply HP; by left). f_equal. apply IH.
  intros y Hy. apply HP. by right.
Qed.

Lemma NoDup_fmap_filter {A B} (f : A → B) (P : A → Prop) `{∀ x, Decision (P x)} (l : list A) :
  NoDup (f <$> l) → NoDup (f <$> filter P l).
Proof.
  induction l as [|x l IH]; [done|]. rewrite fmap_cons, filter_cons.
  intros [Hx Hl]%NoDup_cons. case_decide; [|auto]. rewrite fmap_cons. constructor; [|auto].
  intros (y & Hy & Hin)%list_elem_of_fmap. apply list_elem_of_filter in Hin as [_ Hin].
  apply Hx, list_elem_of_fmap. eauto.
Qed.

(** ** HashMap iteration

    The iteration order of Rust's [HashMap] is unspecified: it lists every
    entry once, in some order.  Definitions that iterate over a map take the
    order from this class, so that what is proved of them holds for every
    order. *)
Class HashOrder := {
  hash_iter : ∀ {K : Type} `{Countable K} {V : Type}, gmap K V → list (K * V);
  hash_iter_perm : ∀ {K : Type} `{Countable K} {V : Type} (m : gmap K V),
    hash_iter m ≡ₚ map_to_list m;
}.

(** One order: the one of [map_to_list]. *)
Definition canonical_order : HashOrder := {|
  hash_iter _ _ _ _ m := map_to_list m;
  hash_iter_perm _ _ _ _ _ := reflexivity _;
|}.

(** [collect] into a [HashMap]: a later entry replaces an earlier one. *)
Definition hash_collect `{Countable K} {V} (l : list (K * V)) : gmap K V :=
  foldl (λ m kv, <[kv.1 := kv.2]> m) ∅ l.

Definition hash_keys `{HashOrder} `{Countable K} {V} (m : gmap K V) : list K :=
  (hash_iter m).*1.
Definition hash_values `{HashOrder} `{Countable K} {V} (m : gmap K V) : list V :=
  (hash_iter m).*2.

Section hash_order.
Context `{HashOrder} `{Countable K} {V : Type}.
Implicit Types m : gmap K V.

Lemma elem_of_hash_iter m k v : (k, v) ∈ hash_iter m ↔ m !! k = Some v.
Proof. by rewrite hash_iter_perm, elem_of_map_to_list. Qed.

Lemma NoDup_hash_keys m : NoDup (hash_keys m).
Proof. unfold hash_keys. rewrite hash_iter_perm. apply NoDup_fst_map_to_list. Qed.

Lemma elem_of_hash_keys m k : k ∈ hash_keys m ↔ is_Some (m !! k).
Proof.
  unfold hash_keys. rewrite list_elem_of_fmap. split.
  - intros ([k' v] & -> & Hin). apply elem_of_hash_iter in Hin. by eexists.
  - intros [v Hv]. exists (k, v). by rewrite elem_of_hash_iter.
Qed.

Lemma elem_of_hash_values m v : v ∈ hash_values m ↔ ∃ k, m !! k = Some v.
Proof.
  unfold hash_values. rewrite list_elem_of_fmap. split.
  - intros ([k v'] & -> & Hin). apply elem_of_hash_iter in Hin. by eexists.
  - intros [k Hv]. exists (k, v). by rewrite elem_of_hash_iter.
Qed.
End hash_order.

(** ** Automation *)
Create HintDb undermoon.
#[export] Hint Resolve arr2_get_lt NoDup_hash_keys sort_by_key_sorted : undermoon.

(** Reduces the binds of results whose head is known. *)
Ltac outcome_simpl := cbn [expect ok_or mbind outcome_bind option_bind].

(** Case analysis on the scrutinee of a [match] in the goal or a hypothesis. *)
Ltac case_goal :=
  match goal with
  | |- context [match ?x with _ => _ end] =>
      lazymatch x with context [match _ with _ => _ end] => fail | _ => idtac end;
      let E := fresh "E" in destruct x eqn:E
  end.
Ltac case_hyp H :=
  match type of H with
  | context [match ?x with _ => _ end] =>
      lazymatch x with context [match _ with _ => _ end] => fail | _ => idtac end;
      let E := fresh "E" in destruct x eqn:E
  end.
