(* ===== verification/RangeList.v ===== *)
(** * Slot ranges

    Models [Range], [RangeList] and [RangeMap] of [src/src/common/cluster.rs].
    The slots of a range list are seen through [cover s rs], the number of
    ranges of [rs] that contain slot [s]: a list that never owns a slot twice
    has [cover s rs <= 1] everywhere.  The main results are that [compact]
    terminates without panicking, that it produces ascending and separated
    ranges, and that it preserves the set of slots. *)

From S2P Require Import Prelude.

Definition SLOT_NUM : N := 16384.

(** ** Data and operations *)

Record Range : Type := mkRange { r_start : N; r_end : N }.

#[global] Instance Range_eq_dec : EqDecision Range.
Proof. solve_decision. Defined.

Abbreviation RangeList := (list Range) (only parsing).

(** [swap(&mut range.0, &mut range.1)] when the bounds are inverted. *)
Definition normalize (r : Range) : Range :=
  if (r_end r <? r_start r)%N then mkRange (r_end r) (r_start r) else r.

(** The two-index loop of [RangeList::compact] on the sorted vector: [a] is
    the last range kept, [b] the next one to look at.  [None] is a panic of
    the [expect] calls (or the end of the fuel). *)
Fixpoint compact_loop (fuel : nat) (l : list Range) (a b : nat) : option (list Range) :=
  match fuel with
  | 0 => None
  | S fuel =>
      match l !! b with
      | None => Some (take (a + 1) l)
      | Some e =>
          match l !! a with
          | None => None
          | Some s =>
              if (r_start e <=? wadd (r_end s) 1)%N then
                compact_loop fuel
                  (<[a := mkRange (r_start s) (N.max (r_end s) (r_end e))]> l) a (b + 1)
              else if bool_decide (a + 1 < length l) then
                compact_loop fuel (<[a + 1 := e]> l) (a + 1) (b + 1)
              else None
          end
      end
  end.

Definition compact_in_place (rs : RangeList) : option RangeList :=
  let sorted := sort_by_key r_start (normalize <$> rs) in
  compact_loop (S (length sorted)) sorted 0 1.

(** The same function written as a merge of a sorted list. *)
Fixpoint merge_from (s : Range) (rest : list Range) : list Range :=
  match rest with
  | [] => [s]
  | e :: rest' =>
      if (r_start e <=? wadd (r_end s) 1)%N
      then merge_from (mkRange (r_start s) (N.max (r_end s) (r_end e))) rest'
      else s :: merge_from e rest'
  end.

Definition merge_sorted (l : list Range) : list Range :=
  match l with [] => [] | s :: rest => merge_from s rest end.

Definition compact (rs : RangeList) : RangeList :=
  merge_sorted (sort_by_key r_start (normalize <$> rs)).

(** [RangeList::new], [from_single_range], [merge], [merge_another]. *)
Definition range_list_new (ranges : list Range) : RangeList := compact ranges.
Definition from_single_range (r : Range) : RangeList := [normalize r].
Definition merge (range_lists : list RangeList) : RangeList :=
  range_list_new (mjoin range_lists).
Definition merge_another (self other : RangeList) : RangeList := compact (self ++ other).

(** [end - start + 1] on [usize]. *)
Definition range_len (r : Range) : N := wadd (wsub (r_end r) (r_start r)) 1.

Definition get_slots_num (rs : RangeList) : N :=
  foldr (λ r acc, wadd (range_len r) acc) 0%N rs.

(** [usize::checked_sub]. *)
Definition checked_sub (a b : N) : option N :=
  if (b <=? a)%N then Some (a - b)%N else None.

(** [start..=end] as the list of the numbers the loop visits. *)
Definition inclusive (s e : N) : list N :=
  if (s <=? e)%N
  then N.of_nat <$> seq (N.to_nat s) (N.to_nat (e - s) + 1)
  else [].

Record RangeMap : Type := mkRangeMap { min_slot : N; exists_map : list bool }.

Definition set_exists (min : N) (m : list bool) (slot_num : N) : list bool :=
  match checked_sub slot_num min with
  | Some i => <[N.to_nat i := true]> m
  | None => m
  end.

(** [RangeMap::from(&RangeList)]. *)
Definition range_map_from (rs : RangeList) : RangeMap :=
  let min_slot := head rs ≫= λ r,
    if (SLOT_NUM <=? r_start r)%N then None else Some (r_start r) in
  let max_slot := last rs ≫= λ r,
    if (SLOT_NUM <=? r_end r)%N then None else Some (r_end r) in
  let '(min_slot, map_len) :=
    match min_slot, max_slot with
    | Some mn, Some mx => (mn, wadd (wsub mx mn) 1)
    | _, _ => (0%N, 0%N)
    end in
  let exists_map :=
    fold_left (λ m r, fold_left (set_exists min_slot) (inclusive (r_start r) (r_end r)) m)
      rs (replicate (N.to_nat map_len) false) in
  mkRangeMap min_slot exists_map.

Definition contains_slot (m : RangeMap) (slot : N) : bool :=
  bool_decide
    ((checked_sub slot (min_slot m) ≫= λ i, exists_map m !! N.to_nat i) = Some true).

(** ** The slots of a range list *)

Definition in_range (s : N) (r : Range) : bool :=
  ((r_start r <=? s) && (s <=? r_end r))%N.

Fixpoint cover (s : N) (rs : RangeList) : nat :=
  match rs with [] => 0 | r :: rs' => Nat.b2n (in_range s r) + cover s rs' end.

(** Every range lies within the [SLOT_NUM] slots. *)
Definition in_bounds (rs : RangeList) : Prop :=
  Forall (λ r, r_start r < SLOT_NUM ∧ r_end r < SLOT_NUM)%N rs.

(** Ascending, non-empty, separated ranges: what the comment in [compact]
    calls its goal, strengthened by the gap between neighbours. *)
Definition compacted (rs : RangeList) : Prop :=
  Forall (λ r, r_start r ≤ r_end r)%N rs ∧
  StronglySorted (λ a b, r_end a + 1 < r_start b)%N rs.

(** No bound is [usize::MAX], so that [s.end() + 1] does not wrap. *)
Definition no_wrap (rs : RangeList) : Prop :=
  Forall (λ r, r_start r < u64_max ∧ r_end r < u64_max)%N rs.

(** ** Lemmas *)

Lemma in_bounds_no_wrap rs : in_bounds rs → no_wrap rs.
Proof.
  intros H. eapply Forall_impl; [exact H|]. intros r. cbn. unfold SLOT_NUM, u64_max, u64_modulus. lia.
Qed.

Lemma in_range_spec s r :
  BoolSpec (r_start r ≤ s ≤ r_end r)%N (s < r_start r ∨ r_end r < s)%N (in_range s r).
Proof.
  unfold in_range. destruct (N.leb_spec (r_start r) s), (N.leb_spec s (r_end r));
    constructor; lia.
Qed.

(** Decides every [in_range] test of the goal and closes it by arithmetic. *)
Ltac in_range_lia :=
  repeat match goal with
  | |- context [in_range ?s ?r] => destruct (in_range_spec s r); cbn [r_start r_end] in *
  | H : context [in_range ?s ?r] |- _ => destruct (in_range_spec s r); cbn [r_start r_end] in *
  end; cbn [Nat.b2n] in *; lia.

Lemma cover_app s rs1 rs2 : cover s (rs1 ++ rs2) = cover s rs1 + cover s rs2.
Proof. induction rs1; cbn; lia. Qed.

#[global] Instance cover_perm s : Proper ((≡ₚ) ==> (=)) (cover s).
Proof. induction 1; cbn; lia. Qed.

Lemma normalize_ordered r : (r_start (normalize r) ≤ r_end (normalize r))%N.
Proof. unfold normalize. destruct (N.ltb_spec (r_end r) (r_start r)); cbn; lia. Qed.

Lemma normalize_id r : (r_start r ≤ r_end r)%N → normalize r = r.
Proof. unfold normalize. destruct (N.ltb_spec (r_end r) (r_start r)); [lia|done]. Qed.

Lemma map_normalize_id rs :
  Forall (λ r, r_start r ≤ r_end r)%N rs → normalize <$> rs = rs.
Proof.
  intros H. rewrite <- (list_fmap_id rs) at 2. apply list_fmap_ext.
  intros i r Hr. rewrite Forall_lookup in H. cbn. by eapply normalize_id, H.
Qed.

Lemma normalize_bound (P : N → Prop) r :
  P (r_start r) ∧ P (r_end r) →
  P (r_start (normalize r)) ∧ P (r_end (normalize r)).
Proof. unfold normalize. destruct (_ <? _)%N; cbn; tauto. Qed.

Lemma forall_normalize (P : N → Prop) rs :
  Forall (λ r, P (r_start r) ∧ P (r_end r)) rs →
  Forall (λ r, P (r_start r) ∧ P (r_end r)) (normalize <$> rs).
Proof.
  intros H. apply Forall_fmap. eapply Forall_impl; [exact H|].
  intros r. apply normalize_bound.
Qed.

Lemma no_wrap_normalize rs : no_wrap rs → no_wrap (normalize <$> rs).
Proof. apply (forall_normalize (λ x, x < u64_max)%N). Qed.

(** *** The in-place loop computes the merge *)

Lemma compact_loop_merge rest : ∀ fuel pre s junk,
  length rest < fuel →
  compact_loop fuel (pre ++ s :: junk ++ rest) (length pre)
    (length pre + 1 + length junk) = Some (pre ++ merge_from s rest).
Proof.
  induction rest as [|e rest IH]; intros fuel pre s junk Hf;
    (destruct fuel as [|fuel]; [cbn in Hf; lia|]); cbn [compact_loop length] in *.
  - rewrite lookup_ge_None_2 by (rewrite !length_app; cbn; rewrite length_app; cbn; lia).
    rewrite app_nil_r. f_equal. rewrite take_app_ge by lia.
    replace (length pre + 1 - length pre) with 1 by lia. done.
  - assert ((pre ++ s :: junk ++ e :: rest) !! (length pre + 1 + length junk) = Some e) as ->.
    { replace (pre ++ s :: junk ++ e :: rest) with ((pre ++ s :: junk) ++ e :: rest)
        by by rewrite <- app_assoc.
      apply list_lookup_middle. rewrite length_app. cbn. lia. }
    rewrite list_lookup_middle by done. cbn [merge_from].
    destruct (r_start e <=? wadd (r_end s) 1)%N.
    + rewrite insert_app_r_alt, Nat.sub_diag by lia. cbn.
      specialize (IH fuel pre (mkRange (r_start s) (N.max (r_end s) (r_end e)))
        (junk ++ [e])).
      rewrite length_app, <- app_assoc in IH. cbn in IH.
      rewrite <- IH by lia. f_equal. lia.
    + rewrite bool_decide_eq_true_2
        by (rewrite length_app; cbn; rewrite length_app; cbn; lia).
      rewrite insert_app_r_alt by lia.
      replace (length pre + 1 - length pre) with 1 by lia. cbn.
      replace (s :: merge_from e rest) with ([s] ++ merge_from e rest) by done.
      rewrite (app_assoc pre).
      etransitivity;
        [|apply (IH fuel (pre ++ [s]) e (tail (junk ++ [e]))); lia].
      rewrite <- app_assoc. destruct junk as [|j junk]; cbn; rewrite !length_app; cbn.
      * f_equal; lia.
      * rewrite <- app_assoc. f_equal; lia.
Qed.

Lemma compact_in_place_merge rs : compact_in_place rs = Some (compact rs).
Proof.
  unfold compact_in_place, compact.
  destruct (sort_by_key _ _) as [|s rest]; [done|].
  pose proof (compact_loop_merge rest (S (length (s :: rest))) [] s []) as H.
  cbn in H. apply H. lia.
Qed.

(** *** What the merge preserves *)

Lemma merge_from_cover x rest : ∀ s,
  (r_start s ≤ r_end s)%N →
  Forall (λ r, r_start r ≤ r_end r ∧ r_start s ≤ r_start r)%N rest →
  StronglySorted (λ a b, r_start a ≤ r_start b)%N rest →
  (r_end s < u64_max)%N → no_wrap rest →
  cover x (merge_from s rest) = Nat.min 1 (cover x (s :: rest)).
Proof.
  induction rest as [|e rest IH]; intros s Hs Hrest Hsort Hw Hws.
  { cbn. destruct (in_range x s); done. }
  apply Forall_cons in Hrest as [[He Hse] Hrest].
  apply StronglySorted_inv in Hsort as [Hsort Hhd].
  apply Forall_cons in Hws as [[_ Hwe] Hws].
  cbn [merge_from]. rewrite wadd_small by (unfold u64_max in *; lia).
  destruct (N.leb_spec (r_start e) (r_end s + 1)) as [Hm|Hm].
  - rewrite IH; [|cbn; lia| |done|cbn; lia|done].
    + cbn [cover]. in_range_lia.
    + rewrite Forall_forall in *. intros r Hr.
      destruct (Hrest r Hr). specialize (Hhd r Hr). cbn. lia.
  - cbn [cover]. rewrite IH; [|done| |done..].
    + cbn [cover]. destruct (in_range x s) eqn:Hin; cbn [Nat.b2n]; [|lia].
      assert (cover x (e :: rest) = 0) as H0; [|cbn [cover] in H0; lia].
      assert (∀ l, Forall (λ r, r_end s < r_start r)%N l → cover x l = 0) as Hz.
      { induction l as [|r l IHl]; intros Hl; [done|]. inversion Hl; subst.
        cbn. rewrite IHl by done. in_range_lia. }
      apply Hz. constructor; [lia|]. rewrite Forall_forall in *.
      intros r Hr. specialize (Hhd r Hr). lia.
    + rewrite Forall_forall in *. intros r Hr.
      destruct (Hrest r Hr). specialize (Hhd r Hr). lia.
Qed.

Lemma merge_from_bounds (P : N → Prop) rest : ∀ s,
  P (r_start s) ∧ P (r_end s) → Forall (λ r, P (r_start r) ∧ P (r_end r)) rest →
  Forall (λ r, P (r_start r) ∧ P (r_end r)) (merge_from s rest).
Proof.
  induction rest as [|e rest IH]; intros s Hs Hrest; cbn; [by constructor|].
  apply Forall_cons in Hrest as [He Hrest].
  destruct (_ <=? _)%N.
  - apply IH; [|done]. cbn. destruct (N.max_spec (r_end s) (r_end e)) as [[_ ->]|[_ ->]]; tauto.
  - constructor; [done|]. by apply IH.
Qed.

Lemma merge_from_head_ge m rest : ∀ s,
  (m ≤ r_start s)%N → Forall (λ r, m ≤ r_start r)%N rest →
  Forall (λ r, m ≤ r_start r)%N (merge_from s rest).
Proof.
  induction rest as [|e rest IH]; intros s Hs Hrest; cbn; [by constructor|].
  apply Forall_cons in Hrest as [He Hrest].
  destruct (_ <=? _)%N; [by apply IH|]. constructor; [done|]. by apply IH.
Qed.

Lemma merge_from_compacted rest : ∀ s,
  (r_start s ≤ r_end s)%N →
  Forall (λ r, r_start r ≤ r_end r ∧ r_start s ≤ r_start r)%N rest →
  StronglySorted (λ a b, r_start a ≤ r_start b)%N rest →
  (r_end s < u64_max)%N → no_wrap rest →
  compacted (merge_from s rest).
Proof.
  induction rest as [|e rest IH]; intros s Hs Hrest Hsort Hw Hws.
  { cbn. split; repeat constructor; done. }
  apply Forall_cons in Hrest as [[He Hse] Hrest].
  apply StronglySorted_inv in Hsort as [Hsort Hhd].
  apply Forall_cons in Hws as [[_ Hwe] Hws].
  cbn [merge_from]. rewrite wadd_small by (unfold u64_max in *; lia).
  destruct (N.leb_spec (r_start e) (r_end s + 1)) as [Hm|Hm].
  - apply IH; [cbn; lia| |done|cbn; lia|done].
    rewrite Forall_forall in *. intros r Hr.
    destruct (Hrest r Hr). specialize (Hhd r Hr). cbn. lia.
  - destruct (IH e) as [H1 H2]; [done| |done..|].
    { rewrite Forall_forall in *. intros r Hr.
      destruct (Hrest r Hr). specialize (Hhd r Hr). lia. }
    split; [by constructor|]. constructor; [done|].
    eapply Forall_impl; [apply (merge_from_head_ge (r_start e)); [lia|done]|].
    cbn. lia.
Qed.

Lemma merge_from_id rest : ∀ s,
  compacted (s :: rest) → (r_end s < u64_max)%N → no_wrap rest →
  merge_from s rest = s :: rest.
Proof.
  induction rest as [|e rest IH]; intros s [Hle Hs] Hw Hws; [done|]. cbn.
  apply StronglySorted_inv in Hs as [Hs Hhd].
  apply Forall_cons in Hhd as [Hse _]. apply Forall_cons in Hle as [_ Hle].
  apply Forall_cons in Hws as [[_ Hwe] Hws].
  rewrite wadd_small by (unfold u64_max in *; lia).
  destruct (N.leb_spec (r_start e) (r_end s + 1)); [lia|].
  f_equal. by apply IH.
Qed.

(** *** [compact] *)

(** The sorted, normalized vector [compact] starts its loop with. *)
Lemma sorted_ranges_spec rs :
  let l := sort_by_key r_start (normalize <$> rs) in
  Forall (λ r, r_start r ≤ r_end r)%N l ∧
  StronglySorted (λ a b, r_start a ≤ r_start b)%N l ∧ l ≡ₚ normalize <$> rs.
Proof.
  cbn. split_and!.
  - rewrite sort_by_key_perm. apply Forall_fmap, Forall_true, normalize_ordered.
  - apply sort_by_key_sorted.
  - apply sort_by_key_perm.
Qed.

Lemma compact_cover_normalize s rs :
  no_wrap rs → cover s (compact rs) = Nat.min 1 (cover s (normalize <$> rs)).
Proof.
  intros Hw. unfold compact.
  destruct (sorted_ranges_spec rs) as (Hle & Hsort & Hperm).
  apply no_wrap_normalize in Hw. unfold no_wrap in Hw. rewrite <- Hperm in Hw.
  rewrite <- (cover_perm s _ _ Hperm). clear Hperm.
  destruct (sort_by_key _ _) as [|x l]; [done|]. cbn [merge_sorted].
  apply Forall_cons in Hle as [Hx Hle]. apply StronglySorted_inv in Hsort as [Hsort Hhd].
  apply Forall_cons in Hw as [[_ Hwx] Hw].
  apply merge_from_cover; [done| |done..]. by apply Forall_and.
Qed.

Lemma compact_compacted rs : no_wrap rs → compacted (compact rs).
Proof.
  intros Hw. unfold compact.
  destruct (sorted_ranges_spec rs) as (Hle & Hsort & Hperm).
  apply no_wrap_normalize in Hw. unfold no_wrap in Hw. rewrite <- Hperm in Hw.
  destruct (sort_by_key _ _) as [|x l]; [cbn; split; constructor|]. cbn [merge_sorted].
  apply Forall_cons in Hle as [Hx Hle]. apply StronglySorted_inv in Hsort as [Hsort Hhd].
  apply Forall_cons in Hw as [[_ Hwx] Hw].
  apply merge_from_compacted; [done| |done..]. by apply Forall_and.
Qed.

Lemma compact_forall (P : N → Prop) rs :
  Forall (λ r, P (r_start r) ∧ P (r_end r)) rs →
  Forall (λ r, P (r_start r) ∧ P (r_end r)) (compact rs).
Proof.
  intros H. unfold compact. apply forall_normalize in H.
  rewrite <- (sort_by_key_perm r_start) in H.
  destruct (sort_by_key _ _) as [|x l]; [done|]. cbn.
  apply Forall_cons in H as [Hx Hl]. by apply merge_from_bounds.
Qed.

Lemma compact_in_bounds rs : in_bounds rs → in_bounds (compact rs).
Proof. apply (compact_forall (λ x, x < SLOT_NUM)%N). Qed.

Lemma compacted_sorted_start rs :
  compacted rs → StronglySorted (λ a b, r_start a < r_start b)%N rs.
Proof.
  intros [Hle Hs]. revert Hle.
  induction Hs as [|x l Hs IH Hx]; intros Hle; constructor;
    apply Forall_cons in Hle as [Hlx Hle]; [by apply IH|].
  eapply Forall_impl; [exact Hx|]. cbn. lia.
Qed.

Lemma compact_id rs : no_wrap rs → compacted rs → compact rs = rs.
Proof.
  intros Hw Hc. unfold compact. rewrite map_normalize_id by apply Hc.
  rewrite sort_by_key_id by by apply compacted_sorted_start.
  destruct rs as [|s rest]; [done|]. cbn.
  apply Forall_cons in Hw as [[_ Hws] Hw]. by apply merge_from_id.
Qed.

Lemma compact_cover s rs :
  no_wrap rs → Forall (λ r, r_start r ≤ r_end r)%N rs →
  cover s (compact rs) = Nat.min 1 (cover s rs).
Proof.
  intros Hw Hle. rewrite compact_cover_normalize by done. by rewrite map_normalize_id.
Qed.

Lemma compacted_cover_le s rs : compacted rs → cover s rs ≤ 1.
Proof.
  intros [Hle Hs]. revert Hle.
  induction Hs as [|x l Hs IH Hx]; intros Hle; cbn; [lia|].
  apply Forall_cons in Hle as [Hlx Hle]. specialize (IH Hle).
  destruct (in_range_spec s x); cbn; [|done].
  assert (cover s l = 0); [|lia]. clear IH Hle Hs.
  induction Hx as [|y l Hy Hx IH]; cbn; [done|]. rewrite IH. in_range_lia.
Qed.

(** *** Counting slots *)

(** The number of slots of a list, without wrap-around. *)
Definition slots_count (rs : RangeList) : N :=
  foldr (λ r acc, r_end r + 1 - r_start r + acc)%N 0%N rs.

Lemma slots_count_app rs1 rs2 :
  slots_count (rs1 ++ rs2) = (slots_count rs1 + slots_count rs2)%N.
Proof. unfold slots_count. induction rs1; cbn [app foldr] in *; lia. Qed.

#[global] Instance slots_count_perm : Proper ((≡ₚ) ==> (=)) slots_count.
Proof. unfold slots_count. induction 1; cbn [foldr] in *; lia. Qed.

Lemma slots_count_bound lo hi rs :
  compacted rs → Forall (λ r, lo ≤ r_start r ∧ r_end r < hi)%N rs →
  (lo ≤ hi → slots_count rs ≤ hi - lo)%N.
Proof.
  intros [Hle Hs]. revert lo Hle.
  induction Hs as [|x l Hs IH Hx]; intros lo Hle Hb Hlh; cbn; [lia|].
  apply Forall_cons in Hle as [Hlx Hle]. apply Forall_cons in Hb as [Hbx Hb].
  fold (slots_count l).
  specialize (IH (r_end x + 1)%N Hle). rewrite Forall_forall in *.
  enough (slots_count l ≤ hi - (r_end x + 1))%N by lia.
  apply IH; [|lia]. intros r Hr. specialize (Hx r Hr). specialize (Hb r Hr). lia.
Qed.

Lemma slots_count_le rs : compacted rs → in_bounds rs → (slots_count rs ≤ SLOT_NUM)%N.
Proof.
  intros Hc Hb.
  pose proof (slots_count_bound 0 SLOT_NUM rs Hc) as H. rewrite N.sub_0_r in H.
  apply H; [|lia]. eapply Forall_impl; [exact Hb|]. cbn. lia.
Qed.

Lemma get_slots_num_count rs :
  Forall (λ r, r_start r ≤ r_end r)%N rs → in_bounds rs →
  (slots_count rs < u64_modulus)%N → get_slots_num rs = slots_count rs.
Proof.
  induction 1 as [|r rs Hr Hrs IH]; intros Hb Hlt; [done|].
  apply Forall_cons in Hb as [Hbr Hb]. cbn in *. fold (slots_count rs) in *.
  fold (get_slots_num rs) in *. rewrite IH by (done || lia).
  unfold range_len. unfold SLOT_NUM, u64_modulus in *.
  rewrite wsub_small by (unfold u64_modulus; lia).
  rewrite (wadd_small _ 1) by (unfold u64_modulus; lia).
  rewrite wadd_small by (unfold u64_modulus; lia). lia.
Qed.

(** On the lists the broker stores, [get_slots_num] counts without overflow. *)
Lemma get_slots_num_compacted rs :
  compacted rs → in_bounds rs → get_slots_num rs = slots_count rs.
Proof.
  intros Hc Hb. apply get_slots_num_count; [apply Hc|done|].
  pose proof (slots_count_le rs Hc Hb). unfold SLOT_NUM, u64_modulus in *. lia.
Qed.

(** *** The slot bitmap *)

Lemma elem_of_inclusive x s e : x ∈ inclusive s e ↔ (s ≤ x ≤ e)%N.
Proof.
  unfold inclusive. destruct (N.leb_spec s e); [|rewrite elem_of_nil; lia].
  rewrite list_elem_of_fmap. split.
  - intros (n & -> & Hn). apply elem_of_seq in Hn. lia.
  - intros. exists (N.to_nat x). split; [lia|]. apply elem_of_seq. lia.
Qed.

Lemma set_exists_fold_lookup mn xs : ∀ m i,
  fold_left (set_exists mn) xs m !! i =
  (λ b, b || bool_decide (mn + N.of_nat i ∈ xs)%N) <$> (m !! i).
Proof.
  induction xs as [|x xs IH]; intros m i; cbn [fold_left].
  - rewrite bool_decide_eq_false_2 by set_solver.
    destruct (m !! i) as [[]|]; done.
  - rewrite IH. unfold set_exists, checked_sub.
    destruct (N.leb_spec mn x).
    + rewrite list_lookup_insert. case_decide as Hd.
      * destruct Hd as [<- Hlt].
        destruct (lookup_lt_is_Some_2 m _ Hlt) as [b ->]. cbn. f_equal.
        rewrite (bool_decide_eq_true_2 (_ ∈ x :: xs)) by (apply elem_of_cons; left; lia).
        by destruct b.
      * destruct (m !! i) eqn:Hi; [|done]. cbn. do 2 f_equal.
        apply bool_decide_ext. rewrite elem_of_cons.
        apply lookup_lt_Some in Hi.
        split; [by right|]. intros [?|?]; [|done]. exfalso. apply Hd. lia.
    + destruct (m !! i); [|done]. cbn. do 2 f_equal. apply bool_decide_ext.
      rewrite elem_of_cons. split; [by right|]. intros [?|?]; [lia|done].
Qed.

Lemma range_fold_lookup mn rs : ∀ m i,
  fold_left (λ m r, fold_left (set_exists mn) (inclusive (r_start r) (r_end r)) m) rs m !! i =
  (λ b, b || bool_decide (cover (mn + N.of_nat i) rs ≠ 0)) <$> (m !! i).
Proof.
  induction rs as [|r rs IH]; intros m i; cbn [fold_left].
  - cbn. destruct (m !! i) as [[]|]; done.
  - rewrite IH, set_exists_fold_lookup. destruct (m !! i) as [b|]; [|done].
    cbn [fmap option_fmap option_map]. f_equal. rewrite <- orb_assoc. f_equal.
    rewrite <- bool_decide_or. apply bool_decide_ext.
    rewrite elem_of_inclusive. cbn [cover]. in_range_lia.
Qed.

(** A compacted list starts at its lowest slot and ends at its highest. *)
Lemma cover_between rs first final s :
  compacted rs → head rs = Some first → last rs = Some final →
  cover s rs ≠ 0 → (r_start first ≤ s ≤ r_end final)%N.
Proof.
  intros [Hle Hs]. revert first Hle.
  induction Hs as [|x l Hs IH Hx]; intros first Hle Hh Hl Hc; [done|].
  cbn in Hh. simplify_eq. apply Forall_cons in Hle as [Hlx Hle].
  destruct l as [|y l].
  { cbn in Hl. simplify_eq. cbn in Hc. in_range_lia. }
  rewrite last_cons_cons in Hl.
  apply Forall_cons in Hx as [Hxy _].
  assert (cover s (y :: l) ≠ 0 → (r_start y ≤ s ≤ r_end final)%N) as IHy by eauto.
  assert (r_start y ≤ r_end y)%N by (by inversion Hle).
  assert (r_end y ≤ r_end final)%N as Hyf.
  { clear -Hs Hl Hle. destruct l as [|z l]; [cbn in Hl; simplify_eq; lia|].
    apply StronglySorted_inv in Hs as [_ Hhd]. rewrite last_cons_cons in Hl.
    apply last_Some_elem_of in Hl. rewrite Forall_forall in Hhd, Hle.
    specialize (Hhd _ Hl). specialize (Hle final ltac:(by right)). lia. }
  cbn [cover] in Hc, IHy. destruct (in_range_spec s first); [lia|].
  cbn [Nat.b2n] in Hc. specialize (IHy Hc). lia.
Qed.

Lemma range_map_contains rs s :
  compacted rs → in_bounds rs →
  contains_slot (range_map_from rs) s = bool_decide (cover s rs ≠ 0).
Proof.
  intros Hc Hb. unfold contains_slot, in_bounds in *. apply bool_decide_ext.
  destruct rs as [|x l].
  { cbn. destruct (checked_sub s 0); cbn; [rewrite ?lookup_nil|]; naive_solver. }
  destruct (last (x :: l)) as [z|] eqn:Hz; [|by apply last_None in Hz].
  assert (r_start x < SLOT_NUM ∧ r_end x < SLOT_NUM)%N as Hx by (by inversion Hb).
  assert (r_start z < SLOT_NUM ∧ r_end z < SLOT_NUM)%N as Hbz.
  { apply last_Some_elem_of in Hz. rewrite Forall_forall in Hb. by apply Hb. }
  assert (cover (r_start x) (x :: l) ≠ 0) as Hcx.
  { cbn [cover]. destruct Hc as [Hle _]. inversion Hle. in_range_lia. }
  pose proof (cover_between _ x z _ Hc eq_refl Hz Hcx) as Hxz.
  pose proof (cover_between _ x z s Hc eq_refl Hz) as Hs.
  unfold range_map_from. rewrite Hz. cbn [head mbind option_bind].
  destruct (N.leb_spec SLOT_NUM (r_start x)); [lia|].
  destruct (N.leb_spec SLOT_NUM (r_end z)); [lia|].
  cbn [min_slot exists_map]. unfold checked_sub.
  assert (wadd (wsub (r_end z) (r_start x)) 1 = r_end z - r_start x + 1)%N as ->.
  { unfold SLOT_NUM in *. rewrite wsub_small, wadd_small; unfold u64_modulus; lia. }
  destruct (N.leb_spec (r_start x) s); cbn [mbind option_bind];
    [|split; [done|intros; lia]].
  rewrite range_fold_lookup.
  replace (r_start x + N.of_nat (N.to_nat (s - r_start x)))%N with s by lia.
  destruct (decide (s ≤ r_end z)%N).
  - rewrite lookup_replicate_2 by lia. cbn [fmap option_fmap option_map orb].
    split; [by intros [= ?%bool_decide_eq_true]|intros; by rewrite bool_decide_eq_true_2].
  - rewrite (proj1 (lookup_replicate_None _ _ _)) by lia.
    split; [done|]. intros ?%Hs. lia.
Qed.

(** ** Canonical form *)

Lemma compacted_tail x l : compacted (x :: l) → compacted l ∧ (r_start x ≤ r_end x)%N.
Proof. intros [Hle Hs]. inversion Hle; inversion Hs; subst. by split_and!. Qed.

(** Beyond the first range and the gap after it, the tail decides. *)
Lemma compacted_head_cover x l s :
  compacted (x :: l) → (s ≤ r_end x + 1)%N → cover s (x :: l) = Nat.b2n (in_range s x).
Proof.
  intros [_ Hs] Hle. inversion Hs as [|? ? _ Hall]; subst. cbn [cover].
  assert (cover s l = 0) as ->; [|lia]. clear Hs.
  induction Hall as [|y l Hy Hall IH]; cbn [cover]; [done|]. rewrite IH. in_range_lia.
Qed.

Lemma compacted_head_start x l s : compacted (x :: l) → cover s (x :: l) ≠ 0 → (r_start x ≤ s)%N.
Proof.
  intros Hxl Hc. destruct (compacted_tail _ _ Hxl) as [_ Hx]. destruct Hxl as [_ Hs].
  inversion Hs as [|? ? _ Hall]; subst.
  destruct (N.le_gt_cases (r_start x) s) as [|Hlt]; [done|]. exfalso. apply Hc. cbn [cover].
  assert (cover s l = 0) as ->; [|in_range_lia]. clear Hs Hc.
  induction Hall as [|y l Hy Hall IH]; cbn [cover]; [done|]. rewrite IH. in_range_lia.
Qed.

Lemma compacted_head_eq x l y k :
  compacted (x :: l) → compacted (y :: k) → (∀ s, cover s (x :: l) = cover s (y :: k)) → x = y.
Proof.
  intros Hx Hy Heq. destruct (compacted_tail _ _ Hx) as [_ Lx], (compacted_tail _ _ Hy) as [_ Ly].
  assert (cover (r_start x) (x :: l) ≠ 0) as Cx.
  { rewrite compacted_head_cover by (done || lia). in_range_lia. }
  assert (cover (r_start y) (y :: k) ≠ 0) as Cy.
  { rewrite compacted_head_cover by (done || lia). in_range_lia. }
  assert (r_start x = r_start y) as Hstart.
  { apply N.le_antisymm.
    - eapply compacted_head_start; [exact Hx|]. by rewrite Heq.
    - eapply compacted_head_start; [exact Hy|]. by rewrite <- Heq. }
  assert (r_end x = r_end y) as Hend.
  { destruct (N.lt_trichotomy (r_end x) (r_end y)) as [Hlt|[?|Hlt]]; [|done|]; exfalso.
    - specialize (Heq (r_end x + 1)%N). rewrite !compacted_head_cover in Heq by (done || lia).
      in_range_lia.
    - specialize (Heq (r_end y + 1)%N). rewrite !compacted_head_cover in Heq by (done || lia).
      in_range_lia. }
  destruct x, y. cbn in *. by subst.
Qed.

Lemma compacted_unique a : ∀ b,
  compacted a → compacted b → (∀ s, cover s a = cover s b) → a = b.
Proof.
  induction a as [|x l IH]; intros [|y k] Ha Hb Heq; [done|..].
  - specialize (Heq (r_start y)). rewrite compacted_head_cover in Heq;
      [|done|destruct (compacted_tail _ _ Hb); lia]. destruct (compacted_tail _ _ Hb).
    cbn [cover] in Heq. in_range_lia.
  - specialize (Heq (r_start x)). rewrite compacted_head_cover in Heq;
      [|done|destruct (compacted_tail _ _ Ha); lia]. destruct (compacted_tail _ _ Ha).
    cbn [cover] in Heq. in_range_lia.
  - pose proof (compacted_head_eq _ _ _ _ Ha Hb Heq) as ->. f_equal.
    apply IH; [by apply compacted_tail in Ha as [? _]|by apply compacted_tail in Hb as [? _]|].
    intros s. specialize (Heq s). cbn [cover] in Heq. lia.
Qed.

(** ** Properties *)

(** C38. [RangeList::compact]: the in-place loop over two indices ends with the
    bounds of the vector respected; its result is sorted with gaps between
    neighbours, has the slots of the given ranges, inverted ones read the
    right way round, and is the only such list. *)
Theorem compact_correct rs :
  no_wrap rs →
  ∃ rl, compact_in_place rs = Some rl ∧ compacted rl ∧
    (∀ s, cover s rl = Nat.min 1 (cover s (normalize <$> rs))) ∧
    ∀ rl', compacted rl' → (∀ s, cover s rl' = Nat.min 1 (cover s (normalize <$> rs))) → rl' = rl.
Proof.
  intros Hw. exists (compact rs). split_and!.
  - apply compact_in_place_merge.
  - by apply compact_compacted.
  - intros s. by apply compact_cover_normalize.
  - intros rl' Hc Hcov. apply compacted_unique; [done|by apply compact_compacted|].
    intros s. by rewrite Hcov, compact_cover_normalize.
Qed.

Lemma compact_correct_witness :
  ∃ rl, compact_in_place [mkRange 7 9; mkRange 3 1; mkRange 4 5] = Some rl ∧ compacted rl.
Proof.
  destruct (compact_correct [mkRange 7 9; mkRange 3 1; mkRange 4 5]) as (rl & H1 & H2 & _).
  - repeat constructor; vm_compute; reflexivity.
  - exists rl. exact (conj H1 H2).
Defined.

(** [RangeMap]: the bit map built from the range list of a node answers
    [contains_slot] exactly for the slots of the list. *)
Theorem range_map_correct rs s :
  compacted rs → in_bounds rs →
  contains_slot (range_map_from rs) s = bool_decide (cover s rs ≠ 0).
Proof. apply range_map_contains. Qed.

Lemma range_map_correct_witness :
  contains_slot (range_map_from [mkRange 1 3; mkRange 7 9]) 8 =
  bool_decide (cover 8 [mkRange 1 3; mkRange 7 9] ≠ 0).
Proof.
  apply range_map_correct; [split|]; repeat constructor; vm_compute; congruence.
Defined.
