(* ===== verification/RustStr.v ===== *)
(** * Strings and decimal numbers

    What the sources use of Rust's [str]: [split], [splitn], [parse::<u64>],
    [to_string] on integers, and the Unicode case conversions.  A Rust string
    is modelled by its UTF-8 bytes. *)

From Stdlib Require Export Ascii.
From stdpp Require Export pretty.
From S2P Require Import Prelude.

(** ** Splitting *)

(** [s.split(c)]: always at least one piece. *)
Fixpoint split (c : ascii) (s : string) : list string :=
  match s with
  | EmptyString => [EmptyString]
  | String a s' =>
      if bool_decide (a = c) then EmptyString :: split c s'
      else match split c s' with
           | [] => [String a EmptyString]
           | w :: ws => String a w :: ws
           end
  end.

(** [s.splitn(2, c)]: the text before the first [c], and the rest if any. *)
Fixpoint splitn2 (c : ascii) (s : string) : string * option string :=
  match s with
  | EmptyString => (EmptyString, None)
  | String a s' =>
      if bool_decide (a = c) then (EmptyString, Some s')
      else let '(w, rest) := splitn2 c s' in (String a w, rest)
  end.

(** ** Decimal numbers *)

Definition digit (c : ascii) : option N :=
  let n := N_of_ascii c in
  if ((48 <=? n) && (n <=? 57))%N then Some (n - 48)%N else None.

Fixpoint parse_digits (max acc : N) (s : string) : option N :=
  match s with
  | EmptyString => Some acc
  | String c s' =>
      d ← digit c;
      let acc' := (acc * 10 + d)%N in
      if (acc' <=? max)%N then parse_digits max acc' s' else None
  end.

(** [str::parse::<u64>] (and [usize]): an optional [+], at least one digit,
    and no overflow. *)
Definition parse_u64 (s : string) : option N :=
  match s with
  | EmptyString => None
  | String c s' =>
      if bool_decide (c = "+"%char) then
        match s' with EmptyString => None | _ => parse_digits u64_max 0 s' end
      else parse_digits u64_max 0 s
  end.

(** [u64::to_string]. *)
Definition to_string (n : N) : string := pretty n.

(** ** Case conversion *)

Definition ascii_upper (c : ascii) : ascii :=
  let n := N_of_ascii c in
  if ((97 <=? n) && (n <=? 122))%N then ascii_of_N (n - 32) else c.
Definition ascii_lower (c : ascii) : ascii :=
  let n := N_of_ascii c in
  if ((65 <=? n) && (n <=? 90))%N then ascii_of_N (n + 32) else c.

Fixpoint string_map (f : ascii → ascii) (s : string) : string :=
  match s with EmptyString => EmptyString | String c s' => String (f c) (string_map f s') end.

Fixpoint string_forallb (f : ascii → bool) (s : string) : bool :=
  match s with EmptyString => true | String c s' => f c && string_forallb f s' end.

Definition is_ascii (s : string) : bool :=
  string_forallb (λ c, N_of_ascii c <? 128)%N s.

(** [str::to_uppercase] and [str::to_lowercase] follow the Unicode tables;
    on ASCII text they are the ASCII conversions, and that is all the
    development relies on. *)
Class UnicodeCase := {
  to_uppercase : string → string;
  to_lowercase : string → string;
  to_uppercase_ascii : ∀ s, is_ascii s = true → to_uppercase s = string_map ascii_upper s;
  to_lowercase_ascii : ∀ s, is_ascii s = true → to_lowercase s = string_map ascii_lower s;
}.

(** One instance: the conversions that touch ASCII letters only. *)
Definition ascii_case : UnicodeCase := {|
  to_uppercase := string_map ascii_upper;
  to_lowercase := string_map ascii_lower;
  to_uppercase_ascii _ _ := eq_refl;
  to_lowercase_ascii _ _ := eq_refl;
|}.

(** ** Lemmas *)

Fixpoint no_char (c : ascii) (s : string) : Prop :=
  match s with EmptyString => True | String a s' => a ≠ c ∧ no_char c s' end.

Lemma no_char_append c s t : no_char c s → no_char c t → no_char c (s +:+ t).
Proof. induction s as [|a s IH]; cbn; [done|]. intros [? ?] ?. split; [done|]. by apply IH. Qed.

Lemma split_no_char c s : no_char c s → split c s = [s].
Proof.
  induction s as [|a s IH]; cbn; [done|]. intros [Ha Hs].
  rewrite bool_decide_eq_false_2 by done. by rewrite IH.
Qed.

Lemma split_app c s1 s2 :
  no_char c s1 → split c (s1 +:+ String c s2) = s1 :: split c s2.
Proof.
  induction s1 as [|a s1 IH]; intros H.
  - change ("" +:+ String c s2) with (String c s2). cbn.
    by rewrite bool_decide_eq_true_2.
  - change (String a s1 +:+ String c s2) with (String a (s1 +:+ String c s2)). cbn.
    destruct H as [Ha Hs]. rewrite bool_decide_eq_false_2 by done. by rewrite IH.
Qed.

Lemma splitn2_app c s1 s2 :
  no_char c s1 → splitn2 c (s1 +:+ String c s2) = (s1, Some s2).
Proof.
  induction s1 as [|a s1 IH]; intros H.
  - change ("" +:+ String c s2) with (String c s2). cbn.
    by rewrite bool_decide_eq_true_2.
  - change (String a s1 +:+ String c s2) with (String a (s1 +:+ String c s2)). cbn.
    destruct H as [Ha Hs]. rewrite bool_decide_eq_false_2 by done. by rewrite IH.
Qed.

Lemma digit_pretty_char d : (d < 10)%N → digit (pretty_N_char d) = Some d.
Proof.
  intros Hd.
  assert (d = 0 ∨ d = 1 ∨ d = 2 ∨ d = 3 ∨ d = 4 ∨ d = 5 ∨ d = 6 ∨ d = 7 ∨ d = 8 ∨ d = 9)%N
    as Hc by lia.
  by repeat destruct Hc as [->|Hc]; [..|subst].
Qed.

Lemma parse_digits_pretty max x : ∀ s,
  (x ≤ max)%N → parse_digits max 0 (pretty_N_go x s) = parse_digits max x s.
Proof.
  induction x as [x IH] using (well_founded_induction N.lt_wf_0); intros s Hx.
  destruct (decide (x = 0)%N) as [->|Hnz]; [by rewrite pretty_N_go_0|].
  rewrite pretty_N_go_step by lia. pose proof (N.div_lt x 10 ltac:(lia) ltac:(lia)).
  rewrite IH by lia. cbn. pose proof (N.mod_lt x 10 ltac:(lia)).
  rewrite digit_pretty_char by lia. cbn.
  replace (x `div` 10 * 10 + x `mod` 10)%N with x by (pose proof (N.div_mod x 10); lia).
  by destruct (N.leb_spec x max); [|lia].
Qed.

Lemma digits_no_char c x : ∀ s,
  digit c = None → no_char c s → no_char c (pretty_N_go x s).
Proof.
  induction x as [x IH] using (well_founded_induction N.lt_wf_0); intros s Hc Hs.
  destruct (decide (x = 0)%N) as [->|Hnz]; [by rewrite pretty_N_go_0|].
  rewrite pretty_N_go_step by lia. apply IH; [apply N.div_lt; lia|done|].
  cbn. split; [|done]. intros <-.
  rewrite digit_pretty_char in Hc by (apply N.mod_lt; lia). done.
Qed.

Lemma to_string_no_char c n : digit c = None → no_char c (to_string n).
Proof.
  intros Hc. unfold to_string, pretty, pretty_N. case_decide.
  - cbn. split; [|done]. by intros <-.
  - by apply digits_no_char.
Qed.

Lemma parse_u64_digits s n :
  s ≠ "" → parse_digits u64_max 0 s = Some n → parse_u64 s = Some n.
Proof.
  destruct s as [|c s]; [done|]. intros _ H. cbn [parse_u64].
  case_bool_decide as Hc; [|done]. subst. by cbn in H.
Qed.

(** Printing a number and parsing it back. *)
Lemma parse_u64_to_string n : (n ≤ u64_max)%N → parse_u64 (to_string n) = Some n.
Proof.
  intros Hn. unfold to_string, pretty, pretty_N.
  case_decide as H0; [subst; by vm_compute|].
  apply parse_u64_digits.
  - intros Heq.
    assert (parse_digits n 0 (pretty_N_go n "") = Some n)
      by (rewrite parse_digits_pretty; [done|lia]).
    rewrite Heq in *. cbn in *. congruence.
  - rewrite parse_digits_pretty by done. done.
Qed.

Lemma string_map_length f s : String.length (string_map f s) = String.length s.
Proof. induction s; cbn; congruence. Qed.
