(* ===== verification/Resp.v ===== *)
(** * The RESP protocol

    Models [src/src/protocol/resp.rs], the encoder
    [src/src/protocol/encoder.rs] and the decoder
    [src/src/protocol/stateless.rs].  A buffer is a list of bytes.  The
    decoder returns byte ranges of the buffer; [to_resp_vec] reads them.
    [btoi] is a third-party function and the largest capacity
    [Vec::with_capacity] accepts depends on the platform: both are parameters
    of the decoder.  A buffer is assumed to be far shorter than [2^64] bytes,
    so that adding up lengths does not wrap. *)

From S2P Require Import Prelude RustStr.

Abbreviation bytes := (list ascii) (only parsing).

Definition bytes_of (s : string) : bytes := String.list_ascii_of_string s.
Definition CR : ascii := "013"%char.
Definition LF : ascii := "010"%char.

(** ** Data *)

Inductive BulkStr (T : Type) : Type :=
| Str (t : T)
| BulkNil.
Arguments Str {T} _.
Arguments BulkNil {T}.

(** [Array<T>], by its element type. *)
Inductive Array (R : Type) : Type :=
| Elements (l : list R)
| ArrayNil.
Arguments Elements {R} _.
Arguments ArrayNil {R}.

#[local] Set Warnings "-register-all".
Inductive Resp (T : Type) : Type :=
| Error (t : T)
| Simple (t : T)
| Bulk (s : BulkStr T)
| Integer (t : T)
| Arr (a : Array (Resp T)).
Arguments Error {T} _.
Arguments Simple {T} _.
Arguments Bulk {T} _.
Arguments Integer {T} _.
Arguments Arr {T} _.

Definition DataIndex : Type := nat * nat.
Definition RespVec : Type := Resp bytes.
Definition RespIndex : Type := Resp DataIndex.

(** Induction through the nested array. *)
Section resp_ind.
Context {T : Type} (P : Resp T → Prop).
Hypothesis HError : ∀ t, P (Error t).
Hypothesis HSimple : ∀ t, P (Simple t).
Hypothesis HBulk : ∀ s, P (Bulk s).
Hypothesis HInteger : ∀ t, P (Integer t).
Hypothesis HNil : P (Arr ArrayNil).
Hypothesis HElements : ∀ l, Forall P l → P (Arr (Elements l)).

Fixpoint resp_induction (r : Resp T) : P r :=
  match r with
  | Error t => HError t
  | Simple t => HSimple t
  | Bulk s => HBulk s
  | Integer t => HInteger t
  | Arr ArrayNil => HNil
  | Arr (Elements l) =>
      HElements l ((fix go (l : list (Resp T)) : Forall P l :=
        match l with
        | [] => Forall_nil_2 P
        | r :: l => Forall_cons_2 P r l (resp_induction r) (go l)
        end) l)
  end.
End resp_ind.

(** [VFunctor::map] of the three types. *)
Definition bulk_map {A B} (f : A → B) (s : BulkStr A) : BulkStr B :=
  match s with Str t => Str (f t) | BulkNil => BulkNil end.

Fixpoint resp_map {A B} (f : A → B) (r : Resp A) : Resp B :=
  match r with
  | Error t => Error (f t)
  | Simple t => Simple (f t)
  | Bulk s => Bulk (bulk_map f s)
  | Integer t => Integer (f t)
  | Arr ArrayNil => Arr ArrayNil
  | Arr (Elements l) => Arr (Elements (map (resp_map f) l))
  end.

(** [AdvanceIndex::advance]. *)
Definition advance_index (count : nat) (d : DataIndex) : DataIndex :=
  (d.1 + count, d.2 + count).
Definition advance (count : nat) (r : RespIndex) : RespIndex := resp_map (advance_index count) r.

(** ** Encoder *)

(** [io::Write] for writers that do not fail: the new state and the number of
    bytes written. *)
Class Writer (W : Type) := write : bytes → W → W * nat.

(** [Vec<u8>] and [SizeHintWriter]. *)
#[global] Instance vec_writer : Writer bytes := λ s w, (w ++ s, length s).
#[global] Instance size_hint_writer : Writer () := λ s w, (w, length s).

Section encode.
Context {W : Type} `{Writer W}.

Definition encode_simple_element (prefix s : bytes) (w : W) : W * nat :=
  let '(w, n1) := write prefix w in
  let '(w, n2) := write s w in
  let '(w, n3) := write [CR; LF] w in
  (w, n1 + n2 + n3).

Definition encode_bulk_str (s : BulkStr bytes) (w : W) : W * nat :=
  match s with
  | BulkNil => write (bytes_of "$-1" ++ [CR; LF]) w
  | Str s =>
      let '(w, n1) := encode_simple_element (bytes_of "$") (bytes_of (to_string (N.of_nat (length s)))) w in
      let '(w, n2) := write s w in
      let '(w, n3) := write [CR; LF] w in
      (w, n1 + n2 + n3)
  end.

Fixpoint encode_resp (r : RespVec) (w : W) : W * nat :=
  match r with
  | Error s => encode_simple_element (bytes_of "-") s w
  | Simple s => encode_simple_element (bytes_of "+") s w
  | Integer s => encode_simple_element (bytes_of ":") s w
  | Bulk s => encode_bulk_str s w
  | Arr ArrayNil => write (bytes_of "*-1" ++ [CR; LF]) w
  | Arr (Elements l) =>
      (fix elements (l : list RespVec) (acc : W * nat) : W * nat :=
         match l with
         | [] => acc
         | e :: l => let '(w, n) := encode_resp e acc.1 in elements l (w, acc.2 + n)
         end) l (encode_simple_element (bytes_of "*") (bytes_of (to_string (N.of_nat (length l)))) w)
  end.
End encode.

(** [resp_to_buf], [command_to_buf] and [get_resp_size_hint]. *)
Definition resp_to_buf (buf : bytes) (r : RespVec) : bytes * nat := encode_resp r buf.
Definition command_to_buf (buf : bytes) (command : list bytes) : bytes * nat :=
  resp_to_buf buf (Arr (Elements ((λ s, Bulk (Str s)) <$> command))).
Definition get_resp_size_hint (r : RespVec) : nat := (encode_resp r ()).2.

(** ** Decoder *)

Inductive ParseError : Type :=
| InvalidProtocol
| NotEnoughData
| UnexpectedErr.

#[global] Instance ParseError_eq_dec : EqDecision ParseError.
Proof. solve_decision. Defined.

(** [slice::get] with a range, and [memchr]. *)
Definition get_range (buf : bytes) (d : DataIndex) : option bytes :=
  if bool_decide (d.1 ≤ d.2 ∧ d.2 ≤ length buf) then Some (take (d.2 - d.1) (drop d.1 buf)) else None.
Definition get_from (buf : bytes) (s : nat) : option bytes :=
  if bool_decide (s ≤ length buf) then Some (drop s buf) else None.

Fixpoint memchr (c : ascii) (buf : bytes) : option nat :=
  match buf with
  | [] => None
  | x :: buf => if bool_decide (x = c) then Some 0 else S <$> memchr c buf
  end.

(** What the decoder uses from outside: [btoi::<i64>] and the largest
    capacity for which [Vec::with_capacity] does not panic. *)
Class DecoderEnv := {
  btoi : bytes → option Z;
  vec_capacity_max : N;
}.

Definition i64_max : N := 2 ^ 63 - 1.

(** The documented behaviour of [btoi]: it returns an [i64] and reads back
    the decimal representation of one. *)
Class BtoiLaws `{DecoderEnv} : Prop := {
  btoi_range s z : btoi s = Some z → (- 2 ^ 63 ≤ z ≤ Z.of_N i64_max)%Z;
  btoi_to_string n : (n ≤ i64_max)%N → btoi (bytes_of (to_string n)) = Some (Z.of_N n);
  btoi_minus_one : btoi (bytes_of "-1") = Some (-1)%Z;
}.

(** [None] stands for running out of fuel. *)
Abbreviation parsed A := (option (outcome ParseError (A * nat))) (only parsing).

Definition parse_line (buf : bytes) : outcome ParseError (DataIndex * nat) :=
  lf_index ← ok_or (memchr LF buf) NotEnoughData;
  if bool_decide (lf_index = 0) then Err InvalidProtocol
  else Ok ((0, lf_index + 1 - 2), lf_index + 1).

(** [advance] moves the range of a parsed element by the bytes before it. *)
Definition advanced {A} (wrap : A → RespIndex) (count : nat) (p : A * nat) : RespIndex * nat :=
  (advance count (wrap p.1), count + p.2).

Section decode.
Context `{DecoderEnv}.

Definition parse_len (buf : bytes) : outcome ParseError (Z * nat) :=
  '(data_index, consumed) ← parse_line buf;
  next_buf ← ok_or (get_range buf data_index) UnexpectedErr;
  len ← ok_or (btoi next_buf) InvalidProtocol;
  Ok (len, consumed).

Definition parse_bulk_str (buf : bytes) : outcome ParseError (BulkStr DataIndex * nat) :=
  '(len, consumed) ← parse_len buf;
  if (len <? 0)%Z then Ok (BulkNil, consumed)
  else
    let content_size := Z.to_N len in
    if (N.of_nat (length buf) <? N.of_nat consumed + content_size + 2)%N then Err NotEnoughData
    else
      let content_size := N.to_nat content_size in
      Ok (Str (consumed, consumed + content_size), consumed + content_size + 2).

(** The element loop of [parse_array]. *)
Fixpoint parse_elements (parse : bytes → parsed RespIndex) (fuel : nat) (array_size : N)
    (buf : bytes) (consumed : nat) : parsed (list RespIndex) :=
  if (array_size =? 0)%N then Some (Ok ([], consumed))
  else
    match fuel with
    | O => None
    | S fuel =>
        match get_from buf consumed with
        | None => Some (Err InvalidProtocol)
        | Some next_buf =>
            match parse next_buf with
            | None => None
            | Some (Ok (v, element_consumed)) =>
                match parse_elements parse fuel (array_size - 1) buf (consumed + element_consumed) with
                | Some (Ok (l, n)) => Some (Ok (advance consumed v :: l, n))
                | r => r
                end
            | Some (Err e) => Some (Err e)
            | Some Panic => Some Panic
            end
        end
    end.

Definition parse_array (parse : bytes → parsed RespIndex) (buf : bytes) : parsed (Array RespIndex) :=
  match parse_len buf with
  | Ok (len, consumed) =>
      if (len <? 0)%Z then Some (Ok (ArrayNil, consumed))
      else
        let array_size := Z.to_N len in
        if (vec_capacity_max <? array_size)%N then Some Panic
        else
          match parse_elements parse (S (length buf)) array_size buf consumed with
          | None => None
          | Some r => Some ('(l, n) ← r; Ok (Elements l, n))
          end
  | Err e => Some (Err e)
  | Panic => Some Panic
  end.

(** Nested arrays recurse without a bound: [fuel] is the number of frames that
    the stack has, and [None] is its overflow. *)
Fixpoint parse_resp_fuel (fuel : nat) (buf : bytes) : parsed RespIndex :=
  match fuel with
  | O => None
  | S fuel =>
      match buf with
      | [] => Some (Err NotEnoughData)
      | prefix :: next_buf =>
          if bool_decide (prefix = "$"%char) then
            Some (p ← parse_bulk_str next_buf; Ok (advanced Bulk 1 p))
          else if bool_decide (prefix = "+"%char) then
            Some (p ← parse_line next_buf; Ok (advanced Simple 1 p))
          else if bool_decide (prefix = ":"%char) then
            Some (p ← parse_line next_buf; Ok (advanced Integer 1 p))
          else if bool_decide (prefix = "-"%char) then
            Some (p ← parse_line next_buf; Ok (advanced Error 1 p))
          else if bool_decide (prefix = "*"%char) then
            match parse_array (parse_resp_fuel fuel) next_buf with
            | None => None
            | Some r => Some (p ← r; Ok (advanced Arr 1 p))
            end
          else Some (Err InvalidProtocol)
      end
  end.

(** [parse_resp] with a stack that is large enough: every element takes at least
    one byte, so the length of the buffer bounds the recursion
    ([parse_resp_fuel_enough]). *)
Definition parse_resp (buf : bytes) : outcome ParseError (RespIndex * nat) :=
  default Panic (parse_resp_fuel (S (length buf)) buf).
End decode.

(** [IndexedResp]: a parsed value and the bytes it refers to. *)
Record IndexedResp : Type := mkIndexedResp { ir_resp : RespIndex; ir_data : bytes }.

(** [parse_indexed_resp] also cuts the parsed bytes off the buffer. *)
Definition parse_indexed_resp `{DecoderEnv} (buf : bytes) : outcome ParseError (IndexedResp * bytes) :=
  '(resp, consumed) ← parse_resp buf;
  Ok (mkIndexedResp resp (take consumed buf), drop consumed buf).

(** [map] with a function that panics outside the data. *)
Fixpoint resp_mapM {E A B} (f : A → outcome E B) (r : Resp A) : outcome E (Resp B) :=
  match r with
  | Error t => Error <$> f t
  | Simple t => Simple <$> f t
  | Bulk (Str t) => (λ t, Bulk (Str t)) <$> f t
  | Bulk BulkNil => Ok (Bulk BulkNil)
  | Integer t => Integer <$> f t
  | Arr ArrayNil => Ok (Arr ArrayNil)
  | Arr (Elements l) => (λ l, Arr (Elements l)) <$> omapM (resp_mapM f) l
  end.

Definition to_resp_vec {E} (r : IndexedResp) : outcome E RespVec :=
  resp_mapM (λ d, expect (get_range (ir_data r) d)) (ir_resp r).

Definition get_array_element {E} (r : IndexedResp) (index : nat) : outcome E (option bytes) :=
  match ir_resp r with
  | Arr (Elements resps) =>
      match resps !! index with
      | Some (Bulk (Str s)) => Some <$> expect (get_range (ir_data r) s)
      | _ => Ok None
      end
  | _ => Ok None
  end.

Definition get_array_len (r : IndexedResp) : option nat :=
  match ir_resp r with Arr (Elements resps) => Some (length resps) | _ => None end.

(** ** The encoder, written out *)

Fixpoint encoded (r : RespVec) : bytes :=
  match r with
  | Error s => bytes_of "-" ++ s ++ [CR; LF]
  | Simple s => bytes_of "+" ++ s ++ [CR; LF]
  | Integer s => bytes_of ":" ++ s ++ [CR; LF]
  | Bulk BulkNil => bytes_of "$-1" ++ [CR; LF]
  | Bulk (Str s) => bytes_of "$" ++ bytes_of (to_string (N.of_nat (length s))) ++ [CR; LF] ++ s ++ [CR; LF]
  | Arr ArrayNil => bytes_of "*-1" ++ [CR; LF]
  | Arr (Elements l) =>
      bytes_of "*" ++ bytes_of (to_string (N.of_nat (length l))) ++ [CR; LF] ++
      foldr (λ r acc, encoded r ++ acc) [] l
  end.

(** What a writer must do: append its argument to what it has written so far
    and report the length. *)
Class WriterLaws (W : Type) `{Writer W} (written : bytes → W → W) : Prop := {
  write_spec s w : write s w = (written s w, length s);
  written_app s1 s2 w : written s2 (written s1 w) = written (s1 ++ s2) w;
}.

#[global] Instance vec_writer_laws : WriterLaws bytes (λ s w, w ++ s).
Proof. split; [done|]. intros. by rewrite (assoc_L (++)). Qed.
#[global] Instance size_hint_writer_laws : WriterLaws () (λ _ w, w).
Proof. by split. Qed.

Section encode_spec.
Context {W : Type} `{HW : WriterLaws W written}.

Lemma encode_simple_element_spec prefix s w :
  encode_simple_element prefix s w =
  (written (prefix ++ s ++ [CR; LF]) w, length (prefix ++ s ++ [CR; LF])).
Proof.
  unfold encode_simple_element. rewrite !write_spec, !written_app.
  rewrite !length_app. f_equal. lia.
Qed.

Lemma encode_resp_spec r : ∀ w, encode_resp r w = (written (encoded r) w, length (encoded r)).
Proof.
  induction r as [t|t|[t|]|t| |l Hl] using resp_induction; intros w;
    try apply encode_simple_element_spec; try apply write_spec.
  - cbn [encode_resp encode_bulk_str encoded]. rewrite encode_simple_element_spec, !write_spec.
    rewrite !written_app, !length_app. f_equal; [by rewrite <-?app_assoc|cbn [length]; lia].
  - cbn [encode_resp encoded]. rewrite encode_simple_element_spec.
    set (h := bytes_of "*" ++ bytes_of (to_string _) ++ [CR; LF]).
    replace (bytes_of "*" ++ _) with (h ++ foldr (λ r acc, encoded r ++ acc) [] l)
      by (unfold h; by rewrite <-?app_assoc).
    generalize h. clear h. induction Hl as [|r l Hr Hl IH]; intros h; cbn [foldr].
    + by rewrite app_nil_r.
    + cbn [fst snd]. rewrite Hr, written_app, <-length_app, IH.
      by rewrite <-app_assoc.
Qed.
End encode_spec.

(** ** Properties of the scanning functions *)

Lemma memchr_lt c buf i : memchr c buf = Some i → i < length buf.
Proof.
  revert i. induction buf as [|x buf IH]; intros i; cbn; [done|].
  case_bool_decide; intros; simplify_option_eq; [lia|]. specialize (IH _ eq_refl). lia.
Qed.

Lemma memchr_app c buf ext i : memchr c buf = Some i → memchr c (buf ++ ext) = Some i.
Proof.
  revert i. induction buf as [|x buf IH]; intros i; cbn; [done|].
  case_bool_decide; [done|]. destruct (memchr c buf) as [j|]; [|done].
  by rewrite (IH j eq_refl).
Qed.

Lemma memchr_after c l rest : c ∉ l → memchr c (l ++ c :: rest) = Some (length l).
Proof.
  induction l as [|x l IH]; cbn; intros Hc.
  - by rewrite bool_decide_eq_true_2.
  - rewrite bool_decide_eq_false_2 by set_solver. rewrite IH by set_solver. done.
Qed.

Lemma get_range_Some buf s e :
  s ≤ e → e ≤ length buf → get_range buf (s, e) = Some (take (e - s) (drop s buf)).
Proof. intros. unfold get_range. by rewrite bool_decide_eq_true_2. Qed.

Lemma get_range_app buf ext d x : get_range buf d = Some x → get_range (buf ++ ext) d = Some x.
Proof.
  unfold get_range. case_bool_decide as Hd; [|done]. intros [= <-].
  rewrite bool_decide_eq_true_2 by (rewrite length_app; lia).
  rewrite drop_app_le, take_app_le; [done|rewrite length_drop; lia|lia].
Qed.

(** The header line that starts each value. *)
Lemma parse_line_cr l rest :
  LF ∉ l → parse_line (l ++ [CR; LF] ++ rest) = Ok ((0, length l), length l + 2).
Proof.
  intros Hl. unfold parse_line.
  replace (l ++ [CR; LF] ++ rest) with ((l ++ [CR]) ++ LF :: rest) by (by rewrite <-app_assoc).
  rewrite memchr_after by set_solver. cbn. rewrite length_app. cbn [length].
  rewrite bool_decide_eq_false_2 by lia. do 2 f_equal; [f_equal; lia|lia].
Qed.

Lemma no_char_b c s : no_char c s → c ∉ bytes_of s.
Proof. induction s as [|a s IH]; cbn; intros Hs; set_solver. Qed.

Lemma number_no_lf n : LF ∉ bytes_of (to_string n).
Proof. apply no_char_b, to_string_no_char. done. Qed.

(** ** Totality and ranges *)

(** A predicate on every leaf. *)
Fixpoint resp_all {T} (P : T → Prop) (r : Resp T) : Prop :=
  match r with
  | Error t | Simple t | Integer t | Bulk (Str t) => P t
  | Bulk BulkNil | Arr ArrayNil => True
  | Arr (Elements l) => foldr (λ r acc, resp_all P r ∧ acc) True l
  end.

Lemma resp_all_elements {T} (P : T → Prop) l :
  resp_all P (Arr (Elements l)) ↔ Forall (resp_all P) l.
Proof. cbn. induction l as [|r l IH]; cbn; [by rewrite Forall_nil|by rewrite Forall_cons, IH]. Qed.

Lemma resp_all_impl {T} (P Q : T → Prop) r :
  (∀ t, P t → Q t) → resp_all P r → resp_all Q r.
Proof.
  intros HPQ. induction r as [t|t|[t|]|t| |l Hl] using resp_induction;
    try by (cbn; eauto).
  rewrite !resp_all_elements. intros HP. apply Forall_forall. intros r Hr.
  by apply (proj1 (Forall_forall _ _) Hl r Hr), (proj1 (Forall_forall _ _) HP r Hr).
Qed.

Lemma resp_all_map {A B} (f : A → B) (P : B → Prop) r :
  resp_all P (resp_map f r) ↔ resp_all (λ t, P (f t)) r.
Proof.
  induction r as [t|t|[t|]|t| |l Hl] using resp_induction; try done.
  cbn [resp_map]. rewrite !resp_all_elements. rewrite Forall_map. rewrite !Forall_forall in *. set_solver.
Qed.

(** The range of a leaf lies in the first [n] bytes. *)
Definition index_within (n : nat) (d : DataIndex) : Prop := d.1 ≤ d.2 ∧ d.2 ≤ n.

Lemma advance_in_range k n r :
  resp_all (index_within n) r → resp_all (index_within (k + n)) (advance k r).
Proof.
  intros Hr. unfold advance. rewrite resp_all_map. revert Hr. apply resp_all_impl.
  unfold index_within, advance_index. cbn. lia.
Qed.

Section decode_spec.
Context `{DecoderEnv} {Hbtoi : BtoiLaws}.

(** The header of an array that announces more elements than a vector can
    hold. *)
Definition refused (buf : bytes) : Prop :=
  ∃ pre post len n, buf = pre ++ "*"%char :: post ∧ parse_len post = Ok (len, n) ∧ (vec_capacity_max < Z.to_N len)%N.

Lemma refused_app pre buf : refused buf → refused (pre ++ buf).
Proof. intros (p & post & len & n & -> & Hl). exists (pre ++ p), post, len, n. split; [by rewrite (assoc_L (++))|done]. Qed.
Lemma refused_drop k buf : refused (drop k buf) → refused buf.
Proof. intros Hr. rewrite <- (take_drop k buf). by apply refused_app. Qed.

(** What a parsing function returns on [buf]: a value with at most
    [length buf] bytes consumed, or one of the two documented errors; [R] is
    what a panic needs. *)
Definition parse_post {A} (R : Prop) (Q : A → nat → Prop) (buf : bytes) (r : outcome ParseError (A * nat)) : Prop :=
  match r with
  | Ok (v, n) => 0 < n ∧ n ≤ length buf ∧ Q v n
  | Err e => e ≠ UnexpectedErr
  | Panic => R
  end.

Lemma parse_line_post buf :
  parse_post False (λ d n, d.1 = 0 ∧ d.2 + 2 = n) buf (parse_line buf).
Proof.
  unfold parse_line. destruct (memchr LF buf) as [i|] eqn:Hi; cbn; [|done].
  apply memchr_lt in Hi. case_bool_decide; cbn; [done|]. lia.
Qed.

Lemma parse_len_post buf :
  parse_post False (λ len n, 2 ≤ n ∧ (len ≤ Z.of_N i64_max)%Z) buf (parse_len buf).
Proof.
  unfold parse_len. pose proof (parse_line_post buf) as Hl.
  destruct (parse_line buf) as [[[s e] n]|err|]; cbn in Hl |- *; [|done..].
  destruct Hl as (Hn & Hlen & -> & <-). rewrite get_range_Some by lia. cbn.
  destruct (btoi _) as [len|] eqn:Hb; cbn; [|done].
  apply btoi_range in Hb. repeat split; lia.
Qed.

Lemma parse_bulk_str_post buf :
  parse_post False (λ s n, resp_all (index_within n) (Bulk s)) buf (parse_bulk_str buf).
Proof.
  unfold parse_bulk_str. pose proof (parse_len_post buf) as Hl.
  destruct (parse_len buf) as [[len n]|err|]; cbn in Hl |- *; [|done..].
  destruct (len <? 0)%Z eqn:Hneg; cbn; [lia|].
  destruct (N.ltb_spec (N.of_nat (length buf)) (N.of_nat n + Z.to_N len + 2)); cbn; [done|].
  apply Z.ltb_ge in Hneg. unfold index_within. cbn. split_and!; lia.
Qed.

(** The recursive call the loop is given behaves on every shorter buffer. *)
Definition parses_below (m : nat) (parse : bytes → parsed RespIndex) : Prop :=
  ∀ buf, length buf < m →
    ∃ r, parse buf = Some r ∧ parse_post (refused buf) (λ v n, resp_all (index_within n) v) buf r.

Lemma parse_elements_post m parse buf : parses_below m parse → length buf < m → ∀ fuel size consumed,
  0 < consumed → consumed ≤ length buf → length buf - consumed < fuel →
  ∃ r, parse_elements parse fuel size buf consumed = Some r ∧
    parse_post (refused buf) (λ l n, consumed ≤ n ∧ Forall (resp_all (index_within n)) l) buf r.
Proof.
  intros Hp Hm fuel. induction fuel as [|fuel IH]; intros size consumed H0 Hc Hf; [lia|].
  cbn. destruct (size =? 0)%N; [eexists; split; [done|]; cbn; auto|].
  unfold get_from. rewrite bool_decide_eq_true_2 by lia.
  destruct (Hp (drop consumed buf)) as (r & -> & Hr); [rewrite length_drop; lia|].
  destruct r as [[v k]|e|]; cbn in Hr |- *; [|eauto|eexists; split; [done|by eapply refused_drop]].
  rewrite length_drop in Hr. destruct Hr as (Hk & Hkl & Hv).
  destruct (IH (size - 1)%N (consumed + k)) as (r & -> & Hr); [lia..|].
  destruct r as [[l n]|e|]; cbn in Hr; [|by eexists..].
  destruct Hr as (? & ? & ? & Hl). eexists. split; [done|]. cbn.
  repeat split; [lia..|]. constructor; [|done].
  eapply resp_all_impl; [|by apply advance_in_range]. unfold index_within. lia.
Qed.

Lemma parse_array_post m parse buf : parses_below m parse → length buf < m →
  ∃ r, parse_array parse buf = Some r ∧
    parse_post (refused ("*"%char :: buf)) (λ a n, resp_all (index_within n) (Arr a)) buf r.
Proof.
  intros Hp Hm. unfold parse_array. pose proof (parse_len_post buf) as Hl.
  destruct (parse_len buf) as [[len n]|err|] eqn:Hlen; cbn in Hl; [|by eexists|done].
  destruct (Z.ltb_spec len 0); [eexists; split; [done|]; cbn; lia|].
  destruct (N.ltb_spec vec_capacity_max (Z.to_N len)).
  { eexists. split; [done|]. by exists [], buf, len, n. }
  destruct (parse_elements_post m parse buf Hp Hm (S (length buf)) (Z.to_N len) n)
    as (r & -> & Hr); [lia..|].
  eexists. split; [done|]. destruct r as [[l k]|e|]; cbn in Hr |- *; [|done|by apply (refused_app ["*"%char])].
  destruct Hr as (? & ? & ? & Hl'). repeat split; [lia..|]. by apply (resp_all_elements _ l).
Qed.

Lemma advanced_post {A} (R R' : Prop) (wrap : A → RespIndex) prefix buf r :
  (R → R') → parse_post R (λ v n, resp_all (index_within n) (wrap v)) buf r →
  parse_post R' (λ v n, resp_all (index_within n) v) (prefix :: buf) (p ← r; Ok (advanced wrap 1 p)).
Proof.
  intros HR. destruct r as [[v n]|e|]; cbn; [|done..]. intros (? & ? & Hv). repeat split; [lia..|].
  by apply (advance_in_range 1 n).
Qed.

Lemma parse_line_range (wrap : DataIndex → RespIndex) buf :
  (∀ d n, index_within n d → resp_all (index_within n) (wrap d)) →
  parse_post False (λ d n, resp_all (index_within n) (wrap d)) buf (parse_line buf).
Proof.
  intros HP. pose proof (parse_line_post buf) as Hl.
  destruct (parse_line buf) as [[[s e] n]|err|]; cbn in *; [|done..].
  repeat split; [lia..|]. apply HP. unfold index_within. cbn. lia.
Qed.

Lemma parse_resp_fuel_post fuel : parses_below fuel (parse_resp_fuel fuel).
Proof.
  induction fuel as [|fuel IH]; intros buf Hf; [lia|].
  destruct buf as [|c buf]; [by eexists|]. cbn in Hf. cbn [parse_resp_fuel].
  repeat case_bool_decide; try (eexists; split; [done|]; apply (advanced_post False); [done|]).
  - apply parse_bulk_str_post.
  - by apply (parse_line_range Simple).
  - by apply (parse_line_range Integer).
  - by apply (parse_line_range Error).
  - subst c. destruct (parse_array_post fuel _ buf IH) as (r & -> & Hr); [lia|].
    eexists. split; [done|]. by eapply advanced_post.
  - by eexists.
Qed.

(** ** More input does not change a decision *)

(** Any answer but [NotEnoughData] is final. *)
Definition final {A} (r : outcome ParseError A) : Prop := r ≠ Err NotEnoughData.

Lemma final_bind {A B} (r : outcome ParseError A) (k : A → outcome ParseError B) :
  final (r ≫= k) → final r.
Proof. unfold final. destruct r as [|[]|]; cbn; congruence. Qed.

Lemma final_cases {A} (r : outcome ParseError A) : r = Err NotEnoughData ∨ final r.
Proof. unfold final. destruct r as [|[]|]; auto. Qed.

Lemma parse_line_app buf ext : final (parse_line buf) → parse_line (buf ++ ext) = parse_line buf.
Proof.
  unfold parse_line. destruct (memchr LF buf) as [i|] eqn:Hi; [|done].
  by rewrite (memchr_app _ _ _ _ Hi).
Qed.

Lemma parse_len_app buf ext : final (parse_len buf) → parse_len (buf ++ ext) = parse_len buf.
Proof.
  intros Hf. pose proof (final_bind _ _ Hf) as Hl. revert Hf. unfold parse_len.
  rewrite parse_line_app by done. pose proof (parse_line_post buf) as Hp.
  destruct (parse_line buf) as [[[s e] n]|err|]; cbn in Hp |- *; [|done..].
  destruct Hp as (? & ? & -> & ?).
  by rewrite (get_range_app buf ext (0, e) _ (get_range_Some buf 0 e ltac:(lia) ltac:(lia))),
    (get_range_Some buf 0 e) by lia.
Qed.

Lemma parse_bulk_str_app buf ext :
  final (parse_bulk_str buf) → parse_bulk_str (buf ++ ext) = parse_bulk_str buf.
Proof.
  intros Hf. pose proof (final_bind _ _ Hf) as Hl. revert Hf. unfold parse_bulk_str.
  rewrite parse_len_app by done. destruct (parse_len buf) as [[len n]|err|]; cbn; [|done..].
  destruct (len <? 0)%Z; [done|]. rewrite length_app.
  destruct (N.ltb_spec (N.of_nat (length buf)) (N.of_nat n + Z.to_N len + 2)); [done|].
  intros _. destruct (N.ltb_spec (N.of_nat (length buf + length ext))
    (N.of_nat n + Z.to_N len + 2)); [lia|done].
Qed.

(** [parse'] decides at least as much as [parse]. *)
Definition extends (m m' : nat) (parse parse' : bytes → parsed RespIndex) : Prop :=
  ∀ buf ext r, length buf < m → length (buf ++ ext) < m' →
    parse buf = Some r → final r → parse' (buf ++ ext) = Some r.

Lemma parse_elements_app m m' parse parse' buf ext :
  parses_below m parse → extends m m' parse parse' →
  length buf < m → length (buf ++ ext) < m' → ∀ fuel fuel' size consumed r,
  fuel ≤ fuel' → consumed ≤ length buf →
  parse_elements parse fuel size buf consumed = Some r → final r →
  parse_elements parse' fuel' size (buf ++ ext) consumed = Some r.
Proof.
  intros Hp He Hm Hm' fuel.
  induction fuel as [|fuel IH]; intros fuel' size consumed r Hf Hc.
  { destruct fuel'; cbn; by destruct (size =? 0)%N. }
  destruct fuel' as [|fuel']; [lia|]. cbn. destruct (size =? 0)%N; [done|].
  unfold get_from. rewrite !bool_decide_eq_true_2 by (rewrite ?length_app; lia).
  destruct (Hp (drop consumed buf)) as (r1 & Hr1 & Hpost); [rewrite length_drop; lia|].
  rewrite Hr1. intros Hr Hfinal. rewrite drop_app_le by done.
  rewrite (He (drop consumed buf) ext r1); [..|done|].
  - destruct r1 as [[v k]|e|]; [|done..]. cbn in Hpost. rewrite length_drop in Hpost.
    destruct (parse_elements parse fuel _ buf _) as [r2|] eqn:Hr2; [|done].
    rewrite (IH fuel' _ _ r2); [done|lia|lia|done|].
    destruct r2 as [[l n]|[]|]; by simplify_eq.
  - rewrite length_drop. lia.
  - rewrite length_app in Hm' |- *. rewrite length_drop. lia.
  - destruct r1 as [[v k]|[]|]; by simplify_eq.
Qed.

Lemma parse_array_app m m' parse parse' buf ext r :
  parses_below m parse → extends m m' parse parse' →
  length buf < m → length (buf ++ ext) < m' →
  parse_array parse buf = Some r → final r → parse_array parse' (buf ++ ext) = Some r.
Proof.
  intros Hp He Hm Hm' Hr Hf. unfold parse_array in *.
  rewrite parse_len_app; [|intros Hl; rewrite Hl in Hr; by simplify_eq].
  pose proof (parse_len_post buf) as Hl.
  destruct (parse_len buf) as [[len n]|err|]; cbn in Hl; [|done..].
  destruct (len <? 0)%Z; [done|]. destruct (_ <? _)%N; [done|].
  destruct (parse_elements parse _ _ buf n) as [r1|] eqn:Hr1; [|done]. simplify_eq.
  rewrite (parse_elements_app m m' parse parse' buf ext Hp He Hm Hm' (S (length buf))
    (S (length (buf ++ ext))) (Z.to_N len) n r1); [done|rewrite length_app; lia|lia|done|].
  by eapply final_bind.
Qed.

Lemma parse_resp_fuel_app fuel : ∀ fuel',
  extends fuel fuel' (parse_resp_fuel fuel) (parse_resp_fuel fuel').
Proof.
  induction fuel as [|fuel IH]; intros fuel' buf ext r Hl Hl'; [lia|].
  destruct fuel' as [|fuel']; [lia|].
  destruct buf as [|c buf]; cbn [parse_resp_fuel app]; [by intros [= <-]|].
  cbn in Hl, Hl'.
  repeat case_bool_decide; try done; try (intros [= <-] Hf; apply final_bind in Hf;
    by rewrite ?parse_bulk_str_app, ?parse_line_app by done).
  destruct (parse_array (parse_resp_fuel fuel) buf) as [r1|] eqn:Hr1; [|done].
  intros [= <-] Hf. apply final_bind in Hf.
  by rewrite (parse_array_app fuel fuel' _ (parse_resp_fuel fuel') buf ext r1
    (parse_resp_fuel_post fuel) (IH fuel')) by (done || lia).
Qed.

(** ** [parse_resp] *)

Lemma parse_resp_fuel_enough buf : ∃ r, parse_resp_fuel (S (length buf)) buf = Some r.
Proof. destruct (parse_resp_fuel_post (S (length buf)) buf) as (r & ? & _); eauto. Qed.

Lemma parse_resp_Some buf r : parse_resp buf = r ↔ parse_resp_fuel (S (length buf)) buf = Some r.
Proof.
  unfold parse_resp. destruct (parse_resp_fuel_enough buf) as [r' ->]. cbn. split; congruence.
Qed.

Lemma parse_resp_post buf :
  parse_post (refused buf) (λ v n, resp_all (index_within n) v) buf (parse_resp buf).
Proof.
  destruct (parse_resp_fuel_post (S (length buf)) buf) as (r & Hr & Hpost); [lia|].
  by rewrite (proj2 (parse_resp_Some buf r) Hr).
Qed.

(** *** The stack *)

Lemma parse_elements_mono parse parse' fuel : (∀ buf r, parse buf = Some r → parse' buf = Some r) → ∀ size buf consumed r,
  parse_elements parse fuel size buf consumed = Some r → parse_elements parse' fuel size buf consumed = Some r.
Proof.
  intros Hp. induction fuel as [|fuel IH]; intros size buf consumed r; cbn; destruct (size =? 0)%N; try done.
  destruct (get_from buf consumed) as [next|]; [|done]. destruct (parse next) as [r1|] eqn:Hr; [|done]. rewrite (Hp _ _ Hr).
  destruct r1 as [[v k]|e|]; [|done..]. destruct (parse_elements parse fuel _ _ _) as [r2|] eqn:Hr2; [|done]. by rewrite (IH _ _ _ _ Hr2).
Qed.

Lemma parse_resp_fuel_mono frames : ∀ frames' buf r,
  frames ≤ frames' → parse_resp_fuel frames buf = Some r → parse_resp_fuel frames' buf = Some r.
Proof.
  induction frames as [|frames IH]; intros [|frames'] buf r Hle; [done|done|lia|]. cbn.
  destruct buf as [|c buf]; [done|]. repeat case_bool_decide; try done. unfold parse_array.
  destruct (parse_len buf) as [[len n]|e|]; [|done..]. destruct (len <? 0)%Z; [done|]. destruct (_ <? _)%N; [done|].
  destruct (parse_elements (parse_resp_fuel frames) _ _ _ _) as [r1|] eqn:Hr1; [|done].
  erewrite (parse_elements_mono (parse_resp_fuel frames) (parse_resp_fuel frames')); [done| |done].
  intros buf' r'. apply IH. lia.
Qed.

(** A stack that is large enough does not change the answer. *)
Lemma parse_resp_fuel_answer frames buf r : parse_resp_fuel frames buf = Some r → r = parse_resp buf.
Proof.
  intros Hr. apply (parse_resp_fuel_mono _ (frames + S (length buf))) in Hr; [|lia].
  destruct (parse_resp_fuel_enough buf) as [r' Hr']. rewrite (proj2 (parse_resp_Some buf r') Hr').
  apply (parse_resp_fuel_mono _ (frames + S (length buf))) in Hr'; [|lia]. congruence.
Qed.

Lemma parse_elements_overflow parse buf : (∀ buf v k, parse buf = Some (Ok (v, k)) → 0 < k ≤ length buf) → ∀ fuel size consumed,
  consumed ≤ length buf → length buf - consumed < fuel → parse_elements parse fuel size buf consumed = None →
  ∃ consumed', consumed ≤ consumed' ≤ length buf ∧ parse (drop consumed' buf) = None.
Proof.
  intros Hp fuel. induction fuel as [|fuel IH]; intros size consumed Hc Hf; [lia|]. cbn. destruct (size =? 0)%N; [done|].
  unfold get_from. rewrite bool_decide_eq_true_2 by done. destruct (parse (drop consumed buf)) as [[[v k]|e|]|] eqn:Hr; [|done|done|eauto].
  apply Hp in Hr. rewrite length_drop in Hr. intros Hn. destruct (IH (size - 1)%N (consumed + k)) as (c & Hc' & Hnone); [lia|lia| |].
  - by destruct (parse_elements parse fuel _ _ _) as [[[]| |]|].
  - exists c. split; [lia|done].
Qed.

(** The stack overflows on nested arrays only, whose headers have at least three
    bytes each. *)
Lemma parse_resp_overflow frames : ∀ buf, parse_resp_fuel frames buf = None → 3 * frames ≤ length buf.
Proof.
  induction frames as [|frames IH]; intros buf; [lia|]. cbn. destruct buf as [|c buf]; [done|]. repeat case_bool_decide; try done.
  unfold parse_array. pose proof (parse_len_post buf) as Hl. destruct (parse_len buf) as [[len n]|e|]; [|done..].
  cbn in Hl. destruct (len <? 0)%Z; [done|]. destruct (_ <? _)%N; [done|].
  destruct (parse_elements _ _ _ _ _) eqn:He; [done|]. intros _.
  apply parse_elements_overflow in He as (k & Hk & Hnone%IH); [|..|lia|lia].
  - rewrite length_drop in Hnone. cbn [length]. lia.
  - intros buf' v k Hr%parse_resp_fuel_answer. pose proof (parse_resp_post buf') as Hp. rewrite <- Hr in Hp. cbn in Hp. lia.
Qed.

Lemma parse_resp_app buf ext : final (parse_resp buf) → parse_resp (buf ++ ext) = parse_resp buf.
Proof.
  intros Hf. apply parse_resp_Some.
  eapply parse_resp_fuel_app; [..|exact Hf]; [|lia|by apply parse_resp_Some]. lia.
Qed.
End decode_spec.

(** ** Round trip *)

Lemma resp_mapM_map {E A B C} (h : A → B) (f : B → outcome E C) r :
  resp_mapM f (resp_map h r) = resp_mapM (λ a, f (h a)) r.
Proof.
  induction r as [t|t|[t|]|t| |l Hl] using resp_induction; try done.
  cbn [resp_map resp_mapM]. f_equal. induction Hl as [|r l Hr Hl IH]; [done|].
  cbn. by rewrite Hr, IH.
Qed.

Lemma resp_mapM_mono {E A B} (f g : A → outcome E B) r v :
  (∀ a x, f a = Ok x → g a = Ok x) → resp_mapM f r = Ok v → resp_mapM g r = Ok v.
Proof.
  intros Hfg. revert v.
  induction r as [t|t|[t|]|t| |l Hl] using resp_induction; intros v; cbn [resp_mapM];
    try (destruct (f t) eqn:Ht; [|done..]; by rewrite (Hfg _ _ Ht)); try done.
  destruct (omapM (resp_mapM f) l) as [ys| |] eqn:Hys; [|done..]. intros [= <-].
  enough (omapM (resp_mapM g) l = Ok ys) as -> by done.
  revert ys Hys. induction Hl as [|r l Hr Hl IH]; intros ys; cbn; [done|].
  destruct (resp_mapM f r) eqn:Hfr; cbn; [|done..]. rewrite (Hr _ eq_refl). cbn.
  destruct (omapM (resp_mapM f) l) eqn:Hfl; cbn; [|done..]. by rewrite (IH _ eq_refl).
Qed.

(** [ri] describes the value [r] in [data]. *)
Definition reads (data : bytes) (ri : RespIndex) (r : RespVec) : Prop :=
  resp_mapM (E := Empty_set) (λ d, expect (get_range data d)) ri = Ok r.

Lemma get_range_shift pre buf s e x :
  get_range buf (s, e) = Some x →
  get_range (pre ++ buf) (s + length pre, e + length pre) = Some x.
Proof.
  unfold get_range. cbn. case_bool_decide; [|done]. intros [= <-].
  rewrite bool_decide_eq_true_2 by (rewrite length_app; lia).
  rewrite drop_app_ge by lia. do 2 f_equal; [lia|f_equal; lia].
Qed.

Lemma reads_frame pre data post ri r :
  reads data ri r → reads (pre ++ data ++ post) (advance (length pre) ri) r.
Proof.
  unfold reads, advance. rewrite resp_mapM_map. apply resp_mapM_mono.
  intros [s e] x. destruct (get_range data (s, e)) as [y|] eqn:Hy; [|done]. intros [= <-].
  apply (get_range_app _ post) in Hy. apply (get_range_shift pre) in Hy.
  unfold advance_index. cbn [fst snd]. by rewrite Hy.
Qed.

Lemma reads_elements data li l :
  reads data (Arr (Elements li)) (Arr (Elements l)) ↔ Forall2 (reads data) li l.
Proof.
  unfold reads. cbn [resp_mapM]. split.
  - intros Hr. apply (omapM_Ok_inv (E := Empty_set)).
    destruct (omapM _ li) as [ys| |] eqn:Hx; cbn in Hr; [|done..].
    injection Hr as <-. exact Hx.
  - intros HF. enough (omapM (resp_mapM (λ d, expect (E := Empty_set) (get_range data d))) li = Ok l)
      as -> by done.
    induction HF as [|ri r li l Hr HF IH]; cbn; [done|]. by rewrite Hr, IH.
Qed.

(** Values whose encoding can be read back: a line holds no line feed, a
    length fits [i64], and an array fits a vector. *)
Fixpoint encodable `{DecoderEnv} (r : RespVec) : bool :=
  match r with
  | Error s | Simple s | Integer s => bool_decide (LF ∉ s)
  | Bulk (Str s) => (N.of_nat (length s) <=? i64_max)%N
  | Bulk BulkNil | Arr ArrayNil => true
  | Arr (Elements l) =>
      (N.of_nat (length l) <=? N.min i64_max vec_capacity_max)%N && forallb encodable l
  end.

Section roundtrip.
Context `{DecoderEnv} {Hbtoi : BtoiLaws}.

Abbreviation encs l := (foldr (λ r acc, encoded r ++ acc) [] l) (only parsing).

Lemma parse_len_header s z rest :
  LF ∉ s → btoi s = Some z → parse_len (s ++ [CR; LF] ++ rest) = Ok (z, length s + 2).
Proof.
  intros Hs Hz. unfold parse_len. rewrite parse_line_cr by done. cbn.
  rewrite get_range_Some by (rewrite ?length_app; lia). cbn.
  rewrite Nat.sub_0_r, drop_0, take_app_length. by rewrite Hz.
Qed.

Lemma parse_len_number n rest :
  (N.of_nat n ≤ i64_max)%N →
  parse_len (bytes_of (to_string (N.of_nat n)) ++ [CR; LF] ++ rest) =
  Ok (Z.of_nat n, length (bytes_of (to_string (N.of_nat n))) + 2).
Proof.
  intros. rewrite (parse_len_header _ (Z.of_nat n)); [done|apply number_no_lf|].
  rewrite btoi_to_string by done. f_equal. lia.
Qed.

(** The statement of the round trip for one value. *)
Definition parses_back (r : RespVec) : Prop := ∀ fuel rest,
  length (encoded r ++ rest) < fuel →
  ∃ ri, parse_resp_fuel fuel (encoded r ++ rest) = Some (Ok (ri, length (encoded r))) ∧
    reads (encoded r) ri r.

Lemma encoded_length r : 0 < length (encoded r).
Proof. destruct r as [?|?|[?|]|?|[?|]]; cbn; lia. Qed.

Lemma parse_elements_back l : Forall parses_back l → ∀ m fuel pre rest,
  length (pre ++ encs l ++ rest) < m → length (encs l ++ rest) < fuel →
  ∃ li, parse_elements (parse_resp_fuel m) fuel (N.of_nat (length l)) (pre ++ encs l ++ rest)
      (length pre) = Some (Ok (li, length (pre ++ encs l))) ∧
    Forall2 (reads (pre ++ encs l)) li l.
Proof.
  induction 1 as [|r l Hr Hl IH]; intros m fuel pre rest Hm Hf.
  { exists []. rewrite app_nil_r. by destruct fuel. }
  cbn [foldr] in *. rewrite <-app_assoc in Hm, Hf |- *. destruct fuel as [|fuel]; [lia|].
  cbn [parse_elements length]. rewrite (proj2 (N.eqb_neq _ 0)) by lia.
  unfold get_from. rewrite bool_decide_eq_true_2 by (rewrite length_app; lia).
  rewrite drop_app_length.
  destruct (Hr m (encs l ++ rest)) as (ri & -> & Hri); [rewrite !length_app in *; lia|].
  replace (N.of_nat (S (length l)) - 1)%N with (N.of_nat (length l)) by lia.
  rewrite <-length_app, (app_assoc pre).
  destruct (IH m fuel (pre ++ encoded r) rest) as (li & -> & Hli).
  { rewrite !length_app in *. lia. }
  { pose proof (encoded_length r). rewrite !length_app in *. lia. }
  eexists. rewrite <-app_assoc in Hli |- *. split; [done|].
  constructor; [by apply reads_frame|done].
Qed.

Lemma parses_back_line prefix (wrap : ∀ T, T → Resp T) s :
  LF ∉ s →
  (∀ fuel buf, parse_resp_fuel (S fuel) (prefix :: buf) =
    Some (p ← parse_line buf; Ok (advanced (wrap DataIndex) 1 p))) →
  (∀ n d, advance n (wrap _ d) = wrap _ (advance_index n d)) →
  encoded (wrap _ s) = prefix :: s ++ [CR; LF] →
  (∀ data d, reads data (wrap _ d) (wrap _ s) ↔ get_range data d = Some s) →
  parses_back (wrap _ s).
Proof.
  intros Hs Hparse Hadv Henc Hreads [|fuel] rest Hf; [lia|].
  rewrite Henc. cbn [app]. rewrite <-app_assoc, Hparse, parse_line_cr by done.
  eexists. split; [cbn; rewrite length_app; do 4 f_equal; cbn; lia|].
  cbn [fst]. rewrite Hadv, Hreads. unfold advance_index. cbn [fst snd].
  rewrite get_range_Some by (cbn; rewrite ?length_app; lia).
  replace (_ + 1 - _) with (length s) by lia. cbn. by rewrite drop_0, take_app_length.
Qed.

Lemma parses_back_bulk s : (N.of_nat (length s) ≤ i64_max)%N → parses_back (Bulk (Str s)).
Proof.
  intros Hs [|fuel] rest Hf; [lia|]. set (h := bytes_of (to_string (N.of_nat (length s)))).
  assert (encoded (Bulk (Str s)) = "$"%char :: h ++ [CR; LF] ++ s ++ [CR; LF]) as -> by done.
  eexists (Bulk (Str _)). split.
  - replace (_ ++ rest) with ("$"%char :: h ++ [CR; LF] ++ s ++ [CR; LF] ++ rest)
      by (cbn; rewrite <-app_assoc; cbn; by rewrite <-app_assoc).
    cbn [parse_resp_fuel]. rewrite bool_decide_eq_true_2 by done.
    unfold parse_bulk_str. unfold h at 1. rewrite (parse_len_number (length s)) by done. cbn [mbind outcome_bind].
    rewrite (proj2 (Z.ltb_ge _ 0)) by lia. fold h.
    rewrite (proj2 (N.ltb_ge _ _)) by (rewrite !length_app; cbn [length]; lia).
    cbn [mbind outcome_bind]. unfold advanced. cbn. do 3 f_equal. rewrite !length_app. cbn [length].
    rewrite length_app. cbn [length]. lia.
  - unfold reads. cbn [resp_mapM]. unfold advance_index. cbn [fst snd].
    rewrite (app_assoc h), app_comm_cons.
    replace (_ + 1, _) with (0 + length ("$"%char :: h ++ [CR; LF]), length s + length ("$"%char :: h ++ [CR; LF]))
      by (cbn [length]; rewrite length_app; cbn [length]; f_equal; lia).
    rewrite (get_range_shift _ _ 0 (length s) s); [done|].
    rewrite get_range_Some by (rewrite ?length_app; lia).
    by rewrite Nat.sub_0_r, drop_0, take_app_length.
Qed.

Lemma parses_back_nil c r (v : RespIndex) :
  (∀ fuel rest, parse_resp_fuel (S fuel) (c :: bytes_of "-1" ++ [CR; LF] ++ rest) = Some (Ok (v, 5))) →
  encoded r = c :: bytes_of "-1" ++ [CR; LF] → (∀ data, reads data v r) → parses_back r.
Proof.
  intros Hp Henc Hv [|fuel] rest Hf; [lia|]. exists v. rewrite Henc.
  split; [apply Hp|apply Hv].
Qed.

Lemma parses_back_elements l :
  (N.of_nat (length l) ≤ N.min i64_max vec_capacity_max)%N → Forall parses_back l →
  parses_back (Arr (Elements l)).
Proof.
  intros Hlen Hl [|fuel] rest Hf; [lia|]. set (h := bytes_of (to_string (N.of_nat (length l)))).
  assert (encoded (Arr (Elements l)) = "*"%char :: (h ++ [CR; LF]) ++ encs l) as Henc
    by (rewrite <-app_assoc; done).
  rewrite Henc in *. cbn [app length] in Hf.
  destruct (parse_elements_back l Hl fuel (S (length ((h ++ [CR; LF]) ++ encs l ++ rest)))
    (h ++ [CR; LF]) rest) as (li & Hli & Hreads).
  { rewrite <-app_assoc in Hf. lia. }
  { rewrite !length_app. lia. }
  exists (advance 1 (Arr (Elements li))). split.
  - cbn [app parse_resp_fuel]. repeat (rewrite bool_decide_eq_false_2 by done).
    rewrite bool_decide_eq_true_2 by done. unfold parse_array.
    rewrite <-!app_assoc, (parse_len_number (length l)) by lia. fold h.
    rewrite (proj2 (Z.ltb_ge _ 0)), (proj2 (N.ltb_ge _ _)) by lia.
    rewrite <-!app_assoc in Hli. replace (Z.to_N (Z.of_nat (length l))) with (N.of_nat (length l)) by lia.
    replace (length h + 2) with (length (h ++ [CR; LF])) by (rewrite length_app; cbn; lia).
    by rewrite Hli.
  - apply (reads_elements _ li l) in Hreads.
    apply (reads_frame ["*"%char] _ []) in Hreads. by rewrite app_nil_r in Hreads.
Qed.

Lemma encodable_parses_back r : encodable r = true → parses_back r.
Proof.
  induction r as [s|s|[s|]|s| |l Hl] using resp_induction; cbn [encodable]; intros He.
  - apply (parses_back_line "-"%char (λ T, @Error T)); try done.
    + by apply bool_decide_eq_true_1 in He.
    + intros data d. unfold reads. cbn. by destruct (get_range data d); split; intros [= ->].
  - apply (parses_back_line "+"%char (λ T, @Simple T)); try done.
    + by apply bool_decide_eq_true_1 in He.
    + intros data d. unfold reads. cbn. by destruct (get_range data d); split; intros [= ->].
  - apply parses_back_bulk. by apply N.leb_le.
  - apply (parses_back_nil "$"%char _ (Bulk BulkNil)); try done. intros fuel rest.
    cbn [parse_resp_fuel]. rewrite bool_decide_eq_true_2 by done. unfold parse_bulk_str.
    by rewrite (parse_len_header (bytes_of "-1") (-1)) by (apply btoi_minus_one || apply (number_no_lf 1) || set_solver).
  - apply (parses_back_line ":"%char (λ T, @Integer T)); try done.
    + by apply bool_decide_eq_true_1 in He.
    + intros data d. unfold reads. cbn. by destruct (get_range data d); split; intros [= ->].
  - apply (parses_back_nil "*"%char _ (Arr ArrayNil)); try done. intros fuel rest.
    cbn [parse_resp_fuel]. repeat (rewrite bool_decide_eq_false_2 by done).
    rewrite bool_decide_eq_true_2 by done. unfold parse_array.
    by rewrite (parse_len_header (bytes_of "-1") (-1)) by (apply btoi_minus_one || set_solver).
  - apply andb_true_iff in He as [Hlen He]. apply parses_back_elements; [by apply N.leb_le|].
    rewrite forallb_forall in He. rewrite Forall_forall in Hl |- *.
    intros r Hr. apply Hl; [done|]. apply He. by apply list_elem_of_In.
Qed.
End roundtrip.

(** An [i64] reader and a 64-bit platform on which an element of a vector of
    [RespIndex] takes 32 bytes: the laws can be met. *)
Definition btoi_i64 (s : bytes) : option Z :=
  match s with
  | [] => None
  | c :: s' =>
      if bool_decide (c = "-"%char) then
        match s' with
        | [] => None
        | _ => (λ n, - Z.of_N n)%Z <$> parse_digits (2 ^ 63) 0 (String.string_of_list_ascii s')
        end
      else
        n ← parse_u64 (String.string_of_list_ascii s);
        if (n <=? i64_max)%N then Some (Z.of_N n) else None
  end.
#[local] Instance env_64 : DecoderEnv := {| btoi := btoi_i64; vec_capacity_max := 2 ^ 58 - 1 |}.

Lemma parse_digits_le max s : ∀ acc n, (acc ≤ max)%N → parse_digits max acc s = Some n → (n ≤ max)%N.
Proof.
  induction s as [|c s IH]; intros acc n Hacc; cbn; [congruence|].
  destruct (digit c) as [d|]; cbn; [|done].
  destruct (N.leb_spec (acc * 10 + d) max); [by apply IH|done].
Qed.

#[local] Instance env_64_laws : BtoiLaws (H := env_64).
Proof.
  split; cbn [btoi env_64].
  - unfold btoi_i64. intros [|c s] z; [done|]. case_bool_decide.
    + destruct s as [|d s]; [done|].
      destruct (parse_digits _ _ _) as [n|] eqn:Hn; cbn; [|done]. intros [= <-].
      apply parse_digits_le in Hn; [|done]. unfold i64_max. lia.
    + destruct (parse_u64 _) as [n|]; cbn; [|done].
      destruct (N.leb_spec n i64_max); [|done]. intros [= <-]. lia.
  - intros n Hn. unfold btoi_i64.
    assert (parse_u64 (String.string_of_list_ascii (bytes_of (to_string n))) = Some n) as Hp.
    { unfold bytes_of. rewrite String.string_of_list_ascii_of_string. apply parse_u64_to_string.
      unfold i64_max, u64_max, u64_modulus in *. lia. }
    assert ("-"%char ∉ bytes_of (to_string n)) as Hc by (apply no_char_b, to_string_no_char; done).
    destruct (bytes_of (to_string n)) as [|c s]; [done|].
    rewrite bool_decide_eq_false_2 by set_solver. rewrite Hp. cbn.
    by rewrite (proj2 (N.leb_le _ _)).
  - done.
Qed.

(** ** Claims *)

Section claims.
Context `{DecoderEnv} {Hbtoi : BtoiLaws}.

Lemma parse_resp_encoded r rest :
  encodable r = true →
  ∃ ri, parse_resp (encoded r ++ rest) = Ok (ri, length (encoded r)) ∧ reads (encoded r) ri r.
Proof.
  intros Hr. destruct (encodable_parses_back r Hr (S (length (encoded r ++ rest))) rest)
    as (ri & Hp & Hri); [lia|].
  exists ri. split; [by apply parse_resp_Some|done].
Qed.

Lemma resp_to_buf_encoded buf r : resp_to_buf buf r = (buf ++ encoded r, length (encoded r)).
Proof. apply (encode_resp_spec (HW := vec_writer_laws)). Qed.

Lemma parse_resp_prefix r p q :
  encodable r = true → encoded r = p ++ q → q ≠ [] → parse_resp p = Err NotEnoughData.
Proof.
  intros Hr Hpq Hq. destruct (final_cases (parse_resp p)) as [|Hf]; [done|].
  exfalso. destruct (parse_resp_encoded r [] Hr) as (ri & Hri & _).
  rewrite app_nil_r, Hpq, parse_resp_app in Hri by done.
  pose proof (parse_resp_post p) as Hp. rewrite Hri in Hp. cbn in Hp.
  rewrite length_app in Hp. destruct q; [done|]. cbn in Hp. lia.
Qed.

Lemma reads_to_resp_vec {E} data ri r :
  reads data ri r → to_resp_vec (E := E) (mkIndexedResp ri data) = Ok r.
Proof.
  unfold reads, to_resp_vec. cbn. revert r.
  induction ri as [t|t|[t|]|t| |l Hl] using resp_induction; intros r; cbn [resp_mapM];
    try (by destruct (get_range data t); cbn; intros [= <-]); try by intros [= <-].
  destruct (omapM _ l) as [ys| |] eqn:Hys; [|done..]. intros [= <-].
  enough (omapM (resp_mapM (λ d, expect (E := E) (get_range data d))) l = Ok ys) as -> by done.
  revert ys Hys. induction Hl as [|ri l Hri Hl IH]; intros ys; cbn; [by intros [= <-]|].
  destruct (resp_mapM _ ri) eqn:Hfr; cbn; [|done..]. rewrite (Hri _ eq_refl). cbn.
  destruct (omapM _ l) eqn:Hfl; cbn; [|done..]. intros [= <-]. by rewrite (IH _ eq_refl).
Qed.

Lemma get_range_in {E} buf n d :
  n ≤ length buf → index_within n d → ∃ x, expect (E := E) (get_range (take n buf) d) = Ok x.
Proof.
  destruct d as [s e]. intros Hn [? ?]. cbn in *.
  rewrite get_range_Some by (rewrite ?length_take; lia). by eexists.
Qed.

Lemma get_array_element_total {E} buf n ri i :
  n ≤ length buf → resp_all (index_within n) ri →
  ∃ e, get_array_element (E := E) (mkIndexedResp ri (take n buf)) i = Ok e.
Proof.
  intros Hn Hri. unfold get_array_element. cbn [ir_resp ir_data].
  destruct ri as [?|?|?|?|[l|]]; try by eexists.
  destruct (l !! i) as [[?|?|[d|]|?|?]|] eqn:Hi; try by eexists.
  apply resp_all_elements in Hri. rewrite Forall_forall in Hri.
  apply list_elem_of_lookup_2, Hri in Hi.
  destruct (get_range_in (E := E) buf n d Hn Hi) as [x ->]. by eexists.
Qed.

Lemma resp_mapM_total {E A B} (f : A → outcome E B) (P : A → Prop) r :
  (∀ a, P a → ∃ x, f a = Ok x) → resp_all P r → ∃ v, resp_mapM f r = Ok v.
Proof.
  intros Hf. induction r as [t|t|[t|]|t| |l Hl] using resp_induction;
    try (intros [x Hx]%Hf; cbn; rewrite Hx; by eexists); try by eexists.
  rewrite resp_all_elements. intros HP.
  assert (∃ ys, omapM (resp_mapM f) l = Ok ys) as [ys Hys]; [|cbn; rewrite Hys; by eexists].
  induction Hl as [|r l Hr Hl IH]; [by eexists|]. apply Forall_cons in HP as [Hp HP].
  destruct (Hr Hp) as [v Hv], (IH HP) as [ys Hys]. cbn. rewrite Hv. cbn. rewrite Hys. by eexists.
Qed.

(** C36. Encoding a value and decoding the bytes gives the value back, whatever
    follows in the buffer: the decoder cuts exactly the encoding off and
    reads the same value from it. *)
Theorem resp_roundtrip r rest :
  encodable r = true →
  ∃ ri, parse_indexed_resp ((resp_to_buf [] r).1 ++ rest) = Ok (mkIndexedResp ri (resp_to_buf [] r).1, rest) ∧
    to_resp_vec (E := ParseError) (mkIndexedResp ri (resp_to_buf [] r).1) = Ok r.
Proof.
  intros Hr. rewrite resp_to_buf_encoded. cbn [fst app].
  destruct (parse_resp_encoded r rest Hr) as (ri & Hri & Hreads). exists ri.
  unfold parse_indexed_resp. rewrite Hri. cbn. rewrite take_app_length, drop_app_length.
  split; [done|]. by apply reads_to_resp_vec.
Qed.

(** The decoder works on a stream: an answer other than [NotEnoughData]
    does not change when more bytes arrive, and on every proper prefix of an
    encoded value the answer is [NotEnoughData]. *)
Theorem decoder_incremental :
  (∀ buf ext, parse_resp buf ≠ Err NotEnoughData → parse_resp (buf ++ ext) = parse_resp buf) ∧
  (∀ r p q, encodable r = true → (resp_to_buf [] r).1 = p ++ q → q ≠ [] →
    parse_resp p = Err NotEnoughData).
Proof.
  split; [exact parse_resp_app|]. intros r p q. rewrite resp_to_buf_encoded. apply parse_resp_prefix.
Qed.

(** C37. On any bytes, with a stack of any number of frames, the decoder
    returns what it returns with an unbounded stack, unless the frames are used
    up; this needs a buffer of at least three bytes for each frame.  It returns a
    value with its size, which is positive and within the buffer and with ranges
    that can be read, [InvalidProtocol] or [NotEnoughData], never
    [UnexpectedErr]; and it panics only if the buffer has the header of an array
    whose announced length is refused as the capacity of a vector. *)
Theorem decoder_safe frames buf :
  match parse_resp_fuel frames buf with
  | Some r => r = parse_resp buf
  | None => 3 * frames ≤ length buf
  end ∧
  match parse_resp buf with
  | Ok (ri, n) =>
      0 < n ∧ n ≤ length buf ∧
      (∃ r, to_resp_vec (E := ParseError) (mkIndexedResp ri (take n buf)) = Ok r) ∧
      (∀ i, ∃ e, get_array_element (E := ParseError) (mkIndexedResp ri (take n buf)) i = Ok e)
  | Err e => e ≠ UnexpectedErr
  | Panic => refused buf
  end.
Proof.
  split.
  { destruct (parse_resp_fuel frames buf) eqn:Hr; [by eapply parse_resp_fuel_answer|by apply parse_resp_overflow]. }
  pose proof (parse_resp_post buf) as Hp.
  destruct (parse_resp buf) as [[ri n]|e|]; cbn in Hp |- *; [|done..].
  destruct Hp as (? & ? & Hri). split_and!; [done..| |].
  - eapply resp_mapM_total; [|exact Hri]. intros d. apply get_range_in; lia.
  - intros i. eapply get_array_element_total; [|exact Hri]. lia.
Qed.
End claims.

(** The size hint of a value is the number of bytes the encoder appends
    to a buffer, which is also what the encoder returns. *)
Theorem size_hint_exact buf r :
  (resp_to_buf buf r).2 = get_resp_size_hint r ∧
  length (resp_to_buf buf r).1 = length buf + get_resp_size_hint r.
Proof.
  unfold get_resp_size_hint. rewrite resp_to_buf_encoded.
  rewrite (encode_resp_spec (HW := size_hint_writer_laws)). cbn. by rewrite length_app.
Qed.

(** Wherever some [i64] length is refused as the capacity of a vector, a
    22-byte array header makes the decoder panic: [parse_array] allocates for
    the announced number of elements before it reads any. *)
Theorem huge_array_panics `{DecoderEnv} {Hbtoi : BtoiLaws} rest :
  (vec_capacity_max < i64_max)%N →
  parse_resp (bytes_of "*9223372036854775807" ++ [CR; LF] ++ rest) = Panic.
Proof.
  intros Hmax. apply parse_resp_Some. cbn [length bytes_of app String.list_ascii_of_string parse_resp_fuel].
  repeat (rewrite bool_decide_eq_false_2 by done). rewrite bool_decide_eq_true_2 by done.
  unfold parse_array.
  pose proof (parse_len_header (bytes_of (to_string i64_max)) (Z.of_N i64_max) rest (number_no_lf _)
    (btoi_to_string i64_max ltac:(lia))) as Hl.
  change (bytes_of (to_string i64_max)) with (bytes_of "9223372036854775807") in Hl. cbn [bytes_of app String.list_ascii_of_string] in Hl.
  rewrite Hl, (proj2 (Z.ltb_ge _ 0)) by lia.
  rewrite (proj2 (N.ltb_lt _ _)) by (rewrite N2Z.id; done). done.
Qed.

(** The bound on the stack is not far off: the headers of nested arrays with one
    element each, of four bytes, use up one frame each, so that for any stack
    there are bytes on which the decoder overflows it. *)
Definition nested (n : nat) : bytes := mjoin (replicate n (bytes_of "*1" ++ [CR; LF])).

Theorem nested_arrays_overflow `{DecoderEnv} {Hbtoi : BtoiLaws} frames rest :
  (1 ≤ vec_capacity_max)%N → parse_resp_fuel frames (nested frames ++ rest) = None ∧ length (nested frames) = 4 * frames.
Proof.
  intros Hmax. induction frames as [|frames [IH Hlen]]; [done|]. split.
  2: { change (nested (S frames)) with ((bytes_of "*1" ++ [CR; LF]) ++ nested frames). rewrite length_app, Hlen. cbn [bytes_of String.list_ascii_of_string app length]. lia. }
  change (nested (S frames) ++ rest) with ("*"%char :: bytes_of "1" ++ [CR; LF] ++ (nested frames ++ rest)).
  cbn [parse_resp_fuel]. repeat (rewrite bool_decide_eq_false_2 by done). rewrite bool_decide_eq_true_2 by done. unfold parse_array.
  pose proof (parse_len_header (bytes_of (to_string 1)) 1 (nested frames ++ rest) (number_no_lf _) (btoi_to_string 1 ltac:(done))) as Hl.
  change (bytes_of (to_string 1)) with (bytes_of "1") in Hl. rewrite Hl. cbn [Z.ltb Z.compare].
  rewrite (proj2 (N.ltb_ge _ _)) by done. cbn [parse_elements].
  assert (get_from (bytes_of "1" ++ [CR; LF] ++ nested frames ++ rest) (length (bytes_of "1") + 2) = Some (nested frames ++ rest)) as ->.
  { unfold get_from. rewrite bool_decide_eq_true_2 by (cbn; lia). done. }
  by rewrite IH.
Qed.

(** ** Witnesses *)

Definition demo_resp : RespVec :=
  Arr (Elements [Bulk (Str (bytes_of "SET")); Integer (bytes_of "12"); Bulk BulkNil; Arr ArrayNil; Arr (Elements [Simple (bytes_of "OK"); Error (bytes_of "ERR")])]).

Lemma resp_roundtrip_witness :
  ∃ ri, parse_indexed_resp ((resp_to_buf [] demo_resp).1 ++ bytes_of "+next") =
      Ok (mkIndexedResp ri (resp_to_buf [] demo_resp).1, bytes_of "+next") ∧
    to_resp_vec (E := ParseError) (mkIndexedResp ri (resp_to_buf [] demo_resp).1) = Ok demo_resp.
Proof. apply resp_roundtrip; vm_compute; reflexivity. Defined.

Lemma decoder_incremental_witness :
  parse_resp (bytes_of "+OK" ++ [CR; LF] ++ bytes_of "rest") = parse_resp (bytes_of "+OK" ++ [CR; LF]) ∧
  parse_resp (bytes_of "+O") = Err NotEnoughData.
Proof.
  split.
  - apply (proj1 decoder_incremental (bytes_of "+OK" ++ [CR; LF]) (bytes_of "rest")). vm_compute. discriminate.
  - apply (proj2 decoder_incremental (Simple (bytes_of "OK")) (bytes_of "+O") (bytes_of "K" ++ [CR; LF])); [vm_compute; reflexivity..|].
    discriminate.
Defined.

Lemma decoder_safe_witness :
  parse_resp (bytes_of "+OK" ++ [CR; LF]) = Ok (Simple (1, 3), 5) ∧
  ∃ r, to_resp_vec (E := ParseError) (mkIndexedResp (Simple (1, 3)) (bytes_of "+OK" ++ [CR; LF])) = Ok r.
Proof.
  split; [vm_compute; reflexivity|].
  destruct (decoder_safe 1 (bytes_of "+OK" ++ [CR; LF])) as [_ Hs].
  assert (parse_resp (bytes_of "+OK" ++ [CR; LF]) = Ok (Simple (1, 3), 5)) as Hp by (vm_compute; reflexivity).
  rewrite Hp in Hs. exact (proj1 (proj2 (proj2 Hs))).
Defined.

Lemma huge_array_panics_witness :
  parse_resp (bytes_of "*9223372036854775807" ++ [CR; LF] ++ []) = Panic.
Proof. apply huge_array_panics. vm_compute. reflexivity. Defined.
