(* ===== verification/Packet.v ===== *)
(** * Packets and their codecs

    Models [src/src/protocol/packet.rs] and the command helpers of
    [src/src/common/utils.rs]: the two representations of a RESP value
    ([RespPacket]) with the operations on commands, and the request/response
    codec the clients use, in which one request may be a batch of commands
    ([OptionalMulti]). *)

From S2P Require Import Prelude RustStr Resp.

(** An operation that has no error but may panic. *)
Abbreviation may_panic A := (outcome Empty_set A) (only parsing).

(** ** Commands *)

Definition get_command_element (resp : RespVec) (index : nat) : option bytes :=
  match resp with
  | Arr (Elements resps) =>
      match resps !! index with Some (Bulk (Str s)) => Some s | _ => None end
  | _ => None
  end.

Definition get_command_len (resp : RespVec) : option nat :=
  match resp with Arr (Elements resps) => Some (length resps) | _ => None end.

Definition change_bulk_str (resp : RespVec) (data : bytes) : RespVec * bool :=
  match resp with Bulk (Str _) => (Bulk (Str data), true) | _ => (resp, false) end.

Definition change_bulk_array_element (resp : RespVec) (index : nat) (data : bytes) : RespVec * bool :=
  match resp with
  | Arr (Elements resps) =>
      match resps !! index with
      | Some e =>
          let '(e, success) := change_bulk_str e data in
          (Arr (Elements (<[index := e]> resps)), success)
      | None => (resp, false)
      end
  | _ => (resp, false)
  end.

Definition left_trim_array (resp : RespVec) (removed_num : nat) : RespVec * option nat :=
  match resp with
  | Arr (Elements resps) =>
      let start := Nat.min removed_num (length resps) in
      let new_resps := drop start resps in
      (Arr (Elements new_resps), Some (length new_resps))
  | _ => (resp, None)
  end.

Definition array_append_front (resp : RespVec) (preceding_elements : list bytes) : RespVec * bool :=
  match resp with
  | Arr (Elements resps) =>
      (Arr (Elements (((λ s, Bulk (Str s)) <$> preceding_elements) ++ resps)), true)
  | _ => (resp, false)
  end.

(** ** [RespPacket] *)

Inductive RespPacket : Type :=
| Indexed (r : IndexedResp)
| Data (r : RespVec).

Definition packet_to_resp_vec (p : RespPacket) : may_panic RespVec :=
  match p with Indexed r => to_resp_vec r | Data r => Ok r end.

Definition packet_get_array_element (p : RespPacket) (index : nat) : may_panic (option bytes) :=
  match p with
  | Indexed r => get_array_element r index
  | Data r => Ok (get_command_element r index)
  end.

Definition packet_get_array_len (p : RespPacket) : option nat :=
  match p with Indexed r => get_array_len r | Data r => get_command_len r end.

Definition packet_get_array_last_element (p : RespPacket) : may_panic (option bytes) :=
  match packet_get_array_len p with
  | Some (S index) => packet_get_array_element p index
  | _ => Ok None
  end.

(** The four operations that rewrite a command: an indexed packet becomes a
    data packet, if the operation succeeds. *)
Definition packet_change_bulk_array_element (p : RespPacket) (index : nat) (data : bytes) :
    may_panic (RespPacket * bool) :=
  match p with
  | Indexed r =>
      resp ← to_resp_vec r;
      let '(resp, success) := change_bulk_array_element resp index data in
      Ok (if success then Data resp else p, success)
  | Data r => let '(resp, success) := change_bulk_array_element r index data in Ok (Data resp, success)
  end.

Definition packet_left_trim_cmd (p : RespPacket) (removed_num : nat) :
    may_panic (RespPacket * option nat) :=
  match p with
  | Indexed r =>
      resp ← to_resp_vec r;
      match left_trim_array resp removed_num with
      | (resp, Some remaining) => Ok (Data resp, Some remaining)
      | (_, None) => Ok (p, None)
      end
  | Data r => let '(resp, remaining) := left_trim_array r removed_num in Ok (Data resp, remaining)
  end.

Definition packet_wrap_cmd (p : RespPacket) (preceding_elements : list bytes) :
    may_panic (RespPacket * bool) :=
  match p with
  | Indexed r =>
      resp ← to_resp_vec r;
      match array_append_front resp preceding_elements with
      | (resp, true) => Ok (Data resp, true)
      | (_, false) => Ok (p, false)
      end
  | Data r => let '(resp, success) := array_append_front r preceding_elements in Ok (Data resp, success)
  end.

Definition packet_change_bulk_str (p : RespPacket) (data : bytes) : may_panic (RespPacket * bool) :=
  match p with
  | Indexed r =>
      resp ← to_resp_vec r;
      let '(resp, success) := change_bulk_str resp data in
      Ok (if success then Data resp else p, success)
  | Data r => let '(resp, success) := change_bulk_str r data in Ok (Data resp, success)
  end.

(** [EncodedPacket] and [PacketSizeHint] for [RespPacket]: the bytes given to
    the callback, and the size. *)
Definition packet_encode (p : RespPacket) : bytes * nat :=
  match p with
  | Indexed r => (ir_data r, length (ir_data r))
  | Data r => resp_to_buf [] r
  end.
Definition packet_get_size_hint (p : RespPacket) : nat :=
  match p with Indexed r => length (ir_data r) | Data r => get_resp_size_hint r end.

(** ** Decoding packets *)

Inductive DecodeError : Type := DecodeInvalidProtocol.

(** [DecodedPacket::decode] with a unit hint: the result and what is left in
    the buffer. *)
Class DecodedPacket (D : Type) := decode : bytes → outcome DecodeError (option D) * bytes.

Definition indexed_decode `{DecoderEnv} (buf : bytes) : outcome DecodeError (option IndexedResp) * bytes :=
  match parse_indexed_resp buf with
  | Ok (r, rest) => (Ok (Some r), rest)
  | Err NotEnoughData => (Ok None, buf)
  | Err InvalidProtocol => (Err DecodeInvalidProtocol, buf)
  | Err UnexpectedErr => (Err DecodeInvalidProtocol, buf)
  | Panic => (Panic, buf)
  end.

#[global] Instance resp_packet_decode `{DecoderEnv} : DecodedPacket RespPacket := λ buf,
  let '(r, rest) := indexed_decode buf in (item ← r; Ok (option_map Indexed item), rest).

#[global] Instance resp_vec_decode `{DecoderEnv} : DecodedPacket RespVec := λ buf,
  let '(r, rest) := indexed_decode buf in
  (item ← r;
   match item with Some resp => Some <$> to_resp_vec resp | None => Ok None end, rest).

(** The value a server decodes from the bytes of a command. *)
Definition command_value (cmd : list bytes) : RespVec :=
  Arr (Elements ((λ s, Bulk (Str s)) <$> cmd)).

(** ** One or several packets *)

Inductive OptionalMulti (T : Type) : Type :=
| Single (t : T)
| Multi (l : list T).
Arguments Single {T} _.
Arguments Multi {T} _.

(** [OptionalMulti::get_hint] with unit hints: only the number matters. *)
Definition get_hint {T} (p : OptionalMulti T) : OptionalMulti () :=
  match p with Single _ => Single () | Multi l => Multi ((λ _, ()) <$> l) end.

(** [OptionalMultiHintState]: an atomic number shared by the two halves of a
    connection. *)
Definition produce (state : nat) (hint : OptionalMulti ()) : nat * bool :=
  let n := match hint with Single _ => 1 | Multi v => length v + 2 end in
  if bool_decide (state = 0) then (n, true) else (state, false).

Definition consume (state : nat) : nat * option (OptionalMulti ()) :=
  (0, match state with
      | 0 => None
      | 1 => Some (Single ())
      | n => Some (Multi (repeat () (n - 2)))
      end).

(** A connection: the shared state, [OptionalMultiPacketDecoder] and the
    bytes received. *)
Record Conn (D : Type) : Type := mkConn {
  hint_state : nat;
  dec_buf : list D;
  curr_hint : option (OptionalMulti ());
  read_buf : bytes;
}.
Arguments mkConn {D} _ _ _ _.
Arguments hint_state {D} _.
Arguments dec_buf {D} _.
Arguments curr_hint {D} _.
Arguments read_buf {D} _.

Inductive EncodeError : Type := NotReady.

(** [OptionalMultiPacketEncoder::encode] for commands: the bytes to send. *)
Definition multi_encode {D} (c : Conn D) (packet : OptionalMulti (list bytes)) :
    Conn D * outcome EncodeError bytes :=
  let '(state, produced) := produce (hint_state c) (get_hint packet) in
  let c := mkConn state (dec_buf c) (curr_hint c) (read_buf c) in
  if produced then
    let cmds := match packet with Single cmd => [cmd] | Multi cmds => cmds end in
    (c, Ok (concat ((λ cmd, (command_to_buf [] cmd).1) <$> cmds)))
  else (c, Err NotReady).

Section multi_decode.
Context {D : Type} `{DecodedPacket D}.

(** The loop of [OptionalMultiPacketDecoder::decode].  Each round takes at
    least one byte off the buffer, which bounds the number of rounds; running
    out of fuel would count as a panic. *)
Fixpoint decode_loop (fuel : nat) (hint : OptionalMulti ()) (c : Conn D) :
    Conn D * outcome DecodeError (option (OptionalMulti D)) :=
  match fuel with
  | O => (c, Panic)
  | S fuel =>
      let '(r, rest) := decode (read_buf c) in
      match r with
      | Ok (Some packet) =>
          match hint with
          | Single _ => (mkConn (hint_state c) (dec_buf c) None rest, Ok (Some (Single packet)))
          | Multi hints =>
              let buf := dec_buf c ++ [packet] in
              if bool_decide (length hints = length buf) then
                (mkConn (hint_state c) [] None rest, Ok (Some (Multi buf)))
              else decode_loop fuel hint (mkConn (hint_state c) buf (curr_hint c) rest)
          end
      | Ok None => (mkConn (hint_state c) (dec_buf c) (curr_hint c) rest, Ok None)
      | Err e => (mkConn (hint_state c) (dec_buf c) (curr_hint c) rest, Err e)
      | Panic => (mkConn (hint_state c) (dec_buf c) (curr_hint c) rest, Panic)
      end
  end.

(** [OptionalMultiPacketDecoder::decode]. *)
Definition multi_decode (c : Conn D) : Conn D * outcome DecodeError (option (OptionalMulti D)) :=
  let '(state, hint_opt) :=
    match curr_hint c with
    | Some h => (hint_state c, Some h)
    | None => consume (hint_state c)
    end in
  match hint_opt with
  | None => (mkConn state (dec_buf c) (curr_hint c) (read_buf c), Ok None)
  | Some hint =>
      match hint with
      | Multi [] => (mkConn state (dec_buf c) None (read_buf c), Ok (Some (Multi [])))
      | _ => decode_loop (S (length (read_buf c))) hint (mkConn state (dec_buf c) (Some hint) (read_buf c))
      end
  end.

(** Bytes arrive in pieces; the decoder is asked after each of them. *)
Definition receive (c : Conn D) (chunk : bytes) : Conn D * outcome DecodeError (option (OptionalMulti D)) :=
  multi_decode (mkConn (hint_state c) (dec_buf c) (curr_hint c) (read_buf c ++ chunk)).

Fixpoint receive_all (c : Conn D) (chunks : list bytes) :
    Conn D * list (outcome DecodeError (option (OptionalMulti D))) :=
  match chunks with
  | [] => (c, [])
  | chunk :: chunks =>
      let '(c, r) := receive c chunk in
      let '(c, rs) := receive_all c chunks in (c, r :: rs)
  end.

(** [DecodedPacket] for [OptionalMulti]: decodes straight from the buffer,
    without keeping the packets of an incomplete batch. *)
Fixpoint optional_multi_decode_loop (n : nat) (packets : list D) (buf : bytes) :
    outcome DecodeError (option (OptionalMulti D)) * bytes :=
  match n with
  | O => (Ok (Some (Multi packets)), buf)
  | S n =>
      match decode buf with
      | (Ok (Some p), rest) => optional_multi_decode_loop n (packets ++ [p]) rest
      | (Ok None, rest) => (Ok None, rest)
      | (Err e, rest) => (Err e, rest)
      | (Panic, rest) => (Panic, rest)
      end
  end.

Definition optional_multi_decode (buf : bytes) (hint : OptionalMulti ()) :
    outcome DecodeError (option (OptionalMulti D)) * bytes :=
  match hint with
  | Single _ =>
      let '(r, rest) := decode buf in (item ← r; Ok (option_map Single item), rest)
  | Multi [] => (Ok (Some (Multi [])), buf)
  | Multi hints => optional_multi_decode_loop (length hints) [] buf
  end.
End multi_decode.

(** ** What the codec needs of a packet type

    [wire p w]: the bytes [w] are one complete packet [p]. *)
Class DecodedLaws (D : Type) `{DecodedPacket D} (wire : D → bytes → Prop) : Prop := {
  wire_nonempty p w : wire p w → w ≠ [];
  decode_whole p w rest : wire p w → decode (w ++ rest) = (Ok (Some p), rest);
  decode_part p u v : wire p (u ++ v) → v ≠ [] → decode u = (Ok None, u);
}.

Definition resp_wire `{DecoderEnv} (r : RespVec) (w : bytes) : Prop :=
  encodable r = true ∧ w = (resp_to_buf [] r).1.

#[global] Instance resp_vec_laws `{DecoderEnv} {Hb : BtoiLaws} : DecodedLaws RespVec resp_wire.
Proof.
  split.
  - intros r w [_ ->]. rewrite resp_to_buf_encoded. cbn. pose proof (encoded_length r).
    intros Heq. rewrite Heq in *. cbn in *. lia.
  - intros r w rest [Hr ->]. rewrite resp_to_buf_encoded. cbn [fst app].
    destruct (parse_resp_encoded r rest Hr) as (ri & Hri & Hreads).
    unfold decode, resp_vec_decode, indexed_decode, parse_indexed_resp. rewrite Hri.
    cbn [mbind outcome_bind]. rewrite take_app_length, drop_app_length.
    by rewrite (reads_to_resp_vec _ _ _ Hreads).
  - intros r u v [Hr Hw] Hv. rewrite resp_to_buf_encoded in Hw. cbn [fst app] in Hw.
    unfold decode, resp_vec_decode, indexed_decode, parse_indexed_resp.
    by rewrite (parse_resp_prefix r u v).
Qed.

(** Where a cut of a concatenation falls. *)
Lemma app_cut {A} (u v w t : list A) :
  u ++ v = w ++ t → (∃ k, u = w ++ k ∧ t = k ++ v) ∨ (∃ k, k ≠ [] ∧ w = u ++ k ∧ v = k ++ t).
Proof.
  intros [(k & -> & ->)|([|x k] & -> & ->)]%app_eq_inv.
  - left. by exists k.
  - left. exists []. by rewrite !app_nil_r.
  - right. by exists (x :: k).
Qed.

Section batch.
Context {D : Type} `{HD : DecodedLaws D wire}.

(** The request's hint, the packets of its response, and the response. *)
Inductive shape : OptionalMulti () → list D → OptionalMulti D → Prop :=
| shape_single p : shape (Single ()) [p] (Single p)
| shape_multi hs ps : length hs = length ps → ps ≠ [] → shape (Multi hs) ps (Multi ps).

Abbreviation conn st ps hint u := (mkConn (D := D) st ps hint u) (only parsing).

Lemma decode_loop_whole hint st h resp : ∀ ps ws fuel ps0 rest,
  Forall2 wire ps ws → ps ≠ [] → shape hint (ps0 ++ ps) resp →
  length (concat ws ++ rest) < fuel →
  decode_loop fuel hint (conn st ps0 h (concat ws ++ rest)) = (conn st [] None rest, Ok (Some resp)).
Proof.
  induction ps as [|p ps IH]; intros ws fuel ps0 rest Hw Hne Hs Hf; [done|].
  apply Forall2_cons_inv_l in Hw as (w & ws' & Hpw & Hw & ->).
  destruct fuel as [|fuel]; [lia|]. cbn [concat decode_loop read_buf].
  rewrite <-app_assoc, (decode_whole _ _ _ Hpw). cbn [hint_state dec_buf curr_hint].
  inversion Hs as [q Hq|hs qs Hlen _]; subst.
  - destruct ps0 as [|? [|]]; simplify_eq/=. by inversion Hw; subst.
  - rewrite length_app in Hlen. rewrite length_app. cbn [length] in *. destruct ps as [|p' ps].
    + inversion Hw; subst. rewrite bool_decide_eq_true_2 by (cbn in *; lia). done.
    + rewrite bool_decide_eq_false_2 by (cbn in *; lia). apply wire_nonempty in Hpw.
      rewrite (IH ws' fuel (ps0 ++ [p]) rest); [done..| |].
      { by rewrite <-app_assoc. }
      { cbn [concat] in Hf. rewrite !length_app in *. destruct w; [done|]. cbn in Hf. lia. }
Qed.

Lemma decode_loop_part hint st h resp v : ∀ ps ws fuel ps0 u,
  Forall2 wire ps ws → shape hint (ps0 ++ ps) resp → u ++ v = concat ws → v ≠ [] →
  length u < fuel →
  ∃ ps1 ps2 ws2 u', ps = ps1 ++ ps2 ∧ Forall2 wire ps2 ws2 ∧ u' ++ v = concat ws2 ∧
    decode_loop fuel hint (conn st ps0 h u) = (conn st (ps0 ++ ps1) h u', Ok None).
Proof.
  induction ps as [|p ps IH]; intros ws fuel ps0 u Hw Hs Hu Hv Hf.
  { inversion Hw; subst. by apply app_eq_nil in Hu as [_ ->]. }
  apply Forall2_cons_inv_l in Hw as (w & ws' & Hpw & Hw & ->).
  destruct fuel as [|fuel]; [lia|]. cbn [concat] in Hu. cbn [decode_loop read_buf].
  apply app_cut in Hu as [(k & -> & Hk)|(k & Hne & -> & Hk)].
  - rewrite (decode_whole _ _ _ Hpw). cbn [hint_state dec_buf curr_hint].
    destruct ps as [|p' ps]; [by inversion Hw; subst; destruct k, v|].
    inversion Hs as [q Hq|hs qs Hlen _]; subst; [by destruct ps0 as [|? [|]]; simplify_eq/=|].
    rewrite bool_decide_eq_false_2 by (rewrite !length_app in *; cbn in *; lia).
    apply wire_nonempty in Hpw.
    destruct (IH ws' fuel (ps0 ++ [p]) k) as (ps1 & ps2 & ws2 & u' & -> & ? & ? & ->); [done|..].
    { by rewrite <-app_assoc. } { done. } { done. }
    { rewrite length_app in Hf. destruct w; [done|]. cbn in Hf. lia. }
    exists (p :: ps1), ps2, ws2, u'. by rewrite <-app_assoc.
  - rewrite (decode_part _ _ _ Hpw) by done. cbn.
    exists [], (p :: ps), ((u ++ k) :: ws'), u. rewrite app_nil_r.
    split_and!; [done|by constructor| |done]. cbn. by rewrite <-app_assoc, Hk.
Qed.

(** The hint is still in the shared state or already in the decoder. *)
Definition pending (hint : OptionalMulti ()) (c : Conn D) : Prop :=
  (curr_hint c = Some hint ∧ hint_state c = 0) ∨
  (curr_hint c = None ∧ produce 0 hint = (hint_state c, true)).

Lemma consume_produce hint n : produce 0 hint = (n, true) → consume n = (0, Some hint).
Proof.
  unfold produce, consume. rewrite bool_decide_eq_true_2 by done.
  destruct hint as [[]|hs]; intros [= <-]; [done|].
  rewrite Nat.add_comm. cbn [Nat.add Nat.sub]. rewrite Nat.sub_0_r. do 3 f_equal.
  induction hs as [|[] hs IH]; cbn; [done|by rewrite IH].
Qed.

Lemma multi_decode_pending hint c ps resp :
  pending hint c → shape hint ps resp →
  multi_decode c = decode_loop (S (length (read_buf c))) hint (conn 0 (dec_buf c) (Some hint) (read_buf c)).
Proof.
  intros Hp Hs. unfold multi_decode.
  assert (match curr_hint c with Some h => (hint_state c, Some h) | None => consume (hint_state c) end
    = (0, Some hint)) as ->.
  { destruct Hp as [[-> ->]|[-> Hn]]; [done|]. by apply consume_produce. }
  destruct Hs as [|[|h hs] qs Hlen Hne]; [done| |done]. by destruct qs.
Qed.

(** The response [ps] is being received and the bytes [v] are still to come. *)
Definition receiving hint (ps : list D) (c : Conn D) (v : bytes) : Prop :=
  pending hint c ∧ ∃ ps2 ws2, ps = dec_buf c ++ ps2 ∧ Forall2 wire ps2 ws2 ∧
    read_buf c ++ v = concat ws2.

Lemma receive_part hint ps resp c chunk v :
  shape hint ps resp → receiving hint ps c (chunk ++ v) → v ≠ [] →
  ∃ c', receive c chunk = (c', Ok None) ∧ receiving hint ps c' v.
Proof.
  intros Hs (Hp & ps2 & ws2 & Hps & Hw & Hu) Hv. unfold receive.
  erewrite multi_decode_pending; [|exact Hp|exact Hs]. cbn [read_buf dec_buf].
  subst ps. rewrite app_assoc in Hu.
  destruct (decode_loop_part hint 0 (Some hint) resp v ps2 ws2
    (S (length (read_buf c ++ chunk))) (dec_buf c) (read_buf c ++ chunk))
    as (ps1 & ps3 & ws3 & u' & -> & Hw3 & Hu' & ->); [done..|lia|].
  eexists. split; [done|]. split; [by left|]. exists ps3, ws3. cbn.
  by rewrite <-app_assoc.
Qed.

Lemma receive_whole hint ps resp c chunk :
  shape hint ps resp → receiving hint ps c chunk → chunk ≠ [] →
  receive c chunk = (conn 0 [] None [], Ok (Some resp)).
Proof.
  intros Hs (Hp & ps2 & ws2 & Hps & Hw & Hu) Hc. unfold receive.
  erewrite multi_decode_pending; [|exact Hp|exact Hs]. cbn [read_buf dec_buf]. subst ps.
  rewrite Hu, <-(app_nil_r (concat ws2)). apply (decode_loop_whole hint 0 (Some hint) resp ps2 ws2); [done| |done|lia].
  intros ->. inversion Hw; subst. by apply app_eq_nil in Hu as [_ ->].
Qed.

Lemma receive_all_response hint ps resp last : shape hint ps resp → last ≠ [] → ∀ init c,
  receiving hint ps c (concat (init ++ [last])) →
  receive_all c (init ++ [last]) =
  (conn 0 [] None [], replicate (length init) (Ok None) ++ [Ok (Some resp)]).
Proof.
  intros Hs Hl. induction init as [|chunk init IH]; intros c Hr; cbn in *.
  - rewrite app_nil_r in Hr. by rewrite (receive_whole hint ps resp).
  - destruct (receive_part hint ps resp c chunk (concat (init ++ [last]))) as (c' & -> & Hr'); try done.
    { rewrite concat_app. cbn. rewrite app_nil_r. intros [_ ?]%app_eq_nil. done. }
    by rewrite IH.
Qed.
End batch.

Definition idle {D} : Conn D := mkConn 0 [] None [].

Lemma encodable_wires `{DecoderEnv} rs :
  forallb encodable rs = true → Forall2 resp_wire rs ((λ r, (resp_to_buf [] r).1) <$> rs).
Proof.
  rewrite forallb_forall. intros Hrs. apply Forall2_fmap_r, Forall_Forall2_diag. rewrite Forall_forall.
  intros r Hr. split; [|done]. by apply Hrs, list_elem_of_In.
Qed.

(** A request on an idle connection and its response: however the bytes of
    the response are cut into pieces, the decoder answers nothing until the
    last piece, then it answers exactly the response, one value for a single
    request and one value per command for a batch, and the connection is
    idle again. *)
Theorem response_received `{DecoderEnv} {Hb : BtoiLaws} packet rs (resp : OptionalMulti RespVec) init last :
  shape (get_hint packet) rs resp → forallb encodable rs = true →
  concat (init ++ [last]) = concat ((λ r, (resp_to_buf [] r).1) <$> rs) → last ≠ [] →
  ∃ sent, (multi_encode (D := RespVec) idle packet).2 = Ok sent ∧
    receive_all (multi_encode idle packet).1 (init ++ [last]) =
    (idle, replicate (length init) (Ok None) ++ [Ok (Some resp)]).
Proof.
  intros Hs Hrs Hc Hl. eexists. split; [done|].
  apply (receive_all_response (wire := resp_wire) (get_hint packet) rs); [done..|].
  split; [by right|]. eexists rs, _. split; [done|]. split; [by apply encodable_wires|done].
Qed.

Lemma response_received_witness :
  ∃ sent, (multi_encode (D := RespVec) idle (Multi [[bytes_of "PING"]; [bytes_of "GET"; bytes_of "k"]])).2 = Ok sent ∧
    receive_all (H := resp_vec_decode (H := env_64))
      (multi_encode idle (Multi [[bytes_of "PING"]; [bytes_of "GET"; bytes_of "k"]])).1
      ([bytes_of "+PO"; bytes_of "NG" ++ [CR; LF] ++ bytes_of "$1"] ++ [[CR; LF] ++ bytes_of "v" ++ [CR; LF]]) =
    (idle, replicate 2 (Ok None) ++ [Ok (Some (Multi [Simple (bytes_of "PONG"); Bulk (Str (bytes_of "v"))]))]).
Proof.
  apply (response_received (H := env_64) (Hb := env_64_laws) (Multi [[bytes_of "PING"]; [bytes_of "GET"; bytes_of "k"]])
    [Simple (bytes_of "PONG"); Bulk (Str (bytes_of "v"))]
    (Multi [Simple (bytes_of "PONG"); Bulk (Str (bytes_of "v"))])
    [bytes_of "+PO"; bytes_of "NG" ++ [CR; LF] ++ bytes_of "$1"] ([CR; LF] ++ bytes_of "v" ++ [CR; LF])).
  - apply shape_multi; [reflexivity|discriminate].
  - vm_compute. reflexivity.
  - vm_compute. reflexivity.
  - discriminate.
Defined.

(** ** The two representations of a packet *)

Lemma to_resp_vec_array {E} r l :
  to_resp_vec (E := E) r = Ok (Arr (Elements l)) →
  ∃ li, ir_resp r = Arr (Elements li) ∧
    omapM (resp_mapM (λ d, expect (E := E) (get_range (ir_data r) d))) li = Ok l.
Proof.
  destruct r as [ri data]. unfold to_resp_vec. cbn [ir_resp ir_data].
  destruct ri as [t|t|[t|]|t|[li|]]; cbn [resp_mapM];
    try (destruct (get_range data t); cbn; intros [=]); try done.
  destruct (omapM _ li) as [ys| |] eqn:Hys; intros [= <-]. eauto.
Qed.

Lemma to_resp_vec_not_array {E} r v :
  to_resp_vec (E := E) r = Ok v → (∀ l, v ≠ Arr (Elements l)) → ∀ li, ir_resp r ≠ Arr (Elements li).
Proof.
  unfold to_resp_vec. intros Hv Hn li Hri. rewrite Hri in Hv. cbn in Hv.
  destruct (omapM _ li); cbn in Hv; [|done..]. injection Hv as <-. by eapply Hn.
Qed.

Lemma get_array_element_refines {E} r v i :
  to_resp_vec (E := E) r = Ok v → get_array_element (E := E) r i = Ok (get_command_element v i).
Proof.
  intros Hv. destruct v as [?|?|?|?|[l|]];
    try (pose proof (to_resp_vec_not_array r _ Hv ltac:(done)) as Hn;
         unfold get_array_element; destruct (ir_resp r) as [?|?|?|?|[li|]]; naive_solver).
  apply to_resp_vec_array in Hv as (li & Hri & Hl). unfold get_array_element. rewrite Hri.
  apply omapM_Ok_inv in Hl. cbn [get_command_element].
  destruct (li !! i) as [ri|] eqn:Hi.
  - destruct (Forall2_lookup_l _ _ _ _ _ Hl Hi) as (x & -> & Hx).
    destruct ri as [t|t|[t|]|t|[k|]]; cbn [resp_mapM] in Hx;
      try (destruct (get_range _ t); cbn in Hx |- *; simplify_eq; done);
      try (destruct (omapM _ k); cbn in Hx; simplify_eq; done); by simplify_eq.
  - apply lookup_ge_None in Hi. rewrite (Forall2_length _ _ _ Hl) in Hi.
    by rewrite (lookup_ge_None_2 l i).
Qed.

Lemma get_array_len_refines {E} r v :
  to_resp_vec (E := E) r = Ok v → get_array_len r = get_command_len v.
Proof.
  intros Hv. destruct v as [?|?|?|?|[l|]];
    try (pose proof (to_resp_vec_not_array r _ Hv ltac:(done)) as Hn;
         unfold get_array_len; destruct (ir_resp r) as [?|?|?|?|[li|]]; naive_solver).
  apply to_resp_vec_array in Hv as (li & Hri & Hl). unfold get_array_len. rewrite Hri.
  apply omapM_Ok_inv in Hl. cbn. by rewrite (Forall2_length _ _ _ Hl).
Qed.

Lemma change_bulk_str_fails v data : (change_bulk_str v data).2 = false → (change_bulk_str v data).1 = v.
Proof. by destruct v as [?|?|[?|]|?|?]. Qed.

Lemma change_bulk_array_element_fails v i data :
  (change_bulk_array_element v i data).2 = false → (change_bulk_array_element v i data).1 = v.
Proof.
  destruct v as [?|?|?|?|[l|]]; try done. cbn.
  destruct (l !! i) as [e|] eqn:Hi; [|done].
  pose proof (change_bulk_str_fails e data) as He.
  destruct (change_bulk_str e data) as [e' []]; cbn in *; [done|].
  intros _. rewrite He by done. by rewrite list_insert_id.
Qed.

(** An operation [op] on packets does what [spec] does on values. *)
Definition op_refines {A} (op : RespPacket → may_panic (RespPacket * A))
    (spec : RespVec → RespVec * A) : Prop :=
  ∀ p v, packet_to_resp_vec p = Ok v →
    ∃ p', op p = Ok (p', (spec v).2) ∧ packet_to_resp_vec p' = Ok (spec v).1.

(** A packet that is still the received bytes with an index and a packet
    that holds a value cannot be told apart: each operation on an indexed
    packet gives what the same operation gives on the value the packet
    stands for, and none panics. *)
Theorem packet_refines_value :
  (∀ p v i, packet_to_resp_vec p = Ok v →
    packet_get_array_element p i = Ok (get_command_element v i) ∧
    packet_get_array_len p = get_command_len v) ∧
  (∀ i data, op_refines (λ p, packet_change_bulk_array_element p i data)
    (λ v, change_bulk_array_element v i data)) ∧
  (∀ data, op_refines (λ p, packet_change_bulk_str p data) (λ v, change_bulk_str v data)) ∧
  (∀ n, op_refines (λ p, packet_left_trim_cmd p n) (λ v, left_trim_array v n)) ∧
  (∀ pre, op_refines (λ p, packet_wrap_cmd p pre) (λ v, array_append_front v pre)).
Proof.
  split_and!.
  - intros [r|r] v i; cbn; [|by intros [= ->]]. intros Hv.
    split; [by apply get_array_element_refines|by eapply get_array_len_refines].
  - intros i data [r|r] v; cbn; [intros Hv|intros [= ->]].
    + rewrite Hv. cbn. pose proof (change_bulk_array_element_fails v i data) as Hc.
      destruct (change_bulk_array_element v i data) as [w []]; eexists; split; try done.
      cbn in *. by rewrite Hc.
    + destruct (change_bulk_array_element v i data). by eexists.
  - intros data [r|r] v; cbn; [intros Hv|intros [= ->]].
    + rewrite Hv. cbn. pose proof (change_bulk_str_fails v data) as Hc.
      destruct (change_bulk_str v data) as [w []]; eexists; split; try done.
      cbn in *. by rewrite Hc.
    + destruct (change_bulk_str v data). by eexists.
  - intros n [r|r] v; cbn; [intros Hv|intros [= ->]].
    + rewrite Hv. cbn. destruct v as [?|?|?|?|[l|]]; cbn; eexists; by split.
    + destruct (left_trim_array v n). by eexists.
  - intros pre [r|r] v; cbn; [intros Hv|intros [= ->]].
    + rewrite Hv. cbn. destruct v as [?|?|?|?|[l|]]; cbn; eexists; by split.
    + destruct (array_append_front v pre). by eexists.
Qed.

Definition demo_packet : RespPacket :=
  Indexed (mkIndexedResp (Arr (Elements [Bulk (Str (8, 11)); Bulk (Str (17, 18))]))
    (bytes_of "*2" ++ [CR; LF] ++ bytes_of "$3" ++ [CR; LF] ++ bytes_of "GET" ++ [CR; LF] ++ bytes_of "$1" ++ [CR; LF] ++ bytes_of "k" ++ [CR; LF])).

Lemma packet_refines_value_witness :
  packet_get_array_element demo_packet 1 = Ok (Some (bytes_of "k")) ∧
  ∃ p', packet_wrap_cmd demo_packet [bytes_of "A"] = Ok (p', true) ∧
    packet_to_resp_vec p' = Ok (Arr (Elements [Bulk (Str (bytes_of "A")); Bulk (Str (bytes_of "GET")); Bulk (Str (bytes_of "k"))])).
Proof.
  destruct packet_refines_value as (H1 & _ & _ & _ & H2). split.
  - apply (H1 demo_packet (Arr (Elements [Bulk (Str (bytes_of "GET")); Bulk (Str (bytes_of "k"))])) 1).
    vm_compute. reflexivity.
  - apply (H2 [bytes_of "A"] demo_packet (Arr (Elements [Bulk (Str (bytes_of "GET")); Bulk (Str (bytes_of "k"))]))).
    vm_compute. reflexivity.
Defined.

(** ** Forwarding *)

(** Forwarding a packet: what the decoder takes off the buffer is encoded
    again to exactly the bytes received, and the bytes encoded for a packet
    that holds a value are decoded to a packet that stands for that value.
    The size hint is the number of bytes sent in both cases. *)
Theorem packet_forwarding `{DecoderEnv} {Hb : BtoiLaws} buf p rest :
  decode (D := RespPacket) buf = (Ok (Some p), rest) →
  (packet_encode p).1 ++ rest = buf ∧
  (∃ v, packet_to_resp_vec p = Ok v) ∧
  packet_encode p = ((packet_encode p).1, packet_get_size_hint p) ∧
  ∀ v more, encodable v = true → ∃ q,
    decode (D := RespPacket) ((packet_encode (Data v)).1 ++ more) = (Ok (Some q), more) ∧
    packet_to_resp_vec q = Ok v.
Proof.
  unfold decode, resp_packet_decode, indexed_decode, parse_indexed_resp. intros Hd.
  pose proof (parse_resp_post buf) as Hp. split_and!.
  - destruct (parse_resp buf) as [[ri n]|[]|]; cbn in Hd; simplify_eq. cbn. apply take_drop.
  - destruct (parse_resp buf) as [[ri n]|[]|]; cbn in Hd; simplify_eq.
    destruct Hp as (? & ? & Hri). eapply resp_mapM_total; [|exact Hri].
    intros d. apply get_range_in. lia.
  - destruct (parse_resp buf) as [[ri n]|[]|]; cbn in Hd; by simplify_eq.
  - intros v more Hv. cbn [packet_encode]. rewrite resp_to_buf_encoded. cbn [fst app].
    destruct (parse_resp_encoded v more Hv) as (ri & -> & Hreads).
    cbn [mbind outcome_bind]. rewrite take_app_length, drop_app_length.
    eexists. split; [done|]. by apply reads_to_resp_vec.
Qed.

Lemma packet_forwarding_witness :
  (packet_encode demo_packet).1 ++ bytes_of "+OK" = (packet_encode demo_packet).1 ++ bytes_of "+OK" ∧
  ∃ v, packet_to_resp_vec demo_packet = Ok v.
Proof.
  destruct (packet_forwarding (H := env_64) (Hb := env_64_laws)
    ((packet_encode demo_packet).1 ++ bytes_of "+OK") demo_packet (bytes_of "+OK")) as (H1 & H2 & _).
  - vm_compute. reflexivity.
  - exact (conj H1 H2).
Defined.

(** [DecodedPacket::decode] of [OptionalMulti], unlike the codec above,
    loses the packets of an incomplete batch: asked for two packets when one
    and a part of the next have arrived, it answers nothing and has taken
    the first packet off the buffer. *)
Theorem optional_multi_decode_loses {D} `{HD : DecodedLaws D wire} p q w u v :
  wire p w → wire q (u ++ v) → v ≠ [] →
  optional_multi_decode (w ++ u) (Multi [(); ()]) = (Ok None, u).
Proof.
  intros Hp Hq Hv. cbn. rewrite (decode_whole _ _ _ Hp). by rewrite (decode_part _ _ _ Hq).
Qed.

Lemma optional_multi_decode_loses_witness :
  optional_multi_decode (D := RespVec) (H := resp_vec_decode (H := env_64))
    (bytes_of "+A" ++ [CR; LF] ++ bytes_of "+B") (Multi [(); ()]) = (Ok None, bytes_of "+B").
Proof.
  apply (optional_multi_decode_loses (HD := resp_vec_laws (H := env_64) (Hb := env_64_laws))
    (Simple (bytes_of "A")) (Simple (bytes_of "B")) (bytes_of "+A" ++ [CR; LF]) (bytes_of "+B") [CR; LF]).
  - split; vm_compute; reflexivity.
  - split; vm_compute; reflexivity.
  - discriminate.
Defined.
