(* ===== verification/Command.v ===== *)
(** * Commands and slots

    Models [src/src/proxy/command.rs] and the hash functions of
    [src/src/common/utils.rs]: the slot of a key, the classification of a
    command by its name, and the commands the proxy wraps for other proxies.

    A command holds a packet; by [packet_refines_value] the operations on a
    packet are those on the value it stands for, so that a command here holds
    that value.  The CRC functions of the [crc16] crate are a parameter. *)

From S2P Require Import Prelude RangeList RustStr Resp Packet.

(** ** The slot of a key *)

(** [State::<XMODEM>::calculate] and [State::<ARC>::calculate]. *)
Class Crc16 := {
  crc_xmodem : bytes → N;
  crc_arc : bytes → N;
}.

(** A bitwise implementation of both, for examples. *)
Definition crc_round (reflected : bool) (crc : N) : N :=
  if reflected then
    (if N.testbit crc 0 then N.lxor (N.shiftr crc 1) 40961 else N.shiftr crc 1)%N
  else
    (let crc' := N.land (N.shiftl crc 1) 65535 in
     if N.testbit crc 15 then N.lxor crc' 4129 else crc')%N.
Definition crc_byte (reflected : bool) (crc : N) (b : ascii) : N :=
  let x := Ascii.N_of_ascii b in
  Nat.iter 8 (crc_round reflected) (N.lxor crc (if reflected then x else N.shiftl x 8)).
Definition bitwise_crc16 : Crc16 := {|
  crc_xmodem := foldl (crc_byte false) 0%N;
  crc_arc := foldl (crc_byte true) 0%N;
|}.

Definition get_hash_tag (key : bytes) : may_panic bytes :=
  match memchr "{"%char key with
  | Some begin =>
      match get_from key (begin + 1) ≫= memchr "}"%char with
      | Some end_offset =>
          if end_offset =? 0 then Ok key
          else expect (get_range key (begin + 1, begin + 1 + end_offset))
      | None => Ok key
      end
  | None => Ok key
  end.

Definition generate_slot `{Crc16} (key : bytes) : may_panic N :=
  tag ← get_hash_tag key;
  Ok (crc_xmodem tag `mod` SLOT_NUM)%N.

Definition generate_lock_slot `{Crc16} (key : bytes) : N := (crc_arc key `mod` SLOT_NUM)%N.

Fixpoint same_slot_as `{Crc16} (slot : N) (keys : list bytes) : may_panic bool :=
  match keys with
  | [] => Ok true
  | k :: keys =>
      slot' ← generate_slot k;
      if bool_decide (slot' = slot) then same_slot_as slot keys else Ok false
  end.
Definition same_slot `{Crc16} (keys : list bytes) : may_panic bool :=
  match keys with
  | [] => Ok false
  | k :: keys => slot ← generate_slot k; same_slot_as slot keys
  end.

Definition ERR_MOVED : string := "MOVED".
Definition gen_moved (slot : N) (addr : string) : string :=
  ERR_MOVED +:+ " " +:+ to_string slot +:+ " " +:+ addr.

Definition byte_to_uppercase (b : ascii) : ascii := ascii_upper b.

(** ** Command names *)

Definition MAX_COMMAND_NAME_LENGTH : nat := 64.

Inductive CmdType : Type :=
| TPing | TInfo | TAuth | TQuit | TEcho | TSelect | TOthers | TInvalid | TUmCtl | TUmForward
| TUmSync | TCluster | TConfig | TCommand | TAsking | THello.

#[global] Instance CmdType_eq_dec : EqDecision CmdType.
Proof. solve_decision. Defined.

(** The loop that fills an [ArrayVec] with the name in upper case. *)
Fixpoint stack_cmd_name (room : nat) (cmd_name : bytes) : option bytes :=
  match cmd_name, room with
  | [], _ => Some []
  | _ :: _, 0 => None
  | b :: cmd_name, S room => cons (byte_to_uppercase b) <$> stack_cmd_name room cmd_name
  end.

Definition match_name {T} (table : list (string * T)) (others : T) (name : bytes) : T :=
  match find (λ p, bool_decide (bytes_of p.1 = name)) table with
  | Some p => p.2
  | None => others
  end.

Definition cmd_names : list (string * CmdType) :=
  [("PING", TPing); ("INFO", TInfo); ("AUTH", TAuth); ("QUIT", TQuit); ("ECHO", TEcho);
   ("SELECT", TSelect); ("UMCTL", TUmCtl); ("UMFORWARD", TUmForward); ("UMSYNC", TUmSync);
   ("CLUSTER", TCluster); ("CONFIG", TConfig); ("COMMAND", TCommand); ("ASKING", TAsking);
   ("HELLO", THello)].

Definition cmd_type_from_cmd_name (cmd_name : bytes) : CmdType :=
  match stack_cmd_name MAX_COMMAND_NAME_LENGTH cmd_name with
  | None => TOthers
  | Some name => match_name cmd_names TOthers name
  end.

Definition cmd_type_from_packet (packet : RespVec) : CmdType :=
  match get_command_element packet 0 with
  | Some cmd_name => cmd_type_from_cmd_name cmd_name
  | None => TInvalid
  end.

Inductive DataCmdType : Type :=
| DAppend | DBitcount | DBitfield | DBitop | DBitpos | DDecr | DDecrby | DGet | DGetbit | DGetrange
| DGetset | DIncr | DIncrby | DIncrbyfloat | DMget | DMset | DMsetnx | DPsetex | DSet | DSetbit
| DSetex | DSetnx | DSetrange | DStrlen | DEval | DEvalsha | DDel | DExists | DBlpop | DBrpop
| DBrpoplpush | DLpop | DRpop | DRpoplpush | DLrem | DLtrim | DHdel | DSmove | DSpop | DSrem
| DZpopmax | DZpopmin | DZrem | DZremrangebylex | DZremrangebyrank | DZremrangebyscore | DBzpopmin
| DBzpopmax | DExpire | DExpireat | DPexpire | DPexpireat | DMove | DRename | DRenamenx | DUnlink
| DOthers.

#[global] Instance DataCmdType_eq_dec : EqDecision DataCmdType.
Proof. solve_decision. Defined.

Definition is_blocking_cmd (d : DataCmdType) : bool :=
  match d with
  | DBzpopmin | DBzpopmax | DBlpop | DBrpop | DBrpoplpush => true
  | _ => false
  end.

Definition data_cmd_names : list (string * DataCmdType) :=
  [("APPEND", DAppend); ("BITCOUNT", DBitcount); ("BITFIELD", DBitfield); ("BITOP", DBitop);
   ("BITPOS", DBitpos); ("DECR", DDecr); ("DECRBY", DDecrby); ("GET", DGet); ("GETBIT", DGetbit);
   ("GETRANGE", DGetrange); ("GETSET", DGetset); ("INCR", DIncr); ("INCRBY", DIncrby);
   ("INCRBYFLOAT", DIncrbyfloat); ("MGET", DMget); ("MSET", DMset); ("MSETNX", DMsetnx);
   ("PSETEX", DPsetex); ("SET", DSet); ("SETBIT", DSetbit); ("SETEX", DSetex); ("SETNX", DSetnx);
   ("SETRANGE", DSetrange); ("STRLEN", DStrlen); ("EVAL", DEval); ("EVALSHA", DEvalsha);
   ("DEL", DDel); ("EXISTS", DExists); ("BLPOP", DBlpop); ("BRPOP", DBrpop);
   ("BRPOPLPUSH", DBrpoplpush); ("EXPIRE", DExpire); ("EXPIREAT", DExpireat);
   ("PEXPIRE", DPexpire); ("PEXPIREAT", DPexpireat); ("HDEL", DHdel); ("LPOP", DLpop);
   ("RPOP", DRpop); ("RPOPLPUSH", DRpoplpush); ("LREM", DLrem); ("LTRIM", DLtrim); ("MOVE", DMove);
   ("RENAME", DRename); ("RENAMENX", DRenamenx); ("SMOVE", DSmove); ("SPOP", DSpop);
   ("SREM", DSrem); ("UNLINK", DUnlink); ("ZPOPMAX", DZpopmax); ("ZPOPMIN", DZpopmin);
   ("BZPOPMAX", DBzpopmax); ("BZPOPMIN", DBzpopmin); ("ZREM", DZrem);
   ("ZREMRANGEBYLEX", DZremrangebylex); ("ZREMRANGEBYRANK", DZremrangebyrank);
   ("ZREMRANGEBYSCORE", DZremrangebyscore)].

Definition data_cmd_type_from_cmd_name (cmd_name : bytes) : DataCmdType :=
  match stack_cmd_name MAX_COMMAND_NAME_LENGTH cmd_name with
  | None => DOthers
  | Some name => match_name data_cmd_names DOthers name
  end.

Definition data_cmd_type_from_packet (packet : RespVec) : DataCmdType :=
  match get_command_element packet 0 with
  | Some cmd_name => data_cmd_type_from_cmd_name cmd_name
  | None => DOthers
  end.

(** Commands that may delete the key are migrated in a blocking way. *)
Definition requires_blocking_migration (d : DataCmdType) : bool :=
  match d with
  | DDel | DEval | DEvalsha | DExpire | DExpireat | DHdel | DLpop | DRpop | DRpoplpush | DLrem 
  | DLtrim | DMove | DPexpire | DPexpireat | DRename | DRenamenx | DSmove | DSpop | DSrem 
  | DUnlink | DZpopmax | DZpopmin | DZrem | DZremrangebylex | DZremrangebyrank | DZremrangebyscore => true
  | _ => false
  end.

(** ** Commands *)

Record CommandInfo : Type := mkCommandInfo {
  ci_cmd_type : CmdType;
  ci_data_cmd_type : DataCmdType;
  ci_slot : option N;
}.

Definition info_get_key (data_cmd_type : DataCmdType) (packet : RespVec) : option bytes :=
  match data_cmd_type with
  | DEval | DEvalsha => get_command_element packet 3
  | _ => get_command_element packet 1
  end.

Definition command_info_new `{Crc16} (packet : RespVec) : may_panic CommandInfo :=
  let data_cmd_type := data_cmd_type_from_packet packet in
  slot ← match info_get_key data_cmd_type packet with
         | Some key => Some <$> generate_slot key
         | None => Ok None
         end;
  Ok (mkCommandInfo (cmd_type_from_packet packet) data_cmd_type slot).

Record Command : Type := mkCommand { cmd_request : RespVec; cmd_info : CommandInfo }.

Definition command_new `{Crc16} (request : RespVec) : may_panic Command :=
  info ← command_info_new request;
  Ok (mkCommand request info).

(** The loop of [to_safe_str_vec]. *)
Fixpoint elements_from (request : RespVec) (i n : nat) : option (list bytes) :=
  match n with
  | 0 => Some []
  | S n => e ← get_command_element request i; cons e <$> elements_from request (S i) n
  end.
Definition to_safe_str_vec (c : Command) : option (list bytes) :=
  l ← get_command_len (cmd_request c);
  elements_from (cmd_request c) 0 l.

Definition change_element (c : Command) (index : nat) (data : bytes) : Command * bool :=
  let '(request, success) := change_bulk_array_element (cmd_request c) index data in
  (mkCommand request (cmd_info c), success).

Definition extract_inner_cmd `{Crc16} (c : Command) (removed_num : nat) :
    may_panic (Command * option nat) :=
  match left_trim_array (cmd_request c) removed_num with
  | (request, Some remaining) =>
      info ← command_info_new request;
      Ok (mkCommand request info, Some remaining)
  | (request, None) => Ok (mkCommand request (cmd_info c), None)
  end.

Definition wrap_cmd `{Crc16} (c : Command) (preceding_elements : list bytes) :
    may_panic (Command * bool) :=
  match array_append_front (cmd_request c) preceding_elements with
  | (request, true) =>
      info ← command_info_new request;
      Ok (mkCommand request info, true)
  | (request, false) => Ok (mkCommand request (cmd_info c), false)
  end.

Definition get_key (c : Command) : option bytes :=
  info_get_key (ci_data_cmd_type (cmd_info c)) (cmd_request c).
Definition get_slot (c : Command) : option N := ci_slot (cmd_info c).
Definition get_data_cmd_type (c : Command) : DataCmdType := ci_data_cmd_type (cmd_info c).

(** ** The hash tag *)

(** [tag] is the hash tag of [key]: what stands between the first opening
    brace and the first closing brace after it, if that is not empty. *)
Definition hash_tag_of (key tag : bytes) : Prop :=
  ∃ pre post, key = pre ++ "{"%char :: tag ++ "}"%char :: post ∧
    ("{"%char ∉ pre) ∧ ("}"%char ∉ tag) ∧ tag ≠ [].

Lemma memchr_Some c buf i :
  memchr c buf = Some i ↔ ∃ pre post, buf = pre ++ c :: post ∧ length pre = i ∧ (c ∉ pre).
Proof.
  revert i. induction buf as [|x buf IH]; intros i; cbn.
  { split; [done|]. by intros ([] & post & ? & _). }
  case_bool_decide as Hx.
  - subst x. split.
    + intros [= <-]. exists [], buf. split_and!; [done..|]. apply not_elem_of_nil.
    + intros ([|y pre] & post & Heq & <- & Hp); [done|]. injection Heq as <- _. set_solver.
  - rewrite fmap_Some. split.
    + intros (j & (pre & post & -> & <- & Hp)%IH & ->). exists (x :: pre), post.
      split_and!; [done..|]. set_solver.
    + intros ([|y pre] & post & Heq & <- & Hp); injection Heq as -> ->; [done|].
      exists (length pre). split; [|done]. apply IH. exists pre, post. set_solver.
Qed.

Lemma memchr_None c buf : memchr c buf = None ↔ c ∉ buf.
Proof.
  induction buf as [|x buf IH]; cbn; [split; [intros _; apply not_elem_of_nil|done]|].
  case_bool_decide as Hx; subst.
  - split; [done|set_solver].
  - rewrite fmap_None, IH, not_elem_of_cons. naive_solver.
Qed.

Lemma app_first_inj (c : ascii) pre pre' post post' :
  pre ++ c :: post = pre' ++ c :: post' → c ∉ pre → c ∉ pre' → pre = pre' ∧ post = post'.
Proof.
  revert pre'. induction pre as [|x pre IH]; intros [|y pre'] Heq Hp Hp'; injection Heq; intros; subst.
  - done.
  - set_solver.
  - set_solver.
  - destruct (IH pre') as [-> ->]; [done|set_solver..|done].
Qed.

(** The search never panics and finds the hash tag, if there is one. *)
Lemma get_hash_tag_spec key :
  (∃ tag, get_hash_tag key = Ok tag ∧ hash_tag_of key tag) ∨
  (get_hash_tag key = Ok key ∧ ∀ tag, ¬ hash_tag_of key tag).
Proof.
  unfold get_hash_tag. destruct (memchr "{" key) as [b|] eqn:Hb.
  2: { right. split; [done|]. intros tag (pre & post & -> & _).
       apply memchr_None in Hb. set_solver. }
  apply memchr_Some in Hb as (pre & rest & -> & <- & Hpre).
  assert (get_from (pre ++ "{"%char :: rest) (length pre + 1) = Some rest) as ->.
  { unfold get_from. rewrite bool_decide_eq_true_2 by (rewrite length_app; cbn; lia).
    f_equal. rewrite drop_app_ge by lia. by replace (length pre + 1 - length pre) with 1 by lia. }
  cbn [mbind option_bind]. destruct (memchr "}" rest) as [e|] eqn:He.
  2: { right. split; [done|]. apply memchr_None in He. intros tag (pre' & post & Heq & Hp' & _).
       apply app_first_inj in Heq as [-> ->]; [|done..]. set_solver. }
  apply memchr_Some in He as (tag & post & -> & <- & Htag).
  destruct (Nat.eqb_spec (length tag) 0) as [Hz|Hz].
  - right. split; [done|]. apply length_zero_iff_nil in Hz. subst tag. cbn.
    intros tag (pre' & post' & Heq & Hp' & Ht' & Hne). apply app_first_inj in Heq as [-> Heq]; [|done..].
    destruct tag as [|x tag]; [done|]. injection Heq as <- _. set_solver.
  - left. exists tag. split.
    + unfold get_range. cbn [fst snd]. rewrite bool_decide_eq_true_2.
      2: { rewrite length_app. cbn. rewrite length_app. cbn. lia. }
      cbn [expect]. f_equal. rewrite drop_app_ge by lia.
      replace (length pre + 1 - length pre) with 1 by lia. cbn [drop]. rewrite drop_0.
      rewrite take_app_le by lia. apply take_ge. lia.
    + exists pre, post. split_and!; [done..|]. intros ->. by apply Hz.
Qed.

Definition hash_tag (key : bytes) : bytes :=
  match get_hash_tag key with Ok tag => tag | _ => key end.
Definition slot_of `{Crc16} (key : bytes) : N := (crc_xmodem (hash_tag key) `mod` SLOT_NUM)%N.

Lemma generate_slot_Ok `{Crc16} key : generate_slot key = Ok (slot_of key).
Proof.
  unfold generate_slot, slot_of, hash_tag.
  by destruct (get_hash_tag_spec key) as [(tag & -> & _)|[-> _]].
Qed.

Lemma slot_of_lt `{Crc16} key : (slot_of key < SLOT_NUM)%N.
Proof. unfold slot_of, SLOT_NUM. apply N.mod_lt. lia. Qed.

Lemma same_slot_Ok `{Crc16} k keys :
  same_slot (k :: keys) = Ok (bool_decide (Forall (λ k', slot_of k' = slot_of k) keys)).
Proof.
  cbn. rewrite generate_slot_Ok. cbn [mbind outcome_bind].
  induction keys as [|k' keys IH]; [done|]. cbn. rewrite generate_slot_Ok. cbn [mbind outcome_bind].
  destruct (decide (slot_of k' = slot_of k)) as [Hk|Hk].
  - rewrite bool_decide_eq_true_2, IH by done. f_equal. apply bool_decide_ext. rewrite Forall_cons. naive_solver.
  - rewrite bool_decide_eq_false_2 by done. f_equal. symmetry. apply bool_decide_eq_false_2.
    rewrite Forall_cons. naive_solver.
Qed.

Lemma command_info_Ok `{Crc16} packet :
  ∃ info, command_info_new packet = Ok info ∧
    ci_slot info = slot_of <$> info_get_key (ci_data_cmd_type info) packet.
Proof.
  unfold command_info_new. destruct (info_get_key _ packet) as [key|] eqn:Hk.
  - rewrite generate_slot_Ok. eexists. split; [done|]. cbn. by rewrite Hk.
  - eexists. split; [done|]. cbn. by rewrite Hk.
Qed.

(** ** Names in any case *)

Lemma byte_to_uppercase_idem b : byte_to_uppercase (byte_to_uppercase b) = byte_to_uppercase b.
Proof. destruct b as [[] [] [] [] [] [] [] []]; vm_compute; reflexivity. Qed.

Lemma stack_cmd_name_upper room name :
  stack_cmd_name room (byte_to_uppercase <$> name) = stack_cmd_name room name.
Proof.
  revert room. induction name as [|b name IH]; intros [|room]; cbn; [done..|].
  by rewrite IH, byte_to_uppercase_idem.
Qed.

Lemma command_names_any_case name name' :
  byte_to_uppercase <$> name = byte_to_uppercase <$> name' →
  cmd_type_from_cmd_name name = cmd_type_from_cmd_name name' ∧
  data_cmd_type_from_cmd_name name = data_cmd_type_from_cmd_name name'.
Proof.
  intros Hn. unfold cmd_type_from_cmd_name, data_cmd_type_from_cmd_name.
  by rewrite <-(stack_cmd_name_upper _ name), <-(stack_cmd_name_upper _ name'), Hn.
Qed.

(** ** Wrapped commands *)

(** A command as [Command::new] makes it. *)
Definition command_ok `{Crc16} (c : Command) : Prop := command_new (cmd_request c) = Ok c.

Lemma command_new_ok `{Crc16} request : ∃ c, command_new request = Ok c ∧ command_ok c.
Proof.
  unfold command_ok, command_new. destruct (command_info_Ok request) as (info & Hi & _).
  exists (mkCommand request info). cbn. by rewrite Hi.
Qed.

Lemma extract_wrapped `{Crc16} c pre e l :
  command_ok c → cmd_request c = Arr (Elements (e :: l)) →
  ∃ c', wrap_cmd c pre = Ok (c', true) ∧ command_ok c' ∧
    cmd_request c' = Arr (Elements (((λ s, Bulk (Str s)) <$> pre) ++ e :: l)) ∧
    extract_inner_cmd c' (length pre) = Ok (c, Some (S (length l))).
Proof.
  intros Hc Hreq. unfold wrap_cmd. rewrite Hreq. cbn [array_append_front].
  destruct (command_info_Ok (Arr (Elements (((λ s, Bulk (Str s)) <$> pre) ++ e :: l)))) as (info & Hi & _).
  rewrite Hi. cbn [mbind outcome_bind]. eexists. split; [done|]. split_and!; [|done|].
  { unfold command_ok, command_new. cbn [cmd_request]. by rewrite Hi. }
  unfold extract_inner_cmd. cbn [cmd_request left_trim_array].
  rewrite length_app, length_fmap, Nat.min_l by lia.
  rewrite drop_app_length' by by rewrite length_fmap. cbn [length].
  destruct c as [r ci]. cbn in Hreq. subst r. revert Hc. unfold command_ok, command_new. cbn [cmd_request].
  destruct (command_info_new (Arr (Elements (e :: l)))) as [i|[]|]; cbn; [|done]. by intros [= ->].
Qed.

(** The check values of the two functions, and the slot that Redis documents
    for the key foo. *)
Lemma bitwise_crc16_check :
  @crc_xmodem bitwise_crc16 (bytes_of "123456789") = 12739%N ∧
  @crc_arc bitwise_crc16 (bytes_of "123456789") = 47933%N ∧
  @generate_slot bitwise_crc16 (bytes_of "foo") = Ok 12182%N ∧
  @generate_slot bitwise_crc16 (bytes_of "a{foo}b") = Ok 12182%N.
Proof. by vm_compute. Qed.
