(* ===== verification/ClusterMeta.v ===== *)
(** * Cluster metadata

    The plain data shared by the broker, the coordinator and the proxies
    ([src/src/common/cluster.rs]), and the cluster configuration
    ([src/src/common/config.rs]). *)

From S2P Require Import Prelude RangeList RustStr.

(** ** Cluster names *)

Definition CLUSTER_NAME_MAX_LENGTH : nat := 31.

Definition is_ascii_alphanumeric (c : ascii) : bool :=
  let n := N_of_ascii c in
  ((48 <=? n) && (n <=? 57) || (65 <=? n) && (n <=? 90) || (97 <=? n) && (n <=? 122))%N.

Definition cluster_name_char (c : ascii) : bool :=
  is_ascii_alphanumeric c || bool_decide (c = "@"%char) ||
  bool_decide (c = "-"%char) || bool_decide (c = "_"%char).

(** A [ClusterName] is the text accepted by [ClusterName::try_from]. *)
Abbreviation ClusterName := string (only parsing).

Definition cluster_name_try_from (s : string) : option ClusterName :=
  if string_forallb cluster_name_char s
  then if bool_decide (String.length s ≤ CLUSTER_NAME_MAX_LENGTH) then Some s else None
  else None.

Definition EMPTY_CLUSTER_NAME : ClusterName := "".

(** ** Slot ranges with their migration tag *)

Record MigrationMeta : Type := mkMigrationMeta {
  mm_epoch : N;
  mm_src_proxy_address : string;
  mm_src_node_address : string;
  mm_dst_proxy_address : string;
  mm_dst_node_address : string;
}.

#[global] Instance MigrationMeta_eq_dec : EqDecision MigrationMeta.
Proof. solve_decision. Defined.

Inductive SlotRangeTag : Type :=
| Migrating (meta : MigrationMeta)
| Importing (meta : MigrationMeta)
| TagNone.

#[global] Instance SlotRangeTag_eq_dec : EqDecision SlotRangeTag.
Proof. solve_decision. Defined.

Definition get_migration_meta (t : SlotRangeTag) : option MigrationMeta :=
  match t with Migrating m => Some m | Importing m => Some m | TagNone => None end.
Definition tag_is_stable (t : SlotRangeTag) : bool :=
  match t with TagNone => true | _ => false end.
Definition tag_is_migrating (t : SlotRangeTag) : bool :=
  match t with Migrating _ => true | _ => false end.
Definition tag_is_importing (t : SlotRangeTag) : bool :=
  match t with Importing _ => true | _ => false end.

Record SlotRange : Type := mkSlotRange {
  sr_range_list : RangeList;
  sr_tag : SlotRangeTag;
}.

#[global] Instance SlotRange_eq_dec : EqDecision SlotRange.
Proof. solve_decision. Defined.

(** [SlotRange::meta_eq]: the same task, whichever side it is seen from. *)
Definition meta_eq (a b : SlotRange) : bool :=
  if bool_decide (sr_range_list a = sr_range_list b) then
    match sr_tag a, sr_tag b with
    | TagNone, TagNone => true
    | Migrating l, Migrating r | Importing l, Importing r
    | Migrating l, Importing r | Importing l, Migrating r => bool_decide (l = r)
    | _, _ => false
    end
  else false.

Record MigrationTaskMeta : Type := mkMigrationTaskMeta {
  mtm_cluster_name : ClusterName;
  mtm_slot_range : SlotRange;
}.

#[global] Instance MigrationTaskMeta_eq_dec : EqDecision MigrationTaskMeta.
Proof. solve_decision. Defined.

(** ** Nodes, clusters and proxies *)

Record ReplPeer : Type := mkReplPeer {
  rp_node_address : string;
  rp_proxy_address : string;
}.

#[global] Instance ReplPeer_eq_dec : EqDecision ReplPeer.
Proof. solve_decision. Defined.

Inductive Role : Type := Master | Replica.

#[global] Instance Role_eq_dec : EqDecision Role.
Proof. solve_decision. Defined.

Record ReplMeta : Type := mkReplMeta { rm_role : Role; rm_peers : list ReplPeer }.

#[global] Instance ReplMeta_eq_dec : EqDecision ReplMeta.
Proof. solve_decision. Defined.

Definition repl_meta_new_free : ReplMeta := mkReplMeta Master [].

(** [ReplMeta::remove_peer]: the removed peer and the remaining ones. *)
Definition remove_peer (r : ReplMeta) (peer : ReplPeer) : option ReplPeer * ReplMeta :=
  (snd <$> list_find (λ p, p = peer) (rm_peers r),
   mkReplMeta (rm_role r) (filter (λ p, p ≠ peer) (rm_peers r))).

Record Node : Type := mkNode {
  node_address : string;
  node_proxy_address : string;
  node_slots : list SlotRange;
  node_repl : ReplMeta;
}.

#[global] Instance Node_eq_dec : EqDecision Node.
Proof. solve_decision. Defined.

Definition node_role (n : Node) : Role := rm_role (node_repl n).

(** ** Configuration *)

Inductive CompressionStrategy : Type := Disabled | SetGetOnly | AllowAll.

#[global] Instance CompressionStrategy_eq_dec : EqDecision CompressionStrategy.
Proof. solve_decision. Defined.

Record MigrationConfig : Type := mkMigrationConfig {
  max_migration_time : N;
  max_blocking_time : N;
  scan_interval : N;
  scan_count : N;
}.

#[global] Instance MigrationConfig_eq_dec : EqDecision MigrationConfig.
Proof. solve_decision. Defined.

Record ClusterConfig : Type := mkClusterConfig {
  compression_strategy : CompressionStrategy;
  migration_config : MigrationConfig;
}.

#[global] Instance ClusterConfig_eq_dec : EqDecision ClusterConfig.
Proof. solve_decision. Defined.

Definition default_migration_config : MigrationConfig :=
  mkMigrationConfig (3 * 60 * 60) 10000 500 16.
Definition default_cluster_config : ClusterConfig :=
  mkClusterConfig Disabled default_migration_config.

Inductive ConfigError : Type := ReadonlyField | FieldNotFound | InvalidValue | Forbidden.

#[global] Instance ConfigError_eq_dec : EqDecision ConfigError.
Proof. solve_decision. Defined.

Definition config_error_to_string (e : ConfigError) : string :=
  match e with
  | ReadonlyField => "READONLY_FIELD"
  | FieldNotFound => "FIELD_NOT_FOUND"
  | InvalidValue => "INVALID_VALUE"
  | Forbidden => "FORBIDDEN"
  end.

Definition compression_to_str (s : CompressionStrategy) : string :=
  match s with
  | Disabled => "disabled" | SetGetOnly => "set_get_only" | AllowAll => "allow_all"
  end.

Definition compression_from_str `{UnicodeCase} (s : string) : option CompressionStrategy :=
  let lowercase := to_lowercase s in
  if bool_decide (lowercase = "disabled") then Some Disabled
  else if bool_decide (lowercase = "set_get_only") then Some SetGetOnly
  else if bool_decide (lowercase = "allow_all") then Some AllowAll
  else None.

(** [MigrationConfig::set_field]. *)
Definition migration_set_field `{UnicodeCase} (c : MigrationConfig) (field value : string)
  : outcome ConfigError MigrationConfig :=
  let field := to_lowercase field in
  if bool_decide (field = "max_migration_time") then
    v ← ok_or (parse_u64 value) InvalidValue;
    Ok (mkMigrationConfig v (max_blocking_time c) (scan_interval c) (scan_count c))
  else if bool_decide (field = "max_blocking_time") then
    v ← ok_or (parse_u64 value) InvalidValue;
    Ok (mkMigrationConfig (max_migration_time c) v (scan_interval c) (scan_count c))
  else if bool_decide (field = "scan_interval") then
    v ← ok_or (parse_u64 value) InvalidValue;
    Ok (mkMigrationConfig (max_migration_time c) (max_blocking_time c) v (scan_count c))
  else if bool_decide (field = "scan_count") then
    v ← ok_or (parse_u64 value) InvalidValue;
    if bool_decide (v = 0%N) then Err InvalidValue
    else Ok (mkMigrationConfig (max_migration_time c) (max_blocking_time c) (scan_interval c) v)
  else Err FieldNotFound.

(** [ClusterConfig::set_field]. *)
Definition set_field `{UnicodeCase} (c : ClusterConfig) (field value : string)
  : outcome ConfigError ClusterConfig :=
  let field := to_lowercase field in
  if bool_decide (field = "compression_strategy") then
    s ← ok_or (compression_from_str value) InvalidValue;
    Ok (mkClusterConfig s (migration_config c))
  else if String.prefix "migration_" field then
    f ← ok_or (splitn2 "_"%char field).2 FieldNotFound;
    m ← migration_set_field (migration_config c) f value;
    Ok (mkClusterConfig (compression_strategy c) m)
  else Err FieldNotFound.

(** [ClusterConfig::to_str_map]. *)
Definition to_str_map (c : ClusterConfig) : gmap string string := hash_collect
  [("compression_strategy", compression_to_str (compression_strategy c));
   ("migration_max_migration_time", to_string (max_migration_time (migration_config c)));
   ("migration_max_blocking_time", to_string (max_blocking_time (migration_config c)));
   ("migration_scan_interval", to_string (scan_interval (migration_config c)));
   ("migration_scan_count", to_string (scan_count (migration_config c)))].

Record Cluster : Type := mkCluster {
  cluster_name : ClusterName;
  cluster_epoch : N;
  cluster_nodes : list Node;
  cluster_config : ClusterConfig;
}.

Record PeerProxy : Type := mkPeerProxy {
  peer_proxy_address : string;
  peer_slots : list SlotRange;
}.

Record Proxy : Type := mkProxy {
  proxy_cluster_name : option ClusterName;
  proxy_address : string;
  proxy_epoch : N;
  proxy_nodes : list Node;
  proxy_peers : list PeerProxy;
  proxy_cluster_config : option ClusterConfig;
}.

(** [Proxy::get_nodes] and [Proxy::get_free_nodes]. *)
Definition get_nodes (p : Proxy) : list Node :=
  match proxy_cluster_name p with None => [] | Some _ => proxy_nodes p end.
Definition get_free_nodes (p : Proxy) : list string :=
  match proxy_cluster_name p with
  | Some _ => []
  | None => node_address <$> proxy_nodes p
  end.

(** [Cluster::remove_node] and [Cluster::get_node]. *)
Definition get_node (c : Cluster) (address : string) : option Node :=
  snd <$> list_find (λ n, node_address n = address) (cluster_nodes c).
Definition remove_node (c : Cluster) (address : string) : option Node * Cluster :=
  match get_node c address with
  | None => (None, c)
  | Some n =>
      (Some n,
       mkCluster (cluster_name c) (cluster_epoch c)
         (filter (λ n, node_address n ≠ address) (cluster_nodes c)) (cluster_config c))
  end.

(** Setting a field never panics. *)
Lemma migration_set_field_total `{UnicodeCase} c k v : migration_set_field c k v ≠ Panic.
Proof.
  unfold migration_set_field. repeat case_bool_decide; try done;
    destruct (parse_u64 v); outcome_simpl; try done. by case_bool_decide.
Qed.

Lemma set_field_total `{UnicodeCase} c k v : set_field c k v ≠ Panic.
Proof.
  unfold set_field. case_bool_decide.
  { by destruct (compression_from_str v). }
  destruct (String.prefix _ _); [|done]. destruct (splitn2 _ _) as [a [f|]]; [|done].
  cbn [snd ok_or]. outcome_simpl.
  pose proof (migration_set_field_total (migration_config c) f v).
  destruct (migration_set_field (migration_config c) f v); by outcome_simpl.
Qed.
