(* ===== verification/Wire.v ===== *)
(** * The text form of the metadata

    Models what the coordinator sends to the proxies: the text form of slot
    ranges and migration tasks ([src/src/common/cluster.rs]), the arguments of
    [UMCTL SETCLUSTER] ([src/src/common/proto.rs]) and those of
    [UMCTL SETREPL] ([src/src/replication/replicator.rs]).  An iterator over
    strings is the list of the strings that are left.  JSON, gzip and base64,
    which the compressed form uses, are third-party code and parameters. *)

From S2P Require Import Prelude RangeList RustStr Resp ClusterMeta.

(** ** Slot ranges ([cluster.rs]) *)

Definition MIGRATING_TAG : string := "MIGRATING".
Definition IMPORTING_TAG : string := "IMPORTING".

Definition parse_slot_range (s : string) : option Range :=
  match split "-"%char s with
  | start_str :: end_str :: _ =>
      start ← parse_u64 start_str;
      end_ ← parse_u64 end_str;
      Some (mkRange start end_)
  | _ => None
  end.

(** The loop [for _ in 0..ranges_num]. *)
Fixpoint parse_ranges (ranges_num : N) (it : list string) : option (list Range * list string) :=
  if (ranges_num =? 0)%N then Some ([], it)
  else
    match it with
    | [] => None
    | s :: it =>
        r ← parse_slot_range s;
        '(rs, it) ← parse_ranges (ranges_num - 1) it;
        Some (r :: rs, it)
    end.

Definition range_list_parse (it : list string) : option (RangeList * list string) :=
  match it with
  | [] => None
  | s :: it =>
      ranges_num ← parse_u64 s;
      '(ranges, it) ← parse_ranges ranges_num it;
      Some (range_list_new ranges, it)
  end.

(** [RangeList::try_from]. *)
Definition range_list_try_from (s : string) : option RangeList :=
  fst <$> range_list_parse (split " "%char s).

Definition range_list_to_strings (l : RangeList) : list string :=
  to_string (N.of_nat (length l)) ::
  ((λ r, to_string (r_start r) +:+ "-" +:+ to_string (r_end r)) <$> l).

(** [MigrationMeta::into_strings] and [from_strings]. *)
Definition migration_meta_into_strings (m : MigrationMeta) : list string :=
  [to_string (mm_epoch m); mm_src_proxy_address m; mm_src_node_address m;
   mm_dst_proxy_address m; mm_dst_node_address m].

Definition migration_meta_from_strings (it : list string) : option (MigrationMeta * list string) :=
  match it with
  | epoch_str :: it =>
      epoch ← parse_u64 epoch_str;
      match it with
      | sp :: sn :: dp :: dn :: it => Some (mkMigrationMeta epoch sp sn dp dn, it)
      | _ => None
      end
  | [] => None
  end.

(** [SlotRange::into_strings] and [from_strings]. *)
Definition slot_range_into_strings (sr : SlotRange) : list string :=
  match sr_tag sr with
  | Migrating meta =>
      MIGRATING_TAG :: range_list_to_strings (sr_range_list sr) ++ migration_meta_into_strings meta
  | Importing meta =>
      IMPORTING_TAG :: range_list_to_strings (sr_range_list sr) ++ migration_meta_into_strings meta
  | TagNone => range_list_to_strings (sr_range_list sr)
  end.

Definition slot_range_from_strings `{UnicodeCase} (it : list string) : option (SlotRange * list string) :=
  match it with
  | [] => None
  | slot_range :: rest =>
      let slot_range_tag := to_uppercase slot_range in
      if bool_decide (slot_range_tag = MIGRATING_TAG) then
        '(range_list, it) ← range_list_parse rest;
        '(meta, it) ← migration_meta_from_strings it;
        Some (mkSlotRange range_list (Migrating meta), it)
      else if bool_decide (slot_range_tag = IMPORTING_TAG) then
        '(range_list, it) ← range_list_parse rest;
        '(meta, it) ← migration_meta_from_strings it;
        Some (mkSlotRange range_list (Importing meta), it)
      else
        '(range_list, it) ← range_list_parse it;
        Some (mkSlotRange range_list TagNone, it)
  end.

(** ** Errors, flags ([utils.rs], [proto.rs]) *)

Inductive CmdParseError : Type :=
| InvalidVersion
| InvalidEpoch
| InvalidClusterName
| InvalidSlots
| InvalidConfig
| InvalidRole
| InvalidArgs.

#[global] Instance CmdParseError_eq_dec : EqDecision CmdParseError.
Proof. solve_decision. Defined.

(** The comparison of [bytes_ascii_case_insensitive_eq].  An addition on [u8]
    that wraps gives less than 32, which is not a letter, so the sums are
    written without the wrap-around. *)
Definition byte_eq_ignore_case (a c : ascii) : bool :=
  let x := N_of_ascii a in
  let y := N_of_ascii c in
  ((x =? y) || ((97 <=? x) && (x <=? 122) && (x =? y + 32)) ||
   ((65 <=? x) && (x <=? 90) && (x + 32 =? y)))%N.

Fixpoint str_ascii_case_insensitive_eq (lhs rhs : string) : bool :=
  match lhs, rhs with
  | EmptyString, EmptyString => true
  | String a lhs, String c rhs => byte_eq_ignore_case a c && str_ascii_case_insensitive_eq lhs rhs
  | _, _ => false
  end.

Definition has_flags (s : string) (delimiter : ascii) (flag : string) : bool :=
  existsb (λ s, str_ascii_case_insensitive_eq s flag) (split delimiter s).

Record ClusterMapFlags : Type := mkFlags { force : bool; compress : bool }.

(** [flags.join(",")]. *)
Definition to_arg (f : ClusterMapFlags) : string :=
  match force f, compress f with
  | false, false => "NOFLAG"
  | true, false => "FORCE"
  | false, true => "COMPRESS"
  | true, true => "FORCE,COMPRESS"
  end.

Definition from_arg (flags_str : string) : ClusterMapFlags :=
  mkFlags (has_flags flags_str ","%char "FORCE") (has_flags flags_str ","%char "COMPRESS").

(** ** [NodeMap] *)

Definition PEER_PREFIX : string := "PEER".
Definition CONFIG_PREFIX : string := "CONFIG".
Definition SET_CLUSTER_API_VERSION : string := "v2".

Abbreviation NodeMap := (gmap string (list SlotRange)) (only parsing).

Definition node_args (kv : string * list SlotRange) : list string :=
  concat ((λ sr, kv.1 :: slot_range_into_strings sr) <$> kv.2).

Definition node_map_to_args `{HashOrder} (m : NodeMap) : list string :=
  concat (node_args <$> hash_iter m).

(** [node_map.entry(address).or_insert_with(Vec::new).push(slot_range)]. *)
Definition push_slots (m : NodeMap) (address : string) (sr : SlotRange) : NodeMap :=
  <[address := default [] (m !! address) ++ [sr]]> m.

Section parse.
Context `{UnicodeCase}.

(** The token ends the section that is being parsed. *)
Definition is_prefix (token : string) : bool :=
  let prefix := to_uppercase token in
  bool_decide (prefix = PEER_PREFIX) || bool_decide (prefix = CONFIG_PREFIX).

Definition parse_node (it : list string) : outcome CmdParseError (string * SlotRange * list string) :=
  match it with
  | [] => Err InvalidArgs
  | addr :: it =>
      match slot_range_from_strings it with
      | Some (slot_range, it) => Ok (addr, slot_range, it)
      | None => Err InvalidArgs
      end
  end.

(** The loop of [NodeMap::parse].  Each round takes a token, so that the
    number of tokens bounds it ([node_map_parse_total]). *)
Fixpoint node_map_loop (fuel : nat) (node_map : NodeMap) (it : list string) :
    outcome CmdParseError (NodeMap * list string) :=
  match fuel with
  | O => Panic
  | S fuel =>
      match it with
      | [] => Ok (node_map, it)
      | first_token :: _ =>
          if is_prefix first_token then Ok (node_map, it)
          else
            '(address, slot_range, it) ← parse_node it;
            node_map_loop fuel (push_slots node_map address slot_range) it
      end
  end.

Definition node_map_parse (it : list string) : outcome CmdParseError (NodeMap * list string) :=
  node_map_loop (S (length it)) ∅ it.

(** ** [ClusterConfigData] *)

(** [ClusterConfigData::parse].  The iterator keeps its position when the
    parsing fails, so that the tokens left are returned in both cases. *)
Fixpoint config_loop (config : ClusterConfig) (it : list string) :
    outcome CmdParseError ClusterConfig * list string :=
  match it with
  | [] => (Ok config, [])
  | field :: rest =>
      if is_prefix field then (Ok config, it)
      else
        match rest with
        | [] => (Err InvalidArgs, [])
        | value :: rest =>
            match set_field config field value with
            | Ok config => config_loop config rest
            | Err _ => (Err InvalidConfig, rest)
            | Panic => (Panic, rest)
            end
        end
  end.

Definition config_parse (it : list string) : outcome CmdParseError ClusterConfig * list string :=
  config_loop default_cluster_config it.
End parse.

Definition config_to_args `{HashOrder} (c : ClusterConfig) : list string :=
  concat ((λ kv, [kv.1; kv.2]) <$> hash_iter (to_str_map c)).

(** ** [ProxyClusterMeta] *)

Record ProxyClusterMeta : Type := mkProxyClusterMeta {
  pcm_version : string;
  pcm_epoch : N;
  pcm_flags : ClusterMapFlags;
  pcm_cluster_name : ClusterName;
  pcm_local : NodeMap;
  pcm_peer : NodeMap;
  pcm_cluster_config : ClusterConfig;
}.

Definition proxy_cluster_meta_new (epoch : N) (flags : ClusterMapFlags) (name : ClusterName)
    (local peer : NodeMap) (config : ClusterConfig) : ProxyClusterMeta :=
  mkProxyClusterMeta SET_CLUSTER_API_VERSION epoch flags name local peer config.

Record ProxyClusterMetaData : Type := mkProxyClusterMetaData {
  pcd_cluster_name : ClusterName;
  pcd_local : NodeMap;
  pcd_peer : NodeMap;
  pcd_cluster_config : ClusterConfig;
}.

Definition gen_data (m : ProxyClusterMeta) : ProxyClusterMetaData :=
  mkProxyClusterMetaData (pcm_cluster_name m) (pcm_local m) (pcm_peer m) (pcm_cluster_config m).

(** [serde_json] on the metadata, gzip and base64.  [None] is an error. *)
Class MetaCodec := {
  json_to_string : ProxyClusterMetaData → option string;
  json_from_str : string → option ProxyClusterMetaData;
  gz_compress : string → option bytes;
  gz_decompress : bytes → option string;
  base64_encode : bytes → string;
  base64_decode : string → option bytes;
}.

(** Each of them reads back what it writes. *)
Class MetaCodecLaws `{MetaCodec} : Prop := {
  json_roundtrip d : ∃ s, json_to_string d = Some s ∧ json_from_str s = Some d;
  gz_roundtrip s : ∃ z, gz_compress s = Some z ∧ gz_decompress z = Some s;
  base64_roundtrip z : base64_decode (base64_encode z) = Some z;
}.

Inductive MetaCompressError : Type := CompressIo | CompressJson | CompressBase64.

Definition gen_compressed_data `{MetaCodec} (d : ProxyClusterMetaData) : outcome MetaCompressError string :=
  s ← ok_or (json_to_string d) CompressJson;
  buf ← ok_or (gz_compress s) CompressIo;
  Ok (base64_encode buf).

Definition from_compressed_data `{MetaCodec} (data : string) : outcome MetaCompressError ProxyClusterMetaData :=
  raw ← ok_or (base64_decode data) CompressBase64;
  s ← ok_or (gz_decompress raw) CompressIo;
  ok_or (json_from_str s) CompressJson.

Definition to_args `{HashOrder} (m : ProxyClusterMeta) : list string :=
  let args := [pcm_version m; to_string (pcm_epoch m); to_arg (pcm_flags m); pcm_cluster_name m] in
  let local := node_map_to_args (pcm_local m) in
  let peer := node_map_to_args (pcm_peer m) in
  let config := config_to_args (pcm_cluster_config m) in
  args ++ local ++
  (if bool_decide (peer = []) then [] else PEER_PREFIX :: peer) ++
  (if bool_decide (config = []) then [] else CONFIG_PREFIX :: config).

Definition to_compressed_args `{MetaCodec} (m : ProxyClusterMeta) : outcome MetaCompressError (list string) :=
  data ← gen_compressed_data (gen_data m);
  Ok [pcm_version m; to_string (pcm_epoch m); to_arg (pcm_flags m); data].

(** The result of parsing the extended metadata: [true] is [Ok(())]. *)
Abbreviation ExtendedMetaResult := bool (only parsing).

Section parse_meta.
Context `{UnicodeCase} `{MetaCodec}.

(** The loop over the sections after the local nodes. *)
Fixpoint sections_loop (fuel : nat) (local peer : NodeMap) (config : ClusterConfig)
    (extended : ExtendedMetaResult) (it : list string) :
    outcome CmdParseError (NodeMap * ClusterConfig * ExtendedMetaResult) :=
  match fuel with
  | O => Panic
  | S fuel =>
      match it with
      | [] => Ok (peer, config, extended)
      | token :: it =>
          let token := to_uppercase token in
          if bool_decide (token = PEER_PREFIX) then
            '(peer, it) ← node_map_parse it;
            sections_loop fuel local peer config extended it
          else if bool_decide (token = CONFIG_PREFIX) then
            match config_parse it with
            | (Ok config, it) => sections_loop fuel local peer config extended it
            | (Err _, it) =>
                if bool_decide (local = ∅) || bool_decide (peer = ∅) then Err InvalidArgs
                else sections_loop fuel local peer config false it
            | (Panic, _) => Panic
            end
          else Err InvalidArgs
      end
  end.

Definition parse (it : list string) : outcome CmdParseError (ProxyClusterMeta * ExtendedMetaResult) :=
  match it with
  | [] => Err InvalidArgs
  | version :: it =>
      if bool_decide (version = SET_CLUSTER_API_VERSION) then
        match it with
        | [] => Err InvalidArgs
        | epoch_str :: it =>
            epoch ← ok_or (parse_u64 epoch_str) InvalidArgs;
            match it with
            | [] => Err InvalidArgs
            | flags_str :: it =>
                let flags := from_arg flags_str in
                match it with
                | [] => Err InvalidArgs
                | token :: it =>
                    if compress flags then
                      match from_compressed_data token with
                      | Ok d =>
                          Ok (mkProxyClusterMeta version epoch flags (pcd_cluster_name d)
                                (pcd_local d) (pcd_peer d) (pcd_cluster_config d), true)
                      | Err _ => Err InvalidArgs
                      | Panic => Panic
                      end
                    else
                      name ← ok_or (cluster_name_try_from token) InvalidClusterName;
                      '(local, it) ← node_map_parse it;
                      '(peer, config, extended) ←
                        sections_loop (S (length it)) local ∅ default_cluster_config true it;
                      Ok (mkProxyClusterMeta version epoch flags name local peer config, extended)
                end
            end
        end
      else Err InvalidVersion
  end.
End parse_meta.

(** ** Arguments of a command *)

(** [str::from_utf8]: well-formed UTF-8. *)
Definition utf8_continuation (lo hi : N) (c : ascii) : bool :=
  let n := N_of_ascii c in ((lo <=? n) && (n <=? hi))%N.

Fixpoint utf8_valid (s : bytes) : bool :=
  match s with
  | [] => true
  | a :: s1 =>
      let n := N_of_ascii a in
      if (n <? 128)%N then utf8_valid s1
      else if ((194 <=? n) && (n <=? 223))%N then
        match s1 with c1 :: s2 => utf8_continuation 128 191 c1 && utf8_valid s2 | _ => false end
      else if ((224 <=? n) && (n <=? 239))%N then
        match s1 with
        | c1 :: c2 :: s3 =>
            utf8_continuation (if (n =? 224)%N then 160 else 128) (if (n =? 237)%N then 159 else 191) c1 &&
            utf8_continuation 128 191 c2 && utf8_valid s3
        | _ => false
        end
      else if ((240 <=? n) && (n <=? 244))%N then
        match s1 with
        | c1 :: c2 :: c3 :: s4 =>
            utf8_continuation (if (n =? 240)%N then 144 else 128) (if (n =? 244)%N then 143 else 191) c1 &&
            utf8_continuation 128 191 c2 && utf8_continuation 128 191 c3 && utf8_valid s4
        | _ => false
        end
      else false
  end.

Definition from_utf8 (s : bytes) : option string :=
  if utf8_valid s then Some (String.string_of_list_ascii s) else None.

(** The arguments after the command and the sub-command; what is not a text is
    dropped. *)
Definition text_args (arr : list RespVec) : list string :=
  omap (λ r, match r with Bulk (Str s) => from_utf8 s | _ => None end) (drop 2 arr).

(** [ProxyClusterMeta::from_resp]. *)
Definition meta_from_resp `{UnicodeCase} `{MetaCodec} (resp : RespVec) :
    outcome CmdParseError (ProxyClusterMeta * ExtendedMetaResult) :=
  match resp with
  | Arr (Elements arr) => parse (text_args arr)
  | _ => Err InvalidArgs
  end.

(** [extract_host_from_address] and [NodeMap::check_hosts]. *)
Definition extract_host_from_address (address : string) : option string :=
  match splitn2 ":"%char address with
  | (host, Some _) => Some host
  | (_, None) => None
  end.

Definition check_hosts `{HashOrder} (m : NodeMap) (announce_host : string) : bool :=
  forallb (λ a, match extract_host_from_address a with
                | Some host => bool_decide (host = announce_host)
                | None => false
                end) (hash_keys m).

(** ** Replication ([replicator.rs]) *)

Record MasterMeta : Type := mkMasterMeta {
  ma_cluster_name : ClusterName;
  ma_master_node_address : string;
  ma_replicas : list ReplPeer;
}.

Record ReplicaMeta : Type := mkReplicaMeta {
  re_cluster_name : ClusterName;
  re_replica_node_address : string;
  re_masters : list ReplPeer;
}.

Record ReplicatorMeta : Type := mkReplicatorMeta {
  rep_epoch : N;
  rep_flags : ClusterMapFlags;
  rep_masters : list MasterMeta;
  rep_replicas : list ReplicaMeta;
}.

(** [Iterator::next]. *)
Definition next (it : list string) : option (string * list string) :=
  match it with [] => None | x :: it => Some (x, it) end.

(** The loop over the peers of a node. *)
Fixpoint parse_peers (peer_num : N) (it : list string) : outcome CmdParseError (list ReplPeer * list string) :=
  if (peer_num =? 0)%N then Ok ([], it)
  else
    match it with
    | node_address :: proxy_address :: it =>
        '(peers, it) ← parse_peers (peer_num - 1) it;
        Ok (mkReplPeer node_address proxy_address :: peers, it)
    | _ => Err InvalidArgs
    end.

(** The body of the loop over the nodes. *)
Definition parse_repl_node `{UnicodeCase} (it : list string) :
    outcome CmdParseError ((MasterMeta + ReplicaMeta) * list string) :=
  '(role, it) ← ok_or (next it) InvalidRole;
  '(name, it) ← ok_or (next it) InvalidClusterName;
  name ← ok_or (cluster_name_try_from name) InvalidClusterName;
  '(node_address, it) ← ok_or (next it) InvalidArgs;
  '(peer_num, it) ← ok_or (next it) InvalidArgs;
  peer_num ← ok_or (parse_u64 peer_num) InvalidArgs;
  '(peers, it) ← parse_peers peer_num it;
  if bool_decide (to_uppercase role = "MASTER") then
    Ok (inl (mkMasterMeta name node_address peers), it)
  else if bool_decide (to_uppercase role = "REPLICA") then
    Ok (inr (mkReplicaMeta name node_address peers), it)
  else Err InvalidRole.

Fixpoint parse_repl_loop `{UnicodeCase} (fuel : nat) (masters : list MasterMeta) (replicas : list ReplicaMeta)
    (it : list string) : outcome CmdParseError (list MasterMeta * list ReplicaMeta) :=
  match fuel with
  | O => Panic
  | S fuel =>
      match it with
      | [] => Ok (masters, replicas)
      | _ =>
          '(node, it) ← parse_repl_node it;
          match node with
          | inl m => parse_repl_loop fuel (masters ++ [m]) replicas it
          | inr r => parse_repl_loop fuel masters (replicas ++ [r]) it
          end
      end
  end.

Definition parse_repl_args `{UnicodeCase} (it : list string) : outcome CmdParseError ReplicatorMeta :=
  '(epoch_str, it) ← ok_or (next it) InvalidEpoch;
  epoch ← ok_or (parse_u64 epoch_str) InvalidEpoch;
  '(flags_str, it) ← ok_or (next it) InvalidArgs;
  '(masters, replicas) ← parse_repl_loop (S (length it)) [] [] it;
  Ok (mkReplicatorMeta epoch (from_arg flags_str) masters replicas).

Definition parse_repl_meta `{UnicodeCase} (resp : RespVec) : outcome CmdParseError ReplicatorMeta :=
  match resp with
  | Arr (Elements arr) => parse_repl_args (text_args arr)
  | _ => Err InvalidArgs
  end.

Definition peer_args (peers : list ReplPeer) : list string :=
  concat ((λ p, [rp_node_address p; rp_proxy_address p]) <$> peers).
Definition master_args (m : MasterMeta) : list string :=
  ["master"; ma_cluster_name m; ma_master_node_address m; to_string (N.of_nat (length (ma_replicas m)))]
  ++ peer_args (ma_replicas m).
Definition replica_args (r : ReplicaMeta) : list string :=
  ["replica"; re_cluster_name r; re_replica_node_address r; to_string (N.of_nat (length (re_masters r)))]
  ++ peer_args (re_masters r).

Definition encode_repl_meta (meta : ReplicatorMeta) : list string :=
  [to_string (rep_epoch meta); to_arg (rep_flags meta)] ++
  concat (master_args <$> rep_masters meta) ++ concat (replica_args <$> rep_replicas meta).

(** ** Slot ranges: round trip *)

Definition range_fits (r : Range) : Prop := (r_start r ≤ u64_max ∧ r_end r ≤ u64_max)%N.

(** Range lists as the program keeps them: compacted, within [usize]. *)
Definition range_list_ok (l : RangeList) : Prop :=
  compacted l ∧ no_wrap l ∧ (N.of_nat (length l) ≤ u64_max)%N.

Definition slot_range_ok (sr : SlotRange) : Prop :=
  range_list_ok (sr_range_list sr) ∧
  match get_migration_meta (sr_tag sr) with
  | Some meta => (mm_epoch meta ≤ u64_max)%N
  | None => True
  end.

Lemma string_forallb_no_char (P : ascii → bool) s :
  (∀ c, P c = false → no_char c s) → string_forallb P s = true.
Proof.
  induction s as [|a s IH]; intros HP; [done|]. cbn.
  destruct (P a) eqn:Ha; cbn; [|by destruct (HP a Ha)].
  apply IH. intros c Hc. apply (HP c Hc).
Qed.

Lemma string_map_id f s : string_forallb (λ c, bool_decide (f c = c)) s = true → string_map f s = s.
Proof.
  induction s as [|a s IH]; [done|]. cbn. intros [Ha Hs]%andb_true_iff.
  apply bool_decide_eq_true_1 in Ha. by rewrite Ha, IH.
Qed.

Lemma digit_Some c : digit c ≠ None → (48 ≤ N_of_ascii c ≤ 57)%N.
Proof.
  unfold digit. destruct (N.leb_spec 48 (N_of_ascii c)), (N.leb_spec (N_of_ascii c) 57); cbn; done || lia.
Qed.

Lemma to_uppercase_number `{UnicodeCase} n : to_uppercase (to_string n) = to_string n.
Proof.
  rewrite to_uppercase_ascii.
  - apply string_map_id, string_forallb_no_char. intros c Hc. apply to_string_no_char.
    apply bool_decide_eq_false_1 in Hc. destruct (digit c) eqn:Hd; [|done]. destruct Hc.
    assert (48 ≤ N_of_ascii c ≤ 57)%N by (apply digit_Some; by rewrite Hd).
    unfold ascii_upper. by destruct (N.leb_spec 97 (N_of_ascii c)); [lia|].
  - apply string_forallb_no_char. intros c Hc. apply to_string_no_char.
    destruct (digit c) eqn:Hd; [|done].
    assert (48 ≤ N_of_ascii c ≤ 57)%N by (apply digit_Some; by rewrite Hd).
    destruct (N.ltb_spec (N_of_ascii c) 128); [done|lia].
Qed.

Lemma number_not_word n c s : digit c = None → to_string n ≠ String c s.
Proof. intros Hc Heq. pose proof (to_string_no_char c n Hc) as Hn. rewrite Heq in Hn. by destruct Hn. Qed.

Lemma parse_slot_range_print r :
  range_fits r →
  parse_slot_range (to_string (r_start r) +:+ "-" +:+ to_string (r_end r)) = Some r.
Proof.
  intros [Hs He]. unfold parse_slot_range.
  change ("-" +:+ to_string (r_end r)) with (String "-" (to_string (r_end r))).
  rewrite split_app, split_no_char by by apply to_string_no_char.
  rewrite !parse_u64_to_string by done. by destruct r.
Qed.

Lemma parse_ranges_print l rest :
  Forall range_fits l →
  parse_ranges (N.of_nat (length l))
    (((λ r, to_string (r_start r) +:+ "-" +:+ to_string (r_end r)) <$> l) ++ rest) = Some (l, rest).
Proof.
  induction 1 as [|r l Hr Hl IH]; [by destruct rest|]. cbn [length fmap list_fmap app parse_ranges].
  rewrite (proj2 (N.eqb_neq _ 0)) by lia. rewrite parse_slot_range_print by done. cbn [mbind option_bind].
  replace (N.of_nat (S (length l)) - 1)%N with (N.of_nat (length l)) by lia. by rewrite IH.
Qed.

Lemma range_list_ok_ranges l : range_list_ok l → Forall range_fits l.
Proof.
  intros (_ & Hw & _). eapply Forall_impl; [exact Hw|]. unfold range_fits. cbn. lia.
Qed.

Lemma range_list_parse_print l rest :
  range_list_ok l → range_list_parse (range_list_to_strings l ++ rest) = Some (l, rest).
Proof.
  intros Hl. pose proof (range_list_ok_ranges l Hl) as Hr. destruct Hl as (Hc & Hw & Hn).
  cbn [range_list_to_strings app range_list_parse]. rewrite parse_u64_to_string by done.
  cbn [mbind option_bind]. rewrite parse_ranges_print by done. cbn.
  unfold range_list_new. by rewrite compact_id.
Qed.

Lemma migration_meta_print m rest :
  (mm_epoch m ≤ u64_max)%N →
  migration_meta_from_strings (migration_meta_into_strings m ++ rest) = Some (m, rest).
Proof.
  intros Hm. cbn. rewrite parse_u64_to_string by done. by destruct m.
Qed.

Lemma slot_range_print `{UnicodeCase} sr rest :
  slot_range_ok sr → slot_range_from_strings (slot_range_into_strings sr ++ rest) = Some (sr, rest).
Proof.
  intros [Hl Ht]. destruct sr as [l [m|m|]]; cbn [sr_tag sr_range_list get_migration_meta] in *;
    unfold slot_range_into_strings; cbn [sr_tag sr_range_list app].
  - cbn [slot_range_from_strings]. rewrite to_uppercase_ascii by done.
    rewrite bool_decide_eq_true_2 by done. rewrite <-app_assoc, range_list_parse_print by done.
    cbn [mbind option_bind]. by rewrite migration_meta_print.
  - cbn [slot_range_from_strings]. rewrite to_uppercase_ascii by done.
    rewrite bool_decide_eq_false_2, bool_decide_eq_true_2 by done.
    rewrite <-app_assoc, range_list_parse_print by done.
    cbn [mbind option_bind]. by rewrite migration_meta_print.
  - pose proof (range_list_parse_print l rest Hl) as Hp.
    cbn [range_list_to_strings app] in *. cbn [slot_range_from_strings].
    rewrite to_uppercase_number. rewrite !bool_decide_eq_false_2 by by apply number_not_word.
    by rewrite Hp.
Qed.

(** ** Node maps: round trip *)

(** The nodes that have slots: the text form has nothing to say of the others. *)
Definition with_slots (m : NodeMap) : NodeMap := filter (λ kv, kv.2 ≠ []) m.

Definition node_map_ok `{UnicodeCase} (m : NodeMap) : Prop :=
  ∀ addr srs, m !! addr = Some srs → is_prefix addr = false ∧ Forall slot_range_ok srs.

Definition push_node (m : NodeMap) (kv : string * list SlotRange) : NodeMap :=
  foldl (λ m sr, push_slots m kv.1 sr) m kv.2.

Lemma push_node_lookup kv : ∀ m k,
  push_node m kv !! k =
  if bool_decide (k = kv.1 ∧ kv.2 ≠ []) then Some (default [] (m !! k) ++ kv.2) else m !! k.
Proof.
  destruct kv as [a srs]. unfold push_node. cbn [fst snd].
  induction srs as [|sr srs IH]; intros m k; cbn [foldl].
  { by rewrite bool_decide_eq_false_2 by naive_solver. }
  rewrite IH. unfold push_slots. destruct (decide (k = a)) as [->|Hne].
  - rewrite lookup_insert_eq, (bool_decide_eq_true_2 (a = a ∧ sr :: srs ≠ [])) by done.
    case_bool_decide as Hs; cbn; [by rewrite <-app_assoc|].
    destruct srs; [done|]. destruct Hs. done.
  - rewrite lookup_insert_ne by done. by rewrite !bool_decide_eq_false_2 by naive_solver.
Qed.

Lemma push_nodes_lookup kvs : ∀ m k, NoDup kvs.*1 →
  foldl push_node m kvs !! k =
  match (list_to_map kvs : NodeMap) !! k with
  | Some (x :: srs) => Some (default [] (m !! k) ++ x :: srs)
  | _ => m !! k
  end.
Proof.
  induction kvs as [|[a srs] kvs IH]; intros m k Hnd; [done|].
  cbn in Hnd. apply NoDup_cons in Hnd as [Ha Hnd]. cbn [foldl]. rewrite IH by done.
  rewrite push_node_lookup. cbn [list_to_map fst snd foldr]. destruct (decide (k = a)) as [->|Hne].
  - rewrite lookup_insert_eq. rewrite (not_elem_of_list_to_map_1 kvs a) by done.
    destruct srs; [by rewrite bool_decide_eq_false_2 by naive_solver|by rewrite bool_decide_eq_true_2].
  - rewrite lookup_insert_ne by done. by rewrite bool_decide_eq_false_2 by naive_solver.
Qed.

Lemma hash_iter_map `{HashOrder} {V} (m : gmap string V) : list_to_map (hash_iter m) = m.
Proof.
  rewrite <-(list_to_map_to_list m) at 2. apply list_to_map_proper; [apply NoDup_hash_keys|].
  apply hash_iter_perm.
Qed.

Lemma push_nodes_hash_iter `{HashOrder} (m : NodeMap) : foldl push_node ∅ (hash_iter m) = with_slots m.
Proof.
  apply map_eq. intros k. rewrite push_nodes_lookup by apply NoDup_hash_keys.
  rewrite hash_iter_map, lookup_empty. unfold with_slots.
  destruct (m !! k) as [[|x srs]|] eqn:Hk; symmetry.
  - apply map_lookup_filter_None. right. naive_solver.
  - by apply map_lookup_filter_Some.
  - apply map_lookup_filter_None. by left.
Qed.

(** Tokens at which a section ends. *)
Definition section_end `{UnicodeCase} (it : list string) : Prop :=
  match it with [] => True | token :: _ => is_prefix token = true end.

Section node_map_print.
Context `{UnicodeCase}.

Lemma node_map_loop_node a srs rest : is_prefix a = false → Forall slot_range_ok srs → ∀ fuel m,
  length (node_args (a, srs) ++ rest) < fuel → ∃ fuel', length rest < fuel' ∧
  node_map_loop fuel m (node_args (a, srs) ++ rest) = node_map_loop fuel' (push_node m (a, srs)) rest.
Proof.
  intros Ha. unfold node_args, push_node. cbn [fst snd].
  induction 1 as [|sr srs Hsr Hsrs IH]; intros fuel m Hf; [by exists fuel|].
  destruct fuel as [|fuel]; [lia|]. cbn [fmap list_fmap concat] in *.
  rewrite <-!app_assoc in *. cbn [app length] in Hf. cbn [app node_map_loop]. rewrite Ha.
  cbn [parse_node]. rewrite slot_range_print by done. cbn [mbind outcome_bind].
  apply IH. rewrite length_app in Hf. lia.
Qed.

Lemma node_map_loop_nodes rest kvs :
  Forall (λ kv, is_prefix kv.1 = false ∧ Forall slot_range_ok kv.2) kvs → ∀ fuel m,
  length (concat (node_args <$> kvs) ++ rest) < fuel → ∃ fuel', length rest < fuel' ∧
  node_map_loop fuel m (concat (node_args <$> kvs) ++ rest) =
  node_map_loop fuel' (foldl push_node m kvs) rest.
Proof.
  induction 1 as [|[a srs] kvs [Ha Hs] Hkvs IH]; intros fuel m Hf; [by exists fuel|].
  cbn [fmap list_fmap concat] in *. rewrite <-app_assoc in *.
  destruct (node_map_loop_node a srs _ Ha Hs fuel m Hf) as (fuel' & Hf' & ->).
  by apply IH.
Qed.

Lemma node_map_print `{HashOrder} m rest :
  node_map_ok m → section_end rest →
  node_map_parse (node_map_to_args m ++ rest) = Ok (with_slots m, rest).
Proof.
  intros Hm Hrest. unfold node_map_parse, node_map_to_args.
  destruct (node_map_loop_nodes rest (hash_iter m)) with
    (fuel := S (length (concat (node_args <$> hash_iter m) ++ rest))) (m := ∅ : NodeMap)
    as (fuel & Hf & ->).
  - apply Forall_forall. intros [a srs] Hin%elem_of_hash_iter. by apply Hm.
  - lia.
  - rewrite push_nodes_hash_iter. destruct fuel as [|fuel]; [lia|].
    destruct rest as [|t rest]; [done|]. cbn in Hrest |- *. by rewrite Hrest.
Qed.

(** Parsing a node map always ends. *)
Lemma parse_ranges_length n it rs it' : parse_ranges n it = Some (rs, it') → length it' ≤ length it.
Proof.
  revert n rs it'. induction it as [|s it IH]; intros n rs it'; cbn [parse_ranges];
    destruct (n =? 0)%N; try (intros [= <- <-]; done).
  destruct (parse_slot_range s); cbn; [|done].
  destruct (parse_ranges (n - 1) it) as [[rs1 it1]|] eqn:Hr; cbn; [|done].
  intros [= <- <-]. apply IH in Hr. lia.
Qed.

Lemma range_list_parse_length it l it' : range_list_parse it = Some (l, it') → length it' < length it.
Proof.
  destruct it as [|s it]; cbn; [done|]. destruct (parse_u64 s); cbn; [|done].
  destruct (parse_ranges _ it) as [[rs it1]|] eqn:Hr; cbn; [|done].
  intros [= <- <-]. apply parse_ranges_length in Hr. lia.
Qed.

Lemma migration_meta_length it m it' :
  migration_meta_from_strings it = Some (m, it') → length it' < length it.
Proof.
  destruct it as [|e it]; cbn; [done|]. destruct (parse_u64 e); cbn; [|done].
  destruct it as [|? [|? [|? [|? ?]]]]; cbn; try done. intros [= <- <-]. lia.
Qed.

Lemma tagged_length tag it sr it' :
  ('(l, it) ← range_list_parse it;
   '(meta, it) ← migration_meta_from_strings it;
   Some (mkSlotRange l (tag meta), it)) = Some (sr, it') → length it' < length it.
Proof.
  destruct (range_list_parse it) as [[l it1]|] eqn:Hl; cbn; [|done].
  destruct (migration_meta_from_strings it1) as [[m it2]|] eqn:Hm; cbn; [|done].
  intros [= <- <-]. apply range_list_parse_length in Hl. apply migration_meta_length in Hm. lia.
Qed.

Lemma slot_range_length it sr it' : slot_range_from_strings it = Some (sr, it') → length it' < length it.
Proof.
  destruct it as [|t it]; cbn [slot_range_from_strings]; [done|].
  repeat case_bool_decide.
  1,2: intros Hl; apply tagged_length in Hl; cbn; lia.
  destruct (range_list_parse (t :: it)) as [[l it1]|] eqn:Hl; cbn; [|done].
  intros [= <- <-]. apply range_list_parse_length in Hl. cbn in Hl. lia.
Qed.

Lemma node_map_loop_total fuel : ∀ m it, length it < fuel →
  match node_map_loop fuel m it with
  | Ok (_, it') => length it' ≤ length it ∧ section_end it'
  | Err e => e = InvalidArgs
  | Panic => False
  end.
Proof.
  induction fuel as [|fuel IH]; intros m it Hf; [lia|]. cbn [node_map_loop].
  destruct it as [|a it]; [done|]. destruct (is_prefix a) eqn:Ha; [done|]. cbn [parse_node].
  destruct (slot_range_from_strings it) as [[sr it1]|] eqn:Hsr; cbn; [|done].
  apply slot_range_length in Hsr. cbn in Hf.
  specialize (IH (push_slots m a sr) it1 ltac:(lia)).
  destruct (node_map_loop fuel _ it1) as [[m' it']| |]; [|done..]. split; [lia|apply IH].
Qed.
End node_map_print.

(** ** Configuration: round trip *)

(** What [MigrationConfig] holds: [u64] values, and a scan count that
    [set_field] accepts. *)
Definition config_ok (c : ClusterConfig) : Prop :=
  let m := migration_config c in
  (max_migration_time m ≤ u64_max ∧ max_blocking_time m ≤ u64_max ∧
   scan_interval m ≤ u64_max ∧ scan_count m ≤ u64_max ∧ scan_count m ≠ 0)%N.

Lemma to_str_map_Some c k v : to_str_map c !! k = Some v →
  (k = "compression_strategy" ∧ v = compression_to_str (compression_strategy c)) ∨
  (k = "migration_max_migration_time" ∧ v = to_string (max_migration_time (migration_config c))) ∨
  (k = "migration_max_blocking_time" ∧ v = to_string (max_blocking_time (migration_config c))) ∨
  (k = "migration_scan_interval" ∧ v = to_string (scan_interval (migration_config c))) ∨
  (k = "migration_scan_count" ∧ v = to_string (scan_count (migration_config c))).
Proof.
  unfold to_str_map, hash_collect. cbn [foldl fst snd].
  rewrite !lookup_insert_Some, lookup_empty. naive_solver.
Qed.

Lemma to_str_map_inj c1 c2 : to_str_map c1 = to_str_map c2 → c1 = c2.
Proof.
  intros Heq.
  assert (∀ k, to_str_map c1 !! k = to_str_map c2 !! k) as Hk by (intros; by rewrite Heq).
  pose proof (Hk "compression_strategy") as H1. pose proof (Hk "migration_max_migration_time") as H2.
  pose proof (Hk "migration_max_blocking_time") as H3. pose proof (Hk "migration_scan_interval") as H4.
  pose proof (Hk "migration_scan_count") as H5. clear Heq Hk. cbn in *.
  destruct c1 as [s1 [a1 b1 d1 e1]], c2 as [s2 [a2 b2 d2 e2]]. cbn in *.
  injection H2 as ->%(inj pretty). injection H3 as ->%(inj pretty).
  injection H4 as ->%(inj pretty). injection H5 as ->%(inj pretty).
  by destruct s1, s2.
Qed.

(** Inserting all the entries of a map into one that has no other keys. *)
Lemma hash_inserts_lookup {V} (kvs : list (string * V)) : ∀ (m : gmap string V) k, NoDup kvs.*1 →
  foldl (λ m kv, <[kv.1 := kv.2]> m) m kvs !! k =
  match (list_to_map kvs : gmap string V) !! k with Some v => Some v | None => m !! k end.
Proof.
  induction kvs as [|[a v] kvs IH]; intros m k Hnd; [done|].
  cbn in Hnd. apply NoDup_cons in Hnd as [Ha Hnd]. cbn [foldl list_to_map foldr fst snd].
  rewrite IH by done. destruct (decide (k = a)) as [->|Hne].
  - by rewrite (not_elem_of_list_to_map_1 kvs a), !lookup_insert_eq.
  - by rewrite !lookup_insert_ne.
Qed.

Lemma hash_inserts_self `{HashOrder} {V} (m m' : gmap string V) :
  (∀ k, m !! k = None → m' !! k = None) →
  foldl (λ m kv, <[kv.1 := kv.2]> m) m' (hash_iter m) = m.
Proof.
  intros Hm. apply map_eq. intros k. rewrite hash_inserts_lookup by apply NoDup_hash_keys.
  rewrite hash_iter_map. destruct (m !! k) eqn:Hk; [done|]. by apply Hm.
Qed.

(** The keys do not depend on the configuration. *)
Lemma to_str_map_keys c c' k : to_str_map c !! k = None → to_str_map c' !! k = None.
Proof.
  unfold to_str_map, hash_collect. cbn [foldl fst snd]. rewrite !lookup_insert_None. naive_solver.
Qed.

Section config_print.
Context `{UnicodeCase}.

Lemma compression_print s : compression_from_str (compression_to_str s) = Some s.
Proof. unfold compression_from_str. rewrite to_lowercase_ascii by by destruct s. by destruct s. Qed.

Lemma to_lowercase_id s : is_ascii s = true → string_map ascii_lower s = s → to_lowercase s = s.
Proof. intros. by rewrite to_lowercase_ascii. Qed.

(** [splitn] drops the first word of a migration field. *)
Lemma set_field_migration c f value :
  is_ascii f = true → string_map ascii_lower f = f →
  set_field c ("migration_" +:+ f) value =
  (m ← migration_set_field (migration_config c) f value;
   Ok (mkClusterConfig (compression_strategy c) m)).
Proof.
  intros Ha Hf. unfold set_field.
  rewrite to_lowercase_id; [|done|by change (string_map ascii_lower ("migration_" +:+ f)) with
    ("migration_" +:+ string_map ascii_lower f); rewrite Hf].
  rewrite bool_decide_eq_false_2 by done.
  change (String.prefix "migration_" ("migration_" +:+ f)) with (String.prefix "" f).
  replace (String.prefix "" f) with true by by destruct f.
  change ("migration_" +:+ f) with ("migration" +:+ String "_" f).
  by rewrite splitn2_app by (cbn; repeat split; discriminate).
Qed.

Lemma set_field_print c c' k v :
  config_ok c → to_str_map c !! k = Some v →
  ∃ c'', set_field c' k v = Ok c'' ∧ to_str_map c'' = <[k := v]> (to_str_map c').
Proof.
  intros (H1 & H2 & H3 & H4 & H5) Hk. apply to_str_map_Some in Hk.
  destruct Hk as [[-> ->]|[[-> ->]|[[-> ->]|[[-> ->]|[-> ->]]]]].
  - unfold set_field. rewrite to_lowercase_id, bool_decide_eq_true_2 by done.
    rewrite compression_print. by eexists.
  - rewrite (set_field_migration c' "max_migration_time") by done. unfold migration_set_field.
    rewrite to_lowercase_id, bool_decide_eq_true_2 by done.
    rewrite parse_u64_to_string by done. by eexists.
  - rewrite (set_field_migration c' "max_blocking_time") by done. unfold migration_set_field.
    rewrite to_lowercase_id, bool_decide_eq_false_2, bool_decide_eq_true_2 by done.
    rewrite parse_u64_to_string by done. by eexists.
  - rewrite (set_field_migration c' "scan_interval") by done. unfold migration_set_field.
    rewrite to_lowercase_id by done. do 2 (rewrite bool_decide_eq_false_2 by done).
    rewrite bool_decide_eq_true_2, parse_u64_to_string by done. by eexists.
  - rewrite (set_field_migration c' "scan_count") by done. unfold migration_set_field.
    rewrite to_lowercase_id by done. do 3 (rewrite bool_decide_eq_false_2 by done).
    rewrite bool_decide_eq_true_2, parse_u64_to_string by done. cbn [ok_or mbind outcome_bind].
    rewrite bool_decide_eq_false_2 by done. by eexists.
Qed.

Lemma config_key_not_prefix c k v : to_str_map c !! k = Some v → is_prefix k = false.
Proof.
  intros Hk. apply to_str_map_Some in Hk. unfold is_prefix.
  destruct Hk as [[-> _]|[[-> _]|[[-> _]|[[-> _]|[-> _]]]]]; by rewrite to_uppercase_ascii.
Qed.

Lemma config_loop_print c rest kvs :
  config_ok c → section_end rest → Forall (λ kv, to_str_map c !! kv.1 = Some kv.2) kvs → ∀ c',
  ∃ c'', config_loop c' (concat ((λ kv, [kv.1; kv.2]) <$> kvs) ++ rest) = (Ok c'', rest) ∧
    to_str_map c'' = foldl (λ m kv, <[kv.1 := kv.2]> m) (to_str_map c') kvs.
Proof.
  intros Hc Hrest. induction 1 as [|[k v] kvs Hk Hkvs IH]; intros c'.
  { exists c'. split; [|done]. destruct rest as [|t rest]; [done|]. cbn in *. by rewrite Hrest. }
  cbn [fst snd] in Hk. cbn [fmap list_fmap concat app config_loop fst snd foldl].
  rewrite (config_key_not_prefix c k v Hk).
  destruct (set_field_print c c' k v Hc Hk) as (c1 & -> & <-). apply IH.
Qed.

Lemma config_print `{HashOrder} c rest :
  config_ok c → section_end rest → config_parse (config_to_args c ++ rest) = (Ok c, rest).
Proof.
  intros Hc Hrest. unfold config_parse, config_to_args.
  destruct (config_loop_print c rest (hash_iter (to_str_map c)) Hc Hrest) with
    (c' := default_cluster_config) as (c'' & -> & Heq).
  { apply Forall_forall. intros [k v]. apply elem_of_hash_iter. }
  do 2 f_equal. apply to_str_map_inj. rewrite Heq. apply hash_inserts_self. intros k.
  apply to_str_map_keys.
Qed.
End config_print.

(** ** [ProxyClusterMeta]: round trip *)

Lemma flags_print f : from_arg (to_arg f) = f.
Proof. by destruct f as [[] []]. Qed.

Definition meta_ok `{UnicodeCase} (m : ProxyClusterMeta) : Prop :=
  pcm_version m = SET_CLUSTER_API_VERSION ∧ (pcm_epoch m ≤ u64_max)%N ∧
  cluster_name_try_from (pcm_cluster_name m) = Some (pcm_cluster_name m) ∧
  node_map_ok (pcm_local m) ∧ node_map_ok (pcm_peer m) ∧ config_ok (pcm_cluster_config m).

(** The metadata without the nodes that have no slots. *)
Definition meta_with_slots (m : ProxyClusterMeta) : ProxyClusterMeta :=
  mkProxyClusterMeta (pcm_version m) (pcm_epoch m) (pcm_flags m) (pcm_cluster_name m)
    (with_slots (pcm_local m)) (with_slots (pcm_peer m)) (pcm_cluster_config m).

Section meta_print.
Context `{UnicodeCase} `{HashOrder} `{MetaCodec}.

Lemma prefix_upper : to_uppercase PEER_PREFIX = PEER_PREFIX ∧ to_uppercase CONFIG_PREFIX = CONFIG_PREFIX.
Proof. by rewrite !to_uppercase_ascii. Qed.

Lemma prefix_end rest : section_end (PEER_PREFIX :: rest) ∧ section_end (CONFIG_PREFIX :: rest).
Proof. cbn. unfold is_prefix. destruct prefix_upper as [-> ->]. done. Qed.

Lemma node_map_to_args_nil m : node_map_ok m → node_map_to_args m = [] → with_slots m = ∅.
Proof.
  intros Hm Hargs. pose proof (node_map_print m [] Hm I) as Hp. rewrite Hargs in Hp.
  by injection Hp as <-.
Qed.

Lemma config_to_args_cons c : config_to_args c ≠ [].
Proof.
  unfold config_to_args. destruct (hash_iter (to_str_map c)) as [|kv kvs] eqn:Hk; [|done].
  assert (("compression_strategy", compression_to_str (compression_strategy c)) ∈ hash_iter (to_str_map c)) as Hin
    by by apply elem_of_hash_iter. rewrite Hk in Hin. by apply not_elem_of_nil in Hin.
Qed.

(** The sections that [to_args] writes after the local nodes. *)
Lemma sections_print local peer c fuel :
  node_map_ok peer → config_ok c → 3 ≤ fuel →
  sections_loop fuel local ∅ default_cluster_config true
    ((if bool_decide (node_map_to_args peer = []) then [] else PEER_PREFIX :: node_map_to_args peer) ++
     CONFIG_PREFIX :: config_to_args c) = Ok (with_slots peer, c, true).
Proof.
  intros Hp Hc Hf. destruct fuel as [|[|[|fuel]]]; [lia..|]. destruct prefix_upper as [Hpu Hcu].
  assert (∀ f p, sections_loop (S (S f)) local p default_cluster_config true
    (CONFIG_PREFIX :: config_to_args c) = Ok (p, c, true)) as Hconfig.
  { intros f p. cbn [sections_loop]. rewrite Hcu.
    rewrite bool_decide_eq_false_2, bool_decide_eq_true_2 by done.
    rewrite <-(app_nil_r (config_to_args c)), config_print by done. done. }
  case_bool_decide as Hnil; cbn [app].
  - rewrite node_map_to_args_nil by done. apply Hconfig.
  - remember (S (S fuel)) as f eqn:Hfe. cbn [sections_loop]. rewrite Hpu, bool_decide_eq_true_2 by done.
    rewrite node_map_print; [|done|apply prefix_end]. cbn [mbind outcome_bind]. subst f. apply Hconfig.
Qed.

Lemma parse_header e f token it :
  (e ≤ u64_max)%N →
  parse (SET_CLUSTER_API_VERSION :: to_string e :: to_arg f :: token :: it) =
  if compress f then
    match from_compressed_data token with
    | Ok d =>
        Ok (mkProxyClusterMeta SET_CLUSTER_API_VERSION e f (pcd_cluster_name d)
              (pcd_local d) (pcd_peer d) (pcd_cluster_config d), true)
    | Err _ => Err InvalidArgs
    | Panic => Panic
    end
  else
    name ← ok_or (cluster_name_try_from token) InvalidClusterName;
    '(local, it) ← node_map_parse it;
    '(peer, config, extended) ←
      sections_loop (S (length it)) local ∅ default_cluster_config true it;
    Ok (mkProxyClusterMeta SET_CLUSTER_API_VERSION e f name local peer config, extended).
Proof.
  intros He. unfold parse. rewrite bool_decide_eq_true_2, parse_u64_to_string by done.
  unfold ok_or at 1. unfold mbind at 1, outcome_bind at 1. by rewrite flags_print.
Qed.

Lemma to_args_print m :
  meta_ok m → compress (pcm_flags m) = false → parse (to_args m) = Ok (meta_with_slots m, true).
Proof.
  destruct m as [v e f n l p c]. intros (Hv & He & Hn & Hl & Hp & Hc) Hf. unfold to_args.
  cbn [pcm_version pcm_epoch pcm_flags pcm_cluster_name pcm_local pcm_peer pcm_cluster_config] in *. subst v.
  rewrite (bool_decide_eq_false_2 (config_to_args c = [])) by apply config_to_args_cons.
  set (rest := _ ++ CONFIG_PREFIX :: _). cbn [app]. rewrite parse_header, Hf, Hn by done.
  cbn [ok_or mbind outcome_bind].
  rewrite node_map_print; [|done|unfold rest; case_bool_decide; apply prefix_end].
  cbn [mbind outcome_bind]. unfold rest. rewrite sections_print; [done..|].
  rewrite length_app. cbn. pose proof (config_to_args_cons c).
  destruct (config_to_args c); [done|]. cbn. lia.
Qed.

Lemma to_compressed_args_print {Hl : MetaCodecLaws} m :
  pcm_version m = SET_CLUSTER_API_VERSION → (pcm_epoch m ≤ u64_max)%N → compress (pcm_flags m) = true →
  ∃ args, to_compressed_args m = Ok args ∧ parse args = Ok (m, true).
Proof.
  destruct m as [v e f n l p c]. cbn. intros -> He Hf.
  unfold to_compressed_args, gen_compressed_data, gen_data.
  cbn [pcm_version pcm_epoch pcm_flags pcm_cluster_name pcm_local pcm_peer pcm_cluster_config].
  destruct (json_roundtrip (mkProxyClusterMetaData n l p c)) as (s & Hs1 & Hs2).
  destruct (gz_roundtrip s) as (z & Hz1 & Hz2). rewrite Hs1. cbn. rewrite Hz1. cbn.
  eexists. split; [done|]. rewrite parse_header, Hf by done. unfold from_compressed_data.
  rewrite base64_roundtrip. cbn. rewrite Hz2. cbn. rewrite Hs2. done.
Qed.
End meta_print.

(** ** Parsing ends on every input *)

Section parse_total.
Context `{UnicodeCase} `{MetaCodec}.

Lemma config_loop_total it : ∀ c,
  (config_loop c it).1 ≠ Panic ∧ length (config_loop c it).2 ≤ length it.
Proof.
  induction (well_founded_ltof _ (length (A := string)) it) as [it _ IH]. intros c.
  destruct it as [|f [|v it]]; cbn [config_loop]; [done| |]; destruct (is_prefix f); try done; cbn.
  - split; [done|lia].
  - pose proof (set_field_total c f v).
    destruct (set_field c f v) as [c'|e|]; cbn; [|split; [done|lia]|done].
    destruct (IH it) with (c := c') as [? ?]; [unfold ltof; cbn; lia|]. split; [done|lia].
Qed.

Lemma node_map_parse_total it :
  match node_map_parse it with
  | Ok (_, it') => length it' ≤ length it
  | Err e => e = InvalidArgs
  | Panic => False
  end.
Proof.
  pose proof (node_map_loop_total (S (length it)) ∅ it ltac:(lia)) as Ht. unfold node_map_parse.
  destruct (node_map_loop _ _ it) as [[? ?]|?|]; naive_solver.
Qed.

Lemma sections_loop_total fuel : ∀ local peer c ext it,
  length it < fuel → sections_loop fuel local peer c ext it ≠ Panic.
Proof.
  induction fuel as [|fuel IH]; intros local peer c ext it Hf; [lia|].
  destruct it as [|t it]; cbn [sections_loop]; [done|]. cbn in Hf.
  destruct (bool_decide (to_uppercase t = PEER_PREFIX)); [|destruct (bool_decide (to_uppercase t = CONFIG_PREFIX)); [|done]].
  - pose proof (node_map_parse_total it) as Ht.
    destruct (node_map_parse it) as [[m it']|e|]; cbn; [|done..]. apply IH. lia.
  - destruct (config_loop_total it default_cluster_config) as [Hn Hl]. unfold config_parse.
    destruct (config_loop default_cluster_config it) as [[c'|e|] it']; cbn in *; [|destruct (_ || _)|done].
    + apply IH. lia.
    + done.
    + apply IH. lia.
Qed.

Lemma parse_no_panic it : parse it ≠ Panic.
Proof.
  unfold parse. destruct it as [|v it]; [done|]. case_bool_decide; [|done].
  destruct it as [|e it]; [done|]. destruct (parse_u64 e); cbn [ok_or mbind outcome_bind]; [|done].
  destruct it as [|f [|t it]]; [done..|]. destruct (compress (from_arg f)).
  - unfold from_compressed_data. destruct (base64_decode t) as [z|]; cbn; [|done].
    destruct (gz_decompress z) as [s|]; cbn; [|done]. by destruct (json_from_str s).
  - destruct (cluster_name_try_from t); cbn [ok_or mbind outcome_bind]; [|done].
    pose proof (node_map_parse_total it) as Ht.
    destruct (node_map_parse it) as [[m it']|e'|]; cbn [mbind outcome_bind]; [|done..].
    pose proof (sections_loop_total (S (length it')) m ∅ default_cluster_config true it' ltac:(lia)) as Hs.
    destruct (sections_loop _ _ _ _ _ it') as [[[p c] x]|?|]; done.
Qed.
End parse_total.

(** ** Replication: round trip *)

Definition repl_ok (m : ReplicatorMeta) : Prop :=
  (rep_epoch m ≤ u64_max)%N ∧
  Forall (λ x, cluster_name_try_from (ma_cluster_name x) = Some (ma_cluster_name x) ∧
    (N.of_nat (length (ma_replicas x)) ≤ u64_max)%N) (rep_masters m) ∧
  Forall (λ x, cluster_name_try_from (re_cluster_name x) = Some (re_cluster_name x) ∧
    (N.of_nat (length (re_masters x)) ≤ u64_max)%N) (rep_replicas m).

Lemma parse_peers_print peers rest :
  parse_peers (N.of_nat (length peers)) (peer_args peers ++ rest) = Ok (peers, rest).
Proof.
  induction peers as [|[n p] peers IH]; [by destruct rest|].
  change (peer_args (mkReplPeer n p :: peers)) with (n :: p :: peer_args peers).
  cbn [length app parse_peers]. rewrite (proj2 (N.eqb_neq _ 0)) by lia.
  replace (N.of_nat (S (length peers)) - 1)%N with (N.of_nat (length peers)) by lia. by rewrite IH.
Qed.

Section repl_print.
Context `{UnicodeCase}.

Lemma parse_master_print m rest :
  cluster_name_try_from (ma_cluster_name m) = Some (ma_cluster_name m) →
  (N.of_nat (length (ma_replicas m)) ≤ u64_max)%N →
  parse_repl_node (master_args m ++ rest) = Ok (inl m, rest).
Proof.
  intros Hn Hl. unfold master_args. rewrite <-app_assoc. cbn [app].
  unfold parse_repl_node. cbn [next ok_or mbind outcome_bind]. rewrite Hn. cbn [ok_or].
  rewrite parse_u64_to_string by done. cbn [ok_or mbind outcome_bind].
  rewrite parse_peers_print. rewrite to_uppercase_ascii by done. by destruct m.
Qed.

Lemma parse_replica_print r rest :
  cluster_name_try_from (re_cluster_name r) = Some (re_cluster_name r) →
  (N.of_nat (length (re_masters r)) ≤ u64_max)%N →
  parse_repl_node (replica_args r ++ rest) = Ok (inr r, rest).
Proof.
  intros Hn Hl. unfold replica_args. rewrite <-app_assoc. cbn [app].
  unfold parse_repl_node. cbn [next ok_or mbind outcome_bind]. rewrite Hn. cbn [ok_or].
  rewrite parse_u64_to_string by done. cbn [ok_or mbind outcome_bind].
  rewrite parse_peers_print. rewrite to_uppercase_ascii by done. by destruct r.
Qed.

Lemma parse_masters_print ms rest replicas : 
  Forall (λ x, cluster_name_try_from (ma_cluster_name x) = Some (ma_cluster_name x) ∧
    (N.of_nat (length (ma_replicas x)) ≤ u64_max)%N) ms → ∀ fuel acc,
  length (concat (master_args <$> ms) ++ rest) < fuel → ∃ fuel', length rest < fuel' ∧
  parse_repl_loop fuel acc replicas (concat (master_args <$> ms) ++ rest) =
  parse_repl_loop fuel' (acc ++ ms) replicas rest.
Proof.
  induction 1 as [|m ms [Hn Hl] Hms IH]; intros fuel acc Hf.
  { exists fuel. by rewrite app_nil_r. }
  destruct fuel as [|fuel]; [lia|]. cbn [fmap list_fmap concat] in *. rewrite <-app_assoc in *.
  cbn [parse_repl_loop]. rewrite parse_master_print by done. cbn [mbind outcome_bind].
  replace (acc ++ m :: ms) with ((acc ++ [m]) ++ ms) by by rewrite <-app_assoc.
  rewrite length_app in Hf. cbn in Hf. apply IH. lia.
Qed.

Lemma parse_replicas_print rs masters :
  Forall (λ x, cluster_name_try_from (re_cluster_name x) = Some (re_cluster_name x) ∧
    (N.of_nat (length (re_masters x)) ≤ u64_max)%N) rs → ∀ fuel acc,
  length (concat (replica_args <$> rs)) < fuel →
  parse_repl_loop fuel masters acc (concat (replica_args <$> rs)) = Ok (masters, acc ++ rs).
Proof.
  induction 1 as [|r rs [Hn Hl] Hrs IH]; intros fuel acc Hf; (destruct fuel as [|fuel]; [lia|]).
  { cbn. by rewrite app_nil_r. }
  cbn [fmap list_fmap concat] in *. cbn [parse_repl_loop].
  rewrite parse_replica_print by done. cbn [mbind outcome_bind].
  rewrite length_app in Hf. cbn in Hf. rewrite IH by lia. by rewrite <-app_assoc.
Qed.

Lemma repl_print m : repl_ok m → parse_repl_args (encode_repl_meta m) = Ok m.
Proof.
  intros (He & Hm & Hr). unfold parse_repl_args, encode_repl_meta. cbn [app next ok_or mbind outcome_bind].
  rewrite parse_u64_to_string by done. cbn [ok_or].
  destruct (parse_masters_print (rep_masters m) (concat (replica_args <$> rep_replicas m)) [] Hm
    (S (length (concat (master_args <$> rep_masters m) ++ concat (replica_args <$> rep_replicas m)))) [])
    as (fuel & Hf & ->); [lia|].
  rewrite parse_replicas_print by done. cbn. rewrite flags_print. by destruct m.
Qed.
End repl_print.

(** ** A codec for the compressed form

    Any injective encoding meets the laws; this one writes the binary digits
    of the encoding of stdpp's [Countable]. *)
Fixpoint positive_string (p : positive) : string :=
  match p with
  | xH => ""
  | xO p => String "0" (positive_string p)
  | xI p => String "1" (positive_string p)
  end.
Fixpoint string_positive (s : string) : positive :=
  match s with
  | "" => xH
  | String c s => if bool_decide (c = "0"%char) then xO (string_positive s) else xI (string_positive s)
  end.

Lemma string_positive_string p : string_positive (positive_string p) = p.
Proof.
  induction p as [p IH|p IH|]; cbn [positive_string string_positive]; [|by rewrite IH|done].
  by rewrite bool_decide_eq_false_2, IH.
Qed.

#[global] Instance Range_countable : Countable Range.
Proof. apply (inj_countable' (λ r, (r_start r, r_end r)) (λ '(a, c), mkRange a c)). by intros []. Defined.
#[global] Instance MigrationMeta_countable : Countable MigrationMeta.
Proof.
  apply (inj_countable'
    (λ m, (mm_epoch m, mm_src_proxy_address m, mm_src_node_address m, mm_dst_proxy_address m, mm_dst_node_address m))
    (λ '(a, c, d, e, f), mkMigrationMeta a c d e f)). by intros [].
Defined.
#[global] Instance SlotRangeTag_countable : Countable SlotRangeTag.
Proof.
  apply (inj_countable'
    (λ t, match t with Migrating m => inl (inl m) | Importing m => inl (inr m) | TagNone => inr () end)
    (λ x, match x with inl (inl m) => Migrating m | inl (inr m) => Importing m | inr () => TagNone end)).
  by intros [].
Defined.
#[global] Instance SlotRange_countable : Countable SlotRange.
Proof.
  apply (inj_countable' (λ s, (sr_range_list s, sr_tag s)) (λ '(a, c), mkSlotRange a c)). by intros [].
Defined.
#[global] Instance CompressionStrategy_countable : Countable CompressionStrategy.
Proof.
  apply (inj_countable' (λ s, match s with Disabled => 0 | SetGetOnly => 1 | AllowAll => 2 end)
    (λ n, match n with 0 => Disabled | 1 => SetGetOnly | _ => AllowAll end)). by intros [].
Defined.
#[global] Instance ClusterConfig_countable : Countable ClusterConfig.
Proof.
  apply (inj_countable' (λ c, let m := migration_config c in
      (compression_strategy c, max_migration_time m, max_blocking_time m, scan_interval m, scan_count m))
    (λ '(s, a, c, d, e), mkClusterConfig s (mkMigrationConfig a c d e))). by intros [? []].
Defined.
#[global] Instance ProxyClusterMetaData_eq_dec : EqDecision ProxyClusterMetaData.
Proof. solve_decision. Defined.
#[global] Instance ProxyClusterMetaData_countable : Countable ProxyClusterMetaData.
Proof.
  apply (inj_countable' (λ d, (pcd_cluster_name d, pcd_local d, pcd_peer d, pcd_cluster_config d))
    (λ '(a, c, d, e), mkProxyClusterMetaData a c d e)). by intros [].
Defined.

Definition binary_codec : MetaCodec := {|
  json_to_string d := Some (positive_string (encode d));
  json_from_str s := countable.decode (string_positive s);
  gz_compress s := Some (bytes_of s);
  gz_decompress z := Some (String.string_of_list_ascii z);
  base64_encode z := String.string_of_list_ascii z;
  base64_decode s := Some (bytes_of s);
|}.

Lemma binary_codec_laws : MetaCodecLaws (H := binary_codec).
Proof.
  split; cbn.
  - intros d. eexists. split; [done|]. rewrite string_positive_string. apply decode_encode.
  - intros s. eexists. split; [done|]. unfold bytes_of. by rewrite String.string_of_list_ascii_of_string.
  - intros z. unfold bytes_of. by rewrite String.list_ascii_of_string_of_list_ascii.
Qed.

(** ** Claims *)

(** The arguments of [UMCTL SETCLUSTER] carry the metadata: parsing what
    [to_args] writes gives back the epoch, the flags, the name, the
    configuration and every node that has slots with its slot ranges and
    migration tags, in whatever order the maps are iterated. *)
Theorem setcluster_roundtrip `{UnicodeCase} `{HashOrder} `{MetaCodec} m :
  meta_ok m → compress (pcm_flags m) = false →
  parse (to_args m) = Ok (meta_with_slots m, true).
Proof. apply to_args_print. Qed.

(** The compressed form carries the whole metadata, the nodes without
    slots included. *)
Theorem setcluster_compressed_roundtrip `{UnicodeCase} `{MetaCodec} {Hl : MetaCodecLaws} m :
  pcm_version m = SET_CLUSTER_API_VERSION → (pcm_epoch m ≤ u64_max)%N → compress (pcm_flags m) = true →
  ∃ args, to_compressed_args m = Ok args ∧ parse args = Ok (m, true).
Proof. apply to_compressed_args_print. Qed.

(** Whatever the arguments are, parsing [UMCTL SETCLUSTER] ends with the
    metadata or an error: the loops over the nodes and over the sections do
    not run forever and nothing panics. *)
Theorem setcluster_parse_total `{UnicodeCase} `{MetaCodec} it :
  (∃ r, parse it = Ok r) ∨ (∃ e, parse it = Err e).
Proof. pose proof (parse_no_panic it). destruct (parse it); naive_solver. Qed.

(** [UMCTL SETREPL]: parsing what [encode_repl_meta] writes gives back the
    epoch, the flags and every master and replica with its peers, in order. *)
Theorem setrepl_roundtrip `{UnicodeCase} m :
  repl_ok m → parse_repl_args (encode_repl_meta m) = Ok m.
Proof. apply repl_print. Qed.

(** The arguments up to the configuration. *)
Definition core_args `{HashOrder} (m : ProxyClusterMeta) : list string :=
  [pcm_version m; to_string (pcm_epoch m); to_arg (pcm_flags m); pcm_cluster_name m] ++
  node_map_to_args (pcm_local m) ++ PEER_PREFIX :: node_map_to_args (pcm_peer m).

(** What an invalid configuration leaves: the core and the default values. *)
Definition meta_default_config (m : ProxyClusterMeta) : ProxyClusterMeta :=
  mkProxyClusterMeta (pcm_version m) (pcm_epoch m) (pcm_flags m) (pcm_cluster_name m)
    (with_slots (pcm_local m)) (with_slots (pcm_peer m)) default_cluster_config.

Section invalid_config.
Context `{UnicodeCase} `{HashOrder} `{MetaCodec}.

Lemma parse_core m rest :
  meta_ok m → compress (pcm_flags m) = false → section_end rest →
  parse (core_args m ++ rest) =
  ('(peer, config, extended) ←
     sections_loop (length (PEER_PREFIX :: node_map_to_args (pcm_peer m) ++ rest))
       (with_slots (pcm_local m)) (with_slots (pcm_peer m)) default_cluster_config true rest;
   Ok (mkProxyClusterMeta (pcm_version m) (pcm_epoch m) (pcm_flags m) (pcm_cluster_name m)
     (with_slots (pcm_local m)) peer config, extended)).
Proof.
  destruct m as [v e f n l p c]. intros (Hv & He & Hn & Hl & Hp & Hc) Hf Hrest. unfold core_args.
  cbn [pcm_version pcm_epoch pcm_flags pcm_cluster_name pcm_local pcm_peer pcm_cluster_config] in *. subst v.
  rewrite <-!app_assoc. cbn [app]. rewrite parse_header, Hf, Hn by done. cbn [ok_or mbind outcome_bind].
  rewrite node_map_print; [|done|apply prefix_end]. cbn [mbind outcome_bind].
  cbn [sections_loop]. rewrite (proj1 prefix_upper), bool_decide_eq_true_2 by done.
  by rewrite node_map_print.
Qed.

(** An invalid configuration field is ignored, with the rest of the
    metadata kept, only when it is the last one.  When valid fields follow, the
    parser takes them for the name of a section and rejects the whole
    metadata. *)
Theorem invalid_config_field m field value e rest :
  meta_ok m → compress (pcm_flags m) = false →
  with_slots (pcm_local m) ≠ ∅ → with_slots (pcm_peer m) ≠ ∅ →
  is_prefix field = false → set_field default_cluster_config field value = Err e →
  (∀ token rest', rest = token :: rest' → is_prefix token = false) →
  parse (core_args m ++ CONFIG_PREFIX :: field :: value :: rest) =
  match rest with
  | [] => Ok (meta_default_config m, false)
  | _ => Err InvalidArgs
  end.
Proof.
  intros Hm Hf Hl Hp Hfield Hset Hrest. rewrite parse_core by (done || apply prefix_end).
  rewrite length_cons, length_app. cbn [sections_loop length].
  rewrite (proj2 prefix_upper), bool_decide_eq_false_2, bool_decide_eq_true_2 by done.
  unfold config_parse. cbn [config_loop]. rewrite Hfield, Hset.
  rewrite !bool_decide_eq_false_2 by done. cbn [orb].
  rewrite Nat.add_comm. cbn [Nat.add sections_loop]. destruct rest as [|token rest]; [done|].
  specialize (Hrest token rest eq_refl). unfold is_prefix in Hrest.
  apply orb_false_iff in Hrest as [Hpeer Hconfig]. by rewrite Hpeer, Hconfig.
Qed.
End invalid_config.

(** ** Witnesses *)

Definition demo_slots : list SlotRange :=
  [mkSlotRange [mkRange 0 100; mkRange 200 300] TagNone;
   mkSlotRange [mkRange 101 110] (Migrating (mkMigrationMeta 7 "a:1" "a:2" "b:1" "b:2"))].
Definition demo_meta (compress : bool) : ProxyClusterMeta :=
  proxy_cluster_meta_new 9 (mkFlags true compress) "demo" {[ "a:2" := demo_slots; "a:3" := [] ]}
    {[ "b:1" := [mkSlotRange [mkRange 111 199] TagNone] ]} default_cluster_config.

Lemma demo_slots_ok : Forall slot_range_ok demo_slots.
Proof.
  repeat constructor; cbn; try done; unfold u64_max, u64_modulus; try lia;
    repeat constructor; cbn; unfold u64_max, u64_modulus; lia.
Qed.

Lemma demo_meta_ok c : meta_ok (H := ascii_case) (demo_meta c).
Proof.
  unfold meta_ok, demo_meta. cbn -[u64_max]. split_and!; try done.
  - intros a srs [[<- <-]|[_ [<- <-]%lookup_singleton_Some]]%lookup_insert_Some; split; try done.
    apply demo_slots_ok.
  - intros a srs [<- <-]%lookup_singleton_Some. split; [done|].
    repeat constructor; cbn; unfold u64_max, u64_modulus; lia.
Qed.

Lemma setcluster_roundtrip_witness :
  parse (H := ascii_case) (H0 := binary_codec) (to_args (H := canonical_order) (demo_meta false)) =
  Ok (meta_with_slots (demo_meta false), true).
Proof. apply setcluster_roundtrip; [apply demo_meta_ok|reflexivity]. Defined.

Lemma setcluster_compressed_roundtrip_witness :
  ∃ args, to_compressed_args (H := binary_codec) (demo_meta true) = Ok args ∧
    parse (H := ascii_case) (H0 := binary_codec) args = Ok (demo_meta true, true).
Proof.
  apply (setcluster_compressed_roundtrip (Hl := binary_codec_laws)); [reflexivity| |reflexivity].
  vm_compute. discriminate.
Defined.

Definition demo_repl : ReplicatorMeta :=
  mkReplicatorMeta 3 (mkFlags true false) [mkMasterMeta "demo" "a:2" [mkReplPeer "b:3" "b:1"]]
    [mkReplicaMeta "demo" "a:3" [mkReplPeer "b:2" "b:1"]].

Lemma setrepl_roundtrip_witness :
  parse_repl_args (H := ascii_case) (encode_repl_meta demo_repl) = Ok demo_repl.
Proof.
  apply setrepl_roundtrip. split; [vm_compute; discriminate|].
  split; repeat constructor; vm_compute; discriminate.
Defined.

Lemma invalid_config_field_witness :
  parse (H := ascii_case) (H0 := binary_codec) (core_args (H := canonical_order) (demo_meta false) ++
    CONFIG_PREFIX :: "new_field" :: "1" :: ["compression_strategy"; "disabled"]) = Err InvalidArgs.
Proof.
  apply (invalid_config_field (H := ascii_case) (H0 := canonical_order) (H1 := binary_codec)
    (demo_meta false) "new_field" "1" FieldNotFound ["compression_strategy"; "disabled"]).
  - apply demo_meta_ok.
  - reflexivity.
  - vm_compute. discriminate.
  - vm_compute. discriminate.
  - vm_compute. reflexivity.
  - vm_compute. reflexivity.
  - intros token rest [= <- <-]. vm_compute. reflexivity.
Defined.
