(* ===== verification/MetaMap.v ===== *)
(** * What a proxy does with its metadata

    Models how a server proxy keeps its metadata and routes commands with it:
    the slot map ([src/src/proxy/slot.rs]), the local and remote cluster
    ([src/src/proxy/cluster.rs]), the migration tasks
    ([src/src/migration/task.rs], [src/src/migration/scan_task.rs],
    [src/src/migration/manager.rs]) and the manager that replaces all of them
    when new metadata arrives ([src/src/proxy/manager.rs]).

    A command is always disposed of in one way: it is answered, handed to the
    sender of a node or of another proxy, handed to the handler of an importing
    task, or dropped (then the reply sender reports it).  The operations return
    the list of these [Action]s.  What a sender does with a command (take it,
    refuse it, or ask for a retry) is an argument. *)

From S2P Require Import Prelude RangeList RustStr Resp Packet ClusterMeta Wire Command.

(** ** The slot map ([slot.rs]) *)

Record SlotMap : Type := mkSlotMap {
  sm_slot_arr : list (option nat);
  sm_addrs : list string;
}.

(** The loop over the slots of one range, with its [break]. *)
Fixpoint assign_slots (index : nat) (slots : list N) (arr : list (option nat)) : list (option nat) :=
  match slots with
  | [] => arr
  | s :: slots =>
      if (SLOT_NUM <=? s)%N then arr
      else assign_slots index slots (<[N.to_nat s := Some index]> arr)
  end.

Definition assign_range (index : nat) (arr : list (option nat)) (range : N * N) : list (option nat) :=
  let '(start, end_) := range in
  if (end_ <? start)%N then arr else assign_slots index (inclusive start end_) arr.

Definition assign_addr (m : SlotMap) (kv : string * list (N * N)) : SlotMap :=
  let addrs := sm_addrs m ++ [kv.1] in
  mkSlotMap (foldl (assign_range (length addrs - 1)) (sm_slot_arr m) kv.2) addrs.

Definition slot_map_data_new `{HashOrder} (slot_map : gmap string (list (N * N))) : SlotMap :=
  foldl assign_addr (mkSlotMap (replicate (N.to_nat SLOT_NUM) None) []) (hash_iter slot_map).

Definition range_pairs (slot_ranges : list SlotRange) : list (N * N) :=
  slot_ranges ≫= λ slot_range, (λ r, (r_start r, r_end r)) <$> sr_range_list slot_range.

Definition slot_map_from_ranges `{HashOrder} (slot_map : NodeMap) : SlotMap :=
  slot_map_data_new (range_pairs <$> slot_map).

Definition slot_map_get (m : SlotMap) (slot : N) : option string :=
  addr_index ← mjoin (sm_slot_arr m !! N.to_nat slot);
  sm_addrs m !! addr_index.

(** *** What the slot map answers *)

Definition pair_covers (s : N) (r : N * N) : bool := ((r.1 <=? s) && (s <=? r.2))%N.
Definition pairs_cover (s : N) (rs : list (N * N)) : bool := existsb (pair_covers s) rs.

(** The reference: the last node that lists the slot. *)
Definition last_covering (s : N) (l : list (string * list (N * N))) : option string :=
  fst <$> last (filter (λ kv, Is_true (pairs_cover s kv.2)) l).

Section slot_map.
Context (s : N) (Hs : (s < SLOT_NUM)%N).

Lemma assign_slots_length index slots : ∀ arr, length (assign_slots index slots arr) = length arr.
Proof.
  induction slots as [|x slots IH]; intros arr; cbn; [done|].
  destruct (SLOT_NUM <=? x)%N; [done|]. by rewrite IH, length_insert.
Qed.

Lemma assign_slots_lookup index slots : ∀ arr,
  StronglySorted N.le slots → length arr = N.to_nat SLOT_NUM →
  assign_slots index slots arr !! N.to_nat s =
    if decide (s ∈ slots) then Some (Some index) else arr !! N.to_nat s.
Proof.
  induction slots as [|x slots IH]; intros arr Hsort Hlen; cbn; [by rewrite decide_False by set_solver|].
  apply StronglySorted_inv in Hsort as [Hsort Hx]. destruct (N.leb_spec SLOT_NUM x).
  - rewrite decide_False; [done|]. rewrite elem_of_cons. intros [->|Hin]; [lia|].
    eapply Forall_forall in Hx; [|exact Hin]. cbn in Hx. lia.
  - rewrite IH by (done || by rewrite length_insert).
    destruct (decide (s ∈ slots)); [by rewrite decide_True by set_solver|].
    destruct (decide (s = x)) as [->|Hne].
    + rewrite decide_True by set_solver. rewrite list_lookup_insert_eq; [done|lia].
    + rewrite decide_False by set_solver. rewrite list_lookup_insert_ne; [done|lia].
Qed.

Lemma inclusive_sorted a b : StronglySorted N.le (inclusive a b).
Proof.
  unfold inclusive. destruct (a <=? b)%N; [|constructor].
  generalize (N.to_nat a) (N.to_nat (b - a) + 1). intros i n. revert i.
  induction n as [|n IH]; intros i; cbn; constructor; [apply IH|].
  apply Forall_fmap, Forall_forall. intros x Hx%elem_of_seq. cbn. lia.
Qed.

Lemma assign_range_length index arr r : length (assign_range index arr r) = length arr.
Proof. destruct r as [a b]. cbn. destruct (b <? a)%N; [done|]. apply assign_slots_length. Qed.

Lemma assign_range_lookup index arr r :
  length arr = N.to_nat SLOT_NUM →
  assign_range index arr r !! N.to_nat s = if pair_covers s r then Some (Some index) else arr !! N.to_nat s.
Proof.
  intros Hlen. destruct r as [a b]. unfold pair_covers. cbn.
  assert ((a <=? s)%N && (s <=? b)%N = bool_decide (s ∈ inclusive a b)) as ->.
  { apply eq_true_iff_eq. rewrite bool_decide_eq_true, elem_of_inclusive, andb_true_iff, !N.leb_le. done. }
  destruct (N.ltb_spec b a).
  - rewrite bool_decide_eq_false_2; [done|]. rewrite elem_of_inclusive. lia.
  - rewrite assign_slots_lookup; [|apply inclusive_sorted|done]. by destruct (decide (s ∈ inclusive a b)) as [Hin|Hin];
      [rewrite bool_decide_eq_true_2|rewrite bool_decide_eq_false_2].
Qed.

Lemma assign_ranges_lookup index rs : ∀ arr,
  length arr = N.to_nat SLOT_NUM →
  length (foldl (assign_range index) arr rs) = N.to_nat SLOT_NUM ∧
  foldl (assign_range index) arr rs !! N.to_nat s =
    if pairs_cover s rs then Some (Some index) else arr !! N.to_nat s.
Proof.
  induction rs as [|r rs IH]; intros arr Hlen; [done|]. cbn [foldl].
  destruct (IH (assign_range index arr r)) as [H1 H2]; [by rewrite assign_range_length|].
  split; [exact H1|]. rewrite H2, assign_range_lookup by exact Hlen. unfold pairs_cover; cbn.
  by destruct (pair_covers s r), (existsb _ rs).
Qed.

(** The array has an entry for each slot, and its indices are those of addresses. *)
Definition slot_map_wf (m : SlotMap) : Prop :=
  length (sm_slot_arr m) = N.to_nat SLOT_NUM ∧
  ∀ i, sm_slot_arr m !! N.to_nat s = Some (Some i) → i < length (sm_addrs m).

Lemma assign_addr_get m kv :
  slot_map_wf m →
  slot_map_wf (assign_addr m kv) ∧
  slot_map_get (assign_addr m kv) s = if pairs_cover s kv.2 then Some kv.1 else slot_map_get m s.
Proof.
  intros [Hlen Hidx]. unfold slot_map_wf, slot_map_get, assign_addr. cbn.
  rewrite length_app; cbn. replace (length (sm_addrs m) + 1 - 1) with (length (sm_addrs m)) by lia.
  destruct (assign_ranges_lookup (length (sm_addrs m)) kv.2 (sm_slot_arr m) Hlen) as [H1 H2].
  rewrite H2. destruct (pairs_cover s kv.2); cbn; repeat split; try done.
  - intros i [= <-]. lia.
  - rewrite lookup_app_r, Nat.sub_diag by lia. done.
  - intros i Hi. specialize (Hidx i Hi). lia.
  - destruct (sm_slot_arr m !! N.to_nat s) as [[i|]|] eqn:Hi; cbn; try done.
    by rewrite lookup_app_l by (apply Hidx; done).
Qed.

Lemma slot_map_get_last `{HashOrder} (m : gmap string (list (N * N))) :
  slot_map_get (slot_map_data_new m) s = last_covering s (hash_iter m).
Proof.
  unfold slot_map_data_new. generalize (hash_iter m). intros l.
  cut (slot_map_wf (foldl assign_addr (mkSlotMap (replicate (N.to_nat SLOT_NUM) None) []) l) ∧
    slot_map_get (foldl assign_addr (mkSlotMap (replicate (N.to_nat SLOT_NUM) None) []) l) s = last_covering s l);
    [tauto|].
  induction l as [|kv l IH] using rev_ind.
  - unfold slot_map_wf, slot_map_get. cbn -[SLOT_NUM replicate]. rewrite length_replicate.
    rewrite lookup_replicate_2 by lia. done.
  - rewrite foldl_app. cbn [foldl]. destruct IH as [Hwf IH]. destruct (assign_addr_get _ kv Hwf) as [Hwf' ->].
    split; [exact Hwf'|]. rewrite IH. unfold last_covering. rewrite filter_app, filter_cons, filter_nil.
    case_decide as Hc; destruct (pairs_cover s kv.2); try done; [by rewrite last_snoc|by rewrite app_nil_r].
Qed.
End slot_map.

(** A slot range lists the slot, whatever its tag. *)
Definition lists_slot (s : N) (sr : SlotRange) : Prop := cover s (sr_range_list sr) ≠ 0.

Lemma cover_exists s rs : cover s rs ≠ 0 ↔ ∃ r, r ∈ rs ∧ in_range s r = true.
Proof.
  induction rs as [|r rs IH]; cbn; [split; [done|by intros (? & ?%not_elem_of_nil & _)]|].
  setoid_rewrite elem_of_cons. destruct (in_range s r) eqn:Hr; cbn.
  - split; [eauto|lia].
  - rewrite IH. split; intros (x & Hx & Hin); exists x; [by auto|]. destruct Hx as [->|]; [congruence|done].
Qed.

Lemma range_pairs_cover s srs : pairs_cover s (range_pairs srs) = true ↔ Exists (lists_slot s) srs.
Proof.
  unfold pairs_cover, range_pairs, lists_slot. rewrite existsb_exists, Exists_exists.
  setoid_rewrite <-list_elem_of_In. setoid_rewrite list_elem_of_bind. setoid_rewrite cover_exists.
  setoid_rewrite list_elem_of_fmap. unfold pair_covers, in_range. split.
  - intros (x & (sr & (r & -> & Hr) & Hsr) & Hx). eauto.
  - intros (sr & Hsr & r & Hr & Hx). exists (r_start r, r_end r). eauto 10.
Qed.

(** The slot map answers with a node that lists the slot, and with nothing
    only when no node lists it. *)
Lemma slot_map_get_spec `{HashOrder} (m : NodeMap) s :
  (s < SLOT_NUM)%N →
  match slot_map_get (slot_map_from_ranges m) s with
  | Some a => ∃ srs, m !! a = Some srs ∧ Exists (lists_slot s) srs
  | None => ∀ a srs, m !! a = Some srs → ¬ Exists (lists_slot s) srs
  end.
Proof.
  intros Hs. unfold slot_map_from_ranges. rewrite slot_map_get_last by exact Hs. unfold last_covering.
  assert (∀ kv, kv ∈ hash_iter (range_pairs <$> m) ↔ (range_pairs <$> m) !! kv.1 = Some kv.2) as Hiter.
  { intros [k v]. rewrite hash_iter_perm. apply elem_of_map_to_list. }
  destruct (last _) as [[a rs]|] eqn:Hl; cbn.
  - apply last_Some_elem_of, list_elem_of_filter in Hl as [Hc Hin]. apply Hiter in Hin. cbn in Hin, Hc.
    apply lookup_fmap_Some in Hin as (srs & <- & Hm). apply Is_true_true, range_pairs_cover in Hc. eauto.
  - intros a srs Hm Hc%range_pairs_cover. apply last_None in Hl.
    apply (not_elem_of_nil (a, range_pairs srs)). rewrite <-Hl. apply list_elem_of_filter. cbn.
    split; [by apply Is_true_true|]. apply Hiter. cbn. by rewrite lookup_fmap, Hm.
Qed.

(** ** Commands on their way ([session.rs], [blocking.rs]) *)

Record CmdCtx : Type := mkCmdCtx {
  ctx_cmd : Command;
  ctx_redirection_times : option N;
}.

Definition ctx_slot (c : CmdCtx) : option N := get_slot (ctx_cmd c).

Record BlockingState : Type := mkBlockingState { bs_blocking : bool; bs_term : N }.

Inductive BlockingHint : Type :=
| NotBlocking
| NotBlockingInMigration (term : N)
| Blocking.

#[global] Instance BlockingHint_eq_dec : EqDecision BlockingHint.
Proof. solve_decision. Defined.

Record BlockingHintTask : Type := mkBlockingHintTask {
  bt_inner : CmdCtx;
  bt_blocking_hint : BlockingHint;
}.

Inductive BackendError : Type :=
| BackendIo | BackendNodeNotFound | BackendInvalidProtocol | BackendInvalidAddress
| BackendCanceled | BackendInvalidState | BackendTimeout.

(** What a sender does with a command: it takes it, it fails (and then
    consumes the command), or it hands it back to be tried again. *)
Inductive Verdict : Type := Taken | Failed (err : BackendError) | TryAgain.

Inductive Action : Type :=
| Reply (resp : RespVec)
| ToNode (address : string) (task : BlockingHintTask)
| ToPeer (address : string) (ctx : CmdCtx)
| ToImporting (task : MigrationTaskMeta) (ctx : CmdCtx)
| FailedSender (address : string) (err : BackendError)
| Dropped.

Inductive ClusterSendError (T : Type) : Type :=
| MissingKey
| SendClusterNotFound (task : T)
| SlotNotFound (task : T)
| SlotNotCovered
| Backend (err : BackendError)
| MigrationErr
| ActiveRedirection (task : T) (slot : N) (address : string)
| Retry (task : T).
Arguments MissingKey {T}.
Arguments SendClusterNotFound {T} _.
Arguments SlotNotFound {T} _.
Arguments SlotNotCovered {T}.
Arguments Backend {T} _.
Arguments MigrationErr {T}.
Arguments ActiveRedirection {T} _ _ _.
Arguments Retry {T} _.

(** The result of an operation that sends a command: what happened to the
    command, and what the operation returns. *)
Abbreviation sending E := (list Action * outcome E ())%type (only parsing).

Definition error_reply (msg : string) : RespVec := Error (bytes_of msg).
Definition reply_error (msg : string) : list Action := [Reply (error_reply msg)].

(** ** Local and remote cluster ([cluster.rs]) *)

(** The senders of a [SenderMap] are known by the address they send to. *)
Record SenderMap : Type := mkSenderMap { sd_nodes : gset string; sd_slot_map : SlotMap }.

Record LocalCluster : Type := mkLocalCluster {
  lc_cluster_name : ClusterName;
  lc_epoch : N;
  lc_local_backend : SenderMap;
  lc_slot_ranges : NodeMap;
  lc_config : ClusterConfig;
}.

Record RemoteCluster : Type := mkRemoteCluster {
  rc_cluster_name : ClusterName;
  rc_epoch : N;
  rc_slot_map : SlotMap;
  rc_slot_ranges : NodeMap;
  rc_remote_backend : option SenderMap;
}.

Record ClusterBackendMap : Type := mkClusterBackendMap {
  cb_cluster_name : ClusterName;
  cb_local_cluster : LocalCluster;
  cb_remote_cluster : RemoteCluster;
}.

(** What the senders do with the commands they are given. *)
Record Senders : Type := mkSenders {
  local_verdict : string → BlockingHintTask → Verdict;
  peer_verdict : string → CmdCtx → Verdict;
  importing_takes : MigrationTaskMeta → CmdCtx → bool;
  blocking_state_of : string → BlockingState;
}.

Section cluster.
Context `{HashOrder}.

Definition sender_map_from_slot_map (slot_map : NodeMap) : SenderMap :=
  mkSenderMap (dom slot_map) (slot_map_from_ranges slot_map).

Definition sender_map_default : SenderMap := mkSenderMap ∅ (slot_map_from_ranges ∅).

Definition local_cluster_default : LocalCluster :=
  mkLocalCluster EMPTY_CLUSTER_NAME 0 sender_map_default ∅ default_cluster_config.
Definition remote_cluster_default : RemoteCluster :=
  mkRemoteCluster EMPTY_CLUSTER_NAME 0 (slot_map_from_ranges ∅) ∅ None.
Definition cluster_backend_map_default : ClusterBackendMap :=
  mkClusterBackendMap EMPTY_CLUSTER_NAME local_cluster_default remote_cluster_default.

Definition local_from_slot_map (name : ClusterName) (epoch : N) (slot_map : NodeMap)
    (config : ClusterConfig) : LocalCluster :=
  mkLocalCluster name epoch (sender_map_from_slot_map slot_map) slot_map config.

Definition remote_from_slot_map (name : ClusterName) (epoch : N) (slot_map : NodeMap)
    (active_redirection : bool) : RemoteCluster :=
  mkRemoteCluster name epoch (slot_map_from_ranges slot_map) slot_map
    (if active_redirection then Some (sender_map_from_slot_map slot_map) else None).

Definition from_cluster_map (cluster_meta : ProxyClusterMeta) (active_redirection : bool)
  : ClusterBackendMap :=
  let epoch := pcm_epoch cluster_meta in
  let cluster_name := pcm_cluster_name cluster_meta in
  mkClusterBackendMap cluster_name
    (local_from_slot_map cluster_name epoch (pcm_local cluster_meta) (pcm_cluster_config cluster_meta))
    (remote_from_slot_map cluster_name epoch (pcm_peer cluster_meta) active_redirection).

(** The error a sender's verdict becomes ([from_sender_backend_error]). *)
Definition sent_to {T} (act : Action) (address : string) (task : T) (v : Verdict) :
    sending (ClusterSendError T) :=
  match v with
  | Taken => ([act], Ok ())
  | Failed err => ([FailedSender address err], Err (Backend err))
  | TryAgain => ([], Err (Retry task))
  end.

Definition local_send (env : Senders) (lc : LocalCluster) (cmd_task : BlockingHintTask) :
    sending (ClusterSendError BlockingHintTask) :=
  if bool_decide (lc_cluster_name lc = EMPTY_CLUSTER_NAME) then ([], Err (SendClusterNotFound cmd_task))
  else
    match ctx_slot (bt_inner cmd_task) with
    | None => (reply_error "missing key", Err MissingKey)
    | Some slot =>
        match slot_map_get (sd_slot_map (lc_local_backend lc)) slot with
        | Some addr =>
            if bool_decide (addr ∈ sd_nodes (lc_local_backend lc)) then
              sent_to (ToNode addr cmd_task) addr cmd_task (local_verdict env addr cmd_task)
            else ([], Err (SlotNotFound cmd_task))
        | None => ([], Err (SlotNotFound cmd_task))
        end
    end.

Definition send_remote (rc : RemoteCluster) (cmd_task : BlockingHintTask) :
    sending (ClusterSendError BlockingHintTask) :=
  if bool_decide (rc_cluster_name rc = EMPTY_CLUSTER_NAME) then ([], Err (SendClusterNotFound cmd_task))
  else
    match ctx_slot (bt_inner cmd_task) with
    | None => (reply_error "missing key", Err MissingKey)
    | Some slot =>
        match slot_map_get (rc_slot_map rc) slot with
        | Some addr =>
            match rc_remote_backend rc with
            | Some _ => ([], Err (ActiveRedirection cmd_task slot addr))
            | None => (reply_error (gen_moved slot addr), Ok ())
            end
        | None => (reply_error ("slot not covered " +:+ to_string slot), Err SlotNotCovered)
        end
    end.

Definition send_remote_directly (env : Senders) (rc : RemoteCluster) (cmd_task : CmdCtx) (slot : N)
    (address : string) : sending (ClusterSendError CmdCtx) :=
  match rc_remote_backend rc with
  | Some remote_backend =>
      if bool_decide (address ∈ sd_nodes remote_backend) then
        sent_to (ToPeer address cmd_task) address cmd_task (peer_verdict env address cmd_task)
      else ([], Err (SlotNotFound cmd_task))
  | None => (reply_error (gen_moved slot address), Ok ())
  end.

Definition cluster_send (env : Senders) (m : ClusterBackendMap) (cmd_task : BlockingHintTask) :
    sending (ClusterSendError BlockingHintTask) :=
  match local_send env (cb_local_cluster m) cmd_task with
  | (acts, Err (SlotNotFound cmd_task)) =>
      let '(acts', res) := send_remote (cb_remote_cluster m) cmd_task in (acts ++ acts', res)
  | others => others
  end.

Definition not_migrating (sr : SlotRange) : bool := negb (tag_is_migrating (sr_tag sr)).
Definition local_is_ready (lc : LocalCluster) : bool :=
  existsb (existsb not_migrating) (hash_values (lc_slot_ranges lc)).
End cluster.

(** ** Migration tasks ([task.rs], [scan_task.rs]) *)

Inductive MigrationState : Type :=
| PreCheck | PreBlocking | PreSwitch | Scanning | FinalSwitch | SwitchCommitted.

#[global] Instance MigrationState_eq_dec : EqDecision MigrationState.
Proof. solve_decision. Defined.

(** The state is stored as a [u16] ([AtomicMigrationState]). *)
Definition state_to_u16 (s : MigrationState) : N :=
  match s with
  | PreCheck => 0 | PreBlocking => 1 | PreSwitch => 2
  | Scanning => 3 | FinalSwitch => 4 | SwitchCommitted => 5
  end.
Definition state_from_u16 (n : N) : MigrationState :=
  match n with
  | 0 => PreCheck | 1 => PreBlocking | 2 => PreSwitch
  | 3 => Scanning | 4 => FinalSwitch | _ => SwitchCommitted
  end%N.

Inductive MgrSubCmd : Type := CmdPreCheck | CmdPreSwitch | CmdFinalSwitch.

(** The errors of the replicator, the Redis client and the system are only
    logged, so their payloads are left out. *)
Inductive MigrationError : Type :=
| IncompatibleVersion | AlreadyStarted | AlreadyEnded | Canceled | MgrNotReady
| ReplErr | RedisClientErr | IoErr | MgrTimeout | InvalidConfig.

Inductive SwitchError : Type :=
| InvalidArg | TaskNotFound | PeerMigrating | SwitchNotReady | MgrErr (err : MigrationError).

Definition UNDERMOON_MIGRATION_VERSION : string := "mgr-0.2".

Record SwitchArg : Type := mkSwitchArg { sa_version : string; sa_meta : MigrationTaskMeta }.

(** What the routing uses of [RedisScanMigratingTask] and
    [RedisScanImportingTask]. *)
Record MigratingTask : Type := mkMigratingTask {
  mt_range_map : RangeMap;
  mt_meta : MigrationMeta;
  mt_state : N;
  mt_active_redirection : bool;
}.

Record ImportingTask : Type := mkImportingTask {
  it_meta : MigrationMeta;
  it_range_map : RangeMap;
  it_state : N;
  it_active_redirection : bool;
}.

Definition migrating_task_new (active_redirection : bool) (slot_range : SlotRange) (meta : MigrationMeta)
  : MigratingTask :=
  mkMigratingTask (range_map_from (sr_range_list slot_range)) meta (state_to_u16 PreCheck) active_redirection.
Definition importing_task_new (active_redirection : bool) (meta : MigrationMeta) (slot_range : SlotRange)
  : ImportingTask :=
  mkImportingTask meta (range_map_from (sr_range_list slot_range)) (state_to_u16 PreCheck) active_redirection.

Definition TaskRecord : Type := MigratingTask + ImportingTask.

Definition task_state (t : TaskRecord) : MigrationState :=
  match t with inl m => state_from_u16 (mt_state m) | inr i => state_from_u16 (it_state i) end.
Definition task_contains_slot (t : TaskRecord) (slot : N) : bool :=
  match t with inl m => contains_slot (mt_range_map m) slot | inr i => contains_slot (it_range_map i) slot end.

Definition handle_redirection (cmd_task : CmdCtx) (redirection_address : string) (active_redirection : bool) :
    sending (ClusterSendError BlockingHintTask) :=
  match ctx_slot cmd_task with
  | None => (reply_error "missing key", Ok ())
  | Some slot =>
      if active_redirection then
        ([], Err (ActiveRedirection (mkBlockingHintTask cmd_task NotBlocking) slot redirection_address))
      else (reply_error (gen_moved slot redirection_address), Ok ())
  end.

(** [MigratingTask::send]; [bs] is what [get_blocking_state] returns. *)
Definition migrating_send (bs : BlockingState) (t : MigratingTask) (cmd_task : CmdCtx) :
    sending (ClusterSendError BlockingHintTask) :=
  match state_from_u16 (mt_state t) with
  | PreCheck =>
      ([], Err (SlotNotFound (mkBlockingHintTask cmd_task (NotBlockingInMigration (bs_term bs)))))
  | PreBlocking | PreSwitch =>
      let blocking_hint := if bs_blocking bs then Blocking else NotBlockingInMigration (bs_term bs) in
      ([], Err (SlotNotFound (mkBlockingHintTask cmd_task blocking_hint)))
  | _ => handle_redirection cmd_task (mm_dst_proxy_address (mt_meta t)) (mt_active_redirection t)
  end.

(** [ImportingTask::send]; [takes] says whether the handler of the task takes
    the command or returns it for a retry. *)
Definition importing_send (takes : bool) (key : MigrationTaskMeta) (t : ImportingTask) (cmd_task : CmdCtx) :
    sending (ClusterSendError BlockingHintTask) :=
  if bool_decide (state_from_u16 (it_state t) = PreCheck) then
    handle_redirection cmd_task (mm_src_proxy_address (it_meta t)) (it_active_redirection t)
  else if takes then ([ToImporting key cmd_task], Ok ())
  else ([], Err (Retry (mkBlockingHintTask cmd_task NotBlocking))).

Definition importing_handle_switch (t : ImportingTask) (switch_arg : SwitchArg) (sub_cmd : MgrSubCmd) :
    ImportingTask * outcome MigrationError () :=
  if bool_decide (sa_version switch_arg ≠ UNDERMOON_MIGRATION_VERSION) then (t, Err IncompatibleVersion)
  else
    let state := match sub_cmd with
                 | CmdPreCheck => PreCheck
                 | CmdPreSwitch => PreSwitch
                 | CmdFinalSwitch => SwitchCommitted
                 end in
    (mkImportingTask (it_meta t) (it_range_map t) (state_to_u16 state) (it_active_redirection t), Ok ()).

(** ** The migration map ([migration/manager.rs]) *)

#[global] Instance MigrationTaskMeta_countable : Countable MigrationTaskMeta.
Proof.
  apply (inj_countable' (λ m, (mtm_cluster_name m, mtm_slot_range m))
    (λ '(a, b), mkMigrationTaskMeta a b)). by intros [].
Defined.

Record NewTask : Type := mkNewTask {
  nt_cluster_name : ClusterName;
  nt_epoch : N;
  nt_range_list : RangeList;
  nt_task : TaskRecord;
}.

Record MigrationMap : Type := mkMigrationMap {
  mp_empty : bool;
  mp_cluster_name : ClusterName;
  mp_task_map : gmap MigrationTaskMeta TaskRecord;
}.

Definition migration_map_empty : MigrationMap := mkMigrationMap true EMPTY_CLUSTER_NAME ∅.

Section migration_map.
Context `{HashOrder}.

Definition send_helper (env : Senders) (task_map : gmap MigrationTaskMeta TaskRecord) (cmd_task : CmdCtx) :
    sending (ClusterSendError BlockingHintTask) :=
  match ctx_slot cmd_task with
  | None => (reply_error "missing key", Err MissingKey)
  | Some slot =>
      match find (λ kt, task_contains_slot kt.2 slot) (hash_iter task_map) with
      | Some (_, inl t) => migrating_send (blocking_state_of env (mm_src_node_address (mt_meta t))) t cmd_task
      | Some (key, inr t) => importing_send (importing_takes env key cmd_task) key t cmd_task
      | None => ([], Err (SlotNotFound (mkBlockingHintTask cmd_task NotBlocking)))
      end
  end.

Definition migration_send (env : Senders) (m : MigrationMap) (cmd_task : CmdCtx) :
    sending (ClusterSendError BlockingHintTask) :=
  if mp_empty m || bool_decide (mp_cluster_name m = EMPTY_CLUSTER_NAME) then
    ([], Err (SlotNotFound (mkBlockingHintTask cmd_task NotBlocking)))
  else send_helper env (mp_task_map m) cmd_task.

(** The first loop of [update_from_old_task_map] keeps the tasks that the new
    metadata still has, the second one creates the others. *)
Definition keep_task (name : ClusterName) (old : gmap MigrationTaskMeta TaskRecord)
    (tasks : gmap MigrationTaskMeta TaskRecord) (sr : SlotRange) : gmap MigrationTaskMeta TaskRecord :=
  match sr_tag sr with
  | Migrating _ | Importing _ =>
      let migration_meta := mkMigrationTaskMeta name sr in
      match old !! migration_meta with
      | Some t => <[migration_meta := t]> tasks
      | None => tasks
      end
  | TagNone => tasks
  end.

Definition add_task (name : ClusterName) (active_redirection : bool)
    (st : gmap MigrationTaskMeta TaskRecord * list NewTask) (sr : SlotRange) :
    gmap MigrationTaskMeta TaskRecord * list NewTask :=
  let '(tasks, new_tasks) := st in
  let migration_meta := mkMigrationTaskMeta name sr in
  let add (epoch : N) (task : TaskRecord) :=
    match tasks !! migration_meta with
    | Some _ => (tasks, new_tasks)
    | None => (<[migration_meta := task]> tasks, new_tasks ++ [mkNewTask name epoch (sr_range_list sr) task])
    end in
  match sr_tag sr with
  | Migrating meta => add (mm_epoch meta) (inl (migrating_task_new active_redirection sr meta))
  | Importing meta => add (mm_epoch meta) (inr (importing_task_new active_redirection meta sr))
  | TagNone => (tasks, new_tasks)
  end.

Definition update_from_old_task_map (old : MigrationMap) (name : ClusterName) (local_cluster_map : NodeMap)
    (active_redirection : bool) : MigrationMap * list NewTask :=
  let slot_ranges := mjoin (hash_values local_cluster_map) in
  let kept := foldl (keep_task name (mp_task_map old)) ∅ slot_ranges in
  let '(tasks, new_tasks) := foldl (add_task name active_redirection) (kept, []) slot_ranges in
  (mkMigrationMap (bool_decide (tasks = ∅)) name tasks, new_tasks).

Definition map_handle_switch (m : MigrationMap) (switch_arg : SwitchArg) (sub_cmd : MgrSubCmd) :
    MigrationMap * outcome SwitchError () :=
  if bool_decide (mp_cluster_name m = mtm_cluster_name (sa_meta switch_arg)) then
    match mp_task_map m !! sa_meta switch_arg with
    | Some (inl _) => (m, Err PeerMigrating)
    | Some (inr importing_task) =>
        match importing_handle_switch importing_task switch_arg sub_cmd with
        | (t, Ok ()) =>
            (mkMigrationMap (mp_empty m) (mp_cluster_name m) (<[sa_meta switch_arg := inr t]> (mp_task_map m)), Ok ())
        | (_, Err MgrNotReady) => (m, Err SwitchNotReady)
        | (_, Err others) => (m, Err (MgrErr others))
        | (_, Panic) => (m, Panic)
        end
    | None => (m, Err TaskNotFound)
    end
  else (m, Err TaskNotFound).

Definition get_finished_tasks (m : MigrationMap) : list MigrationTaskMeta :=
  (filter (λ kt, task_state kt.2 = SwitchCommitted) (hash_iter (mp_task_map m))).*1.

Definition get_states (m : MigrationMap) : gmap RangeList MigrationState :=
  hash_collect ((λ kt, (sr_range_list (mtm_slot_range kt.1), task_state kt.2)) <$> hash_iter (mp_task_map m)).

Fixpoint any_slot_in (t : ImportingTask) (slots : list N) : bool :=
  match slots with
  | [] => false
  | slot :: slots => if contains_slot (it_range_map t) slot then true else any_slot_in t slots
  end.

Definition keys_are_importing `{Crc16} (m : MigrationMap) (keys : list bytes) : may_panic bool :=
  slots ← omapM generate_slot keys;
  Ok (existsb (λ t, match t with inr t => any_slot_in t slots | inl _ => false end)
    (hash_values (mp_task_map m))).
End migration_map.

(** ** The manager ([proxy/manager.rs]) *)

Inductive ClusterMetaError : Type := OldEpoch | MetaTryAgain | NotMyMeta.

#[global] Instance ClusterMetaError_eq_dec : EqDecision ClusterMetaError.
Proof. solve_decision. Defined.

Record ServerProxyConfig : Type := mkServerProxyConfig {
  announce_address : string;
  announce_host : string;
  active_redirection : bool;
  max_redirections : option N;
  default_redirection_address : option string;
}.

Record MetaMap : Type := mkMetaMap { mm_cluster_map : ClusterBackendMap; mm_migration_map : MigrationMap }.

Record MetaManager : Type := mkMetaManager { mgr_epoch : N; mgr_meta_map : MetaMap }.

Definition meta_map_empty `{HashOrder} : MetaMap := mkMetaMap cluster_backend_map_default migration_map_empty.
Definition meta_manager_new `{HashOrder} : MetaManager := mkMetaManager 0 meta_map_empty.

Section manager.
Context `{HashOrder} (config : ServerProxyConfig).

(** The tasks that [set_meta] starts are returned as well. *)
Definition set_meta (st : MetaManager) (cluster_meta : ProxyClusterMeta) :
    MetaManager * list NewTask * outcome ClusterMetaError () :=
  if negb (check_hosts (pcm_local cluster_meta) (announce_host config)) then (st, [], Err NotMyMeta)
  else if (pcm_epoch cluster_meta <=? mgr_epoch st)%N && negb (force (pcm_flags cluster_meta)) then
    (st, [], Err OldEpoch)
  else
    let cluster_map := from_cluster_map cluster_meta (active_redirection config) in
    let '(migration_map, new_tasks) :=
      update_from_old_task_map (mm_migration_map (mgr_meta_map st)) (pcm_cluster_name cluster_meta)
        (pcm_local cluster_meta) (active_redirection config) in
    (mkMetaManager (pcm_epoch cluster_meta) (mkMetaMap cluster_map migration_map), new_tasks, Ok ()).

Definition handle_switch (st : MetaManager) (switch_arg : SwitchArg) (sub_cmd : MgrSubCmd) :
    MetaManager * outcome SwitchError () :=
  let sr := mtm_slot_range (sa_meta switch_arg) in
  let check (arg_epoch : N) (tag : SlotRangeTag) :=
    if (mgr_epoch st <? arg_epoch)%N then (st, Err SwitchNotReady)
    else
      let task_meta := mkMigrationTaskMeta (mtm_cluster_name (sa_meta switch_arg))
        (mkSlotRange (sr_range_list sr) tag) in
      let '(m, res) := map_handle_switch (mm_migration_map (mgr_meta_map st))
        (mkSwitchArg (sa_version switch_arg) task_meta) sub_cmd in
      (mkMetaManager (mgr_epoch st) (mkMetaMap (mm_cluster_map (mgr_meta_map st)) m), res) in
  match sr_tag sr with
  | TagNone => (st, Err InvalidArg)
  | Migrating meta => check (mm_epoch meta) (Importing meta)
  | Importing meta => check (mm_epoch meta) (Importing meta)
  end.

(** [role_num] is what the replicator manager returns. *)
Definition is_ready (role_num : nat * nat) (st : MetaManager) : bool :=
  if (role_num.1 =? 0) && (0 <? role_num.2) then true
  else local_is_ready (cb_local_cluster (mm_cluster_map (mgr_meta_map st))).

Definition ERR_CLUSTER_NOT_FOUND : string := "ERR_CLUSTER_NOT_FOUND".
Definition ERR_TOO_MANY_REDIRECTIONS : string := "ERR_TOO_MANY_REDIRECTIONS".

(** The part of [send_cmd_ctx_to_remote_directly] after the command has been
    wrapped: an error that still holds the command drops it. *)
Definition send_wrapped (env : Senders) (m : MetaMap) (cmd_ctx : CmdCtx) (slot : N) (address : string) :
    list Action :=
  match send_remote_directly env (cb_remote_cluster (mm_cluster_map m)) cmd_ctx slot address with
  | (acts, Err (SendClusterNotFound _ | SlotNotFound _ | ActiveRedirection _ _ _ | Retry _)) => acts ++ [Dropped]
  | (acts, _) => acts
  end.

Context `{Crc16}.

Definition send_cmd_ctx_to_remote_directly (env : Senders) (m : MetaMap) (cmd_ctx : CmdCtx) (slot : N)
    (address : string) : may_panic (list Action) :=
  let times := match ctx_redirection_times cmd_ctx with
               | Some times => Some times
               | None => (λ n, n - 1)%N <$> max_redirections config
               end in
  match times with
  | Some times =>
      match checked_sub times 1 with
      | None => Ok (reply_error ERR_TOO_MANY_REDIRECTIONS)
      | Some times =>
          '(cmd, wrapped) ← wrap_cmd (ctx_cmd cmd_ctx) [bytes_of "UMFORWARD"; bytes_of (to_string times)];
          Ok (if wrapped : bool
              then send_wrapped env m (mkCmdCtx cmd (ctx_redirection_times cmd_ctx)) slot address
              else reply_error "failed to wrap command for redirections")
      end
  | None => Ok (send_wrapped env m cmd_ctx slot address)
  end.

(** The actions, and the command if it has to be tried again. *)
Definition send_cmd_ctx (env : Senders) (m : MetaMap) (cmd_ctx : CmdCtx) :
    may_panic (list Action * option CmdCtx) :=
  let direct acts (task : BlockingHintTask) slot address :=
    acts' ← send_cmd_ctx_to_remote_directly env m (bt_inner task) slot address;
    Ok (acts ++ acts', None) in
  match migration_send env (mm_migration_map m) cmd_ctx with
  | (acts, Ok ()) => Ok (acts, None)
  | (_, Panic) => Panic
  | (acts, Err (ActiveRedirection task slot address)) => direct acts task slot address
  | (acts, Err (Retry task)) => Ok (acts, Some (bt_inner task))
  | (acts, Err (SlotNotFound cmd_task)) =>
      match cluster_send env (mm_cluster_map m) cmd_task with
      | (acts', Err (SendClusterNotFound task)) =>
          let reply := match default_redirection_address config with
                       | Some redirection_address =>
                           match ctx_slot (bt_inner task) with
                           | None => reply_error "missing key"
                           | Some slot => reply_error (gen_moved slot redirection_address)
                           end
                       | None => reply_error ERR_CLUSTER_NOT_FOUND
                       end in
          Ok (acts ++ acts' ++ reply, None)
      | (acts', Err (ActiveRedirection task slot address)) => direct (acts ++ acts') task slot address
      | (acts', Err (Retry task)) => Ok (acts ++ acts', Some (bt_inner task))
      | (acts', Err (SlotNotFound _)) => Ok (acts ++ acts' ++ [Dropped], None)
      | (_, Panic) => Panic
      | (acts', _) => Ok (acts ++ acts', None)
      end
  | (acts, Err (SendClusterNotFound _)) => Ok (acts ++ [Dropped], None)
  | (acts, _) => Ok (acts, None)
  end.

Definition MAX_RETRY_NUM : nat := 3.

(** [attempt i] is what the manager and the senders look like at attempt [i]. *)
Fixpoint retry_send (attempt : nat → Senders * MetaMap) (i n : nat) (cmd_ctx : CmdCtx) :
    may_panic (list Action) :=
  match n with
  | 0 => Ok []
  | S n =>
      '(acts, retry) ← send_cmd_ctx (attempt i).1 (attempt i).2 cmd_ctx;
      match retry with
      | None => Ok acts
      | Some cmd_ctx =>
          match n with
          | 0 => Ok (acts ++ reply_error "cmd exceeds retry limit")
          | _ => acts' ← retry_send attempt (S i) n cmd_ctx; Ok (acts ++ acts')
          end
      end
  end.
Definition loop_send_cmd_ctx (attempt : nat → Senders * MetaMap) (cmd_ctx : CmdCtx) : may_panic (list Action) :=
  retry_send attempt 0 MAX_RETRY_NUM cmd_ctx.
End manager.

(** ** Every command is disposed of once *)

(** An error that gives the command back. *)
Definition holds_task {T} (r : outcome (ClusterSendError T) ()) : bool :=
  match r with
  | Err (SendClusterNotFound _ | SlotNotFound _ | ActiveRedirection _ _ _ | Retry _) => true
  | _ => false
  end.

(** Nothing has been done with a command that is given back; any other command
    has been disposed of exactly once. *)
Definition accounted {T} (r : sending (ClusterSendError T)) : Prop :=
  r.2 ≠ Panic ∧ length r.1 = if holds_task r.2 then 0 else 1.

Create HintDb accounted.

Section accounted.
Context `{HashOrder} (config : ServerProxyConfig).

Lemma sent_to_accounted {T} act address (task : T) v : accounted (sent_to act address task v).
Proof. by destruct v. Qed.
Hint Resolve sent_to_accounted : accounted.

Lemma local_send_accounted env lc t : accounted (local_send env lc t).
Proof. unfold local_send. repeat case_match; eauto with accounted; done. Qed.

Lemma send_remote_accounted rc t : accounted (send_remote rc t).
Proof. unfold send_remote. repeat case_match; done. Qed.

Lemma send_remote_directly_accounted env rc t slot address :
  accounted (send_remote_directly env rc t slot address).
Proof. unfold send_remote_directly. repeat case_match; eauto with accounted; done. Qed.

Lemma cluster_send_accounted env m t : accounted (cluster_send env m t).
Proof.
  unfold cluster_send. pose proof (local_send_accounted env (cb_local_cluster m) t) as Hl.
  destruct (local_send env (cb_local_cluster m) t) as [acts r]. destruct Hl as [Hp Hl]; cbn in Hp, Hl.
  repeat case_match; subst; try done. pose proof (send_remote_accounted (cb_remote_cluster m) task) as Hr.
  destruct (send_remote _ task) as [acts' r]; destruct Hr as [Hp' Hr]; cbn in *. simplify_eq.
  apply length_zero_iff_nil in Hl. by subst.
Qed.

Lemma handle_redirection_accounted t address active : accounted (handle_redirection t address active).
Proof. unfold handle_redirection. by repeat case_match. Qed.
Hint Resolve handle_redirection_accounted : accounted.

Lemma migration_send_accounted env m t : accounted (migration_send env m t).
Proof.
  unfold migration_send, send_helper, migrating_send, importing_send.
  repeat case_match; eauto with accounted; done.
Qed.

Context `{Crc16}.

Lemma wrap_cmd_total c pre : ∃ r, wrap_cmd c pre = Ok r.
Proof.
  unfold wrap_cmd. destruct (array_append_front _ pre) as [request []]; [|eauto].
  destruct (command_info_Ok request) as (info & -> & _). cbn. eauto.
Qed.

Lemma send_wrapped_accounted env m t slot address : length (send_wrapped env m t slot address) = 1.
Proof.
  unfold send_wrapped.
  pose proof (send_remote_directly_accounted env (cb_remote_cluster (mm_cluster_map m)) t slot address) as Hd.
  destruct (send_remote_directly _ _ _ _ _) as [acts r]. destruct Hd as [_ Hd]; cbn in Hd.
  repeat case_match; cbn in Hd; try done; rewrite length_app, Hd; done.
Qed.

Lemma direct_accounted env m t slot address :
  ∃ acts, send_cmd_ctx_to_remote_directly config env m t slot address = Ok acts ∧ length acts = 1.
Proof.
  unfold send_cmd_ctx_to_remote_directly.
  destruct (match ctx_redirection_times t with Some _ => _ | None => _ end) as [times|].
  - destruct (checked_sub times 1) as [times'|]; [|by eexists].
    destruct (wrap_cmd_total (ctx_cmd t) [bytes_of "UMFORWARD"; bytes_of (to_string times')]) as [[c w] ->].
    cbn. eexists. split; [done|]. destruct w; [apply send_wrapped_accounted|done].
  - eexists. split; [done|]. apply send_wrapped_accounted.
Qed.

Lemma send_cmd_ctx_accounted env m t :
  ∃ acts retry, send_cmd_ctx config env m t = Ok (acts, retry) ∧
    length acts = match retry with Some _ => 0 | None => 1 end.
Proof.
  unfold send_cmd_ctx. pose proof (migration_send_accounted env (mm_migration_map m) t) as Hm.
  destruct (migration_send env _ t) as [acts r]. destruct Hm as [Hp Hm]; cbn [fst snd] in *.
  destruct r as [[]|e|]; [by eauto| |done].
  destruct e; cbn in Hm; try (apply length_zero_iff_nil in Hm; subst acts); try by eauto.
  - pose proof (cluster_send_accounted env (mm_cluster_map m) task) as Hc.
    destruct (cluster_send env _ task) as [acts r]. destruct Hc as [Hp' Hc]; cbn [fst snd] in *.
    destruct r as [[]|e|]; [by eauto| |done].
    destruct e; cbn in Hc; try (apply length_zero_iff_nil in Hc; subst acts); try by eauto.
    + eexists _, None. split; [done|]. by repeat case_match.
    + destruct (direct_accounted env m (bt_inner task0) slot address) as (acts & -> & Ha).
      cbn. by eexists _, None.
  - destruct (direct_accounted env m (bt_inner task) slot address) as (acts & -> & Ha).
    cbn. by eexists _, None.
Qed.

Lemma retry_send_accounted attempt n : ∀ i t,
  ∃ acts, retry_send config attempt i (S n) t = Ok acts ∧ length acts = 1.
Proof.
  induction n as [|n IH]; intros i t; cbn -[send_cmd_ctx];
    destruct (send_cmd_ctx_accounted (attempt i).1 (attempt i).2 t) as (acts & [t'|] & -> & Ha); cbn;
    try by eauto.
  - eexists. split; [done|]. rewrite length_app, Ha. done.
  - destruct (IH (S i) t') as (acts' & Heq & Ha'). cbn in Heq. rewrite Heq. cbn.
    eexists. split; [done|]. rewrite length_app, Ha, Ha'. done.
Qed.
End accounted.

(** ** What [set_meta] installs *)

(** The task that a slot range of the metadata asks for. *)
Definition new_task (active_redirection : bool) (sr : SlotRange) : option TaskRecord :=
  match sr_tag sr with
  | Migrating meta => Some (inl (migrating_task_new active_redirection sr meta))
  | Importing meta => Some (inr (importing_task_new active_redirection meta sr))
  | TagNone => None
  end.

(** The tasks of a proxy that has the nodes [m]: the tasks that its slot ranges
    ask for, each in the state it had before. *)
Definition installed_task `{HashOrder} (old : gmap MigrationTaskMeta TaskRecord) (name : ClusterName) (m : NodeMap)
    (active : bool) (k : MigrationTaskMeta) : option TaskRecord :=
  if decide (mtm_cluster_name k = name ∧ mtm_slot_range k ∈ mjoin (hash_values m))
  then t ← new_task active (mtm_slot_range k); Some (default t (old !! k))
  else None.

Lemma elem_of_mjoin_values `{HashOrder} (m : NodeMap) sr :
  sr ∈ mjoin (hash_values m) ↔ ∃ node srs, m !! node = Some srs ∧ sr ∈ srs.
Proof.
  rewrite list_elem_of_join. unfold hash_values. setoid_rewrite list_elem_of_fmap.
  setoid_rewrite hash_iter_perm. split.
  - intros (srs & Hsr & [node srs'] & -> & Hin). apply elem_of_map_to_list in Hin. eauto.
  - intros (node & srs & Hm & Hsr). exists srs. split; [done|]. exists (node, srs).
    split; [done|]. by apply elem_of_map_to_list.
Qed.

Section installed.
Context `{HashOrder} (name : ClusterName).

Definition asks (k : MigrationTaskMeta) (sr : SlotRange) : bool :=
  bool_decide (mtm_cluster_name k = name ∧ mtm_slot_range k = sr).

Lemma keep_task_lookup active old tasks sr k :
  keep_task name old tasks sr !! k =
    if asks k sr then match new_task active sr, old !! k with
                      | Some _, Some t => Some t
                      | _, _ => tasks !! k
                      end
    else tasks !! k.
Proof.
  unfold keep_task, new_task, asks. destruct k as [n x]. cbn. case_bool_decide as Hk.
  - destruct Hk as [-> ->]. destruct (sr_tag sr); try done;
      destruct (old !! _) as [t|] eqn:Ho; rewrite ?Ho; try done; by rewrite lookup_insert_eq.
  - destruct (sr_tag sr); try done; case_match; try done; rewrite lookup_insert_ne; try done; intros [= -> ->]; tauto.
Qed.

Lemma add_task_lookup active tasks new_tasks sr k :
  (add_task name active (tasks, new_tasks) sr).1 !! k =
    match tasks !! k with
    | Some t => Some t
    | None => if asks k sr then new_task active sr else None
    end.
Proof.
  unfold add_task, new_task, asks. destruct k as [n x]. cbn. case_bool_decide as Hk.
  - destruct Hk as [-> ->]. destruct (sr_tag sr); try (by destruct (tasks !! _));
      destruct (tasks !! _) as [t|] eqn:Ho; cbn; rewrite ?Ho; try done; by rewrite lookup_insert_eq.
  - assert (mkMigrationTaskMeta name sr ≠ mkMigrationTaskMeta n x) by (intros [= -> ->]; tauto).
    destruct (sr_tag sr); cbn; try (by destruct (tasks !! mkMigrationTaskMeta n x));
      destruct (tasks !! mkMigrationTaskMeta name sr); cbn; rewrite ?lookup_insert_ne by done;
      by destruct (tasks !! mkMigrationTaskMeta n x).
Qed.

Lemma asks_elem k sr srs :
  bool_decide (mtm_cluster_name k = name ∧ mtm_slot_range k ∈ sr :: srs) =
  asks k sr || bool_decide (mtm_cluster_name k = name ∧ mtm_slot_range k ∈ srs).
Proof.
  unfold asks. rewrite <-bool_decide_or. apply bool_decide_ext. rewrite elem_of_cons. tauto.
Qed.

Lemma keep_tasks_lookup active old k : ∀ srs tasks,
  foldl (keep_task name old) tasks srs !! k =
    if bool_decide (mtm_cluster_name k = name ∧ mtm_slot_range k ∈ srs)
    then match new_task active (mtm_slot_range k), old !! k with
         | Some _, Some t => Some t
         | _, _ => tasks !! k
         end
    else tasks !! k.
Proof.
  induction srs as [|sr srs IH]; intros tasks; cbn [foldl].
  - rewrite bool_decide_eq_false_2; [done|]. set_solver.
  - rewrite IH, asks_elem, (keep_task_lookup active). destruct (asks k sr) eqn:Ha; cbn; [|done].
    apply bool_decide_eq_true in Ha as [_ <-].
    by destruct (bool_decide _), (new_task active _), (old !! k).
Qed.

Lemma add_tasks_lookup active k : ∀ srs tasks new_tasks,
  (foldl (add_task name active) (tasks, new_tasks) srs).1 !! k =
    match tasks !! k with
    | Some t => Some t
    | None => if bool_decide (mtm_cluster_name k = name ∧ mtm_slot_range k ∈ srs)
              then new_task active (mtm_slot_range k) else None
    end.
Proof.
  induction srs as [|sr srs IH]; intros tasks new_tasks; cbn [foldl fst].
  - rewrite bool_decide_eq_false_2; [by destruct (tasks !! k)|]. set_solver.
  - pose proof (add_task_lookup active tasks new_tasks sr k) as Ha.
    destruct (add_task name active (tasks, new_tasks) sr) as [tasks' new']. cbn in Ha.
    rewrite IH, Ha, asks_elem. destruct (tasks !! k); [done|]. destruct (asks k sr) eqn:Hk; cbn; [|done].
    apply bool_decide_eq_true in Hk as [_ <-]. destruct (new_task _ _), (bool_decide _); done.
Qed.

Lemma update_lookup old m active k :
  mp_task_map (update_from_old_task_map old name m active).1 !! k =
  installed_task (mp_task_map old) name m active k.
Proof.
  unfold update_from_old_task_map, installed_task. set (srs := mjoin (hash_values m)).
  pose proof (add_tasks_lookup active k srs (foldl (keep_task name (mp_task_map old)) ∅ srs) []) as Ha.
  destruct (foldl (add_task name active) _ srs) as [tasks new_tasks]. cbn [fst mp_task_map] in *.
  rewrite Ha, (keep_tasks_lookup active), lookup_empty.
  destruct (decide _) as [Hd|Hd]; [rewrite bool_decide_eq_true_2 by done|by rewrite bool_decide_eq_false_2 by done].
  destruct (new_task active (mtm_slot_range k)) as [t|]; cbn; [|done].
  by destruct (mp_task_map old !! k).
Qed.
End installed.

(** ** Messages in any order *)

Section receives.
Context `{HashOrder} (config : ServerProxyConfig).

(** The manager after it has received the messages [ms], in this order. *)
Definition receives (st : MetaManager) (ms : list ProxyClusterMeta) : MetaManager :=
  foldl (λ st m, (set_meta config st m).1.1) st ms.

(** A message that the proxy does not refuse for its hosts and that does not
    skip the check of the epoch. *)
Definition ordinary (m : ProxyClusterMeta) : Prop :=
  check_hosts (pcm_local m) (announce_host config) = true ∧ force (pcm_flags m) = false.

(** The manager has installed [m]. *)
Definition has_meta (m : ProxyClusterMeta) (st : MetaManager) : Prop :=
  mgr_epoch st = pcm_epoch m ∧
  mm_cluster_map (mgr_meta_map st) = from_cluster_map m (active_redirection config) ∧
  mp_cluster_name (mm_migration_map (mgr_meta_map st)) = pcm_cluster_name m ∧
  mp_empty (mm_migration_map (mgr_meta_map st)) = bool_decide (mp_task_map (mm_migration_map (mgr_meta_map st)) = ∅) ∧
  ∀ name sr, is_Some (mp_task_map (mm_migration_map (mgr_meta_map st)) !! mkMigrationTaskMeta name sr) ↔
    name = pcm_cluster_name m ∧ get_migration_meta (sr_tag sr) ≠ None ∧
    ∃ node srs, pcm_local m !! node = Some srs ∧ sr ∈ srs.

Lemma installed_task_Some old m active name sr :
  is_Some (installed_task old (pcm_cluster_name m) (pcm_local m) active (mkMigrationTaskMeta name sr)) ↔
    name = pcm_cluster_name m ∧ get_migration_meta (sr_tag sr) ≠ None ∧
    ∃ node srs, pcm_local m !! node = Some srs ∧ sr ∈ srs.
Proof.
  unfold installed_task. cbn. destruct (decide _) as [Hd|Hd]; rewrite elem_of_mjoin_values in Hd.
  - unfold new_task. destruct (sr_tag sr); cbn; rewrite ?is_Some_alt; naive_solver.
  - rewrite is_Some_alt. naive_solver.
Qed.

Lemma set_meta_installs st m :
  check_hosts (pcm_local m) (announce_host config) = true →
  (mgr_epoch st < pcm_epoch m)%N ∨ force (pcm_flags m) = true →
  ∃ st' new_tasks, set_meta config st m = (st', new_tasks, Ok ()) ∧ has_meta m st'.
Proof.
  intros Hh He. unfold set_meta. rewrite Hh. cbn [negb].
  assert ((pcm_epoch m <=? mgr_epoch st)%N && negb (force (pcm_flags m)) = false) as ->.
  { destruct (force (pcm_flags m)); [by rewrite andb_false_r|]. destruct He as [He|?]; [|done].
    rewrite andb_true_r. by apply N.leb_gt. }
  pose proof (λ k, update_lookup (pcm_cluster_name m) (mm_migration_map (mgr_meta_map st)) (pcm_local m)
    (active_redirection config) k) as Hu.
  destruct (update_from_old_task_map _ _ _ _) as [mp new_tasks] eqn:Hup. eexists _, _. split; [done|].
  unfold update_from_old_task_map in Hup. destruct (foldl _ _ _) in Hup. simplify_eq. cbn in *.
  unfold has_meta. cbn. split_and!; [done..|]. intros name sr. rewrite Hu. apply installed_task_Some.
Qed.

Lemma set_meta_old st m :
  ordinary m → (pcm_epoch m ≤ mgr_epoch st)%N → set_meta config st m = (st, [], Err OldEpoch).
Proof.
  intros [Hh Hf] He. unfold set_meta. rewrite Hh, Hf. cbn. apply N.leb_le in He. by rewrite He.
Qed.

Lemma receives_converge m ms : ∀ st,
  (∀ m', m' ∈ ms → ordinary m' ∧ (pcm_epoch m' ≤ pcm_epoch m)%N ∧ (pcm_epoch m' = pcm_epoch m → m' = m)) →
  has_meta m st ∨ ((mgr_epoch st < pcm_epoch m)%N ∧ m ∈ ms) →
  has_meta m (receives st ms).
Proof.
  induction ms as [|x ms IH]; intros st Hms Hst; cbn.
  - destruct Hst as [?|[_ ?%not_elem_of_nil]]; done.
  - destruct (Hms x) as (Hx & Hle & Heq); [left|]. apply IH; [intros; apply Hms; by right|].
    destruct Hst as [Hst|[Hlt Hin]].
    + left. rewrite set_meta_old; [done..|]. destruct Hst as [-> _]. done.
    + destruct (decide (mgr_epoch st < pcm_epoch x)%N) as [Hnew|Hold].
      * destruct (set_meta_installs st x) as (st' & nt & Hs & Hm); [apply Hx|by left|]. rewrite Hs. cbn.
        destruct (decide (pcm_epoch x = pcm_epoch m)) as [He|Hne]; [left; by rewrite <-Heq|].
        right. destruct Hm as [-> _]. split; [lia|]. apply elem_of_cons in Hin as [->|?]; done.
      * right. rewrite set_meta_old by (done || lia). cbn. split; [done|].
        apply elem_of_cons in Hin as [->|?]; [lia|done].
Qed.
End receives.

(** ** Claims *)

(** C14. Messages with metadata may be delayed, duplicated and reordered: a
    proxy that has received a set of messages in any order has the metadata of
    the one with the greatest epoch, and a migration task for exactly the
    ranges that this metadata marks.  The messages must not be forced and must
    be for the host of the proxy ([ordinary]), the greatest epoch must belong
    to one message only and be newer than what the proxy has. *)
Theorem metadata_converges `{HashOrder} config st ms m :
  (∀ m', m' ∈ ms → ordinary config m' ∧ (pcm_epoch m' ≤ pcm_epoch m)%N ∧
    (pcm_epoch m' = pcm_epoch m → m' = m)) →
  m ∈ ms → (mgr_epoch st < pcm_epoch m)%N →
  let st' := receives config st ms in
  mgr_epoch st' = pcm_epoch m ∧
  mm_cluster_map (mgr_meta_map st') = from_cluster_map m (active_redirection config) ∧
  ∀ name sr, is_Some (mp_task_map (mm_migration_map (mgr_meta_map st')) !! mkMigrationTaskMeta name sr) ↔
    name = pcm_cluster_name m ∧ get_migration_meta (sr_tag sr) ≠ None ∧
    ∃ node srs, pcm_local m !! node = Some srs ∧ sr ∈ srs.
Proof.
  intros Hms Hin Hlt st'.
  destruct (receives_converge config m ms st Hms) as (He & Hc & _ & _ & Ht); [by right|]. done.
Qed.

(** C21. A proxy disposes of each command exactly once, whatever its metadata,
    its tasks and its senders do during the retries: it answers it, hands it
    to one sender or to one importing task, or drops it. *)
Theorem send_disposes_once `{HashOrder} `{Crc16} config attempt cmd_ctx :
  ∃ act, loop_send_cmd_ctx config attempt cmd_ctx = Ok [act].
Proof.
  destruct (retry_send_accounted config attempt 2 0 cmd_ctx) as (acts & Hs & Hl).
  destruct acts as [|act []]; try done. by exists act.
Qed.

(** ** Witnesses *)

(** The context of a command that is given by its words. *)
Definition ctx_of `{Crc16} (l : list bytes) : CmdCtx :=
  match command_new (command_value l) with
  | Ok c => mkCmdCtx c None
  | _ => mkCmdCtx (mkCommand (command_value l) (mkCommandInfo TInvalid DOthers None)) None
  end.

Lemma ctx_of_ok `{Crc16} l : command_ok (ctx_cmd (ctx_of l)) ∧ cmd_request (ctx_cmd (ctx_of l)) = command_value l.
Proof.
  unfold ctx_of. destruct (command_new_ok (command_value l)) as (c & Hc & Hok). rewrite Hc. split; [done|].
  unfold command_new in Hc. destruct (command_info_new _) as [i|[]|]; cbn in Hc; by simplify_eq.
Qed.

Section demo.
#[local] Existing Instance canonical_order.

Definition demo_range (tag : SlotRangeTag) : SlotRange := mkSlotRange [mkRange 0 100] tag.
Definition demo_task_meta : MigrationMeta := mkMigrationMeta 2 "a:7000" "a:6000" "b:7000" "b:6000".
Definition demo_message (epoch : N) (tag : SlotRangeTag) : ProxyClusterMeta :=
  proxy_cluster_meta_new epoch (mkFlags false false) "demo" {[ "a:6000" := [demo_range tag] ]} ∅ default_cluster_config.
Definition demo_server : ServerProxyConfig := mkServerProxyConfig "a:7000" "a" false None None.

(** The newer message comes first, twice. *)
Definition demo_messages : list ProxyClusterMeta :=
  [demo_message 2 (Migrating demo_task_meta); demo_message 1 TagNone; demo_message 2 (Migrating demo_task_meta)].

Lemma metadata_converges_witness :
  let st' := receives demo_server meta_manager_new demo_messages in
  let m := demo_message 2 (Migrating demo_task_meta) in
  mgr_epoch st' = pcm_epoch m ∧
  mm_cluster_map (mgr_meta_map st') = from_cluster_map m (active_redirection demo_server) ∧
  ∀ name sr, is_Some (mp_task_map (mm_migration_map (mgr_meta_map st')) !! mkMigrationTaskMeta name sr) ↔
    name = pcm_cluster_name m ∧ get_migration_meta (sr_tag sr) ≠ None ∧
    ∃ node srs, pcm_local m !! node = Some srs ∧ sr ∈ srs.
Proof.
  apply metadata_converges.
  - intros m'. unfold demo_messages. rewrite !elem_of_cons.
    intros [->|[->|[->|[]%not_elem_of_nil]]]; (split; [split; reflexivity|split; [vm_compute; discriminate|]]);
      first [intros _; reflexivity|vm_compute; discriminate].
  - left.
  - reflexivity.
Defined.
End demo.
