(* ===== verification/Blocking.v ===== *)
(** * The blocking queue

    Models [src/src/common/biatomic.rs] and the concurrent queue of
    [src/src/proxy/blocking.rs] that stops the commands of a node while a
    migration switches.  The atomic operations of the threads are the actions of
    a transition system; any interleaving is an execution.  The results are
    what the migration relies on: after [blocking_done] no command reaches the
    node until the handle is dropped, no command is lost or doubled, and none
    stays in the queue. *)

From S2P Require Import Prelude RangeList Resp Packet ClusterMeta Command MetaMap.

(** ** [BiAtomicU32] *)

Definition u32_modulus : N := 4294967296.

Definition combine_two_num (num1 num2 : N) : N := (N.shiftl num1 32 + num2)%N.
Definition split_to_two_num (num : N) : N * N :=
  let part2_mask := 4294967295%N in
  let part1_mask := N.shiftl part2_mask 32 in
  (N.shiftr (N.land num part1_mask) 32, N.land num part2_mask).

Definition u32_add (a b : N) : N := ((a + b) mod u32_modulus)%N.
Definition u32_sub (a b : N) : N := ((a + u32_modulus - b) mod u32_modulus)%N.

(** One successful round of [compare_and_apply]: the new word, and the old pair. *)
Definition compare_and_apply (f1 f2 : N → N) (word : N) : N * (N * N) :=
  let '(n1, n2) := split_to_two_num word in
  (combine_two_num (f1 n1) (f2 n2), (n1, n2)).

Lemma split_combine n1 n2 :
  (n1 < u32_modulus)%N → (n2 < u32_modulus)%N → split_to_two_num (combine_two_num n1 n2) = (n1, n2).
Proof.
  intros H1 H2. unfold split_to_two_num, combine_two_num.
  change 4294967295%N with (N.ones 32). rewrite N.shiftl_mul_pow2, N.land_ones.
  change (2 ^ 32)%N with u32_modulus.
  f_equal.
  - apply N.bits_inj_iff. intros i. rewrite N.shiftr_spec', N.land_spec, N.shiftl_spec_high' by lia.
    replace (i + 32 - 32)%N with i by lia.
    destruct (N.lt_ge_cases i 32) as [Hi|Hi].
    + rewrite N.ones_spec_low, andb_true_r by done. change u32_modulus with (2 ^ 32)%N.
      rewrite <-N.div_pow2_bits. f_equal. rewrite N.div_add_l by done. rewrite N.div_small; [lia|done].
    + rewrite N.ones_spec_high, andb_false_r by done. symmetry. apply N.bits_above_log2.
      destruct (N.eq_0_gt_0_cases n1) as [->|Hn]; [cbn; lia|].
      apply N.lt_le_trans with 32%N; [|done]. apply N.log2_lt_pow2; [done|]. exact H1.
  - rewrite N.add_comm, N.Div0.mod_add. by apply N.mod_small.
Qed.

(** ** The queue and the threads that use it *)

(** Where a thread is in [TaskBlockingQueue::send]; [c] is its command. *)
Inductive pc : Type :=
| Entered (c : nat) (h : BlockingHint)    (** before [RefAutoCounter::new] *)
| Counted (c : nat) (h : BlockingHint)    (** before it loads the blocking state *)
| Passing (c : nat)                       (** before [CounterTask::new] *)
| Wrapped (c : nat)                       (** before [inner_sender.send] *)
| Leaving                                 (** before it returns and drops its counter *)
| Unlocking (c : nat)                     (** before [drop(counter)] *)
| Pushing (c : nat)                       (** before [queue_sender.send] *)
| Checking                                (** before it loads the blocking state again *)
| Releasing.                              (** in [release_all] *)

(** A [BlockingHandle]: alive, or in [release_all] of its [drop]. *)
Inductive handle : Type := Live | Stopping.

Record Queue : Type := mkQueue {
  q_word : N;                      (** [blocking_state] *)
  q_running : Z;                   (** [running_cmd] *)
  q_queue : list nat;
  q_threads : gmap nat pc;
  q_handles : gmap nat handle;
  q_flight : list nat;             (** commands at the node, with their [CounterTask] *)
  q_drained : gset nat;            (** handles that saw [blocking_done] *)
  q_entered : list nat;            (** history: all commands given to [send] *)
  q_answered : list nat;           (** history: done at the node, or failed *)
  q_returned : list nat;           (** history: given back to be tried again *)
  q_resent : list nat;             (** history: sent anew by [release_all] *)
  q_changes : N;                   (** history: changes of the blocking state *)
}.

Definition set_threads (f : gmap nat pc → gmap nat pc) (q : Queue) : Queue :=
  mkQueue (q_word q) (q_running q) (q_queue q) (f (q_threads q)) (q_handles q) (q_flight q) (q_drained q)
    (q_entered q) (q_answered q) (q_returned q) (q_resent q) (q_changes q).
Definition add_running (n : Z) (q : Queue) : Queue :=
  mkQueue (q_word q) (q_running q + n) (q_queue q) (q_threads q) (q_handles q) (q_flight q) (q_drained q)
    (q_entered q) (q_answered q) (q_returned q) (q_resent q) (q_changes q).
Definition set_queue (l : list nat) (q : Queue) : Queue :=
  mkQueue (q_word q) (q_running q) l (q_threads q) (q_handles q) (q_flight q) (q_drained q)
    (q_entered q) (q_answered q) (q_returned q) (q_resent q) (q_changes q).
Definition set_flight (l : list nat) (q : Queue) : Queue :=
  mkQueue (q_word q) (q_running q) (q_queue q) (q_threads q) (q_handles q) l (q_drained q)
    (q_entered q) (q_answered q) (q_returned q) (q_resent q) (q_changes q).
Definition note_entered (c : nat) (q : Queue) : Queue :=
  mkQueue (q_word q) (q_running q) (q_queue q) (q_threads q) (q_handles q) (q_flight q) (q_drained q)
    (c :: q_entered q) (q_answered q) (q_returned q) (q_resent q) (q_changes q).
Definition note_answered (c : nat) (q : Queue) : Queue :=
  mkQueue (q_word q) (q_running q) (q_queue q) (q_threads q) (q_handles q) (q_flight q) (q_drained q)
    (q_entered q) (c :: q_answered q) (q_returned q) (q_resent q) (q_changes q).
Definition note_returned (c : nat) (q : Queue) : Queue :=
  mkQueue (q_word q) (q_running q) (q_queue q) (q_threads q) (q_handles q) (q_flight q) (q_drained q)
    (q_entered q) (q_answered q) (c :: q_returned q) (q_resent q) (q_changes q).
Definition note_resent (c : nat) (q : Queue) : Queue :=
  mkQueue (q_word q) (q_running q) (q_queue q) (q_threads q) (q_handles q) (q_flight q) (q_drained q)
    (q_entered q) (q_answered q) (q_returned q) (c :: q_resent q) (q_changes q).
Definition set_drained (s : gset nat) (q : Queue) : Queue :=
  mkQueue (q_word q) (q_running q) (q_queue q) (q_threads q) (q_handles q) (q_flight q) s
    (q_entered q) (q_answered q) (q_returned q) (q_resent q) (q_changes q).
Definition set_blocking (word : N) (handles : gmap nat handle) (q : Queue) : Queue :=
  mkQueue word (q_running q) (q_queue q) (q_threads q) handles (q_flight q) (q_drained q)
    (q_entered q) (q_answered q) (q_returned q) (q_resent q) (q_changes q + 1).
Definition set_handles (handles : gmap nat handle) (q : Queue) : Queue :=
  mkQueue (q_word q) (q_running q) (q_queue q) (q_threads q) handles (q_flight q) (q_drained q)
    (q_entered q) (q_answered q) (q_returned q) (q_resent q) (q_changes q).

Definition queue_new : Queue := mkQueue (combine_two_num 0 0) 0 [] ∅ ∅ [] ∅ [] [] [] [] 0.

Definition get_blocking_state (q : Queue) : BlockingState :=
  let '(blocking_count, term) := split_to_two_num (q_word q) in
  mkBlockingState (0 <? blocking_count)%N term.

Definition blocking_done (q : Queue) : bool := (q_running q =? 0)%Z.

(** The decision of [send] when the queue is not blocking: [true] sends the
    command back to be tried again. *)
Definition hint_blocks (term : N) (h : BlockingHint) : bool :=
  match h with
  | NotBlocking => false
  | NotBlockingInMigration cmd_term => negb (term <=? cmd_term)%N
  | Blocking => true
  end.

Definition goto (t : nat) (p : pc) : Queue → Queue := set_threads (<[t := p]>).
Definition exit (t : nat) : Queue → Queue := set_threads (delete t).

(** One round of [release_all]; [None] when the queue is empty. *)
Definition release_one (q : Queue) : option Queue :=
  match q_queue q with
  | [] => None
  | c :: l => Some (note_resent c (set_queue l q))
  end.

(** The next atomic operation of thread [t]; [v] is what the inner sender does
    with the command if it is asked. *)
Definition run_thread (t : nat) (v : Verdict) (p : pc) (q : Queue) : Queue :=
  match p with
  | Entered c h => goto t (Counted c h) (add_running 1 q)
  | Counted c h =>
      let bs := get_blocking_state q in
      if bs_blocking bs then goto t (Unlocking c) q
      else if hint_blocks (bs_term bs) h then goto t Leaving (note_returned c q)
      else goto t (Passing c) q
  | Passing c => goto t (Wrapped c) (add_running 1 q)
  | Wrapped c =>
      match v with
      | Taken => goto t Leaving (set_flight (c :: q_flight q) q)
      | TryAgain => goto t Leaving (note_returned c (add_running (-1) q))
      | Failed _ => goto t Leaving (note_answered c (add_running (-1) q))
      end
  | Leaving => exit t (add_running (-1) q)
  | Unlocking c => goto t (Pushing c) (add_running (-1) q)
  | Pushing c => goto t Checking (set_queue (q_queue q ++ [c]) q)
  | Checking => if bs_blocking (get_blocking_state q) then exit t q else goto t Releasing q
  | Releasing => match release_one q with Some q' => q' | None => exit t q end
  end.

Inductive QAction : Type :=
| Enter (t c : nat) (h : BlockingHint)
| Run (t : nat) (v : Verdict)
| Finish (c : nat)                 (** the node answers, the [CounterTask] is dropped *)
| StartBlocking (h : nat)
| Observe (h : nat)                (** the migration sees [blocking_done] *)
| DropHandle (h : nat)
| RunHandle (h : nat).

Definition remove_once (c : nat) (l : list nat) : option (list nat) :=
  i ← fst <$> list_find (eq c) l; Some (delete i l).

Definition perform (a : QAction) (q : Queue) : option Queue :=
  match a with
  | Enter t c h =>
      match q_threads q !! t with
      | None => Some (goto t (Entered c h) (note_entered c q))
      | Some _ => None
      end
  | Run t v => p ← q_threads q !! t; Some (run_thread t v p q)
  | Finish c =>
      l ← remove_once c (q_flight q);
      Some (note_answered c (add_running (-1) (set_flight l q)))
  | StartBlocking h =>
      match q_handles q !! h with
      | None =>
          let '(word, _) := compare_and_apply (λ n, u32_add n 1) (λ n, u32_add n 1) (q_word q) in
          Some (set_blocking word (<[h := Live]> (q_handles q)) q)
      | Some _ => None
      end
  | Observe h =>
      match q_handles q !! h with
      | Some Live => if blocking_done q then Some (set_drained ({[h]} ∪ q_drained q) q) else None
      | _ => None
      end
  | DropHandle h =>
      match q_handles q !! h with
      | Some Live =>
          let '(word, (prev_blocking_count, _)) :=
            compare_and_apply (λ n, u32_sub n 1) (λ n, u32_add n 1) (q_word q) in
          let handles :=
            if (prev_blocking_count =? 1)%N then <[h := Stopping]> (q_handles q)
            else delete h (q_handles q) in
          Some (set_drained (q_drained q ∖ {[h]}) (set_blocking word handles q))
      | _ => None
      end
  | RunHandle h =>
      match q_handles q !! h with
      | Some Stopping =>
          match release_one q with
          | Some q' => Some q'
          | None => Some (set_handles (delete h (q_handles q)) q)
          end
      | _ => None
      end
  end.

(** The executions, as long as the blocking state has changed less than
    [2^32] times. *)
Inductive running : Queue → Prop :=
| running_new : running queue_new
| running_step q a q' :
    running q → perform a q = Some q' → (q_changes q' < u32_modulus)%N → running q'.

(** ** Occurrences *)

Definition same (c x : nat) : nat := if decide (x = c) then 1 else 0.
Definition occ (c : nat) (l : list nat) : nat := sum_list_with (same c) l.
Arguments same : simpl never.
Arguments occ : simpl never.

Lemma occ_cons c x l : occ c (x :: l) = same c x + occ c l.
Proof. done. Qed.

Lemma occ_app c l k : occ c (l ++ k) = occ c l + occ c k.
Proof. apply sum_list_with_app. Qed.

#[global] Instance occ_perm c : Proper ((≡ₚ) ==> (=)) (occ c).
Proof. apply sum_list_with_perm. Qed.

Lemma occ_remove c l l' : remove_once c l = Some l' → l ≡ₚ c :: l'.
Proof.
  unfold remove_once. destruct (list_find (eq c) l) as [[i x]|] eqn:Hf; cbn; [|done]. intros [= <-].
  apply list_find_Some in Hf as (Hi & <- & _). by apply delete_Permutation.
Qed.

(** ** The invariant *)

(** How often a thread has counted itself or its command. *)
Definition weight (p : pc) : nat :=
  match p with
  | Counted _ _ | Passing _ | Leaving | Unlocking _ => 1
  | Wrapped _ => 2
  | Entered _ _ | Pushing _ | Checking | Releasing => 0
  end.

(** How often a thread holds command [c]. *)
Definition holds (c : nat) (p : pc) : nat :=
  match p with
  | Entered x _ | Counted x _ | Passing x | Wrapped x | Unlocking x | Pushing x => same c x
  | Leaving | Checking | Releasing => 0
  end.

(** The thread has decided to send its command to the node. *)
Definition passing (p : pc) : nat := match p with Passing _ | Wrapped _ => 1 | _ => 0 end.

(** The thread will look at the queue. *)
Definition looking (p : pc) : nat := match p with Checking | Releasing => 1 | _ => 0 end.

Definition live (h : handle) : nat := match h with Live => 1 | Stopping => 0 end.
Definition stopping (h : handle) : nat := match h with Stopping => 1 | Live => 0 end.

Definition handles_live (q : Queue) : nat := map_sum live (q_handles q).

(** The word holds the number of live handles and the number of changes. *)
Definition word_ok (q : Queue) : Prop :=
  q_word q = combine_two_num (N.of_nat (handles_live q)) (q_changes q) ∧
  (N.of_nat (handles_live q) ≤ q_changes q)%N.

(** The counter counts the threads in the critical section and the commands at
    the node. *)
Definition running_ok (q : Queue) : Prop :=
  q_running q = Z.of_nat (map_sum weight (q_threads q) + length (q_flight q)).

(** A handle that saw [blocking_done] keeps the node idle. *)
Definition drained_ok (q : Queue) : Prop :=
  (∀ h, h ∈ q_drained q → q_handles q !! h = Some Live) ∧
  (q_drained q ≠ ∅ → q_flight q = [] ∧ map_sum passing (q_threads q) = 0).

(** Somebody will look at a queue that is not empty. *)
Definition queue_ok (q : Queue) : Prop :=
  q_queue q ≠ [] →
  0 < handles_live q + map_sum looking (q_threads q) + map_sum stopping (q_handles q).

Definition conserved (q : Queue) : Prop :=
  ∀ c, occ c (q_entered q) =
    map_sum (holds c) (q_threads q) + occ c (q_queue q) + occ c (q_flight q) +
    occ c (q_answered q) + occ c (q_returned q) + occ c (q_resent q).

Lemma get_blocking_state_ok q :
  word_ok q → (q_changes q < u32_modulus)%N →
  get_blocking_state q = mkBlockingState (0 <? N.of_nat (handles_live q))%N (q_changes q).
Proof.
  intros [Hw Hle] Hc. unfold get_blocking_state. rewrite Hw, split_combine by lia. done.
Qed.

(** *** Each part is kept *)

Lemma release_one_frame q q' :
  release_one q = Some q' →
  q_word q' = q_word q ∧ q_handles q' = q_handles q ∧ q_changes q' = q_changes q ∧ q_drained q' = q_drained q ∧
  q_threads q' = q_threads q ∧ q_running q' = q_running q ∧ q_flight q' = q_flight q.
Proof. unfold release_one. destruct (q_queue q); [done|]. by intros [= <-]. Qed.

Lemma run_thread_frame t v p q :
  let q' := run_thread t v p q in
  q_word q' = q_word q ∧ q_handles q' = q_handles q ∧ q_changes q' = q_changes q ∧ q_drained q' = q_drained q.
Proof.
  destruct p; cbn; try by repeat case_match.
  destruct (release_one q) as [q'|] eqn:Hr; [|done]. by apply release_one_frame in Hr as (? & ? & ? & ? & _).
Qed.

(** Splits an action that is performed into its cases. *)
Ltac perform_cases H :=
  unfold perform in H;
  match type of H with
  | match ?a with _ => _ end = _ =>
      destruct a as [t c h|t v|c|h|h|h|h];
      [ destruct (q_threads _ !! t) eqn:Ht; [discriminate H|]; injection H as <-
      | destruct (q_threads _ !! t) as [p|] eqn:Ht; [|discriminate H]; injection H as <-
      | destruct (remove_once c _) as [l|] eqn:Hl; [|discriminate H]; injection H as <-
      | destruct (q_handles _ !! h) eqn:Hh; [discriminate H|];
        destruct (compare_and_apply _ _ _) as [word old] eqn:Hcas; injection H as <-
      | destruct (q_handles _ !! h) as [[|]|] eqn:Hh; try discriminate H;
        destruct (blocking_done _) eqn:Hdone; [|discriminate H]; injection H as <-
      | destruct (q_handles _ !! h) as [[|]|] eqn:Hh; try discriminate H;
        destruct (compare_and_apply _ _ _) as [word [prev term]] eqn:Hcas; injection H as <-
      | destruct (q_handles _ !! h) as [[|]|] eqn:Hh; try discriminate H;
        destruct (release_one _) as [q1|] eqn:Hr; injection H as <- ]
  end.

Lemma perform_word q a q' :
  word_ok q → (q_changes q' < u32_modulus)%N → perform a q = Some q' → word_ok q'.
Proof.
  intros Hw Hc H. pose proof Hw as [Hword Hle]. unfold word_ok, handles_live in *. perform_cases H; try exact Hw.
  - destruct (run_thread_frame t v p q) as (-> & -> & -> & _). exact Hw.
  - unfold compare_and_apply in Hcas. cbn in Hc. rewrite Hword, split_combine in Hcas by lia. injection Hcas as <- _.
    cbn. rewrite map_sum_insert by done. cbn [live]. unfold u32_add. rewrite !N.mod_small by lia.
    split; [f_equal; lia|lia].
  - unfold compare_and_apply in Hcas. cbn in Hc. rewrite Hword, split_combine in Hcas by lia.
    injection Hcas as <- <- _. cbn.
    pose proof (map_sum_delete live _ _ _ Hh) as Hd. cbn [live] in Hd.
    assert (map_sum live (if (N.of_nat (map_sum live (q_handles q)) =? 1)%N then <[h:=Stopping]> (q_handles q)
      else delete h (q_handles q)) = map_sum live (q_handles q) - 1) as ->.
    { destruct (_ =? _)%N; [|lia]. pose proof (map_sum_update live _ _ _ Stopping Hh) as Hu. cbn [live] in Hu. lia. }
    unfold u32_add, u32_sub. rewrite (N.mod_small (q_changes q + 1)) by lia.
    replace (N.of_nat (map_sum live (q_handles q)) + u32_modulus - 1)%N
      with (N.of_nat (map_sum live (q_handles q) - 1) + 1 * u32_modulus)%N by lia.
    rewrite N.Div0.mod_add, N.mod_small by lia. split; [done|lia].
  - by apply release_one_frame in Hr as (-> & -> & -> & _).
  - cbn. pose proof (map_sum_delete live _ _ _ Hh) as Hd. cbn [live] in Hd. rewrite Hd in *. exact Hw.
Qed.

Lemma perform_running q a q' : running_ok q → perform a q = Some q' → running_ok q'.
Proof.
  unfold running_ok. intros Hr0 H. perform_cases H; try exact Hr0.
  - cbn. rewrite map_sum_insert by done. exact Hr0.
  - pose proof (λ y, map_sum_update weight _ _ _ y Ht) as Hu. pose proof (map_sum_delete weight _ _ _ Ht) as Hd.
    destruct p; cbn [run_thread weight] in *.
    + specialize (Hu (Counted c h)). cbn in *. lia.
    + repeat case_match; [specialize (Hu (Unlocking c))|specialize (Hu Leaving)|specialize (Hu (Passing c))]; cbn in *; lia.
    + specialize (Hu (Wrapped c)). cbn in *. lia.
    + specialize (Hu Leaving). destruct v; cbn in *; lia.
    + cbn. lia.
    + specialize (Hu (Pushing c)). cbn in *. lia.
    + specialize (Hu Checking). cbn in *. lia.
    + case_match; [|specialize (Hu Releasing)]; cbn in *; lia.
    + destruct (release_one q) eqn:Hrel; [by apply release_one_frame in Hrel as (_ & _ & _ & _ & -> & -> & ->)|]. cbn. lia.
  - apply occ_remove, Permutation_length in Hl. cbn in *. lia.
  - by apply release_one_frame in Hr as (_ & _ & _ & _ & -> & -> & ->).
Qed.

Lemma drained_live q : drained_ok q → q_drained q ≠ ∅ → 0 < handles_live q.
Proof.
  intros [Hd _] [h Hh]%set_choose_L. apply Hd in Hh. apply (map_sum_le live) in Hh. cbn in Hh.
  unfold handles_live. lia.
Qed.

(** While a drained handle is alive, no thread decides to send. *)
Lemma run_thread_drained t v p q :
  word_ok q → (q_changes q < u32_modulus)%N → drained_ok q → q_threads q !! t = Some p → q_drained q ≠ ∅ →
  q_flight (run_thread t v p q) = [] ∧ map_sum passing (q_threads (run_thread t v p q)) = 0.
Proof.
  intros Hw Hc Hd Ht Hne. pose proof (drained_live q Hd Hne) as Hlive. destruct Hd as [_ Hd].
  destruct (Hd Hne) as [Hf Hp]. pose proof (λ y, map_sum_update passing _ _ _ y Ht) as Hu.
  pose proof (map_sum_delete passing _ _ _ Ht) as Hdel. rewrite Hp in *.
  pose proof (get_blocking_state_ok q Hw Hc) as Hb.
  destruct p; cbn [run_thread passing] in *; try lia.
  - specialize (Hu (Counted c h)). cbn in *. split; [done|lia].
  - rewrite Hb. cbn [bs_blocking]. rewrite (proj2 (N.ltb_lt 0 (N.of_nat (handles_live q)))) by lia.
    specialize (Hu (Unlocking c)). cbn in *. split; [done|lia].
  - split; [done|]. cbn. lia.
  - specialize (Hu (Pushing c)). cbn in *. split; [done|lia].
  - specialize (Hu Checking). cbn in *. split; [done|lia].
  - case_match; [|specialize (Hu Releasing)]; cbn in *; (split; [done|lia]).
  - destruct (release_one q) eqn:Hrel; [|split; [done|cbn; lia]].
    apply release_one_frame in Hrel as (_ & _ & _ & _ & -> & _ & ->). done.
Qed.

(** A counter of zero leaves neither commands at the node nor threads that are
    about to send one. *)
Lemma done_idle q : running_ok q → blocking_done q = true → q_flight q = [] ∧ map_sum passing (q_threads q) = 0.
Proof.
  unfold running_ok, blocking_done. intros Hr H%Z.eqb_eq. split; [by destruct (q_flight q); [|cbn in *; lia]|].
  destruct (decide (0 < map_sum passing (q_threads q))) as [Hp|]; [|lia].
  apply map_sum_pos in Hp as (t & p & Ht & Hp). apply (map_sum_le weight) in Ht. destruct p; cbn in *; lia.
Qed.

Lemma perform_drained q a q' :
  word_ok q → (q_changes q < u32_modulus)%N → running_ok q → drained_ok q → perform a q = Some q' → drained_ok q'.
Proof.
  intros Hw Hc Hrun Hd H. pose proof Hd as [Hd1 Hd2]. unfold drained_ok. perform_cases H; try exact Hd.
  - split; [exact Hd1|]. cbn. intros Hne. rewrite map_sum_insert by done. by apply Hd2.
  - pose proof (run_thread_frame t v p q) as (_ & Eh & _ & Ed). rewrite Ed, Eh. split; [exact Hd1|].
    intros Hne. by apply run_thread_drained.
  - split; [exact Hd1|]. cbn. intros Hne. destruct (Hd2 Hne) as [Hf ?]. rewrite Hf in Hl. done.
  - split; [|exact Hd2]. cbn. intros h' Hh'. rewrite lookup_insert_ne; [by apply Hd1|].
    intros ->. apply Hd1 in Hh'. congruence.
  - split; [cbn; intros h' [->%elem_of_singleton|]%elem_of_union; [done|by apply Hd1]|]. intros _. by apply done_idle.
  - split; cbn.
    + intros h' [Hh' Hne%not_elem_of_singleton]%elem_of_difference. apply Hd1 in Hh'.
      case_match; [by rewrite lookup_insert_ne|by rewrite lookup_delete_ne].
    + intros Hne. apply Hd2. set_solver.
  - apply release_one_frame in Hr as (_ & -> & _ & -> & -> & _ & ->). exact Hd.
  - split; [|exact Hd2]. cbn. intros h' Hh'. rewrite lookup_delete_ne; [by apply Hd1|].
    intros ->. apply Hd1 in Hh'. congruence.
Qed.

(** *** The queue *)

Ltac queue_lia Hq := let Hne := fresh in intros Hne; try specialize (Hq Hne); lia.

Lemma perform_queue q a q' :
  word_ok q → (q_changes q < u32_modulus)%N → queue_ok q → perform a q = Some q' → queue_ok q'.
Proof.
  intros Hw Hc Hq H. unfold queue_ok in *. pose proof (get_blocking_state_ok q Hw Hc) as Hb.
  unfold handles_live in *. perform_cases H; try exact Hq.
  - cbn. rewrite map_sum_insert by done. exact Hq.
  - pose proof (λ y, map_sum_update looking _ _ _ y Ht) as Hu. pose proof (map_sum_delete looking _ _ _ Ht) as Hd.
    destruct p; cbn [run_thread looking] in *.
    + specialize (Hu (Counted c h)). cbn in *. queue_lia Hq.
    + repeat case_match; [specialize (Hu (Unlocking c))|specialize (Hu Leaving)|specialize (Hu (Passing c))]; cbn in *; queue_lia Hq.
    + specialize (Hu (Wrapped c)). cbn in *. queue_lia Hq.
    + specialize (Hu Leaving). destruct v; cbn in *; queue_lia Hq.
    + cbn. queue_lia Hq.
    + specialize (Hu (Pushing c)). cbn in *. queue_lia Hq.
    + specialize (Hu Checking). cbn in *. queue_lia Hq.
    + rewrite Hb. cbn [bs_blocking]. destruct (N.ltb_spec 0 (N.of_nat (map_sum live (q_handles q)))); cbn; [queue_lia Hq|].
      specialize (Hu Releasing). cbn in *. queue_lia Hq.
    + unfold release_one. destruct (q_queue q) as [|c l] eqn:Hqu; cbn; [by rewrite Hqu|]. intros _. lia.
  - cbn. rewrite map_sum_insert by done. rewrite (map_sum_insert stopping) by done. cbn. queue_lia Hq.
  - destruct Hw as [Hword Hle]. unfold compare_and_apply in Hcas. unfold handles_live in *.
    rewrite Hword, split_combine in Hcas by lia. injection Hcas as _ <- _. cbn. intros _.
    pose proof (map_sum_delete live _ _ _ Hh) as Hd. cbn [live] in Hd.
    destruct (N.eqb_spec (N.of_nat (map_sum live (q_handles q))) 1) as [H1|H1]; [|lia].
    pose proof (map_sum_update stopping _ _ _ Stopping Hh) as Hs. cbn in Hs. lia.
  - unfold release_one in Hr. destruct (q_queue q) eqn:Hqu; [done|]. injection Hr as <-. cbn.
    intros _. by apply Hq.
  - unfold release_one in Hr. destruct (q_queue q) eqn:Hqu; [|done]. cbn. by rewrite Hqu.
Qed.

Lemma perform_conserved q a q' : conserved q → perform a q = Some q' → conserved q'.
Proof.
  intros Hc H. perform_cases H; try exact Hc; try (intros x; specialize (Hc x)).
  - cbn in *. rewrite map_sum_insert by done. rewrite occ_cons. cbn. lia.
  - pose proof (λ y, map_sum_update (holds x) _ _ _ y Ht) as Hu. pose proof (map_sum_delete (holds x) _ _ _ Ht) as Hd.
    destruct p; cbn [run_thread holds] in *.
    + specialize (Hu (Counted c h)). cbn in *. rewrite ?occ_cons in *. lia.
    + repeat case_match; [specialize (Hu (Unlocking c))|specialize (Hu Leaving)|specialize (Hu (Passing c))]; cbn in *; rewrite ?occ_cons in *; lia.
    + specialize (Hu (Wrapped c)). cbn in *. rewrite ?occ_cons in *. lia.
    + specialize (Hu Leaving). destruct v; cbn in *; rewrite ?occ_cons in *; lia.
    + cbn. lia.
    + specialize (Hu (Pushing c)). cbn in *. rewrite ?occ_cons in *. lia.
    + specialize (Hu Checking). cbn in *. rewrite occ_app, occ_cons. change (occ x []) with 0. lia.
    + case_match; [|specialize (Hu Releasing)]; cbn in *; rewrite ?occ_cons in *; lia.
    + unfold release_one. destruct (q_queue q) as [|y l] eqn:Hq; cbn in *; rewrite ?occ_cons, ?Hq in *; lia.
  - apply occ_remove in Hl. rewrite Hl in Hc. cbn in *. rewrite ?occ_cons in *. lia.
  - unfold release_one in Hr. destruct (q_queue q) as [|y l] eqn:Hq; [done|]. injection Hr as <-. cbn in *. rewrite ?occ_cons in *. lia.
Qed.

Record queue_inv (q : Queue) : Prop := {
  qi_changes : (q_changes q < u32_modulus)%N;
  qi_word : word_ok q;
  qi_running : running_ok q;
  qi_drained : drained_ok q;
  qi_queue : queue_ok q;
  qi_conserved : conserved q;
}.

Lemma perform_changes q a q' : perform a q = Some q' → (q_changes q ≤ q_changes q')%N.
Proof.
  intros H. perform_cases H; try done; cbn; try lia.
  - by destruct (run_thread_frame t v p q) as (_ & _ & -> & _).
  - by apply release_one_frame in Hr as (_ & _ & -> & _).
Qed.

Lemma running_inv q : running q → queue_inv q.
Proof.
  induction 1 as [|q a q' _ [Hc Hw Hr Hd Hq Hk] H Hc'].
  - split; try done; vm_compute; try done.
  - split; [done|by eapply perform_word|by eapply perform_running|by eapply perform_drained|
      by eapply perform_queue|by eapply perform_conserved].
Qed.

(** ** Executions *)

Definition performs (acts : list QAction) (q : Queue) : option Queue :=
  foldl (λ o a, o ≫= perform a) (Some q) acts.

Lemma performs_none acts : foldl (λ o a, o ≫= perform a) None acts = None.
Proof. by induction acts. Qed.

Lemma performs_cons a acts q : performs (a :: acts) q = perform a q ≫= performs acts.
Proof. unfold performs. cbn. destruct (perform a q); [done|]. apply performs_none. Qed.

Lemma performs_changes acts : ∀ q q', performs acts q = Some q' → (q_changes q ≤ q_changes q')%N.
Proof.
  induction acts as [|a acts IH]; intros q q'; [by intros [= ->]|]. rewrite performs_cons.
  destruct (perform a q) as [q1|] eqn:Ha; [|done]. cbn. intros Hq%IH. apply perform_changes in Ha. lia.
Qed.

Lemma performs_running acts : ∀ q q',
  running q → performs acts q = Some q' → (q_changes q' < u32_modulus)%N → running q'.
Proof.
  induction acts as [|a acts IH]; intros q q' Hq; [by intros [= ->]|]. rewrite performs_cons.
  destruct (perform a q) as [q1|] eqn:Ha; [|done]. cbn. intros Hp Hc. pose proof (performs_changes _ _ _ Hp).
  eapply IH; [|done..]. eapply running_step; [done..|lia].
Qed.

Lemma perform_keeps_drained k a q q' :
  k ∈ q_drained q → a ≠ DropHandle k → perform a q = Some q' → k ∈ q_drained q'.
Proof.
  intros Hk Hne H. perform_cases H; try exact Hk.
  - by destruct (run_thread_frame t v p q) as (_ & _ & _ & ->).
  - cbn. set_solver.
  - cbn. apply elem_of_difference. split; [done|]. rewrite elem_of_singleton. congruence.
  - by apply release_one_frame in Hr as (_ & _ & _ & -> & _).
Qed.

Lemma performs_keep_drained h acts : ∀ q q',
  h ∈ q_drained q → DropHandle h ∉ acts → performs acts q = Some q' → h ∈ q_drained q'.
Proof.
  induction acts as [|a acts IH]; intros q q' Hh Hno; [by intros [= ->]|]. rewrite performs_cons.
  apply not_elem_of_cons in Hno as [Hne Hno].
  destruct (perform a q) as [q1|] eqn:Ha; [|done]. cbn. apply IH; [|done].
  eapply perform_keeps_drained; [done| |done]. congruence.
Qed.

(** ** Claims *)

(** C16. Blocking excludes: from the moment a migration has seen
    [blocking_done] until it drops its handle, whatever the other threads do,
    no command is at the node and no thread is about to send one. *)
Theorem blocking_excludes q q1 h acts q2 :
  running q → perform (Observe h) q = Some q1 → performs acts q1 = Some q2 → DropHandle h ∉ acts →
  (q_changes q2 < u32_modulus)%N →
  q_flight q2 = [] ∧ ∀ t c, q_threads q2 !! t ≠ Some (Passing c) ∧ q_threads q2 !! t ≠ Some (Wrapped c).
Proof.
  intros Hq Ho Hp Hno Hc.
  assert (performs (Observe h :: acts) q = Some q2) as Hall by (rewrite performs_cons, Ho; exact Hp).
  pose proof (qi_drained _ (running_inv _ (performs_running _ _ _ Hq Hall Hc))) as [_ Hd].
  assert (h ∈ q_drained q2) as Hh.
  { eapply performs_keep_drained; [|done..]. unfold perform in Ho.
    destruct (q_handles q !! h) as [[|]|]; try done. destruct (blocking_done q); [|done].
    injection Ho as <-. cbn. set_solver. }
  destruct Hd as [Hf Hs]; [set_solver|]. split; [done|].
  intros t c. split; intros Ht%(map_sum_le passing); cbn in Ht; lia.
Qed.

(** C20. Commands are neither lost nor doubled nor stranded: when no thread is
    inside the queue and no migration holds a handle, the blocking queue is
    empty, and each command that was given to it is at the node, or was
    answered, given back or sent anew, as often as it was given. *)
Theorem queue_conserves q :
  running q → q_threads q = ∅ → q_handles q = ∅ →
  q_queue q = [] ∧
  ∀ c, occ c (q_entered q) =
    occ c (q_flight q) + occ c (q_answered q) + occ c (q_returned q) + occ c (q_resent q).
Proof.
  intros Hq%running_inv Ht Hh. destruct Hq as [_ _ _ _ Hqu Hk]. unfold queue_ok, conserved, handles_live in *.
  rewrite Ht, Hh in *. assert (q_queue q = []) as He.
  { destruct (q_queue q); [done|]. destruct (Nat.lt_irrefl 0). by apply Hqu. }
  split; [done|]. intros c. rewrite (Hk c), He. done.
Qed.

(** ** Witnesses *)

(** Command 7 is at the node when the migration starts to block, command 8
    comes while it blocks. *)
Definition demo_before : list QAction :=
  [Enter 1 7 NotBlocking; Run 1 Taken; Run 1 Taken; Run 1 Taken; Run 1 Taken; Run 1 Taken;
   StartBlocking 0; Enter 2 8 Blocking; Run 2 Taken; Run 2 Taken; Run 2 Taken; Finish 7].
Definition demo_during : list QAction := [Run 2 Taken; Run 2 Taken; Enter 3 9 NotBlocking; Run 3 Taken].
Definition demo_after : list QAction :=
  [Run 3 Taken; Run 3 Taken; Run 3 Taken; DropHandle 0; Run 3 Taken; Run 3 Taken; RunHandle 0; Run 3 Taken; RunHandle 0].

Definition demo_queue (acts : list QAction) : Queue := default queue_new (performs acts queue_new).

Lemma demo_running acts q :
  performs acts queue_new = Some q → (q_changes q < u32_modulus)%N → running q.
Proof. intros. eapply performs_running; [apply running_new|done..]. Qed.

Lemma blocking_excludes_witness :
  q_flight (demo_queue (demo_before ++ [Observe 0] ++ demo_during)) = [] ∧
  ∀ t c, q_threads (demo_queue (demo_before ++ [Observe 0] ++ demo_during)) !! t ≠ Some (Passing c) ∧
    q_threads (demo_queue (demo_before ++ [Observe 0] ++ demo_during)) !! t ≠ Some (Wrapped c).
Proof.
  apply (blocking_excludes (demo_queue demo_before) (demo_queue (demo_before ++ [Observe 0])) 0 demo_during).
  - apply (demo_running demo_before); vm_compute; reflexivity.
  - vm_compute. reflexivity.
  - vm_compute. reflexivity.
  - unfold demo_during. rewrite !not_elem_of_cons. repeat split; try discriminate. apply not_elem_of_nil.
  - vm_compute. reflexivity.
Defined.

Lemma queue_conserves_witness :
  let q := demo_queue (demo_before ++ [Observe 0] ++ demo_during ++ demo_after) in
  q_queue q = [] ∧
  ∀ c, occ c (q_entered q) =
    occ c (q_flight q) + occ c (q_answered q) + occ c (q_returned q) + occ c (q_resent q).
Proof.
  apply queue_conserves.
  - apply (demo_running (demo_before ++ [Observe 0] ++ demo_during ++ demo_after)); vm_compute; reflexivity.
  - vm_compute. reflexivity.
  - vm_compute. reflexivity.
Defined.
