(* ===== verification/Store.v ===== *)
(** * The broker's metadata store

    The data of [src/src/broker/store.rs], the operations of [ClusterStore]
    and the epoch operations of [MetaStore], and the slot invariant of a
    cluster.

    An operation of the store runs in the monad [SM]: it takes the store and
    returns the store as it is when the operation ends, together with its
    result, because an operation that fails has often already bumped the
    global epoch. *)

From S2P Require Import Prelude RangeList RustStr ClusterMeta.

(** ** Data *)

Definition NODES_PER_PROXY : nat := 2.
Definition CHUNK_PARTS : nat := 2.
Definition CHUNK_HALF_NODE_NUM : nat := 2.
Definition CHUNK_NODE_NUM : nat := 4.
Definition UNDERMOON_MEM_BROKER_META_VERSION : string := "mem-broker-0.2".

Record ProxyResource : Type := mkProxyResource {
  pr_proxy_address : string;
  pr_node_addresses : arr2 string;
  pr_host : string;
  pr_index : N;
  pr_cluster : option ClusterName;
}.

Record HostProxy : Type := mkHostProxy {
  hp_host : string;
  hp_proxy_address : string;
}.

Inductive ChunkRolePosition : Type := Normal | FirstChunkMaster | SecondChunkMaster.

#[global] Instance ChunkRolePosition_eq_dec : EqDecision ChunkRolePosition.
Proof. solve_decision. Defined.

(** Chunk indices and parts are positions in vectors and are [nat]. *)
Record MigrationMetaStore : Type := mkMigrationMetaStore {
  ms_epoch : N;
  ms_src_chunk_index : nat;
  ms_src_chunk_part : nat;
  ms_dst_chunk_index : nat;
  ms_dst_chunk_part : nat;
}.

#[global] Instance MigrationMetaStore_eq_dec : EqDecision MigrationMetaStore.
Proof. solve_decision. Defined.

Record MigrationSlotRangeStore : Type := mkMigrationSlotRangeStore {
  mr_range_list : RangeList;
  mr_is_migrating : bool;
  mr_meta : MigrationMetaStore;
}.

#[global] Instance MigrationSlotRangeStore_eq_dec : EqDecision MigrationSlotRangeStore.
Proof. solve_decision. Defined.

Record ChunkStore : Type := mkChunkStore {
  ch_role_position : ChunkRolePosition;
  ch_stable_slots : arr2 (option SlotRange);
  ch_migrating_slots : arr2 (list MigrationSlotRangeStore);
  ch_proxy_addresses : arr2 string;
  ch_hosts : arr2 string;
  ch_node_addresses : arr4 string;
}.

Definition set_role_position (c : ChunkStore) (r : ChunkRolePosition) : ChunkStore :=
  mkChunkStore r (ch_stable_slots c) (ch_migrating_slots c) (ch_proxy_addresses c)
    (ch_hosts c) (ch_node_addresses c).
Definition set_stable_slots (c : ChunkStore) (s : arr2 (option SlotRange)) : ChunkStore :=
  mkChunkStore (ch_role_position c) s (ch_migrating_slots c) (ch_proxy_addresses c)
    (ch_hosts c) (ch_node_addresses c).
Definition set_migrating_slots (c : ChunkStore) (m : arr2 (list MigrationSlotRangeStore))
  : ChunkStore :=
  mkChunkStore (ch_role_position c) (ch_stable_slots c) m (ch_proxy_addresses c)
    (ch_hosts c) (ch_node_addresses c).

Record ClusterInfo : Type := mkClusterInfo {
  ci_name : ClusterName;
  ci_node_number : nat;
  ci_node_number_with_slots : nat;
  ci_is_migrating : bool;
}.

Record ClusterStore : Type := mkClusterStore {
  cs_epoch : N;
  cs_name : ClusterName;
  cs_chunks : list ChunkStore;
  cs_config : ClusterConfig;
}.

Definition set_epoch (c : ClusterStore) (e : N) : ClusterStore :=
  mkClusterStore e (cs_name c) (cs_chunks c) (cs_config c).
Definition set_chunks (c : ClusterStore) (l : list ChunkStore) : ClusterStore :=
  mkClusterStore (cs_epoch c) (cs_name c) l (cs_config c).
Definition set_config (c : ClusterStore) (g : ClusterConfig) : ClusterStore :=
  mkClusterStore (cs_epoch c) (cs_name c) (cs_chunks c) g.

Record MigrationSlots : Type := mkMigrationSlots {
  mg_ranges : RangeList;
  mg_meta : MigrationMetaStore;
}.

Inductive ScaleOp : Type := NoOp | ScaleOut | ScaleDown.

(** Report times are [i64] seconds. *)
Record MetaStore : Type := mkMetaStore {
  version : string;
  global_epoch : N;
  clusters : gmap string ClusterStore;
  all_proxies : gmap string ProxyResource;
  failed_proxies : gset string;
  failures : gmap string (gmap string Z);
  enable_ordered_proxy : bool;
}.

Definition set_global_epoch (s : MetaStore) (e : N) : MetaStore :=
  mkMetaStore (version s) e (clusters s) (all_proxies s) (failed_proxies s) (failures s)
    (enable_ordered_proxy s).
Definition set_clusters (s : MetaStore) (m : gmap string ClusterStore) : MetaStore :=
  mkMetaStore (version s) (global_epoch s) m (all_proxies s) (failed_proxies s) (failures s)
    (enable_ordered_proxy s).
Definition set_all_proxies (s : MetaStore) (m : gmap string ProxyResource) : MetaStore :=
  mkMetaStore (version s) (global_epoch s) (clusters s) m (failed_proxies s) (failures s)
    (enable_ordered_proxy s).
Definition set_failed_proxies (s : MetaStore) (m : gset string) : MetaStore :=
  mkMetaStore (version s) (global_epoch s) (clusters s) (all_proxies s) m (failures s)
    (enable_ordered_proxy s).
Definition set_failures (s : MetaStore) (m : gmap string (gmap string Z)) : MetaStore :=
  mkMetaStore (version s) (global_epoch s) (clusters s) (all_proxies s) (failed_proxies s) m
    (enable_ordered_proxy s).

Inductive MetaSyncError : Type := Io | Replication | Json | Lock.

#[global] Instance MetaSyncError_eq_dec : EqDecision MetaSyncError.
Proof. solve_decision. Defined.

Inductive MetaStoreError : Type :=
| InUse
| NotInUse
| NoAvailableResource
| ResourceNotBalance
| AlreadyExisted
| ClusterNotFound
| FreeNodeNotFound
| FreeNodeFound
| ProxyNotFound
| InvalidNodeNum
| NodeNumAlreadyEnough
| InvalidClusterName
| InvalidMigrationTask
| InvalidProxyAddress
| MigrationTaskNotFound
| MigrationRunning
| InvalidConfig (key value error : string)
| SlotsAlreadyEven
| SyncError (e : MetaSyncError)
| InvalidMetaVersion
| SmallEpoch
| MissingIndex
| ProxyResourceOutOfOrder
| OrderedProxyEnabled
| OneClusterAlreadyExisted
| ProxyNotSync
| NodeNumberChanging
| External
| Retry
| EmptyExternalVersion
| ExternalTimeout.

#[global] Instance MetaStoreError_eq_dec : EqDecision MetaStoreError.
Proof. solve_decision. Defined.

(** ** The store monad *)

Abbreviation res := (outcome MetaStoreError).
Definition SM (A : Type) : Type := MetaStore → MetaStore * res A.

#[global] Instance SM_ret : MRet SM := λ _ a s, (s, Ok a).
#[global] Instance SM_bind : MBind SM := λ _ _ k m s,
  match m s with
  | (s', Ok a) => k a s'
  | (s', Err e) => (s', Err e)
  | (s', Panic) => (s', Panic)
  end.

Definition get_store : SM MetaStore := λ s, (s, Ok s).
Definition put_store (s : MetaStore) : SM () := λ _, (s, Ok ()).
Definition lift {A} (r : res A) : SM A := λ s, (s, r).
Definition fail {A} (e : MetaStoreError) : SM A := λ s, (s, Err e).

(** ** Operations of [ClusterStore] *)

Section cluster_store.
Implicit Types (c : ChunkStore) (cs : ClusterStore).

Definition chunk_is_migrating c : bool :=
  existsb (λ slots, negb (bool_decide (slots = []))) (arr2_list (ch_migrating_slots c)).
Definition is_migrating cs : bool := existsb chunk_is_migrating (cs_chunks cs).

Definition get_proxy_addresses cs : list string :=
  mjoin (arr2_list ∘ ch_proxy_addresses <$> cs_chunks cs).

Definition get_node_number cs : nat := length (cs_chunks cs) * CHUNK_NODE_NUM.

Definition get_node_number_with_slots cs : nat :=
  let masters_with_slots :=
    sum_list_with
      (λ c, length (filter (λ s, is_Some s) (arr2_list (ch_stable_slots c)))) (cs_chunks cs) in
  masters_with_slots * CHUNK_HALF_NODE_NUM.

Definition get_info cs : ClusterInfo :=
  mkClusterInfo (cs_name cs) (get_node_number cs) (get_node_number_with_slots cs)
    (is_migrating cs).

(** Which proxy and node of a chunk serve a part, by the role position. *)
Definition chunk_part_to_proxy_index (chunk_part : nat) (role_position : ChunkRolePosition)
  : nat :=
  match chunk_part, role_position with
  | 0, SecondChunkMaster => 1
  | 1, FirstChunkMaster => 0
  | i, _ => i
  end.
Definition chunk_part_to_node_index (chunk_part : nat) (role_position : ChunkRolePosition)
  : nat :=
  match chunk_part, role_position with
  | 0, SecondChunkMaster => 3
  | 1, FirstChunkMaster => 1
  | i, _ => 2 * i
  end.

(** [MigrationSlotRangeStore::to_slot_range]. *)
Definition to_slot_range (e : MigrationSlotRangeStore) (chunks : list ChunkStore)
  : res SlotRange :=
  let m := mr_meta e in
  src_chunk ← expect (chunks !! ms_src_chunk_index m);
  src_proxy_address ← expect (arr2_get (ch_proxy_addresses src_chunk)
    (chunk_part_to_proxy_index (ms_src_chunk_part m) (ch_role_position src_chunk)));
  src_node_address ← expect (arr4_get (ch_node_addresses src_chunk)
    (chunk_part_to_node_index (ms_src_chunk_part m) (ch_role_position src_chunk)));
  dst_chunk ← expect (chunks !! ms_dst_chunk_index m);
  dst_proxy_address ← expect (arr2_get (ch_proxy_addresses dst_chunk)
    (chunk_part_to_proxy_index (ms_dst_chunk_part m) (ch_role_position dst_chunk)));
  dst_node_address ← expect (arr4_get (ch_node_addresses dst_chunk)
    (chunk_part_to_node_index (ms_dst_chunk_part m) (ch_role_position dst_chunk)));
  let meta := mkMigrationMeta (ms_epoch m) src_proxy_address src_node_address
    dst_proxy_address dst_node_address in
  Ok (mkSlotRange (mr_range_list e)
        (if mr_is_migrating e then Migrating meta else Importing meta)).

(** A write through [chunks.get_mut(i).and_then(..).expect(..)]. *)
Definition modify_chunk (chunks : list ChunkStore) (i : nat)
    (f : ChunkStore → option ChunkStore) : res (list ChunkStore) :=
  c ← expect (chunks !! i); c' ← expect (f c); Ok (<[i := c']> chunks).

Definition push_migrating (part : nat) (e : MigrationSlotRangeStore) c : option ChunkStore :=
  l ← arr2_get (ch_migrating_slots c) part;
  Some (set_migrating_slots c (arr2_set (ch_migrating_slots c) part (l ++ [e]))).

(** [get_or_insert_with] an empty range list, then [merge_another]. *)
Definition merge_stable (part : nat) (rl : RangeList) c : option ChunkStore :=
  o ← arr2_get (ch_stable_slots c) part;
  let sr := default (mkSlotRange (range_list_new []) TagNone) o in
  Some (set_stable_slots c (arr2_set (ch_stable_slots c) part
    (Some (mkSlotRange (merge_another (sr_range_list sr) rl) (sr_tag sr))))).

Definition set_is_migrating (e : MigrationSlotRangeStore) (b : bool) : MigrationSlotRangeStore :=
  mkMigrationSlotRangeStore (mr_range_list e) b (mr_meta e).

Definition MAX_MIGRATING_OUT : nat := 1.

(** The loop body of [ClusterStore::limit_migration]: the chunks built so
    far, the number of migrations let through, and how many of them leave
    each part. *)
Definition limit_step (migration_limit : N)
    (st : list ChunkStore * N * gmap (nat * nat) nat) (e : MigrationSlotRangeStore)
  : res (list ChunkStore * N * gmap (nat * nat) nat) :=
  let '(chunks, migration_num, migrating_out) := st in
  if negb (mr_is_migrating e) then Ok st
  else
    let m := mr_meta e in
    let src := (ms_src_chunk_index m, ms_src_chunk_part m) in
    let count := default 0 (migrating_out !! src) in
    let migrating_out := <[src := count]> migrating_out in
    if (migration_limit <=? migration_num)%N || bool_decide (MAX_MIGRATING_OUT ≤ count) then
      chunks ← modify_chunk chunks (ms_src_chunk_index m)
                 (merge_stable (ms_src_chunk_part m) (mr_range_list e));
      Ok (chunks, migration_num, migrating_out)
    else
      chunks ← modify_chunk chunks (ms_src_chunk_index m)
                 (push_migrating (ms_src_chunk_part m) e);
      chunks ← modify_chunk chunks (ms_dst_chunk_index m)
                 (push_migrating (ms_dst_chunk_part m) (set_is_migrating e false));
      Ok (chunks, (migration_num + 1)%N, <[src := S count]> migrating_out).

Fixpoint limit_loop (migration_limit : N) (es : list MigrationSlotRangeStore)
    (st : list ChunkStore * N * gmap (nat * nat) nat)
  : res (list ChunkStore * N * gmap (nat * nat) nat) :=
  match es with
  | [] => Ok st
  | e :: es => st ← limit_step migration_limit st e; limit_loop migration_limit es st
  end.

Definition clear_migrating c : ChunkStore := set_migrating_slots c (Arr2 [] []).

Definition chunk_entries c : list MigrationSlotRangeStore :=
  at0 (ch_migrating_slots c) ++ at1 (ch_migrating_slots c).
Definition all_entries (chunks : list ChunkStore) : list MigrationSlotRangeStore :=
  mjoin (chunk_entries <$> chunks).

Definition limit_migration cs (migration_limit : N) : res ClusterStore :=
  if bool_decide (migration_limit = 0%N) then Ok cs
  else
    '(chunks, _, _) ← limit_loop migration_limit (all_entries (cs_chunks cs))
                        (clear_migrating <$> cs_chunks cs, 0%N, ∅);
    Ok (set_chunks cs chunks).
End cluster_store.

(** ** Epochs of [MetaStore] *)

Definition store_new (enable_ordered_proxy : bool) : MetaStore :=
  mkMetaStore UNDERMOON_MEM_BROKER_META_VERSION 0 ∅ ∅ ∅ ∅ enable_ordered_proxy.

Definition restore (other : MetaStore) : SM () := λ s,
  if bool_decide (version s ≠ version other) then (s, Err InvalidMetaVersion)
  else if (global_epoch other <? global_epoch s)%N then (s, Err SmallEpoch)
  else (other, Ok ()).

Definition bump_global_epoch : SM N := λ s,
  let e := wadd (global_epoch s) 1 in (set_global_epoch s e, Ok e).

Definition force_bump_all_epoch (new_epoch : N) : SM () := λ s,
  if (new_epoch <=? global_epoch s)%N then (s, Err SmallEpoch)
  else (set_clusters (set_global_epoch s new_epoch)
          ((λ c, set_epoch c new_epoch) <$> clusters s), Ok ()).

Definition recover_epoch (exsting_largest_epoch : N) (s : MetaStore) : MetaStore :=
  let new_epoch := N.max exsting_largest_epoch (wadd (global_epoch s) 1) in
  set_clusters (set_global_epoch s new_epoch) ((λ c, set_epoch c new_epoch) <$> clusters s).

(** The addresses of the proxies of some chunks, in order. *)
Definition chunk_addresses (chunks : list ChunkStore) : list string :=
  mjoin (arr2_list ∘ ch_proxy_addresses <$> chunks).
