(* ===== verification/SlotInv.v ===== *)
(** * The slot invariant of a cluster

    A chunk part owns slots in two ways: its stable slots, and the slots it
    is migrating out, which stay its own until the migration commits.  An
    importing entry only mirrors the migrating entry of another part.
    [slots_wf] says that every one of the [SLOT_NUM] slots is owned exactly
    once, that every stored range list is compacted, that every entry sits in
    the part its metadata names, and that migrating and importing entries
    come in pairs.  The last part shows what [limit_migration] does to such a
    cluster. *)

From S2P Require Import Prelude RangeList RustStr ClusterMeta Store.

(** ** Definitions *)

Definition opt_cover (s : N) (o : option SlotRange) : nat :=
  match o with None => 0 | Some sr => cover s (sr_range_list sr) end.

Definition out_cover (s : N) (e : MigrationSlotRangeStore) : nat :=
  if mr_is_migrating e then cover s (mr_range_list e) else 0.

(** How many times a chunk, or a list of chunks, owns slot [s]. *)
Definition chunk_cover (s : N) (c : ChunkStore) : nat :=
  opt_cover s (at0 (ch_stable_slots c)) + opt_cover s (at1 (ch_stable_slots c)) +
  sum_list_with (out_cover s) (chunk_entries c).
Definition chunks_cover (s : N) (chunks : list ChunkStore) : nat :=
  sum_list_with (chunk_cover s) chunks.

(** What every slot must count: one owner, and none beyond the slot space. *)
Definition owned_once (s : N) : nat := if (s <? SLOT_NUM)%N then 1 else 0.

Definition range_ok (rl : RangeList) : Prop := compacted rl ∧ in_bounds rl.

Definition stable_ok (o : option SlotRange) : Prop :=
  match o with
  | None => True
  | Some sr => sr_tag sr = TagNone ∧ range_ok (sr_range_list sr)
  end.

Definition entry_ok (e : MigrationSlotRangeStore) : Prop :=
  range_ok (mr_range_list e) ∧ mr_range_list e ≠ [].

Definition chunk_ok (c : ChunkStore) : Prop :=
  stable_ok (at0 (ch_stable_slots c)) ∧ stable_ok (at1 (ch_stable_slots c)) ∧
  Forall entry_ok (chunk_entries c).

(** The part an entry must be stored in. *)
Definition entry_place (e : MigrationSlotRangeStore) : nat * nat :=
  let m := mr_meta e in
  if mr_is_migrating e then (ms_src_chunk_index m, ms_src_chunk_part m)
  else (ms_dst_chunk_index m, ms_dst_chunk_part m).

Definition part_entries (chunks : list ChunkStore) (i j : nat)
  : option (list MigrationSlotRangeStore) :=
  c ← chunks !! i; arr2_get (ch_migrating_slots c) j.

Definition placed (chunks : list ChunkStore) : Prop :=
  ∀ i j l e, part_entries chunks i j = Some l → e ∈ l → entry_place e = (i, j).

Definition entry_key (e : MigrationSlotRangeStore) : RangeList * MigrationMetaStore :=
  (mr_range_list e, mr_meta e).

Definition keys_of (b : bool) (es : list MigrationSlotRangeStore)
  : list (RangeList * MigrationMetaStore) :=
  entry_key <$> filter (λ e, mr_is_migrating e = b) es.

Definition mirrored (chunks : list ChunkStore) : Prop :=
  keys_of true (all_entries chunks) ≡ₚ keys_of false (all_entries chunks).

Record slots_wf (chunks : list ChunkStore) : Prop := {
  sw_partition : ∀ s, chunks_cover s chunks = owned_once s;
  sw_chunks : Forall chunk_ok chunks;
  sw_placed : placed chunks;
  sw_mirrored : mirrored chunks;
}.

(** The part of a chunk that slot operations leave alone. *)
Definition chunk_frame (c : ChunkStore)
  : ChunkRolePosition * arr2 string * arr2 string * arr4 string :=
  (ch_role_position c, ch_proxy_addresses c, ch_hosts c, ch_node_addresses c).
Definition frames (chunks : list ChunkStore) := chunk_frame <$> chunks.

(** ** Lemmas on entries *)

Lemma all_entries_cons c chunks :
  all_entries (c :: chunks) = chunk_entries c ++ all_entries chunks.
Proof. done. Qed.

Lemma elem_of_all_entries e chunks :
  e ∈ all_entries chunks ↔ ∃ i j l, part_entries chunks i j = Some l ∧ e ∈ l.
Proof.
  unfold all_entries, part_entries. rewrite list_elem_of_join.
  setoid_rewrite list_elem_of_fmap. split.
  - intros (l & He & c & -> & Hc). apply list_elem_of_lookup in Hc as [i Hi].
    unfold chunk_entries in He. apply elem_of_app in He as [He|He].
    + exists i, 0, (at0 (ch_migrating_slots c)). by rewrite Hi.
    + exists i, 1, (at1 (ch_migrating_slots c)). by rewrite Hi.
  - intros (i & j & l & Hl & He). destruct (chunks !! i) as [c|] eqn:Hi; [|done].
    cbn in Hl. exists (chunk_entries c). split.
    + unfold chunk_entries. rewrite elem_of_app.
      destruct j as [|[|]]; cbn in Hl; simplify_eq; tauto.
    + exists c. split; [done|]. by eapply list_elem_of_lookup_2.
Qed.

Lemma elem_of_keys b es k :
  k ∈ keys_of b es ↔ ∃ e, e ∈ es ∧ mr_is_migrating e = b ∧ entry_key e = k.
Proof.
  unfold keys_of. rewrite list_elem_of_fmap. setoid_rewrite list_elem_of_filter.
  split; intros (e & ?); exists e; destruct_and!; by subst.
Qed.

Lemma part_entries_lt chunks i j l :
  part_entries chunks i j = Some l → i < length chunks ∧ j < 2.
Proof.
  unfold part_entries. destruct (chunks !! i) eqn:Hi; [|done]. cbn. intros H.
  split; [by eapply lookup_lt_Some|by eapply arr2_get_Some].
Qed.

(** Every entry of a placed and mirrored cluster names parts that exist. *)
Lemma entry_indices chunks e :
  placed chunks → mirrored chunks → e ∈ all_entries chunks →
  ms_src_chunk_index (mr_meta e) < length chunks ∧ ms_src_chunk_part (mr_meta e) < 2 ∧
  ms_dst_chunk_index (mr_meta e) < length chunks ∧ ms_dst_chunk_part (mr_meta e) < 2.
Proof.
  intros Hp Hm He.
  assert (∀ b, entry_key e ∈ keys_of b (all_entries chunks)) as Hk.
  { assert (entry_key e ∈ keys_of (mr_is_migrating e) (all_entries chunks)) as Hin
      by (apply elem_of_keys; eauto).
    unfold mirrored in Hm. intros b.
    destruct (mr_is_migrating e), b; [done|by rewrite <- Hm|by rewrite Hm|done]. }
  assert (∀ b, ∃ e', mr_is_migrating e' = b ∧ mr_meta e' = mr_meta e ∧
    (entry_place e').1 < length chunks ∧ (entry_place e').2 < 2) as Hb.
  { intros b. specialize (Hk b). apply elem_of_keys in Hk as (e' & He' & Hb & [= _ Hmeta]).
    exists e'. apply elem_of_all_entries in He' as (i & j & l & Hl & He').
    rewrite (Hp _ _ _ _ Hl He'). by apply part_entries_lt in Hl as [? ?]. }
  destruct (Hb true) as (e1 & Hb1 & Hm1 & H1 & H1'), (Hb false) as (e2 & Hb2 & Hm2 & H2 & H2').
  unfold entry_place in *. rewrite Hb1, Hm1 in *. rewrite Hb2, Hm2 in *. done.
Qed.

(** ** Updates of one chunk *)

Lemma sum_list_with_insert {A} (f : A → nat) l i x y :
  l !! i = Some x →
  sum_list_with f (<[i := y]> l) + f x = sum_list_with f l + f y.
Proof.
  revert i. induction l as [|z l IH]; intros [|i] H; simplify_eq/=; [lia|].
  specialize (IH i H). unfold insert in *. lia.
Qed.

Lemma chunks_cover_insert s chunks i c c' :
  chunks !! i = Some c →
  chunks_cover s (<[i := c']> chunks) + chunk_cover s c =
  chunks_cover s chunks + chunk_cover s c'.
Proof. apply sum_list_with_insert. Qed.

Lemma chunk_cover_le s chunks i c :
  chunks !! i = Some c → chunk_cover s c ≤ chunks_cover s chunks.
Proof. intros. by eapply sum_list_with_in, list_elem_of_lookup_2. Qed.

Lemma frames_insert chunks i c c' :
  chunks !! i = Some c → chunk_frame c' = chunk_frame c →
  frames (<[i := c']> chunks) = frames chunks.
Proof.
  intros Hi Hc. unfold frames. rewrite list_fmap_insert. apply list_insert_id.
  rewrite list_lookup_fmap, Hi. cbn. by rewrite Hc.
Qed.

Lemma frames_length chunks chunks' :
  frames chunks' = frames chunks → length chunks' = length chunks.
Proof. intros H. apply (f_equal length) in H. unfold frames in H. by rewrite !length_fmap in H. Qed.

(** The entries of the chunks after one chunk is replaced. *)
Lemma all_entries_insert chunks i c c' x :
  chunks !! i = Some c → chunk_entries c' ≡ₚ x ++ chunk_entries c →
  all_entries (<[i := c']> chunks) ≡ₚ x ++ all_entries chunks.
Proof.
  unfold all_entries. revert i.
  induction chunks as [|d chunks IH]; intros [|i] Hi Hc; simplify_eq/=.
  - by rewrite Hc, app_assoc.
  - rewrite (IH i) by done. rewrite !app_assoc. by rewrite (Permutation_app_comm _ x).
Qed.

Lemma all_entries_insert_same chunks i c c' :
  chunks !! i = Some c → chunk_entries c' = chunk_entries c →
  all_entries (<[i := c']> chunks) = all_entries chunks.
Proof.
  unfold all_entries. revert i.
  induction chunks as [|d chunks IH]; intros [|i] Hi Hc; simplify_eq/=.
  - by rewrite Hc.
  - f_equal. by apply IH.
Qed.

Lemma part_entries_insert chunks i c c' i' j' :
  chunks !! i = Some c →
  part_entries (<[i := c']> chunks) i' j' =
  if decide (i' = i) then arr2_get (ch_migrating_slots c') j'
  else part_entries chunks i' j'.
Proof.
  intros Hi. unfold part_entries. case_decide as H.
  - subst. by rewrite list_lookup_insert_eq by (by eapply lookup_lt_Some).
  - by rewrite list_lookup_insert_ne.
Qed.

(** *** Pushing an entry to a part *)

Lemma push_migrating_Some part e c :
  part < 2 → ∃ c', push_migrating part e c = Some c'.
Proof.
  intros H. unfold push_migrating. destruct (arr2_get_lt (ch_migrating_slots c) part H) as [l ->].
  eauto.
Qed.

Lemma push_migrating_spec part e c c' :
  push_migrating part e c = Some c' →
  ch_stable_slots c' = ch_stable_slots c ∧
  chunk_entries c' ≡ₚ [e] ++ chunk_entries c ∧
  (∀ s, chunk_cover s c' = chunk_cover s c + out_cover s e) ∧
  (∀ j l', arr2_get (ch_migrating_slots c') j = Some l' →
     ∃ l, arr2_get (ch_migrating_slots c) j = Some l ∧
       l' = if decide (j = part) then l ++ [e] else l).
Proof.
  unfold push_migrating. destruct (arr2_get _ part) as [l|] eqn:Hl; [|done].
  cbn. intros [= <-].
  assert (chunk_entries (set_migrating_slots c
    (arr2_set (ch_migrating_slots c) part (l ++ [e]))) ≡ₚ [e] ++ chunk_entries c) as Hperm.
  { unfold chunk_entries. destruct part as [|[|]]; simplify_eq/=.
    - rewrite <- app_assoc. symmetry. apply Permutation_middle.
    - by rewrite app_assoc, Permutation_app_comm. }
  split_and!; [done|done| |].
  - intros s. unfold chunk_cover. rewrite Hperm. cbn. lia.
  - intros j l' Hj.
    destruct part as [|[|]], j as [|[|]]; cbn in *; simplify_eq; eauto.
Qed.

Lemma push_migrating_frame part e c c' :
  push_migrating part e c = Some c' → chunk_frame c' = chunk_frame c.
Proof. unfold push_migrating. destruct (arr2_get _ part); [|done]. by intros [= <-]. Qed.

Lemma merge_stable_frame part rl c c' :
  merge_stable part rl c = Some c' → chunk_frame c' = chunk_frame c.
Proof. unfold merge_stable. destruct (arr2_get _ part); [|done]. by intros [= <-]. Qed.

(** *** Merging a range list into the stable slots of a part *)

Lemma compact_disjoint rs :
  in_bounds rs → Forall (λ r, r_start r ≤ r_end r)%N rs → (∀ s, cover s rs ≤ 1) →
  range_ok (compact rs) ∧ ∀ s, cover s (compact rs) = cover s rs.
Proof.
  intros Hb Hle Hc. pose proof (in_bounds_no_wrap _ Hb).
  split; [split; [by apply compact_compacted|by apply compact_in_bounds]|].
  intros s. rewrite compact_cover by done. specialize (Hc s). lia.
Qed.

Lemma merge_another_ok a b :
  range_ok a → range_ok b → (∀ s, cover s a + cover s b ≤ 1) →
  range_ok (merge_another a b) ∧ ∀ s, cover s (merge_another a b) = cover s a + cover s b.
Proof.
  intros [[Ha1 Ha2] Ha3] [[Hb1 Hb2] Hb3] Hc. unfold merge_another.
  destruct (compact_disjoint (a ++ b)) as [H1 H2].
  - by apply Forall_app.
  - by apply Forall_app.
  - intros s. rewrite cover_app. apply Hc.
  - split; [done|]. intros s. by rewrite H2, cover_app.
Qed.

Lemma range_ok_nil : range_ok [].
Proof. repeat constructor. Qed.

Lemma stable_ok_default o :
  stable_ok o →
  let sr := default (mkSlotRange (range_list_new []) TagNone) o in
  sr_tag sr = TagNone ∧ range_ok (sr_range_list sr) ∧
  ∀ s, cover s (sr_range_list sr) = opt_cover s o.
Proof. destruct o; cbn; [tauto|]. intros _. split_and!; [done|apply range_ok_nil|done]. Qed.

Lemma merge_stable_Some part rl c : part < 2 → ∃ c', merge_stable part rl c = Some c'.
Proof.
  intros H. unfold merge_stable. destruct (arr2_get_lt (ch_stable_slots c) part H) as [o ->].
  eauto.
Qed.

Lemma merge_stable_spec part rl c c' :
  merge_stable part rl c = Some c' →
  chunk_ok c → range_ok rl → (∀ s, chunk_cover s c + cover s rl ≤ 1) →
  ch_migrating_slots c' = ch_migrating_slots c ∧ chunk_ok c' ∧
  ∀ s, chunk_cover s c' = chunk_cover s c + cover s rl.
Proof.
  unfold merge_stable. destruct (arr2_get _ part) as [o|] eqn:Ho; [|done].
  intros [= <-] (H0 & H1 & He) Hrl Hc. split; [done|].
  assert (stable_ok o ∧ ∀ s, opt_cover s o ≤ chunk_cover s c) as [Hok Hle].
  { unfold chunk_cover. destruct part as [|[|]]; cbn in Ho; simplify_eq;
      (split; [done|intros; lia]). }
  destruct (stable_ok_default o Hok) as (Htag & Hr & Hcov).
  destruct (merge_another_ok _ rl Hr Hrl) as [Hok' Hcov'].
  { intros s. rewrite Hcov. specialize (Hc s). specialize (Hle s). lia. }
  split.
  - unfold chunk_ok, chunk_entries in *.
    destruct part as [|[|]]; cbn in *; simplify_eq; split_and!; done.
  - intros s. specialize (Hcov' s). rewrite Hcov in Hcov'. unfold chunk_cover.
    destruct part as [|[|]]; cbn [arr2_get] in Ho; simplify_eq;
      cbn [arr2_set ch_stable_slots set_stable_slots at0 at1 opt_cover sr_range_list];
      unfold chunk_entries; cbn [ch_migrating_slots set_stable_slots]; lia.
Qed.

(** ** [limit_migration] *)

Section limit.
Context (limit : N) (O : list ChunkStore).
Hypothesis Hwf : slots_wf O.

Implicit Types (R : list MigrationSlotRangeStore).

(** The number of entries that leave part [(i, j)]. *)
Definition outgoing (chunks : list ChunkStore) (p : nat * nat) : nat :=
  length (filter (λ e, mr_is_migrating e = true ∧ entry_place e = p) (all_entries chunks)).
Definition migrations (chunks : list ChunkStore) : nat :=
  length (keys_of true (all_entries chunks)).

(** The migrations the loop lets through, in the order of the entries. *)
Fixpoint select (num : N) (out : gmap (nat * nat) nat) R : list MigrationSlotRangeStore :=
  match R with
  | [] => []
  | e :: R =>
      if mr_is_migrating e then
        let count := default 0 (out !! entry_place e) in
        if (limit <=? num)%N || bool_decide (MAX_MIGRATING_OUT ≤ count) then select num out R
        else e :: select (num + 1) (<[entry_place e := S count]> out) R
      else select num out R
  end.

Lemma select_ext R : ∀ num out out',
  (∀ p, default 0 (out !! p) = default 0 (out' !! p)) → select num out R = select num out' R.
Proof.
  induction R as [|e R IH]; intros num out out' Hout; cbn [select]; [done|].
  destruct (mr_is_migrating e); [|by apply IH]. rewrite (Hout (entry_place e)).
  destruct (_ || _); [by apply IH|]. f_equal. apply IH. intros p. rewrite !lookup_insert.
  case_decide; [done|apply Hout].
Qed.

Record limit_inv R (st : list ChunkStore * N * gmap (nat * nat) nat) : Prop := {
  li_frames : frames st.1.1 = frames O;
  li_cover : ∀ s, chunks_cover s st.1.1 + sum_list_with (out_cover s) R = owned_once s;
  li_chunks : Forall chunk_ok st.1.1;
  li_placed : placed st.1.1;
  li_mirrored : mirrored st.1.1;
  li_num : N.of_nat (migrations st.1.1) = st.1.2;
  li_limit : (st.1.2 ≤ limit)%N;
  li_out : ∀ p, outgoing st.1.1 p = default 0 (st.2 !! p);
  li_out_le : ∀ p, default 0 (st.2 !! p) ≤ MAX_MIGRATING_OUT;
  li_shown : ∀ k, k ∈ keys_of true (all_entries st.1.1) → k ∈ keys_of true (all_entries O);
  li_progress : limit ≠ 0%N → st.1.2 = 0%N →
    ∀ e, e ∈ all_entries O → mr_is_migrating e = true → e ∈ R;
  li_select : keys_of true (all_entries st.1.1) ++ (entry_key <$> select st.1.2 st.2 R) ≡ₚ
    entry_key <$> select 0 ∅ (all_entries O);
}.

Lemma outgoing_le chunks p : outgoing chunks p ≤ migrations chunks.
Proof.
  unfold outgoing, migrations, keys_of. rewrite length_fmap.
  induction (all_entries chunks) as [|e es IH]; [done|]. rewrite !filter_cons.
  repeat case_decide; cbn [length]; try lia. tauto.
Qed.

Lemma modify_chunk_Ok chunks i (f : ChunkStore → option ChunkStore) c c' :
  chunks !! i = Some c → f c = Some c' →
  modify_chunk chunks i f = Ok (<[i := c']> chunks).
Proof. intros Hi Hf. unfold modify_chunk. rewrite Hi. cbn. by rewrite Hf. Qed.

Lemma keys_of_perm b es es' : es ≡ₚ es' → keys_of b es ≡ₚ keys_of b es'.
Proof. intros H. unfold keys_of. by rewrite H. Qed.

Lemma keys_of_cons b e es :
  keys_of b (e :: es) =
  (if decide (mr_is_migrating e = b) then [entry_key e] else []) ++ keys_of b es.
Proof. unfold keys_of. rewrite filter_cons. by case_decide. Qed.

Lemma placed_push chunks i j c c' e :
  placed chunks → chunks !! i = Some c → push_migrating j e c = Some c' →
  entry_place e = (i, j) → placed (<[i := c']> chunks).
Proof.
  intros Hp Hi Hc He i' j' l e' Hl He'.
  rewrite (part_entries_insert _ _ c) in Hl by done. case_decide; [|by eapply Hp].
  subst. apply push_migrating_spec in Hc as (_ & _ & _ & Hj).
  destruct (Hj _ _ Hl) as (l0 & Hl0 & ->).
  assert (part_entries chunks i j' = Some l0) as Hl1
    by (unfold part_entries; rewrite Hi; exact Hl0).
  case_decide; [subst; apply elem_of_app in He' as [He'|He']|]; [by eapply Hp| |by eapply Hp].
  by apply list_elem_of_singleton in He' as ->.
Qed.

Lemma chunk_ok_push j e c c' :
  chunk_ok c → entry_ok e → push_migrating j e c = Some c' → chunk_ok c'.
Proof.
  intros (H0 & H1 & He) Hok Hc.
  apply push_migrating_spec in Hc as (Hs & Hperm & _ & _).
  unfold chunk_ok. rewrite Hs. split_and!; [done|done|]. rewrite Hperm. by constructor.
Qed.

Lemma owned_once_le s : owned_once s ≤ 1.
Proof. unfold owned_once. destruct (_ <? _)%N; lia. Qed.

Lemma limit_inv_init :
  limit_inv (all_entries O) (clear_migrating <$> O, 0%N, ∅).
Proof.
  assert (∀ cs, all_entries (clear_migrating <$> cs) = []) as Hnil.
  { unfold all_entries. by induction cs. }
  split; cbn [fst snd].
  - unfold frames. by rewrite <- list_fmap_compose.
  - intros s. rewrite <- (sw_partition _ Hwf s). unfold chunks_cover.
    clear. induction O as [|c cs IH]; [done|].
    rewrite fmap_cons, all_entries_cons, sum_list_with_app. cbn [sum_list_with].
    assert (chunk_cover s c = chunk_cover s (clear_migrating c) +
      sum_list_with (out_cover s) (chunk_entries c)); [|lia].
    unfold chunk_cover, clear_migrating, chunk_entries.
    cbn [ch_stable_slots ch_migrating_slots set_migrating_slots at0 at1 app sum_list_with].
    lia.
  - apply Forall_fmap. eapply Forall_impl; [apply (sw_chunks _ Hwf)|].
    intros c (? & ? & _). split_and!; [done|done|]. constructor.
  - intros i j l e Hl He. exfalso.
    assert (e ∈ all_entries (clear_migrating <$> O)) as H
      by (apply elem_of_all_entries; eauto 10).
    rewrite Hnil in H. set_solver.
  - unfold mirrored. by rewrite Hnil.
  - unfold migrations. by rewrite Hnil.
  - lia.
  - intros p. unfold outgoing. by rewrite Hnil, lookup_empty.
  - intros p. rewrite lookup_empty. cbn. lia.
  - intros k. rewrite Hnil. by intros ?%not_elem_of_nil.
  - done.
  - by rewrite Hnil.
Qed.

(** The entry is turned back into stable slots of its source. *)
Lemma limit_step_merge R chunks num out e c c' :
  limit_inv (e :: R) (chunks, num, out) → mr_is_migrating e = true → entry_ok e →
  chunks !! (entry_place e).1 = Some c →
  merge_stable (entry_place e).2 (mr_range_list e) c = Some c' →
  (limit ≠ 0%N → num ≠ 0%N) →
  (limit <=? num)%N || bool_decide (MAX_MIGRATING_OUT ≤ default 0 (out !! entry_place e)) = true →
  limit_inv R (<[(entry_place e).1 := c']> chunks, num,
    <[entry_place e := default 0 (out !! entry_place e)]> out).
Proof.
  intros [] Hm [Hok _] Hc Hc' Hnz Hskip. cbn [fst snd sum_list_with] in *.
  assert (∀ s, out_cover s e = cover s (mr_range_list e)) as Ho
    by (intros; unfold out_cover; by rewrite Hm).
  setoid_rewrite Ho in li_cover0.
  assert (∀ s, chunk_cover s c + cover s (mr_range_list e) ≤ 1) as Hle.
  { intros s. pose proof (chunk_cover_le s _ _ _ Hc). specialize (li_cover0 s).
    pose proof (owned_once_le s). lia. }
  assert (chunk_ok c) as Hcok by (by eapply Forall_lookup_1).
  destruct (merge_stable_spec _ _ _ _ Hc' Hcok Hok Hle) as (Hmig & Hok' & Hcov).
  assert (all_entries (<[(entry_place e).1 := c']> chunks) = all_entries chunks) as Hall
    by (eapply all_entries_insert_same; [done|unfold chunk_entries; by rewrite Hmig]).
  split; cbn [fst snd].
  - by rewrite (frames_insert _ _ c) by (done || by eapply merge_stable_frame).
  - intros s. pose proof (chunks_cover_insert s _ _ _ c' Hc). specialize (li_cover0 s).
    specialize (Hcov s). lia.
  - by apply Forall_insert.
  - intros i j l e' Hl He'. rewrite (part_entries_insert _ _ c) in Hl by done.
    eapply li_placed0; [|done]. case_decide; [subst|done].
    unfold part_entries. rewrite Hc. cbn. by rewrite <- Hmig.
  - unfold mirrored. by rewrite Hall.
  - unfold migrations. by rewrite Hall.
  - done.
  - intros p. clear Hskip. unfold outgoing. rewrite Hall. rewrite lookup_insert.
    case_decide; [subst|]; apply li_out0.
  - intros p. clear Hskip. rewrite lookup_insert. case_decide; [subst|]; apply li_out_le0.
  - by rewrite Hall.
  - intros Hl Hn. by destruct (Hnz Hl).
  - rewrite Hall, <- li_select0. cbn [select]. rewrite Hm, Hskip. f_equiv. f_equiv.
    apply reflexive_eq, select_ext. intros p. clear Hskip. rewrite lookup_insert.
    by case_decide; [subst|].
Qed.

(** The entries of a list of chunks after a migration is let through. *)
Lemma limit_step_entries chunks chunks' e ei :
  all_entries chunks' ≡ₚ ei :: e :: all_entries chunks →
  mr_is_migrating e = true → ei = set_is_migrating e false →
  (mirrored chunks → mirrored chunks') ∧ migrations chunks' = S (migrations chunks) ∧
  ∀ p, outgoing chunks' p =
       (if decide (entry_place e = p) then 1 else 0) + outgoing chunks p.
Proof.
  intros Hall Hm ->. split_and!.
  - intros H. unfold mirrored in *. rewrite !(keys_of_perm _ _ _ Hall), !keys_of_cons, Hm.
    cbn. by rewrite H.
  - unfold migrations. rewrite (keys_of_perm _ _ _ Hall), !keys_of_cons, Hm. done.
  - intros p. unfold outgoing. rewrite Hall, !filter_cons.
    rewrite (decide_False (P := mr_is_migrating (set_is_migrating e false) = true ∧ _))
      by (cbn; intros [? _]; done).
    rewrite Hm. do 2 case_decide; try done; exfalso; tauto.
Qed.

Lemma limit_step_push R chunks num out e c c' d d' :
  limit_inv (e :: R) (chunks, num, out) → mr_is_migrating e = true → entry_ok e →
  e ∈ all_entries O → (num < limit)%N → default 0 (out !! entry_place e) = 0 →
  let ei := set_is_migrating e false in
  let chunks1 := <[(entry_place e).1 := c']> chunks in
  chunks !! (entry_place e).1 = Some c → push_migrating (entry_place e).2 e c = Some c' →
  chunks1 !! (entry_place ei).1 = Some d → push_migrating (entry_place ei).2 ei d = Some d' →
  limit_inv R (<[(entry_place ei).1 := d']> chunks1, (num + 1)%N,
    <[entry_place e := 1]> (<[entry_place e := 0]> out)).
Proof.
  intros [] Hm Hok He Hnum H0 ei chunks1 Hc Hc' Hd Hd'. cbn [fst snd sum_list_with] in *.
  destruct (push_migrating_spec _ _ _ _ Hc') as (_ & Hp1 & Hcov1 & _).
  destruct (push_migrating_spec _ _ _ _ Hd') as (_ & Hp2 & Hcov2 & _).
  assert (all_entries (<[(entry_place ei).1 := d']> chunks1) ≡ₚ ei :: e :: all_entries chunks)
    as Hall.
  { etransitivity; [exact (all_entries_insert _ _ _ _ _ Hd Hp2)|].
    constructor. exact (all_entries_insert _ _ _ _ _ Hc Hp1). }
  destruct (limit_step_entries _ _ _ _ Hall Hm eq_refl) as (Hmir & Hnum' & Hout).
  assert (Forall chunk_ok chunks1) as Hok1
    by (apply Forall_insert; [done|eapply chunk_ok_push; [by eapply Forall_lookup_1|done..]]).
  assert (placed chunks1) as Hpl1 by (eapply placed_push; eauto using surjective_pairing).
  split; cbn [fst snd].
  - rewrite (frames_insert _ _ d) by (done || by eapply push_migrating_frame).
    unfold chunks1. by rewrite (frames_insert _ _ c) by (done || by eapply push_migrating_frame).
  - intros s. pose proof (chunks_cover_insert s _ _ _ c' Hc).
    pose proof (chunks_cover_insert s _ _ _ d' Hd). specialize (li_cover0 s).
    specialize (Hcov1 s). specialize (Hcov2 s). subst chunks1.
    assert (out_cover s ei = 0) by done. lia.
  - apply Forall_insert; [done|].
    eapply chunk_ok_push; [by eapply Forall_lookup_1| |done]. exact Hok.
  - eapply placed_push; eauto using surjective_pairing.
  - by apply Hmir.
  - rewrite Hnum'. lia.
  - lia.
  - intros p. rewrite Hout, li_out0, lookup_insert.
    case_decide; [subst|rewrite lookup_insert_ne by done]; [|done]. by rewrite H0.
  - intros p. rewrite lookup_insert. case_decide; [unfold MAX_MIGRATING_OUT; cbn; lia|].
    rewrite lookup_insert_ne by done. apply li_out_le0.
  - intros k. rewrite (keys_of_perm _ _ _ Hall), !keys_of_cons, Hm. cbn.
    intros [->|Hk]%elem_of_cons; [|by apply li_shown0]. apply elem_of_keys. eauto.
  - lia.
  - rewrite <- li_select0, (keys_of_perm _ _ _ Hall), !keys_of_cons, Hm.
    cbn [select decide_rel mr_is_migrating set_is_migrating]. rewrite Hm, H0.
    rewrite (proj2 (N.leb_gt limit num) Hnum).
    rewrite bool_decide_eq_false_2 by (unfold MAX_MIGRATING_OUT; lia). cbn [orb fmap list_fmap].
    rewrite (decide_False (P := false = true)), decide_True by done. cbn [app].
    rewrite <- Permutation_middle. constructor. f_equiv. f_equiv. apply reflexive_eq, select_ext.
    intros p. rewrite !lookup_insert. case_decide; done.
Qed.

Lemma limit_step_ok R st e :
  limit_inv (e :: R) st → e ∈ all_entries O →
  ∃ st', limit_step limit st e = Ok st' ∧ limit_inv R st'.
Proof.
  intros Hinv He. destruct st as [[chunks num] out]. unfold limit_step.
  destruct (mr_is_migrating e) eqn:Hm; cbn [negb].
  2: { exists (chunks, num, out). split; [done|]. destruct Hinv.
       cbn [fst snd sum_list_with] in *. split; cbn [fst snd]; try done.
       - intros s. rewrite <- (li_cover0 s). unfold out_cover at 2. rewrite Hm. lia.
       - intros Hl Hn e' He' Hm'. specialize (li_progress0 Hl Hn e' He' Hm').
         apply elem_of_cons in li_progress0 as [->|?]; [congruence|done].
       - cbn [select] in li_select0. by rewrite Hm in li_select0. }
  assert (entry_place e = (ms_src_chunk_index (mr_meta e), ms_src_chunk_part (mr_meta e)))
    as Hpl by (unfold entry_place; by rewrite Hm).
  destruct (entry_indices O e) as (Hs1 & Hs2 & Hd1 & Hd2); [apply Hwf..|done|].
  assert (entry_ok e) as Hok.
  { apply elem_of_all_entries in He as (i & j & l & Hl & He).
    unfold part_entries in Hl. destruct (O !! i) as [c|] eqn:Hc; [|done]. cbn in Hl.
    destruct (Forall_lookup_1 _ _ _ _ (sw_chunks _ Hwf) Hc) as (_ & _ & Hf).
    rewrite Forall_forall in Hf. apply Hf. unfold chunk_entries. rewrite elem_of_app.
    destruct j as [|[|]]; cbn in Hl; simplify_eq; auto. }
  pose proof (frames_length _ _ (li_frames _ _ Hinv)) as Hlen. cbn in Hlen. rewrite <- Hlen in Hs1, Hd1.
  destruct (lookup_lt_is_Some_2 chunks _ Hs1) as [c Hc].
  rewrite <- Hpl.
  destruct (_ || _) eqn:Hcase.
  - destruct (merge_stable_Some (ms_src_chunk_part (mr_meta e)) (mr_range_list e) c Hs2)
      as [c' Hc'].
    rewrite (modify_chunk_Ok _ _ _ _ _ Hc Hc'). cbn.
    eexists; split; [done|].
    pose proof (limit_step_merge R chunks num out e c c' Hinv Hm Hok) as Hstep.
    rewrite Hpl in *. apply Hstep; [done..| |done]. intros Hl ->. destruct Hinv. cbn [fst snd] in *.
    apply orb_true_iff in Hcase as [Hcase%N.leb_le|Hcase%bool_decide_eq_true]; [lia|].
    pose proof (outgoing_le chunks (entry_place e)) as Hle. rewrite Hpl in Hle.
    rewrite li_out0 in Hle. unfold MAX_MIGRATING_OUT in Hcase. lia.
  - apply orb_false_iff in Hcase as [Hnum%N.leb_gt Hcount%bool_decide_eq_false].
    destruct (push_migrating_Some (ms_src_chunk_part (mr_meta e)) e c Hs2) as [c' Hc'].
    rewrite (modify_chunk_Ok _ _ _ _ _ Hc Hc'). cbn.
    destruct (lookup_lt_is_Some_2 (<[ms_src_chunk_index (mr_meta e) := c']> chunks)
      (ms_dst_chunk_index (mr_meta e))) as [d Hd]; [by rewrite length_insert|].
    destruct (push_migrating_Some (ms_dst_chunk_part (mr_meta e)) (set_is_migrating e false) d Hd2)
      as [d' Hd'].
    rewrite (modify_chunk_Ok _ _ _ _ _ Hd Hd'). cbn.
    eexists; split; [done|].
    assert (default 0 (out !! entry_place e) = 0) as H0 by (unfold MAX_MIGRATING_OUT in *; lia).
    pose proof (limit_step_push R chunks num out e c c' d d' Hinv Hm Hok He Hnum H0) as Hstep.
    rewrite Hpl in *. cbn in Hstep |- *. rewrite H0. by apply Hstep.
Qed.

Lemma limit_loop_ok R : ∀ st,
  limit_inv R st → (∀ e, e ∈ R → e ∈ all_entries O) →
  ∃ st', limit_loop limit R st = Ok st' ∧ limit_inv [] st'.
Proof.
  induction R as [|e R IH]; intros st Hinv Hin; cbn; [eauto|].
  destruct (limit_step_ok R st e) as (st' & -> & Hinv'); [done|set_solver|].
  cbn. apply IH; [done|set_solver].
Qed.
End limit.

(** [limit_migration] does not panic; the cluster it shows is well formed and
    owns the same slots, runs at most [limit] migrations, and at most one out
    of each part; the migrations it shows are migrations of the cluster, and
    it shows one if there is any; with a limit they are the ones [select]
    picks. *)
Lemma limit_migration_spec cs limit :
  slots_wf (cs_chunks cs) →
  ∃ cs', limit_migration cs limit = Ok cs' ∧
    slots_wf (cs_chunks cs') ∧ frames (cs_chunks cs') = frames (cs_chunks cs) ∧
    cs_epoch cs' = cs_epoch cs ∧ cs_name cs' = cs_name cs ∧ cs_config cs' = cs_config cs ∧
    (limit ≠ 0%N →
      (N.of_nat (migrations (cs_chunks cs')) ≤ limit)%N ∧
      ∀ p, outgoing (cs_chunks cs') p ≤ MAX_MIGRATING_OUT) ∧
    (∀ k, k ∈ keys_of true (all_entries (cs_chunks cs')) →
       k ∈ keys_of true (all_entries (cs_chunks cs))) ∧
    (migrations (cs_chunks cs') = 0 → migrations (cs_chunks cs) = 0) ∧
    (limit ≠ 0%N → keys_of true (all_entries (cs_chunks cs')) ≡ₚ
       entry_key <$> select limit 0 ∅ (all_entries (cs_chunks cs))).
Proof.
  intros Hwf. unfold limit_migration. case_bool_decide as H0.
  { exists cs. by split_and!. }
  destruct (limit_loop_ok limit _ Hwf _ _ (limit_inv_init limit _ Hwf))
    as ([[chunks num] out] & -> & Hinv); [done|].
  cbn. eexists. split; [done|]. destruct Hinv. cbn [fst snd] in *.
  split_and!; [|done..| |done| |].
  - split; [|done..]. intros s. rewrite <- (li_cover0 s). symmetry. apply Nat.add_0_r.
  - intros _. split.
    + change (N.of_nat (migrations chunks) ≤ limit)%N. by rewrite li_num0.
    + intros p. change (outgoing chunks p ≤ MAX_MIGRATING_OUT).
      rewrite li_out0. apply li_out_le0.
  - intros Hnone. change (migrations chunks = 0) in Hnone. unfold migrations, keys_of.
    rewrite length_fmap, (elem_of_nil_inv (filter _ _)); [done|].
    intros e [He Hin]%list_elem_of_filter. eapply not_elem_of_nil, li_progress0; [done| |done..].
    rewrite <- li_num0, Hnone. done.
  - intros _. cbn [cs_chunks set_chunks]. by rewrite <- li_select0, app_nil_r.
Qed.
