(* ===== verification/Query.v ===== *)
(** * Queries of the metadata store

    Models [src/src/broker/query.rs]: how the stored chunks are turned into
    the cluster and proxy metadata that the coordinator reads, which proxies
    are free, and the consistency check [check_metadata].  The theorems say
    that no slot is lost or duplicated on the way to the proxies. *)

From S2P Require Import Prelude RangeList RustStr ClusterMeta Store SlotInv.

(** ** Operations *)

Section query.
Context `{HashOrder}.
Implicit Types (s : MetaStore) (chunk : ChunkStore).

Definition get_proxies s : list string := hash_keys (all_proxies s).

Definition paginate {A} (l : list A) (offset limit : option nat) : list A :=
  let it := drop (default 0 offset) l in
  match limit with None => it | Some n => take n it end.

Definition get_proxies_with_pagination s (offset limit : option nat) : list string :=
  paginate (hash_keys (all_proxies s)) offset limit.

Definition get_cluster_store (cls : gmap string ClusterStore) (name : ClusterName)
    (migration_limit : N) : res (option ClusterStore) :=
  match cls !! name with
  | None => Ok None
  | Some c => c' ← limit_migration c migration_limit; Ok (Some c')
  end.

(** The slot ranges shown by the node that serves part [part]. *)
Definition part_slots (chunks : list ChunkStore) chunk (part : nat) : res (list SlotRange) :=
  stable ← expect (arr2_get (ch_stable_slots chunk) part);
  entries ← expect (arr2_get (ch_migrating_slots chunk) part);
  migrating ← omapM (λ e, to_slot_range e chunks) entries;
  Ok (option_list stable ++ migrating).

Definition slot_indices (r : ChunkRolePosition) : nat * nat :=
  match r with
  | Normal => (0, 2)
  | FirstChunkMaster => (0, 1)
  | SecondChunkMaster => (3, 2)
  end.

Definition chunk_node_role (r : ChunkRolePosition) (i : nat) : Role :=
  match r with
  | Normal => if (i mod 2 =? 1) then Replica else Master
  | FirstChunkMaster => if (CHUNK_HALF_NODE_NUM <=? i) then Replica else Master
  | SecondChunkMaster => if (i <? CHUNK_HALF_NODE_NUM) then Replica else Master
  end.

Definition peer_index (i : nat) : nat :=
  match i with 0 => 3 | 1 => 2 | 2 => 1 | _ => 0 end.

(** The loop body of [cluster_store_to_cluster] for node [i] of a chunk. *)
Definition chunk_node (chunks : list ChunkStore) chunk (i : nat) : res Node :=
  address ← expect (arr4_get (ch_node_addresses chunk) i);
  proxy_address ← expect (arr2_get (ch_proxy_addresses chunk) (i / 2));
  let '(first_slot_index, second_slot_index) := slot_indices (ch_role_position chunk) in
  first_slots ← (if (i =? first_slot_index)
                 then part_slots chunks chunk 0 else Ok []);
  second_slots ← (if (i =? second_slot_index)
                  then part_slots chunks chunk 1 else Ok []);
  peer_node ← expect (arr4_get (ch_node_addresses chunk) (peer_index i));
  peer_proxy ← expect (arr2_get (ch_proxy_addresses chunk) (peer_index i / 2));
  let repl := mkReplMeta (chunk_node_role (ch_role_position chunk) i)
                [mkReplPeer peer_node peer_proxy] in
  Ok (mkNode address proxy_address (first_slots ++ second_slots) repl).

Definition cluster_store_to_cluster (cs : ClusterStore) : res Cluster :=
  nodes ← omapM (λ chunk, omapM (chunk_node (cs_chunks cs) chunk) (seq 0 CHUNK_NODE_NUM))
            (cs_chunks cs);
  Ok (mkCluster (cs_name cs) (cs_epoch cs) (mjoin nodes) (cs_config cs)).

(** [Itertools::group_by]: runs of neighbours with the same key. *)
Fixpoint group_by_proxy (ns : list Node) : list (string * list Node) :=
  match ns with
  | [] => []
  | n :: ns' =>
      match group_by_proxy ns' with
      | (a, g) :: gs =>
          if bool_decide (a = node_proxy_address n) then (a, n :: g) :: gs
          else (node_proxy_address n, [n]) :: (a, g) :: gs
      | [] => [(node_proxy_address n, [n])]
      end
  end.

Definition get_proxy_by_address s (address : string) (migration_limit : N)
  : res (option Proxy) :=
  match all_proxies s !! address with
  | None => Ok None
  | Some pr =>
      cluster_opt ← match pr_cluster pr with
                    | None => Ok None
                    | Some name => get_cluster_store (clusters s) name migration_limit
                    end;
      match cluster_opt with
      | None =>
          let nodes := (λ a, mkNode a (pr_proxy_address pr) [] repl_meta_new_free)
                         <$> arr2_list (pr_node_addresses pr) in
          Ok (Some (mkProxy None address (global_epoch s) nodes [] None))
      | Some cs =>
          cluster ← cluster_store_to_cluster cs;
          let nodes := filter (λ n, node_proxy_address n = address) (cluster_nodes cluster) in
          let peers :=
            (λ g, mkPeerProxy g.1 (mjoin (node_slots <$> g.2))) <$>
              group_by_proxy
                (filter (λ n, node_role n = Master ∧ node_proxy_address n ≠ address)
                   (cluster_nodes cluster)) in
          Ok (Some (mkProxy (Some (cluster_name cluster)) address (cluster_epoch cluster)
                      nodes peers (Some (cluster_config cluster))))
      end
  end.

Definition get_cluster_names s : list ClusterName := hash_keys (clusters s).
Definition get_cluster_names_with_pagination s (offset limit : option nat)
  : list ClusterName := paginate (hash_keys (clusters s)) offset limit.

(** The iteration over a [HashSet]. *)
Definition get_failed_proxies s : list string := hash_keys (gset_to_gmap () (failed_proxies s)).

Lemma elem_of_get_failed_proxies s a : a ∈ get_failed_proxies s ↔ a ∈ failed_proxies s.
Proof.
  unfold get_failed_proxies. rewrite elem_of_hash_keys. split.
  - by intros [[] [? _]%lookup_gset_to_gmap_Some].
  - intros Ha. exists (). by apply lookup_gset_to_gmap_Some.
Qed.

Lemma list_to_set_failed s : list_to_set (get_failed_proxies s) = failed_proxies s.
Proof. apply set_eq. intros a. by rewrite elem_of_list_to_set, elem_of_get_failed_proxies. Qed.

Definition get_cluster_by_name s (name : string) (migration_limit : N) : res (option Cluster) :=
  match cluster_name_try_from name with
  | None => Ok None
  | Some name =>
      o ← get_cluster_store (clusters s) name migration_limit;
      match o with
      | None => Ok None
      | Some cs => c ← cluster_store_to_cluster cs; Ok (Some c)
      end
  end.

Definition get_cluster_info_by_name s (name : string) (migration_limit : N)
  : res (option ClusterInfo) :=
  match cluster_name_try_from name with
  | None => Ok None
  | Some name =>
      o ← get_cluster_store (clusters s) name migration_limit;
      match o with None => Ok None | Some cs => Ok (Some (get_info cs)) end
  end.

(** A proxy that is in no cluster and not reported as failed. *)
Definition is_free s (pr : ProxyResource) : bool :=
  bool_decide (pr_cluster pr = None) &&
  negb (bool_decide (pr_proxy_address pr ∈ failed_proxies s)) &&
  negb (bool_decide (is_Some (failures s !! pr_proxy_address pr))).

Definition get_free_proxy_resource s : list ProxyResource :=
  filter (λ pr, is_free s pr = true) (hash_values (all_proxies s)).

Definition get_free_proxies s : list HostProxy :=
  (λ pr, mkHostProxy (pr_host pr) (pr_proxy_address pr)) <$> get_free_proxy_resource s.

(** The body of the first loop of [check_metadata]: the addresses seen in
    the cluster so far and whether the data is correct so far. *)
Definition check_chunk_proxy s (name : ClusterName) (host : string) (nodes : arr2 string)
    (proxy_address : string) (st : gset string * bool) : gset string * bool :=
  let '(seen, ok) := st in
  match all_proxies s !! proxy_address with
  | None => (seen, false)
  | Some pr =>
      ({[proxy_address]} ∪ seen,
       ok && bool_decide (pr_proxy_address pr = proxy_address)
          && bool_decide (pr_cluster pr = Some name)
          && negb (bool_decide (proxy_address ∈ seen))
          && bool_decide (host = pr_host pr)
          && bool_decide (nodes = pr_node_addresses pr))
  end.

Definition check_chunk s (name : ClusterName) (st : gset string * bool) chunk
  : gset string * bool :=
  let n := ch_node_addresses chunk in
  let st := check_chunk_proxy s name (at0 (ch_hosts chunk)) (Arr2 (q0 n) (q1 n))
              (at0 (ch_proxy_addresses chunk)) st in
  check_chunk_proxy s name (at1 (ch_hosts chunk)) (Arr2 (q2 n) (q3 n))
    (at1 (ch_proxy_addresses chunk)) st.

Definition check_cluster s (name : ClusterName) (cs : ClusterStore) : bool :=
  (fold_left (check_chunk s name) (cs_chunks cs) (∅, true)).2.

Definition check_proxy_cluster s (proxy_address : string) (pr : ProxyResource) : bool :=
  match pr_cluster pr with
  | None => true
  | Some name =>
      match clusters s !! name with
      | None => false
      | Some cs =>
          existsb (λ c, bool_decide (proxy_address ∈ arr2_list (ch_proxy_addresses c)))
            (cs_chunks cs)
      end
  end.

Definition check_metadata s : bool :=
  forallb (λ kv, check_cluster s kv.1 kv.2) (hash_iter (clusters s)) &&
  forallb (λ kv, check_proxy_cluster s kv.1 kv.2) (hash_iter (all_proxies s)).

(** [MetaStore::check]. *)
Definition check s : MetaStore + () := if check_metadata s then inr () else inl s.
End query.

(** ** The slots a list of slot ranges owns *)

(** An importing range is owned by its source until the commit. *)
Definition slot_range_cover (s : N) (sr : SlotRange) : nat :=
  if tag_is_importing (sr_tag sr) then 0 else cover s (sr_range_list sr).
Definition node_cover (s : N) (n : Node) : nat :=
  sum_list_with (slot_range_cover s) (node_slots n).
Definition peer_cover (s : N) (p : PeerProxy) : nat :=
  sum_list_with (slot_range_cover s) (peer_slots p).

(** ** Rendering an entry *)

Lemma part_index_lt p r :
  p < 2 → chunk_part_to_proxy_index p r < 2 ∧ chunk_part_to_node_index p r < 4.
Proof. intros. destruct p as [|[|]], r; cbn; lia. Qed.

Lemma arr4_get_lt {A} (x : arr4 A) i : i < 4 → is_Some (arr4_get x i).
Proof. intros. destruct i as [|[|[|[|]]]]; cbn; eauto; lia. Qed.

(** The addresses of the node that serves part [p] of chunk [c]. *)
Definition part_address (c : ChunkStore) (p : nat) : option (string * string) :=
  a ← arr2_get (ch_proxy_addresses c) (chunk_part_to_proxy_index p (ch_role_position c));
  b ← arr4_get (ch_node_addresses c) (chunk_part_to_node_index p (ch_role_position c));
  Some (a, b).

Lemma part_address_Some c p : p < 2 → is_Some (part_address c p).
Proof.
  intros Hp. destruct (part_index_lt p (ch_role_position c) Hp) as [H1 H2].
  unfold part_address. destruct (arr2_get_lt (ch_proxy_addresses c) _ H1) as [a ->].
  destruct (arr4_get_lt (ch_node_addresses c) _ H2) as [b ->]. by eexists.
Qed.

Lemma to_slot_range_inv chunks e sr :
  to_slot_range e chunks = Ok sr →
  ∃ c d sa sb da db, let m := mr_meta e in
    chunks !! ms_src_chunk_index m = Some c ∧ chunks !! ms_dst_chunk_index m = Some d ∧
    part_address c (ms_src_chunk_part m) = Some (sa, sb) ∧
    part_address d (ms_dst_chunk_part m) = Some (da, db) ∧
    sr = mkSlotRange (mr_range_list e)
      ((if mr_is_migrating e then Migrating else Importing)
         (mkMigrationMeta (ms_epoch m) sa sb da db)).
Proof.
  unfold to_slot_range, part_address.
  destruct (chunks !! ms_src_chunk_index _) as [c|]; cbn; [|done].
  destruct (arr2_get (ch_proxy_addresses c) _) as [sa|] eqn:Esa; cbn; [|done].
  destruct (arr4_get (ch_node_addresses c) _) as [sb|] eqn:Esb; cbn; [|done].
  destruct (chunks !! ms_dst_chunk_index _) as [d|]; cbn; [|done].
  destruct (arr2_get (ch_proxy_addresses d) _) as [da|] eqn:Eda; cbn; [|done].
  destruct (arr4_get (ch_node_addresses d) _) as [db|] eqn:Edb; cbn; [|done].
  intros [= <-]. exists c, d, sa, sb, da, db. rewrite Esa, Esb, Eda, Edb. cbn.
  by destruct (mr_is_migrating e).
Qed.

Lemma to_slot_range_Ok chunks e :
  ms_src_chunk_index (mr_meta e) < length chunks → ms_src_chunk_part (mr_meta e) < 2 →
  ms_dst_chunk_index (mr_meta e) < length chunks → ms_dst_chunk_part (mr_meta e) < 2 →
  ∃ sr, to_slot_range e chunks = Ok sr.
Proof.
  intros H1 H2 H3 H4. unfold to_slot_range.
  destruct (lookup_lt_is_Some_2 chunks _ H1) as [c ->].
  destruct (lookup_lt_is_Some_2 chunks _ H3) as [d ->]. cbn.
  destruct (part_index_lt _ (ch_role_position c) H2) as [Hc1 Hc2].
  destruct (part_index_lt _ (ch_role_position d) H4) as [Hd1 Hd2].
  destruct (arr2_get_lt (ch_proxy_addresses c) _ Hc1) as [? ->]. cbn.
  destruct (arr4_get_lt (ch_node_addresses c) _ Hc2) as [? ->]. cbn.
  destruct (arr2_get_lt (ch_proxy_addresses d) _ Hd1) as [? ->]. cbn.
  destruct (arr4_get_lt (ch_node_addresses d) _ Hd2) as [? ->]. cbn. eauto.
Qed.

Lemma to_slot_range_cover s chunks e sr :
  to_slot_range e chunks = Ok sr → slot_range_cover s sr = out_cover s e.
Proof.
  intros (? & ? & ? & ? & ? & ? & _ & _ & _ & _ & ->)%to_slot_range_inv.
  unfold slot_range_cover, out_cover. by destruct (mr_is_migrating e).
Qed.

(** ** The nodes of a chunk *)

Lemma omapM_is_Ok {E A B} (f : A → outcome E B) l :
  (∀ x, x ∈ l → ∃ y, f x = Ok y) → ∃ ys, omapM f l = Ok ys.
Proof.
  induction l as [|x l IH]; intros Hf; cbn; [eauto|].
  destruct (Hf x) as [y ->]; [set_solver|]. cbn.
  destruct IH as [ys ->]; [set_solver|]. cbn. eauto.
Qed.

Lemma part_slots_Ok chunks c p :
  p < 2 → (∀ e, e ∈ chunk_entries c → ∃ sr, to_slot_range e chunks = Ok sr) →
  ∃ l, part_slots chunks c p = Ok l.
Proof.
  intros Hp He. unfold part_slots.
  destruct (arr2_get_lt (ch_stable_slots c) p Hp) as [o ->].
  destruct (arr2_get (ch_migrating_slots c) p) as [es|] eqn:Hes; cbn.
  - destruct (omapM_is_Ok (λ e, to_slot_range e chunks) es) as [l ->]; cbn; [|eauto].
    intros e Hin. apply He. unfold chunk_entries. rewrite elem_of_app.
    destruct p as [|[|]]; cbn in Hes; simplify_eq; auto.
  - destruct (arr2_get_lt (ch_migrating_slots c) p Hp) as [? ?]. congruence.
Qed.

Lemma part_slots_inv chunks c p l :
  part_slots chunks c p = Ok l →
  ∃ o es ms, arr2_get (ch_stable_slots c) p = Some o ∧
    arr2_get (ch_migrating_slots c) p = Some es ∧
    Forall2 (λ e sr, to_slot_range e chunks = Ok sr) es ms ∧ l = option_list o ++ ms.
Proof.
  unfold part_slots. destruct (arr2_get (ch_stable_slots c) p) as [o|]; cbn; [|done].
  destruct (arr2_get (ch_migrating_slots c) p) as [es|]; cbn; [|done].
  destruct (omapM _ es) as [ms| |] eqn:Hms; cbn; [|done..]. intros [= <-].
  exists o, es, ms. split_and!; [done|done|by apply omapM_Ok_inv|done].
Qed.

Lemma rendered_cover s chunks es ms :
  Forall2 (λ e sr, to_slot_range e chunks = Ok sr) es ms →
  sum_list_with (slot_range_cover s) ms = sum_list_with (out_cover s) es.
Proof.
  induction 1 as [|e sr es ms He Hes IH]; cbn [sum_list_with]; [done|].
  by rewrite (to_slot_range_cover _ _ _ _ He), IH.
Qed.

Lemma part_slots_cover s chunks c p l o es :
  part_slots chunks c p = Ok l →
  arr2_get (ch_stable_slots c) p = Some o → arr2_get (ch_migrating_slots c) p = Some es →
  stable_ok o →
  sum_list_with (slot_range_cover s) l = opt_cover s o + sum_list_with (out_cover s) es.
Proof.
  intros (o' & es' & ms & Ho & Hes & Hms & ->)%part_slots_inv Ho' Hes' Hok.
  rewrite Ho' in Ho. rewrite Hes' in Hes. injection Ho as <-. injection Hes as <-.
  rewrite sum_list_with_app, (rendered_cover _ _ _ _ Hms). f_equal.
  destruct o as [sr|]; [|done]. destruct Hok as [Htag _]. cbn.
  unfold slot_range_cover. rewrite Htag. cbn. lia.
Qed.

Lemma chunk_node_inv chunks c i n :
  chunk_node chunks c i = Ok n →
  ∃ l0 l1, node_slots n = l0 ++ l1 ∧
    node_role n = chunk_node_role (ch_role_position c) i ∧
    arr4_get (ch_node_addresses c) i = Some (node_address n) ∧
    arr2_get (ch_proxy_addresses c) (i / 2) = Some (node_proxy_address n) ∧
    (if (i =? (slot_indices (ch_role_position c)).1)
     then part_slots chunks c 0 = Ok l0 else l0 = []) ∧
    (if (i =? (slot_indices (ch_role_position c)).2)
     then part_slots chunks c 1 = Ok l1 else l1 = []).
Proof.
  unfold chunk_node.
  destruct (arr4_get (ch_node_addresses c) i) as [a|]; outcome_simpl; [|done].
  destruct (arr2_get (ch_proxy_addresses c) (i / 2)) as [b|]; outcome_simpl; [|done].
  destruct (slot_indices _) as [f1 f2]. cbn [fst snd].
  destruct (if (i =? f1) then _ else _) as [l0| |] eqn:E0; outcome_simpl; [|done..].
  destruct (if (i =? f2) then _ else _) as [l1| |] eqn:E1; outcome_simpl; [|done..].
  destruct (arr4_get (ch_node_addresses c) (peer_index i)) as [pa|]; outcome_simpl; [|done].
  destruct (arr2_get (ch_proxy_addresses c) (peer_index i / 2)) as [pb|]; outcome_simpl; [|done].
  intros [= <-]. exists l0, l1. split_and!; [done|done|done|done| |].
  - destruct (i =? f1); [done|congruence].
  - destruct (i =? f2); [done|congruence].
Qed.

Lemma chunk_node_Ok chunks c i :
  i < 4 → (∀ p, p < 2 → ∃ l, part_slots chunks c p = Ok l) →
  ∃ n, chunk_node chunks c i = Ok n.
Proof.
  intros Hi Hp. unfold chunk_node.
  destruct (arr4_get_lt (ch_node_addresses c) i Hi) as [a ->]. outcome_simpl.
  assert (i / 2 < 2) as Hi2 by (apply Nat.Div0.div_lt_upper_bound; lia).
  destruct (arr2_get_lt (ch_proxy_addresses c) (i / 2) Hi2) as [b ->]. outcome_simpl.
  destruct (slot_indices _) as [f1 f2].
  destruct (Hp 0) as [l0 H0]; [lia|]. destruct (Hp 1) as [l1 H1]; [lia|]. rewrite H0, H1.
  assert (∃ x, (if (i =? f1) then (Ok l0 : res _) else Ok []) = Ok x) as [x ->]
    by (destruct (i =? f1); eauto).
  assert (∃ y, (if (i =? f2) then (Ok l1 : res _) else Ok []) = Ok y) as [y ->]
    by (destruct (i =? f2); eauto).
  outcome_simpl. destruct i as [|[|[|[|]]]]; try lia; cbn; eauto.
Qed.

Definition chunk_nodes (chunks : list ChunkStore) (c : ChunkStore) : res (list Node) :=
  omapM (chunk_node chunks c) (seq 0 CHUNK_NODE_NUM).

Lemma chunk_nodes_inv chunks c ns :
  chunk_nodes chunks c = Ok ns →
  ∃ n0 n1 n2 n3, ns = [n0; n1; n2; n3] ∧
    chunk_node chunks c 0 = Ok n0 ∧ chunk_node chunks c 1 = Ok n1 ∧
    chunk_node chunks c 2 = Ok n2 ∧ chunk_node chunks c 3 = Ok n3.
Proof.
  intros H%omapM_Ok_inv. cbn in H.
  repeat match goal with H : Forall2 _ (_ :: _) _ |- _ => inversion H; clear H; subst end.
  match goal with H : Forall2 _ [] _ |- _ => inversion H; subst end. eauto 10.
Qed.

(** Together the four nodes show each slot of the chunk as often as the
    chunk owns it, and the replicas show none. *)
Lemma chunk_nodes_cover s chunks c ns :
  chunk_nodes chunks c = Ok ns → chunk_ok c →
  sum_list_with (node_cover s) ns = chunk_cover s c ∧
  Forall (λ n, node_role n = Replica → node_slots n = []) ns.
Proof.
  intros (n0 & n1 & n2 & n3 & -> & H0 & H1 & H2 & H3)%chunk_nodes_inv (Hs0 & Hs1 & _).
  apply chunk_node_inv in H0 as (a0 & b0 & E0 & R0 & _ & _ & A0 & B0).
  apply chunk_node_inv in H1 as (a1 & b1 & E1 & R1 & _ & _ & A1 & B1).
  apply chunk_node_inv in H2 as (a2 & b2 & E2 & R2 & _ & _ & A2 & B2).
  apply chunk_node_inv in H3 as (a3 & b3 & E3 & R3 & _ & _ & A3 & B3).
  unfold node_cover, chunk_cover, chunk_entries. cbn [sum_list_with].
  rewrite E0, E1, E2, E3, !sum_list_with_app.
  pose proof (λ l H, part_slots_cover s chunks c 0 l _ _ H eq_refl eq_refl Hs0) as Hc0.
  pose proof (λ l H, part_slots_cover s chunks c 1 l _ _ H eq_refl eq_refl Hs1) as Hc1.
  destruct (ch_role_position c);
    cbn [slot_indices fst snd Nat.eqb] in A0, A1, A2, A3, B0, B1, B2, B3; subst;
    cbn [sum_list_with app] in *;
    (split;
      [ repeat match goal with
        | H : part_slots _ _ 0 = Ok ?l |- _ =>
            rewrite (Hc0 l H); clear H
        | H : part_slots _ _ 1 = Ok ?l |- _ =>
            rewrite (Hc1 l H); clear H
        end; lia
      | rewrite !Forall_cons, R0, R1, R2, R3, E0, E1, E2, E3; split_and!; done ]).
Qed.

(** *** The addresses of the migration tags *)

(** A slot range shown at node [n]: a well-formed range list, and a tag with
    the addresses of the node. *)
Definition tag_matches_node (n : Node) (sr : SlotRange) : Prop :=
  range_ok (sr_range_list sr) ∧
  match sr_tag sr with
  | Migrating m =>
      mm_src_proxy_address m = node_proxy_address n ∧ mm_src_node_address m = node_address n
  | Importing m =>
      mm_dst_proxy_address m = node_proxy_address n ∧ mm_dst_node_address m = node_address n
  | TagNone => True
  end.

(** What a cluster needs so that rendering part [p] of its chunk [i] tags
    every range with the addresses of the node that shows it. *)
Lemma part_slots_tags chunks i c p l n :
  placed chunks → chunks !! i = Some c → chunk_ok c → part_slots chunks c p = Ok l →
  part_address c p = Some (node_proxy_address n, node_address n) →
  Forall (tag_matches_node n) l.
Proof.
  intros Hp Hi (Hs0 & Hs1 & Hent) (o & es & ms & Ho & Hes & Hms & ->)%part_slots_inv Ha.
  apply Forall_app. split.
  - destruct o as [sr|]; constructor; [|constructor]. unfold tag_matches_node.
    destruct p as [|[|]]; cbn in Ho; simplify_eq.
    + rewrite Ho in Hs0. by destruct Hs0 as [-> ?].
    + rewrite Ho in Hs1. by destruct Hs1 as [-> ?].
  - apply Forall_forall. intros sr Hsr.
    apply list_elem_of_lookup in Hsr as [k Hk].
    destruct (Forall2_lookup_r _ _ _ _ _ Hms Hk) as (e & He & Hsr).
    assert (part_entries chunks i p = Some es) as Hpe
      by (unfold part_entries; rewrite Hi; exact Hes).
    pose proof (Hp _ _ _ _ Hpe (list_elem_of_lookup_2 _ _ _ He)) as Hplace.
    assert (e ∈ chunk_entries c) as Hin.
    { apply list_elem_of_lookup_2 in He. unfold chunk_entries. rewrite elem_of_app.
      destruct p as [|[|]]; cbn in Hes; simplify_eq; auto. }
    pose proof (proj1 (Forall_forall _ _) Hent e Hin) as [Hr _].
    apply to_slot_range_inv in Hsr as (cs & cd & sa & sb & da & db & Hc & Hd & Hsa & Hda & ->).
    unfold entry_place, tag_matches_node in *. cbn [sr_tag sr_range_list]. split; [done|].
    destruct (mr_is_migrating e); injection Hplace as <- <-; cbn; simplify_eq; done.
Qed.

Lemma chunk_node_tags chunks i c k n :
  placed chunks → chunks !! i = Some c → chunk_ok c → chunk_node chunks c k = Ok n →
  Forall (tag_matches_node n) (node_slots n).
Proof.
  intros Hp Hi Hok (l0 & l1 & -> & _ & Ha & Hb & H0 & H1)%chunk_node_inv.
  apply Forall_app. split.
  - destruct (Nat.eqb_spec k (slot_indices (ch_role_position c)).1) as [->|]; [|by subst].
    eapply part_slots_tags; [done..|]. unfold part_address.
    destruct (ch_role_position c); cbn in *; congruence.
  - destruct (Nat.eqb_spec k (slot_indices (ch_role_position c)).2) as [->|]; [|by subst].
    eapply part_slots_tags; [done..|]. unfold part_address.
    destruct (ch_role_position c); cbn in *; congruence.
Qed.

(** *** The migrations a list of slot ranges shows *)

Definition tag_task (migrating : bool) (sr : SlotRange) : option (RangeList * MigrationMeta) :=
  match sr_tag sr, migrating with
  | Migrating m, true | Importing m, false => Some (sr_range_list sr, m)
  | _, _ => None
  end.
Definition tasks_of (migrating : bool) (ns : list Node) : list (RangeList * MigrationMeta) :=
  omap (tag_task migrating) (mjoin (node_slots <$> ns)).

Definition render_meta (chunks : list ChunkStore) (m : MigrationMetaStore) : MigrationMeta :=
  match chunks !! ms_src_chunk_index m ≫= λ c, part_address c (ms_src_chunk_part m),
        chunks !! ms_dst_chunk_index m ≫= λ c, part_address c (ms_dst_chunk_part m) with
  | Some (sa, sb), Some (da, db) => mkMigrationMeta (ms_epoch m) sa sb da db
  | _, _ => mkMigrationMeta 0 "" "" "" ""
  end.
Definition render_key (chunks : list ChunkStore) (k : RangeList * MigrationMetaStore) :=
  (k.1, render_meta chunks k.2).

Lemma to_slot_range_render chunks e sr :
  to_slot_range e chunks = Ok sr →
  sr = mkSlotRange (mr_range_list e)
         ((if mr_is_migrating e then Migrating else Importing) (render_meta chunks (mr_meta e))).
Proof.
  intros (c & d & sa & sb & da & db & Hc & Hd & Ha & Hb & ->)%to_slot_range_inv. f_equal.
  unfold render_meta. rewrite Hc, Hd. cbn [mbind option_bind]. by rewrite Ha, Hb.
Qed.

Lemma rendered_tasks b chunks es ms :
  Forall2 (λ e sr, to_slot_range e chunks = Ok sr) es ms →
  omap (tag_task b) ms = render_key chunks <$> keys_of b es.
Proof.
  induction 1 as [|e sr es ms He _ IH]; [done|].
  rewrite keys_of_cons, fmap_app, <- IH. rewrite (to_slot_range_render _ _ _ He).
  cbn. by destruct (mr_is_migrating e), b.
Qed.

Lemma part_slots_tasks b chunks c p l o es :
  part_slots chunks c p = Ok l →
  arr2_get (ch_stable_slots c) p = Some o → arr2_get (ch_migrating_slots c) p = Some es →
  stable_ok o → omap (tag_task b) l = render_key chunks <$> keys_of b es.
Proof.
  intros (o' & es' & ms & Ho & Hes & Hms & ->)%part_slots_inv Ho' Hes' Hok.
  rewrite Ho' in Ho. rewrite Hes' in Hes. injection Ho as <-. injection Hes as <-.
  rewrite omap_app, (rendered_tasks _ _ _ _ Hms).
  destruct o as [sr|]; [|done]. destruct Hok as [Htag _]. cbn.
  unfold tag_task at 1. by rewrite Htag.
Qed.

Lemma chunk_nodes_tasks b chunks c ns :
  chunk_nodes chunks c = Ok ns → chunk_ok c →
  tasks_of b ns ≡ₚ render_key chunks <$> keys_of b (chunk_entries c).
Proof.
  intros (n0 & n1 & n2 & n3 & -> & H0 & H1 & H2 & H3)%chunk_nodes_inv (Hs0 & Hs1 & _).
  apply chunk_node_inv in H0 as (a0 & b0 & E0 & _ & _ & _ & A0 & B0).
  apply chunk_node_inv in H1 as (a1 & b1 & E1 & _ & _ & _ & A1 & B1).
  apply chunk_node_inv in H2 as (a2 & b2 & E2 & _ & _ & _ & A2 & B2).
  apply chunk_node_inv in H3 as (a3 & b3 & E3 & _ & _ & _ & A3 & B3).
  unfold tasks_of, chunk_entries, keys_of. rewrite filter_app, !fmap_app. cbn [fmap list_fmap mjoin list_join].
  rewrite E0, E1, E2, E3, !omap_app.
  pose proof (λ l H, part_slots_tasks b chunks c 0 l _ _ H eq_refl eq_refl Hs0) as Hc0.
  pose proof (λ l H, part_slots_tasks b chunks c 1 l _ _ H eq_refl eq_refl Hs1) as Hc1.
  destruct (ch_role_position c);
    cbn [slot_indices fst snd Nat.eqb] in A0, A1, A2, A3, B0, B1, B2, B3; subst;
    repeat match goal with
    | H : part_slots _ _ 0 = Ok ?l |- _ => rewrite (Hc0 l H); clear H
    | H : part_slots _ _ 1 = Ok ?l |- _ => rewrite (Hc1 l H); clear H
    end; cbn [omap list_omap app]; rewrite ?app_nil_r; [done|done|apply Permutation_app_comm].
Qed.

(** ** The cluster the broker shows *)

(** What the rendered nodes of a list of chunks look like. *)
Record cluster_view (chunks : list ChunkStore) (ns : list Node) : Prop := {
  cv_cover : ∀ s, sum_list_with (node_cover s) ns = chunks_cover s chunks;
  cv_replicas : Forall (λ n, node_role n = Replica → node_slots n = []) ns;
  cv_tags : Forall (λ n, Forall (tag_matches_node n) (node_slots n)) ns;
  cv_tasks : ∀ b, tasks_of b ns ≡ₚ render_key chunks <$> keys_of b (all_entries chunks);
  cv_addresses : node_address <$> ns =
    mjoin ((λ c, let a := ch_node_addresses c in [q0 a; q1 a; q2 a; q3 a]) <$> chunks);
  cv_proxies : node_proxy_address <$> ns =
    mjoin ((λ c, let a := ch_proxy_addresses c in [at0 a; at0 a; at1 a; at1 a]) <$> chunks);
}.

Lemma tasks_of_app b ns ns' : tasks_of b (ns ++ ns') = tasks_of b ns ++ tasks_of b ns'.
Proof. unfold tasks_of. by rewrite fmap_app, join_app, omap_app. Qed.

Lemma keys_of_app b es es' : keys_of b (es ++ es') = keys_of b es ++ keys_of b es'.
Proof. unfold keys_of. by rewrite filter_app, fmap_app. Qed.

Lemma chunk_nodes_addresses chunks c ns :
  chunk_nodes chunks c = Ok ns →
  node_address <$> ns = (let a := ch_node_addresses c in [q0 a; q1 a; q2 a; q3 a]) ∧
  node_proxy_address <$> ns = let a := ch_proxy_addresses c in [at0 a; at0 a; at1 a; at1 a].
Proof.
  intros (n0 & n1 & n2 & n3 & -> & H0 & H1 & H2 & H3)%chunk_nodes_inv.
  apply chunk_node_inv in H0 as (? & ? & _ & _ & E0 & F0 & _).
  apply chunk_node_inv in H1 as (? & ? & _ & _ & E1 & F1 & _).
  apply chunk_node_inv in H2 as (? & ? & _ & _ & E2 & F2 & _).
  apply chunk_node_inv in H3 as (? & ? & _ & _ & E3 & F3 & _). cbn in *. split; congruence.
Qed.

Lemma chunk_nodes_tags chunks i c ns :
  placed chunks → chunks !! i = Some c → chunk_ok c → chunk_nodes chunks c = Ok ns →
  Forall (λ n, Forall (tag_matches_node n) (node_slots n)) ns.
Proof.
  intros Hp Hi Hok (n0 & n1 & n2 & n3 & -> & H0 & H1 & H2 & H3)%chunk_nodes_inv.
  repeat (constructor; [by eapply chunk_node_tags|]). constructor.
Qed.

Lemma cluster_view_intro chunks nss :
  placed chunks → Forall chunk_ok chunks →
  Forall2 (λ c ns, chunk_nodes chunks c = Ok ns) chunks nss →
  cluster_view chunks (mjoin nss).
Proof.
  intros Hp Hok Hall.
  assert (∀ cs, (∀ c, c ∈ cs → c ∈ chunks) →
    Forall2 (λ c ns, chunk_nodes chunks c = Ok ns) cs nss →
    (∀ s, sum_list_with (node_cover s) (mjoin nss) = chunks_cover s cs) ∧
    Forall (λ n, node_role n = Replica → node_slots n = []) (mjoin nss) ∧
    Forall (λ n, Forall (tag_matches_node n) (node_slots n)) (mjoin nss) ∧
    (∀ b, tasks_of b (mjoin nss) ≡ₚ render_key chunks <$> keys_of b (all_entries cs)) ∧
    node_address <$> mjoin nss =
      mjoin ((λ c, let a := ch_node_addresses c in [q0 a; q1 a; q2 a; q3 a]) <$> cs) ∧
    node_proxy_address <$> mjoin nss =
      mjoin ((λ c, let a := ch_proxy_addresses c in [at0 a; at0 a; at1 a; at1 a]) <$> cs)) as Hgen.
  { clear Hall. intros cs. revert nss. induction cs as [|c cs IH]; intros nss Hin H;
      inversion H as [|? ns ? nss' Hc Hcs]; subst.
    { split_and!; try done; constructor. }
    destruct (IH nss') as (I1 & I2 & I3 & I4 & I5 & I6); [intros; apply Hin; by right|done|].
    assert (c ∈ chunks) as [i Hi]%list_elem_of_lookup by (apply Hin; by left).
    pose proof (Forall_lookup_1 _ _ _ _ Hok Hi) as Hcok. cbn [mjoin list_join].
    destruct (chunk_nodes_cover 0 _ _ _ Hc Hcok) as [_ Hrep]. split_and!.
    - intros s. rewrite sum_list_with_app, I1.
      by rewrite (proj1 (chunk_nodes_cover s _ _ _ Hc Hcok)).
    - by apply Forall_app.
    - apply Forall_app. split; [by eapply chunk_nodes_tags|done].
    - intros b. rewrite tasks_of_app, all_entries_cons, keys_of_app, fmap_app.
      by rewrite (chunk_nodes_tasks _ _ _ _ Hc Hcok), I4.
    - transitivity ((node_address <$> ns) ++ (node_address <$> mjoin nss')); [apply fmap_app|].
      by rewrite I5, (proj1 (chunk_nodes_addresses _ _ _ Hc)).
    - transitivity ((node_proxy_address <$> ns) ++ (node_proxy_address <$> mjoin nss'));
        [apply fmap_app|].
      by rewrite I6, (proj2 (chunk_nodes_addresses _ _ _ Hc)). }
  destruct (Hgen chunks) as (H1 & H2 & H3 & H4 & H5 & H6); [done|done|]. by split.
Qed.

Lemma chunk_nodes_Ok chunks c :
  placed chunks → mirrored chunks → c ∈ chunks → ∃ ns, chunk_nodes chunks c = Ok ns.
Proof.
  intros Hp Hm Hc. apply omapM_is_Ok. intros k Hk%elem_of_seq. unfold CHUNK_NODE_NUM in Hk.
  apply chunk_node_Ok; [lia|]. intros p Hlt. apply part_slots_Ok; [done|].
  intros e He.
  assert (e ∈ all_entries chunks) as Hin.
  { unfold all_entries. apply list_elem_of_join. exists (chunk_entries c).
    split; [done|]. apply list_elem_of_fmap. eauto. }
  destruct (entry_indices _ _ Hp Hm Hin) as (? & ? & ? & ?). by apply to_slot_range_Ok.
Qed.

Lemma cluster_store_to_cluster_Ok cs :
  slots_wf (cs_chunks cs) →
  ∃ ns, cluster_store_to_cluster cs = Ok (mkCluster (cs_name cs) (cs_epoch cs) ns (cs_config cs)) ∧
    cluster_view (cs_chunks cs) ns.
Proof.
  intros [Hpart Hok Hp Hm]. unfold cluster_store_to_cluster.
  destruct (omapM_is_Ok (chunk_nodes (cs_chunks cs)) (cs_chunks cs)) as [nss Hnss].
  { intros c Hc. by apply chunk_nodes_Ok. }
  unfold chunk_nodes in Hnss. rewrite Hnss. outcome_simpl. eexists. split; [done|].
  apply cluster_view_intro; [done..|]. by apply omapM_Ok_inv.
Qed.

(** The migrations are shown in pairs, one at each end. *)
Lemma cluster_view_paired chunks ns :
  cluster_view chunks ns → mirrored chunks → tasks_of true ns ≡ₚ tasks_of false ns.
Proof.
  intros Hv Hm. rewrite !(cv_tasks _ _ Hv). unfold mirrored in Hm. by rewrite Hm.
Qed.

(** ** What a proxy is told *)

Lemma group_by_proxy_cover s ns :
  sum_list_with (peer_cover s)
    ((λ g, mkPeerProxy g.1 (mjoin (node_slots <$> g.2))) <$> group_by_proxy ns) =
  sum_list_with (node_cover s) ns.
Proof.
  assert (∀ gs, sum_list_with (peer_cover s)
      ((λ g, mkPeerProxy g.1 (mjoin (node_slots <$> g.2))) <$> gs) =
    sum_list_with (λ g : string * list Node, sum_list_with (node_cover s) g.2) gs) as ->.
  { induction gs as [|[a g] gs IH]; [done|]. rewrite fmap_cons. cbn [sum_list_with].
    rewrite IH. f_equal. unfold peer_cover. cbn [peer_slots fst snd]. clear.
    induction g as [|n g IH]; [done|]. rewrite fmap_cons. cbn [mjoin list_join sum_list_with].
    rewrite sum_list_with_app. f_equal. exact IH. }
  induction ns as [|n ns IH]; [done|]. cbn [group_by_proxy sum_list_with].
  rewrite <- IH. destruct (group_by_proxy ns) as [|[a g] gs]; [|case_bool_decide];
    cbn [sum_list_with snd]; lia.
Qed.

Lemma sum_filter_split {A} (f : A → nat) (P Q : A → Prop)
    `{∀ x, Decision (P x)} `{∀ x, Decision (Q x)} l :
  Forall (λ x, (P x ∧ Q x → False) ∧ (¬ P x → ¬ Q x → f x = 0)) l →
  sum_list_with f (filter P l) + sum_list_with f (filter Q l) = sum_list_with f l.
Proof.
  induction 1 as [|x l Hx Hl IH]; [done|]. rewrite !filter_cons. cbn [sum_list_with].
  destruct Hx as [H1 H2]. do 2 case_decide; cbn [sum_list_with]; try lia.
  - exfalso. tauto.
  - rewrite H2 by done. lia.
Qed.

(** A proxy sees every slot once: in its own nodes or at one of its peers. *)
Lemma proxy_view_cover s chunks ns address :
  cluster_view chunks ns →
  sum_list_with (node_cover s) (filter (λ n, node_proxy_address n = address) ns) +
  sum_list_with (peer_cover s)
    ((λ g, mkPeerProxy g.1 (mjoin (node_slots <$> g.2))) <$>
       group_by_proxy (filter (λ n, node_role n = Master ∧ node_proxy_address n ≠ address) ns)) =
  chunks_cover s chunks.
Proof.
  intros Hv. rewrite group_by_proxy_cover, <- (cv_cover _ _ Hv).
  apply sum_filter_split. eapply Forall_impl; [apply (cv_replicas _ _ Hv)|].
  cbn. intros n Hn. split; [tauto|]. intros Hne Hm.
  unfold node_cover. rewrite Hn; [done|]. destruct (node_role n); [tauto|done].
Qed.

(** Every cluster of a store has a well-formed slot table. *)
Definition store_slots_wf (s : MetaStore) : Prop :=
  ∀ name cs, clusters s !! name = Some cs → slots_wf (cs_chunks cs).

Lemma get_cluster_store_Ok s name cs limit :
  store_slots_wf s → clusters s !! name = Some cs →
  ∃ cs', get_cluster_store (clusters s) name limit = Ok (Some cs') ∧
    limit_migration cs limit = Ok cs' ∧ slots_wf (cs_chunks cs') ∧
    cs_epoch cs' = cs_epoch cs ∧ cs_name cs' = cs_name cs ∧ cs_config cs' = cs_config cs.
Proof.
  intros Hs Hc. unfold get_cluster_store. rewrite Hc.
  destruct (limit_migration_spec cs limit (Hs _ _ Hc)) as (cs' & H & ? & _ & ? & ? & ? & _).
  rewrite H. exists cs'. by split_and!.
Qed.

(** *** The peers have different addresses

    [group_by] only joins neighbours, so this needs the nodes of a proxy to be
    next to each other. *)
Definition grouped (l : list string) : Prop := ∀ a b, [a; b; a] `sublist_of` l → a = b.

Lemma grouped_sublist l k : l `sublist_of` k → grouped k → grouped l.
Proof. intros Hl Hk a b Hab. apply Hk. by transitivity l. Qed.

Lemma grouped_doubled l : NoDup l → grouped (mjoin ((λ a, [a; a]) <$> l)).
Proof.
  induction 1 as [|x l Hx Hl IH]; intros a b; cbn; [by intros ?%sublist_nil_r|].
  assert (∀ k : list string, k `sublist_of` mjoin ((λ a, [a; a]) <$> l) → x ∉ k) as Hin.
  { intros k Hk Hxk. apply Hx. apply (elem_of_sublist _ _ _ Hxk) in Hk.
    apply list_elem_of_join in Hk as (p & Hp & Hk). apply list_elem_of_fmap in Hk as (y & -> & ?).
    set_solver. }
  intros Hab. apply sublist_cons_r in Hab as [Hab|(k & [= -> <-] & Hab)].
  - apply sublist_cons_r in Hab as [Hab|(k & [= -> <-] & Hab)]; [by apply IH|].
    apply Hin in Hab. set_solver.
  - apply sublist_cons_r in Hab as [Hab|(k & [= -> <-] & Hab)]; [|done].
    apply Hin in Hab. set_solver.
Qed.

Lemma group_by_proxy_elem ns g : g ∈ group_by_proxy ns → ∃ n, n ∈ ns ∧ node_proxy_address n = g.1.
Proof.
  revert g. induction ns as [|n ns IH]; intros g; cbn [group_by_proxy];
    [by intros ?%not_elem_of_nil|].
  destruct (group_by_proxy ns) as [|[a l] gs]; [|case_bool_decide as Ha];
    rewrite ?elem_of_cons; intros Hg; destruct_or?; subst;
    try (exists n; split; [by left|done]);
    try (destruct (IH g) as (n' & ? & ?); [set_solver|]; exists n'; split; [by right|done]);
    set_solver.
Qed.

Lemma group_by_proxy_head n ns : ∃ g gs, group_by_proxy (n :: ns) = (node_proxy_address n, g) :: gs.
Proof.
  cbn. destruct (group_by_proxy ns) as [|[a g] gs]; [by eexists _, _|].
  case_bool_decide; subst; by eexists _, _.
Qed.

Lemma group_by_proxy_nodup ns :
  grouped (node_proxy_address <$> ns) → NoDup (fst <$> group_by_proxy ns).
Proof.
  induction ns as [|n ns IH]; intros Hg; [constructor|].
  assert (grouped (node_proxy_address <$> ns)) as Hg' by (eapply grouped_sublist; [|exact Hg]; by constructor).
  specialize (IH Hg'). destruct ns as [|n' ns]; [apply NoDup_singleton|].
  pose proof (group_by_proxy_head n' ns) as (g & gs & Heq). cbn [group_by_proxy] in *.
  rewrite Heq in *. case_bool_decide as Ha; [done|]. rewrite fmap_cons. apply NoDup_cons. split; [|done].
  cbn. intros [Hin|Hin]%elem_of_cons; [done|].
  apply list_elem_of_fmap in Hin as ([a h] & Hna & Hin). cbn in Hna. subst a.
  destruct (group_by_proxy_elem (n' :: ns) (node_proxy_address n, h)) as (m & Hm & Hma).
  { cbn [group_by_proxy]. rewrite Heq. by right. }
  apply elem_of_cons in Hm as [->|Hm]; [done|]. apply Ha. symmetry. apply Hg. cbn.
  do 2 constructor. apply singleton_sublist_l. apply list_elem_of_fmap. by exists m.
Qed.

Lemma cluster_view_grouped chunks ns :
  cluster_view chunks ns → NoDup (chunk_addresses chunks) → grouped (node_proxy_address <$> ns).
Proof.
  intros Hv Hnd. rewrite (cv_proxies _ _ Hv). apply grouped_doubled in Hnd.
  eapply grouped_sublist; [|exact Hnd]. clear. induction chunks as [|c chunks IH]; [done|].
  cbn. by do 4 constructor.
Qed.

(** What [get_proxy_by_address] tells a registered proxy. *)
Definition proxy_meta_ok s (pr : ProxyResource) (p : Proxy) : Prop :=
  proxy_address p = pr_proxy_address pr ∧
  match pr_cluster pr ≫= λ n, clusters s !! n with
  | None =>
      proxy_cluster_name p = None ∧ proxy_epoch p = global_epoch s ∧ proxy_peers p = [] ∧
      node_address <$> proxy_nodes p = arr2_list (pr_node_addresses pr) ∧
      Forall (λ n, node_slots n = []) (proxy_nodes p)
  | Some cs =>
      proxy_cluster_name p = Some (cs_name cs) ∧ proxy_epoch p = cs_epoch cs ∧
      Forall (λ n, node_proxy_address n = pr_proxy_address pr) (proxy_nodes p) ∧
      Forall (λ q, peer_proxy_address q ≠ pr_proxy_address pr) (proxy_peers p) ∧
      NoDup (peer_proxy_address <$> proxy_peers p) ∧
      Forall (λ n, node_role n = Replica → node_slots n = []) (proxy_nodes p) ∧
      Forall (λ n, Forall (λ sr, range_ok (sr_range_list sr)) (node_slots n)) (proxy_nodes p) ∧
      Forall (λ q, Forall (λ sr, range_ok (sr_range_list sr)) (peer_slots q)) (proxy_peers p) ∧
      proxy_cluster_config p = Some (cs_config cs) ∧
      ∀ slot, sum_list_with (node_cover slot) (proxy_nodes p) +
              sum_list_with (peer_cover slot) (proxy_peers p) = owned_once slot
  end.

Lemma group_by_proxy_slots (P : SlotRange → Prop) ns :
  Forall (λ n, Forall P (node_slots n)) ns →
  Forall (λ q, Forall P (peer_slots q))
    ((λ g, mkPeerProxy g.1 (mjoin (node_slots <$> g.2))) <$> group_by_proxy ns).
Proof.
  intros Hns. rewrite Forall_fmap.
  enough (Forall (λ g, Forall (λ n, Forall P (node_slots n)) g.2) (group_by_proxy ns)) as Hg.
  { eapply Forall_impl; [exact Hg|]. intros g Hn. cbn. apply Forall_join, Forall_fmap. exact Hn. }
  induction Hns as [|n ns Hn Hns IH]; [constructor|]. cbn [group_by_proxy].
  destruct (group_by_proxy ns) as [|[a g] gs]; [by repeat constructor|].
  apply Forall_cons in IH as [Hg Hgs]. case_bool_decide; repeat constructor; done.
Qed.

Lemma filter_Forall {A} (P Q : A → Prop) `{∀ x, Decision (Q x)} l : Forall P l → Forall P (filter Q l).
Proof. rewrite !Forall_forall. intros Hl x [_ Hx]%list_elem_of_filter. by apply Hl. Qed.

Definition store_distinct (s : MetaStore) : Prop :=
  ∀ name cs, clusters s !! name = Some cs → NoDup (chunk_addresses (cs_chunks cs)).

Lemma frames_addresses cs cs' : frames cs' = frames cs → chunk_addresses cs' = chunk_addresses cs.
Proof.
  intros Hf. unfold chunk_addresses. f_equal.
  enough (∀ l, arr2_list ∘ ch_proxy_addresses <$> l = (λ f, arr2_list f.1.1.2) <$> frames l) as Hl
    by by rewrite !Hl, Hf.
  intros l. unfold frames. by rewrite <-list_fmap_compose.
Qed.

Lemma get_proxy_by_address_Ok s address pr limit :
  store_slots_wf s → store_distinct s → all_proxies s !! address = Some pr → pr_proxy_address pr = address →
  ∃ p, get_proxy_by_address s address limit = Ok (Some p) ∧ proxy_meta_ok s pr p.
Proof.
  intros Hs Hd Hp Ha. unfold get_proxy_by_address, proxy_meta_ok. rewrite Hp, Ha.
  destruct (pr_cluster pr) as [n|]; cbn [mbind option_bind].
  2: { outcome_simpl. eexists. split; [done|]. split_and!; try done. by repeat constructor. }
  destruct (clusters s !! n) as [cs|] eqn:Hn.
  2: { unfold get_cluster_store. rewrite Hn. outcome_simpl. eexists. split; [done|].
       split_and!; try done. by repeat constructor. }
  unfold get_cluster_store. rewrite Hn.
  destruct (limit_migration_spec cs limit (Hs _ _ Hn))
    as (cs' & Hlim & Hwf & Hfr & He & Hname & Hconf & _).
  outcome_simpl. rewrite Hlim. outcome_simpl. destruct (cluster_store_to_cluster_Ok cs' Hwf) as (ns & -> & Hv). outcome_simpl.
  eexists. split; [done|]. cbn [proxy_address proxy_cluster_name proxy_epoch proxy_nodes
    proxy_peers proxy_cluster_config cluster_name cluster_epoch cluster_nodes cluster_config].
  pose proof (cv_tags _ _ Hv) as Htags. apply (Forall_impl _ (λ x, Forall (λ sr,
    range_ok (sr_range_list sr)) (node_slots x))) in Htags;
    [|intros x Hx; eapply Forall_impl; [exact Hx|by intros sr [? _]]].
  split_and!.
  - done.
  - by rewrite Hname.
  - done.
  - apply Forall_forall. by intros x [? _]%list_elem_of_filter.
  - apply Forall_fmap, Forall_forall. intros g (x & Hx & Hg)%group_by_proxy_elem.
    apply list_elem_of_filter in Hx as [[_ Hne] _]. cbn. congruence.
  - rewrite <-list_fmap_compose. apply (group_by_proxy_nodup (filter _ ns)).
    eapply grouped_sublist; [apply fmap_sublist, sublist_filter|].
    apply (cluster_view_grouped (cs_chunks cs')); [done|].
    rewrite (frames_addresses _ _ Hfr). by apply (Hd n).
  - apply filter_Forall, (cv_replicas _ _ Hv).
  - by apply filter_Forall.
  - apply group_by_proxy_slots. by apply filter_Forall.
  - by rewrite Hconf.
  - intros slot. rewrite (proxy_view_cover slot (cs_chunks cs')) by done. apply Hwf.
Qed.
