(* ===== verification/Migrate.v ===== *)
(** * Planning and committing slot migrations

    Models [src/src/broker/migrate.rs]: the two planners that cut slots out
    of the source masters ([migrate_slots] to scale out,
    [migrate_slots_to_scale_down] to scale down), [assign_dst_slots],
    [commit_migration] and the balance check it logs with. *)

From S2P Require Import Prelude RangeList RustStr ClusterMeta Store SlotInv.

(** ** The planner's state *)

(** [curr_dst_master_index], [migration_slots], [curr_dst_slots] and
    [curr_slots_num] of the two planners. *)
Record RemoveState : Type := mkRemoveState {
  rs_dst : nat;
  rs_out : list MigrationSlots;
  rs_slots : list Range;
  rs_num : N;
}.

Definition remove_init : RemoveState := mkRemoveState 0 [] [] 0.

(** [for (i, chunk) in chunks.iter_mut().enumerate()] and, inside it,
    [for (j, slots) in chunk.stable_slots.iter_mut().enumerate()]. *)
Fixpoint over_parts
    (f : nat → nat → option SlotRange → RemoveState → res (option SlotRange * RemoveState))
    (i : nat) (chunks : list ChunkStore) (st : RemoveState)
  : res (list ChunkStore * RemoveState) :=
  match chunks with
  | [] => Ok ([], st)
  | c :: rest =>
      '(s0, st) ← f i 0 (at0 (ch_stable_slots c)) st;
      '(s1, st) ← f i 1 (at1 (ch_stable_slots c)) st;
      '(rest, st) ← over_parts f (S i) rest st;
      Ok (set_stable_slots c (Arr2 s0 s1) :: rest, st)
  end.

(** The iterations a [while] loop of a planner can make: each one takes a
    slot from the source or moves on to the next destination. *)
Definition remove_fuel (rl : RangeList) (dst_master_num : nat) : nat :=
  S (N.to_nat (get_slots_num rl) + dst_master_num).

(** ** Scaling out *)

Section scale_out.
Context (epoch : N) (dst_master_num src_chunk_num : nat) (average remainder : N).
Context (src_chunk_index src_chunk_part : nat).

(** The [while] loop for one source master.  Running out of fuel counts as a
    panic. *)
Fixpoint remove_slots_loop (fuel : nat) (rl : RangeList) (st : RemoveState)
  : res (RangeList * RemoveState) :=
  match fuel with
  | 0 => Panic
  | S fuel =>
      if bool_decide (rs_dst st = dst_master_num) then Ok (rl, st) else
      let src_master_index := src_chunk_index * 2 + src_chunk_part in
      let src_r := bool_to_N (N.of_nat src_master_index <? remainder)%N in
      let dst_master_index := src_chunk_num * 2 + rs_dst st in
      let dst_r := bool_to_N (N.of_nat dst_master_index <? remainder)%N in
      let src_final_num := (average + src_r)%N in
      let dst_final_num := (average + dst_r)%N in
      if (get_slots_num rl <=? src_final_num)%N then Ok (rl, st) else
      let need_num := wsub dst_final_num (rs_num st) in
      let available_num := wsub (get_slots_num rl) src_final_num in
      let remove_num := N.min need_num available_num in
      range ← expect (last rl);
      let num := range_len range in
      let '(rl, curr_dst_slots, curr_slots_num) :=
        if (num <=? remove_num)%N then
          (removelast rl, rs_slots st ++ [range], wadd (rs_num st) num)
        else
          let end_ := r_end range in
          let start := wadd (wsub end_ remove_num) 1 in
          (removelast rl ++ [mkRange (r_start range) (wsub end_ remove_num)],
           rs_slots st ++ [mkRange start end_], wadd (rs_num st) remove_num) in
      if (dst_final_num <=? curr_slots_num)%N || (get_slots_num rl <=? src_final_num)%N then
        let migration_slots := rs_out st ++
          [mkMigrationSlots (range_list_new curr_dst_slots)
             (mkMigrationMetaStore epoch src_chunk_index src_chunk_part
                (src_chunk_num + rs_dst st / 2) (rs_dst st mod 2))] in
        let st :=
          if (dst_final_num <=? curr_slots_num)%N
          then mkRemoveState (rs_dst st + 1) migration_slots [] 0
          else mkRemoveState (rs_dst st) migration_slots [] curr_slots_num in
        if (get_slots_num rl <=? src_final_num)%N then Ok (rl, st)
        else remove_slots_loop fuel rl st
      else
        remove_slots_loop fuel rl
          (mkRemoveState (rs_dst st) (rs_out st) curr_dst_slots curr_slots_num)
  end.

Definition remove_slots_part (o : option SlotRange) (st : RemoveState)
  : res (option SlotRange * RemoveState) :=
  match o with
  | None => Ok (None, st)
  | Some sr =>
      '(rl, st) ← remove_slots_loop (remove_fuel (sr_range_list sr) dst_master_num)
                    (sr_range_list sr) st;
      Ok (Some (mkSlotRange rl (sr_tag sr)), st)
  end.
End scale_out.

Definition chunk_without_slots (c : ChunkStore) : bool :=
  bool_decide (at0 (ch_stable_slots c) = None ∧ at1 (ch_stable_slots c) = None).

Definition remove_slots_from_src (chunks : list ChunkStore) (epoch : N)
  : res (list ChunkStore * list MigrationSlots) :=
  let dst_chunk_num := length (filter (λ c, chunk_without_slots c = true) chunks) in
  let dst_master_num := dst_chunk_num * 2 in
  let master_num := length chunks * 2 in
  let src_chunk_num := length chunks - dst_chunk_num in
  if bool_decide (master_num = 0) then Panic else
  let average := (SLOT_NUM / N.of_nat master_num)%N in
  let remainder := (SLOT_NUM - average * N.of_nat master_num)%N in
  '(chunks, st) ← over_parts
     (remove_slots_part epoch dst_master_num src_chunk_num average remainder)
     0 chunks remove_init;
  Ok (chunks, rs_out st).

(** ** Scaling down *)

Section scale_down.
Context (epoch : N) (dst_master_num : nat) (average remainder : N).
Context (dst_existing_slots_num : list N).
Context (src_chunk_index src_chunk_part : nat).

Fixpoint remove_slots_down_loop (fuel : nat) (rl : RangeList) (st : RemoveState)
  : res (RangeList * RemoveState) :=
  match fuel with
  | 0 => Panic
  | S fuel =>
      if bool_decide (rs_dst st = dst_master_num) then Ok (rl, st) else
      let dst_r := bool_to_N (N.of_nat (rs_dst st) <? remainder)%N in
      let dst_final_num := (average + dst_r)%N in
      dst_existing ← expect (dst_existing_slots_num !! rs_dst st);
      let need_num := wsub (wsub dst_final_num (rs_num st)) dst_existing in
      let available_num := get_slots_num rl in
      if bool_decide (available_num = 0%N) then Ok (rl, st) else
      let remove_num := N.min need_num available_num in
      range ← expect (head rl);
      let num := range_len range in
      let '(rl, curr_dst_slots, curr_slots_num) :=
        if (num <=? remove_num)%N then
          (tail rl, rs_slots st ++ [range], wadd (rs_num st) num)
        else
          let start := r_start range in
          let end_ := wsub (wadd remove_num start) 1 in
          (mkRange (wadd start remove_num) (r_end range) :: tail rl,
           rs_slots st ++ [mkRange start end_], wadd (rs_num st) remove_num) in
      if (dst_final_num <=? wadd curr_slots_num dst_existing)%N
         || bool_decide (get_slots_num rl = 0%N) then
        let migration_slots := rs_out st ++
          [mkMigrationSlots (range_list_new curr_dst_slots)
             (mkMigrationMetaStore epoch src_chunk_index src_chunk_part
                (rs_dst st / 2) (rs_dst st mod 2))] in
        let st :=
          if (dst_final_num <=? wadd curr_slots_num dst_existing)%N
          then mkRemoveState (rs_dst st + 1) migration_slots [] 0
          else mkRemoveState (rs_dst st) migration_slots [] curr_slots_num in
        if bool_decide (get_slots_num rl = 0%N) then Ok (rl, st)
        else remove_slots_down_loop fuel rl st
      else
        remove_slots_down_loop fuel rl
          (mkRemoveState (rs_dst st) (rs_out st) curr_dst_slots curr_slots_num)
  end.

(** The source part is emptied whatever the loop left in it. *)
Definition remove_slots_down_part (o : option SlotRange) (st : RemoveState)
  : res (option SlotRange * RemoveState) :=
  match o with
  | None => Ok (None, st)
  | Some sr =>
      '(_, st) ← remove_slots_down_loop (remove_fuel (sr_range_list sr) dst_master_num)
                   (sr_range_list sr) st;
      Ok (None, st)
  end.
End scale_down.

Definition slots_num_of (o : option SlotRange) : N :=
  match o with Some sr => get_slots_num (sr_range_list sr) | None => 0 end.

Definition remove_slots_from_src_to_scale_down (chunks : list ChunkStore) (epoch : N)
    (new_chunk_num : nat) : res (list ChunkStore * list MigrationSlots) :=
  let dst_chunk_num := new_chunk_num in
  let dst_master_num := dst_chunk_num * 2 in
  if bool_decide (dst_master_num = 0) then Panic else
  let average := (SLOT_NUM / N.of_nat dst_master_num)%N in
  let remainder := (SLOT_NUM - average * N.of_nat dst_master_num)%N in
  let dst_existing_slots_num :=
    slots_num_of <$> mjoin (arr2_list ∘ ch_stable_slots <$> take dst_chunk_num chunks) in
  '(srcs, st) ← over_parts
     (remove_slots_down_part epoch dst_master_num average remainder dst_existing_slots_num)
     dst_chunk_num (drop dst_chunk_num chunks) remove_init;
  Ok (take dst_chunk_num chunks ++ srcs, rs_out st).

(** ** Storing the plan *)

Definition assign_one (chunks : list ChunkStore) (m : MigrationSlots) : res (list ChunkStore) :=
  let meta := mg_meta m in
  chunks ← modify_chunk chunks (ms_src_chunk_index meta)
    (push_migrating (ms_src_chunk_part meta)
       (mkMigrationSlotRangeStore (mg_ranges m) true meta));
  modify_chunk chunks (ms_dst_chunk_index meta)
    (push_migrating (ms_dst_chunk_part meta)
       (mkMigrationSlotRangeStore (mg_ranges m) false meta)).

Fixpoint assign_all (chunks : list ChunkStore) (ms : list MigrationSlots)
  : res (list ChunkStore) :=
  match ms with
  | [] => Ok chunks
  | m :: ms => chunks ← assign_one chunks m; assign_all chunks ms
  end.

Definition compact_entry (e : MigrationSlotRangeStore) : MigrationSlotRangeStore :=
  mkMigrationSlotRangeStore (compact (mr_range_list e)) (mr_is_migrating e) (mr_meta e).
Definition compact_stable (o : option SlotRange) : option SlotRange :=
  (λ sr, mkSlotRange (compact (sr_range_list sr)) (sr_tag sr)) <$> o.
Definition compact_slots (chunks : list ChunkStore) : list ChunkStore :=
  (λ c, set_migrating_slots
          (set_stable_slots c (arr2_map compact_stable (ch_stable_slots c)))
          (arr2_map (fmap compact_entry) (ch_migrating_slots c))) <$> chunks.

Definition assign_dst_slots (chunks : list ChunkStore) (ms : list MigrationSlots)
  : res (list ChunkStore) :=
  chunks ← assign_all chunks ms; Ok (compact_slots chunks).

Definition check_running_tasks (cs : ClusterStore) : bool := is_migrating cs.

Definition empty_exists (cs : ClusterStore) : bool :=
  existsb (λ c, existsb (λ o, bool_decide (o = None)) (arr2_list (ch_stable_slots c)))
    (cs_chunks cs).

(** The log lines of [print_migration_slot] render every entry, which panics
    on an index out of range. *)
Definition print_migration_slot (chunks : list ChunkStore) : res () :=
  _ ← omapM (λ e, to_slot_range e chunks) (all_entries chunks); Ok ().

Definition put_cluster (name : ClusterName) (cs : ClusterStore) : SM () := λ s,
  (set_clusters s (<[name := cs]> (clusters s)), Ok ()).

Definition find_cluster (name : ClusterName) : SM ClusterStore :=
  s ← get_store; lift (ok_or (clusters s !! name) ClusterNotFound).

Definition parse_cluster_name (name : string) : SM ClusterName :=
  lift (ok_or (cluster_name_try_from name) InvalidClusterName).

Definition migrate_slots (cluster_name : string) : SM () :=
  name ← parse_cluster_name cluster_name;
  new_epoch ← bump_global_epoch;
  cluster ← find_cluster name;
  if negb (empty_exists cluster) then fail SlotsAlreadyEven
  else if check_running_tasks cluster then fail MigrationRunning
  else
    '(chunks, migration_slots) ← lift (remove_slots_from_src (cs_chunks cluster) new_epoch);
    chunks ← lift (assign_dst_slots chunks migration_slots);
    _ ← put_cluster name (set_epoch (set_chunks cluster chunks) new_epoch);
    lift (print_migration_slot chunks).

Definition migrate_slots_to_scale_down (cluster_name : string) (new_node_num : nat) : SM () :=
  name ← parse_cluster_name cluster_name;
  new_epoch ← bump_global_epoch;
  cluster ← find_cluster name;
  if empty_exists cluster then fail FreeNodeFound
  else if check_running_tasks cluster then fail MigrationRunning
  else if bool_decide (new_node_num = 0 ∨ new_node_num mod CHUNK_NODE_NUM ≠ 0 ∨
                       length (cs_chunks cluster) * CHUNK_NODE_NUM ≤ new_node_num)
  then fail InvalidNodeNum
  else
    let new_chunk_num := new_node_num / 4 in
    '(chunks, migration_slots) ←
      lift (remove_slots_from_src_to_scale_down (cs_chunks cluster) new_epoch new_chunk_num);
    chunks ← lift (assign_dst_slots chunks migration_slots);
    _ ← put_cluster name (set_epoch (set_chunks cluster chunks) new_epoch);
    lift (print_migration_slot chunks).

(** ** Committing a migration *)

(** Every entry with the chunk and part it is stored in. *)
Definition located_entries (chunks : list ChunkStore)
  : list (nat * nat * MigrationSlotRangeStore) :=
  mjoin (imap (λ i c,
    ((λ e, (i, 0, e)) <$> at0 (ch_migrating_slots c)) ++
    ((λ e, (i, 1, e)) <$> at1 (ch_migrating_slots c))) chunks).

Definition tag_epoch (t : SlotRangeTag) : option N :=
  match t with
  | TagNone => None
  | Migrating m => Some (mm_epoch m)
  | Importing m => Some (mm_epoch m)
  end.

(** The part that holds the entry with these ranges, epoch and direction. *)
Definition find_task (chunks : list ChunkStore) (rl : RangeList) (task_epoch : N)
    (migrating : bool) : option (nat * nat) :=
  fst <$> find (λ x, bool_decide (mr_range_list x.2 = rl ∧ ms_epoch (mr_meta x.2) = task_epoch ∧
                                  mr_is_migrating x.2 = migrating)) (located_entries chunks).

Definition is_task (migrating : bool) (rl : RangeList) (meta : MigrationMetaStore)
    (e : MigrationSlotRangeStore) : bool :=
  bool_decide (mr_is_migrating e = migrating ∧ mr_range_list e = rl ∧ mr_meta e = meta).

(** [Vec::retain] on every part: the migrating entry goes away. *)
Definition retain_others (rl : RangeList) (meta : MigrationMetaStore) (c : ChunkStore)
  : ChunkStore :=
  set_migrating_slots c
    (arr2_map (filter (λ e, is_task true rl meta e = false)) (ch_migrating_slots c)).

(** [position] then [Vec::remove]. *)
Fixpoint remove_first {A} (P : A → bool) (l : list A) : option (A * list A) :=
  match l with
  | [] => None
  | x :: l' =>
      if P x then Some (x, l')
      else '(y, r) ← remove_first P l'; Some (y, x :: r)
  end.

(** The [find_map] over the two parts of a chunk. *)
Definition take_importing (rl : RangeList) (meta : MigrationMetaStore) (c : ChunkStore)
  : option (nat * MigrationSlotRangeStore * ChunkStore) :=
  let m := ch_migrating_slots c in
  match remove_first (is_task false rl meta) (at0 m) with
  | Some (e, l) => Some (0, e, set_migrating_slots c (Arr2 l (at1 m)))
  | None =>
      match remove_first (is_task false rl meta) (at1 m) with
      | Some (e, l) => Some (1, e, set_migrating_slots c (Arr2 (at0 m) l))
      | None => None
      end
  end.

Definition commit_stable (j : nat) (rl : RangeList) (c : ChunkStore) : option ChunkStore :=
  o ← arr2_get (ch_stable_slots c) j;
  let sr := match o with
            | Some sr => mkSlotRange (merge_another (sr_range_list sr) rl) (sr_tag sr)
            | None => mkSlotRange rl TagNone
            end in
  Some (set_stable_slots c (arr2_set (ch_stable_slots c) j (Some sr))).

(** The second [for] loop: the first chunk that holds the importing entry
    takes its slots over. *)
Fixpoint commit_importing (rl : RangeList) (meta : MigrationMetaStore)
    (chunks : list ChunkStore) : res (list ChunkStore) :=
  match chunks with
  | [] => Ok []
  | c :: rest =>
      match take_importing rl meta c with
      | Some (j, e, c) =>
          c ← expect (commit_stable j (mr_range_list e) c); Ok (c :: rest)
      | None => rest ← commit_importing rl meta rest; Ok (c :: rest)
      end
  end.

Definition commit_chunks (rl : RangeList) (meta : MigrationMetaStore)
    (chunks : list ChunkStore) : res (list ChunkStore) :=
  chunks ← commit_importing rl meta (retain_others rl meta <$> chunks);
  Ok (compact_slots chunks).

(** [MetaStoreMigrate::commit_migration]. *)
Definition commit_migration_task (task : MigrationTaskMeta) : SM () :=
  s ← get_store;
  let new_epoch := wadd (global_epoch s) 1 in
  let name := mtm_cluster_name task in
  let rl := sr_range_list (mtm_slot_range task) in
  cluster ← find_cluster name;
  task_epoch ← lift (ok_or (tag_epoch (sr_tag (mtm_slot_range task))) InvalidMigrationTask);
  '(si, sp) ← lift (ok_or (find_task (cs_chunks cluster) rl task_epoch true)
                      MigrationTaskNotFound);
  '(di, dp) ← lift (ok_or (find_task (cs_chunks cluster) rl task_epoch false)
                      MigrationTaskNotFound);
  let meta := mkMigrationMetaStore task_epoch si sp di dp in
  chunks ← lift (commit_chunks rl meta (cs_chunks cluster));
  _ ← put_cluster name (set_epoch (set_chunks cluster chunks) new_epoch);
  _ ← bump_global_epoch;
  mret ().

(** ** The balance check *)

(** The errors [check_slots_balance] logs. *)
Inductive BalanceError : Type := ScatteredSlots | ClusterWithoutSlots | UnbalancedSlots.

Definition check_slots_balance (cs : ClusterStore) : list BalanceError :=
  if is_migrating cs then []
  else
    let parts := mjoin (arr2_list ∘ ch_stable_slots <$> cs_chunks cs) in
    let scattered :=
      mjoin ((λ c, if bool_decide (at0 (ch_stable_slots c) = None ∧
                                   at1 (ch_stable_slots c) ≠ None)
                   then [ScatteredSlots] else []) <$> cs_chunks cs) in
    let nums := filter (λ n, 0 < n)%N (slots_num_of <$> parts) in
    match nums with
    | [] => scattered ++ [ClusterWithoutSlots]
    | n :: ns =>
        let mx := foldr N.max n ns in
        let mn := foldr N.min n ns in
        scattered ++ (if (1 <? mx - mn)%N then [UnbalancedSlots] else [])
    end.
