(* ===== verification/Plan.v ===== *)
(** * What the migration planners do

    Both planners of [Migrate.v] walk over the source masters and hand slots
    to one destination after the other, until each destination has its quota.
    [plan_loop] is that walk for one source, with the arithmetic on unbounded
    numbers; the loops of the two planners compute it, one taking ranges from
    the back and one from the front.  The theorems say that no slot is lost
    or duplicated, that the loops terminate without panicking, and that when
    the slots of the sources are exactly what the destinations need, every
    destination gets its quota and every source keeps its share. *)

From S2P Require Import Prelude RangeList RustStr ClusterMeta Store SlotInv Migrate.

(** ** Taking slots from a range list *)

(** [range_len] where nothing wraps. *)
Definition len (r : Range) : N := (r_end r + 1 - r_start r)%N.

Definition take_back (rl : RangeList) (n : N) : option (Range * RangeList) :=
  range ← last rl;
  Some (if (len range <=? n)%N then (range, removelast rl)
        else (mkRange (r_end range - n + 1) (r_end range),
              removelast rl ++ [mkRange (r_start range) (r_end range - n)])).

Definition take_front (rl : RangeList) (n : N) : option (Range * RangeList) :=
  range ← head rl;
  Some (if (len range <=? n)%N then (range, tail rl)
        else (mkRange (r_start range) (r_start range + n - 1),
              mkRange (r_start range + n) (r_end range) :: tail rl)).

(** [r] is a non-empty range of at most [n] slots cut out of [rl]. *)
Record taken (rl : RangeList) (n : N) (r : Range) (rl' : RangeList) : Prop := {
  tk_ok : range_ok rl';
  tk_ordered : (r_start r ≤ r_end r)%N;
  tk_bound : (r_end r < SLOT_NUM)%N;
  tk_cover : ∀ s, cover s rl = cover s rl' + Nat.b2n (in_range s r);
  tk_count : slots_count rl = (slots_count rl' + len r)%N;
  tk_pos : (0 < len r ≤ n)%N;
}.

Lemma range_ok_cons r rl :
  range_ok (r :: rl) ↔
  (r_start r ≤ r_end r)%N ∧ (r_end r < SLOT_NUM)%N ∧
  Forall (λ x, r_end r + 1 < r_start x)%N rl ∧ range_ok rl.
Proof.
  unfold range_ok, compacted, in_bounds. rewrite !Forall_cons. split.
  - intros [[[? ?] [? ?]%StronglySorted_inv] [[? ?] ?]]. split_and!; done.
  - intros (? & ? & ? & [[? ?] ?]). split_and!; try done; [by constructor|lia].
Qed.

Lemma range_ok_app_one rl r :
  range_ok (rl ++ [r]) ↔
  range_ok rl ∧ Forall (λ x, r_end x + 1 < r_start r)%N rl ∧
  (r_start r ≤ r_end r)%N ∧ (r_end r < SLOT_NUM)%N.
Proof.
  induction rl as [|x rl IH]; cbn [app].
  - rewrite range_ok_cons. split; [|intros (? & ? & ? & ?)].
    + intros (? & ? & _ & ?). split_and!; done.
    + split_and!; try done; constructor.
  - rewrite !range_ok_cons, IH, Forall_cons, Forall_app, Forall_singleton. tauto.
Qed.

Lemma slots_count_cons r rl : slots_count (r :: rl) = (len r + slots_count rl)%N.
Proof. done. Qed.

Lemma slots_count_one r : slots_count [r] = len r.
Proof. rewrite slots_count_cons. cbn. lia. Qed.

Lemma slots_count_zero rl : range_ok rl → slots_count rl = 0%N → rl = [].
Proof.
  destruct rl as [|r rl]; [done|]. rewrite range_ok_cons, slots_count_cons.
  unfold len. intros (? & _). lia.
Qed.

Lemma take_back_spec rl n :
  range_ok rl → (0 < n)%N → (n ≤ slots_count rl)%N →
  ∃ r rl', take_back rl n = Some (r, rl') ∧ taken rl n r rl'.
Proof.
  intros Hok Hn Hc. destruct (rl) as [|x l] using rev_ind; [cbn in Hc; lia|]. clear IHl.
  unfold take_back. rewrite last_snoc. cbn [mbind option_bind]. rewrite removelast_last.
  apply range_ok_app_one in Hok as (Hok & Hx & Hord & Hb).
  destruct (N.leb_spec (len x) n).
  - do 2 eexists. split; [done|]. split; try done; unfold len in *.
    + intros s. rewrite cover_app. cbn. lia.
    + rewrite slots_count_app, slots_count_one. unfold len. lia.
    + lia.
  - do 2 eexists. split; [done|]. unfold len in *. split; cbn [r_start r_end].
    + apply range_ok_app_one. cbn. split_and!; [done|done|lia|lia].
    + lia.
    + done.
    + intros s. rewrite !cover_app. cbn [cover]. in_range_lia.
    + rewrite !slots_count_app, !slots_count_one. unfold len. cbn. lia.
    + unfold len. cbn. lia.
Qed.

Lemma take_front_spec rl n :
  range_ok rl → (0 < n)%N → (n ≤ slots_count rl)%N →
  ∃ r rl', take_front rl n = Some (r, rl') ∧ taken rl n r rl'.
Proof.
  intros Hok Hn Hc. destruct rl as [|x l]; [cbn in Hc; lia|].
  unfold take_front. cbn [head tail mbind option_bind].
  apply range_ok_cons in Hok as (Hord & Hb & Hx & Hok).
  destruct (N.leb_spec (len x) n).
  - do 2 eexists. split; [done|]. split; try done; unfold len in *.
    + intros s. cbn [cover]. lia.
    + rewrite slots_count_cons. unfold len. lia.
    + lia.
  - do 2 eexists. split; [done|]. unfold len in *. split; cbn [r_start r_end].
    + apply range_ok_cons. cbn. split_and!; [lia|done|done|done].
    + lia.
    + lia.
    + intros s. cbn [cover]. in_range_lia.
    + rewrite !slots_count_cons. unfold len. cbn. lia.
    + unfold len. cbn. lia.
Qed.

Lemma get_slots_num_ok rl : range_ok rl → get_slots_num rl = slots_count rl.
Proof. intros [? ?]. by apply get_slots_num_compacted. Qed.

Lemma range_ok_count_le rl : range_ok rl → (slots_count rl ≤ SLOT_NUM)%N.
Proof. intros [? ?]. by apply slots_count_le. Qed.

Lemma range_len_ok r :
  (r_start r ≤ r_end r)%N → (r_end r < SLOT_NUM)%N → range_len r = len r.
Proof.
  intros. unfold range_len, len, SLOT_NUM in *.
  rewrite wsub_small, wadd_small; unfold u64_modulus; lia.
Qed.

(** The number of slots is the sum of the covers, so it only depends on them. *)
Fixpoint cover_sum (n : nat) (rs : RangeList) : nat :=
  match n with 0 => 0 | S n => cover (N.of_nat n) rs + cover_sum n rs end.

Lemma cover_sum_one n r :
  (r_start r ≤ r_end r)%N →
  N.of_nat (cover_sum n [r]) =
  (N.min (N.of_nat n) (r_end r + 1) - N.min (N.of_nat n) (r_start r))%N.
Proof.
  intros Hr. induction n as [|n IH]; cbn [cover_sum cover]; [lia|]. in_range_lia.
Qed.

Lemma cover_sum_cons n r rs : cover_sum n (r :: rs) = cover_sum n [r] + cover_sum n rs.
Proof. induction n as [|n IH]; cbn [cover_sum cover] in *; lia. Qed.

Lemma cover_sum_count n rs :
  Forall (λ r, r_start r ≤ r_end r ∧ r_end r < N.of_nat n)%N rs →
  N.of_nat (cover_sum n rs) = slots_count rs.
Proof.
  induction 1 as [|r rs [Hr Hn] Hrs IH].
  - clear. induction n; cbn in *; lia.
  - rewrite cover_sum_cons, slots_count_cons, Nat2N.inj_add, IH, cover_sum_one by done.
    unfold len. lia.
Qed.

Lemma cover_sum_ext n rs rs' :
  (∀ s, cover s rs = cover s rs') → cover_sum n rs = cover_sum n rs'.
Proof. intros H. induction n as [|n IH]; cbn; [done|]. by rewrite H, IH. Qed.

Lemma slots_count_cover rs rs' :
  in_bounds rs → Forall (λ r, r_start r ≤ r_end r)%N rs →
  in_bounds rs' → Forall (λ r, r_start r ≤ r_end r)%N rs' →
  (∀ s, cover s rs = cover s rs') → slots_count rs = slots_count rs'.
Proof.
  intros Hb Ho Hb' Ho' Hc.
  assert (∀ l, in_bounds l → Forall (λ r, r_start r ≤ r_end r)%N l →
    N.of_nat (cover_sum (N.to_nat SLOT_NUM) l) = slots_count l) as Hl.
  { intros l H1 H2. apply cover_sum_count. rewrite N2Nat.id.
    unfold in_bounds in H1. rewrite Forall_forall in *. intros r Hr.
    split; [by apply H2|by apply H1]. }
  rewrite <- !Hl by done. by rewrite (cover_sum_ext _ _ _ Hc).
Qed.

(** ** The walk *)

Definition qsum (quota : nat → N) (n : nat) : N := foldr N.add 0%N (quota <$> seq 0 n).

Lemma qsum_S quota n : qsum quota (S n) = (qsum quota n + quota n)%N.
Proof.
  unfold qsum. rewrite seq_S, fmap_app. cbn.
  induction (quota <$> seq 0 n) as [|x l IH]; cbn; lia.
Qed.

Definition plan_cover (s : N) (ms : list MigrationSlots) : nat :=
  sum_list_with (λ m, cover s (mg_ranges m)) ms.
Definition plan_count (ms : list MigrationSlots) : N :=
  foldr (λ m acc, slots_count (mg_ranges m) + acc)%N 0%N ms.

Definition dst_place (m : MigrationSlots) : nat * nat :=
  (ms_dst_chunk_index (mg_meta m), ms_dst_chunk_part (mg_meta m)).
Definition src_place (m : MigrationSlots) : nat * nat :=
  (ms_src_chunk_index (mg_meta m), ms_src_chunk_part (mg_meta m)).

(** How many slots a plan sends to the part at [p]. *)
Definition received (ms : list MigrationSlots) (p : nat * nat) : N :=
  foldr (λ m acc, (if decide (dst_place m = p) then slots_count (mg_ranges m) else 0) + acc)%N
    0%N ms.

Lemma plan_cover_app s a b : plan_cover s (a ++ b) = plan_cover s a + plan_cover s b.
Proof. apply sum_list_with_app. Qed.
Lemma plan_count_app a b : plan_count (a ++ b) = (plan_count a + plan_count b)%N.
Proof. unfold plan_count. induction a; cbn [app foldr] in *; lia. Qed.
Lemma received_app a b p : received (a ++ b) p = (received a p + received b p)%N.
Proof. unfold received. induction a; cbn [app foldr] in *; lia. Qed.

(** ** Masters

    Master [k] of a cluster is part [k mod 2] of chunk [k / 2]. *)
Fixpoint masters (chunks : list ChunkStore) : list (option SlotRange) :=
  match chunks with
  | [] => []
  | c :: chunks => at0 (ch_stable_slots c) :: at1 (ch_stable_slots c) :: masters chunks
  end.

Definition part_count (o : option SlotRange) : N :=
  match o with Some sr => slots_count (sr_range_list sr) | None => 0 end.
Definition parts_count (l : list (option SlotRange)) : N :=
  foldr (λ o acc, part_count o + acc)%N 0%N l.

Section plan.
Context (take_ : RangeList → N → option (Range * RangeList)).
Context (epoch : N) (base dst_num : nat) (quota : nat → N).

(** The part that destination [k] is. *)
Definition dst_part (k : nat) : nat * nat := (base + k / 2, k mod 2).

Lemma dst_part_inj k k' : dst_part k = dst_part k' → k = k'.
Proof.
  unfold dst_part. intros [H1 H2]%pair_equal_spec.
  pose proof (Nat.div_mod_eq k 2). pose proof (Nat.div_mod_eq k' 2). lia.
Qed.

Section source.
Context (keep : N) (i j : nat).

Fixpoint plan_loop (fuel : nat) (rl : RangeList) (st : RemoveState)
  : res (RangeList * RemoveState) :=
  match fuel with
  | 0 => Panic
  | S fuel =>
      if bool_decide (rs_dst st = dst_num) then Ok (rl, st) else
      if (slots_count rl <=? keep)%N then Ok (rl, st) else
      let q := quota (rs_dst st) in
      '(r, rl) ← expect (take_ rl (N.min (q - rs_num st) (slots_count rl - keep)));
      let slots := rs_slots st ++ [r] in
      let num := (rs_num st + len r)%N in
      if (q <=? num)%N || (slots_count rl <=? keep)%N then
        let out := rs_out st ++
          [mkMigrationSlots (compact slots)
             (mkMigrationMetaStore epoch i j (dst_part (rs_dst st)).1 (dst_part (rs_dst st)).2)] in
        let st := if (q <=? num)%N then mkRemoveState (rs_dst st + 1) out [] 0
                  else mkRemoveState (rs_dst st) out [] num in
        if (slots_count rl <=? keep)%N then Ok (rl, st) else plan_loop fuel rl st
      else plan_loop fuel rl (mkRemoveState (rs_dst st) (rs_out st) slots num)
  end.
End source.

Hypothesis take_spec : ∀ rl n, range_ok rl → (0 < n)%N → (n ≤ slots_count rl)%N →
  ∃ r rl', take_ rl n = Some (r, rl') ∧ taken rl n r rl'.
Hypothesis quota_pos : ∀ k, k < dst_num → (0 < quota k)%N.

(** A migration of the plan out of part [(i, j)]. *)
Record planned (i j : nat) (m : MigrationSlots) : Prop := {
  pl_ok : range_ok (mg_ranges m);
  pl_nonempty : mg_ranges m ≠ [];
  pl_epoch : ms_epoch (mg_meta m) = epoch;
  pl_src : src_place m = (i, j);
  pl_dst : ∃ k, k < dst_num ∧ dst_place m = dst_part k;
}.

(** What destination [k] has got in state [st]. *)
Definition filled (st : RemoveState) (k : nat) : N :=
  if decide (k < rs_dst st) then quota k
  else if decide (k = rs_dst st) then rs_num st else 0.

Record plan_inv (st : RemoveState) : Prop := {
  pi_le : rs_dst st ≤ dst_num;
  pi_num : rs_dst st < dst_num → (rs_num st < quota (rs_dst st))%N;
  pi_end : rs_dst st = dst_num → rs_num st = 0%N;
  pi_received : ∀ k, (received (rs_out st) (dst_part k) +
    (if decide (k = rs_dst st) then slots_count (rs_slots st) else 0) = filled st k)%N;
  pi_total : (plan_count (rs_out st) + slots_count (rs_slots st) =
    qsum quota (rs_dst st) + rs_num st)%N;
}.

Lemma plan_inv_push st r :
  plan_inv st → rs_dst st < dst_num → (rs_num st + len r < quota (rs_dst st))%N →
  plan_inv (mkRemoveState (rs_dst st) (rs_out st) (rs_slots st ++ [r]) (rs_num st + len r)).
Proof.
  intros [] Hlt Hq. split; cbn [rs_dst rs_out rs_slots rs_num]; try done; [lia| |].
  - intros k. specialize (pi_received0 k). unfold filled in *. cbn [rs_dst rs_num].
    rewrite slots_count_app, slots_count_one. repeat case_decide; lia.
  - rewrite slots_count_app, slots_count_one. lia.
Qed.

(** The current slots are sent off as one migration. *)
Lemma plan_inv_flush st r ranges i j :
  plan_inv st → rs_dst st < dst_num → (rs_num st + len r ≤ quota (rs_dst st))%N →
  slots_count ranges = slots_count (rs_slots st ++ [r]) →
  let m := mkMigrationSlots ranges
    (mkMigrationMetaStore epoch i j (dst_part (rs_dst st)).1 (dst_part (rs_dst st)).2) in
  plan_inv (if (quota (rs_dst st) <=? rs_num st + len r)%N
            then mkRemoveState (rs_dst st + 1) (rs_out st ++ [m]) [] 0
            else mkRemoveState (rs_dst st) (rs_out st ++ [m]) [] (rs_num st + len r)).
Proof.
  intros [] Hlt Hq Hr m. rewrite slots_count_app, slots_count_one in Hr.
  assert (∀ k, received [m] (dst_part k) =
    if decide (k = rs_dst st) then slots_count ranges else 0%N) as Hrec.
  { intros k. unfold received. cbn [foldr].
    assert (dst_place m = dst_part (rs_dst st)) as -> by done.
    do 2 case_decide; cbn [mg_ranges m]; subst; try done; try lia.
    by exfalso; apply H0, dst_part_inj. }
  assert (plan_count [m] = slots_count ranges) as Hcount
    by (unfold plan_count; cbn [foldr]; by rewrite N.add_0_r).
  destruct (N.leb_spec (quota (rs_dst st)) (rs_num st + len r));
    split; cbn [rs_dst rs_out rs_slots rs_num].
  - lia.
  - intros. by apply quota_pos.
  - done.
  - intros k. specialize (pi_received0 k). rewrite received_app, Hrec.
    unfold filled in *. cbn [rs_dst rs_num]. change (slots_count []) with 0%N.
    repeat case_decide; subst; lia.
  - rewrite plan_count_app, Hcount, Nat.add_1_r, qsum_S. change (slots_count []) with 0%N. lia.
  - lia.
  - done.
  - lia.
  - intros k. specialize (pi_received0 k). rewrite received_app, Hrec.
    unfold filled in *. cbn [rs_dst rs_num]. change (slots_count []) with 0%N.
    repeat case_decide; subst; lia.
  - rewrite plan_count_app, Hcount. change (slots_count []) with 0%N. lia.
Qed.

(** The ranges collected for the current destination. *)
Definition pending_ok (rl : RangeList) (slots : list Range) : Prop :=
  in_bounds slots ∧ Forall (λ r, r_start r ≤ r_end r)%N slots ∧
  ∀ s, cover s rl + cover s slots ≤ 1.

Lemma pending_taken rl n r rl' slots :
  pending_ok rl slots → taken rl n r rl' → pending_ok rl' (slots ++ [r]).
Proof.
  intros (Hb & Ho & Hc) []. split_and!.
  - apply Forall_app. split; [done|]. constructor; [lia|constructor].
  - apply Forall_app. split; [done|]. by constructor.
  - intros s. specialize (Hc s). rewrite cover_app. cbn [cover].
    rewrite (tk_cover0 s) in Hc. lia.
Qed.

Lemma pending_compact rl slots :
  pending_ok rl slots → slots ≠ [] →
  range_ok (compact slots) ∧ compact slots ≠ [] ∧
  slots_count (compact slots) = slots_count slots ∧
  ∀ s, cover s (compact slots) = cover s slots.
Proof.
  intros (Hb & Ho & Hc) Hne.
  destruct (compact_disjoint slots) as [Hok Hcov]; [done|done|intros s; specialize (Hc s); lia|].
  split_and!; [done| | |done].
  - destruct slots as [|r slots]; [done|]. intros H.
    specialize (Hcov (r_start r)). rewrite H in Hcov. cbn [cover] in Hcov.
    apply Forall_cons in Ho as [Ho _]. in_range_lia.
  - apply slots_count_cover; [apply Hok|apply Hok|done..].
Qed.

Section loop.
Context (keep : N) (i j : nat).

(** What the walk over one source guarantees. *)
Record walked (rl : RangeList) (st : RemoveState) (rl' : RangeList) (st' : RemoveState)
    (new : list MigrationSlots) : Prop := {
  wk_inv : plan_inv st';
  wk_ok : range_ok rl';
  wk_slots : rs_slots st' = [];
  wk_out : rs_out st' = rs_out st ++ new;
  wk_new : Forall (planned i j) new;
  wk_cover : ∀ s, cover s rl + cover s (rs_slots st) = cover s rl' + plan_cover s new;
  wk_count : (slots_count rl + slots_count (rs_slots st) = slots_count rl' + plan_count new)%N;
  wk_dst : rs_dst st ≤ rs_dst st';
  wk_done : rs_dst st' = dst_num ∨ (slots_count rl' ≤ keep)%N;
  wk_keep : (N.min (slots_count rl) keep ≤ slots_count rl')%N;
}.

Lemma walked_stop rl st :
  plan_inv st → range_ok rl → rs_slots st = [] →
  rs_dst st = dst_num ∨ (slots_count rl ≤ keep)%N → walked rl st rl st [].
Proof.
  intros Hinv Hok Hs Hend. split; try done.
  - by rewrite app_nil_r.
  - intros s. rewrite Hs. cbn. lia.
  - rewrite Hs. cbn. lia.
  - lia.
Qed.

Lemma walked_push rl n r rl1 st rl' st' new :
  taken rl n r rl1 → (n ≤ slots_count rl - keep)%N → (keep < slots_count rl)%N →
  walked rl1 (mkRemoveState (rs_dst st) (rs_out st) (rs_slots st ++ [r]) (rs_num st + len r))
    rl' st' new →
  walked rl st rl' st' new.
Proof.
  intros [] Hn Hk []. cbn [rs_dst rs_out rs_slots rs_num] in *. split; try done.
  - intros s. rewrite <- wk_cover0, cover_app, (tk_cover0 s). cbn [cover]. lia.
  - rewrite slots_count_app, slots_count_one in *. lia.
  - lia.
Qed.

(** The state after the current slots are sent off. *)
Definition flushed (st : RemoveState) (r : Range) : RemoveState :=
  let out := rs_out st ++
    [mkMigrationSlots (compact (rs_slots st ++ [r]))
       (mkMigrationMetaStore epoch i j (dst_part (rs_dst st)).1 (dst_part (rs_dst st)).2)] in
  if (quota (rs_dst st) <=? rs_num st + len r)%N then mkRemoveState (rs_dst st + 1) out [] 0
  else mkRemoveState (rs_dst st) out [] (rs_num st + len r).

Lemma walked_flush rl n r rl1 st rl' st' new :
  taken rl n r rl1 → (n ≤ slots_count rl - keep)%N → (keep < slots_count rl)%N →
  rs_dst st < dst_num → pending_ok rl (rs_slots st) →
  walked rl1 (flushed st r) rl' st' new →
  ∃ new', walked rl st rl' st' new'.
Proof.
  intros Htk Hn Hk Hdst Hp []. pose proof Htk as [].
  destruct (pending_compact _ _ (pending_taken _ _ _ _ _ Hp Htk)) as (Hok & Hne & Hcnt & Hcov);
    [by destruct (rs_slots st)|].
  set (m := mkMigrationSlots (compact (rs_slots st ++ [r]))
    (mkMigrationMetaStore epoch i j (dst_part (rs_dst st)).1 (dst_part (rs_dst st)).2)) in *.
  assert (rs_out (flushed st r) = rs_out st ++ [m] ∧ rs_slots (flushed st r) = [] ∧
    rs_dst st ≤ rs_dst (flushed st r)) as (Hout & Hs & Hd)
    by (unfold flushed; destruct (_ <=? _)%N; cbn; split_and!; done || lia).
  rewrite Hout, Hs in *. exists (m :: new). split; try done.
  - by rewrite wk_out0, <- app_assoc.
  - constructor; [|done]. split; try done. exists (rs_dst st). by split.
  - intros s. specialize (wk_cover0 s). unfold plan_cover in *. cbn [sum_list_with mg_ranges m].
    change (cover s (mg_ranges m)) with (cover s (compact (rs_slots st ++ [r]))).
    rewrite Hcov, cover_app, (tk_cover0 s). cbn [cover] in *. lia.
  - unfold plan_count in *. cbn [foldr].
    change (slots_count (mg_ranges m)) with (slots_count (compact (rs_slots st ++ [r]))).
    rewrite Hcnt, slots_count_app, slots_count_one. change (slots_count []) with 0%N in *. lia.
  - lia.
  - lia.
Qed.

Lemma plan_inv_flushed st r :
  plan_inv st → rs_dst st < dst_num → (rs_num st + len r ≤ quota (rs_dst st))%N →
  slots_count (compact (rs_slots st ++ [r])) = slots_count (rs_slots st ++ [r]) →
  plan_inv (flushed st r).
Proof. intros. unfold flushed. by apply plan_inv_flush. Qed.

Lemma plan_loop_spec fuel : ∀ rl st,
  plan_inv st → range_ok rl → pending_ok rl (rs_slots st) →
  (rs_slots st ≠ [] → rs_dst st < dst_num ∧ (keep < slots_count rl)%N) →
  (slots_count rl < N.of_nat fuel)%N →
  ∃ rl' st' new, plan_loop keep i j fuel rl st = Ok (rl', st') ∧ walked rl st rl' st' new.
Proof.
  induction fuel as [|fuel IH]; intros rl st Hinv Hok Hp Hpend Hfuel; [lia|]. cbn [plan_loop].
  case_bool_decide as Hdst.
  { exists rl, st, []. split; [done|]. apply walked_stop; auto.
    destruct (rs_slots st); [done|]. destruct Hpend; [done|lia]. }
  pose proof (pi_le _ Hinv). assert (rs_dst st < dst_num) as Hlt by lia.
  destruct (N.leb_spec (slots_count rl) keep) as [Hk|Hk].
  { exists rl, st, []. split; [done|]. apply walked_stop; auto.
    destruct (rs_slots st); [done|]. destruct Hpend; [done|lia]. }
  pose proof (pi_num _ Hinv Hlt) as Hnum.
  destruct (take_spec rl (N.min (quota (rs_dst st) - rs_num st) (slots_count rl - keep)))
    as (r & rl1 & Htake & Htk); [done|lia|lia|].
  rewrite Htake. outcome_simpl. pose proof Htk as [].
  pose proof (pending_taken _ _ _ _ _ Hp Htk) as Hp1.
  destruct (pending_compact _ _ Hp1) as (_ & _ & Hcnt & _); [by destruct (rs_slots st)|].
  assert (plan_inv (flushed st r)) as Hinv1 by (apply plan_inv_flushed; done || lia).
  assert (pending_ok rl1 []) as Hp0.
  { split_and!; [constructor..|]. intros s. destruct tk_ok0 as [Hcomp _].
    pose proof (compacted_cover_le s _ Hcomp). cbn. lia. }
  fold (flushed st r).
  assert (rs_slots (flushed st r) = []) as Hfs
    by (unfold flushed; by destruct (_ <=? _)%N).
  destruct (N.leb_spec (slots_count rl1) keep) as [Hk1|Hk1];
    [rewrite orb_true_r|rewrite orb_false_r].
  - destruct (walked_flush rl _ r rl1 st rl1 (flushed st r) [] Htk) as [new Hw]; try done; [lia| |].
    { apply walked_stop; auto. }
    eauto.
  - destruct (N.leb_spec (quota (rs_dst st)) (rs_num st + len r)) as [Hq|Hq].
    + destruct (IH rl1 (flushed st r)) as (rl' & st' & new & Heq & Hw);
        [done|done|by rewrite Hfs|by rewrite Hfs|lia|].
      destruct (walked_flush rl _ r rl1 st rl' st' new Htk) as [new' Hw']; try done; [lia|].
      exists rl', st', new'. split; [|done]. rewrite <- Heq.
      unfold flushed. destruct (N.leb_spec (quota (rs_dst st)) (rs_num st + len r)); [done|lia].
    + destruct (IH rl1 (mkRemoveState (rs_dst st) (rs_out st) (rs_slots st ++ [r])
        (rs_num st + len r))) as (rl' & st' & new & Heq & Hw).
      * by apply plan_inv_push.
      * done.
      * done.
      * cbn. intros _. split; [done|lia].
      * lia.
      * exists rl', st', new. split; [done|]. eapply walked_push; [done|lia|lia|done].
Qed.
End loop.

(** *** All sources *)

(** The number of slots each master keeps, by its index. *)
Context (keep : nat → N).

(** What a source part looks like before and after its walk. *)
Definition part_rel (k : N) (o o' : option SlotRange) : Prop :=
  match o, o' with
  | None, None => True
  | Some sr, Some sr' =>
      sr_tag sr' = sr_tag sr ∧ range_ok (sr_range_list sr') ∧
      (N.min (slots_count (sr_range_list sr)) k ≤ slots_count (sr_range_list sr'))%N
  | _, _ => False
  end.

Fixpoint parts_rel (k : nat) (l l' : list (option SlotRange)) : Prop :=
  match l, l' with
  | [], [] => True
  | o :: l, o' :: l' => part_rel (keep k) o o' ∧ parts_rel (S k) l l'
  | _, _ => False
  end.

Fixpoint keep_sum (k : nat) (l : list (option SlotRange)) : N :=
  match l with
  | [] => 0
  | o :: l => (match o with Some _ => keep k | None => 0 end) + keep_sum (S k) l
  end.

Record parts_walked (k : nat) (l : list (option SlotRange)) (st : RemoveState)
    (l' : list (option SlotRange)) (st' : RemoveState) (new : list MigrationSlots) : Prop := {
  pw_inv : plan_inv st';
  pw_slots : rs_slots st' = [];
  pw_out : rs_out st' = rs_out st ++ new;
  pw_new : Forall (λ m, ∃ i j sr, j < 2 ∧ k ≤ i * 2 + j ∧ l !! (i * 2 + j - k) = Some (Some sr) ∧ planned i j m) new;
  pw_cover : ∀ s, sum_list_with (opt_cover s) l =
    sum_list_with (opt_cover s) l' + plan_cover s new;
  pw_count : parts_count l = (parts_count l' + plan_count new)%N;
  pw_dst : rs_dst st ≤ rs_dst st';
  pw_done : rs_dst st' = dst_num ∨ (parts_count l' ≤ keep_sum k l)%N;
  pw_rel : parts_rel k l l';
}.

Lemma parts_walked_nil k st : plan_inv st → rs_slots st = [] → parts_walked k [] st [] st [].
Proof.
  intros. split; try done; [by rewrite app_nil_r|right; cbn; lia].
Qed.

Lemma parts_walked_cons k o st o' st1 new1 l l' st' new :
  parts_walked k [o] st [o'] st1 new1 → parts_walked (S k) l st1 l' st' new →
  parts_walked k (o :: l) st (o' :: l') st' (new1 ++ new).
Proof.
  intros [] []. cbn [length] in *. split; try done.
  - by rewrite pw_out1, pw_out0, app_assoc.
  - apply Forall_app. cbn [length]. split.
    + eapply Forall_impl; [exact pw_new0|]. intros m (i & j & sr & ? & ? & Hl & ?).
      exists i, j, sr. split_and!; try done. by destruct (i * 2 + j - k).
    + eapply Forall_impl; [exact pw_new1|]. intros m (i & j & sr & ? & ? & Hl & ?).
      exists i, j, sr. split_and!; try (done || lia).
      by replace (i * 2 + j - k) with (S (i * 2 + j - S k)) by lia.
  - intros s. specialize (pw_cover0 s). specialize (pw_cover1 s).
    cbn [sum_list_with] in *. rewrite plan_cover_app. lia.
  - unfold parts_count in *. cbn [foldr] in *. rewrite plan_count_app. lia.
  - lia.
  - destruct pw_done1 as [?|Hd1]; [by left|].
    destruct (decide (rs_dst st' = dst_num)) as [?|Hne]; [by left|]. right.
    destruct pw_done0 as [Hd0|Hd0].
    + pose proof (pi_le _ pw_inv1). lia.
    + unfold parts_count in *. cbn [foldr keep_sum] in *. lia.
  - destruct pw_rel0 as [? _]. by split.
Qed.

(** A part that stays as it is. *)
Lemma parts_walked_none k st :
  plan_inv st → rs_slots st = [] → parts_walked k [None] st [None] st [].
Proof.
  intros. split; try done; [by rewrite app_nil_r|right; cbn; lia].
Qed.

Lemma parts_walked_some i j sr st rl' st' new :
  j < 2 → rs_slots st = [] →
  walked (keep (i * 2 + j)) i j (sr_range_list sr) st rl' st' new →
  parts_walked (i * 2 + j) [Some sr] st [Some (mkSlotRange rl' (sr_tag sr))] st' new.
Proof.
  intros Hj Hs []. rewrite Hs in *. split; try done.
  - eapply Forall_impl; [exact wk_new0|]. intros m ?. exists i, j, sr.
    split_and!; try (done || lia). by replace (i * 2 + j - (i * 2 + j)) with 0 by lia.
  - intros s. specialize (wk_cover0 s). cbn [sum_list_with opt_cover sr_range_list cover] in *. lia.
  - unfold parts_count. cbn [foldr part_count sr_range_list]. change (slots_count []) with 0%N in *. lia.
  - destruct wk_done0; [by left|right]. unfold parts_count.
    cbn [foldr part_count sr_range_list keep_sum]. lia.
Qed.

Section over_parts.
Context (f : nat → nat → option SlotRange → RemoveState → res (option SlotRange * RemoveState)).
Hypothesis Hf : ∀ i j o st, j < 2 → stable_ok o → plan_inv st → rs_slots st = [] →
  ∃ o' st' new, f i j o st = Ok (o', st') ∧ parts_walked (i * 2 + j) [o] st [o'] st' new.

Lemma over_parts_spec cs : ∀ i st,
  Forall chunk_ok cs → plan_inv st → rs_slots st = [] →
  ∃ cs' st' new, over_parts f i cs st = Ok (cs', st') ∧
    parts_walked (i * 2) (masters cs) st (masters cs') st' new ∧
    Forall2 (λ c c', c' = set_stable_slots c (ch_stable_slots c')) cs cs'.
Proof.
  induction cs as [|c cs IH]; intros i st Hok Hinv Hs; cbn [over_parts].
  { exists [], st, []. split_and!; [done|by apply parts_walked_nil|constructor]. }
  apply Forall_cons in Hok as [(Hs0 & Hs1 & _) Hok].
  destruct (Hf i 0 (at0 (ch_stable_slots c)) st) as (o0 & st0 & n0 & -> & W0); [lia|done..|].
  outcome_simpl. rewrite Nat.add_0_r in W0.
  destruct (Hf i 1 (at1 (ch_stable_slots c)) st0) as (o1 & st1 & n1 & -> & W1);
    [lia|done|by apply W0..|].
  outcome_simpl. rewrite Nat.add_1_r in W1.
  destruct (IH (S i) st1) as (cs' & st' & n2 & -> & W2 & HF); [done|by apply W1..|].
  outcome_simpl. do 3 eexists. split_and!; [done| |by constructor].
  cbn [masters]. do 2 (eapply parts_walked_cons; [done|]). exact W2.
Qed.
End over_parts.

(** *** When the sources hold exactly what is needed *)

Fixpoint parts_have (P : N → N → Prop) (k : nat) (l : list (option SlotRange)) : Prop :=
  match l with
  | [] => True
  | o :: l =>
      match o with Some sr => P (keep k) (slots_count (sr_range_list sr)) | None => True end ∧
      parts_have P (S k) l
  end.

Lemma parts_rel_ge k l l' :
  parts_rel k l l' → parts_have N.le k l →
  parts_have N.le k l' ∧ keep_sum k l' = keep_sum k l.
Proof.
  revert k l'. induction l as [|o l IH]; intros k [|o' l'] Hr Hh; cbn in *; try done.
  destruct Hr as [Hr Hrel], Hh as [Hh Hhave]. destruct (IH _ _ Hrel Hhave) as [IH1 ->].
  destruct o as [sr|], o' as [sr'|]; cbn in Hr; try done. destruct Hr as (_ & _ & Hr).
  split; [split; [lia|done]|done].
Qed.

Lemma parts_have_sum k l : parts_have N.le k l → (keep_sum k l ≤ parts_count l)%N.
Proof.
  revert k. induction l as [|o l IH]; intros k H; [cbn; lia|]. destruct H as [H1 H2].
  specialize (IH _ H2). unfold parts_count in *. cbn [foldr keep_sum].
  destruct o; cbn [part_count]; lia.
Qed.

Lemma parts_have_exact k l :
  parts_have N.le k l → parts_count l = keep_sum k l → parts_have eq k l.
Proof.
  revert k. induction l as [|o l IH]; intros k H Heq; [done|]. destruct H as [H1 H2].
  pose proof (parts_have_sum _ _ H2). unfold parts_count in *. cbn [foldr keep_sum] in Heq.
  destruct o; cbn [part_count] in Heq; (split; [lia || done|]); apply IH; done || lia.
Qed.

Lemma qsum_lt m n : m < n → n ≤ dst_num → (qsum quota m + quota m ≤ qsum quota n)%N.
Proof.
  intros Hmn Hn. induction n as [|n IH]; [lia|]. rewrite qsum_S.
  destruct (decide (m = n)); [subst; lia|].
  assert (qsum quota m + quota m ≤ qsum quota n)%N by (apply IH; lia). lia.
Qed.

Lemma plan_inv_init : plan_inv remove_init.
Proof.
  split; cbn [remove_init rs_dst rs_out rs_slots rs_num].
  - lia.
  - apply quota_pos.
  - done.
  - intros k. unfold filled. cbn. repeat case_decide; done || lia.
  - done.
Qed.

(** Every destination gets its quota and every source keeps its share. *)
Lemma parts_complete k l l' st' new :
  parts_walked k l remove_init l' st' new → parts_have N.le k l →
  parts_count l = (keep_sum k l + qsum quota dst_num)%N →
  (∀ d, d < dst_num → received new (dst_part d) = quota d) ∧ parts_have eq k l'.
Proof.
  intros [] Hh Hc. cbn [remove_init rs_out app] in pw_out0. subst.
  destruct (parts_rel_ge _ _ _ pw_rel0 Hh) as [Hge Hsum].
  pose proof (parts_have_sum _ _ Hge). pose proof pw_inv0 as [].
  rewrite pw_slots0 in *. change (slots_count []) with 0%N in *.
  assert (rs_dst st' = dst_num) as Hdst.
  { destruct pw_done0 as [?|Hle]; [done|].
    destruct (decide (rs_dst st' = dst_num)) as [?|Hne]; [done|].
    assert (rs_dst st' < dst_num) as Hlt by lia. specialize (pi_num0 Hlt).
    pose proof (qsum_lt _ _ Hlt (le_n _)). lia. }
  rewrite Hdst in *. specialize (pi_end0 eq_refl). split.
  - intros d Hd. specialize (pi_received0 d). unfold filled in pi_received0. rewrite Hdst in *.
    repeat case_decide; lia.
  - apply parts_have_exact; [done|]. lia.
Qed.
End plan.

(** ** The shares of the masters *)

(** How many slots master [k] of [n] masters owns when they are even:
    [average + r] in the code. *)
Definition share (n k : nat) : N :=
  let average := (SLOT_NUM / N.of_nat n)%N in
  let remainder := (SLOT_NUM - average * N.of_nat n)%N in
  (average + bool_to_N (N.of_nat k <? remainder))%N.

Lemma share_div n k :
  k < n → share n k = ((SLOT_NUM + N.of_nat n - 1 - N.of_nat k) / N.of_nat n)%N.
Proof.
  intros Hk. unfold share.
  set (q := (SLOT_NUM / N.of_nat n)%N). pose proof (N.div_mod SLOT_NUM (N.of_nat n)) as Hdm.
  fold q in Hdm. pose proof (N.mod_lt SLOT_NUM (N.of_nat n)) as Hlt.
  set (r := (SLOT_NUM mod N.of_nat n)%N) in *.
  replace (SLOT_NUM - q * N.of_nat n)%N with r by lia.
  apply N.div_unique with
    (r := (if N.of_nat k <? r then r - 1 - N.of_nat k else r + N.of_nat n - 1 - N.of_nat k)%N);
    destruct (N.ltb_spec (N.of_nat k) r); cbn [bool_to_N]; nia.
Qed.

(** A master of a larger cluster owns no more. *)
Lemma share_anti m n k : k < m → m ≤ n → (share n k ≤ share m k)%N.
Proof.
  intros. rewrite !share_div by lia.
  destruct (decide (SLOT_NUM ≤ N.of_nat k)%N) as [Hk|Hk].
  { rewrite N.div_small by lia. apply N.le_0_l. }
  replace (SLOT_NUM + N.of_nat n - 1 - N.of_nat k)%N
    with (1 * N.of_nat n + (SLOT_NUM - 1 - N.of_nat k))%N by lia.
  replace (SLOT_NUM + N.of_nat m - 1 - N.of_nat k)%N
    with (1 * N.of_nat m + (SLOT_NUM - 1 - N.of_nat k))%N by lia.
  rewrite !N.div_add_l by lia.
  assert ((SLOT_NUM - 1 - N.of_nat k) / N.of_nat n ≤ (SLOT_NUM - 1 - N.of_nat k) / N.of_nat m)%N;
    [|lia]. apply N.div_le_compat_l. lia.
Qed.

Lemma share_pos n k : k < n → (N.of_nat n ≤ SLOT_NUM)%N → (0 < share n k)%N.
Proof.
  intros Hk Hn. unfold share.
  assert (0 < SLOT_NUM / N.of_nat n)%N by (apply N.div_str_pos; lia). lia.
Qed.

Lemma share_le n k : 0 < n → (share n k ≤ SLOT_NUM + 1)%N.
Proof.
  intros Hn. unfold share.
  assert (SLOT_NUM / N.of_nat n ≤ SLOT_NUM)%N by (apply N.Div0.div_le_upper_bound; nia).
  destruct (_ <? _)%N; cbn [bool_to_N]; lia.
Qed.

Lemma qsum_bounded a r n :
  qsum (λ k, a + bool_to_N (N.of_nat k <? r))%N n = (a * N.of_nat n + N.min r (N.of_nat n))%N.
Proof.
  induction n as [|n IH]; [cbn; lia|]. rewrite qsum_S, IH.
  destruct (N.ltb_spec (N.of_nat n) r); cbn [bool_to_N]; lia.
Qed.

(** The shares add up to the slots. *)
Lemma share_sum n : 0 < n → qsum (share n) n = SLOT_NUM.
Proof.
  intros Hn. unfold share. rewrite qsum_bounded.
  pose proof (N.div_mod SLOT_NUM (N.of_nat n) ltac:(lia)) as Hdm.
  pose proof (N.mod_lt SLOT_NUM (N.of_nat n) ltac:(lia)) as Hlt.
  revert Hdm Hlt. generalize (SLOT_NUM / N.of_nat n)%N (SLOT_NUM mod N.of_nat n)%N.
  intros q r Hdm Hlt. rewrite (N.mul_comm q) in *. generalize dependent (N.of_nat n * q)%N.
  intros p Hdm. lia.
Qed.

Lemma qsum_split f m n : qsum f (m + n) = (qsum f m + qsum (λ k, f (m + k)%nat) n)%N.
Proof.
  induction n as [|n IH]; [rewrite Nat.add_0_r; cbn; lia|].
  rewrite Nat.add_succ_r, !qsum_S, IH. lia.
Qed.

Lemma qsum_ext f g n : (∀ k, k < n → f k = g k) → qsum f n = qsum g n.
Proof.
  intros H. induction n as [|n IH]; [done|]. rewrite !qsum_S, H by lia. rewrite IH; [done|auto].
Qed.

Lemma qsum_sub f g n :
  (∀ k, k < n → (g k ≤ f k)%N) → (qsum (λ k, f k - g k) n + qsum g n = qsum f n)%N.
Proof.
  intros H. induction n as [|n IH]; [done|]. rewrite !qsum_S.
  assert (qsum (λ k, f k - g k) n + qsum g n = qsum f n)%N by (apply IH; auto).
  specialize (H n (Nat.lt_succ_diag_r n)). lia.
Qed.

(** ** The planners compute the walk *)

Definition walk_ready (dst_num : nat) (quota : nat → N) (st : RemoveState) : Prop :=
  rs_dst st ≤ dst_num ∧ (rs_dst st < dst_num → (rs_num st < quota (rs_dst st))%N).

Ltac small_lia := unfold SLOT_NUM, u64_modulus in *; lia.

(** The range a planner cuts off, with the [usize] arithmetic of the code. *)
Lemma cut_back rl range n num slots r rl1 :
  range_ok rl → last rl = Some range → (num + n ≤ SLOT_NUM + 1)%N → (0 < n)%N →
  take_back rl n = Some (r, rl1) → taken rl n r rl1 →
  (if (range_len range <=? n)%N then (removelast rl, slots ++ [range], wadd num (range_len range))
   else (removelast rl ++ [mkRange (r_start range) (wsub (r_end range) n)],
         slots ++ [mkRange (wadd (wsub (r_end range) n) 1) (r_end range)], wadd num n)) =
  (rl1, slots ++ [r], (num + len r)%N).
Proof.
  intros Hok Hl Hn Hpos Ht Htk.
  assert (r_start range ≤ r_end range ∧ r_end range < SLOT_NUM)%N as [Ho Hb].
  { apply last_Some_elem_of in Hl. destruct Hok as [[Ho _] Hb].
    unfold in_bounds in Hb. rewrite Forall_forall in Ho, Hb. split; [by apply Ho|by apply Hb]. }
  rewrite (range_len_ok _ Ho Hb). destruct Htk as [_ _ _ _ _ Hlen].
  unfold take_back in Ht. rewrite Hl in Ht. cbn [mbind option_bind] in Ht.
  destruct (N.leb_spec (len range) n); simplify_eq.
  - rewrite wadd_small by small_lia. done.
  - assert (n ≤ r_end range)%N by (unfold len in *; lia).
    unfold len in *. cbn [r_start r_end] in *.
    rewrite wsub_small, !wadd_small by small_lia. do 2 f_equal. lia.
Qed.

Lemma cut_front rl range n num slots r rl1 :
  range_ok rl → head rl = Some range → (num + n ≤ SLOT_NUM + 1)%N → (0 < n)%N →
  take_front rl n = Some (r, rl1) → taken rl n r rl1 →
  (if (range_len range <=? n)%N then (tail rl, slots ++ [range], wadd num (range_len range))
   else (mkRange (wadd (r_start range) n) (r_end range) :: tail rl,
         slots ++ [mkRange (r_start range) (wsub (wadd n (r_start range)) 1)], wadd num n)) =
  (rl1, slots ++ [r], (num + len r)%N).
Proof.
  intros Hok Hl Hn Hpos Ht Htk.
  assert (r_start range ≤ r_end range ∧ r_end range < SLOT_NUM)%N as [Ho Hb].
  { destruct rl as [|x rl]; [done|]. cbn in Hl. simplify_eq.
    by apply range_ok_cons in Hok as (? & ? & _). }
  rewrite (range_len_ok _ Ho Hb). destruct Htk as [_ _ _ _ _ Hlen].
  unfold take_front in Ht. rewrite Hl in Ht. cbn [mbind option_bind] in Ht.
  destruct (N.leb_spec (len range) n); simplify_eq.
  - rewrite wadd_small by small_lia. done.
  - unfold len in *. cbn [r_start r_end] in *.
    rewrite (wadd_small (r_start range)), (wadd_small n), wsub_small, wadd_small by small_lia.
    replace (n + r_start range - 1)%N with (r_start range + n - 1)%N by lia.
    f_equal. lia.
Qed.

Section out_loop.
Context (epoch : N) (n src_chunk_num dst_num i j : nat).
Let average := (SLOT_NUM / N.of_nat n)%N.
Let remainder := (SLOT_NUM - average * N.of_nat n)%N.
Let quota k := share n (src_chunk_num * 2 + k).
Let keep := share n (i * 2 + j).

Lemma remove_slots_loop_plan fuel : ∀ rl st,
  0 < n → (∀ k, k < dst_num → (0 < quota k)%N) →
  range_ok rl → walk_ready dst_num quota st →
  remove_slots_loop epoch dst_num src_chunk_num average remainder i j fuel rl st =
  plan_loop take_back epoch src_chunk_num dst_num quota keep i j fuel rl st.
Proof.
  induction fuel as [|fuel IH]; intros rl st Hn Hq Hok [Hle Hlt]; [done|].
  cbn [remove_slots_loop plan_loop]. case_bool_decide as Hd; [done|].
  assert (rs_dst st < dst_num) as Hd' by lia. specialize (Hlt Hd').
  change (average + bool_to_N (N.of_nat (i * 2 + j) <? remainder))%N with keep.
  change (average + bool_to_N (N.of_nat (src_chunk_num * 2 + rs_dst st) <? remainder))%N
    with (quota (rs_dst st)).
  rewrite (get_slots_num_ok rl Hok). pose proof (range_ok_count_le rl Hok) as Hcount.
  assert (quota (rs_dst st) ≤ SLOT_NUM + 1)%N as Hqle by (by apply share_le).
  destruct (N.leb_spec (slots_count rl) keep) as [Hk|Hk]; [done|].
  rewrite !wsub_small by small_lia.
  set (take_n := N.min (quota (rs_dst st) - rs_num st) (slots_count rl - keep)).
  destruct (take_back_spec rl take_n) as (r & rl1 & Htake & Htk); [done|lia|lia|].
  rewrite Htake. destruct (last rl) as [range|] eqn:Hlast;
    [|unfold take_back in Htake; rewrite Hlast in Htake; done].
  outcome_simpl.
  rewrite (cut_back _ _ take_n (rs_num st) (rs_slots st) _ _ Hok Hlast) by (done || lia).
  destruct Htk. rewrite (get_slots_num_ok rl1) by done.
  destruct (N.leb_spec (quota (rs_dst st)) (rs_num st + len r)),
    (N.leb_spec (slots_count rl1) keep); cbn [orb]; try done; apply IH; try done.
  split; cbn; [lia|]. intros. by apply Hq.
Qed.
End out_loop.

Section down_loop.
Context (epoch : N) (n i j : nat) (existing : list N).
Let average := (SLOT_NUM / N.of_nat n)%N.
Let remainder := (SLOT_NUM - average * N.of_nat n)%N.
Let have k := default 0%N (existing !! k).
Let quota k := (share n k - have k)%N.

Lemma remove_slots_down_loop_plan fuel : ∀ rl st,
  0 < n → length existing = n → (∀ k, k < n → (have k < share n k)%N) →
  range_ok rl → walk_ready n quota st →
  remove_slots_down_loop epoch n average remainder existing i j fuel rl st =
  plan_loop take_front epoch 0 n quota 0 i j fuel rl st.
Proof.
  induction fuel as [|fuel IH]; intros rl st Hn Hex Hq Hok [Hle Hlt]; [done|].
  cbn [remove_slots_down_loop plan_loop]. case_bool_decide as Hd; [done|].
  assert (rs_dst st < n) as Hd' by lia. specialize (Hlt Hd').
  change (average + bool_to_N (N.of_nat (rs_dst st) <? remainder))%N with (share n (rs_dst st)).
  destruct (lookup_lt_is_Some_2 existing (rs_dst st)) as [ex Hlook]; [lia|].
  specialize (Hq _ Hd') as Hex1. unfold quota, have in *. rewrite Hlook in *. outcome_simpl.
  cbn [from_option id] in *.
  rewrite (get_slots_num_ok rl Hok). pose proof (range_ok_count_le rl Hok) as Hcount.
  assert (share n (rs_dst st) ≤ SLOT_NUM + 1)%N as Hqle by (by apply share_le).
  case_bool_decide as Hz; destruct (N.leb_spec (slots_count rl) 0) as [Hk|Hk]; try lia; [done|].
  rewrite (wsub_small (share n _) (rs_num st)) by small_lia.
  rewrite (wsub_small _ ex) by small_lia. rewrite N.sub_0_r.
  replace (share n (rs_dst st) - rs_num st - ex)%N
    with (share n (rs_dst st) - ex - rs_num st)%N by lia.
  set (take_n := N.min (share n (rs_dst st) - ex - rs_num st) (slots_count rl)).
  destruct (take_front_spec rl take_n) as (r & rl1 & Htake & Htk); [done|lia|lia|].
  rewrite Htake. destruct (head rl) as [range|] eqn:Hhead;
    [|unfold take_front in Htake; rewrite Hhead in Htake; done].
  outcome_simpl.
  rewrite (cut_front _ _ take_n (rs_num st) (rs_slots st) _ _ Hok Hhead) by (done || lia).
  destruct Htk. rewrite (get_slots_num_ok rl1) by done.
  rewrite (wadd_small (rs_num st + len r)) by small_lia.
  case_bool_decide as Hz1; destruct (N.leb_spec (slots_count rl1) 0); try lia;
    destruct (N.leb_spec (share n (rs_dst st)) (rs_num st + len r + ex)),
    (N.leb_spec (share n (rs_dst st) - ex) (rs_num st + len r)); try lia; cbn [orb]; try done;
    apply IH; try done; split; cbn [rs_dst rs_num]; try lia.
  - intros Hlt'. specialize (Hq _ Hlt'). lia.
  - intros _. rewrite Hlook. cbn. lia.
Qed.
End down_loop.
