(* ===== verification/Balance.v ===== *)
(** * Balanced clusters

    A cluster is [balanced] over its first [m] chunks when, once all running
    migrations commit, the masters of these chunks own the slots in equal
    shares and the other chunks own none.  This file shows that the planners
    keep the slot invariant and reach a balanced cluster, and that a commit
    preserves both. *)

From S2P Require Import Prelude RangeList RustStr ClusterMeta Store SlotInv Query Migrate Plan.

(** ** Definitions *)

(** The slots a part has been promised by migrations that still run. *)
Definition incoming (es : list MigrationSlotRangeStore) : N :=
  foldr (λ e acc, (if mr_is_migrating e then 0 else slots_count (mr_range_list e)) + acc)%N 0%N es.

(** The number of slots part [(i, j)] owns when all migrations are done. *)
Definition target (chunks : list ChunkStore) (i j : nat) : N :=
  match chunks !! i with
  | Some c =>
      part_count (default None (arr2_get (ch_stable_slots c) j)) +
      incoming (default [] (arr2_get (ch_migrating_slots c) j))
  | None => 0
  end.

(** Slots only move between different chunks. *)
Definition crosses (e : MigrationSlotRangeStore) : Prop :=
  ms_src_chunk_index (mr_meta e) ≠ ms_dst_chunk_index (mr_meta e).

Record balanced (m : nat) (chunks : list ChunkStore) : Prop := {
  bl_pos : 0 < m;
  bl_le : m ≤ length chunks;
  bl_target : ∀ i j, i < length chunks → j < 2 →
    target chunks i j = if decide (i < m) then share (m * 2) (i * 2 + j) else 0%N;
  bl_free : ∀ i c, m ≤ i → chunks !! i = Some c →
    ch_stable_slots c = Arr2 None None;
  bl_cross : Forall crosses (all_entries chunks);
}.

(** ** Lemmas *)

Lemma incoming_app a b : incoming (a ++ b) = (incoming a + incoming b)%N.
Proof. unfold incoming. induction a; cbn [app foldr] in *; lia. Qed.

Lemma masters_lookup chunks i j :
  j < 2 → masters chunks !! (i * 2 + j) =
  (c ← chunks !! i; arr2_get (ch_stable_slots c) j).
Proof.
  intros Hj. revert i. induction chunks as [|c chunks IH]; intros i; [done|].
  destruct i as [|i]; cbn [masters].
  - destruct j as [|[|]]; [done|done|lia].
  - cbn [lookup list_lookup Nat.mul Nat.add]. rewrite <- IH. done.
Qed.

Lemma masters_length chunks : length (masters chunks) = length chunks * 2.
Proof. induction chunks; cbn; lia. Qed.

Lemma masters_app a b : masters (a ++ b) = masters a ++ masters b.
Proof. induction a as [|c a IH]; cbn; [done|]. by rewrite IH. Qed.

Lemma qsum_cons f n : qsum f (S n) = (f 0%nat + qsum (λ k, f (S k)) n)%N.
Proof. change (S n) with (1 + n). rewrite qsum_split. f_equal. apply N.add_0_r. Qed.

Lemma qsum_zero n : qsum (λ _, 0%N) n = 0%N.
Proof. induction n; [done|]. rewrite qsum_S. lia. Qed.

Lemma parts_count_qsum l :
  parts_count l = qsum (λ x, part_count (default None (l !! x))) (length l).
Proof.
  unfold parts_count. induction l as [|o l IH]; [done|]. cbn [foldr length].
  rewrite qsum_cons, IH. done.
Qed.

Lemma keep_sum_qsum keep k l :
  keep_sum keep k l =
  qsum (λ x, match default None (l !! x) with Some _ => keep (k + x) | None => 0%N end) (length l).
Proof.
  revert k. induction l as [|o l IH]; intros k; [done|]. cbn [keep_sum length].
  rewrite qsum_cons, IH. rewrite Nat.add_0_r. f_equal. apply qsum_ext. intros x _.
  cbn. by rewrite Nat.add_succ_r.
Qed.

Lemma parts_have_lookup keep P k l :
  parts_have keep P k l ↔
  ∀ x sr, l !! x = Some (Some sr) → P (keep (k + x)) (slots_count (sr_range_list sr)).
Proof.
  revert k. induction l as [|o l IH]; intros k; cbn [parts_have]; [naive_solver|].
  rewrite IH. split.
  - intros [H1 H2] [|x] sr Hx; cbn in Hx; simplify_eq.
    + by rewrite Nat.add_0_r.
    + rewrite Nat.add_succ_r. by apply (H2 x).
  - intros H. split.
    + destruct o as [sr|]; [|done]. specialize (H 0 sr eq_refl). by rewrite Nat.add_0_r in H.
    + intros x sr Hx. specialize (H (S x) sr Hx). by rewrite Nat.add_succ_r in H.
Qed.

Lemma parts_rel_lookup keep k l l' x :
  parts_rel keep k l l' →
  match l !! x, l' !! x with
  | Some o, Some o' => part_rel (keep (k + x)) o o'
  | None, None => True
  | _, _ => False
  end.
Proof.
  revert k l' x. induction l as [|o l IH]; intros k [|o' l'] x Hr; cbn in Hr; try done.
  destruct Hr as [H1 H2]. destruct x as [|x]; cbn; [by rewrite Nat.add_0_r|].
  rewrite Nat.add_succ_r. exact (IH (S k) l' x H2).
Qed.

(** *** [compact_slots] on well-formed chunks *)

Lemma range_ok_compact rl : range_ok rl → compact rl = rl.
Proof. intros [Hc Hb]. by apply compact_id; [apply in_bounds_no_wrap|]. Qed.

Lemma compact_slots_id chunks : Forall chunk_ok chunks → compact_slots chunks = chunks.
Proof.
  intros Hok. unfold compact_slots. rewrite <- (list_fmap_id chunks) at 2.
  apply list_fmap_ext. intros i c Hc.
  destruct (Forall_lookup_1 _ _ _ _ Hok Hc) as (Hs0 & Hs1 & He).
  unfold chunk_entries in He. apply Forall_app in He as [He0 He1].
  assert (∀ o, stable_ok o → compact_stable o = o) as Hst.
  { intros [[rl t]|]; cbn; [|done]. intros [_ Hr]. unfold compact_stable. cbn.
    by rewrite range_ok_compact. }
  assert (∀ es, Forall entry_ok es → compact_entry <$> es = es) as Hes.
  { induction 1 as [|[rl b m] es [Hr _] _ IH]; [done|]. rewrite fmap_cons, IH. f_equal.
    unfold compact_entry. cbn in *. by rewrite range_ok_compact. }
  unfold id. destruct c as [rp st mg pa hs na]. cbn in *.
  unfold set_migrating_slots, set_stable_slots, arr2_map. cbn.
  rewrite !Hst, !Hes by done. by destruct st, mg.
Qed.

(** *** Storing a plan *)

Definition plan_entry (b : bool) (m : MigrationSlots) : MigrationSlotRangeStore :=
  mkMigrationSlotRangeStore (mg_ranges m) b (mg_meta m).

Lemma part_count_lookup_push part e c c' j :
  push_migrating part e c = Some c' → j < 2 →
  part_count (default None (arr2_get (ch_stable_slots c') j)) =
    part_count (default None (arr2_get (ch_stable_slots c) j)) ∧
  incoming (default [] (arr2_get (ch_migrating_slots c') j)) =
    (incoming (default [] (arr2_get (ch_migrating_slots c) j)) +
     if decide (j = part) then incoming [e] else 0)%N.
Proof.
  intros Hc Hj. apply push_migrating_spec in Hc as (Hs & _ & _ & Hl). rewrite Hs.
  split; [done|].
  destruct (arr2_get_lt (ch_migrating_slots c') j Hj) as [l' Hl'].
  destruct (Hl _ _ Hl') as (l & Hll & ->). rewrite Hl', Hll. cbn [from_option id].
  case_decide; [by rewrite incoming_app|lia].
Qed.

Lemma target_push chunks i part e c c' i' j' :
  chunks !! i = Some c → push_migrating part e c = Some c' → j' < 2 →
  target (<[i := c']> chunks) i' j' =
  (target chunks i' j' + if decide ((i', j') = (i, part)) then incoming [e] else 0)%N.
Proof.
  intros Hi Hc Hj. unfold target. destruct (decide (i' = i)) as [->|Hne].
  - rewrite list_lookup_insert_eq by (by eapply lookup_lt_Some). rewrite Hi.
    destruct (part_count_lookup_push _ _ _ _ _ Hc Hj) as [-> ->].
    do 2 case_decide; simplify_eq; lia.
  - rewrite list_lookup_insert_ne by done.
    rewrite (decide_False (P := (i', j') = (i, part))) by congruence. lia.
Qed.

(** What storing migrations does to the chunks. *)
Record stored (chunks : list ChunkStore) (ms : list MigrationSlots) (chunks' : list ChunkStore)
  : Prop := {
  sd_frames : frames chunks' = frames chunks;
  sd_stable : ch_stable_slots <$> chunks' = ch_stable_slots <$> chunks;
  sd_cover : ∀ s, chunks_cover s chunks' = chunks_cover s chunks + plan_cover s ms;
  sd_chunks : Forall chunk_ok chunks → Forall chunk_ok chunks';
  sd_placed : placed chunks → placed chunks';
  sd_entries : all_entries chunks' ≡ₚ
    mjoin ((λ m, [plan_entry false m; plan_entry true m]) <$> ms) ++ all_entries chunks;
  sd_target : ∀ i j, j < 2 →
    target chunks' i j = (target chunks i j + received ms (i, j))%N;
}.

Record storable (n : nat) (m : MigrationSlots) : Prop := {
  st_ok : range_ok (mg_ranges m);
  st_nonempty : mg_ranges m ≠ [];
  st_src : ms_src_chunk_index (mg_meta m) < n ∧ ms_src_chunk_part (mg_meta m) < 2;
  st_dst : ms_dst_chunk_index (mg_meta m) < n ∧ ms_dst_chunk_part (mg_meta m) < 2;
}.

(** Pushing one entry. *)
Lemma push_chunk_spec chunks i j e :
  i < length chunks → j < 2 →
  ∃ c c', chunks !! i = Some c ∧ push_migrating j e c = Some c' ∧
    modify_chunk chunks i (push_migrating j e) = Ok (<[i := c']> chunks).
Proof.
  intros Hi Hj. destruct (lookup_lt_is_Some_2 chunks i Hi) as [c Hc].
  destruct (push_migrating_Some j e c Hj) as [c' Hc']. exists c, c'.
  split_and!; [done|done|]. by eapply modify_chunk_Ok.
Qed.

Lemma push_stable (chunks : list ChunkStore) i j e c c' :
  chunks !! i = Some c → push_migrating j e c = Some c' →
  ch_stable_slots <$> <[i := c']> chunks = ch_stable_slots <$> chunks.
Proof.
  intros Hi Hc. apply push_migrating_spec in Hc as (Hs & _).
  rewrite list_fmap_insert. apply list_insert_id. rewrite list_lookup_fmap, Hi. cbn. by rewrite Hs.
Qed.

Lemma assign_one_spec chunks m :
  storable (length chunks) m →
  ∃ chunks', assign_one chunks m = Ok chunks' ∧ stored chunks [m] chunks'.
Proof.
  intros [Hok Hne [Hs1 Hs2] [Hd1 Hd2]]. unfold assign_one.
  destruct (push_chunk_spec chunks (ms_src_chunk_index (mg_meta m)) (ms_src_chunk_part (mg_meta m))
    (plan_entry true m) Hs1 Hs2) as (c & c' & Hc & Hc' & Heq).
  unfold plan_entry in Heq at 1. rewrite Heq. outcome_simpl. clear Heq.
  set (chunks1 := <[_ := c']> chunks).
  assert (ms_dst_chunk_index (mg_meta m) < length chunks1) as Hd1'
    by (unfold chunks1; by rewrite length_insert).
  destruct (push_chunk_spec chunks1 (ms_dst_chunk_index (mg_meta m))
    (ms_dst_chunk_part (mg_meta m)) (plan_entry false m) Hd1' Hd2) as (d & d' & Hd & Hd' & Heq).
  unfold plan_entry in Heq at 1. rewrite Heq. clear Heq.
  eexists. split; [done|].
  destruct (push_migrating_spec _ _ _ _ Hc') as (_ & Hp1 & Hcov1 & _).
  destruct (push_migrating_spec _ _ _ _ Hd') as (_ & Hp2 & Hcov2 & _).
  assert (entry_ok (plan_entry true m) ∧ entry_ok (plan_entry false m)) as [He1 He2] by done.
  split.
  - rewrite (frames_insert _ _ d) by (done || by eapply push_migrating_frame).
    unfold chunks1. by rewrite (frames_insert _ _ c) by (done || by eapply push_migrating_frame).
  - rewrite (push_stable _ _ _ _ _ _ Hd Hd'). by apply (push_stable _ _ _ _ _ _ Hc Hc').
  - intros s. pose proof (chunks_cover_insert s _ _ _ c' Hc).
    pose proof (chunks_cover_insert s _ _ _ d' Hd). fold chunks1 in H.
    specialize (Hcov1 s). specialize (Hcov2 s).
    unfold plan_cover. cbn [sum_list_with].
    change (out_cover s (plan_entry true m)) with (cover s (mg_ranges m)) in Hcov1.
    change (out_cover s (plan_entry false m)) with 0 in Hcov2. lia.
  - intros Hall. assert (Forall chunk_ok chunks1) as Hall1
      by (apply Forall_insert; [done|];
          exact (chunk_ok_push _ _ _ _ (Forall_lookup_1 _ _ _ _ Hall Hc) He1 Hc')).
    apply Forall_insert; [done|].
    exact (chunk_ok_push _ _ _ _ (Forall_lookup_1 _ _ _ _ Hall1 Hd) He2 Hd').
  - intros Hpl. assert (placed chunks1) as Hpl1 by (by eapply placed_push).
    by eapply placed_push.
  - cbn [fmap list_fmap mjoin list_join app].
    etransitivity; [exact (all_entries_insert _ _ _ _ _ Hd Hp2)|].
    constructor. exact (all_entries_insert _ _ _ _ _ Hc Hp1).
  - intros i j Hj. rewrite (target_push _ _ _ _ _ _ _ _ Hd Hd' Hj).
    unfold chunks1. rewrite (target_push _ _ _ _ _ _ _ _ Hc Hc' Hj).
    unfold received. cbn [foldr incoming plan_entry mr_is_migrating mr_range_list].
    unfold dst_place. repeat case_decide; simplify_eq; lia.
Qed.

Lemma stored_nil chunks : stored chunks [] chunks.
Proof.
  split; try done. intros s. unfold plan_cover. cbn. lia.
Qed.

Lemma stored_cons chunks m ms chunks1 chunks2 :
  stored chunks [m] chunks1 → stored chunks1 ms chunks2 → stored chunks (m :: ms) chunks2.
Proof.
  intros [] []. split.
  - by rewrite sd_frames1.
  - by rewrite sd_stable1.
  - intros s. rewrite sd_cover1, sd_cover0. unfold plan_cover. cbn [sum_list_with]. lia.
  - auto.
  - auto.
  - rewrite sd_entries1, sd_entries0. cbn [fmap list_fmap mjoin list_join app].
    rewrite <- !Permutation_middle. done.
  - intros i j Hj. rewrite sd_target1, sd_target0 by done. unfold received. cbn [foldr]. lia.
Qed.

Lemma assign_all_spec ms : ∀ chunks,
  Forall (storable (length chunks)) ms →
  ∃ chunks', assign_all chunks ms = Ok chunks' ∧ stored chunks ms chunks'.
Proof.
  induction ms as [|m ms IH]; intros chunks Hms; cbn [assign_all].
  { eexists. split; [done|apply stored_nil]. }
  apply Forall_cons in Hms as [Hm Hms].
  destruct (assign_one_spec chunks m Hm) as (chunks1 & -> & H1). outcome_simpl.
  pose proof (frames_length _ _ (sd_frames _ _ _ H1)) as Hlen.
  destruct (IH chunks1) as (chunks2 & -> & H2); [by rewrite Hlen|].
  eexists. split; [done|]. by eapply stored_cons.
Qed.

Lemma plan_entries_keys b ms :
  keys_of b (mjoin ((λ m, [plan_entry false m; plan_entry true m]) <$> ms)) =
  (λ m, (mg_ranges m, mg_meta m)) <$> ms.
Proof.
  induction ms as [|m ms IH]; [done|]. cbn [fmap list_fmap mjoin list_join app].
  rewrite !keys_of_cons. cbn [plan_entry mr_is_migrating].
  rewrite <- IH. by destruct b.
Qed.

Lemma stored_mirrored chunks ms chunks' :
  stored chunks ms chunks' → mirrored chunks → mirrored chunks'.
Proof.
  intros [] Hm. unfold mirrored in *. rewrite !(keys_of_perm _ _ _ sd_entries0).
  unfold keys_of in *. rewrite !filter_app, !fmap_app, Hm. f_equiv.
  pose proof (plan_entries_keys true ms) as H1. pose proof (plan_entries_keys false ms) as H2.
  unfold keys_of in *. by rewrite H1, H2.
Qed.

(** ** Changing only the stable slots *)

Definition restable (cs cs' : list ChunkStore) : Prop :=
  Forall2 (λ c c', c' = set_stable_slots c (ch_stable_slots c')) cs cs'.

Lemma restable_entries cs cs' :
  restable cs cs' →
  frames cs' = frames cs ∧ all_entries cs' = all_entries cs ∧
  ∀ i j, part_entries cs' i j = part_entries cs i j.
Proof.
  induction 1 as [|c c' cs cs' Hc _ (IH1 & IH2 & IH3)]; [done|]. split_and!.
  - unfold frames in *. rewrite !fmap_cons, IH1. f_equal. by rewrite Hc.
  - rewrite !all_entries_cons, IH2. f_equal. by rewrite Hc.
  - intros [|i] j; [|apply IH3]. unfold part_entries. cbn. by rewrite Hc.
Qed.

Lemma chunks_cover_masters s cs :
  chunks_cover s cs =
  sum_list_with (opt_cover s) (masters cs) + sum_list_with (out_cover s) (all_entries cs).
Proof.
  unfold chunks_cover. induction cs as [|c cs IH]; [done|].
  rewrite all_entries_cons, sum_list_with_app. cbn [sum_list_with masters].
  unfold chunk_cover at 1. lia.
Qed.

Lemma target_masters cs i j :
  all_entries cs = [] → j < 2 →
  target cs i j = part_count (default None (masters cs !! (i * 2 + j))).
Proof.
  intros He Hj. rewrite masters_lookup by done. unfold target.
  destruct (cs !! i) as [c|] eqn:Hc; [|done]. cbn [mbind option_bind].
  destruct (arr2_get_lt (ch_migrating_slots c) j Hj) as [l Hl]. rewrite Hl. cbn [from_option id].
  assert (l = []) as ->.
  { destruct l as [|e l]; [done|]. exfalso.
    assert (e ∈ all_entries cs) as Hin; [|rewrite He in Hin; set_solver].
    apply elem_of_all_entries. exists i, j, (e :: l). split; [|by left].
    unfold part_entries. by rewrite Hc. }
  cbn. lia.
Qed.

Lemma received_none ms p :
  Forall (λ m, dst_place m ≠ p) ms → received ms p = 0%N.
Proof.
  unfold received. induction 1 as [|m ms Hm _ IH]; [done|]. cbn [foldr].
  rewrite decide_False by done. lia.
Qed.

Lemma index_split x : ∃ i j, x = i * 2 + j ∧ j < 2.
Proof.
  exists (x / 2), (x mod 2).
  pose proof (Nat.div_mod_eq x 2). pose proof (Nat.mod_upper_bound x 2). lia.
Qed.

Lemma dst_part_index base i j :
  base ≤ i → j < 2 → dst_part base ((i - base) * 2 + j) = (i, j).
Proof.
  intros Hi Hj. unfold dst_part.
  rewrite Nat.div_add_l, (Nat.add_comm _ j), Nat.Div0.mod_add by lia.
  rewrite Nat.div_small, Nat.mod_small by done. f_equal. lia.
Qed.

(** The masters of a balanced cluster that runs no migration. *)
Lemma balanced_masters m chunks :
  slots_wf chunks → balanced m chunks → all_entries chunks = [] →
  (N.of_nat (m * 2) ≤ SLOT_NUM)%N →
  (∀ x, x < m * 2 → ∃ sr, masters chunks !! x = Some (Some sr) ∧ stable_ok (Some sr) ∧
     slots_count (sr_range_list sr) = share (m * 2) x) ∧
  (∀ x, m * 2 ≤ x → x < length chunks * 2 → masters chunks !! x = Some None).
Proof.
  intros Hwf [] He Hm. split.
  - intros x Hx. destruct (index_split x) as (i & j & -> & Hj).
    pose proof (target_masters chunks i j He Hj) as Ht.
    rewrite bl_target0, decide_True in Ht by lia.
    pose proof (share_pos (m * 2) (i * 2 + j) ltac:(lia) Hm) as Hpos.
    rewrite masters_lookup in * by done.
    destruct (lookup_lt_is_Some_2 chunks i) as [c Hc]; [lia|]. rewrite Hc in *.
    cbn [mbind option_bind] in *.
    destruct (arr2_get_lt (ch_stable_slots c) j Hj) as [o Ho]. rewrite Ho in *.
    cbn [from_option id] in Ht. destruct o as [sr|]; cbn [part_count] in Ht; [|lia].
    exists sr. split_and!; [done| |done].
    destruct (Forall_lookup_1 _ _ _ _ (sw_chunks _ Hwf) Hc) as (H0 & H1 & _).
    destruct j as [|[|]]; cbn in Ho; [by simplify_eq; rewrite Ho in H0|
      by simplify_eq; rewrite Ho in H1|lia].
  - intros x Hx Hlt. destruct (index_split x) as (i & j & -> & Hj).
    rewrite masters_lookup by done.
    destruct (lookup_lt_is_Some_2 chunks i) as [c Hc]; [lia|].
    rewrite Hc. cbn [mbind option_bind].
    rewrite (bl_free0 i c) by (done || lia).
    destruct j as [|[|]]; done || lia.
Qed.

Lemma balanced_count m chunks :
  slots_wf chunks → balanced m chunks → all_entries chunks = [] →
  (N.of_nat (m * 2) ≤ SLOT_NUM)%N → ∀ keep : nat → N,
  parts_count (masters chunks) = SLOT_NUM ∧
  keep_sum keep 0 (masters chunks) = qsum keep (m * 2).
Proof.
  intros Hwf Hb He Hm keep. destruct (balanced_masters _ _ Hwf Hb He Hm) as [H1 H2].
  pose proof (bl_le _ _ Hb). pose proof (bl_pos _ _ Hb).
  rewrite parts_count_qsum, keep_sum_qsum, masters_length.
  replace (length chunks * 2) with (m * 2 + (length chunks - m) * 2) by lia.
  rewrite !qsum_split. split.
  - rewrite (qsum_ext _ (λ _, 0%N) ((length chunks - m) * 2)), qsum_zero.
    2: { intros k Hk. by rewrite H2 by lia. }
    rewrite (qsum_ext _ (share (m * 2)) (m * 2)); [rewrite share_sum by lia; lia|].
    intros k Hk. destruct (H1 k Hk) as (sr & -> & _ & ?). done.
  - rewrite (qsum_ext _ (λ _, 0%N) ((length chunks - m) * 2)), qsum_zero.
    2: { intros k Hk. by rewrite H2 by lia. }
    rewrite (qsum_ext _ keep (m * 2)); [lia|].
    intros k Hk. destruct (H1 k Hk) as (sr & -> & _ & ?). done.
Qed.

(** ** From a plan to the stored chunks *)

Lemma finish_plan chunks cs' new :
  slots_wf chunks → all_entries chunks = [] → restable chunks cs' → Forall chunk_ok cs' →
  Forall (storable (length chunks)) new →
  (∀ s, sum_list_with (opt_cover s) (masters chunks) =
        sum_list_with (opt_cover s) (masters cs') + plan_cover s new) →
  ∃ chunks', assign_dst_slots cs' new = Ok chunks' ∧ slots_wf chunks' ∧
    frames chunks' = frames chunks ∧
    ch_stable_slots <$> chunks' = ch_stable_slots <$> cs' ∧
    (∀ i j, j < 2 → target chunks' i j =
       (part_count (default None (masters cs' !! (i * 2 + j)%nat)) + received new (i, j))%N) ∧
    (∀ e, e ∈ all_entries chunks' → ∃ m b, m ∈ new ∧ e = plan_entry b m).
Proof.
  intros Hwf He Hr Hok Hst Hcov.
  destruct (restable_entries _ _ Hr) as (Hfr & Hall & Hpe).
  pose proof (frames_length _ _ Hfr) as Hlen. rewrite <- Hlen in Hst.
  destruct (assign_all_spec new cs' Hst) as (chunks' & Heq & Hsd). pose proof Hsd as [].
  specialize (sd_chunks0 Hok). rewrite He in Hall.
  assert (placed cs') as Hpl.
  { intros i j l e Hl Hin. exfalso. assert (e ∈ all_entries cs') as H
      by (apply elem_of_all_entries; eauto 10). rewrite Hall in H. set_solver. }
  assert (mirrored cs') as Hmir by (unfold mirrored; by rewrite Hall).
  exists chunks'. split_and!.
  - unfold assign_dst_slots. rewrite Heq. outcome_simpl. by rewrite compact_slots_id.
  - split; [|done|by apply sd_placed0|by eapply stored_mirrored].
    intros s. rewrite <- (sw_partition _ Hwf s), sd_cover0, !chunks_cover_masters, He, Hall, Hcov.
    cbn. lia.
  - by rewrite sd_frames0.
  - done.
  - intros i j Hj. rewrite sd_target0 by done. by rewrite target_masters.
  - intros e Hin. rewrite sd_entries0, Hall, app_nil_r in Hin.
    apply list_elem_of_join in Hin as (l & Hel & Hl).
    apply list_elem_of_fmap in Hl as (m & -> & Hm).
    apply elem_of_cons in Hel as [->|Hel]; [eauto|].
    apply list_elem_of_singleton in Hel as ->. eauto.
Qed.

(** The walk of one source part. *)
Lemma plan_part_spec epoch (take_ : RangeList → N → option (Range * RangeList)) base quota' keep'
    (loop : RangeList → RemoveState → res (RangeList * RemoveState)) d i j sr st :
  (∀ rl k, range_ok rl → (0 < k)%N → (k ≤ slots_count rl)%N →
     ∃ r rl', take_ rl k = Some (r, rl') ∧ taken rl k r rl') →
  (∀ k, k < d → (0 < quota' k)%N) →
  (∀ rl st, range_ok rl → walk_ready d quota' st →
     loop rl st = plan_loop take_ epoch base d quota' (keep' (i * 2 + j)) i j
                    (remove_fuel (sr_range_list sr) d) rl st) →
  j < 2 → stable_ok (Some sr) → plan_inv base d quota' st → rs_slots st = [] →
  ∃ rl' st' new, loop (sr_range_list sr) st = Ok (rl', st') ∧
    parts_walked epoch base d quota' keep' (i * 2 + j) [Some sr] st
      [Some (mkSlotRange rl' (sr_tag sr))] st' new.
Proof.
  intros Htake Hq Hloop Hj [_ Hok] Hinv Hs.
  destruct (plan_loop_spec take_ epoch base d quota' Htake Hq (keep' (i * 2 + j)) i j
    (remove_fuel (sr_range_list sr) d) (sr_range_list sr) st) as (rl' & st' & new & Heq & Hw);
    [done|done| |by rewrite Hs| |].
  - rewrite Hs. split_and!; [constructor..|]. intros s.
    destruct Hok as [Hc _]. pose proof (compacted_cover_le s _ Hc). cbn. lia.
  - unfold remove_fuel. rewrite get_slots_num_ok by done. lia.
  - exists rl', st', new. split; [|by apply parts_walked_some].
    rewrite Hloop; [done|done|]. destruct Hinv. by split.
Qed.

(** Planned migrations name parts that exist. *)
Lemma planned_storable epoch base d quota' keep' k l st l' st' new len :
  parts_walked epoch base d quota' keep' k l st l' st' new →
  k + length l ≤ len * 2 → base * 2 + d ≤ len * 2 →
  Forall (storable len) new ∧
  Forall (λ m, ms_epoch (mg_meta m) = epoch ∧ base ≤ (dst_place m).1 ∧
    (∃ x, x < d ∧ dst_place m = dst_part base x) ∧
    ∃ i j sr, j < 2 ∧ k ≤ i * 2 + j ∧ l !! (i * 2 + j - k) = Some (Some sr) ∧ src_place m = (i, j)) new.
Proof.
  intros [_ _ _ Hnew _ _ _ _ _] Hk Hd.
  rewrite <- Forall_and. eapply Forall_impl; [exact Hnew|].
  intros mg (i & j & sr & Hj & Hij & Hl & [Hok Hne Hep Hsrc (x & Hx & Hdst)]).
  pose proof (lookup_lt_Some _ _ _ Hl) as Hlt. split.
  - split; [done|done| |].
    + unfold src_place in Hsrc. injection Hsrc as -> ->. lia.
    + unfold dst_place, dst_part in Hdst. apply pair_equal_spec in Hdst as [-> ->].
      pose proof (Nat.div_mod_eq x 2). pose proof (Nat.mod_upper_bound x 2). lia.
  - split_and!; [done| |by eauto|by eauto 10]. rewrite Hdst. cbn. lia.
Qed.

Lemma restable_ok cs cs' k epoch base d quota' keep' st st' new :
  restable cs cs' → Forall chunk_ok cs →
  parts_walked epoch base d quota' keep' k (masters cs) st (masters cs') st' new →
  Forall chunk_ok cs'.
Proof.
  intros Hr Hok [_ _ _ _ _ _ _ _ Hrel]. revert k Hrel Hok.
  induction Hr as [|c c' cs cs' Hc _ IH]; intros k Hrel Hok; [constructor|].
  apply Forall_cons in Hok as [(H0 & H1 & He) Hok]. cbn [masters parts_rel] in Hrel.
  destruct Hrel as (R0 & R1 & Hrel).
  assert (∀ κ o o', part_rel κ o o' → stable_ok o → stable_ok o') as Hpr.
  { intros κ [sr|] [sr'|]; cbn; try done. intros (Ht & Hk & _) [Ht' _]. by rewrite Ht, Ht'. }
  constructor; [|by eapply IH]. rewrite Hc. split_and!; [by eapply Hpr..|done].
Qed.

(** ** Scaling out *)

Section scale_out.
Context (chunks : list ChunkStore) (m : nat) (epoch : N).
Hypothesis Hwf : slots_wf chunks.
Hypothesis Hbal : balanced m chunks.
Hypothesis Hidle : all_entries chunks = [].
Hypothesis Hsize : (N.of_nat (length chunks * 2) ≤ SLOT_NUM)%N.

Let n := length chunks * 2.
Let dst_num := (length chunks - m) * 2.
Let quota k := share n (m * 2 + k).
Let keep x := share n x.

Lemma out_facts : 0 < m ∧ m ≤ length chunks ∧ 0 < n ∧ (N.of_nat (m * 2) ≤ SLOT_NUM)%N.
Proof. destruct Hbal. subst n. lia. Qed.

Lemma out_quota_pos k : k < dst_num → (0 < quota k)%N.
Proof. intros. pose proof out_facts. apply share_pos; [|done]. subst n dst_num. lia. Qed.

(** The chunks without slots are the ones after the first [m]. *)
Lemma out_dst_chunks :
  length (filter (λ c, chunk_without_slots c = true) chunks) = length chunks - m.
Proof.
  pose proof out_facts as (Hpos & Hle & _ & Hm).
  destruct (balanced_masters _ _ Hwf Hbal Hidle Hm) as [H1 _].
  rewrite <- (take_drop m chunks) at 1. rewrite filter_app, length_app.
  assert (filter (λ c, chunk_without_slots c = true) (take m chunks) = []) as ->.
  { apply elem_of_nil_inv. intros c (Hw & Hin)%list_elem_of_filter.
    apply list_elem_of_lookup in Hin as [i Hi]. apply lookup_take_Some in Hi as [Hi Hlt].
    destruct (H1 (i * 2 + 0)) as (sr & Hsr & _); [lia|].
    rewrite masters_lookup, Hi in Hsr by lia. cbn in Hsr.
    apply bool_decide_eq_true in Hw as [Hw _]. congruence. }
  rewrite filter_all, length_drop; [done|].
  intros c Hin. apply list_elem_of_lookup in Hin as [i Hi]. rewrite lookup_drop in Hi.
  apply bool_decide_eq_true. by rewrite (bl_free _ _ Hbal (m + i) c) by (done || lia).
Qed.

Lemma out_walk :
  ∃ cs' st' new,
    over_parts (remove_slots_part epoch dst_num m (SLOT_NUM / N.of_nat n)
      (SLOT_NUM - SLOT_NUM / N.of_nat n * N.of_nat n)) 0 chunks remove_init = Ok (cs', st') ∧
    parts_walked epoch m dst_num quota keep 0 (masters chunks) remove_init (masters cs') st' new ∧
    restable chunks cs'.
Proof.
  pose proof out_facts as (Hpos & Hle & Hn & Hm).
  apply (over_parts_spec epoch m dst_num quota keep).
  - intros i j o st Hj Ho Hinv Hs. destruct o as [sr|].
    + destruct (plan_part_spec epoch take_back m quota keep
        (remove_slots_loop epoch dst_num m (SLOT_NUM / N.of_nat n)
           (SLOT_NUM - SLOT_NUM / N.of_nat n * N.of_nat n) i j
           (remove_fuel (sr_range_list sr) dst_num)) dst_num i j sr st)
        as (rl' & st' & new & Heq & Hw); [| |intros| |done..|].
      * apply take_back_spec.
      * apply out_quota_pos.
      * apply remove_slots_loop_plan; [done|apply out_quota_pos|done..].
      * done.
      * unfold remove_slots_part. rewrite Heq. outcome_simpl. eauto 10.
    + exists None, st, []. split; [done|]. by apply parts_walked_none.
  - apply Hwf.
  - apply plan_inv_init, out_quota_pos.
  - done.
Qed.

Lemma scale_out_plan :
  ∃ chunks1 ms chunks', remove_slots_from_src chunks epoch = Ok (chunks1, ms) ∧
    assign_dst_slots chunks1 ms = Ok chunks' ∧
    slots_wf chunks' ∧ balanced (length chunks) chunks' ∧ frames chunks' = frames chunks ∧
    Forall (λ e, ms_epoch (mr_meta e) = epoch) (all_entries chunks').
Proof.
  pose proof out_facts as (Hpos & Hle & Hn & Hm).
  destruct out_walk as (cs' & st' & new & Heq & Hpw & Hr).
  destruct (balanced_count m chunks Hwf Hbal Hidle Hm keep) as [Hcount Hkeep].
  destruct (balanced_masters _ _ Hwf Hbal Hidle Hm) as [Hsome Hnone].
  destruct (parts_complete epoch m dst_num quota keep 0 _ _ _ _ Hpw)
    as [Hrec Hexact].
  { apply parts_have_lookup. intros x sr Hx. pose proof (lookup_lt_Some _ _ _ Hx) as Hlt.
    rewrite masters_length in Hlt. destruct (decide (x < m * 2)).
    - destruct (Hsome x) as (sr' & Hx' & _ & Hc); [done|]. rewrite Hx in Hx'. simplify_eq.
      rewrite Hc. apply share_anti; subst n; lia.
    - rewrite Hnone in Hx by lia. done. }
  { rewrite Hcount, Hkeep. unfold keep, quota, dst_num.
    rewrite <- (qsum_split (share n)).
    replace (m * 2 + (length chunks - m) * 2) with n by (subst n; lia). by rewrite share_sum. }
  destruct (planned_storable _ _ _ _ _ _ _ _ _ _ _ (length chunks) Hpw) as [Hst Hnew];
    [rewrite masters_length; lia|subst dst_num; lia|].
  destruct (finish_plan chunks cs' new) as (chunks' & Hass & Hwf' & Hfr & Hstab & Htgt & Hent);
    [done..|by eapply restable_ok; [| apply Hwf|]|done|apply Hpw|].
  exists cs', new, chunks'. split_and!; try done.
  - unfold remove_slots_from_src. rewrite out_dst_chunks. fold dst_num n.
    rewrite bool_decide_eq_false_2 by lia.
    replace (length chunks - (length chunks - m)) with m by lia.
    rewrite Heq. outcome_simpl. destruct Hpw as [_ _ Hout _ _ _ _ _ _]. by rewrite Hout.
  - pose proof (frames_length _ _ Hfr) as Hlen. split; [lia|lia| | |].
    + intros i j Hi Hj. rewrite decide_True by lia. fold n. rewrite Htgt by done.
      pose proof (parts_rel_lookup keep 0 _ _ (i * 2 + j) (pw_rel _ _ _ _ _ _ _ _ _ _ _ Hpw)) as Hpr.
      cbn [Nat.add] in Hpr. destruct (decide (i < m)) as [Him|Him].
      * destruct (Hsome (i * 2 + j)) as (sr & Hx & _); [lia|]. rewrite Hx in Hpr.
        destruct (masters cs' !! (i * 2 + j)) as [[sr'|]|] eqn:Hx'; try done.
        rewrite parts_have_lookup in Hexact. pose proof (Hexact _ _ Hx') as Hc.
        cbn [from_option id part_count]. unfold keep in Hc. cbn [Nat.add] in Hc. rewrite <- Hc.
        rewrite received_none; [lia|]. eapply Forall_impl; [exact Hnew|].
        intros mg (_ & Hge & _) Heq'. rewrite Heq' in Hge. cbn in Hge. lia.
      * rewrite Hnone in Hpr by lia.
        destruct (masters cs' !! (i * 2 + j)) as [[sr'|]|] eqn:Hx'; try done.
        cbn [from_option id part_count].
        pose proof (Hrec ((i - m) * 2 + j) ltac:(subst dst_num; lia)) as Hrecv.
        rewrite dst_part_index in Hrecv by lia. rewrite Hrecv. rewrite N.add_0_l. unfold quota. f_equal. lia.
    + intros i c Hi Hc. apply lookup_lt_Some in Hc. lia.
    + apply Forall_forall. intros e He. destruct (Hent e He) as (mg & b & Hmg & ->).
      rewrite Forall_forall in Hnew.
      destruct (Hnew mg Hmg) as (_ & Hge & _ & i & j & sr & Hj & _ & Hl & Hsrc).
      rewrite Nat.sub_0_r in Hl. pose proof (lookup_lt_Some _ _ _ Hl) as Hlt. rewrite masters_length in Hlt.
      destruct (decide (i * 2 + j < m * 2)); [|by rewrite Hnone in Hl by lia].
      unfold crosses, plan_entry, src_place, dst_place in *. cbn in *. injection Hsrc as -> _. lia.
  - apply Forall_forall. intros e He. destruct (Hent e He) as (mg & b & Hmg & ->).
    rewrite Forall_forall in Hnew. by apply Hnew.
Qed.
End scale_out.

(** ** Scaling down *)

(** The sources as the loop leaves them, before they are reset to [None]. *)
Definition clear_stable (c : ChunkStore) : ChunkStore := set_stable_slots c (Arr2 None None).

Definition keep_part (loop : SlotRange → RemoveState → res (RangeList * RemoveState))
    (o : option SlotRange) (st : RemoveState) : res (option SlotRange * RemoveState) :=
  match o with
  | None => Ok (None, st)
  | Some sr => '(rl, st) ← loop sr st; Ok (Some (mkSlotRange rl (sr_tag sr)), st)
  end.
Definition clear_part (loop : SlotRange → RemoveState → res (RangeList * RemoveState))
    (o : option SlotRange) (st : RemoveState) : res (option SlotRange * RemoveState) :=
  match o with
  | None => Ok (None, st)
  | Some sr => '(_, st) ← loop sr st; Ok (None, st)
  end.

Lemma over_parts_clear loop cs : ∀ i st cs' st',
  over_parts (λ i j, keep_part (loop i j)) i cs st = Ok (cs', st') →
  over_parts (λ i j, clear_part (loop i j)) i cs st = Ok (clear_stable <$> cs', st').
Proof.
  assert (∀ i j o st o' st', keep_part (loop i j) o st = Ok (o', st') →
    clear_part (loop i j) o st = Ok (None, st')) as Hpart.
  { intros i j [sr|] st o' st'; cbn; [|by intros [= <- <-]].
    destruct (loop i j sr st) as [[rl st1]| |]; cbn; [|done..]. by intros [= <- <-]. }
  induction cs as [|c cs IH]; intros i st cs' st' H; cbn [over_parts] in *.
  { by simplify_eq. }
  destruct (keep_part (loop i 0) _ st) as [[o0 st0]| |] eqn:H0; cbn in H; try done.
  rewrite (Hpart _ _ _ _ _ _ H0). outcome_simpl.
  destruct (keep_part (loop i 1) _ st0) as [[o1 st1]| |] eqn:H1; cbn in H; try done.
  rewrite (Hpart _ _ _ _ _ _ H1). outcome_simpl.
  destruct (over_parts _ (S i) cs st1) as [[cs1 st2]| |] eqn:H2; cbn in H; try done.
  rewrite (IH _ _ _ _ H2). outcome_simpl. by simplify_eq.
Qed.

Section scale_down.
Context (chunks : list ChunkStore) (d : nat) (epoch : N).
Hypothesis Hwf : slots_wf chunks.
Hypothesis Hbal : balanced (length chunks) chunks.
Hypothesis Hidle : all_entries chunks = [].
Hypothesis Hd : 0 < d < length chunks.
Hypothesis Hsize : (N.of_nat (length chunks * 2) ≤ SLOT_NUM)%N.

Let n := length chunks * 2.
(** Every master that stays has to gain a slot. *)
Hypothesis Hgap : ∀ k, k < d * 2 → (share n k < share (d * 2) k)%N.

Let existing := slots_num_of <$> masters (take d chunks).
Let quota k := (share (d * 2) k - default 0%N (existing !! k))%N.

Lemma masters_take_lookup k :
  k < d * 2 → masters (take d chunks) !! k = masters chunks !! k.
Proof.
  intros Hk. rewrite <- (take_drop d chunks) at 2. rewrite masters_app.
  rewrite lookup_app_l; [done|]. rewrite masters_length, length_take. lia.
Qed.

Lemma existing_lookup k : k < d * 2 → existing !! k = Some (share n k).
Proof.
  intros Hk. unfold existing. rewrite list_lookup_fmap, masters_take_lookup by done.
  destruct (balanced_masters _ _ Hwf Hbal Hidle Hsize) as [H1 _].
  destruct (H1 k) as (sr & -> & [_ Hok] & Hc); [lia|].
  cbn. rewrite get_slots_num_ok by done. fold n in Hc. by rewrite Hc.
Qed.

Lemma down_quota k : k < d * 2 → quota k = (share (d * 2) k - share n k)%N ∧ (0 < quota k)%N.
Proof.
  intros Hk. unfold quota. rewrite existing_lookup by done. cbn [from_option id].
  specialize (Hgap k Hk). lia.
Qed.

Lemma down_walk :
  ∃ cs' st' new,
    over_parts (remove_slots_down_part epoch (d * 2) (SLOT_NUM / N.of_nat (d * 2))
      (SLOT_NUM - SLOT_NUM / N.of_nat (d * 2) * N.of_nat (d * 2)) existing)
      d (drop d chunks) remove_init = Ok (clear_stable <$> cs', st') ∧
    parts_walked epoch 0 (d * 2) quota (λ _, 0%N) (d * 2) (masters (drop d chunks)) remove_init
      (masters cs') st' new ∧
    restable (drop d chunks) cs'.
Proof.
  set (loop := λ i j sr st, remove_slots_down_loop epoch (d * 2) (SLOT_NUM / N.of_nat (d * 2))
    (SLOT_NUM - SLOT_NUM / N.of_nat (d * 2) * N.of_nat (d * 2)) existing i j
    (remove_fuel (sr_range_list sr) (d * 2)) (sr_range_list sr) st).
  destruct (over_parts_spec epoch 0 (d * 2) quota (λ _, 0%N) (λ i j, keep_part (loop i j)))
    with (cs := drop d chunks) (i := d) (st := remove_init)
    as (cs' & st' & new & Heq & Hw & Hr).
  - intros i j o st Hj Ho Hinv Hs. destruct o as [sr|].
    + destruct (plan_part_spec epoch take_front 0 quota (λ _, 0%N)
        (λ rl st, remove_slots_down_loop epoch (d * 2) (SLOT_NUM / N.of_nat (d * 2))
           (SLOT_NUM - SLOT_NUM / N.of_nat (d * 2) * N.of_nat (d * 2)) existing i j
           (remove_fuel (sr_range_list sr) (d * 2)) rl st) (d * 2) i j sr st)
        as (rl' & st' & new & Heq & Hw); [| |intros| |done..|].
      * apply take_front_spec.
      * intros. by apply down_quota.
      * apply remove_slots_down_loop_plan; [lia| | |done..].
        -- unfold existing. rewrite length_fmap, masters_length, length_take. lia.
        -- intros k Hk. rewrite existing_lookup by done. cbn. by apply Hgap.
      * done.
      * cbn [keep_part]. unfold loop. rewrite Heq. outcome_simpl. eauto 10.
    + exists None, st, []. split; [done|]. by apply parts_walked_none.
  - apply Forall_drop, Hwf.
  - apply plan_inv_init. intros. by apply down_quota.
  - done.
  - exists cs', st', new. split_and!; [|done|done].
    by apply over_parts_clear in Heq.
Qed.

Lemma parts_count_app l l' : parts_count (l ++ l') = (parts_count l + parts_count l')%N.
Proof. unfold parts_count. induction l; cbn [app foldr] in *; lia. Qed.

Lemma down_counts :
  parts_count (masters (drop d chunks)) =
  (keep_sum (λ _, 0%N) (d * 2) (masters (drop d chunks)) + qsum quota (d * 2))%N.
Proof.
  assert (∀ k l, keep_sum (λ _, 0%N) k l = 0%N) as Hz.
  { intros k l. revert k. induction l as [|[?|] l IH]; intros k; cbn; [done|..]; by rewrite IH. }
  rewrite Hz.
  destruct (balanced_count _ chunks Hwf Hbal Hidle Hsize (λ _, 0%N)) as [Hcount _].
  rewrite <- (take_drop d chunks), masters_app, parts_count_app in Hcount.
  assert (parts_count (masters (take d chunks)) = qsum (share n) (d * 2)) as Htake.
  { rewrite parts_count_qsum, masters_length, length_take, Nat.min_l by lia.
    apply qsum_ext. intros k Hk. rewrite masters_take_lookup by done.
    destruct (balanced_masters _ _ Hwf Hbal Hidle Hsize) as [H1 _].
    destruct (H1 k) as (sr & -> & _ & Hc); [lia|]. done. }
  rewrite (qsum_ext _ _ _ (λ k Hk, proj1 (down_quota k Hk))).
  pose proof (qsum_sub (share (d * 2)) (share n) (d * 2)) as Hsub.
  rewrite share_sum in Hsub by lia. rewrite <- Hsub in Hcount; [lia|].
  intros k Hk. specialize (Hgap k Hk). lia.
Qed.

Lemma emptied_cover s cs :
  Forall chunk_ok cs → parts_have (λ _, 0%N) eq (d * 2) (masters cs) →
  sum_list_with (opt_cover s) (masters cs) = 0.
Proof.
  intros Hok Hh. rewrite parts_have_lookup in Hh.
  assert (∀ l, (∀ x sr, l !! x = Some (Some sr) → sr_range_list sr = []) →
    sum_list_with (opt_cover s) l = 0) as Hl.
  { induction l as [|o l IH]; intros Hl; [done|]. cbn [sum_list_with]. rewrite IH.
    - destruct o as [sr|]; [|done]. cbn [opt_cover]. by rewrite (Hl 0 sr eq_refl).
    - intros x sr Hx. by apply (Hl (S x)). }
  apply Hl. intros x sr Hx. pose proof (Hh x sr Hx) as Hc.
  apply slots_count_zero; [|done].
  destruct (index_split x) as (i & j & -> & Hj). rewrite masters_lookup in Hx by done.
  destruct (cs !! i) as [c|] eqn:Hi; [|done]. cbn in Hx.
  destruct (Forall_lookup_1 _ _ _ _ Hok Hi) as (H0 & H1 & _).
  destruct j as [|[|]]; cbn in Hx; simplify_eq;
    [rewrite Hx in H0; apply H0|rewrite Hx in H1; apply H1].
Qed.

Lemma clear_masters s cs :
  sum_list_with (opt_cover s) (masters (clear_stable <$> cs)) = 0 ∧
  ∀ x o, masters (clear_stable <$> cs) !! x = Some o → o = None.
Proof.
  induction cs as [|c cs [IH1 IH2]]; [done|]. split; [exact IH1|].
  intros [|[|x]] o Hx; cbn in Hx; [by simplify_eq..|]. by apply (IH2 x).
Qed.

Lemma down_final cs' :
  restable (drop d chunks) cs' →
  restable chunks (take d chunks ++ (clear_stable <$> cs')) ∧
  Forall chunk_ok (take d chunks ++ (clear_stable <$> cs')).
Proof.
  intros Hr. split.
  - unfold restable in *. rewrite <- (take_drop d chunks) at 1. apply Forall2_app.
    + apply Forall2_same_length_lookup. split; [done|].
      intros i c c' Hc Hc'. rewrite Hc in Hc'. simplify_eq. by destruct c'.
    + induction Hr as [|c c' cs cs' Hc _ IH]; [constructor|]. rewrite fmap_cons.
      constructor; [|done]. by rewrite Hc.
  - apply Forall_app. split; [apply Forall_take, Hwf|].
    assert (Forall chunk_ok (drop d chunks)) as Hok by apply Forall_drop, Hwf.
    induction Hr as [|c c' cs cs' Hc _ IH]; [constructor|].
    apply Forall_cons in Hok as [(_ & _ & He) Hok]. rewrite fmap_cons.
    constructor; [|by apply IH]. rewrite Hc. split_and!; done.
Qed.

Lemma down_final_lookup cs' i j :
  length cs' = length (drop d chunks) → i < length chunks → j < 2 →
  default None (masters (take d chunks ++ (clear_stable <$> cs')) !! (i * 2 + j)) =
  if decide (i < d) then default None (masters chunks !! (i * 2 + j)) else None.
Proof.
  intros Hlen Hi Hj. rewrite masters_app. case_decide.
  - rewrite lookup_app_l by (rewrite masters_length, length_take; lia).
    by rewrite masters_take_lookup by lia.
  - rewrite lookup_app_r by (rewrite masters_length, length_take; lia).
    destruct (masters (clear_stable <$> cs') !! _) as [o|] eqn:Ho; [|done].
    by rewrite (proj2 (clear_masters 0 cs') _ _ Ho).
Qed.

Lemma masters_alt cs : mjoin (arr2_list ∘ ch_stable_slots <$> cs) = masters cs.
Proof. induction cs as [|c cs IH]; [done|]. cbn. by rewrite <- IH. Qed.

Lemma scale_down_plan :
  ∃ chunks1 ms chunks', remove_slots_from_src_to_scale_down chunks epoch d = Ok (chunks1, ms) ∧
    assign_dst_slots chunks1 ms = Ok chunks' ∧
    slots_wf chunks' ∧ balanced d chunks' ∧ frames chunks' = frames chunks ∧
    Forall (λ e, ms_epoch (mr_meta e) = epoch) (all_entries chunks').
Proof.
  destruct down_walk as (cs' & st' & new & Heq & Hpw & Hr).
  assert (length cs' = length (drop d chunks)) as Hlen' by (symmetry; by eapply Forall2_length).
  destruct (parts_complete epoch 0 (d * 2) quota (λ _, 0%N) (d * 2) _ _ _ _ Hpw)
    as [Hrec Hexact]; [|apply down_counts|].
  { apply parts_have_lookup. intros. lia. }
  assert (Forall chunk_ok cs') as Hok'
    by (eapply restable_ok; [done|apply Forall_drop, Hwf|done]).
  destruct (down_final cs' Hr) as [Hr' Hok].
  destruct (planned_storable _ _ _ _ _ _ _ _ _ _ _ (length chunks) Hpw) as [Hst Hnew];
    [rewrite masters_length, length_drop; lia|lia|].
  destruct (finish_plan chunks (take d chunks ++ (clear_stable <$> cs')) new)
    as (chunks' & Hass & Hwf' & Hfr & Hstab & Htgt & Hent); [done..| |].
  { intros s. rewrite <- (take_drop d chunks) at 1. rewrite !masters_app, !sum_list_with_app.
    rewrite (pw_cover _ _ _ _ _ _ _ _ _ _ _ Hpw s), (emptied_cover s cs') by done.
    rewrite (proj1 (clear_masters s cs')). lia. }
  exists (take d chunks ++ (clear_stable <$> cs')), new, chunks'. split_and!; try done.
  - unfold remove_slots_from_src_to_scale_down. rewrite bool_decide_eq_false_2 by lia.
    rewrite masters_alt. fold existing. rewrite Heq. outcome_simpl.
    destruct Hpw as [_ _ Hout _ _ _ _ _ _]. by rewrite Hout.
  - pose proof (frames_length _ _ Hfr) as Hlen. split; [lia|lia| | |].
    + intros i j Hi Hj. rewrite Htgt, down_final_lookup by (done || lia).
      case_decide.
      * destruct (balanced_masters _ _ Hwf Hbal Hidle Hsize) as [H1 _].
        destruct (H1 (i * 2 + j)) as (sr & -> & _ & Hc); [lia|]. cbn [from_option id part_count].
        rewrite Hc. fold n. pose proof (Hrec (i * 2 + j) ltac:(lia)) as Hrecv.
        pose proof (dst_part_index 0 i j ltac:(lia) Hj) as Hidx. rewrite Nat.sub_0_r in Hidx.
        rewrite Hidx in Hrecv. rewrite Hrecv.
        destruct (down_quota (i * 2 + j)) as [-> _]; [lia|].
        specialize (Hgap (i * 2 + j) ltac:(lia)). lia.
      * rewrite received_none; [done|]. eapply Forall_impl; [exact Hnew|].
        intros mg (_ & _ & (x & Hx & Hp) & _) Heq'. rewrite Hp in Heq'. unfold dst_part in Heq'.
        apply pair_equal_spec in Heq' as [Hx1 _]. cbn [Nat.add] in Hx1.
        pose proof (Nat.Div0.div_lt_upper_bound x 2 d). lia.
    + intros i c Hi Hc.
      assert (ch_stable_slots <$> chunks' !! i = Some (ch_stable_slots c)) as Hl
        by by rewrite Hc.
      rewrite <- list_lookup_fmap, Hstab, list_lookup_fmap in Hl.
      rewrite lookup_app_r in Hl by (rewrite length_take; lia).
      rewrite list_lookup_fmap in Hl. destruct (cs' !! _); cbn in Hl; by simplify_eq.
    + apply Forall_forall. intros e He. destruct (Hent e He) as (mg & b & Hmg & ->).
      rewrite Forall_forall in Hnew.
      destruct (Hnew mg Hmg) as (_ & _ & (x & Hx & Hdst) & i & j & sr & Hj & Hge & _ & Hsrc).
      assert (x / 2 < d) by (apply Nat.Div0.div_lt_upper_bound; lia).
      unfold crosses, plan_entry, src_place, dst_place, dst_part in *. cbn [mr_meta].
      injection Hsrc as -> _. apply pair_equal_spec in Hdst as [-> _]. lia.
  - apply Forall_forall. intros e He. destruct (Hent e He) as (mg & b & Hmg & ->).
    rewrite Forall_forall in Hnew. by apply Hnew.
Qed.
End scale_down.

(** Up to this many chunks, every master that stays gains a slot when a
    cluster is scaled down. *)
Definition MAX_SAFE_CHUNKS : nat := 91.

Lemma share_gap n d k :
  0 < d < n → n ≤ MAX_SAFE_CHUNKS → k < d * 2 → (share (n * 2) k < share (d * 2) k)%N.
Proof.
  intros Hd Hn Hk.
  assert (forallb (λ n, forallb (λ k, (share (n * 2) k <? share ((n - 1) * 2) k)%N)
    (seq 0 ((n - 1) * 2))) (seq 0 92) = true) as H by (vm_compute; reflexivity).
  unfold MAX_SAFE_CHUNKS in Hn.
  rewrite forallb_forall in H. specialize (H n). rewrite in_seq in H. specialize (H ltac:(lia)).
  rewrite forallb_forall in H. specialize (H k). rewrite in_seq in H. specialize (H ltac:(lia)).
  apply N.ltb_lt in H. pose proof (share_anti (d * 2) ((n - 1) * 2) k). lia.
Qed.
