(* ===== verification/Commit.v ===== *)
(** * Committing a migration

    [commit_migration] takes the migrating entry away from the source and
    hands the slots of the importing entry over to the destination.  On a
    well-formed cluster the task it is given names at most one pair of
    entries, no slot is lost or owned twice, and the balance is kept. *)

From S2P Require Import Prelude RangeList RustStr ClusterMeta Store SlotInv Query Migrate Plan.
From S2P Require Import Balance.

(** ** Uniqueness of a task *)

Lemma sum_list_with_two {A} (f : A → nat) (l : list A) x y :
  x ∈ l → y ∈ l → x ≠ y → f x + f y ≤ sum_list_with f l.
Proof.
  intros Hx Hy Hne. apply list_elem_of_split in Hx as (l1 & l2 & ->).
  rewrite sum_list_with_app. cbn [sum_list_with].
  apply elem_of_app in Hy as [Hy|Hy].
  - pose proof (sum_list_with_in y f l1 Hy). lia.
  - apply elem_of_cons in Hy as [->|Hy]; [done|]. pose proof (sum_list_with_in y f l2 Hy). lia.
Qed.

Lemma entries_cover_le s chunks :
  sum_list_with (out_cover s) (all_entries chunks) ≤ chunks_cover s chunks.
Proof. rewrite chunks_cover_masters. lia. Qed.

Lemma entries_ok chunks e : Forall chunk_ok chunks → e ∈ all_entries chunks → entry_ok e.
Proof.
  intros Hok (l & He & Hl)%list_elem_of_join. apply list_elem_of_fmap in Hl as (c & -> & Hc).
  rewrite Forall_forall in Hok. destruct (Hok c Hc) as (_ & _ & Hf).
  rewrite Forall_forall in Hf. by apply Hf.
Qed.

Lemma entry_slot e : entry_ok e → ∃ s, cover s (mr_range_list e) ≠ 0.
Proof.
  intros [[[Ho _] _] Hne]. destruct (mr_range_list e) as [|r rl]; [done|].
  exists (r_start r). apply Forall_cons in Ho as [Ho _]. cbn [cover]. in_range_lia.
Qed.

(** Two migrating entries with the same slots are the same entry. *)
Lemma migrating_unique chunks e e' :
  slots_wf chunks → e ∈ all_entries chunks → e' ∈ all_entries chunks →
  mr_is_migrating e = true → mr_is_migrating e' = true →
  mr_range_list e = mr_range_list e' → e = e'.
Proof.
  intros Hwf He He' Hm Hm' Hrl. destruct (decide (e = e')) as [|Hne]; [done|]. exfalso.
  destruct (entry_slot e) as [s Hs]; [by eapply entries_ok; [apply Hwf|]|].
  pose proof (sum_list_with_two (out_cover s) _ _ _ He He' Hne) as Hsum.
  pose proof (entries_cover_le s chunks). rewrite (sw_partition _ Hwf s) in H.
  pose proof (owned_once_le s). unfold out_cover in Hsum at 1 2.
  rewrite Hm, Hm', <- Hrl in Hsum. lia.
Qed.

Lemma mirror_entry chunks e :
  mirrored chunks → e ∈ all_entries chunks →
  ∀ b, set_is_migrating e b ∈ all_entries chunks.
Proof.
  intros Hm He b.
  assert (entry_key e ∈ keys_of b (all_entries chunks)) as Hk.
  { assert (entry_key e ∈ keys_of (mr_is_migrating e) (all_entries chunks)) as Hin
      by (apply elem_of_keys; eauto).
    unfold mirrored in Hm.
    destruct (mr_is_migrating e), b; [done|by rewrite <- Hm|by rewrite Hm|done]. }
  apply elem_of_keys in Hk as (e' & He' & Hb & [= Hrl Hmeta]).
  destruct e', e. cbn in *. by subst.
Qed.

(** ** Finding the task *)

Lemma elem_of_located chunks i j e :
  (i, j, e) ∈ located_entries chunks ↔ ∃ l, part_entries chunks i j = Some l ∧ e ∈ l.
Proof.
  unfold located_entries, part_entries. rewrite list_elem_of_join. split.
  - intros (l & He & Hl). apply list_elem_of_lookup in Hl as [k Hk].
    rewrite list_lookup_imap in Hk. destruct (chunks !! k) as [c|] eqn:Hc; [|done].
    cbn in Hk. simplify_eq. rewrite elem_of_app, !list_elem_of_fmap in He.
    destruct He as [(e' & Heq & He')|(e' & Heq & He')]; simplify_eq; rewrite Hc; eauto.
  - intros (l & Hl & He). destruct (chunks !! i) as [c|] eqn:Hc; [|done]. cbn in Hl.
    eexists. split.
    2: { apply (list_elem_of_lookup_2 _ i). rewrite list_lookup_imap, Hc. cbn. reflexivity. }
    rewrite elem_of_app, !list_elem_of_fmap.
    destruct j as [|[|]]; cbn in Hl; simplify_eq; [left|right]; eauto.
Qed.

Lemma find_task_Some chunks rl ep b i j :
  placed chunks → find_task chunks rl ep b = Some (i, j) →
  ∃ e, e ∈ all_entries chunks ∧ mr_range_list e = rl ∧ ms_epoch (mr_meta e) = ep ∧
    mr_is_migrating e = b ∧ entry_place e = (i, j).
Proof.
  intros Hp. unfold find_task. destruct (find _ _) as [[[i' j'] e]|] eqn:Hf; [|done].
  cbn. intros [= -> ->]. apply find_some in Hf as [Hin Hb].
  apply bool_decide_eq_true in Hb as (Hrl & Hep & Hm). cbn in *.
  apply list_elem_of_In, elem_of_located in Hin as (l & Hl & He).
  exists e. split_and!; try done; [apply elem_of_all_entries; eauto|by eapply Hp].
Qed.

Lemma find_task_None chunks rl ep b e :
  find_task chunks rl ep b = None → e ∈ all_entries chunks →
  ¬ (mr_range_list e = rl ∧ ms_epoch (mr_meta e) = ep ∧ mr_is_migrating e = b).
Proof.
  unfold find_task. destruct (find _ _) as [?|] eqn:Hf; [done|]. intros _ He Hc.
  apply elem_of_all_entries in He as (i & j & l & Hl & He).
  assert ((i, j, e) ∈ located_entries chunks) as Hin by (apply elem_of_located; eauto).
  apply list_elem_of_In in Hin. apply (find_none _ _ Hf) in Hin.
  by apply bool_decide_eq_false in Hin.
Qed.

(** The task that is found is a migrating entry and its mirror. *)
Lemma find_task_pair chunks rl ep si sp di dp :
  slots_wf chunks → find_task chunks rl ep true = Some (si, sp) →
  find_task chunks rl ep false = Some (di, dp) →
  ∃ e, e ∈ all_entries chunks ∧ mr_is_migrating e = true ∧ mr_range_list e = rl ∧
    mr_meta e = mkMigrationMetaStore ep si sp di dp.
Proof.
  intros Hwf Hs Hd. pose proof (sw_placed _ Hwf) as Hp.
  apply find_task_Some in Hs as (e & He & Hrl & Hep & Hb & Hpl); [|done].
  apply find_task_Some in Hd as (e' & He' & Hrl' & Hep' & Hb' & Hpl'); [|done].
  pose proof (mirror_entry _ _ (sw_mirrored _ Hwf) He' true) as Hin.
  assert (e = set_is_migrating e' true) as Heq
    by (eapply migrating_unique; [done..|cbn; congruence]).
  exists e. split_and!; try done. unfold entry_place in *. rewrite Hb in Hpl. rewrite Hb' in Hpl'.
  assert (mr_meta e = mr_meta e') as Hmeta by by rewrite Heq.
  destruct (mr_meta e) as [? ? ? ? ?] eqn:Hme. rewrite <- Hmeta in *. cbn in *. congruence.
Qed.

(** ** Removing the migrating entry *)

Lemma retain_all_entries rl meta cs :
  all_entries (retain_others rl meta <$> cs) =
  filter (λ x, is_task true rl meta x = false) (all_entries cs).
Proof.
  induction cs as [|c cs IH]; [done|].
  rewrite fmap_cons, !all_entries_cons, filter_app, IH. f_equal.
  unfold chunk_entries. cbn. by rewrite filter_app.
Qed.

Lemma retain_masters rl meta cs : masters (retain_others rl meta <$> cs) = masters cs.
Proof. induction cs as [|c cs IH]; [done|]. cbn. by rewrite <- IH. Qed.

Section commit.
Context (chunks : list ChunkStore) (e : MigrationSlotRangeStore).
Hypothesis Hwf : slots_wf chunks.
Hypothesis He : e ∈ all_entries chunks.
Hypothesis Hmig : mr_is_migrating e = true.

Let rl := mr_range_list e.
Let meta := mr_meta e.
Let chunks1 := retain_others rl meta <$> chunks.

Lemma is_task_spec b x : is_task b rl meta x = true ↔ x = set_is_migrating e b.
Proof.
  unfold is_task. rewrite bool_decide_eq_true. split.
  - intros (Hb & Hrl & Hm). destruct x. cbn in *. by subst.
  - intros ->. by split_and!.
Qed.

Lemma e_task : set_is_migrating e true = e.
Proof. destruct e. cbn in *. by subst. Qed.

Lemma e_slots : ∃ s, cover s rl ≠ 0.
Proof. apply entry_slot. by eapply entries_ok; [apply Hwf|]. Qed.

(** The entries are the task, its mirror, and others. *)
Lemma entries_split :
  ∃ rest, all_entries chunks ≡ₚ (e :: rest) ∧ (e ∉ rest) ∧ all_entries chunks1 = rest.
Proof.
  pose proof He as Hin0. apply list_elem_of_split in Hin0 as (l1 & l2 & Hl).
  assert (e ∉ l1 ++ l2) as Hnotin.
  { intros Hin. destruct e_slots as [s Hs].
    pose proof (entries_cover_le s chunks) as Hle. rewrite (sw_partition _ Hwf s), Hl in Hle.
    rewrite sum_list_with_app in Hle. cbn [sum_list_with] in Hle.
    assert (out_cover s e = cover s rl) as Ho by (unfold out_cover; by rewrite Hmig).
    pose proof (owned_once_le s).
    apply elem_of_app in Hin as [Hin|Hin]; pose proof (sum_list_with_in e (out_cover s) _ Hin); lia. }
  exists (l1 ++ l2). split_and!; [|done|].
  - rewrite Hl. symmetry. apply Permutation_middle.
  - unfold chunks1. rewrite retain_all_entries, Hl, filter_app, filter_cons.
    rewrite decide_False by (rewrite (proj2 (is_task_spec true e)); [done|by rewrite e_task]).
    assert (∀ l : list MigrationSlotRangeStore, e ∉ l → filter (λ x, is_task true rl meta x = false) l = l) as Hf.
    { intros l Hni. apply filter_all. intros x Hx.
      destruct (is_task true rl meta x) eqn:Ht; [|done].
      apply is_task_spec in Ht. rewrite e_task in Ht. by subst. }
    rewrite !Hf; set_solver.
Qed.

Lemma retain_lookup i c :
  chunks1 !! i = Some c →
  ∃ c0, chunks !! i = Some c0 ∧ c = retain_others rl meta c0.
Proof. unfold chunks1. rewrite list_lookup_fmap. destruct (chunks !! i); cbn; naive_solver. Qed.

Lemma retain_part_entries i j l :
  part_entries chunks1 i j = Some l →
  ∃ l0, part_entries chunks i j = Some l0 ∧
    l = filter (λ x, is_task true rl meta x = false) l0.
Proof.
  unfold part_entries. destruct (chunks1 !! i) as [c|] eqn:Hi; [|done].
  apply retain_lookup in Hi as (c0 & Hc0 & ->). rewrite Hc0. cbn.
  destruct j as [|[|]]; cbn; intros; simplify_eq; eauto.
Qed.

Lemma retain_cover s : chunks_cover s chunks1 + cover s rl = chunks_cover s chunks.
Proof.
  rewrite !chunks_cover_masters. destruct entries_split as (rest & Hperm & _ & Hrest).
  rewrite Hrest. unfold chunks1. rewrite retain_masters.
  rewrite Hperm. cbn [sum_list_with].
  assert (out_cover s e = cover s rl) as -> by (unfold out_cover; by rewrite Hmig). lia.
Qed.

Lemma retain_chunk_ok : Forall chunk_ok chunks1.
Proof.
  apply Forall_fmap. eapply Forall_impl; [apply (sw_chunks _ Hwf)|].
  intros c (H0 & H1 & Hf). cbn. split_and!; [done|done|].
  unfold chunk_entries in *. cbn. rewrite Forall_app in *. rewrite !Forall_forall in *.
  destruct Hf as [Hf0 Hf1]. split; intros x [_ Hx]%list_elem_of_filter; auto.
Qed.

(** ** Handing the slots to the destination *)

Lemma remove_first_spec {A} (P : A → bool) l :
  match remove_first P l with
  | Some (x, l') => P x = true ∧ l ≡ₚ x :: l' ∧ ∀ y, y ∈ l' → y ∈ l
  | None => Forall (λ x, P x = false) l
  end.
Proof.
  induction l as [|x l IH]; cbn [remove_first]; [constructor|].
  destruct (P x) eqn:Hx.
  - split_and!; [done|done|]. intros y Hy. by right.
  - destruct (remove_first P l) as [[y l']|]; cbn.
    + destruct IH as (Hy & Hperm & Hin). split_and!; [done| |].
      * rewrite Hperm. constructor.
      * intros z [->|Hz]%elem_of_cons; [left|right; auto].
    + by constructor.
Qed.

Lemma take_importing_None c :
  take_importing rl meta c = None → set_is_migrating e false ∉ chunk_entries c.
Proof.
  unfold take_importing, chunk_entries.
  pose proof (remove_first_spec (is_task false rl meta) (at0 (ch_migrating_slots c))) as H0.
  pose proof (remove_first_spec (is_task false rl meta) (at1 (ch_migrating_slots c))) as H1.
  destruct (remove_first _ (at0 _)) as [[? ?]|]; [done|].
  destruct (remove_first _ (at1 _)) as [[? ?]|]; [done|].
  intros _ Hin. rewrite Forall_forall in H0, H1.
  pose proof (proj2 (is_task_spec false _) eq_refl) as Ht.
  apply elem_of_app in Hin as [Hin|Hin]; [specialize (H0 _ Hin)|specialize (H1 _ Hin)]; congruence.
Qed.

Lemma take_importing_Some c j x c1 :
  take_importing rl meta c = Some (j, x, c1) →
  x = set_is_migrating e false ∧ j < 2 ∧ ch_stable_slots c1 = ch_stable_slots c ∧
  chunk_frame c1 = chunk_frame c ∧ chunk_entries c ≡ₚ x :: chunk_entries c1 ∧
  (∀ j' l l1, arr2_get (ch_migrating_slots c) j' = Some l →
     arr2_get (ch_migrating_slots c1) j' = Some l1 →
     l ≡ₚ (if decide (j' = j) then [x] else []) ++ l1).
Proof.
  unfold take_importing, chunk_entries.
  pose proof (remove_first_spec (is_task false rl meta) (at0 (ch_migrating_slots c))) as H0.
  pose proof (remove_first_spec (is_task false rl meta) (at1 (ch_migrating_slots c))) as H1.
  destruct (remove_first _ (at0 _)) as [[x0 l0]|].
  - intros [= <- <- <-]. destruct H0 as (Hx & Hperm & Hin). apply is_task_spec in Hx as ->.
    split_and!; [done|lia|done|done|by rewrite Hperm|].
    intros [|[|j']] l l1 Hl Hl1; cbn in Hl, Hl1; simplify_eq; done.
  - destruct (remove_first _ (at1 _)) as [[x1 l1]|]; [|done].
    intros [= <- <- <-]. destruct H1 as (Hx & Hperm & Hin). apply is_task_spec in Hx as ->.
    split_and!; [done|lia|done|done| |].
    + cbn. rewrite Hperm. symmetry. apply Permutation_middle.
    + intros [|[|j']] l l2 Hl Hl2; cbn in Hl, Hl2; simplify_eq; done.
Qed.

Lemma commit_stable_spec j c :
  j < 2 → chunk_ok c → range_ok rl → (∀ s, chunk_cover s c + cover s rl ≤ 1) →
  ∃ c', commit_stable j rl c = Some c' ∧ ch_migrating_slots c' = ch_migrating_slots c ∧
    chunk_frame c' = chunk_frame c ∧ chunk_ok c' ∧
    (∀ s, chunk_cover s c' = chunk_cover s c + cover s rl) ∧
    ∀ j', part_count (default None (arr2_get (ch_stable_slots c') j')) =
      (part_count (default None (arr2_get (ch_stable_slots c) j')) +
       if decide (j' = j) then slots_count rl else 0)%N.
Proof.
  intros Hj (H0 & H1 & Hf) Hrl Hc. unfold commit_stable.
  destruct (arr2_get_lt (ch_stable_slots c) j Hj) as [o Ho]. rewrite Ho. cbn [mbind option_bind].
  assert (stable_ok o ∧ ∀ s, opt_cover s o ≤ chunk_cover s c) as [Hok Hle].
  { unfold chunk_cover. destruct j as [|[|]]; cbn in Ho; simplify_eq;
      (split; [done|intros; lia]). }
  set (sr := match o with Some sr => _ | None => _ end).
  assert (stable_ok (Some sr) ∧ (∀ s, opt_cover s (Some sr) = opt_cover s o + cover s rl) ∧
    part_count (Some sr) = (part_count o + slots_count rl)%N) as (Hok' & Hcov & Hcnt).
  { destruct o as [sr0|]; [|by split_and!]. destruct Hok as [Ht Hr].
    destruct (merge_another_ok (sr_range_list sr0) rl Hr Hrl) as [Hm1 Hm2].
    { intros s. specialize (Hle s). specialize (Hc s). cbn [opt_cover] in Hle. lia. }
    split_and!; [by split|done|]. unfold sr. cbn [part_count sr_range_list].
    rewrite <- slots_count_app. destruct Hr as [[? ?] ?], Hrl as [[? ?] ?].
    apply slots_count_cover; [apply Hm1|apply Hm1|by apply Forall_app|by apply Forall_app|].
    intros s. by rewrite Hm2, cover_app. }
  eexists. split; [done|]. split_and!; [done|done| | |].
  - clearbody sr. unfold chunk_ok. destruct j as [|[|]]; [split_and!; assumption..|lia].
  - intros s. specialize (Hcov s). unfold chunk_cover, chunk_entries.
    destruct j as [|[|]]; cbn [arr2_get] in Ho; simplify_eq;
      cbn [arr2_set ch_stable_slots set_stable_slots ch_migrating_slots at0 at1]; lia.
  - intros j'. destruct j as [|[|]], j' as [|[|j']]; cbn [arr2_get] in Ho; simplify_eq;
      cbn [arr2_set arr2_get ch_stable_slots set_stable_slots at0 at1 from_option id];
      rewrite ?Hcnt; repeat case_decide; simplify_eq; cbn [part_count]; lia.
Qed.

(** The chunk that holds the importing entry takes its slots over. *)
Lemma commit_importing_spec cs :
  set_is_migrating e false ∈ all_entries cs →
  (∀ c j c1, c ∈ cs → take_importing rl meta c = Some (j, set_is_migrating e false, c1) →
     is_Some (commit_stable j rl c1)) →
  ∃ i c j c1 c', cs !! i = Some c ∧
    take_importing rl meta c = Some (j, set_is_migrating e false, c1) ∧
    commit_stable j rl c1 = Some c' ∧ commit_importing rl meta cs = Ok (<[i := c']> cs).
Proof.
  induction cs as [|c cs IH]; intros Hin Hst; [set_solver|]. cbn [commit_importing].
  destruct (take_importing rl meta c) as [[[j x] c1]|] eqn:Ht.
  - destruct (take_importing_Some _ _ _ _ Ht) as (-> & _).
    destruct (Hst c j c1) as [c' Hc']; [by left|done|].
    exists 0, c, j, c1, c'. split_and!; try done.
    change (mr_range_list (set_is_migrating e false)) with rl. rewrite Hc'. done.
  - rewrite all_entries_cons, elem_of_app in Hin.
    destruct Hin as [Hin|Hin]; [by apply take_importing_None in Ht|].
    destruct IH as (i & c0 & j & c1 & c' & Hi & Ht' & Hc' & Heq); [done| |].
    { intros. eapply Hst; [by right|done]. }
    exists (S i), c0, j, c1, c'. split_and!; try done. rewrite Heq. done.
Qed.

(** ** The whole commit *)

Lemma incoming_perm l l' : l ≡ₚ l' → incoming l = incoming l'.
Proof. unfold incoming. induction 1; cbn [foldr] in *; lia. Qed.

Lemma incoming_retain l :
  incoming (filter (λ x, is_task true rl meta x = false) l) = incoming l.
Proof.
  unfold incoming. induction l as [|x l IH]; [done|]. rewrite filter_cons.
  case_decide as Hx; cbn [foldr]; rewrite IH; [done|].
  apply not_false_iff_true in Hx. apply is_task_spec in Hx as ->. cbn. lia.
Qed.

Lemma retain_target i j : j < 2 → target chunks1 i j = target chunks i j.
Proof.
  intros Hj. unfold target, chunks1. rewrite list_lookup_fmap.
  destruct (chunks !! i) as [c|]; [|done]. cbn [fmap option_fmap option_map].
  destruct j as [|[|]]; [..|lia]; cbn -[incoming]; by rewrite incoming_retain.
Qed.

Record committed (chunks' : list ChunkStore) : Prop := {
  cm_wf : slots_wf chunks';
  cm_frames : frames chunks' = frames chunks;
  cm_target : ∀ i j, j < 2 → target chunks' i j = target chunks i j;
  cm_entries : all_entries chunks ≡ₚ e :: set_is_migrating e false :: all_entries chunks';
  cm_masters : ∀ i c', chunks' !! i = Some c' →
    (∃ c, chunks !! i = Some c ∧ ch_stable_slots c' = ch_stable_slots c) ∨
    (∃ j, entry_place (set_is_migrating e false) = (i, j) ∧ j < 2);
}.

Section committed.
Context (i j : nat) (c c1 c' : ChunkStore).
Let ei := set_is_migrating e false.
Hypothesis Hi : chunks1 !! i = Some c.
Hypothesis Ht : take_importing rl meta c = Some (j, ei, c1).
Hypothesis Hc' : commit_stable j rl c1 = Some c'.
Hypothesis Hmigr : ch_migrating_slots c' = ch_migrating_slots c1.
Hypothesis Hframe : chunk_frame c' = chunk_frame c1.
Hypothesis Hok : chunk_ok c'.
Hypothesis Hcov : ∀ s, chunk_cover s c' = chunk_cover s c1 + cover s rl.
Hypothesis Hcnt : ∀ j', part_count (default None (arr2_get (ch_stable_slots c') j')) =
  (part_count (default None (arr2_get (ch_stable_slots c1) j')) +
   if decide (j' = j) then slots_count rl else 0)%N.
Let chunks' := <[i := c']> chunks1.

Lemma committed_entries : all_entries chunks ≡ₚ e :: ei :: all_entries chunks'.
Proof.
  destruct (take_importing_Some _ _ _ _ Ht) as (_ & _ & _ & _ & Hperm & _).
  destruct entries_split as (rest & -> & _ & <-). constructor.
  assert (<[i := c]> chunks' = chunks1) as Hback.
  { unfold chunks'. rewrite list_insert_insert_eq. by apply list_insert_id. }
  rewrite <- Hback at 1. change (ei :: all_entries chunks') with ([ei] ++ all_entries chunks').
  apply (all_entries_insert _ _ c').
  - unfold chunks'. rewrite list_lookup_insert_eq; [done|]. by eapply lookup_lt_Some.
  - rewrite Hperm. unfold chunk_entries. by rewrite Hmigr.
Qed.

Lemma committed_part i' j' l :
  part_entries chunks' i' j' = Some l →
  ∃ l0, part_entries chunks i' j' = Some l0 ∧ ∀ x, x ∈ l → x ∈ l0.
Proof.
  destruct (take_importing_Some _ _ _ _ Ht) as (_ & _ & _ & _ & _ & Hl).
  intros Hp. unfold chunks' in Hp. rewrite (part_entries_insert _ _ c) in Hp by done.
  assert (∃ l1, part_entries chunks1 i' j' = Some l1 ∧ ∀ x, x ∈ l → x ∈ l1) as (l1 & Hl1 & Hin).
  { case_decide as Hii; [subst|by eauto]. unfold part_entries. rewrite Hi. cbn.
    rewrite Hmigr in Hp. pose proof (arr2_get_Some _ _ _ Hp) as Hj'.
    destruct (arr2_get_lt (ch_migrating_slots c) j' Hj') as [l1 Hl1].
    exists l1. split; [done|]. intros x Hx. rewrite (Hl _ _ _ Hl1 Hp), elem_of_app. by right. }
  apply retain_part_entries in Hl1 as (l0 & Hl0 & ->). exists l0. split; [done|].
  intros x Hx. by apply Hin, list_elem_of_filter in Hx as [_ Hx].
Qed.

Lemma committed_spec : committed chunks'.
Proof.
  destruct (take_importing_Some _ _ _ _ Ht) as (_ & Hj & Hst & Hfr & Hperm & Hl).
  assert (∀ s, out_cover s ei = 0) as Hzero by done.
  split.
  - split.
    + intros s. rewrite <- (sw_partition _ Hwf s), <- retain_cover.
      pose proof (chunks_cover_insert s _ _ _ c' Hi). fold chunks' in H. specialize (Hcov s).
      assert (chunk_cover s c = chunk_cover s c1) as Heq; [|lia].
      unfold chunk_cover. rewrite Hst, Hperm. cbn [sum_list_with]. rewrite Hzero. lia.
    + apply Forall_insert; [apply retain_chunk_ok|done].
    + intros i' j' l x Hp Hx. destruct (committed_part _ _ _ Hp) as (l0 & Hl0 & Hin).
      eapply (sw_placed _ Hwf); [done|auto].
    + pose proof (sw_mirrored _ Hwf) as Hm. unfold mirrored in *.
      rewrite !(keys_of_perm _ _ _ committed_entries), !keys_of_cons in Hm.
      rewrite !Hmig in Hm. cbn in Hm. by apply Permutation_cons_inv in Hm.
  - unfold chunks'. rewrite (frames_insert _ _ c) by (done || by rewrite Hframe).
    unfold chunks1, frames. by rewrite <- list_fmap_compose.
  - intros i' j' Hj'. rewrite <- retain_target by done. unfold target, chunks'.
    destruct (decide (i' = i)) as [->|]; [|by rewrite list_lookup_insert_ne].
    rewrite list_lookup_insert_eq by (by eapply lookup_lt_Some). rewrite Hi, Hcnt, Hst, Hmigr.
    destruct (arr2_get_lt (ch_migrating_slots c) j' Hj') as [l Hlc].
    destruct (arr2_get_lt (ch_migrating_slots c1) j' Hj') as [l1 Hlc1].
    rewrite Hlc, Hlc1. cbn [from_option id].
    rewrite (incoming_perm _ _ (Hl _ _ _ Hlc Hlc1)), incoming_app.
    case_decide; [|unfold incoming; cbn; lia].
    assert (incoming [ei] = slots_count rl) as -> by apply N.add_0_r. lia.
  - apply committed_entries.
  - intros i' c0 Hi'. unfold chunks' in Hi'. destruct (decide (i' = i)) as [->|Hne].
    + right. exists j. split; [|done].
      assert (ei ∈ chunk_entries c) as Hin by (rewrite Hperm; by left).
      destruct (arr2_get_lt (ch_migrating_slots c) j Hj) as [l Hlc].
      destruct (arr2_get_lt (ch_migrating_slots c1) j Hj) as [l1 Hlc1].
      assert (part_entries chunks1 i j = Some l) as Hpe by (unfold part_entries; by rewrite Hi).
      apply retain_part_entries in Hpe as (l0 & Hl0 & ->).
      eapply (sw_placed _ Hwf); [done|].
      assert (ei ∈ filter (λ x, is_task true rl meta x = false) l0) as Hf.
      { rewrite (Hl _ _ _ Hlc Hlc1), decide_True by done. by left. }
      by apply list_elem_of_filter in Hf as [_ ?].
    + left. rewrite list_lookup_insert_ne in Hi' by done.
      apply retain_lookup in Hi' as (c2 & Hc2 & ->). eauto.
Qed.
End committed.

Lemma commit_chunks_spec :
  ∃ chunks', commit_chunks rl meta chunks = Ok chunks' ∧ committed chunks'.
Proof.
  assert (entry_ok e) as [Hrl _] by (eapply entries_ok; [apply Hwf|done]). fold rl in Hrl.
  assert (∀ c j c1, c ∈ chunks1 →
    take_importing rl meta c = Some (j, set_is_migrating e false, c1) →
    j < 2 ∧ chunk_ok c1 ∧ ∀ s, chunk_cover s c1 + cover s rl ≤ 1) as Hside.
  { intros c j c1 Hc Ht.
    destruct (take_importing_Some _ _ _ _ Ht) as (_ & Hj & Hst & _ & Hperm & _).
    split_and!; [done| |].
    - pose proof retain_chunk_ok as Hok. rewrite Forall_forall in Hok.
      destruct (Hok c Hc) as (H0 & H1 & Hf). unfold chunk_ok. rewrite Hst.
      split_and!; [done|done|]. rewrite Hperm in Hf. by apply Forall_cons in Hf as [_ ?].
    - intros s. apply list_elem_of_lookup in Hc as [i Hi].
      pose proof (chunk_cover_le s _ _ _ Hi). pose proof (retain_cover s).
      pose proof (owned_once_le s). rewrite (sw_partition _ Hwf s) in *.
      assert (chunk_cover s c = chunk_cover s c1); [|lia].
      unfold chunk_cover. rewrite Hst, Hperm. cbn [sum_list_with].
      assert (out_cover s (set_is_migrating e false) = 0) as -> by done. lia. }
  destruct (commit_importing_spec chunks1) as (i & c & j & c1 & c' & Hi & Ht & Hc' & Heq).
  { pose proof (mirror_entry _ _ (sw_mirrored _ Hwf) He false) as Hin.
    destruct entries_split as (rest & Hperm & _ & ->). rewrite Hperm in Hin.
    apply elem_of_cons in Hin as [Hin|Hin]; [|done].
    apply (f_equal mr_is_migrating) in Hin. cbn in Hin. congruence. }
  { intros c j c1 Hc Ht. destruct (Hside _ _ _ Hc Ht) as (Hj & Hok & Hle).
    destruct (commit_stable_spec j c1 Hj Hok Hrl Hle) as (c' & -> & _). eauto. }
  destruct (Hside c j c1) as (Hj & Hok & Hle); [by eapply list_elem_of_lookup_2|done|].
  destruct (commit_stable_spec j c1 Hj Hok Hrl Hle)
    as (c2 & Hc2 & Hmigr & Hframe & Hok' & Hcov & Hcnt).
  rewrite Hc' in Hc2. injection Hc2 as <-.
  pose proof (committed_spec i j c c1 c' Hi Ht Hmigr Hframe Hok' Hcov Hcnt) as Hcm.
  eexists. split; [|exact Hcm]. unfold commit_chunks. fold chunks1. rewrite Heq. outcome_simpl.
  rewrite compact_slots_id; [done|]. apply Hcm.
Qed.
End commit.

Lemma committed_balanced chunks e chunks' m :
  slots_wf chunks → e ∈ all_entries chunks → committed chunks e chunks' →
  balanced m chunks → balanced m chunks'.
Proof.
  intros Hwf He [_ Hfr Htg Hes Hms] [Hpos Hle Hbt Hbf Hcr].
  pose proof (frames_length _ _ Hfr) as Hlen.
  split; [done|lia| | |by rewrite Hes in Hcr; apply Forall_cons in Hcr as [_ [_ ?]%Forall_cons]].
  - intros i j Hi Hj. rewrite Htg by done. apply Hbt; lia.
  - intros i c' Hi Hc'. destruct (Hms _ _ Hc') as [(c & Hc & ->)|(j & Hpl & Hj)].
    { by eapply Hbf. }
    exfalso. pose proof (mirror_entry _ _ (sw_mirrored _ Hwf) He false) as Hin.
    assert (entry_ok e) as Hok by (eapply entries_ok; [apply Hwf|done]).
    apply elem_of_all_entries in Hin as (i' & j' & l & Hl & Hin).
    pose proof (sw_placed _ Hwf _ _ _ _ Hl Hin) as Hpl'. rewrite Hpl in Hpl'. simplify_eq.
    destruct (part_entries_lt _ _ _ _ Hl) as [Hlt _].
    specialize (Hbt i' j' Hlt Hj). rewrite decide_False in Hbt by lia.
    unfold part_entries in Hl. unfold target in Hbt.
    destruct (chunks !! i') as [c|]; [|done]. cbn in Hl. rewrite Hl in Hbt.
    cbn [from_option id] in Hbt.
    apply list_elem_of_split in Hin as (l1 & l2 & ->). rewrite incoming_app in Hbt.
    unfold incoming in Hbt at 2. cbn [foldr mr_is_migrating set_is_migrating mr_range_list]
      in Hbt.
    destruct Hok as [Hrl Hne].
    assert (slots_count (mr_range_list e) ≠ 0)%N by (intros Hz; by apply Hne, slots_count_zero).
    lia.
Qed.
