(* ===== verification/ChunkAlloc.v ===== *)
(** * Choosing the proxies of new chunks

    Models the allocation part of [src/src/broker/update.rs]: the table of
    links between hosts, [remove_redundant_chunks], [allocate_chunk] and the
    functions around them.  Each iteration over a [HashMap] uses the order of
    [HashOrder].  The main result is that the allocation never panics, that it
    pairs free proxies of different hosts, and that no proxy is used twice. *)

From S2P Require Import Prelude RangeList RustStr ClusterMeta Store SlotInv Query.

(** ** Iterator adaptors *)

(** [Iterator::min_by]: the first of the smallest elements. *)
Fixpoint min_by_from {A} (cmp : A → A → res comparison) (x : A) (l : list A) : res A :=
  match l with
  | [] => Ok x
  | y :: l => o ← cmp x y; min_by_from cmp (match o with Gt => y | _ => x end) l
  end.
Definition min_by {A} (cmp : A → A → res comparison) (l : list A) : res (option A) :=
  match l with [] => Ok None | x :: l => y ← min_by_from cmp x l; Ok (Some y) end.

(** [Iterator::max_by_key]: the last of the largest elements. *)
Fixpoint max_by_key_from {A} (key : A → nat) (x : A) (l : list A) : A :=
  match l with
  | [] => x
  | y :: l => max_by_key_from key (if key x <=? key y then y else x) l
  end.
Definition max_by_key {A} (key : A → nat) (l : list A) : option A :=
  match l with [] => None | x :: l => Some (max_by_key_from key x l) end.

(** ** Operations *)

Section chunk_alloc.
Context `{HashOrder}.
Implicit Types (s : MetaStore) (host_proxies : gmap string (list string)).
Implicit Types (link_table : gmap string (gmap string nat)).

(** [entry(host).or_insert_with(Vec::new).push(proxy_address)]. *)
Definition push_host host_proxies (x : HostProxy) : gmap string (list string) :=
  <[hp_host x := default [] (host_proxies !! hp_host x) ++ [hp_proxy_address x]]> host_proxies.
Definition generate_free_host_proxies s : gmap string (list string) :=
  foldl push_host ∅ (get_free_proxies s).

(** [entry(a).or_insert_with(HashMap::new).entry(b).or_insert(0)], and the
    value found there. *)
Definition link_count link_table (a b : string) : nat :=
  default 0 (default ∅ (link_table !! a) !! b).
Definition link_set (a b : string) (n : nat) link_table : gmap string (gmap string nat) :=
  <[a := <[b := n]> (default ∅ (link_table !! a))]> link_table.
Definition link_entry (a b : string) link_table : gmap string (gmap string nat) :=
  link_set a b (link_count link_table a b) link_table.
Definition link_incr (a b : string) link_table : gmap string (gmap string nat) :=
  link_set a b (link_count link_table a b + 1) link_table.

Definition free_hosts s : gset string :=
  list_to_set (pr_host <$> filter (λ pr, pr_cluster pr = None) (hash_values (all_proxies s))).

Definition link_pair s (first_host second_host : string) link_table
  : gmap string (gmap string nat) :=
  if bool_decide (first_host = second_host) then link_table
  else if bool_decide ((first_host ∉ free_hosts s) ∧ (second_host ∉ free_hosts s)) then link_table
  else link_entry second_host first_host (link_entry first_host second_host link_table).

Definition link_chunk (c : ChunkStore) link_table : gmap string (gmap string nat) :=
  let first_host := at0 (ch_hosts c) in
  let second_host := at1 (ch_hosts c) in
  link_incr second_host first_host (link_incr first_host second_host link_table).

Definition build_link_table s : gmap string (gmap string nat) :=
  let proxies := hash_values (all_proxies s) in
  let t := foldl (λ t p1, foldl (λ t p2, link_pair s (pr_host p1) (pr_host p2) t) t proxies)
             ∅ proxies in
  foldl (λ t cs, foldl (λ t c, link_chunk c t) t (cs_chunks cs)) t (hash_values (clusters s)).

Definition sum_proxies host_proxies : nat := sum_list_with length (hash_values host_proxies).
Definition max_proxies host_proxies : nat :=
  foldr Nat.max 0 (length <$> hash_values host_proxies).

(** The [while] loop of [remove_redundant_chunks]: how many proxies it pops,
    with the fuel [max_proxy_num]. *)
Fixpoint redundant_loop (fuel : nat) (proxies : list string) (max_proxy_num free_proxy_num : nat)
  : list string * nat :=
  match fuel with
  | 0 => (proxies, free_proxy_num)
  | S fuel =>
      if free_proxy_num <? max_proxy_num * 2
      then redundant_loop fuel (removelast proxies) (max_proxy_num - 1) (free_proxy_num - 1)
      else (proxies, free_proxy_num)
  end.

Definition remove_redundant_chunks host_proxies (expected_num : nat)
  : res (gmap string (list string)) :=
  let free_proxy_num := sum_proxies host_proxies in
  let max_proxy_num := max_proxies host_proxies in
  let '(host_proxies, free_proxy_num) :=
    match find (λ kv, length kv.2 =? max_proxy_num) (hash_iter host_proxies) with
    | None => (host_proxies, free_proxy_num)
    | Some (host, proxies) =>
        let '(proxies, free) := redundant_loop max_proxy_num proxies max_proxy_num free_proxy_num in
        (<[host := proxies]> host_proxies, free)
    end in
  if free_proxy_num <? expected_num then Err NoAvailableResource else Ok host_proxies.

Definition second_host_cmp host_proxies (a b : string * nat) : res comparison :=
  match Nat.compare a.2 b.2 with
  | Eq =>
      host1_free ← expect (host_proxies !! a.1);
      host2_free ← expect (host_proxies !! b.1);
      Ok (Nat.compare (length host2_free) (length host1_free))
  | r => Ok r
  end.

(** [Vec::pop] on the proxies of a host. *)
Definition pop_proxy (host : string) host_proxies
  : res (string * gmap string (list string)) :=
  proxies ← expect (host_proxies !! host);
  address ← expect (last proxies);
  Ok (address, <[host := removelast proxies]> host_proxies).

(** [*link_table.get_mut(a).get_mut(b) += 1], which panics on a missing entry. *)
Definition link_bump (a b : string) link_table : res (gmap string (gmap string nat)) :=
  row ← expect (link_table !! a);
  n ← expect (row !! b);
  Ok (<[a := <[b := n + 1]> row]> link_table).

Definition is_second_host host_proxies (first_host : string) (kv : string * nat) : bool :=
  bool_decide (kv.1 ≠ first_host) &&
  match host_proxies !! kv.1 with None => false | Some l => bool_decide (length l ≠ 0) end.

Definition allocate_step host_proxies link_table
  : res (gmap string (list string) * gmap string (gmap string nat) * arr2 string) :=
  '(first_host, _) ← expect (max_by_key (λ kv, length kv.2) (hash_iter host_proxies));
  '(first_address, host_proxies) ← pop_proxy first_host host_proxies;
  peers ← expect (link_table !! first_host);
  second ← min_by (second_host_cmp host_proxies)
    (filter (λ kv, is_second_host host_proxies first_host kv = true) (hash_iter peers));
  '(second_host, _) ← expect second;
  '(second_address, host_proxies) ← pop_proxy second_host host_proxies;
  link_table ← link_bump first_host second_host link_table;
  link_table ← link_bump second_host first_host link_table;
  Ok (host_proxies, link_table, Arr2 first_address second_address).

(** [while new_proxy_pairs.len() * 2 < expected_num]. *)
Fixpoint allocate_loop (fuel : nat) host_proxies link_table (expected_num : nat)
    (new_proxy_pairs : list (arr2 string)) : res (list (arr2 string)) :=
  match fuel with
  | 0 => Panic
  | S fuel =>
      if length new_proxy_pairs * 2 <? expected_num then
        '(host_proxies, link_table, new_pair) ← allocate_step host_proxies link_table;
        allocate_loop fuel host_proxies link_table expected_num (new_proxy_pairs ++ [new_pair])
      else Ok new_proxy_pairs
  end.

Definition allocate_chunk host_proxies link_table (expected_num : nat)
  : res (list (arr2 string)) :=
  if sum_proxies host_proxies <? expected_num then Err NoAvailableResource
  else if sum_proxies host_proxies <? max_proxies host_proxies * 2 then Err ResourceNotBalance
  else allocate_loop (S expected_num) host_proxies link_table expected_num [].

Definition get_resource s (address : string) : res ProxyResource :=
  expect (all_proxies s !! address).

Definition generate_free_chunks s (proxy_num : nat) : res (list (arr2 ProxyResource)) :=
  host_proxies ← remove_redundant_chunks (generate_free_host_proxies s) proxy_num;
  pairs ← allocate_chunk host_proxies (build_link_table s) proxy_num;
  omapM (λ p : arr2 string,
    a ← get_resource s (at0 p); b ← get_resource s (at1 p); Ok (Arr2 a b)) pairs.

(** *** Ordered proxies *)

(** The indices must be [first], [first + 1], ... *)
Fixpoint consecutive (last_index : N) (indices : list N) : bool :=
  match indices with
  | [] => true
  | i :: rest => bool_decide (wadd last_index 1 = i) && consecutive i rest
  end.

Fixpoint pair_up (l : list ProxyResource) : res (list (arr2 ProxyResource)) :=
  match l with
  | [] => Ok []
  | [_] => Err InvalidNodeNum
  | a :: b :: rest => l ← pair_up rest; Ok (Arr2 a b :: l)
  end.

Definition generate_free_chunks_for_ordered_proxy_index s (proxy_num : nat) (first_index : N)
  : res (list (arr2 ProxyResource)) :=
  let host_proxies := get_free_proxy_resource s in
  if length host_proxies <? proxy_num then Err NoAvailableResource
  else
    let host_proxies := take proxy_num (sort_by_key pr_index host_proxies) in
    match pr_index <$> host_proxies with
    | [] => pair_up host_proxies
    | first :: rest =>
        if bool_decide (first ≠ first_index) then Err ProxyResourceOutOfOrder
        else if negb (consecutive first rest) then Err ProxyResourceOutOfOrder
        else pair_up host_proxies
    end.

(** *** Replacing one proxy *)

Definition generate_new_free_proxy s (failed_proxy_address : string) : res ProxyResource :=
  let free_host_proxies := generate_free_host_proxies s in
  let link_table := build_link_table s in
  failed ← ok_or (all_proxies s !! failed_proxy_address) ProxyNotFound;
  link_count_table ← expect (link_table !! pr_host failed);
  peer ← min_by (second_host_cmp free_host_proxies)
    (filter (λ kv, is_Some (free_host_proxies !! kv.1)) (hash_iter link_count_table));
  '(peer_host, _) ← ok_or peer NoAvailableResource;
  peer_proxy ← expect (find (λ hp, bool_decide (peer_host = hp_host hp)) (get_free_proxies s));
  get_resource s (hp_proxy_address peer_proxy).
End chunk_alloc.

(** ** Adaptors *)

Lemma min_by_from_spec {A} (cmp : A → A → res comparison) l : ∀ x,
  (∀ a b, a ∈ x :: l → b ∈ x :: l → ∃ o, cmp a b = Ok o) →
  ∃ y, y ∈ x :: l ∧ min_by_from cmp x l = Ok y.
Proof.
  induction l as [|z l IH]; intros x Hcmp; cbn [min_by_from].
  { exists x. split; [by left|done]. }
  destruct (Hcmp x z) as [o ->]; [by left|by right; left|]. outcome_simpl.
  assert (∀ w, w = x ∨ w = z →
    ∃ y, y ∈ x :: z :: l ∧ min_by_from cmp w l = Ok y) as Hw.
  { intros w Hw. destruct (IH w) as (y & Hy & ->).
    - intros a b Ha Hb. apply Hcmp; set_solver.
    - exists y. split; [set_solver|done]. }
  destruct o; apply Hw; auto.
Qed.

Lemma min_by_spec {A} (cmp : A → A → res comparison) l :
  (∀ a b, a ∈ l → b ∈ l → ∃ o, cmp a b = Ok o) →
  (l = [] ∧ min_by cmp l = Ok None) ∨ ∃ y, y ∈ l ∧ min_by cmp l = Ok (Some y).
Proof.
  intros Hcmp. destruct l as [|x l]; [by left|]. right. unfold min_by.
  destruct (min_by_from_spec cmp l x Hcmp) as (y & Hy & ->). eauto.
Qed.

Lemma max_by_key_from_spec {A} (key : A → nat) l : ∀ x,
  max_by_key_from key x l ∈ x :: l ∧
  ∀ y, y ∈ x :: l → key y ≤ key (max_by_key_from key x l).
Proof.
  induction l as [|z l IH]; intros x; cbn [max_by_key_from].
  { split; [by left|]. intros y Hy. apply list_elem_of_singleton in Hy as ->. done. }
  destruct (IH (if key x <=? key z then z else x)) as [H1 H2]. split.
  - destruct (key x <=? key z); set_solver.
  - intros y Hy. specialize (H2 (if key x <=? key z then z else x) ltac:(by left)) as Hx.
    destruct (Nat.leb_spec (key x) (key z)).
    + apply elem_of_cons in Hy as [->|Hy]; [lia|]. by apply H2.
    + apply elem_of_cons in Hy as [->|Hy]; [done|].
      apply elem_of_cons in Hy as [->|Hy]; [lia|]. apply H2. by right.
Qed.

(** ** Counting proxies *)

Section spec.
Context `{HashOrder}.
Implicit Types (s : MetaStore) (hp : gmap string (list string)).

Lemma sum_proxies_alt hp :
  sum_proxies hp = sum_list_with (λ kv : string * list string, length kv.2) (map_to_list hp).
Proof.
  unfold sum_proxies, hash_values.
  assert (∀ l : list (string * list string),
    sum_list_with length l.*2 = sum_list_with (λ kv, length kv.2) l) as Hl.
  { induction l as [|[k v] l IH]; [done|]. rewrite fmap_cons. cbn [sum_list_with snd]. lia. }
  rewrite Hl. by rewrite hash_iter_perm.
Qed.

Lemma sum_proxies_delete hp h l :
  hp !! h = Some l → sum_proxies hp = length l + sum_proxies (delete h hp).
Proof.
  intros Hl. rewrite !sum_proxies_alt, <- (map_to_list_delete _ _ _ Hl). done.
Qed.

Lemma sum_proxies_insert hp h l l' :
  hp !! h = Some l → sum_proxies (<[h := l']> hp) + length l = sum_proxies hp + length l'.
Proof.
  intros Hl. rewrite (sum_proxies_delete hp h l Hl).
  rewrite (sum_proxies_delete (<[h := l']> hp) h l') by apply lookup_insert_eq.
  rewrite delete_insert_eq. lia.
Qed.

Lemma sum_proxies_two hp h l h' l' :
  hp !! h = Some l → hp !! h' = Some l' → h ≠ h' → length l + length l' ≤ sum_proxies hp.
Proof.
  intros Hl Hl' Hne. rewrite (sum_proxies_delete hp h l Hl).
  rewrite (sum_proxies_delete (delete h hp) h' l') by (by rewrite lookup_delete_ne). lia.
Qed.

Lemma sum_proxies_three hp h l h' l' h'' l'' :
  hp !! h = Some l → hp !! h' = Some l' → hp !! h'' = Some l'' →
  h ≠ h' → h ≠ h'' → h' ≠ h'' → length l + length l' + length l'' ≤ sum_proxies hp.
Proof.
  intros Hl Hl' Hl'' ???. rewrite (sum_proxies_delete hp h l Hl).
  pose proof (sum_proxies_two (delete h hp) h' l' h'' l'').
  rewrite !lookup_delete_ne in H3 by done. specialize (H3 Hl' Hl'' ltac:(done)). lia.
Qed.

(** A host other than [h] has a proxy left when [h] does not have them all. *)
Lemma other_host hp h l :
  hp !! h = Some l → length l < sum_proxies hp →
  ∃ h' l', h' ≠ h ∧ hp !! h' = Some l' ∧ length l' ≠ 0.
Proof.
  intros Hl Hlt. rewrite (sum_proxies_delete hp h l Hl), sum_proxies_alt in Hlt.
  assert (∃ kv, kv ∈ map_to_list (delete h hp) ∧ length kv.2 ≠ 0) as ([h' l'] & Hin & Hne).
  { revert Hlt. generalize (map_to_list (delete h hp)) as kvs.
    induction kvs as [|[k v] kvs IH]; cbn [sum_list_with snd]; [lia|]. intros Hlt.
    destruct (decide (length v = 0)) as [Hv|Hv].
    - destruct IH as (kv & Hkv & Hne); [lia|]. exists kv. split; [by right|done].
    - exists (k, v). split; [by left|done]. }
  apply elem_of_map_to_list in Hin. rewrite lookup_delete_Some in Hin.
  exists h', l'. naive_solver.
Qed.

Lemma max_proxies_spec hp :
  (∀ h l, hp !! h = Some l → length l ≤ max_proxies hp) ∧
  (hp ≠ ∅ → ∃ h l, hp !! h = Some l ∧ length l = max_proxies hp) ∧
  (hp = ∅ → max_proxies hp = 0).
Proof.
  unfold max_proxies, hash_values.
  assert (∀ l : list (string * list string),
    (∀ k v, (k, v) ∈ l → length v ≤ foldr Nat.max 0 (length <$> l.*2)) ∧
    (l ≠ [] → ∃ k v, (k, v) ∈ l ∧ length v = foldr Nat.max 0 (length <$> l.*2))) as Hl.
  { induction l as [|[k v] l [IH1 IH2]]; [set_solver|]. rewrite !fmap_cons. cbn [snd foldr].
    split.
    - intros k' v' [?|Hin]%elem_of_cons; [simplify_eq; lia|]. specialize (IH1 _ _ Hin). lia.
    - intros _. destruct (decide (foldr Nat.max 0 (length <$> l.*2) ≤ length v)) as [Hle|Hle].
      + exists k, v. split; [by left|lia].
      + destruct IH2 as (k' & v' & Hin & Heq); [by intros ->; cbn in Hle; lia|].
        exists k', v'. split; [by right|lia]. }
  destruct (Hl (hash_iter hp)) as [H1 H2]. split_and!.
  - intros h l Hh. apply (H1 h). by apply elem_of_hash_iter.
  - intros Hne. destruct H2 as (h & l & Hin & Heq).
    + intros Hnil. apply Hne, map_empty. intros k. destruct (hp !! k) as [v|] eqn:Hk; [|done].
      apply elem_of_hash_iter in Hk. rewrite Hnil in Hk. set_solver.
    + exists h, l. split; [by apply elem_of_hash_iter|done].
  - intros ->. assert (hash_iter (∅ : gmap string (list string)) = []) as ->; [|done].
    apply Permutation_nil_r. rewrite hash_iter_perm. by rewrite map_to_list_empty.
Qed.

(** ** Free proxies by host *)

(** [pr] is the free proxy at [a] and runs on host [h]. *)
Definition free_at s (a h : string) : Prop :=
  ∃ pr, all_proxies s !! a = Some pr ∧ is_free s pr = true ∧ pr_host pr = h.

Definition keys_ok s : Prop :=
  ∀ a pr, all_proxies s !! a = Some pr → pr_proxy_address pr = a.

Definition hosts_ok s hp : Prop :=
  ∀ h l, hp !! h = Some l → NoDup l ∧ ∀ a, a ∈ l → free_at s a h.

Lemma elem_of_free_resource s pr :
  keys_ok s →
  pr ∈ get_free_proxy_resource s ↔
  all_proxies s !! pr_proxy_address pr = Some pr ∧ is_free s pr = true.
Proof.
  intros Hk. unfold get_free_proxy_resource. rewrite list_elem_of_filter, elem_of_hash_values.
  split.
  - intros [Hf [a Ha]]. by rewrite (Hk _ _ Ha).
  - intros [Ha Hf]. eauto.
Qed.

Lemma free_addresses_NoDup s :
  keys_ok s → NoDup (pr_proxy_address <$> get_free_proxy_resource s).
Proof.
  intros Hk. unfold get_free_proxy_resource, hash_values.
  assert (∀ l : list (string * ProxyResource),
    NoDup l.*1 → (∀ a pr, (a, pr) ∈ l → pr_proxy_address pr = a) →
    NoDup (pr_proxy_address <$> filter (λ pr, is_free s pr = true) l.*2)) as Hl.
  { induction l as [|[a pr] l IH]; [constructor|]. rewrite !fmap_cons. cbn [fst snd].
    intros [Ha Hnd]%NoDup_cons Hkey.
    assert (NoDup (pr_proxy_address <$> filter (λ pr, is_free s pr = true) l.*2)) as Hrest
      by (apply IH; [done|]; intros; apply Hkey; by right).
    rewrite filter_cons. case_decide; [|done]. rewrite fmap_cons. constructor; [|done].
    rewrite (Hkey a pr) by by left. intros Hin. apply Ha.
    apply list_elem_of_fmap in Hin as (pr' & -> & Hin).
    apply list_elem_of_filter in Hin as [_ Hin].
    apply list_elem_of_fmap in Hin as ([a' pr''] & -> & Hin). cbn.
    rewrite (Hkey a' pr'') by by right. apply list_elem_of_fmap. by exists (a', pr''). }
  apply Hl.
  - apply NoDup_hash_keys.
  - intros a pr Hin. apply elem_of_hash_iter in Hin. by apply Hk.
Qed.

(** The addresses listed for a host, in the order of the fold. *)
Lemma fold_hosts_lookup l : ∀ m h,
  default [] (foldl push_host m l !! h) =
  default [] (m !! h) ++ (hp_proxy_address <$> filter (λ x, hp_host x = h) l).
Proof.
  induction l as [|x l IH]; intros m h; cbn [foldl]; [by rewrite app_nil_r|].
  rewrite IH, filter_cons. unfold push_host. destruct (decide (hp_host x = h)) as [->|Hne].
  - rewrite lookup_insert_eq. cbn. by rewrite <- app_assoc.
  - by rewrite lookup_insert_ne.
Qed.

Lemma fold_hosts_Some l : ∀ m h,
  is_Some (foldl push_host m l !! h) ↔ is_Some (m !! h) ∨ h ∈ hp_host <$> l.
Proof.
  induction l as [|x l IH]; intros m h; cbn [foldl]; [set_solver|].
  unfold push_host at 2. rewrite IH, fmap_cons, elem_of_cons, lookup_insert_is_Some'.
  naive_solver.
Qed.

Lemma free_hosts_lookup s h l :
  keys_ok s → generate_free_host_proxies s !! h = Some l →
  l = pr_proxy_address <$> filter (λ pr, pr_host pr = h) (get_free_proxy_resource s).
Proof.
  intros Hk Hl. pose proof (fold_hosts_lookup (get_free_proxies s) ∅ h) as Hlook.
  unfold generate_free_host_proxies in Hl. rewrite Hl in Hlook. cbn [from_option id] in Hlook.
  rewrite lookup_empty in Hlook. cbn in Hlook. rewrite Hlook. unfold get_free_proxies.
  induction (get_free_proxy_resource s) as [|pr prs IH]; [done|].
  rewrite fmap_cons, !filter_cons. cbn [hp_host]. case_decide; [|done].
  rewrite !fmap_cons. cbn. by rewrite IH.
Qed.

Lemma hosts_ok_free s : keys_ok s → hosts_ok s (generate_free_host_proxies s).
Proof.
  intros Hk h l Hl. rewrite (free_hosts_lookup s h l Hk Hl). split.
  - by apply NoDup_fmap_filter, free_addresses_NoDup.
  - intros a (pr & -> & Hin)%list_elem_of_fmap.
    apply list_elem_of_filter in Hin as [Hh Hin]. apply elem_of_free_resource in Hin as [Ha Hf]; [|done].
    by exists pr.
Qed.

Lemma free_hosts_nonempty s h l :
  keys_ok s → generate_free_host_proxies s !! h = Some l → l ≠ [].
Proof.
  intros Hk Hl. rewrite (free_hosts_lookup s h l Hk Hl).
  assert (is_Some (generate_free_host_proxies s !! h)) as Hs by eauto.
  unfold generate_free_host_proxies in Hs. rewrite fold_hosts_Some, lookup_empty in Hs.
  destruct Hs as [[? ?]|Hin]; [done|].
  unfold get_free_proxies in Hin. rewrite <- list_fmap_compose in Hin.
  apply list_elem_of_fmap in Hin as (pr & -> & Hin). intros Hnil%fmap_nil_inv.
  apply (not_elem_of_nil pr). rewrite <- Hnil. by apply list_elem_of_filter.
Qed.

(** ** Removing redundant proxies *)

Lemma removelast_take {A} (l : list A) : removelast l = take (length l - 1) l.
Proof. rewrite removelast_firstn_len. by rewrite Nat.sub_1_r. Qed.

Lemma redundant_loop_spec fuel : ∀ proxies mx free,
  length proxies = mx → mx ≤ free → mx ≤ fuel →
  redundant_loop fuel proxies mx free =
  (take (mx - (2 * mx - free)) proxies, free - (2 * mx - free)).
Proof.
  induction fuel as [|fuel IH]; intros proxies mx free Hl Hf Hfuel; cbn [redundant_loop].
  - assert (mx = 0) as -> by lia. destruct proxies; [|done].
    rewrite take_nil. f_equal. lia.
  - destruct (Nat.ltb_spec free (mx * 2)).
    + rewrite IH; [|rewrite removelast_take, length_take; lia|lia|lia].
      rewrite removelast_take, take_take, Hl. f_equal; [f_equal; lia|lia].
    + rewrite take_ge by lia. f_equal. lia.
Qed.

(** What the allocation is given: the free proxies, such that no host has
    more than half of them. *)
Definition same_hosts hp hp' : Prop := ∀ h, is_Some (hp' !! h) ↔ is_Some (hp !! h).

Lemma hosts_ok_take s hp h l n :
  hosts_ok s hp → hp !! h = Some l → hosts_ok s (<[h := take n l]> hp).
Proof.
  intros Hok Hl h' l' Hl'. destruct (decide (h' = h)) as [->|Hne].
  - rewrite lookup_insert_eq in Hl'. simplify_eq. destruct (Hok h l Hl) as [Hnd Hin].
    split; [eapply sublist_NoDup; [done|apply sublist_take]|].
    intros a Ha. apply Hin. rewrite <- (take_drop n l), elem_of_app. by left.
  - rewrite lookup_insert_ne in Hl' by done. by apply Hok.
Qed.

Lemma same_hosts_insert hp h l l' : hp !! h = Some l → same_hosts hp (<[h := l']> hp).
Proof. intros Hl h'. rewrite lookup_insert_is_Some'. split; [|auto]. intros [<-|?]; eauto. Qed.

Lemma remove_redundant_spec s hp expected :
  hosts_ok s hp →
  remove_redundant_chunks hp expected = Err NoAvailableResource ∨
  ∃ hp', remove_redundant_chunks hp expected = Ok hp' ∧ hosts_ok s hp' ∧ same_hosts hp hp' ∧
    expected ≤ sum_proxies hp' ∧ (∀ h l, hp' !! h = Some l → length l * 2 ≤ sum_proxies hp').
Proof.
  intros Hok. unfold remove_redundant_chunks.
  destruct (max_proxies_spec hp) as (Hmax & Hatt & Hempty).
  destruct (find _ _) as [[h l]|] eqn:Hfind.
  - apply find_some in Hfind as [Hin Hlen]. apply list_elem_of_In, elem_of_hash_iter in Hin.
    apply Nat.eqb_eq in Hlen. cbn in Hlen.
    pose proof (sum_proxies_delete hp h l Hin) as Hsum.
    rewrite redundant_loop_spec by (done || lia).
    set (mx := max_proxies hp) in *. set (free := sum_proxies hp) in *.
    destruct (Nat.ltb_spec (free - (2 * mx - free)) expected); [by left|]. right.
    set (l' := take (mx - (2 * mx - free)) l).
    assert (length l' = mx - (2 * mx - free)) as Hl' by (unfold l'; rewrite length_take; lia).
    pose proof (sum_proxies_insert hp h l l' Hin) as Hsum'. fold free in Hsum'.
    eexists. split_and!; [done|by apply hosts_ok_take|by eapply same_hosts_insert|lia|].
    intros h' l0 Hh'. destruct (decide (h' = h)) as [->|Hne].
    + rewrite lookup_insert_eq in Hh'. simplify_eq. lia.
    + rewrite lookup_insert_ne in Hh' by done. pose proof (Hmax _ _ Hh').
      pose proof (sum_proxies_two hp h l h' l0 Hin Hh' ltac:(done)). lia.
  - assert (hp = ∅) as ->.
    { destruct (decide (hp = ∅)) as [|Hne]; [done|]. destruct (Hatt Hne) as (h & l & Hl & Heq).
      apply elem_of_hash_iter, list_elem_of_In in Hl. apply (find_none _ _ Hfind) in Hl.
      apply Nat.eqb_neq in Hl. cbn in Hl. lia. }
    destruct (Nat.ltb_spec (sum_proxies ∅) expected); [by left|]. right.
    eexists. split_and!; [done|done|done|done|]. intros h l Hl. by rewrite lookup_empty in Hl.
Qed.

(** ** The link table *)

Definition linked (lt : gmap string (gmap string nat)) (a b : string) : Prop :=
  is_Some (lt !! a ≫= λ row, row !! b).

Lemma link_set_linked lt a b n a' b' :
  linked (link_set a b n lt) a' b' ↔ (a' = a ∧ b' = b) ∨ linked lt a' b'.
Proof.
  unfold linked, link_set. destruct (decide (a' = a)) as [->|Hne].
  - rewrite lookup_insert_eq. cbn [mbind option_bind]. rewrite lookup_insert_is_Some'.
    destruct (lt !! a) as [row|]; cbn; [naive_solver|].
    rewrite lookup_empty. split; [|naive_solver].
    intros [->|[? ?]]; [by left|done].
  - rewrite lookup_insert_ne by done. naive_solver.
Qed.

(** Links are only added. *)
Definition link_grow (lt lt' : gmap string (gmap string nat)) : Prop :=
  ∀ a b, linked lt a b → linked lt' a b.

Lemma foldl_grow {A} (f : gmap string (gmap string nat) → A → gmap string (gmap string nat)) l :
  (∀ lt x, link_grow lt (f lt x)) → ∀ lt, link_grow lt (foldl f lt l).
Proof.
  intros Hf. induction l as [|x l IH]; intros lt a b Hab; [done|]. cbn. by apply IH, Hf.
Qed.

Lemma foldl_link {A} (f : gmap string (gmap string nat) → A → gmap string (gmap string nat))
    l x a b :
  (∀ lt x, link_grow lt (f lt x)) → x ∈ l → (∀ lt, linked (f lt x) a b) →
  ∀ lt, linked (foldl f lt l) a b.
Proof.
  intros Hg Hin Hf. induction l as [|y l IH]; intros lt; [set_solver|]. cbn.
  apply elem_of_cons in Hin as [->|Hin]; [|by apply IH]. apply foldl_grow; [done|]. apply Hf.
Qed.

Lemma link_pair_grow s a b lt : link_grow lt (link_pair s a b lt).
Proof.
  intros x y Hxy. unfold link_pair, link_entry. repeat case_bool_decide; try done.
  rewrite !link_set_linked. auto.
Qed.

Lemma link_chunk_grow c lt : link_grow lt (link_chunk c lt).
Proof. intros x y Hxy. unfold link_chunk, link_incr. rewrite !link_set_linked. auto. Qed.

Lemma elem_of_free_hosts s a h : free_at s a h → h ∈ free_hosts s.
Proof.
  intros (pr & Ha & Hf & <-). unfold free_hosts. apply elem_of_list_to_set, list_elem_of_fmap.
  exists pr. split; [done|]. apply list_elem_of_filter. split; [|by apply elem_of_hash_values; eauto].
  unfold is_free in Hf. apply andb_true_iff in Hf as [Hf _]. apply andb_true_iff in Hf as [Hf _].
  by apply bool_decide_eq_true in Hf.
Qed.

(** Two hosts with free proxies are linked. *)
Lemma build_link_table_free s a1 h1 a2 h2 :
  free_at s a1 h1 → free_at s a2 h2 → h1 ≠ h2 → linked (build_link_table s) h1 h2.
Proof.
  intros Hf1 Hf2 Hne. unfold build_link_table. apply foldl_grow.
  { intros lt cs. apply foldl_grow. intros. apply link_chunk_grow. }
  pose proof Hf1 as (p1 & Hp1 & _ & Hh1). pose proof Hf2 as (p2 & Hp2 & _ & Hh2).
  eapply (foldl_link _ _ p1).
  - intros lt x. apply foldl_grow. intros. apply link_pair_grow.
  - apply elem_of_hash_values. eauto.
  - intros lt. eapply (foldl_link _ _ p2).
    + intros. apply link_pair_grow.
    + apply elem_of_hash_values. eauto.
    + intros lt'. rewrite Hh1, Hh2. unfold link_pair. rewrite bool_decide_eq_false_2 by done.
      rewrite bool_decide_eq_false_2.
      * unfold link_entry. rewrite !link_set_linked. auto.
      * intros [Hn _]. by apply Hn, (elem_of_free_hosts s a1).
Qed.

(** The hosts of every chunk are linked. *)
Lemma build_link_table_chunk s name cs c :
  clusters s !! name = Some cs → c ∈ cs_chunks cs →
  linked (build_link_table s) (at0 (ch_hosts c)) (at1 (ch_hosts c)) ∧
  linked (build_link_table s) (at1 (ch_hosts c)) (at0 (ch_hosts c)).
Proof.
  intros Hcs Hc. unfold build_link_table.
  assert (cs ∈ hash_values (clusters s)) as Hin by (apply elem_of_hash_values; eauto).
  split; (eapply (foldl_link _ _ cs); [intros lt x; apply foldl_grow; intros; apply link_chunk_grow
    |done|]); intros lt; (eapply (foldl_link _ _ c); [intros; apply link_chunk_grow|done|]);
    intros lt'; unfold link_chunk, link_incr; rewrite !link_set_linked; auto.
Qed.

(** ** Allocating chunks *)

Record alloc_inv s hp (lt : gmap string (gmap string nat)) : Prop := {
  ai_hosts : hosts_ok s hp;
  ai_links : ∀ h1 h2, h1 ≠ h2 → is_Some (hp !! h1) → is_Some (hp !! h2) → linked lt h1 h2;
  ai_balance : ∀ h l, hp !! h = Some l → length l * 2 ≤ sum_proxies hp + 1;
}.

(** Lists of [hp'] are parts of those of [hp]. *)
Definition shrinks hp hp' : Prop :=
  ∀ h l', hp' !! h = Some l' → ∃ l, hp !! h = Some l ∧ ∀ a, a ∈ l' → a ∈ l.

Lemma pop_proxy_spec s hp h l :
  hosts_ok s hp → hp !! h = Some l → length l ≠ 0 →
  ∃ a, pop_proxy h hp = Ok (a, <[h := removelast l]> hp) ∧ a ∈ l ∧ a ∉ removelast l.
Proof.
  intros Hok Hl Hne. unfold pop_proxy. rewrite Hl. outcome_simpl.
  destruct l as [|x l] using rev_ind; [done|]. clear IHl.
  rewrite last_snoc, removelast_last. outcome_simpl. exists x. split_and!; [done|set_solver|].
  destruct (Hok _ _ Hl) as [Hnd _]. apply NoDup_app in Hnd as (_ & Hdis & _). set_solver.
Qed.

Lemma hosts_ok_pop s hp h l :
  hosts_ok s hp → hp !! h = Some l → hosts_ok s (<[h := removelast l]> hp).
Proof. intros. rewrite removelast_take. by apply hosts_ok_take. Qed.

Lemma shrinks_pop hp h l : hp !! h = Some l → shrinks hp (<[h := removelast l]> hp).
Proof.
  intros Hl h' l' Hl'. destruct (decide (h' = h)) as [->|Hne].
  - rewrite lookup_insert_eq in Hl'. simplify_eq. exists l. split; [done|].
    rewrite removelast_take. intros a Ha. rewrite <- (take_drop (length l - 1) l), elem_of_app.
    by left.
  - rewrite lookup_insert_ne in Hl' by done. eauto.
Qed.

Lemma length_removelast {A} (l : list A) : length (removelast l) = length l - 1.
Proof. rewrite removelast_take, length_take. lia. Qed.

Lemma link_bump_spec lt a b :
  linked lt a b → ∃ lt', link_bump a b lt = Ok lt' ∧ ∀ a' b', linked lt' a' b' ↔ linked lt a' b'.
Proof.
  unfold linked, link_bump. intros Hab. destruct (lt !! a) as [row|] eqn:Ha; [|by destruct Hab].
  cbn in Hab. destruct Hab as [n Hn]. outcome_simpl. rewrite Hn. outcome_simpl.
  eexists. split; [done|]. intros a' b'. destruct (decide (a' = a)) as [->|Hne].
  - rewrite lookup_insert_eq, Ha. cbn [mbind option_bind]. rewrite lookup_insert_is_Some'.
    split; [|auto]. intros [<-|?]; eauto.
  - by rewrite lookup_insert_ne.
Qed.

(** The host [max_by_key] picks. *)
Lemma max_host_spec hp :
  sum_proxies hp ≠ 0 →
  ∃ h l, max_by_key (λ kv : string * list string, length kv.2) (hash_iter hp) = Some (h, l) ∧
    hp !! h = Some l ∧ length l ≠ 0 ∧ ∀ h' l', hp !! h' = Some l' → length l' ≤ length l.
Proof.
  intros Hsum. unfold max_by_key. destruct (hash_iter hp) as [|x kvs] eqn:Hit.
  { rewrite sum_proxies_alt, <- hash_iter_perm, Hit in Hsum. done. }
  destruct (max_by_key_from_spec (λ kv : string * list string, length kv.2) kvs x) as [Hin Hmax].
  destruct (max_by_key_from _ x kvs) as [h l]. cbn in Hmax. rewrite <- Hit in Hin.
  apply elem_of_hash_iter in Hin.
  assert (∀ h' l', hp !! h' = Some l' → length l' ≤ length l) as Hle.
  { intros h' l' Hl'. apply elem_of_hash_iter in Hl'. rewrite Hit in Hl'. by apply (Hmax (h', l')). }
  exists h, l. split_and!; [done|done| |done].
  intros Hz. apply Hsum. rewrite sum_proxies_alt.
  assert (∀ kvs' : list (string * list string), (∀ kv, kv ∈ kvs' → length kv.2 = 0) →
    sum_list_with (λ kv, length kv.2) kvs' = 0) as Hall.
  { induction kvs' as [|kv kvs' IH]; intros Hkv; [done|]. cbn [sum_list_with].
    rewrite (Hkv kv), IH; [done| |by left]. intros. apply Hkv. by right. }
  apply Hall. intros [h' l'] Hkv%elem_of_map_to_list. specialize (Hle _ _ Hkv). cbn. lia.
Qed.

(** The second host the chunk is placed on. *)
Lemma second_host_spec hp lt h :
  (∀ h' l', h' ≠ h → hp !! h' = Some l' → linked lt h h') →
  (∃ h' l', h' ≠ h ∧ hp !! h' = Some l' ∧ length l' ≠ 0) →
  ∃ row h2 n l2, lt !! h = Some row ∧
    min_by (second_host_cmp hp)
      (filter (λ kv, is_second_host hp h kv = true) (hash_iter row)) = Ok (Some (h2, n)) ∧
    h2 ≠ h ∧ hp !! h2 = Some l2 ∧ length l2 ≠ 0.
Proof.
  intros Hlink (h' & l' & Hne & Hl' & Hlen).
  destruct (Hlink h' l' Hne Hl') as [n Hn]. destruct (lt !! h) as [row|]; [|done]. cbn in Hn.
  assert (∀ kv, is_second_host hp h kv = true → kv.1 ≠ h ∧ ∃ l, hp !! kv.1 = Some l ∧ length l ≠ 0)
    as Hsec.
  { intros kv Hkv. unfold is_second_host in Hkv. apply andb_true_iff in Hkv as [H1 H2].
    apply bool_decide_eq_true in H1. destruct (hp !! kv.1) as [l|]; [|done].
    apply bool_decide_eq_true in H2. eauto. }
  destruct (min_by_spec (second_host_cmp hp)
    (filter (λ kv, is_second_host hp h kv = true) (hash_iter row))) as [[Hnil _]|([h2 n2] & Hin & Heq)].
  - intros a b [Ha _]%list_elem_of_filter [Hb _]%list_elem_of_filter.
    destruct (Hsec _ Ha) as (_ & la & Hla & _), (Hsec _ Hb) as (_ & lb & Hlb & _).
    unfold second_host_cmp. rewrite Hla, Hlb. destruct (_ ?= _); cbn; eauto.
  - exfalso. apply (not_elem_of_nil (h', n)). rewrite <- Hnil. apply list_elem_of_filter.
    split; [|by apply elem_of_hash_iter]. unfold is_second_host. cbn.
    rewrite bool_decide_eq_true_2 by done. rewrite Hl'. by rewrite bool_decide_eq_true_2.
  - apply list_elem_of_filter in Hin as [Hin _]. destruct (Hsec _ Hin) as (Hne2 & l2 & Hl2 & Hlen2).
    exists row, h2, n2, l2. by split_and!.
Qed.

Lemma alloc_inv_pops s hp lt lt' h l h2 l2 :
  alloc_inv s hp lt → (∀ a b, linked lt' a b ↔ linked lt a b) →
  hp !! h = Some l → hp !! h2 = Some l2 → h2 ≠ h → length l ≠ 0 → length l2 ≠ 0 →
  (∀ h' l', hp !! h' = Some l' → length l' ≤ length l) →
  let hp' := <[h2 := removelast l2]> (<[h := removelast l]> hp) in
  alloc_inv s hp' lt' ∧ sum_proxies hp = sum_proxies hp' + 2 ∧ shrinks hp hp'.
Proof.
  intros [Hok Hlinks Hbal] Hlt Hl Hl2 Hne Hlen Hlen2 Hmax hp'.
  assert (<[h := removelast l]> hp !! h2 = Some l2) as Hl2' by by rewrite lookup_insert_ne.
  pose proof (sum_proxies_insert _ _ _ (removelast l) Hl) as S1.
  pose proof (sum_proxies_insert _ _ _ (removelast l2) Hl2') as S2. fold hp' in S2.
  rewrite length_removelast in S1, S2.
  assert (shrinks hp hp') as Hshr.
  { intros h' l' Hh'. destruct (shrinks_pop _ _ _ Hl2' _ _ Hh') as (l1 & Hl1 & Hin1).
    destruct (shrinks_pop _ _ _ Hl _ _ Hl1) as (l0 & Hl0 & Hin0). exists l0. auto. }
  split_and!; [|lia|done]. split.
  - apply hosts_ok_pop; [by apply hosts_ok_pop|done].
  - intros h1 h3 Hne' [? H1] [? H3]. apply Hlt.
    destruct (Hshr _ _ H1) as (? & ? & _), (Hshr _ _ H3) as (? & ? & _). eauto.
  - intros h' l' Hh'. unfold hp' in Hh'.
    pose proof (Hbal _ _ Hl) as Hb. pose proof (Hmax _ _ Hl2) as Hm2.
    destruct (decide (h' = h2)) as [->|Hn2].
    { rewrite lookup_insert_eq in Hh'. simplify_eq. rewrite length_removelast. lia. }
    rewrite lookup_insert_ne in Hh' by done. destruct (decide (h' = h)) as [->|Hn1].
    { rewrite lookup_insert_eq in Hh'. simplify_eq. rewrite length_removelast. lia. }
    rewrite lookup_insert_ne in Hh' by done. pose proof (Hmax _ _ Hh').
    pose proof (sum_proxies_three _ _ _ _ _ _ _ Hl Hl2 Hh'). specialize (H1 ltac:(done)).
    specialize (H1 ltac:(done) ltac:(done)). lia.
Qed.

(** One round: two free proxies of different hosts leave the table. *)
Lemma allocate_step_spec s hp lt :
  alloc_inv s hp lt → 2 ≤ sum_proxies hp →
  ∃ hp' lt' a b h1 h2, allocate_step hp lt = Ok (hp', lt', Arr2 a b) ∧
    alloc_inv s hp' lt' ∧ sum_proxies hp = sum_proxies hp' + 2 ∧ shrinks hp hp' ∧
    h1 ≠ h2 ∧ free_at s a h1 ∧ free_at s b h2 ∧
    (∃ l, hp !! h1 = Some l ∧ a ∈ l) ∧ (∃ l, hp !! h2 = Some l ∧ b ∈ l) ∧
    (∀ l, hp' !! h1 = Some l → a ∉ l) ∧ (∀ l, hp' !! h2 = Some l → b ∉ l).
Proof.
  intros Hinv Hsum. pose proof Hinv as [Hok Hlinks Hbal]. unfold allocate_step.
  destruct (max_host_spec hp) as (h & l & -> & Hl & Hlen & Hmax); [lia|]. outcome_simpl.
  destruct (pop_proxy_spec s hp h l Hok Hl Hlen) as (a & -> & Ha & Ha'). outcome_simpl.
  set (hp1 := <[h := removelast l]> hp).
  assert (hosts_ok s hp1) as Hok1 by by apply hosts_ok_pop.
  pose proof (Hbal _ _ Hl) as Hb.
  destruct (other_host hp h l Hl) as (h0 & l0 & Hne0 & Hl0 & Hlen0); [lia|].
  destruct (second_host_spec hp1 lt h) as (row & h2 & n & l2 & Hrow & Hmin & Hne & Hl2 & Hlen2).
  { intros h' l' Hne Hl'. unfold hp1 in Hl'. rewrite lookup_insert_ne in Hl' by done.
    apply Hlinks; [done|eauto..]. }
  { exists h0, l0. split_and!; [done| |done]. unfold hp1. by rewrite lookup_insert_ne. }
  rewrite Hrow. outcome_simpl. rewrite Hmin. outcome_simpl.
  destruct (pop_proxy_spec s hp1 h2 l2 Hok1 Hl2 Hlen2) as (b & -> & Hb1 & Hb2). outcome_simpl.
  assert (hp !! h2 = Some l2) as Hl2' by (unfold hp1 in Hl2; by rewrite lookup_insert_ne in Hl2).
  assert (linked lt h h2) as L1 by (apply Hlinks; [done|eauto..]).
  assert (linked lt h2 h) as L2 by (apply Hlinks; [done|eauto..]).
  destruct (link_bump_spec lt h h2 L1) as (lt1 & -> & Hlt1). outcome_simpl.
  destruct (link_bump_spec lt1 h2 h) as (lt2 & -> & Hlt2); [by apply Hlt1|]. outcome_simpl.
  destruct (alloc_inv_pops s hp lt lt2 h l h2 l2 Hinv) as (Hinv' & Hsum' & Hshr); try done.
  { intros. by rewrite Hlt2, Hlt1. }
  exists (<[h2 := removelast l2]> hp1), lt2, a, b, h, h2.
  split_and!; try done; [by apply (Hok _ _ Hl)|by apply (Hok _ _ Hl2')|eauto..| |].
  - intros l' Hl'. rewrite lookup_insert_ne in Hl' by done. unfold hp1 in Hl'.
    rewrite lookup_insert_eq in Hl'. by simplify_eq.
  - intros l' Hl'. rewrite lookup_insert_eq in Hl'. by simplify_eq.
Qed.

Definition pair_ok s (p : arr2 string) : Prop :=
  ∃ h1 h2, free_at s (at0 p) h1 ∧ free_at s (at1 p) h2 ∧ h1 ≠ h2.
Definition pair_addresses (pairs : list (arr2 string)) : list string :=
  mjoin (arr2_list <$> pairs).

(** The pairs built so far use free proxies that have left the table. *)
Definition pairs_inv s hp (pairs : list (arr2 string)) : Prop :=
  Forall (pair_ok s) pairs ∧ NoDup (pair_addresses pairs) ∧
  ∀ h l a, hp !! h = Some l → a ∈ l → a ∉ pair_addresses pairs.

Lemma free_at_inj s a h h' : free_at s a h → free_at s a h' → h = h'.
Proof. intros (pr & Ha & _ & <-) (pr' & Ha' & _ & <-). congruence. Qed.

Lemma pairs_inv_step s hp hp' a b h1 h2 pairs :
  pairs_inv s hp pairs → hosts_ok s hp → shrinks hp hp' → h1 ≠ h2 →
  free_at s a h1 → free_at s b h2 →
  (∃ l, hp !! h1 = Some l ∧ a ∈ l) → (∃ l, hp !! h2 = Some l ∧ b ∈ l) →
  (∀ l, hp' !! h1 = Some l → a ∉ l) → (∀ l, hp' !! h2 = Some l → b ∉ l) →
  pairs_inv s hp' (pairs ++ [Arr2 a b]).
Proof.
  intros (Hf & Hnd & Hni) Hok Hshr Hne Ha Hb (la & Hla & Ha1) (lb & Hlb & Hb1) Ha2 Hb2.
  assert (pair_addresses (pairs ++ [Arr2 a b]) = pair_addresses pairs ++ [a; b]) as Heq
    by (unfold pair_addresses; by rewrite fmap_app, join_app).
  assert (a ≠ b) as Hab by (intros ->; by apply Hne, (free_at_inj s b)).
  split_and!.
  - apply Forall_app. split; [done|]. constructor; [|constructor]. exists h1, h2. done.
  - rewrite Heq. apply NoDup_app. split_and!; [done| |].
    + intros x Hx Hin. apply elem_of_cons in Hin as [->|Hin]; [by eapply (Hni h1 la)|].
      apply list_elem_of_singleton in Hin as ->. by eapply (Hni h2 lb).
    + apply NoDup_cons. split; [set_solver|]. apply NoDup_singleton.
  - intros h l x Hl Hx. rewrite Heq, elem_of_app. intros [Hin|Hin].
    + destruct (Hshr _ _ Hl) as (l0 & Hl0 & Hsub). by eapply (Hni h l0); [|apply Hsub|].
    + destruct (Hshr _ _ Hl) as (l0 & Hl0 & Hsub).
      pose proof (proj2 (Hok _ _ Hl0) x (Hsub _ Hx)) as Hxh.
      apply elem_of_cons in Hin as [->|Hin].
      * rewrite (free_at_inj s a h h1) in Hl by done. by eapply Ha2.
      * apply list_elem_of_singleton in Hin as ->.
        rewrite (free_at_inj s b h h2) in Hl by done. by eapply Hb2.
Qed.

Lemma allocate_loop_spec s fuel : ∀ hp lt expected pairs,
  alloc_inv s hp lt → pairs_inv s hp pairs → Nat.Even expected →
  expected ≤ sum_proxies hp + length pairs * 2 →
  length pairs * 2 ≤ expected → expected < fuel + length pairs →
  ∃ pairs', allocate_loop fuel hp lt expected pairs = Ok pairs' ∧
    length pairs' * 2 = expected ∧ Forall (pair_ok s) pairs' ∧ NoDup (pair_addresses pairs').
Proof.
  induction fuel as [|fuel IH]; intros hp lt expected pairs Hinv Hp Hev Hsum Hle Hfuel; [lia|].
  cbn [allocate_loop]. destruct (Nat.ltb_spec (length pairs * 2) expected) as [Hlt|Hge].
  - destruct Hev as [k Hk].
    destruct (allocate_step_spec s hp lt Hinv) as (hp' & lt' & a & b & h1 & h2 & -> & Hinv' & Hs &
      Hshr & Hne & Ha & Hb & Hla & Hlb & Ha' & Hb'); [lia|].
    outcome_simpl. apply IH; [done| |by exists k|..].
    + eapply pairs_inv_step; [done|apply Hinv|done..].
    + rewrite length_app. cbn. lia.
    + rewrite length_app. cbn. lia.
    + rewrite length_app. cbn. lia.
  - exists pairs. destruct Hp as (? & ? & _). split_and!; [done|lia|done|done].
Qed.

(** ** The chunks that are chosen *)

Definition resource_free s (pr : ProxyResource) : Prop :=
  all_proxies s !! pr_proxy_address pr = Some pr ∧ is_free s pr = true.

(** Pairs of distinct free proxies of the store. *)
Record chosen s (arr : list (arr2 ProxyResource)) : Prop := {
  cn_free : Forall (λ p, resource_free s (at0 p) ∧ resource_free s (at1 p)) arr;
  cn_nodup : NoDup (pr_proxy_address <$> mjoin (arr2_list <$> arr));
}.

Definition on_two_hosts (p : arr2 ProxyResource) : Prop := pr_host (at0 p) ≠ pr_host (at1 p).

Lemma fetch_pairs_spec s pairs :
  keys_ok s → Forall (pair_ok s) pairs →
  ∃ arr, omapM (λ p : arr2 string,
      a ← get_resource s (at0 p); b ← get_resource s (at1 p); Ok (Arr2 a b)) pairs = Ok arr ∧
    Forall (λ p, resource_free s (at0 p) ∧ resource_free s (at1 p)) arr ∧
    Forall on_two_hosts arr ∧
    pr_proxy_address <$> mjoin (arr2_list <$> arr) = pair_addresses pairs.
Proof.
  intros Hk. induction 1 as [|p pairs (h1 & h2 & Ha & Hb & Hne) _ IH]; cbn [omapM].
  { exists []. split_and!; done || constructor. }
  destruct IH as (arr & -> & Hf & Hh & Heq).
  destruct Ha as (pa & Hpa & Hfa & Hha), Hb as (pb & Hpb & Hfb & Hhb).
  unfold get_resource. rewrite Hpa, Hpb. outcome_simpl.
  pose proof (Hk _ _ Hpa) as Ka. pose proof (Hk _ _ Hpb) as Kb.
  exists (Arr2 pa pb :: arr). split_and!; [done| | |].
  - constructor; [|done]. unfold resource_free. cbn. by rewrite Ka, Kb.
  - constructor; [|done]. unfold on_two_hosts. cbn. congruence.
  - change (mjoin (arr2_list <$> Arr2 pa pb :: arr))
      with (pa :: pb :: mjoin (arr2_list <$> arr)).
    rewrite !fmap_cons, Heq, Ka, Kb. done.
Qed.

Lemma generate_free_chunks_spec s n :
  keys_ok s → Nat.Even n →
  generate_free_chunks s n = Err NoAvailableResource ∨
  ∃ arr, generate_free_chunks s n = Ok arr ∧ length arr * 2 = n ∧ chosen s arr ∧
    Forall on_two_hosts arr.
Proof.
  intros Hk Hev. unfold generate_free_chunks.
  destruct (remove_redundant_spec s _ n (hosts_ok_free s Hk))
    as [->|(hp & -> & Hok & Hsame & Hsum & Hbal)]; [by left|]. outcome_simpl. right.
  unfold allocate_chunk. destruct (max_proxies_spec hp) as (_ & Hatt & Hempty).
  destruct (Nat.ltb_spec (sum_proxies hp) n); [lia|].
  destruct (Nat.ltb_spec (sum_proxies hp) (max_proxies hp * 2)) as [Hlt|_].
  { exfalso. destruct (decide (hp = ∅)) as [He|He]; [rewrite (Hempty He) in Hlt; lia|].
    destruct (Hatt He) as (h & l & Hl & Heq). specialize (Hbal _ _ Hl). lia. }
  destruct (allocate_loop_spec s (S n) hp (build_link_table s) n []) as (pairs & -> & Hlen & Hf & Hnd).
  - split; [done| |].
    + intros h1 h2 Hne H1 H2. apply Hsame in H1 as [l1 H1], H2 as [l2 H2].
      destruct l1 as [|a1 l1]; [by apply free_hosts_nonempty in H1|].
      destruct l2 as [|a2 l2]; [by apply free_hosts_nonempty in H2|].
      eapply build_link_table_free; [..|done].
      * apply (hosts_ok_free s Hk _ _ H1). by left.
      * apply (hosts_ok_free s Hk _ _ H2). by left.
    + intros h l Hl. specialize (Hbal _ _ Hl). lia.
  - split_and!; [constructor|constructor|]. intros h l a _ _. apply not_elem_of_nil.
  - done.
  - cbn. lia.
  - cbn. lia.
  - cbn. lia.
  - outcome_simpl. destruct (fetch_pairs_spec s pairs Hk Hf) as (arr & Harr & Hfree & Hhosts & Heq).
    rewrite Harr. exists arr. split_and!; [done| |by split; [|rewrite Heq]|done].
    apply (f_equal length) in Heq. rewrite length_fmap in Heq.
    assert (∀ {A} (l : list (arr2 A)), length (mjoin (arr2_list <$> l)) = length l * 2) as Hj.
    { intros A l. induction l as [|x l IH]; [done|].
      change (S (S (length (mjoin (arr2_list <$> l)))) = S (length l) * 2). lia. }
    unfold pair_addresses in Heq. rewrite !Hj in Heq. lia.
Qed.

Lemma pair_up_spec n : ∀ l,
  length l ≤ n → Nat.Even (length l) →
  ∃ arr, pair_up l = Ok arr ∧ length arr * 2 = length l ∧ mjoin (arr2_list <$> arr) = l.
Proof.
  induction n as [|n IH]; intros [|a [|b l]] Hn Hev; cbn [length] in *; try lia.
  - by exists [].
  - by exists [].
  - by destruct Hev as [k Hk]; lia.
  - destruct (IH l) as (arr & Heq & Hlen & Hj); [lia|by destruct Hev as [k Hk]; exists (k - 1); lia|].
    cbn [pair_up]. rewrite Heq. outcome_simpl. exists (Arr2 a b :: arr).
    split_and!; [done|cbn; lia|]. change (a :: b :: mjoin (arr2_list <$> arr) = a :: b :: l).
    by rewrite Hj.
Qed.

Lemma generate_ordered_spec s n first_index :
  keys_ok s → Nat.Even n →
  (∃ e, generate_free_chunks_for_ordered_proxy_index s n first_index = Err e) ∨
  ∃ arr, generate_free_chunks_for_ordered_proxy_index s n first_index = Ok arr ∧
    length arr * 2 = n ∧ chosen s arr.
Proof.
  intros Hk Hev. unfold generate_free_chunks_for_ordered_proxy_index.
  destruct (Nat.ltb_spec (length (get_free_proxy_resource s)) n); [by left; eauto|].
  set (l := take n (sort_by_key pr_index (get_free_proxy_resource s))).
  assert (length l = n) as Hlen.
  { unfold l. rewrite length_take, (Permutation_length (sort_by_key_perm _ _)). lia. }
  assert (∃ arr, pair_up l = Ok arr ∧ length arr * 2 = n ∧ chosen s arr) as (arr & Heq & Hl & Hc).
  { destruct (pair_up_spec n l) as (arr & Heq & Hl & Hj); [lia|by rewrite Hlen|].
    exists arr. split_and!; [done|lia|]. split.
    - assert (Forall (resource_free s) (mjoin (arr2_list <$> arr))) as Hf.
      { rewrite Hj. apply Forall_forall. intros pr Hpr. apply (elem_of_free_resource s pr Hk).
        rewrite <- (sort_by_key_perm pr_index).
        rewrite <- (take_drop n (sort_by_key _ _)), elem_of_app. by left. }
      clear -Hf. induction arr as [|p arr IH]; [constructor|]. cbn in Hf.
      apply Forall_cons in Hf as [H0 Hf]. apply Forall_cons in Hf as [H1 Hf].
      constructor; [done|by apply IH].
    - rewrite Hj. unfold l. rewrite fmap_take.
      eapply sublist_NoDup; [|apply sublist_take].
      rewrite (sort_by_key_perm pr_index). by apply free_addresses_NoDup. }
  destruct (pr_index <$> l) as [|first rest]; [by right; eauto|].
  case_bool_decide; [by left; eauto|]. destruct (negb _); [by left; eauto|]. right. eauto.
Qed.

(** ** Replacing a proxy *)

Lemma generate_new_free_proxy_spec s failed pr name cs c :
  keys_ok s → all_proxies s !! failed = Some pr →
  clusters s !! name = Some cs → c ∈ cs_chunks cs → pr_host pr ∈ arr2_list (ch_hosts c) →
  generate_new_free_proxy s failed = Err NoAvailableResource ∨
  ∃ pr', generate_new_free_proxy s failed = Ok pr' ∧ resource_free s pr'.
Proof.
  intros Hk Hf Hcs Hc Hh. unfold generate_new_free_proxy. rewrite Hf. outcome_simpl.
  assert (∃ row, build_link_table s !! pr_host pr = Some row) as [row Hrow].
  { destruct (build_link_table_chunk s name cs c Hcs Hc) as [L1 L2].
    apply elem_of_cons in Hh as [Hh|Hh]; [|apply list_elem_of_singleton in Hh];
      rewrite Hh; unfold linked in *.
    - destruct (build_link_table s !! at0 (ch_hosts c)); [eauto|by destruct L1].
    - destruct (build_link_table s !! at1 (ch_hosts c)); [eauto|by destruct L2]. }
  rewrite Hrow. outcome_simpl.
  destruct (min_by_spec (second_host_cmp (generate_free_host_proxies s))
    (filter (λ kv, is_Some (generate_free_host_proxies s !! kv.1)) (hash_iter row)))
    as [[_ ->]|([h n] & Hin & ->)].
  - intros a b [[la Ha] _]%list_elem_of_filter [[lb Hb] _]%list_elem_of_filter.
    unfold second_host_cmp. rewrite Ha, Hb. destruct (_ ?= _); cbn; eauto.
  - by left.
  - outcome_simpl. apply list_elem_of_filter in Hin as [[l Hl] _]. cbn in Hl.
    destruct l as [|a l]; [by apply free_hosts_nonempty in Hl|].
    destruct (hosts_ok_free s Hk _ _ Hl) as [_ Hfree].
    destruct (Hfree a) as (pa & Hpa & Hfa & Hha); [by left|].
    destruct (find _ (get_free_proxies s)) as [x|] eqn:Hfind.
    + apply find_some in Hfind as [Hx _]. apply list_elem_of_In in Hx.
      unfold get_free_proxies in Hx. apply list_elem_of_fmap in Hx as (px & -> & Hpx).
      apply elem_of_free_resource in Hpx as [Hpx1 Hpx2]; [|done].
      right. exists px. outcome_simpl. unfold get_resource. cbn [hp_proxy_address].
      rewrite Hpx1. by split.
    + exfalso. assert (mkHostProxy h (pr_proxy_address pa) ∈ get_free_proxies s) as Hx.
      { unfold get_free_proxies. apply list_elem_of_fmap. exists pa. rewrite Hha. split; [done|].
        apply elem_of_free_resource; [done|]. by rewrite (Hk _ _ Hpa). }
      apply list_elem_of_In in Hx. apply (find_none _ _ Hfind) in Hx. cbn in Hx.
      by apply bool_decide_eq_false in Hx.
Qed.
End spec.
