(* ===== verification/Update.v ===== *)
(** * Updates of the metadata store

    Models the operations of [src/src/broker/update.rs] that change the store
    (proxies, clusters, failures, failover, configuration) and the composed
    operations of [MetaStore] in [src/src/broker/store.rs].  The current time
    is an argument: [fresh t] says whether a report made at time [t] is within
    the failure TTL. *)

From S2P Require Import Prelude RangeList RustStr ClusterMeta Store SlotInv Query Migrate.
From S2P Require Import ChunkAlloc.

Section update.
Context `{HashOrder} `{UnicodeCase}.

(** ** Failure reports *)

Definition add_failure (now : Z) (address reporter_id : string) (s : MetaStore)
  : MetaStore * bool :=
  match failures s !! address ≫= λ m, m !! reporter_id with
  | Some _ => (s, false)
  | None =>
      let s := (bump_global_epoch s).1 in
      let m := default ∅ (failures s !! address) in
      (set_failures s (<[address := <[reporter_id := now]> m]> (failures s)), true)
  end.

Definition retain_failures (fresh : Z → bool) (m : gmap string (gmap string Z))
  : gmap string (gmap string Z) :=
  filter (λ kv, kv.2 ≠ ∅) (filter (λ kv, fresh kv.2 = true) <$> m).

Definition get_failures (fresh : Z → bool) (failure_quorum : nat) (s : MetaStore)
  : MetaStore * list string :=
  let s := set_failures s (retain_failures fresh (failures s)) in
  (s, fst <$> filter (λ kv, failure_quorum ≤ size kv.2 ∧ is_Some (all_proxies s !! kv.1))
                (hash_iter (failures s))).

Definition cleanup_failures (fresh : Z → bool) (failure_quorum : nat) (s : MetaStore)
  : MetaStore * bool :=
  let s' := (get_failures fresh failure_quorum s).1 in
  (s', negb (bool_decide (size (failures s) = size (failures s')))).

(** ** Proxies *)

Definition add_proxy (proxy_address : string) (nodes : arr2 string) (host : option string)
    (proxy_index : option N) : SM () := λ s,
  let parts := split ":"%char proxy_address in
  if bool_decide (length parts ≠ 2) then (s, Err InvalidProxyAddress) else
  match (match host, head parts with
         | Some h, _ => Some h
         | None, Some h => Some h
         | None, None => None
         end) with
  | None => (s, Err InvalidProxyAddress)
  | Some host =>
      match (if enable_ordered_proxy s then proxy_index else Some 0%N) with
      | None => (s, Err MissingIndex)
      | Some index =>
          let exists_ := bool_decide (is_Some (all_proxies s !! proxy_address)) in
          let cleared := bool_decide (proxy_address ∈ failed_proxies s) ||
                         bool_decide (is_Some (failures s !! proxy_address)) in
          let s := if exists_ then s
                   else set_all_proxies s
                     (<[proxy_address := mkProxyResource proxy_address nodes host index None]>
                        (all_proxies s)) in
          let s := set_failed_proxies s (failed_proxies s ∖ {[proxy_address]}) in
          let s := set_failures s (delete proxy_address (failures s)) in
          let s := if negb exists_ || cleared then (bump_global_epoch s).1 else s in
          (s, if exists_ then Err AlreadyExisted else Ok ())
      end
  end.

Definition remove_proxy (proxy_address : string) : SM () := λ s,
  match all_proxies s !! proxy_address with
  | None => (s, Err ProxyNotFound)
  | Some pr =>
      if bool_decide (pr_cluster pr ≠ None) then (s, Err InUse)
      else
        let s := set_all_proxies s (delete proxy_address (all_proxies s)) in
        let s := set_failed_proxies s (failed_proxies s ∖ {[proxy_address]}) in
        let s := set_failures s (delete proxy_address (failures s)) in
        ((bump_global_epoch s).1, Ok ())
  end.

(** ** Chunks of new proxies *)

Definition create_slots (average remainder : N) (index : nat) (curr_slot : N)
  : SlotRange * N :=
  let r := bool_to_N (N.of_nat index <? remainder)%N in
  let end_ := (curr_slot + average + r)%N in
  (mkSlotRange (from_single_range (mkRange curr_slot (wsub end_ 1))) TagNone, end_).

Definition make_chunk (p : arr2 ProxyResource) (stable : arr2 (option SlotRange)) : ChunkStore :=
  let a := at0 p in
  let b := at1 p in
  mkChunkStore Normal stable (Arr2 [] [])
    (Arr2 (pr_proxy_address a) (pr_proxy_address b))
    (Arr2 (pr_host a) (pr_host b))
    (Arr4 (at0 (pr_node_addresses a)) (at1 (pr_node_addresses a))
          (at0 (pr_node_addresses b)) (at1 (pr_node_addresses b))).

Fixpoint make_chunks (with_slots : bool) (average remainder : N) (i : nat) (curr_slot : N)
    (l : list (arr2 ProxyResource)) : list ChunkStore :=
  match l with
  | [] => []
  | p :: l =>
      let a := 2 * i in
      let b := a + 1 in
      if with_slots then
        let '(s0, curr_slot) := create_slots average remainder a curr_slot in
        let '(s1, curr_slot) := create_slots average remainder b curr_slot in
        make_chunk p (Arr2 (Some s0) (Some s1)) ::
          make_chunks with_slots average remainder (S i) curr_slot l
      else
        make_chunk p (Arr2 None None) ::
          make_chunks with_slots average remainder (S i) curr_slot l
  end.

Definition proxy_resource_to_chunk_store (l : list (arr2 ProxyResource)) (with_slots : bool)
  : res (list ChunkStore) :=
  let master_num := length l * 2 in
  if bool_decide (master_num = 0) then Panic else
  let average := (SLOT_NUM / N.of_nat master_num)%N in
  let remainder := (SLOT_NUM - average * N.of_nat master_num)%N in
  Ok (make_chunks with_slots average remainder 0 0 l).

(** ** Tagging proxies *)

Definition set_cluster (o : option ClusterName) (pr : ProxyResource) : ProxyResource :=
  mkProxyResource (pr_proxy_address pr) (pr_node_addresses pr) (pr_host pr) (pr_index pr) o.

(** [get_mut(address).expect(..).cluster = Some(name)] for every address. *)
Fixpoint occupy (name : ClusterName) (addresses : list string) (m : gmap string ProxyResource)
  : res (gmap string ProxyResource) :=
  match addresses with
  | [] => Ok m
  | a :: l => pr ← expect (m !! a); occupy name l (<[a := set_cluster (Some name) pr]> m)
  end.

(** [if let Some(proxy) = get_mut(address) { proxy.cluster = None }]. *)
Definition release (addresses : list string) (m : gmap string ProxyResource)
  : gmap string ProxyResource :=
  foldl (λ m a, alter (set_cluster None) a m) m addresses.

(** [node_num % 4 != 0] and [NonZeroUsize::new(node_num / 2)]. *)
Definition check_node_num (node_num : nat) : SM nat :=
  if bool_decide (node_num mod 4 ≠ 0) then fail InvalidNodeNum
  else if bool_decide (node_num / 2 = 0) then fail InvalidNodeNum
  else mret (node_num / 2).

Definition pick_chunks (proxy_num : nat) (first_index : nat) : SM (list (arr2 ProxyResource)) :=
  s ← get_store;
  lift (if enable_ordered_proxy s
        then generate_free_chunks_for_ordered_proxy_index s proxy_num (N.of_nat first_index)
        else generate_free_chunks s proxy_num).

Definition occupy_all (name : ClusterName) (addresses : list string) : SM () :=
  s ← get_store;
  m ← lift (occupy name addresses (all_proxies s));
  put_store (set_all_proxies s m).

(** ** Clusters *)

Definition add_cluster (cluster_name : string) (node_num : nat)
    (default_cluster_config : ClusterConfig) : SM () :=
  s ← get_store;
  if enable_ordered_proxy s && negb (bool_decide (clusters s = ∅))
  then fail OneClusterAlreadyExisted else
  name ← parse_cluster_name cluster_name;
  if bool_decide (is_Some (clusters s !! name)) then fail AlreadyExisted else
  proxy_num ← check_node_num node_num;
  arr ← pick_chunks proxy_num 0;
  chunk_stores ← lift (proxy_resource_to_chunk_store arr true);
  epoch ← bump_global_epoch;
  _ ← occupy_all name (chunk_addresses chunk_stores);
  put_cluster name (mkClusterStore epoch name chunk_stores default_cluster_config).

Definition remove_cluster (cluster_name : string) : SM () :=
  name ← parse_cluster_name cluster_name;
  cs ← find_cluster name;
  s ← get_store;
  let s := set_clusters s (delete name (clusters s)) in
  let s := set_all_proxies s (release (chunk_addresses (cs_chunks cs)) (all_proxies s)) in
  _ ← put_store s;
  _ ← bump_global_epoch;
  mret ().

Definition auto_add_nodes (cluster_name : string) (num : nat) : SM (list Node) :=
  name ← parse_cluster_name cluster_name;
  cluster ← find_cluster name;
  if is_migrating cluster then fail MigrationRunning else
  let existing_proxy_num := length (cs_chunks cluster) * CHUNK_PARTS in
  proxy_num ← check_node_num num;
  arr ← pick_chunks proxy_num existing_proxy_num;
  chunks ← lift (proxy_resource_to_chunk_store arr false);
  new_epoch ← bump_global_epoch;
  cluster ← find_cluster name;
  let cluster := set_epoch (set_chunks cluster (cs_chunks cluster ++ chunks)) new_epoch in
  _ ← put_cluster name cluster;
  c ← lift (cluster_store_to_cluster cluster);
  _ ← occupy_all name (node_proxy_address <$> cluster_nodes c);
  (if bool_decide (length (cluster_nodes c) < num) then lift Panic
   else mret (drop (length (cluster_nodes c) - num) (cluster_nodes c))).

Definition auto_scale_up_nodes (cluster_name : string) (expected_num : nat) : SM (list Node) :=
  name ← parse_cluster_name cluster_name;
  cluster ← find_cluster name;
  let existing_node_num := length (cs_chunks cluster) * 4 in
  if bool_decide (expected_num ≤ existing_node_num) then fail NodeNumAlreadyEnough
  else auto_add_nodes cluster_name (expected_num - existing_node_num).

(** The closure of [retain]: the chunk still has slots. *)
Definition chunk_in_use (c : ChunkStore) : bool :=
  existsb (λ o, bool_decide (o ≠ None)) (arr2_list (ch_stable_slots c)) || chunk_is_migrating c.

Definition auto_delete_free_nodes (cluster_name : string) : SM () :=
  name ← parse_cluster_name cluster_name;
  s ← get_store;
  let new_epoch := wadd (global_epoch s) 1 in
  cluster ← find_cluster name;
  if is_migrating cluster then fail MigrationRunning else
  let kept := filter (λ c, chunk_in_use c = true) (cs_chunks cluster) in
  let removed := filter (λ c, chunk_in_use c = false) (cs_chunks cluster) in
  if bool_decide (removed = []) then fail FreeNodeNotFound else
  _ ← put_cluster name (set_epoch (set_chunks cluster kept) new_epoch);
  s ← get_store;
  _ ← put_store (set_all_proxies s (release (chunk_addresses removed) (all_proxies s)));
  _ ← bump_global_epoch;
  mret ().

Definition auto_delete_free_nodes_if_exists (cluster_name : string) : SM () := λ s,
  match auto_delete_free_nodes cluster_name s with
  | (s, Err MigrationRunning) | (s, Err FreeNodeNotFound) => (s, Ok ())
  | r => r
  end.

(** ** Failover *)

Definition set_entry_epoch (epoch : N) (e : MigrationSlotRangeStore) : MigrationSlotRangeStore :=
  let m := mr_meta e in
  mkMigrationSlotRangeStore (mr_range_list e) (mr_is_migrating e)
    (mkMigrationMetaStore epoch (ms_src_chunk_index m) (ms_src_chunk_part m)
       (ms_dst_chunk_index m) (ms_dst_chunk_part m)).

Definition entry_src (e : MigrationSlotRangeStore) : nat * nat :=
  (ms_src_chunk_index (mr_meta e), ms_src_chunk_part (mr_meta e)).
Definition entry_dst (e : MigrationSlotRangeStore) : nat * nat :=
  (ms_dst_chunk_index (mr_meta e), ms_dst_chunk_part (mr_meta e)).

(** The positions both ends of the entries of a part are at. *)
Definition peer_positions (es : list MigrationSlotRangeStore) : gset (nat * nat) :=
  list_to_set (mjoin ((λ e, [entry_src e; entry_dst e]) <$> es)).

(** How the first loop of [takeover_master] ends. *)
Inductive Takeover : Type :=
| AlreadyTaken
| TakenOver (chunks : list ChunkStore) (peer_position : gset (nat * nat)).

Definition takeover_part (new_epoch : N) (c : ChunkStore) (part : nat)
    (role : ChunkRolePosition) : ChunkStore * gset (nat * nat) :=
  let es := default [] (arr2_get (ch_migrating_slots c) part) in
  (set_migrating_slots (set_role_position c role)
     (arr2_set (ch_migrating_slots c) part (set_entry_epoch new_epoch <$> es)),
   peer_positions es).

Fixpoint takeover_loop (new_epoch : N) (failed : string) (chunks : list ChunkStore) : Takeover :=
  match chunks with
  | [] => TakenOver [] ∅
  | c :: rest =>
      if bool_decide (at0 (ch_proxy_addresses c) = failed) then
        if bool_decide (ch_role_position c = SecondChunkMaster) then AlreadyTaken
        else let '(c, p) := takeover_part new_epoch c 0 SecondChunkMaster in
             TakenOver (c :: rest) p
      else if bool_decide (at1 (ch_proxy_addresses c) = failed) then
        if bool_decide (ch_role_position c = FirstChunkMaster) then AlreadyTaken
        else let '(c, p) := takeover_part new_epoch c 1 FirstChunkMaster in
             TakenOver (c :: rest) p
      else
        match takeover_loop new_epoch failed rest with
        | AlreadyTaken => AlreadyTaken
        | TakenOver rest p => TakenOver (c :: rest) p
        end
  end.

(** The second loop: every entry with an end in [peer_position] is reset. *)
Definition reset_entry (new_epoch : N) (p : gset (nat * nat)) (e : MigrationSlotRangeStore)
  : MigrationSlotRangeStore :=
  if bool_decide (entry_src e ∈ p ∨ entry_dst e ∈ p) then set_entry_epoch new_epoch e else e.
Definition reset_chunk (new_epoch : N) (p : gset (nat * nat)) (c : ChunkStore) : ChunkStore :=
  set_migrating_slots c (arr2_map (fmap (reset_entry new_epoch p)) (ch_migrating_slots c)).

Definition takeover_master (name : ClusterName) (failed_proxy_address : string) : SM () :=
  new_epoch ← bump_global_epoch;
  cluster ← find_cluster name;
  match takeover_loop new_epoch failed_proxy_address (cs_chunks cluster) with
  | AlreadyTaken => mret ()
  | TakenOver chunks p =>
      put_cluster name (set_epoch (set_chunks cluster (reset_chunk new_epoch p <$> chunks)) new_epoch)
  end.

Definition replace_half (c : ChunkStore) (part : nat) (pr : ProxyResource) : ChunkStore :=
  let n := ch_node_addresses c in
  let m := pr_node_addresses pr in
  mkChunkStore (ch_role_position c) (ch_stable_slots c) (ch_migrating_slots c)
    (arr2_set (ch_proxy_addresses c) part (pr_proxy_address pr))
    (arr2_set (ch_hosts c) part (pr_host pr))
    (match part with
     | 0 => Arr4 (at0 m) (at1 m) (q2 n) (q3 n)
     | _ => Arr4 (q0 n) (q1 n) (at0 m) (at1 m)
     end).

Fixpoint replace_in_chunks (failed : string) (pr : ProxyResource) (chunks : list ChunkStore)
  : list ChunkStore :=
  match chunks with
  | [] => []
  | c :: rest =>
      if bool_decide (at0 (ch_proxy_addresses c) = failed) then replace_half c 0 pr :: rest
      else if bool_decide (at1 (ch_proxy_addresses c) = failed) then replace_half c 1 pr :: rest
      else c :: replace_in_chunks failed pr rest
  end.

Definition replace_failed_proxy (failed : string) (migration_limit : N)
  : SM (option Proxy) :=
  s ← get_store;
  pr ← lift (ok_or (all_proxies s !! failed) ProxyNotFound);
  match pr_cluster pr with
  | None =>
      let s := set_failures s (delete failed (failures s)) in
      _ ← put_store (set_failed_proxies s ({[failed]} ∪ failed_proxies s));
      mret None
  | Some name =>
      _ ← takeover_master name failed;
      s ← get_store;
      if enable_ordered_proxy s then _ ← bump_global_epoch; mret None
      else
        _ ← put_store (set_failed_proxies s ({[failed]} ∪ failed_proxies s));
        s ← get_store;
        proxy_resource ← lift (generate_new_free_proxy s failed);
        new_epoch ← bump_global_epoch;
        s ← get_store;
        cluster ← lift (expect (clusters s !! name));
        _ ← put_cluster name
              (set_epoch (set_chunks cluster
                 (replace_in_chunks failed proxy_resource (cs_chunks cluster))) new_epoch);
        s ← get_store;
        let m := alter (set_cluster None) failed (all_proxies s) in
        let m := alter (set_cluster (Some name)) (pr_proxy_address proxy_resource) m in
        _ ← put_store (set_all_proxies s m);
        s ← get_store;
        o ← lift (get_proxy_by_address s (pr_proxy_address proxy_resource) migration_limit);
        proxy ← lift (expect o);
        mret (Some proxy)
  end.

Definition has_failed_proxy (s : MetaStore) (c : ChunkStore) : bool :=
  existsb (λ a, bool_decide (a ∈ failed_proxies s) || bool_decide (is_Some (failures s !! a)))
    (arr2_list (ch_proxy_addresses c)).

Definition balance_masters (cluster_name : string) : SM () :=
  name ← parse_cluster_name cluster_name;
  s ← get_store;
  let new_epoch := wadd (global_epoch s) 1 in
  cluster ← find_cluster name;
  let chunks := (λ c, if has_failed_proxy s c then c else set_role_position c Normal)
                  <$> cs_chunks cluster in
  _ ← put_cluster name (set_epoch (set_chunks cluster chunks) new_epoch);
  _ ← bump_global_epoch;
  mret ().

(** ** Configuration *)

Fixpoint set_fields (c : ClusterConfig) (l : list (string * string)) : res ClusterConfig :=
  match l with
  | [] => Ok c
  | (k, v) :: l =>
      match set_field c k v with
      | Ok c => set_fields c l
      | Err e => Err (InvalidConfig k v (config_error_to_string e))
      | Panic => Panic
      end
  end.

Definition change_config (cluster_name : string) (config : gmap string string) : SM () :=
  name ← parse_cluster_name cluster_name;
  s ← get_store;
  let new_epoch := wadd (global_epoch s) 1 in
  cluster ← find_cluster name;
  if is_migrating cluster then fail MigrationRunning else
  c ← lift (set_fields (cs_config cluster) (hash_iter config));
  _ ← put_cluster name (set_epoch (set_config cluster c) new_epoch);
  _ ← bump_global_epoch;
  mret ().

(** ** Composed operations of [MetaStore] *)

Definition commit_migration (task : MigrationTaskMeta) (clear_free_nodes : bool) : SM () :=
  _ ← commit_migration_task task;
  if clear_free_nodes then auto_delete_free_nodes_if_exists (mtm_cluster_name task)
  else mret ().

(** [if let Err(err) = .. { if err != FreeNodeNotFound { return Err(err) } }]. *)
Definition ignore_free_node_not_found (m : SM ()) : SM () := λ s,
  match m s with
  | (s, Err FreeNodeNotFound) => (s, Ok ())
  | r => r
  end.

Definition auto_change_node_number (cluster_name : string) (expected_num : nat)
  : SM (ScaleOp * list string * N) :=
  name ← parse_cluster_name cluster_name;
  cluster ← find_cluster name;
  if is_migrating cluster then fail MigrationRunning else
  _ ← ignore_free_node_not_found (auto_delete_free_nodes cluster_name);
  cluster ← find_cluster name;
  let existing_node_num := length (cs_chunks cluster) * CHUNK_NODE_NUM in
  scale_op ← match Nat.compare existing_node_num expected_num with
             | Eq => mret NoOp
             | Lt => _ ← auto_scale_up_nodes cluster_name expected_num; mret ScaleOut
             | Gt => _ ← migrate_slots_to_scale_down cluster_name expected_num; mret ScaleDown
             end;
  cluster ← find_cluster name;
  mret (scale_op, get_proxy_addresses cluster, cs_epoch cluster).

Definition auto_scale_out_node_number (cluster_name : string) (expected_num : nat) : SM () :=
  name ← parse_cluster_name cluster_name;
  cluster ← find_cluster name;
  if bool_decide (expected_num ≤ get_node_number_with_slots cluster) then mret ()
  else migrate_slots cluster_name.
End update.
