(* ===== verification/Registry.v ===== *)
(** * The registry of proxies

    The metadata store keeps the same facts twice: a proxy resource names the
    cluster it works for, and the chunks of a cluster list the addresses,
    hosts and nodes of their proxies.  [registry] says that the two agree; it
    is what [check_metadata] of [src/src/broker/query.rs] tests at run time.
    The lemmas say how adding, removing and replacing halves of chunks keeps
    it, and the last section that [check_metadata] accepts every store whose
    registry is consistent. *)

From S2P Require Import Prelude RangeList RustStr ClusterMeta Store SlotInv Query Migrate.
From S2P Require Import ChunkAlloc Update.

(** ** Layouts *)

(** Half a chunk: the address, host and nodes of one of its proxies. *)
Definition half : Type := string * string * arr2 string.
Definition half_address (x : half) : string := x.1.1.

Definition frame_halves (f : ChunkRolePosition * arr2 string * arr2 string * arr4 string)
  : list half :=
  let '(_, addresses, hosts, nodes) := f in
  [(at0 addresses, at0 hosts, Arr2 (q0 nodes) (q1 nodes));
   (at1 addresses, at1 hosts, Arr2 (q2 nodes) (q3 nodes))].
Definition layout (chunks : list ChunkStore) : list half :=
  mjoin (frame_halves ∘ chunk_frame <$> chunks).

Lemma layout_cons c chunks : layout (c :: chunks) = frame_halves (chunk_frame c) ++ layout chunks.
Proof. done. Qed.

Lemma layout_app a b : layout (a ++ b) = layout a ++ layout b.
Proof. unfold layout. by rewrite fmap_app, join_app. Qed.

Lemma layout_frames a b : frames a = frames b → layout a = layout b.
Proof. unfold layout, frames. rewrite !list_fmap_compose. by intros ->. Qed.

Lemma layout_addresses chunks : half_address <$> layout chunks = chunk_addresses chunks.
Proof.
  induction chunks as [|c chunks IH]; [done|]. rewrite layout_cons, fmap_app, IH. done.
Qed.

(** The half a proxy makes. *)
Definition resource_half (pr : ProxyResource) : half :=
  (pr_proxy_address pr, pr_host pr, pr_node_addresses pr).

Lemma layout_make_chunks b av rem i curr arr :
  layout (make_chunks b av rem i curr arr) = resource_half <$> mjoin (arr2_list <$> arr).
Proof.
  revert i curr. induction arr as [|p arr IH]; intros i curr; [done|].
  cbn [make_chunks]. destruct b; cbn [create_slots]; rewrite layout_cons, IH;
    destruct p as [[? [] ? ? ?] [? [] ? ? ?]]; done.
Qed.

(** ** Consistency *)

Record registry (L : gmap string (list half)) (P : gmap string ProxyResource) : Prop := {
  rg_key : ∀ a pr, P !! a = Some pr → pr_proxy_address pr = a;
  rg_half : ∀ n l x, L !! n = Some l → x ∈ l →
    ∃ pr, P !! half_address x = Some pr ∧ pr_cluster pr = Some n ∧ resource_half pr = x;
  rg_nodup : ∀ n l, L !! n = Some l → NoDup (half_address <$> l);
  rg_listed : ∀ a pr n, P !! a = Some pr → pr_cluster pr = Some n →
    ∃ l, L !! n = Some l ∧ a ∈ half_address <$> l;
}.

Definition layouts (s : MetaStore) : gmap string (list half) :=
  (layout ∘ cs_chunks) <$> clusters s.

Lemma layouts_lookup s n l :
  layouts s !! n = Some l ↔ ∃ cs, clusters s !! n = Some cs ∧ l = layout (cs_chunks cs).
Proof. unfold layouts. rewrite lookup_fmap_Some. naive_solver. Qed.

Lemma registry_empty : registry ∅ ∅.
Proof. split; intros *; by rewrite lookup_empty. Qed.

(** *** The two tagging loops *)

Lemma set_cluster_half o pr : resource_half (set_cluster o pr) = resource_half pr.
Proof. done. Qed.

Lemma set_cluster_twice o o' pr : set_cluster o (set_cluster o' pr) = set_cluster o pr.
Proof. done. Qed.

Lemma release_lookup addrs : ∀ P a,
  release addrs P !! a =
  if decide (a ∈ addrs) then set_cluster None <$> P !! a else P !! a.
Proof.
  unfold release. induction addrs as [|x addrs IH]; intros P a; cbn [foldl].
  - by rewrite decide_False by set_solver.
  - rewrite IH. destruct (decide (a = x)) as [->|Hne].
    + rewrite lookup_alter_eq, (decide_True (P := x ∈ x :: addrs)) by by left.
      case_decide; [|done]. by destruct (P !! x).
    + rewrite lookup_alter_ne by done. do 2 case_decide; try done; set_solver.
Qed.

Lemma occupy_spec n addrs : ∀ P,
  (∀ a, a ∈ addrs → is_Some (P !! a)) →
  ∃ P', occupy n addrs P = Ok P' ∧ ∀ a,
    P' !! a = if decide (a ∈ addrs) then set_cluster (Some n) <$> P !! a else P !! a.
Proof.
  induction addrs as [|x addrs IH]; intros P Hin; cbn [occupy].
  { exists P. split; [done|]. intros a. by rewrite decide_False by set_solver. }
  destruct (Hin x) as [pr Hpr]; [by left|]. rewrite Hpr. outcome_simpl.
  destruct (IH (<[x := set_cluster (Some n) pr]> P)) as (P' & -> & HP').
  { intros a Ha. rewrite lookup_insert_is_Some'. right. apply Hin. by right. }
  exists P'. split; [done|]. intros a. rewrite HP'.
  destruct (decide (a = x)) as [->|Hne].
  - rewrite lookup_insert_eq, Hpr, (decide_True (P := x ∈ x :: addrs)) by by left.
    by case_decide.
  - rewrite lookup_insert_ne by done. do 2 case_decide; try done; set_solver.
Qed.

(** *** Changes that keep the registry consistent *)

Section registry.
Context (L : gmap string (list half)) (P : gmap string ProxyResource).
Hypothesis Hreg : registry L P.

Lemma registry_add_proxy a pr :
  P !! a = None → pr_proxy_address pr = a → pr_cluster pr = None →
  registry L (<[a := pr]> P).
Proof.
  intros Ha Hk Hc. split.
  - intros a' pr' [[<- <-]|[_ ?]]%lookup_insert_Some; [done|by apply (rg_key _ _ Hreg)].
  - intros n l x Hl Hx. destruct (rg_half _ _ Hreg n l x Hl Hx) as (pr' & Hp & ? & ?).
    exists pr'. split_and!; [|done..]. rewrite lookup_insert_ne; [done|congruence].
  - apply (rg_nodup _ _ Hreg).
  - intros a' pr' n [[<- <-]|[_ Hp]]%lookup_insert_Some Hn; [congruence|].
    by eapply (rg_listed _ _ Hreg).
Qed.

Lemma registry_remove_proxy a pr :
  P !! a = Some pr → pr_cluster pr = None → registry L (delete a P).
Proof.
  intros Ha Hc. split.
  - intros a' pr' [_ ?]%lookup_delete_Some. by apply (rg_key _ _ Hreg).
  - intros n l x Hl Hx. destruct (rg_half _ _ Hreg n l x Hl Hx) as (pr' & Hp & Hn & ?).
    exists pr'. split_and!; [|done..]. rewrite lookup_delete_ne; [done|congruence].
  - apply (rg_nodup _ _ Hreg).
  - intros a' pr' n [_ Hp]%lookup_delete_Some Hn. by eapply (rg_listed _ _ Hreg).
Qed.

Lemma registry_perm n l l' :
  L !! n = Some l → l ≡ₚ l' → registry (<[n := l']> L) P.
Proof.
  intros Hl Hperm. split.
  - apply (rg_key _ _ Hreg).
  - intros n' l0 x [[<- <-]|[_ Hl0]]%lookup_insert_Some Hx; [|by eapply (rg_half _ _ Hreg)].
    eapply (rg_half _ _ Hreg); [done|]. by rewrite Hperm.
  - intros n' l0 [[<- <-]|[_ Hl0]]%lookup_insert_Some; [|by eapply (rg_nodup _ _ Hreg)].
    rewrite <- Hperm. by eapply (rg_nodup _ _ Hreg).
  - intros a pr n' Ha Hn. destruct (rg_listed _ _ Hreg _ _ _ Ha Hn) as (l0 & Hl0 & Hin).
    destruct (decide (n' = n)) as [->|Hne].
    + exists l'. rewrite lookup_insert_eq. split; [done|]. rewrite <- Hperm. congruence.
    + exists l0. by rewrite lookup_insert_ne.
Qed.

(** Free proxies join cluster [n]. *)
Lemma registry_join n old new P' :
  (L !! n = Some old ∨ (L !! n = None ∧ old = [])) →
  (∀ x, x ∈ new → ∃ pr, P !! half_address x = Some pr ∧ pr_cluster pr = None ∧
     resource_half pr = x) →
  NoDup (half_address <$> new) →
  (∀ a, (P' !! a = if decide (a ∈ half_address <$> new) then set_cluster (Some n) <$> P !! a
                   else P !! a)) →
  registry (<[n := old ++ new]> L) P'.
Proof.
  intros Hold Hnew Hnd HP'.
  assert (∀ a pr m, P !! a = Some pr → pr_cluster pr = Some m → a ∉ half_address <$> new) as Hnot.
  { intros a pr m Ha Hm (x & -> & Hx)%list_elem_of_fmap.
    destruct (Hnew x Hx) as (pr' & Hp & Hc & _). congruence. }
  assert (∀ x, x ∈ old → ∃ pr, P !! half_address x = Some pr ∧ pr_cluster pr = Some n ∧
    resource_half pr = x) as Holdx.
  { intros x Hx. destruct Hold as [Hold|[_ ->]]; [by eapply (rg_half _ _ Hreg)|set_solver]. }
  split.
  - intros a pr Ha. rewrite HP' in Ha. case_decide; [|by apply (rg_key _ _ Hreg)].
    destruct (P !! a) as [pr0|] eqn:Hp; [|done]. cbn in Ha. simplify_eq.
    by apply (rg_key _ _ Hreg) in Hp.
  - intros n' l x [[<- <-]|[Hne Hl]]%lookup_insert_Some Hx.
    + apply elem_of_app in Hx as [Hx|Hx].
      * destruct (Holdx x Hx) as (pr & Hp & Hc & Hr). exists pr. split_and!; [|done..].
        rewrite HP', decide_False; [done|by eapply Hnot].
      * destruct (Hnew x Hx) as (pr & Hp & Hc & Hr). exists (set_cluster (Some n) pr).
        split_and!; [|done|by rewrite set_cluster_half].
        rewrite HP', decide_True, Hp; [done|]. apply list_elem_of_fmap. eauto.
    + destruct (rg_half _ _ Hreg _ _ _ Hl Hx) as (pr & Hp & Hc & Hr). exists pr.
      split_and!; [|done..]. rewrite HP', decide_False; [done|by eapply Hnot].
  - intros n' l [[<- <-]|[_ Hl]]%lookup_insert_Some; [|by eapply (rg_nodup _ _ Hreg)].
    rewrite fmap_app. apply NoDup_app. split_and!; [| |done].
    + destruct Hold as [Hold|[_ ->]]; [by eapply (rg_nodup _ _ Hreg)|constructor].
    + intros a (x & -> & Hx)%list_elem_of_fmap. destruct (Holdx x Hx) as (pr & Hp & Hc & _).
      by eapply Hnot.
  - intros a pr n' Ha Hn. rewrite HP' in Ha. case_decide as Hin.
    + destruct (P !! a) as [pr0|]; [|done]. cbn in Ha. simplify_eq. cbn in Hn. simplify_eq.
      exists (old ++ new). rewrite lookup_insert_eq. split; [done|].
      rewrite fmap_app, elem_of_app. by right.
    + destruct (rg_listed _ _ Hreg _ _ _ Ha Hn) as (l & Hl & Hal).
      destruct (decide (n' = n)) as [->|Hne].
      * destruct Hold as [Hold|[Hold _]]; [|congruence]. simplify_eq.
        exists (old ++ new). rewrite lookup_insert_eq. split; [done|].
        rewrite fmap_app, elem_of_app. by left.
      * exists l. by rewrite lookup_insert_ne.
Qed.

(** Proxies leave cluster [n]. *)
Lemma registry_leave n l kept removed P' :
  L !! n = Some l → l ≡ₚ kept ++ removed →
  (∀ a, (P' !! a = if decide (a ∈ half_address <$> removed) then set_cluster None <$> P !! a
                   else P !! a)) →
  registry (<[n := kept]> L) P'.
Proof.
  intros Hl Hperm HP'.
  pose proof (rg_nodup _ _ Hreg _ _ Hl) as Hnd. rewrite Hperm, fmap_app in Hnd.
  apply NoDup_app in Hnd as (Hnd & Hdis & _).
  assert (∀ a pr m, P !! a = Some pr → pr_cluster pr = Some m → m ≠ n →
    a ∉ half_address <$> removed) as Hother.
  { intros a pr m Ha Hm Hne (x & -> & Hx)%list_elem_of_fmap.
    destruct (rg_half _ _ Hreg n l x Hl) as (pr' & Hp & Hc & _); [|congruence].
    rewrite Hperm, elem_of_app. by right. }
  split.
  - intros a pr Ha. rewrite HP' in Ha. case_decide; [|by apply (rg_key _ _ Hreg)].
    destruct (P !! a) as [pr0|] eqn:Hp; [|done]. cbn in Ha. simplify_eq.
    by apply (rg_key _ _ Hreg) in Hp.
  - intros n' l0 x [[<- <-]|[Hne Hl0]]%lookup_insert_Some Hx.
    + destruct (rg_half _ _ Hreg n l x Hl) as (pr & Hp & Hc & Hr).
      { rewrite Hperm, elem_of_app. by left. }
      exists pr. split_and!; [|done..]. rewrite HP', decide_False; [done|].
      apply Hdis. apply list_elem_of_fmap. eauto.
    + destruct (rg_half _ _ Hreg _ _ _ Hl0 Hx) as (pr & Hp & Hc & Hr). exists pr.
      split_and!; [|done..]. rewrite HP', decide_False; [done|]. by eapply Hother.
  - intros n' l0 [[<- <-]|[_ Hl0]]%lookup_insert_Some; [done|by eapply (rg_nodup _ _ Hreg)].
  - intros a pr n' Ha Hn. rewrite HP' in Ha. case_decide as Hin.
    { destruct (P !! a); [|done]. cbn in Ha. by simplify_eq. }
    destruct (rg_listed _ _ Hreg _ _ _ Ha Hn) as (l0 & Hl0 & Hal).
    destruct (decide (n' = n)) as [->|Hne]; [|exists l0; by rewrite lookup_insert_ne].
    exists kept. rewrite lookup_insert_eq. split; [done|]. simplify_eq.
    rewrite Hperm, fmap_app, elem_of_app in Hal. by destruct Hal.
Qed.

Lemma registry_drop_empty n : L !! n = Some [] → registry (delete n L) P.
Proof.
  intros Hn. split.
  - apply (rg_key _ _ Hreg).
  - intros n' l x [_ Hl]%lookup_delete_Some Hx. by eapply (rg_half _ _ Hreg).
  - intros n' l [_ Hl]%lookup_delete_Some. by eapply (rg_nodup _ _ Hreg).
  - intros a pr n' Ha Hc. destruct (rg_listed _ _ Hreg _ _ _ Ha Hc) as (l & Hl & Hin).
    exists l. split; [|done]. rewrite lookup_delete_ne; [done|]. intros <-. simplify_eq. set_solver.
Qed.
End registry.

(** The whole cluster is removed. *)
Lemma registry_remove L P n l :
  registry L P → L !! n = Some l →
  registry (delete n L) (release (half_address <$> l) P).
Proof.
  intros Hreg Hl.
  assert (registry (<[n := []]> L) (release (half_address <$> l) P)) as H0.
  { apply (registry_leave L P Hreg n l [] l); [done|done|]. apply release_lookup. }
  pose proof (registry_drop_empty _ _ H0 n ltac:(apply lookup_insert_eq)) as H1.
  by rewrite delete_insert_eq in H1.
Qed.

(** One proxy takes the place of another. *)
Lemma registry_replace L P n a x b pr :
  registry L P → L !! n = Some (a ++ x :: b) →
  P !! pr_proxy_address pr = Some pr → pr_cluster pr = None →
  registry (<[n := a ++ resource_half pr :: b]> L)
    (alter (set_cluster (Some n)) (pr_proxy_address pr) (alter (set_cluster None) (half_address x) P)).
Proof.
  intros Hreg Hl Hp Hc.
  destruct (rg_half _ _ Hreg n _ x Hl) as (px & Hx & Hcx & Hrx); [set_solver|].
  assert (half_address x ≠ pr_proxy_address pr) as Hne by congruence.
  set (P1 := alter (set_cluster None) (half_address x) P).
  assert (registry (<[n := a ++ b]> L) P1) as H1.
  { eapply (registry_leave L P Hreg n _ _ [x]); [exact Hl|solve_Permutation|].
    intros y. unfold P1. cbn [fmap list_fmap]. case_decide as Hy.
    - apply list_elem_of_singleton in Hy as ->. by rewrite lookup_alter_eq.
    - rewrite lookup_alter_ne; [done|]. set_solver. }
  assert (registry (<[n := (a ++ b) ++ [resource_half pr]]> (<[n := a ++ b]> L))
    (alter (set_cluster (Some n)) (pr_proxy_address pr) P1)) as H2.
  { apply (registry_join _ _ H1).
    - left. apply lookup_insert_eq.
    - intros y ->%list_elem_of_singleton. exists pr. unfold P1.
      by rewrite lookup_alter_ne by done.
    - apply NoDup_singleton.
    - intros y. cbn [fmap list_fmap]. case_decide as Hy.
      + apply list_elem_of_singleton in Hy as ->. by rewrite lookup_alter_eq.
      + rewrite lookup_alter_ne; [done|]. set_solver. }
  eapply registry_perm in H2; [|apply lookup_insert_eq|].
  - rewrite !insert_insert_eq in H2. exact H2.
  - solve_Permutation.
Qed.

(** ** [check_metadata] *)

Section check.
Context `{HashOrder}.
Implicit Types s : MetaStore.

Lemma check_chunk_proxy_ok s name a h ns seen :
  (∃ pr, all_proxies s !! a = Some pr ∧ pr_cluster pr = Some name ∧
     resource_half pr = (a, h, ns)) →
  a ∉ seen →
  check_chunk_proxy s name h ns a (seen, true) = ({[a]} ∪ seen, true).
Proof.
  intros (pr & Hp & Hc & Hr) Hseen. unfold resource_half in Hr. simplify_eq.
  unfold check_chunk_proxy. rewrite Hp. f_equal.
  rewrite (bool_decide_eq_false_2 (_ ∈ seen)) by done. by rewrite !bool_decide_eq_true_2 by done.
Qed.

Lemma check_chunks_ok s name chunks : ∀ seen,
  (∀ x, x ∈ layout chunks → ∃ pr, all_proxies s !! half_address x = Some pr ∧
     pr_cluster pr = Some name ∧ resource_half pr = x) →
  NoDup (half_address <$> layout chunks) →
  (∀ x, x ∈ layout chunks → half_address x ∉ seen) →
  (fold_left (check_chunk s name) chunks (seen, true)).2 = true.
Proof.
  induction chunks as [|c chunks IH]; intros seen Hx Hnd Hseen; [done|]. cbn [fold_left].
  rewrite layout_cons in *. destruct c as [rp st mg pa hs na].
  cbn [chunk_frame frame_halves app ch_proxy_addresses ch_hosts ch_node_addresses] in *.
  rewrite !fmap_cons in Hnd. cbn [half_address fst] in Hnd.
  apply NoDup_cons in Hnd as [Hn0 Hnd]. apply NoDup_cons in Hnd as [Hn1 Hnd].
  unfold check_chunk. cbn [ch_hosts ch_node_addresses ch_proxy_addresses].
  set (x0 := (at0 pa, at0 hs, Arr2 (q0 na) (q1 na))) in *.
  set (x1 := (at1 pa, at1 hs, Arr2 (q2 na) (q3 na))) in *.
  rewrite check_chunk_proxy_ok;
    [|by apply (Hx x0); left|by apply (Hseen x0); left].
  rewrite check_chunk_proxy_ok.
  - apply IH; [|done|].
    + intros x Hin. apply Hx. by right; right.
    + intros x Hin. rewrite !elem_of_union, !elem_of_singleton.
      intros [Heq|[Heq|Hin']].
      * apply Hn1. rewrite <- Heq. apply list_elem_of_fmap. eauto.
      * apply Hn0. rewrite <- Heq. right. apply list_elem_of_fmap. eauto.
      * eapply Hseen; [|done]. by right; right.
  - apply (Hx x1). by right; left.
  - rewrite elem_of_union, elem_of_singleton. intros [Heq|Hin].
    + apply Hn0. rewrite <- Heq. by left.
    + eapply (Hseen x1); [|done]. by right; left.
Qed.

Lemma registry_check s : registry (layouts s) (all_proxies s) → check_metadata s = true.
Proof.
  intros Hreg. unfold check_metadata. apply andb_true_iff. split; apply forallb_forall;
    intros [k v] Hin%list_elem_of_In; apply elem_of_hash_iter in Hin; cbn [fst snd].
  - unfold check_cluster.
    assert (layouts s !! k = Some (layout (cs_chunks v))) as Hl by (apply layouts_lookup; eauto).
    apply check_chunks_ok.
    + intros x Hx. by eapply (rg_half _ _ Hreg).
    + by eapply (rg_nodup _ _ Hreg).
    + set_solver.
  - unfold check_proxy_cluster. destruct (pr_cluster v) as [n|] eqn:Hn; [|done].
    destruct (rg_listed _ _ Hreg _ _ _ Hin Hn) as (l & Hl & Ha).
    apply layouts_lookup in Hl as (cs & -> & ->). apply existsb_exists.
    rewrite layout_addresses in Ha. unfold chunk_addresses in Ha.
    apply list_elem_of_join in Ha as (l & Hal & Hl).
    apply list_elem_of_fmap in Hl as (c & -> & Hc). exists c.
    split; [by apply list_elem_of_In|]. by apply bool_decide_eq_true.
Qed.
End check.
