(* ===== verification/NewChunks.v ===== *)
(** * The slots of new chunks

    [proxy_resource_to_chunk_store] of [src/src/broker/update.rs] gives the
    masters of a new cluster consecutive ranges.  The slots are then owned
    exactly once and the cluster is balanced; chunks added later own no slot
    and keep both. *)

From S2P Require Import Prelude RangeList RustStr ClusterMeta Store SlotInv Query Migrate Plan.
From S2P Require Import Balance ChunkAlloc Update.

(** ** Chunks with slots *)

Section with_slots.
Context (n : nat).
Hypothesis Hn : 0 < n.
Hypothesis Hsize : (N.of_nat n ≤ SLOT_NUM)%N.
Let average := (SLOT_NUM / N.of_nat n)%N.
Let remainder := (SLOT_NUM - average * N.of_nat n)%N.

(** The first slot of master [k]. *)
Definition offset (k : nat) : N := qsum (share n) k.

Lemma offset_le k : k ≤ n → (offset k ≤ SLOT_NUM)%N.
Proof.
  intros Hk. rewrite <- (share_sum n Hn). unfold offset.
  replace n with (k + (n - k)) at 3 by lia. rewrite qsum_split. lia.
Qed.

Definition master_range (k : nat) : SlotRange :=
  mkSlotRange [mkRange (offset k) (offset (S k) - 1)] TagNone.

Lemma offset_S k : offset (S k) = (offset k + share n k)%N.
Proof. apply qsum_S. Qed.

Lemma create_slots_spec k :
  k < n → create_slots average remainder k (offset k) = (master_range k, offset (S k)).
Proof.
  intros Hk. unfold create_slots.
  replace (offset k + average + bool_to_N (N.of_nat k <? remainder))%N with (offset (S k))
    by (rewrite offset_S; unfold share; fold average remainder; lia).
  pose proof (share_pos n k Hk Hsize). pose proof (offset_le (S k) ltac:(lia)).
  rewrite offset_S in *. f_equal. unfold master_range, from_single_range.
  rewrite wsub_small by (unfold SLOT_NUM, u64_modulus in *; lia). rewrite normalize_id by (cbn; lia).
  by rewrite offset_S.
Qed.

Lemma master_range_ok k : k < n → stable_ok (Some (master_range k)) ∧
  slots_count (sr_range_list (master_range k)) = share n k ∧
  ∀ s, opt_cover s (Some (master_range k)) =
    Nat.b2n ((offset k <=? s) && (s <? offset (S k)))%N.
Proof.
  intros Hk. pose proof (share_pos n k Hk Hsize). pose proof (offset_le (S k) ltac:(lia)).
  rewrite offset_S in *. split_and!.
  - split; [done|]. cbn [sr_range_list master_range]. apply range_ok_cons. cbn [r_start r_end].
    rewrite offset_S. split_and!; [lia|lia|constructor|apply range_ok_nil].
  - cbn [sr_range_list master_range]. rewrite slots_count_one. unfold len. cbn [r_start r_end].
    rewrite offset_S. lia.
  - intros s. cbn [opt_cover sr_range_list master_range cover].
    unfold in_range. cbn [r_start r_end]. rewrite offset_S.
    destruct (N.leb_spec (offset k) s), (N.leb_spec s (offset k + share n k - 1)),
      (N.ltb_spec s (offset k + share n k)); cbn; lia.
Qed.

Lemma make_chunks_cons i p arr :
  2 * i + 1 < n →
  make_chunks true average remainder i (offset (2 * i)) (p :: arr) =
  make_chunk p (Arr2 (Some (master_range (2 * i))) (Some (master_range (2 * i + 1)))) ::
  make_chunks true average remainder (S i) (offset (2 * S i)) arr.
Proof.
  intros Hi. cbn [make_chunks]. rewrite create_slots_spec by lia. cbn [fst snd].
  replace (S (2 * i)) with (2 * i + 1) by lia. rewrite create_slots_spec by lia.
  replace (S (2 * i + 1)) with (2 * S i) by lia. done.
Qed.

Lemma make_chunks_entries b av rem i curr arr :
  all_entries (make_chunks b av rem i curr arr) = [].
Proof.
  revert i curr. induction arr as [|p arr IH]; intros i curr; [done|]. cbn [make_chunks].
  destruct b; cbn [create_slots]; by rewrite all_entries_cons, IH.
Qed.

Lemma make_chunks_lookup arr : ∀ i k c,
  2 * (i + length arr) ≤ n →
  make_chunks true average remainder i (offset (2 * i)) arr !! k = Some c →
  ch_stable_slots c =
    Arr2 (Some (master_range (2 * (i + k)))) (Some (master_range (2 * (i + k) + 1))) ∧
  ch_migrating_slots c = Arr2 [] [].
Proof.
  induction arr as [|p arr IH]; intros i k c Hi Hc; [done|]. cbn [length] in Hi.
  rewrite make_chunks_cons in Hc by lia. destruct k as [|k];
    cbn [lookup list_lookup] in Hc.
  - injection Hc as <-. split; [|done]. cbn [ch_stable_slots make_chunk]. repeat f_equal; lia.
  - apply IH in Hc; [|lia]. replace (i + S k) with (S i + k) by lia. done.
Qed.

Lemma make_chunks_cover s arr : ∀ i,
  2 * (i + length arr) ≤ n →
  chunks_cover s (make_chunks true average remainder i (offset (2 * i)) arr) =
  Nat.b2n ((offset (2 * i) <=? s) && (s <? offset (2 * (i + length arr))))%N.
Proof.
  induction arr as [|p arr IH]; intros i Hi; cbn [length] in *.
  { replace (2 * (i + 0)) with (2 * i) by lia.
    change (chunks_cover s _) with 0.
    destruct (N.leb_spec (offset (2 * i)) s), (N.ltb_spec s (offset (2 * i)));
      cbn [andb Nat.b2n]; lia. }
  rewrite make_chunks_cons by lia. unfold chunks_cover in *. cbn [sum_list_with].
  rewrite IH by lia. unfold chunk_cover. cbn [make_chunk ch_stable_slots at0 at1].
  destruct (master_range_ok (2 * i)) as (_ & _ & ->); [lia|].
  destruct (master_range_ok (2 * i + 1)) as (_ & _ & ->); [lia|].
  replace (S (2 * i)) with (2 * i + 1) by lia. replace (S (2 * i + 1)) with (2 * S i) by lia.
  replace (2 * (i + S (length arr))) with (2 * (S i + length arr)) by lia.
  assert (∀ k, (offset k ≤ offset (S k))%N) as Hmono by (intros; rewrite offset_S; lia).
  pose proof (Hmono (2 * i)) as M0. pose proof (Hmono (2 * i + 1)) as M1.
  replace (S (2 * i)) with (2 * i + 1) in M0 by lia.
  replace (S (2 * i + 1)) with (2 * S i) in M1 by lia.
  assert (offset (2 * S i) ≤ offset (2 * (S i + length arr)))%N as M2.
  { replace (2 * (S i + length arr)) with (2 * S i + 2 * length arr) by lia.
    unfold offset. rewrite qsum_split. lia. }
  unfold chunk_entries. cbn [make_chunk ch_migrating_slots at0 at1 app sum_list_with].
  repeat match goal with |- context [(?a <=? ?b)%N] => destruct (N.leb_spec a b)
    | |- context [(?a <? ?b)%N] => destruct (N.ltb_spec a b) end; cbn [andb Nat.b2n]; lia.
Qed.

Lemma make_chunks_length b av rem i curr arr :
  length (make_chunks b av rem i curr arr) = length arr.
Proof.
  revert i curr. induction arr as [|p arr IH]; intros i curr; [done|]. cbn [make_chunks].
  destruct b; cbn [create_slots length]; by rewrite IH.
Qed.
End with_slots.

Lemma no_entries_placed chunks : all_entries chunks = [] → placed chunks ∧ mirrored chunks.
Proof.
  intros He. split; [|unfold mirrored; by rewrite He].
  intros i j l e Hl Hin. exfalso. apply (not_elem_of_nil e). rewrite <- He.
  apply elem_of_all_entries. eauto.
Qed.

Lemma new_cluster_chunks arr chunks :
  proxy_resource_to_chunk_store arr true = Ok chunks →
  (N.of_nat (length arr * 2) ≤ SLOT_NUM)%N →
  slots_wf chunks ∧ balanced (length arr) chunks ∧ length chunks = length arr ∧
  all_entries chunks = [].
Proof.
  unfold proxy_resource_to_chunk_store. case_bool_decide as H0; [done|].
  intros [= <-] Hsize. set (n := length arr * 2) in *.
  assert (0 < n) as Hn by lia.
  set (chunks := make_chunks true _ _ 0 0 arr).
  assert (chunks = make_chunks true (SLOT_NUM / N.of_nat n)
    (SLOT_NUM - SLOT_NUM / N.of_nat n * N.of_nat n) 0 (offset n (2 * 0)) arr) as Heq by done.
  assert (length chunks = length arr) as Hlen by apply make_chunks_length.
  assert (all_entries chunks = []) as He by apply make_chunks_entries.
  destruct (no_entries_placed _ He) as [Hp Hm].
  assert (∀ k c, chunks !! k = Some c →
    ch_stable_slots c = Arr2 (Some (master_range n (2 * k))) (Some (master_range n (2 * k + 1))) ∧
    ch_migrating_slots c = Arr2 [] []) as Hlook.
  { intros k c Hc. rewrite Heq in Hc. by apply (make_chunks_lookup n Hn Hsize) in Hc; [|lia]. }
  split_and!; [|split|done|done].
  - split; [| |done|done].
    + intros s. rewrite Heq, (make_chunks_cover n Hn Hsize) by lia.
      replace (2 * (0 + length arr)) with n by lia. unfold offset at 2. rewrite share_sum by done.
      unfold owned_once. change (offset n (2 * 0)) with 0%N.
      destruct (N.leb_spec 0 s), (N.ltb_spec s SLOT_NUM); cbn; lia.
    + apply Forall_forall. intros c Hc. apply list_elem_of_lookup in Hc as [k Hk].
      pose proof (lookup_lt_Some _ _ _ Hk). destruct (Hlook k c Hk) as [Hs Hmg].
      unfold chunk_ok, chunk_entries. rewrite Hs, Hmg. cbn [at0 at1 app].
      split_and!; [apply master_range_ok; lia..|constructor].
  - lia.
  - lia.
  - intros i j Hi Hj. rewrite decide_True by lia. unfold target.
    destruct (lookup_lt_is_Some_2 chunks i Hi) as [c Hc]. rewrite Hc.
    destruct (Hlook i c Hc) as [-> ->].
    destruct j as [|[|]]; [..|lia]; cbn [arr2_get from_option id part_count at0 at1].
    + destruct (master_range_ok n Hn Hsize (2 * i)) as (_ & -> & _); [lia|].
      rewrite N.add_0_r. fold n. f_equal. lia.
    + destruct (master_range_ok n Hn Hsize (2 * i + 1)) as (_ & -> & _); [lia|].
      rewrite N.add_0_r. fold n. f_equal. lia.
  - intros i c Hi Hc. apply lookup_lt_Some in Hc. lia.
  - rewrite He. constructor.
Qed.

(** ** Chunks without slots *)

Lemma empty_chunks arr chunks :
  proxy_resource_to_chunk_store arr false = Ok chunks →
  length chunks = length arr ∧
  Forall (λ c, ch_stable_slots c = Arr2 None None ∧ ch_migrating_slots c = Arr2 [] []) chunks.
Proof.
  unfold proxy_resource_to_chunk_store. case_bool_decide; [done|]. intros [= <-].
  split; [apply make_chunks_length|].
  assert (∀ av rem i curr, Forall (λ c, ch_stable_slots c = Arr2 None None ∧
    ch_migrating_slots c = Arr2 [] []) (make_chunks false av rem i curr arr)) as Hall; [|apply Hall].
  clear. induction arr as [|p arr IH]; intros; cbn [make_chunks]; [constructor|].
  constructor; [done|]. apply IH.
Qed.

Lemma append_empty_chunks chunks new m :
  Forall (λ c, ch_stable_slots c = Arr2 None None ∧ ch_migrating_slots c = Arr2 [] []) new →
  slots_wf chunks → balanced m chunks →
  slots_wf (chunks ++ new) ∧ balanced m (chunks ++ new) ∧
  all_entries (chunks ++ new) = all_entries chunks.
Proof.
  intros Hnew [Hpart Hok Hp Hm] [].
  assert (all_entries new = []) as Hne.
  { unfold all_entries. induction Hnew as [|c new [_ Hc] _ IH]; [done|]. cbn.
    unfold chunk_entries at 1. rewrite Hc. exact IH. }
  assert (all_entries (chunks ++ new) = all_entries chunks) as Hall.
  { unfold all_entries in *. rewrite fmap_app, join_app, Hne. apply app_nil_r. }
  rewrite Forall_forall in Hnew.
  split_and!; [split|split|done].
  - intros s. rewrite <- (Hpart s). rewrite !chunks_cover_masters, Hall, masters_app.
    rewrite sum_list_with_app.
    assert (sum_list_with (opt_cover s) (masters new) = 0) as ->; [|lia].
    clear -Hnew. induction new as [|c new IH]; [done|]. cbn [masters sum_list_with].
    destruct (Hnew c) as [-> _]; [by left|]. cbn [at0 at1 opt_cover]. rewrite IH; [done|].
    intros. apply Hnew. by right.
  - apply Forall_app. split; [done|]. apply Forall_forall. intros c Hc.
    destruct (Hnew c Hc) as [Hs Hmg]. unfold chunk_ok, chunk_entries. rewrite Hs, Hmg.
    split_and!; [done|done|constructor].
  - intros i j l e Hl He. eapply Hp; [|done].
    unfold part_entries in *. destruct (decide (i < length chunks)) as [Hlt|Hge].
    + by rewrite lookup_app_l in Hl.
    + exfalso. rewrite lookup_app_r in Hl by lia.
      destruct (new !! (i - length chunks)) as [c|] eqn:Hc; [|done]. cbn in Hl.
      destruct (Hnew c) as [_ Hmg]; [by eapply list_elem_of_lookup_2|]. rewrite Hmg in Hl.
      destruct j as [|[|]]; cbn in Hl; simplify_eq; set_solver.
  - unfold mirrored in *. by rewrite Hall.
  - done.
  - rewrite length_app. lia.
  - intros i j Hi Hj. rewrite length_app in Hi. unfold target in *.
    destruct (decide (i < length chunks)) as [Hlt|Hge].
    + rewrite lookup_app_l by done. by apply bl_target.
    + rewrite decide_False by lia. rewrite lookup_app_r by lia.
      destruct (new !! (i - length chunks)) as [c|] eqn:Hc; [|done].
      destruct (Hnew c) as [-> ->]; [by eapply list_elem_of_lookup_2|].
      by destruct j as [|[|]]; [..|lia].
  - intros i c Hi Hc. destruct (decide (i < length chunks)) as [Hlt|Hge].
    + rewrite lookup_app_l in Hc by done. by eapply bl_free.
    + rewrite lookup_app_r in Hc by lia. by apply Hnew; eapply list_elem_of_lookup_2.
  - by rewrite Hall.
Qed.

(** ** Removing the free chunks *)

Lemma no_entries_chunk chunks c :
  all_entries chunks = [] → c ∈ chunks → ch_migrating_slots c = Arr2 [] [].
Proof.
  intros He Hc.
  assert (chunk_entries c = []) as Hn.
  { apply elem_of_nil_inv. intros e Hin. assert (e ∈ all_entries chunks) as Hall.
    { unfold all_entries. apply list_elem_of_join. exists (chunk_entries c). split; [done|].
      by apply list_elem_of_fmap_2. }
    rewrite He in Hall. by apply not_elem_of_nil in Hall. }
  unfold chunk_entries in Hn. apply app_eq_nil in Hn as [E0 E1].
  destruct (ch_migrating_slots c) as [l0 l1]. cbn in *. by subst.
Qed.

Section cut.
Context (chunks : list ChunkStore) (m : nat).
Hypothesis Hwf : slots_wf chunks.
Hypothesis Hbal : balanced m chunks.
Hypothesis Hidle : all_entries chunks = [].

Lemma no_entries_take : all_entries (take m chunks) = [].
Proof.
  pose proof Hidle as H. rewrite <- (take_drop m chunks) in H. unfold all_entries in *.
  rewrite fmap_app, join_app in H. by apply app_eq_nil in H as [? _].
Qed.

Lemma cut_empty_chunks : slots_wf (take m chunks) ∧ balanced m (take m chunks).
Proof.
  pose proof no_entries_take as Htake. pose proof Hwf as [Hpart Hok Hp Hm].
  pose proof Hbal as [Hpos Hle Ht Hf _].
  assert (length (take m chunks) = m) as Hlen by (rewrite length_take; lia).
  split; split.
  - intros s. rewrite <- (Hpart s), !chunks_cover_masters, Hidle, Htake.
    rewrite <- (take_drop m chunks) at 2. rewrite masters_app, sum_list_with_app.
    assert (sum_list_with (opt_cover s) (masters (drop m chunks)) = 0) as ->; [|lia].
    assert (∀ c, c ∈ drop m chunks → ch_stable_slots c = Arr2 None None) as Hd.
    { intros c [i Hi]%list_elem_of_lookup. rewrite lookup_drop in Hi.
      by apply (Hf (m + i)); [lia|]. }
    clear -Hd. induction (drop m chunks) as [|c l IH]; [done|]. cbn [masters sum_list_with].
    rewrite (Hd c) by by left. cbn [at0 at1 opt_cover]. rewrite IH; [done|].
    intros. apply Hd. by right.
  - by apply Forall_take.
  - by apply no_entries_placed.
  - unfold mirrored. by rewrite Htake.
  - done.
  - lia.
  - intros i j Hi Hj. rewrite Hlen in Hi. rewrite <- Ht by lia. unfold target.
    by rewrite lookup_take_lt.
  - intros i c Hi Hc. apply lookup_lt_Some in Hc. lia.
  - rewrite Htake. constructor.
Qed.

(** Without migrations, the chunks in use are exactly the first [m]. *)
Lemma in_use_lookup i c :
  (N.of_nat (m * 2) ≤ SLOT_NUM)%N → chunks !! i = Some c → chunk_in_use c = bool_decide (i < m).
Proof.
  intros Hsize Hc. pose proof Hbal as [Hpos Hle _ Hf _]. unfold chunk_in_use.
  assert (c ∈ chunks) as Hin by by eapply list_elem_of_lookup_2.
  unfold chunk_is_migrating. rewrite (no_entries_chunk _ _ Hidle Hin).
  case_bool_decide as Hi.
  - destruct (balanced_masters _ _ Hwf Hbal Hidle Hsize) as [Hsome _].
    destruct (Hsome (i * 2 + 0)) as (sr & Hsr & _); [lia|].
    rewrite masters_lookup, Hc in Hsr by lia. cbn in Hsr. simplify_eq.
    destruct (ch_stable_slots c) as [o0 o1]. cbn in *. by subst.
  - by rewrite (Hf i c) by (done || lia).
Qed.

Lemma in_use_split :
  (N.of_nat (m * 2) ≤ SLOT_NUM)%N →
  filter (λ c, chunk_in_use c = true) chunks = take m chunks ∧
  filter (λ c, chunk_in_use c = false) chunks = drop m chunks.
Proof.
  intros Hsize.
  assert (∀ c, c ∈ take m chunks → chunk_in_use c = true) as Ht.
  { intros c [i Hi]%list_elem_of_lookup. apply lookup_take_Some in Hi as [Hi Hlt].
    rewrite (in_use_lookup i) by done. by apply bool_decide_eq_true. }
  assert (∀ c, c ∈ drop m chunks → chunk_in_use c = false) as Hd.
  { intros c [i Hi]%list_elem_of_lookup. rewrite lookup_drop in Hi.
    rewrite (in_use_lookup (m + i)) by done. apply bool_decide_eq_false. lia. }
  pose proof (filter_all _ _ Ht) as Et. pose proof (filter_all _ _ Hd) as Ed.
  rewrite <- (take_drop m chunks) at 1 3. rewrite !filter_app.
  split; [rewrite Et|rewrite Ed].
  - rewrite (elem_of_nil_inv (filter _ (drop m chunks))); [apply app_nil_r|].
    intros c [Hc Hin]%list_elem_of_filter. rewrite Hd in Hc; done.
  - rewrite (elem_of_nil_inv (filter _ (take m chunks))); [done|].
    intros c [Hc Hin]%list_elem_of_filter. rewrite Ht in Hc; done.
Qed.
End cut.
