(* ===== verification/Failover.v ===== *)
(** * Failover

    The chunk level of [takeover_master], [replace_failed_proxy] and
    [balance_masters] of [src/src/broker/update.rs]: changing roles, epochs of
    migration tasks and addresses leaves the slot table alone. *)

From S2P Require Import Prelude RangeList RustStr ClusterMeta Store SlotInv Query Migrate Plan.
From S2P Require Import Balance ChunkAlloc Update Registry.

(** ** Changes of the metadata of migration entries *)

(** [g] may change the epoch of an entry, and treats both ends of a
    migration alike. *)
Record retag (g : MigrationSlotRangeStore → MigrationSlotRangeStore) : Prop := {
  rt_ranges : ∀ e, mr_range_list (g e) = mr_range_list e;
  rt_migrating : ∀ e, mr_is_migrating (g e) = mr_is_migrating e;
  rt_src : ∀ e, entry_src (g e) = entry_src e;
  rt_dst : ∀ e, entry_dst (g e) = entry_dst e;
  rt_key : ∀ e e', entry_key e = entry_key e' → entry_key (g e) = entry_key (g e');
}.

Lemma retag_id : retag id.
Proof. done. Qed.

Lemma retag_reset epoch p : retag (reset_entry epoch p).
Proof.
  assert (∀ e e', entry_key e = entry_key e' → entry_src e = entry_src e' ∧
    entry_dst e = entry_dst e') as Hends.
  { intros [] []. unfold entry_key, entry_src, entry_dst. cbn. intros [= -> ->]. done. }
  split; intros *; unfold reset_entry; repeat case_bool_decide; try done;
    intros Hk; destruct (Hends _ _ Hk) as [E1 E2]; rewrite ?E1, ?E2 in *; try tauto.
  destruct e, e'. unfold entry_key in *. cbn in *. by simplify_eq.
Qed.

(** The slots of [c'] are those of [c], its entries changed by [g]. *)
Definition same_slots (g : MigrationSlotRangeStore → MigrationSlotRangeStore)
    (c c' : ChunkStore) : Prop :=
  ch_stable_slots c' = ch_stable_slots c ∧
  ch_migrating_slots c' = arr2_map (fmap g) (ch_migrating_slots c).

Section retag.
Context (g : MigrationSlotRangeStore → MigrationSlotRangeStore).
Hypothesis Hg : retag g.

Lemma retag_place e : entry_place (g e) = entry_place e.
Proof.
  pose proof (rt_src _ Hg e) as E1. pose proof (rt_dst _ Hg e) as E2.
  unfold entry_src, entry_dst in *. unfold entry_place. rewrite (rt_migrating _ Hg).
  simplify_eq. by destruct (mr_is_migrating e); f_equal.
Qed.

Lemma retag_keys b es :
  keys_of b (g <$> es) =
  (λ k, entry_key (g (mkMigrationSlotRangeStore k.1 true k.2))) <$> keys_of b es.
Proof.
  unfold keys_of. induction es as [|e es IH]; [done|]. rewrite fmap_cons, !filter_cons.
  rewrite (rt_migrating _ Hg). case_decide; [|done]. rewrite !fmap_cons, IH. f_equal.
  by apply (rt_key _ Hg).
Qed.

Lemma same_slots_entries chunks chunks' :
  Forall2 (same_slots g) chunks chunks' → all_entries chunks' = g <$> all_entries chunks.
Proof.
  induction 1 as [|c c' l l' [_ Hc] _ IH]; [done|].
  rewrite !all_entries_cons, fmap_app, IH. f_equal. unfold chunk_entries. rewrite Hc.
  cbn. by rewrite fmap_app.
Qed.

Lemma retag_cover s e : out_cover s (g e) = out_cover s e.
Proof. unfold out_cover. by rewrite (rt_migrating _ Hg), (rt_ranges _ Hg). Qed.

Lemma same_slots_cover s chunks chunks' :
  Forall2 (same_slots g) chunks chunks' → chunks_cover s chunks' = chunks_cover s chunks.
Proof.
  induction 1 as [|c c' l l' [Hs Hc] _ IH]; [done|].
  unfold chunks_cover in *. cbn [sum_list_with]. rewrite IH. f_equal.
  unfold chunk_cover, chunk_entries. rewrite Hs, Hc. f_equal. cbn [at0 at1 arr2_map].
  rewrite <- fmap_app. generalize (at0 (ch_migrating_slots c) ++ at1 (ch_migrating_slots c)).
  intros es. induction es as [|e es IHes]; [done|]. cbn [fmap list_fmap sum_list_with].
  rewrite retag_cover. f_equal. exact IHes.
Qed.

Lemma same_slots_part chunks chunks' i j :
  Forall2 (same_slots g) chunks chunks' →
  part_entries chunks' i j = option_map (fmap g) (part_entries chunks i j).
Proof.
  intros Hall. unfold part_entries.
  destruct (chunks !! i) as [c|] eqn:Hc.
  - destruct (Forall2_lookup_l _ _ _ _ _ Hall Hc) as (c' & -> & _ & Hm). cbn. rewrite Hm.
    by destruct j as [|[|]].
  - apply lookup_ge_None in Hc. erewrite (lookup_ge_None_2 chunks'); [done|].
    by rewrite <- (Forall2_length _ _ _ Hall).
Qed.

Lemma same_slots_wf chunks chunks' :
  Forall2 (same_slots g) chunks chunks' → slots_wf chunks → slots_wf chunks'.
Proof.
  intros Hall [Hpart Hok Hp Hm]. split.
  - intros s. by rewrite (same_slots_cover s _ _ Hall).
  - clear -Hall Hok Hg. induction Hall as [|c c' l l' [Hs Hc] _ IH]; [constructor|].
    apply Forall_cons in Hok as [(S0 & S1 & He) Hok]. constructor; [|by apply IH].
    split_and!; [by rewrite Hs..|]. unfold chunk_entries in *. rewrite Hc.
    cbn [at0 at1 arr2_map]. rewrite <- fmap_app. apply Forall_fmap.
    eapply Forall_impl; [exact He|]. intros e [H1 H2]. unfold entry_ok. cbn.
    by rewrite (rt_ranges _ Hg).
  - intros i j l e Hl Hin. rewrite (same_slots_part _ _ i j Hall) in Hl.
    destruct (part_entries chunks i j) as [l0|] eqn:Hl0; [|done]. cbn in Hl. simplify_eq.
    apply list_elem_of_fmap in Hin as (e0 & -> & Hin). rewrite retag_place. by eapply Hp.
  - unfold mirrored in *. rewrite (same_slots_entries _ _ Hall), !retag_keys. by rewrite Hm.
Qed.

Lemma retag_incoming es : incoming (g <$> es) = incoming es.
Proof.
  unfold incoming. induction es as [|e es IH]; [done|]. cbn [fmap list_fmap foldr].
  rewrite (rt_migrating _ Hg), (rt_ranges _ Hg). f_equal. exact IH.
Qed.

Lemma same_slots_balanced chunks chunks' m :
  Forall2 (same_slots g) chunks chunks' → balanced m chunks → balanced m chunks'.
Proof.
  intros Hall [Hpos Hle Ht Hf Hcr]. pose proof (Forall2_length _ _ _ Hall) as Hlen. split.
  - done.
  - lia.
  - intros i j Hi Hj. rewrite <- Ht by lia. unfold target.
    destruct (lookup_lt_is_Some_2 chunks i) as [c Hc]; [lia|]. rewrite Hc.
    destruct (Forall2_lookup_l _ _ _ _ _ Hall Hc) as (c' & -> & -> & ->). f_equal.
    destruct j as [|[|]]; cbn [arr2_get arr2_map at0 at1 default from_option id]; [..|lia];
      apply retag_incoming.
  - intros i c' Hi Hc'. destruct (Forall2_lookup_r _ _ _ _ _ Hall Hc') as (c & Hc & -> & _).
    by eapply Hf.
  - rewrite (same_slots_entries _ _ Hall). apply Forall_fmap. eapply Forall_impl; [exact Hcr|].
    intros e. unfold crosses. cbn. pose proof (rt_src _ Hg e) as E1. pose proof (rt_dst _ Hg e) as E2.
    unfold entry_src, entry_dst in *. simplify_eq. congruence.
Qed.
End retag.

(** ** Taking over a failed proxy *)

Lemma reset_after_epoch epoch p e :
  entry_src e ∈ p → reset_entry epoch p (set_entry_epoch epoch e) = reset_entry epoch p e.
Proof.
  intros Hp. unfold reset_entry. rewrite !bool_decide_eq_true_2 by (by left). done.
Qed.

Lemma peer_positions_src e es : e ∈ es → entry_src e ∈ peer_positions es.
Proof.
  intros He. unfold peer_positions. apply elem_of_list_to_set, list_elem_of_join.
  exists [entry_src e; entry_dst e]. split; [by left|]. apply list_elem_of_fmap. eauto.
Qed.

Definition halves (c : ChunkStore) : list half := frame_halves (chunk_frame c).

(** Only the role of the chunk and its entries change. *)
Definition recast (g : MigrationSlotRangeStore → MigrationSlotRangeStore) (c c' : ChunkStore)
  : Prop :=
  same_slots g c c' ∧ halves c' = halves c.

Lemma recast_part epoch part role c c' p :
  part < 2 → takeover_part epoch c part role = (c', p) →
  recast (reset_entry epoch p) c (reset_chunk epoch p c').
Proof.
  intros Hpart. unfold takeover_part. intros [= <- <-].
  assert (∀ es, reset_entry epoch (peer_positions es) <$> (set_entry_epoch epoch <$> es) =
    reset_entry epoch (peer_positions es) <$> es) as Hes.
  { intros es. rewrite <- list_fmap_compose. apply list_fmap_ext. intros i e He.
    apply reset_after_epoch, peer_positions_src. by eapply list_elem_of_lookup_2. }
  split; [split; [done|]|done].
  destruct c as [? ? [l0 l1] ? ? ?]. destruct part as [|[|]]; [..|lia];
    cbn [reset_chunk set_migrating_slots set_role_position ch_migrating_slots arr2_map arr2_set
      arr2_get at0 at1 default from_option id]; unfold arr2_map; f_equal; apply Hes.
Qed.

Lemma recast_rest epoch p chunks :
  Forall2 (recast (reset_entry epoch p)) chunks (reset_chunk epoch p <$> chunks).
Proof. induction chunks; constructor; [done|]. exact IHchunks. Qed.

Lemma takeover_loop_spec epoch failed chunks : ∀ chunks' p,
  takeover_loop epoch failed chunks = TakenOver chunks' p →
  Forall2 (recast (reset_entry epoch p)) chunks (reset_chunk epoch p <$> chunks').
Proof.
  induction chunks as [|c chunks IH]; intros chunks' p; cbn [takeover_loop].
  { intros [= <- <-]. constructor. }
  case_bool_decide.
  { case_bool_decide; [done|]. destruct (takeover_part _ _ _ _) as [c' p'] eqn:Hp.
    intros [= <- <-]. constructor; [|apply recast_rest]. eapply recast_part in Hp; [done|lia]. }
  case_bool_decide.
  { case_bool_decide; [done|]. destruct (takeover_part _ _ _ _) as [c' p'] eqn:Hp.
    intros [= <- <-]. constructor; [|apply recast_rest].
    eapply recast_part in Hp; [done|lia]. }
  destruct (takeover_loop epoch failed chunks) as [|rest p'] eqn:Hl; [done|].
  intros [= <- <-]. constructor; [done|]. by apply IH.
Qed.

(** No node of proxy [failed] is a master. *)
Definition no_master_at (failed : string) (chunks : list ChunkStore) : Prop :=
  Forall (λ c, (at0 (ch_proxy_addresses c) = failed → ch_role_position c = SecondChunkMaster) ∧
               (at1 (ch_proxy_addresses c) = failed → ch_role_position c = FirstChunkMaster))
    chunks.

Lemma no_master_absent failed chunks :
  failed ∉ chunk_addresses chunks → no_master_at failed chunks.
Proof.
  intros Hn. apply Forall_forall. intros c Hc.
  assert (∀ a, a ∈ arr2_list (ch_proxy_addresses c) → a ≠ failed) as Ha.
  { intros a Ha ->. apply Hn. unfold chunk_addresses. apply list_elem_of_join. eexists.
    split; [exact Ha|]. by apply (list_elem_of_fmap_2 (arr2_list ∘ ch_proxy_addresses)). }
  split; intros E; exfalso; eapply Ha; try exact E; cbn; set_solver.
Qed.

Lemma no_master_reset failed epoch p chunks :
  no_master_at failed chunks → no_master_at failed (reset_chunk epoch p <$> chunks).
Proof. intros H. apply Forall_fmap. eapply Forall_impl; [exact H|]. done. Qed.

Lemma takeover_no_master epoch failed chunks :
  NoDup (chunk_addresses chunks) →
  match takeover_loop epoch failed chunks with
  | AlreadyTaken => no_master_at failed chunks
  | TakenOver chunks' p => no_master_at failed (reset_chunk epoch p <$> chunks')
  end.
Proof.
  induction chunks as [|c chunks IH]; intros Hnd; cbn [takeover_loop]; [constructor|].
  change (NoDup (at0 (ch_proxy_addresses c) :: at1 (ch_proxy_addresses c) ::
    chunk_addresses chunks)) in Hnd.
  apply NoDup_cons in Hnd as [N0 Hnd]. apply NoDup_cons in Hnd as [N1 Hnd].
  rewrite not_elem_of_cons in N0. destruct N0 as [N01 N0].
  case_bool_decide as E0; [|case_bool_decide as E1].
  - assert (no_master_at failed chunks) as Hrest by (apply no_master_absent; by rewrite <- E0).
    case_bool_decide as Hr; [constructor; [|done]; split; [done|intros; congruence]|].
    cbn. constructor; [split; [done|]; cbn; intros; congruence|]. by apply no_master_reset.
  - assert (no_master_at failed chunks) as Hrest by (apply no_master_absent; by rewrite <- E1).
    case_bool_decide as Hr; [constructor; [|done]; split; [intros; congruence|done]|].
    cbn. constructor; [split; [|done]; cbn; intros; congruence|]. by apply no_master_reset.
  - specialize (IH Hnd). destruct (takeover_loop epoch failed chunks); constructor; done.
Qed.

(** ** Replacing a proxy *)

Lemma fmap_id_entries c : ch_migrating_slots c = arr2_map (fmap id) (ch_migrating_slots c).
Proof. destruct c as [? ? [l0 l1] ? ? ?]. unfold arr2_map. cbn. by rewrite !list_fmap_id. Qed.

Lemma replace_same_slots failed pr chunks :
  Forall2 (same_slots id) chunks (replace_in_chunks failed pr chunks).
Proof.
  assert (∀ l, Forall2 (same_slots id) l l) as Hrefl.
  { intros l. apply Forall_Forall2_diag, Forall_forall. intros c _. split; [done|apply fmap_id_entries]. }
  induction chunks as [|c chunks IH]; [constructor|]. cbn [replace_in_chunks].
  repeat case_bool_decide; constructor; try done; split; try done; apply (fmap_id_entries c).
Qed.

Lemma replace_layout failed pr chunks :
  failed ∈ chunk_addresses chunks → ∃ a x b,
    layout chunks = a ++ x :: b ∧ half_address x = failed ∧
    layout (replace_in_chunks failed pr chunks) = a ++ resource_half pr :: b.
Proof.
  induction chunks as [|c chunks IH]; [by intros ?%not_elem_of_nil|].
  change (chunk_addresses (c :: chunks)) with
    (at0 (ch_proxy_addresses c) :: at1 (ch_proxy_addresses c) :: chunk_addresses chunks).
  rewrite !elem_of_cons. intros Hin. cbn [replace_in_chunks].
  destruct c as [rp st mg [a0 a1] [h0 h1] [n0 n1 n2 n3]], pr as [pa [p0 p1] ph pi pc].
  cbn [ch_proxy_addresses at0 at1] in *.
  case_bool_decide as E0; [|case_bool_decide as E1]; rewrite !layout_cons.
  - exists [], (a0, h0, Arr2 n0 n1), ((a1, h1, Arr2 n2 n3) :: layout chunks). by subst.
  - exists [(a0, h0, Arr2 n0 n1)], (a1, h1, Arr2 n2 n3), (layout chunks). by subst.
  - destruct IH as (a & x & b & -> & Hx & ->); [naive_solver|].
    by exists ((a0, h0, Arr2 n0 n1) :: (a1, h1, Arr2 n2 n3) :: a), x, b.
Qed.

(** ** What the nodes show *)

Lemma no_master_frames failed a b :
  frames a = frames b → no_master_at failed b → no_master_at failed a.
Proof.
  revert b. induction a as [|c a IH]; intros [|d b] Hf Hb; try done.
  unfold frames in Hf. cbn [fmap list_fmap] in Hf. injection Hf as Hr Hp _ _ Hf.
  apply Forall_cons in Hb as [Hd Hb]. constructor; [by rewrite Hr, Hp|by apply (IH b)].
Qed.

Lemma no_master_nodes failed cs c :
  cluster_store_to_cluster cs = Ok c → no_master_at failed (cs_chunks cs) →
  Forall (λ n, node_proxy_address n = failed → node_role n = Replica) (cluster_nodes c).
Proof.
  unfold cluster_store_to_cluster. intros Hc Hno.
  destruct (omapM _ (cs_chunks cs)) as [nss|?|] eqn:Hn; outcome_simpl; [|done|done].
  injection Hc as <-. cbn [cluster_nodes]. apply omapM_Ok_inv in Hn. clear -Hno Hn.
  revert Hn. generalize (cs_chunks cs) at 1. intros all. unfold no_master_at in Hno.
  revert Hno. generalize (cs_chunks cs). intros chunks Hno Hn.
  induction Hn as [|c ns l nss Hc Hn IH]; [constructor|].
  apply Forall_cons in Hno as [[Hm0 Hm1] Hno]. apply Forall_app. split; [|by apply IH].
  apply chunk_nodes_inv in Hc as (n0 & n1 & n2 & n3 & -> & H0 & H1 & H2 & H3).
  apply chunk_node_inv in H0 as (? & ? & _ & E0 & _ & F0 & _).
  apply chunk_node_inv in H1 as (? & ? & _ & E1 & _ & F1 & _).
  apply chunk_node_inv in H2 as (? & ? & _ & E2 & _ & F2 & _).
  apply chunk_node_inv in H3 as (? & ? & _ & E3 & _ & F3 & _).
  cbn in F0, F1, F2, F3. injection F0 as F0. injection F1 as F1. injection F2 as F2.
  injection F3 as F3.
  rewrite !Forall_cons. split_and!; [..|constructor]; intros Hf;
    [rewrite E0, Hm0|rewrite E1, Hm0|rewrite E2, Hm1|rewrite E3, Hm1]; congruence || done.
Qed.
