(* ===== verification/Broker.v ===== *)
(** * The broker's invariant

    [store_wf] collects what the metadata store always satisfies: the
    registry of proxies is consistent, every cluster has a well-formed and
    balanced slot table, and no cluster has an epoch above the global epoch.
    Each operation of the store keeps it, never panics, and never changes a
    cluster without raising its epoch above the global epoch the operation
    started from ([evolves]). *)

From S2P Require Import Prelude RangeList RustStr ClusterMeta Store SlotInv Query Migrate Plan.
From S2P Require Import Balance Commit ChunkAlloc Update Registry NewChunks Failover.

(** ** Reasoning about store operations *)

(** [wp m Q s]: run from [s], [m] does not panic and ends in a result and a
    store that satisfy [Q]. *)
Definition wp {A} (m : SM A) (Q : res A → MetaStore → Prop) (s : MetaStore) : Prop :=
  match m s with
  | (_, Panic) => False
  | (s', r) => Q r s'
  end.

Section wp.
Context {A B : Type}.
Implicit Types (Q : res B → MetaStore → Prop).

Lemma wp_bind (m : SM A) (k : A → SM B) Q s :
  wp m (λ r s', match r with
                | Ok a => wp (k a) Q s'
                | Err e => Q (Err e) s'
                | Panic => False
                end) s →
  wp (m ≫= k) Q s.
Proof.
  unfold wp, mbind, SM_bind. destruct (m s) as [s' [a|e|]]; [|done|done].
  by destruct (k a s').
Qed.

Lemma wp_mono (m : SM B) Q Q' s :
  wp m Q s → (∀ r s', r ≠ Panic → Q r s' → Q' r s') → wp m Q' s.
Proof. unfold wp. intros H HQ. destruct (m s) as [s' [a|e|]]; auto. Qed.

Lemma wp_ret (b : B) Q s : Q (Ok b) s → wp (mret b) Q s.
Proof. done. Qed.

Lemma wp_fail (e : MetaStoreError) Q s : Q (Err e) s → wp (fail e) Q s.
Proof. done. Qed.

Lemma wp_lift (r : res B) Q s : r ≠ Panic → Q r s → wp (lift r) Q s.
Proof. unfold wp, lift. by destruct r. Qed.
End wp.

Lemma wp_get_store Q s : Q (Ok s) s → wp get_store Q s.
Proof. done. Qed.

Lemma wp_put_store s' Q s : Q (Ok ()) s' → wp (put_store s') Q s.
Proof. done. Qed.

Lemma wp_parse name Q s :
  (∀ n, cluster_name_try_from name = Some n → Q (Ok n) s) →
  Q (Err InvalidClusterName) s → wp (parse_cluster_name name) Q s.
Proof. unfold wp, parse_cluster_name, lift. destruct (cluster_name_try_from name); cbn; auto. Qed.

Lemma wp_find name Q s :
  (∀ cs, clusters s !! name = Some cs → Q (Ok cs) s) →
  Q (Err ClusterNotFound) s → wp (find_cluster name) Q s.
Proof.
  unfold wp, find_cluster, get_store, lift, mbind, SM_bind.
  destruct (clusters s !! name); cbn; auto.
Qed.

Lemma wp_find_Some name cs Q s :
  clusters s !! name = Some cs → Q (Ok cs) s → wp (find_cluster name) Q s.
Proof.
  unfold wp, find_cluster, get_store, lift, mbind, SM_bind. by intros ->.
Qed.

Lemma wp_put_cluster name cs Q s :
  Q (Ok ()) (set_clusters s (<[name := cs]> (clusters s))) → wp (put_cluster name cs) Q s.
Proof. done. Qed.

(** No [u64] overflow: the epoch has room for [k] more bumps. *)
Definition room (k : N) (s : MetaStore) : Prop := (global_epoch s + k < u64_modulus)%N.

Lemma wp_bump Q s :
  room 1 s →
  Q (Ok (global_epoch s + 1)%N) (set_global_epoch s (global_epoch s + 1)) →
  wp bump_global_epoch Q s.
Proof. unfold wp, bump_global_epoch, room. intros Hr HQ. by rewrite wadd_small. Qed.

Create HintDb wp.

(** One step of symbolic execution. *)
Ltac wp_step :=
  lazymatch goal with
  | |- wp (mbind _ _) _ _ => apply wp_bind
  | |- wp (mret _) _ _ => apply wp_ret
  | |- wp (fail _) _ _ => apply wp_fail
  | |- wp get_store _ _ => apply wp_get_store
  | |- wp (put_store _) _ _ => apply wp_put_store
  | |- wp (put_cluster _ _) _ _ => apply wp_put_cluster
  | |- wp (parse_cluster_name _) _ _ => apply wp_parse; [intros ? ?|]
  | |- wp (find_cluster _) _ _ => apply wp_find; [intros ? ?|]
  end.

(** ** The invariant *)

Definition cluster_ok (cs : ClusterStore) : Prop :=
  slots_wf (cs_chunks cs) ∧ (∃ m, balanced m (cs_chunks cs)) ∧
  length (cs_chunks cs) ≤ MAX_SAFE_CHUNKS.

Record store_wf (s : MetaStore) : Prop := {
  sf_registry : registry (layouts s) (all_proxies s);
  sf_name : ∀ n cs, clusters s !! n = Some cs → cs_name cs = n;
  sf_cluster : ∀ n cs, clusters s !! n = Some cs → cluster_ok cs;
  sf_epoch : ∀ n cs, clusters s !! n = Some cs → (cs_epoch cs ≤ global_epoch s)%N;
}.

(** A cluster that differs from what it was got an epoch above the global
    epoch of that time. *)
Definition evolves (s s' : MetaStore) : Prop :=
  (global_epoch s ≤ global_epoch s')%N ∧
  ∀ n cs', clusters s' !! n = Some cs' →
    clusters s !! n = Some cs' ∨ (global_epoch s < cs_epoch cs')%N.

#[global] Instance evolves_preorder : PreOrder evolves.
Proof.
  split.
  - intros s. split; [done|]. auto.
  - intros s1 s2 s3 [H1 E1] [H2 E2]. split; [lia|]. intros n cs H.
    destruct (E2 _ _ H) as [H'|H']; [by apply E1|right; lia].
Qed.

(** What an operation that makes at most [k] bumps guarantees. *)
Definition step_ok (k : N) (s s' : MetaStore) : Prop :=
  store_wf s' ∧ evolves s s' ∧ (global_epoch s' ≤ global_epoch s + k)%N.

Lemma step_ok_refl k s : store_wf s → step_ok k s s.
Proof. intros. split_and!; [done|done|lia]. Qed.

Lemma step_ok_trans j k s1 s2 s3 :
  step_ok j s1 s2 → step_ok k s2 s3 → step_ok (j + k) s1 s3.
Proof. intros (_ & E1 & H1) (Hwf & E2 & H2). split_and!; [done|by etransitivity|lia]. Qed.

Lemma step_ok_weaken j k s s' : (j ≤ k)%N → step_ok j s s' → step_ok k s s'.
Proof. intros Hk (Hwf & E & H). split_and!; [done|done|lia]. Qed.

#[export] Hint Resolve step_ok_refl : wp.

Lemma step_ok_bump s : store_wf s → step_ok 1 s (set_global_epoch s (global_epoch s + 1)).
Proof.
  intros [Hr Hn Hc He]. split_and!; [|split; [cbn; lia|]|cbn; lia].
  - split; [done|done|done|]. intros n cs H. specialize (He _ _ H). cbn. lia.
  - intros n cs H. by left.
Qed.

#[export] Hint Resolve step_ok_bump : wp.

Lemma layouts_insert s n cs :
  layouts (set_clusters s (<[n := cs]> (clusters s))) =
  <[n := layout (cs_chunks cs)]> (layouts s).
Proof. unfold layouts. cbn. by rewrite fmap_insert. Qed.

Lemma layouts_Some s n cs :
  clusters s !! n = Some cs → layouts s !! n = Some (layout (cs_chunks cs)).
Proof. intros. apply layouts_lookup. eauto. Qed.

(** Writing one cluster with a fresh epoch, and the registry that goes with
    it. *)
Lemma step_ok_cluster s s' n cs k :
  store_wf s → (0 < k)%N →
  clusters s' = <[n := cs]> (clusters s) → global_epoch s' = (global_epoch s + k)%N →
  registry (<[n := layout (cs_chunks cs)]> (layouts s)) (all_proxies s') →
  cs_name cs = n → cluster_ok cs → (global_epoch s < cs_epoch cs ≤ global_epoch s + k)%N →
  step_ok k s s'.
Proof.
  intros [Hr Hn Hc He] Hk Hcl Hg Hreg Hname Hok Hep.
  assert (layouts s' = <[n := layout (cs_chunks cs)]> (layouts s)) as Hl
    by (unfold layouts; by rewrite Hcl, fmap_insert).
  split_and!; [split|split|lia].
  - by rewrite Hl.
  - intros n' cs'. rewrite Hcl. intros [[<- <-]|[_ ?]]%lookup_insert_Some; auto.
  - intros n' cs'. rewrite Hcl. intros [[<- <-]|[_ ?]]%lookup_insert_Some; eauto.
  - intros n' cs'. rewrite Hcl, Hg. intros [[<- <-]|[_ H]]%lookup_insert_Some; [lia|].
    specialize (He _ _ H). lia.
  - lia.
  - intros n' cs'. rewrite Hcl. intros [[<- <-]|[_ H]]%lookup_insert_Some; [right; lia|by left].
Qed.

(** The common case: the registry does not change. *)
Lemma step_ok_chunks s s' n cs cs' k :
  store_wf s → (0 < k)%N → clusters s !! n = Some cs →
  clusters s' = <[n := cs']> (clusters s) → global_epoch s' = (global_epoch s + k)%N →
  all_proxies s' = all_proxies s → layout (cs_chunks cs') = layout (cs_chunks cs) →
  cs_name cs' = cs_name cs → cluster_ok cs' →
  (global_epoch s < cs_epoch cs' ≤ global_epoch s + k)%N →
  step_ok k s s'.
Proof.
  intros Hwf Hk Hcs Hcl Hg Hap Hlay Hname Hok Hep.
  eapply step_ok_cluster; [done..| |by rewrite Hname; apply Hwf|done|done].
  rewrite Hap, Hlay, insert_id; [apply Hwf|]. by apply layouts_Some.
Qed.

(** ** Proxies and failures *)

(** Only fields that the invariant does not mention change. *)
Lemma step_ok_same s s' k :
  store_wf s → clusters s' = clusters s →
  registry (layouts s) (all_proxies s') → (global_epoch s ≤ global_epoch s' ≤ global_epoch s + k)%N →
  step_ok k s s'.
Proof.
  intros [Hr Hn Hc He] Hcl Hap Hg. split_and!; [split|split|lia]; rewrite ?Hcl; try done.
  - unfold layouts. by rewrite Hcl.
  - intros n cs H. specialize (He _ _ H). lia.
  - lia.
  - auto.
Qed.

Section ops.
Context `{HashOrder} `{UnicodeCase}.

Lemma add_failure_step now address reporter s :
  store_wf s → room 1 s → step_ok 1 s (add_failure now address reporter s).1.
Proof.
  intros Hwf Hr. unfold add_failure. destruct (_ ≫= _); [by apply step_ok_refl|].
  cbn. apply step_ok_same; [done|done|apply Hwf|]. cbn.
  rewrite wadd_small by done. lia.
Qed.

Lemma get_failures_step fresh quorum s :
  store_wf s → step_ok 0 s (get_failures fresh quorum s).1.
Proof.
  intros Hwf. apply step_ok_same; [done|done|apply Hwf|]. cbn. lia.
Qed.

Lemma add_proxy_step address nodes host index s :
  store_wf s → room 1 s →
  wp (add_proxy address nodes host index) (λ _ s', step_ok 1 s s') s.
Proof.
  intros Hwf Hr. unfold wp, add_proxy. case_bool_decide; [by apply step_ok_refl|].
  destruct (match host with Some _ => _ | None => _ end) as [h|]; [|by apply step_ok_refl].
  destruct (if enable_ordered_proxy s then index else Some 0%N) as [i|]; [|by apply step_ok_refl].
  set (ex := bool_decide (is_Some (all_proxies s !! address))).
  set (cleared := _ || _).
  set (s1 := set_failures _ _).
  assert (step_ok 1 s s1 ∧ step_ok 1 s (bump_global_epoch s1).1) as [Hs1 Hs2].
  { assert (clusters s1 = clusters s ∧ global_epoch s1 = global_epoch s ∧
      registry (layouts s) (all_proxies s1)) as (E1 & E2 & E3).
    { unfold s1, ex. case_bool_decide as Hex; (split_and!; [done|done|]); [apply Hwf|].
      apply registry_add_proxy; [apply Hwf|by apply eq_None_not_Some|done|done]. }
    split; [apply step_ok_same; try done; lia|]. apply step_ok_same; try done.
    change (global_epoch (bump_global_epoch s1).1) with (wadd (global_epoch s1) 1).
    rewrite E2, wadd_small by done. lia. }
  destruct ex, cleared; cbn [negb orb]; done.
Qed.

Lemma remove_proxy_step address s :
  store_wf s → room 1 s → wp (remove_proxy address) (λ _ s', step_ok 1 s s') s.
Proof.
  intros Hwf Hr. unfold wp, remove_proxy.
  destruct (all_proxies s !! address) as [pr|] eqn:Hp; [|by apply step_ok_refl].
  case_bool_decide as Hc; [by apply step_ok_refl|].
  apply step_ok_same; [done|done| |cbn; rewrite wadd_small by done; lia].
  cbn. eapply registry_remove_proxy; [apply Hwf|done|done].
Qed.

(** ** Migrations *)

Lemma not_migrating cs : is_migrating cs = false → all_entries (cs_chunks cs) = [].
Proof.
  unfold is_migrating, all_entries. induction (cs_chunks cs) as [|c l IH]; [done|].
  cbn [existsb]. intros [Hc Hl]%orb_false_iff. rewrite fmap_cons. cbn [mjoin list_join].
  change (chunk_entries c ++ mjoin (chunk_entries <$> l) = []). rewrite IH by done.
  unfold chunk_is_migrating in Hc. cbn in Hc. apply orb_false_iff in Hc as [E0 E1].
  apply orb_false_iff in E1 as [E1 _].
  apply negb_false_iff, bool_decide_eq_true in E0, E1.
  unfold chunk_entries. by rewrite E0, E1.
Qed.

Lemma print_migration_slot_ok chunks : slots_wf chunks → print_migration_slot chunks = Ok ().
Proof.
  intros Hwf. unfold print_migration_slot.
  destruct (omapM_is_Ok (λ e, to_slot_range e chunks) (all_entries chunks)) as [l ->]; [|done].
  intros e He. destruct (entry_indices chunks e) as (? & ? & ? & ?); [apply Hwf..|done|].
  by apply to_slot_range_Ok.
Qed.

Lemma safe_size cs : cluster_ok cs → (N.of_nat (length (cs_chunks cs) * 2) ≤ SLOT_NUM)%N.
Proof. intros (_ & _ & Hl). unfold MAX_SAFE_CHUNKS, SLOT_NUM in *. lia. Qed.

Lemma cluster_ok_intro cs m :
  slots_wf (cs_chunks cs) → balanced m (cs_chunks cs) →
  length (cs_chunks cs) ≤ MAX_SAFE_CHUNKS → cluster_ok cs.
Proof. intros. split_and!; eauto. Qed.

(** What a planner leaves in cluster [name] when it succeeds: the same chunks,
    plan_reached to be balanced over the first [m cs] of them. *)
Definition plan_reached (name : string) (m : ClusterStore → nat) (s : MetaStore) (r : res ())
    (s' : MetaStore) : Prop :=
  r = Ok () → ∃ n cs cs', cluster_name_try_from name = Some n ∧ clusters s !! n = Some cs ∧
    clusters s' !! n = Some cs' ∧ frames (cs_chunks cs') = frames (cs_chunks cs) ∧
    balanced (m cs) (cs_chunks cs').

Lemma migrate_slots_spec name s :
  store_wf s → room 1 s →
  wp (migrate_slots name) (λ r s', step_ok 1 s s' ∧
    plan_reached name (λ cs, length (cs_chunks cs)) s r s') s.
Proof.
  intros Hwf Hr. unfold migrate_slots. repeat wp_step; [|split; [by auto with wp|done]].
  apply wp_bump; [done|]. repeat wp_step; [|split; [by auto with wp|done]].
  destruct (negb _); [apply wp_fail; split; [by auto with wp|done]|].
  destruct (check_running_tasks _) eqn:Hrun; [apply wp_fail; split; [by auto with wp|done]|].
  match goal with H : clusters _ !! ?x = Some ?c |- _ =>
    rename c into cs; rename H into Hcs; rename x into n end.
  cbn [clusters set_global_epoch] in Hcs.
  destruct (sf_cluster _ Hwf _ _ Hcs) as (Hs & [m Hb] & Hl) eqn:Hok.
  destruct (scale_out_plan (cs_chunks cs) m (global_epoch s + 1) Hs Hb (not_migrating _ Hrun))
    as (chunks1 & ms & chunks' & -> & Hass & Hwf' & Hbal & Hfr & _).
  { apply safe_size. by eapply sf_cluster. }
  apply wp_bind, wp_lift; [done|]. apply wp_bind. rewrite Hass. apply wp_lift; [done|].
  repeat wp_step. rewrite print_migration_slot_ok by done. apply wp_lift; [done|].
  pose proof (frames_length _ _ Hfr) as Hlen. split.
  - eapply (step_ok_chunks s _ _ cs _ 1); try done; cbn.
    + by apply layout_frames.
    + eapply cluster_ok_intro; [done|done|]. cbn. lia.
    + lia.
  - intros _. exists n, cs. eexists. split_and!; [done|done|apply lookup_insert_eq|done|done].
Qed.

Lemma migrate_slots_step name s :
  store_wf s → room 1 s → wp (migrate_slots name) (λ _ s', step_ok 1 s s') s.
Proof. intros. eapply wp_mono; [by apply migrate_slots_spec|]. by intros r s' _ [? _]. Qed.

Lemma no_empty_balanced cs m :
  empty_exists cs = false → balanced m (cs_chunks cs) → m = length (cs_chunks cs).
Proof.
  intros He []. destruct (decide (m = length (cs_chunks cs))) as [|Hne]; [done|]. exfalso.
  destruct (lookup_lt_is_Some_2 (cs_chunks cs) m) as [c Hc]; [lia|].
  pose proof (bl_free m c ltac:(lia) Hc) as Hf. unfold empty_exists in He.
  assert (existsb (λ c, existsb (λ o, bool_decide (o = None)) (arr2_list (ch_stable_slots c)))
    (cs_chunks cs) = true) as Ht; [|congruence].
  apply existsb_exists. exists c. split; [by eapply list_elem_of_In, list_elem_of_lookup_2|].
  by rewrite Hf.
Qed.

Lemma migrate_slots_to_scale_down_spec name num s :
  store_wf s → room 1 s →
  wp (migrate_slots_to_scale_down name num) (λ r s', step_ok 1 s s' ∧
    plan_reached name (λ _, num / 4) s r s') s.
Proof.
  intros Hwf Hr. unfold migrate_slots_to_scale_down. repeat wp_step; [|split; [by auto with wp|done]].
  apply wp_bump; [done|]. repeat wp_step; [|split; [by auto with wp|done]].
  destruct (empty_exists _) eqn:Hempty; [apply wp_fail; split; [by auto with wp|done]|].
  destruct (check_running_tasks _) eqn:Hrun; [apply wp_fail; split; [by auto with wp|done]|].
  case_bool_decide as Hnum; [apply wp_fail; split; [by auto with wp|done]|].
  match goal with H : clusters _ !! ?x = Some ?c |- _ =>
    rename c into cs; rename H into Hcs; rename x into n end.
  cbn [clusters set_global_epoch] in Hcs.
  pose proof (sf_cluster _ Hwf _ _ Hcs) as Hok. pose proof (safe_size _ Hok) as Hsize.
  destruct Hok as (Hs & [m Hb] & Hl). rewrite (no_empty_balanced _ _ Hempty Hb) in Hb.
  unfold CHUNK_NODE_NUM in Hnum. set (d := num / 4).
  assert (num = 4 * d) as Hd.
  { pose proof (Nat.div_mod_eq num 4). unfold d. lia. }
  assert (0 < d < length (cs_chunks cs)) as Hd' by lia.
  destruct (scale_down_plan (cs_chunks cs) d (global_epoch s + 1) Hs Hb (not_migrating _ Hrun))
    as (chunks1 & ms & chunks' & -> & Hass & Hwf' & Hbal & Hfr & _); [done|done| |].
  { intros k Hk. by apply share_gap. }
  apply wp_bind, wp_lift; [done|]. apply wp_bind. rewrite Hass. apply wp_lift; [done|].
  repeat wp_step. rewrite print_migration_slot_ok by done. apply wp_lift; [done|].
  pose proof (frames_length _ _ Hfr) as Hlen. split.
  - eapply (step_ok_chunks s _ _ cs _ 1); try done; cbn.
    + by apply layout_frames.
    + eapply cluster_ok_intro; [done|done|]. cbn. lia.
    + lia.
  - intros _. exists n, cs. eexists. split_and!; [done|done|apply lookup_insert_eq|done|done].
Qed.

Lemma migrate_slots_to_scale_down_step name num s :
  store_wf s → room 1 s → wp (migrate_slots_to_scale_down name num) (λ _ s', step_ok 1 s s') s.
Proof. intros. eapply wp_mono; [by apply migrate_slots_to_scale_down_spec|]. by intros r s' _ [? _]. Qed.

Lemma commit_migration_task_step task s :
  store_wf s → room 1 s → wp (commit_migration_task task) (λ _ s', step_ok 1 s s') s.
Proof.
  intros Hwf Hr. unfold commit_migration_task. repeat wp_step; [|by auto with wp].
  destruct (tag_epoch _) as [ep|]; [|by apply wp_lift, step_ok_refl].
  apply wp_lift; [done|]. cbn [ok_or]. apply wp_bind.
  destruct (find_task _ _ ep true) as [[si sp]|] eqn:Hsrc; [|by apply wp_lift, step_ok_refl].
  apply wp_lift; [done|]. cbn [ok_or]. apply wp_bind.
  destruct (find_task _ _ ep false) as [[di dp]|] eqn:Hdst; [|by apply wp_lift, step_ok_refl].
  apply wp_lift; [done|]. cbn [ok_or].
  match goal with H : clusters _ !! _ = Some ?c |- _ => rename c into cs; rename H into Hcs end.
  destruct (sf_cluster _ Hwf _ _ Hcs) as (Hs & [m Hb] & Hl).
  destruct (find_task_pair _ _ _ _ _ _ _ Hs Hsrc Hdst) as (e & He & Hm & Hrl & Hmeta).
  destruct (commit_chunks_spec (cs_chunks cs) e Hs He Hm) as (chunks' & Heq & Hcm).
  rewrite Hrl, Hmeta in Heq. rewrite Heq. apply wp_bind, wp_lift; [done|]. repeat wp_step.
  apply wp_bump; [done|]. apply wp_ret.
  pose proof Hcm as [Hwf' Hfr _ _ _]. pose proof (frames_length _ _ Hfr) as Hlen.
  eapply (step_ok_chunks s _ _ cs _ 1); try done; cbn.
  - by apply layout_frames.
  - eapply (cluster_ok_intro _ m); 
      [done|exact (committed_balanced _ _ _ _ Hs He Hcm Hb)|]. cbn. lia.
  - rewrite wadd_small by done. lia.
Qed.

(** ** Clusters *)

Lemma wp_check_node_num num Q s :
  (num mod 4 = 0 → 0 < num → Q (Ok (num / 2)) s) → Q (Err InvalidNodeNum) s →
  wp (check_node_num num) Q s.
Proof.
  intros HQ HE. unfold check_node_num. case_bool_decide as H1; [by apply wp_fail|].
  case_bool_decide as H2; [by apply wp_fail|]. apply wp_ret, HQ; [lia|].
  destruct num; [done|lia].
Qed.

Lemma wf_keys s : store_wf s → keys_ok s.
Proof. intros Hwf a pr. apply (rg_key _ _ (sf_registry _ Hwf)). Qed.

Lemma wp_pick_chunks num first Q s :
  keys_ok s → Nat.Even num →
  (∀ arr, length arr * 2 = num → chosen s arr → Q (Ok arr) s) →
  (∀ e, Q (Err e) s) → wp (pick_chunks num first) Q s.
Proof.
  intros Hk Hev HQ HE. unfold pick_chunks. repeat wp_step.
  destruct (enable_ordered_proxy s).
  - destruct (generate_ordered_spec s num (N.of_nat first) Hk Hev)
      as [[e He]|(arr & He & Hl & Hc)]; rewrite He; apply wp_lift; auto; done.
  - destruct (generate_free_chunks_spec s num Hk Hev)
      as [He|(arr & He & Hl & Hc & _)]; rewrite He; apply wp_lift; auto; done.
Qed.

Lemma half_num num : num mod 4 = 0 → 0 < num → Nat.Even (num / 2) ∧ num / 2 = num / 4 * 2.
Proof.
  intros Hm Hp. pose proof (Nat.div_mod_eq num 4) as H4.
  assert (num / 2 = num / 4 * 2) as Hh.
  { rewrite H4 at 1. rewrite Hm, Nat.add_0_r.
    replace (4 * (num / 4)) with (num / 4 * 2 * 2) by lia. by rewrite Nat.div_mul. }
  split; [|done]. exists (num / 4). lia.
Qed.

Lemma wp_make_chunks arr b Q s :
  arr ≠ [] →
  (∀ chunks, proxy_resource_to_chunk_store arr b = Ok chunks →
     layout chunks = resource_half <$> mjoin (arr2_list <$> arr) → Q (Ok chunks) s) →
  wp (lift (proxy_resource_to_chunk_store arr b)) Q s.
Proof.
  intros Hne HQ. unfold proxy_resource_to_chunk_store in *.
  rewrite bool_decide_eq_false_2 in * by (destruct arr; [done|cbn; lia]).
  apply wp_lift; [done|]. apply HQ; [done|]. apply layout_make_chunks.
Qed.

(** The halves of chosen proxies are free. *)
Lemma chosen_free s arr :
  chosen s arr →
  (∀ x, x ∈ resource_half <$> mjoin (arr2_list <$> arr) →
     ∃ pr, all_proxies s !! half_address x = Some pr ∧ pr_cluster pr = None ∧
       resource_half pr = x) ∧
  NoDup (half_address <$> (resource_half <$> mjoin (arr2_list <$> arr))).
Proof.
  intros [Hf Hnd]. split.
  - intros x (pr & -> & Hin)%list_elem_of_fmap.
    apply list_elem_of_join in Hin as (l & Hpr & Hl).
    apply list_elem_of_fmap in Hl as (p & -> & Hp). rewrite Forall_forall in Hf.
    destruct (Hf p Hp) as [F0 F1].
    assert (resource_free s pr) as [Ha Hfree].
    { unfold arr2_list in Hpr. apply elem_of_cons in Hpr as [->|Hpr]; [done|].
      by apply list_elem_of_singleton in Hpr as ->. }
    exists pr. split_and!; [done| |done].
    unfold is_free in Hfree. apply andb_true_iff in Hfree as [Hfree _].
    apply andb_true_iff in Hfree as [Hfree _]. by apply bool_decide_eq_true in Hfree.
  - rewrite <- list_fmap_compose. done.
Qed.

Lemma wp_occupy_all name addrs Q s :
  (∀ a, a ∈ addrs → is_Some (all_proxies s !! a)) →
  (∀ P', (∀ a, P' !! a = if decide (a ∈ addrs) then set_cluster (Some name) <$> all_proxies s !! a
                         else all_proxies s !! a) →
     Q (Ok ()) (set_all_proxies s P')) →
  wp (occupy_all name addrs) Q s.
Proof.
  intros Hin HQ. unfold occupy_all. repeat wp_step.
  destruct (occupy_spec name addrs (all_proxies s) Hin) as (P' & -> & HP').
  apply wp_lift; [done|]. apply wp_put_store. by apply HQ.
Qed.

(** The chosen proxies fill at most [MAX_SAFE_CHUNKS] chunks. *)
Lemma add_cluster_step name num config s :
  store_wf s → room 1 s → num ≤ MAX_SAFE_CHUNKS * 4 →
  wp (add_cluster name num config) (λ _ s', step_ok 1 s s') s.
Proof.
  intros Hwf Hr Hnum. unfold add_cluster. do 2 wp_step.
  destruct (_ && _); [apply wp_fail; by auto with wp|].
  repeat wp_step; [|by auto with wp]. case_bool_decide as Hex; [apply wp_fail; by auto with wp|].
  match goal with H : cluster_name_try_from _ = Some ?x |- _ => rename x into n end.
  apply wp_bind, wp_check_node_num; [intros Hmod Hpos|by auto with wp].
  destruct (half_num num Hmod Hpos) as [Hev Hhalf].
  apply wp_bind, wp_pick_chunks; [by apply wf_keys|done| |by auto with wp].
  intros arr Hlen Hch.
  assert (length arr = num / 4) as Hlen' by lia.
  assert (0 < num / 4 ≤ MAX_SAFE_CHUNKS) as Hb.
  { pose proof (Nat.div_mod_eq num 4). lia. }
  apply wp_bind, wp_make_chunks; [destruct arr; [cbn in *; lia|done]|].
  intros chunks Hmk Hlay. apply wp_bind, wp_bump; [done|].
  destruct (chosen_free s arr Hch) as [Hfree Hnd].
  apply wp_bind, wp_occupy_all.
  { intros a Ha. cbn [all_proxies set_global_epoch]. rewrite <- layout_addresses, Hlay in Ha.
    apply list_elem_of_fmap in Ha as (x & -> & Hx). destruct (Hfree x Hx) as (pr & -> & _). eauto. }
  intros P' HP'. apply wp_put_cluster.
  destruct (new_cluster_chunks arr chunks Hmk) as (Hs & Hbal & Hlc & _).
  { unfold MAX_SAFE_CHUNKS, SLOT_NUM in *. lia. }
  eapply (step_ok_cluster s _ n _ 1); try done.
  - change (registry (<[n := [] ++ layout chunks]> (layouts s)) P'). rewrite Hlay.
    apply (registry_join (layouts s) (all_proxies s)); [apply Hwf| |done|done|].
    + right. split; [|done]. unfold layouts. rewrite lookup_fmap.
      destruct (clusters s !! n) eqn:Hn; [|done]. exfalso. apply Hex. eauto.
    + intros a. rewrite HP'. cbn. by rewrite <- layout_addresses, Hlay.
  - eapply cluster_ok_intro; [done|done|]. cbn. lia.
  - cbn. lia.
Qed.

Lemma remove_cluster_step name s :
  store_wf s → room 1 s → wp (remove_cluster name) (λ _ s', step_ok 1 s s') s.
Proof.
  intros Hwf Hr. unfold remove_cluster. repeat wp_step; [|by auto with wp..].
  match goal with H : clusters _ !! _ = Some ?c |- _ => rename c into cs; rename H into Hcs end.
  apply wp_bump; [done|]. apply wp_ret.
  destruct Hwf as [Hreg Hn Hc He]. split_and!; [split|split|cbn; lia]; cbn.
  - unfold layouts. cbn. rewrite fmap_delete. rewrite <- layout_addresses.
    apply registry_remove; [done|by apply layouts_Some].
  - intros n' cs' [_ ?]%lookup_delete_Some. auto.
  - intros n' cs' [_ ?]%lookup_delete_Some. eauto.
  - intros n' cs' [_ H']%lookup_delete_Some. specialize (He _ _ H'). lia.
  - lia.
  - intros n' cs' [_ ?]%lookup_delete_Some. by left.
Qed.

Lemma view_proxies chunks ns a :
  cluster_view chunks ns → a ∈ node_proxy_address <$> ns ↔ a ∈ half_address <$> layout chunks.
Proof.
  intros Hv. rewrite (cv_proxies _ _ Hv), layout_addresses. unfold chunk_addresses.
  rewrite !list_elem_of_join. setoid_rewrite list_elem_of_fmap. split.
  - intros (l & Ha & c & -> & Hc). exists (arr2_list (ch_proxy_addresses c)).
    split; [|by exists c]. cbn in *. set_solver.
  - intros (l & Ha & c & -> & Hc). eexists. split; [|by exists c]. cbn in *. set_solver.
Qed.

Lemma length_join_const {A B} (f : A → list B) k l :
  (∀ x, length (f x) = k) → length (mjoin (f <$> l)) = k * length l.
Proof.
  intros Hk. induction l as [|x l IH]; [cbn; lia|].
  change (length (f x ++ mjoin (f <$> l)) = k * S (length l)). rewrite length_app, Hk, IH. lia.
Qed.

Lemma view_length chunks ns : cluster_view chunks ns → length ns = 4 * length chunks.
Proof.
  intros Hv. rewrite <- (length_fmap node_proxy_address ns), (cv_proxies _ _ Hv).
  by apply length_join_const.
Qed.

(** The chunks of [auto_add_nodes] join the cluster. *)
Lemma registry_extend s n cs new ns P' :
  store_wf s → clusters s !! n = Some cs →
  (∀ x, x ∈ layout new → ∃ pr, all_proxies s !! half_address x = Some pr ∧
     pr_cluster pr = None ∧ resource_half pr = x) →
  NoDup (half_address <$> layout new) →
  cluster_view (cs_chunks cs ++ new) ns →
  (∀ a, (P' !! a = if decide (a ∈ node_proxy_address <$> ns)
                   then set_cluster (Some n) <$> all_proxies s !! a else all_proxies s !! a)) →
  registry (<[n := layout (cs_chunks cs) ++ layout new]> (layouts s)) P'.
Proof.
  intros Hwf Hcs Hfree Hnd Hv HP'. pose proof (sf_registry _ Hwf) as Hreg.
  pose proof (layouts_Some _ _ _ Hcs) as Hl.
  apply (registry_join _ _ Hreg); [by left|done|done|].
  intros a. rewrite HP'. pose proof (view_proxies _ _ a Hv) as Hin.
  rewrite layout_app, fmap_app, elem_of_app in Hin.
  destruct (decide (a ∈ half_address <$> layout new)) as [Hnew|Hnew].
  { rewrite decide_True by tauto. done. }
  case_decide as Hall; [|done]. destruct Hin as [Hin _].
  destruct (Hin Hall) as [Hold|]; [|done].
  apply list_elem_of_fmap in Hold as (x & -> & Hx).
  destruct (rg_half _ _ Hreg _ _ _ Hl Hx) as ([] & -> & Hc & _). cbn in Hc. by subst.
Qed.

(** [k] more nodes fit into cluster [name]. *)
Definition fits (name : string) (k : nat) (s : MetaStore) : Prop :=
  ∀ n cs, cluster_name_try_from name = Some n → clusters s !! n = Some cs →
    length (cs_chunks cs) * 4 + k ≤ MAX_SAFE_CHUNKS * 4.

Lemma auto_add_nodes_step name num s :
  store_wf s → room 1 s → fits name num s →
  wp (auto_add_nodes name num) (λ _ s', step_ok 1 s s') s.
Proof.
  intros Hwf Hr Hfit. unfold auto_add_nodes. repeat wp_step; [|by auto with wp..].
  match goal with H : clusters _ !! ?x = Some ?c |- _ =>
    rename c into cs; rename H into Hcs; rename x into n end.
  match goal with H : cluster_name_try_from _ = _ |- _ => specialize (Hfit _ _ H Hcs) end.
  destruct (is_migrating cs); [apply wp_fail; by auto with wp|].
  apply wp_bind, wp_check_node_num; [intros Hmod Hpos|by auto with wp].
  destruct (half_num num Hmod Hpos) as [Hev Hhalf].
  apply wp_bind, wp_pick_chunks; [by apply wf_keys|done| |by auto with wp].
  intros arr Hlen Hch. pose proof (Nat.div_mod_eq num 4) as Hdiv.
  apply wp_bind, wp_make_chunks; [destruct arr; [cbn in *; lia|done]|].
  intros new Hmk Hlay. apply wp_bind, wp_bump; [done|]. repeat wp_step; [|by auto with wp].
  match goal with H : clusters _ !! n = Some ?c |- _ => cbn in H; rewrite Hcs in H; simplify_eq end.
  destruct (sf_cluster _ Hwf _ _ Hcs) as (Hs & [m Hb] & Hl).
  destruct (empty_chunks arr new Hmk) as [Hnl Hempty].
  destruct (append_empty_chunks _ _ _ Hempty Hs Hb) as (Hs' & Hb' & _).
  match goal with |- context [cluster_store_to_cluster ?c] =>
    destruct (cluster_store_to_cluster_Ok c Hs') as (ns & -> & Hv) end.
  apply wp_lift; [done|]. apply wp_bind, wp_occupy_all.
  { intros a Ha. cbn [cluster_nodes all_proxies set_clusters set_global_epoch] in *.
    apply (view_proxies _ _ a Hv) in Ha. cbn [cs_chunks set_epoch set_chunks] in Ha.
    rewrite layout_app, fmap_app, elem_of_app in Ha.
    destruct Ha as [Ha|Ha]; apply list_elem_of_fmap in Ha as (x & -> & Hx).
    - destruct (rg_half _ _ (sf_registry _ Hwf) _ _ _ (layouts_Some _ _ _ Hcs) Hx)
        as (pr & -> & _). eauto.
    - rewrite Hlay in Hx. destruct (proj1 (chosen_free s arr Hch) x Hx) as (pr & -> & _). eauto. }
  intros P' HP'. cbn [cluster_nodes all_proxies set_clusters set_global_epoch] in HP'.
  pose proof (view_length _ _ Hv) as Hnl'.
  cbn [cs_chunks set_epoch set_chunks] in Hnl'. rewrite length_app in Hnl'.
  cbn [cluster_nodes]. rewrite bool_decide_eq_false_2 by lia. apply wp_ret.
  destruct (chosen_free s arr Hch) as [Hfree Hnd]. rewrite <- Hlay in Hfree, Hnd.
  eapply (step_ok_cluster s _ n _ 1); try done.
  - cbn [cs_chunks set_epoch set_chunks all_proxies set_all_proxies]. rewrite layout_app.
    by eapply registry_extend.
  - cbn. by apply Hwf.
  - eapply cluster_ok_intro; [done|done|]. cbn [cs_chunks set_epoch set_chunks].
    rewrite length_app. lia.
  - cbn. lia.
Qed.

Lemma auto_scale_up_nodes_step name num s :
  store_wf s → room 1 s → num ≤ MAX_SAFE_CHUNKS * 4 →
  wp (auto_scale_up_nodes name num) (λ _ s', step_ok 1 s s') s.
Proof.
  intros Hwf Hr Hnum. unfold auto_scale_up_nodes. repeat wp_step; [|by auto with wp..].
  case_bool_decide as Hle; [apply wp_fail; by auto with wp|].
  apply auto_add_nodes_step; [done|done|]. intros n' cs' Hn' Hcs'. simplify_eq. lia.
Qed.

Lemma auto_delete_free_nodes_step name s :
  store_wf s → room 1 s →
  wp (auto_delete_free_nodes name) (λ _ s', step_ok 1 s s') s.
Proof.
  intros Hwf Hr. unfold auto_delete_free_nodes. repeat wp_step; [|by auto with wp..].
  match goal with H : clusters _ !! ?x = Some ?c |- _ =>
    rename c into cs; rename H into Hcs; rename x into n end.
  destruct (is_migrating cs) eqn:Hmig; [apply wp_fail; by auto with wp|].
  apply not_migrating in Hmig. pose proof (sf_cluster _ Hwf _ _ Hcs) as Hok.
  pose proof (safe_size _ Hok) as Hsize. destruct Hok as (Hs & [m Hb] & Hl).
  destruct (in_use_split _ _ Hs Hb Hmig) as [-> ->]; [pose proof (bl_le _ _ Hb); lia|].
  case_bool_decide; [apply wp_fail; by auto with wp|]. repeat wp_step.
  apply wp_bump; [done|]. apply wp_ret.
  destruct (cut_empty_chunks _ _ Hs Hb Hmig) as [Hs' Hb'].
  eapply (step_ok_cluster s _ n _ 1); try done.
  - cbn [cs_chunks set_epoch set_chunks all_proxies set_global_epoch set_all_proxies set_clusters].
    eapply (registry_leave _ _ (sf_registry _ Hwf) _ _ _ (layout (drop m (cs_chunks cs))));
      [by apply layouts_Some| |].
    + by rewrite <- layout_app, take_drop.
    + rewrite layout_addresses. apply release_lookup.
  - cbn. by apply Hwf.
  - eapply cluster_ok_intro; [done|done|]. cbn [cs_chunks set_epoch set_chunks].
    rewrite length_take. lia.
  - cbn. rewrite wadd_small by done. lia.
Qed.

Lemma auto_delete_if_exists_step name s :
  store_wf s → room 1 s →
  wp (auto_delete_free_nodes_if_exists name) (λ _ s', step_ok 1 s s') s.
Proof.
  intros Hwf Hr. pose proof (auto_delete_free_nodes_step name s Hwf Hr) as H'.
  unfold wp, auto_delete_free_nodes_if_exists in *.
  by destruct (auto_delete_free_nodes name s) as [s' [|[]|]].
Qed.

(** ** Failover *)

Lemma recast_layout g chunks chunks' :
  Forall2 (recast g) chunks chunks' → layout chunks' = layout chunks.
Proof.
  induction 1 as [|c c' l l' [_ Hc] _ IH]; [done|]. rewrite !layout_cons, IH. by f_equal.
Qed.

Lemma recast_ok g cs chunks' :
  retag g → Forall2 (recast g) (cs_chunks cs) chunks' → cluster_ok cs →
  ∀ e, cluster_ok (set_epoch (set_chunks cs chunks') e).
Proof.
  intros Hg Hall (Hs & [m Hb] & Hl) e.
  assert (Forall2 (same_slots g) (cs_chunks cs) chunks') as Hsame
    by (eapply Forall2_impl; [exact Hall|by intros ? ? [? _]]).
  pose proof (Forall2_length _ _ _ Hall) as Hlen.
  apply (cluster_ok_intro _ m); cbn [cs_chunks set_epoch set_chunks]; [| |lia].
  - exact (same_slots_wf _ Hg _ _ Hsame Hs).
  - exact (same_slots_balanced _ Hg _ _ _ Hsame Hb).
Qed.

(** What [takeover_master] leaves behind for the rest of
    [replace_failed_proxy]. *)
Definition takeover_post (n : ClusterName) (failed : string) (s s' : MetaStore) : Prop :=
  step_ok 1 s s' ∧ global_epoch s' = (global_epoch s + 1)%N ∧ all_proxies s' = all_proxies s ∧
  layouts s' = layouts s ∧ enable_ordered_proxy s' = enable_ordered_proxy s ∧
  failed_proxies s' = failed_proxies s ∧
  ∃ cs', clusters s' !! n = Some cs' ∧ no_master_at failed (cs_chunks cs').

Lemma takeover_master_step n failed cs s :
  store_wf s → room 1 s → clusters s !! n = Some cs →
  wp (takeover_master n failed) (λ r s', r = Ok () ∧ takeover_post n failed s s') s.
Proof.
  intros Hwf Hr Hcs. unfold takeover_master. apply wp_bind, wp_bump; [done|].
  apply wp_bind, (wp_find_Some n cs); [done|].
  pose proof (rg_nodup _ _ (sf_registry _ Hwf) _ _ (layouts_Some _ _ _ Hcs)) as Hnd.
  rewrite layout_addresses in Hnd.
  pose proof (takeover_no_master (global_epoch s + 1) failed _ Hnd) as Hno.
  destruct (takeover_loop _ _ _) as [|chunks' p] eqn:Ht.
  { apply wp_ret. split; [done|]. split_and!; [by apply step_ok_bump|done..|eauto]. }
  apply takeover_loop_spec in Ht. pose proof (recast_layout _ _ _ Ht) as Hlay.
  apply wp_put_cluster. split; [done|]. split_and!; try done.
  - eapply (step_ok_chunks s _ n _ _ 1); try done.
    + eapply recast_ok; [apply retag_reset|done|by eapply sf_cluster].
    + cbn. lia.
  - rewrite layouts_insert. cbn [cs_chunks set_epoch set_chunks]. rewrite Hlay.
    apply insert_id. by apply layouts_Some.
  - eexists. split; [apply lookup_insert_eq|done].
Qed.

(** A proxy of a cluster is listed in one of its chunks, with its host. *)
Lemma listed_chunk s a pr n cs :
  store_wf s → all_proxies s !! a = Some pr → pr_cluster pr = Some n →
  clusters s !! n = Some cs →
  a ∈ chunk_addresses (cs_chunks cs) ∧
  ∃ c, c ∈ cs_chunks cs ∧ pr_host pr ∈ arr2_list (ch_hosts c).
Proof.
  intros Hwf Ha Hc Hcs. pose proof (layouts_Some _ _ _ Hcs) as Hl.
  destruct (rg_listed _ _ (sf_registry _ Hwf) _ _ _ Ha Hc) as (l & Hl' & Hin). simplify_eq.
  split; [by rewrite <- layout_addresses|].
  apply list_elem_of_fmap in Hin as (x & -> & Hx).
  destruct (rg_half _ _ (sf_registry _ Hwf) _ _ _ Hl Hx) as (pr' & Hp & _ & Hr). simplify_eq.
  unfold layout in Hx. apply list_elem_of_join in Hx as (hs & Hx & Hhs).
  apply list_elem_of_fmap in Hhs as (c & -> & Hin). exists c. split; [done|].
  destruct c as [? ? ? [] [] []]. unfold resource_half in Hx. cbn in Hx.
  rewrite !elem_of_cons in *. destruct Hx as [[= ? -> ?]|[[= ? -> ?]|?%not_elem_of_nil]];
    cbn; set_solver.
Qed.

Lemma listed_cluster s a pr n :
  store_wf s → all_proxies s !! a = Some pr → pr_cluster pr = Some n → is_Some (clusters s !! n).
Proof.
  intros Hwf Ha Hc. destruct (rg_listed _ _ (sf_registry _ Hwf) _ _ _ Ha Hc) as (l & Hl & _).
  apply layouts_lookup in Hl as (cs & -> & _). eauto.
Qed.

Lemma wf_distinct s : store_wf s → store_distinct s.
Proof.
  intros Hwf name cs Hcs. rewrite <-layout_addresses.
  apply (rg_nodup _ _ (sf_registry _ Hwf) name). apply layouts_lookup. by exists cs.
Qed.

Lemma wf_slots s : store_wf s → store_slots_wf s.
Proof. intros Hwf n cs Hcs. by apply (sf_cluster _ Hwf) in Hcs as [? _]. Qed.

Lemma resource_free_facts s pr :
  resource_free s pr → all_proxies s !! pr_proxy_address pr = Some pr ∧ pr_cluster pr = None.
Proof.
  intros [Ha Hfree]. split; [done|]. unfold is_free in Hfree.
  apply andb_true_iff in Hfree as [Hfree _]. apply andb_true_iff in Hfree as [Hfree _].
  by apply bool_decide_eq_true in Hfree.
Qed.

(** The store after [proxy_resource] replaced [failed] in cluster [n]. *)
Definition replaced (n : ClusterName) (cs : ClusterStore) (failed : string) (new : ProxyResource)
    (s : MetaStore) : MetaStore :=
  let epoch := (global_epoch s + 1)%N in
  let cs' := set_epoch (set_chunks cs (replace_in_chunks failed new (cs_chunks cs))) epoch in
  let s' := set_clusters (set_global_epoch s epoch) (<[n := cs']> (clusters s)) in
  set_all_proxies s'
    (alter (set_cluster (Some n)) (pr_proxy_address new)
       (alter (set_cluster None) failed (all_proxies s'))).

Lemma replaced_step n cs failed pr new s :
  store_wf s → clusters s !! n = Some cs → all_proxies s !! failed = Some pr →
  pr_cluster pr = Some n → resource_free s new → step_ok 1 s (replaced n cs failed new s).
Proof.
  intros Hwf Hcs Hf Hc Hfree. apply resource_free_facts in Hfree as [Hnew Hnc].
  destruct (listed_chunk _ _ _ _ _ Hwf Hf Hc Hcs) as [Hin _].
  destruct (replace_layout failed new _ Hin) as (a & x & b & Hlay & Hx & Hlay').
  pose proof (replace_same_slots failed new (cs_chunks cs)) as Hsame.
  destruct (sf_cluster _ Hwf _ _ Hcs) as (Hs & [m Hb] & Hl).
  pose proof (Forall2_length _ _ _ Hsame) as Hlen.
  eapply (step_ok_cluster s _ n _ 1); [done|done|done|done| | | |].
  - cbn [cs_chunks set_epoch set_chunks all_proxies set_all_proxies replaced].
    rewrite Hlay', <- Hx. apply registry_replace; [apply Hwf| |done|done].
    rewrite <- Hlay. by apply layouts_Some.
  - exact (sf_name _ Hwf _ _ Hcs).
  - apply (cluster_ok_intro _ m); cbn [cs_chunks set_epoch set_chunks]; [| |lia].
    + exact (same_slots_wf _ retag_id _ _ Hsame Hs).
    + exact (same_slots_balanced _ retag_id _ _ _ Hsame Hb).
  - cbn. lia.
Qed.

(** A free proxy is in no chunk. *)
Lemma free_absent s a pr n cs :
  store_wf s → all_proxies s !! a = Some pr → pr_cluster pr = None →
  clusters s !! n = Some cs → a ∉ chunk_addresses (cs_chunks cs).
Proof.
  intros Hwf Ha Hc Hcs Hin. rewrite <- layout_addresses in Hin.
  apply list_elem_of_fmap in Hin as (x & -> & Hx).
  destruct (rg_half _ _ (sf_registry _ Hwf) _ _ _ (layouts_Some _ _ _ Hcs) Hx)
    as (pr' & Hp & Hc' & _). congruence.
Qed.

(** A failed proxy that is in no cluster. *)
Definition out_of_service (s : MetaStore) (a : string) : Prop :=
  a ∈ failed_proxies s ∧ ∃ pr, all_proxies s !! a = Some pr ∧ pr_cluster pr = None.

(** Whatever [replace_failed_proxy] returns for a proxy of cluster [n], the
    failed proxy has no master left; if it returns the new proxy, the failed
    one is out of the cluster and the metadata of the new one is right. *)
Definition replace_post (failed : string) (n : ClusterName) (r : res (option Proxy))
    (s' : MetaStore) : Prop :=
  (∃ cs', clusters s' !! n = Some cs' ∧ no_master_at failed (cs_chunks cs')) ∧
  match r with
  | Ok (Some p) =>
      (∃ pr, all_proxies s' !! failed = Some pr ∧ pr_cluster pr = None) ∧
      ∃ pr', all_proxies s' !! proxy_address p = Some pr' ∧ pr_cluster pr' = Some n ∧
        proxy_meta_ok s' pr' p
  | _ => True
  end.

Lemma replaced_post n cs failed pr new limit s :
  store_wf s → clusters s !! n = Some cs → all_proxies s !! failed = Some pr →
  pr_cluster pr = Some n → resource_free s new →
  let s' := replaced n cs failed new s in
  ∃ p, get_proxy_by_address s' (pr_proxy_address new) limit = Ok (Some p) ∧
    replace_post failed n (Ok (Some p)) s'.
Proof.
  intros Hwf Hcs Hf Hc Hfree s'.
  pose proof (replaced_step _ _ _ _ _ _ Hwf Hcs Hf Hc Hfree) as (Hwf' & _ & _). fold s' in Hwf'.
  apply resource_free_facts in Hfree as [Hnew Hnc].
  assert (failed ≠ pr_proxy_address new) as Hne by congruence.
  assert (all_proxies s' !! pr_proxy_address new = Some (set_cluster (Some n) new)) as Hn'.
  { cbn. rewrite lookup_alter_eq, lookup_alter_ne by done. by rewrite Hnew. }
  assert (all_proxies s' !! failed = Some (set_cluster None pr)) as Hf'.
  { cbn. rewrite lookup_alter_ne, lookup_alter_eq by done. by rewrite Hf. }
  destruct (get_proxy_by_address_Ok s' _ _ limit (wf_slots _ Hwf') (wf_distinct _ Hwf') Hn' eq_refl) as (p & Hp & Hok).
  exists p. split; [done|]. pose proof Hok as [Ha _]. split.
  - eexists. split; [apply lookup_insert_eq|]. apply no_master_absent.
    eapply free_absent; [exact Hwf'|exact Hf'|done|]. apply lookup_insert_eq.
  - split; [eauto|]. exists (set_cluster (Some n) new). by rewrite Ha.
Qed.

(** What [replace_failed_proxy] does to the other proxies: the hosts and the
    clusters remain, a failed proxy without a cluster is left alone, and the
    proxy, if it is registered, becomes such a one unless no other proxy can
    take its place; ordered proxies stay where they are. *)
Definition replace_effect (failed : string) (s : MetaStore) (r : res (option Proxy))
    (s' : MetaStore) : Prop :=
  pr_host <$> all_proxies s' = pr_host <$> all_proxies s ∧
  dom (layouts s') = dom (layouts s) ∧
  enable_ordered_proxy s' = enable_ordered_proxy s ∧
  (∀ a, out_of_service s a → out_of_service s' a) ∧
  (is_Some (all_proxies s !! failed) →
   (r = Err NoAvailableResource ∧ enable_ordered_proxy s = false) ∨
   (∃ o, r = Ok o ∧ (enable_ordered_proxy s = true ∨ out_of_service s' failed))).

(** Before the rest, the masters may move and proxies be marked as failed. *)
Lemma replace_effect_after failed s s1 r s' :
  all_proxies s1 = all_proxies s → layouts s1 = layouts s →
  enable_ordered_proxy s1 = enable_ordered_proxy s → failed_proxies s ⊆ failed_proxies s1 →
  replace_effect failed s1 r s' → replace_effect failed s r s'.
Proof.
  intros Hp Hl Ho Hf (H1 & H2 & H3 & H4 & H5). unfold replace_effect. rewrite <- Hp, <- Hl, <- Ho.
  split_and!; [done..| |done]. intros a [Ha Hpa]. apply H4. split; [by apply Hf|by rewrite Hp].
Qed.

Lemma replace_effect_stay failed s r :
  (is_Some (all_proxies s !! failed) →
   (r = Err NoAvailableResource ∧ enable_ordered_proxy s = false) ∨
   (∃ o, r = Ok o ∧ (enable_ordered_proxy s = true ∨ out_of_service s failed))) →
  replace_effect failed s r s.
Proof. intros Hr. by split_and!. Qed.

Lemma hosts_alter x a (m : gmap string ProxyResource) :
  pr_host <$> alter (set_cluster x) a m = pr_host <$> m.
Proof.
  apply map_eq. intros b. rewrite !lookup_fmap. destruct (decide (a = b)) as [->|].
  - rewrite lookup_alter_eq. by destruct (m !! b).
  - by rewrite lookup_alter_ne.
Qed.

(** The effect when another proxy takes the place of the failed one. *)
Lemma replaced_effect n cs failed pr new s p :
  clusters s !! n = Some cs → all_proxies s !! failed = Some pr → failed ∈ failed_proxies s →
  pr_cluster pr = Some n → resource_free s new →
  replace_effect failed s (Ok p) (replaced n cs failed new s).
Proof.
  intros Hcs Hf Hin Hc Hfree. pose proof Hfree as [Hnew Hnc]%resource_free_facts.
  assert (pr_proxy_address new ∉ failed_proxies s) as Hnot.
  { destruct Hfree as [_ Hfree]. unfold is_free in Hfree. intros Hx.
    by rewrite (bool_decide_eq_true_2 _ Hx), andb_false_r in Hfree. }
  assert (failed ≠ pr_proxy_address new) as Hne by congruence.
  split_and!; cbn -[alter set_cluster]; [by rewrite !hosts_alter| |done| |].
  - unfold layouts. cbn -[dom]. rewrite fmap_insert, dom_insert_L.
    apply subseteq_union_1_L, singleton_subseteq_l, elem_of_dom. rewrite lookup_fmap, Hcs. eauto.
  - intros a (Ha & pa & Hpa & Hnone). split; [done|]. exists pa. split; [|done]. cbn -[alter].
    rewrite !lookup_alter_ne; [done|congruence|]. intros <-. done.
  - intros _. right. exists p. split; [done|]. right. split; [done|].
    exists (set_cluster None pr). split; [|done]. cbn -[alter].
    rewrite lookup_alter_ne, lookup_alter_eq by done. by rewrite Hf.
Qed.

Lemma replace_failed_proxy_step failed limit s :
  store_wf s → room 2 s →
  wp (replace_failed_proxy failed limit) (λ r s', step_ok 2 s s' ∧
    replace_effect failed s r s' ∧
    ∀ pr n, all_proxies s !! failed = Some pr → pr_cluster pr = Some n →
      replace_post failed n r s') s.
Proof.
  intros Hwf Hr. unfold replace_failed_proxy. repeat wp_step.
  destruct (all_proxies s !! failed) as [pr|] eqn:Hf; [|apply wp_lift; [done|]].
  2: { split_and!; [by auto with wp|apply replace_effect_stay; rewrite Hf; by intros []|done]. }
  apply wp_lift; [done|]. cbn [ok_or]. destruct (pr_cluster pr) as [n|] eqn:Hc.
  2: { repeat wp_step. split_and!; [apply step_ok_same; [done|done|apply Hwf|]; cbn; lia| |intros; congruence].
       eapply replace_effect_after; [..|apply replace_effect_stay]; try done; [cbn; set_solver|].
       intros _. right. exists None. split; [done|]. right. split; [cbn; set_solver|]. by exists pr. }
  destruct (listed_cluster _ _ _ _ Hwf Hf Hc) as [cs Hcs].
  apply wp_bind. eapply wp_mono;
    [apply (takeover_master_step n failed cs); [done|unfold room in *; lia|done]|].
  cbn beta. intros r s1 _ [-> (Hs1 & Hg1 & Hp1 & Hl1 & Ho1 & Hf1 & cs1 & Hcs1 & Hno)].
  pose proof Hs1 as [Hwf1 _]. repeat wp_step.
  destruct (enable_ordered_proxy s1) eqn:Hord.
  { repeat wp_step. apply wp_bump; [unfold room in *; lia|]. apply wp_ret. split_and!.
    - by eapply (step_ok_trans 1 1); [|apply step_ok_bump].
    - apply (replace_effect_after _ _ (set_global_epoch s1 (global_epoch s1 + 1))); [cbn; congruence|done|cbn; congruence|by cbn; rewrite Hf1|].
      apply replace_effect_stay. intros _. right. exists None. auto.
    - intros pr' n' [= <-] ?. simplify_eq. split; [by exists cs1|done]. }
  repeat wp_step. set (s2 := set_failed_proxies s1 _).
  assert (step_ok 0 s1 s2) as Hs2.
  { apply step_ok_same; [done|done|apply Hwf1|]. cbn. lia. }
  assert (all_proxies s2 !! failed = Some pr) as Hf2 by by rewrite <- Hf, <- Hp1.
  pose proof Hs2 as [Hwf2 _].
  assert (∀ r s', replace_effect failed s2 r s' → replace_effect failed s r s') as Heff.
  { intros r s' Hx. eapply replace_effect_after; [..|exact Hx]; cbn; [done|done|congruence|set_solver]. }
  destruct (listed_chunk s2 _ _ _ cs1 Hwf2 Hf2 Hc Hcs1) as [_ (c & Hin & Hh)].
  destruct (generate_new_free_proxy_spec s2 failed pr n cs1 c (wf_keys _ Hwf2) Hf2 Hcs1 Hin Hh)
    as [->|(new & -> & Hfree)].
  { apply wp_lift; [done|]. split_and!; [eapply (step_ok_weaken (1 + 0)); [done|by eapply step_ok_trans]| |].
    { apply Heff, replace_effect_stay. auto. }
    intros pr' n' [= <-] ?. simplify_eq. split; [by exists cs1|done]. }
  apply wp_lift; [done|]. repeat wp_step. apply wp_bump; [unfold room in *; cbn; lia|].
  repeat wp_step. cbn [clusters set_global_epoch]. change (clusters s2) with (clusters s1).
  rewrite Hcs1. apply wp_lift; [done|]. cbn [expect]. repeat wp_step.
  change (set_all_proxies _ _) with (replaced n cs1 failed new s2).
  destruct (replaced_post n cs1 failed pr new limit s2 Hwf2 Hcs1 Hf2 Hc Hfree) as (p & -> & Hpost).
  apply wp_lift; [done|]. repeat wp_step. apply wp_lift; [done|]. apply wp_ret. split_and!.
  - eapply (step_ok_trans 1 (0 + 1)); [done|].
    eapply step_ok_trans; [done|by eapply replaced_step].
  - eapply Heff, replaced_effect; [done|done|cbn; set_solver|done|done].
  - intros pr' n' [= <-] ?. by simplify_eq.
Qed.

Lemma balance_masters_step name s :
  store_wf s → room 1 s → wp (balance_masters name) (λ _ s', step_ok 1 s s') s.
Proof.
  intros Hwf Hr. unfold balance_masters. repeat wp_step; [|by auto with wp..].
  match goal with H : clusters _ !! ?x = Some ?c |- _ =>
    rename c into cs; rename H into Hcs; rename x into n end.
  apply wp_bump; [done|]. apply wp_ret.
  match goal with |- context [set_chunks cs ?l] => set (chunks := l) end.
  assert (Forall2 (recast id) (cs_chunks cs) chunks) as Hall.
  { apply Forall2_fmap_r, Forall_Forall2_diag, Forall_forall. intros c _. unfold compose.
    destruct (has_failed_proxy s c); (split; [split; [done|apply (fmap_id_entries c)]|done]). }
  eapply (step_ok_chunks s _ n cs _ 1); try done.
  - exact (recast_layout _ _ _ Hall).
  - eapply recast_ok; [apply retag_id|done|by eapply sf_cluster].
  - cbn. rewrite wadd_small by done. lia.
Qed.

(** ** Configuration *)

Lemma set_fields_total l : ∀ c, set_fields c l ≠ Panic.
Proof.
  induction l as [|[k v] l IH]; intros c; [done|]. cbn [set_fields].
  pose proof (set_field_total c k v). by destruct (set_field c k v).
Qed.

Lemma change_config_step name config s :
  store_wf s → room 1 s → wp (change_config name config) (λ _ s', step_ok 1 s s') s.
Proof.
  intros Hwf Hr. unfold change_config. repeat wp_step; [|by auto with wp..].
  match goal with H : clusters _ !! ?x = Some ?c |- _ =>
    rename c into cs; rename H into Hcs; rename x into n end.
  destruct (is_migrating cs); [apply wp_fail; by auto with wp|].
  pose proof (set_fields_total (hash_iter config) (cs_config cs)) as Htot.
  apply wp_bind, wp_lift; [done|].
  destruct (set_fields _ _) as [c|e|]; [|by auto with wp|done].
  repeat wp_step. apply wp_bump; [done|]. apply wp_ret.
  eapply (step_ok_chunks s _ n cs _ 1); try done.
  - exact (sf_cluster _ Hwf _ _ Hcs).
  - cbn. rewrite wadd_small by done. lia.
Qed.

(** ** Composed operations *)

Lemma wp_seq {A B} (m : SM A) (f : A → SM B) j k s :
  wp m (λ _ s', step_ok j s s') s →
  (∀ a s', step_ok j s s' → wp (f a) (λ _ s'', step_ok k s' s'') s') →
  wp (m ≫= f) (λ _ s', step_ok (j + k) s s') s.
Proof.
  intros Hm Hf. apply wp_bind. eapply wp_mono; [exact Hm|]. cbn beta.
  intros [a|e|] s1 Hp Hs1; [|eapply step_ok_weaken; [|exact Hs1]; lia|done].
  eapply wp_mono; [by apply Hf|]. intros r s2 _ Hs2. by eapply step_ok_trans.
Qed.

Lemma room_step j k s s' : room (j + k) s → step_ok j s s' → room k s'.
Proof. intros Hr (_ & _ & Hg). unfold room in *. lia. Qed.

Lemma commit_migration_step task clear s :
  store_wf s → room 2 s → wp (commit_migration task clear) (λ _ s', step_ok 2 s s') s.
Proof.
  intros Hwf Hr. apply (wp_seq _ _ 1 1).
  { apply commit_migration_task_step; [done|]. unfold room in *. lia. }
  intros [] s1 Hs1. pose proof Hs1 as [Hwf1 _]. destruct clear; [|by apply wp_ret, step_ok_refl].
  apply auto_delete_if_exists_step; [done|]. by eapply (room_step 1 1).
Qed.

Lemma ignore_free_step (m : SM ()) k s :
  wp m (λ _ s', step_ok k s s') s →
  wp (ignore_free_node_not_found m) (λ _ s', step_ok k s s') s.
Proof. unfold wp, ignore_free_node_not_found. by destruct (m s) as [s' [|[]|]]. Qed.

Lemma auto_change_node_number_step name num s :
  store_wf s → room 2 s → num ≤ MAX_SAFE_CHUNKS * 4 →
  wp (auto_change_node_number name num) (λ _ s', step_ok 2 s s') s.
Proof.
  intros Hwf Hr Hnum. unfold auto_change_node_number. repeat wp_step; [|by auto with wp..].
  destruct (is_migrating _); [apply wp_fail; by auto with wp|]. apply (wp_seq _ _ 1 (1 + 0)).
  { apply ignore_free_step, auto_delete_free_nodes_step; [done|]. unfold room in *. lia. }
  intros _ s1 Hs1. pose proof Hs1 as [Hwf1 _]. pose proof (room_step 1 1 _ _ Hr Hs1) as Hr1.
  do 2 wp_step; [|by auto with wp]. apply wp_seq.
  - destruct (Nat.compare _ _).
    + by apply wp_ret, step_ok_refl.
    + apply (wp_seq _ _ 1 0); [by apply auto_scale_up_nodes_step|].
      intros _ s2 [Hwf2 _]. by apply wp_ret, step_ok_refl.
    + apply (wp_seq _ _ 1 0); [by apply migrate_slots_to_scale_down_step|].
      intros _ s2 [Hwf2 _]. by apply wp_ret, step_ok_refl.
  - intros op s2 [Hwf2 _]. repeat wp_step; by apply step_ok_refl.
Qed.

Lemma auto_scale_out_node_number_step name num s :
  store_wf s → room 1 s → wp (auto_scale_out_node_number name num) (λ _ s', step_ok 1 s s') s.
Proof.
  intros Hwf Hr. unfold auto_scale_out_node_number. repeat wp_step; [|by auto with wp..].
  case_bool_decide; [by apply wp_ret, step_ok_refl|by apply migrate_slots_step].
Qed.
End ops.
