(* ===== verification/Reach.v ===== *)
(** * Reachable stores

    The requests the broker serves as one data type, their execution, and the
    stores that sequences of requests reach from the empty store.  Every
    reachable store satisfies the broker's invariant, so the runtime checks
    of the broker ([check_metadata], [check_slots_balance]) never fire, every
    proxy is told a complete slot table, and no request panics. *)

From S2P Require Import Prelude RangeList RustStr ClusterMeta Store SlotInv Query Migrate Plan.
From S2P Require Import Balance Commit ChunkAlloc Update Registry NewChunks Failover Broker.

(** ** The balance check *)

Lemma share_bounds n k :
  (SLOT_NUM / N.of_nat n ≤ share n k ≤ SLOT_NUM / N.of_nat n + 1)%N.
Proof. unfold share, bool_to_N. destruct (_ <? _)%N; lia. Qed.

Lemma foldr_max_le b : ∀ l n, (n ≤ b)%N → Forall (λ x, x ≤ b)%N l → (foldr N.max n l ≤ b)%N.
Proof.
  induction l as [|x l IH]; intros n Hn Hl; cbn; [done|]. apply Forall_cons in Hl as [? Hl].
  specialize (IH n Hn Hl). lia.
Qed.

Lemma foldr_min_ge b : ∀ l n, (b ≤ n)%N → Forall (λ x, b ≤ x)%N l → (b ≤ foldr N.min n l)%N.
Proof.
  induction l as [|x l IH]; intros n Hn Hl; cbn; [done|]. apply Forall_cons in Hl as [? Hl].
  specialize (IH n Hn Hl). lia.
Qed.

Section balance.
Context (cs : ClusterStore) (m : nat).
Hypothesis Hwf : slots_wf (cs_chunks cs).
Hypothesis Hbal : balanced m (cs_chunks cs).
Hypothesis Hidle : all_entries (cs_chunks cs) = [].
Hypothesis Hsize : (N.of_nat (m * 2) ≤ SLOT_NUM)%N.

(** A part of an idle cluster has its share or nothing. *)
Lemma idle_parts x o :
  masters (cs_chunks cs) !! x = Some o →
  (x < m * 2 ∧ slots_num_of o = share (m * 2) x ∧ o ≠ None) ∨ (m * 2 ≤ x ∧ o = None).
Proof.
  intros Hx. destruct (balanced_masters _ _ Hwf Hbal Hidle Hsize) as [H1 H2].
  destruct (decide (x < m * 2)) as [Hlt|Hge].
  - left. destruct (H1 x Hlt) as (sr & Hsr & [_ Hok] & Hc). simplify_eq. cbn.
    by rewrite get_slots_num_ok by done.
  - right. pose proof (lookup_lt_Some _ _ _ Hx) as Hl. rewrite masters_length in Hl.
    rewrite H2 in Hx by lia. split; [lia|congruence].
Qed.

Lemma idle_not_scattered c :
  c ∈ cs_chunks cs →
  ¬ (at0 (ch_stable_slots c) = None ∧ at1 (ch_stable_slots c) ≠ None).
Proof.
  intros [i Hi]%list_elem_of_lookup [H0 H1].
  assert (∀ j o, j < 2 → arr2_get (ch_stable_slots c) j = Some o →
    masters (cs_chunks cs) !! (i * 2 + j) = Some o) as Hm.
  { intros j o Hj Ho. by rewrite masters_lookup, Hi. }
  destruct (idle_parts (i * 2 + 0) _ (Hm 0 _ ltac:(lia) eq_refl)) as [(_ & _ & ?)|[? _]]; [done|].
  destruct (idle_parts (i * 2 + 1) _ (Hm 1 _ ltac:(lia) eq_refl)) as [(? & _ & _)|[_ ?]];
    [lia|done].
Qed.

Lemma idle_nums :
  let nums := filter (λ n, 0 < n)%N (slots_num_of <$> masters (cs_chunks cs)) in
  nums ≠ [] ∧
  Forall (λ n, SLOT_NUM / N.of_nat (m * 2) ≤ n ≤ SLOT_NUM / N.of_nat (m * 2) + 1)%N nums.
Proof.
  intros nums. pose proof (bl_pos _ _ Hbal) as Hpos. split.
  - destruct (balanced_masters _ _ Hwf Hbal Hidle Hsize) as [H1 _].
    destruct (H1 0) as (sr & Hsr & [_ Hok] & Hc); [lia|]. intros Hn.
    assert (share (m * 2) 0 ∈ nums) as Hin; [|rewrite Hn in Hin; by apply not_elem_of_nil in Hin].
    apply list_elem_of_filter. split; [apply share_pos; lia|]. apply list_elem_of_fmap.
    exists (Some sr). split; [cbn; by rewrite get_slots_num_ok|by eapply list_elem_of_lookup_2].
  - apply Forall_forall. intros n [Hn Hin]%list_elem_of_filter.
    apply list_elem_of_fmap in Hin as (o & -> & [x Hx]%list_elem_of_lookup).
    apply idle_parts in Hx as [(_ & -> & _)|[_ ->]]; [apply share_bounds|cbn in Hn; lia].
Qed.
End balance.

Lemma check_slots_balance_ok cs : cluster_ok cs → check_slots_balance cs = [].
Proof.
  intros Hok. pose proof (safe_size _ Hok) as Hsize. destruct Hok as (Hs & [m Hb] & Hl).
  unfold check_slots_balance. destruct (is_migrating cs) eqn:Hmig; [done|].
  apply not_migrating in Hmig. pose proof (bl_le _ _ Hb) as Hle. rewrite masters_alt.
  destruct (idle_nums cs m Hs Hb Hmig) as [Hne Hall]; [lia|].
  assert (mjoin ((λ c, if bool_decide (at0 (ch_stable_slots c) = None ∧
    at1 (ch_stable_slots c) ≠ None) then [ScatteredSlots] else []) <$> cs_chunks cs) = []) as ->.
  { apply elem_of_nil_inv. intros x Hx. apply list_elem_of_join in Hx as (l & Hx & Hin).
    apply list_elem_of_fmap in Hin as (c & -> & Hc).
    rewrite bool_decide_eq_false_2 in Hx; [by apply not_elem_of_nil in Hx|].
    eapply idle_not_scattered; try done. lia. }
  destruct (filter _ _) as [|n ns]; [done|]. apply Forall_cons in Hall as [[Hn1 Hn2] Hall].
  assert (foldr N.max n ns ≤ SLOT_NUM / N.of_nat (m * 2) + 1)%N.
  { apply foldr_max_le; [done|]. eapply Forall_impl; [exact Hall|]. naive_solver. }
  assert (SLOT_NUM / N.of_nat (m * 2) ≤ foldr N.min n ns)%N.
  { apply foldr_min_ge; [done|]. eapply Forall_impl; [exact Hall|]. naive_solver. }
  destruct (N.ltb_spec 1 (foldr N.max n ns - foldr N.min n ns)); [lia|done].
Qed.

(** ** Raising all epochs *)

Lemma rebase_ok e s :
  store_wf s → (global_epoch s < e)%N →
  let s' := set_clusters (set_global_epoch s e) ((λ c, set_epoch c e) <$> clusters s) in
  store_wf s' ∧ evolves s s'.
Proof.
  intros [Hr Hn Hc He] Hlt s'.
  assert (∀ n cs', clusters s' !! n = Some cs' →
    ∃ cs, clusters s !! n = Some cs ∧ cs' = set_epoch cs e) as Hcl.
  { intros n cs'. cbn. rewrite lookup_fmap_Some. intros (cs & <- & Hcs). by exists cs. }
  split; [split|split].
  - assert (layouts s' = layouts s) as ->; [|done]. unfold layouts, s'. cbn.
    rewrite <- map_fmap_compose. by apply map_fmap_ext.
  - intros n cs' (cs & Hcs & ->)%Hcl. cbn. by apply Hn.
  - intros n cs' (cs & Hcs & ->)%Hcl. exact (Hc _ _ Hcs).
  - intros n cs' (cs & Hcs & ->)%Hcl. done.
  - cbn. lia.
  - intros n cs' (cs & Hcs & ->)%Hcl. right. done.
Qed.

(** ** Requests *)

(** The calls that change the store, with the arguments of the methods of
    the trait [MetaStorage] of [src/src/broker/storage.rs]; [CleanupFailures]
    is made by the storage itself. *)
Inductive Request : Type :=
| AddProxy (address : string) (nodes : arr2 string) (host : option string) (index : option N)
| RemoveProxy (address : string)
| AddCluster (name : string) (node_num : nat) (config : ClusterConfig)
| RemoveCluster (name : string)
| AutoAddNodes (name : string) (num : nat)
| AutoScaleUpNodes (name : string) (expected_num : nat)
| AutoDeleteFreeNodes (name : string)
| MigrateSlots (name : string)
| MigrateSlotsToScaleDown (name : string) (new_node_num : nat)
| CommitMigration (task : MigrationTaskMeta) (clear_free_nodes : bool)
| AutoChangeNodeNumber (name : string) (expected_num : nat)
| AutoScaleOutNodeNumber (name : string) (expected_num : nat)
| ReplaceFailedProxy (address : string) (migration_limit : N)
| BalanceMasters (name : string)
| ChangeConfig (name : string) (config : gmap string string)
| AddFailure (now : Z) (address reporter_id : string)
| GetFailures (fresh : Z → bool) (quorum : nat)
| CleanupFailures (fresh : Z → bool) (quorum : nat)
| ForceBumpAllEpoch (new_epoch : N)
| RecoverEpoch (largest_epoch : N).

Section exec.
Context `{HashOrder} `{UnicodeCase}.

Definition void {A} (m : SM A) : SM () := _ ← m; mret ().

(** [MemoryStorage]: every method runs the store's method under the lock. *)
Definition exec (r : Request) : SM () :=
  match r with
  | AddProxy a nodes host index => add_proxy a nodes host index
  | RemoveProxy a => remove_proxy a
  | AddCluster name num config => add_cluster name num config
  | RemoveCluster name => remove_cluster name
  | AutoAddNodes name num => void (auto_add_nodes name num)
  | AutoScaleUpNodes name num => void (auto_scale_up_nodes name num)
  | AutoDeleteFreeNodes name => auto_delete_free_nodes name
  | MigrateSlots name => migrate_slots name
  | MigrateSlotsToScaleDown name num => migrate_slots_to_scale_down name num
  | CommitMigration task clear => commit_migration task clear
  | AutoChangeNodeNumber name num => void (auto_change_node_number name num)
  | AutoScaleOutNodeNumber name num => auto_scale_out_node_number name num
  | ReplaceFailedProxy a limit => void (replace_failed_proxy a limit)
  | BalanceMasters name => balance_masters name
  | ChangeConfig name config => change_config name config
  | AddFailure now a reporter => λ s, ((add_failure now a reporter s).1, Ok ())
  | GetFailures fresh quorum => λ s, ((get_failures fresh quorum s).1, Ok ())
  | CleanupFailures fresh quorum => λ s, ((cleanup_failures fresh quorum s).1, Ok ())
  | ForceBumpAllEpoch e => force_bump_all_epoch e
  | RecoverEpoch e => λ s, (recover_epoch (wadd e 1) s, Ok ())
  end.
End exec.

(** The requests a deployment may make: no cluster grows beyond
    [MAX_SAFE_CHUNKS] chunks, and an epoch given from outside is a [u64]. *)
Definition within_limits (r : Request) (s : MetaStore) : Prop :=
  match r with
  | AddCluster _ num _ | AutoScaleUpNodes _ num | AutoChangeNodeNumber _ num =>
      num ≤ MAX_SAFE_CHUNKS * 4
  | AutoAddNodes name num => fits name num s
  | ForceBumpAllEpoch e | RecoverEpoch e => (e < u64_modulus)%N
  | _ => True
  end.

Lemma wp_void {A} (m : SM A) k s :
  wp m (λ _ s', step_ok k s s') s → wp (void m) (λ _ s', step_ok k s s') s.
Proof.
  intros Hm. apply wp_bind. eapply wp_mono; [exact Hm|]. intros [a|e|]; cbn; [|done|done].
  intros s' _ Hs. done.
Qed.

Lemma step_keeps k s s' : step_ok k s s' → store_wf s' ∧ evolves s s'.
Proof. by intros (? & ? & _). Qed.

Lemma exec_ok `{HashOrder} `{UnicodeCase} r s :
  store_wf s → room 2 s → within_limits r s →
  wp (exec r) (λ _ s', store_wf s' ∧ evolves s s') s.
Proof.
  intros Hwf Hr2 Hlim. assert (room 1 s) as Hr1 by (unfold room in *; lia).
  assert (∀ k (m : SM ()), wp m (λ _ s', step_ok k s s') s →
    wp m (λ _ s', store_wf s' ∧ evolves s s') s) as Hk.
  { intros k m Hm. eapply wp_mono; [exact Hm|]. intros r' s' _. apply step_keeps. }
  destruct r; cbn [exec within_limits] in *.
  - eapply Hk. by apply add_proxy_step.
  - eapply Hk. by apply remove_proxy_step.
  - eapply Hk. by apply add_cluster_step.
  - eapply Hk. by apply remove_cluster_step.
  - eapply Hk, wp_void. by apply auto_add_nodes_step.
  - eapply Hk, wp_void. by apply auto_scale_up_nodes_step.
  - eapply Hk. by apply auto_delete_free_nodes_step.
  - eapply Hk. by apply migrate_slots_step.
  - eapply Hk. by apply migrate_slots_to_scale_down_step.
  - eapply Hk. by apply commit_migration_step.
  - eapply Hk, wp_void. by apply auto_change_node_number_step.
  - eapply Hk. by apply auto_scale_out_node_number_step.
  - eapply Hk, wp_void, wp_mono; [by apply replace_failed_proxy_step|]. by intros r' s' _ [? _].
  - eapply Hk. by apply balance_masters_step.
  - eapply Hk. by apply change_config_step.
  - eapply step_keeps. by apply add_failure_step.
  - eapply step_keeps. by apply get_failures_step.
  - eapply step_keeps. by apply get_failures_step.
  - unfold wp, force_bump_all_epoch. destruct (N.leb_spec new_epoch (global_epoch s)); [done|].
    by apply rebase_ok.
  - apply rebase_ok; [done|]. rewrite (wadd_small (global_epoch s)) by done. lia.
Qed.

(** ** Reachability *)

(** [HashMap]s may iterate in a different order in every request.  A restore
    takes the store of another broker. *)
Inductive reachable `{UnicodeCase} : MetaStore → Prop :=
| reach_new ordered : reachable (store_new ordered)
| reach_exec (order : HashOrder) r s :
    reachable s → room 2 s → within_limits r s → reachable (exec r s).1
| reach_restore other s : reachable s → reachable other → reachable (restore other s).1.

Lemma store_new_wf ordered : store_wf (store_new ordered).
Proof.
  split; cbn; try (intros n cs; by rewrite lookup_empty).
  unfold layouts. cbn. rewrite fmap_empty. apply registry_empty.
Qed.

Lemma reachable_wf `{UnicodeCase} s : reachable s → store_wf s.
Proof.
  induction 1 as [ordered|order r s _ IH Hr Hlim|other s _ IHs _ IHo].
  - apply store_new_wf.
  - pose proof (exec_ok r s IH Hr Hlim) as Hwp. unfold wp in Hwp.
    destruct (exec r s) as [s' []]; cbn; [tauto|tauto|done].
  - unfold restore. case_bool_decide; [done|]. by destruct (_ <? _)%N.
Qed.

(** A sequence of requests. *)
Inductive steps `{UnicodeCase} : MetaStore → MetaStore → Prop :=
| steps_refl s : steps s s
| steps_exec (order : HashOrder) r s s' :
    steps s s' → room 2 s' → within_limits r s' → steps s (exec r s').1.

Lemma steps_evolves `{UnicodeCase} s s' :
  store_wf s → steps s s' → store_wf s' ∧ evolves s s'.
Proof.
  intros Hwf. induction 1 as [s|order r s s' _ IH Hr Hlim]; [done|].
  destruct (IH Hwf) as [Hwf' Hev]. pose proof (exec_ok r s' Hwf' Hr Hlim) as Hwp. unfold wp in Hwp.
  destruct (exec r s') as [s'' []]; cbn; [| |done]; destruct Hwp as [? Hev']; split; try done;
    by etransitivity.
Qed.

(** ** Running a list of requests *)

Section demo.
#[local] Existing Instances canonical_order ascii_case.

Definition run (rs : list Request) (s : MetaStore) : MetaStore :=
  foldl (λ s r, (exec r s).1) s rs.

(** A check that implies [within_limits]. *)
Definition in_limits (r : Request) : bool :=
  match r with
  | AddCluster _ num _ | AutoScaleUpNodes _ num | AutoChangeNodeNumber _ num =>
      num <=? MAX_SAFE_CHUNKS * 4
  | AutoAddNodes _ _ => false
  | ForceBumpAllEpoch e | RecoverEpoch e => (e <? u64_modulus)%N
  | _ => true
  end.

Fixpoint run_safe (rs : list Request) (s : MetaStore) : bool :=
  match rs with
  | [] => true
  | r :: rs =>
      in_limits r && (global_epoch s + 2 <? u64_modulus)%N && run_safe rs (exec r s).1
  end.

Lemma in_limits_ok r s : in_limits r = true → within_limits r s.
Proof. destruct r; cbn -[MAX_SAFE_CHUNKS]; try done; intros ?%Nat.leb_le || intros ?%N.ltb_lt; lia. Qed.

Lemma run_reachable rs : ∀ s, reachable s → run_safe rs s = true → reachable (run rs s).
Proof.
  induction rs as [|r rs IH]; intros s Hs; [done|]. cbn [run_safe run foldl].
  intros [[H1 H2%N.ltb_lt]%andb_true_iff H3]%andb_true_iff. apply IH; [|done].
  constructor; [done|done|by apply in_limits_ok].
Qed.

Definition proxy_request (host port : string) : Request :=
  AddProxy (host +:+ ":" +:+ port) (Arr2 (host +:+ ":1") (host +:+ ":2")) None None.

(** Six proxies on six hosts, a cluster of four nodes that is scaled out to
    eight. *)
Definition demo_requests : list Request :=
  [proxy_request "a" "70"; proxy_request "b" "70"; proxy_request "c" "70";
   proxy_request "d" "70"; proxy_request "e" "70"; proxy_request "f" "70";
   AddCluster "demo" 4 default_cluster_config; AutoScaleUpNodes "demo" 8; MigrateSlots "demo"].
Definition demo_store : MetaStore := run demo_requests (store_new false).

Lemma demo_reachable : reachable demo_store.
Proof. apply run_reachable; [constructor|]. vm_compute. reflexivity. Qed.
End demo.

Definition demo_cluster : ClusterStore :=
  default (mkClusterStore 0 "" [] default_cluster_config) (clusters demo_store !! "demo").

Lemma demo_lookup : clusters demo_store !! "demo" = Some demo_cluster.
Proof. vm_compute. reflexivity. Qed.

(** ** Properties of the running broker *)

(** C1. After any sequence of requests within the limits of [reachable], every
    slot below [SLOT_NUM] is owned exactly once in every cluster: by the
    stable slots of one master, or by one migration that has not committed
    yet.  The limits are that no request makes a cluster of more than
    [MAX_SAFE_CHUNKS] chunks, which is 91, and that the epoch has room for two
    more in a [u64]; beyond the first one the statement fails, with the scale
    down from 92 chunks to 91. *)
Theorem reachable_slots_owned_once `{UnicodeCase} s n cs slot :
  reachable s → clusters s !! n = Some cs →
  chunks_cover slot (cs_chunks cs) = owned_once slot.
Proof. intros Hs Hcs. by apply (wf_slots s (reachable_wf s Hs) n cs Hcs). Qed.

Lemma reachable_slots_owned_once_witness :
  chunks_cover 9000 (cs_chunks demo_cluster) = owned_once 9000.
Proof.
  exact (reachable_slots_owned_once (H := ascii_case) demo_store "demo" demo_cluster 9000
    demo_reachable demo_lookup).
Defined.

(** C10. No request within the size limits makes the broker panic, from any
    reachable store: every [expect], index and subtraction of the operations
    is safe. *)
Theorem exec_never_panics `{HashOrder} `{UnicodeCase} r s :
  reachable s → room 2 s → within_limits r s → (exec r s).2 ≠ Panic.
Proof.
  intros Hs Hr Hlim. pose proof (exec_ok r s (reachable_wf s Hs) Hr Hlim) as Hwp. unfold wp in Hwp.
  by destruct (exec r s) as [s' []].
Qed.

Lemma exec_never_panics_witness :
  (exec (H := canonical_order) (H0 := ascii_case)
     (ReplaceFailedProxy "d:70" 1) demo_store).2 ≠ Panic.
Proof. apply exec_never_panics; [exact demo_reachable|vm_compute; reflexivity|exact I]. Defined.

(** C11. Along every sequence of requests a cluster only changes together with
    its epoch: what the broker shows later is either the same cluster or one
    with a higher epoch, so a proxy that ignores smaller epochs never goes
    back to old metadata. *)
Theorem epochs_order_versions `{UnicodeCase} s s' n cs cs' :
  reachable s → steps s s' → clusters s !! n = Some cs → clusters s' !! n = Some cs' →
  cs' = cs ∨ (cs_epoch cs < cs_epoch cs')%N.
Proof.
  intros Hs Hsteps Hcs Hcs'. pose proof (reachable_wf s Hs) as Hwf.
  destruct (steps_evolves s s' Hwf Hsteps) as [_ [_ Hev]].
  pose proof (sf_epoch _ Hwf _ _ Hcs). destruct (Hev _ _ Hcs'); [left; congruence|right; lia].
Qed.

Definition demo_after : MetaStore :=
  (exec (H := canonical_order) (H0 := ascii_case) (BalanceMasters "demo") demo_store).1.

Lemma epochs_order_versions_witness :
  ∃ cs', clusters demo_after !! "demo" = Some cs' ∧
    (cs' = demo_cluster ∨ (cs_epoch demo_cluster < cs_epoch cs')%N).
Proof.
  destruct (clusters demo_after !! "demo") as [cs'|] eqn:Hcs'; [|vm_compute in Hcs'; discriminate].
  exists cs'. split; [done|].
  eapply (epochs_order_versions (H := ascii_case) demo_store demo_after "demo");
    [exact demo_reachable| |exact demo_lookup|exact Hcs'].
  unfold demo_after. apply steps_exec; [constructor|vm_compute; reflexivity|exact I].
Defined.

(** The consistency check [check_metadata] accepts every reachable store:
    proxies and chunks agree on addresses, hosts, nodes and clusters, and no
    proxy is used twice. *)
Theorem reachable_check_metadata `{HashOrder} `{UnicodeCase} s :
  reachable s → check_metadata s = true.
Proof. intros Hs. apply registry_check, sf_registry, reachable_wf, Hs. Qed.

Lemma reachable_check_metadata_witness :
  check_metadata (H := canonical_order) demo_store = true.
Proof. apply (reachable_check_metadata (H0 := ascii_case)). exact demo_reachable. Defined.

(** C27. Every registered proxy gets complete metadata, whatever the migration
    limit: a proxy of a cluster is told the cluster's epoch and configuration
    and finds every slot exactly once among its own nodes and its peers, which
    have different addresses and well-formed slot ranges; a free proxy is told
    the global epoch and its own nodes without slots. *)
Theorem proxy_metadata_complete `{HashOrder} `{UnicodeCase} s address pr limit :
  reachable s → all_proxies s !! address = Some pr →
  ∃ p, get_proxy_by_address s address limit = Ok (Some p) ∧ proxy_meta_ok s pr p.
Proof.
  intros Hs Hp. pose proof (reachable_wf s Hs) as Hwf.
  apply get_proxy_by_address_Ok; [by apply wf_slots|by apply wf_distinct|done|]. by apply (wf_keys s Hwf).
Qed.

Definition demo_proxy : ProxyResource :=
  default (mkProxyResource "" (Arr2 "" "") "" 0 None) (all_proxies demo_store !! "d:70").

Lemma proxy_metadata_complete_witness :
  ∃ p, get_proxy_by_address demo_store "d:70" 1 = Ok (Some p) ∧ proxy_meta_ok demo_store demo_proxy p.
Proof.
  apply (proxy_metadata_complete (H := canonical_order) (H0 := ascii_case));
    [exact demo_reachable|vm_compute; reflexivity].
Defined.

(** [check_slots_balance] has nothing to report about any cluster of a
    reachable store: no scattered slots, no cluster without slots, and the
    masters with slots differ by at most one slot. *)
Theorem reachable_slots_balanced `{UnicodeCase} s n cs :
  reachable s → clusters s !! n = Some cs → check_slots_balance cs = [].
Proof.
  intros Hs Hcs. apply check_slots_balance_ok. by apply (sf_cluster _ (reachable_wf s Hs) n).
Qed.

Lemma reachable_slots_balanced_witness : check_slots_balance demo_cluster = [].
Proof.
  exact (reachable_slots_balanced (H := ascii_case) demo_store "demo" demo_cluster
    demo_reachable demo_lookup).
Defined.
