(* ===== verification/Resource.v ===== *)
(** * The resource check of the broker

    [broker/resource.rs]: the broker tells which hosts cannot fail without
    leaving a cluster short of proxies.  It tries the failover of all the
    proxies of a host on a copy of the store. *)

From S2P Require Import Prelude RangeList RustStr ClusterMeta Store SlotInv Query Migrate Plan.
From S2P Require Import Balance Commit ChunkAlloc Update Registry NewChunks Failover Broker Reach.

Section resource.
Context `{HashOrder} `{UnicodeCase}.

(** The proxies of each host. *)
Definition proxy_map (s : MetaStore) : gmap string (list string) :=
  foldl (λ m kv, <[pr_host kv.2 := default [] (m !! pr_host kv.2) ++ [kv.1]]> m) ∅ (hash_iter (all_proxies s)).

Fixpoint check_failure_tolerance_for_one_host (proxy_addresses : list string) (migration_limit : N) (store : MetaStore) : res bool :=
  match proxy_addresses with
  | [] => Ok true
  | a :: rest =>
      match replace_failed_proxy a migration_limit store with
      | (store, Ok _) => check_failure_tolerance_for_one_host rest migration_limit store
      | (_, Err NoAvailableResource) => Ok false
      | (_, Err err) => Err err
      | (_, Panic) => Panic
      end
  end.

Fixpoint check_hosts (migration_limit : N) (s : MetaStore) (l : list (string * list string)) (hosts : list string) : res (list string) :=
  match l with
  | [] => Ok hosts
  | (host, proxy_addresses) :: l =>
      enough_resource ← check_failure_tolerance_for_one_host proxy_addresses migration_limit s;
      check_hosts migration_limit s l (if enough_resource : bool then hosts else hosts ++ [host])
  end.

Definition check_failure_tolerance (migration_limit : N) (s : MetaStore) : res (list string) :=
  check_hosts migration_limit s (hash_iter (proxy_map s)) [].

(** ** The failover of a host *)

(** The store after the failover of some proxies, one after the other. *)
Definition failovers (limit : N) (l : list string) (s : MetaStore) : MetaStore :=
  foldl (λ s a, (exec (ReplaceFailedProxy a limit) s).1) s l.

Lemma exec_replace a limit s :
  exec (ReplaceFailedProxy a limit) s = ((replace_failed_proxy a limit s).1, (λ _, ()) <$> (replace_failed_proxy a limit s).2).
Proof. cbn [exec]. unfold void, mbind, SM_bind. by destruct (replace_failed_proxy a limit s) as [s' []]. Qed.

Lemma known_hosts s s' a :
  pr_host <$> all_proxies s' = pr_host <$> all_proxies s → is_Some (all_proxies s !! a) → is_Some (all_proxies s' !! a).
Proof. intros Hh Ha. apply (fmap_is_Some pr_host). rewrite <- lookup_fmap, Hh, lookup_fmap. by apply fmap_is_Some. Qed.

(** What a failover that is possible does. *)
Lemma replace_known a limit s :
  reachable s → room 2 s → is_Some (all_proxies s !! a) →
  ∃ s' r, replace_failed_proxy a limit s = (s', r) ∧ reachable s' ∧ (global_epoch s' ≤ global_epoch s + 2)%N ∧
    replace_effect a s r s'.
Proof.
  intros Hs Hroom Ha. pose proof (replace_failed_proxy_step a limit s (reachable_wf s Hs) Hroom) as Hwp.
  pose proof (reach_exec _ (ReplaceFailedProxy a limit) s Hs Hroom I) as Hs'. rewrite exec_replace in Hs'. unfold wp in Hwp.
  destruct (replace_failed_proxy a limit s) as [s' r] eqn:Heq. cbn [fst] in Hs'. exists s', r.
  assert (step_ok 2 s s' ∧ replace_effect a s r s') as [(_ & _ & Hg) Heff] by (destruct r; [naive_solver..|done]).
  split_and!; [done|done|cbn in Hg; lia|done].
Qed.

Lemma failovers_cons limit a l s s' r :
  replace_failed_proxy a limit s = (s', r) → failovers limit (a :: l) s = failovers limit l s'.
Proof. intros Heq. unfold failovers. cbn [foldl]. by rewrite exec_replace, Heq. Qed.

Lemma failovers_known limit l s :
  reachable s → room (2 * N.of_nat (length l)) s → (∀ a, a ∈ l → is_Some (all_proxies s !! a)) →
  let s' := failovers limit l s in
  reachable s' ∧ (global_epoch s' ≤ global_epoch s + 2 * N.of_nat (length l))%N ∧
  pr_host <$> all_proxies s' = pr_host <$> all_proxies s ∧ dom (layouts s') = dom (layouts s) ∧
  enable_ordered_proxy s' = enable_ordered_proxy s ∧ ∀ a, out_of_service s a → out_of_service s' a.
Proof.
  revert s. induction l as [|a l IH]; intros s Hs Hroom Hl; [intros s'; split_and!; [done|cbn; lia|done..]|].
  destruct (replace_known a limit s Hs) as (s1 & r & Heq & Hs1 & Hg & Hh & Hd & Ho & Hk & _);
    [unfold room in *; cbn in *; lia|apply Hl; by left|].
  rewrite (failovers_cons _ _ _ _ _ _ Heq). destruct (IH s1 Hs1) as (H1 & H2 & H3 & H4 & H5 & H6).
  - unfold room in *. cbn [length] in *. lia.
  - intros b Hb. apply (known_hosts s s1 b Hh), Hl. by right.
  - split_and!; [done|cbn [length]; lia|congruence..|auto].
Qed.

(** How the failover of a list of proxies ends. *)
Inductive failover_result (limit : N) (l : list string) (s : MetaStore) : bool → Prop :=
| all_replaced :
    reachable (failovers limit l s) → Forall (out_of_service (failovers limit l s)) l →
    pr_host <$> all_proxies (failovers limit l s) = pr_host <$> all_proxies s →
    dom (layouts (failovers limit l s)) = dom (layouts s) → failover_result limit l s true
| out_of_proxies pre a post :
    l = pre ++ a :: post → Forall (out_of_service (failovers limit pre s)) pre →
    (exec (ReplaceFailedProxy a limit) (failovers limit pre s)).2 = Err NoAvailableResource → failover_result limit l s false.

(** The check of a host finds out which. *)
Lemma one_host_spec limit l s :
  reachable s → enable_ordered_proxy s = false → room (2 * N.of_nat (length l)) s → (∀ a, a ∈ l → is_Some (all_proxies s !! a)) →
  ∃ b, check_failure_tolerance_for_one_host l limit s = Ok b ∧ failover_result limit l s b.
Proof.
  intros Hs Hord Hroom Hl. destruct (failovers_known limit l s Hs Hroom Hl) as (Hs' & _ & Hh' & Hd' & _).
  cut (∃ b, check_failure_tolerance_for_one_host l limit s = Ok b ∧
         if b : bool then Forall (out_of_service (failovers limit l s)) l else failover_result limit l s false).
  { intros (b & Hb & Hres). exists b. split; [done|]. destruct b; [|done]. by constructor. }
  clear Hs' Hh' Hd'. revert s Hs Hord Hroom Hl. induction l as [|a l IH]; intros s Hs Hord Hroom Hl; [by exists true|].
  destruct (replace_known a limit s Hs) as (s1 & r & Heq & Hs1 & Hg & Hh & Hd & Ho & Hk & Hr);
    [unfold room in *; cbn in *; lia|apply Hl; by left|].
  cbn [check_failure_tolerance_for_one_host]. rewrite Heq.
  destruct Hr as [[-> _]|(o & -> & Hout)]; [apply Hl; by left|..].
  { exists false. split; [done|]. apply (out_of_proxies _ _ _ [] a l); [done|done|]. change (failovers limit [] s) with s. by rewrite exec_replace, Heq. }
  assert (room (2 * N.of_nat (length l)) s1) as Hroom1 by (unfold room in *; cbn [length] in *; lia).
  assert (∀ b, b ∈ l → is_Some (all_proxies s1 !! b)) as Hl1 by (intros b Hb; apply (known_hosts s s1 b Hh), Hl; by right).
  assert (out_of_service s1 a) as Ha by (destruct Hout as [?|?]; [congruence|done]).
  pose proof (λ l', failovers_cons limit a l' _ _ _ Heq) as Hstep.
  destruct (IH s1 Hs1) as (b & Hb & Hres); [congruence|done|done|]. exists b. split; [done|].
  destruct b; [|inversion Hres as [|pre x post Hpre Hall Hx]; subst].
  - rewrite Hstep. constructor; [|done]. by apply (failovers_known limit l s1).
  - apply (out_of_proxies _ _ _ (a :: pre) x post); rewrite ?Hstep; [done| |done].
    constructor; [|done]. apply (failovers_known limit pre s1); [done| |intros b Hb'; apply Hl1; set_solver|done].
    unfold room in *. rewrite length_app in Hroom1. cbn in Hroom1. lia.
Qed.

(** Ordered proxies are never replaced by others. *)
Lemma one_host_ordered limit l s :
  reachable s → enable_ordered_proxy s = true → room (2 * N.of_nat (length l)) s → (∀ a, a ∈ l → is_Some (all_proxies s !! a)) →
  check_failure_tolerance_for_one_host l limit s = Ok true.
Proof.
  revert s. induction l as [|a l IH]; intros s Hs Hord Hroom Hl; [done|].
  destruct (replace_known a limit s Hs) as (s1 & r & Heq & Hs1 & Hg & Hh & Hd & Ho & Hk & Hr);
    [unfold room in *; cbn in *; lia|apply Hl; by left|].
  cbn [check_failure_tolerance_for_one_host]. rewrite Heq.
  destruct Hr as [[_ ?]|(o & -> & _)]; [apply Hl; by left|congruence|]. apply IH; [done|congruence|..].
  - unfold room in *. cbn [length] in *. lia.
  - intros b Hb. apply (known_hosts s s1 b Hh), Hl. by right.
Qed.

(** ** The proxies of a host *)

Definition proxies_of (h : string) (l : list (string * ProxyResource)) : list string := (filter (λ kv, pr_host kv.2 = h) l).*1.

Lemma proxy_map_lookup s h :
  proxy_map s !! h = match proxies_of h (hash_iter (all_proxies s)) with [] => None | l => Some l end.
Proof.
  unfold proxy_map. induction (hash_iter (all_proxies s)) as [|[a pr] l IH] using rev_ind; [done|].
  rewrite foldl_app. cbn [foldl fst snd]. set (m := foldl _ ∅ l) in *.
  unfold proxies_of in *. rewrite filter_app, fmap_app. destruct (decide (pr_host pr = h)) as [<-|Hne].
  - rewrite lookup_insert_eq, IH, filter_cons_True, filter_nil by done. by destruct (filter _ l).*1.
  - rewrite lookup_insert_ne, IH, filter_cons_False, filter_nil, app_nil_r by done. done.
Qed.

Lemma elem_of_proxies_of s h a :
  a ∈ proxies_of h (hash_iter (all_proxies s)) ↔ ∃ pr, all_proxies s !! a = Some pr ∧ pr_host pr = h.
Proof.
  unfold proxies_of. rewrite list_elem_of_fmap. split.
  - intros ([b pr] & -> & [Hh Hin%elem_of_hash_iter]%list_elem_of_filter). eauto.
  - intros (pr & Ha & Hh). exists (a, pr). split; [done|]. apply list_elem_of_filter. by rewrite elem_of_hash_iter.
Qed.

Lemma proxies_of_length s h : length (proxies_of h (hash_iter (all_proxies s))) ≤ size (all_proxies s).
Proof.
  unfold proxies_of. rewrite length_fmap. etransitivity; [apply length_filter|].
  by rewrite hash_iter_perm, length_map_to_list.
Qed.

Lemma NoDup_proxies_of s h : NoDup (proxies_of h (hash_iter (all_proxies s))).
Proof. apply NoDup_fmap_filter, NoDup_hash_keys. Qed.

(** ** All hosts *)

Definition refused (limit : N) (s : MetaStore) (l : list string) : bool :=
  match check_failure_tolerance_for_one_host l limit s with Ok false => true | _ => false end.

Lemma check_hosts_spec limit s l : ∀ hosts,
  (∀ h ps, (h, ps) ∈ l → ∃ b, check_failure_tolerance_for_one_host ps limit s = Ok b) →
  check_hosts limit s l hosts =
    Ok (hosts ++ (filter (λ kv, refused limit s kv.2 = true) l).*1).
Proof.
  induction l as [|[h ps] l IH]; intros hosts Hl; [cbn; by rewrite app_nil_r|].
  destruct (Hl h ps) as [b Hb]; [by left|]. cbn [check_hosts]. rewrite Hb. cbn [mbind outcome_bind].
  rewrite IH by (intros; eapply Hl; by right). f_equal. destruct b.
  - rewrite filter_cons_False; [done|]. cbn. unfold refused. by rewrite Hb.
  - rewrite filter_cons_True by (cbn; unfold refused; by rewrite Hb). cbn. by rewrite <- app_assoc.
Qed.

Lemma elem_of_proxy_map s h l :
  (h, l) ∈ hash_iter (proxy_map s) ↔ l = proxies_of h (hash_iter (all_proxies s)) ∧ l ≠ [].
Proof.
  rewrite elem_of_hash_iter, proxy_map_lookup. destruct (proxies_of _ _); split; try done; [by intros [-> ?]|by intros [= <-]|].
  by intros [-> _].
Qed.

Lemma elem_of_refused limit s h :
  h ∈ (filter (λ kv, refused limit s kv.2 = true) (hash_iter (proxy_map s))).*1 ↔
  refused limit s (proxies_of h (hash_iter (all_proxies s))) = true.
Proof.
  rewrite list_elem_of_fmap. split.
  - by intros ([h' l] & -> & [Hr [-> _]%elem_of_proxy_map]%list_elem_of_filter).
  - intros Hr. exists (h, proxies_of h (hash_iter (all_proxies s))). split; [done|].
    apply list_elem_of_filter. split; [done|]. apply elem_of_proxy_map. split; [done|]. intros Hnil. by rewrite Hnil in Hr.
Qed.

(** All is well after the failover of a host: every cluster is still there and
    has no proxy of the host. *)
Definition host_left (host : string) (s s' : MetaStore) : Prop :=
  reachable s' ∧ dom (clusters s') = dom (clusters s) ∧
  ∀ name cs a pr, clusters s' !! name = Some cs → a ∈ chunk_addresses (cs_chunks cs) → all_proxies s' !! a = Some pr → pr_host pr ≠ host.

Lemma all_replaced_left host limit l s :
  (∀ a, a ∈ l ↔ ∃ pr, all_proxies s !! a = Some pr ∧ pr_host pr = host) → failover_result limit l s true →
  host_left host s (failovers limit l s).
Proof.
  intros Hl Hres. inversion Hres as [Hs' Hout Hh Hd|]. split_and!; [done| |].
  - unfold layouts in Hd. by rewrite !dom_fmap_L in Hd.
  - intros name cs a pr Hcs Hin Ha Hhost.
    assert ((pr_host <$> all_proxies s) !! a = Some host) as Hx by (rewrite <- Hh, lookup_fmap, Ha; cbn; by f_equal).
    rewrite lookup_fmap in Hx. destruct (all_proxies s !! a) as [pr0|] eqn:Ha0; [|done]. injection Hx as Hx.
    assert (a ∈ l) as [_ (pr' & Ha' & Hnone)]%(proj1 (Forall_forall _ _) Hout) by (apply Hl; eauto).
    eapply free_absent; [by apply reachable_wf|exact Ha'|done|exact Hcs|done].
Qed.
End resource.

(** C32. The resource check is right for one order of the failovers: on a
    store with room for the epochs it returns a list of hosts without
    duplicates.  When a host that is not in the list fails, then the failover
    of its proxies, in the order in which the check has taken them, succeeds,
    and every cluster is still there, has all its slots and uses no proxy of
    the host; when a host of the list fails, one of the failovers in this
    order finds no proxy.  Nothing is said of other orders.  With ordered
    proxies, which are not replaced, the list is empty whatever happens when a
    host fails. *)
Theorem failure_tolerance_correct `{HashOrder} `{UnicodeCase} s limit :
  reachable s → room (2 * N.of_nat (size (all_proxies s))) s →
  ∃ hosts, check_failure_tolerance limit s = Ok hosts ∧ NoDup hosts ∧ (enable_ordered_proxy s = true → hosts = []) ∧
    (enable_ordered_proxy s = false → ∀ host, ∃ l, NoDup l ∧
      (∀ a, a ∈ l ↔ ∃ pr, all_proxies s !! a = Some pr ∧ pr_host pr = host) ∧
      if bool_decide (host ∈ hosts) then
        ∃ pre a post, l = pre ++ a :: post ∧ (exec (ReplaceFailedProxy a limit) (failovers limit pre s)).2 = Err NoAvailableResource
      else host_left host s (failovers limit l s)).
Proof.
  intros Hs Hroom. assert (∀ h, let l := proxies_of h (hash_iter (all_proxies s)) in
    room (2 * N.of_nat (length l)) s ∧ ∀ a, a ∈ l → is_Some (all_proxies s !! a)) as Hl.
  { intros h. split.
    - pose proof (proxies_of_length s h). unfold room in *. lia.
    - intros a (pr & Ha & _)%elem_of_proxies_of. eauto. }
  unfold check_failure_tolerance. rewrite check_hosts_spec.
  2: { intros h ps [-> _]%elem_of_proxy_map. destruct (Hl h). destruct (enable_ordered_proxy s) eqn:Hord.
       - exists true. by apply one_host_ordered.
       - destruct (one_host_spec limit (proxies_of h (hash_iter (all_proxies s))) s) as (b & ? & _); eauto. }
  eexists. split; [done|]. cbn [app]. split_and!; [apply NoDup_fmap_filter, NoDup_hash_keys|..].
  - intros Hord. apply elem_of_nil_inv. intros h Hh%elem_of_refused. unfold refused in Hh. destruct (Hl h).
    by rewrite one_host_ordered in Hh.
  - intros Hord h. exists (proxies_of h (hash_iter (all_proxies s))). destruct (Hl h) as [Hr Hin].
    split_and!; [apply NoDup_proxies_of|intros a; apply elem_of_proxies_of|].
    rewrite (bool_decide_ext _ _ (elem_of_refused limit s h)). unfold refused.
    destruct (one_host_spec limit _ s Hs Hord Hr Hin) as ([] & -> & Hres).
    + rewrite bool_decide_eq_false_2 by done. apply all_replaced_left; [intros a; apply elem_of_proxies_of|done].
    + rewrite bool_decide_eq_true_2 by done. inversion Hres as [|pre a post Hpre _ Hx]. eauto.
Qed.

Lemma failure_tolerance_correct_witness :
  ∃ l, host_left (H0 := ascii_case) "a" Reach.demo_store (failovers (H := canonical_order) (H0 := ascii_case) 1 l Reach.demo_store).
Proof.
  destruct (failure_tolerance_correct (H := canonical_order) (H0 := ascii_case) Reach.demo_store 1) as (hosts & Hok & _ & _ & Hhost).
  - exact demo_reachable.
  - vm_compute. reflexivity.
  - assert (check_failure_tolerance (H := canonical_order) 1 Reach.demo_store = Ok []) as Hnone by (vm_compute; reflexivity).
    assert (hosts = []) as -> by congruence.
    destruct (Hhost ltac:(vm_compute; reflexivity) "a") as (l & _ & _ & Hleft). exists l. exact Hleft.
Defined.
