(* ===== verification/Api.v ===== *)
(** * The HTTP interface of the broker

    The routes and the handlers of [broker/service.rs]: which request reaches
    which handler, the call to the storage that it makes, and the status and
    the body of its answer.  HTTP and JSON are those of warp and serde: a
    request is its method, its path and its payload, decoded. *)

From S2P Require Import Prelude RangeList RustStr ClusterMeta Store SlotInv Query Migrate Plan.
From S2P Require Import Balance Commit ChunkAlloc Update Registry NewChunks Failover Broker Reach Resource.

(** ** Requests *)

Inductive Method : Type := GET | POST | PUT | PATCH | DELETE.
#[global] Instance Method_eq_dec : EqDecision Method.
Proof. solve_decision. Defined.

(** The query string of a listing and the JSON bodies. *)
Inductive Payload : Type :=
| NoPayload
| PagePayload (offset limit : option nat)
| NumberPayload (node_number : nat)
| ClusterNumberPayload (cluster_node_number : nat)
| ConfigPayload (config : gmap string string)
| ProxyResourcePayload (proxy_address : string) (nodes : arr2 string) (host : option string) (index : option N)
| TaskPayload (task : MigrationTaskMeta)
| StorePayload (store : MetaStore)
| MemBrokerConfigPayload (replica_addresses : list string).

Record HttpRequest : Type := mkHttpRequest { rq_method : Method; rq_path : string; rq_payload : Payload }.

(** What the handlers are called with. *)
Inductive Endpoint : Type :=
| GetVersion
| GetMetadata
| PutMetadata (store : MetaStore)
| GetNames (offset limit : option nat)
| GetClusterMeta (name : string)
| GetAddresses (offset limit : option nat)
| GetProxyMeta (address : string)
| GetFailuresList
| PostFailure (address reporter_id : string)
| PostFailover (address : string)
| PutMigration (task : MigrationTaskMeta)
| GetFailedAddresses
| GetInfo (name : string)
| PostCluster (name : string) (node_number : nat)
| DeleteCluster (name : string)
| PatchNodes (name : string) (node_number : nat)
| PutNodes (name : string) (cluster_node_number : nat)
| DeleteFreeNodes (name : string)
| PostShrink (name : string) (new_node_num : nat)
| PostExpand (name : string)
| PostAuto (name : string) (new_node_num : nat)
| PatchConfig (name : string) (config : gmap string string)
| PutBalance (name : string)
| PostProxy (proxy_address : string) (nodes : arr2 string) (host : option string) (index : option N)
| DeleteProxy (address : string)
| PostCheck
| PutBrokerConfig (replica_addresses : list string)
| GetBrokerConfig
| GetEpoch
| PutRecovery
| PutEpoch (new_epoch : N).

(** ** Routes *)

Inductive Seg : Type := Lit (s : string) | PStr | PNum.
Inductive Value : Type := VStr (s : string) | VNum (n : N).

(** A segment of a path; a [String] parameter is not empty. *)
Definition match_seg (p : Seg) (s : string) : option (list Value) :=
  match p with
  | Lit l => if bool_decide (s = l) then Some [] else None
  | PStr => if bool_decide (s = "") then None else Some [VStr s]
  | PNum => n ← parse_u64 s; Some [VNum n]
  end.

(** [warp::path!] matches the whole path, [warp::path] the beginning. *)
Fixpoint match_path (ps : list Seg) (whole : bool) (segs : list string) : option (list Value) :=
  match ps, segs with
  | [], _ => if whole && negb (bool_decide (segs = [])) then None else Some []
  | p :: ps, s :: segs => v ← match_seg p s; vs ← match_path ps whole segs; Some (v ++ vs)
  | _ :: _, [] => None
  end.

Record Route : Type := mkRoute {
  ro_method : Method;
  ro_path : list Seg;
  ro_whole : bool;
  ro_call : list Value → Payload → option Endpoint;
}.

Definition MEM_BROKER_API_VERSION : string := "v3".

(** The handlers in the order of [run_server]. *)
Definition page (p : Payload) : option (option nat * option nat) :=
  match p with PagePayload offset limit => Some (offset, limit) | NoPayload => Some (None, None) | _ => None end.

Definition routes : list Route := [
  mkRoute GET [Lit "version"] false (λ _ _, Some GetVersion);
  mkRoute GET [Lit "metadata"] false (λ _ _, Some GetMetadata);
  mkRoute PUT [Lit "metadata"] false (λ _ p, match p with StorePayload s => Some (PutMetadata s) | _ => None end);
  mkRoute GET [Lit "clusters"; Lit "names"] true (λ _ p, '(o, l) ← page p; Some (GetNames o l));
  mkRoute GET [Lit "clusters"; Lit "meta"; PStr] true (λ vs _, match vs with [VStr n] => Some (GetClusterMeta n) | _ => None end);
  mkRoute GET [Lit "proxies"; Lit "addresses"] true (λ _ p, '(o, l) ← page p; Some (GetAddresses o l));
  mkRoute GET [Lit "proxies"; Lit "meta"; PStr] true (λ vs _, match vs with [VStr a] => Some (GetProxyMeta a) | _ => None end);
  mkRoute GET [Lit "failures"] false (λ _ _, Some GetFailuresList);
  mkRoute POST [Lit "failures"; PStr; PStr] true
    (λ vs _, match vs with [VStr a; VStr r] => Some (PostFailure a r) | _ => None end);
  mkRoute POST [Lit "proxies"; Lit "failover"; PStr] true (λ vs _, match vs with [VStr a] => Some (PostFailover a) | _ => None end);
  mkRoute PUT [Lit "clusters"; Lit "migrations"] true (λ _ p, match p with TaskPayload t => Some (PutMigration t) | _ => None end);
  mkRoute GET [Lit "proxies"; Lit "failed"; Lit "addresses"] true (λ _ _, Some GetFailedAddresses);
  mkRoute GET [Lit "clusters"; Lit "info"; PStr] true (λ vs _, match vs with [VStr n] => Some (GetInfo n) | _ => None end);
  mkRoute POST [Lit "clusters"; Lit "meta"; PStr] true
    (λ vs p, match vs, p with [VStr n], NumberPayload k => Some (PostCluster n k) | _, _ => None end);
  mkRoute DELETE [Lit "clusters"; Lit "meta"; PStr] true (λ vs _, match vs with [VStr n] => Some (DeleteCluster n) | _ => None end);
  mkRoute PATCH [Lit "clusters"; Lit "nodes"; PStr] true
    (λ vs p, match vs, p with [VStr n], NumberPayload k => Some (PatchNodes n k) | _, _ => None end);
  mkRoute PUT [Lit "clusters"; Lit "nodes"; PStr] true
    (λ vs p, match vs, p with [VStr n], ClusterNumberPayload k => Some (PutNodes n k) | _, _ => None end);
  mkRoute DELETE [Lit "clusters"; Lit "free_nodes"; PStr] true
    (λ vs _, match vs with [VStr n] => Some (DeleteFreeNodes n) | _ => None end);
  mkRoute POST [Lit "clusters"; Lit "migrations"; Lit "shrink"; PStr; PNum] true
    (λ vs _, match vs with [VStr n; VNum k] => Some (PostShrink n (N.to_nat k)) | _ => None end);
  mkRoute POST [Lit "clusters"; Lit "migrations"; Lit "expand"; PStr] true
    (λ vs _, match vs with [VStr n] => Some (PostExpand n) | _ => None end);
  mkRoute POST [Lit "clusters"; Lit "migrations"; Lit "auto"; PStr; PNum] true
    (λ vs _, match vs with [VStr n; VNum k] => Some (PostAuto n (N.to_nat k)) | _ => None end);
  mkRoute PATCH [Lit "clusters"; Lit "config"; PStr] true
    (λ vs p, match vs, p with [VStr n], ConfigPayload c => Some (PatchConfig n c) | _, _ => None end);
  mkRoute PUT [Lit "clusters"; Lit "balance"; PStr] true (λ vs _, match vs with [VStr n] => Some (PutBalance n) | _ => None end);
  mkRoute POST [Lit "proxies"; Lit "meta"] true
    (λ _ p, match p with ProxyResourcePayload a ns h i => Some (PostProxy a ns h i) | _ => None end);
  mkRoute DELETE [Lit "proxies"; Lit "meta"; PStr] true (λ vs _, match vs with [VStr a] => Some (DeleteProxy a) | _ => None end);
  mkRoute POST [Lit "resources"; Lit "failures"; Lit "check"] true (λ _ _, Some PostCheck);
  mkRoute PUT [Lit "config"] false (λ _ p, match p with MemBrokerConfigPayload l => Some (PutBrokerConfig l) | _ => None end);
  mkRoute GET [Lit "config"] false (λ _ _, Some GetBrokerConfig);
  mkRoute GET [Lit "epoch"] false (λ _ _, Some GetEpoch);
  mkRoute PUT [Lit "epoch"; Lit "recovery"] true (λ _ _, Some PutRecovery);
  mkRoute PUT [Lit "epoch"; PNum] true (λ vs _, match vs with [VNum e] => Some (PutEpoch e) | _ => None end)
].

Definition try_route (r : Route) (method : Method) (segs : list string) (p : Payload) : option Endpoint :=
  if bool_decide (ro_method r = method) then vs ← match_path (ro_path r) (ro_whole r) segs; ro_call r vs p else None.

Fixpoint first_route (rs : list Route) (method : Method) (segs : list string) (p : Payload) : option Endpoint :=
  match rs with
  | [] => None
  | r :: rs => match try_route r method segs p with Some e => Some e | None => first_route rs method segs p end
  end.

Definition route (rq : HttpRequest) : option Endpoint :=
  match split "/" (rq_path rq) with
  | empty :: api :: version :: segs =>
      if bool_decide (empty = "" ∧ api = "api" ∧ version = MEM_BROKER_API_VERSION)
      then first_route routes (rq_method rq) segs (rq_payload rq) else None
  | _ => None
  end.

(** ** Answers *)

(** The JSON bodies of the answers; [Text] and [Empty] are no JSON objects. *)
Inductive Body : Type :=
| Text (s : string)
| Empty
| StoreBody (s : MetaStore)
| ClusterNamesPayload (names : list ClusterName)
| ClusterPayload (cluster : option Cluster)
| AddressesPayload (addresses : list string)
| ProxyPayload (proxy : option Proxy)
| InfoBody (info : ClusterInfo)
| NodesBody (nodes : list Node)
| HostsPayload (hosts_cannot_fail : list string)
| ConfigBody (replica_addresses : list string)
| EpochBody (epoch : N)
| RecoverEpochResult (failed_addresses : list string)
| ErrorBody (e : MetaStoreError).

Record Response : Type := mkResponse { rs_status : N; rs_body : Body }.

Definition status_code (e : MetaStoreError) : N :=
  match e with
  | ClusterNotFound | FreeNodeNotFound | ProxyNotFound | MigrationTaskNotFound => 404
  | InvalidNodeNum | InvalidClusterName | InvalidMigrationTask | InvalidProxyAddress | InvalidConfig _ _ _ | SlotsAlreadyEven
  | MissingIndex => 400
  | InUse | NotInUse | NoAvailableResource | ResourceNotBalance | AlreadyExisted | FreeNodeFound | NodeNumAlreadyEnough
  | MigrationRunning | InvalidMetaVersion | SmallEpoch | ProxyResourceOutOfOrder | OrderedProxyEnabled | OneClusterAlreadyExisted
  | NodeNumberChanging | Retry => 409
  | SyncError _ | ProxyNotSync | External | EmptyExternalVersion => 500
  | ExternalTimeout => 504
  end.

(** A handler that panics gives no answer. *)
Definition warp_json (r : res Body) : option Response :=
  match r with
  | Ok b => Some (mkResponse 200 b)
  | Err e => Some (mkResponse (status_code e) (ErrorBody e))
  | Panic => None
  end.

(** ** Handlers *)

Record MemBrokerConfig : Type := mkMemBrokerConfig {
  bc_failure_quorum : nat;
  bc_migration_limit : N;
  bc_auto_update_meta_file : bool;
  bc_default_cluster_config : ClusterConfig;
}.

Definition body_of {A} (f : A → Body) (m : SM A) : SM Body := a ← m; mret (f a).
Definition read_of {A} (f : A → Body) (m : MetaStore → res A) : SM Body := λ s, (s, f <$> m s).

Section calls.
Context `{HashOrder} `{UnicodeCase}.
(** The version of the package; the time of a report and of the test of the
    reports. *)
Context (undermoon_version : string) (config : MemBrokerConfig) (now : Z) (fresh : Z → bool).

Definition empty_of (m : SM ()) : SM Body := body_of (λ _, Empty) m.

(** The requests that read, and [get_failures], which drops old reports. *)
Definition read_call (e : Endpoint) : option (SM Body) :=
  match e with
  | GetVersion => Some (mret (Text undermoon_version))
  | GetMetadata => Some (read_of StoreBody (λ s, Ok s))
  | GetNames offset limit => Some (read_of ClusterNamesPayload (λ s, Ok (get_cluster_names_with_pagination s offset limit)))
  | GetClusterMeta name => Some (read_of ClusterPayload (λ s, get_cluster_by_name s name (bc_migration_limit config)))
  | GetAddresses offset limit => Some (read_of AddressesPayload (λ s, Ok (get_proxies_with_pagination s offset limit)))
  | GetProxyMeta address => Some (read_of ProxyPayload (λ s, get_proxy_by_address s address (bc_migration_limit config)))
  | GetInfo name =>
      Some (read_of InfoBody (λ s,
        o ← get_cluster_info_by_name s name (bc_migration_limit config); ok_or o ClusterNotFound))
  | GetFailuresList => Some (λ s, let '(s', l) := get_failures fresh (bc_failure_quorum config) s in (s', Ok (AddressesPayload l)))
  | GetFailedAddresses => Some (read_of AddressesPayload (λ s, Ok (get_failed_proxies s)))
  | PostCheck => Some (read_of HostsPayload (check_failure_tolerance (bc_migration_limit config)))
  | GetEpoch => Some (read_of EpochBody (λ s, Ok (global_epoch s)))
  | _ => None
  end.

(** The requests that change the store, each with one call to the storage. *)
Definition write_call (e : Endpoint) : option (SM Body) :=
  match e with
  | PutMetadata store => Some (empty_of (restore store))
  | PostFailure address reporter_id => Some (empty_of (exec (AddFailure now address reporter_id)))
  | PostFailover address => Some (body_of ProxyPayload (replace_failed_proxy address (bc_migration_limit config)))
  | PutMigration task => Some (empty_of (exec (CommitMigration task false)))
  | PostCluster name n => Some (empty_of (exec (AddCluster name n (bc_default_cluster_config config))))
  | DeleteCluster name => Some (empty_of (exec (RemoveCluster name)))
  | PatchNodes name n => Some (body_of NodesBody (auto_add_nodes name n))
  | PutNodes name n => Some (body_of NodesBody (auto_scale_up_nodes name n))
  | DeleteFreeNodes name => Some (empty_of (exec (AutoDeleteFreeNodes name)))
  | PostShrink name n => Some (empty_of (exec (MigrateSlotsToScaleDown name n)))
  | PostExpand name => Some (empty_of (exec (MigrateSlots name)))
  | PatchConfig name c => Some (empty_of (exec (ChangeConfig name c)))
  | PutBalance name => Some (empty_of (exec (BalanceMasters name)))
  | PostProxy address nodes host index => Some (empty_of (exec (AddProxy address nodes host index)))
  | DeleteProxy address => Some (empty_of (exec (RemoveProxy address)))
  | PutEpoch new_epoch => Some (empty_of (exec (ForceBumpAllEpoch new_epoch)))
  | _ => None
  end.
End calls.

(** The requests that hold the [scale_lock]. *)
Definition needs_scale_lock (e : Endpoint) : bool :=
  match e with
  | PatchNodes _ _ | PutNodes _ _ | DeleteFreeNodes _ | PostExpand _ | PostShrink _ _ | PostAuto _ _ => true
  | _ => false
  end.

(** Whether the handler calls [trigger_update] after the result [r] of its
    call. *)
Definition triggers_update (e : Endpoint) (r : res Body) : bool :=
  match e, r with
  | _, Panic => false
  | (PostProxy _ _ _ _ | PostFailover _), _ => true
  | PutMetadata _, _ => false
  | (PostFailure _ _ | PutMigration _ | PostCluster _ _ | DeleteCluster _ | PatchNodes _ _ | PutNodes _ _ | DeleteFreeNodes _
    | PostShrink _ _ | PostExpand _ | PostAuto _ _ | PatchConfig _ _ | PutBalance _ | DeleteProxy _ | PutEpoch _), Ok _ => true
  | _, _ => false
  end.

(** The result with that of [trigger_update]; a failed failover is reported
    first, a failed registration last. *)
Definition with_update (e : Endpoint) (r : res Body) (update : res ()) : res Body :=
  match e with
  | PostFailover _ => b ← r; _ ← update; Ok b
  | _ => _ ← update; r
  end.

(** ** No route hides another one *)

Definition seg_overlap (p q : Seg) : bool :=
  match p, q with
  | Lit a, Lit b => bool_decide (a = b)
  | Lit a, PStr | PStr, Lit a => negb (bool_decide (a = ""))
  | Lit a, PNum | PNum, Lit a => bool_decide (is_Some (parse_u64 a))
  | _, _ => true
  end.

Fixpoint overlap (ps : list Seg) (whole : bool) (qs : list Seg) (whole' : bool) : bool :=
  match ps, qs with
  | [], [] => true
  | [], _ :: _ => negb whole
  | _ :: _, [] => negb whole'
  | p :: ps, q :: qs => seg_overlap p q && overlap ps whole qs whole'
  end.

Definition routes_overlap (r r' : Route) : bool :=
  bool_decide (ro_method r = ro_method r') && overlap (ro_path r) (ro_whole r) (ro_path r') (ro_whole r').

Lemma seg_overlap_sound p q s v v' : match_seg p s = Some v → match_seg q s = Some v' → seg_overlap p q = true.
Proof.
  assert (∀ s v, match_seg PNum s = Some v → is_Some (parse_u64 s)) as Hnum.
  { intros t w. cbn. destruct (parse_u64 t); [eauto|done]. }
  destruct p as [a| |], q as [b| |]; intros Hp Hq; try done; cbn [seg_overlap];
    try (apply Hnum in Hp); try (apply Hnum in Hq); cbn in Hp, Hq; repeat case_bool_decide; by simplify_eq.
Qed.

Lemma overlap_sound ps whole qs whole' segs : ∀ vs vs',
  match_path ps whole segs = Some vs → match_path qs whole' segs = Some vs' → overlap ps whole qs whole' = true.
Proof.
  revert qs segs. induction ps as [|p ps IH]; intros [|q qs] [|s segs] vs vs'; cbn; try done.
  - by destruct whole.
  - by destruct whole'.
  - destruct (match_seg p s) as [v|] eqn:Hp; [|done]. destruct (match_seg q s) as [v'|] eqn:Hq; [|done]. cbn.
    destruct (match_path ps whole segs) as [w|] eqn:Hps; [|done].
    destruct (match_path qs whole' segs) as [w'|] eqn:Hqs; [|done].
    intros _ _. rewrite (seg_overlap_sound _ _ _ _ _ Hp Hq). by eapply IH.
Qed.

Lemma try_route_overlap r r' method segs p e e' :
  try_route r method segs p = Some e → try_route r' method segs p = Some e' → routes_overlap r r' = true.
Proof.
  unfold try_route, routes_overlap. case_bool_decide as Hm; [|done]. case_bool_decide as Hm'; [|done].
  rewrite bool_decide_eq_true_2 by congruence.
  destruct (match_path (ro_path r) _ segs) as [vs|] eqn:Hr; [|done].
  destruct (match_path (ro_path r') _ segs) as [vs'|] eqn:Hr'; [|done]. intros _ _. by eapply overlap_sound.
Qed.

(** The routes that overlap one another, by their positions. *)
Definition overlaps (rs : list Route) : list (nat * nat) :=
  filter (λ ij, ij.1 ≠ ij.2)
    (mjoin (imap (λ i r, omap id (imap (λ j r', if routes_overlap r r' then Some (i, j) else None) rs)) rs)).

Lemma elem_of_overlaps rs i j r r' :
  rs !! i = Some r → rs !! j = Some r' → routes_overlap r r' = true → i ≠ j → (i, j) ∈ overlaps rs.
Proof.
  intros Hi Hj Ho Hne. apply list_elem_of_filter. split; [done|]. apply list_elem_of_join.
  eexists. split; [|apply (list_elem_of_lookup_2 _ i); by rewrite list_lookup_imap, Hi].
  apply list_elem_of_omap. exists (Some (i, j)). split; [|done].
  apply (list_elem_of_lookup_2 _ j). rewrite list_lookup_imap, Hj. cbn. by rewrite Ho.
Qed.

Lemma routes_apart : overlaps routes = [].
Proof. vm_compute. reflexivity. Qed.

(** Every request of the broker is served by at most one handler: no
    handler hides another one, whatever the order in which they are tried. *)
Theorem routes_unambiguous method segs p i j r r' e e' :
  routes !! i = Some r → routes !! j = Some r' →
  try_route r method segs p = Some e → try_route r' method segs p = Some e' → i = j ∧ e = e'.
Proof.
  intros Hi Hj Hr Hr'. assert (i = j) as <-.
  { destruct (decide (i = j)) as [|Hne]; [done|]. exfalso.
    pose proof (elem_of_overlaps _ _ _ _ _ Hi Hj (try_route_overlap _ _ _ _ _ _ _ Hr Hr') Hne) as Hin.
    rewrite routes_apart in Hin. by apply not_elem_of_nil in Hin. }
  split; [done|]. congruence.
Qed.
