(* ===== verification/Service.v ===== *)
(** * The broker as a service

    [broker/service.rs] with [persistence.rs] and [epoch.rs]: the handlers of
    the requests run concurrently on one store in memory.  The requests that
    change the number of nodes hold a lock, the one that scales a cluster in
    two phases waits for the proxies between them, and a change is written to
    the meta file before it is acknowledged. *)

From S2P Require Import Prelude RangeList RustStr ClusterMeta Store SlotInv Query Migrate Plan.
From S2P Require Import Balance Commit ChunkAlloc Update Registry NewChunks Failover Broker Reach Resource Api.

(** ** Epochs of the proxies ([epoch.rs]) *)

(** The results of [fetch_proxy_epoch]: the epoch, or the address. *)
Definition epoch_results (epoch_of : string → option N) (proxy_addresses : list string) : list (outcome string N) :=
  (λ a, ok_or (epoch_of a) a) <$> proxy_addresses.

Record EpochFetchResult : Type := mkEpochFetchResult { ef_max_epoch : N; ef_failed_addresses : list string }.

Definition fetch_max_epoch (results : list (outcome string N)) : EpochFetchResult :=
  foldl (λ r x, match x with
                | Ok epoch => mkEpochFetchResult (N.max (ef_max_epoch r) epoch) (ef_failed_addresses r)
                | Err address => mkEpochFetchResult (ef_max_epoch r) (ef_failed_addresses r ++ [address])
                | Panic => r
                end) (mkEpochFetchResult 0 []) results.

Definition fetch_min_epoch (results : list (outcome string N)) : outcome string N :=
  epoch_list ← omapM id results;
  Ok match epoch_list with [] => 0%N | e :: es => foldl N.min e es end.

Definition MAX_RETRY_TIMES : nat := 30.

(** One round of the loop of [wait_for_proxy_epoch]: go on with the number of
    retries, or the result. *)
Definition wait_round (epoch : N) (i : nat) (fetched : outcome string N) : nat + outcome string () :=
  match fetched with
  | Ok min_epoch => if (epoch <=? min_epoch)%N then inr (Ok ()) else inl i
  | Err failed_address => if MAX_RETRY_TIMES <=? i then inr (Err failed_address) else inl (S i)
  | Panic => inr Panic
  end.

(** ** Handlers *)

(** The points between which the other handlers run. *)
Inductive Handler : Type :=
| Started (e : Endpoint)
(** The scale lock is held. *)
| Locked (e : Endpoint)
| Executed (e : Endpoint) (r : res Body)
(** Between the two phases of [auto_scale_node_number]; [start] is the store
    after the first. *)
| WaitingEpoch (name : string) (num : nat) (addresses : list string) (epoch : N) (i : nat) (start : MetaStore)
| EpochReached (name : string) (num : nat) (start : MetaStore)
(** In [recover_epoch], with the addresses. *)
| Recovering (addresses : list string)
(** The method has returned; the metadata has been read for the file. *)
| Returned (e : Endpoint) (r : res Body)
| Writing (e : Endpoint) (r : res Body) (store : MetaStore)
| Answered (e : Endpoint) (response : option Response)
(** The periodic [update_meta_file], with the metadata it has read. *)
| Updating (store : MetaStore).

(** What is in the meta file: all the bytes of a store, or a part of them. *)
Inductive Contents : Type := Whole (store : MetaStore) | Cut.

Record Service : Type := mkService {
  sv_store : MetaStore;
  sv_scale_lock : bool;
  sv_replica_addresses : list string;
  sv_file : option Contents;
  sv_handlers : gmap nat Handler;
}.

(** What the outside does in a step: the order of the hash maps, the clock, the
    epochs that the proxies tell, and the result of a write.  The file is
    renamed without a flush: [Ok false] is a write that has returned [Ok ()] and
    whose last bytes do not reach the file before the broker ends. *)
Record Env : Type := mkEnv {
  en_order : HashOrder;
  en_now : Z;
  en_fresh : Z → bool;
  en_epoch_of : string → option N;
  en_written : outcome MetaSyncError bool;
}.

Definition set_handler (t : nat) (h : Handler) (v : Service) : Service :=
  mkService (sv_store v) (sv_scale_lock v) (sv_replica_addresses v) (sv_file v) (<[t := h]> (sv_handlers v)).
Definition set_store (s : MetaStore) (v : Service) : Service :=
  mkService s (sv_scale_lock v) (sv_replica_addresses v) (sv_file v) (sv_handlers v).
Definition set_scale_lock (b : bool) (v : Service) : Service :=
  mkService (sv_store v) b (sv_replica_addresses v) (sv_file v) (sv_handlers v).
(** [JsonFile::store]. *)
Definition set_file (complete : bool) (store : MetaStore) (v : Service) : Service :=
  mkService (sv_store v) (sv_scale_lock v) (sv_replica_addresses v) (Some (if complete then Whole store else Cut)) (sv_handlers v).
Definition set_replicas (l : list string) (v : Service) : Service :=
  mkService (sv_store v) (sv_scale_lock v) l (sv_file v) (sv_handlers v).

Definition drop_handler (t : nat) (v : Service) : Service :=
  mkService (sv_store v) (sv_scale_lock v) (sv_replica_addresses v) (sv_file v) (delete t (sv_handlers v)).

Section service.
Context `{UnicodeCase} (undermoon_version : string) (config : MemBrokerConfig).

(** The call to the storage of a request. *)
Definition storage_call (env : Env) (e : Endpoint) : option (SM Body) :=
  match read_call (H := en_order env) undermoon_version config (en_fresh env) e with
  | Some m => Some m
  | None => write_call (H := en_order env) config (en_now env) e
  end.

(** The first phase of [auto_scale_node_number]. *)
Definition scale_first (env : Env) (name : string) (num : nat) (t : nat) (v : Service) : Service :=
  let '(s', r) := auto_change_node_number (H := en_order env) name num (sv_store v) in
  let v := set_store s' v in
  set_handler t match r with
                | Ok (ScaleOut, addresses, epoch) => WaitingEpoch name num addresses epoch 0 s'
                | Ok _ => Executed (PostAuto name num) (Ok Empty)
                | Err e => Executed (PostAuto name num) (Err e)
                | Panic => Executed (PostAuto name num) Panic
                end v.

(** A handler that does not hold the lock. *)
Definition run_started (env : Env) (e : Endpoint) (t : nat) (v : Service) : Service :=
  if needs_scale_lock e then
    if sv_scale_lock v then set_handler t (Returned e (Err NodeNumberChanging)) v
    else set_handler t (Locked e) (set_scale_lock true v)
  else
    match e with
    | PutBrokerConfig l => set_handler t (Returned e (Ok Empty)) (set_replicas l v)
    | GetBrokerConfig => set_handler t (Returned e (Ok (ConfigBody (sv_replica_addresses v)))) v
    | PutRecovery => set_handler t (Recovering (get_proxies_with_pagination (H := en_order env) (sv_store v) None None)) v
    | _ =>
        match storage_call env e with
        | Some m => let '(s', r) := m (sv_store v) in set_handler t (Returned e r) (set_store s' v)
        | None => v
        end
    end.

Definition run_locked (env : Env) (e : Endpoint) (t : nat) (v : Service) : Service :=
  match e with
  | PostAuto name num => scale_first env name num t v
  | _ =>
      match storage_call env e with
      | Some m => let '(s', r) := m (sv_store v) in set_handler t (Executed e r) (set_store s' v)
      | None => v
      end
  end.

(** The next step of handler [t]. *)
Definition run_handler (env : Env) (t : nat) (v : Service) : option Service :=
  h ← sv_handlers v !! t;
  match h with
  | Started e => Some (run_started env e t v)
  | Locked e => Some (run_locked env e t v)
  | Executed e r => Some (set_handler t (Returned e r) (set_scale_lock false v))
  | WaitingEpoch name num addresses epoch i start =>
      Some match wait_round epoch i (fetch_min_epoch (epoch_results (en_epoch_of env) addresses)) with
           | inl i => set_handler t (WaitingEpoch name num addresses epoch i start) v
           | inr (Ok _) => set_handler t (EpochReached name num start) v
           | inr _ => set_handler t (Executed (PostAuto name num) (Err ProxyNotSync)) v
           end
  | EpochReached name num start =>
      let '(s', r) := auto_scale_out_node_number name num (sv_store v) in
      Some (set_handler t (Executed (PostAuto name num) ((λ _, Empty) <$> r)) (set_store s' v))
  | Recovering addresses =>
      let fetched := fetch_max_epoch (epoch_results (en_epoch_of env) addresses) in
      let '(s', r) := exec (H := en_order env) (RecoverEpoch (wadd (ef_max_epoch fetched) 1)) (sv_store v) in
      Some (set_handler t (Returned PutRecovery ((λ _, RecoverEpochResult (ef_failed_addresses fetched)) <$> r)) (set_store s' v))
  | Returned e r =>
      Some (if triggers_update e r && bc_auto_update_meta_file config
            then set_handler t (Writing e r (sv_store v)) v
            else set_handler t (Answered e (warp_json r)) v)
  | Writing e r store =>
      Some match en_written env with
           | Ok complete => set_handler t (Answered e (warp_json (with_update e r (Ok ())))) (set_file complete store v)
           | Err err => set_handler t (Answered e (warp_json (with_update e r (Err (SyncError err))))) v
           | Panic => set_handler t (Answered e None) v
           end
  | Answered _ _ => None
  | Updating store => Some (drop_handler t match en_written env with Ok complete => set_file complete store v | _ => v end)
  end.

(** A request arrives, the periodic task reads the store, or a handler goes on. *)
Inductive ServiceAction : Type :=
| Receive (t : nat) (e : Endpoint)
| Update (t : nat)
| Run (t : nat) (env : Env).

Definition service_step (a : ServiceAction) (v : Service) : option Service :=
  match a with
  | Receive t e => match sv_handlers v !! t with None => Some (set_handler t (Started e) v) | Some _ => None end
  | Update t => match sv_handlers v !! t with None => Some (set_handler t (Updating (sv_store v)) v) | Some _ => None end
  | Run t env => run_handler env t v
  end.

(** [JsonFile::load]: a part of the text of a store is no JSON value. *)
Definition load_file (file : option Contents) : outcome MetaSyncError (option MetaStore) :=
  match file with
  | None => Ok None
  | Some (Whole store) => Ok (Some store)
  | Some Cut => Err Json
  end.

(** [MemBrokerService::new] with the metadata of the file. *)
Definition service_new (enable_ordered_proxy : bool) (replica_addresses : list string) (last_meta_store : option MetaStore) : res Service :=
  let store := store_new enable_ordered_proxy in
  let '(store, r) := match last_meta_store with Some last => restore last store | None => (store, Ok ()) end in
  _ ← r; Ok (mkService store false replica_addresses (Whole <$> last_meta_store) ∅).

Inductive service_reachable : Service → Prop :=
| service_start ordered replicas last v : service_new ordered replicas last = Ok v → service_reachable v
| service_next a v v' : service_reachable v → service_step a v = Some v' → service_reachable v'.

(** ** The scale lock *)

Definition holds_lock (h : Handler) : bool :=
  match h with Locked _ | Executed _ _ | WaitingEpoch _ _ _ _ _ _ | EpochReached _ _ _ => true | _ => false end.

(** The store after the first phase, between the two phases. *)
Definition first_phase (h : Handler) : option MetaStore :=
  match h with WaitingEpoch _ _ _ _ _ start | EpochReached _ _ start => Some start | _ => None end.

(** Changes by requests that do not hold the lock. *)
Inductive calm (s : MetaStore) : MetaStore → Prop :=
| calm_refl : calm s s
| calm_call env e m s' : calm s s' → needs_scale_lock e = false → storage_call env e = Some m → calm s (m s').1
| calm_recover order largest s' : calm s s' → calm s (exec (H := order) (RecoverEpoch largest) s').1.

Record lock_inv (v : Service) : Prop := {
  li_held t h : sv_handlers v !! t = Some h → holds_lock h = true → sv_scale_lock v = true;
  li_one t t' h h' : sv_handlers v !! t = Some h → sv_handlers v !! t' = Some h' → holds_lock h = true → holds_lock h' = true → t = t';
  li_calm t h start : sv_handlers v !! t = Some h → first_phase h = Some start → calm start (sv_store v);
}.

Lemma first_phase_holds h start : first_phase h = Some start → holds_lock h = true.
Proof. by destruct h. Qed.

(** The invariant looks at the handlers that hold the lock only. *)
Lemma lock_inv_mono v v' :
  lock_inv v → sv_scale_lock v' = sv_scale_lock v → (∀ s, calm s (sv_store v) → calm s (sv_store v')) →
  (∀ t h, sv_handlers v' !! t = Some h → holds_lock h = true → sv_handlers v !! t = Some h) → lock_inv v'.
Proof.
  intros [H1 H2 H3] Hl Hs Hh. split.
  - intros t h Ht Hold. rewrite Hl. eauto.
  - intros t t' h h' Ht Ht' Hold Hold'. by apply (H2 t t' h h'); auto.
  - intros t h start Ht Hp. eapply Hs, H3; [|done]. eapply Hh; [done|]. by eapply first_phase_holds.
Qed.

(** A handler without the lock goes on to another such point. *)
Lemma lock_inv_set t h v : lock_inv v → holds_lock h = false → lock_inv (set_handler t h v).
Proof.
  intros Hv Hh. apply (lock_inv_mono v); [done..|]. cbn. intros t' h' [[_ <-]|[_ Ht]]%lookup_insert_Some Hold; [congruence|done].
Qed.

(** The handler with the lock goes on, and keeps it or gives it back. *)
Lemma lock_inv_holder t h h' v v' :
  lock_inv v → sv_handlers v !! t = Some h → holds_lock h = true → sv_handlers v' = <[t := h']> (sv_handlers v) →
  sv_scale_lock v' = holds_lock h' →
  (∀ start, first_phase h' = Some start → calm start (sv_store v')) → lock_inv v'.
Proof.
  intros [H1 H2 H3] Ht Hold Hset Hlock Hcalm.
  assert (∀ t1 h1, sv_handlers v' !! t1 = Some h1 → holds_lock h1 = true → t1 = t ∧ h1 = h') as Honly.
  { rewrite Hset. intros t1 h1 [[-> <-]|[Hne Ht1]]%lookup_insert_Some Hold1; [done|].
    destruct Hne. by apply (H2 t t1 h h1). }
  split.
  - intros t1 h1 Ht1 Hold1. destruct (Honly _ _ Ht1 Hold1) as [-> ->]. congruence.
  - intros t1 t2 h1 h2 Ht1 Ht2 Hold1 Hold2. destruct (Honly _ _ Ht1 Hold1), (Honly _ _ Ht2 Hold2). congruence.
  - intros t1 h1 start Ht1 Hp. destruct (Honly _ _ Ht1 (first_phase_holds _ _ Hp)) as [-> ->]. auto.
Qed.

Lemma run_locked_inv env e t v : lock_inv v → sv_handlers v !! t = Some (Locked e) → lock_inv (run_locked env e t v).
Proof.
  intros Hv Ht. pose proof (li_held v Hv _ _ Ht eq_refl) as Hl.
  assert (∀ h' s', holds_lock h' = true → (∀ start, first_phase h' = Some start → start = s') →
    lock_inv (set_handler t h' (set_store s' v))) as Hnext.
  { intros h' s' Hh' Hp. eapply (lock_inv_holder t (Locked e) h' v); [done|done|done|done|by cbn; rewrite Hl|].
    intros start ->%Hp. constructor. }
  unfold run_locked. destruct e; try (destruct (storage_call env _) as [m|]; [|done]; destruct (m (sv_store v)); by apply Hnext).
  unfold scale_first. destruct (auto_change_node_number _ _ _) as [s' [[[[] addresses] epoch]|err|]]; apply Hnext; cbn; congruence.
Qed.

Lemma run_started_inv env e t v : lock_inv v → sv_handlers v !! t = Some (Started e) → lock_inv (run_started env e t v).
Proof.
  intros Hv Ht. unfold run_started. destruct (needs_scale_lock e) eqn:Hneed.
  - destruct (sv_scale_lock v) eqn:Hl; [by apply lock_inv_set|].
    assert (∀ t1 h1, sv_handlers v !! t1 = Some h1 → holds_lock h1 = true → False) as Hnone.
    { intros t1 h1 Ht1 Hold. pose proof (li_held v Hv _ _ Ht1 Hold). congruence. }
    split; cbn; [done|..].
    + intros t1 t2 h1 h2 [[-> _]|[_ Ht1]]%lookup_insert_Some [[-> _]|[_ Ht2]]%lookup_insert_Some; naive_solver.
    + intros t1 h1 start [[_ <-]|[_ Ht1]]%lookup_insert_Some Hp; [done|].
      exfalso. eauto using first_phase_holds.
  - assert (lock_inv match storage_call env e with
                     | Some m => let '(s', r) := m (sv_store v) in set_handler t (Returned e r) (set_store s' v)
                     | None => v
                     end) as Hcall.
    { destruct (storage_call env e) as [m|] eqn:Hm; [|done]. destruct (m (sv_store v)) as [s' r] eqn:Heq.
      apply lock_inv_set; [|done]. apply (lock_inv_mono v); [done|done| |done]. cbn. intros s Hs.
      pose proof (calm_call s env e m (sv_store v) Hs Hneed Hm) as Hc. by rewrite Heq in Hc. }
    destruct e; try exact Hcall; try (by apply lock_inv_set); [].
    match goal with |- lock_inv (set_handler t ?h _) => apply (lock_inv_mono (set_handler t h v)); [by apply lock_inv_set|done..] end.
Qed.

Lemma run_handler_inv env t v v' : lock_inv v → run_handler env t v = Some v' → lock_inv v'.
Proof.
  intros Hv. unfold run_handler. destruct (sv_handlers v !! t) as [h|] eqn:Ht; [|done]. cbn [mbind option_bind].
  assert (∀ h', holds_lock h = true → holds_lock h' = true → (∀ start, first_phase h' = Some start → calm start (sv_store v)) →
    lock_inv (set_handler t h' v)) as Hkeep.
  { intros h' Hh Hh' Hp. eapply (lock_inv_holder t h h' v); try done. cbn. rewrite Hh'. by eapply li_held. }
  destruct h as [e|e|e r|name num addresses epoch i start|name num start|addresses|e r|e r store| |store]; intros Hstep; try done.
  - injection Hstep as <-. by apply run_started_inv.
  - injection Hstep as <-. by apply run_locked_inv.
  - injection Hstep as <-. by eapply (lock_inv_holder t (Executed e r) (Returned e r) v).
  - injection Hstep as <-. destruct (wait_round _ _ _) as [i'|[[]|?|]]; apply Hkeep; try done;
      intros start' [= <-]; by eapply li_calm.
  - destruct (auto_scale_out_node_number _ _ _) as [s' r]. injection Hstep as <-.
    eapply (lock_inv_holder t _ (Executed (PostAuto name num) ((λ _, Empty) <$> r)) v); try done. cbn. by eapply li_held.
  - set (q := RecoverEpoch _) in Hstep. destruct (exec q (sv_store v)) as [s' r] eqn:Heq. injection Hstep as <-.
    apply lock_inv_set; [|done]. apply (lock_inv_mono v); [done|done| |done]. cbn. intros s Hs.
    change s' with (s', r).1. rewrite <- Heq. by apply calm_recover.
  - injection Hstep as <-. destruct (_ && _); by apply lock_inv_set.
  - injection Hstep as <-. destruct (en_written env); [|by apply lock_inv_set..].
    apply lock_inv_set; [|done]. by apply (lock_inv_mono v).
  - injection Hstep as <-. apply (lock_inv_mono v); [done|by destruct (en_written env)..|].
    intros t1 h1. destruct (en_written env); cbn; by intros [_ ?]%lookup_delete_Some.
Qed.

Lemma service_new_lock ordered replicas last v : service_new ordered replicas last = Ok v → lock_inv v.
Proof.
  unfold service_new. destruct (match last with Some l => restore l _ | None => _ end) as [s [[]|?|]]; [|done..].
  intros [= <-]. split; cbn; intros *; by rewrite lookup_empty.
Qed.

Lemma reachable_lock_inv v : service_reachable v → lock_inv v.
Proof.
  induction 1 as [ordered replicas last v Hnew|[t e|t|t env] v v' _ IH Hstep]; cbn in *.
  - by eapply service_new_lock.
  - destruct (sv_handlers v !! t); [done|]. injection Hstep as <-. by apply lock_inv_set.
  - destruct (sv_handlers v !! t); [done|]. injection Hstep as <-. by apply lock_inv_set.
  - by eapply run_handler_inv.
Qed.
End service.

(** C29. Scaling a cluster in two phases is protected: whatever requests run at
    the same time, at most one handler holds the scale lock, a handler that
    holds it has taken it, and from the end of the first phase of
    [auto_scale_node_number] to the begin of the second the store is changed by
    requests that do not change the number of nodes only. *)
Theorem scaling_undisturbed `{UnicodeCase} undermoon_version config v :
  service_reachable undermoon_version config v →
  (∀ t t' h h', sv_handlers v !! t = Some h → sv_handlers v !! t' = Some h' → holds_lock h = true → holds_lock h' = true →
     t = t' ∧ sv_scale_lock v = true) ∧
  ∀ t h start, sv_handlers v !! t = Some h → first_phase h = Some start → calm undermoon_version config start (sv_store v).
Proof.
  intros Hv%reachable_lock_inv. split.
  - intros t t' h h' Ht Ht' Hh Hh'. split; [by apply (li_one _ _ v Hv t t' h h')|by eapply (li_held _ _ v Hv t h)].
  - apply (li_calm _ _ v Hv).
Qed.

(** ** The version of the store

    No operation changes the version of the store: [keeps v m Q] says so of
    [m], with [Q] what is known of its result. *)

Definition keeps {A} (v : string) (m : SM A) (Q : A → Prop) : Prop :=
  ∀ s, version s = v → version (m s).1 = v ∧ ∀ a, (m s).2 = Ok a → Q a.

Section keeps.
Context {A B : Type} (v : string).

Lemma keeps_bind (m : SM A) (k : A → SM B) P Q :
  keeps v m P → (∀ a, P a → keeps v (k a) Q) → keeps v (m ≫= k) Q.
Proof.
  intros Hm Hk s Hs. unfold mbind, SM_bind. specialize (Hm s Hs) as [Hv Ha]. destruct (m s) as [s' [a|e|]]; [|done..].
  apply (Hk a); [by apply Ha|done].
Qed.

Lemma keeps_ret (a : A) : keeps v (mret a) (λ _, True).
Proof. done. Qed.
Lemma keeps_lift (r : res A) : keeps v (lift r) (λ _, True).
Proof. done. Qed.
Lemma keeps_fail e : keeps v (fail (A := A) e) (λ _, True).
Proof. done. Qed.
End keeps.

Lemma keeps_get v : keeps v get_store (λ s, version s = v).
Proof. intros s Hs. split; [done|]. by intros ? [= <-]. Qed.
Lemma keeps_put v s' : version s' = v → keeps v (put_store s') (λ _, True).
Proof. done. Qed.
Lemma keeps_put_cluster v name cs : keeps v (put_cluster name cs) (λ _, True).
Proof. done. Qed.
Lemma keeps_bump v : keeps v bump_global_epoch (λ _, True).
Proof. done. Qed.

Create HintDb keeps.
#[export] Hint Resolve keeps_ret keeps_lift keeps_fail keeps_get keeps_put_cluster keeps_bump : keeps.

Ltac keeps_step :=
  lazymatch goal with
  | |- keeps _ (mbind _ _) _ => eapply keeps_bind; [|intros ? ?]
  | |- keeps _ (if ?b then _ else _) _ => destruct b
  | |- keeps _ (match ?x with _ => _ end) _ => destruct x
  | |- keeps _ (let _ := _ in _) _ => cbv zeta
  | |- keeps _ (put_store _) _ => apply keeps_put; done
  | |- keeps _ _ _ => solve [eauto with keeps]
  end.
Ltac keeps_solve := intros; repeat keeps_step.

Section versions.
Context `{HashOrder} `{UnicodeCase} (v : string).

Lemma keeps_parse name : keeps v (parse_cluster_name name) (λ _, True).
Proof. apply keeps_lift. Qed.
Lemma keeps_find name : keeps v (find_cluster name) (λ _, True).
Proof. unfold find_cluster. keeps_solve. Qed.
Hint Resolve keeps_parse keeps_find : keeps.

Lemma keeps_check_node_num n : keeps v (check_node_num n) (λ _, True).
Proof. unfold check_node_num. keeps_solve. Qed.
Lemma keeps_pick n i : keeps v (pick_chunks n i) (λ _, True).
Proof. unfold pick_chunks. keeps_solve. Qed.
Lemma keeps_occupy name l : keeps v (occupy_all name l) (λ _, True).
Proof. unfold occupy_all. keeps_solve. Qed.
Hint Resolve keeps_check_node_num keeps_pick keeps_occupy : keeps.

Lemma keeps_auto_add name n : keeps v (auto_add_nodes name n) (λ _, True).
Proof. unfold auto_add_nodes. keeps_solve. Qed.
Lemma keeps_delete_free name : keeps v (auto_delete_free_nodes name) (λ _, True).
Proof. unfold auto_delete_free_nodes. keeps_solve. Qed.
Lemma keeps_takeover name a : keeps v (takeover_master name a) (λ _, True).
Proof. unfold takeover_master. keeps_solve. Qed.
Lemma keeps_migrate name : keeps v (migrate_slots name) (λ _, True).
Proof. unfold migrate_slots. keeps_solve. Qed.
Lemma keeps_scale_down name n : keeps v (migrate_slots_to_scale_down name n) (λ _, True).
Proof. unfold migrate_slots_to_scale_down. keeps_solve. Qed.
Lemma keeps_commit_task task : keeps v (commit_migration_task task) (λ _, True).
Proof. unfold commit_migration_task. keeps_solve. Qed.
Hint Resolve keeps_auto_add keeps_delete_free keeps_takeover keeps_migrate keeps_scale_down keeps_commit_task : keeps.

Lemma keeps_add_proxy a nodes host index : keeps v (add_proxy a nodes host index) (λ _, True).
Proof.
  intros s Hs. split; [|done]. unfold add_proxy. cbv zeta. repeat case_match; done.
Qed.
Lemma keeps_remove_proxy a : keeps v (remove_proxy a) (λ _, True).
Proof.
  intros s Hs. split; [|done]. unfold remove_proxy. destruct (all_proxies s !! a); [|done]. by case_bool_decide.
Qed.
Lemma keeps_handled (m m' : SM ()) : keeps v m (λ _, True) → (∀ s, (m' s).1 = (m s).1) → keeps v m' (λ _, True).
Proof. intros Hm He s Hs. split; [|done]. rewrite He. by apply Hm. Qed.
Lemma keeps_delete_if_exists name : keeps v (auto_delete_free_nodes_if_exists name) (λ _, True).
Proof.
  eapply keeps_handled; [apply (keeps_delete_free name)|]. intros s. unfold auto_delete_free_nodes_if_exists.
  by destruct (auto_delete_free_nodes name s) as [s' [|[]|]].
Qed.
Lemma keeps_ignore m : keeps v m (λ _, True) → keeps v (ignore_free_node_not_found m) (λ _, True).
Proof. intros Hm. eapply keeps_handled; [exact Hm|]. intros s. unfold ignore_free_node_not_found. by destruct (m s) as [s' [|[]|]]. Qed.
Hint Resolve keeps_delete_if_exists keeps_ignore : keeps.

Lemma keeps_commit task clear : keeps v (commit_migration task clear) (λ _, True).
Proof. unfold commit_migration. keeps_solve. Qed.
Lemma keeps_failover a limit : keeps v (replace_failed_proxy a limit) (λ _, True).
Proof. unfold replace_failed_proxy. keeps_solve. Qed.
Hint Resolve keeps_add_proxy keeps_remove_proxy keeps_commit keeps_failover : keeps.

Lemma keeps_scale_up name n : keeps v (auto_scale_up_nodes name n) (λ _, True).
Proof. unfold auto_scale_up_nodes. keeps_solve. Qed.
Hint Resolve keeps_scale_up : keeps.

(** Every request of the storage. *)
Lemma exec_keeps r : keeps v (exec r) (λ _, True).
Proof.
  assert (∀ A (m : SM A), keeps v m (λ _, True) → keeps v (void m) (λ _, True)) as Hvoid.
  { intros A m Hm. eapply keeps_bind; [exact Hm|]. intros a _. apply keeps_ret. }
  destruct r; cbn [exec]; try apply Hvoid; try solve [eauto with keeps].
  - unfold add_cluster. keeps_solve.
  - unfold remove_cluster. keeps_solve.
  - unfold auto_change_node_number. keeps_solve.
  - unfold auto_scale_out_node_number. keeps_solve.
  - unfold balance_masters. keeps_solve.
  - unfold change_config. keeps_solve.
  - intros s Hs. split; [|done]. cbn. unfold add_failure. by repeat case_match.
  - done.
  - done.
  - intros s Hs. split; [|done]. unfold force_bump_all_epoch. by case_match.
  - done.
Qed.

(** The calls of the requests that change the store. *)
Lemma write_call_keeps config now e m :
  write_call config now e = Some m → (∀ s, e ≠ PutMetadata s) → keeps v m (λ _, True).
Proof.
  assert (∀ A (f : A → Body) (m : SM A), keeps v m (λ _, True) → keeps v (body_of f m) (λ _, True)) as Hbody.
  { intros A f m' Hm. unfold body_of. eapply keeps_bind; [exact Hm|]. intros a _. apply keeps_ret. }
  intros Hm Hne. destruct e; try discriminate Hm; apply (inj Some) in Hm as <-; try (apply Hbody; (apply exec_keeps || solve [eauto with keeps])).
  by destruct (Hne store).
Qed.
End versions.

(** ** The meta file *)

Section file.
Context `{UnicodeCase} (undermoon_version : string) (config : MemBrokerConfig).

(** A handler runs to its end. *)
Fixpoint run_to_end (fuel : nat) (env : Env) (t : nat) (v : Service) : Service :=
  match fuel with
  | 0 => v
  | S fuel => match run_handler undermoon_version config env t v with Some v => run_to_end fuel env t v | None => v end
  end.

(** A request that nothing else disturbs. *)
Definition serve_alone (env : Env) (t : nat) (e : Endpoint) (v : Service) : Service := run_to_end 5 env t (set_handler t (Started e) v).

(** Requests one after the other. *)
Fixpoint serve_all (t : nat) (rqs : list (Env * Endpoint)) (v : Service) : Service :=
  match rqs with
  | [] => v
  | (env, e) :: rqs => serve_all (S t) rqs (serve_alone env t e v)
  end.

(** The changes that are written to the file. *)
Definition changes_store (e : Endpoint) : bool :=
  match e with
  | PostFailure _ _ | PostFailover _ | PutMigration _ | PostCluster _ _ | DeleteCluster _ | PatchNodes _ _ | PutNodes _ _
  | DeleteFreeNodes _ | PostShrink _ _ | PostExpand _ | PatchConfig _ _ | PutBalance _ | PostProxy _ _ _ _ | DeleteProxy _
  | PutEpoch _ => true
  | _ => false
  end.

Definition acknowledged (v : Service) (t : nat) : Prop :=
  ∃ e b, sv_handlers v !! t = Some (Answered e (Some (mkResponse 200 b))).

Lemma run_to_end_step fuel env t v v' :
  run_handler undermoon_version config env t v = Some v' → run_to_end (S fuel) env t v = run_to_end fuel env t v'.
Proof. cbn. by intros ->. Qed.

(** The end of a handler. *)
Definition write_end (env : Env) (t : nat) (e : Endpoint) (r : res Body) (v : Service) : Service :=
  if triggers_update e r && bc_auto_update_meta_file config then
    match en_written env with
    | Ok complete => set_handler t (Answered e (warp_json (with_update e r (Ok ())))) (set_file complete (sv_store v) v)
    | Err err => set_handler t (Answered e (warp_json (with_update e r (Err (SyncError err))))) v
    | Panic => set_handler t (Answered e None) v
    end
  else set_handler t (Answered e (warp_json r)) v.

Lemma set_handler_twice t h h' v : set_handler t h' (set_handler t h v) = set_handler t h' v.
Proof. unfold set_handler. cbn. by rewrite insert_insert_eq. Qed.

Lemma set_file_handler b f t h v : set_file b f (set_handler t h v) = set_handler t h (set_file b f v).
Proof. done. Qed.
Lemma set_store_handler s t h v : set_store s (set_handler t h v) = set_handler t h (set_store s v).
Proof. done. Qed.
Lemma set_lock_handler b t h v : set_scale_lock b (set_handler t h v) = set_handler t h (set_scale_lock b v).
Proof. done. Qed.

Lemma run_answered n env t e resp v :
  run_to_end n env t (set_handler t (Answered e resp) v) = set_handler t (Answered e resp) v.
Proof. destruct n as [|n]; [done|]. cbn. unfold run_handler. cbn. by rewrite lookup_insert_eq. Qed.

Lemma run_returned n env t e r v :
  run_to_end (2 + n) env t (set_handler t (Returned e r) v) = write_end env t e r v.
Proof.
  cbn [Nat.add]. unfold write_end. destruct (triggers_update e r && bc_auto_update_meta_file config) eqn:Hup.
  - rewrite (run_to_end_step _ _ _ _ (set_handler t (Writing e r (sv_store v)) v)).
    2: { unfold run_handler. cbn. rewrite lookup_insert_eq. cbn. by rewrite Hup, set_handler_twice. }
    erewrite run_to_end_step.
    2: { unfold run_handler. cbn. rewrite lookup_insert_eq. reflexivity. }
    destruct (en_written env); rewrite ?set_file_handler, set_handler_twice; apply run_answered.
  - erewrite run_to_end_step.
    2: { unfold run_handler. cbn. rewrite lookup_insert_eq. cbn. by rewrite Hup, set_handler_twice. }
    apply run_answered.
Qed.

(** A change runs as if it were one step: its call, then the file. *)
Lemma serve_alone_spec env t e v m s' r :
  changes_store e = true → write_call (H := en_order env) config (en_now env) e = Some m → m (sv_store v) = (s', r) →
  sv_scale_lock v = false →
  serve_alone env t e v = write_end env t e r (set_store s' v).
Proof.
  intros He Hm Hr Hl. assert (storage_call undermoon_version config env e = Some m) as Hcall by by destruct e.
  unfold serve_alone. destruct (needs_scale_lock e) eqn:Hneed.
  - rewrite (run_to_end_step _ _ _ _ (set_handler t (Locked e) (set_scale_lock true v))).
    2: { unfold run_handler. cbn. rewrite lookup_insert_eq. cbn. unfold run_started. rewrite Hneed. cbn. rewrite Hl.
         by rewrite set_lock_handler, set_handler_twice. }
    rewrite (run_to_end_step _ _ _ _ (set_handler t (Executed e r) (set_store s' (set_scale_lock true v)))).
    2: { unfold run_handler. cbn. rewrite lookup_insert_eq. cbn. f_equal.
         transitivity (let '(s1, r1) := m (sv_store v) in
           set_handler t (Executed e r1) (set_store s1 (set_handler t (Locked e) (set_scale_lock true v)))).
         - unfold run_locked. by destruct e; try done; rewrite Hcall.
         - by rewrite Hr, set_store_handler, set_handler_twice. }
    rewrite (run_to_end_step _ _ _ _ (set_handler t (Returned e r) (set_scale_lock false (set_store s' (set_scale_lock true v))))).
    2: { unfold run_handler. cbn. rewrite lookup_insert_eq. cbn. by rewrite set_lock_handler, set_handler_twice. }
    rewrite (run_returned 0). f_equal. unfold set_scale_lock, set_store. cbn. by rewrite <- Hl.
  - rewrite (run_to_end_step _ _ _ _ (set_handler t (Returned e r) (set_store s' v))); [by rewrite (run_returned 2)|].
    unfold run_handler. cbn. rewrite lookup_insert_eq. cbn. f_equal.
    transitivity (let '(s1, r1) := m (sv_store v) in set_handler t (Returned e r1) (set_store s1 (set_handler t (Started e) v))).
    + unfold run_started. rewrite Hneed. by destruct e; try done; rewrite Hcall.
    + by rewrite Hr, set_store_handler, set_handler_twice.
Qed.

Lemma write_call_some order now e : changes_store e = true → ∃ m, write_call (H := order) config now e = Some m.
Proof. destruct e; cbn; try done; eauto. Qed.

Lemma status_not_ok err : status_code err ≠ 200%N.
Proof. by destruct err. Qed.

(** After a change either the file has the new store, all of it if the write was
    complete, or the file is as it was and the change is not acknowledged. *)
Lemma serve_alone_file env t e v :
  bc_auto_update_meta_file config = true → changes_store e = true → sv_scale_lock v = false →
  let v' := serve_alone env t e v in
  sv_scale_lock v' = false ∧ version (sv_store v') = version (sv_store v) ∧
  (∃ resp, sv_handlers v' = <[t := Answered e resp]> (sv_handlers v)) ∧
  ((∃ complete, en_written env = Ok complete ∧ sv_file v' = Some (if complete then Whole (sv_store v') else Cut)) ∨
   (sv_file v' = sv_file v ∧ ¬ acknowledged v' t)).
Proof.
  intros Hauto He Hl v'. destruct (write_call_some (en_order env) (en_now env) e He) as [m Hm].
  destruct (m (sv_store v)) as [s' r] eqn:Hr. pose proof (serve_alone_spec env t e v m s' r He Hm Hr Hl) as Hv'. fold v' in Hv'.
  assert (version s' = version (sv_store v)) as Hver.
  { destruct (write_call_keeps (H := en_order env) (version (sv_store v)) config (en_now env) e m Hm) with (sv_store v) as [Hx _];
      [by destruct e|done|]. by rewrite Hr in Hx. }
  assert (∀ resp, (∀ b, resp ≠ Some (mkResponse 200 b)) → ¬ acknowledged (set_handler t (Answered e resp) (set_store s' v)) t) as Hno.
  { intros resp Hresp (e' & b & Ht). cbn in Ht. rewrite lookup_insert_eq in Ht. injection Ht as _ ->. by apply (Hresp b). }
  clearbody v'. subst v'. unfold write_end. rewrite Hauto, andb_true_r. destruct (triggers_update e r) eqn:Htr.
  - destruct (en_written env) as [?|err|]; cbn; (split_and!; [done|done|by eexists|]); [left; by eexists|right; split; [done|]..].
    + apply Hno. intros b. destruct e, r; cbn; try done; intros [= Hb _]; by apply status_not_ok in Hb.
    + apply Hno. done.
  - cbn. split_and!; [done|done|by eexists|]. right. split; [done|]. apply Hno. intros b.
    destruct r as [b'|err|]; [by destruct e| |done]. cbn. intros [= Hb _]. by apply status_not_ok in Hb.
Qed.

Lemma serve_all_app t l l' v : serve_all t (l ++ l') v = serve_all (t + length l) l' (serve_all t l v).
Proof.
  revert t v. induction l as [|[env e] l IH]; intros t v; cbn [app serve_all length]; [by rewrite Nat.add_0_r|].
  rewrite IH. f_equal. lia.
Qed.

(** What the file has after the requests [l], of which the last one wrote it. *)
Definition file_after (l : list (Env * Endpoint)) (v' : Service) (file : option Contents) : Prop :=
  file = Some (Whole (sv_store v')) ∨ ∃ env e, last l = Some (env, e) ∧ en_written env = Ok false ∧ file = Some Cut.

Lemma serve_all_file t rqs v :
  bc_auto_update_meta_file config = true → sv_scale_lock v = false → sv_file v = Some (Whole (sv_store v)) →
  Forall (λ rq, changes_store rq.2 = true) rqs →
  let v' := serve_all t rqs v in
  sv_scale_lock v' = false ∧ version (sv_store v') = version (sv_store v) ∧
  ∃ k, k ≤ length rqs ∧ file_after (take k rqs) (serve_all t (take k rqs) v) (sv_file v') ∧
    ∀ i, k ≤ i < length rqs → ¬ acknowledged v' (t + i).
Proof.
  intros Hauto Hl Hf. induction rqs as [|[env e] rqs IH] using rev_ind; intros Hall.
  { split_and!; [done|done|]. exists 0. split_and!; [done|by left|]. cbn. lia. }
  apply Forall_app in Hall as [Hall He]. inversion He as [|? ? He1 _]. subst. cbn in He1.
  destruct (IH Hall) as (Hl1 & Hv1 & k & Hk & Hf1 & Hno). rewrite serve_all_app, length_app. cbn [serve_all length].
  destruct (serve_alone_file env (t + length rqs) e (serve_all t rqs v) Hauto He1 Hl1) as (Hl2 & Hv2 & [resp Hh] & Hfile).
  split_and!; [done|congruence|]. destruct Hfile as [(complete & Hw & Hfile)|[Hfile Hack]].
  - exists (length rqs + 1). split_and!; [done| |intros; lia].
    rewrite take_ge by (rewrite length_app; cbn; lia). rewrite serve_all_app, Hfile.
    destruct complete; [by left|right]. exists env, e. by rewrite last_snoc.
  - exists k. split_and!; [lia|by rewrite take_app_le, Hfile by lia|]. intros i Hi.
    destruct (decide (i = length rqs)) as [->|Hne]; [done|]. intros (e' & b & Ht). apply (Hno i); [lia|].
    exists e', b. rewrite Hh, lookup_insert_ne in Ht by lia. done.
Qed.
End file.

(** C28. Acknowledged changes survive: while changes are served one after the
    other and each is written to the file, however often a write fails, none of
    the changes after some [k]-th one was acknowledged, and a broker that
    restarts from the file has the store as it was after the first [k]; unless
    the [k]-th write has returned without an error and was not complete, when
    the file cannot be read.  The changes are those that write the file and are
    done in one phase: not [recover_epoch] and [restore_metadata], which do not
    write it, and not [auto_scale_node_number]. *)
Theorem acknowledged_changes_survive `{UnicodeCase} undermoon_version config ordered replicas t rqs v :
  bc_auto_update_meta_file config = true → sv_scale_lock v = false → sv_file v = Some (Whole (sv_store v)) →
  version (sv_store v) = UNDERMOON_MEM_BROKER_META_VERSION → Forall (λ rq, changes_store rq.2 = true) rqs →
  let after l := serve_all undermoon_version config t l v in
  ∃ k, k ≤ length rqs ∧ (∀ i, k ≤ i < length rqs → ¬ acknowledged (after rqs) (t + i)) ∧
    match load_file (sv_file (after rqs)) with
    | Ok last_meta_store => ∃ w, service_new ordered replicas last_meta_store = Ok w ∧ sv_store w = sv_store (after (take k rqs))
    | Err err => err = Json ∧ ∃ env e, last (take k rqs) = Some (env, e) ∧ en_written env = Ok false
    | Panic => False
    end.
Proof.
  intros Hauto Hl Hf Hver Hall. cbv zeta.
  destruct (serve_all_file undermoon_version config t rqs v Hauto Hl Hf Hall) as (_ & _ & k & Hk & Hfile & Hno).
  exists k. split_and!; [done|exact Hno|]. destruct Hfile as [-> | (env & e & Hlast & Hw & ->)]; [|split; [done|]; by exists env, e].
  assert (version (sv_store (serve_all undermoon_version config t (take k rqs) v)) = UNDERMOON_MEM_BROKER_META_VERSION) as Hver'.
  { rewrite <- Hver. apply serve_all_file; [done..|]. by apply Forall_take. }
  set (s := sv_store (serve_all undermoon_version config t (take k rqs) v)) in *. cbn [load_file]. unfold service_new, restore.
  rewrite (bool_decide_eq_false_2 (version (store_new ordered) ≠ version s)) by (intros Hne; by apply Hne).
  destruct (N.ltb_spec (global_epoch s) (global_epoch (store_new ordered))) as [Hlt|_]; [cbn in Hlt; lia|].
  eexists. split; [reflexivity|done].
Qed.

Definition demo_broker_config : MemBrokerConfig := mkMemBrokerConfig 1 1 true default_cluster_config.
Definition demo_env : Env := mkEnv canonical_order 0 (λ _, true) (λ _, None) (Ok true).
Definition demo_endpoint (host : string) : Endpoint := PostProxy (host +:+ ":70") (Arr2 (host +:+ ":71") (host +:+ ":72")) None None.
Definition demo_service : Service := mkService (store_new false) false [] (Some (Whole (store_new false))) ∅.

Lemma acknowledged_changes_survive_witness :
  let after l := serve_all (H := ascii_case) "v" demo_broker_config 0 l demo_service in
  let rqs := [(demo_env, demo_endpoint "a"); (demo_env, demo_endpoint "b")] in
  ∃ k, k ≤ 2 ∧ (∀ i, k ≤ i < 2 → ¬ acknowledged (after rqs) (0 + i)) ∧
    match load_file (sv_file (after rqs)) with
    | Ok last_meta_store => ∃ w, service_new false [] last_meta_store = Ok w ∧ sv_store w = sv_store (after (take k rqs))
    | Err err => err = Json ∧ ∃ env e, last (take k rqs) = Some (env, e) ∧ en_written env = Ok false
    | Panic => False
    end.
Proof.
  apply (acknowledged_changes_survive (H := ascii_case) "v" demo_broker_config false [] 0
    [(demo_env, demo_endpoint "a"); (demo_env, demo_endpoint "b")] demo_service); try reflexivity.
  repeat constructor.
Defined.

(** The exception is real: a change may be acknowledged and the file not be
    complete, and then the broker cannot start from it. *)
Theorem acknowledged_file_cut : ∃ env e v,
  v = serve_alone (H := ascii_case) "v" demo_broker_config env 0 e demo_service ∧
  acknowledged v 0 ∧ is_Some (all_proxies (sv_store v) !! "a:70") ∧ load_file (sv_file v) = Err Json.
Proof.
  exists (mkEnv canonical_order 0 (λ _, true) (λ _, None) (Ok false)), (demo_endpoint "a"). eexists. split; [reflexivity|].
  split; [by eexists _, _|]. split; [|reflexivity]. by eexists.
Qed.

(** With requests at the same time an acknowledged change may be missing in
    the file: a handler reads the store, another one changes it, writes the file
    and answers, and then the first one writes what it has read. *)
Theorem acknowledged_change_lost : ∃ actions v,
  run_steps (service_step (H := ascii_case) "v" demo_broker_config) actions demo_service = Some v ∧
  size (sv_handlers v) = 2 ∧ acknowledged v 0 ∧ acknowledged v 1 ∧
  is_Some (all_proxies (sv_store v) !! "b:70") ∧ (∀ s, sv_file v = Some (Whole s) → all_proxies s !! "b:70" = None).
Proof.
  exists [Receive 0 (demo_endpoint "a"); Run 0 demo_env; Run 0 demo_env;
          Receive 1 (demo_endpoint "b"); Run 1 demo_env; Run 1 demo_env; Run 1 demo_env; Run 0 demo_env].
  eexists. split; [vm_compute; reflexivity|]. split_and!.
  - reflexivity.
  - by eexists _, _.
  - by eexists _, _.
  - by eexists.
  - by intros s [= <-].
Qed.

(** ** Waiting for the proxies *)

Lemma foldl_min_le l : ∀ e x, x ∈ e :: l → (foldl N.min e l ≤ x)%N.
Proof.
  induction l as [|y l IH]; intros e x Hx; cbn.
  - by apply list_elem_of_singleton in Hx as ->.
  - assert (foldl N.min (N.min e y) l ≤ N.min e y)%N as Hmin by (apply IH; by left).
    apply elem_of_cons in Hx as [->|[->|Hx]%elem_of_cons]; [lia|lia|]. apply IH. by right.
Qed.

Lemma fetch_min_spec epoch_of l :
  (∀ a, a ∈ l → is_Some (epoch_of a)) →
  ∃ m, fetch_min_epoch (epoch_results epoch_of l) = Ok m ∧ ∀ a e, a ∈ l → epoch_of a = Some e → (m ≤ e)%N.
Proof.
  intros Hl. unfold fetch_min_epoch. set (g := λ x : outcome string N, match x with Ok e => e | _ => 0%N end).
  rewrite (omapM_Ok id g).
  2: { intros x (a & -> & [e ->]%Hl)%list_elem_of_fmap. done. }
  eexists. split; [reflexivity|]. intros a e Ha He.
  assert (e ∈ g <$> epoch_results epoch_of l) as Hin.
  { apply list_elem_of_fmap. exists (Ok e). split; [done|]. apply list_elem_of_fmap. exists a. by rewrite He. }
  destruct (g <$> _) as [|e0 es]; [by apply not_elem_of_nil in Hin|]. by apply foldl_min_le.
Qed.

(** The wait between the phases may last for ever: the retries are counted
    for proxies that do not answer only, so that one proxy that answers with an
    old epoch keeps the handler waiting for any number of rounds, with the scale
    lock, and no other request can change the number of nodes. *)
Theorem old_epoch_blocks_scaling `{UnicodeCase} undermoon_version config n t v name num addresses epoch i start env a e :
  sv_handlers v !! t = Some (WaitingEpoch name num addresses epoch i start) → sv_scale_lock v = true →
  (∀ b, b ∈ addresses → is_Some (en_epoch_of env b)) → a ∈ addresses → en_epoch_of env a = Some e → (e < epoch)%N →
  run_steps (service_step undermoon_version config) (replicate n (Run t env)) v = Some v ∧
  ∀ t' rq, sv_handlers v !! t' = Some (Started rq) → needs_scale_lock rq = true →
    run_handler undermoon_version config env t' v = Some (set_handler t' (Returned rq (Err NodeNumberChanging)) v).
Proof.
  intros Ht Hl Hall Ha He Hlt. assert (service_step undermoon_version config (Run t env) v = Some v) as Hstep.
  { cbn. unfold run_handler. rewrite Ht. cbn [mbind option_bind].
    destruct (fetch_min_spec (en_epoch_of env) addresses Hall) as (m & -> & Hm). specialize (Hm a e Ha He). cbn [wait_round].
    destruct (N.leb_spec epoch m) as [Hle|_]; [lia|]. f_equal. destruct v. unfold set_handler. cbn in *. by rewrite insert_id. }
  split; [induction n as [|n IH]; [done|]; cbn [replicate]; by rewrite run_steps_cons, Hstep|].
  intros t' rq Ht' Hneed. unfold run_handler. rewrite Ht'. cbn. unfold run_started. by rewrite Hneed, Hl.
Qed.

Lemma old_epoch_blocks_scaling_witness :
  let h := WaitingEpoch "demo" 8 ["a:70"; "b:70"] 5 0 (store_new false) in
  let v := mkService (store_new false) true [] None {[ 0 := h ]} in
  run_steps (service_step (H := ascii_case) "v" demo_broker_config)
    (replicate 40 (Run 0 (mkEnv canonical_order 0 (λ _, true) (λ _, Some 4%N) (Ok true)))) v = Some v.
Proof.
  intros h v. destruct (old_epoch_blocks_scaling (H := ascii_case) "v" demo_broker_config 40 0 v "demo" 8 ["a:70"; "b:70"] 5 0
    (store_new false) (mkEnv canonical_order 0 (λ _, true) (λ _, Some 4%N) (Ok true)) "a:70" 4) as [Hrun _];
    [reflexivity|reflexivity|by eexists|by left|reflexivity|reflexivity|].
  exact Hrun.
Defined.

(** A broker between the two phases. *)
Definition demo_stored : MetaStore := Reach.run (take 7 demo_requests) (store_new false).
Definition demo_actions : list ServiceAction := [Receive 0 (PostAuto "demo" 8); Run 0 demo_env; Run 0 demo_env].
Definition between_phases (stored : MetaStore) : option (Service * Handler * MetaStore) :=
  v ← match service_new false [] (Some stored) with Ok v => Some v | _ => None end;
  v ← run_steps (service_step (H := ascii_case) "v" demo_broker_config) demo_actions v;
  h ← sv_handlers v !! 0;
  start ← first_phase h;
  Some (v, h, start).

Lemma between_phases_reachable stored v h start :
  between_phases stored = Some (v, h, start) →
  service_reachable (H := ascii_case) "v" demo_broker_config v ∧ sv_handlers v !! 0 = Some h ∧ first_phase h = Some start.
Proof.
  unfold between_phases. intros Hv.
  destruct (service_new false [] (Some stored)) as [v0|?|] eqn:Hnew; cbn [mbind option_bind] in Hv; [|discriminate..].
  destruct (run_steps (service_step "v" demo_broker_config) demo_actions v0) as [v1|] eqn:Hrun; cbn [mbind option_bind] in Hv; [|discriminate].
  destruct (sv_handlers v1 !! 0) as [h1|] eqn:Hh; cbn [mbind option_bind] in Hv; [|discriminate].
  destruct (first_phase h1) as [start1|] eqn:Hp; cbn [mbind option_bind] in Hv; [|discriminate].
  injection Hv as <- <- <-. split; [|done]. revert Hrun. apply run_steps_invariant; [intros a w w' _ Hw; by apply service_next|].
  exact (service_start _ _ _ _ _ _ Hnew).
Qed.

Lemma scaling_undisturbed_witness : ∃ v h start,
  between_phases demo_stored = Some (v, h, start) ∧ calm (H := ascii_case) "v" demo_broker_config start (sv_store v).
Proof.
  assert (is_Some (between_phases demo_stored)) as [[[v h] start] Hv] by (apply not_eq_None_Some; vm_compute; discriminate).
  destruct (between_phases_reachable _ _ _ _ Hv) as (Hreach & Hh & Hp). exists v, h, start. split; [exact Hv|].
  exact (proj2 (scaling_undisturbed (H := ascii_case) "v" demo_broker_config v Hreach) 0 h start Hh Hp).
Defined.
