(* ===== verification/Lifecycle.v ===== *)
(** * The life of a migration

    The broker shows the migrations of a cluster to proxies and coordinators,
    as many at a time as [migration_limit] allows; a coordinator that sees a
    task finished commits it.  This file shows that every task shown is
    accepted, that there is a task to work on as long as the cluster is
    migrating, and that after the last commit every master owns its share. *)

From S2P Require Import Prelude RangeList RustStr ClusterMeta Store SlotInv Query Migrate Plan.
From S2P Require Import Balance Commit ChunkAlloc Update Registry NewChunks Failover Broker Reach.

(** ** What is shown *)

(** The migration tasks in the metadata of a cluster. *)
Definition shown_tasks (s : MetaStore) (name : string) (limit : N)
  : list (RangeList * MigrationMeta) :=
  match get_cluster_by_name s name limit with
  | Ok (Some c) => tasks_of true (cluster_nodes c)
  | _ => []
  end.

(** The commit a coordinator sends for such a task. *)
Definition task_of (name : ClusterName) (t : RangeList * MigrationMeta) : MigrationTaskMeta :=
  mkMigrationTaskMeta name (mkSlotRange t.1 (Migrating t.2)).

Section shown.
Context (s : MetaStore) (name : string) (n : ClusterName) (cs : ClusterStore) (limit : N).
Hypothesis Hwf : store_wf s.
Hypothesis Hname : cluster_name_try_from name = Some n.
Hypothesis Hcs : clusters s !! n = Some cs.

Lemma get_cluster_by_name_Ok :
  ∃ cs' ns, limit_migration cs limit = Ok cs' ∧ slots_wf (cs_chunks cs') ∧
    get_cluster_by_name s name limit = Ok (Some (mkCluster n (cs_epoch cs) ns (cs_config cs))) ∧
    cluster_view (cs_chunks cs') ns.
Proof.
  unfold get_cluster_by_name. rewrite Hname.
  destruct (get_cluster_store_Ok s n cs limit (wf_slots _ Hwf) Hcs)
    as (cs' & -> & Hlim & Hwf' & He & Hn & Hc). outcome_simpl.
  destruct (cluster_store_to_cluster_Ok cs' Hwf') as (ns & -> & Hv). outcome_simpl.
  exists cs', ns. split_and!; try done. by rewrite He, Hn, Hc, (sf_name _ Hwf _ _ Hcs).
Qed.

Lemma render_epoch chunks k :
  slots_wf chunks → k ∈ keys_of true (all_entries chunks) →
  mm_epoch (render_meta chunks k.2) = ms_epoch k.2.
Proof.
  intros Hw (e & He & _ & <-)%elem_of_keys.
  destruct (entry_indices chunks e) as (H1 & H2 & H3 & H4); [apply Hw..|done|].
  unfold render_meta. cbn [entry_key snd].
  destruct (lookup_lt_is_Some_2 chunks _ H1) as [c ->], (lookup_lt_is_Some_2 chunks _ H3) as [d ->].
  cbn [mbind option_bind]. destruct (part_address_Some c _ H2) as [[? ?] ->].
  by destruct (part_address_Some d _ H4) as [[? ?] ->].
Qed.

(** A task that is shown is a migration of the cluster. *)
Lemma shown_entry t :
  t ∈ shown_tasks s name limit →
  ∃ e, e ∈ all_entries (cs_chunks cs) ∧ mr_is_migrating e = true ∧
    mr_range_list e = t.1 ∧ ms_epoch (mr_meta e) = mm_epoch t.2.
Proof.
  destruct get_cluster_by_name_Ok as (cs' & ns & Hlim & Hwf' & Hget & Hv).
  unfold shown_tasks. rewrite Hget. cbn [cluster_nodes]. rewrite (cv_tasks _ _ Hv true).
  intros (k & -> & Hk)%list_elem_of_fmap.
  destruct (limit_migration_spec cs limit (wf_slots _ Hwf _ _ Hcs))
    as (cs1 & Hlim1 & _ & _ & _ & _ & _ & _ & Hsub & _).
  rewrite Hlim in Hlim1. simplify_eq. pose proof (Hsub _ Hk) as Hin.
  apply elem_of_keys in Hin as (e & He & Hm & Hkey). exists e.
  unfold render_key. cbn [fst snd]. rewrite (render_epoch _ _ Hwf' Hk), <- Hkey. done.
Qed.

Lemma shown_progress : migrations (cs_chunks cs) ≠ 0 → shown_tasks s name limit ≠ [].
Proof.
  destruct get_cluster_by_name_Ok as (cs' & ns & Hlim & Hwf' & Hget & Hv).
  unfold shown_tasks. rewrite Hget. cbn [cluster_nodes]. intros Hne Hnil. apply Hne.
  destruct (limit_migration_spec cs limit (wf_slots _ Hwf _ _ Hcs))
    as (cs1 & Hlim1 & _ & _ & _ & _ & _ & _ & _ & Hprog & _).
  rewrite Hlim in Hlim1. simplify_eq. apply Hprog. unfold migrations.
  pose proof (cv_tasks _ _ Hv true) as Hperm. rewrite Hnil in Hperm.
  apply Permutation_length in Hperm. rewrite length_fmap in Hperm. by cbn in Hperm.
Qed.
End shown.

(** ** One commit *)

Lemma migrations_committed chunks e chunks' :
  mr_is_migrating e = true → committed chunks e chunks' →
  migrations chunks = S (migrations chunks').
Proof.
  intros Hm [_ _ _ Hperm _]. unfold migrations.
  rewrite (keys_of_perm _ _ _ Hperm), !keys_of_cons, Hm. done.
Qed.

Lemma commit_entry_Ok s n cs task e :
  store_wf s → room 1 s → clusters s !! n = Some cs → e ∈ all_entries (cs_chunks cs) →
  mr_is_migrating e = true → mtm_cluster_name task = n →
  sr_range_list (mtm_slot_range task) = mr_range_list e →
  tag_epoch (sr_tag (mtm_slot_range task)) = Some (ms_epoch (mr_meta e)) →
  ∃ s' cs', commit_migration_task task s = (s', Ok ()) ∧ clusters s' !! n = Some cs' ∧
    committed (cs_chunks cs) e (cs_chunks cs') ∧
    commit_chunks (mr_range_list e) (mr_meta e) (cs_chunks cs) = Ok (cs_chunks cs').
Proof.
  intros Hwf Hr Hcs He Hm Hn Hrl Hep. pose proof (wf_slots _ Hwf _ _ Hcs) as Hs.
  unfold commit_migration_task, find_cluster, get_store, lift, put_cluster, put_store, mbind, SM_bind.
  rewrite Hn, Hcs, Hrl, Hep. cbn [ok_or].
  pose proof (mirror_entry _ _ (sw_mirrored _ Hs) He false) as He'.
  destruct (find_task _ _ _ true) as [[si sp]|] eqn:Hsrc.
  2: { exfalso. by apply (find_task_None _ _ _ _ _ Hsrc He). }
  destruct (find_task _ _ _ false) as [[di dp]|] eqn:Hdst.
  2: { exfalso. by apply (find_task_None _ _ _ _ _ Hdst He'). }
  destruct (find_task_pair _ _ _ _ _ _ _ Hs Hsrc Hdst) as (e1 & He1 & Hm1 & Hrl1 & Hmeta).
  assert (e1 = e) as -> by (by eapply migrating_unique).
  destruct (commit_chunks_spec (cs_chunks cs) e Hs He Hm) as (chunks' & Heq & Hcm).
  cbn [ok_or]. rewrite <- Hmeta, Heq. do 2 eexists. split; [reflexivity|].
  split_and!; [apply lookup_insert_eq|exact Hcm|done].
Qed.

(** ** All commits *)

(** [k] commits of tasks that were shown, each accepted. *)
Inductive commits `{HashOrder} `{UnicodeCase} (name : string) (limit : N)
  : nat → MetaStore → MetaStore → Prop :=
| commits_none s : commits name limit 0 s s
| commits_more k s s1 s2 t :
    commits name limit k s s1 → t ∈ shown_tasks s1 name limit →
    commit_migration (task_of name t) false s1 = (s2, Ok ()) →
    commits name limit (S k) s s2.

Section commits.
Context `{HashOrder} `{UnicodeCase}.
Context (name : string) (limit : N).
Hypothesis Hname : cluster_name_try_from name = Some name.

Lemma commit_shown s cs t :
  store_wf s → room 1 s → clusters s !! name = Some cs → t ∈ shown_tasks s name limit →
  ∃ s' cs' e, commit_migration (task_of name t) false s = (s', Ok ()) ∧
    clusters s' !! name = Some cs' ∧ mr_is_migrating e = true ∧
    e ∈ all_entries (cs_chunks cs) ∧ committed (cs_chunks cs) e (cs_chunks cs').
Proof.
  intros Hwf Hr Hcs Ht.
  destruct (shown_entry s name name cs limit Hwf Hname Hcs t Ht) as (e & He & Hm & Hrl & Hep).
  destruct (commit_entry_Ok s name cs (task_of name t) e) as (s' & cs' & Heq & Hcs' & Hcm & _);
    try done; [by cbn; rewrite Hep|].
  exists s', cs', e. split_and!; try done.
  unfold commit_migration, mbind, SM_bind. by rewrite Heq.
Qed.

(** The state after some commits: the invariant, the number of migrations
    left and the balance. *)
Lemma commits_spec k s s' cs m :
  store_wf s → room (N.of_nat k) s → clusters s !! name = Some cs → balanced m (cs_chunks cs) →
  commits name limit k s s' →
  store_wf s' ∧ (global_epoch s' ≤ global_epoch s + N.of_nat k)%N ∧
  ∃ cs', clusters s' !! name = Some cs' ∧ balanced m (cs_chunks cs') ∧
    migrations (cs_chunks cs) = k + migrations (cs_chunks cs').
Proof.
  intros Hwf Hr Hcs Hbal Hcommits. induction Hcommits as [s|k s s1 s2 t _ IH Ht Heq].
  { split_and!; [done|lia|]. by exists cs. }
  destruct IH as (Hwf1 & Hg1 & cs1 & Hcs1 & Hb1 & Hnum); [done|unfold room in *; lia|done|].
  assert (room 1 s1) as Hr1 by (unfold room in *; lia).
  destruct (commit_shown s1 cs1 t Hwf1 Hr1 Hcs1 Ht) as (s2' & cs2 & e & Heq' & Hcs2 & Hm & He & Hcm).
  rewrite Heq in Heq'. simplify_eq.
  pose proof (commit_migration_task_step (task_of name t) s1 Hwf1 Hr1) as Hstep.
  unfold commit_migration, mbind, SM_bind in Heq. unfold wp in Hstep.
  destruct (commit_migration_task (task_of name t) s1) as [s3 [[]|?|]]; [|done|done].
  injection Heq as ->.
  destruct Hstep as (Hwf2 & _ & Hg2). split_and!; [done|cbn in *; lia|]. exists cs2. split_and!.
  - done.
  - exact (committed_balanced _ _ _ _ (wf_slots _ Hwf1 _ _ Hcs1) He Hcm Hb1).
  - rewrite Hnum, (migrations_committed _ _ _ Hm Hcm). lia.
Qed.
End commits.

Lemma no_migrations chunks : slots_wf chunks → migrations chunks = 0 → all_entries chunks = [].
Proof.
  intros Hwf Hm. apply elem_of_nil_inv. intros e He.
  pose proof (mirror_entry _ _ (sw_mirrored _ Hwf) He true) as He'.
  assert (entry_key (set_is_migrating e true) ∈ keys_of true (all_entries chunks)) as Hk
    by (apply elem_of_keys; eauto).
  unfold migrations in Hm. apply length_zero_iff_nil in Hm. rewrite Hm in Hk.
  by apply not_elem_of_nil in Hk.
Qed.

Lemma idle_not_migrating cs : all_entries (cs_chunks cs) = [] → is_migrating cs = false.
Proof.
  intros He. unfold is_migrating. apply not_true_iff_false. intros Hx.
  apply existsb_exists in Hx as (c & Hc%list_elem_of_In & Hm).
  unfold chunk_is_migrating in Hm. by rewrite (no_entries_chunk _ _ He Hc) in Hm.
Qed.

(** Master [j] of chunk [i] owns its share of the slots: the first [m] chunks
    share all slots equally, the others own none. *)
Definition settled (m : nat) (chunks : list ChunkStore) : Prop :=
  0 < m ∧ m ≤ length chunks ∧
  ∀ i c j o, chunks !! i = Some c → arr2_get (ch_stable_slots c) j = Some o →
    if decide (i < m) then ∃ sr, o = Some sr ∧ sr_tag sr = TagNone ∧
      get_slots_num (sr_range_list sr) = share (m * 2) (i * 2 + j)
    else o = None.

Lemma idle_settled cs m :
  cluster_ok cs → balanced m (cs_chunks cs) → all_entries (cs_chunks cs) = [] →
  settled m (cs_chunks cs).
Proof.
  intros Hok Hb He. pose proof (safe_size _ Hok) as Hsize. destruct Hok as (Hs & _ & _).
  pose proof (bl_le _ _ Hb) as Hle. split_and!; [apply Hb|done|].
  destruct (balanced_masters _ _ Hs Hb He) as [H1 H2]; [lia|].
  intros i c j o Hi Hj. pose proof (arr2_get_Some _ _ _ Hj) as Hlt.
  pose proof (lookup_lt_Some _ _ _ Hi) as Hil.
  assert (masters (cs_chunks cs) !! (i * 2 + j) = Some o) as Hm
    by (by rewrite masters_lookup, Hi).
  case_decide as Him.
  - destruct (H1 (i * 2 + j)) as (sr & Hsr & [Htag Hok] & Hc); [lia|]. simplify_eq.
    exists sr. split_and!; try done. by rewrite get_slots_num_ok.
  - rewrite H2 in Hm by lia. congruence.
Qed.

Lemma cluster_name_same name n : cluster_name_try_from name = Some n → n = name.
Proof. unfold cluster_name_try_from. destruct (string_forallb _ _); [|done]. case_bool_decide; congruence. Qed.

(** The last commit settles the cluster. *)
Lemma commits_settle `{HashOrder} `{UnicodeCase} name limit k s s' cs m :
  store_wf s → cluster_name_try_from name = Some name → room (N.of_nat k) s →
  clusters s !! name = Some cs → balanced m (cs_chunks cs) → commits name limit k s s' →
  shown_tasks s' name limit = [] →
  ∃ cs', clusters s' !! name = Some cs' ∧ is_migrating cs' = false ∧ settled m (cs_chunks cs').
Proof.
  intros Hwf Hname Hr Hcs Hb Hcommits Hnil.
  destruct (commits_spec name limit Hname k s s' cs m Hwf Hr Hcs Hb Hcommits)
    as (Hwf' & _ & cs' & Hcs' & Hb' & _).
  assert (all_entries (cs_chunks cs') = []) as He.
  { apply no_migrations; [by eapply wf_slots|].
    destruct (decide (migrations (cs_chunks cs') = 0)) as [|Hne]; [done|].
    by destruct (shown_progress s' name name cs' limit Hwf' Hname Hcs' Hne). }
  exists cs'. split_and!; [done|by apply idle_not_migrating|].
  apply idle_settled; [by eapply sf_cluster|done|done].
Qed.

(** [k] commits, each of the first task shown. *)
Fixpoint drain `{HashOrder} `{UnicodeCase} (k : nat) (name : string) (limit : N) (s : MetaStore)
  : option MetaStore :=
  match k with
  | 0 => Some s
  | S k =>
      s1 ← drain k name limit s;
      match shown_tasks s1 name limit with
      | [] => None
      | t :: _ =>
          match commit_migration (task_of name t) false s1 with
          | (s2, Ok ()) => Some s2
          | _ => None
          end
      end
  end.

Lemma drain_commits `{HashOrder} `{UnicodeCase} k name limit s : ∀ s',
  drain k name limit s = Some s' → commits name limit k s s'.
Proof.
  induction k as [|k IH]; cbn [drain]; intros s'; [intros [= <-]; constructor|].
  destruct (drain k name limit s) as [s1|]; [|done]. cbn [mbind option_bind].
  destruct (shown_tasks s1 name limit) as [|t ts] eqn:Ht; [done|].
  destruct (commit_migration _ _ s1) as [s2 [[]|?|]] eqn:Hc; [|done|done]. intros [= <-].
  eapply commits_more; [by apply IH| |exact Hc]. rewrite Ht. by left.
Qed.

Section demo.
#[local] Existing Instances canonical_order ascii_case.

Definition demo_drained (k : nat) (s : MetaStore) : MetaStore :=
  default s (drain k "demo" 1 s).

(** Before the migration, after it, and on the way back. *)
Definition demo_before : MetaStore := run (take 8 demo_requests) (store_new false).
Definition demo_commit (s : MetaStore) : MetaStore :=
  run ((λ t, CommitMigration (task_of "demo" t) false) <$> take 1 (shown_tasks s "demo" 1)) s.
Definition demo_wide : MetaStore := demo_commit (demo_commit demo_store).
Definition demo_shrink : MetaStore := (migrate_slots_to_scale_down "demo" 4 demo_wide).1.

Lemma demo_before_reachable : reachable demo_before.
Proof. apply run_reachable; [constructor|]. vm_compute. reflexivity. Qed.

Lemma demo_wide_reachable : reachable demo_wide.
Proof.
  apply run_reachable; [apply run_reachable; [exact demo_reachable|]|]; vm_compute; reflexivity.
Qed.
End demo.

(** ** Properties *)

(** C30. A running migration always completes: every task the broker shows is
    accepted when it is committed and leaves one migration less; as long as
    some are left, a task is shown, whatever the migration limit; and when
    none is left the cluster is idle and every master owns its share. *)
Theorem migration_completes `{HashOrder} `{UnicodeCase} name limit k s s' cs :
  reachable s → cluster_name_try_from name = Some name → clusters s !! name = Some cs →
  commits name limit k s s' → room (N.of_nat k + 1) s →
  ∃ cs', clusters s' !! name = Some cs' ∧
    migrations (cs_chunks cs) = k + migrations (cs_chunks cs') ∧
    (migrations (cs_chunks cs') ≠ 0 → shown_tasks s' name limit ≠ []) ∧
    (∀ t, t ∈ shown_tasks s' name limit →
       ∃ s'', commit_migration (task_of name t) false s' = (s'', Ok ())) ∧
    (migrations (cs_chunks cs') = 0 →
       is_migrating cs' = false ∧ ∃ m, settled m (cs_chunks cs')).
Proof.
  intros Hs Hname Hcs Hcommits Hr. pose proof (reachable_wf s Hs) as Hwf.
  destruct (sf_cluster _ Hwf _ _ Hcs) as (_ & [m Hb] & _).
  assert (room (N.of_nat k) s) as Hk by (unfold room in *; lia).
  destruct (commits_spec name limit Hname k s s' cs m Hwf Hk Hcs Hb Hcommits)
    as (Hwf' & Hg & cs' & Hcs' & Hb' & Hnum).
  assert (room 1 s') as Hr' by (unfold room in *; lia).
  exists cs'. split_and!; [done|done|by apply (shown_progress s' name name)| |].
  - intros t Ht. destruct (commit_shown name limit Hname s' cs' t Hwf' Hr' Hcs' Ht)
      as (s'' & _ & _ & ? & _). eauto.
  - intros Hz. apply no_migrations in Hz; [|by eapply wf_slots].
    split; [by apply idle_not_migrating|]. exists m.
    apply idle_settled; [by eapply sf_cluster|done|done].
Qed.

Lemma migration_completes_witness :
  ∃ cs', clusters (demo_drained 1 demo_store) !! "demo" = Some cs' ∧
    migrations (cs_chunks demo_cluster) = 1 + migrations (cs_chunks cs').
Proof.
  destruct (migration_completes (H := canonical_order) (H0 := ascii_case) "demo" 1 1
    demo_store (demo_drained 1 demo_store) demo_cluster) as (cs' & Hcs' & Hnum & _).
  - exact demo_reachable.
  - reflexivity.
  - exact demo_lookup.
  - apply drain_commits. vm_compute. reflexivity.
  - vm_compute. reflexivity.
  - exists cs'. exact (conj Hcs' Hnum).
Defined.

(** Scaling out reaches its goal: after [migrate_slots] succeeded and the
    tasks shown were committed until none was left, the masters of all chunks
    of the cluster share the slots equally. *)
Theorem scale_out_completes `{HashOrder} `{UnicodeCase} name limit k s s1 s2 :
  reachable s → room (N.of_nat k + 1) s → migrate_slots name s = (s1, Ok ()) →
  commits name limit k s1 s2 → shown_tasks s2 name limit = [] →
  ∃ cs cs2, clusters s !! name = Some cs ∧ clusters s2 !! name = Some cs2 ∧
    is_migrating cs2 = false ∧ settled (length (cs_chunks cs)) (cs_chunks cs2).
Proof.
  intros Hs Hr Hmig Hcommits Hnil. pose proof (reachable_wf s Hs) as Hwf.
  assert (room 1 s) as Hr1 by (unfold room in *; lia).
  pose proof (migrate_slots_spec name s Hwf Hr1) as Hwp. unfold wp in Hwp. rewrite Hmig in Hwp.
  destruct Hwp as [(Hwf1 & _ & Hg) Hplan].
  destruct (Hplan eq_refl) as (n & cs & cs1 & Hname & Hcs & Hcs1 & _ & Hb).
  assert (n = name) as -> by by apply cluster_name_same.
  destruct (commits_settle name limit k s1 s2 cs1 (length (cs_chunks cs)) Hwf1 Hname)
    as (cs2 & Hcs2 & Hidle & Hset); try done; [unfold room in *; lia|].
  by exists cs, cs2.
Qed.

Lemma scale_out_completes_witness :
  ∃ cs cs2, clusters demo_before !! "demo" = Some cs ∧
    clusters (demo_drained 2 demo_store) !! "demo" = Some cs2 ∧
    is_migrating cs2 = false ∧ settled (length (cs_chunks cs)) (cs_chunks cs2).
Proof.
  apply (scale_out_completes (H := canonical_order) (H0 := ascii_case) "demo" 1 2
    demo_before demo_store (demo_drained 2 demo_store)).
  - exact demo_before_reachable.
  - vm_compute. reflexivity.
  - vm_compute. reflexivity.
  - apply drain_commits. vm_compute. reflexivity.
  - vm_compute. reflexivity.
Defined.

(** Scaling down reaches its goal: after [migrate_slots_to_scale_down] to
    [num] nodes succeeded and the tasks shown were committed until none was
    left, the masters of the first [num / 4] chunks share the slots equally
    and the other chunks are free. *)
Theorem scale_down_completes `{HashOrder} `{UnicodeCase} name num limit k s s1 s2 :
  reachable s → room (N.of_nat k + 1) s → migrate_slots_to_scale_down name num s = (s1, Ok ()) →
  commits name limit k s1 s2 → shown_tasks s2 name limit = [] →
  ∃ cs2, clusters s2 !! name = Some cs2 ∧
    is_migrating cs2 = false ∧ settled (num / 4) (cs_chunks cs2).
Proof.
  intros Hs Hr Hmig Hcommits Hnil. pose proof (reachable_wf s Hs) as Hwf.
  assert (room 1 s) as Hr1 by (unfold room in *; lia).
  pose proof (migrate_slots_to_scale_down_spec name num s Hwf Hr1) as Hwp.
  unfold wp in Hwp. rewrite Hmig in Hwp. destruct Hwp as [(Hwf1 & _ & Hg) Hplan].
  destruct (Hplan eq_refl) as (n & cs & cs1 & Hname & Hcs & Hcs1 & _ & Hb).
  assert (n = name) as -> by by apply cluster_name_same.
  destruct (commits_settle name limit k s1 s2 cs1 (num / 4) Hwf1 Hname)
    as (cs2 & Hcs2 & Hidle & Hset); try done; [unfold room in *; lia|].
  by exists cs2.
Qed.

Lemma scale_down_completes_witness :
  ∃ cs2, clusters (demo_drained 2 demo_shrink) !! "demo" = Some cs2 ∧
    is_migrating cs2 = false ∧ settled (4 / 4) (cs_chunks cs2).
Proof.
  apply (scale_down_completes (H := canonical_order) (H0 := ascii_case) "demo" 4 1 2
    demo_wide demo_shrink (demo_drained 2 demo_shrink)).
  - exact demo_wide_reachable.
  - vm_compute. reflexivity.
  - vm_compute. reflexivity.
  - apply drain_commits. vm_compute. reflexivity.
  - vm_compute. reflexivity.
Defined.

(** The metadata of a cluster is a faithful view of it: whatever the
    migration limit, the nodes of all chunks are shown, every slot is owned by
    exactly one of them, replicas own nothing, every migration is shown at its
    source and at its destination, the range lists are well formed, and the
    tags name the nodes they are at. *)
Theorem cluster_metadata_complete `{UnicodeCase} s name cs limit :
  reachable s → cluster_name_try_from name = Some name → clusters s !! name = Some cs →
  ∃ c, get_cluster_by_name s name limit = Ok (Some c) ∧
    cluster_name c = name ∧ cluster_epoch c = cs_epoch cs ∧
    length (cluster_nodes c) = 4 * length (cs_chunks cs) ∧
    (∀ slot, sum_list_with (node_cover slot) (cluster_nodes c) = owned_once slot) ∧
    Forall (λ n, node_role n = Replica → node_slots n = []) (cluster_nodes c) ∧
    Forall (λ n, Forall (tag_matches_node n) (node_slots n)) (cluster_nodes c) ∧
    tasks_of true (cluster_nodes c) ≡ₚ tasks_of false (cluster_nodes c).
Proof.
  intros Hs Hname Hcs. pose proof (reachable_wf s Hs) as Hwf.
  destruct (get_cluster_by_name_Ok s name name cs limit Hwf Hname Hcs)
    as (cs' & ns & Hlim & Hwf' & Hget & Hv).
  destruct (limit_migration_spec cs limit (wf_slots _ Hwf _ _ Hcs)) as (cs1 & Hlim1 & _ & Hfr & _).
  rewrite Hlim in Hlim1. simplify_eq. eexists. split; [exact Hget|].
  cbn [cluster_name cluster_epoch cluster_nodes]. split_and!; try done.
  - by rewrite (view_length _ _ Hv), (frames_length _ _ Hfr).
  - intros slot. rewrite (cv_cover _ _ Hv). apply Hwf'.
  - apply (cv_replicas _ _ Hv).
  - apply (cv_tags _ _ Hv).
  - apply (cluster_view_paired _ _ Hv), Hwf'.
Qed.

Lemma cluster_metadata_complete_witness :
  ∃ c, get_cluster_by_name demo_store "demo" 1 = Ok (Some c) ∧
    ∀ slot, sum_list_with (node_cover slot) (cluster_nodes c) = owned_once slot.
Proof.
  destruct (cluster_metadata_complete (H := ascii_case) demo_store "demo" demo_cluster 1
    demo_reachable eq_refl demo_lookup) as (c & Hget & _ & _ & _ & Hcov & _).
  exists c. exact (conj Hget Hcov).
Defined.

(** C39. The migration limit is respected: the cluster shown runs at most
    [limit] migrations and at most one out of each master, it owns the same
    slots as the stored one, and its migrations are migrations of the stored
    cluster. *)
Theorem limit_migration_respected `{UnicodeCase} s n cs limit :
  reachable s → clusters s !! n = Some cs → limit ≠ 0%N →
  ∃ cs', limit_migration cs limit = Ok cs' ∧
    (N.of_nat (migrations (cs_chunks cs')) ≤ limit)%N ∧
    (∀ p, outgoing (cs_chunks cs') p ≤ MAX_MIGRATING_OUT) ∧
    (∀ slot, chunks_cover slot (cs_chunks cs') = chunks_cover slot (cs_chunks cs)) ∧
    (∀ k, k ∈ keys_of true (all_entries (cs_chunks cs')) →
       k ∈ keys_of true (all_entries (cs_chunks cs))).
Proof.
  intros Hs Hcs Hl. pose proof (wf_slots _ (reachable_wf s Hs) _ _ Hcs) as Hwf.
  destruct (limit_migration_spec cs limit Hwf)
    as (cs' & Heq & Hwf' & _ & _ & _ & _ & Hnum & Hsub & _).
  destruct (Hnum Hl) as [H1 H2]. exists cs'. split_and!; try done.
  intros slot. by rewrite (sw_partition _ Hwf'), (sw_partition _ Hwf).
Qed.

Lemma limit_migration_respected_witness :
  ∃ cs', limit_migration demo_cluster 1 = Ok cs' ∧
    (N.of_nat (migrations (cs_chunks cs')) ≤ 1)%N.
Proof.
  destruct (limit_migration_respected (H := ascii_case) demo_store "demo" demo_cluster 1
    demo_reachable demo_lookup ltac:(discriminate)) as (cs' & H1 & H2 & _).
  exists cs'. exact (conj H1 H2).
Defined.

(** C31. Failover: whatever [replace_failed_proxy] answers for a proxy of a
    cluster, an error included, afterwards no node of the failed proxy is a
    master in the metadata shown and every slot of the cluster still has exactly
    one owner; and if it answers with a new proxy, the failed one is free of the
    cluster and the new one is told a complete slot table. *)
Theorem failover_moves_masters `{HashOrder} `{UnicodeCase} s failed pr name limit :
  reachable s → room 2 s → cluster_name_try_from name = Some name →
  all_proxies s !! failed = Some pr → pr_cluster pr = Some name →
  ∃ s' r c, replace_failed_proxy failed limit s = (s', r) ∧ replace_post failed name r s' ∧
    get_cluster_by_name s' name limit = Ok (Some c) ∧
    Forall (λ n, node_proxy_address n = failed → node_role n = Replica) (cluster_nodes c) ∧
    ∃ cs', clusters s' !! name = Some cs' ∧ ∀ slot, chunks_cover slot (cs_chunks cs') = owned_once slot.
Proof.
  intros Hs Hr Hname Hp Hc. pose proof (reachable_wf s Hs) as Hwf.
  pose proof (replace_failed_proxy_step failed limit s Hwf Hr) as Hwp. unfold wp in Hwp.
  destruct (replace_failed_proxy failed limit s) as [s' r] eqn:Heq.
  assert (step_ok 2 s s' ∧ replace_post failed name r s') as [(Hwf' & _ & _) Hpost]
    by (destruct r; [naive_solver..|done]).
  pose proof Hpost as [(cs' & Hcs' & Hno) _].
  destruct (get_cluster_by_name_Ok s' name name cs' limit Hwf' Hname Hcs')
    as (cs1 & ns & Hlim & Hwf1 & Hget & Hv).
  exists s', r. eexists. split_and!; [done|done|exact Hget| |].
  2: { exists cs'. split; [done|]. apply (wf_slots s' Hwf' name cs' Hcs'). }
  destruct (limit_migration_spec cs' limit (wf_slots _ Hwf' _ _ Hcs'))
    as (cs2 & Hlim2 & _ & Hfr & He & Hn & Hconf & _).
  rewrite Hlim in Hlim2. simplify_eq.
  unfold get_cluster_by_name in Hget. rewrite Hname in Hget.
  unfold get_cluster_store in Hget. rewrite Hcs', Hlim in Hget.
  destruct (cluster_store_to_cluster cs2) as [c|?|] eqn:Hcl; cbn [mbind outcome_bind] in Hget;
    rewrite ?Hcl in Hget; [|done|done].
  injection Hget as ->. apply (no_master_nodes failed _ _ Hcl).
  by eapply no_master_frames.
Qed.

Lemma failover_moves_masters_witness :
  ∃ s' r c, replace_failed_proxy (H := canonical_order) "d:70" 1 demo_store = (s', r) ∧
    replace_post "d:70" "demo" r s' ∧ get_cluster_by_name s' "demo" 1 = Ok (Some c) ∧
    Forall (λ n, node_proxy_address n = "d:70" → node_role n = Replica) (cluster_nodes c) ∧
    ∃ cs', clusters s' !! "demo" = Some cs' ∧ ∀ slot, chunks_cover slot (cs_chunks cs') = owned_once slot.
Proof.
  apply (failover_moves_masters (H := canonical_order) (H0 := ascii_case) demo_store "d:70"
    demo_proxy); [exact demo_reachable|vm_compute; reflexivity..].
Defined.

(** ** Beyond the size limit *)

Section beyond.
#[local] Existing Instances canonical_order ascii_case.

(** All requests must succeed. *)
Fixpoint run_strict (rs : list Request) (s : MetaStore) : option MetaStore :=
  match rs with
  | [] => Some s
  | r :: rs => match exec r s with (s', Ok ()) => run_strict rs s' | _ => None end
  end.

(** A cluster of 92 chunks is scaled down to 91. *)
Definition big_requests : list Request :=
  ((λ i, let a := to_string (N.of_nat i) in
      AddProxy (a +:+ ":1") (Arr2 (a +:+ ":2") (a +:+ ":3")) None (Some (N.of_nat i))) <$>
    seq 0 184) ++
  [AddCluster "big" 368 default_cluster_config; MigrateSlotsToScaleDown "big" 364].

Definition big_cover (slot : N) : option nat :=
  s ← run_strict big_requests (store_new true);
  cs ← clusters s !! "big";
  Some (chunks_cover slot (cs_chunks cs)).

Lemma big_cover_5 : big_cover 16209 = Some 5.
Proof. vm_compute. reflexivity. Qed.

(** C40. The limit of [MAX_SAFE_CHUNKS] chunks is sharp: with 92 chunks, the
    smallest number beyond it, scaling down to 91 succeeds and leaves slot
    16209 with five owners.  A master whose share does not grow still receives
    an inverted range, which [RangeList::new] turns round. *)
Theorem scale_down_duplicates_slots :
  ∃ s cs, run_strict big_requests (store_new true) = Some s ∧ clusters s !! "big" = Some cs ∧
    chunks_cover 16209 (cs_chunks cs) = 5.
Proof.
  pose proof big_cover_5 as H. unfold big_cover in H.
  destruct (run_strict big_requests (store_new true)) as [s|]; [|discriminate].
  cbn [mbind option_bind] in H. destruct (clusters s !! "big") as [cs|] eqn:Hcs; [|discriminate].
  cbn [mbind option_bind] in H. injection H as H. by exists s, cs.
Qed.
End beyond.
