(* ===== verification/Limit.v ===== *)
(** * Migrations that were started keep running

    The comment of [limit_migration] in [src/src/broker/store.rs] promises
    that a migration the broker once let through is not taken back when
    another one finishes.  [select] of [SlotInv] says which migrations the
    loop lets through; here a commit is shown to remove one entry from the
    list it works on, and removing a selected entry to keep the others. *)

From S2P Require Import Prelude RangeList RustStr ClusterMeta Store SlotInv Query Migrate Plan.
From S2P Require Import Balance Commit ChunkAlloc Update Registry NewChunks Failover Broker Reach.
From S2P Require Import Lifecycle.

(** ** Removing a selected entry *)

Section select.
Context (limit : N).
Implicit Types (R : list MigrationSlotRangeStore) (out : gmap (nat * nat) nat).

Lemma select_full R : ∀ num out, (limit ≤ num)%N → select limit num out R = [].
Proof.
  induction R as [|e R IH]; intros num out Hn; cbn [select]; [done|].
  destruct (mr_is_migrating e); [|by apply IH].
  rewrite (proj2 (N.leb_le limit num) Hn). by apply IH.
Qed.

Lemma select_migrating R : ∀ num out,
  select limit num out (filter (λ e, mr_is_migrating e = true) R) = select limit num out R.
Proof.
  induction R as [|e R IH]; intros num out; [done|]. rewrite filter_cons. cbn [select].
  destruct (mr_is_migrating e) eqn:Hm.
  - rewrite decide_True by done. cbn [select]. rewrite Hm. by rewrite !IH.
  - by rewrite decide_False.
Qed.

Lemma select_sub R : ∀ num out f, f ∈ select limit num out R → f ∈ R.
Proof.
  induction R as [|e R IH]; intros num out f; cbn [select]; [done|].
  destruct (mr_is_migrating e); [|intros; right; by eapply IH].
  destruct (_ || _); [intros; right; by eapply IH|].
  rewrite !elem_of_cons. intros [->|Hf]; [by left|right; by eapply IH].
Qed.

(** With one migration less out of part [p], the same ones are selected. *)
Lemma select_less R : ∀ num out out' p f,
  (num < limit)%N → default 0 (out !! p) = 0 →
  (∀ q, (default 0 (out' !! q) = if decide (q = p) then 1 else default 0 (out !! q))) →
  f ∈ select limit (num + 1) out' R → f ∈ select limit num out R.
Proof.
  induction R as [|e R IH]; intros num out out' p f Hn Hp Hout; cbn [select]; [done|].
  destruct (mr_is_migrating e); [|by apply (IH _ _ _ p)].
  rewrite (proj2 (N.leb_gt limit num) Hn). rewrite Hout. unfold MAX_MIGRATING_OUT. cbn [orb].
  destruct (decide (entry_place e = p)) as [<-|Hne].
  - rewrite Hp, (bool_decide_eq_false_2 (1 ≤ 0)), (bool_decide_eq_true_2 (1 ≤ 1)) by lia.
    rewrite orb_true_r. intros Hf. right. erewrite select_ext; [exact Hf|].
    intros q. rewrite lookup_insert, Hout. repeat case_decide; congruence || done.
  - destruct (bool_decide (1 ≤ default 0 (out !! entry_place e))) eqn:Hb.
    { rewrite orb_true_r. by apply (IH _ _ _ p). }
    rewrite orb_false_r. destruct (N.leb_spec limit (num + 1)) as [Hfull|Hlt].
    { rewrite select_full by done. by intros ?%not_elem_of_nil. }
    rewrite !elem_of_cons. intros [->|Hf]; [by left|]. right. revert Hf.
    apply (IH _ _ _ p); [lia| |].
    + by rewrite lookup_insert_ne.
    + intros q. rewrite !lookup_insert.
      destruct (decide (entry_place e = q)) as [<-|Hq]; [by rewrite decide_False|apply Hout].
Qed.

Lemma select_remove R e : ∀ num out,
  NoDup R → e ∈ select limit num out R →
  ∀ f, f ∈ select limit num out R → f ≠ e → f ∈ select limit num out (filter (λ x, x ≠ e) R).
Proof.
  induction R as [|x R IH]; intros num out Hnd He f Hf Hne; [done|].
  apply NoDup_cons in Hnd as [Hx Hnd]. rewrite filter_cons. cbn [select] in He, Hf.
  destruct (decide (x ≠ e)) as [Hxe|Hxe%dec_stable].
  - cbn [select]. destruct (mr_is_migrating x); [|by apply IH].
    destruct (_ || _); [by apply IH|]. apply elem_of_cons in He as [?|He]; [congruence|].
    apply elem_of_cons in Hf as [->|Hf]; [by left|]. right. by apply IH.
  - subst x. assert (∀ n o, e ∉ select limit n o R) as Hno.
    { intros n o Hin. by apply Hx, (select_sub R n o). }
    rewrite (filter_all _ R) by (intros y Hy ->; done).
    destruct (mr_is_migrating e); [|by destruct (Hno _ _ He)].
    destruct (_ || _) eqn:Hskip; [by destruct (Hno _ _ He)|].
    apply orb_false_iff in Hskip as [Hn%N.leb_gt Hc%bool_decide_eq_false].
    unfold MAX_MIGRATING_OUT in Hc. apply elem_of_cons in Hf as [?|Hf]; [done|].
    eapply (select_less _ _ _ _ (entry_place e)); [done|lia| |exact Hf].
    intros q. rewrite lookup_insert.
    destruct (decide (entry_place e = q)) as [<-|Hq]; [rewrite decide_True by done; cbn; lia|].
    by rewrite decide_False.
Qed.
End select.

(** ** What a commit does to the entries *)

Definition outs (chunks : list ChunkStore) : list MigrationSlotRangeStore :=
  filter (λ e, mr_is_migrating e = true) (all_entries chunks).

Lemma outs_cons c chunks :
  outs (c :: chunks) = filter (λ e, mr_is_migrating e = true) (chunk_entries c) ++ outs chunks.
Proof. unfold outs. by rewrite all_entries_cons, filter_app. Qed.

Lemma remove_first_outs rl meta l x l' :
  remove_first (is_task false rl meta) l = Some (x, l') →
  filter (λ e, mr_is_migrating e = true) l' = filter (λ e, mr_is_migrating e = true) l.
Proof.
  revert x l'. induction l as [|y l IH]; intros x l'; cbn [remove_first]; [done|].
  destruct (is_task false rl meta y) eqn:Hy.
  - intros [= <- <-]. apply bool_decide_eq_true in Hy as [Hm _]. rewrite filter_cons, Hm.
    by rewrite decide_False.
  - destruct (remove_first _ l) as [[z r]|]; [|done]. cbn. intros [= <- <-].
    rewrite !filter_cons. erewrite IH by done. done.
Qed.

Lemma commit_importing_outs rl meta chunks : ∀ chunks',
  commit_importing rl meta chunks = Ok chunks' → outs chunks' = outs chunks.
Proof.
  induction chunks as [|c chunks IH]; intros chunks'; cbn [commit_importing]; [by intros [= <-]|].
  destruct (take_importing rl meta c) as [[[j e] c1]|] eqn:Ht.
  - destruct (commit_stable j (mr_range_list e) c1) as [c2|] eqn:Hc2; [|done].
    cbn [expect mbind outcome_bind]. intros [= <-]. rewrite !outs_cons. f_equal.
    assert (ch_migrating_slots c2 = ch_migrating_slots c1) as Hm.
    { unfold commit_stable in Hc2. destruct (arr2_get _ _); [|done]. by injection Hc2 as <-. }
    unfold chunk_entries. rewrite Hm, !filter_app. unfold take_importing in Ht.
    destruct (remove_first _ (at0 _)) as [[x l]|] eqn:H0.
    { injection Ht as <- <- <-. cbn. by rewrite (remove_first_outs _ _ _ _ _ H0). }
    destruct (remove_first _ (at1 _)) as [[x l]|] eqn:H1; [|done].
    injection Ht as <- <- <-. cbn. by rewrite (remove_first_outs _ _ _ _ _ H1).
  - destruct (commit_importing rl meta chunks) as [rest|?|]; [|done|done].
    cbn [mbind outcome_bind]. intros [= <-]. rewrite !outs_cons. f_equal. by apply IH.
Qed.

Lemma compact_slots_entries chunks :
  all_entries (compact_slots chunks) = compact_entry <$> all_entries chunks.
Proof.
  induction chunks as [|c chunks IH]; [done|]. unfold compact_slots in *.
  rewrite fmap_cons, !all_entries_cons, fmap_app, IH. f_equal.
  unfold chunk_entries. cbn. by rewrite fmap_app.
Qed.

Lemma compact_entry_id e : entry_ok e → compact_entry e = e.
Proof.
  intros [[Hc Hb] _]. unfold compact_entry. rewrite compact_id; [by destruct e| |done].
  by apply in_bounds_no_wrap.
Qed.

Lemma commit_outs chunks e chunks' :
  slots_wf chunks → mr_is_migrating e = true →
  commit_chunks (mr_range_list e) (mr_meta e) chunks = Ok chunks' →
  outs chunks' = filter (λ x, x ≠ e) (outs chunks).
Proof.
  intros Hwf Hm. unfold commit_chunks. destruct (commit_importing _ _ _) as [c2|?|] eqn:Hc; try done.
  cbn [mbind outcome_bind]. intros [= <-]. apply commit_importing_outs in Hc.
  assert (outs c2 = filter (λ x, x ≠ e) (outs chunks)) as Ho.
  { rewrite Hc. unfold outs. rewrite retain_all_entries, !list_filter_filter.
    apply list_filter_iff. intros x. rewrite <- not_true_iff_false, (is_task_spec e true).
    assert (set_is_migrating e true = e) as -> by (destruct e; cbn in *; by subst). tauto. }
  unfold outs at 1. rewrite compact_slots_entries. rewrite <- Ho. unfold outs.
  assert (Forall entry_ok (outs c2)) as Hok.
  { rewrite Ho. apply Forall_forall. intros x [_ Hx]%list_elem_of_filter.
    apply list_elem_of_filter in Hx as [_ Hx]. by eapply entries_ok; [apply Hwf|]. }
  unfold outs in Hok. clear -Hok. induction (all_entries c2) as [|x l IH]; [done|].
  rewrite fmap_cons, !filter_cons in *. cbn [mr_is_migrating compact_entry].
  destruct (decide (mr_is_migrating x = true)); [|by apply IH].
  apply Forall_cons in Hok as [Hx Hok]. rewrite IH by done. by rewrite compact_entry_id.
Qed.

Lemma entries_NoDup es :
  Forall entry_ok es → (∀ s, sum_list_with (λ e, cover s (mr_range_list e)) es ≤ 1) → NoDup es.
Proof.
  induction es as [|e es IH]; intros Hok Hsum; [constructor|].
  apply Forall_cons in Hok as [He Hok]. constructor.
  - intros Hin. destruct (entry_slot e He) as [s Hs]. specialize (Hsum s). cbn in Hsum.
    pose proof (sum_list_with_in e (λ e, cover s (mr_range_list e)) es Hin) as Hle. cbn in Hle. lia.
  - apply IH; [done|]. intros s. specialize (Hsum s). cbn in Hsum. lia.
Qed.

Lemma outs_cover s es :
  sum_list_with (λ e, cover s (mr_range_list e)) (filter (λ e, mr_is_migrating e = true) es) =
  sum_list_with (out_cover s) es.
Proof.
  induction es as [|e es IH]; [done|]. rewrite filter_cons. cbn [sum_list_with].
  unfold out_cover at 1. destruct (mr_is_migrating e).
  - rewrite decide_True by done. cbn [sum_list_with]. lia.
  - by rewrite decide_False.
Qed.

Lemma outs_NoDup chunks : slots_wf chunks → NoDup (outs chunks).
Proof.
  intros Hwf. apply entries_NoDup.
  - apply Forall_forall. intros e [_ He]%list_elem_of_filter.
    by eapply entries_ok; [apply Hwf|].
  - intros s. unfold outs. rewrite outs_cover. pose proof (entries_cover_le s chunks) as Hle.
    rewrite (sw_partition _ Hwf s) in Hle. pose proof (owned_once_le s). lia.
Qed.

(** ** Rendering *)

Lemma part_address_frame c d p :
  chunk_frame c = chunk_frame d → part_address c p = part_address d p.
Proof. destruct c, d. unfold chunk_frame, part_address. cbn. intros [= -> -> _ ->]. done. Qed.

Lemma render_frames a b k : frames a = frames b → render_key a k = render_key b k.
Proof.
  intros Hf. assert (∀ i p, (a !! i ≫= λ c, part_address c p) = b !! i ≫= λ c, part_address c p)
    as Hp.
  { intros i p. assert (chunk_frame <$> a !! i = chunk_frame <$> b !! i) as Hi
      by (rewrite <- !list_lookup_fmap; by f_equal).
    destruct (a !! i), (b !! i); try done. cbn in *. apply part_address_frame. congruence. }
  unfold render_key, render_meta. by rewrite !Hp.
Qed.

(** ** The migrations shown *)

Definition let_through (limit : N) (chunks : list ChunkStore) : list MigrationSlotRangeStore :=
  if bool_decide (limit = 0%N) then outs chunks else select limit 0 ∅ (outs chunks).

Lemma let_through_outs limit chunks e : e ∈ let_through limit chunks → e ∈ outs chunks.
Proof. unfold let_through. case_bool_decide; [done|]. apply select_sub. Qed.

Lemma shown_let_through s name cs limit :
  store_wf s → cluster_name_try_from name = Some name → clusters s !! name = Some cs →
  shown_tasks s name limit ≡ₚ
  (λ e, render_key (cs_chunks cs) (entry_key e)) <$> let_through limit (cs_chunks cs).
Proof.
  intros Hwf Hname Hcs.
  destruct (get_cluster_by_name_Ok s name name cs limit Hwf Hname Hcs)
    as (cs' & ns & Hlim & _ & Hget & Hv).
  unfold shown_tasks. rewrite Hget. cbn [cluster_nodes]. rewrite (cv_tasks _ _ Hv true).
  destruct (limit_migration_spec cs limit (wf_slots _ Hwf _ _ Hcs))
    as (cs1 & Hlim1 & _ & Hfr & _ & _ & _ & _ & _ & _ & Hsel).
  rewrite Hlim in Hlim1. simplify_eq.
  rewrite (list_fmap_ext _ (render_key (cs_chunks cs)))
    by (intros; by apply render_frames).
  change (λ e, render_key (cs_chunks cs) (entry_key e))
    with (render_key (cs_chunks cs) ∘ entry_key).
  rewrite list_fmap_compose. f_equiv. unfold let_through. case_bool_decide as H0.
  - unfold limit_migration in Hlim. rewrite bool_decide_eq_true_2 in Hlim by done.
    by injection Hlim as <-.
  - rewrite Hsel by done. unfold outs. by rewrite select_migrating.
Qed.

Lemma let_through_remove limit chunks chunks' e f :
  slots_wf chunks → outs chunks' = filter (λ x, x ≠ e) (outs chunks) →
  e ∈ let_through limit chunks → f ∈ let_through limit chunks → f ≠ e →
  f ∈ let_through limit chunks'.
Proof.
  intros Hwf Ho. unfold let_through. rewrite Ho. case_bool_decide.
  - intros _ Hf Hne. by apply list_elem_of_filter.
  - intros He Hf Hne. apply select_remove; [by apply outs_NoDup|done..].
Qed.

(** Once a migration is shown it stays shown until it is committed:
    committing one task that is shown leaves all the others shown, with the
    same metadata, under the same migration limit. *)
Theorem running_migrations_stay `{HashOrder} `{UnicodeCase} s name cs limit t1 t2 :
  reachable s → room 1 s → cluster_name_try_from name = Some name →
  clusters s !! name = Some cs →
  t1 ∈ shown_tasks s name limit → t2 ∈ shown_tasks s name limit → t2 ≠ t1 →
  ∃ s', commit_migration (task_of name t1) false s = (s', Ok ()) ∧
    t2 ∈ shown_tasks s' name limit.
Proof.
  intros Hs Hr Hname Hcs Ht1 Ht2 Hne. pose proof (reachable_wf s Hs) as Hwf.
  destruct (shown_entry s name name cs limit Hwf Hname Hcs t1 Ht1) as (e & He & Hm & Hrl & Hep).
  rewrite (shown_let_through s name cs limit Hwf Hname Hcs) in Ht1, Ht2.
  apply list_elem_of_fmap in Ht1 as (e1 & Et1 & He1), Ht2 as (e2 & Et2 & He2).
  pose proof (let_through_outs _ _ _ He1) as Ho1. apply list_elem_of_filter in Ho1 as [Hm1 Ho1].
  assert (e = e1) as ->.
  { eapply migrating_unique; [exact (wf_slots _ Hwf _ _ Hcs)|done..|]. by rewrite Hrl, Et1. }
  destruct (commit_entry_Ok s name cs (task_of name t1) e1)
    as (s' & cs' & Heq & Hcs' & Hcm & Hcc); try done; [by cbn; rewrite Hep|].
  pose proof (commit_migration_task_step (task_of name t1) s Hwf Hr) as Hstep.
  unfold wp in Hstep. rewrite Heq in Hstep. destruct Hstep as [Hwf' _].
  exists s'. split; [unfold commit_migration, mbind, SM_bind; by rewrite Heq|].
  rewrite (shown_let_through s' name cs' limit Hwf' Hname Hcs').
  apply list_elem_of_fmap. exists e2. split.
  - rewrite Et2. symmetry. apply render_frames. apply (cm_frames _ _ _ Hcm).
  - pose proof (wf_slots _ Hwf _ _ Hcs) as Hok.
    apply (let_through_remove limit (cs_chunks cs) _ e1); [done| |done|done|congruence].
    by eapply commit_outs.
Qed.

Section demo.
#[local] Existing Instances canonical_order ascii_case.

Definition demo_task (i : nat) : RangeList * MigrationMeta :=
  default ([], mkMigrationMeta 0 "" "" "" "") (shown_tasks demo_store "demo" 2 !! i).

Lemma running_migrations_stay_witness :
  ∃ s', commit_migration (task_of "demo" (demo_task 0)) false demo_store = (s', Ok ()) ∧
    demo_task 1 ∈ shown_tasks s' "demo" 2.
Proof.
  apply (running_migrations_stay demo_store "demo" demo_cluster 2 (demo_task 0) (demo_task 1)).
  - exact demo_reachable.
  - vm_compute. reflexivity.
  - reflexivity.
  - exact demo_lookup.
  - apply (list_elem_of_lookup_2 _ 0). vm_compute. reflexivity.
  - apply (list_elem_of_lookup_2 _ 1). vm_compute. reflexivity.
  - vm_compute. discriminate.
Defined.
End demo.
