(* ===== verification/Sync.v ===== *)
(** * From the broker to the proxies

    Models [src/src/coordinator/sync.rs]: the coordinator takes the metadata of
    a proxy from the broker, keeps the masters, and sends the replication
    roles ([UMCTL SETREPL]) and the slots ([UMCTL SETCLUSTER]) to the proxy as
    two commands.  The results follow the metadata on its way: query in the
    broker, arguments, bytes on the connection, decoding and parsing in the
    proxy. *)

From S2P Require Import Prelude RangeList RustStr Resp Packet ClusterMeta Wire.
From S2P Require Import Store SlotInv Query Broker Reach.

(** ** The coordinator *)

Definition filter_proxy_masters (p : Proxy) : Proxy :=
  mkProxy (proxy_cluster_name p) (proxy_address p) (proxy_epoch p)
    (filter (λ n, node_role n = Master) (get_nodes p)) (proxy_peers p) (proxy_cluster_config p).

Definition proxy_cluster_meta (flags : ClusterMapFlags) (p : Proxy) : ProxyClusterMeta :=
  proxy_cluster_meta_new (proxy_epoch p) flags
    (default EMPTY_CLUSTER_NAME (proxy_cluster_name p))
    (hash_collect ((λ n, (node_address n, node_slots n)) <$> get_nodes p))
    (hash_collect ((λ q, (peer_proxy_address q, peer_slots q)) <$> proxy_peers p))
    (default default_cluster_config (proxy_cluster_config p)).

Definition generate_proxy_meta_cmd_args `{HashOrder} `{MetaCodec} (flags : ClusterMapFlags) (p : Proxy) :
    outcome MetaCompressError (list string) :=
  if compress flags then to_compressed_args (proxy_cluster_meta flags p)
  else Ok (to_args (proxy_cluster_meta flags p)).

(** The loop of [generate_repl_meta_cmd_args] over the nodes. *)
Definition node_repl_meta (name : ClusterName) (n : Node) : MasterMeta + ReplicaMeta :=
  match node_role n with
  | Master => inl (mkMasterMeta name (node_address n) (rm_peers (node_repl n)))
  | Replica => inr (mkReplicaMeta name (node_address n) (rm_peers (node_repl n)))
  end.

Definition proxy_repl_meta (p : Proxy) (flags : ClusterMapFlags) : ReplicatorMeta :=
  let free := (λ a, mkMasterMeta EMPTY_CLUSTER_NAME a []) <$> get_free_nodes p in
  let metas :=
    match proxy_cluster_name p with
    | Some name => node_repl_meta name <$> get_nodes p
    | None => []
    end in
  mkReplicatorMeta (proxy_epoch p) flags
    (free ++ omap (λ x, match x with inl m => Some m | inr _ => None end) metas)
    (omap (λ x, match x with inr r => Some r | inl _ => None end) metas).

Definition generate_repl_meta_cmd_args (p : Proxy) (flags : ClusterMapFlags) : list string :=
  encode_repl_meta (proxy_repl_meta p flags).

(** The command [send_meta] sends. *)
Definition meta_command (sub_command : string) (args : list string) : list bytes :=
  bytes_of <$> ("UMCTL" :: sub_command :: args).

Inductive CoordinateError : Type :=
| CoordIo | MetaMani | MetaData | CoordRedis | InvalidReply | InvalidAddress | CoordInvalidConfig | CompressionError.

(** How [send_meta] takes the reply. *)
Definition send_meta_reply (resp : RespVec) : outcome CoordinateError () :=
  match resp with
  | Error err_str =>
      if bool_decide (err_str = bytes_of "OLD_EPOCH") then Ok () else Err InvalidReply
  | _ => Ok ()
  end.

(** [send_meta_impl] on a connection that answers each command with [reply]:
    the commands sent, and the result. *)
Definition send_meta_impl `{HashOrder} `{MetaCodec} (enable_compression : bool)
    (reply : list bytes → RespVec) (p : Proxy) : list (list bytes) * outcome CoordinateError () :=
  let set_repl := meta_command "SETREPL" (generate_repl_meta_cmd_args p (mkFlags false false)) in
  match send_meta_reply (reply set_repl) with
  | Ok _ =>
      match generate_proxy_meta_cmd_args (mkFlags false enable_compression) (filter_proxy_masters p) with
      | Ok args =>
          let set_cluster := meta_command "SETCLUSTER" args in
          ([set_repl; set_cluster], send_meta_reply (reply set_cluster))
      | Err _ => ([set_repl], Err CompressionError)
      | Panic => ([set_repl], Panic)
      end
  | Err e => ([set_repl], Err e)
  | Panic => ([set_repl], Panic)
  end.

(** ** What arrives at the proxy *)

Definition valid_text (s : string) : Prop := utf8_valid (bytes_of s) = true.

Lemma text_args_command sub args :
  Forall valid_text args →
  text_args ((λ s, Bulk (Str s)) <$> meta_command sub args) = args.
Proof.
  intros Ha. unfold text_args, meta_command. cbn [fmap list_fmap drop].
  induction Ha as [|a args Ha Hargs IH]; [done|]. cbn in *. unfold from_utf8. rewrite Ha.
  cbn. rewrite drop_0 in IH. f_equal; [apply String.string_of_list_ascii_of_string|exact IH].
Qed.

(** A command goes through the connection unchanged, whatever follows it. *)
Lemma command_decoded `{DecoderEnv} {Hb : BtoiLaws} cmd more :
  encodable (command_value cmd) = true →
  ∃ q, decode (D := RespPacket) ((command_to_buf [] cmd).1 ++ more) = (Ok (Some q), more) ∧
    packet_to_resp_vec q = Ok (command_value cmd).
Proof.
  intros Hc. unfold command_to_buf. fold (command_value cmd). rewrite resp_to_buf_encoded. cbn [fst app].
  destruct (parse_resp_encoded (command_value cmd) more Hc) as (ri & Hri & Hreads).
  unfold decode, resp_packet_decode, indexed_decode, parse_indexed_resp. rewrite Hri.
  cbn [mbind outcome_bind]. rewrite take_app_length, drop_app_length.
  eexists. split; [done|]. by apply reads_to_resp_vec.
Qed.

(** ** Slots survive the conversion to maps *)

Definition map_slots_sum (f : SlotRange → nat) (m : NodeMap) : nat :=
  sum_list_with (λ kv, sum_list_with f kv.2) (map_to_list m).
Definition map_cover (slot : N) : NodeMap → nat := map_slots_sum (slot_range_cover slot).

Lemma hash_collect_map {V} (l : list (string * V)) : NoDup l.*1 → hash_collect l = list_to_map l.
Proof.
  intros Hl. apply map_eq. intros k. unfold hash_collect. rewrite hash_inserts_lookup by done.
  by destruct (list_to_map l !! k).
Qed.

Lemma hash_collect_sum f l :
  NoDup l.*1 → map_slots_sum f (hash_collect l) = sum_list_with (λ kv, sum_list_with f kv.2) l.
Proof.
  intros Hl. unfold map_slots_sum. rewrite hash_collect_map by done. by rewrite map_to_list_to_map.
Qed.

Lemma with_slots_sum f m : map_slots_sum f (with_slots m) = map_slots_sum f m.
Proof.
  unfold map_slots_sum, with_slots. rewrite map_filter_alt.
  rewrite map_to_list_to_map by (eapply sublist_NoDup;
    [apply (NoDup_fst_map_to_list m)|apply fmap_sublist, sublist_filter]).
  induction (map_to_list m) as [|[k srs] l IH]; [done|]. rewrite filter_cons.
  case_decide as Hs; cbn [sum_list_with snd]; rewrite IH; [done|].
  cbn in Hs. by rewrite Hs.
Qed.

Lemma hash_collect_lookup {V} (l : list (string * V)) k v :
  hash_collect l !! k = Some v → (k, v) ∈ l.
Proof.
  unfold hash_collect. intros Hk.
  enough (∀ m : gmap string V, foldl (λ m kv, <[kv.1 := kv.2]> m) m l !! k = Some v →
    (k, v) ∈ l ∨ m !! k = Some v) as Hg by (destruct (Hg ∅ Hk) as [?|?]; [done|by rewrite lookup_empty in *]).
  clear Hk. induction l as [|[a x] l IH]; intros m Hk; [by right|]. cbn [foldl fst snd] in Hk.
  destruct (IH _ Hk) as [?|Hm]; [left; by right|].
  apply lookup_insert_Some in Hm as [[-> ->]|[_ ?]]; [left; by left|by right].
Qed.

(** The broker's range lists fit the text form. *)
Lemma range_ok_text l : SlotInv.range_ok l → range_list_ok l.
Proof.
  intros [Hc Hb]. split; [done|]. split; [by apply in_bounds_no_wrap|].
  enough (N.of_nat (length l) ≤ slots_count l)%N.
  { pose proof (slots_count_le l Hc Hb). unfold u64_max, u64_modulus, SLOT_NUM in *. lia. }
  destruct Hc as [Hle _]. clear Hb. unfold slots_count.
  induction Hle as [|r l Hr Hl IH]; cbn [foldr length]; lia.
Qed.

(** ** What a proxy must satisfy to be sent

    The addresses are texts, are not the words that separate the sections and
    differ; the numbers are [u64]; the cluster name is a [ClusterName]; the
    command is not larger than a RESP command can be. *)
Definition epochs_fit (srs : list SlotRange) : Prop :=
  Forall (λ sr, match get_migration_meta (sr_tag sr) with
                | Some meta => (mm_epoch meta ≤ u64_max)%N
                | None => True
                end) srs.

#[global] Instance epochs_fit_dec srs : Decision (epochs_fit srs).
Proof. apply Forall_dec. intros sr. destruct (get_migration_meta _); apply _. Defined.

Record sendable `{UnicodeCase} `{HashOrder} `{MetaCodec} `{DecoderEnv} (p : Proxy) : Prop := {
  sn_epoch : (proxy_epoch p ≤ u64_max)%N;
  sn_name : cluster_name_try_from (default EMPTY_CLUSTER_NAME (proxy_cluster_name p)) =
    Some (default EMPTY_CLUSTER_NAME (proxy_cluster_name p));
  sn_config : config_ok (default default_cluster_config (proxy_cluster_config p));
  sn_nodes : NoDup (node_address <$> proxy_nodes p);
  sn_node : Forall (λ n, is_prefix (node_address n) = false ∧ epochs_fit (node_slots n)) (proxy_nodes p);
  sn_peer : Forall (λ q, is_prefix (peer_proxy_address q) = false ∧ epochs_fit (peer_slots q)) (proxy_peers p);
  sn_text : Forall valid_text (to_args (proxy_cluster_meta (mkFlags false false) (filter_proxy_masters p)));
  sn_size : encodable (command_value (meta_command "SETCLUSTER"
    (to_args (proxy_cluster_meta (mkFlags false false) (filter_proxy_masters p))))) = true;
}.

Section delivery.
Context `{UnicodeCase} `{HashOrder} `{MetaCodec} `{DecoderEnv}.

Lemma slot_ranges_ok srs :
  Forall (λ sr, SlotInv.range_ok (sr_range_list sr)) srs → epochs_fit srs → Forall slot_range_ok srs.
Proof.
  unfold epochs_fit. rewrite !Forall_forall. intros Hr He sr Hsr. split.
  - by apply range_ok_text, Hr.
  - by apply He.
Qed.

Lemma masters_of p n :
  n ∈ get_nodes (filter_proxy_masters p) → n ∈ proxy_nodes p.
Proof.
  unfold filter_proxy_masters, get_nodes. cbn. destruct (proxy_cluster_name p); [|by intros ?%not_elem_of_nil].
  by intros [_ Hn]%list_elem_of_filter.
Qed.

Lemma sent_meta_ok p :
  sendable p →
  Forall (λ n, Forall (λ sr, SlotInv.range_ok (sr_range_list sr)) (node_slots n)) (proxy_nodes p) →
  Forall (λ q, Forall (λ sr, SlotInv.range_ok (sr_range_list sr)) (peer_slots q)) (proxy_peers p) →
  meta_ok (proxy_cluster_meta (mkFlags false false) (filter_proxy_masters p)).
Proof.
  intros [? ? ? ? Hn Hq _ _] Hrn Hrq. unfold meta_ok, proxy_cluster_meta.
  cbn [pcm_version pcm_epoch pcm_cluster_name pcm_local pcm_peer pcm_cluster_config proxy_cluster_meta_new
    filter_proxy_masters proxy_epoch proxy_cluster_name proxy_cluster_config proxy_peers].
  rewrite Forall_forall in Hn. rewrite Forall_forall in Hq.
  rewrite Forall_forall in Hrn. rewrite Forall_forall in Hrq. split_and!; try done.
  - intros a srs Ha. apply hash_collect_lookup, list_elem_of_fmap in Ha as (n & [= -> ->] & Hin).
    apply masters_of in Hin. destruct (Hn n Hin) as [? ?]. split; [done|]. apply slot_ranges_ok; auto.
  - intros a srs Ha. apply hash_collect_lookup, list_elem_of_fmap in Ha as (q & [= -> ->] & Hin).
    destruct (Hq q Hin) as [? ?]. split; [done|]. apply slot_ranges_ok; auto.
Qed.

Lemma sent_local_sum f p name :
  sendable p → proxy_cluster_name p = Some name →
  Forall (λ n, node_role n = Replica → node_slots n = []) (proxy_nodes p) →
  map_slots_sum f (pcm_local (proxy_cluster_meta (mkFlags false false) (filter_proxy_masters p))) =
  sum_list_with (λ n, sum_list_with f (node_slots n)) (proxy_nodes p).
Proof.
  intros Hs Hname Hrep. cbn [pcm_local proxy_cluster_meta proxy_cluster_meta_new].
  unfold get_nodes, filter_proxy_masters. cbn [proxy_cluster_name proxy_nodes]. rewrite Hname.
  unfold get_nodes. rewrite Hname. rewrite hash_collect_sum.
  - clear Hs. induction Hrep as [|n ns Hn Hns IH]; [done|]. rewrite filter_cons. cbn [sum_list_with].
    case_decide as Hm; cbn [fmap list_fmap sum_list_with snd].
    + by rewrite <-IH.
    + rewrite Hn by (by destruct (node_role n)). exact IH.
  - rewrite <-list_fmap_compose. eapply sublist_NoDup; [apply (sn_nodes _ Hs)|].
    apply (fmap_sublist node_address), sublist_filter.
Qed.

Lemma sent_peer_sum f p :
  NoDup (peer_proxy_address <$> proxy_peers p) →
  map_slots_sum f (pcm_peer (proxy_cluster_meta (mkFlags false false) (filter_proxy_masters p))) =
  sum_list_with (λ q, sum_list_with f (peer_slots q)) (proxy_peers p).
Proof.
  intros Hnd. cbn [pcm_peer proxy_cluster_meta proxy_cluster_meta_new].
  rewrite hash_collect_sum by by rewrite <-list_fmap_compose.
  cbn [filter_proxy_masters proxy_peers]. clear. induction (proxy_peers p) as [|q qs IH]; [done|].
  cbn [fmap list_fmap sum_list_with snd]. by rewrite IH.
Qed.

(** What the proxy parses is the metadata of the broker, without the nodes that
    have no slots. *)
Lemma sent_meta_from_resp s address pr name cs limit p :
  store_wf s → all_proxies s !! address = Some pr → pr_cluster pr = Some name →
  clusters s !! name = Some cs → get_proxy_by_address s address limit = Ok (Some p) → sendable p →
  meta_from_resp (command_value (meta_command "SETCLUSTER"
    (to_args (proxy_cluster_meta (mkFlags false false) (filter_proxy_masters p))))) =
    Ok (meta_with_slots (proxy_cluster_meta (mkFlags false false) (filter_proxy_masters p)), true).
Proof.
  intros Hwf Hpr Hname Hcs Hp Hsend.
  destruct (get_proxy_by_address_Ok s address pr limit (wf_slots s Hwf) (wf_distinct s Hwf) Hpr)
    as (p' & Hp' & _ & Hok); [by apply (wf_keys s Hwf)|].
  rewrite Hp in Hp'. injection Hp' as <-. rewrite Hname in Hok. cbn [mbind option_bind] in Hok.
  rewrite Hcs in Hok. destruct Hok as (_ & _ & _ & _ & _ & _ & Hrn & Hrq & _).
  cbn [meta_from_resp command_value]. rewrite text_args_command by apply (sn_text p Hsend).
  by rewrite to_args_print by (done || by apply sent_meta_ok).
Qed.

Lemma sent_meta_parsed s address pr name cs limit p m :
  store_wf s → all_proxies s !! address = Some pr → pr_cluster pr = Some name →
  clusters s !! name = Some cs → get_proxy_by_address s address limit = Ok (Some p) → sendable p →
  meta_from_resp (command_value (meta_command "SETCLUSTER"
    (to_args (proxy_cluster_meta (mkFlags false false) (filter_proxy_masters p))))) = Ok (m, true) →
  m = meta_with_slots (proxy_cluster_meta (mkFlags false false) (filter_proxy_masters p)).
Proof.
  intros Hwf Hpr Hname Hcs Hp Hsend. rewrite (sent_meta_from_resp s address pr name cs limit) by done. by intros [= <-].
Qed.
End delivery.

(** ** Claims *)

(** C13. From the broker to a proxy: the command that the coordinator makes of
    the metadata of a proxy of a cluster, sent over a connection, decoded and
    parsed by the proxy, gives the cluster's epoch, name and configuration, and
    the proxy finds every slot exactly once among its own nodes and its
    peers. *)
Theorem metadata_delivered `{UnicodeCase} `{HashOrder} `{MetaCodec} `{DecoderEnv} {Hb : BtoiLaws}
    s address pr name cs limit p more :
  reachable s → all_proxies s !! address = Some pr → pr_cluster pr = Some name →
  clusters s !! name = Some cs → get_proxy_by_address s address limit = Ok (Some p) → sendable p →
  ∃ args q v m,
    generate_proxy_meta_cmd_args (mkFlags false false) (filter_proxy_masters p) = Ok args ∧
    decode (D := RespPacket) ((command_to_buf [] (meta_command "SETCLUSTER" args)).1 ++ more) = (Ok (Some q), more) ∧
    packet_to_resp_vec q = Ok v ∧ meta_from_resp v = Ok (m, true) ∧
    pcm_epoch m = cs_epoch cs ∧ pcm_cluster_name m = name ∧ pcm_cluster_config m = cs_config cs ∧
    ∀ slot, map_cover slot (pcm_local m) + map_cover slot (pcm_peer m) = owned_once slot.
Proof.
  intros Hs Hpr Hname Hcs Hp Hsend. pose proof (reachable_wf s Hs) as Hwf.
  destruct (get_proxy_by_address_Ok s address pr limit (wf_slots s Hwf) (wf_distinct s Hwf) Hpr)
    as (p' & Hp' & _ & Hok); [by apply (wf_keys s Hwf)|].
  rewrite Hp in Hp'. injection Hp' as <-. rewrite Hname in Hok. cbn [mbind option_bind] in Hok.
  rewrite Hcs in Hok. destruct Hok as (Hn & He & _ & _ & Hnd & Hrep & Hrn & Hrq & Hcfg & Hcov).
  set (m := proxy_cluster_meta (mkFlags false false) (filter_proxy_masters p)).
  destruct (command_decoded (meta_command "SETCLUSTER" (to_args m)) more) as (q & Hq & Hv).
  { apply (sn_size p Hsend). }
  eexists (to_args m), q, _, (meta_with_slots m). split_and!; [done|done|exact Hv| | | | |].
  - cbn [meta_from_resp command_value]. rewrite text_args_command by apply (sn_text p Hsend).
    by rewrite to_args_print by (done || by apply sent_meta_ok).
  - done.
  - cbn. rewrite Hn. cbn. apply (sf_name s Hwf name cs Hcs).
  - cbn. by rewrite Hcfg.
  - intros slot. cbn [pcm_local pcm_peer meta_with_slots]. unfold map_cover. rewrite !with_slots_sum.
    rewrite <-Hcov. f_equal; [by eapply sent_local_sum|by apply sent_peer_sum].
Qed.

(** The roles: the [UMCTL SETREPL] command of a proxy, sent, decoded and
    parsed, gives the epoch and each node of the proxy once, with its role and
    its replication peers. *)
Theorem roles_delivered `{UnicodeCase} `{DecoderEnv} {Hb : BtoiLaws} p name flags more :
  proxy_cluster_name p = Some name → repl_ok (proxy_repl_meta p flags) →
  Forall valid_text (generate_repl_meta_cmd_args p flags) →
  encodable (command_value (meta_command "SETREPL" (generate_repl_meta_cmd_args p flags))) = true →
  ∃ q v m,
    decode (D := RespPacket) ((command_to_buf [] (meta_command "SETREPL" (generate_repl_meta_cmd_args p flags))).1 ++ more)
      = (Ok (Some q), more) ∧
    packet_to_resp_vec q = Ok v ∧ parse_repl_meta v = Ok m ∧ rep_epoch m = proxy_epoch p ∧
    (λ x, (ma_master_node_address x, ma_replicas x)) <$> rep_masters m =
      (λ n, (node_address n, rm_peers (node_repl n))) <$> filter (λ n, node_role n = Master) (proxy_nodes p) ∧
    (λ x, (re_replica_node_address x, re_masters x)) <$> rep_replicas m =
      (λ n, (node_address n, rm_peers (node_repl n))) <$> filter (λ n, node_role n = Replica) (proxy_nodes p).
Proof.
  intros Hname Hok Htext Hsize.
  destruct (command_decoded (meta_command "SETREPL" (generate_repl_meta_cmd_args p flags)) more Hsize)
    as (q & Hq & Hv).
  eexists q, _, (proxy_repl_meta p flags). split_and!; [done|exact Hv| |done| |].
  - cbn [parse_repl_meta command_value]. rewrite text_args_command by done. by apply repl_print.
  - unfold proxy_repl_meta, get_free_nodes, get_nodes. rewrite Hname. cbn [rep_masters fmap list_fmap app].
    induction (proxy_nodes p) as [|n ns IH]; [done|]. rewrite filter_cons. cbn [fmap list_fmap omap list_omap].
    unfold node_repl_meta at 1. case_decide as Hr; destruct (node_role n); try done.
    cbn [fmap list_fmap]. f_equal. exact IH.
  - unfold proxy_repl_meta, get_nodes. rewrite Hname. cbn [rep_replicas].
    induction (proxy_nodes p) as [|n ns IH]; [done|]. rewrite filter_cons. cbn [fmap list_fmap omap list_omap].
    unfold node_repl_meta at 1. case_decide as Hr; destruct (node_role n); try done.
    cbn [fmap list_fmap]. f_equal. exact IH.
Qed.

(** ** Witnesses *)

Definition demo_told : Proxy := Eval vm_compute in
  match get_proxy_by_address demo_store "d:70" 1 with
  | Ok (Some p) => p
  | _ => mkProxy None "" 0 [] [] None
  end.

#[local] Existing Instance ascii_case.
#[local] Existing Instance canonical_order.
#[local] Existing Instance binary_codec.
#[local] Existing Instance env_64.

Lemma demo_told_sendable : sendable demo_told.
Proof.
  split.
  - vm_compute. discriminate.
  - vm_compute. reflexivity.
  - vm_compute. repeat split; discriminate.
  - apply (bool_decide_unpack _). vm_compute. exact I.
  - repeat constructor; vm_compute; try reflexivity; discriminate.
  - repeat constructor; vm_compute; try reflexivity; discriminate.
  - apply (bool_decide_unpack _). vm_compute. exact I.
  - vm_compute. reflexivity.
Qed.

Lemma metadata_delivered_witness : ∃ args q v m,
  generate_proxy_meta_cmd_args (mkFlags false false) (filter_proxy_masters demo_told) = Ok args ∧
  decode (D := RespPacket) ((command_to_buf [] (meta_command "SETCLUSTER" args)).1 ++ []) = (Ok (Some q), []) ∧
  packet_to_resp_vec q = Ok v ∧ meta_from_resp v = Ok (m, true) ∧
  pcm_epoch m = cs_epoch demo_cluster ∧ pcm_cluster_name m = "demo" ∧
  pcm_cluster_config m = cs_config demo_cluster ∧
  ∀ slot, map_cover slot (pcm_local m) + map_cover slot (pcm_peer m) = owned_once slot.
Proof.
  refine (metadata_delivered (Hb := env_64_laws) demo_store "d:70" demo_proxy "demo" demo_cluster 1
    demo_told [] demo_reachable _ _ demo_lookup _ demo_told_sendable); vm_compute; reflexivity.
Defined.

Lemma roles_delivered_witness : ∃ q v m,
  decode (D := RespPacket) ((command_to_buf [] (meta_command "SETREPL"
    (generate_repl_meta_cmd_args demo_told (mkFlags false false)))).1 ++ []) = (Ok (Some q), []) ∧
  packet_to_resp_vec q = Ok v ∧ parse_repl_meta v = Ok m ∧ rep_epoch m = proxy_epoch demo_told ∧
  (λ x, (ma_master_node_address x, ma_replicas x)) <$> rep_masters m =
    (λ n, (node_address n, rm_peers (node_repl n))) <$> filter (λ n, node_role n = Master) (proxy_nodes demo_told) ∧
  (λ x, (re_replica_node_address x, re_masters x)) <$> rep_replicas m =
    (λ n, (node_address n, rm_peers (node_repl n))) <$> filter (λ n, node_role n = Replica) (proxy_nodes demo_told).
Proof.
  refine (roles_delivered (Hb := env_64_laws) demo_told "demo" (mkFlags false false) [] _ _ _ _).
  - vm_compute. reflexivity.
  - split; [vm_compute; discriminate|]. split; repeat constructor; vm_compute; discriminate.
  - apply (bool_decide_unpack _). vm_compute. exact I.
  - vm_compute. reflexivity.
Defined.
