(* ===== verification/Route.v ===== *)
(** * Routing

    The proxies of a cluster that have installed the metadata of the broker,
    and a client that follows their redirections
    ([src/src/proxy/manager.rs], [src/src/migration/manager.rs]).  From any
    proxy of the cluster a command reaches the one proxy that serves its slot
    after at most two redirections, with or without a running migration. *)

From S2P Require Import Prelude RangeList RustStr Resp Packet ClusterMeta Wire Command MetaMap.
From S2P Require Import Store SlotInv Query Migrate Plan Balance Commit ChunkAlloc Update Registry.
From S2P Require Import NewChunks Failover Broker Reach Sync.

(** ** The managers a proxy can have *)

Definition with_state (t : TaskRecord) (s : MigrationState) : TaskRecord :=
  match t with
  | inl m => inl (mkMigratingTask (mt_range_map m) (mt_meta m) (state_to_u16 s) (mt_active_redirection m))
  | inr i => inr (mkImportingTask (it_meta i) (it_range_map i) (state_to_u16 s) (it_active_redirection i))
  end.

(** A task stores a new state ([AtomicMigrationState::set_state]). *)
Definition set_task_state (k : MigrationTaskMeta) (s : MigrationState) (st : MetaManager) : MetaManager :=
  let m := mm_migration_map (mgr_meta_map st) in
  mkMetaManager (mgr_epoch st) (mkMetaMap (mm_cluster_map (mgr_meta_map st))
    (mkMigrationMap (mp_empty m) (mp_cluster_name m) (alter (λ t, with_state t s) k (mp_task_map m)))).

Section managers.
Context `{HashOrder} (config : ServerProxyConfig).

Inductive managed : MetaManager → Prop :=
| managed_new : managed meta_manager_new
| managed_set_meta st m : managed st → managed (set_meta config st m).1.1
| managed_switch st arg sub_cmd : managed st → managed (handle_switch st arg sub_cmd).1
| managed_state st k s : managed st → managed (set_task_state k s st).

(** A task is the one that the range of its key asks for, in some state. *)
Definition task_wf (k : MigrationTaskMeta) (t : TaskRecord) : Prop :=
  ∃ t0 s, new_task (active_redirection config) (mtm_slot_range k) = Some t0 ∧ t = with_state t0 s.

Definition tasks_wf (st : MetaManager) : Prop :=
  map_Forall task_wf (mp_task_map (mm_migration_map (mgr_meta_map st))).

Lemma new_task_wf k t : new_task (active_redirection config) (mtm_slot_range k) = Some t → task_wf k t.
Proof.
  intros Hn. exists t, PreCheck. split; [done|]. unfold new_task in Hn.
  destruct (sr_tag _); by simplify_eq.
Qed.

Lemma with_state_twice t s s' : with_state (with_state t s) s' = with_state t s'.
Proof. by destruct t. Qed.

Lemma with_state_wf k t s : task_wf k t → task_wf k (with_state t s).
Proof. intros (t0 & s0 & Hn & ->). exists t0, s. by rewrite with_state_twice. Qed.

Lemma managed_wf st : managed st → tasks_wf st.
Proof.
  unfold tasks_wf. induction 1 as [|st m _ IH|st arg sub _ IH|st k s _ IH].
  - apply map_Forall_empty.
  - unfold set_meta. destruct (negb _); [done|]. destruct (_ && _); [done|].
    pose proof (λ k, update_lookup (pcm_cluster_name m) (mm_migration_map (mgr_meta_map st)) (pcm_local m)
      (active_redirection config) k) as Hu.
    destruct (update_from_old_task_map _ _ _ _) as [mp new_tasks]. cbn in *. intros k t Hk.
    rewrite Hu in Hk. unfold installed_task in Hk. case_decide; [|done].
    destruct (new_task _ _) as [t0|] eqn:Hn; [|done]. cbn in Hk. injection Hk as <-.
    destruct (mp_task_map _ !! k) as [t'|] eqn:Ho; [by apply IH|by apply new_task_wf].
  - unfold handle_switch.
    assert (∀ a sc, map_Forall task_wf
      (mp_task_map (map_handle_switch (mm_migration_map (mgr_meta_map st)) a sc).1)) as Hm.
    { intros a sc. unfold map_handle_switch, importing_handle_switch.
      case_bool_decide; [|done]. destruct (_ !! _) as [[t|t]|] eqn:Ht; try done.
      case_bool_decide; [done|]. cbn. apply map_Forall_insert_2; [|done].
      by apply (with_state_wf _ (inr t)), IH. }
    destruct (sr_tag _); [..|exact IH]; (destruct (_ <? _)%N; [exact IH|]);
      match goal with |- context [map_handle_switch ?mp ?a ?sc] =>
        specialize (Hm a sc); by destruct (map_handle_switch mp a sc) end.
  - intros k' t. cbn. destruct (decide (k = k')) as [<-|Hne].
    + rewrite lookup_alter_eq. intros (t' & Ht & ->)%fmap_Some. by apply with_state_wf, IH.
    + rewrite lookup_alter_ne by done. apply IH.
Qed.


(** The tasks of a new proxy start in [PreCheck]. *)
Lemma set_meta_fresh m k t :
  mp_task_map (mm_migration_map (mgr_meta_map (set_meta config meta_manager_new m).1.1)) !! k = Some t →
  task_state t = PreCheck.
Proof.
  unfold set_meta. destruct (negb _); [done|]. destruct (_ && _); [done|].
  pose proof (update_lookup (pcm_cluster_name m) (mm_migration_map (mgr_meta_map meta_manager_new)) (pcm_local m)
    (active_redirection config) k) as Hu.
  destruct (update_from_old_task_map _ _ _ _) as [mp new_tasks]. cbn in *. rewrite Hu. unfold installed_task.
  case_decide; [|done]. rewrite lookup_empty. unfold new_task. destruct (sr_tag _); cbn; by intros [= <-].
Qed.
End managers.

(** ** The nodes of a cluster *)

(** What the rendered nodes of a cluster promise to the routing: each slot has
    one owner, the tags carry the addresses, and a migration is shown at both
    ends, which belong to different proxies. *)
Record serving (ns : list Node) : Prop := {
  sv_once : ∀ s, (s < SLOT_NUM)%N → sum_list_with (node_cover s) ns = 1;
  sv_tags : Forall (λ n, Forall (tag_matches_node n) (node_slots n)) ns;
  sv_paired : tasks_of true ns ≡ₚ tasks_of false ns;
  sv_cross : Forall (λ t, mm_src_proxy_address t.2 ≠ mm_dst_proxy_address t.2) (tasks_of true ns);
}.

(** The slot range [sr] of node [n] lists slot [s]. *)
Definition at_node (ns : list Node) (s : N) (n : Node) (sr : SlotRange) : Prop :=
  n ∈ ns ∧ sr ∈ node_slots n ∧ lists_slot s sr.

(** The owner of a slot lists it in a range that is not being imported. *)
Definition home (ns : list Node) (s : N) (n : Node) (sr : SlotRange) : Prop :=
  at_node ns s n sr ∧ tag_is_importing (sr_tag sr) = false.

Definition placements (ns : list Node) : list (Node * SlotRange) :=
  ns ≫= λ n, pair n <$> node_slots n.

Lemma elem_of_placements ns n sr : (n, sr) ∈ placements ns ↔ n ∈ ns ∧ sr ∈ node_slots n.
Proof.
  unfold placements. rewrite list_elem_of_bind. setoid_rewrite list_elem_of_fmap. naive_solver.
Qed.

Lemma placements_cover s ns :
  sum_list_with (λ p, slot_range_cover s p.2) (placements ns) = sum_list_with (node_cover s) ns.
Proof.
  induction ns as [|n ns IH]; [done|]. unfold placements in *. cbn [mbind list_bind].
  rewrite sum_list_with_app, IH. cbn [sum_list_with]. f_equal. unfold node_cover.
  induction (node_slots n) as [|sr l IHl]; [done|]. cbn in *. by rewrite IHl.
Qed.

Lemma sum_one_exists {A} (f : A → nat) l : sum_list_with f l ≠ 0 → ∃ x, x ∈ l ∧ f x ≠ 0.
Proof.
  induction l as [|x l IH]; cbn; [done|]. destruct (decide (f x = 0)) as [Hx|Hx].
  - rewrite Hx. cbn. intros (y & Hy & ?)%IH. exists y. split; [by right|done].
  - intros _. exists x. split; [by left|done].
Qed.

Lemma sum_one_unique {A} (f : A → nat) l x y :
  sum_list_with f l = 1 → x ∈ l → y ∈ l → f x ≠ 0 → f y ≠ 0 → x = y.
Proof.
  induction l as [|z l IH]; cbn; intros Hsum Hx Hy Hfx Hfy; [done|].
  apply elem_of_cons in Hx, Hy. destruct Hx as [->|Hx], Hy as [->|Hy]; [done| | |].
  - pose proof (sum_list_with_in y f l Hy). lia.
  - pose proof (sum_list_with_in x f l Hx). lia.
  - apply IH; try done. pose proof (sum_list_with_in x f l Hx). lia.
Qed.

Lemma home_cover ns s n sr :
  home ns s n sr ↔ (n, sr) ∈ placements ns ∧ slot_range_cover s sr ≠ 0.
Proof.
  unfold home, at_node, lists_slot, slot_range_cover. rewrite elem_of_placements.
  destruct (tag_is_importing (sr_tag sr)); naive_solver.
Qed.

Lemma elem_of_tasks_of b ns rl m :
  (rl, m) ∈ tasks_of b ns ↔
  ∃ n, (n, mkSlotRange rl ((if b then Migrating else Importing) m)) ∈ placements ns.
Proof.
  unfold tasks_of. rewrite list_elem_of_omap. setoid_rewrite elem_of_placements. split.
  - intros (sr & Hsr & Ht). apply list_elem_of_join in Hsr as (l & Hsr & Hl).
    apply list_elem_of_fmap in Hl as (n & -> & Hn). exists n. split; [done|].
    destruct sr as [rl' []], b; cbn in *; by simplify_eq.
  - intros (n & Hn & Hsr). eexists. split; [apply list_elem_of_join; eexists; split;
      [exact Hsr|by apply list_elem_of_fmap_2]|]. by destruct b.
Qed.

Section serving.
Context (ns : list Node) (Hns : serving ns) (s : N) (Hs : (s < SLOT_NUM)%N).

Lemma home_exists : ∃ n sr, home ns s n sr.
Proof.
  destruct (sum_one_exists (λ p, slot_range_cover s p.2) (placements ns)) as ([n sr] & Hin & Hc).
  - rewrite placements_cover, (sv_once ns Hns s Hs). done.
  - exists n, sr. by apply home_cover.
Qed.

Lemma home_unique n sr n' sr' : home ns s n sr → home ns s n' sr' → n = n' ∧ sr = sr'.
Proof.
  rewrite !home_cover. intros [H1 H2] [H3 H4].
  enough ((n, sr) = (n', sr')) by by simplify_eq.
  apply (sum_one_unique (λ p, slot_range_cover s p.2) (placements ns)); try done.
  by rewrite placements_cover, (sv_once ns Hns s Hs).
Qed.

Lemma at_node_tag n sr : at_node ns s n sr → tag_matches_node n sr.
Proof.
  intros (Hn & Hsr & _). pose proof (sv_tags ns Hns) as Ht. rewrite Forall_forall in Ht.
  specialize (Ht n Hn). rewrite Forall_forall in Ht. by apply Ht.
Qed.

Lemma at_node_importing n sr m :
  at_node ns s n sr → sr_tag sr = Importing m →
  ∃ n', home ns s n' (mkSlotRange (sr_range_list sr) (Migrating m)).
Proof.
  intros (Hn & Hsr & Hl) Htag.
  assert ((sr_range_list sr, m) ∈ tasks_of false ns) as Hin.
  { apply elem_of_tasks_of. exists n. apply elem_of_placements. split; [done|].
    destruct sr; cbn in *. by subst. }
  rewrite <-(sv_paired ns Hns) in Hin. apply elem_of_tasks_of in Hin as (n' & Hin).
  exists n'. apply elem_of_placements in Hin as [? ?]. split; [by split_and!|done].
Qed.

Lemma home_migrating n rl m :
  home ns s n (mkSlotRange rl (Migrating m)) →
  (∃ n', at_node ns s n' (mkSlotRange rl (Importing m))) ∧ mm_src_proxy_address m ≠ mm_dst_proxy_address m.
Proof.
  intros [(Hn & Hsr & Hl) _].
  assert ((rl, m) ∈ tasks_of true ns) as Hin.
  { apply elem_of_tasks_of. exists n. by apply elem_of_placements. }
  split.
  - pose proof Hin as Hin'. rewrite (sv_paired ns Hns) in Hin'.
    apply elem_of_tasks_of in Hin' as (n' & Hin'). apply elem_of_placements in Hin' as [? ?].
    exists n'. by split_and!.
  - pose proof (sv_cross ns Hns) as Hc. rewrite Forall_forall in Hc. by apply (Hc (rl, m)).
Qed.

(** The places where a slot can be listed, from the tag of its owner. *)
Lemma places_stable n sr n' sr' :
  home ns s n sr → sr_tag sr = TagNone → at_node ns s n' sr' → n' = n ∧ sr' = sr.
Proof.
  intros Hh Htag Ha. destruct (tag_is_importing (sr_tag sr')) eqn:Hi.
  - destruct (sr_tag sr') as [|m|] eqn:Htag'; try done.
    destruct (at_node_importing n' sr' m Ha Htag') as [n2 Hh2].
    destruct (home_unique _ _ _ _ Hh Hh2) as [_ ->]. done.
  - by apply home_unique.
Qed.

Lemma places_migrating n rl m n' sr' :
  home ns s n (mkSlotRange rl (Migrating m)) → at_node ns s n' sr' →
  (n' = n ∧ sr' = mkSlotRange rl (Migrating m)) ∨
  (node_proxy_address n' = mm_dst_proxy_address m ∧ sr' = mkSlotRange rl (Importing m)).
Proof.
  intros Hh Ha. destruct (tag_is_importing (sr_tag sr')) eqn:Hi.
  - right. destruct (sr_tag sr') as [|m'|] eqn:Htag'; try done.
    destruct (at_node_importing n' sr' m' Ha Htag') as [n2 Hh2].
    destruct (home_unique _ _ _ _ Hh Hh2) as [_ [= -> ->]].
    pose proof (at_node_tag _ _ Ha) as [_ Ht]. rewrite Htag' in Ht. destruct Ht as [<- _].
    split; [done|]. destruct sr'; cbn in *. by subst.
  - left. by apply home_unique.
Qed.
End serving.

(** ** What one proxy does *)

(** The metadata [m] tells proxy [a] about the nodes [ns] of the cluster: its
    own nodes, and the slots of each other proxy. *)
Record told (ns : list Node) (name : ClusterName) (a : string) (m : ProxyClusterMeta) : Prop := {
  td_name : pcm_cluster_name m = name;
  td_named : name ≠ EMPTY_CLUSTER_NAME;
  td_local : ∀ addr sr, (∃ srs, pcm_local m !! addr = Some srs ∧ sr ∈ srs) ↔
    ∃ n, n ∈ ns ∧ node_proxy_address n = a ∧ node_address n = addr ∧ sr ∈ node_slots n;
  td_peer : ∀ addr sr, (∃ srs, pcm_peer m !! addr = Some srs ∧ sr ∈ srs) ↔
    addr ≠ a ∧ ∃ n, n ∈ ns ∧ node_proxy_address n = addr ∧ sr ∈ node_slots n;
}.

Definition moved_to (s : N) (a : string) : Action := Reply (error_reply (gen_moved s a)).

(** The senders take every command. *)
Definition accepting (env : Senders) : Prop :=
  (∀ a t, local_verdict env a t = Taken) ∧ (∀ k c, importing_takes env k c = true).

Section proxy.
Context `{HashOrder} `{Crc16}.
Context (config : ServerProxyConfig) (st : MetaManager) (m : ProxyClusterMeta) (env : Senders).
Context (ns : list Node) (name : ClusterName) (a : string) (s : N) (c : CmdCtx).
Hypothesis Hns : serving ns.
Hypothesis Htold : told ns name a m.
Hypothesis Hmeta : has_meta config m st.
Hypothesis Hwf : tasks_wf config st.
Hypothesis Henv : accepting env.
Hypothesis Hpassive : active_redirection config = false.
Hypothesis Hs : (s < SLOT_NUM)%N.
Hypothesis Hc : ctx_slot c = Some s.

Abbreviation tasks := (mp_task_map (mm_migration_map (mgr_meta_map st))).

(** A task of the proxy belongs to a range of one of its nodes. *)
Lemma task_place k t :
  tasks !! k = Some t →
  k = mkMigrationTaskMeta name (mtm_slot_range k) ∧
  (∃ n, n ∈ ns ∧ node_proxy_address n = a ∧ mtm_slot_range k ∈ node_slots n) ∧ task_wf config k t.
Proof.
  intros Hk. destruct k as [nm sr].
  destruct Hmeta as (_ & _ & _ & _ & Ht). destruct (Ht nm sr) as [Ht1 _].
  destruct Ht1 as (-> & _ & addr & srs & Hl & Hsr); [by eexists|]. cbn. split_and!.
  - by rewrite (td_name _ _ _ _ Htold).
  - destruct (proj1 (td_local _ _ _ _ Htold addr sr)) as (n & ? & ? & _ & ?); eauto 10.
  - by apply Hwf.
Qed.

Lemma node_tag n sr : n ∈ ns → sr ∈ node_slots n → tag_matches_node n sr.
Proof.
  intros Hn Hsr. pose proof (sv_tags ns Hns) as Ht. rewrite Forall_forall in Ht.
  specialize (Ht n Hn). rewrite Forall_forall in Ht. by apply Ht.
Qed.

(** A task answers for the slots of its range list. *)
Lemma task_contains k t :
  tasks !! k = Some t → task_contains_slot t s = true ↔ lists_slot s (mtm_slot_range k).
Proof.
  intros Hk. destruct (task_place k t Hk) as (_ & (n & Hn & _ & Hsr) & t0 & st0 & Hnew & ->).
  destruct (node_tag n _ Hn Hsr) as [[Hcomp Hb] _]. unfold new_task in Hnew.
  destruct (sr_tag _); simplify_eq; cbn; rewrite range_map_contains by done; apply bool_decide_eq_true.
Qed.

Lemma task_exists n sr meta :
  n ∈ ns → node_proxy_address n = a → sr ∈ node_slots n → get_migration_meta (sr_tag sr) = Some meta →
  is_Some (tasks !! mkMigrationTaskMeta name sr).
Proof.
  intros Hn Ha Hsr Htag. destruct Hmeta as (_ & _ & _ & _ & Ht). apply Ht.
  rewrite (td_name _ _ _ _ Htold), Htag. split_and!; [done|done|].
  destruct (proj2 (td_local _ _ _ _ Htold (node_address n) sr)) as (srs & ? & ?); eauto 10.
Qed.

(** No local task lists the slot: the migration map passes the command on. *)
Lemma migration_send_none :
  (∀ k t, tasks !! k = Some t → ¬ lists_slot s (mtm_slot_range k)) →
  migration_send env (mm_migration_map (mgr_meta_map st)) c =
    ([], Err (SlotNotFound (mkBlockingHintTask c NotBlocking))).
Proof.
  intros Hno. unfold migration_send, send_helper. destruct (_ || _); [done|]. rewrite Hc.
  destruct (find _ _) as [[k t]|] eqn:Hf; [|done].
  apply find_some in Hf as [Hin Hcs]. rewrite <-list_elem_of_In, hash_iter_perm in Hin.
  apply elem_of_map_to_list in Hin. cbn in Hcs.
  destruct (Hno k t Hin). by apply (task_contains k t).
Qed.

(** One local task lists the slot. *)
Lemma migration_send_one k t :
  tasks !! k = Some t → lists_slot s (mtm_slot_range k) →
  (∀ k' t', tasks !! k' = Some t' → lists_slot s (mtm_slot_range k') → k' = k) →
  migration_send env (mm_migration_map (mgr_meta_map st)) c =
    match t with
    | inl x => migrating_send (blocking_state_of env (mm_src_node_address (mt_meta x))) x c
    | inr x => importing_send (importing_takes env k c) k x c
    end.
Proof.
  intros Hk Hl Huniq. unfold migration_send, send_helper.
  destruct Hmeta as (_ & _ & Hname & Hempty & _).
  rewrite Hempty, Hname, (td_name _ _ _ _ Htold).
  rewrite (bool_decide_eq_false_2 (tasks = ∅)) by (intros He; rewrite He in Hk; done).
  rewrite bool_decide_eq_false_2 by apply (td_named _ _ _ _ Htold). cbn [orb]. rewrite Hc.
  destruct (find _ _) as [[k' t']|] eqn:Hf.
  - apply find_some in Hf as [Hin Hcs]. rewrite <-list_elem_of_In, hash_iter_perm in Hin.
    apply elem_of_map_to_list in Hin. cbn in Hcs. apply (task_contains k' t' Hin) in Hcs.
    pose proof (Huniq k' t' Hin Hcs) as ->. by pose proof (eq_trans (eq_sym Hk) Hin) as [= ->].
  - exfalso. apply (find_none _ _) with (x := (k, t)) in Hf.
    + cbn in Hf. apply (task_contains k t Hk) in Hl. congruence.
    + rewrite <-list_elem_of_In, hash_iter_perm. by apply elem_of_map_to_list.
Qed.

(** ** The local and the remote slot maps *)

Lemma local_get :
  match slot_map_get (slot_map_from_ranges (pcm_local m)) s with
  | Some addr => ∃ n sr, at_node ns s n sr ∧ node_proxy_address n = a ∧ node_address n = addr
  | None => ∀ n sr, at_node ns s n sr → node_proxy_address n ≠ a
  end.
Proof.
  pose proof (slot_map_get_spec (pcm_local m) s Hs) as Hg.
  destruct (slot_map_get _ s) as [addr|].
  - destruct Hg as (srs & Hl & (sr & Hsr & Hls)%Exists_exists).
    destruct (proj1 (td_local _ _ _ _ Htold addr sr)) as (n & ? & ? & ? & ?); [by eauto|].
    exists n, sr. by split_and!.
  - intros n sr (Hn & Hsr & Hls) Ha.
    destruct (proj2 (td_local _ _ _ _ Htold (node_address n) sr)) as (srs & Hl & Hin); [by eauto 10|].
    apply (Hg _ _ Hl). apply Exists_exists. eauto.
Qed.

Lemma remote_get :
  match slot_map_get (slot_map_from_ranges (pcm_peer m)) s with
  | Some addr => addr ≠ a ∧ ∃ n sr, at_node ns s n sr ∧ node_proxy_address n = addr
  | None => ∀ n sr, at_node ns s n sr → node_proxy_address n = a
  end.
Proof.
  pose proof (slot_map_get_spec (pcm_peer m) s Hs) as Hg.
  destruct (slot_map_get _ s) as [addr|].
  - destruct Hg as (srs & Hl & (sr & Hsr & Hls)%Exists_exists).
    destruct (proj1 (td_peer _ _ _ _ Htold addr sr)) as (Hne & n & ? & ? & ?); [by eauto|].
    split; [done|]. exists n, sr. by split_and!.
  - intros n sr (Hn & Hsr & Hls). destruct (decide (node_proxy_address n = a)) as [|Hne]; [done|].
    destruct (proj2 (td_peer _ _ _ _ Htold (node_proxy_address n) sr)) as (srs & Hl & Hin);
      [split; [done|]; by exists n|].
    destruct (Hg _ _ Hl). apply Exists_exists. eauto.
Qed.
(** ** The manager *)

Lemma send_local hint addr :
  migration_send env (mm_migration_map (mgr_meta_map st)) c =
    ([], Err (SlotNotFound (mkBlockingHintTask c hint))) →
  slot_map_get (slot_map_from_ranges (pcm_local m)) s = Some addr →
  send_cmd_ctx config env (mgr_meta_map st) c = Ok ([ToNode addr (mkBlockingHintTask c hint)], None).
Proof.
  intros Hm Hl. pose proof (slot_map_get_spec (pcm_local m) s Hs) as Hg. rewrite Hl in Hg.
  destruct Hg as (srs & Hsrs & _). unfold send_cmd_ctx. rewrite Hm.
  destruct Hmeta as (_ & -> & _). unfold cluster_send, local_send. cbn -[slot_map_from_ranges].
  rewrite (td_name _ _ _ _ Htold), (bool_decide_eq_false_2 (name = _)) by apply (td_named _ _ _ _ Htold).
  rewrite Hc, Hl, bool_decide_eq_true_2 by (by apply elem_of_dom_2 in Hsrs).
  destruct Henv as [Ht _]. by rewrite Ht.
Qed.

Lemma send_peer hint addr :
  migration_send env (mm_migration_map (mgr_meta_map st)) c =
    ([], Err (SlotNotFound (mkBlockingHintTask c hint))) →
  slot_map_get (slot_map_from_ranges (pcm_local m)) s = None →
  slot_map_get (slot_map_from_ranges (pcm_peer m)) s = Some addr →
  send_cmd_ctx config env (mgr_meta_map st) c = Ok ([moved_to s addr], None).
Proof.
  intros Hm Hl Hp. unfold send_cmd_ctx. rewrite Hm.
  destruct Hmeta as (_ & -> & _). unfold cluster_send, local_send, send_remote. cbn -[slot_map_from_ranges].
  rewrite (td_name _ _ _ _ Htold), (bool_decide_eq_false_2 (name = _)) by apply (td_named _ _ _ _ Htold).
  rewrite Hc, Hl. cbn -[slot_map_from_ranges].
  by rewrite Hc, Hp, Hpassive.
Qed.

(** A proxy none of whose nodes lists the slot redirects to one that does. *)
Lemma send_elsewhere :
  (∀ n sr, at_node ns s n sr → node_proxy_address n ≠ a) →
  ∃ n sr, at_node ns s n sr ∧
    send_cmd_ctx config env (mgr_meta_map st) c = Ok ([moved_to s (node_proxy_address n)], None).
Proof.
  intros Hno. assert (migration_send env (mm_migration_map (mgr_meta_map st)) c =
    ([], Err (SlotNotFound (mkBlockingHintTask c NotBlocking)))) as Hm.
  { apply migration_send_none. intros k t Hk Hl.
    destruct (task_place k t Hk) as (_ & (n & Hn & Ha & Hsr) & _). by apply (Hno n (mtm_slot_range k)). }
  pose proof local_get as Hlo. destruct (slot_map_get (slot_map_from_ranges (pcm_local m)) s) as [addr|] eqn:Hl.
  { destruct Hlo as (n & sr & Hat & Ha & _). by destruct (Hno n sr Hat). }
  pose proof remote_get as Hre. destruct (slot_map_get (slot_map_from_ranges (pcm_peer m)) s) as [addr|] eqn:Hr.
  - destruct Hre as (_ & n & sr & Hat & <-). exists n, sr. split; [done|]. by eapply send_peer.
  - destruct (home_exists ns Hns s Hs) as (n & sr & Hh & _). destruct (Hno n sr Hh). by eapply Hre.
Qed.

(** The owner of a slot that is not migrating serves it. *)
Lemma send_stable n sr :
  home ns s n sr → sr_tag sr = TagNone → node_proxy_address n = a →
  send_cmd_ctx config env (mgr_meta_map st) c =
    Ok ([ToNode (node_address n) (mkBlockingHintTask c NotBlocking)], None).
Proof.
  intros Hh Htag Ha. assert (migration_send env (mm_migration_map (mgr_meta_map st)) c =
    ([], Err (SlotNotFound (mkBlockingHintTask c NotBlocking)))) as Hm.
  { apply migration_send_none. intros k t Hk Hl.
    destruct (task_place k t Hk) as (_ & (n' & Hn & _ & Hsr) & t0 & x & Hnew & _).
    destruct (places_stable ns Hns s Hs n sr n' (mtm_slot_range k)) as [_ Heq]; [done..|by split_and!|].
    unfold new_task in Hnew. by rewrite Heq, Htag in Hnew. }
  pose proof local_get as Hlo. destruct (slot_map_get (slot_map_from_ranges (pcm_local m)) s) as [addr|] eqn:Hl.
  - destruct Hlo as (n' & sr' & Hat & _ & <-).
    destruct (places_stable ns Hns s Hs n sr n' sr') as [-> ->]; [done..|]. by apply send_local.
  - destruct Hh as [Hat _]. by destruct (Hlo n sr Hat).
Qed.

(** The state of the task that migrates or imports the range of slot [s]. *)
Definition state_of (sr : SlotRange) : option MigrationState :=
  task_state <$> tasks !! mkMigrationTaskMeta name sr.

Lemma local_task_unique n rl meta sr :
  home ns s n (mkSlotRange rl (Migrating meta)) →
  sr = mkSlotRange rl (Migrating meta) ∧ a = mm_src_proxy_address meta ∨
  sr = mkSlotRange rl (Importing meta) ∧ a = mm_dst_proxy_address meta →
  ∀ k t, tasks !! k = Some t → lists_slot s (mtm_slot_range k) → k = mkMigrationTaskMeta name sr.
Proof.
  intros Hh Hsr k t Hk Hl.
  destruct (task_place k t Hk) as (-> & (n' & Hn & Ha & Hin) & _). cbn in *. f_equal.
  destruct (home_migrating ns Hns s n rl meta Hh) as [_ Hne].
  destruct (at_node_tag ns Hns s n (mkSlotRange rl (Migrating meta)) (proj1 Hh)) as [_ [Hsrc _]]. cbn in Hsrc.
  destruct (places_migrating ns Hns s Hs n rl meta n' (mtm_slot_range k)) as [[-> ->]|[Hp ->]];
    [done|by split_and!|..]; destruct Hsr as [[-> ?]|[-> ?]]; congruence.
Qed.

Lemma lookup_task n sr meta :
  at_node ns s n sr → node_proxy_address n = a → get_migration_meta (sr_tag sr) = Some meta →
  ∃ t0 x, new_task false sr = Some t0 ∧ tasks !! mkMigrationTaskMeta name sr = Some (with_state t0 x) ∧
    state_of sr = Some x.
Proof.
  intros (Hn & Hsr & Hl) Ha Htag. destruct (task_exists n sr meta Hn Ha Hsr Htag) as [t Ht].
  destruct (task_place _ _ Ht) as (_ & _ & t0 & x & Hnew & ->). rewrite Hpassive in Hnew. cbn in Hnew.
  exists t0, x. split_and!; [done..|]. unfold state_of. rewrite Ht. cbn. by destruct t0, x.
Qed.

(** The source of a migration serves the slot before the switch, and redirects
    to the destination after it. *)
Lemma send_source n rl meta :
  home ns s n (mkSlotRange rl (Migrating meta)) → a = mm_src_proxy_address meta →
  match state_of (mkSlotRange rl (Migrating meta)) with
  | Some (PreCheck | PreBlocking | PreSwitch) => ∃ hint,
      send_cmd_ctx config env (mgr_meta_map st) c =
        Ok ([ToNode (node_address n) (mkBlockingHintTask c hint)], None)
  | Some _ => send_cmd_ctx config env (mgr_meta_map st) c = Ok ([moved_to s (mm_dst_proxy_address meta)], None)
  | None => False
  end.
Proof.
  intros Hh Ha. pose proof (at_node_tag ns Hns s n _ (proj1 Hh)) as [_ [Hsrc _]]. cbn in Hsrc.
  destruct (lookup_task n _ meta (proj1 Hh) ltac:(congruence) eq_refl) as (t0 & x & Hnew & Ht & ->).
  cbn in Hnew. injection Hnew as <-.
  pose proof (migration_send_one _ _ Ht (proj2 (proj2 (proj1 Hh)))
    (local_task_unique n rl meta _ Hh (or_introl (conj eq_refl Ha)))) as Hm. cbn [with_state] in Hm.
  assert (slot_map_get (slot_map_from_ranges (pcm_local m)) s = Some (node_address n)) as Hlocal.
  { pose proof local_get as Hlo. destruct (slot_map_get (slot_map_from_ranges (pcm_local m)) s) as [addr|].
    - destruct Hlo as (n' & sr' & Hat & Ha' & <-).
      destruct (home_migrating ns Hns s n rl meta Hh) as [_ Hne].
      destruct (places_migrating ns Hns s Hs n rl meta n' sr' Hh Hat) as [[-> _]|[Hp _]]; [done|congruence].
    - destruct (Hlo n _ (proj1 Hh)). congruence. }
  unfold migrating_send, handle_redirection in Hm. cbn in Hm. rewrite Hc in Hm.
  destruct x; cbn in Hm |- *;
    try (eexists; apply send_local; [exact Hm|exact Hlocal]); unfold send_cmd_ctx; by rewrite Hm.
Qed.

(** The destination redirects to the source before the switch, and serves the
    slot after it. *)
Lemma send_destination n rl meta :
  home ns s n (mkSlotRange rl (Migrating meta)) → a = mm_dst_proxy_address meta →
  match state_of (mkSlotRange rl (Importing meta)) with
  | Some PreCheck => send_cmd_ctx config env (mgr_meta_map st) c = Ok ([moved_to s (mm_src_proxy_address meta)], None)
  | Some _ => send_cmd_ctx config env (mgr_meta_map st) c =
      Ok ([ToImporting (mkMigrationTaskMeta name (mkSlotRange rl (Importing meta))) c], None)
  | None => False
  end.
Proof.
  intros Hh Ha. destruct (home_migrating ns Hns s n rl meta Hh) as [[n' Hat] _].
  pose proof (at_node_tag ns Hns s n' _ Hat) as [_ [Hdst _]]. cbn in Hdst.
  destruct (lookup_task n' _ meta Hat ltac:(congruence) eq_refl) as (t0 & x & Hnew & Ht & ->).
  cbn in Hnew. injection Hnew as <-.
  pose proof (migration_send_one _ _ Ht (proj2 (proj2 Hat))
    (local_task_unique n rl meta _ Hh (or_intror (conj eq_refl Ha)))) as Hm. cbn [with_state] in Hm.
  destruct Henv as [_ Htake]. unfold importing_send, handle_redirection in Hm. cbn in Hm. rewrite Htake, Hc in Hm.
  destruct x; cbn in Hm |- *; unfold send_cmd_ctx; by rewrite Hm.
Qed.
End proxy.

(** ** From the broker *)

(** *** The rendered nodes serve *)

Lemma chunk_addresses_disjoint chunks i j c d x :
  NoDup (chunk_addresses chunks) → chunks !! i = Some c → chunks !! j = Some d →
  x ∈ arr2_list (ch_proxy_addresses c) → x ∈ arr2_list (ch_proxy_addresses d) → i = j.
Proof.
  unfold chunk_addresses. revert i j.
  induction chunks as [|e chunks IH]; intros i j Hnd Hi Hj Hc Hd; [done|].
  rewrite fmap_cons in Hnd. cbn [mjoin list_join compose] in Hnd. apply NoDup_app in Hnd as (_ & Hdis & Hnd).
  assert (∀ k f, chunks !! k = Some f → x ∈ arr2_list (ch_proxy_addresses f) →
    x ∈ mjoin (arr2_list ∘ ch_proxy_addresses <$> chunks)) as Hin.
  { intros k f Hk Hx. apply list_elem_of_join. exists (arr2_list (ch_proxy_addresses f)). split; [done|].
    apply list_elem_of_fmap. exists f. split; [done|]. by eapply list_elem_of_lookup_2. }
  destruct i as [|i], j as [|j]; cbn in Hi, Hj; simplify_eq; [done|..].
  - destruct (Hdis x Hc). by eapply Hin.
  - destruct (Hdis x Hd). by eapply Hin.
  - f_equal. by apply IH.
Qed.

Lemma part_address_proxy c p a b : part_address c p = Some (a, b) → a ∈ arr2_list (ch_proxy_addresses c).
Proof.
  unfold part_address. destruct (arr2_get _ _) as [x|] eqn:Hx; [|done]. cbn.
  destruct (arr4_get _ _); [|done]. cbn. intros [= -> _].
  destruct (ch_proxy_addresses c), (chunk_part_to_proxy_index _ _) as [|[|]]; cbn in *; simplify_eq; set_solver.
Qed.

(** The two ends of a migration between different chunks are on different
    proxies. *)
Lemma render_cross chunks k :
  NoDup (chunk_addresses chunks) → ms_src_chunk_index k ≠ ms_dst_chunk_index k →
  ms_src_chunk_index k < length chunks → ms_src_chunk_part k < 2 →
  ms_dst_chunk_index k < length chunks → ms_dst_chunk_part k < 2 →
  mm_src_proxy_address (render_meta chunks k) ≠ mm_dst_proxy_address (render_meta chunks k).
Proof.
  intros Hnd Hne H1 H2 H3 H4. unfold render_meta.
  destruct (lookup_lt_is_Some_2 chunks _ H1) as [c Hc]. rewrite Hc.
  destruct (lookup_lt_is_Some_2 chunks _ H3) as [d Hd]. rewrite Hd. cbn [mbind option_bind].
  destruct (part_address_Some c _ H2) as [[sa sb] Hs]. rewrite Hs.
  destruct (part_address_Some d _ H4) as [[da db] Hd']. rewrite Hd'. cbn. intros <-.
  apply Hne. eapply (chunk_addresses_disjoint chunks); try done; by eapply part_address_proxy.
Qed.

Section broker.
Context (s : MetaStore) (name : ClusterName) (cs : ClusterStore).
Hypothesis Hwf : store_wf s.
Hypothesis Hcs : clusters s !! name = Some cs.

Lemma view_serving limit cs' ns :
  limit_migration cs limit = Ok cs' → cluster_view (cs_chunks cs') ns → serving ns.
Proof.
  intros Hlim Hv.
  destruct (limit_migration_spec cs limit (wf_slots _ Hwf _ _ Hcs))
    as (cs1 & Hlim1 & Hsl & Hfr & _ & _ & _ & _ & Hkeys & _).
  rewrite Hlim in Hlim1. injection Hlim1 as <-. split.
  - intros slot Hs. rewrite (cv_cover _ _ Hv), (sw_partition _ Hsl slot).
    unfold owned_once. by rewrite (proj2 (N.ltb_lt _ _) Hs).
  - apply (cv_tags _ _ Hv).
  - apply (cluster_view_paired _ _ Hv), Hsl.
  - apply Forall_forall. intros t Ht. rewrite (cv_tasks _ _ Hv true) in Ht.
    apply list_elem_of_fmap in Ht as (k & -> & Hk). cbn.
    pose proof (Hkeys k Hk) as Hk0. apply list_elem_of_fmap in Hk0 as (e0 & -> & He0).
    apply list_elem_of_filter in He0 as [_ He0].
    apply list_elem_of_fmap in Hk as (e & Heq & He). apply list_elem_of_filter in He as [_ He].
    destruct (sf_cluster _ Hwf _ _ Hcs) as (_ & [m Hb] & _).
    pose proof (bl_cross _ _ Hb) as Hc. rewrite Forall_forall in Hc. specialize (Hc e0 He0).
    destruct (entry_indices _ _ (sw_placed _ Hsl) (sw_mirrored _ Hsl) He) as (? & ? & ? & ?).
    unfold entry_key in Heq. cbn in *. injection Heq as _ Heq. rewrite Heq in *.
    apply render_cross; try done; [|by unfold crosses in Hc; congruence].
    rewrite (frames_addresses _ _ Hfr). by apply (wf_distinct _ Hwf name).
Qed.

(** *** The metadata tells them *)

Lemma group_by_proxy_spec ns :
  mjoin (snd <$> group_by_proxy ns) = ns ∧
  Forall (λ g, Forall (λ n, node_proxy_address n = g.1) g.2) (group_by_proxy ns).
Proof.
  induction ns as [|n ns [IH1 IH2]]; [by split|]. cbn [group_by_proxy].
  destruct (group_by_proxy ns) as [|[a g] gs]; cbn in *.
  - subst ns. split; [done|]. by repeat constructor.
  - apply Forall_cons in IH2 as [Hg Hgs]. case_bool_decide as Ha.
    + split; [cbn; f_equal; exact IH1|]. constructor; [by constructor|done].
    + split; [cbn; f_equal; exact IH1|]. constructor; [by repeat constructor|]. by constructor.
Qed.

Lemma group_by_proxy_listed ns a sr :
  (∃ g, g ∈ group_by_proxy ns ∧ g.1 = a ∧ sr ∈ mjoin (node_slots <$> g.2)) ↔
  ∃ n, n ∈ ns ∧ node_proxy_address n = a ∧ sr ∈ node_slots n.
Proof.
  destruct (group_by_proxy_spec ns) as [Hj Hg].
  assert (∀ g n, g ∈ group_by_proxy ns → n ∈ g.2 → node_proxy_address n = g.1) as Ha.
  { intros g n Hin Hn. rewrite Forall_forall in Hg. specialize (Hg g Hin). rewrite Forall_forall in Hg. by apply Hg. }
  split.
  - intros (g & Hin & <- & Hsr). apply list_elem_of_join in Hsr as (l & Hsr & Hl).
    apply list_elem_of_fmap in Hl as (n & -> & Hn). exists n. split_and!; [|by apply Ha|done].
    rewrite <-Hj. apply list_elem_of_join. exists g.2. split; [done|]. by apply list_elem_of_fmap_2.
  - intros (n & Hn & <- & Hsr). rewrite <-Hj in Hn. apply list_elem_of_join in Hn as (l & Hn & Hl).
    apply list_elem_of_fmap in Hl as (g & -> & Hin). exists g. split_and!; [done| |].
    + symmetry. by apply Ha.
    + apply list_elem_of_join. exists (node_slots n). split; [done|]. by apply list_elem_of_fmap_2.
Qed.

Lemma with_slots_listed m addr sr :
  (∃ srs, with_slots m !! addr = Some srs ∧ sr ∈ srs) ↔ ∃ srs, m !! addr = Some srs ∧ sr ∈ srs.
Proof.
  unfold with_slots. setoid_rewrite map_lookup_filter_Some. split; [naive_solver|].
  intros (srs & Hm & Hsr). exists srs. split_and!; [done| |done]. cbn. intros ->. by apply not_elem_of_nil in Hsr.
Qed.

Lemma collect_listed {A} (key : A → string) (val : A → list SlotRange) l addr sr :
  NoDup (key <$> l) →
  (∃ srs, hash_collect ((λ x, (key x, val x)) <$> l) !! addr = Some srs ∧ sr ∈ srs) ↔
  ∃ x, x ∈ l ∧ key x = addr ∧ sr ∈ val x.
Proof.
  intros Hnd. rewrite hash_collect_map by by rewrite <-list_fmap_compose.
  setoid_rewrite <-elem_of_list_to_map; [|by rewrite <-list_fmap_compose].
  setoid_rewrite list_elem_of_fmap. naive_solver.
Qed.
Context (limit : N) (cs' : ClusterStore) (ns : list Node).
Hypothesis Hlim : limit_migration cs limit = Ok cs'.
Hypothesis Hto : cluster_store_to_cluster cs' = Ok (mkCluster (cs_name cs') (cs_epoch cs') ns (cs_config cs')).
Hypothesis Hv : cluster_view (cs_chunks cs') ns.

Lemma proxy_shape a pr p :
  all_proxies s !! a = Some pr → pr_cluster pr = Some name → get_proxy_by_address s a limit = Ok (Some p) →
  proxy_cluster_name p = Some name ∧ proxy_nodes p = filter (λ n, node_proxy_address n = a) ns ∧
  proxy_peers p = (λ g, mkPeerProxy g.1 (mjoin (node_slots <$> g.2))) <$>
    group_by_proxy (filter (λ n, node_role n = Master ∧ node_proxy_address n ≠ a) ns).
Proof.
  intros Ha Hname. unfold get_proxy_by_address. rewrite Ha, Hname. unfold get_cluster_store. rewrite Hcs.
  rewrite Hlim. outcome_simpl. rewrite Hto. outcome_simpl. intros [= <-]. cbn. split_and!; try done.
  f_equal. destruct (limit_migration_spec cs limit (wf_slots _ Hwf _ _ Hcs)) as (cs1 & Hl1 & _ & _ & _ & Hn & _).
  rewrite Hlim in Hl1. injection Hl1 as <-. by rewrite Hn, (sf_name _ Hwf _ _ Hcs).
Qed.

Lemma slots_of_master n sr : n ∈ ns → sr ∈ node_slots n → node_role n = Master.
Proof.
  intros Hn Hsr. pose proof (cv_replicas _ _ Hv) as Hr. rewrite Forall_forall in Hr. specialize (Hr n Hn).
  destruct (node_role n); [done|]. rewrite Hr in Hsr by done. by apply not_elem_of_nil in Hsr.
Qed.

Lemma proxy_told `{UnicodeCase} `{HashOrder} `{MetaCodec} `{DecoderEnv} a pr p flags :
  all_proxies s !! a = Some pr → pr_cluster pr = Some name → get_proxy_by_address s a limit = Ok (Some p) →
  sendable p → name ≠ EMPTY_CLUSTER_NAME →
  told ns name a (meta_with_slots (proxy_cluster_meta flags (filter_proxy_masters p))).
Proof.
  intros Ha Hname Hp Hsend Hne. destruct (proxy_shape a pr p Ha Hname Hp) as (Hn & Hnodes & Hpeers).
  assert (get_nodes (filter_proxy_masters p) = filter (λ n, node_role n = Master) (proxy_nodes p)) as Hget.
  { unfold filter_proxy_masters, get_nodes. cbn. by rewrite Hn. }
  split.
  - cbn. by rewrite Hn.
  - done.
  - intros addr sr. cbn. rewrite with_slots_listed, (collect_listed node_address node_slots), Hget, Hnodes.
    + setoid_rewrite list_elem_of_filter. setoid_rewrite list_elem_of_filter. split; [naive_solver|].
      intros (n & Hin & Hna & Haddr & Hsr). exists n. split_and!; try done. by eapply slots_of_master.
    + rewrite Hget. eapply sublist_NoDup; [apply (sn_nodes _ Hsend)|].
      apply (fmap_sublist node_address), sublist_filter.
  - intros addr sr.
    cbn [pcm_peer meta_with_slots proxy_cluster_meta proxy_cluster_meta_new filter_proxy_masters proxy_peers].
    rewrite with_slots_listed, (collect_listed peer_proxy_address peer_slots), Hpeers.
    + set (others := filter _ ns). setoid_rewrite list_elem_of_fmap. transitivity
        (∃ g, g ∈ group_by_proxy others ∧ g.1 = addr ∧ sr ∈ mjoin (node_slots <$> g.2)); [naive_solver|].
      rewrite group_by_proxy_listed. unfold others. setoid_rewrite list_elem_of_filter. split; [naive_solver|].
      intros (Hna & n & Hin & <- & Hsr). exists n. split_and!; try done. by eapply slots_of_master.
    + rewrite Hpeers, <-list_fmap_compose. apply (group_by_proxy_nodup (filter _ ns)).
      eapply grouped_sublist; [apply fmap_sublist, sublist_filter|]. apply (cluster_view_grouped (cs_chunks cs')); [done|].
      destruct (limit_migration_spec cs limit (wf_slots _ Hwf _ _ Hcs)) as (cs1 & Hl1 & _ & Hfr & _).
      rewrite Hlim in Hl1. injection Hl1 as <-.
      rewrite (frames_addresses _ _ Hfr). by apply (wf_distinct _ Hwf name).
Qed.

(** The proxy of a node of the cluster is registered with the cluster. *)
Lemma node_registered n : n ∈ ns → ∃ pr, all_proxies s !! node_proxy_address n = Some pr ∧ pr_cluster pr = Some name.
Proof.
  intros Hn. assert (node_proxy_address n ∈ half_address <$> layout (cs_chunks cs)) as Hin.
  { destruct (limit_migration_spec cs limit (wf_slots _ Hwf _ _ Hcs)) as (cs1 & Hl1 & _ & Hfr & _).
    rewrite Hlim in Hl1. injection Hl1 as <-. rewrite layout_addresses, <-(frames_addresses _ _ Hfr), <-layout_addresses.
    apply (view_proxies (cs_chunks cs') ns); [done|]. by apply list_elem_of_fmap_2. }
  apply list_elem_of_fmap in Hin as (x & -> & Hx).
  destruct (rg_half _ _ (sf_registry _ Hwf) name (layout (cs_chunks cs)) x) as (pr & ? & ? & _);
    [apply layouts_lookup; by exists cs|done|]. eauto.
Qed.
End broker.

(** ** The network *)

Record ProxyNode : Type := mkProxyNode {
  pn_config : ServerProxyConfig;
  pn_manager : MetaManager;
  pn_senders : Senders;
}.

Definition network : Type := gmap string ProxyNode.

Section network.
Context `{HashOrder} `{Crc16}.
Implicit Types (net : network) (c : CmdCtx).

(** What proxy [a] does with the command of a client. *)
Definition answers net c (a : string) (act : Action) : Prop :=
  ∃ pn, net !! a = Some pn ∧
    loop_send_cmd_ctx (pn_config pn) (λ _, (pn_senders pn, mgr_meta_map (pn_manager pn))) c = Ok [act].

(** Proxy [a] hands the command to one of its nodes that lists the slot, or to
    the importing task of such a node. *)
Definition serves (ns : list Node) (name : ClusterName) c (slot : N) (a : string) (act : Action) : Prop :=
  ∃ n sr, at_node ns slot n sr ∧ node_proxy_address n = a ∧
    ((∃ hint, act = ToNode (node_address n) (mkBlockingHintTask c hint)) ∨
     act = ToImporting (mkMigrationTaskMeta name sr) c).

(** A client that follows [n] redirections from [a] is answered by [b]. *)
Inductive follows net c (slot : N) : string → nat → string → Action → Prop :=
| follows_served a act : answers net c a act → follows net c slot a 0 a act
| follows_moved a a' n b act :
    answers net c a (moved_to slot a') → follows net c slot a' n b act → follows net c slot a (S n) b act.

(** The state of a migration task at proxy [a]. *)
Definition net_state net (a : string) (k : MigrationTaskMeta) : option MigrationState :=
  pn ← net !! a; task_state <$> mp_task_map (mm_migration_map (mgr_meta_map (pn_manager pn))) !! k.

Definition before_switch (s : MigrationState) : bool :=
  match s with PreCheck | PreBlocking | PreSwitch => true | _ => false end.

(** The two ends of each migration agree on whether the switch is done. *)
Definition in_step net (name : ClusterName) : Prop :=
  ∀ rl meta x y,
    net_state net (mm_src_proxy_address meta) (mkMigrationTaskMeta name (mkSlotRange rl (Migrating meta))) = Some x →
    net_state net (mm_dst_proxy_address meta) (mkMigrationTaskMeta name (mkSlotRange rl (Importing meta))) = Some y →
    before_switch x = bool_decide (y = PreCheck).

Lemma answers_intro net c a pn act :
  net !! a = Some pn → send_cmd_ctx (pn_config pn) (pn_senders pn) (mgr_meta_map (pn_manager pn)) c = Ok ([act], None) →
  answers net c a act.
Proof.
  intros Hpn Hsend. exists pn. split; [done|]. unfold loop_send_cmd_ctx, MAX_RETRY_NUM. cbn -[send_cmd_ctx].
  rewrite Hsend. done.
Qed.

Section route.
Context (net : network) (c : CmdCtx) (slot : N) (ns : list Node) (name : ClusterName).
Hypothesis Hns : serving ns.
Hypothesis Hslot : (slot < SLOT_NUM)%N.
Hypothesis Hc : ctx_slot c = Some slot.
Hypothesis Hstep : in_step net name.

(** Proxy [a] has the metadata of the nodes [ns]. *)
Definition informed (a : string) : Prop :=
  ∃ pn m, net !! a = Some pn ∧ told ns name a m ∧ has_meta (pn_config pn) m (pn_manager pn) ∧
    tasks_wf (pn_config pn) (pn_manager pn) ∧ accepting (pn_senders pn) ∧ active_redirection (pn_config pn) = false.

Hypothesis Hinformed : ∀ n, n ∈ ns → informed (node_proxy_address n).

Lemma route_stable n sr a :
  home ns slot n sr → sr_tag sr = TagNone → informed a → ∃ k,
    k ≤ 2 ∧ follows net c slot a k (node_proxy_address n) (ToNode (node_address n) (mkBlockingHintTask c NotBlocking)).
Proof.
  intros Hh Htag Ha. set (act := ToNode _ _).
  assert (follows net c slot (node_proxy_address n) 0 (node_proxy_address n) act) as Hown.
  { destruct (Hinformed n (proj1 (proj1 Hh))) as (pn & m & Hpn & ? & ? & ? & ? & ?).
    apply follows_served. eapply answers_intro; [done|]. by eapply send_stable. }
  destruct (decide (node_proxy_address n = a)) as [<-|Hne]; [exists 0; by auto|].
  exists 1. split; [lia|]. destruct Ha as (pn & m & Hpn & ? & ? & ? & ? & ?).
  destruct (send_elsewhere (pn_config pn) (pn_manager pn) m (pn_senders pn) ns name a slot c)
    as (n' & sr' & Hat & Hsend); try done.
  { intros n' sr' Hat. by destruct (places_stable ns Hns slot Hslot n sr n' sr' Hh Htag Hat) as [-> _]. }
  destruct (places_stable ns Hns slot Hslot n sr n' sr' Hh Htag Hat) as [-> _].
  eapply follows_moved; [|exact Hown]. by eapply answers_intro.
Qed.

(** One end serves the command and the other one redirects to it. *)
Lemma ends_follow a b act :
  answers net c b act → answers net c a (moved_to slot b) →
  ∀ x, x = a ∨ x = b → ∃ k, k ≤ 1 ∧ follows net c slot x k b act.
Proof.
  intros Hb Ha. pose proof (follows_served net c slot b act Hb) as Hown.
  intros x [ -> | -> ]; [|by eauto]. exists 1. split; [lia|]. by eapply follows_moved.
Qed.

Lemma source_answers n rl meta :
  home ns slot n (mkSlotRange rl (Migrating meta)) →
  ∃ x, net_state net (mm_src_proxy_address meta) (mkMigrationTaskMeta name (mkSlotRange rl (Migrating meta))) = Some x ∧
    if before_switch x
    then ∃ act, serves ns name c slot (mm_src_proxy_address meta) act ∧ answers net c (mm_src_proxy_address meta) act
    else answers net c (mm_src_proxy_address meta) (moved_to slot (mm_dst_proxy_address meta)).
Proof.
  intros Hh. pose proof (at_node_tag ns Hns slot n _ (proj1 Hh)) as [_ [Hsrc _]]. cbn in Hsrc.
  destruct (Hinformed n (proj1 (proj1 Hh))) as (pn & m & Hpn & Ht & Hm & Hw & Henv & Hpas).
  rewrite <-Hsrc in Hpn, Ht. unfold net_state. rewrite Hpn. cbn [mbind option_bind].
  pose proof (send_source (pn_config pn) (pn_manager pn) m (pn_senders pn) ns name _ slot c Hns Ht Hm Hw Henv Hpas
    Hslot Hc n rl meta Hh eq_refl) as Hs. unfold state_of in Hs.
  destruct (task_state <$> _) as [x|]; [|done]. exists x. split; [done|].
  destruct x; cbn; try (by eapply answers_intro);
    destruct Hs as [hint Hs]; (eexists; split; [|by eapply answers_intro]);
    (eexists _, _; split_and!; [exact (proj1 Hh)|done|left; by eexists]).
Qed.

Lemma destination_answers n rl meta :
  home ns slot n (mkSlotRange rl (Migrating meta)) →
  ∃ y, net_state net (mm_dst_proxy_address meta) (mkMigrationTaskMeta name (mkSlotRange rl (Importing meta))) = Some y ∧
    if bool_decide (y = PreCheck)
    then answers net c (mm_dst_proxy_address meta) (moved_to slot (mm_src_proxy_address meta))
    else ∃ act, serves ns name c slot (mm_dst_proxy_address meta) act ∧ answers net c (mm_dst_proxy_address meta) act.
Proof.
  intros Hh. destruct (home_migrating ns Hns slot n rl meta Hh) as [[n' Hat] _].
  pose proof (at_node_tag ns Hns slot n' _ Hat) as [_ [Hdst _]]. cbn in Hdst.
  destruct (Hinformed n' (proj1 Hat)) as (pn & m & Hpn & Ht & Hm & Hw & Henv & Hpas).
  rewrite <-Hdst in Hpn, Ht. unfold net_state. rewrite Hpn. cbn [mbind option_bind].
  pose proof (send_destination (pn_config pn) (pn_manager pn) m (pn_senders pn) ns name _ slot c Hns Ht Hm Hw Henv Hpas
    Hslot Hc n rl meta Hh eq_refl) as Hs. unfold state_of in Hs.
  destruct (task_state <$> _) as [y|]; [|done]. exists y. split; [done|].
  destruct y; cbn; try (by eapply answers_intro); (eexists; split; [|by eapply answers_intro]);
    (eexists _, _; split_and!; [exact Hat|done|by right]).
Qed.

(** A migrating slot: where the two ends send the command. *)
Lemma route_ends n rl meta :
  home ns slot n (mkSlotRange rl (Migrating meta)) →
  ∃ owner act, serves ns name c slot owner act ∧ ∀ a, a = mm_src_proxy_address meta ∨ a = mm_dst_proxy_address meta →
    ∃ k, k ≤ 1 ∧ follows net c slot a k owner act.
Proof.
  intros Hh. destruct (source_answers n rl meta Hh) as (x & Hx & Hs).
  destruct (destination_answers n rl meta Hh) as (y & Hy & Hd).
  rewrite (Hstep rl meta x y Hx Hy) in Hs. destruct (bool_decide (y = PreCheck)).
  - destruct Hs as (act & Hact & Hs). exists (mm_src_proxy_address meta), act.
    split; [done|]. intros a Ha. apply (ends_follow (mm_dst_proxy_address meta)); tauto.
  - destruct Hd as (act & Hact & Hd). exists (mm_dst_proxy_address meta), act.
    split; [done|]. intros a Ha. by apply (ends_follow (mm_src_proxy_address meta)).
Qed.

Lemma route_migrating n rl meta :
  home ns slot n (mkSlotRange rl (Migrating meta)) →
  ∃ owner act, serves ns name c slot owner act ∧
    ∀ a, informed a → ∃ k, k ≤ 2 ∧ follows net c slot a k owner act.
Proof.
  intros Hh. destruct (route_ends n rl meta Hh) as (owner & act & Hserves & Hends). exists owner, act.
  split; [done|].
  pose proof (at_node_tag ns Hns slot n _ (proj1 Hh)) as [_ [Hsrc _]]. cbn in Hsrc.
  assert (∀ n' sr', at_node ns slot n' sr' →
    node_proxy_address n' = mm_src_proxy_address meta ∨ node_proxy_address n' = mm_dst_proxy_address meta) as Hplaces.
  { intros n' sr' Hat. destruct (places_migrating ns Hns slot Hslot n rl meta n' sr' Hh Hat) as [[-> _]|[? _]]; auto. }
  intros a Ha. destruct (decide (a = mm_src_proxy_address meta ∨ a = mm_dst_proxy_address meta)) as [Hend|Hno].
  { destruct (Hends a Hend) as (k & ? & ?). exists k. split; [lia|done]. }
  destruct Ha as (pn & m & Hpn & ? & ? & ? & ? & ?).
  destruct (send_elsewhere (pn_config pn) (pn_manager pn) m (pn_senders pn) ns name a slot c)
    as (n' & sr' & Hat & Hsend); try done.
  { intros n' sr' Hat <-. apply Hno. by eapply Hplaces. }
  destruct (Hends (node_proxy_address n')) as (k & Hk & Hf); [by eapply Hplaces|].
  exists (S k). split; [lia|]. eapply follows_moved; [|exact Hf]. by eapply answers_intro.
Qed.

Lemma route :
  ∃ owner act, serves ns name c slot owner act ∧ ∀ a, informed a → ∃ k, k ≤ 2 ∧ follows net c slot a k owner act.
Proof.
  destruct (home_exists ns Hns slot Hslot) as (n & [rl tag] & Hh). destruct tag as [meta|meta|].
  - by eapply route_migrating.
  - by destruct Hh.
  - eexists _, _. split; [|intros a Ha; by eapply route_stable].
    eexists _, _. split_and!; [exact (proj1 Hh)|done|left; by eexists].
Qed.
End route.
End network.

(** ** Claims *)

(** Proxy [a] runs with the metadata that the broker has for it, as the
    coordinator sends it and the proxy parses it. *)
Definition up_to_date `{UnicodeCase} `{HashOrder} `{MetaCodec} `{DecoderEnv} (s : MetaStore) (limit : N)
    (net : network) (a : string) : Prop :=
  ∃ pn p m, net !! a = Some pn ∧ managed (pn_config pn) (pn_manager pn) ∧
    get_proxy_by_address s a limit = Ok (Some p) ∧ sendable p ∧
    meta_from_resp (command_value (meta_command "SETCLUSTER"
      (to_args (proxy_cluster_meta (mkFlags false false) (filter_proxy_masters p))))) = Ok (m, true) ∧
    has_meta (pn_config pn) m (pn_manager pn) ∧
    accepting (pn_senders pn) ∧ active_redirection (pn_config pn) = false.

Lemma routes_to_owner `{UnicodeCase} `{HashOrder} `{MetaCodec} `{DecoderEnv} `{Crc16}
    s name cs limit net c slot :
  reachable s → clusters s !! name = Some cs → name ≠ EMPTY_CLUSTER_NAME →
  (∀ a, a ∈ chunk_addresses (cs_chunks cs) → up_to_date s limit net a) → in_step net name →
  ctx_slot c = Some slot → (slot < SLOT_NUM)%N →
  ∃ shown cluster owner act, limit_migration cs limit = Ok shown ∧ cluster_store_to_cluster shown = Ok cluster ∧
    serves (cluster_nodes cluster) name c slot owner act ∧
    ∀ a, a ∈ chunk_addresses (cs_chunks cs) → ∃ k, k ≤ 2 ∧ follows net c slot a k owner act.
Proof.
  intros Hs Hcs Hne Hnet Hstep Hc Hslot. pose proof (reachable_wf s Hs) as Hwf.
  destruct (get_cluster_store_Ok s name cs limit (wf_slots _ Hwf) Hcs) as (cs' & _ & Hlim & Hsl & _).
  destruct (cluster_store_to_cluster_Ok cs' Hsl) as (ns & Hto & Hv).
  assert (∀ a, a ∈ chunk_addresses (cs_chunks cs) → informed net ns name a) as Hinf.
  { intros a Ha. rewrite <-layout_addresses in Ha. apply list_elem_of_fmap in Ha as (x & -> & Hx).
    destruct (rg_half _ _ (sf_registry _ Hwf) name (layout (cs_chunks cs)) x) as (pr & Hpr & Hprn & _);
      [apply layouts_lookup; by exists cs|done|].
    destruct (Hnet (half_address x)) as (pn & p & m & Hpn & Hman & Hp & Hsend & Hm & Hhas & Hacc & Hpas).
    { rewrite <-layout_addresses. by apply list_elem_of_fmap_2. }
    exists pn, m. split_and!; try done; [|by apply managed_wf].
    assert (m = meta_with_slots (proxy_cluster_meta (mkFlags false false) (filter_proxy_masters p))) as ->;
      [|by eapply (proxy_told s name cs Hwf Hcs limit cs' ns Hlim Hto Hv)].
    by apply (sent_meta_parsed s (half_address x) pr name cs limit). }
  destruct (route net c slot ns name (view_serving s name cs Hwf Hcs limit cs' ns Hlim Hv) Hslot Hc Hstep)
    as (owner & act & Hserves & Hroute).
  - intros n Hn. apply Hinf. destruct (limit_migration_spec cs limit (wf_slots _ Hwf _ _ Hcs)) as (cs1 & Hl1 & _ & Hfr & _).
    rewrite Hlim in Hl1. injection Hl1 as <-.
    rewrite <-(frames_addresses _ _ Hfr), <-layout_addresses. apply (view_proxies _ ns); [done|].
    by apply list_elem_of_fmap_2.
  - eexists cs', _, owner, act. split; [done|]. split; [exact Hto|]. split; [done|]. intros a Ha. by apply Hroute, Hinf.
Qed.

(** C3. Routing, from the broker's store to the client: once the proxies of a
    cluster have the metadata of the broker and the two ends of each running
    migration agree on the switch, a command for any slot reaches, from every
    proxy of the cluster and after at most two redirections, one and the same
    proxy, which hands it to a node that has the slot in the broker's view. *)
Theorem routing_reaches_owner `{UnicodeCase} `{HashOrder} `{MetaCodec} `{DecoderEnv} `{Crc16}
    s name cs limit net c slot :
  reachable s → clusters s !! name = Some cs → name ≠ EMPTY_CLUSTER_NAME →
  (∀ a, a ∈ chunk_addresses (cs_chunks cs) → up_to_date s limit net a) → in_step net name →
  ctx_slot c = Some slot → (slot < SLOT_NUM)%N →
  ∃ shown cluster owner act, limit_migration cs limit = Ok shown ∧ cluster_store_to_cluster shown = Ok cluster ∧
    serves (cluster_nodes cluster) name c slot owner act ∧
    ∀ a, a ∈ chunk_addresses (cs_chunks cs) → ∃ k, k ≤ 2 ∧ follows net c slot a k owner act.
Proof. apply routes_to_owner. Qed.

(** ** Witnesses *)

Section demo.
#[local] Existing Instances ascii_case canonical_order binary_codec env_64 bitwise_crc16.

Definition demo_meta (a : string) : ProxyClusterMeta :=
  match get_proxy_by_address demo_store a 1 with
  | Ok (Some p) => meta_with_slots (proxy_cluster_meta (mkFlags false false) (filter_proxy_masters p))
  | _ => proxy_cluster_meta_new 0 (mkFlags false false) "" ∅ ∅ default_cluster_config
  end.

Definition demo_config (a host : string) : ServerProxyConfig := mkServerProxyConfig a host false (Some 4%N) None.
Definition demo_senders : Senders :=
  mkSenders (λ _ _, Taken) (λ _ _, Taken) (λ _ _, true) (λ _, mkBlockingState false 0).

Definition demo_node (a host : string) : ProxyNode :=
  mkProxyNode (demo_config a host) (set_meta (demo_config a host) meta_manager_new (demo_meta a)).1.1 demo_senders.

Definition demo_hosts : list (string * string) := [("d:70", "d"); ("c:70", "c"); ("b:70", "b"); ("e:70", "e")].
Definition demo_net : network := list_to_map ((λ ah, (ah.1, demo_node ah.1 ah.2)) <$> demo_hosts).

Lemma demo_net_lookup a pn : demo_net !! a = Some pn → ∃ host, pn = demo_node a host.
Proof.
  intros Ha%elem_of_list_to_map_2. apply list_elem_of_fmap in Ha as ([x h] & [= -> ->] & _). by exists h.
Qed.

Lemma demo_net_host a host : (a, host) ∈ demo_hosts → demo_net !! a = Some (demo_node a host).
Proof.
  intros Ha. apply elem_of_list_to_map_1.
  - rewrite <-list_fmap_compose, (list_fmap_ext _ fst) by done. apply (bool_decide_unpack _). vm_compute. exact I.
  - by apply (list_elem_of_fmap_2 (λ ah, (ah.1, demo_node ah.1 ah.2)) _ (a, host)).
Qed.

Lemma demo_in_step : in_step demo_net "demo".
Proof.
  assert (∀ a k x, net_state demo_net a k = Some x → x = PreCheck) as Hx.
  { intros a k x. unfold net_state. destruct (demo_net !! a) as [pn|] eqn:Hpn; [|done].
    apply demo_net_lookup in Hpn as [h ->]. cbn [mbind option_bind demo_node pn_manager].
    intros (t & Ht & ->)%fmap_Some. by apply set_meta_fresh in Ht. }
  intros rl meta x y ->%Hx ->%Hx. reflexivity.
Qed.

Definition demo_told_of (a : string) : Proxy :=
  match get_proxy_by_address demo_store a 1 with
  | Ok (Some p) => p
  | _ => mkProxy None "" 0 [] [] None
  end.

Lemma demo_up a host :
  demo_net !! a = Some (demo_node a host) → get_proxy_by_address demo_store a 1 = Ok (Some (demo_told_of a)) →
  sendable (demo_told_of a) →
  meta_from_resp (command_value (meta_command "SETCLUSTER"
    (to_args (proxy_cluster_meta (mkFlags false false) (filter_proxy_masters (demo_told_of a)))))) =
    Ok (demo_meta a, true) →
  check_hosts (pcm_local (demo_meta a)) host = true → (0 < pcm_epoch (demo_meta a))%N →
  up_to_date demo_store 1 demo_net a.
Proof.
  intros Hpn Hp Hsend Hm Hh He.
  destruct (set_meta_installs (demo_config a host) meta_manager_new (demo_meta a) Hh) as (st & nt & Hset & Hhas);
    [by left|].
  assert (pn_manager (demo_node a host) = st) as Hst by exact (f_equal (λ x, x.1.1) Hset).
  exists (demo_node a host), (demo_told_of a), (demo_meta a).
  split; [exact Hpn|]. split; [apply managed_set_meta, managed_new|].
  split; [exact Hp|]. split; [exact Hsend|]. split; [exact Hm|]. rewrite Hst.
  split; [exact Hhas|]. split; [split; intros; exact eq_refl|exact eq_refl].
Qed.

Ltac demo_up host :=
  apply (demo_up _ host);
  [ apply demo_net_host; apply (bool_decide_unpack _); vm_compute; exact I
  | vm_compute; reflexivity
  | split;
    [ vm_compute; discriminate | vm_compute; reflexivity | vm_compute; repeat split; discriminate
    | apply (bool_decide_unpack _); vm_compute; exact I
    | apply (bool_decide_unpack _); vm_compute; exact I | apply (bool_decide_unpack _); vm_compute; exact I
    | apply (bool_decide_unpack _); vm_compute; exact I | vm_compute; reflexivity ]
  | vm_compute; reflexivity | vm_compute; reflexivity | vm_compute; reflexivity ].

Lemma demo_up_all a : a ∈ chunk_addresses (cs_chunks demo_cluster) → up_to_date demo_store 1 demo_net a.
Proof.
  assert (chunk_addresses (cs_chunks demo_cluster) = ["d:70"; "c:70"; "b:70"; "e:70"]) as ->
    by (vm_compute; reflexivity).
  revert a. apply Forall_forall. repeat apply Forall_cons_2; [demo_up "d"|demo_up "c"|demo_up "b"|demo_up "e"|].
  constructor.
Qed.

Definition demo_ctx : CmdCtx :=
  match command_new (command_value [bytes_of "GET"; bytes_of "foo"]) with
  | Ok c => mkCmdCtx c None
  | _ => mkCmdCtx (mkCommand (Arr (Elements [])) (mkCommandInfo TInvalid DOthers None)) None
  end.

Lemma routing_reaches_owner_witness :
  ∃ shown cluster owner act, limit_migration demo_cluster 1 = Ok shown ∧ cluster_store_to_cluster shown = Ok cluster ∧
    serves (cluster_nodes cluster) "demo" demo_ctx 12182 owner act ∧
    ∀ a, a ∈ chunk_addresses (cs_chunks demo_cluster) → ∃ k, k ≤ 2 ∧ follows demo_net demo_ctx 12182 a k owner act.
Proof.
  apply (routing_reaches_owner demo_store "demo" demo_cluster 1 demo_net demo_ctx 12182).
  - exact demo_reachable.
  - exact demo_lookup.
  - discriminate.
  - exact demo_up_all.
  - exact demo_in_step.
  - vm_compute. reflexivity.
  - reflexivity.
Defined.
End demo.
