(* ===== verification/Switch.v ===== *)
(** * The switch of a migration

    Models how a migration moves its slots from the source to the destination
    ([src/src/migration/scan_task.rs]): the task at the source with its
    requests [PRECHECK], [PRESWITCH] and [FINALSWITCH]
    ([keep_connecting_and_sending_cmd] of [src/src/common/resp_execution.rs]),
    the state of the importing task at the destination, the threads that ask
    [MigratingTask::send] where a command goes, and the blocking queue of the
    source node ([Blocking]).  Requests can be answered late, repeated and
    lost.

    When the destination starts to serve the range, no command of the range is
    at the source node, but for the commands that read the state of the task
    before the switch and the blocking state after it, and those that were
    routed before there was a task and come to the queue after the switch;
    executions with such commands are given, and one in which a late [PRECHECK]
    undoes the switch at the destination. *)

From S2P Require Import Prelude RangeList Resp Packet ClusterMeta Command MetaMap Route Blocking.

(** ** The state *)

(** Where the task is in [run]. *)
Inductive mpc : Type :=
| MCheck     (** in [pre_check] *)
| MBlock     (** in [pre_block], before [start_blocking] *)
| MWait      (** waiting for [blocking_done] *)
| MDrained   (** before it sets [PreSwitch] *)
| MSwitch    (** in [pre_switch] *)
| MStop      (** before [blocking_handle.stop()] *)
| MScan      (** in [scan_migrate] *)
| MFinal     (** in [final_switch] *)
| MEnd.

#[global] Instance mpc_eq_dec : EqDecision mpc.
Proof. solve_decision. Defined.

(** A thread in [MigratingTask::send] with its command. *)
Inductive caller : Type := Called (c : nat) | StateLoaded (c : nat) (s : MigrationState).

Record Switch : Type := mkSwitch {
  sw_q : Queue;
  sw_src : MigrationState;
  sw_dst : MigrationState;
  sw_pc : mpc;
  sw_wire : list (nat * MgrSubCmd);      (** requests on their way *)
  sw_replies : list (nat * bool);        (** replies, [true] if not an error *)
  sw_out : option nat;                   (** the request whose reply is awaited *)
  sw_next : nat;
  sw_callers : gmap nat caller;
  sw_forced : bool;                      (** a timeout cut the protocol short *)
  sw_abandoned : bool;                   (** a [PRECHECK] was given up *)
  sw_raced : gset nat;                   (** commands whose two loads enclose the switch *)
  sw_stale : gset nat;                   (** commands routed with the metadata from before the task *)
  sw_late : gset nat;                    (** those of them that look at the queue after the switch *)
}.

Definition set_q (q : Queue) (s : Switch) : Switch :=
  mkSwitch q (sw_src s) (sw_dst s) (sw_pc s) (sw_wire s) (sw_replies s) (sw_out s) (sw_next s) (sw_callers s)
    (sw_forced s) (sw_abandoned s) (sw_raced s) (sw_stale s) (sw_late s).
Definition set_pc (pc : mpc) (s : Switch) : Switch :=
  mkSwitch (sw_q s) (sw_src s) (sw_dst s) pc (sw_wire s) (sw_replies s) (sw_out s) (sw_next s) (sw_callers s)
    (sw_forced s) (sw_abandoned s) (sw_raced s) (sw_stale s) (sw_late s).
Definition set_src (st : MigrationState) (s : Switch) : Switch :=
  mkSwitch (sw_q s) st (sw_dst s) (sw_pc s) (sw_wire s) (sw_replies s) (sw_out s) (sw_next s) (sw_callers s)
    (sw_forced s) (sw_abandoned s) (sw_raced s) (sw_stale s) (sw_late s).
Definition set_dst (st : MigrationState) (s : Switch) : Switch :=
  mkSwitch (sw_q s) (sw_src s) st (sw_pc s) (sw_wire s) (sw_replies s) (sw_out s) (sw_next s) (sw_callers s)
    (sw_forced s) (sw_abandoned s) (sw_raced s) (sw_stale s) (sw_late s).
Definition set_wire (w : list (nat * MgrSubCmd)) (r : list (nat * bool)) (s : Switch) : Switch :=
  mkSwitch (sw_q s) (sw_src s) (sw_dst s) (sw_pc s) w r (sw_out s) (sw_next s) (sw_callers s)
    (sw_forced s) (sw_abandoned s) (sw_raced s) (sw_stale s) (sw_late s).
Definition set_out (o : option nat) (n : nat) (s : Switch) : Switch :=
  mkSwitch (sw_q s) (sw_src s) (sw_dst s) (sw_pc s) (sw_wire s) (sw_replies s) o n (sw_callers s)
    (sw_forced s) (sw_abandoned s) (sw_raced s) (sw_stale s) (sw_late s).
Definition set_callers (cs : gmap nat caller) (s : Switch) : Switch :=
  mkSwitch (sw_q s) (sw_src s) (sw_dst s) (sw_pc s) (sw_wire s) (sw_replies s) (sw_out s) (sw_next s) cs
    (sw_forced s) (sw_abandoned s) (sw_raced s) (sw_stale s) (sw_late s).
Definition set_forced (s : Switch) : Switch :=
  mkSwitch (sw_q s) (sw_src s) (sw_dst s) (sw_pc s) (sw_wire s) (sw_replies s) (sw_out s) (sw_next s) (sw_callers s)
    true (sw_abandoned s) (sw_raced s) (sw_stale s) (sw_late s).
Definition set_abandoned (s : Switch) : Switch :=
  mkSwitch (sw_q s) (sw_src s) (sw_dst s) (sw_pc s) (sw_wire s) (sw_replies s) (sw_out s) (sw_next s) (sw_callers s)
    (sw_forced s) true (sw_raced s) (sw_stale s) (sw_late s).
Definition set_raced (r : gset nat) (s : Switch) : Switch :=
  mkSwitch (sw_q s) (sw_src s) (sw_dst s) (sw_pc s) (sw_wire s) (sw_replies s) (sw_out s) (sw_next s) (sw_callers s)
    (sw_forced s) (sw_abandoned s) r (sw_stale s) (sw_late s).
Definition set_stale (stale late : gset nat) (s : Switch) : Switch :=
  mkSwitch (sw_q s) (sw_src s) (sw_dst s) (sw_pc s) (sw_wire s) (sw_replies s) (sw_out s) (sw_next s) (sw_callers s)
    (sw_forced s) (sw_abandoned s) (sw_raced s) stale late.

(** The command that a thread in the queue still has. *)
Definition pc_command (p : pc) : option nat :=
  match p with Entered c _ | Counted c _ | Passing c | Wrapped c | Unlocking c | Pushing c => Some c | _ => None end.
Definition thread_commands (q : Queue) : gset nat := list_to_set (omap (pc_command ∘ snd) (map_to_list (q_threads q))).

(** The task is new; the node has been in use before, and the commands in its
    queue were routed without the task. *)
Definition switch_new (q : Queue) : Switch :=
  mkSwitch q PreCheck PreCheck MCheck [] [] None 0 ∅ false false ∅ (thread_commands q) ∅.

(** ** The source *)

(** The hint [MigratingTask::send] gives a command that stays at the source;
    [None] when it redirects the command. *)
Definition migrating_hint (state : MigrationState) (bs : BlockingState) : option BlockingHint :=
  match state with
  | PreCheck => Some (NotBlockingInMigration (bs_term bs))
  | PreBlocking | PreSwitch =>
      Some (if bs_blocking bs then Blocking else NotBlockingInMigration (bs_term bs))
  | _ => None
  end.

(** The hint is the one of [migrating_send]. *)
Lemma migrating_send_hint bs t c :
  migrating_send bs t c =
    match migrating_hint (state_from_u16 (mt_state t)) bs with
    | Some h => ([], Err (SlotNotFound (mkBlockingHintTask c h)))
    | None => handle_redirection c (mm_dst_proxy_address (mt_meta t)) (mt_active_redirection t)
    end.
Proof. unfold migrating_send. by destruct (state_from_u16 (mt_state t)). Qed.

(** The request of each phase. *)
Definition phase_cmd (pc : mpc) : option MgrSubCmd :=
  match pc with
  | MCheck => Some CmdPreCheck
  | MSwitch => Some CmdPreSwitch
  | MFinal => Some CmdFinalSwitch
  | _ => None
  end.

(** What a reply that is not an error makes the task do. *)
Definition phase_done (s : Switch) : Switch :=
  match sw_pc s with
  | MCheck => set_pc MBlock (set_src PreBlocking s)
  | MSwitch => set_pc MStop (set_src Scanning s)
  | MFinal => set_pc MEnd (set_src SwitchCommitted s)
  | _ => s
  end.

(** ** The destination ([handle_switch] of the importing task) *)

Definition dst_state (sub_cmd : MgrSubCmd) : MigrationState :=
  match sub_cmd with
  | CmdPreCheck => PreCheck
  | CmdPreSwitch => PreSwitch
  | CmdFinalSwitch => SwitchCommitted
  end.

Lemma importing_handle_switch_state t arg sub_cmd t' :
  importing_handle_switch t arg sub_cmd = (t', Ok ()) → state_from_u16 (it_state t') = dst_state sub_cmd.
Proof.
  unfold importing_handle_switch. case_bool_decide; [done|]. intros [= <-]. by destruct sub_cmd.
Qed.

(** ** The steps *)

Section switch.
(** The commands of the slots that are migrated. *)
Context (is_hot : nat → bool).

Inductive SAction : Type :=
| SCall (t c : nat)              (** a command of the range comes to the task *)
| SLoad (t : nat)                (** the next load of that thread *)
| SStale (t c : nat) (h : BlockingHint)
  (** a command of the range, routed with the metadata from before the task *)
| SQueue (a : QAction)           (** anything else that happens at the node *)
| SSend                          (** the task sends the request of its phase *)
| SDeliver (i : nat) (ok : bool) (** the destination serves a request *)
| SReceive                       (** the task gets the reply *)
| STimeout                       (** the task gives the request up *)
| SStart                         (** [start_blocking] *)
| SObserve                       (** [blocking_done] *)
| SPreSwitch                     (** the state becomes [PreSwitch] *)
| SStop                          (** the blocking handle is dropped *)
| SScanned                       (** the scan has ended *)
| SForce                         (** [max_blocking_time] has passed *)
| SExpire                        (** [max_migration_time] has passed *)
| SCancel.                       (** the task is stopped, or its scan fails *)

Definition our_handle : nat := 0.

(** What the other threads and migrations may do with the queue. *)
Definition foreign (s : Switch) (a : QAction) : bool :=
  match a with
  | Enter t c _ => negb (is_hot c) && bool_decide (sw_callers s !! t = None)
  | StartBlocking h | Observe h | DropHandle h => negb (h =? our_handle)
  | Run _ _ | Finish _ | RunHandle _ => true
  end.

(** Dropping the future drops the handle it holds. *)
Definition drop_ours (s : Switch) : Switch :=
  match perform (DropHandle our_handle) (sw_q s) with
  | Some q => set_q q s
  | None => s
  end.

Definition blocking_phase (pc : mpc) : bool :=
  match pc with MBlock | MWait | MDrained | MSwitch | MStop => true | _ => false end.

Definition dropped (pc : mpc) : bool :=
  match pc with MScan | MFinal | MEnd => true | _ => false end.

Definition load (t : nat) (s : Switch) : option Switch :=
  match sw_callers s !! t with
  | Some (Called c) => Some (set_callers (<[t := StateLoaded c (sw_src s)]> (sw_callers s)) s)
  | Some (StateLoaded c state) =>
      let s' := set_callers (delete t (sw_callers s)) s in
      match migrating_hint state (get_blocking_state (sw_q s)) with
      | Some h =>
          q ← perform (Enter t c h) (sw_q s);
          Some (set_raced (if dropped (sw_pc s) then {[c]} ∪ sw_raced s else sw_raced s) (set_q q s'))
      | None => Some s'
      end
  | None => None
  end.

(** A thread with a command of before the task loads the blocking state after
    the switch. *)
Definition looked_at (s : Switch) (a : QAction) : gset nat :=
  match a with
  | Run t _ =>
      match q_threads (sw_q s) !! t with
      | Some (Counted c _) => if dropped (sw_pc s) && bool_decide (c ∈ sw_stale s) then {[c]} ∪ sw_late s else sw_late s
      | _ => sw_late s
      end
  | _ => sw_late s
  end.

Definition advance (a : SAction) (s : Switch) : option Switch :=
  match a with
  | SCall t c =>
      match sw_callers s !! t, q_threads (sw_q s) !! t, is_hot c with
      | None, None, true => Some (set_callers (<[t := Called c]> (sw_callers s)) s)
      | _, _, _ => None
      end
  | SLoad t => load t s
  | SStale t c h =>
      match sw_callers s !! t, is_hot c with
      | None, true => q ← perform (Enter t c h) (sw_q s); Some (set_stale ({[c]} ∪ sw_stale s) (sw_late s) (set_q q s))
      | _, _ => None
      end
  | SQueue a => if foreign s a then q ← perform a (sw_q s); Some (set_stale (sw_stale s) (looked_at s a) (set_q q s)) else None
  | SSend =>
      match phase_cmd (sw_pc s), sw_out s with
      | Some cmd, None =>
          Some (set_out (Some (sw_next s)) (S (sw_next s)) (set_wire ((sw_next s, cmd) :: sw_wire s) (sw_replies s) s))
      | _, _ => None
      end
  | SDeliver i ok =>
      match list_find (λ m, m.1 = i) (sw_wire s) with
      | Some (k, (_, cmd)) =>
          let s' := set_wire (delete k (sw_wire s)) ((i, ok) :: sw_replies s) s in
          Some (if ok : bool then set_dst (dst_state cmd) s' else s')
      | None => None
      end
  | SReceive =>
      i ← sw_out s;
      if bool_decide ((i, true) ∈ sw_replies s) then Some (phase_done (set_out None (sw_next s) s))
      else if bool_decide ((i, false) ∈ sw_replies s) then Some (set_out None (sw_next s) s)
      else None
  | STimeout =>
      _ ← sw_out s;
      let s' := set_out None (sw_next s) s in
      Some (if bool_decide (sw_pc s = MCheck) then set_abandoned s' else s')
  | SStart =>
      if bool_decide (sw_pc s = MBlock) then
        q ← perform (StartBlocking our_handle) (sw_q s); Some (set_pc MWait (set_q q s))
      else None
  | SObserve =>
      if bool_decide (sw_pc s = MWait) then
        q ← perform (Observe our_handle) (sw_q s); Some (set_pc MDrained (set_q q s))
      else None
  | SPreSwitch =>
      if bool_decide (sw_pc s = MDrained) then Some (set_pc MSwitch (set_src PreSwitch s)) else None
  | SStop =>
      if bool_decide (sw_pc s = MStop) then
        q ← perform (DropHandle our_handle) (sw_q s); Some (set_pc MScan (set_q q s))
      else None
  | SScanned =>
      if bool_decide (sw_pc s = MScan) then Some (set_pc MFinal (set_src FinalSwitch s)) else None
  | SForce =>
      if blocking_phase (sw_pc s) then Some (set_pc MScan (set_forced (set_out None (sw_next s) (drop_ours s)))) else None
  | SExpire =>
      if dropped (sw_pc s) && negb (bool_decide (sw_pc s = MScan)) then None
      else Some (set_pc MFinal (set_forced (set_out None (sw_next s) (drop_ours s))))
  | SCancel => Some (set_pc MEnd (set_forced (set_out None (sw_next s) (drop_ours s))))
  end.

(** The handle of the task is a new one. *)
Inductive switching : Switch → Prop :=
| switching_new q :
    running q → q_handles q !! our_handle = None → switching (switch_new q)
| switching_step s a s' :
    switching s → advance a s = Some s' → (q_changes (sw_q s') < u32_modulus)%N → switching s'.

(** The steps that can be taken, one rule each. *)
Inductive stepped : SAction → Switch → Switch → Prop :=
| stepped_call t c s :
    sw_callers s !! t = None → q_threads (sw_q s) !! t = None → is_hot c = true →
    stepped (SCall t c) s (set_callers (<[t := Called c]> (sw_callers s)) s)
| stepped_state t c s :
    sw_callers s !! t = Some (Called c) →
    stepped (SLoad t) s (set_callers (<[t := StateLoaded c (sw_src s)]> (sw_callers s)) s)
| stepped_enter t c state h q s :
    sw_callers s !! t = Some (StateLoaded c state) →
    migrating_hint state (get_blocking_state (sw_q s)) = Some h → perform (Enter t c h) (sw_q s) = Some q →
    stepped (SLoad t) s (set_raced (if dropped (sw_pc s) then {[c]} ∪ sw_raced s else sw_raced s)
      (set_q q (set_callers (delete t (sw_callers s)) s)))
| stepped_redirect t c state s :
    sw_callers s !! t = Some (StateLoaded c state) →
    migrating_hint state (get_blocking_state (sw_q s)) = None →
    stepped (SLoad t) s (set_callers (delete t (sw_callers s)) s)
| stepped_stale t c h q s :
    is_hot c = true → perform (Enter t c h) (sw_q s) = Some q →
    stepped (SStale t c h) s (set_stale ({[c]} ∪ sw_stale s) (sw_late s) (set_q q s))
| stepped_queue a q s :
    foreign s a = true → perform a (sw_q s) = Some q →
    stepped (SQueue a) s (set_stale (sw_stale s) (looked_at s a) (set_q q s))
| stepped_send cmd s :
    phase_cmd (sw_pc s) = Some cmd → sw_out s = None →
    stepped SSend s (set_out (Some (sw_next s)) (S (sw_next s)) (set_wire ((sw_next s, cmd) :: sw_wire s) (sw_replies s) s))
| stepped_deliver i cmd w s :
    sw_wire s ≡ₚ (i, cmd) :: w →
    stepped (SDeliver i true) s (set_dst (dst_state cmd) (set_wire w ((i, true) :: sw_replies s) s))
| stepped_refuse i cmd w s :
    sw_wire s ≡ₚ (i, cmd) :: w → stepped (SDeliver i false) s (set_wire w ((i, false) :: sw_replies s) s)
| stepped_done i s :
    sw_out s = Some i → (i, true) ∈ sw_replies s → stepped SReceive s (phase_done (set_out None (sw_next s) s))
| stepped_error i s :
    sw_out s = Some i → (i, false) ∈ sw_replies s → stepped SReceive s (set_out None (sw_next s) s)
| stepped_timeout i s :
    sw_out s = Some i → sw_pc s ≠ MCheck → stepped STimeout s (set_out None (sw_next s) s)
| stepped_abandon i s :
    sw_out s = Some i → sw_pc s = MCheck → stepped STimeout s (set_abandoned (set_out None (sw_next s) s))
| stepped_start q s :
    sw_pc s = MBlock → perform (StartBlocking our_handle) (sw_q s) = Some q → stepped SStart s (set_pc MWait (set_q q s))
| stepped_observe q s :
    sw_pc s = MWait → perform (Observe our_handle) (sw_q s) = Some q → stepped SObserve s (set_pc MDrained (set_q q s))
| stepped_preswitch s : sw_pc s = MDrained → stepped SPreSwitch s (set_pc MSwitch (set_src PreSwitch s))
| stepped_stop q s :
    sw_pc s = MStop → perform (DropHandle our_handle) (sw_q s) = Some q → stepped SStop s (set_pc MScan (set_q q s))
| stepped_scanned s : sw_pc s = MScan → stepped SScanned s (set_pc MFinal (set_src FinalSwitch s))
| stepped_forced a pc s :
    stepped a s (set_pc pc (set_forced (set_out None (sw_next s) (drop_ours s)))).

Lemma advance_stepped a s s' : advance a s = Some s' → stepped a s s'.
Proof.
  destruct a; cbn [advance].
  - destruct (sw_callers s !! t) eqn:?, (q_threads (sw_q s) !! t) eqn:?, (is_hot c) eqn:?; try done.
    intros [= <-]. by constructor.
  - unfold load. destruct (sw_callers s !! t) as [[c|c state]|] eqn:?; [|..|done].
    + intros [= <-]. by constructor.
    + destruct (migrating_hint _ _) eqn:?; [|intros [= <-]; by econstructor].
      destruct (perform _ _) eqn:?; [|done]. intros [= <-]. by econstructor.
  - destruct (sw_callers s !! t), (is_hot c) eqn:?; try done. destruct (perform _ _) eqn:?; [|done]. intros [= <-]. by constructor.
  - destruct (foreign s a) eqn:?; [|done]. destruct (perform _ _) eqn:?; [|done]. intros [= <-]. by constructor.
  - destruct (phase_cmd _) eqn:?, (sw_out s) eqn:?; try done. intros [= <-]. by constructor.
  - destruct (list_find _ _) as [[k [j cmd]]|] eqn:Hf; [|done].
    apply list_find_Some in Hf as (Hk & Hj & _). cbn in Hj. subst j. apply delete_Permutation in Hk.
    destruct ok; intros [= <-]; by econstructor.
  - destruct (sw_out s) as [i|] eqn:?; [|done]. cbn. case_bool_decide; [intros [= <-]; by econstructor|].
    case_bool_decide; [|done]. intros [= <-]. by econstructor.
  - destruct (sw_out s) as [i|] eqn:?; [|done]. cbn. case_bool_decide; intros [= <-]; by econstructor.
  - case_bool_decide; [|done]. destruct (perform _ _) eqn:?; [|done]. intros [= <-]. by constructor.
  - case_bool_decide; [|done]. destruct (perform _ _) eqn:?; [|done]. intros [= <-]. by constructor.
  - case_bool_decide; [|done]. intros [= <-]. by constructor.
  - case_bool_decide; [|done]. destruct (perform _ _) eqn:?; [|done]. intros [= <-]. by constructor.
  - case_bool_decide; [|done]. intros [= <-]. by constructor.
  - destruct (blocking_phase _); [|done]. intros [= <-]. constructor.
  - destruct (_ && _); [done|]. intros [= <-]. constructor.
  - intros [= <-]. constructor.
Qed.

(** ** The invariant *)

(** *** Requests have different numbers *)

Definition ids_ok (s : Switch) : Prop :=
  NoDup (sw_wire s).*1 ∧ (∀ i, i ∈ (sw_wire s).*1 → i < sw_next s) ∧
  (∀ i b, (i, b) ∈ sw_replies s → i < sw_next s ∧ i ∉ (sw_wire s).*1) ∧
  (∀ i, sw_out s = Some i → i < sw_next s).

Lemma drop_ours_frame s :
  let s' := drop_ours s in
  sw_wire s' = sw_wire s ∧ sw_replies s' = sw_replies s ∧ sw_out s' = sw_out s ∧ sw_next s' = sw_next s ∧
  sw_dst s' = sw_dst s ∧ sw_src s' = sw_src s.
Proof. unfold drop_ours. by destruct (perform _ _). Qed.

Lemma phase_done_frame s :
  let s' := phase_done s in
  sw_wire s' = sw_wire s ∧ sw_replies s' = sw_replies s ∧ sw_out s' = sw_out s ∧ sw_next s' = sw_next s ∧
  sw_dst s' = sw_dst s ∧ sw_q s' = sw_q s ∧ sw_forced s' = sw_forced s ∧ sw_abandoned s' = sw_abandoned s ∧
  sw_raced s' = sw_raced s.
Proof. unfold phase_done. by destruct (sw_pc s). Qed.

Lemma stepped_ids a s s' : ids_ok s → stepped a s s' → ids_ok s'.
Proof.
  intros (Hnd & Hlt & Hrep & Hout). unfold ids_ok.
  destruct 1 as [| | | | | |cmd s Hc Ho|i cmd w s Hw|i cmd w s Hw|i s Ho Hr| | | | | | | | |a pc s]; try by split_and!.
  - cbn. split_and!.
    + apply NoDup_cons. split; [|done]. intros ?%Hlt. lia.
    + intros i [->|?%Hlt]%elem_of_cons; lia.
    + intros i b Hin. destruct (Hrep i b Hin). split; [lia|]. rewrite not_elem_of_cons. split; [lia|done].
    + intros i [= <-]. lia.
  - cbn. rewrite Hw in Hnd. setoid_rewrite Hw in Hlt. setoid_rewrite Hw in Hrep.
    apply NoDup_cons in Hnd as [Hi Hnd]. split_and!; [done| | |done].
    + intros j Hj. apply Hlt. by right.
    + intros j b [[= -> ->]|Hin]%elem_of_cons; [split; [apply Hlt; left|done]|].
      destruct (Hrep j b Hin) as [? Hno]. split; [done|]. intros Hj. apply Hno. by right.
  - cbn. rewrite Hw in Hnd. setoid_rewrite Hw in Hlt. setoid_rewrite Hw in Hrep.
    apply NoDup_cons in Hnd as [Hi Hnd]. split_and!; [done| | |done].
    + intros j Hj. apply Hlt. by right.
    + intros j b [[= -> ->]|Hin]%elem_of_cons; [split; [apply Hlt; left|done]|].
      destruct (Hrep j b Hin) as [? Hno]. split; [done|]. intros Hj. apply Hno. by right.
  - destruct (phase_done_frame (set_out None (sw_next s) s)) as (-> & -> & -> & -> & _). by split_and!.
  - cbn. destruct (drop_ours_frame s) as (-> & -> & _). by split_and!.
Qed.

(** *** The task *)

Definition rank (pc : mpc) : nat :=
  match pc with
  | MCheck => 0 | MBlock => 1 | MWait => 2 | MDrained => 3 | MSwitch => 4 | MStop => 5
  | MScan => 6 | MFinal => 7 | MEnd => 8
  end.

Definition state_at (pc : mpc) : MigrationState :=
  match pc with
  | MCheck => PreCheck
  | MBlock | MWait | MDrained => PreBlocking
  | MSwitch => PreSwitch
  | MStop | MScan => Scanning
  | MFinal => FinalSwitch
  | MEnd => SwitchCommitted
  end.

(** The phase in which a request is sent first. *)
Definition cmd_rank (cmd : MgrSubCmd) : nat :=
  match cmd with CmdPreCheck => 0 | CmdPreSwitch => 4 | CmdFinalSwitch => 7 end.

Record task_ok (s : Switch) : Prop := {
  tk_src : sw_src s = state_at (sw_pc s);
  tk_none : rank (sw_pc s) < 2 → q_handles (sw_q s) !! our_handle = None;
  tk_live : 2 ≤ rank (sw_pc s) < 6 → q_handles (sw_q s) !! our_handle = Some Live;
  tk_drained : 3 ≤ rank (sw_pc s) < 6 → our_handle ∈ q_drained (sw_q s);
  tk_wire : ∀ i cmd, (i, cmd) ∈ sw_wire s → cmd_rank cmd ≤ rank (sw_pc s);
  tk_dst : sw_dst s ≠ PreCheck → 4 ≤ rank (sw_pc s);
}.

(** The steps of the others keep our handle. *)
Definition ours_kept (a : QAction) : Prop :=
  match a with StartBlocking h | DropHandle h => h ≠ our_handle | _ => True end.

Lemma perform_ours a q q' :
  ours_kept a → perform a q = Some q' →
  (q_handles q !! our_handle ≠ Some Stopping → q_handles q' !! our_handle = q_handles q !! our_handle) ∧
  (our_handle ∈ q_drained q → our_handle ∈ q_drained q').
Proof.
  intros Ho H. split; [|intros Hin; eapply perform_keeps_drained; [done| |done]; by intros ->].
  intros Hst. perform_cases H; cbn in Ho; try done.
  - by destruct (run_thread_frame t v p q) as (_ & -> & _).
  - cbn. by rewrite lookup_insert_ne.
  - cbn. case_match; [by rewrite lookup_insert_ne|by rewrite lookup_delete_ne].
  - by apply release_one_frame in Hr as (_ & -> & _).
  - cbn. destruct (decide (h = our_handle)) as [->|]; [congruence|by rewrite lookup_delete_ne].
Qed.

Lemma task_ok_queue q s a :
  task_ok s → ours_kept a → perform a (sw_q s) = Some q → task_ok (set_q q s).
Proof.
  intros [Hsrc Hnone Hlive Hdr Hw Hd] Ho Hp. destruct (perform_ours a _ _ Ho Hp) as [Hh Hk].
  split; cbn; try done.
  - intros Hr. rewrite Hh; [by apply Hnone|]. by rewrite Hnone.
  - intros Hr. rewrite Hh; [by apply Hlive|]. by rewrite Hlive.
  - intros Hr. by apply Hk, Hdr.
Qed.

Lemma foreign_ours s a : foreign s a = true → ours_kept a.
Proof. destruct a; cbn; try done; intros Hh ->; by rewrite Nat.eqb_refl in Hh. Qed.

(** The bounds on the rank. *)
Ltac task_lia Hw Hd :=
  try done; intros; try lia; try (specialize (Hd ltac:(done)); lia); try (etrans; [by eapply Hw|lia]).

Lemma stepped_task a s s' : task_ok s → stepped a s s' → sw_forced s' = false → task_ok s'.
Proof.
  intros Hok Hst Hf. pose proof Hok as [Hsrc Hnone Hlive Hdr Hw Hd].
  destruct Hst as [t c s|t c s|t c state h q s Hc Hh Hp|t c state s|t c h q s Hhot Hp|a q s Hfor Hp|cmd s Hc Ho|i cmd w s Hwp|i cmd w s Hwp
    |i s Ho Hr|i s Ho Hr|i s Ho Hpc|i s Ho Hpc|q s Hpc Hp|q s Hpc Hp|s Hpc|q s Hpc Hp|s Hpc|a pc s]; try done.
  - pose proof (task_ok_queue q s (Enter t c h) Hok I Hp) as [? ? ? ? ? ?]. by split.
  - pose proof (task_ok_queue q s (Enter t c h) Hok I Hp) as [? ? ? ? ? ?]. by split.
  - pose proof (task_ok_queue q s a Hok (foreign_ours s a Hfor) Hp) as [? ? ? ? ? ?]. by split.
  - split; try done. cbn. intros j cmd' [[= -> ->]|Hin]%elem_of_cons; [|by eapply Hw].
    destruct (sw_pc s); cbn in Hc |- *; simplify_eq; cbn; lia.
  - split; try done; cbn.
    + intros j cmd' Hin. apply (Hw j). rewrite Hwp. by right.
    + pose proof (Hw i cmd) as Hr. rewrite Hwp in Hr. specialize (Hr ltac:(left)).
      destruct cmd; cbn in *; [done|lia|lia].
  - split; try done; cbn. intros j cmd' Hin. apply (Hw j). rewrite Hwp. by right.
  - unfold phase_done. cbn. destruct (sw_pc s) eqn:Hpc;
      try (split; cbn; rewrite ?Hpc in *; done); split; cbn in *; task_lia Hw Hd;
      first [apply Hlive; lia|apply Hdr; lia|apply Hnone; lia].
  - rewrite Hpc in *. unfold perform in Hp. destruct (q_handles (sw_q s) !! our_handle); [done|].
    destruct (compare_and_apply _ _ _). injection Hp as <-. split; cbn in *; task_lia Hw Hd. apply lookup_insert_eq.
  - rewrite Hpc in *. unfold perform in Hp. rewrite (Hlive ltac:(cbn; lia)) in Hp.
    destruct (blocking_done (sw_q s)); [|done]. injection Hp as <-. split; cbn in *; task_lia Hw Hd; [|set_solver].
    apply Hlive. lia.
  - rewrite Hpc in *. split; cbn in *; task_lia Hw Hd; [apply Hlive; lia|apply Hdr; lia].
  - rewrite Hpc in *. split; cbn in *; task_lia Hw Hd.
  - rewrite Hpc in *. split; cbn in *; task_lia Hw Hd.
Qed.

(** *** The commands of the range *)

(** A hint that keeps a command from the node: of a term that has ended when
    [strict], of a term that has begun otherwise. *)
Definition hint_old (strict : bool) (term : N) (h : BlockingHint) : Prop :=
  match h with
  | NotBlocking => False
  | NotBlockingInMigration t => if strict then (t < term)%N else (t ≤ term)%N
  | Blocking => True
  end.

(** [early]: commands that may still have a hint which lets them pass; [past]:
    those that have used one. *)
Definition pc_hot (strict : bool) (early past : gset nat) (term : N) (p : pc) : Prop :=
  match p with
  | Entered c h | Counted c h => is_hot c = true → c ∉ early → hint_old strict term h
  | Passing c | Wrapped c => strict = true → is_hot c = true → c ∈ past
  | _ => True
  end.

Definition hot_queue (strict : bool) (early past : gset nat) (q : Queue) : Prop :=
  map_Forall (λ _ p, pc_hot strict early past (q_changes q) p) (q_threads q) ∧
  (strict = true → ∀ c, c ∈ q_flight q → is_hot c = true → c ∈ past).

Lemma pc_hot_later strict early past n n' p : (n ≤ n')%N → pc_hot strict early past n p → pc_hot strict early past n' p.
Proof.
  intros Hn. destruct p as [c h|c h| | | | | | |]; cbn; try done; intros Hp Hc Hr; specialize (Hp Hc Hr);
    (destruct h; [done| |done]); cbn in *; destruct strict; lia.
Qed.

Lemma hot_queue_mono strict early early' past past' q :
  early ⊆ early' → past ⊆ past' → hot_queue strict early past q → hot_queue strict early' past' q.
Proof.
  intros He Hp [Ht Hf]. split; [|set_solver]. eapply map_Forall_impl; [exact Ht|]. intros i p. destruct p; cbn; try done; set_solver.
Qed.

Lemma old_hint_blocks term h : hint_old true term h → hint_blocks term h = true.
Proof. destruct h; cbn; [done| |done]. intros Ht. by rewrite (proj2 (N.leb_gt term term0)). Qed.

(** [past] has the commands that pass in this step. *)
Definition passed (strict : bool) (early past : gset nat) (p : pc) : Prop :=
  match p with Counted c _ => strict = true → c ∈ early → c ∈ past | _ => True end.

Lemma run_thread_hot strict early past t v p q :
  word_ok q → (q_changes q < u32_modulus)%N → q_threads q !! t = Some p → passed strict early past p →
  hot_queue strict early past q → hot_queue strict early past (run_thread t v p q).
Proof.
  intros Hw Hc Ht Hpassed [Hth Hf]. pose proof (Hth _ _ Ht) as Hp.
  assert (∀ p', pc_hot strict early past (q_changes q) p' →
    map_Forall (λ _ p, pc_hot strict early past (q_changes q) p) (<[t := p']> (q_threads q))) as Hins.
  { intros p' Hp'. by apply map_Forall_insert_2. }
  assert (map_Forall (λ _ p, pc_hot strict early past (q_changes q) p) (delete t (q_threads q))) as Hdel.
  { by apply map_Forall_delete. }
  destruct p as [c h|c h|c|c| |c|c| |]; cbn [run_thread]; try (split; [by apply Hins|exact Hf]); try by split.
  - rewrite (get_blocking_state_ok q Hw Hc). cbn [bs_blocking bs_term].
    destruct (0 <? N.of_nat (handles_live q))%N; [split; [by apply Hins|exact Hf]|].
    destruct (hint_blocks (q_changes q) h) eqn:Hb; [split; [by apply Hins|exact Hf]|].
    split; [|exact Hf]. apply Hins. cbn. intros -> Hhot. destruct (decide (c ∈ early)) as [|Hno]; [by apply Hpassed|].
    cbn in Hp. specialize (Hp Hhot Hno). apply old_hint_blocks in Hp. congruence.
  - destruct v; (split; [by apply Hins|]); [|exact Hf|exact Hf]. cbn. intros Hs c' [->|Hin]%elem_of_cons Hhot.
    + by apply Hp.
    + by apply Hf.
  - destruct (bs_blocking _); split; [done|exact Hf|by apply Hins|exact Hf].
  - destruct (release_one q) eqn:Hr; [|by split].
    apply release_one_frame in Hr as (_ & _ & Hch & _ & Hth' & _ & Hfl). unfold hot_queue. by rewrite Hch, Hth', Hfl.
Qed.

Lemma perform_hot strict early past a q q' :
  word_ok q → (q_changes q < u32_modulus)%N → hot_queue strict early past q → perform a q = Some q' →
  (∀ t c h, a = Enter t c h → pc_hot strict early past (q_changes q) (Entered c h)) →
  (∀ t v p, a = Run t v → q_threads q !! t = Some p → passed strict early past p) →
  hot_queue strict early past q'.
Proof.
  intros Hw Hc Hot H Henter Hrun. pose proof Hot as [Hth Hf]. perform_cases H; try exact Hot.
  - split; [|exact Hf]. cbn. apply map_Forall_insert_2; [|done]. by eapply Henter.
  - apply run_thread_hot; try done. by eapply Hrun.
  - split; [exact Hth|]. cbn. intros Hs c' Hin. apply Hf; [done|]. apply occ_remove in Hl. rewrite Hl. by right.
  - split; [|exact Hf]. cbn. eapply map_Forall_impl; [exact Hth|]. intros i p. apply pc_hot_later. lia.
  - split; [|exact Hf]. cbn. eapply map_Forall_impl; [exact Hth|]. intros i p. apply pc_hot_later. lia.
  - apply release_one_frame in Hr as (_ & _ & Hch & _ & Hth' & _ & Hfl). unfold hot_queue. by rewrite Hch, Hth', Hfl.
Qed.

(** Dropping a drained handle makes all hints old. *)
Lemma drop_hot early past h q q' :
  drained_ok q → h ∈ q_drained q → hot_queue false early past q → perform (DropHandle h) q = Some q' →
  hot_queue true early past q'.
Proof.
  intros Hd Hh [Hth _] H. destruct Hd as [_ [Hfl Hpass]]; [intros He; rewrite He in Hh; by apply not_elem_of_empty in Hh|].
  unfold perform in H.
  destruct (q_handles q !! h) as [[|]|]; try done. destruct (compare_and_apply _ _ _) as [w [prev term]].
  injection H as <-. split; cbn; [|rewrite Hfl; by intros _ c ?%not_elem_of_nil].
  intros t p Ht. pose proof (Hth t p Ht) as Hp. apply (map_sum_le passing) in Ht. rewrite Hpass in Ht.
  destruct p as [c hh|c hh|c|c| |c|c| |]; cbn in *; try lia; try done;
    intros Hc Hr; specialize (Hp Hc Hr); (destruct hh; [done|cbn in *; lia|done]).
Qed.

Definition hot_ok (s : Switch) : Prop :=
  hot_queue (dropped (sw_pc s)) (sw_raced s ∪ sw_stale s) (sw_raced s ∪ sw_late s) (sw_q s).

Lemma migrating_hint_old state q h c early past :
  word_ok q → (q_changes q < u32_modulus)%N → migrating_hint state (get_blocking_state q) = Some h →
  pc_hot false early past (q_changes q) (Entered c h).
Proof.
  intros Hw Hc. rewrite (get_blocking_state_ok q Hw Hc). unfold migrating_hint. cbn.
  intros Hh _ _. destruct state; simplify_eq; repeat case_match; cbn; done || lia.
Qed.

(** A step of the others: what was routed before the task and passes now is
    noted. *)
Lemma foreign_hot a q s :
  queue_inv (sw_q s) → hot_ok s → foreign s a = true → perform a (sw_q s) = Some q →
  hot_queue (dropped (sw_pc s)) (sw_raced s ∪ sw_stale s) (sw_raced s ∪ looked_at s a) q.
Proof.
  intros [Hc Hw _ _ _ _] Hh Hfor Hp.
  assert (sw_late s ⊆ looked_at s a) as Hl by (unfold looked_at; repeat case_match; set_solver).
  eapply perform_hot; [done|done| |exact Hp|..].
  - eapply hot_queue_mono; [| |exact Hh]; set_solver.
  - intros t c h -> Hhot. cbn in Hfor. by rewrite Hhot in Hfor.
  - intros t v p -> Ht. unfold passed, looked_at. rewrite Ht. destruct p as [|c h| | | | | | |]; try done.
    intros -> Hin. cbn. case_bool_decide; set_solver.
Qed.

Lemma stepped_hot a s s' :
  queue_inv (sw_q s) → task_ok s → hot_ok s → stepped a s s' → sw_forced s' = false → hot_ok s'.
Proof.
  intros Hq Htk Hh Hst Hf. pose proof Hq as [Hc Hw _ Hdr _ _]. unfold hot_ok in *.
  destruct Hst as [t c s|t c s|t c state h q s Hca Hhi Hp|t c state s|t c h q s Hhot Hp|a q s Hfor Hp|cmd s Hcm Ho|i cmd w s Hwp|i cmd w s Hwp
    |i s Ho Hr|i s Ho Hr|i s Ho Hpc|i s Ho Hpc|q s Hpc Hp|q s Hpc Hp|s Hpc|q s Hpc Hp|s Hpc|a pc s]; try done.
  - cbn. destruct (dropped (sw_pc s)).
    + eapply perform_hot; [done|done| |exact Hp| |done]; [eapply hot_queue_mono; [| |done]; set_solver|].
      intros t' c' h' [= <- <- <-] _ Hno. set_solver.
    + eapply perform_hot; [done..| |done]. intros t' c' h' [= <- <- <-]. by eapply migrating_hint_old.
  - cbn. eapply perform_hot; [done|done| |exact Hp| |done]; [eapply hot_queue_mono; [| |done]; set_solver|].
    intros t' c' h' [= <- <- <-] _ Hno. set_solver.
  - cbn. by apply foreign_hot.
  - unfold phase_done. cbn. destruct (sw_pc s) eqn:Hpc; cbn; rewrite ?Hpc; done.
  - rewrite Hpc in Hh. eapply (perform_hot false); [done..| |]; [by intros t c h [=]|done].
  - rewrite Hpc in Hh. eapply (perform_hot false); [done..| |]; [by intros t c h [=]|done].
  - rewrite Hpc in Hh. done.
  - cbn. rewrite Hpc in Hh. eapply drop_hot; [done| |done..]. apply (tk_drained s Htk). rewrite Hpc. cbn. lia.
  - rewrite Hpc in Hh. done.
Qed.

(** *** The order of the requests *)

Record check_ok (s : Switch) : Prop := {
  ck_out : sw_out s ≠ None → phase_cmd (sw_pc s) ≠ None;
  ck_wire : ∀ i, (i, CmdPreCheck) ∈ sw_wire s → sw_pc s = MCheck ∧ sw_out s = Some i;
  ck_reply : sw_pc s = MSwitch → ∀ i, sw_out s = Some i → (i, true) ∈ sw_replies s → sw_dst s ≠ PreCheck;
  ck_dst : 5 ≤ rank (sw_pc s) → sw_dst s ≠ PreCheck;
}.

Lemma answered_no_check s i b :
  ids_ok s → check_ok s → sw_out s = Some i → (i, b) ∈ sw_replies s → ∀ j, (j, CmdPreCheck) ∉ sw_wire s.
Proof.
  intros (_ & _ & Hrep & _) Hck Ho Hr j Hj. destruct (ck_wire s Hck j Hj) as [_ Ho']. rewrite Ho in Ho'. injection Ho' as <-.
  destruct (Hrep i b Hr) as [_ Hno]. apply Hno. by apply (list_elem_of_fmap_2 fst _ (i, CmdPreCheck)).
Qed.

(** Outside of the requests, the task goes on without touching them. *)
Lemma check_ok_pc s s' :
  check_ok s → phase_cmd (sw_pc s) = None → sw_out s' = sw_out s → sw_wire s' = sw_wire s →
  sw_dst s' = sw_dst s → (5 ≤ rank (sw_pc s') → 5 ≤ rank (sw_pc s)) → check_ok s'.
Proof.
  intros [Hout Hwire _ Hdst] Hpc Eo Ew Ed Hr.
  assert (sw_out s = None) as Ho by (destruct (sw_out s); [by destruct Hout|done]).
  split; rewrite ?Eo, ?Ew, ?Ed, ?Ho; try done; [|auto].
  intros j Hj. destruct (Hwire j Hj) as [E _]. by rewrite E in Hpc.
Qed.

Lemma stepped_check a s s' :
  ids_ok s → check_ok s → stepped a s s' → sw_forced s' = false → sw_abandoned s' = false → check_ok s'.
Proof.
  intros Hids Hck Hst Hf Hab. pose proof Hck as [Hout Hwire Hreply Hdst]. pose proof Hids as (_ & Hlt & Hrep & _).
  destruct Hst as [t c s|t c s|t c state h q s Hca Hhi Hp|t c state s|t c h q s Hhot Hp|a q s Hfor Hp|cmd s Hcm Ho|i cmd w s Hwp|i cmd w s Hwp
    |i s Ho Hr|i s Ho Hr|i s Ho Hpc|i s Ho Hpc|q s Hpc Hp|q s Hpc Hp|s Hpc|q s Hpc Hp|s Hpc|a pc s]; try done;
    try solve [apply (check_ok_pc s); rewrite ?Hpc; try done; cbn; lia].
  - split; cbn; try done.
    + intros _. by rewrite Hcm.
    + intros i [[= -> <-]|Hin]%elem_of_cons; [by destruct (sw_pc s)|]. destruct (Hwire i Hin). congruence.
    + intros Hpc i [= <-] Hin. destruct (Hrep _ _ Hin). lia.
  - assert (sw_pc s ≠ MCheck → dst_state cmd ≠ PreCheck) as Hd.
    { intros Hpc. destruct cmd; try done. destruct (Hwire i); [rewrite Hwp; by left|done]. }
    split; cbn; try done.
    + intros j Hin. apply Hwire. rewrite Hwp. by right.
    + intros Hpc j _ _. apply Hd. by rewrite Hpc.
    + intros Hr. apply Hd. intros Hpc. rewrite Hpc in Hr. cbn in Hr. lia.
  - split; cbn; try done.
    + intros j Hin. apply Hwire. rewrite Hwp. by right.
    + intros Hpc j Ho [?|Hin]%elem_of_cons; [done|by eapply Hreply].
  - pose proof (answered_no_check s i true Hids Hck Ho Hr) as Hno.
    assert (∀ j, (j, CmdPreCheck) ∈ sw_wire s → False) as Hno' by (intros j Hj; by apply (Hno j)).
    unfold phase_done. cbn. destruct (sw_pc s) eqn:Hpc; split; cbn; rewrite ?Hpc; try done; try lia;
      try (intros j Hj; by destruct (Hno' j)); intros; try (by apply Hdst; cbn; lia); by eapply Hreply.
  - pose proof (answered_no_check s i false Hids Hck Ho Hr) as Hno. split; cbn; try done.
    intros j Hj. by destruct (Hno j).
  - split; cbn; try done. intros j Hj. by destruct (Hwire j Hj).
Qed.

(** *** All together *)

Record switch_inv (s : Switch) : Prop := {
  si_queue : running (sw_q s);
  si_ids : ids_ok s;
  si_task : sw_forced s = false → task_ok s;
  si_hot : sw_forced s = false → hot_ok s;
  si_check : sw_forced s = false → sw_abandoned s = false → check_ok s;
}.

Lemma stepped_flags a s s' :
  stepped a s s' → (sw_forced s' = false → sw_forced s = false) ∧ (sw_abandoned s' = false → sw_abandoned s = false).
Proof.
  destruct 1; try done.
  - destruct (phase_done_frame (set_out None (sw_next s) s)) as (_ & _ & _ & _ & _ & _ & -> & -> & _). done.
  - split; [done|]. cbn. unfold drop_ours. by destruct (perform _ _).
Qed.

(** A step of the whole system is at most one step of the queue. *)
Lemma stepped_queue_step a s s' :
  stepped a s s' → sw_q s' = sw_q s ∨ ∃ b, perform b (sw_q s) = Some (sw_q s').
Proof.
  destruct 1; cbn; eauto.
  - left. by destruct (phase_done_frame (set_out None (sw_next s) s)) as (_ & _ & _ & _ & _ & -> & _).
  - unfold drop_ours. destruct (perform _ _) eqn:Hp; cbn; eauto.
Qed.

Lemma thread_commands_elem q t p c : q_threads q !! t = Some p → pc_command p = Some c → c ∈ thread_commands q.
Proof.
  intros Ht Hc. unfold thread_commands. rewrite elem_of_list_to_set, list_elem_of_omap.
  exists (t, p). split; [by apply elem_of_map_to_list|done].
Qed.

Lemma switch_new_inv q : running q → q_handles q !! our_handle = None → switch_inv (switch_new q).
Proof.
  intros Hq Hours. split.
  - exact Hq.
  - split_and!; [constructor|by intros ? ?%not_elem_of_nil|by intros ? ? ?%not_elem_of_nil|done].
  - intros _. split; try done; [cbn; lia|cbn; lia|by intros ? ? ?%not_elem_of_nil].
  - intros _. split; [|done]. intros t p Ht. cbn. destruct p as [c h|c h| | | | | | |]; cbn; try done;
      (intros _ []; apply elem_of_union_r; by eapply thread_commands_elem).
  - intros _ _. split; try done; [by intros ? ?%not_elem_of_nil|cbn; lia].
Qed.

Lemma switching_inv s : switching s → switch_inv s.
Proof.
  induction 1 as [q Hq Hours|s a s' _ IH H Hc].
  - by apply switch_new_inv.
  - apply advance_stepped in H. destruct IH as [Hq Hids Htk Hh Hck].
    destruct (stepped_flags _ _ _ H) as [Hf Ha]. split.
    + destruct (stepped_queue_step _ _ _ H) as [->|[b Hb]]; [done|]. by eapply running_step.
    + by eapply stepped_ids.
    + intros Hf'. eapply stepped_task; eauto.
    + intros Hf'. eapply stepped_hot; eauto using running_inv.
    + intros Hf' Ha'. eapply stepped_check; eauto.
Qed.
End switch.

(** ** Executions *)

Definition advances (is_hot : nat → bool) (acts : list SAction) (s : Switch) : option Switch :=
  foldl (λ o a, o ≫= advance is_hot a) (Some s) acts.

Lemma advances_snoc is_hot acts a s :
  advances is_hot (acts ++ [a]) s = advances is_hot acts s ≫= advance is_hot a.
Proof. unfold advances. by rewrite foldl_app. Qed.

Lemma advances_switching is_hot acts : ∀ s,
  advances is_hot acts (switch_new queue_new) = Some s → (q_changes (sw_q s) < u32_modulus)%N → switching is_hot s.
Proof.
  induction acts as [|a acts IH] using rev_ind; intros s; [intros [= <-]; constructor; [apply running_new|done]|].
  rewrite advances_snoc. destruct (advances is_hot acts (switch_new queue_new)) as [s1|]; [|done]. cbn. intros Ha Hc.
  assert (q_changes (sw_q s1) ≤ q_changes (sw_q s))%N.
  { apply advance_stepped, stepped_queue_step in Ha as [->|[b Hb]]; [done|]. by eapply perform_changes. }
  eapply switching_step; [apply IH; [done|lia]|done..].
Qed.

(** ** Claims *)

(** C4. The switch: once the destination serves the range, and no timeout has
    cut the protocol short, no command of the range is at the source node,
    with two exceptions: a command whose thread has read the state of the task
    before the switch and the blocking state after it, and one that was routed
    with the metadata from before the task and whose thread reads the blocking
    state only after the switch.  Both do happen ([switch_race],
    [stale_route_race]).  At the start the node may be in any state that
    commands and other migrations lead to. *)
Theorem switch_excludes is_hot s c :
  switching is_hot s → sw_forced s = false → sw_dst s ≠ PreCheck →
  is_hot c = true → c ∈ q_flight (sw_q s) → c ∈ sw_raced s ∨ c ∈ sw_late s.
Proof.
  intros Hs Hf Hd Hhot Hin. destruct (switching_inv is_hot s Hs) as [Hq _ Htk Hh _].
  pose proof (tk_dst s (Htk Hf) Hd) as Hr. destruct (dropped (sw_pc s)) eqn:Hdr.
  - destruct (Hh Hf) as [_ Hfl]. apply elem_of_union. by apply Hfl.
  - pose proof (tk_drained s (Htk Hf)) as Hours.
    destruct (qi_drained _ (running_inv _ Hq)) as [_ [Hfl _]].
    + assert (our_handle ∈ q_drained (sw_q s)) as Hin' by (apply Hours; destruct (sw_pc s); cbn in *; done || lia).
      set_solver.
    + rewrite Hfl in Hin. by apply not_elem_of_nil in Hin.
Qed.

(** The two ends: if no timeout has cut the protocol short and no
    [PRECHECK] was given up, the destination serves the range as soon as the
    source redirects to it, and not before the source has stopped sending
    commands to its node. *)
Theorem switch_in_step is_hot s :
  switching is_hot s → sw_forced s = false → sw_abandoned s = false →
  (before_switch (sw_src s) = false → sw_dst s ≠ PreCheck) ∧
  (sw_dst s ≠ PreCheck → sw_src s ≠ PreCheck ∧ sw_src s ≠ PreBlocking).
Proof.
  intros Hs Hf Ha. destruct (switching_inv is_hot s Hs) as [_ _ Htk _ Hck].
  specialize (Htk Hf). specialize (Hck Hf Ha). rewrite (tk_src s Htk). split.
  - intros Hb. apply (ck_dst s Hck). destruct (sw_pc s); cbn in *; done || lia.
  - intros Hd. pose proof (tk_dst s Htk Hd) as Hr. destruct (sw_pc s); cbn in *; done || lia.
Qed.

Definition handshake (i : nat) : list SAction :=
  [SSend; SDeliver i true; SReceive; SStart].
Definition handover (i : nat) : list SAction :=
  [SObserve; SPreSwitch; SSend; SDeliver i true; SReceive; SStop].

(** A command that reads the state before the switch and the blocking state
    after it. *)
Definition race : list SAction :=
  handshake 0 ++ [SCall 1 7; SLoad 1] ++ handover 1 ++ [SLoad 1] ++ replicate 4 (SQueue (Run 1 Taken)).

(** A command that was routed before there was a task, and whose thread comes to
    the queue late. *)
Definition stale_route : list SAction :=
  handshake 0 ++ [SStale 1 7 NotBlocking] ++ handover 1 ++ replicate 4 (SQueue (Run 1 Taken)).

(** A [PRECHECK] that is given up, and served after [PRESWITCH]. *)
Definition late_check : list SAction :=
  [SSend; STimeout] ++ handshake 1 ++ handover 2 ++ [SDeliver 0 true].

(** The exception of the switch is real: there is an execution without
    timeouts in which the destination serves the range and a command of the
    range runs at the source node. *)
Theorem switch_race :
  ∃ s, switching (λ _, true) s ∧ sw_forced s = false ∧ sw_abandoned s = false ∧
    sw_src s = Scanning ∧ sw_dst s = PreSwitch ∧ q_flight (sw_q s) = [7].
Proof.
  destruct (advances (λ _, true) race (switch_new queue_new)) as [s|] eqn:Hs; [|by vm_compute in Hs].
  exists s. split; [apply (advances_switching _ race); [done|]|]; vm_compute in Hs; injection Hs as <-; vm_compute; auto.
Qed.

(** So is the other one: a thread that has taken the metadata before the task was
    there sends its command to the source node after the switch. *)
Theorem stale_route_race :
  ∃ s, switching (λ _, true) s ∧ sw_forced s = false ∧ sw_abandoned s = false ∧
    sw_src s = Scanning ∧ sw_dst s = PreSwitch ∧ q_flight (sw_q s) = [7] ∧ sw_raced s = ∅.
Proof.
  destruct (advances (λ _, true) stale_route (switch_new queue_new)) as [s|] eqn:Hs; [|by vm_compute in Hs].
  exists s. split; [apply (advances_switching _ stale_route); [done|]|]; vm_compute in Hs; injection Hs as <-; vm_compute; auto 10.
Qed.

(** A late [PRECHECK] undoes the switch at the destination: the source
    redirects to the destination, and the destination to the source. *)
Theorem late_check_undoes_switch :
  ∃ s, switching (λ _, true) s ∧ sw_forced s = false ∧ sw_src s = Scanning ∧ sw_dst s = PreCheck.
Proof.
  destruct (advances (λ _, true) late_check (switch_new queue_new)) as [s|] eqn:Hs; [|by vm_compute in Hs].
  exists s. split; [apply (advances_switching _ late_check); [done|]|]; vm_compute in Hs; injection Hs as <-; vm_compute; auto.
Qed.

(** ** Witnesses *)

Definition demo_switch (acts : list SAction) : Switch := default (switch_new queue_new) (advances (λ _, true) acts (switch_new queue_new)).

Lemma switch_excludes_witness : 7 ∈ sw_raced (demo_switch race) ∨ 7 ∈ sw_late (demo_switch race).
Proof.
  apply (switch_excludes (λ _, true) (demo_switch race) 7).
  - apply (advances_switching (λ _, true) race); vm_compute; reflexivity.
  - vm_compute. reflexivity.
  - vm_compute. discriminate.
  - reflexivity.
  - apply (bool_decide_unpack _). vm_compute. exact I.
Defined.

Lemma switch_in_step_witness :
  let s := demo_switch (handshake 0 ++ handover 1) in
  (before_switch (sw_src s) = false → sw_dst s ≠ PreCheck) ∧
  (sw_dst s ≠ PreCheck → sw_src s ≠ PreCheck ∧ sw_src s ≠ PreBlocking).
Proof.
  apply (switch_in_step (λ _, true)).
  - apply (advances_switching (λ _, true) (handshake 0 ++ handover 1)); vm_compute; reflexivity.
  - vm_compute. reflexivity.
  - vm_compute. reflexivity.
Defined.
