(* ===== verification/ClusterCmd.v ===== *)
(** * What a proxy tells its clients about the cluster

    Models the replies to [CLUSTER NODES], [CLUSTER SLOTS] and [UMCTL INFO] of
    [src/src/proxy/cluster.rs].  During a migration a range is known at both
    ends; the states of the local tasks decide which of the two a proxy
    announces.  [cluster_slots_complete]: whatever the states are, a proxy
    announces every slot exactly once.  The hash [crc64] of the node ids is a
    parameter. *)

From S2P Require Import Prelude RangeList RustStr Resp Packet ClusterMeta Wire Command MetaMap.
From S2P Require Import Store SlotInv Query Migrate Plan Balance Commit ChunkAlloc Update Registry.
From S2P Require Import NewChunks Failover Broker Reach Sync Route.

(** ** Formatting *)

Fixpoint join (sep : string) (l : list string) : string :=
  match l with
  | [] => ""
  | [s] => s
  | s :: l => s +:+ sep +:+ join sep l
  end.

(** [{:_<n}] followed by [truncate(n)]: cut or filled with underscores. *)
Fixpoint fit (n : nat) (s : string) : string :=
  match n, s with
  | 0, _ => ""
  | S n, "" => String "_" (fit n "")
  | S n, String c s => String c (fit n s)
  end.

Definition hex_digit (n : N) : ascii :=
  if (n <? 10)%N then Ascii.ascii_of_N (48 + n) else Ascii.ascii_of_N (87 + n).

(** [{:x}] of a [u64], which has at most 16 digits. *)
Fixpoint hex_digits (fuel : nat) (n : N) (acc : string) : string :=
  match fuel with
  | 0 => acc
  | S fuel =>
      let acc := String (hex_digit (n mod 16)) acc in
      if (n <? 16)%N then acc else hex_digits fuel (n / 16) acc
  end.
Definition to_hex (n : N) : string := hex_digits 16 n "".

Definition bulk (s : string) : RespVec := Bulk (Str (bytes_of s)).
Definition integer (s : string) : RespVec := Integer (bytes_of s).
Definition array (l : list RespVec) : RespVec := Arr (Elements l).

(** ** The replies *)

Inductive ClusterNodesVersion : Type := V1 | V2.
Definition CLUSTER_NODES_CPORT : N := 5299.

Definition should_ignore_slots (range : SlotRange) (migration_states : gmap RangeList MigrationState) : bool :=
  match sr_tag range with
  | Migrating _ => bool_decide (migration_states !! sr_range_list range ≠ Some PreCheck)
  | Importing _ => bool_decide (migration_states !! sr_range_list range = Some PreCheck)
  | TagNone => false
  end.

Section replies.
Context `{HashOrder} (crc64 : bytes → N).

Definition gen_cluster_name_seg (cluster_name : ClusterName) : string := fit 20 cluster_name.
Definition gen_node_id (cluster_name_seg addr : string) : string :=
  cluster_name_seg +:+ fit 20 (to_hex (crc64 (bytes_of addr))).

Definition range_text (r : Range) : string :=
  if (r_start r =? r_end r)%N then to_string (r_start r)
  else to_string (r_start r) +:+ "-" +:+ to_string (r_end r).

(** The ranges that are announced for one address. *)
Definition shown_ranges (migration_states : gmap RangeList MigrationState) (ranges : list SlotRange) : list Range :=
  ranges ≫= λ sr, if should_ignore_slots sr migration_states then [] else sr_range_list sr.

Definition nodes_line (name_seg : string) (epoch : N) (local : bool) (version : ClusterNodesVersion)
    (addr : string) (ranges : list Range) : string :=
  let address := match version with
                 | V1 => addr
                 | V2 => addr +:+ "@" +:+ to_string CLUSTER_NODES_CPORT
                 end in
  let slot_range := join " " (range_text <$> ranges) in
  let slot_range_str := if bool_decide (slot_range = "") then "" else " " +:+ slot_range in
  let flags := if local then "myself,master" else "master" in
  gen_node_id name_seg addr +:+ " " +:+ address +:+ " " +:+ flags +:+ " - 0 0 " +:+ to_string epoch +:+
    " connected" +:+ slot_range_str +:+ String "010"%char "".

Definition gen_cluster_nodes_helper (name : ClusterName) (epoch : N) (slot_ranges : NodeMap)
    (migration_states : gmap RangeList MigrationState) (local : bool) (version : ClusterNodesVersion) : string :=
  let name_seg := gen_cluster_name_seg name in
  foldl (λ cluster_nodes kv, cluster_nodes +:+
      nodes_line name_seg epoch local version kv.1 (shown_ranges migration_states kv.2))
    "" (hash_iter slot_ranges).

Definition slot_element (name_seg host port addr : string) (range : Range) : RespVec :=
  array [integer (to_string (r_start range)); integer (to_string (r_end range));
         array [bulk host; integer port; bulk (gen_node_id name_seg addr)]].

(** The loop of [gen_cluster_slots_helper] over the addresses. *)
Definition slots_of_address (name_seg : string) (migration_states : gmap RangeList MigrationState)
    (kv : string * list SlotRange) : outcome string (list RespVec) :=
  let segs := split ":" kv.1 in
  match segs !! 0, segs !! 1 with
  | Some host, Some port => Ok (slot_element name_seg host port kv.1 <$> shown_ranges migration_states kv.2)
  | _, _ => Err ("invalid address " +:+ kv.1)
  end.

Definition gen_cluster_slots_helper (name : ClusterName) (slot_ranges : NodeMap)
    (migration_states : gmap RangeList MigrationState) : outcome string (list RespVec) :=
  elements ← omapM (slots_of_address (gen_cluster_name_seg name) migration_states) (hash_iter slot_ranges);
  Ok (mjoin (M := list) elements).

(** The local nodes are announced under the address of the proxy. *)
Definition local_slots (lc : LocalCluster) (service_address : string) : NodeMap :=
  {[ service_address := mjoin (hash_values (lc_slot_ranges lc)) ]}.

Definition gen_local_cluster_nodes (lc : LocalCluster) (service_address : string)
    (migration_states : gmap RangeList MigrationState) (version : ClusterNodesVersion) : string :=
  gen_cluster_nodes_helper (lc_cluster_name lc) (lc_epoch lc) (local_slots lc service_address) migration_states true version.
Definition gen_local_cluster_slots (lc : LocalCluster) (service_address : string)
    (migration_states : gmap RangeList MigrationState) : outcome string (list RespVec) :=
  gen_cluster_slots_helper (lc_cluster_name lc) (local_slots lc service_address) migration_states.

Definition gen_remote_cluster_nodes (rc : RemoteCluster) (migration_states : gmap RangeList MigrationState)
    (version : ClusterNodesVersion) : string :=
  gen_cluster_nodes_helper (rc_cluster_name rc) (rc_epoch rc) (rc_slot_ranges rc) migration_states false version.
Definition gen_remote_cluster_slots (rc : RemoteCluster) (migration_states : gmap RangeList MigrationState)
  : outcome string (list RespVec) :=
  gen_cluster_slots_helper (rc_cluster_name rc) (rc_slot_ranges rc) migration_states.

Definition gen_cluster_nodes (m : ClusterBackendMap) (service_address : string)
    (migration_states : gmap RangeList MigrationState) (version : ClusterNodesVersion) : string :=
  gen_local_cluster_nodes (cb_local_cluster m) service_address migration_states version +:+
  gen_remote_cluster_nodes (cb_remote_cluster m) migration_states version.

Definition gen_cluster_slots (m : ClusterBackendMap) (service_address : string)
    (migration_states : gmap RangeList MigrationState) : outcome string RespVec :=
  local ← gen_local_cluster_slots (cb_local_cluster m) service_address migration_states;
  remote ← gen_remote_cluster_slots (cb_remote_cluster m) migration_states;
  Ok (array (local ++ remote)).

(** [MetaManager::gen_cluster_nodes] and [MetaManager::gen_cluster_slots]. *)
Definition manager_cluster_nodes (config : ServerProxyConfig) (version : ClusterNodesVersion) (st : MetaManager) : string :=
  gen_cluster_nodes (mm_cluster_map (mgr_meta_map st)) (announce_address config)
    (get_states (mm_migration_map (mgr_meta_map st))) version.
Definition manager_cluster_slots (config : ServerProxyConfig) (st : MetaManager) : outcome string RespVec :=
  gen_cluster_slots (mm_cluster_map (mgr_meta_map st)) (announce_address config)
    (get_states (mm_migration_map (mgr_meta_map st))).

(** *** [UMCTL INFO] *)

Definition range_info (sr : SlotRange) : RespVec :=
  let meta_lines := match get_migration_meta (sr_tag sr) with
    | Some meta => [to_string (mm_epoch meta); "src_proxy: " +:+ mm_src_proxy_address meta;
                    "src_node: " +:+ mm_src_node_address meta; "dst_proxy: " +:+ mm_dst_proxy_address meta;
                    "dst_node: " +:+ mm_dst_node_address meta]
    | None => []
    end in
  array ((bulk <$> meta_lines) ++ [bulk (join " " (range_list_to_strings (sr_range_list sr)))]).

Definition format_slot_ranges (slot_ranges : NodeMap) : list RespVec :=
  (λ kv, array [bulk kv.1; array (range_info <$> kv.2)]) <$> hash_iter slot_ranges.

Definition local_info (lc : LocalCluster) : RespVec :=
  array ((bulk <$> ["name: " +:+ lc_cluster_name lc; "epoch: " +:+ to_string (lc_epoch lc); "nodes:"]) ++
    format_slot_ranges (lc_slot_ranges lc)).
Definition remote_info (rc : RemoteCluster) : RespVec :=
  array ((bulk <$> ["peers:"]) ++ format_slot_ranges (rc_slot_ranges rc)).
Definition cluster_info (m : ClusterBackendMap) : RespVec :=
  array [bulk (cb_cluster_name m); bulk "local"; local_info (cb_local_cluster m); bulk "peer";
         remote_info (cb_remote_cluster m)].
End replies.

(** ** Every slot is announced once *)

(** What a client reads from an element of the reply. *)
Definition element_range (el : RespVec) : option Range :=
  match el with
  | Arr (Elements [Integer a; Integer b; _]) =>
      a ← parse_u64 (String.string_of_list_ascii a); b ← parse_u64 (String.string_of_list_ascii b); Some (mkRange a b)
  | _ => None
  end.
Definition announced (slot : N) (els : list RespVec) : nat :=
  sum_list_with (λ el, match element_range el with Some r => Nat.b2n (in_range slot r) | None => 0 end) els.

(** How often a slot range announces a slot. *)
Definition shown_cover (slot : N) (states : gmap RangeList MigrationState) (sr : SlotRange) : nat :=
  if should_ignore_slots sr states then 0 else cover slot (sr_range_list sr).

(** Which of the two ends announces a range depends on the range only. *)
Definition pending (states : gmap RangeList MigrationState) (rl : RangeList) : bool :=
  bool_decide (states !! rl = Some PreCheck).

Lemma shown_cover_alt slot states sr :
  shown_cover slot states sr + (if tag_is_migrating (sr_tag sr) && negb (pending states (sr_range_list sr))
      then cover slot (sr_range_list sr) else 0) =
  slot_range_cover slot sr + (if tag_is_importing (sr_tag sr) && negb (pending states (sr_range_list sr))
      then cover slot (sr_range_list sr) else 0).
Proof.
  unfold shown_cover, should_ignore_slots, slot_range_cover, pending.
  destruct (sr_tag sr); cbn; repeat case_bool_decide; cbn; try done; try lia; congruence.
Qed.

Lemma tasks_sum (f : RangeList → nat) b ns :
  sum_list_with (λ t, f t.1) (tasks_of b ns) =
  sum_list_with (λ n, sum_list_with (λ sr, if (if b then tag_is_migrating else tag_is_importing) (sr_tag sr)
    then f (sr_range_list sr) else 0) (node_slots n)) ns.
Proof.
  induction ns as [|n ns IH]; [done|]. unfold tasks_of in *. cbn [fmap list_fmap mjoin list_join].
  rewrite omap_app, sum_list_with_app. cbn [sum_list_with]. rewrite <-IH. f_equal.
  induction (node_slots n) as [|[rl tag] l IHl]; [done|]. cbn [omap list_omap sum_list_with]. rewrite <-IHl.
  by destruct b, tag.
Qed.

Lemma sum_list_with_ext {A} (f g : A → nat) l : (∀ x, f x = g x) → sum_list_with f l = sum_list_with g l.
Proof. intros Hfg. induction l as [|x l IH]; cbn; [done|]. by rewrite Hfg, IH. Qed.

Lemma sum_list_with_plus {A} (f g : A → nat) l :
  sum_list_with (λ x, f x + g x) l = sum_list_with f l + sum_list_with g l.
Proof. induction l as [|x l IH]; cbn; lia. Qed.

(** The ranges that a migration announces at one end, it hides at the other. *)
Lemma serving_shown ns slot states :
  serving ns → (slot < SLOT_NUM)%N →
  sum_list_with (λ n, sum_list_with (shown_cover slot states) (node_slots n)) ns = 1.
Proof.
  intros Hns Hs. rewrite <-(sv_once ns Hns slot Hs).
  set (f rl := if negb (pending states rl) then cover slot rl else 0).
  set (g b := λ sr, if (if b : bool then tag_is_migrating else tag_is_importing) (sr_tag sr) then f (sr_range_list sr) else 0).
  pose proof (tasks_sum f true ns) as Hm. rewrite (sv_paired ns Hns), (tasks_sum f false ns) in Hm.
  fold (g false) (g true) in Hm.
  enough (sum_list_with (λ n, sum_list_with (shown_cover slot states) (node_slots n)) ns +
      sum_list_with (λ n, sum_list_with (g true) (node_slots n)) ns =
    sum_list_with (node_cover slot) ns + sum_list_with (λ n, sum_list_with (g false) (node_slots n)) ns) by lia.
  rewrite <-!sum_list_with_plus. apply sum_list_with_ext. intros n. unfold node_cover.
  rewrite <-!sum_list_with_plus. apply sum_list_with_ext. intros sr.
  pose proof (shown_cover_alt slot states sr) as Hc. unfold g, f.
  destruct (tag_is_migrating _), (tag_is_importing _); exact Hc.
Qed.

(** *** The elements *)

Definition has_port (addr : string) : Prop := is_Some (split ":" addr !! 1).

Lemma slot_element_range crc64 seg host port addr r :
  range_fits r → element_range (slot_element crc64 seg host port addr r) = Some r.
Proof.
  intros [H1 H2]. cbn. unfold bytes_of. rewrite !String.string_of_list_ascii_of_string.
  rewrite !parse_u64_to_string by done. cbn. by destruct r.
Qed.

Lemma announced_app slot els els' : announced slot (els ++ els') = announced slot els + announced slot els'.
Proof. apply sum_list_with_app. Qed.

Lemma announced_join slot l els : announced slot (mjoin (l :: els)) = announced slot l + announced slot (mjoin els).
Proof. apply announced_app. Qed.

Lemma announced_elements crc64 slot seg host port addr rs :
  Forall range_fits rs → announced slot (slot_element crc64 seg host port addr <$> rs) = cover slot rs.
Proof.
  induction 1 as [|r rs Hr Hrs IH]; [done|]. rewrite fmap_cons. unfold announced in *. cbn [sum_list_with cover].
  by rewrite IH, slot_element_range.
Qed.

Lemma shown_ranges_cover slot states srs :
  cover slot (shown_ranges states srs) = sum_list_with (shown_cover slot states) srs.
Proof.
  induction srs as [|sr srs IH]; [done|]. unfold shown_ranges in *. cbn [mbind list_bind sum_list_with].
  rewrite cover_app, IH. f_equal. unfold shown_cover. by destruct (should_ignore_slots sr states).
Qed.

Lemma shown_ranges_fit states srs :
  Forall (λ sr, Forall range_fits (sr_range_list sr)) srs → Forall range_fits (shown_ranges states srs).
Proof.
  intros Hs. apply Forall_bind. eapply Forall_impl; [exact Hs|]. intros sr Hsr. cbn.
  by destruct (should_ignore_slots sr states).
Qed.

Lemma sum_list_with_join {A} (f : A → nat) ll : sum_list_with f (mjoin ll) = sum_list_with (sum_list_with f) ll.
Proof. induction ll as [|l ll IH]; [done|]. cbn [mjoin list_join sum_list_with]. by rewrite sum_list_with_app, <-IH. Qed.

Lemma sum_list_with_fmap {A B} (f : B → nat) (g : A → B) l : sum_list_with f (g <$> l) = sum_list_with (f ∘ g) l.
Proof. induction l as [|x l IH]; [done|]. rewrite fmap_cons. cbn. by rewrite IH. Qed.

(** The nodes of a map can be announced. *)
Definition presentable (m : NodeMap) : Prop :=
  map_Forall (λ addr srs, has_port addr ∧ Forall (λ sr, Forall range_fits (sr_range_list sr)) srs) m.

Lemma slots_of_addresses `{HashOrder} crc64 seg states slot l :
  Forall (λ kv, has_port kv.1 ∧ Forall (λ sr, Forall range_fits (sr_range_list sr)) kv.2) l →
  ∃ els, omapM (slots_of_address crc64 seg states) l = Ok els ∧
    announced slot (mjoin els) = sum_list_with (λ kv, sum_list_with (shown_cover slot states) kv.2) l.
Proof.
  induction 1 as [|[addr srs] l [[port Hp] Hr] Hl (els & IH & Ha)]; [by exists []|]. cbn [omapM].
  assert (slots_of_address crc64 seg states (addr, srs) =
    Ok (slot_element crc64 seg (default "" (split ":" addr !! 0)) port addr <$> shown_ranges states srs)) as ->.
  { cbn in Hp. unfold slots_of_address. cbn [fst snd]. rewrite Hp. destruct (split ":" addr) as [|host rest]; done. }
  outcome_simpl. rewrite IH. outcome_simpl. eexists. split; [done|]. cbn [sum_list_with snd].
  rewrite announced_join, announced_elements by (by apply shown_ranges_fit). by rewrite shown_ranges_cover, Ha.
Qed.

Lemma helper_announced `{HashOrder} crc64 name m states slot :
  presentable m →
  ∃ els, gen_cluster_slots_helper crc64 name m states = Ok els ∧
    announced slot els = map_slots_sum (shown_cover slot states) m.
Proof.
  intros Hm. unfold gen_cluster_slots_helper.
  destruct (slots_of_addresses crc64 (gen_cluster_name_seg name) states slot (hash_iter m)) as (els & -> & Ha).
  { apply Forall_forall. intros [addr srs] Hin. rewrite hash_iter_perm in Hin. apply elem_of_map_to_list in Hin.
    by apply Hm. }
  outcome_simpl. eexists. split; [done|]. rewrite Ha. unfold map_slots_sum. by rewrite hash_iter_perm.
Qed.

Lemma local_slots_sum `{HashOrder} f lc address :
  map_slots_sum f (local_slots lc address) = map_slots_sum f (lc_slot_ranges lc).
Proof.
  unfold local_slots, map_slots_sum. rewrite map_to_list_singleton. cbn [sum_list_with snd].
  rewrite sum_list_with_join. unfold hash_values. rewrite sum_list_with_fmap, hash_iter_perm, Nat.add_0_r. done.
Qed.

(** *** The metadata of the broker *)

Section complete.
Context `{UnicodeCase} `{HashOrder} `{MetaCodec} `{DecoderEnv} (crc64 : bytes → N).
Context (s : MetaStore) (name : ClusterName) (cs : ClusterStore) (limit : N).
Hypothesis Hwf : store_wf s.
Hypothesis Hcs : clusters s !! name = Some cs.

Lemma told_sum f a pr p ns cs' :
  limit_migration cs limit = Ok cs' →
  cluster_store_to_cluster cs' = Ok (mkCluster (cs_name cs') (cs_epoch cs') ns (cs_config cs')) →
  cluster_view (cs_chunks cs') ns →
  all_proxies s !! a = Some pr → pr_cluster pr = Some name → get_proxy_by_address s a limit = Ok (Some p) →
  sendable p →
  let m := meta_with_slots (proxy_cluster_meta (mkFlags false false) (filter_proxy_masters p)) in
  map_slots_sum f (pcm_local m) + map_slots_sum f (pcm_peer m) =
  sum_list_with (λ n, sum_list_with f (node_slots n)) ns.
Proof.
  intros Hlim Hto Hv Hpr Hname Hp Hsend m.
  destruct (proxy_shape s name cs Hwf Hcs limit cs' ns Hlim Hto a pr p Hpr Hname Hp) as (Hn & Hnodes & Hpeers).
  destruct (get_proxy_by_address_Ok s a pr limit (wf_slots s Hwf) (wf_distinct s Hwf) Hpr)
    as (p' & Hp' & _ & Hok); [by apply (wf_keys s Hwf)|].
  rewrite Hp in Hp'. injection Hp' as <-. rewrite Hname in Hok. cbn [mbind option_bind] in Hok.
  rewrite Hcs in Hok. destruct Hok as (_ & _ & _ & _ & Hnd & Hrep & _).
  unfold m. cbn [pcm_local pcm_peer meta_with_slots]. rewrite !with_slots_sum.
  rewrite (sent_local_sum f p name Hsend Hn Hrep), (sent_peer_sum f p Hnd), Hnodes, Hpeers, sum_list_with_fmap.
  set (others := filter (λ n, node_role n = Master ∧ node_proxy_address n ≠ a) ns).
  assert (sum_list_with ((λ q, sum_list_with f (peer_slots q)) ∘ λ g, mkPeerProxy g.1 (mjoin (node_slots <$> g.2)))
    (group_by_proxy others) = sum_list_with (λ n, sum_list_with f (node_slots n)) others) as ->.
  { rewrite <-(proj1 (group_by_proxy_spec others)) at 2. rewrite sum_list_with_join, sum_list_with_fmap.
    apply sum_list_with_ext. intros g. cbn. by rewrite sum_list_with_join, sum_list_with_fmap. }
  unfold others. apply sum_filter_split. eapply Forall_impl; [apply (cv_replicas _ _ Hv)|].
  cbn. intros n Hr. split; [tauto|]. intros Hne Hm. rewrite Hr; [done|]. destruct (node_role n); [tauto|done].
Qed.

Lemma fits_of_range_ok srs :
  Forall (λ sr, SlotInv.range_ok (sr_range_list sr)) srs → Forall (λ sr, Forall range_fits (sr_range_list sr)) srs.
Proof.
  intros Hs. eapply Forall_impl; [exact Hs|]. intros sr [_ Hb]. eapply Forall_impl; [exact Hb|].
  intros r. unfold range_fits, SLOT_NUM, u64_max, u64_modulus. cbn. lia.
Qed.

Lemma presentable_meta a pr p :
  all_proxies s !! a = Some pr → pr_cluster pr = Some name → get_proxy_by_address s a limit = Ok (Some p) →
  Forall (λ q, has_port (peer_proxy_address q)) (proxy_peers p) → ∀ address, has_port address →
  let m := meta_with_slots (proxy_cluster_meta (mkFlags false false) (filter_proxy_masters p)) in
  presentable (pcm_peer m) ∧
  Forall (λ sr, Forall range_fits (sr_range_list sr)) (mjoin (hash_values (pcm_local m))).
Proof.
  intros Hpr Hname Hp Hports address Haddr m.
  destruct (get_proxy_by_address_Ok s a pr limit (wf_slots s Hwf) (wf_distinct s Hwf) Hpr)
    as (p' & Hp' & _ & Hok); [by apply (wf_keys s Hwf)|].
  rewrite Hp in Hp'. injection Hp' as <-. rewrite Hname in Hok. cbn [mbind option_bind] in Hok.
  rewrite Hcs in Hok. destruct Hok as (_ & _ & _ & _ & _ & _ & Hrn & Hrq & _).
  rewrite Forall_forall in Hrn. rewrite Forall_forall in Hrq. rewrite Forall_forall in Hports. split.
  - intros addr srs Hm. cbn in Hm. apply map_lookup_filter_Some in Hm as [Hm _].
    apply hash_collect_lookup, list_elem_of_fmap in Hm as (q & [= -> ->] & Hin).
    split; [by apply Hports|]. by apply fits_of_range_ok, Hrq.
  - apply Forall_forall. intros sr (addr & srs & Hm & Hsr)%elem_of_mjoin_values. cbn in Hm.
    apply map_lookup_filter_Some in Hm as [Hm _].
    apply hash_collect_lookup, list_elem_of_fmap in Hm as (n & [= -> ->] & Hin).
    apply masters_of in Hin. specialize (Hrn n Hin). apply fits_of_range_ok in Hrn.
    rewrite Forall_forall in Hrn. by apply Hrn.
Qed.
End complete.

(** ** Claims *)

(** C35. A proxy announces every slot exactly once: whatever the states of its
    migration tasks are, its reply to [CLUSTER SLOTS] can be built, and a
    client finds each slot in exactly one element of it. *)
Theorem cluster_slots_complete `{UnicodeCase} `{HashOrder} `{MetaCodec} `{DecoderEnv} crc64
    s name cs limit a pr p m active address states slot :
  reachable s → clusters s !! name = Some cs → all_proxies s !! a = Some pr → pr_cluster pr = Some name →
  get_proxy_by_address s a limit = Ok (Some p) → sendable p →
  Forall (λ q, has_port (peer_proxy_address q)) (proxy_peers p) → has_port address →
  meta_from_resp (command_value (meta_command "SETCLUSTER"
    (to_args (proxy_cluster_meta (mkFlags false false) (filter_proxy_masters p))))) = Ok (m, true) →
  (slot < SLOT_NUM)%N →
  ∃ els, gen_cluster_slots crc64 (from_cluster_map m active) address states = Ok (array els) ∧
    announced slot els = 1.
Proof.
  intros Hs Hcs Hpr Hname Hp Hsend Hports Haddr Hm Hslot. pose proof (reachable_wf s Hs) as Hwf.
  destruct (get_cluster_store_Ok s name cs limit (wf_slots _ Hwf) Hcs) as (cs' & _ & Hlim & Hsl & _).
  destruct (cluster_store_to_cluster_Ok cs' Hsl) as (ns & Hto & Hv).
  assert (m = meta_with_slots (proxy_cluster_meta (mkFlags false false) (filter_proxy_masters p))) as ->.
  { by apply (sent_meta_parsed s a pr name cs limit). }
  destruct (presentable_meta s name cs limit Hwf Hcs a pr p Hpr Hname Hp Hports address Haddr) as [Hpeer Hlocal].
  set (m := meta_with_slots _) in *. unfold gen_cluster_slots, gen_local_cluster_slots, gen_remote_cluster_slots.
  cbn [from_cluster_map cb_local_cluster cb_remote_cluster local_from_slot_map remote_from_slot_map lc_cluster_name
    rc_cluster_name rc_slot_ranges].
  destruct (helper_announced crc64 (pcm_cluster_name m) (local_slots (local_from_slot_map (pcm_cluster_name m)
    (pcm_epoch m) (pcm_local m) (pcm_cluster_config m)) address) states slot) as (l & Hl & Hal).
  { unfold local_slots. intros addr srs [<- <-]%lookup_singleton_Some. by split. }
  destruct (helper_announced crc64 (pcm_cluster_name m) (pcm_peer m) states slot Hpeer) as (r & Hr & Har).
  rewrite Hl. outcome_simpl. rewrite Hr. outcome_simpl. eexists. split; [done|].
  rewrite announced_app, Hal, Har, local_slots_sum. cbn [lc_slot_ranges local_from_slot_map].
  rewrite (told_sum s name cs limit Hwf Hcs _ a pr p ns cs' Hlim Hto Hv Hpr Hname Hp Hsend).
  by apply serving_shown; [eapply view_serving|].
Qed.

(** ** Witnesses *)

Section demo.
#[local] Existing Instances ascii_case canonical_order binary_codec env_64.

(** A [CLUSTER SLOTS] reply while the migrations of the cluster have not
    started. *)
Definition demo_states : gmap RangeList MigrationState :=
  hash_collect ((λ t, (t.1, PreCheck)) <$> match get_cluster_by_name demo_store "demo" 1 with
    | Ok (Some c) => tasks_of true (cluster_nodes c)
    | _ => []
    end).

Lemma cluster_slots_complete_witness :
  ∃ els, gen_cluster_slots (λ _, 0%N) (from_cluster_map (demo_meta "d:70") false) "d:70" demo_states =
      Ok (array els) ∧ announced 9000 els = 1.
Proof.
  apply (cluster_slots_complete (λ _, 0%N) demo_store "demo" demo_cluster 1 "d:70" demo_proxy (demo_told_of "d:70")
    (demo_meta "d:70")).
  - exact demo_reachable.
  - exact demo_lookup.
  - vm_compute. reflexivity.
  - vm_compute. reflexivity.
  - vm_compute. reflexivity.
  - split.
    + vm_compute. discriminate.
    + vm_compute. reflexivity.
    + vm_compute. repeat split; discriminate.
    + apply (bool_decide_unpack _). vm_compute. exact I.
    + apply (bool_decide_unpack _). vm_compute. exact I.
    + apply (bool_decide_unpack _). vm_compute. exact I.
    + apply (bool_decide_unpack _). vm_compute. exact I.
    + vm_compute. reflexivity.
  - apply (bool_decide_unpack _). vm_compute. exact I.
  - apply (bool_decide_unpack _). vm_compute. exact I.
  - vm_compute. reflexivity.
  - vm_compute. reflexivity.
Defined.
End demo.
