(* ===== verification/Keys.v ===== *)
(** * Moving keys: commands, replies and locks

    The commands that the two proxies of a migration send to the Redis nodes
    and what they read from the replies: the scanning side
    ([migration/scan_migration.rs], [ScanResponse] and [SlotRangeArray] of
    [migration/task.rs]), the importing side ([proxy/migration_backend.rs]) and
    the locks of both ([common/slot_lock.rs], [KeyLock]).  Redis itself is the
    class [Redis]; its documented behaviour is [RedisLaws]. *)

From S2P Require Import Prelude RangeList RustStr Resp Packet Command ClusterMeta Wire.

(** ** Errors *)

Inductive RedisClientError : Type :=
| ClientIo | ClientTimeout | InvalidReply | InvalidAddress | InitError | Closed | Done
| ClientCanceled | ClientEncodeError | InvalidState | StaleClient.

Inductive CommandError : Type := CmdIo | UnexpectedResponse | CmdDropped | CmdCanceled | InnerError.

(** ** The scanning side *)

Definition PTTL_NO_EXPIRE : bytes := bytes_of "-1".
Definition PTTL_KEY_NOT_FOUND : bytes := bytes_of "-2".
Definition RESTORE_NO_EXPIRE : bytes := bytes_of "0".
Definition BUSYKEY_ERROR : bytes := bytes_of "BUSYKEY".

Definition pttl_need_to_be_no_expire `{DecoderEnv} (buf : bytes) : bool :=
  if bool_decide (buf = PTTL_NO_EXPIRE) then true
  else match btoi buf with
       | Some n => (n <? 0)%Z
       | None => true
       end.
Definition pttl_to_restore_expire_time `{DecoderEnv} (pttl : bytes) : bytes :=
  if pttl_need_to_be_no_expire pttl then RESTORE_NO_EXPIRE else pttl.

Record DataEntry : Type := mkDataEntry { de_key : bytes; de_pttl : bytes; de_raw_data : bytes }.

Definition pttl_cmd (key : bytes) : list bytes := [bytes_of "PTTL"; key].
Definition dump_cmd (key : bytes) : list bytes := [bytes_of "DUMP"; key].
Definition produce_cmds (keys : list bytes) : list (list bytes) :=
  keys ≫= λ key, [pttl_cmd key; dump_cmd key].

(** The loop of [produce_entries] over the keys. *)
Fixpoint entries_loop (keys : list bytes) (resp_iter : list RespVec) : outcome RedisClientError (list DataEntry) :=
  match keys with
  | [] => Ok []
  | key :: keys =>
      match resp_iter with
      | [] => Err InvalidState
      | resp :: resp_iter =>
          pttl_opt ← match resp with
                     | Integer pttl => Ok (if bool_decide (pttl = PTTL_KEY_NOT_FOUND) then None else Some pttl)
                     | _ => Err InvalidReply
                     end;
          match resp_iter with
          | [] => Err InvalidState
          | resp :: resp_iter =>
              match resp, pttl_opt with
              | Bulk (Str raw_data), Some pttl =>
                  cons (mkDataEntry key pttl raw_data) <$> entries_loop keys resp_iter
              | Bulk BulkNil, _ | _, None => entries_loop keys resp_iter
              | _, _ => Err InvalidReply
              end
          end
      end
  end.
Definition produce_entries (keys : list bytes) (resps : list RespVec) : outcome RedisClientError (list DataEntry) :=
  if bool_decide (length resps ≠ 2 * length keys) then Err InvalidReply
  else entries_loop keys resps.

Definition restore_cmd `{DecoderEnv} (entry : DataEntry) : list bytes :=
  [bytes_of "RESTORE"; de_key entry; pttl_to_restore_expire_time (de_pttl entry); de_raw_data entry].

(** [err_msg.get(..BUSYKEY.len()) == Some(BUSYKEY)]. *)
Definition is_busykey (err_msg : bytes) : bool :=
  bool_decide (get_range err_msg (0, length BUSYKEY_ERROR) = Some BUSYKEY_ERROR).

(** The loop of [handle_forward]. *)
Fixpoint forward_replies (resps : list RespVec) : RedisClientError :=
  match resps with
  | [] => Done
  | Error err_msg :: resps => if is_busykey err_msg then forward_replies resps else InvalidReply
  | _ :: resps => forward_replies resps
  end.
Definition handle_forward (opt_multi_resp : OptionalMulti RespVec) : outcome RedisClientError () :=
  match opt_multi_resp with
  | Single _ => Err InvalidReply
  | Multi resps => Err (forward_replies resps)
  end.

Definition del_cmd (keys : list bytes) : list bytes := bytes_of "DEL" :: keys.
Definition delete_keys (resp : RespVec) : outcome RedisClientError () :=
  match resp with Error _ => Err InvalidReply | _ => Ok () end.

Definition scan_cmd (index scan_count : N) : list bytes :=
  [bytes_of "SCAN"; bytes_of (to_string index); bytes_of "COUNT"; bytes_of (to_string scan_count)].

(** [get_resp_bytes]. *)
Fixpoint resp_bytes (resps : list RespVec) : option (list bytes) :=
  match resps with
  | [] => Some []
  | Bulk (Str s) :: resps => cons s <$> resp_bytes resps
  | Simple s :: resps => cons s <$> resp_bytes resps
  | _ => None
  end.
Definition get_resp_bytes (resp : RespVec) : option (list bytes) :=
  match resp with Arr (Elements resps) => resp_bytes resps | _ => None end.

Record ScanResponse : Type := mkScanResponse { next_index : N; scan_keys : list bytes }.

Definition parse_scan (resp : RespVec) : option ScanResponse :=
  match resp with
  | Arr (Elements resps) =>
      index_data ← resps !! 0 ≫= λ resp, match resp with
                                         | Bulk (Str s) => Some s
                                         | Simple s => Some s
                                         | _ => None
                                         end;
      text ← from_utf8 index_data;
      next_index ← parse_u64 text;
      second ← resps !! 1;
      keys ← get_resp_bytes second;
      Some (mkScanResponse next_index keys)
  | _ => None
  end.

Record SlotRangeArray : Type := mkSlotRangeArray { sra_ranges : RangeList; sra_range_map : RangeMap }.
Definition slot_range_array_new (ranges : RangeList) : SlotRangeArray :=
  mkSlotRangeArray ranges (range_map_from ranges).
Definition is_key_inside `{Crc16} (a : SlotRangeArray) (key : bytes) : may_panic bool :=
  slot ← generate_slot key;
  Ok (contains_slot (sra_range_map a) slot).

(** ** The importing side *)

Definition KEY_NOT_EXISTS : string := "0".

Definition gen_exists_resp (key : bytes) : RespVec := command_value [bytes_of "EXISTS"; key].
Definition gen_dump_resp (key : bytes) : RespVec := command_value [bytes_of "DUMP"; key].
Definition gen_pttl_resp (key : bytes) : RespVec := command_value [bytes_of "PTTL"; key].
Definition gen_umsync_resp (key : bytes) : RespVec := command_value [bytes_of "UMSYNC"; key].
Definition gen_restore_resp `{DecoderEnv} (key raw_data pttl : bytes) : RespVec :=
  command_value [bytes_of "RESTORE"; key; pttl_to_restore_expire_time pttl; raw_data].
Definition gen_del_resp (key : bytes) : RespVec := command_value [bytes_of "DEL"; key].

(** [None] is the error, after which the command is dropped. *)
Definition parse_exists_result (result : outcome CommandError RespVec) : option bool :=
  match result with
  | Ok (Integer num) => Some (bool_decide (num ≠ bytes_of KEY_NOT_EXISTS))
  | _ => None
  end.

(** The payload and the time to live, if the key is there. *)
Definition get_data_entry (dump pttl : outcome CommandError RespVec) :
    outcome CommandError (option (bytes * bytes)) :=
  dump ← dump;
  let dump_result := match dump with
                     | Bulk (Str raw_data) => Ok (Some raw_data)
                     | Bulk BulkNil => Ok None
                     | _ => Err UnexpectedResponse
                     end in
  pttl ← pttl;
  let pttl_result := match pttl with
                     | Integer pttl => Ok (if bool_decide (pttl ≠ PTTL_KEY_NOT_FOUND) then Some pttl else None)
                     | _ => Err UnexpectedResponse
                     end in
  match dump_result, pttl_result with
  | Ok (Some raw_data), Ok (Some pttl) => Ok (Some (raw_data, pttl))
  | Ok None, _ | _, Ok None => Ok None
  | Err err, _ => Err err
  | _, Err err => Err err
  | _, _ => Panic
  end.

(** [handle_restore]: whether the key can be deleted at the source. *)
Definition restore_accepted (resp : RespVec) : bool :=
  match resp with
  | Simple _ => true
  | Error err => is_busykey err
  | _ => false
  end.

Definition OK_REPLY : string := "OK".
Definition MIGRATING_FINISHED : string := "MIGRATING_FINISHED".
Definition MIGRATION_TASK_NOT_FOUND : string := "MIGRATION_TASK_NOT_FOUND".

(** [handle_umsync_task]: whether the command is sent on. *)
Definition umsync_accepted (reply : outcome CommandError RespVec) : bool :=
  match reply with
  | Ok (Error err) => bool_decide (err = bytes_of MIGRATION_TASK_NOT_FOUND)
  | Ok _ => true
  | _ => false
  end.

(** ** Locks *)

(** [SlotMutex]: the flags of the locked slots.  [None] when the slot is
    locked or out of range. *)
Definition slot_mutex_lock {H} (slots : gmap N H) (slot : N) (holder : H) : option (gmap N H) :=
  if (slot <? SLOT_NUM)%N then
    match slots !! slot with Some _ => None | None => Some (<[slot := holder]> slots) end
  else None.

(** [KeyLock]: a key is locked in the shard of its lock slot.  The holder of a
    guard is kept with its key. *)
Definition LOCK_SHARD_SIZE : N := 256.
Definition shard_of (lock_slot : N) : N := (lock_slot `mod` LOCK_SHARD_SIZE)%N.
Definition key_lock {H} (shards : gmap (N * bytes) H) (key : bytes) (lock_slot : N) (holder : H) :
    option (gmap (N * bytes) H) :=
  match shards !! (shard_of lock_slot, key) with
  | Some _ => None
  | None => Some (<[(shard_of lock_slot, key) := holder]> shards)
  end.
Definition key_unlock {H} (shards : gmap (N * bytes) H) (key : bytes) (lock_slot : N) : gmap (N * bytes) H :=
  delete (shard_of lock_slot, key) shards.

(** ** Redis *)

Class Redis := {
  node : Type;
  data : Type;
  serialize : data → bytes;
  (** A value and the milliseconds it has left, if it expires. *)
  node_get : node → bytes → option (data * option N);
  node_exec : RespVec → node → node * RespVec;
  (** The commands that access a single key, and what they do to it. *)
  key_command : RespVec → bytes → Prop;
  command_effect : RespVec → option (data * option N) → option (data * option N) * RespVec;
}.

Definition pttl_text (ttl : option N) : bytes :=
  match ttl with None => bytes_of "-1" | Some ms => bytes_of (to_string ms) end.
Definition expire_text (ttl : option N) : bytes :=
  match ttl with None => bytes_of "0" | Some ms => bytes_of (to_string ms) end.
Definition scan_reply (next : N) (keys : list bytes) : RespVec :=
  Arr (Elements [Bulk (Str (bytes_of (to_string next))); Arr (Elements ((λ k, Bulk (Str k)) <$> keys))]).

Section redis.
Context `{Redis}.

Definition same_data (n n' : node) : Prop := ∀ k, node_get n' k = node_get n k.

(** One command after which the key is still there. *)
Definition keeps (k : bytes) (n n' : node) : Prop := ∃ c, n' = (node_exec c n).1 ∧ node_get n' k ≠ None.

(** An iteration with [SCAN]: the next cursor, the keys returned so far, and
    the present state of the node; key [k] has been there all the time. *)
Inductive scanned (count : N) (k : bytes) : N → list bytes → node → Prop :=
| scanned_start n : node_get n k ≠ None → scanned count k 0 [] n
| scanned_other cur keys n n' : scanned count k cur keys n → keeps k n n' → scanned count k cur keys n'
| scanned_call cur keys n n' next ks :
    scanned count k cur keys n → node_exec (command_value (scan_cmd cur count)) n = (n', scan_reply next ks) →
    node_get n' k ≠ None → scanned count k next (keys ++ ks) n'.
End redis.

(** The documented behaviour of the commands, for a period in which no key
    expires by itself and no command is refused. *)
Class RedisLaws `{Redis} : Prop := {
  exec_exists n k : ∃ n', same_data n n' ∧ node_exec (command_value [bytes_of "EXISTS"; k]) n =
    (n', Integer (bytes_of (match node_get n k with Some _ => "1" | None => "0" end)));
  exec_dump n k : ∃ n', same_data n n' ∧ node_exec (command_value [bytes_of "DUMP"; k]) n =
    (n', Bulk (match node_get n k with Some v => Str (serialize v.1) | None => BulkNil end));
  exec_pttl n k : ∃ n', same_data n n' ∧ node_exec (command_value [bytes_of "PTTL"; k]) n =
    (n', Integer (match node_get n k with Some v => pttl_text v.2 | None => bytes_of "-2" end));
  exec_restore_new n k d ttl : node_get n k = None → ttl ≠ Some 0%N → (∀ ms, ttl = Some ms → (ms ≤ i64_max)%N) → ∃ n',
    node_exec (command_value [bytes_of "RESTORE"; k; expire_text ttl; serialize d]) n =
      (n', Simple (bytes_of "OK")) ∧
    node_get n' k = Some (d, ttl) ∧ ∀ k', k' ≠ k → node_get n' k' = node_get n k';
  exec_restore_busy n k t p : node_get n k ≠ None → ∃ n' msg, same_data n n' ∧
    node_exec (command_value [bytes_of "RESTORE"; k; t; p]) n = (n', Error (bytes_of "BUSYKEY" ++ msg));
  exec_del n ks : ks ≠ [] → ∃ n' num,
    node_exec (command_value (bytes_of "DEL" :: ks)) n = (n', Integer num) ∧
    ∀ k, node_get n' k = if bool_decide (k ∈ ks) then None else node_get n k;
  exec_scan n cur count : ∃ n' next ks, (next ≤ u64_max)%N ∧ same_data n n' ∧
    node_exec (command_value (scan_cmd cur count)) n = (n', scan_reply next ks);
  exec_client n c k : key_command c k → ∃ n',
    node_exec c n = (n', (command_effect c (node_get n k)).2) ∧
    node_get n' k = (command_effect c (node_get n k)).1 ∧ ∀ k', k' ≠ k → node_get n' k' = node_get n k';
  scan_complete count k cur keys n n' ks :
    scanned count k cur keys n → node_exec (command_value (scan_cmd cur count)) n = (n', scan_reply 0 ks) →
    k ∈ keys ++ ks;
}.

(** ** Facts *)

Lemma bytes_of_inj s s' : bytes_of s = bytes_of s' → s = s'.
Proof.
  intros Heq. rewrite <-(String.string_of_list_ascii_of_string s), <-(String.string_of_list_ascii_of_string s').
  by f_equal.
Qed.

Lemma ascii_text_valid s : (∀ c, (128 ≤ N_of_ascii c)%N → no_char c s) → utf8_valid (bytes_of s) = true.
Proof.
  induction s as [|a s IH]; intros Hs; [done|]. cbn [bytes_of String.list_ascii_of_string utf8_valid].
  destruct (N.ltb_spec (N_of_ascii a) 128) as [_|Ha].
  - apply IH. intros c Hc. by destruct (Hs c Hc).
  - destruct (Hs a Ha) as [Hne _]. done.
Qed.

Lemma number_text n : from_utf8 (bytes_of (to_string n)) = Some (to_string n).
Proof.
  unfold from_utf8. rewrite ascii_text_valid.
  - f_equal. apply String.string_of_list_ascii_of_string.
  - intros c Hc. apply to_string_no_char. destruct (digit c) as [d|] eqn:Hd; [|done].
    assert (48 ≤ N_of_ascii c ≤ 57)%N by (apply digit_Some; by rewrite Hd). lia.
Qed.

Lemma pttl_text_found ttl : pttl_text ttl ≠ PTTL_KEY_NOT_FOUND.
Proof.
  destruct ttl as [ms|]; [|done]. intros Heq%bytes_of_inj. by apply (number_not_word ms "-" "2") in Heq.
Qed.

(** The expiry survives the way from [PTTL] to [RESTORE]. *)
Lemma expire_kept `{BtoiLaws} ttl :
  (∀ ms, ttl = Some ms → (ms ≤ i64_max)%N) → pttl_to_restore_expire_time (pttl_text ttl) = expire_text ttl.
Proof.
  unfold pttl_to_restore_expire_time, pttl_need_to_be_no_expire. destruct ttl as [ms|]; intros Hms.
  - rewrite bool_decide_eq_false_2.
    + cbn [pttl_text]. rewrite btoi_to_string by auto. rewrite (proj2 (Z.ltb_ge _ _)) by lia. done.
    + intros Heq%bytes_of_inj. by apply (number_not_word ms "-" "1") in Heq.
  - by rewrite bool_decide_eq_true_2.
Qed.

Lemma resp_bytes_bulks ks : resp_bytes ((λ k, Bulk (Str k)) <$> ks) = Some ks.
Proof. induction ks as [|k ks IH]; [done|]. cbn. by rewrite IH. Qed.

Lemma parse_scan_reply next ks :
  (next ≤ u64_max)%N → parse_scan (scan_reply next ks) = Some (mkScanResponse next ks).
Proof.
  intros Hn. unfold parse_scan, scan_reply. cbn -[from_utf8 parse_u64 bytes_of].
  rewrite number_text. cbn -[parse_u64]. rewrite parse_u64_to_string by done. cbn. by rewrite resp_bytes_bulks.
Qed.

Lemma is_key_inside_Ok `{Crc16} a key :
  is_key_inside a key = Ok (contains_slot (sra_range_map a) (slot_of key)).
Proof. unfold is_key_inside. by rewrite generate_slot_Ok. Qed.

Lemma busykey_prefix msg : is_busykey (bytes_of "BUSYKEY" ++ msg) = true.
Proof.
  apply bool_decide_eq_true_2. unfold get_range. cbn [fst snd BUSYKEY_ERROR]. rewrite bool_decide_eq_true_2.
  - done.
  - rewrite length_app. cbn. lia.
Qed.
