(* ===== verification/Strings.v ===== *)
(** * String commands

    What the proxy relies on when it splits, compresses and joins commands on
    strings: the documented behaviour of a few commands of Redis that access a
    single key, as a class over the interface of [Keys]. *)

From S2P Require Import Prelude RangeList RustStr Resp Packet Command ClusterMeta Wire Keys.

Class Strings `{Redis} := {
  string_data : bytes → data;
  (** [None] for a value of another type. *)
  string_of : data → option bytes;
}.

Definition get_cmd (k : bytes) : RespVec := command_value [bytes_of "GET"; k].
Definition set_cmd (k b : bytes) : RespVec := command_value [bytes_of "SET"; k; b].
Definition setnx_cmd (k b : bytes) : RespVec := command_value [bytes_of "SETNX"; k; b].
Definition getset_cmd (k b : bytes) : RespVec := command_value [bytes_of "GETSET"; k; b].
Definition setex_cmd (millis : bool) (k t b : bytes) : RespVec :=
  command_value [bytes_of (if millis then "PSETEX" else "SETEX"); k; t; b].

Definition WRONGTYPE : RespVec :=
  Error (bytes_of "WRONGTYPE Operation against a key holding the wrong kind of value").
Definition OK : RespVec := Simple (bytes_of "OK").
Definition number_reply (n : N) : RespVec := Integer (bytes_of (to_string n)).

Definition get_reply `{Strings} (v : option (data * option N)) : RespVec :=
  match v with
  | None => Bulk BulkNil
  | Some (d, _) => match string_of d with Some b => Bulk (Str b) | None => WRONGTYPE end
  end.

Definition present {A} (v : option A) : N := match v with Some _ => 1 | None => 0 end.

Class StringLaws `{Strings} : Prop := {
  string_of_data b : string_of (string_data b) = Some b;
  get_law k : key_command (get_cmd k) k ∧ ∀ v, command_effect (get_cmd k) v = (v, get_reply v);
  set_law k b : key_command (set_cmd k b) k ∧ ∀ v, command_effect (set_cmd k b) v = (Some (string_data b, None), OK);
  setnx_law k b : key_command (setnx_cmd k b) k ∧ ∀ v, command_effect (setnx_cmd k b) v =
    match v with None => (Some (string_data b, None), number_reply 1) | Some _ => (v, number_reply 0) end;
  getset_law k b : key_command (getset_cmd k b) k ∧ ∀ v, command_effect (getset_cmd k b) v =
    match v with
    | Some (d, _) => match string_of d with
                     | Some _ => (Some (string_data b, None), get_reply v)
                     | None => (v, WRONGTYPE)
                     end
    | None => (Some (string_data b, None), Bulk BulkNil)
    end;
  (** The time is checked before the value is looked at. *)
  setex_law millis k t :
    (∀ b, key_command (setex_cmd millis k t b) k) ∧
    ((∃ err, ∀ b v, command_effect (setex_cmd millis k t b) v = (v, Error err)) ∨
     (∃ ttl, ∀ b v, command_effect (setex_cmd millis k t b) v = (Some (string_data b, Some ttl), OK)));
  del_law k : key_command (gen_del_resp k) k ∧ ∀ v, command_effect (gen_del_resp k) v = (None, number_reply (present v));
  exists_law k : key_command (gen_exists_resp k) k ∧
    ∀ v, command_effect (gen_exists_resp k) v = (v, number_reply (present v));
}.

(** ** Executing a command of one key *)

Section effect.
Context `{RedisLaws}.

(** [n'] is [n] with key [k] bound to [v]. *)
Definition updated (n n' : node) (k : bytes) (v : option (data * option N)) : Prop :=
  node_get n' k = v ∧ ∀ k', k' ≠ k → node_get n' k' = node_get n k'.

Lemma updated_same n n' k : updated n n' k (node_get n k) ↔ same_data n n'.
Proof.
  split.
  - intros [Hk Hne] k'. destruct (decide (k' = k)) as [->|]; [done|]. by apply Hne.
  - intros Hs. by split; [|intros k' _].
Qed.

Lemma exec_effect c k n v r :
  key_command c k → command_effect c (node_get n k) = (v, r) → ∃ n', node_exec c n = (n', r) ∧ updated n n' k v.
Proof.
  intros Hc He. destruct (exec_client n c k Hc) as (n' & Hx & Hk & Hne). rewrite He in Hx, Hk. exists n'. split; [done|]. by split.
Qed.
End effect.
