(* ===== verification/Transfer.v ===== *)
(** * Moving keys: the two proxies at work

    The migration of the keys of a range as a state machine over two Redis
    nodes.  The destination proxy has the commands of the clients
    ([RestoreDataCmdTaskHandler] of [proxy/migration_backend.rs]): it asks its
    node for the key, fetches it from the source if it is missing, and puts it
    with the command behind it; commands that may delete the key ask the source
    proxy with [UMSYNC] to move it first.  The source proxy
    ([ScanMigrationTask] of [migration/scan_migration.rs]) moves keys that it
    scans and keys that it is asked for.

    A step is one command executed by a node, or one reaction of a proxy to
    replies.  Handlers take their tasks in any order; connections may fail at
    any time, and then a command that was not executed is answered with an
    error.  Not modelled is a node that executes a [RESTORE] after the proxy has
    given up waiting for it. *)

From S2P Require Import Prelude RangeList RustStr Resp Packet Command ClusterMeta Wire Keys.

(** ** State *)

(** Commands with their replies, in the order of a pipeline. *)
Abbreviation replies := (list (list bytes * RespVec)) (only parsing).

(** How far the source proxy is with some keys. *)
Inductive stage : Type :=
| Dumping (keys : list bytes) (done : replies) (todo : list (list bytes))
| Restoring (entries : list DataEntry) (done : replies) (todo : list (list bytes))
| Deleting (keys : list bytes) (reply : option RespVec).

Inductive progress : Type := Moving (m : stage) | MoveDone | MoveFailed.

(** A request [UMSYNC]. *)
Inductive sync : Type :=
| SyncSent
| SyncMoving (m : stage)
| SyncQueued
| SyncAnswered (reply : RespVec).

(** A command at the destination proxy. *)
Inductive pc : Type :=
| Checking                                            (** [EXISTS] is sent *)
| Checked (reply : RespVec)
| Fetching (done : replies) (todo : list (list bytes)) (** [DUMP] and [PTTL] are sent *)
| Putting (entry : DataEntry)                         (** [RESTORE] and the command are sent *)
| Pending                                             (** waits for the lock of its key *)
| Syncing (s : sync)
| Forwarded.                                          (** the command is sent to the node *)

Record task : Type := mkTask { tk_cmd : Command; tk_key : bytes; tk_pc : pc }.

(** What is left to do after a [RESTORE] of the destination proxy. *)
Inductive cleaner : Type := Restored (reply : RespVec) | Removing.

Inductive slot_holder : Type := HeldByScan | HeldBySync (t : nat) | Releasing.

(** The loop of [keep_migrating]. *)
Inductive scan : Type :=
| ScanIdle (index : N)
| ScanListed (index : N) (reply : RespVec)
| ScanLocking (index next : N) (keys todo locked : list bytes) (slots : list N)
| ScanMoving (index next : N) (need_retry : bool) (slots : list N) (m : stage)
| ScanBatch (index : N) (ts : list nat) (m : stage)
| ScanFinished.

Section transfer.
Context `{Redis} `{DecoderEnv} `{Crc16}.

Record Transfer : Type := mkTransfer {
  tr_src : node;
  tr_dst : node;
  tr_tasks : gmap nat task;
  tr_cleaners : gmap nat (bytes * cleaner);
  tr_key_lock : gmap (N * bytes) nat;
  tr_slot_mutex : gmap N slot_holder;
  tr_queue : list nat;              (** the channel of the sync tasks *)
  tr_scan : scan;
  tr_strays : list (list bytes);    (** [DEL] commands nobody waits for *)
  tr_log : list (RespVec * bytes * RespVec); (** the commands of the clients that were executed *)
}.

Definition set_src (n : node) (s : Transfer) : Transfer :=
  mkTransfer n (tr_dst s) (tr_tasks s) (tr_cleaners s) (tr_key_lock s) (tr_slot_mutex s) (tr_queue s) (tr_scan s)
    (tr_strays s) (tr_log s).
Definition set_dst (n : node) (s : Transfer) : Transfer :=
  mkTransfer (tr_src s) n (tr_tasks s) (tr_cleaners s) (tr_key_lock s) (tr_slot_mutex s) (tr_queue s) (tr_scan s)
    (tr_strays s) (tr_log s).
Definition set_tasks (m : gmap nat task) (s : Transfer) : Transfer :=
  mkTransfer (tr_src s) (tr_dst s) m (tr_cleaners s) (tr_key_lock s) (tr_slot_mutex s) (tr_queue s) (tr_scan s)
    (tr_strays s) (tr_log s).
Definition set_cleaners (m : gmap nat (bytes * cleaner)) (s : Transfer) : Transfer :=
  mkTransfer (tr_src s) (tr_dst s) (tr_tasks s) m (tr_key_lock s) (tr_slot_mutex s) (tr_queue s) (tr_scan s)
    (tr_strays s) (tr_log s).
Definition set_key_lock (m : gmap (N * bytes) nat) (s : Transfer) : Transfer :=
  mkTransfer (tr_src s) (tr_dst s) (tr_tasks s) (tr_cleaners s) m (tr_slot_mutex s) (tr_queue s) (tr_scan s)
    (tr_strays s) (tr_log s).
Definition set_slot_mutex (m : gmap N slot_holder) (s : Transfer) : Transfer :=
  mkTransfer (tr_src s) (tr_dst s) (tr_tasks s) (tr_cleaners s) (tr_key_lock s) m (tr_queue s) (tr_scan s)
    (tr_strays s) (tr_log s).
Definition set_queue (l : list nat) (s : Transfer) : Transfer :=
  mkTransfer (tr_src s) (tr_dst s) (tr_tasks s) (tr_cleaners s) (tr_key_lock s) (tr_slot_mutex s) l (tr_scan s)
    (tr_strays s) (tr_log s).
Definition set_scan (sc : scan) (s : Transfer) : Transfer :=
  mkTransfer (tr_src s) (tr_dst s) (tr_tasks s) (tr_cleaners s) (tr_key_lock s) (tr_slot_mutex s) (tr_queue s) sc
    (tr_strays s) (tr_log s).
Definition set_strays (l : list (list bytes)) (s : Transfer) : Transfer :=
  mkTransfer (tr_src s) (tr_dst s) (tr_tasks s) (tr_cleaners s) (tr_key_lock s) (tr_slot_mutex s) (tr_queue s)
    (tr_scan s) l (tr_log s).
Definition add_log (e : RespVec * bytes * RespVec) (s : Transfer) : Transfer :=
  mkTransfer (tr_src s) (tr_dst s) (tr_tasks s) (tr_cleaners s) (tr_key_lock s) (tr_slot_mutex s) (tr_queue s)
    (tr_scan s) (tr_strays s) (tr_log s ++ [e]).

(** ** Moving keys at the source *)

Definition stage_new (keys : list bytes) : stage := Dumping keys [] (produce_cmds keys).

Definition move_step (m : stage) (src dst : node) : progress * (node * node) :=
  match m with
  | Dumping keys done (c :: todo) =>
      let '(src, r) := node_exec (command_value c) src in
      (Moving (Dumping keys (done ++ [(c, r)]) todo), (src, dst))
  | Dumping keys done [] =>
      (match produce_entries keys done.*2 with
       | Ok [] => MoveDone
       | Ok entries => Moving (Restoring entries [] (restore_cmd <$> entries))
       | _ => MoveFailed
       end, (src, dst))
  | Restoring entries done (c :: todo) =>
      let '(dst, r) := node_exec (command_value c) dst in
      (Moving (Restoring entries (done ++ [(c, r)]) todo), (src, dst))
  | Restoring entries done [] =>
      (match handle_forward (Multi done.*2) with
       | Err Done => Moving (Deleting (de_key <$> entries) None)
       | _ => Moving (Restoring entries [] (restore_cmd <$> entries))
       end, (src, dst))
  | Deleting keys None =>
      let '(src, r) := node_exec (command_value (del_cmd keys)) src in
      (Moving (Deleting keys (Some r)), (src, dst))
  | Deleting keys (Some r) =>
      (match delete_keys r with Ok () => MoveDone | _ => MoveFailed end, (src, dst))
  end.

(** The connection fails: [forward_entries] starts again, everything else ends
    with an error.  A [DEL] that was sent may still be executed. *)
Definition move_fail (m : stage) : progress * list (list bytes) :=
  match m with
  | Dumping _ _ _ | Deleting _ (Some _) => (MoveFailed, [])
  | Restoring entries _ _ => (Moving (Restoring entries [] (restore_cmd <$> entries)), [])
  | Deleting keys None => (MoveFailed, [keys])
  end.

(** ** Steps *)

Context (range : SlotRangeArray) (scan_count : N).

Definition inside (key : bytes) : bool :=
  match is_key_inside range key with Ok b => b | _ => false end.

Inductive TAction : Type :=
| Arrive (t : nat) (c : Command)
| DstExists (t : nat) | OnExists (t : nat)
| SrcFetch (t : nat) | OnFetch (t : nat)
| DstRestore (t : nat) | OnRestore (t : nat) | SrcRemove (t : nat) | DropCleaner (t : nat)
| OnPending (t : nat)
| SyncArrive (t : nat) | SyncGone (t : nat) | SyncMove (t : nat) | SyncFail (t : nat) | OnSync (t : nat)
| ReleaseSlot (slot : N)
| DstRun (t : nat) | GiveUp (t : nat)
| ScanCall | OnScan | ScanLock | ScanMove | ScanFail | ScanTake (n : nat)
| Stray (i : nat)
| SrcOther (c : RespVec) | DstOther (c : RespVec).

Definition lock_key (t : nat) (key : bytes) (s : Transfer) : option Transfer :=
  m ← key_lock (tr_key_lock s) key (generate_lock_slot key) t; Some (set_key_lock m s).
Definition unlock_key (key : bytes) (s : Transfer) : Transfer :=
  set_key_lock (key_unlock (tr_key_lock s) key (generate_lock_slot key)) s.

Definition goto (t : nat) (tk : task) (p : pc) (s : Transfer) : Transfer :=
  set_tasks (<[t := mkTask (tk_cmd tk) (tk_key tk) p]> (tr_tasks s)) s.
Definition finish (t : nat) (s : Transfer) : Transfer := set_tasks (delete t (tr_tasks s)) s.

Definition answer_syncs (ts : list nat) (reply : RespVec) (s : Transfer) : Transfer :=
  foldr (λ t s, match tr_tasks s !! t with
                | Some tk => goto t tk (Syncing (SyncAnswered reply)) s
                | None => s
                end) s ts.

Definition unlock_slots (slots : list N) (s : Transfer) : Transfer :=
  set_slot_mutex (foldr delete (tr_slot_mutex s) slots) s.

(** [handle_cmd_task]: a command of the range comes to the destination. *)
Definition handle_cmd_task (t : nat) (c : Command) (s : Transfer) : option Transfer :=
  match tr_tasks s !! t, tr_cleaners s !! t, get_key c with
  | None, None, Some key =>
      if inside key then
        let enter p s := set_tasks (<[t := mkTask c key p]> (tr_tasks s)) s in
        if requires_blocking_migration (get_data_cmd_type c) then
          Some (match lock_key t key s with
                | Some s' => enter (Syncing SyncSent) s'
                | None => enter Pending s
                end)
        else Some (enter Checking s)
      else None
  | _, _, _ => None
  end.

(** [handle_exists_task], for one reply. *)
Definition handle_exists (t : nat) (tk : task) (reply : RespVec) (s : Transfer) : Transfer :=
  match parse_exists_result (Ok reply) with
  | None => finish t s
  | Some true => goto t tk Forwarded s
  | Some false =>
      match lock_key t (tk_key tk) s with
      | Some s' => goto t tk (Fetching [] [dump_cmd (tk_key tk); pttl_cmd (tk_key tk)]) s'
      | None => goto t tk Checking s
      end
  end.

(** [handle_dump_pttl_task], for one pair of replies. *)
Definition handle_dump_pttl (t : nat) (tk : task) (dump pttl : RespVec) (s : Transfer) : Transfer :=
  match get_data_entry (Ok dump) (Ok pttl) with
  | Ok (Some (raw_data, pttl)) => goto t tk (Putting (mkDataEntry (tk_key tk) pttl raw_data)) s
  | Ok None => goto t tk Forwarded (unlock_key (tk_key tk) s)
  | _ => finish t (unlock_key (tk_key tk) s)
  end.

(** [handle_restore], for one reply. *)
Definition handle_restore (t : nat) (key : bytes) (reply : RespVec) (s : Transfer) : Transfer :=
  let s := unlock_key key s in
  if restore_accepted reply then set_cleaners (<[t := (key, Removing)]> (tr_cleaners s)) s
  else set_cleaners (delete t (tr_cleaners s)) s.

(** [handle_umsync_task], for one reply. *)
Definition handle_umsync (t : nat) (tk : task) (reply : RespVec) (s : Transfer) : Transfer :=
  if umsync_accepted (Ok reply) then goto t tk Forwarded (unlock_key (tk_key tk) s)
  else finish t (unlock_key (tk_key tk) s).

(** [handle_sync_task] up to the moving of the key. *)
Definition handle_sync_task (t : nat) (tk : task) (s : Transfer) : Transfer :=
  match slot_mutex_lock (tr_slot_mutex s) (generate_lock_slot (tk_key tk)) (HeldBySync t) with
  | Some m => goto t tk (Syncing (SyncMoving (stage_new [tk_key tk]))) (set_slot_mutex m s)
  | None =>
      match tr_scan s with
      | ScanFinished => goto t tk (Syncing (SyncAnswered (Simple (bytes_of MIGRATING_FINISHED)))) s
      | _ => goto t tk (Syncing SyncQueued) (set_queue (tr_queue s ++ [t]) s)
      end
  end.

(** Its end: the reply is set before the guard is dropped.  The texts of the
    errors differ from step to step; they are only passed on. *)
Definition sync_progress (t : nat) (tk : task) (p : progress) (s : Transfer) : Transfer :=
  let release := set_slot_mutex (<[generate_lock_slot (tk_key tk) := Releasing]> (tr_slot_mutex s)) in
  match p with
  | Moving m => goto t tk (Syncing (SyncMoving m)) s
  | MoveDone => release (goto t tk (Syncing (SyncAnswered (Simple (bytes_of OK_REPLY)))) s)
  | MoveFailed => release (goto t tk (Syncing (SyncAnswered (Error (bytes_of "failed to move the key")))) s)
  end.

(** One key of the locking loop of [scan_and_migrate_keys]. *)
Definition scan_lock (index next : N) (keys : list bytes) (key : bytes) (todo locked : list bytes) (slots : list N)
    (s : Transfer) : Transfer :=
  let lock_slot := generate_lock_slot key in
  match slot_mutex_lock (tr_slot_mutex s) lock_slot HeldByScan with
  | Some m => set_scan (ScanLocking index next keys todo (locked ++ [key]) (lock_slot :: slots)) (set_slot_mutex m s)
  | None =>
      set_scan (ScanLocking index next keys todo (if bool_decide (lock_slot ∈ slots) then locked ++ [key] else locked)
        slots) s
  end.

(** The channel is closed and what is left in it is answered. *)
Definition scan_finish (s : Transfer) : Transfer :=
  set_scan ScanFinished (set_queue [] (answer_syncs (tr_queue s) (Simple (bytes_of MIGRATING_FINISHED)) s)).

(** The end of [scan_and_migrate_keys] and what [keep_migrating] does then. *)
Definition scan_progress (index next : N) (need_retry : bool) (slots : list N) (p : progress) (s : Transfer) : Transfer :=
  match p with
  | Moving m => set_scan (ScanMoving index next need_retry slots m) s
  | MoveDone =>
      let s := unlock_slots slots s in
      if need_retry then set_scan (ScanIdle index) s
      else if bool_decide (next = 0%N) then scan_finish s
      else set_scan (ScanIdle next) s
  | MoveFailed => set_scan (ScanIdle index) (unlock_slots slots s)
  end.

(** [handle_blocking_requests]. *)
Definition task_keys (ts : list nat) (s : Transfer) : list bytes :=
  filter (λ key, inside key = true) (omap (λ t, tk_key <$> tr_tasks s !! t) ts).
Definition batch_progress (index : N) (ts : list nat) (p : progress) (s : Transfer) : Transfer :=
  match p with
  | Moving m => set_scan (ScanBatch index ts m) s
  | MoveDone => set_scan (ScanIdle index) (answer_syncs ts (Simple (bytes_of OK_REPLY)) s)
  | MoveFailed => set_scan (ScanIdle index) (answer_syncs ts (Error (bytes_of "failed to delete keys")) s)
  end.

Definition with_nodes (p : progress * (node * node)) (f : progress → Transfer → Transfer) (s : Transfer) : Transfer :=
  f p.1 (set_dst p.2.2 (set_src p.2.1 s)).
Definition with_strays (p : progress * list (list bytes)) (f : progress → Transfer → Transfer) (s : Transfer) : Transfer :=
  f p.1 (set_strays (p.2 ++ tr_strays s) s).

(** A command is answered or given back without having been executed. *)
Definition drop_task (t : nat) (tk : task) (s : Transfer) : option Transfer :=
  match tk_pc tk with
  | Checking | Checked _ | Pending | Forwarded => Some (finish t s)
  | Fetching _ _ | Putting _ | Syncing SyncSent => Some (finish t (unlock_key (tk_key tk) s))
  | Syncing _ => None
  end.

Definition task_step (a : TAction) (t : nat) (tk : task) (s : Transfer) : option Transfer :=
  match a, tk_pc tk with
  | DstExists _, Checking =>
      let '(dst, r) := node_exec (gen_exists_resp (tk_key tk)) (tr_dst s) in
      Some (goto t tk (Checked r) (set_dst dst s))
  | OnExists _, Checked r => Some (handle_exists t tk r s)
  | SrcFetch _, Fetching done (c :: todo) =>
      let '(src, r) := node_exec (command_value c) (tr_src s) in
      Some (goto t tk (Fetching (done ++ [(c, r)]) todo) (set_src src s))
  | OnFetch _, Fetching [(_, dump); (_, pttl)] [] => Some (handle_dump_pttl t tk dump pttl s)
  | DstRestore _, Putting e =>
      let '(dst, r) := node_exec (gen_restore_resp (de_key e) (de_raw_data e) (de_pttl e)) (tr_dst s) in
      Some (set_cleaners (<[t := (tk_key tk, Restored r)]> (tr_cleaners s)) (goto t tk Forwarded (set_dst dst s)))
  | OnPending _, Pending => s ← lock_key t (tk_key tk) s; Some (goto t tk (Syncing SyncSent) s)
  | SyncArrive _, Syncing SyncSent => Some (handle_sync_task t tk s)
  | SyncGone _, Syncing SyncSent =>
      match tr_scan s with
      | ScanFinished => Some (goto t tk (Syncing (SyncAnswered (Error (bytes_of MIGRATION_TASK_NOT_FOUND)))) s)
      | _ => None
      end
  | SyncMove _, Syncing (SyncMoving m) =>
      Some (with_nodes (move_step m (tr_src s) (tr_dst s)) (sync_progress t tk) s)
  | SyncFail _, Syncing (SyncMoving m) => Some (with_strays (move_fail m) (sync_progress t tk) s)
  | OnSync _, Syncing (SyncAnswered r) => Some (handle_umsync t tk r s)
  | DstRun _, Forwarded =>
      let '(dst, r) := node_exec (cmd_request (tk_cmd tk)) (tr_dst s) in
      Some (finish t (add_log (cmd_request (tk_cmd tk), tk_key tk, r) (set_dst dst s)))
  | GiveUp _, _ => drop_task t tk s
  | _, _ => None
  end.

Definition cleaner_step (a : TAction) (t : nat) (key : bytes) (cl : cleaner) (s : Transfer) : option Transfer :=
  match a, cl with
  | OnRestore _, Restored r => Some (handle_restore t key r s)
  | SrcRemove _, Removing =>
      let '(src, _) := node_exec (gen_del_resp key) (tr_src s) in
      Some (set_cleaners (delete t (tr_cleaners s)) (set_src src s))
  | DropCleaner _, Restored _ => Some (set_cleaners (delete t (tr_cleaners s)) (unlock_key key s))
  | DropCleaner _, Removing => Some (set_cleaners (delete t (tr_cleaners s)) s)
  | _, _ => None
  end.

Definition scan_step (a : TAction) (s : Transfer) : option Transfer :=
  match a, tr_scan s with
  | ScanCall, ScanIdle index =>
      let '(src, r) := node_exec (command_value (scan_cmd index scan_count)) (tr_src s) in
      Some (set_scan (ScanListed index r) (set_src src s))
  | OnScan, ScanListed index r =>
      Some (match parse_scan r with
            | Some resp =>
                let keys := filter (λ key, inside key = true) (scan_keys resp) in
                set_scan (ScanLocking index (next_index resp) keys keys [] []) s
            | None => set_scan (ScanIdle index) s
            end)
  | ScanLock, ScanLocking index next keys (key :: todo) locked slots =>
      Some (scan_lock index next keys key todo locked slots s)
  | ScanLock, ScanLocking index next keys [] locked slots =>
      Some (set_scan (ScanMoving index next (length locked <? length keys) slots (stage_new locked)) s)
  | ScanMove, ScanMoving index next need_retry slots m =>
      Some (with_nodes (move_step m (tr_src s) (tr_dst s)) (scan_progress index next need_retry slots) s)
  | ScanFail, ScanMoving index next need_retry slots m =>
      Some (with_strays (move_fail m) (scan_progress index next need_retry slots) s)
  | ScanTake n, ScanIdle index =>
      let ts := take n (tr_queue s) in
      if bool_decide (ts ≠ []) then
        Some (set_scan (ScanBatch index ts (stage_new (task_keys ts s))) (set_queue (drop n (tr_queue s)) s))
      else None
  | ScanMove, ScanBatch index ts m =>
      Some (with_nodes (move_step m (tr_src s) (tr_dst s)) (batch_progress index ts) s)
  | ScanFail, ScanBatch index ts m => Some (with_strays (move_fail m) (batch_progress index ts) s)
  | _, _ => None
  end.

Definition transfer_step (a : TAction) (s : Transfer) : option Transfer :=
  match a with
  | Arrive t c => handle_cmd_task t c s
  | DstExists t | OnExists t | SrcFetch t | OnFetch t | DstRestore t | OnPending t | SyncArrive t | SyncGone t
  | SyncMove t | SyncFail t | OnSync t | DstRun t | GiveUp t =>
      tk ← tr_tasks s !! t; task_step a t tk s
  | OnRestore t | SrcRemove t | DropCleaner t =>
      '(key, cl) ← tr_cleaners s !! t; cleaner_step a t key cl s
  | ReleaseSlot slot =>
      match tr_slot_mutex s !! slot with
      | Some Releasing => Some (set_slot_mutex (delete slot (tr_slot_mutex s)) s)
      | _ => None
      end
  | ScanCall | OnScan | ScanLock | ScanMove | ScanFail | ScanTake _ => scan_step a s
  | Stray i =>
      keys ← tr_strays s !! i;
      Some (set_strays (delete i (tr_strays s)) (set_src (node_exec (command_value (del_cmd keys)) (tr_src s)).1 s))
  | SrcOther c => Some (set_src (node_exec c (tr_src s)).1 s)
  | DstOther c => Some (set_dst (node_exec c (tr_dst s)).1 s)
  end.

Definition transfer_new (src dst : node) : Transfer :=
  mkTransfer src dst ∅ ∅ ∅ ∅ [] (ScanIdle 0) [] [].

(** A command that the destination may execute without [UMSYNC] never deletes
    its key. *)
Definition well_classified (c : Command) : Prop :=
  requires_blocking_migration (get_data_cmd_type c) = false →
  ∀ v, (command_effect (cmd_request c) (Some v)).1 ≠ None.

Definition admissible (a : TAction) : Prop :=
  match a with
  | Arrive _ c => (∀ key, get_key c = Some key → key_command (cmd_request c) key) ∧ well_classified c
  | SrcOther c | DstOther c => ∃ key, key_command c key ∧ inside key = false
  | _ => True
  end.

Inductive transferring (src dst : node) : Transfer → Prop :=
| transferring_new : transferring src dst (transfer_new src dst)
| transferring_step s a s' :
    transferring src dst s → admissible a → transfer_step a s = Some s' → transferring src dst s'.
End transfer.
