(* ===== verification/Linear.v ===== *)
(** * Moving keys: the clients see one store

    During the migration of a range a client command is executed by the
    destination node only, while its key may be at the source, at the
    destination, at both, or on its way.  The invariant of this file says that
    the destination's value of a key, or else the source's, is always the value
    that the commands executed so far have made; each command finds it at the
    destination.  The scan ends only when the source has no key of the range. *)

From S2P Require Import Prelude RangeList RustStr Resp Packet Command ClusterMeta Wire Keys Transfer.

Lemma sublist_whole {A} (l k : list A) : sublist l k → length k ≤ length l → l = k.
Proof.
  induction 1 as [|x l k Hs IH|x l k Hs IH]; cbn; intros Hlen; [done|f_equal; apply IH; lia|].
  apply sublist_length in Hs. lia.
Qed.

Section linear.
Context `{RedisLaws} `{BtoiLaws} `{Crc16}.
Context (range : SlotRangeArray) (scan_count : N) (init : bytes → option (data * option N)).

#[local] Abbreviation inside := (inside range).
Implicit Types (s : Transfer) (k : bytes).

(** ** What is known of a key *)

Definition present s k : Prop := node_get (tr_dst s) k ≠ None.
Definition gone s k : Prop := node_get (tr_src s) k = None.

(** Somebody holds the data of the key and may still restore it. *)
Definition dumped (done : replies) k : Prop := ∃ b, (dump_cmd k, Bulk (Str b)) ∈ done.
Definition stage_hand (m : stage) k : Prop :=
  match m with
  | Dumping _ done _ => dumped done k
  | Restoring entries _ _ => k ∈ de_key <$> entries
  | Deleting _ _ => False
  end.
Definition task_hand (tk : task) k : Prop :=
  match tk_pc tk with
  | Fetching done _ => k = tk_key tk ∧ dumped done k
  | Putting _ => k = tk_key tk
  | Syncing (SyncMoving m) => stage_hand m k
  | _ => False
  end.
Definition scan_hand (sc : scan) k : Prop :=
  match sc with
  | ScanMoving _ _ _ _ m | ScanBatch _ _ m => stage_hand m k
  | _ => False
  end.
Definition hand s k : Prop := (∃ t tk, tr_tasks s !! t = Some tk ∧ task_hand tk k) ∨ scan_hand (tr_scan s) k.

Definition settled s k : Prop := gone s k ∧ ¬ hand s k.
Definition ready s k : Prop := present s k ∨ settled s k.

(** ** How a step may change this *)

Record evolves s s' : Prop := {
  ev_src : tr_src s' = tr_src s ∨ ∃ c, tr_src s' = (node_exec c (tr_src s)).1;
  ev_gone : ∀ k, inside k = true →
    node_get (tr_src s') k = node_get (tr_src s) k ∨ (gone s' k ∧ ready s k);
  ev_hand : ∀ k, inside k = true → hand s' k → hand s k ∨ ¬ gone s k;
  ev_present : ∀ k, inside k = true → present s k → present s' k ∨ settled s k;
}.

Lemma evolves_gone s s' k : evolves s s' → inside k = true → gone s k → gone s' k.
Proof. intros He Hk Hg. destruct (ev_gone _ _ He k Hk) as [Heq|[? _]]; [|done]. unfold gone in *. congruence. Qed.

Lemma evolves_settled s s' k : evolves s s' → inside k = true → settled s k → settled s' k.
Proof.
  intros He Hk [Hg Hh]. split; [by eapply evolves_gone|]. intros Hn. destruct (ev_hand _ _ He k Hk Hn); done.
Qed.

Lemma evolves_ready s s' k : evolves s s' → inside k = true → ready s k → ready s' k.
Proof.
  intros He Hk [Hp|Hs].
  - destruct (ev_present _ _ He k Hk Hp) as [|Hs]; [by left|right; by eapply evolves_settled].
  - right. by eapply evolves_settled.
Qed.

(** ** The invariant *)

Definition lock_of k : N * bytes := (shard_of (generate_lock_slot k), k).

(** The replies to [DUMP] and [PTTL]: the key is not there any more, or the
    reply has its initial value. *)
Definition reply_ok s (cr : list bytes * RespVec) : Prop :=
  ∀ k, inside k = true →
    (cr.1 = dump_cmd k → (cr.2 = Bulk BulkNil ∧ gone s k) ∨
       ∃ v, init k = Some v ∧ cr.2 = Bulk (Str (serialize v.1))) ∧
    (cr.1 = pttl_cmd k → (cr.2 = Integer PTTL_KEY_NOT_FOUND ∧ gone s k) ∨
       ∃ v, init k = Some v ∧ cr.2 = Integer (pttl_text v.2)).

Definition entry_ok (e : DataEntry) : Prop :=
  inside (de_key e) = true ∧
  ∃ v, init (de_key e) = Some v ∧ de_pttl e = pttl_text v.2 ∧ de_raw_data e = serialize v.1.

(** A move of the keys [keys]. *)
Definition stage_ok s (keys : list bytes) (m : stage) : Prop :=
  Forall (λ k, inside k = true) keys ∧
  match m with
  | Dumping keys' done todo =>
      keys' = keys ∧ done.*1 ++ todo = produce_cmds keys ∧ Forall (reply_ok s) done
  | Restoring entries done todo =>
      entries ≠ [] ∧ Forall entry_ok entries ∧ (de_key <$> entries) ⊆ keys ∧
      (∀ k, k ∈ keys → k ∈ de_key <$> entries ∨ gone s k) ∧
      done.*1 ++ todo = restore_cmd <$> entries ∧
      Forall (λ cr, ∀ e, e ∈ entries → cr.1 = restore_cmd e → ready s (de_key e)) done
  | Deleting keys' reply =>
      keys' ≠ [] ∧ keys' ⊆ keys ∧ Forall (ready s) keys' ∧ ∀ k, k ∈ keys → (k ∈ keys' ∧ reply = None) ∨ gone s k
  end.

Definition blocking (tk : task) : bool := requires_blocking_migration (get_data_cmd_type (tk_cmd tk)).

Definition key_locked s (t : nat) k : Prop := tr_key_lock s !! lock_of k = Some t.
Definition slot_locked s (h : slot_holder) k : Prop := tr_slot_mutex s !! generate_lock_slot k = Some h.

Definition pc_ok s (t : nat) (tk : task) : Prop :=
  let k := tk_key tk in
  match tk_pc tk with
  | Checking => blocking tk = false
  | Checked r => blocking tk = false ∧
      (r = Integer (bytes_of "0") ∨ (r = Integer (bytes_of "1") ∧ ready s k))
  | Fetching done todo => blocking tk = false ∧ key_locked s t k ∧
      done.*1 ++ todo = [dump_cmd k; pttl_cmd k] ∧ Forall (reply_ok s) done
  | Putting e => blocking tk = false ∧ key_locked s t k ∧ entry_ok e ∧ de_key e = k
  | Pending => True
  | Syncing sy => key_locked s t k ∧
      match sy with
      | SyncSent | SyncQueued => True
      | SyncMoving m => slot_locked s (HeldBySync t) k ∧ stage_ok s [k] m
      | SyncAnswered r => umsync_accepted (Ok r) = true → settled s k
      end
  | Forwarded => ready s k ∧ (blocking tk = true → settled s k)
  end.

Definition task_ok s (t : nat) (tk : task) : Prop :=
  inside (tk_key tk) = true ∧ key_command (cmd_request (tk_cmd tk)) (tk_key tk) ∧ well_classified (tk_cmd tk) ∧
  pc_ok s t tk.

Definition cleaner_ok s (t : nat) (kc : bytes * cleaner) : Prop :=
  inside kc.1 = true ∧ ready s kc.1 ∧ (∀ r, kc.2 = Restored r → key_locked s t kc.1) ∧
  ∀ tk, tr_tasks s !! t = Some tk → tk_pc tk = Forwarded.

(** The scan: a key that is still at the source has not been listed yet. *)
Definition unlisted s (index : N) : Prop :=
  ∀ k, inside k = true → ¬ gone s k → ∃ keys, (k ∉ keys) ∧ scanned scan_count k index keys (tr_src s).
Definition listed s (index next : N) (ks : list bytes) : Prop :=
  ∀ k, inside k = true → ¬ gone s k → ∃ keys, (k ∉ keys) ∧
    scanned scan_count k index keys (tr_src s) ∧ scanned scan_count k next (keys ++ ks) (tr_src s) ∧
    (next = 0%N → k ∈ keys ++ ks).

Definition queued s (t : nat) : Prop :=
  ∃ tk, tr_tasks s !! t = Some tk ∧ tk_pc tk = Syncing SyncQueued.

Definition batch (sc : scan) : list nat := match sc with ScanBatch _ ts _ => ts | _ => [] end.

Definition scan_ok s : Prop :=
  match tr_scan s with
  | ScanIdle index => unlisted s index
  | ScanListed index r => ∃ next ks, r = scan_reply next ks ∧ (next ≤ u64_max)%N ∧ listed s index next ks
  | ScanLocking index next keys todo locked slots =>
      (∃ ks, keys = filter (λ k, inside k = true) ks ∧ listed s index next ks) ∧
      (∃ before, keys = before ++ todo ∧ sublist locked before) ∧
      Forall (slot_locked s HeldByScan) locked ∧
      Forall (λ slot, tr_slot_mutex s !! slot = Some HeldByScan) slots
  | ScanMoving index next need_retry slots m => ∃ ks locked,
      listed s index next ks ∧ (need_retry = false → ∀ k, k ∈ ks → inside k = true → k ∈ locked) ∧
      Forall (slot_locked s HeldByScan) locked ∧
      Forall (λ slot, tr_slot_mutex s !! slot = Some HeldByScan) slots ∧ stage_ok s locked m
  | ScanBatch index ts m => unlisted s index ∧ stage_ok s (task_keys range ts s) m
  | ScanFinished => tr_queue s = [] ∧ ∀ k, inside k = true → gone s k
  end.

(** What the executed commands have made of the initial values. *)
Definition apply_entry (f : bytes → option (data * option N)) (e : RespVec * bytes * RespVec) :
    bytes → option (data * option N) :=
  λ k, if bool_decide (k = e.1.2) then (command_effect e.1.1 (f k)).1 else f k.
Definition final (log : list (RespVec * bytes * RespVec)) : bytes → option (data * option N) :=
  foldl apply_entry init log.
Fixpoint legal (f : bytes → option (data * option N)) (log : list (RespVec * bytes * RespVec)) : Prop :=
  match log with
  | [] => True
  | e :: log => e.2 = (command_effect e.1.1 (f e.1.2)).2 ∧ legal (apply_entry f e) log
  end.

Definition current s k : option (data * option N) :=
  match node_get (tr_dst s) k with Some v => Some v | None => node_get (tr_src s) k end.

Record linear s : Prop := {
  li_src : ∀ k, inside k = true → node_get (tr_src s) k = init k ∨ (gone s k ∧ ready s k);
  li_tasks : map_Forall (task_ok s) (tr_tasks s);
  li_cleaners : map_Forall (cleaner_ok s) (tr_cleaners s);
  li_queue : NoDup (tr_queue s ++ batch (tr_scan s)) ∧ Forall (queued s) (tr_queue s ++ batch (tr_scan s));
  li_scan : scan_ok s;
  li_strays : Forall (λ ks, ks ≠ [] ∧ Forall (λ k, inside k = true ∧ ready s k) ks) (tr_strays s);
  li_log : legal init (tr_log s) ∧ ∀ k, inside k = true → current s k = final (tr_log s) k;
}.

(** ** Facts that stay true *)

Lemma reply_ok_mono s s' cr : evolves s s' → reply_ok s cr → reply_ok s' cr.
Proof.
  intros He Hr k Hk. destruct (Hr k Hk) as [Hd Hp]. split; intros Hc.
  - destruct (Hd Hc) as [[? ?]|?]; [left|by right]. split; [done|by eapply evolves_gone].
  - destruct (Hp Hc) as [[? ?]|?]; [left|by right]. split; [done|by eapply evolves_gone].
Qed.

Lemma replies_ok_mono s s' dn : evolves s s' → Forall (reply_ok s) dn → Forall (reply_ok s') dn.
Proof. intros He Hf. eapply Forall_impl; [exact Hf|]. intros cr. by apply reply_ok_mono. Qed.

Lemma stage_ok_mono s s' keys m : evolves s s' → stage_ok s keys m → stage_ok s' keys m.
Proof.
  intros He [Hin Hm]. split; [done|]. rewrite Forall_forall in Hin. destruct m as [keys' dn todo|entries dn todo|keys' reply].
  - destruct Hm as (? & ? & ?). split_and!; [done..|]. by eapply replies_ok_mono.
  - destruct Hm as (? & Hes & ? & Hg & ? & Hd). split_and!; try done.
    + intros k Hk. destruct (Hg k Hk) as [?|?]; [by left|right]. eapply evolves_gone; [done|by apply Hin|done].
    + eapply Forall_impl; [exact Hd|]. cbn. intros cr Hcr e Hine Heq.
      eapply evolves_ready; [done| |by eapply Hcr]. rewrite Forall_forall in Hes. by destruct (Hes e Hine).
  - destruct Hm as (? & Hsub & Hr & Hg). split_and!; try done.
    + rewrite Forall_forall in Hr |- *. intros k Hk. eapply evolves_ready; [done|by apply Hin, Hsub|by apply Hr].
    + intros k Hk. destruct (Hg k Hk) as [?|?]; [by left|right]. eapply evolves_gone; [done|by apply Hin|done].
Qed.

Lemma scanned_mono s s' k index keys :
  evolves s s' → inside k = true → ¬ gone s' k →
  (¬ gone s k → scanned scan_count k index keys (tr_src s)) → scanned scan_count k index keys (tr_src s').
Proof.
  intros He Hk Hg Hs. assert (¬ gone s k) as Hg0 by (intros ?; apply Hg; by eapply evolves_gone).
  specialize (Hs Hg0). destruct (ev_src _ _ He) as [->|[c Hc]]; [done|].
  eapply scanned_other; [done|]. by exists c.
Qed.

Lemma unlisted_mono s s' index : evolves s s' → unlisted s index → unlisted s' index.
Proof.
  intros He Hu k Hk Hg. assert (¬ gone s k) as Hg0 by (intros ?; apply Hg; by eapply evolves_gone).
  destruct (Hu k Hk Hg0) as (keys & Hn & Hs). exists keys. split; [done|]. by eapply scanned_mono.
Qed.

Lemma listed_mono s s' index next ks : evolves s s' → listed s index next ks → listed s' index next ks.
Proof.
  intros He Hu k Hk Hg. assert (¬ gone s k) as Hg0 by (intros ?; apply Hg; by eapply evolves_gone).
  destruct (Hu k Hk Hg0) as (keys & Hn & Hs & Hs' & Hz). exists keys.
  split_and!; [done|by eapply scanned_mono|by eapply scanned_mono|done].
Qed.

(** ** Who can hold what *)

Lemma elem_of_produce_cmds c keys : c ∈ produce_cmds keys ↔ ∃ k, k ∈ keys ∧ (c = pttl_cmd k ∨ c = dump_cmd k).
Proof.
  unfold produce_cmds. rewrite list_elem_of_bind. split.
  - intros (k & Hc & Hk). exists k. split; [done|]. rewrite !elem_of_cons, elem_of_nil in Hc. tauto.
  - intros (k & Hk & Hc). exists k. split; [|done]. rewrite !elem_of_cons. tauto.
Qed.

Lemma stage_hand_keys s keys m k : stage_ok s keys m → stage_hand m k → k ∈ keys.
Proof.
  intros [_ Hm] Hh. destruct m as [keys' dn todo|entries dn todo|]; [| |done].
  - destruct Hm as (-> & Hc & _). destruct Hh as [b Hb]. assert (dump_cmd k ∈ produce_cmds keys) as Hin.
    { rewrite <-Hc. apply elem_of_app. left. by apply (list_elem_of_fmap_2 fst _ (dump_cmd k, Bulk (Str b))). }
    apply elem_of_produce_cmds in Hin as (k' & Hk & [Heq|Heq]); [done|]. by injection Heq as ->.
  - destruct Hm as (_ & _ & Hsub & _). by apply Hsub.
Qed.

Lemma dumped_init s dn k : Forall (reply_ok s) dn → inside k = true → dumped dn k → init k ≠ None.
Proof.
  intros Hf Hk [b Hb]. rewrite Forall_forall in Hf. destruct (Hf _ Hb k Hk) as [Hd _].
  destruct (Hd eq_refl) as [[? _]|(v & -> & _)]; done.
Qed.

Lemma stage_hand_init s keys m k : stage_ok s keys m → stage_hand m k → init k ≠ None.
Proof.
  intros Hm Hh. assert (inside k = true) as Hk.
  { pose proof (stage_hand_keys _ _ _ _ Hm Hh) as Hin. destruct Hm as [Hf _]. rewrite Forall_forall in Hf. by apply Hf. }
  destruct Hm as [_ Hm]. destruct m as [keys' dn todo|entries dn todo|]; [| |done].
  - destruct Hm as (_ & _ & Hf). by eapply dumped_init.
  - destruct Hm as (_ & He & _). cbn in Hh. apply list_elem_of_fmap in Hh as (e & -> & Hin).
    rewrite Forall_forall in He. destruct (He e Hin) as (_ & v & -> & _). done.
Qed.

Lemma task_hand_init s t tk k : task_ok s t tk → task_hand tk k → init k ≠ None.
Proof.
  intros (Hin & _ & _ & Hp) Hh. unfold task_hand, pc_ok in *.
  destruct (tk_pc tk) as [| |dn todo|e| |sy|]; try done.
  - destruct Hh as [-> Hd]. destruct Hp as (_ & _ & _ & Hf). by eapply dumped_init.
  - destruct Hp as (_ & _ & (_ & v & Hv & _) & He). congruence.
  - destruct sy as [|m| |]; try done. destruct Hp as (_ & _ & Hm). by eapply stage_hand_init.
Qed.

Lemma hand_init s k : linear s → hand s k → init k ≠ None.
Proof.
  intros Hl [(t & tk & Ht & Hh)|Hh].
  - eapply task_hand_init; [|done]. by apply (li_tasks s Hl).
  - pose proof (li_scan s Hl) as Hs. unfold scan_ok in Hs. destruct (tr_scan s) as [| | |i n r sl m|i ts m|]; try done.
    + destruct Hs as (ks & locked & _ & _ & _ & _ & Hm). by eapply stage_hand_init.
    + destruct Hs as [_ Hm]. by eapply stage_hand_init.
Qed.

(** A key that has left the source is at the destination, or nowhere. *)
Lemma gone_ready s k : linear s → inside k = true → gone s k → ready s k.
Proof.
  intros Hl Hk Hg. destruct (li_src s Hl k Hk) as [Hi|[_ ?]]; [|done]. right. split; [done|].
  intros Hh%hand_init; [|done]. unfold gone in Hg. congruence.
Qed.

Lemma lock_of_inj k k' : lock_of k = lock_of k' → k = k'.
Proof. by intros [= _ ?]. Qed.

Lemma task_hand_locked s t tk k : task_ok s t tk → task_hand tk k → k = tk_key tk ∧ key_locked s t k.
Proof.
  intros (_ & _ & _ & Hp) Hh. unfold task_hand, pc_ok in *. destruct (tk_pc tk) as [| |dn todo|e| |sy|]; try done.
  - destruct Hh as [-> _]. by destruct Hp as (_ & ? & _).
  - subst k. by destruct Hp as (_ & ? & _).
  - destruct sy as [|m| |]; try done. destruct Hp as (Hl & _ & Hm).
    apply (stage_hand_keys _ _ _ _ Hm), list_elem_of_singleton in Hh. by subst.
Qed.

(** The holder of the lock of a key is the only task that can hold its data. *)
Lemma exclusive_task s t k t' tk' :
  linear s → key_locked s t k → tr_tasks s !! t' = Some tk' → task_hand tk' k → t' = t.
Proof.
  intros Hl Hk Ht Hh. destruct (task_hand_locked s t' tk' k) as [_ Hk']; [by apply (li_tasks s Hl)|done|].
  unfold key_locked in *. congruence.
Qed.

Lemma elem_of_task_keys s ts k :
  k ∈ task_keys range ts s ↔ inside k = true ∧ ∃ t tk, t ∈ ts ∧ tr_tasks s !! t = Some tk ∧ tk_key tk = k.
Proof.
  unfold task_keys. rewrite list_elem_of_filter, list_elem_of_omap. split.
  - intros [Hk (t & Ht & Htk)]. split; [done|]. apply fmap_Some in Htk as (tk & ? & ->). eauto.
  - intros [Hk (t & tk & Hin & Ht & <-)]. split; [done|]. exists t. split; [done|]. by rewrite Ht.
Qed.

Lemma exclusive_scan s t k :
  linear s → key_locked s t k → slot_locked s (HeldBySync t) k → ¬ queued s t → ¬ scan_hand (tr_scan s) k.
Proof.
  intros Hl Hk Hslot Hq Hh. pose proof (li_scan s Hl) as Hs. unfold scan_ok in Hs.
  destruct (tr_scan s) as [| | |i n r sl m|i ts m|] eqn:Hsc; try done.
  - destruct Hs as (ks & locked & _ & _ & Hlo & _ & Hm). pose proof (stage_hand_keys _ _ _ _ Hm Hh) as Hin.
    rewrite Forall_forall in Hlo. specialize (Hlo k Hin). unfold slot_locked in *. congruence.
  - destruct Hs as [_ Hm]. pose proof (stage_hand_keys _ _ _ _ Hm Hh) as Hin.
    apply elem_of_task_keys in Hin as (_ & t' & tk & Hin & Htk & <-).
    destruct (li_queue s Hl) as [_ Hf]. rewrite Hsc in Hf. apply Forall_app in Hf as [_ Hf].
    rewrite Forall_forall in Hf. pose proof (Hf t' Hin) as Hqt. destruct Hqt as (tk' & Htk' & Hpc).
    assert (key_locked s t' (tk_key tk)) as Hk'.
    { destruct (li_tasks s Hl t' tk Htk) as (_ & _ & _ & Hp). unfold pc_ok in Hp. replace tk' with tk in Hpc by congruence.
      rewrite Hpc in Hp. by destruct Hp. }
    assert (t' = t) as -> by (unfold key_locked in *; congruence). by apply Hq, Hf.
Qed.

(** ** Effects on the nodes *)

Definition no_new_hand s s' : Prop := ∀ k, inside k = true → hand s' k → hand s k ∨ ¬ gone s k.
Definition same_current s s' : Prop := ∀ k, inside k = true → current s' k = current s k.

Lemma quiet_step s s' :
  (tr_src s' = tr_src s ∨ ∃ c, tr_src s' = (node_exec c (tr_src s)).1) →
  (∀ k, inside k = true → node_get (tr_src s') k = node_get (tr_src s) k) →
  (∀ k, inside k = true → node_get (tr_dst s') k = node_get (tr_dst s) k) →
  no_new_hand s s' → evolves s s' ∧ same_current s s'.
Proof.
  intros Hsrc Hs Hd Hh. split.
  - split; [done|by left; auto|done|]. intros k Hk Hp. left. unfold present in *. by rewrite Hd.
  - intros k Hk. unfold current. by rewrite Hd, Hs.
Qed.

Lemma delete_step s s' ks :
  ks ≠ [] → Forall (ready s) ks → tr_src s' = (node_exec (command_value (del_cmd ks)) (tr_src s)).1 →
  tr_dst s' = tr_dst s → no_new_hand s s' →
  evolves s s' ∧ same_current s s' ∧ Forall (gone s') ks.
Proof.
  intros Hne Hr Hs Hd Hh. destruct (exec_del (tr_src s) ks Hne) as (n' & num & He & Hget).
  unfold del_cmd in Hs. rewrite He in Hs. cbn in Hs. rewrite Forall_forall in Hr.
  assert (∀ k, node_get (tr_src s') k = node_get (tr_src s) k ∨ (gone s' k ∧ ready s k)) as Hg.
  { intros k. unfold gone. rewrite Hs, Hget. case_bool_decide; [right|by left]. by auto. }
  split_and!.
  - split; [|by auto|done|].
    + right. exists (command_value (bytes_of "DEL" :: ks)). by rewrite He.
    + intros k Hk Hp. left. unfold present in *. by rewrite Hd.
  - intros k Hk. unfold current. rewrite Hd. destruct (node_get (tr_dst s) k) eqn:Hdk; [done|].
    destruct (Hg k) as [->|[Hgk [Hp|[Hs' _]]]]; [done|done|]. unfold gone in *. congruence.
  - apply Forall_forall. intros k Hk. unfold gone. by rewrite Hs, Hget, bool_decide_eq_true_2.
Qed.

Lemma entry_restore e v :
  init (de_key e) = Some v → de_pttl e = pttl_text v.2 → (∀ ms, v.2 = Some ms → (ms ≤ i64_max)%N) →
  pttl_to_restore_expire_time (de_pttl e) = expire_text v.2.
Proof. intros _ -> Hv. by apply expire_kept. Qed.

(** The initial values can be moved: no key has zero milliseconds left. *)
Definition movable : Prop :=
  ∀ k v, inside k = true → init k = Some v → v.2 ≠ Some 0%N ∧ ∀ ms, v.2 = Some ms → (ms ≤ i64_max)%N.

Lemma restore_step s s' e r :
  movable → linear s → entry_ok e → hand s (de_key e) →
  node_exec (command_value (restore_cmd e)) (tr_dst s) = (tr_dst s', r) → tr_src s' = tr_src s → no_new_hand s s' →
  evolves s s' ∧ same_current s s' ∧ present s' (de_key e) ∧ restore_accepted r = true ∧
  ∀ err, r = Error err → is_busykey err = true.
Proof.
  intros Hmov Hl (Hin & v & Hv & Hpt & Hraw) Hhand Hx Hsrc Hh. set (k := de_key e) in *.
  destruct (Hmov k v Hin Hv) as [Hnz Hms]. unfold restore_cmd in Hx. fold k in Hx.
  rewrite (entry_restore e v Hv Hpt Hms), Hraw in Hx.
  destruct (node_get (tr_dst s) k) as [w|] eqn:Hk.
  - destruct (exec_restore_busy (tr_dst s) k (expire_text v.2) (serialize v.1)) as (n' & msg & Hsame & Hx'); [congruence|].
    rewrite Hx' in Hx. injection Hx as Hdst <-.
    destruct (quiet_step s s') as [He Hc]; [by left|by rewrite Hsrc|intros k' _; by rewrite <-Hdst|done|].
    split_and!; [done..| | |].
    + unfold present. rewrite <-Hdst, Hsame. congruence.
    + apply busykey_prefix.
    + intros err [= <-]. apply busykey_prefix.
  - destruct (exec_restore_new (tr_dst s) k v.1 v.2 Hk Hnz Hms) as (n' & Hx' & Hget & Hother).
    rewrite Hx' in Hx. injection Hx as Hdst <-. rewrite <-surjective_pairing in Hget.
    assert (node_get (tr_src s) k = Some v) as Hsk.
    { destruct (li_src s Hl k Hin) as [->|[_ [Hp|[_ Hno]]]]; [done|by destruct (Hp Hk)|done]. }
    split_and!; [| | |done|done].
    + split; [by left|intros k' _; left; by rewrite Hsrc|done|]. intros k' _ Hp. left. unfold present in *.
      rewrite <-Hdst. destruct (decide (k' = k)) as [->|Hne]; [by rewrite Hget|by rewrite Hother].
    + intros k' Hk'. unfold current. rewrite <-Hdst, Hsrc. destruct (decide (k' = k)) as [->|Hne].
      * by rewrite Hget, Hk.
      * by rewrite Hother.
    + unfold present. by rewrite <-Hdst, Hget.
Qed.

(** ** Moving keys *)

Lemma produced_ok s keys : ∀ dn es,
  Forall (λ k, inside k = true) keys → dn.*1 = produce_cmds keys → Forall (reply_ok s) dn →
  entries_loop keys dn.*2 = Ok es →
  Forall entry_ok es ∧ (de_key <$> es) ⊆ keys ∧ (∀ k, k ∈ keys → k ∈ de_key <$> es ∨ gone s k) ∧
  ∀ k, k ∈ de_key <$> es → dumped dn k.
Proof.
  induction keys as [|key keys IH]; intros dn es Hin Hc Hf Hes.
  { injection Hes as <-. split_and!; [done|done|by intros k ?%not_elem_of_nil|by intros k ?%not_elem_of_nil]. }
  destruct dn as [|[c1 r1] [|[c2 r2] dn]]; try done. cbn in Hc. injection Hc as -> -> Hc.
  apply Forall_cons in Hin as [Hk Hin]. apply Forall_cons in Hf as [Hr1 Hf]. apply Forall_cons in Hf as [Hr2 Hf].
  destruct (Hr1 key Hk) as [_ Hp]. specialize (Hp eq_refl). destruct (Hr2 key Hk) as [Hd _]. specialize (Hd eq_refl).
  cbn [fst snd] in Hp, Hd. cbn [fmap list_fmap snd entries_loop] in Hes.
  assert (∀ es', entries_loop keys dn.*2 = Ok es' → gone s key → es = es' →
    Forall entry_ok es ∧ (de_key <$> es) ⊆ key :: keys ∧ (∀ k, k ∈ key :: keys → k ∈ de_key <$> es ∨ gone s k) ∧
    ∀ k, k ∈ de_key <$> es → dumped ((pttl_cmd key, r1) :: (dump_cmd key, r2) :: dn) k) as Hgone.
  { intros es' Hl Hg ->. destruct (IH dn es' Hin Hc Hf Hl) as (He & Hsub & Hg' & Hdu). split_and!; [done| | |].
    - intros k ?%Hsub. by right.
    - intros k [->|?]%elem_of_cons; [by right|by apply Hg'].
    - intros k (b & Hb)%Hdu. exists b. by do 2 right. }
  destruct Hp as [[-> Hg]|(v & Hv & ->)].
  { cbn in Hes. rewrite bool_decide_eq_true_2 in Hes by done. destruct Hd as [[-> _]|(v & _ & ->)]; by eapply Hgone. }
  cbn -[pttl_text] in Hes. rewrite bool_decide_eq_false_2 in Hes by apply pttl_text_found.
  destruct Hd as [[-> Hg]|(v' & Hv' & ->)]; [by eapply Hgone|]. cbn -[pttl_text] in Hes.
  destruct (entries_loop keys dn.*2) as [es'| |] eqn:Hl; [|done..]. injection Hes as <-.
  destruct (IH dn es' Hin Hc Hf Hl) as (He & Hsub & Hg' & Hdu). split_and!.
  - constructor; [|done]. split; [done|]. exists v. cbn. replace v' with v by congruence. done.
  - intros k [->|?%Hsub]%elem_of_cons; [by left|by right].
  - intros k [->|[?|?]%Hg']%elem_of_cons; [left; by left|left; by right|by right].
  - intros k [->|(b & Hb)%Hdu]%elem_of_cons.
    + eexists. right. by left.
    + exists b. by do 2 right.
Qed.

Definition progress_hand (p : progress) k : Prop := match p with Moving m => stage_hand m k | _ => False end.
Definition progress_ok s keys (p : progress) : Prop :=
  match p with Moving m => stage_ok s keys m | MoveDone => Forall (gone s) keys | MoveFailed => True end.

Lemma src_value s k v : linear s → inside k = true → node_get (tr_src s) k = Some v → init k = Some v.
Proof. intros Hl Hk Hv. destruct (li_src s Hl k Hk) as [<-|[Hg _]]; [done|]. unfold gone in Hg. congruence. Qed.

(** A [DUMP] or a [PTTL] of a key. *)
Lemma fetch_reply s s' c k r :
  linear s → inside k = true → c = pttl_cmd k ∨ c = dump_cmd k →
  node_exec (command_value c) (tr_src s) = (tr_src s', r) →
  same_data (tr_src s) (tr_src s') ∧ (evolves s s' → reply_ok s' (c, r)) ∧
  ∀ k' b, (c, r) = (dump_cmd k', Bulk (Str b)) → ¬ gone s k'.
Proof.
  intros Hl Hk Hc Hx. destruct Hc as [->| ->].
  - destruct (exec_pttl (tr_src s) k) as (n' & Hsame & Hx'). unfold pttl_cmd in Hx. rewrite Hx' in Hx.
    injection Hx as <- <-. split_and!; [done| |by intros k' b [= ?]]. intros He k' Hk'. cbn [fst snd]. split; [done|].
    intros [= <-]. destruct (node_get (tr_src s) k) as [v|] eqn:Hv.
    + right. exists v. by rewrite (src_value s k v).
    + left. split; [done|]. by apply (evolves_gone s).
  - destruct (exec_dump (tr_src s) k) as (n' & Hsame & Hx'). unfold dump_cmd in Hx. rewrite Hx' in Hx.
    injection Hx as <- <-. split_and!; [done| |].
    + intros He k' Hk'. cbn [fst snd]. split; [|done]. intros [= <-].
      destruct (node_get (tr_src s) k) as [v|] eqn:Hv.
      * right. exists v. by rewrite (src_value s k v).
      * left. split; [done|]. by apply (evolves_gone s).
    + intros k' b [= -> Hb] Hg. unfold gone in Hg. by rewrite Hg in Hb.
Qed.

Section move.
Context (Hmov : movable) (s s' : Transfer) (keys : list bytes) (Hl : linear s).

Lemma move_dumping keys' dn c todo r :
  stage_ok s keys (Dumping keys' dn (c :: todo)) → (∀ k, dumped dn k → hand s k) →
  node_exec (command_value c) (tr_src s) = (tr_src s', r) → tr_dst s' = tr_dst s →
  (∀ k, inside k = true → hand s' k → hand s k ∨ dumped (dn ++ [(c, r)]) k) →
  evolves s s' ∧ same_current s s' ∧ stage_ok s' keys (Dumping keys' (dn ++ [(c, r)]) todo).
Proof.
  intros [Hin (-> & Hc & Hf)] Hhand Hx Hdst Hh.
  assert (c ∈ produce_cmds keys) as Hcin by (rewrite <-Hc; apply elem_of_app; right; by left).
  apply elem_of_produce_cmds in Hcin as (k & Hk & Hck).
  assert (inside k = true) as Hik by (rewrite Forall_forall in Hin; by apply Hin).
  destruct (fetch_reply s s' c k r Hl Hik Hck Hx) as (Hsame & Hrep & Hnew).
  destruct (quiet_step s s') as [He Hcur].
  - right. exists (command_value c). by rewrite Hx.
  - intros k' _. apply Hsame.
  - intros k' _. by rewrite Hdst.
  - intros k' Hk' Hh'. destruct (Hh k' Hk' Hh') as [?|[b Hb]]; [by left|].
    apply elem_of_app in Hb as [Hb|Hb]; [left; apply Hhand; by exists b|right].
    apply list_elem_of_singleton in Hb. by eapply Hnew.
  - split_and!; [done..|]. split; [done|]. split_and!; [done| |].
    + rewrite fmap_app, <-app_assoc. exact Hc.
    + apply Forall_app. split; [by eapply replies_ok_mono|]. constructor; [by apply Hrep|constructor].
Qed.

Lemma still_step : tr_src s' = tr_src s → tr_dst s' = tr_dst s →
  (∀ k, inside k = true → hand s' k → hand s k) → evolves s s' ∧ same_current s s'.
Proof.
  intros Hs Hd Hh. apply quiet_step; [by left|by rewrite Hs|by rewrite Hd|]. intros k Hk Hk'. left. by apply Hh.
Qed.

Lemma move_produced keys' dn es :
  stage_ok s keys (Dumping keys' dn []) → evolves s s' → produce_entries keys' dn.*2 = Ok es →
  (∀ k, k ∈ de_key <$> es → dumped dn k) ∧
  progress_ok s' keys (match es with [] => MoveDone | _ => Moving (Restoring es [] (restore_cmd <$> es)) end).
Proof.
  intros [Hin (-> & Hc & Hf)] He Hes. rewrite app_nil_r in Hc. unfold produce_entries in Hes.
  case_bool_decide; [done|]. destruct (produced_ok s keys dn es Hin Hc Hf Hes) as (Hok & Hsub & Hg & Hd).
  split; [done|]. assert (∀ k, k ∈ keys → k ∈ de_key <$> es ∨ gone s' k) as Hg'.
  { intros k Hk. destruct (Hg k Hk) as [?|?]; [by left|right]. eapply evolves_gone; [done| |done].
    rewrite Forall_forall in Hin. by apply Hin. }
  destruct es as [|e es].
  - apply Forall_forall. intros k Hk. destruct (Hg' k Hk) as [Hn|?]; [by apply not_elem_of_nil in Hn|done].
  - split; [done|]. by split_and!.
Qed.

Lemma restore_cmd_key e e' : restore_cmd e = restore_cmd e' → de_key e = de_key e'.
Proof. by intros [= ? _ _]. Qed.

Lemma move_restoring es dn c todo r :
  stage_ok s keys (Restoring es dn (c :: todo)) → (∀ k, k ∈ de_key <$> es → hand s k) →
  node_exec (command_value c) (tr_dst s) = (tr_dst s', r) → tr_src s' = tr_src s →
  (∀ k, inside k = true → hand s' k → hand s k ∨ k ∈ de_key <$> es) →
  evolves s s' ∧ same_current s s' ∧ stage_ok s' keys (Restoring es (dn ++ [(c, r)]) todo).
Proof.
  intros Hst Hhand Hx Hsrc Hh. pose proof Hst as [Hin (Hne & Hok & Hsub & Hg & Hc & Hd)].
  assert (∃ e, c = restore_cmd e ∧ e ∈ es) as (e & -> & Hine).
  { apply list_elem_of_fmap. rewrite <-Hc. apply elem_of_app. right. by left. }
  rewrite Forall_forall in Hok. assert (de_key e ∈ de_key <$> es) as Hek by by apply list_elem_of_fmap_2.
  destruct (restore_step s s' e r Hmov Hl (Hok e Hine) (Hhand _ Hek) Hx Hsrc) as (He & Hcur & Hp & _).
  { intros k Hk Hk'. left. destruct (Hh k Hk Hk'); auto. }
  split_and!; [done..|]. destruct (stage_ok_mono s s' keys _ He Hst) as [_ (_ & Hok' & _ & Hg' & _ & Hd')].
  split; [done|]. split_and!; try done.
  - rewrite fmap_app, <-app_assoc. exact Hc.
  - apply Forall_app. split; [done|]. constructor; [|constructor]. cbn. intros e' _ Heq%restore_cmd_key.
    left. by rewrite <-Heq.
Qed.

Lemma move_restored es dn :
  stage_ok s keys (Restoring es dn []) → evolves s s' → stage_ok s' keys (Deleting (de_key <$> es) None).
Proof.
  intros Hst He. destruct (stage_ok_mono s s' keys _ He Hst) as [Hin (Hne & Hok & Hsub & Hg & Hc & Hd)].
  rewrite app_nil_r in Hc. split; [done|]. split_and!; [by destruct es|done| |].
  - apply Forall_forall. intros k (e & -> & Hine)%list_elem_of_fmap.
    assert (restore_cmd e ∈ dn.*1) as Hcin by (rewrite Hc; by apply list_elem_of_fmap_2).
    apply list_elem_of_fmap in Hcin as (cr & Heq & Hcr). rewrite Forall_forall in Hd. by apply (Hd cr Hcr e).
  - intros k Hk. destruct (Hg k Hk); auto.
Qed.

Lemma restart es dn todo :
  stage_ok s keys (Restoring es dn todo) → evolves s s' → stage_ok s' keys (Restoring es [] (restore_cmd <$> es)).
Proof.
  intros Hst He. destruct (stage_ok_mono s s' keys _ He Hst) as [Hin (Hne & Hok & Hsub & Hg & Hc & Hd)].
  split; [done|]. by split_and!.
Qed.

Lemma move_deleting keys' r :
  stage_ok s keys (Deleting keys' None) →
  node_exec (command_value (del_cmd keys')) (tr_src s) = (tr_src s', r) → tr_dst s' = tr_dst s →
  (∀ k, inside k = true → hand s' k → hand s k) →
  evolves s s' ∧ same_current s s' ∧ stage_ok s' keys (Deleting keys' (Some r)).
Proof.
  intros Hst Hx Hdst Hh. pose proof Hst as [Hin (Hne & Hsub & Hr & Hg)].
  destruct (delete_step s s' keys' Hne Hr) as (He & Hcur & Hgone); [by rewrite Hx|done|by left; auto|].
  split_and!; [done..|]. destruct (stage_ok_mono s s' keys _ He Hst) as [_ (_ & _ & Hr' & Hg')].
  split; [done|]. split_and!; [done..|]. intros k Hk. right. destruct (Hg' k Hk) as [[Hk' _]|?]; [|done].
  rewrite Forall_forall in Hgone. by apply Hgone.
Qed.

Lemma move_step_ok m p :
  stage_ok s keys m → (∀ k, stage_hand m k → hand s k) →
  move_step m (tr_src s) (tr_dst s) = (p, (tr_src s', tr_dst s')) →
  (∀ k, inside k = true → hand s' k → hand s k ∨ progress_hand p k) →
  evolves s s' ∧ same_current s s' ∧ progress_ok s' keys p.
Proof.
  intros Hst Hhand Hx Hh.
  destruct m as [keys' dn [|c todo]|es dn [|c todo]|keys' [r|]]; cbn [move_step] in Hx.
  - injection Hx as <- Hs Hd. destruct (produce_entries keys' dn.*2) as [es| |] eqn:Hes.
    + assert (∀ k, k ∈ de_key <$> es → dumped dn k) as Hdu.
      { pose proof Hst as [Hin (-> & Hc & Hf)]. rewrite app_nil_r in Hc. unfold produce_entries in Hes.
        case_bool_decide; [done|]. by destruct (produced_ok s keys dn es Hin Hc Hf Hes) as (_ & _ & _ & ?). }
      destruct still_step as [He Hcur]; [done..| |].
      { intros k Hk Hk'. destruct (Hh k Hk Hk') as [?|Hp]; [done|]. apply Hhand, Hdu. by destruct es. }
      split_and!; [done..|]. by apply (move_produced keys' dn es).
    + destruct still_step as [He Hcur]; [done..| |]; [|done]. intros k Hk Hk'. by destruct (Hh k Hk Hk').
    + destruct still_step as [He Hcur]; [done..| |]; [|done]. intros k Hk Hk'. by destruct (Hh k Hk Hk').
  - destruct (node_exec (command_value c) (tr_src s)) as [n r] eqn:Hn. injection Hx as <- -> Hd.
    by eapply move_dumping.
  - injection Hx as <- Hs Hd. destruct still_step as [He Hcur]; [done..| |].
    { intros k Hk Hk'. destruct (Hh k Hk Hk') as [?|Hp]; [done|].
      destruct (forward_replies dn.*2); try done; by apply Hhand. }
    split_and!; [done..|]. pose proof (move_restored es dn Hst He). pose proof (restart es dn [] Hst He).
    cbn. by destruct (forward_replies dn.*2).
  - destruct (node_exec (command_value c) (tr_dst s)) as [n r] eqn:Hn. injection Hx as <- Hs ->.
    by eapply move_restoring.
  - injection Hx as <- Hs Hd. destruct still_step as [He Hcur]; [done..| |].
    { intros k Hk Hk'. destruct (Hh k Hk Hk') as [?|Hp]; [done|]. by destruct (delete_keys r) as [[]| |]. }
    split_and!; [done..|]. destruct (stage_ok_mono s s' keys _ He Hst) as [Hin (_ & _ & _ & Hg)].
    destruct (delete_keys r) as [[]| |]; [|done..]. apply Forall_forall. intros k Hk. by destruct (Hg k Hk) as [[_ ?]|?].
  - destruct (node_exec (command_value (del_cmd keys')) (tr_src s)) as [n r] eqn:Hn. injection Hx as <- -> Hd.
    eapply move_deleting; [done..|]. intros k Hk Hk'. by destruct (Hh k Hk Hk').
Qed.
End move.

Lemma move_fail_ok s s' keys m p l :
  stage_ok s keys m → move_fail m = (p, l) → evolves s s' →
  progress_ok s' keys p ∧ (∀ k, progress_hand p k → stage_hand m k) ∧
  Forall (λ ks, ks ≠ [] ∧ Forall (λ k, inside k = true ∧ ready s' k) ks) l.
Proof.
  intros Hst Hx He. destruct m as [keys' dn todo|es dn todo|keys' [r|]]; injection Hx as <- <-; try done.
  - split_and!; [|done|done]. by apply (restart s s' keys es dn todo).
  - split_and!; [done..|]. constructor; [|constructor].
    destruct (stage_ok_mono s s' keys _ He Hst) as [Hin (Hne & Hsub & Hr & _)]. split; [done|].
    rewrite Forall_forall in Hr, Hin |- *. intros k Hk. by auto.
Qed.

(** ** What a step leaves alone *)

Lemma task_ok_mono s s' t tk :
  evolves s s' → (key_locked s t (tk_key tk) → key_locked s' t (tk_key tk)) →
  (slot_locked s (HeldBySync t) (tk_key tk) → slot_locked s' (HeldBySync t) (tk_key tk)) →
  task_ok s t tk → task_ok s' t tk.
Proof.
  intros He Hk Hs (Hin & Hc & Hw & Hp). split_and!; [done..|]. unfold pc_ok in *.
  destruct (tk_pc tk) as [| |dn todo|e| |sy|]; try done.
  - destruct Hp as [? [?|[? ?]]]; (split; [done|]); [by left|right]. split; [done|]. by eapply evolves_ready.
  - destruct Hp as (? & ? & ? & ?). split_and!; [done|by auto|done|]. by eapply replies_ok_mono.
  - destruct Hp as (? & ? & ? & ?). split_and!; [done|by apply Hk|done|done].
  - destruct Hp as [Hkl Hsy]. split; [by auto|]. destruct sy as [|m| |r]; try done.
    + destruct Hsy. split; [by auto|]. by eapply stage_ok_mono.
    + intros Hr. by eapply evolves_settled; [| |apply Hsy].
  - destruct Hp as [? Hb]. split; [by eapply evolves_ready|]. intros Hbl. by eapply evolves_settled; [| |apply Hb].
Qed.

Lemma strays_mono s s' l :
  evolves s s' → Forall (λ ks, ks ≠ [] ∧ Forall (λ k, inside k = true ∧ ready s k) ks) l →
  Forall (λ ks, ks ≠ [] ∧ Forall (λ k, inside k = true ∧ ready s' k) ks) l.
Proof.
  intros He Hf. eapply Forall_impl; [exact Hf|]. intros ks [? Hks]. split; [done|].
  eapply Forall_impl; [exact Hks|]. intros k [? ?]. split; [done|]. by eapply evolves_ready.
Qed.

Lemma task_keys_ext s s' ts :
  (∀ t, t ∈ ts → tr_tasks s' !! t = tr_tasks s !! t) → task_keys range ts s' = task_keys range ts s.
Proof.
  intros Hts. unfold task_keys. f_equal. induction ts as [|t ts IH]; [done|]. cbn.
  rewrite Hts by by left. rewrite IH; [done|]. intros t' Ht'. apply Hts. by right.
Qed.

Lemma scan_ok_mono s s' :
  evolves s s' → tr_scan s' = tr_scan s → tr_queue s' = tr_queue s ∨ tr_scan s ≠ ScanFinished →
  (∀ slot, tr_slot_mutex s !! slot = Some HeldByScan → tr_slot_mutex s' !! slot = Some HeldByScan) →
  (∀ t, t ∈ batch (tr_scan s) → tr_tasks s' !! t = tr_tasks s !! t) →
  scan_ok s → scan_ok s'.
Proof.
  intros He Hsc Hq Hsl Hb Hs. unfold scan_ok in *. rewrite Hsc.
  assert (∀ l, Forall (slot_locked s HeldByScan) l → Forall (slot_locked s' HeldByScan) l) as Hlocked.
  { intros l Hf. eapply Forall_impl; [exact Hf|]. intros k. apply Hsl. }
  assert (∀ l, Forall (λ slot, tr_slot_mutex s !! slot = Some HeldByScan) l →
    Forall (λ slot, tr_slot_mutex s' !! slot = Some HeldByScan) l) as Hslots.
  { intros l Hf. eapply Forall_impl; [exact Hf|]. auto. }
  destruct (tr_scan s) as [index|index r|index next keys todo locked slots|index next nr slots m|index ts m|].
  - by eapply unlisted_mono.
  - destruct Hs as (next & ks & ? & ? & ?). exists next, ks. split_and!; [done..|by eapply listed_mono].
  - destruct Hs as ((ks & ? & ?) & ? & ? & ?).
    split_and!; [exists ks; split; [done|by eapply listed_mono]|done|by apply Hlocked|by apply Hslots].
  - destruct Hs as (ks & locked & ? & ? & ? & ? & ?). exists ks, locked.
    split_and!; [by eapply listed_mono|done|by apply Hlocked|by apply Hslots|by eapply stage_ok_mono].
  - destruct Hs as [? ?]. split; [by eapply unlisted_mono|]. rewrite (task_keys_ext s s') by done.
    by eapply stage_ok_mono.
  - destruct Hs as [Hnil Hg]. destruct Hq as [->|]; [|done]. split; [done|]. intros k Hk.
    by eapply evolves_gone; [| |apply Hg].
Qed.

Lemma frame s s' (T : list nat) :
  linear s → evolves s s' →
  (∀ t, t ∉ T → tr_tasks s' !! t = tr_tasks s !! t) →
  (∀ t tk, t ∈ T → tr_tasks s' !! t = Some tk → task_ok s' t tk) →
  (∀ t k, t ∉ T → key_locked s t k → key_locked s' t k) →
  (∀ t k, t ∉ T → slot_locked s (HeldBySync t) k → slot_locked s' (HeldBySync t) k) →
  map_Forall (cleaner_ok s') (tr_cleaners s') →
  NoDup (tr_queue s' ++ batch (tr_scan s')) ∧ Forall (queued s') (tr_queue s' ++ batch (tr_scan s')) →
  scan_ok s' →
  Forall (λ ks, ks ≠ [] ∧ Forall (λ k, inside k = true ∧ ready s' k) ks) (tr_strays s') →
  (legal init (tr_log s') ∧ ∀ k, inside k = true → current s' k = final (tr_log s') k) →
  linear s'.
Proof.
  intros Hl He Ht HT Hk Hs Hcl Hq Hsc Hst Hlog. split; try done.
  - intros k Hin. destruct (ev_gone _ _ He k Hin) as [Heq|[Hg Hr]].
    + unfold gone. rewrite Heq. destruct (li_src s Hl k Hin) as [?|[? ?]]; [by left|right].
      split; [done|]. by eapply evolves_ready.
    + right. split; [done|]. by eapply evolves_ready.
  - intros t tk Htk. destruct (decide (t ∈ T)) as [HtT|HtT]; [by apply HT|]. rewrite Ht in Htk by done.
    eapply task_ok_mono; [done|by auto..|]. by apply (li_tasks s Hl).
Qed.

Lemma hand_tasks s s' t k :
  (∀ t', t' ≠ t → tr_tasks s' !! t' = tr_tasks s !! t') → tr_scan s' = tr_scan s → hand s' k →
  hand s k ∨ ∃ tk, tr_tasks s' !! t = Some tk ∧ task_hand tk k.
Proof.
  intros Ht Hs [(t' & tk & Htk & Hh)|Hh].
  - destruct (decide (t' = t)) as [->|Hne]; [right; eauto|]. left. left. rewrite Ht in Htk by done. eauto.
  - left. right. by rewrite <-Hs.
Qed.

Lemma cleaners_kept s s' t tk :
  linear s → evolves s s' → tr_cleaners s' = tr_cleaners s →
  (∀ t', t' ≠ t → tr_tasks s' !! t' = tr_tasks s !! t') →
  (∀ t' k, t' ≠ t → key_locked s t' k → key_locked s' t' k) →
  tr_tasks s !! t = Some tk →
  tk_pc tk ≠ Forwarded ∨ (tr_tasks s' !! t = None ∧ ∀ k, key_locked s t k → key_locked s' t k) →
  map_Forall (cleaner_ok s') (tr_cleaners s').
Proof.
  intros Hl He Hcl Ht Hk Htk Hpc t' kc Hkc. rewrite Hcl in Hkc.
  destruct (li_cleaners s Hl t' kc Hkc) as (Hin & Hr & Hlo & Hf).
  destruct (decide (t' = t)) as [->|Hne].
  - destruct Hpc as [Hpc|[Hnone Hkl]]; [by destruct (Hpc (Hf tk Htk))|].
    split_and!; [done|by eapply evolves_ready|by eauto|]. intros tk'. by rewrite Hnone.
  - split_and!; [done|by eapply evolves_ready|by eauto|]. intros tk'. rewrite Ht by done. apply Hf.
Qed.

Lemma queue_kept s s' t tk :
  linear s → tr_tasks s !! t = Some tk → tk_pc tk ≠ Syncing SyncQueued →
  (∀ t', t' ≠ t → tr_tasks s' !! t' = tr_tasks s !! t') → tr_queue s' = tr_queue s → tr_scan s' = tr_scan s →
  (NoDup (tr_queue s' ++ batch (tr_scan s')) ∧ Forall (queued s') (tr_queue s' ++ batch (tr_scan s'))) ∧
  ∀ t', t' ∈ batch (tr_scan s) → tr_tasks s' !! t' = tr_tasks s !! t'.
Proof.
  intros Hl Htk Hpc Ht Hq Hs. destruct (li_queue s Hl) as [Hnd Hf]. rewrite Forall_forall in Hf.
  assert (∀ t', t' ∈ tr_queue s ++ batch (tr_scan s) → t' ≠ t) as Hne.
  { intros t' Hin ->. destruct (Hf t Hin) as (tk' & Htk' & Hpc'). replace tk' with tk in Hpc' by congruence. done. }
  rewrite Hq, Hs. split_and!; [done| |].
  - apply Forall_forall. intros t' Hin. destruct (Hf t' Hin) as (tk' & ? & ?). exists tk'. by rewrite Ht by auto.
  - intros t' Hin. apply Ht, Hne. apply elem_of_app. by right.
Qed.

Lemma task_frame s s' t tk :
  linear s → tr_tasks s !! t = Some tk → tk_pc tk ≠ Syncing SyncQueued →
  evolves s s' →
  (∀ t', t' ≠ t → tr_tasks s' !! t' = tr_tasks s !! t') →
  (∀ tk', tr_tasks s' !! t = Some tk' → task_ok s' t tk') →
  (∀ t' k, t' ≠ t → key_locked s t' k → key_locked s' t' k) →
  (∀ slot h, tr_slot_mutex s !! slot = Some h → h ≠ HeldBySync t → tr_slot_mutex s' !! slot = Some h) →
  map_Forall (cleaner_ok s') (tr_cleaners s') →
  tr_queue s' = tr_queue s → tr_scan s' = tr_scan s →
  Forall (λ ks, ks ≠ [] ∧ Forall (λ k, inside k = true ∧ ready s' k) ks) (tr_strays s') →
  (legal init (tr_log s') ∧ ∀ k, inside k = true → current s' k = final (tr_log s') k) →
  linear s'.
Proof.
  intros Hl Htk Hpc He Ht Hok Hk Hsl Hcl Hq Hsc Hst Hlog.
  destruct (queue_kept s s' t tk Hl Htk Hpc Ht Hq Hsc) as [Hqueue Hbatch].
  eapply (frame s s' [t]); try done.
  - intros t' Hn. apply Ht. by rewrite list_elem_of_singleton in Hn.
  - intros t' tk' ->%list_elem_of_singleton. apply Hok.
  - intros t' k Hn. apply Hk. by rewrite list_elem_of_singleton in Hn.
  - intros t' k Hn Hs. apply Hsl; [done|]. rewrite list_elem_of_singleton in Hn. congruence.
  - eapply scan_ok_mono; try done; [by left| |by apply (li_scan s Hl)]. intros slot Hslot. by apply Hsl.
Qed.

Lemma log_kept s s' :
  linear s → same_current s s' → tr_log s' = tr_log s →
  legal init (tr_log s') ∧ ∀ k, inside k = true → current s' k = final (tr_log s') k.
Proof.
  intros Hl Hc ->. destruct (li_log s Hl) as [? Hcur]. split; [done|]. intros k Hk. rewrite Hc by done. by apply Hcur.
Qed.

(** A step of task [t] alone. *)
Lemma plain_step s s' t tk :
  linear s → tr_tasks s !! t = Some tk → tk_pc tk ≠ Syncing SyncQueued →
  evolves s s' → same_current s s' →
  (∀ t', t' ≠ t → tr_tasks s' !! t' = tr_tasks s !! t') →
  (∀ tk', tr_tasks s' !! t = Some tk' → tk_cmd tk' = tk_cmd tk ∧ tk_key tk' = tk_key tk ∧ pc_ok s' t tk') →
  (∀ t' k, t' ≠ t → key_locked s t' k → key_locked s' t' k) →
  tk_pc tk ≠ Forwarded ∨ (tr_tasks s' !! t = None ∧ ∀ k, key_locked s t k → key_locked s' t k) →
  (∀ slot h, tr_slot_mutex s !! slot = Some h → h ≠ HeldBySync t → tr_slot_mutex s' !! slot = Some h) →
  (tr_cleaners s', tr_queue s', tr_scan s', tr_log s') = (tr_cleaners s, tr_queue s, tr_scan s, tr_log s) →
  (∃ l, tr_strays s' = l ++ tr_strays s ∧
     Forall (λ ks, ks ≠ [] ∧ Forall (λ k, inside k = true ∧ ready s' k) ks) l) →
  linear s'.
Proof.
  intros Hl Htk Hpc He Hcur Ht Hok Hk Hf Hsl [= Hcl Hq Hsc Hlog] (l & Hst & Hlok).
  destruct (li_tasks s Hl t tk Htk) as (? & ? & ? & _).
  eapply (task_frame s s' t tk); try done.
  - intros tk' Htk'. destruct (Hok tk' Htk') as (Hc & Hkk & ?). unfold task_ok. rewrite Hc, Hkk. by split_and!.
  - by eapply (cleaners_kept s s' t tk).
  - rewrite Hst. apply Forall_app. split; [done|]. by eapply strays_mono, (li_strays s Hl).
  - by apply (log_kept s).
Qed.

(** Steps of a proxy: no node is involved. *)
Lemma proxy_step s s' t :
  tr_src s' = tr_src s → tr_dst s' = tr_dst s → tr_scan s' = tr_scan s →
  (∀ t', t' ≠ t → tr_tasks s' !! t' = tr_tasks s !! t') →
  (∀ tk k, tr_tasks s' !! t = Some tk → inside k = true → task_hand tk k → hand s k) →
  evolves s s' ∧ same_current s s'.
Proof.
  intros Hs Hd Hsc Ht Hh. apply still_step; [done..|]. intros k Hk Hk'.
  destruct (hand_tasks s s' t k Ht Hsc Hk') as [?|(tk & Htk & Hhk)]; eauto.
Qed.

Lemma lock_key_spec s t k s1 :
  lock_key t k s = Some s1 → tr_key_lock s !! lock_of k = None ∧ s1 = set_key_lock (<[lock_of k := t]> (tr_key_lock s)) s.
Proof.
  unfold lock_key, key_lock, lock_of. destruct (tr_key_lock s !! _) eqn:Hk; [done|]. cbn. by intros [= <-].
Qed.

Lemma locked_others s t k t' k' :
  tr_key_lock s !! lock_of k = None → key_locked s t' k' →
  (<[lock_of k := t]> (tr_key_lock s)) !! lock_of k' = Some t'.
Proof. intros Hn Hk. rewrite lookup_insert_ne; [done|]. intros Heq. unfold key_locked in Hk. congruence. Qed.

Lemma unlocked_others s t k t' k' :
  key_locked s t k → t' ≠ t → key_locked s t' k' → key_locked (unlock_key k s) t' k'.
Proof.
  intros Hk Hne Hk'. unfold key_locked, unlock_key, key_unlock in *. cbn. rewrite lookup_delete_ne; [done|].
  fold (lock_of k). congruence.
Qed.

(** ** The steps of the destination *)

Ltac other_tasks := intros ? ?; cbn; rewrite ?lookup_insert_ne, ?lookup_delete_ne by done; done.
Ltac same_strays := exists []; split; [done|constructor].
Ltac this_task := intros ?; cbn; rewrite ?lookup_insert_eq, ?lookup_delete_eq; [intros [= <-]|done..].

Lemma exists_step s t tk s' :
  linear s → tr_tasks s !! t = Some tk → task_step (DstExists t) t tk s = Some s' → linear s'.
Proof.
  intros Hl Htk. cbn. destruct (tk_pc tk) eqn:Hpc; try done.
  destruct (exec_exists (tr_dst s) (tk_key tk)) as (n' & Hsame & Hx). unfold gen_exists_resp. rewrite Hx. intros [= <-].
  set (s' := goto _ _ _ _). pose proof (li_tasks s Hl t tk Htk) as (Hin & _ & _ & Hp). unfold pc_ok in Hp.
  rewrite Hpc in Hp.
  assert (evolves s s' ∧ same_current s s') as [He Hcur].
  { apply quiet_step; [by left|done|intros k _; apply Hsame|]. intros k Hk Hh. left.
    destruct (hand_tasks s s' t k) as [?|(tk' & Htk' & Hh')]; [other_tasks|done|done|done|].
    revert Htk'. unfold s'. cbn. rewrite lookup_insert_eq. intros [= <-]. done. }
  eapply (plain_step s s' t tk); try done; [by rewrite Hpc|other_tasks| |left; by rewrite Hpc|same_strays].
  this_task. split_and!; [done..|]. unfold pc_ok. cbn. split; [exact Hp|].
  destruct (node_get (tr_dst s) (tk_key tk)) eqn:Hv; [right|by left]. split; [done|]. left.
  unfold present. cbn. by rewrite Hsame, Hv.
Qed.

(** A task goes on without a node, keeping all locks. *)
Lemma goto_step s t tk p :
  linear s → tr_tasks s !! t = Some tk → tk_pc tk ≠ Syncing SyncQueued → tk_pc tk ≠ Forwarded →
  (∀ k, inside k = true → task_hand (mkTask (tk_cmd tk) (tk_key tk) p) k → hand s k) →
  (evolves s (goto t tk p s) → pc_ok (goto t tk p s) t (mkTask (tk_cmd tk) (tk_key tk) p)) →
  linear (goto t tk p s).
Proof.
  intros Hl Htk Hpc Hf Hh Hok. destruct (proxy_step s (goto t tk p s) t) as [He Hcur]; [done..|other_tasks| |].
  { intros tk' k. cbn. rewrite lookup_insert_eq. intros [= <-]. apply Hh. }
  eapply (plain_step s _ t tk); try done; [other_tasks| |by left|same_strays]. this_task. by auto.
Qed.

(** A task takes the lock of its key. *)
Lemma lock_step s t tk p s1 :
  linear s → tr_tasks s !! t = Some tk → tk_pc tk ≠ Syncing SyncQueued → tk_pc tk ≠ Forwarded →
  lock_key t (tk_key tk) s = Some s1 →
  (∀ k, ¬ task_hand (mkTask (tk_cmd tk) (tk_key tk) p) k) →
  (evolves s (goto t tk p s1) → key_locked (goto t tk p s1) t (tk_key tk) →
    pc_ok (goto t tk p s1) t (mkTask (tk_cmd tk) (tk_key tk) p)) →
  linear (goto t tk p s1).
Proof.
  intros Hl Htk Hpc Hf [Hn ->]%lock_key_spec Hh Hok. set (s' := goto _ _ _ _) in *.
  destruct (proxy_step s s' t) as [He Hcur]; [done..|other_tasks| |].
  { intros tk' k. unfold s'. cbn. rewrite lookup_insert_eq. intros [= <-] _ Hk. by destruct (Hh k Hk). }
  eapply (plain_step s s' t tk); try done; [other_tasks| | |by left|same_strays].
  - this_task. split_and!; [done..|]. apply Hok; [done|]. unfold key_locked, s'. cbn. apply lookup_insert_eq.
  - intros t' k _ Hk. by apply locked_others.
Qed.

(** A task that holds the lock of its key releases it. *)
Lemma unlock_step s t tk s' :
  linear s → tr_tasks s !! t = Some tk → tk_pc tk ≠ Syncing SyncQueued → tk_pc tk ≠ Forwarded →
  key_locked s t (tk_key tk) →
  s' = goto t tk Forwarded (unlock_key (tk_key tk) s) ∧
    (evolves s s' → ready s (tk_key tk) ∧ (blocking tk = true → settled s (tk_key tk))) ∨
  s' = finish t (unlock_key (tk_key tk) s) →
  linear s'.
Proof.
  intros Hl Htk Hpc Hf Hkl Hs'.
  assert (∀ t', t' ≠ t → tr_tasks s' !! t' = tr_tasks s !! t') as Ht by (destruct Hs' as [[-> _]| ->]; other_tasks).
  assert (∀ tk', tr_tasks s' !! t = Some tk' → tk' = mkTask (tk_cmd tk) (tk_key tk) Forwarded) as Hnew.
  { intros tk'. destruct Hs' as [[-> _]| ->]; cbn; [rewrite lookup_insert_eq|rewrite lookup_delete_eq]; congruence. }
  assert ((tr_src s', tr_dst s', tr_scan s') = (tr_src s, tr_dst s, tr_scan s)) as [= Hs Hd Hsc]
    by (by destruct Hs' as [[-> _]| ->]).
  destruct (proxy_step s s' t) as [He Hcur]; [done..| |].
  { intros tk' k ->%Hnew. done. }
  eapply (plain_step s s' t tk); try done.
  - intros tk' Htk'. pose proof (Hnew tk' Htk') as ->. split_and!; [done..|]. destruct Hs' as [[-> Hr]| ->].
    + destruct (Hr He) as [Hrd Hb]. destruct (li_tasks s Hl t tk Htk) as (Hin & _). unfold pc_ok. cbn.
      split; [by eapply evolves_ready|]. intros Hbl. by eapply evolves_settled; [| |apply Hb].
    + cbn in Htk'. by rewrite lookup_delete_eq in Htk'.
  - intros t' k Hne Hk. pose proof (unlocked_others s t _ t' k Hkl Hne Hk). by destruct Hs' as [[-> _]| ->].
  - by left.
  - intros slot h Hh _. by destruct Hs' as [[-> _]| ->].
  - by destruct Hs' as [[-> _]| ->].
  - exists []. by destruct Hs' as [[-> _]| ->].
Qed.

Lemma on_exists_step s t tk s' :
  linear s → tr_tasks s !! t = Some tk → task_step (OnExists t) t tk s = Some s' → linear s'.
Proof.
  intros Hl Htk. cbn. destruct (tk_pc tk) as [|r| | | | |] eqn:Hpc; try done. intros [= <-].
  pose proof (li_tasks s Hl t tk Htk) as (Hin & _ & _ & Hp). unfold pc_ok in Hp. rewrite Hpc in Hp.
  destruct Hp as [Hb [-> |[-> Hr]]]; unfold handle_exists; cbn.
  - destruct (lock_key t (tk_key tk) s) as [s1|] eqn:Hlk.
    + eapply lock_step; rewrite ?Hpc; try done. intros k. cbn. by intros [_ [b ?%not_elem_of_nil]].
    + apply goto_step; rewrite ?Hpc; try done.
  - apply goto_step; rewrite ?Hpc; try done. intros He. unfold pc_ok. cbn. split; [by eapply evolves_ready|].
    intros Hbl. cbn in Hbl. unfold blocking in *. cbn in Hbl. congruence.
Qed.

Lemma fetch_step s t tk s' :
  linear s → tr_tasks s !! t = Some tk → task_step (SrcFetch t) t tk s = Some s' → linear s'.
Proof.
  intros Hl Htk. cbn. destruct (tk_pc tk) as [| |dn [|c todo]| | | |] eqn:Hpc; try done.
  destruct (node_exec (command_value c) (tr_src s)) as [n r] eqn:Hx. intros [= <-]. set (s' := goto _ _ _ _).
  pose proof (li_tasks s Hl t tk Htk) as (Hin & _ & _ & Hp). unfold pc_ok in Hp. rewrite Hpc in Hp.
  destruct Hp as (Hb & Hkl & Hc & Hf).
  assert (c ∈ [dump_cmd (tk_key tk); pttl_cmd (tk_key tk)]) as Hcin
    by (rewrite <-Hc; apply elem_of_app; right; by left).
  assert (c = pttl_cmd (tk_key tk) ∨ c = dump_cmd (tk_key tk)) as Hck
    by (rewrite !elem_of_cons, elem_of_nil in Hcin; tauto).
  destruct (fetch_reply s s' c (tk_key tk) r Hl Hin Hck Hx) as (Hsame & Hrep & Hnew).
  assert (evolves s s' ∧ same_current s s') as [He Hcur].
  { apply quiet_step; [right; exists (command_value c); by rewrite Hx|intros k _; apply Hsame|done|].
    intros k Hk Hh. destruct (hand_tasks s s' t k) as [?|(tk' & Htk' & Hh')]; [other_tasks|done|done|by left|].
    revert Htk'. unfold s'. cbn. rewrite lookup_insert_eq. intros [= <-]. destruct Hh' as [Heq [b Hbb]]. cbn in Heq.
    apply elem_of_app in Hbb as [Hbb|Hbb].
    - left. left. exists t, tk. split; [done|]. unfold task_hand. rewrite Hpc. split; [done|by exists b].
    - right. apply list_elem_of_singleton in Hbb. by eapply Hnew. }
  eapply (plain_step s s' t tk); try done; [by rewrite Hpc|other_tasks| |left; by rewrite Hpc|same_strays].
  this_task. split_and!; [done..|]. unfold pc_ok. cbn. split_and!; [done|done| |].
  - rewrite fmap_app, <-app_assoc. exact Hc.
  - apply Forall_app. split; [by eapply replies_ok_mono|]. constructor; [by apply Hrep|constructor].
Qed.

Lemma on_fetch_step s t tk s' :
  linear s → tr_tasks s !! t = Some tk → task_step (OnFetch t) t tk s = Some s' → linear s'.
Proof.
  intros Hl Htk. cbn.
  destruct (tk_pc tk) as [| |[|[c1 dump] [|[c2 pttl] []]] []| | | |] eqn:Hpc; try done. intros [= <-].
  pose proof (li_tasks s Hl t tk Htk) as (Hin & _ & _ & Hp). unfold pc_ok in Hp. rewrite Hpc in Hp.
  destruct Hp as (Hb & Hkl & [= -> ->] & Hf). apply Forall_cons in Hf as [Hr1 Hf]. apply Forall_cons in Hf as [Hr2 _].
  destruct (Hr1 _ Hin) as [Hd _]. specialize (Hd eq_refl). destruct (Hr2 _ Hin) as [_ Hpt]. specialize (Hpt eq_refl).
  cbn [fst snd] in Hd, Hpt. unfold handle_dump_pttl.
  assert (gone s (tk_key tk) → linear (goto t tk Forwarded (unlock_key (tk_key tk) s))) as Hgone.
  { intros Hg. eapply unlock_step; rewrite ?Hpc; try done. left. split; [done|]. intros _.
    split; [by apply gone_ready|congruence]. }
  destruct Hd as [[-> Hg]|(v & Hv & ->)].
  { cbn -[bool_decide]. by destruct Hpt as [[-> _]|(v & _ & ->)]; apply Hgone. }
  destruct Hpt as [[-> Hg]|(v' & Hv' & ->)]; cbn -[bool_decide pttl_text].
  { rewrite bool_decide_eq_false_2 by (intros Hn; by apply Hn). by apply Hgone. }
  rewrite bool_decide_eq_true_2 by apply pttl_text_found. apply goto_step; rewrite ?Hpc; try done.
  - intros k Hk. cbn. intros ->. left. exists t, tk. split; [done|]. unfold task_hand. rewrite Hpc. split; [done|].
    eexists. by left.
  - intros _. unfold pc_ok. cbn -[pttl_text]. split_and!; [done|done| |done]. split; [done|]. exists v. cbn.
    by replace v' with v by congruence.
Qed.

(** ** After a [RESTORE] *)

Lemma restored_step s t tk s' :
  movable → linear s → tr_tasks s !! t = Some tk → task_step (DstRestore t) t tk s = Some s' → linear s'.
Proof.
  intros Hmov Hl Htk. cbn. destruct (tk_pc tk) as [| | |e| | |] eqn:Hpc; try done.
  pose proof (li_tasks s Hl t tk Htk) as (Hin & _ & _ & Hp). unfold pc_ok in Hp. rewrite Hpc in Hp.
  destruct Hp as (Hb & Hkl & He & Hek).
  destruct (node_exec (gen_restore_resp (de_key e) (de_raw_data e) (de_pttl e)) (tr_dst s)) as [n r] eqn:Hx.
  intros [= <-]. set (s' := set_cleaners _ _).
  assert (∀ t', t' ≠ t → tr_tasks s' !! t' = tr_tasks s !! t') as Ht by other_tasks.
  destruct (restore_step s s' e r Hmov Hl He) as (Hev & Hcur & Hp & _); [|done|done| |].
  { rewrite Hek. left. exists t, tk. split; [done|]. unfold task_hand. by rewrite Hpc. }
  { intros k Hk Hh. left. destruct (hand_tasks s s' t k) as [?|(tk' & Htk' & Hh')]; [done|done|done|done|].
    revert Htk'. unfold s'. cbn. rewrite lookup_insert_eq. by intros [= <-]. }
  rewrite Hek in Hp. eapply (task_frame s s' t tk); try done.
  - by rewrite Hpc.
  - destruct (li_tasks s Hl t tk Htk) as (_ & ? & ? & _). this_task. split_and!; [done..|]. unfold pc_ok. cbn.
    split; [by left|]. unfold blocking in *. cbn. congruence.
  - intros t' kc. unfold s'. cbn. destruct (decide (t' = t)) as [->|Hne].
    + rewrite lookup_insert_eq. intros [= <-]. split_and!; [done|by left|done|]. cbn. this_task. done.
    + rewrite lookup_insert_ne by done. intros Hkc. destruct (li_cleaners s Hl t' kc Hkc) as (? & ? & ? & Hfw).
      split_and!; [done|by eapply evolves_ready|done|]. intros tk'. rewrite Ht by done. apply Hfw.
  - by eapply strays_mono, (li_strays s Hl).
  - by apply (log_kept s).
Qed.

(** A step of a cleaner. *)
Lemma cleaner_frame s s' t key cl :
  linear s → tr_cleaners s !! t = Some (key, cl) → evolves s s' → same_current s s' →
  tr_tasks s' = tr_tasks s → (∀ t' k, t' ≠ t → key_locked s t' k → key_locked s' t' k) →
  (∀ t' kc, tr_cleaners s' !! t' = Some kc → t' = t ∧ kc = (key, Removing) ∨ t' ≠ t ∧ tr_cleaners s !! t' = Some kc) →
  (tr_slot_mutex s', tr_queue s', tr_scan s', tr_strays s', tr_log s') =
    (tr_slot_mutex s, tr_queue s, tr_scan s, tr_strays s, tr_log s) →
  linear s'.
Proof.
  intros Hl Hkc He Hcur Ht Hk Hcl [= Hsl Hq Hsc Hst Hlog].
  destruct (li_cleaners s Hl t _ Hkc) as (Hin & Hr & _ & Hfw). cbn in Hin, Hr.
  eapply (frame s s' [t]); try done.
  - intros t' _. by rewrite Ht.
  - intros t' tk ->%list_elem_of_singleton Htk. rewrite Ht in Htk. pose proof (Hfw tk Htk) as Hpc.
    destruct (li_tasks s Hl t tk Htk) as (? & ? & ? & Hp). split_and!; [done..|].
    unfold pc_ok in *. rewrite Hpc in *. destruct Hp as [? Hb]. split; [by eapply evolves_ready|].
    intros Hbl. by eapply evolves_settled; [| |apply Hb].
  - intros t' k Hn. apply Hk. by rewrite list_elem_of_singleton in Hn.
  - intros t' k _. unfold slot_locked. by rewrite Hsl.
  - intros t' kc Hkc'. destruct (Hcl t' kc Hkc') as [[-> ->]|[Hne Hkc0]].
    + split_and!; [done|by eapply evolves_ready|done|]. intros tk. rewrite Ht. apply Hfw.
    + destruct (li_cleaners s Hl t' kc Hkc0) as (? & ? & ? & ?).
      split_and!; [done|by eapply evolves_ready|by eauto|by rewrite Ht].
  - rewrite Hq, Hsc. destruct (li_queue s Hl) as [? Hf]. split; [done|]. eapply Forall_impl; [exact Hf|].
    intros t' (tk & ? & ?). exists tk. by rewrite Ht.
  - eapply scan_ok_mono; try done; [by left|by rewrite Hsl|by rewrite Ht|by apply (li_scan s Hl)].
  - rewrite Hst. by eapply strays_mono, (li_strays s Hl).
  - by apply (log_kept s).
Qed.

Lemma hand_same s s' k : tr_tasks s' = tr_tasks s → tr_scan s' = tr_scan s → hand s' k → hand s k.
Proof. unfold hand. by intros -> ->. Qed.

Lemma cleaner_step_linear a t key cl s s' :
  linear s → tr_cleaners s !! t = Some (key, cl) → cleaner_step a t key cl s = Some s' → linear s'.
Proof.
  intros Hl Hkc Hx. destruct (li_cleaners s Hl t _ Hkc) as (Hin & Hr & Hlo & Hfw). cbn [fst snd] in *.
  assert (∀ t' kc, delete t (tr_cleaners s) !! t' = Some kc → t' = t ∧ kc = (key, Removing) ∨ t' ≠ t ∧ tr_cleaners s !! t' = Some kc)
    as Hdel.
  { intros t' kc [Hne ?]%lookup_delete_Some. right. auto. }
  destruct a; try done; destruct cl as [r|]; try done; cbn in Hx.
  - injection Hx as <-. unfold handle_restore. set (s1 := unlock_key key s).
    assert (∀ t' k, t' ≠ t → key_locked s t' k → key_locked s1 t' k) as Hk
      by (intros t' k Hne; eapply unlocked_others; by eauto).
    destruct (restore_accepted r).
    + destruct (still_step s (set_cleaners (<[t:=(key, Removing)]> (tr_cleaners s1)) s1)) as [He Hcur]; [done..|].
      eapply (cleaner_frame s); try done. cbn. intros t' kc. destruct (decide (t' = t)) as [->|Hne].
      * rewrite lookup_insert_eq. intros [= <-]. by left.
      * rewrite lookup_insert_ne by done. by right.
    + destruct (still_step s (set_cleaners (delete t (tr_cleaners s1)) s1)) as [He Hcur]; [done..|].
      by eapply (cleaner_frame s).
  - destruct (node_exec (gen_del_resp key) (tr_src s)) as [n r] eqn:Hn. injection Hx as <-. set (s' := set_cleaners _ _).
    destruct (delete_step s s' [key]) as (He & Hcur & _); [done|by constructor|change (del_cmd [key]) with [bytes_of "DEL"; key]; unfold gen_del_resp in Hn; by rewrite Hn|done|by left|].
    by eapply (cleaner_frame s).
  - injection Hx as <-. set (s' := set_cleaners _ _). destruct (still_step s s') as [He Hcur]; [done..|].
    eapply (cleaner_frame s); try done. intros t' k Hne. eapply unlocked_others; by eauto.
  - injection Hx as <-. set (s' := set_cleaners _ _). destruct (still_step s s') as [He Hcur]; [done..|].
    by eapply (cleaner_frame s).
Qed.

(** ** Requests to the source *)

Lemma pending_step s t tk s' :
  linear s → tr_tasks s !! t = Some tk → task_step (OnPending t) t tk s = Some s' → linear s'.
Proof.
  intros Hl Htk. cbn. destruct (tk_pc tk) eqn:Hpc; try done.
  destruct (lock_key t (tk_key tk) s) as [s1|] eqn:Hlk; [|done]. cbn. intros [= <-].
  eapply lock_step; rewrite ?Hpc; try done; by auto.
Qed.

Lemma sole_holder s s' t k :
  linear s → key_locked s t k → (∀ t', t' ≠ t → tr_tasks s' !! t' = tr_tasks s !! t') →
  (∀ tk, tr_tasks s' !! t = Some tk → ¬ task_hand tk k) → ¬ scan_hand (tr_scan s') k → ¬ hand s' k.
Proof.
  intros Hl Hk Ht Hno Hsc [(t' & tk & Htk & Hh)|Hh]; [|done]. destruct (decide (t' = t)) as [->|Hne]; [by eapply Hno|].
  rewrite Ht in Htk by done. apply Hne. by eapply exclusive_task.
Qed.

Lemma syncing_locked s t tk sy :
  linear s → tr_tasks s !! t = Some tk → tk_pc tk = Syncing sy → key_locked s t (tk_key tk).
Proof.
  intros Hl Htk Hpc. destruct (li_tasks s Hl t tk Htk) as (_ & _ & _ & Hp). unfold pc_ok in Hp. rewrite Hpc in Hp.
  by destruct Hp.
Qed.

(** An answer when the scan has ended. *)
Lemma finished_answer_step s t tk r :
  linear s → tr_tasks s !! t = Some tk → tk_pc tk = Syncing SyncSent → tr_scan s = ScanFinished →
  linear (goto t tk (Syncing (SyncAnswered r)) s).
Proof.
  intros Hl Htk Hpc Hsc. pose proof (syncing_locked s t tk _ Hl Htk Hpc) as Hkl.
  apply goto_step; rewrite ?Hpc; try done. intros He. unfold pc_ok. cbn. split; [exact Hkl|]. intros _.
  destruct (li_tasks s Hl t tk Htk) as (Hin & _). pose proof (li_scan s Hl) as Hs. unfold scan_ok in Hs.
  rewrite Hsc in Hs. destruct Hs as [_ Hg]. split; [by apply Hg|].
  apply (sole_holder s _ t); [done|done|other_tasks| |intros Hh; cbn in Hh; by rewrite Hsc in Hh]. this_task. by intros [].
Qed.

(** A request waits in the channel. *)
Lemma enqueue_step s t tk :
  linear s → tr_tasks s !! t = Some tk → tk_pc tk = Syncing SyncSent → tr_scan s ≠ ScanFinished →
  linear (goto t tk (Syncing SyncQueued) (set_queue (tr_queue s ++ [t]) s)).
Proof.
  intros Hl Htk Hpc Hsc. pose proof (syncing_locked s t tk _ Hl Htk Hpc) as Hkl. set (s' := goto _ _ _ _).
  assert (∀ t', t' ≠ t → tr_tasks s' !! t' = tr_tasks s !! t') as Ht by other_tasks.
  destruct (proxy_step s s' t) as [He Hcur]; [done..| |].
  { intros tk' k. unfold s'. cbn. rewrite lookup_insert_eq. by intros [= <-]. }
  destruct (li_queue s Hl) as [Hnd Hf]. rewrite Forall_forall in Hf.
  assert (∀ t', t' ∈ tr_queue s ++ batch (tr_scan s) → t' ≠ t) as Hne.
  { intros t' Hin ->. destruct (Hf t Hin) as (tk' & Htk' & Hpc'). replace tk' with tk in Hpc' by congruence. congruence. }
  assert (tr_queue s' ++ batch (tr_scan s') ≡ₚ t :: (tr_queue s ++ batch (tr_scan s))) as Hperm.
  { cbn. rewrite <-app_assoc. cbn. by rewrite Permutation_middle. }
  eapply (frame s s' [t]); try done.
  - intros t' Hn. apply Ht. by rewrite list_elem_of_singleton in Hn.
  - intros t' tk' ->%list_elem_of_singleton. destruct (li_tasks s Hl t tk Htk) as (? & ? & ? & _).
    revert tk'. this_task. split_and!; [done..|]. by unfold pc_ok.
  - eapply (cleaners_kept s s' t tk); try done. left. by rewrite Hpc.
  - rewrite Hperm. split.
    + constructor; [|done]. intros Hin. by apply (Hne t).
    + constructor.
      * eexists. unfold s'. cbn. by rewrite lookup_insert_eq.
      * apply Forall_forall. intros t' Hin. destruct (Hf t' Hin) as (tk' & ? & ?). exists tk'. by rewrite Ht by auto.
  - eapply scan_ok_mono; try done; [by right| |by apply (li_scan s Hl)].
    intros t' Hin. apply Ht, Hne. apply elem_of_app. by right.
  - by eapply strays_mono, (li_strays s Hl).
  - by apply (log_kept s).
Qed.

Lemma sync_arrive_step s t tk s' :
  linear s → tr_tasks s !! t = Some tk → task_step (SyncArrive t) t tk s = Some s' → linear s'.
Proof.
  intros Hl Htk. cbn. destruct (tk_pc tk) as [| | | | |[| | |]|] eqn:Hpc; try done. intros [= <-].
  pose proof (syncing_locked s t tk _ Hl Htk Hpc) as Hkl. unfold handle_sync_task, slot_mutex_lock.
  assert (linear (match tr_scan s with
    | ScanFinished => goto t tk (Syncing (SyncAnswered (Simple (bytes_of MIGRATING_FINISHED)))) s
    | _ => goto t tk (Syncing SyncQueued) (set_queue (tr_queue s ++ [t]) s) end)) as Hbusy.
  { destruct (tr_scan s) eqn:Hsc; [apply enqueue_step; try done; congruence..|by apply finished_answer_step]. }
  destruct (_ <? _)%N; [destruct (tr_slot_mutex s !! _) as [h|] eqn:Hsl|]; [done| |done].
  set (s' := goto _ _ _ _). destruct (proxy_step s s' t) as [He Hcur]; [done..|other_tasks| |].
  { intros tk' k. unfold s'. cbn. rewrite lookup_insert_eq. intros [= <-] _. by intros [b ?%not_elem_of_nil]. }
  eapply (plain_step s s' t tk); try done; [by rewrite Hpc|other_tasks| |left; by rewrite Hpc| |same_strays].
  - destruct (li_tasks s Hl t tk Htk) as (Hin & _). this_task. split_and!; [done..|]. unfold pc_ok. cbn.
    split_and!; [done| |].
    + unfold slot_locked, s'. cbn. by rewrite lookup_insert_eq.
    + split; [by constructor|]. by split_and!.
  - intros slot h' Hs _. unfold s'. cbn. rewrite lookup_insert_ne; [done|]. congruence.
Qed.

Lemma sync_gone_step s t tk s' :
  linear s → tr_tasks s !! t = Some tk → task_step (SyncGone t) t tk s = Some s' → linear s'.
Proof.
  intros Hl Htk. cbn. destruct (tk_pc tk) as [| | | | |[| | |]|] eqn:Hpc; try done.
  destruct (tr_scan s) eqn:Hsc; try done. intros [= <-]. by apply finished_answer_step.
Qed.

(** The progress of a request at the source. *)
Lemma sync_progress_linear s s1 t tk m p l :
  linear s → tr_tasks s !! t = Some tk → tk_pc tk = Syncing (SyncMoving m) →
  (tr_tasks s1, tr_cleaners s1, tr_key_lock s1, tr_slot_mutex s1, tr_queue s1, tr_scan s1, tr_log s1) =
    (tr_tasks s, tr_cleaners s, tr_key_lock s, tr_slot_mutex s, tr_queue s, tr_scan s, tr_log s) →
  tr_strays s1 = l ++ tr_strays s →
  let s' := sync_progress t tk p s1 in
  ((∀ k, inside k = true → hand s' k → hand s k ∨ progress_hand p k) →
    evolves s s' ∧ same_current s s' ∧ progress_ok s' [tk_key tk] p ∧
    Forall (λ ks, ks ≠ [] ∧ Forall (λ k, inside k = true ∧ ready s' k) ks) l) →
  linear s'.
Proof.
  intros Hl Htk Hpc [= Htasks Hcl Hkl Hsl Hq Hsc Hlog] Hst s' Hmove.
  assert (∀ t', t' ≠ t → tr_tasks s' !! t' = tr_tasks s !! t') as Ht.
  { intros t' Hne. unfold s'. destruct p; cbn; rewrite lookup_insert_ne by done; by rewrite Htasks. }
  assert (∃ pc', tr_tasks s' !! t = Some (mkTask (tk_cmd tk) (tk_key tk) pc') ∧
    match p with Moving m' => pc' = Syncing (SyncMoving m') | _ => ∃ r, pc' = Syncing (SyncAnswered r) end)
    as (pc' & Hnew & Hpc').
  { unfold s'. destruct p; cbn; rewrite lookup_insert_eq; by eauto. }
  assert (tr_scan s' = tr_scan s) as Hsc' by (unfold s'; by destruct p).
  destruct Hmove as (He & Hcur & Hprog & Hlok).
  { intros k Hk Hh. destruct (hand_tasks s s' t k Ht Hsc' Hh) as [?|(tk' & Htk' & Hh')]; [by left|right].
    rewrite Hnew in Htk'. injection Htk' as <-. by destruct p as [m'| |]; [subst pc'|destruct Hpc' as [r ->]..]. }
  destruct (li_tasks s Hl t tk Htk) as (Hin & _ & _ & Hp). unfold pc_ok in Hp. rewrite Hpc in Hp.
  destruct Hp as (Hk & Hslot & Hstage).
  assert (tr_key_lock s' = tr_key_lock s) as Hkl' by (unfold s'; by destruct p).
  eapply (plain_step s s' t tk); try done.
  - by rewrite Hpc.
  - intros tk' Htk'. rewrite Hnew in Htk'. injection Htk' as <-. split_and!; [done..|]. unfold pc_ok. cbn.
    assert (key_locked s' t (tk_key tk)) as Hk' by (unfold key_locked; by rewrite Hkl').
    destruct p as [m'| |]; cbn in Hpc'.
    + subst pc'. split_and!; [done| |done]. unfold slot_locked, s'. cbn. by rewrite Hsl.
    + destruct Hpc' as [r ->]. split; [done|]. intros _. split; [by apply Forall_singleton|].
      apply (sole_holder s _ t); [done..| |].
      * intros tk'. rewrite Hnew. by intros [= <-] [].
      * rewrite Hsc'. apply (exclusive_scan s t); try done. intros (tk' & Htk' & Hq').
        replace tk' with tk in Hq' by congruence. congruence.
    + destruct Hpc' as [r ->]. split; [done|]. revert Hnew. unfold s'. cbn. rewrite lookup_insert_eq. intros [= <-]. cbn.
      by rewrite bool_decide_eq_false_2 by (by vm_compute).
  - intros t' k _. unfold key_locked. by rewrite Hkl'.
  - left. by rewrite Hpc.
  - intros slot h Hh Hne. unfold s'. destruct p; cbn; rewrite Hsl; [done|..].
    all: rewrite lookup_insert_ne; [done|]. all: intros Heq; unfold slot_locked in Hslot; congruence.
  - unfold s'. destruct p; cbn; by rewrite Hcl, Hq, Hsc, Hlog.
  - exists l. split; [|done]. unfold s'. by destruct p.
Qed.

Lemma sync_move_step s t tk s' :
  movable → linear s → tr_tasks s !! t = Some tk → task_step (SyncMove t) t tk s = Some s' → linear s'.
Proof.
  intros Hmov Hl Htk. cbn. destruct (tk_pc tk) as [| | | | |[|m| |]|] eqn:Hpc; try done. intros [= <-].
  unfold with_nodes. destruct (move_step m (tr_src s) (tr_dst s)) as [p [src dst]] eqn:Hx. cbn [fst snd].
  eapply (sync_progress_linear s _ t tk m p []); try done. intros Hh. set (s' := sync_progress _ _ _ _) in *.
  destruct (li_tasks s Hl t tk Htk) as (Hin & _ & _ & Hp). unfold pc_ok in Hp. rewrite Hpc in Hp.
  destruct Hp as (_ & _ & Hstage).
  destruct (move_step_ok Hmov s s' [tk_key tk] Hl m p) as (He & Hcur & Hprog); [done| | |done|done].
  - intros k Hk. left. exists t, tk. split; [done|]. unfold task_hand. by rewrite Hpc.
  - rewrite Hx. unfold s'. by destruct p.
Qed.

Lemma sync_fail_step s t tk s' :
  linear s → tr_tasks s !! t = Some tk → task_step (SyncFail t) t tk s = Some s' → linear s'.
Proof.
  intros Hl Htk. cbn. destruct (tk_pc tk) as [| | | | |[|m| |]|] eqn:Hpc; try done. intros [= <-].
  unfold with_strays. destruct (move_fail m) as [p l] eqn:Hx. cbn [fst snd].
  eapply (sync_progress_linear s _ t tk m p l); try done. intros Hh. set (s' := sync_progress _ _ _ _) in *.
  destruct (li_tasks s Hl t tk Htk) as (Hin & _ & _ & Hp). unfold pc_ok in Hp. rewrite Hpc in Hp.
  destruct Hp as (_ & _ & Hstage).
  assert (∀ k, stage_hand m k → hand s k) as Hm.
  { intros k Hk. left. exists t, tk. split; [done|]. unfold task_hand. by rewrite Hpc. }
  assert (∀ k, progress_hand p k → stage_hand m k) as Hpm by (destruct m as [| |? []]; by injection Hx as <- <-).
  destruct (still_step s s') as [He Hcur].
  - unfold s'. by destruct p.
  - unfold s'. by destruct p.
  - intros k Hk Hk'. destruct (Hh k Hk Hk'); by auto.
  - destruct (move_fail_ok s s' [tk_key tk] m p l Hstage Hx He) as (? & _ & ?). by split_and!.
Qed.

Lemma on_sync_step s t tk s' :
  linear s → tr_tasks s !! t = Some tk → task_step (OnSync t) t tk s = Some s' → linear s'.
Proof.
  intros Hl Htk. cbn. destruct (tk_pc tk) as [| | | | |[| | |r]|] eqn:Hpc; try done. intros [= <-].
  destruct (li_tasks s Hl t tk Htk) as (_ & _ & _ & Hp). unfold pc_ok in Hp. rewrite Hpc in Hp. destruct Hp as [Hkl Hs].
  unfold handle_umsync. destruct (umsync_accepted (Ok r)).
  - eapply unlock_step; rewrite ?Hpc; try done. left. split; [done|]. intros _. specialize (Hs eq_refl).
    split; [by right|done].
  - eapply unlock_step; rewrite ?Hpc; try done. by right.
Qed.

(** ** The commands of the clients *)

Lemma ready_current s k : ready s k → current s k = node_get (tr_dst s) k.
Proof.
  unfold current. intros Hr. destruct (node_get (tr_dst s) k) eqn:Hd; [done|]. by destruct Hr as [Hp|[Hg _]].
Qed.

Lemma legal_app f log e :
  legal f log → e.2 = (command_effect e.1.1 (foldl apply_entry f log e.1.2)).2 → legal f (log ++ [e]).
Proof. revert f. induction log as [|e' log IH]; intros f Hl He; [done|]. destruct Hl as [? ?]. split; [done|]. by apply IH. Qed.

Lemma run_step s t tk s' :
  linear s → tr_tasks s !! t = Some tk → task_step (DstRun t) t tk s = Some s' → linear s'.
Proof.
  intros Hl Htk. cbn. destruct (tk_pc tk) eqn:Hpc; try done.
  destruct (li_tasks s Hl t tk Htk) as (Hin & Hkc & Hw & Hp). unfold pc_ok in Hp. rewrite Hpc in Hp.
  destruct Hp as [Hr Hb]. set (k := tk_key tk) in *.
  destruct (exec_client (tr_dst s) _ k Hkc) as (n' & Hx & Hget & Hother). rewrite Hx. intros [= <-].
  set (s' := finish _ _). set (c := cmd_request (tk_cmd tk)) in *.
  assert (∀ t', t' ≠ t → tr_tasks s' !! t' = tr_tasks s !! t') as Ht by other_tasks.
  assert (node_get n' k = None → settled s k) as Hset.
  { intros Hn. destruct (node_get (tr_dst s) k) as [v|] eqn:Hv.
    - rewrite Hn in Hget. unfold blocking in Hb. destruct (requires_blocking_migration _) eqn:Hbl; [by apply Hb|].
      symmetry in Hget. by apply Hw in Hget.
    - by destruct Hr as [Hp|?]. }
  assert (evolves s s') as He.
  { split; [by left|by left|..].
    - intros k' Hk' Hh. left. destruct (hand_tasks s s' t k' Ht eq_refl Hh) as [?|(tk' & Htk' & _)]; [done|].
      revert Htk'. unfold s'. cbn. by rewrite lookup_delete_eq.
    - intros k' Hk' Hp. destruct (decide (k' = k)) as [->|Hne].
      + destruct (node_get n' k) eqn:Hn; [left|right; by apply Hset]. unfold present. cbn. by rewrite Hn.
      + left. unfold present in *. cbn. by rewrite Hother. }
  eapply (task_frame s s' t tk); try done.
  - by rewrite Hpc.
  - this_task.
  - eapply (cleaners_kept s s' t tk); try done. right. split; [|done]. unfold s'. cbn. apply lookup_delete_eq.
  - by eapply strays_mono, (li_strays s Hl).
  - destruct (li_log s Hl) as [Hleg Hcur]. pose proof (ready_current s k Hr) as Hrc. split.
    + apply legal_app; [done|]. cbn. fold (final (tr_log s)). by rewrite <-Hcur, Hrc.
    + intros k' Hk'. unfold s'. cbn. unfold final. rewrite foldl_app. cbn. fold (final (tr_log s)).
      unfold apply_entry. cbn. rewrite <-Hcur by done. unfold current. cbn. case_bool_decide as Hkk.
      * subst k'. fold (current s k). rewrite Hrc, <-Hget. destruct (node_get n' k) eqn:Hn; [done|]. by apply Hset.
      * by rewrite Hother.
Qed.

Lemma drop_task_step s t tk s' :
  linear s → tr_tasks s !! t = Some tk → drop_task t tk s = Some s' → linear s'.
Proof.
  intros Hl Htk Hx. destruct (li_tasks s Hl t tk Htk) as (_ & _ & _ & Hp). unfold pc_ok in Hp.
  assert (tk_pc tk ≠ Syncing SyncQueued → linear (finish t s)) as Hplain.
  { intros Hpc. destruct (proxy_step s (finish t s) t) as [He Hcur]; [done..|other_tasks| |].
    { intros tk' k. cbn. by rewrite lookup_delete_eq. }
    eapply (plain_step s _ t tk); try done; [other_tasks| | |same_strays]; [by this_task|].
    right. split; [|done]. cbn. apply lookup_delete_eq. }
  unfold drop_task in Hx. destruct (tk_pc tk) as [| | | | |[]|] eqn:Hpc; try done; injection Hx as <-; try by apply Hplain.
  all: eapply unlock_step; rewrite ?Hpc; try done; [|by right]. all: by destruct Hp as [? ?]; tauto.
Qed.

Lemma arrive_step s t c s' :
  linear s → (∀ key, get_key c = Some key → key_command (cmd_request c) key) → well_classified c →
  handle_cmd_task range t c s = Some s' → linear s'.
Proof.
  intros Hl Hkc Hw Hx. unfold handle_cmd_task in Hx. destruct (tr_tasks s !! t) eqn:Htk; [done|].
  destruct (tr_cleaners s !! t) eqn:Hcl; [done|]. destruct (get_key c) as [key|] eqn:Hkey; [|done].
  destruct (inside key) eqn:Hin; [|done].
  assert (∃ p m, s' = set_tasks (<[t := mkTask c key p]> (tr_tasks s)) (set_key_lock m s) ∧
    (∀ k, ¬ task_hand (mkTask c key p) k) ∧ (∀ t' k, key_locked s t' k → m !! lock_of k = Some t') ∧
    pc_ok s' t (mkTask c key p)) as (p & m & -> & Hh & Hm & Hok).
  { destruct (requires_blocking_migration _) eqn:Hb; [destruct (lock_key t key s) as [s1|] eqn:Hlk|]; injection Hx as <-.
    - apply lock_key_spec in Hlk as [Hn ->]. exists (Syncing SyncSent), (<[lock_of key := t]> (tr_key_lock s)).
      split_and!; [done|by intros ? []|intros; by apply locked_others|]. unfold pc_ok. cbn. split; [|done].
      unfold key_locked. cbn. apply lookup_insert_eq.
    - exists Pending, (tr_key_lock s). split_and!; [by destruct s|by intros ? []|done|done].
    - exists Checking, (tr_key_lock s). split_and!; [by destruct s|by intros ? []|done|done]. }
  clear Hx. set (s' := set_tasks _ _) in *.
  assert (∀ t', t' ≠ t → tr_tasks s' !! t' = tr_tasks s !! t') as Ht by other_tasks.
  destruct (proxy_step s s' t) as [He Hcur]; [done..| |].
  { intros tk' k. unfold s'. cbn. rewrite lookup_insert_eq. intros [= <-] _ Hk. by destruct (Hh k Hk). }
  assert (∀ t', queued s t' → t' ≠ t) as Hne by (intros t' (tk & ? & _) ->; congruence).
  destruct (li_queue s Hl) as [Hnd Hf].
  eapply (frame s s' [t]); try done.
  - intros t' Hn. apply Ht. by rewrite list_elem_of_singleton in Hn.
  - intros t' tk' ->%list_elem_of_singleton. revert tk'. this_task. split_and!; [done|by apply Hkc|done|done].
  - intros t' k _. apply Hm.
  - intros t' kc Hkc'. assert (t' ≠ t) by (cbn in Hkc'; congruence).
    destruct (li_cleaners s Hl t' kc Hkc') as (? & ? & Hlo & ?).
    split_and!; [done|by eapply evolves_ready|intros r Hr; by eapply Hm, Hlo|]. by rewrite Ht.
  - split; [done|]. eapply Forall_impl; [exact Hf|]. intros t' Hq. destruct Hq as (tk & ? & ?) eqn:Hq'.
    exists tk. rewrite Ht; [done|]. apply Hne. by exists tk.
  - eapply scan_ok_mono; try done; [by left| |by apply (li_scan s Hl)]. intros t' Hb. apply Ht, Hne.
    rewrite Forall_forall in Hf. apply Hf, elem_of_app. by right.
  - by eapply strays_mono, (li_strays s Hl).
  - by apply (log_kept s).
Qed.

(** ** The steps of the scan *)

Lemma scan_frame s s' :
  linear s → evolves s s' → same_current s s' →
  (tr_tasks s', tr_cleaners s', tr_key_lock s', tr_log s') = (tr_tasks s, tr_cleaners s, tr_key_lock s, tr_log s) →
  (∀ slot t, tr_slot_mutex s !! slot = Some (HeldBySync t) → tr_slot_mutex s' !! slot = Some (HeldBySync t)) →
  tr_queue s' ++ batch (tr_scan s') ≡ₚ tr_queue s ++ batch (tr_scan s) → scan_ok s' →
  (∃ l, tr_strays s' = l ++ tr_strays s ∧
     Forall (λ ks, ks ≠ [] ∧ Forall (λ k, inside k = true ∧ ready s' k) ks) l) →
  linear s'.
Proof.
  intros Hl He Hcur [= Ht Hcl Hk Hlog] Hsl Hq Hsc (l & Hst & Hlok). eapply (frame s s' []); try done.
  - intros t _. by rewrite Ht.
  - by intros t tk ?%not_elem_of_nil.
  - intros t k _. unfold key_locked. by rewrite Hk.
  - intros t k _. apply Hsl.
  - rewrite Hcl. intros t kc Hkc. destruct (li_cleaners s Hl t kc Hkc) as (? & ? & Hlo & ?).
    split_and!; [done|by eapply evolves_ready| |by rewrite Ht]. unfold key_locked. by rewrite Hk.
  - rewrite Hq. destruct (li_queue s Hl) as [? Hf]. split; [done|]. eapply Forall_impl; [exact Hf|].
    intros t (tk & ? & ?). exists tk. by rewrite Ht.
  - rewrite Hst. apply Forall_app. split; [done|]. by eapply strays_mono, (li_strays s Hl).
  - by apply (log_kept s).
Qed.

Lemma hand_scan s s' k : tr_tasks s' = tr_tasks s → hand s' k → hand s k ∨ scan_hand (tr_scan s') k.
Proof. unfold hand. intros ->. tauto. Qed.

Lemma scan_call_step s s' index :
  linear s → tr_scan s = ScanIdle index → scan_step range scan_count ScanCall s = Some s' → linear s'.
Proof.
  intros Hl Hsc. unfold scan_step. rewrite Hsc.
  destruct (exec_scan (tr_src s) index scan_count) as (n' & next & ks & Hn & Hsame & Hx). rewrite Hx. intros [= <-].
  set (s' := set_scan _ _). pose proof (li_scan s Hl) as Hs. unfold scan_ok in Hs. rewrite Hsc in Hs.
  assert (evolves s s' ∧ same_current s s') as [He Hcur].
  { apply quiet_step; [right; eexists; by rewrite Hx|intros k _; apply Hsame|done|]. intros k Hk Hh. left.
    by destruct (hand_scan s s' k eq_refl Hh). }
  eapply (scan_frame s); try done; [by rewrite Hsc| |same_strays].
  unfold scan_ok. cbn. exists next, ks. split_and!; [done..|]. intros k Hk Hg.
  assert (¬ gone s k) as Hg0 by (unfold gone in *; cbn in Hg; by rewrite Hsame in Hg).
  destruct (Hs k Hk Hg0) as (keys & Hnot & Hscn). exists keys. split_and!; [done| | |].
  - eapply scanned_other; [done|]. eexists. split; [by rewrite Hx|]. done.
  - by eapply scanned_call.
  - intros ->. by eapply scan_complete.
Qed.

Lemma on_scan_step s s' index r :
  linear s → tr_scan s = ScanListed index r → scan_step range scan_count OnScan s = Some s' → linear s'.
Proof.
  intros Hl Hsc. unfold scan_step. rewrite Hsc. pose proof (li_scan s Hl) as Hs. unfold scan_ok in Hs. rewrite Hsc in Hs.
  destruct Hs as (next & ks & -> & Hn & Hli). rewrite parse_scan_reply by done. intros [= <-]. cbn [scan_keys next_index].
  set (s' := set_scan _ _). destruct (still_step s s') as [He Hcur]; [done..| |].
  { intros k _ Hh. by destruct (hand_scan s s' k eq_refl Hh). }
  eapply (scan_frame s); try done; [by rewrite Hsc| |same_strays].
  unfold scan_ok. cbn. split_and!; [|by exists []|constructor|constructor].
  exists ks. split; [done|]. by eapply listed_mono.
Qed.

Lemma scan_lock_step s s' index next keys todo locked slots :
  linear s → tr_scan s = ScanLocking index next keys todo locked slots →
  scan_step range scan_count ScanLock s = Some s' → linear s'.
Proof.
  intros Hl Hsc. unfold scan_step. rewrite Hsc. pose proof (li_scan s Hl) as Hs. unfold scan_ok in Hs. rewrite Hsc in Hs.
  destruct Hs as ((ks & -> & Hli) & (before & Hkeys & Hsub) & Hlo & Hslots). destruct todo as [|key todo]; intros [= <-].
  - rewrite app_nil_r in Hkeys. set (s' := set_scan _ _). destruct (still_step s s') as [He Hcur]; [done..| |].
    { intros k _ Hh. destruct (hand_scan s s' k eq_refl Hh) as [?|[b ?%not_elem_of_nil]]; done. }
    eapply (scan_frame s); try done; [by rewrite Hsc| |same_strays]. unfold scan_ok. cbn -[Nat.ltb]. exists ks, locked.
    split_and!; [by eapply listed_mono| |done|done|].
    + intros Hlen%Nat.ltb_ge k Hk Hin. assert (locked = before) as ->.
      { apply sublist_whole; [done|]. rewrite Hkeys in Hlen. lia. }
      rewrite <-Hkeys. by apply list_elem_of_filter.
    + split; [|by split_and!]. apply Forall_forall. intros k Hk.
      assert (k ∈ before) as Hb by (by eapply elem_of_sublist). rewrite <-Hkeys in Hb.
      by apply list_elem_of_filter in Hb as [? _].
  - assert (∀ locked' slots' m,
      (∀ slot h, tr_slot_mutex s !! slot = Some h → m !! slot = Some h) →
      sublist locked' (before ++ [key]) → Forall (λ k, m !! generate_lock_slot k = Some HeldByScan) locked' →
      Forall (λ slot, m !! slot = Some HeldByScan) slots' →
      linear (set_scan (ScanLocking index next (filter (λ k, inside k = true) ks) todo locked' slots') (set_slot_mutex m s)))
      as Hgo.
    { intros locked' slots' m Hm Hsub' Hlo' Hslots'. set (s' := set_scan _ _).
      destruct (still_step s s') as [He Hcur]; [done..| |].
      { intros k _ Hh. by destruct (hand_scan s s' k eq_refl Hh). }
      eapply (scan_frame s); try done; [by intros slot t; apply Hm|by rewrite Hsc| |same_strays].
      unfold scan_ok. cbn. split_and!; [exists ks; split; [done|by eapply listed_mono]| |done|done].
      exists (before ++ [key]). split; [|done]. rewrite <-app_assoc. exact Hkeys. }
    unfold scan_lock, slot_mutex_lock.
    assert (linear (set_scan (ScanLocking index next (filter (λ k, inside k = true) ks) todo
      (if bool_decide (generate_lock_slot key ∈ slots) then locked ++ [key] else locked) slots) s)) as Hold.
    { destruct s. apply Hgo; [done| | |done].
      - case_bool_decide; [by apply sublist_app|by apply sublist_inserts_r].
      - case_bool_decide as Hin; [|done]. apply Forall_app. split; [done|]. constructor; [|constructor].
        rewrite Forall_forall in Hslots. by apply Hslots. }
    destruct (_ <? _)%N; [destruct (tr_slot_mutex s !! _) as [h|] eqn:Hsl|]; [done| |done].
    assert (∀ slot h, tr_slot_mutex s !! slot = Some h →
      <[generate_lock_slot key := HeldByScan]> (tr_slot_mutex s) !! slot = Some h) as Hm.
    { intros slot h Hh. rewrite lookup_insert_ne; [done|]. congruence. }
    apply Hgo; [done|by apply sublist_app| |].
    + apply Forall_app. split.
      * eapply Forall_impl; [exact Hlo|]. intros k. apply Hm.
      * constructor; [|constructor]. apply lookup_insert_eq.
    + constructor; [apply lookup_insert_eq|]. eapply Forall_impl; [exact Hslots|]. intros slot. apply Hm.
Qed.

Lemma answer_syncs_spec ts r s :
  (∀ t, t ∉ ts → tr_tasks (answer_syncs ts r s) !! t = tr_tasks s !! t) ∧
  (∀ t tk, t ∈ ts → tr_tasks (answer_syncs ts r s) !! t = Some tk →
    tk_pc tk = Syncing (SyncAnswered r) ∧
    ∃ tk0, tr_tasks s !! t = Some tk0 ∧ tk_cmd tk = tk_cmd tk0 ∧ tk_key tk = tk_key tk0) ∧
  ∃ tasks, answer_syncs ts r s = set_tasks tasks s.
Proof.
  induction ts as [|t ts (IH1 & IH2 & tasks & IH3)].
  { split_and!; [done|by intros t tk ?%not_elem_of_nil|]. exists (tr_tasks s). by destruct s. }
  cbn [answer_syncs foldr]. fold (answer_syncs ts r s). destruct (tr_tasks (answer_syncs ts r s) !! t) as [tk0|] eqn:Ht.
  - split_and!.
    + intros t' [Hne Hn]%not_elem_of_cons. cbn. rewrite lookup_insert_ne by done. by apply IH1.
    + intros t' tk Hin. cbn. destruct (decide (t' = t)) as [->|Hne].
      * rewrite lookup_insert_eq. intros [= <-]. split; [done|]. destruct (decide (t ∈ ts)) as [Hts|Hts].
        -- destruct (IH2 t tk0 Hts Ht) as [_ (tk1 & ? & ? & ?)]. by exists tk1.
        -- rewrite IH1 in Ht by done. by exists tk0.
      * rewrite lookup_insert_ne by done. apply IH2. apply elem_of_cons in Hin. tauto.
    + eexists. rewrite IH3. unfold goto. cbn. done.
  - split_and!; [| |by exists tasks].
    + intros t' [_ Hn]%not_elem_of_cons. by apply IH1.
    + intros t' tk Hin Htk. apply IH2; [|done]. apply elem_of_cons in Hin as [->|]; [congruence|done].
Qed.

(** Requests [ts] are answered, and the scan goes on without data in hand. *)
Lemma answer_frame s s' ts r :
  linear s → evolves s s' → same_current s s' →
  ts ⊆ tr_queue s ++ batch (tr_scan s) → tr_tasks s' = tr_tasks (answer_syncs ts r s) →
  (tr_cleaners s', tr_key_lock s', tr_log s') = (tr_cleaners s, tr_key_lock s, tr_log s) →
  (∀ slot t, tr_slot_mutex s !! slot = Some (HeldBySync t) → tr_slot_mutex s' !! slot = Some (HeldBySync t)) →
  (∀ k, ¬ scan_hand (tr_scan s') k) → batch (tr_scan s') = [] →
  (umsync_accepted (Ok r) = true → ∀ t tk, t ∈ ts → tr_tasks s !! t = Some tk → gone s' (tk_key tk)) →
  NoDup (tr_queue s') → (∀ t, t ∈ tr_queue s' → (t ∉ ts) ∧ t ∈ tr_queue s) → scan_ok s' →
  (∃ l, tr_strays s' = l ++ tr_strays s ∧
     Forall (λ ks, ks ≠ [] ∧ Forall (λ k, inside k = true ∧ ready s' k) ks) l) →
  linear s'.
Proof.
  intros Hl He Hcur Hts Htasks [= Hcl Hk Hlog] Hsl Hno Hbatch Hacc Hnd Hq Hsc (l & Hst & Hlok).
  destruct (answer_syncs_spec ts r s) as (Hother & Hanswered & _). rewrite <-Htasks in Hother, Hanswered.
  destruct (li_queue s Hl) as [_ Hf]. rewrite Forall_forall in Hf.
  eapply (frame s s' ts); try done.
  - intros t tk Hin Htk. destruct (Hanswered t tk Hin Htk) as (Hpc & tk0 & Htk0 & Hc & Hkey).
    destruct (Hf t (Hts t Hin)) as (tk1 & Htk1 & Hpc1). replace tk1 with tk0 in Hpc1 by congruence.
    destruct (li_tasks s Hl t tk0 Htk0) as (? & ? & ? & Hp). unfold pc_ok in Hp. rewrite Hpc1 in Hp.
    unfold task_ok. rewrite Hc, Hkey. split_and!; [done..|]. unfold pc_ok. rewrite Hpc, Hkey.
    destruct Hp as [Hkl _]. split; [unfold key_locked; by rewrite Hk|]. intros Ha. split; [by eapply Hacc|].
    intros [(t' & tk' & Htk' & Hh)|Hh]; [|by eapply Hno]. destruct (decide (t' ∈ ts)) as [Hin'|Hin'].
    + destruct (Hanswered t' tk' Hin' Htk') as [Hpc' _]. unfold task_hand in Hh. by rewrite Hpc' in Hh.
    + rewrite Hother in Htk' by done. assert (t' = t) as -> by (by eapply exclusive_task). done.
  - intros t k _. unfold key_locked. by rewrite Hk.
  - intros t k _. apply Hsl.
  - rewrite Hcl. intros t kc Hkc. destruct (li_cleaners s Hl t kc Hkc) as (? & ? & Hlo & Hfw).
    split_and!; [done|by eapply evolves_ready|unfold key_locked; by rewrite Hk|]. intros tk Htk.
    destruct (decide (t ∈ ts)) as [Hin|Hin]; [|apply Hfw; by rewrite <-Hother].
    destruct (Hf t (Hts t Hin)) as (tk0 & Htk0 & Hpc). specialize (Hfw tk0 Htk0). congruence.
  - rewrite Hbatch, app_nil_r. split; [done|]. apply Forall_forall. intros t [Hn Hin]%Hq.
    destruct (Hf t) as (tk & ? & ?); [apply elem_of_app; by left|]. exists tk. by rewrite Hother.
  - rewrite Hst. apply Forall_app. split; [done|]. by eapply strays_mono, (li_strays s Hl).
  - by apply (log_kept s).
Qed.

Lemma unlock_slots_kept s slots slot h :
  Forall (λ sl, tr_slot_mutex s !! sl = Some HeldByScan) slots → h ≠ HeldByScan →
  tr_slot_mutex s !! slot = Some h → foldr delete (tr_slot_mutex s) slots !! slot = Some h.
Proof.
  intros Hf Hne Hs. induction slots as [|sl slots IH]; [done|]. apply Forall_cons in Hf as [Hsl Hf]. cbn.
  rewrite lookup_delete_ne by congruence. by apply IH.
Qed.

Lemma answer_syncs_tasks ts r s s0 :
  tr_tasks s0 = tr_tasks s → tr_tasks (answer_syncs ts r s0) = tr_tasks (answer_syncs ts r s).
Proof.
  intros Heq. induction ts as [|t ts IH]; [done|]. cbn [answer_syncs foldr].
  fold (answer_syncs ts r s) (answer_syncs ts r s0). rewrite IH.
  destruct (tr_tasks (answer_syncs ts r s) !! t); [|done]. cbn. by rewrite IH.
Qed.

Lemma answered_hand ts r s s' k :
  tr_tasks s' = tr_tasks (answer_syncs ts r s) → ¬ scan_hand (tr_scan s') k → hand s' k → hand s k.
Proof.
  destruct (answer_syncs_spec ts r s) as (Hother & Hanswered & _). intros Heq Hno [(t & tk & Htk & Hh)|Hh]; [|done].
  rewrite Heq in Htk. left. destruct (decide (t ∈ ts)) as [Hin|Hin].
  - destruct (Hanswered t tk Hin Htk) as [Hpc _]. unfold task_hand in Hh. by rewrite Hpc in Hh.
  - rewrite Hother in Htk by done. eauto.
Qed.

Lemma scan_finish_spec s :
  ∃ tasks, scan_finish s = set_scan ScanFinished (set_queue [] (set_tasks tasks s)) ∧
    tasks = tr_tasks (answer_syncs (tr_queue s) (Simple (bytes_of MIGRATING_FINISHED)) s).
Proof.
  unfold scan_finish. destruct (answer_syncs_spec (tr_queue s) (Simple (bytes_of MIGRATING_FINISHED)) s)
    as (_ & _ & tasks & Heq). exists tasks. by rewrite Heq.
Qed.

(** The progress of a scan: [s1] is [s] after the nodes have acted. *)
Record acted s s1 (l : list (list bytes)) : Prop := {
  ac_same : (tr_tasks s1, tr_cleaners s1, tr_key_lock s1, tr_slot_mutex s1, tr_queue s1, tr_log s1) =
    (tr_tasks s, tr_cleaners s, tr_key_lock s, tr_slot_mutex s, tr_queue s, tr_log s);
  ac_strays : tr_strays s1 = l ++ tr_strays s;
}.
Definition strays_ok s (l : list (list bytes)) : Prop :=
  Forall (λ ks, ks ≠ [] ∧ Forall (λ k, inside k = true ∧ ready s k) ks) l.

Lemma scan_progress_hand s s1 l index next need_retry slots p k :
  acted s s1 l → hand (scan_progress index next need_retry slots p s1) k → hand s k ∨ progress_hand p k.
Proof.
  intros [[= Ht _ _ _ _ _] _].
  assert (∀ s2, tr_tasks s2 = tr_tasks s → ¬ scan_hand (tr_scan s2) k → hand s2 k → hand s k) as Hno.
  { intros s2 Heq Hn Hh. by destruct (hand_scan s s2 k Heq Hh). }
  destruct p as [m'| |]; cbn [scan_progress]; intros Hh.
  - by destruct (hand_scan s (set_scan (ScanMoving index next need_retry slots m') s1) k Ht Hh); auto.
  - left. destruct need_retry; [eapply (Hno _ _ _ Hh)|]. case_bool_decide; [|eapply (Hno _ _ _ Hh)].
    destruct (scan_finish_spec (unlock_slots slots s1)) as (tasks & Heq & Htasks). rewrite Heq in Hh.
    eapply answered_hand in Hh; [| |by intros []]; [exact Hh|]. cbn. rewrite Htasks. by apply answer_syncs_tasks.
  - left. eapply (Hno _ _ _ Hh).
Unshelve. all: done || by intros [].
Qed.

Section scan_moving.
Context (s s1 : Transfer) (index next : N) (slots : list N) (l : list (list bytes)).
Context (Hl : linear s) (Hacted : acted s s1 l).
Context (Hslots : Forall (λ slot, tr_slot_mutex s !! slot = Some HeldByScan) slots) (Hbatch : batch (tr_scan s) = []).

Lemma scan_idle_linear index' :
  let s' := set_scan (ScanIdle index') (unlock_slots slots s1) in
  evolves s s' → same_current s s' → unlisted s' index' → strays_ok s' l → linear s'.
Proof.
  destruct Hacted as [[= Ht Hcl Hk Hsl Hq Hlog] Hst]. intros s' He Hcur Hu Hlok. eapply (scan_frame s); try done.
  - cbn. by rewrite Ht, Hcl, Hk, Hlog.
  - intros slot t Hslot. cbn. rewrite Hsl. by apply unlock_slots_kept.
  - cbn. by rewrite Hq, Hbatch.
  - exists l. by split.
Qed.

Lemma scan_finish_linear :
  let s' := scan_finish (unlock_slots slots s1) in
  evolves s s' → same_current s s' → (∀ k, inside k = true → gone s' k) → strays_ok s' l → linear s'.
Proof.
  intros s'. unfold s'. destruct (scan_finish_spec (unlock_slots slots s1)) as (tasks & -> & Htasks).
  destruct Hacted as [[= Ht Hcl Hk Hsl Hq Hlog] Hst]. intros He Hcur Hg Hlok.
  eapply (answer_frame s _ (tr_queue s) (Simple (bytes_of MIGRATING_FINISHED))); try done.
  - intros t Hin. apply elem_of_app. by left.
  - cbn. rewrite Htasks. cbn [unlock_slots set_slot_mutex tr_queue]. rewrite Hq. by apply answer_syncs_tasks.
  - cbn. by rewrite Hcl, Hk, Hlog.
  - intros slot t Hslot. cbn. rewrite Hsl. by apply unlock_slots_kept.
  - by intros k [].
  - intros _ t tk Hin Htk. apply Hg. by destruct (li_tasks s Hl t tk Htk).
  - constructor.
  - by intros t ?%not_elem_of_nil.
  - by exists l.
Qed.
End scan_moving.

Lemma scan_progress_linear s s1 index next need_retry slots m p l :
  linear s → acted s s1 l → tr_scan s = ScanMoving index next need_retry slots m →
  let s' := scan_progress index next need_retry slots p s1 in
  (∀ locked, stage_ok s locked m → evolves s s' ∧ same_current s s' ∧ progress_ok s' locked p ∧ strays_ok s' l) →
  linear s'.
Proof.
  intros Hl Hacted Hsc s' Hmove. pose proof (li_scan s Hl) as Hok. unfold scan_ok in Hok. rewrite Hsc in Hok.
  destruct Hok as (ks & locked & Hli & Hall & Hlo & Hslots & Hstage).
  destruct (Hmove locked Hstage) as (He & Hcur & Hprog & Hlok). clear Hmove.
  assert (batch (tr_scan s) = []) as Hbatch by by rewrite Hsc.
  assert (unlisted s' index) as Hback.
  { intros k Hk Hg. destruct (listed_mono s _ _ _ _ He Hli k Hk Hg) as (keys & ? & ? & _). by exists keys. }
  destruct p as [m'| |]; [| |by eapply scan_idle_linear].
  - destruct Hacted as [[= Ht Hcl Hk Hsl Hq Hlog] Hst]. eapply (scan_frame s); try done.
    + cbn. by rewrite Ht, Hcl, Hk, Hlog.
    + intros slot t. cbn. by rewrite Hsl.
    + cbn. by rewrite Hq, Hsc.
    + unfold scan_ok. cbn. exists ks, locked. split_and!; [by eapply listed_mono|done| | |done].
      * eapply Forall_impl; [exact Hlo|]. intros k. unfold slot_locked. cbn. by rewrite Hsl.
      * eapply Forall_impl; [exact Hslots|]. intros k. cbn. by rewrite Hsl.
    + by exists l.
  - destruct need_retry; [by eapply scan_idle_linear|].
    assert (∀ k, inside k = true → k ∈ ks → gone s' k) as Hgone.
    { intros k Hk Hin. cbn in Hprog. rewrite Forall_forall in Hprog. apply Hprog. by apply Hall. }
    pose proof (listed_mono s _ _ _ _ He Hli) as Hli'. unfold s' in *. cbn [scan_progress] in *. case_bool_decide as Hz.
    + eapply scan_finish_linear; try done. intros k Hk.
      destruct (node_get (tr_src (scan_finish (unlock_slots slots s1))) k) eqn:Hg; [exfalso|done].
      destruct (Hli' k Hk) as (keys & Hnot & _ & _ & Hin); [unfold gone; congruence|].
      apply elem_of_app in Hin as [?|Hin]; [done| |done]. pose proof (Hgone k Hk Hin) as Hgk. unfold gone in Hgk. congruence.
    + eapply scan_idle_linear; try done. intros k Hk Hg.
      destruct (Hli' k Hk Hg) as (keys & Hnot & _ & Hscn & _). exists (keys ++ ks). split; [|done].
      intros [?|Hin]%elem_of_app; [done|]. by apply Hg, Hgone.
Qed.

Lemma answer_syncs_nodes ts r s :
  tr_src (answer_syncs ts r s) = tr_src s ∧ tr_dst (answer_syncs ts r s) = tr_dst s.
Proof. by destruct (answer_syncs_spec ts r s) as (_ & _ & tasks & ->). Qed.

Lemma scan_progress_nodes index next need_retry slots p s :
  tr_src (scan_progress index next need_retry slots p s) = tr_src s ∧
  tr_dst (scan_progress index next need_retry slots p s) = tr_dst s.
Proof.
  destruct p as [m| |]; [done| |done]. cbn. destruct need_retry; [done|]. case_bool_decide; [|done].
  apply (answer_syncs_nodes _ _ (unlock_slots slots s)).
Qed.

Lemma batch_progress_nodes index ts p s :
  tr_src (batch_progress index ts p s) = tr_src s ∧ tr_dst (batch_progress index ts p s) = tr_dst s.
Proof. destruct p as [m| |]; [done|apply answer_syncs_nodes..]. Qed.

Lemma scan_move_step s s' index next need_retry slots m :
  movable → linear s → tr_scan s = ScanMoving index next need_retry slots m →
  scan_step range scan_count ScanMove s = Some s' → linear s'.
Proof.
  intros Hmov Hl Hsc. unfold scan_step. rewrite Hsc. intros [= <-]. unfold with_nodes.
  destruct (move_step m (tr_src s) (tr_dst s)) as [p [src dst]] eqn:Hx. cbn [fst snd].
  eapply (scan_progress_linear s _ index next need_retry slots m p []); [done|done|done|]. intros locked Hstage.
  set (s1 := set_dst dst (set_src src s)). set (s' := scan_progress _ _ _ _ _ _).
  destruct (move_step_ok Hmov s s' locked Hl m p) as (He & Hcur & Hprog); [done| | | |].
  - intros k Hk. right. by rewrite Hsc.
  - rewrite Hx. unfold s'. by destruct (scan_progress_nodes index next need_retry slots p s1) as [-> ->].
  - intros k _. by eapply (scan_progress_hand s s1 []).
  - split_and!; [done..|constructor].
Qed.

Lemma move_fail_hand m p l k : move_fail m = (p, l) → progress_hand p k → stage_hand m k.
Proof. destruct m as [| |? []]; by intros [= <- <-]. Qed.

Lemma scan_fail_step s s' index next need_retry slots m :
  linear s → tr_scan s = ScanMoving index next need_retry slots m →
  scan_step range scan_count ScanFail s = Some s' → linear s'.
Proof.
  intros Hl Hsc. unfold scan_step. rewrite Hsc. intros [= <-]. unfold with_strays.
  destruct (move_fail m) as [p l] eqn:Hx. cbn [fst snd]. set (s1 := set_strays _ _).
  eapply (scan_progress_linear s s1 index next need_retry slots m p l); [done|done|done|]. intros locked Hstage.
  set (s' := scan_progress _ _ _ _ _ _).
  destruct (scan_progress_nodes index next need_retry slots p s1) as [Hs Hd].
  destruct (still_step s s' Hs Hd) as [He Hcur].
  - intros k _ Hh. destruct (scan_progress_hand s s1 l _ _ _ _ _ _ (Build_acted s s1 l eq_refl eq_refl) Hh); [done|].
    right. rewrite Hsc. by eapply move_fail_hand.
  - destruct (move_fail_ok s s' locked m p l Hstage Hx He) as (? & _ & ?). by split_and!.
Qed.

(** ** Requests that the scan serves *)

Lemma take_step s s' index n :
  linear s → tr_scan s = ScanIdle index → scan_step range scan_count (ScanTake n) s = Some s' → linear s'.
Proof.
  intros Hl Hsc. unfold scan_step. rewrite Hsc. case_bool_decide; [|done]. intros [= <-]. set (s' := set_scan _ _).
  pose proof (li_scan s Hl) as Hs. unfold scan_ok in Hs. rewrite Hsc in Hs.
  destruct (still_step s s') as [He Hcur]; [done..| |].
  { intros k _ Hh. destruct (hand_scan s s' k eq_refl Hh) as [?|[b ?%not_elem_of_nil]]; done. }
  eapply (scan_frame s); try done; [| |same_strays].
  - unfold s'. cbn. rewrite Hsc. cbn. rewrite app_nil_r, (Permutation_app_comm (drop n _)). by rewrite take_drop.
  - unfold scan_ok. cbn. split; [by eapply unlisted_mono|]. split; [|by split_and!].
    apply Forall_forall. intros k Hk. by apply elem_of_task_keys in Hk as [? _].
Qed.

Lemma batch_progress_hand s s1 l index ts p k :
  acted s s1 l → hand (batch_progress index ts p s1) k → hand s k ∨ progress_hand p k.
Proof.
  intros [[= Ht _ _ _ _ _] _]. destruct p as [m'| |]; cbn [batch_progress]; intros Hh.
  - by destruct (hand_scan s (set_scan (ScanBatch index ts m') s1) k Ht Hh); auto.
  - left. eapply answered_hand in Hh; [exact Hh| |by intros []]. cbn. by apply answer_syncs_tasks.
  - left. eapply answered_hand in Hh; [exact Hh| |by intros []]. cbn. by apply answer_syncs_tasks.
Qed.

Lemma batch_answer_linear s s1 l index ts m r :
  linear s → acted s s1 l → tr_scan s = ScanBatch index ts m →
  let s' := set_scan (ScanIdle index) (answer_syncs ts r s1) in
  evolves s s' → same_current s s' →
  (umsync_accepted (Ok r) = true → Forall (gone s') (task_keys range ts s)) → strays_ok s' l → linear s'.
Proof.
  intros Hl [[= Ht Hcl Hk Hsl Hq Hlog] Hst] Hsc s' He Hcur Hg Hlok.
  pose proof (li_scan s Hl) as Hs. unfold scan_ok in Hs. rewrite Hsc in Hs. destruct Hs as [Hu _].
  destruct (answer_syncs_spec ts r s1) as (_ & _ & tasks & Heq). unfold s' in *. rewrite Heq in *.
  destruct (li_queue s Hl) as [Hnd _]. rewrite Hsc in Hnd. apply NoDup_app in Hnd as (Hnd & Hdis & _).
  eapply (answer_frame s _ ts r); try done.
  - rewrite Hsc. intros t Hin. apply elem_of_app. by right.
  - rewrite <-(answer_syncs_tasks ts r s s1 Ht). by rewrite Heq.
  - cbn. by rewrite Hcl, Hk, Hlog.
  - intros slot t. cbn. by rewrite Hsl.
  - by intros k [].
  - intros Ha t tk Hin Htk. specialize (Hg Ha). rewrite Forall_forall in Hg. apply Hg, elem_of_task_keys.
    split; [by destruct (li_tasks s Hl t tk Htk)|eauto].
  - cbn. by rewrite Hq.
  - cbn. rewrite Hq. intros t Hin. split; [|done]. by apply Hdis.
  - unfold scan_ok. cbn. by eapply unlisted_mono.
  - by exists l.
Qed.

Lemma batch_progress_linear s s1 l index ts m p :
  linear s → acted s s1 l → tr_scan s = ScanBatch index ts m →
  let s' := batch_progress index ts p s1 in
  evolves s s' → same_current s s' → progress_ok s' (task_keys range ts s) p → strays_ok s' l → linear s'.
Proof.
  intros Hl Hacted Hsc s' He Hcur Hprog Hlok. destruct p as [m'| |].
  - destruct Hacted as [[= Ht Hcl Hk Hsl Hq Hlog] Hst]. pose proof (li_scan s Hl) as Hs. unfold scan_ok in Hs.
    rewrite Hsc in Hs. destruct Hs as [Hu _]. eapply (scan_frame s); try done.
    + cbn. by rewrite Ht, Hcl, Hk, Hlog.
    + intros slot t. cbn. by rewrite Hsl.
    + cbn. by rewrite Hq, Hsc.
    + unfold scan_ok. cbn. split; [by eapply unlisted_mono|]. rewrite (task_keys_ext s); [done|]. cbn. by rewrite Ht.
    + by exists l.
  - by eapply batch_answer_linear.
  - eapply batch_answer_linear; try done.
Qed.

Lemma batch_step s s' index ts m a :
  movable → linear s → tr_scan s = ScanBatch index ts m → a = ScanMove ∨ a = ScanFail →
  scan_step range scan_count a s = Some s' → linear s'.
Proof.
  intros Hmov Hl Hsc Ha. unfold scan_step. rewrite Hsc. pose proof (li_scan s Hl) as Hs. unfold scan_ok in Hs.
  rewrite Hsc in Hs. destruct Hs as [_ Hstage].
  assert (∀ k, stage_hand m k → hand s k) as Hm by (intros k Hk; right; by rewrite Hsc).
  destruct Ha as [-> | ->]; intros [= <-].
  - unfold with_nodes. destruct (move_step m (tr_src s) (tr_dst s)) as [p [src dst]] eqn:Hx. cbn [fst snd].
    set (s1 := set_dst dst (set_src src s)). set (s' := batch_progress _ _ _ _).
    destruct (move_step_ok Hmov s s' (task_keys range ts s) Hl m p) as (He & Hcur & Hprog); [done|done| | |].
    + rewrite Hx. unfold s'. by destruct (batch_progress_nodes index ts p s1) as [-> ->].
    + intros k _. by eapply (batch_progress_hand s s1 []).
    + eapply (batch_progress_linear s s1 []); try done. constructor.
  - unfold with_strays. destruct (move_fail m) as [p l] eqn:Hx. cbn [fst snd]. set (s1 := set_strays _ _).
    set (s' := batch_progress _ _ _ _). assert (acted s s1 l) as Hac by done.
    destruct (batch_progress_nodes index ts p s1) as [Hs Hd]. destruct (still_step s s' Hs Hd) as [He Hcur].
    + intros k _ Hh. destruct (batch_progress_hand s s1 l _ _ _ _ Hac Hh); [done|]. by eapply Hm, move_fail_hand.
    + destruct (move_fail_ok s s' _ m p l Hstage Hx He) as (? & _ & ?). by eapply (batch_progress_linear s s1 l).
Qed.

(** ** The other steps *)

Lemma release_step s slot :
  linear s → tr_slot_mutex s !! slot = Some Releasing → linear (set_slot_mutex (delete slot (tr_slot_mutex s)) s).
Proof.
  intros Hl Hr. set (s' := set_slot_mutex _ _). destruct (still_step s s') as [He Hcur]; [done..|].
  assert (∀ sl h, tr_slot_mutex s !! sl = Some h → h ≠ Releasing → tr_slot_mutex s' !! sl = Some h) as Hsl.
  { intros sl h Hh Hne. cbn. rewrite lookup_delete_ne by congruence. done. }
  eapply (scan_frame s); try done; [intros; by apply Hsl| |same_strays].
  eapply scan_ok_mono; try done; [by left|intros; by apply Hsl|by apply (li_scan s Hl)].
Qed.

(** A step of the nodes alone. *)
Lemma node_step_linear s s' :
  linear s → evolves s s' → same_current s s' →
  (tr_tasks s', tr_cleaners s', tr_key_lock s', tr_slot_mutex s', tr_queue s', tr_scan s', tr_log s') =
    (tr_tasks s, tr_cleaners s, tr_key_lock s, tr_slot_mutex s, tr_queue s, tr_scan s, tr_log s) →
  tr_strays s' ⊆ tr_strays s → linear s'.
Proof.
  intros Hl He Hcur [= Ht Hcl Hk Hsl Hq Hsc Hlog] Hst. eapply (frame s s' []); try done.
  - intros t _. by rewrite Ht.
  - by intros t tk ?%not_elem_of_nil.
  - intros t k _. unfold key_locked. by rewrite Hk.
  - intros t k _. unfold slot_locked. by rewrite Hsl.
  - rewrite Hcl. intros t kc Hkc. destruct (li_cleaners s Hl t kc Hkc) as (? & ? & ? & ?).
    split_and!; [done|by eapply evolves_ready|unfold key_locked; by rewrite Hk|by rewrite Ht].
  - rewrite Hq, Hsc. destruct (li_queue s Hl) as [? Hf]. split; [done|]. eapply Forall_impl; [exact Hf|].
    intros t (tk & ? & ?). exists tk. by rewrite Ht.
  - eapply scan_ok_mono; try done; [by left|by rewrite Hsl|by rewrite Ht|by apply (li_scan s Hl)].
  - pose proof (strays_mono s s' _ He (li_strays s Hl)) as Hf. rewrite Forall_forall in Hf |- *. by auto.
  - by apply (log_kept s).
Qed.

Lemma stray_step s s' i :
  linear s → transfer_step range scan_count (Stray i) s = Some s' → linear s'.
Proof.
  intros Hl. cbn. destruct (tr_strays s !! i) as [ks|] eqn:Hi; [|done]. cbn. intros [= <-]. set (s' := set_strays _ _).
  pose proof (li_strays s Hl) as Hf. rewrite Forall_forall in Hf.
  destruct (Hf ks) as [Hne Hks]; [by eapply list_elem_of_lookup_2|].
  destruct (delete_step s s' ks) as (He & Hcur & _); [done| |done|done|by left|].
  { eapply Forall_impl; [exact Hks|]. by intros k [_ ?]. }
  eapply (node_step_linear s); try done. cbn. intros x Hx. by eapply elem_of_sublist, sublist_delete.
Qed.

Lemma other_step s s' c k :
  linear s → key_command c k → inside k = false →
  s' = set_src (node_exec c (tr_src s)).1 s ∨ s' = set_dst (node_exec c (tr_dst s)).1 s → linear s'.
Proof.
  intros Hl Hc Hk Hs'. assert (∀ n k', inside k' = true → node_get (node_exec c n).1 k' = node_get n k') as Hn.
  { intros n k' Hk'. destruct (exec_client n c k Hc) as (n' & -> & _ & Hother). cbn. apply Hother. congruence. }
  assert (evolves s s' ∧ same_current s s') as [He Hcur].
  { destruct Hs' as [-> | ->]; apply quiet_step; cbn; auto; [right; by exists c|by intros ?; left..]. }
  eapply (node_step_linear s); try done; by destruct Hs' as [-> | ->].
Qed.

(** ** The invariant holds *)

Lemma linear_step s a s' :
  movable → linear s → admissible range a → transfer_step range scan_count a s = Some s' → linear s'.
Proof.
  intros Hmov Hl Ha Hx.
  assert (∀ t, (tr_tasks s !! t ≫= λ tk, task_step a t tk s) = Some s' →
    ∃ tk, tr_tasks s !! t = Some tk ∧ task_step a t tk s = Some s') as Htask.
  { intros t. destruct (tr_tasks s !! t) as [tk|]; [|done]. eauto. }
  assert (∀ t, (tr_cleaners s !! t ≫= λ '(key, cl), cleaner_step a t key cl s) = Some s' → linear s') as Hcl.
  { intros t. destruct (tr_cleaners s !! t) as [[key cl]|] eqn:Hc; [|done]. by apply cleaner_step_linear. }
  destruct a; try (apply Htask in Hx as (tk & Htk & Hx)).
  - destruct Ha. by eapply arrive_step.
  - by eapply exists_step.
  - by eapply on_exists_step.
  - by eapply fetch_step.
  - by eapply on_fetch_step.
  - by eapply restored_step.
  - by apply (Hcl t).
  - by apply (Hcl t).
  - by apply (Hcl t).
  - by eapply pending_step.
  - by eapply sync_arrive_step.
  - by eapply sync_gone_step.
  - by eapply sync_move_step.
  - by eapply sync_fail_step.
  - by eapply on_sync_step.
  - cbn in Hx. destruct (tr_slot_mutex s !! slot) as [[]|] eqn:Hs; try done. injection Hx as <-. by apply release_step.
  - by eapply run_step.
  - by eapply drop_task_step.
  - pose proof Hx as Hx'. cbn in Hx'. destruct (tr_scan s) eqn:Hsc; try done. by eapply scan_call_step.
  - pose proof Hx as Hx'. cbn in Hx'. destruct (tr_scan s) eqn:Hsc; try done. by eapply on_scan_step.
  - pose proof Hx as Hx'. cbn in Hx'. destruct (tr_scan s) eqn:Hsc; try done. by eapply scan_lock_step.
  - pose proof Hx as Hx'. cbn in Hx'. destruct (tr_scan s) eqn:Hsc; try done; [by eapply scan_move_step|].
    eapply batch_step; [done|done|done|by left|exact Hx].
  - pose proof Hx as Hx'. cbn in Hx'. destruct (tr_scan s) eqn:Hsc; try done; [by eapply scan_fail_step|].
    eapply batch_step; [done|done|done|by right|exact Hx].
  - pose proof Hx as Hx'. cbn in Hx'. destruct (tr_scan s) eqn:Hsc; try done. by eapply take_step.
  - by eapply stray_step.
  - destruct Ha as (k & ? & ?). injection Hx as <-. eapply other_step; [done..|]. by left.
  - destruct Ha as (k & ? & ?). injection Hx as <-. eapply other_step; [done..|]. by right.
Qed.
End linear.
