(* ===== verification/MiniRedis.v ===== *)
(** * A small Redis

    An instance of the classes [Redis] and [Strings]: a store of strings with the commands that
    the migration uses and some commands of clients.  It shows that their laws
    can be satisfied, and concrete runs of the migration are computed with it. *)

From S2P Require Import Prelude RangeList RustStr Resp Packet Command ClusterMeta Wire Keys Strings.

Abbreviation mini_node := (gmap bytes (bytes * option N)) (only parsing).

Abbreviation mini_value := (option (bytes * option N)) (only parsing).

Definition mini_expiry (t : bytes) : option N :=
  if bool_decide (t = bytes_of "0") then None else from_utf8 t ≫= parse_u64.

(** The client's commands of one key. *)
Definition mini_effect (words : list bytes) (v : mini_value) : mini_value * RespVec :=
  let value_reply := Bulk (match v with Some (d, _) => Str d | None => BulkNil end) in
  let number := Integer (bytes_of (match v with Some _ => "1" | None => "0" end)) in
  match words with
  | [op; _; d] =>
      if bool_decide (op = bytes_of "SET") then (Some (d, None), Simple (bytes_of "OK"))
      else if bool_decide (op = bytes_of "GETSET") then (Some (d, None), value_reply)
      else if bool_decide (op = bytes_of "SETNX") || bool_decide (op = bytes_of "MSETNX") then
        match v with
        | None => (Some (d, None), Integer (bytes_of "1"))
        | Some _ => (v, Integer (bytes_of "0"))
        end
      else (v, Error [])
  | [op; _; t; d] =>
      if bool_decide (op = bytes_of "SETEX") || bool_decide (op = bytes_of "PSETEX") then
        match mini_expiry t with
        | Some n => (Some (d, Some (if bool_decide (op = bytes_of "SETEX") then 1000 * n else n)%N), Simple (bytes_of "OK"))
        | None => (v, Error [])
        end
      else (v, Error [])
  | [op; _] =>
      if bool_decide (op = bytes_of "GET") then (v, value_reply)
      else if bool_decide (op = bytes_of "GETDEL") then (None, value_reply)
      else if bool_decide (op = bytes_of "DEL") then (None, number)
      else if bool_decide (op = bytes_of "EXISTS") then (v, number)
      else (v, Error [])
  | _ => (v, Error [])
  end.

Definition mini_client (words : list bytes) (n : mini_node) : mini_node * RespVec :=
  match words with
  | _ :: key :: _ =>
      let '(v, r) := mini_effect words (n !! key) in (partial_alter (λ _, v) key n, r)
  | _ => (n, Error [])
  end.

Definition mini_run (words : list bytes) (n : mini_node) : mini_node * RespVec :=
  match words with
  | [] => (n, Error [])
  | op :: args =>
      if bool_decide (op = bytes_of "EXISTS") then
        match args with
        | [k] => (n, Integer (bytes_of (match n !! k with Some _ => "1" | None => "0" end)))
        | _ => (n, Error [])
        end
      else if bool_decide (op = bytes_of "DUMP") then
        match args with
        | [k] => (n, Bulk (match n !! k with Some v => Str v.1 | None => BulkNil end))
        | _ => (n, Error [])
        end
      else if bool_decide (op = bytes_of "PTTL") then
        match args with
        | [k] => (n, Integer (match n !! k with Some v => pttl_text v.2 | None => bytes_of "-2" end))
        | _ => (n, Error [])
        end
      else if bool_decide (op = bytes_of "RESTORE") then
        match args with
        | [k; t; d] =>
            match n !! k with
            | Some _ => (n, Error (bytes_of "BUSYKEY" ++ bytes_of " Target key name already exists."))
            | None => (<[k := (d, mini_expiry t)]> n, Simple (bytes_of "OK"))
            end
        | _ => (n, Error [])
        end
      else if bool_decide (op = bytes_of "SCAN") then (n, scan_reply 0 (map_to_list n).*1)
      else if bool_decide (op = bytes_of "DEL") then
        (foldr delete n args,
         Integer (bytes_of (to_string (N.of_nat (length (omap (n !!.) (remove_dups args)))))))
      else mini_client words n
  end.

Definition mini_exec (c : RespVec) (n : mini_node) : mini_node * RespVec :=
  match get_resp_bytes c with Some words => mini_run words n | None => (n, Error []) end.

Definition mini_command (c : RespVec) (key : bytes) : Prop :=
  (∃ op, op ∈ bytes_of <$> ["GET"; "DEL"; "GETDEL"; "EXISTS"] ∧ c = command_value [op; key]) ∨
  (∃ op d, op ∈ bytes_of <$> ["SET"; "GETSET"; "SETNX"; "MSETNX"] ∧ c = command_value [op; key; d]) ∨
  (∃ op t d, op ∈ bytes_of <$> ["SETEX"; "PSETEX"] ∧ c = command_value [op; key; t; d]).

#[export] Instance mini_redis : Redis := {|
  node := mini_node;
  data := bytes;
  serialize d := d;
  node_get n k := n !! k;
  node_exec := mini_exec;
  key_command := mini_command;
  command_effect c v := match get_resp_bytes c with Some words => mini_effect words v | None => (v, Error []) end;
|}.

(** ** The laws *)

Lemma mini_words l n : mini_exec (command_value l) n = mini_run l n.
Proof. unfold mini_exec, command_value. cbn [get_resp_bytes]. by rewrite resp_bytes_bulks. Qed.

Lemma mini_expiry_text ttl :
  ttl ≠ Some 0%N → (∀ ms, ttl = Some ms → (ms ≤ i64_max)%N) → mini_expiry (expire_text ttl) = ttl.
Proof.
  intros Hz Hms. unfold mini_expiry. destruct ttl as [ms|]; [|done]. specialize (Hms ms eq_refl). cbn [expire_text].
  assert (parse_u64 (to_string ms) = Some ms) as Hp.
  { apply parse_u64_to_string. by etrans; [exact Hms|]. }
  rewrite bool_decide_eq_false_2, number_text; [done|]. intros Heq%bytes_of_inj. rewrite Heq in Hp. vm_compute in Hp. congruence.
Qed.

Lemma foldr_delete_lookup (ks : list bytes) (n : mini_node) k :
  foldr delete n ks !! k = if bool_decide (k ∈ ks) then None else n !! k.
Proof.
  induction ks as [|k' ks IH]; [done|]. cbn [foldr]. destruct (decide (k = k')) as [->|Hne].
  - by rewrite lookup_delete_eq, bool_decide_eq_true_2 by (by left).
  - rewrite lookup_delete_ne, IH by done. by rewrite (bool_decide_ext (k ∈ k' :: ks) (k ∈ ks)) by set_solver.
Qed.

Lemma mini_scan_complete (count cur : N) (k : bytes) (keys ks : list bytes) (n n' : mini_node) :
  scanned count k cur keys n → mini_exec (command_value (scan_cmd cur count)) n = (n', scan_reply 0 ks) → k ∈ keys ++ ks.
Proof.
  intros Hs. rewrite mini_words. cbn -[scan_reply]. intros [= _ Hks].
  assert (ks = (map_to_list n).*1) as ->.
  { apply (inj Some). rewrite <-!resp_bytes_bulks. congruence. }
  assert (is_Some (n !! k)) as [v Hv].
  { apply not_eq_None_Some. by destruct Hs as [|???? _ (c & _ & ?)|]. }
  apply elem_of_app. right. apply list_elem_of_fmap. exists (k, v). split; [done|]. by apply elem_of_map_to_list.
Qed.

Lemma mini_client_ok (n : mini_node) c k :
  mini_command c k → ∃ n', mini_exec c n = (n', (command_effect c (n !! k)).2) ∧
  n' !! k = (command_effect c (n !! k)).1 ∧ ∀ k', k' ≠ k → n' !! k' = n !! k'.
Proof.
  assert (∀ words v r, get_resp_bytes c = Some words → mini_run words n = (partial_alter (λ _, v) k n, r) →
    mini_effect words (n !! k) = (v, r) → ∃ n', mini_exec c n = (n', (command_effect c (n !! k)).2) ∧
    n' !! k = (command_effect c (n !! k)).1 ∧ ∀ k', k' ≠ k → n' !! k' = n !! k') as Hgen.
  { intros words v r Hw Hr He. exists (partial_alter (λ _, v) k n). cbn. unfold mini_exec. rewrite Hw, Hr, He. cbn.
    split_and!; [done|apply lookup_partial_alter_eq|]. intros k' Hne. by apply lookup_partial_alter_ne. }
  assert (∀ words, mini_run words n = mini_client words n → nth_error words 1 = Some k → c = command_value words →
    ∃ n', mini_exec c n = (n', (command_effect c (n !! k)).2) ∧
      n' !! k = (command_effect c (n !! k)).1 ∧ ∀ k', k' ≠ k → n' !! k' = n !! k') as Hclient.
  { intros [|op [|k0 words]] Hr Hk ->; [done..|]. injection Hk as ->. destruct (mini_effect (op :: k :: words) (n !! k)) as [v r] eqn:He.
    eapply Hgen; [apply resp_bytes_bulks| |exact He]. rewrite Hr. unfold mini_client. by rewrite He. }
  intros [(op & Hop & Hc)|[(op & d & Hop & Hc)|(op & t & d & Hop & Hc)]]; cbn in Hop;
    repeat (apply elem_of_cons in Hop as [->|Hop]; [|try by apply elem_of_nil in Hop]).
  - by apply (Hclient [bytes_of "GET"; k]).
  - subst c. eapply Hgen; [done..|]. cbn -[to_string remove_dups]. change (remove_dups [k]) with [k]. cbn [omap list_omap]. by destruct (n !! k).
  - by apply (Hclient [bytes_of "GETDEL"; k]).
  - subst c. eapply Hgen; [done| |done]. cbn. f_equal. symmetry. apply partial_alter_self.
  - by apply (Hclient [bytes_of "SET"; k; d]).
  - by apply (Hclient [bytes_of "GETSET"; k; d]).
  - by apply (Hclient [bytes_of "SETNX"; k; d]).
  - by apply (Hclient [bytes_of "MSETNX"; k; d]).
  - by apply (Hclient [bytes_of "SETEX"; k; t; d]).
  - by apply (Hclient [bytes_of "PSETEX"; k; t; d]).
Qed.

Lemma mini_restore_busy (n : mini_node) (k t d : bytes) :
  n !! k ≠ None → mini_exec (command_value [bytes_of "RESTORE"; k; t; d]) n =
    (n, Error (bytes_of "BUSYKEY" ++ bytes_of " Target key name already exists.")).
Proof.
  intros Hk. rewrite mini_words. unfold mini_run. rewrite bool_decide_eq_false_2 by done.
  rewrite bool_decide_eq_false_2 by done. rewrite bool_decide_eq_false_2 by done.
  rewrite bool_decide_eq_true_2 by done. by destruct (n !! k).
Qed.

#[export] Instance mini_redis_laws : RedisLaws.
Proof.
  split; cbn -[command_value bytes_of scan_cmd to_string].
  - intros n k. exists n. split; [done|]. apply mini_words.
  - intros n k. exists n. split; [done|]. apply mini_words.
  - intros n k. exists n. split; [done|]. apply mini_words.
  - intros n k d ttl Hk Hz Hms. eexists. rewrite mini_words. cbn -[expire_text mini_expiry]. rewrite Hk. split; [done|].
    rewrite lookup_insert_eq, mini_expiry_text by done. split; [done|]. intros k' Hne. by rewrite lookup_insert_ne.
  - intros n k t d Hk. do 2 eexists. split; [|by apply mini_restore_busy]. done.
  - intros n ks _. do 2 eexists. rewrite mini_words. split; [done|]. intros k. apply foldr_delete_lookup.
  - intros n cur count. exists n, 0%N, (map_to_list n).*1. split; [done|]. split; [done|]. apply mini_words.
  - intros n c k Hc. by apply mini_client_ok.
  - intros. by eapply mini_scan_complete.
Qed.

(** ** Strings *)

#[export] Instance mini_strings : Strings := {| string_data b := b : data; string_of d := Some d |}.

#[export] Instance mini_string_laws : StringLaws.
Proof.
  split; [done|..]; cbn -[command_value bytes_of mini_expiry].
  - intros k. split; [left; eexists; split; [|done]; set_solver|]. by intros [[]|].
  - intros k b. split; [right; left; do 2 eexists; split; [|done]; set_solver|]. done.
  - intros k b. split; [right; left; do 2 eexists; split; [|done]; set_solver|]. by intros [[]|].
  - intros k b. split; [right; left; do 2 eexists; split; [|done]; set_solver|]. by intros [[]|].
  - intros millis k t. split.
    { intros b. right. right. do 3 eexists. split; [|done]. destruct millis; set_solver. }
    destruct (mini_expiry t) as [n|] eqn:Ht.
    + right. destruct millis; eexists; intros b v; cbn -[mini_expiry]; by rewrite Ht.
    + left. exists []. intros b v. destruct millis; cbn -[mini_expiry]; by rewrite Ht.
  - intros k. split; [left; eexists; split; [|done]; set_solver|]. by intros [[]|].
  - intros k. split; [left; eexists; split; [|done]; set_solver|]. by intros [[]|].
Qed.
