(* ===== verification/Transparent.v ===== *)
(** * Moving keys: what the clients and the operator can rely on

    The theorems on the migration of keys, from the invariant of [Linear], and
    two runs in which a key does not arrive as it should. *)

From S2P Require Import Prelude RangeList RustStr Resp Packet Command ClusterMeta Wire Keys Transfer Linear MiniRedis.

Section transparent.
Context `{RedisLaws} `{BtoiLaws} `{Crc16}.
Context (range : SlotRangeArray) (scan_count : N) (src dst : node).

#[local] Abbreviation init := (node_get src).

Lemma linear_new :
  (∀ k, inside range k = true → node_get dst k = None) → linear range scan_count init (transfer_new src dst).
Proof.
  intros Hdst. split; cbn.
  - by left.
  - by intros t tk ?.
  - by intros t tk ?.
  - split; constructor.
  - intros k Hk Hg. exists []. split; [apply not_elem_of_nil|]. by constructor.
  - constructor.
  - split; [done|]. intros k Hk. unfold current. cbn. by rewrite Hdst.
Qed.

Lemma transferring_linear s :
  movable range init → (∀ k, inside range k = true → node_get dst k = None) →
  transferring range scan_count src dst s → linear range scan_count init s.
Proof.
  intros Hmov Hdst. induction 1 as [|s a s' _ IH Ha Hx]; [by apply linear_new|]. by eapply linear_step.
Qed.


End transparent.

(** ** Runs *)

Section runs.
Context `{Redis} `{DecoderEnv} `{Crc16} (range : SlotRangeArray) (scan_count : N) (src dst : node).

Definition run_transfer : list TAction → Transfer → option Transfer := run_steps (transfer_step range scan_count).

Lemma run_transferring actions s s' :
  Forall (admissible range) actions → transferring range scan_count src dst s →
  run_transfer actions s = Some s' → transferring range scan_count src dst s'.
Proof.
  intros Ha. apply run_steps_invariant. intros a t t' Hin. rewrite Forall_forall in Ha. intros Ht Hx.
  eapply transferring_step; [exact Ht|by apply Ha|exact Hx].
Qed.
End runs.

#[local] Existing Instances env_64 env_64_laws bitwise_crc16.

Definition demo_range : SlotRangeArray := slot_range_array_new [mkRange 12182 12182].
Definition demo_command (words : list bytes) : Command :=
  match command_new (command_value words) with Ok c => c | _ => mkCommand (Error []) (mkCommandInfo TInvalid DOthers None) end.

Definition demo_store : gmap bytes (bytes * option N) :=
  {[bytes_of "foo" := (bytes_of "one", Some 5000%N); bytes_of "a{foo}" := (bytes_of "two", None);
    bytes_of "b{foo}" := (bytes_of "three", Some 70%N); bytes_of "bar" := (bytes_of "four", None)]}.
Definition demo_src : node := demo_store.

(** [foo] is read and fetched for it, [a{foo}] is deleted and moved before that,
    the rest is scanned. *)
Definition demo_actions : list TAction :=
  [Arrive 1 (demo_command [bytes_of "GET"; bytes_of "foo"]); DstExists 1; OnExists 1; SrcFetch 1; SrcFetch 1; OnFetch 1;
   Arrive 2 (demo_command [bytes_of "DEL"; bytes_of "a{foo}"]); SyncArrive 2; SyncMove 2; SyncMove 2; SyncMove 2;
   DstRestore 1; SyncMove 2; DstRun 1; SyncMove 2; SyncMove 2; SyncMove 2; OnRestore 1; SrcRemove 1; OnSync 2;
   ReleaseSlot (generate_lock_slot (bytes_of "a{foo}")); DstRun 2;
   ScanCall; OnScan; ScanLock; ScanLock] ++ repeat ScanMove 7.

Definition run_or_new (src : node) (actions : list TAction) : Transfer :=
  default (transfer_new src ∅) (run_transfer demo_range 10 actions (transfer_new src ∅)).
Definition demo_end : Transfer := run_or_new demo_src demo_actions.

Lemma demo_admissible : Forall (admissible demo_range) demo_actions.
Proof.
  unfold demo_actions. cbn [repeat app]. repeat (apply List.Forall_cons; [try exact I|]); [| |apply List.Forall_nil].
  - split; [|by intros _ [d ttl]]. intros key [= <-]. left. eexists. split; [|done]. set_solver.
  - split; [|done]. intros key [= <-]. left. eexists. split; [|done]. set_solver.
Qed.

Lemma demo_reached : transferring demo_range 10 demo_src ∅ demo_end.
Proof.
  apply (run_transferring demo_range 10 demo_src ∅ demo_actions (transfer_new demo_src ∅)); [apply demo_admissible| |].
  - constructor.
  - assert (from_option (λ _, true) false (run_transfer demo_range 10 demo_actions (transfer_new demo_src ∅)) = true) as Hd
      by (vm_compute; reflexivity).
    unfold demo_end, run_or_new. by destruct (run_transfer demo_range 10 demo_actions (transfer_new demo_src ∅)).
Qed.

Lemma demo_movable : movable demo_range (node_get demo_src).
Proof.
  intros k v _ Hv. change (demo_store !! k = Some v) in Hv. revert Hv. unfold demo_store.
  rewrite !lookup_insert_Some, lookup_singleton_Some.
  intros [[_ <-]|[_ [[_ <-]|[_ [[_ <-]|[_ [_ <-]]]]]]]; cbn; split; try done; by intros ? [= <-].
Qed.

Lemma demo_empty k : inside demo_range k = true → node_get (∅ : gmap bytes (bytes * option N)) k = None.
Proof. intros _. apply (lookup_empty (M := gmap bytes)). Qed.



(** ** Keys that do not arrive as they should *)

Definition one_key (ttl : option N) : node := {[bytes_of "foo" := (bytes_of "one", ttl)]}.

(** [GETDEL] deletes its key, but it is not among the commands that are moved
    in a blocking way.  While it is executed the scan holds the old value. *)
Definition undone_actions : list TAction :=
  [Arrive 1 (demo_command [bytes_of "GETDEL"; bytes_of "foo"]); DstExists 1; OnExists 1; SrcFetch 1; SrcFetch 1;
   OnFetch 1; ScanCall; OnScan; ScanLock; ScanLock; ScanMove; ScanMove; ScanMove; DstRestore 1; DstRun 1] ++
  repeat ScanMove 4.

(** A command that deletes its key and is not classified as one that may do so
    is undone: the client got the value and the key is deleted, then the scan
    restores it, and the migration ends with the key back at the destination. *)
Theorem deletion_undone :
  let s := run_or_new (one_key None) undone_actions in
  tr_scan s = ScanFinished ∧
  tr_log s = [(command_value [bytes_of "GETDEL"; bytes_of "foo"], bytes_of "foo", Bulk (Str (bytes_of "one")))] ∧
  final (node_get (one_key None)) (tr_log s) (bytes_of "foo") = None ∧
  node_get (tr_dst s) (bytes_of "foo") = Some (bytes_of "one", None).
Proof. vm_compute. repeat split. Qed.

(** A key that is scanned in its last millisecond never expires any more: its
    [PTTL] is 0, and 0 means no expiry to [RESTORE]. *)
Theorem last_millisecond_persists :
  let s := run_or_new (one_key (Some 0%N)) ([ScanCall; OnScan; ScanLock; ScanLock] ++ repeat ScanMove 7) in
  tr_scan s = ScanFinished ∧ node_get (tr_dst s) (bytes_of "foo") = Some (bytes_of "one", None).
Proof. vm_compute. split; reflexivity. Qed.
