(* ===== verification/Batch.v ===== *)
(** * Batching

    When a connection to Redis flushes its buffer ([common/batch.rs]) and how a
    stream is cut into chunks ([common/try_chunks.rs]).  Durations and instants
    are nanoseconds; the clock and the timers are arguments. *)

From S2P Require Import Prelude.

(** ** The flush size *)

Inductive BatchStrategy : Type := BatchDisabled | BatchFixed | BatchDynamic.

Definition second : N := 1000000000.
Definition SAMPLE_INTERVAL : N := 5 * second.
Definition BEST_RECORD_TTL : N := 300 * second.
Definition MAX_RANDOM_DT : N := 256.
Definition u128_max : N := 2 ^ 128 - 1.

Record BatchOptimizer : Type := mkBatchOptimizer {
  bo_wbuf_size : N;
  bo_best_flush_size : N;
  bo_best_spr : N;
  bo_best_start_time : N;
  bo_curr_flush_size : N;
  bo_curr_data_requested : N;
  bo_increase_flush_size : bool;
  bo_last_record_time : N;
}.

Definition optimizer_new (now flush_size wbuf_size : N) : BatchOptimizer :=
  mkBatchOptimizer wbuf_size flush_size u128_max now flush_size 0 true now.

Definition add_data (len : N) (o : BatchOptimizer) : BatchOptimizer :=
  mkBatchOptimizer (bo_wbuf_size o) (bo_best_flush_size o) (bo_best_spr o) (bo_best_start_time o)
    (bo_curr_flush_size o) (wadd (bo_curr_data_requested o) len) (bo_increase_flush_size o) (bo_last_record_time o).

(** The size to try next, from the best one. *)
Definition next_flush_size (increase : bool) (best random_dt : N) : N :=
  if increase then wadd best (N.max (best / 10) random_dt)
  else let d := N.max (best / 11) random_dt in
       if (d <? best)%N then (best - d)%N else best.

Definition tick (now : N) (o : BatchOptimizer) : BatchOptimizer :=
  let interval := (now - bo_last_record_time o)%N in
  if (interval <? SAMPLE_INTERVAL)%N then o
  else if (bo_curr_data_requested o =? 0)%N then
    mkBatchOptimizer (bo_wbuf_size o) (bo_best_flush_size o) (bo_best_spr o) (bo_best_start_time o)
      (bo_curr_flush_size o) (bo_curr_data_requested o) (bo_increase_flush_size o) now
  else
    let best_spr := if (BEST_RECORD_TTL <? now - bo_best_start_time o)%N then u128_max else bo_best_spr o in
    let spr := (interval / bo_curr_data_requested o)%N in
    let better := (spr <? best_spr)%N in
    let best := if better then bo_curr_flush_size o else bo_best_flush_size o in
    let random_dt := ((interval `mod` second) `mod` MAX_RANDOM_DT)%N in
    mkBatchOptimizer (bo_wbuf_size o) best (if better then spr else best_spr)
      (if better then now else bo_best_start_time o)
      (N.min (next_flush_size (bo_increase_flush_size o) best random_dt) (bo_wbuf_size o))
      0 (negb (bo_increase_flush_size o)) now.

(** ** The state of a connection *)

Record BatchState : Type := mkBatchState {
  bs_strategy : BatchStrategy;
  bs_flush_size : N;
  bs_low_flush_interval : N;
  bs_optimizer : option BatchOptimizer;
  bs_content_size : N;
  bs_last_flush_interval : N;
  bs_last_flush_time : N;
  bs_cached_now : N;
}.

Definition batch_state_new (now : N) (strategy : BatchStrategy) (flush_size wbuf_size low_flush_interval : N) :
    BatchState :=
  mkBatchState strategy flush_size low_flush_interval
    (match strategy with BatchDynamic => Some (optimizer_new now flush_size wbuf_size) | _ => None end)
    0 low_flush_interval now now.

Definition add_content_size (n : N) (b : BatchState) : BatchState :=
  mkBatchState (bs_strategy b) (bs_flush_size b) (bs_low_flush_interval b) (add_data n <$> bs_optimizer b)
    (wadd (bs_content_size b) n) (bs_last_flush_interval b) (bs_last_flush_time b) (bs_cached_now b).

Definition current_flush_size (b : BatchState) : N :=
  match bs_optimizer b with Some o => bo_curr_flush_size o | None => bs_flush_size b end.

(** [timer]: the interval timer has fired. *)
Definition need_flush (now : N) (timer : bool) (b : BatchState) : BatchState * bool :=
  match bs_strategy b with
  | BatchDisabled => (b, (0 <? bs_content_size b)%N)
  | _ =>
      if (bs_content_size b =? 0)%N then (b, false)
      else
        (mkBatchState (bs_strategy b) (bs_flush_size b) (bs_low_flush_interval b) (bs_optimizer b) (bs_content_size b)
           (bs_last_flush_interval b) (bs_last_flush_time b) now,
         if (current_flush_size b <=? bs_content_size b)%N then true
         else if (bs_low_flush_interval b <=? now - bs_last_flush_time b)%N then true
         else timer)
  end.

Definition reset (b : BatchState) : BatchState :=
  match bs_strategy b with
  | BatchDisabled =>
      mkBatchState (bs_strategy b) (bs_flush_size b) (bs_low_flush_interval b) (bs_optimizer b) 0
        (bs_last_flush_interval b) (bs_last_flush_time b) (bs_cached_now b)
  | _ =>
      let now := bs_cached_now b in
      mkBatchState (bs_strategy b) (bs_flush_size b) (bs_low_flush_interval b) (tick now <$> bs_optimizer b) 0
        (now - bs_last_flush_time b) now now
  end.

(** ** Chunks of a stream *)

Inductive stream_poll (A : Type) : Type := StreamItem (x : A) | StreamPending | StreamEnd.
Arguments StreamItem {A} _.
Arguments StreamPending {A}.
Arguments StreamEnd {A}.

(** [TryChunks::poll_next]: the polls of the inner stream, the result, what is
    kept and the polls that are left. *)
Fixpoint chunks_poll_next {A} (cap : nat) (items : list A) (polls : list (stream_poll A)) :
    stream_poll (list A) * list A * list (stream_poll A) :=
  match polls with
  | [] | StreamPending :: _ =>
      ((match items with [] => StreamPending | _ => StreamItem items end), [], tail polls)
  | StreamItem x :: polls =>
      let items := items ++ [x] in
      if cap <=? length items then (StreamItem items, [], polls) else chunks_poll_next cap items polls
  | StreamEnd :: polls => ((match items with [] => StreamEnd | _ => StreamItem items end), [], StreamEnd :: polls)
  end.

Definition stream_items {A} (polls : list (stream_poll A)) : list A :=
  omap (λ p, match p with StreamItem x => Some x | _ => None end) polls.

(** ** Facts *)

(** Sizes stay between 1 and the size of the buffer. *)
Definition optimizer_ok (o : BatchOptimizer) : Prop :=
  (0 < bo_best_flush_size o ≤ bo_wbuf_size o ∧ 0 < bo_curr_flush_size o ≤ bo_wbuf_size o ∧
   2 * bo_wbuf_size o + MAX_RANDOM_DT < u64_modulus)%N.

Lemma next_flush_size_pos increase best random_dt :
  (0 < best)%N → (best + N.max (best / 10) random_dt < u64_modulus)%N → (0 < next_flush_size increase best random_dt)%N.
Proof.
  intros Hb Hf. unfold next_flush_size. destruct increase.
  - rewrite wadd_small by done. lia.
  - destruct (N.ltb_spec (N.max (best / 11) random_dt) best); lia.
Qed.

Lemma tick_ok now o : optimizer_ok o → optimizer_ok (tick now o).
Proof.
  intros (Hb & Hc & Hw). unfold tick. destruct (_ <? SAMPLE_INTERVAL)%N; [done|]. destruct (_ =? 0)%N; [done|].
  set (best := if (_ <? _)%N then bo_curr_flush_size o else bo_best_flush_size o).
  assert (0 < best ≤ bo_wbuf_size o)%N as Hbest by (unfold best; destruct (_ <? _)%N; lia).
  split_and!; cbn; [lia|lia| | |done]; [|lia].
  set (dt := ((_ `mod` second) `mod` MAX_RANDOM_DT)%N).
  assert (dt < MAX_RANDOM_DT)%N as Hdt by (apply N.mod_lt; done).
  assert (best / 10 ≤ best)%N as Hdiv by (apply N.Div0.div_le_upper_bound; lia).
  apply N.min_glb_lt_iff. split; [|lia]. apply next_flush_size_pos; lia.
Qed.

(** No data waits longer than the interval. *)
Lemma need_flush_due now timer b :
  (0 < bs_content_size b)%N → (bs_low_flush_interval b ≤ now - bs_last_flush_time b)%N → (need_flush now timer b).2 = true.
Proof.
  intros Hc Hl. unfold need_flush. destruct (bs_strategy b); cbn.
  1: by apply N.ltb_lt.
  all: rewrite (proj2 (N.eqb_neq _ 0)) by lia; cbn; destruct (_ <=? _)%N; [done|]; by rewrite (proj2 (N.leb_le _ _)).
Qed.

Lemma chunks_poll_next_spec {A} cap (polls : list (stream_poll A)) : ∀ items r kept rest,
  length items < cap → chunks_poll_next cap items polls = (r, kept, rest) →
  kept = [] ∧ match r with
              | StreamItem chunk => 0 < length chunk ≤ cap ∧ items ++ stream_items polls = chunk ++ stream_items rest
              | _ => items = [] ∧ (polls = [] ∨ stream_items polls = stream_items rest)
              end.
Proof.
  induction polls as [|[x| |] polls IH]; intros items r kept rest Hlen; cbn.
  - intros [= <- <- <-]. split; [done|]. destruct items; [by auto|]. cbn in *. split; [lia|done].
  - case_match eqn:Hc.
    + intros [= <- <- <-]. split; [done|]. rewrite length_app. cbn. split; [lia|]. by rewrite <-app_assoc.
    + intros Hx. apply Nat.leb_gt in Hc. destruct (IH _ _ _ _ Hc Hx) as [-> Hr]. split; [done|].
      destruct r; [by rewrite <-app_assoc in Hr|..].
      all: destruct Hr as [He _]; by apply app_nil in He as [_ ?].
  - intros [= <- <- <-]. split; [done|]. destruct items; [by auto|]. cbn in *. split; [lia|done].
  - intros [= <- <- <-]. split; [done|]. destruct items; [by auto|]. cbn in *. split; [lia|done].
Qed.
