(* ===== verification/Backend.v ===== *)
(** * Connections to Redis

    How a proxy sends commands to a Redis node ([proxy/backend.rs]): a task is
    put into the channel of a [BackendNode]; the future [handle_backend] keeps a
    connection, writes the packets of the tasks, gives the responses to the
    tasks in order, and takes tasks to the next connection when one breaks.  On
    top of it are the senders of [proxy/sender.rs].

    A poll of [handle_conn] is one step; what the channel, the writer, the
    reader and the timers answer during the poll is its argument. *)

From S2P Require Import Prelude RangeList RustStr Resp Packet Command ClusterMeta Wire MetaMap Keys Batch.

Definition MAX_BACKEND_RETRY : nat := 3.
Definition CONN_WRITE_BUF_SIZE : N := 8192.
Definition ERR_BACKEND_CONNECTION : string := "ERR_BACKEND_CONNECTION".

(** ** What happens to a task *)

Inductive task_result (P : Type) : Type :=
| HandleTask (r : outcome BackendError P)
| SetResult (err : CommandError)
| SetResp (resp : RespVec)
| DropTask.
Arguments HandleTask {P} _.
Arguments SetResult {P} _.
Arguments SetResp {P} _.
Arguments DropTask {P}.

Inductive write_poll : Type := WPending | WReady (send : option BackendError) | WError (err : BackendError).
Inductive flush_poll : Type := FPending | FDone | FError (err : BackendError).

Section backend.
Context {T P : Type} (get_packet : T → P) (size_hint : P → option N).

Record RetryState : Type := mkRetryState { retry_times : nat; retry_tasks : list T }.

Definition command_error (err : BackendError) : CommandError :=
  match err with BackendIo => CmdIo | _ => InnerError end.

Definition handle_conn_err (retry_times_opt : option nat) (tasks : list T) (err : BackendError) :
    option RetryState * list (T * task_result P) :=
  let times := default 0 retry_times_opt in
  if MAX_BACKEND_RETRY <=? times then (None, (λ t, (t, SetResult (command_error err))) <$> tasks)
  else (Some (mkRetryState (S times) tasks), []).

(** ** A connection *)

(** The last two fields are the history of the connection: the packets that
    were written, and the tasks that got a response. *)
Record Conn : Type := mkConn {
  cn_retry : option RetryState;
  cn_tasks : list T;
  cn_packets : list P;
  cn_batch : BatchState;
  cn_response_received : bool;
  cn_task_empty : bool;
  cn_sent : list P;
  cn_handled : list (T * outcome BackendError P);
}.

Record conn_env : Type := mkConnEnv {
  ce_writer : list write_poll;
  ce_flush : flush_poll;
  ce_now : N;
  ce_timer : bool;
  ce_reads : list (outcome BackendError P);
  ce_reads_end : bool;
  ce_tick : bool;
}.

Definition conn_new (retry : option RetryState) (batch : BatchState) : Conn :=
  mkConn retry [] [] batch false true [] [].

(** The loop of the writer: the error, the packets left and what was written. *)
Fixpoint write_loop (env : conn_env) (task_num : nat) (polls : list write_poll) (packets : list P)
    (batch : BatchState) (sent : list P) : option BackendError * list P * BatchState * list P :=
  match polls with
  | [] | WPending :: _ => (None, packets, batch, sent)
  | WError err :: _ => (Some err, packets, batch, sent)
  | WReady send :: polls =>
      match packets with
      | packet :: packets =>
          let batch := add_content_size (default 0%N (size_hint packet)) batch in
          match send with
          | Some err => (Some err, packets, batch, sent)
          | None =>
              if task_num <? S (length packets) then (Some BackendInvalidState, packets, batch, sent ++ [packet])
              else write_loop env task_num polls packets batch (sent ++ [packet])
          end
      | [] =>
          let '(batch, flush) := need_flush (ce_now env) (ce_timer env) batch in
          if flush then
            match ce_flush env with
            | FPending => (None, [], batch, sent)
            | FDone => (None, [], reset batch, sent)
            | FError err => (Some err, [], batch, sent)
            end
          else (None, [], batch, sent)
      end
  end.

(** The loop of the reader. *)
Fixpoint read_loop (env : conn_env) (reads : list (outcome BackendError P)) (tasks : list T) (received : bool)
    (handled : list (T * outcome BackendError P)) :
    option BackendError * list T * bool * list (T * outcome BackendError P) :=
  match reads with
  | [] => ((if ce_reads_end env then Some BackendCanceled else None), tasks, received, handled)
  | res :: reads =>
      match tasks with
      | [] => (Some BackendInvalidState, [], true, handled)
      | task :: tasks => read_loop env reads tasks true (handled ++ [(task, res)])
      end
  end.

(** What the future of [handle_conn] answers to a poll. *)
Inductive conn_poll : Type :=
| ConnPending (c : Conn)
| ConnClosed (c : Conn)
| ConnFailed (c : Conn) (retry : option RetryState) (answers : list (T * task_result P)).

Definition fail_conn (c : Conn) (retry_times_opt : option nat) (err : BackendError) : conn_poll :=
  let '(retry, answers) := handle_conn_err retry_times_opt (cn_tasks c) err in ConnFailed c retry answers.

Definition take_retry (c : Conn) : option nat * Conn :=
  match cn_retry c with
  | Some rs =>
      (Some (retry_times rs),
       mkConn None (cn_tasks c ++ retry_tasks rs) (cn_packets c ++ (get_packet <$> retry_tasks rs)) (cn_batch c)
         (cn_response_received c) (cn_task_empty c) (cn_sent c) (cn_handled c))
  | None => (None, c)
  end.

(** One poll.  [incoming] are the tasks the channel gives, [closed] that it is
    closed after them. *)
Definition poll_conn (incoming : list T) (closed : bool) (env : conn_env) (c : Conn) : conn_poll :=
  let '(retry_times_opt, c) := take_retry c in
  let tasks := cn_tasks c ++ incoming in
  let packets := cn_packets c ++ (get_packet <$> incoming) in
  if closed then
    ConnClosed (mkConn None tasks packets (cn_batch c) (cn_response_received c) (cn_task_empty c) (cn_sent c) (cn_handled c))
  else
    let '(write_res, packets, batch, sent) :=
      write_loop env (length tasks) (ce_writer env) packets (cn_batch c) (cn_sent c) in
    let c := mkConn None tasks packets batch (cn_response_received c) (cn_task_empty c) sent (cn_handled c) in
    match write_res with
    | Some err => fail_conn c retry_times_opt err
    | None =>
        let '(read_res, tasks, received, handled) :=
          read_loop env (ce_reads env) tasks (cn_response_received c) (cn_handled c) in
        let c := mkConn None tasks packets batch received (cn_task_empty c) sent handled in
        match read_res with
        | Some err => fail_conn c retry_times_opt err
        | None =>
            if ce_tick env then
              if negb (cn_task_empty c) && negb received then fail_conn c (Some MAX_BACKEND_RETRY) BackendTimeout
              else ConnPending (mkConn None tasks packets batch false (match tasks with [] => true | _ => false end) sent handled)
            else ConnPending c
        end
    end.

(** ** The future of a node *)

Inductive phase : Type :=
| Resolving
| Connecting (retry : option RetryState)
| WaitingAfterFailure
| Connected (c : Conn)
| Ended.

(** [bk_given] is the history of the tasks given to the node, [bk_answers] of
    what happened to them, [bk_wire] of the packets written. *)
Record Backend : Type := mkBackend {
  bk_queue : list T;
  bk_open : bool;
  bk_conn_failed : bool;
  bk_phase : phase;
  bk_given : list T;
  bk_answers : list (T * task_result P);
  bk_wire : list P;
}.

Definition backend_new : Backend := mkBackend [] true false Resolving [] [] [].

Inductive BAction : Type :=
| NodeSend (t : T)
| CloseSenders
| Resolve (found : bool)
| Connect (connection : option BatchState)
| WaitNext
| WaitOver
| PollConn (n : nat) (env : conn_env).

Definition set_phase (p : phase) (b : Backend) : Backend :=
  mkBackend (bk_queue b) (bk_open b) (bk_conn_failed b) p (bk_given b) (bk_answers b) (bk_wire b).
Definition set_bk_queue (q : list T) (b : Backend) : Backend :=
  mkBackend q (bk_open b) (bk_conn_failed b) (bk_phase b) (bk_given b) (bk_answers b) (bk_wire b).
Definition add_answers (l : list (T * task_result P)) (b : Backend) : Backend :=
  mkBackend (bk_queue b) (bk_open b) (bk_conn_failed b) (bk_phase b) (bk_given b) (bk_answers b ++ l) (bk_wire b).
Definition set_conn_failed (f : bool) (b : Backend) : Backend :=
  mkBackend (bk_queue b) (bk_open b) f (bk_phase b) (bk_given b) (bk_answers b) (bk_wire b).
Definition add_wire (l : list P) (b : Backend) : Backend :=
  mkBackend (bk_queue b) (bk_open b) (bk_conn_failed b) (bk_phase b) (bk_given b) (bk_answers b) (bk_wire b ++ l).

(** The receiver of the channel is dropped with the tasks that are in it. *)
Definition end_backend (b : Backend) : Backend :=
  add_answers ((λ t, (t, DropTask)) <$> bk_queue b) (set_bk_queue [] (set_phase Ended b)).

(** [BackendNode::send] with what [RecoverableBackendNode::send] does with a
    refused task. *)
Definition node_send (address : string) (t : T) (b : Backend) : Backend :=
  let b := mkBackend (bk_queue b) (bk_open b) (bk_conn_failed b) (bk_phase b) (bk_given b ++ [t]) (bk_answers b) (bk_wire b) in
  let refused := match bk_phase b with Ended => true | _ => bk_conn_failed b end in
  if refused then add_answers [(t, SetResp (error_reply (ERR_BACKEND_CONNECTION +:+ ": " +:+ address)))] b
  else set_bk_queue (bk_queue b ++ [t]) b.

Definition connect (connection : option BatchState) (retry : option RetryState) (b : Backend) : Backend :=
  match connection with
  | Some batch => set_phase (Connected (conn_new retry batch)) (set_conn_failed false b)
  | None =>
      set_phase WaitingAfterFailure (set_conn_failed true
        (add_answers ((λ t, (t, SetResult CmdCanceled)) <$> from_option retry_tasks [] retry) b))
  end.

Definition handled_answers (l : list (T * outcome BackendError P)) : list (T * task_result P) :=
  (λ tr, (tr.1, HandleTask tr.2)) <$> l.

(** The history of a connection is moved to that of the node. *)
Definition poll_backend (n : nat) (env : conn_env) (c : Conn) (b : Backend) : Backend :=
  let incoming := take n (bk_queue b) in
  let rest := drop n (bk_queue b) in
  let closed := match rest with [] => negb (bk_open b) | _ => false end in
  let b := set_bk_queue rest b in
  let account c' b := add_wire (drop (length (cn_sent c)) (cn_sent c'))
                        (add_answers (handled_answers (drop (length (cn_handled c)) (cn_handled c'))) b) in
  match poll_conn incoming closed env c with
  | ConnPending c' => set_phase (Connected c') (account c' b)
  | ConnClosed c' => end_backend (add_answers ((λ t, (t, DropTask)) <$> cn_tasks c') (account c' b))
  | ConnFailed c' retry answers => set_phase (Connecting retry) (add_answers answers (account c' b))
  end.

Definition backend_step (address : string) (a : BAction) (b : Backend) : option Backend :=
  match a, bk_phase b with
  | NodeSend t, _ => if bk_open b then Some (node_send address t b) else None
  | CloseSenders, _ =>
      Some (mkBackend (bk_queue b) false (bk_conn_failed b) (bk_phase b) (bk_given b) (bk_answers b) (bk_wire b))
  | Resolve found, Resolving => Some (if found then set_phase (Connecting None) b else end_backend b)
  | Connect connection, Connecting retry => Some (connect connection retry b)
  | WaitNext, WaitingAfterFailure =>
      match bk_queue b with
      | t :: rest =>
          Some (add_answers [(t, SetResp (error_reply ("failed to connect to " +:+ address)))] (set_bk_queue rest b))
      | [] => if bk_open b then None else Some (end_backend b)
      end
  | WaitOver, WaitingAfterFailure => Some (set_phase (Connecting None) b)
  | PollConn n env, Connected c => Some (poll_backend n env c b)
  | _, _ => None
  end.

Inductive backend_reachable (address : string) : Backend → Prop :=
| backend_init : backend_reachable address backend_new
| backend_next b a b' :
    backend_reachable address b → backend_step address a b = Some b' → backend_reachable address b'.

(** ** Tasks that are sent together *)

Inductive ReqTask : Type := ReqSimple (t : T) | ReqMulti (ts : list T).

Definition req_tasks (r : ReqTask) : list T := match r with ReqSimple t => [t] | ReqMulti ts => ts end.

Definition req_get_packet (r : ReqTask) : OptionalMulti P :=
  match r with ReqSimple t => Single (get_packet t) | ReqMulti ts => Multi (get_packet <$> ts) end.

(** [ReqTask::set_result]: what each of the tasks is answered. *)
Definition req_set_result (r : ReqTask) (result : outcome CommandError (OptionalMulti P)) :
    list (T * outcome CommandError P) :=
  match r, result with
  | ReqSimple t, Ok (Single p) => [(t, Ok p)]
  | ReqSimple t, Ok (Multi _) => [(t, Err InnerError)]
  | ReqMulti ts, Ok (Single _) => (λ t, (t, Err InnerError)) <$> ts
  | ReqMulti ts, Ok (Multi results) =>
      if bool_decide (length ts ≠ length results) then (λ t, (t, Err InnerError)) <$> ts
      else zip_with (λ t p, (t, Ok p)) ts results
  | r, Err err => (λ t, (t, Err err)) <$> req_tasks r
  | r, Panic => (λ t, (t, Panic)) <$> req_tasks r
  end.

Definition ERR_MULTI_KEY_PARTIAL_ERROR : string := "ERR_MULTI_KEY_PARTIAL_ERROR".

(** [ReqAdaptorSender::send]: what becomes of each task, and the tasks to be
    tried again or the error. *)
Inductive sent_task : Type := SentOn | Consumed (err : BackendError) | Answered (resp : RespVec).

Fixpoint adaptor_loop (backend_error_text : BackendError → string) (send : T → Verdict) (ts retry : list T) :
    list (T * sent_task) * outcome BackendError (list T) :=
  match ts with
  | [] => ([], Ok retry)
  | t :: ts =>
      match send t with
      | Taken => let '(l, r) := adaptor_loop backend_error_text send ts retry in ((t, SentOn) :: l, r)
      | TryAgain => adaptor_loop backend_error_text send ts (retry ++ [t])
      | Failed err =>
          let resp := error_reply (ERR_MULTI_KEY_PARTIAL_ERROR +:+ ": " +:+ backend_error_text err) in
          ((t, Consumed err) :: ((λ t, (t, Answered resp)) <$> ts ++ retry), Err err)
      end
  end.

(** ** Groups of connections *)

(** [RoundRobinSenderGroup].  [sg_order] is the history of the packets that
    were written, over all connections of the group. *)
Record SenderGroup : Type := mkSenderGroup { sg_cursor : N; sg_senders : list Backend; sg_order : list P }.

Definition group_new (group_size : nat) : SenderGroup := mkSenderGroup 0 (replicate group_size backend_new) [].

Inductive GAction : Type := GroupSend (t : T) | GroupStep (i : nat) (a : BAction).

Definition group_step (address : string) (a : GAction) (g : SenderGroup) : option SenderGroup :=
  match a with
  | GroupSend t =>
      let i := N.to_nat (sg_cursor g `mod` N.of_nat (length (sg_senders g))) in
      b ← sg_senders g !! i;
      b' ← backend_step address (NodeSend t) b;
      Some (mkSenderGroup (wadd (sg_cursor g) 1) (<[i := b']> (sg_senders g)) (sg_order g))
  | GroupStep i a =>
      match a with
      | NodeSend _ => None
      | _ =>
          b ← sg_senders g !! i;
          b' ← backend_step address a b;
          Some (mkSenderGroup (sg_cursor g) (<[i := b']> (sg_senders g))
            (sg_order g ++ drop (length (bk_wire b)) (bk_wire b')))
      end
  end.

Definition group_run (address : string) : list GAction → SenderGroup → option SenderGroup :=
  run_steps (group_step address).

Definition backend_run (address : string) : list BAction → Backend → option Backend :=
  run_steps (backend_step address).

(** ** One poll *)

Lemma write_loop_spec env n polls : ∀ packets batch sent res packets' batch' sent',
  write_loop env n polls packets batch sent = (res, packets', batch', sent') →
  ∃ written lost, packets = written ++ lost ++ packets' ∧ sent' = sent ++ written ∧ (res = None → lost = []).
Proof.
  induction polls as [|[|[err|]|err] polls IH]; intros packets batch sent res packets' batch' sent'; cbn.
  1,2,5: intros [= <- <- <- <-]; exists [], []; cbn; by rewrite app_nil_r.
  - destruct packets as [|packet packets].
    + destruct (need_flush _ _ _) as [batch1 []]; [destruct (ce_flush env)|]; intros [= <- <- <- <-];
        exists [], []; cbn; by rewrite app_nil_r.
    + intros [= <- <- <- <-]. exists [], [packet]. cbn. by rewrite app_nil_r.
  - destruct packets as [|packet packets].
    + destruct (need_flush _ _ _) as [batch1 []]; [destruct (ce_flush env)|]; intros [= <- <- <- <-];
        exists [], []; cbn; by rewrite app_nil_r.
    + case_match; [intros [= <- <- <- <-]; by exists [packet], []|].
      intros Hx. destruct (IH _ _ _ _ _ _ _ Hx) as (written & lost & -> & -> & Hl).
      exists (packet :: written), lost. by rewrite <-app_assoc.
Qed.

Lemma read_loop_spec env reads : ∀ tasks received handled res tasks' received' handled',
  read_loop env reads tasks received handled = (res, tasks', received', handled') →
  ∃ dn, tasks = dn.*1 ++ tasks' ∧ handled' = handled ++ dn ∧ dn.*2 `prefix_of` reads ∧ (res = None → dn.*2 = reads).
Proof.
  induction reads as [|r reads IH]; intros tasks received handled res tasks' received' handled'; cbn.
  - intros [= <- <- <- <-]. exists []. by rewrite app_nil_r.
  - destruct tasks as [|task tasks].
    + intros [= <- <- <- <-]. exists []. cbn. rewrite app_nil_r. split_and!; [done..|apply prefix_nil|done].
    + intros Hx. destruct (IH _ _ _ _ _ _ _ Hx) as (dn & -> & -> & Hp & Hn). exists ((task, r) :: dn).
      rewrite <-app_assoc. split_and!; [done..|by apply prefix_cons|]. intros Hres. cbn. f_equal. by apply Hn.
Qed.

(** The tasks of a connection, in the order of their packets. *)
Definition conn_tasks (c : Conn) : list T := (cn_handled c).*1 ++ cn_tasks c.
Definition conn_pending (c : Conn) : list T := cn_tasks c ++ from_option retry_tasks [] (cn_retry c).

(** The packets that were written and those that wait are those of the tasks. *)
Definition conn_ok (c : Conn) : Prop := cn_sent c ++ cn_packets c = get_packet <$> conn_tasks c.

(** Every packet that was written is the packet of the task at its position. *)
Definition conn_matched (c : Conn) : Prop := cn_sent c `prefix_of` (get_packet <$> conn_tasks c).

(** [c'] continues [c] with the tasks [incoming]. *)
Definition conn_extends (c : Conn) (incoming : list T) (c' : Conn) : Prop :=
  cn_sent c `prefix_of` cn_sent c' ∧ cn_handled c `prefix_of` cn_handled c' ∧
  conn_tasks c' = conn_tasks c ++ from_option retry_tasks [] (cn_retry c) ++ incoming ∧ cn_retry c' = None.

Lemma conn_ok_matched c : conn_ok c → conn_matched c.
Proof. intros Hc. unfold conn_matched. rewrite <-Hc. by apply prefix_app_r. Qed.

Lemma fail_conn_spec c times err : ∃ retry answers, fail_conn c times err = ConnFailed c retry answers ∧
  answers.*1 ++ from_option retry_tasks [] retry = cn_tasks c.
Proof.
  unfold fail_conn, handle_conn_err. destruct (MAX_BACKEND_RETRY <=? _); do 2 eexists; (split; [reflexivity|]); [|done].
  cbn [from_option]. rewrite app_nil_r, <-list_fmap_compose. apply list_fmap_id.
Qed.

(** A result of a poll, whatever it is, continues the connection; and the
    tasks that are not handled are kept, answered or taken to the next one. *)
Definition poll_ok (c : Conn) (incoming : list T) (r : conn_poll) : Prop :=
  match r with
  | ConnPending c' => conn_ok c' ∧ conn_extends c incoming c'
  | ConnClosed c' => conn_matched c' ∧ conn_extends c incoming c'
  | ConnFailed c' retry answers =>
      conn_matched c' ∧ conn_extends c incoming c' ∧ answers.*1 ++ from_option retry_tasks [] retry = cn_tasks c'
  end.

Lemma poll_ok_fail c incoming c' times err :
  conn_matched c' → conn_extends c incoming c' → poll_ok c incoming (fail_conn c' times err).
Proof. intros Hm He. by destruct (fail_conn_spec c' times err) as (retry & answers & -> & Ha). Qed.

Lemma take_retry_ok c times c1 :
  take_retry c = (times, c1) → conn_ok c → conn_ok c1 ∧ conn_extends c [] c1.
Proof.
  unfold take_retry, conn_ok, conn_extends, conn_tasks. destruct (cn_retry c) as [rs|] eqn:Hr; intros [= <- <-] Hc; cbn.
  - rewrite app_assoc, Hc, <-fmap_app. split_and!; try done; by rewrite ?app_nil_r, <-?app_assoc.
  - rewrite Hr. split_and!; try done. cbn. by rewrite app_nil_r.
Qed.

Lemma poll_conn_ok incoming closed env c : conn_ok c → poll_ok c incoming (poll_conn incoming closed env c).
Proof.
  intros Hc. unfold poll_conn. destruct (take_retry c) as [times c1] eqn:Hr.
  destruct (take_retry_ok c times c1 Hr Hc) as [Hc1 (Hs1 & Hh1 & Ht1 & Hr1)].
  rewrite app_nil_r in Ht1. unfold conn_ok, conn_tasks in Hc1. unfold conn_tasks in Ht1 at 1.
  destruct closed.
  { split.
    - unfold conn_matched, conn_tasks. cbn. rewrite app_assoc, fmap_app, <-Hc1, <-app_assoc. by apply prefix_app_r.
    - split_and!; try done. unfold conn_tasks at 1. cbn. by rewrite !app_assoc, Ht1, <-app_assoc. }
  destruct (write_loop _ _ _ _ _ _) as [[[wres packets] batch] sent] eqn:Hw.
  destruct (write_loop_spec _ _ _ _ _ _ _ _ _ _ Hw) as (written & lost & Hp & -> & Hlost).
  assert (cn_sent c `prefix_of` cn_sent c1 ++ written) as Hsent by (by apply prefix_app_r).
  assert (cn_sent c1 ++ written ++ lost ++ packets =
          get_packet <$> (cn_handled c1).*1 ++ cn_tasks c1 ++ incoming) as Hall.
  { rewrite <-Hp, !app_assoc, Hc1, <-fmap_app. by rewrite <-!app_assoc. }
  destruct wres as [err|].
  { apply poll_ok_fail.
    - unfold conn_matched, conn_tasks. cbn. rewrite <-Hall, app_assoc. by apply prefix_app_r.
    - split_and!; try done. unfold conn_tasks at 1. cbn. by rewrite app_assoc, Ht1, <-app_assoc. }
  specialize (Hlost eq_refl) as ->. cbn [app] in Hall.
  destruct (read_loop _ _ _ _ _) as [[[rres tasks] received] handled] eqn:Hrd.
  destruct (read_loop_spec _ _ _ _ _ _ _ _ _ Hrd) as (dn & Htasks & -> & _ & _).
  cbn [cn_handled] in *.
  assert (∀ rc te, conn_ok (mkConn None tasks packets batch rc te (cn_sent c1 ++ written) (cn_handled c1 ++ dn)) ∧
    conn_extends c incoming (mkConn None tasks packets batch rc te (cn_sent c1 ++ written) (cn_handled c1 ++ dn))) as Hok.
  { assert ((cn_handled c1 ++ dn).*1 ++ tasks = (cn_handled c1).*1 ++ cn_tasks c1 ++ incoming) as Heq
      by (by rewrite fmap_app, <-app_assoc, Htasks).
    intros rc te. unfold conn_ok, conn_extends, conn_tasks. cbn. rewrite Heq. split; [by rewrite <-app_assoc|].
    split_and!; try done; [by apply prefix_app_r|]. rewrite app_assoc, Ht1. unfold conn_tasks. by rewrite <-!app_assoc. }
  destruct rres as [err|].
  { destruct (Hok received (cn_task_empty c1)). apply poll_ok_fail; [by apply conn_ok_matched|done]. }
  destruct (ce_tick env); [|by apply Hok]. case_match; [|by apply Hok].
  destruct (Hok received (cn_task_empty c1)). apply poll_ok_fail; [by apply conn_ok_matched|done].
Qed.

(** ** Every task is answered once *)

Definition pending (b : Backend) : list T :=
  bk_queue b ++ match bk_phase b with
                | Connecting retry => from_option retry_tasks [] retry
                | Connected c => conn_pending c
                | _ => []
                end.

Record backend_ok (b : Backend) : Prop := {
  bo_conserved : bk_given b ≡ₚ (bk_answers b).*1 ++ pending b;
  bo_conn : ∀ c, bk_phase b = Connected c → conn_ok c;
  bo_ended : bk_phase b = Ended → bk_queue b = [];
}.

Lemma fmap_pair_fst {A} (f : T → A) (l : list T) : ((λ t, (t, f t)) <$> l).*1 = l.
Proof. rewrite <-list_fmap_compose. apply list_fmap_id. Qed.

Lemma handled_answers_fst l : (handled_answers l).*1 = l.*1.
Proof. unfold handled_answers. by rewrite <-list_fmap_compose. Qed.

Lemma prefix_split {A} (l l' : list A) : l `prefix_of` l' → l' = l ++ drop (length l) l'.
Proof. intros [k ->]. by rewrite drop_app_length. Qed.

(** The tasks of a connection after a poll: what was handled in the poll and
    what is left are what was pending and what came. *)
Lemma extends_conserves c incoming c' :
  conn_extends c incoming c' →
  (drop (length (cn_handled c)) (cn_handled c')).*1 ++ cn_tasks c' = conn_pending c ++ incoming.
Proof.
  intros (_ & Hh & Ht & _). unfold conn_tasks in Ht. rewrite (prefix_split _ _ Hh) in Ht.
  rewrite fmap_app, <-!app_assoc in Ht. apply (inj (app _)) in Ht. unfold conn_pending. by rewrite <-app_assoc.
Qed.

Lemma poll_backend_ok n env c b :
  bk_phase b = Connected c → backend_ok b → backend_ok (poll_backend n env c b).
Proof.
  intros Hp [Hc Hco _]. specialize (Hco c Hp). unfold poll_backend.
  set (closed := match drop n _ with [] => _ | _ => _ end).
  pose proof (poll_conn_ok (take n (bk_queue b)) closed env c Hco) as Hok.
  assert (bk_given b ≡ₚ (bk_answers b).*1 ++ drop n (bk_queue b) ++ conn_pending c ++ take n (bk_queue b)) as Hc'.
  { rewrite Hc. unfold pending. rewrite Hp. rewrite <-(take_drop n (bk_queue b)) at 1. solve_Permutation. }
  destruct (poll_conn _ _ _ _) as [c'|c'|c' retry answers]; cbn in Hok.
  - destruct Hok as [Hok He]. split; [|by intros ? [= <-]|done]. unfold pending. cbn.
    destruct He as (? & ? & ? & Hr). unfold conn_pending at 1. rewrite Hr. cbn [from_option].
    rewrite Hc', <-(extends_conserves c _ c') by done.
    rewrite fmap_app, handled_answers_fst. solve_Permutation.
  - destruct Hok as [_ He]. split; [|done..]. unfold pending, end_backend. cbn. rewrite !app_nil_r, !fmap_app.
    rewrite Hc', <-(extends_conserves c _ c') by done. rewrite !fmap_pair_fst, handled_answers_fst. solve_Permutation.
  - destruct Hok as (_ & He & Ha). split; [|done..]. unfold pending. cbn. rewrite !fmap_app, handled_answers_fst.
    rewrite Hc', <-(extends_conserves c _ c') by done. rewrite <-Ha. solve_Permutation.
Qed.

Lemma backend_step_ok address a b b' : backend_step address a b = Some b' → backend_ok b → backend_ok b'.
Proof.
  intros Hx Hb. destruct (Hb) as [Hc Hco He]. unfold pending in Hc. destruct a; cbn in Hx.
  - destruct (bk_open b); [|done]. injection Hx as <-. unfold node_send. cbn.
    destruct (bk_phase b) eqn:Hp; cbn; try destruct (bk_conn_failed b).
    all: split; unfold pending; cbn; rewrite ?Hp; [|by eauto|by auto]; rewrite ?fmap_app, Hc; cbn; solve_Permutation.
  - injection Hx as <-. by split.
  - destruct (bk_phase b); try done. injection Hx as <-. destruct found; split; try done; unfold pending; cbn.
    rewrite fmap_app, fmap_pair_fst, Hc. solve_Permutation.
  - destruct (bk_phase b) as [|retry| | |]; try done. injection Hx as <-. unfold connect.
    destruct connection as [batch|]; split; try done; unfold pending; cbn.
    + by intros ? [= <-].
    + rewrite fmap_app, fmap_pair_fst, Hc. solve_Permutation.
  - destruct (bk_phase b) eqn:Hp; try done. destruct (bk_queue b) as [|t rest] eqn:Hq; [destruct (bk_open b); [done|]|];
      injection Hx as <-; (split; [unfold pending; cbn; rewrite ?Hp, ?Hq, ?fmap_app, Hc; cbn; solve_Permutation|by cbn; rewrite ?Hp..]).
  - destruct (bk_phase b); try done. injection Hx as <-. by split.
  - destruct (bk_phase b) as [| | |c|] eqn:Hp; try done. injection Hx as <-. by apply poll_backend_ok.
Qed.

Lemma backend_reachable_ok address b : backend_reachable address b → backend_ok b.
Proof.
  induction 1 as [|b a b' _ IH Hx]; [|by eapply backend_step_ok]. by split.
Qed.

(** C24. A task that is given to a node is neither lost nor answered twice: at
    any time the tasks given are, as a multiset, those that were answered (with
    a response, with an error, or by dropping them) and those that wait in the
    channel, in the connection or for the next connection.  After the end of the
    future none waits. *)
Theorem tasks_answered_once address b :
  backend_reachable address b →
  bk_given b ≡ₚ (bk_answers b).*1 ++ pending b ∧ (bk_phase b = Ended → bk_given b ≡ₚ (bk_answers b).*1).
Proof.
  intros [Hc _ He]%backend_reachable_ok. split; [done|]. intros Hp. rewrite Hc. unfold pending.
  by rewrite Hp, (He Hp), !app_nil_r.
Qed.

(** ** Responses and tasks *)

(** A connection after some polls, the tasks it was given and the responses it
    has read. *)
Inductive conn_run (retry : option RetryState) (batch : BatchState) :
    Conn → list T → list (outcome BackendError P) → Prop :=
| conn_run_new : conn_run retry batch (conn_new retry batch) (from_option retry_tasks [] retry) []
| conn_run_poll c given reads incoming env c' :
    conn_run retry batch c given reads → poll_conn incoming false env c = ConnPending c' →
    conn_run retry batch c' (given ++ incoming) (reads ++ ce_reads env).

Lemma poll_conn_reads incoming env c c' :
  poll_conn incoming false env c = ConnPending c' → (cn_handled c').*2 = (cn_handled c).*2 ++ ce_reads env.
Proof.
  unfold poll_conn. destruct (take_retry c) as [times c1] eqn:Hr.
  assert (cn_handled c1 = cn_handled c) as Hh.
  { revert Hr. unfold take_retry. destruct (cn_retry c); by intros [= _ <-]. }
  destruct (write_loop _ _ _ _ _ _) as [[[[werr|] packets] batch] sent].
  { unfold fail_conn. by destruct (handle_conn_err _ _ _). }
  destruct (read_loop _ _ _ _ _) as [[[rres tasks] received] handled] eqn:Hrd.
  destruct (read_loop_spec _ _ _ _ _ _ _ _ _ Hrd) as (dn & _ & -> & _ & Hn).
  destruct rres as [err|]; [unfold fail_conn; by destruct (handle_conn_err _ _ _)|].
  specialize (Hn eq_refl). cbn [cn_handled] in *.
  assert ((cn_handled c1 ++ dn).*2 = (cn_handled c).*2 ++ ce_reads env) as Heq by (by rewrite fmap_app, Hh, Hn).
  destruct (ce_tick env); [case_match|].
  - unfold fail_conn. by destruct (handle_conn_err _ _ _).
  - by intros [= <-].
  - by intros [= <-].
Qed.

Lemma conn_run_spec retry batch c given reads :
  conn_run retry batch c given reads →
  conn_ok c ∧ conn_tasks c ++ from_option retry_tasks [] (cn_retry c) = given ∧ (cn_handled c).*2 = reads.
Proof.
  induction 1 as [|c given reads incoming env c' _ (Hc & <- & <-) Hx]; [done|].
  pose proof (poll_conn_ok incoming false env c Hc) as Hok. rewrite Hx in Hok. destruct Hok as [Hc' (_ & _ & Ht & Hr)].
  split_and!; [done| |by eapply poll_conn_reads]. by rewrite Ht, Hr, app_nil_r, <-app_assoc.
Qed.

(** C25. On one connection the packets are written in the order in which the
    tasks came, and the n-th response that is read goes to the n-th task: with
    a server that answers requests in order, every task gets the response to
    its own packet. *)
Theorem responses_matched retry batch c given reads :
  conn_run retry batch c given reads →
  cn_sent c `prefix_of` (get_packet <$> given) ∧ cn_handled c = zip given reads.
Proof.
  intros (Hc & <- & <-)%conn_run_spec. split.
  - rewrite fmap_app. unfold conn_ok in Hc. rewrite <-Hc, <-app_assoc. by apply prefix_app_r.
  - unfold conn_tasks. rewrite <-app_assoc. clear Hc. generalize (cn_tasks c ++ from_option retry_tasks [] (cn_retry c)).
    induction (cn_handled c) as [|[t r] l IH]; intros k; cbn; [by destruct k|]. f_equal. apply IH.
Qed.

Lemma req_set_result_once r result : (req_set_result r result).*1 = req_tasks r.
Proof.
  destruct r as [t|ts], result as [[p|ps]|err|]; cbn; rewrite ?fmap_pair_fst; try done.
  case_bool_decide as Hlen; [by rewrite fmap_pair_fst|]. clear -Hlen.
  revert ps Hlen. induction ts as [|t ts IH]; intros [|p ps] Hlen; try done. cbn. f_equal. apply IH. by injection Hlen.
Qed.

(** Every task of a group is sent, consumed, answered or tried again. *)
Lemma adaptor_loop_once text send ts : ∀ retry l r,
  adaptor_loop text send ts retry = (l, r) →
  ts ++ retry ≡ₚ l.*1 ++ match r with Ok again => again | _ => [] end.
Proof.
  induction ts as [|t ts IH]; intros retry l r; cbn; [by intros [= <- <-]|]. destruct (send t) as [|err|].
  - destruct (adaptor_loop text send ts retry) as [l1 r1] eqn:Hl. intros [= <- <-]. cbn. by rewrite (IH _ _ _ Hl).
  - intros [= <- <-]. cbn. by rewrite fmap_pair_fst, app_nil_r.
  - intros Hl%IH. rewrite <-Hl. solve_Permutation.
Qed.

(** ** Retries *)

Definition write_one : conn_env := mkConnEnv [WReady None] FPending 0 false [] false false.
Definition broken : conn_env := mkConnEnv [] FPending 0 false [] true false.

(** A connection writes the packet of the task and breaks. *)
Lemma broken_round address (batch : BatchState) b t k :
  backend_reachable address b → bk_queue b = [] → bk_open b = true →
  bk_phase b = Connecting (Some (mkRetryState k [t])) →
  ∃ b', backend_reachable address b' ∧ bk_queue b' = [] ∧ bk_open b' = true ∧ bk_given b' = bk_given b ∧
    bk_answers b' = bk_answers b ∧ bk_wire b' = bk_wire b ++ [get_packet t] ∧
    bk_phase b' = Connecting (Some (mkRetryState 1 [t])).
Proof.
  intros Hb Hq Ho Hp. destruct b as [queue open failed ph given answers wire]. cbn in *. subst.
  eexists. split.
  { eapply (backend_next _ _ (PollConn 0 broken)); [eapply (backend_next _ _ (PollConn 0 write_one));
      [eapply (backend_next _ _ (Connect (Some batch))); [exact Hb|reflexivity]|reflexivity]|reflexivity]. }
  cbn. by rewrite !app_nil_r.
Qed.

Lemma broken_rounds address (batch : BatchState) t n : ∃ b, backend_reachable address b ∧ bk_queue b = [] ∧ bk_open b = true ∧
  bk_given b = [t] ∧ bk_answers b = [] ∧ bk_wire b = replicate (S n) (get_packet t) ∧
  bk_phase b = Connecting (Some (mkRetryState 1 [t])).
Proof.
  induction n as [|n (b & Hb & Hq & Ho & Hg & Ha & Hw & Hp)].
  - eexists. split; [|split_and!; reflexivity || idtac].
    { eapply (backend_next _ _ (PollConn 0 broken)); [eapply (backend_next _ _ (PollConn 1 write_one));
        [eapply (backend_next _ _ (Connect (Some batch))); [eapply (backend_next _ _ (Resolve true));
        [eapply (backend_next _ _ (NodeSend t)); [apply backend_init|reflexivity]|reflexivity]|reflexivity]|reflexivity]|reflexivity]. }
    all: reflexivity.
  - destruct (broken_round address batch b t 1) as (b' & Hb' & Hq' & Ho' & Hg' & Ha' & Hw' & Hp'); [done..|].
    exists b'. split_and!; try done; [congruence..|]. rewrite Hw', Hw. symmetry. apply (replicate_cons_app (S n)).
Qed.

(** The limit on retries does not hold: [handle_conn] knows how often a
    task was tried only during its first poll, so when connections break later,
    a task whose response does not arrive is written again and again, without
    bound. *)
Theorem retry_limit_forgotten address t n :
  ∃ b, backend_reachable address b ∧ bk_given b = [t] ∧ bk_answers b = [] ∧
    bk_wire b = replicate (S n) (get_packet t).
Proof.
  destruct (broken_rounds address (batch_state_new 0 BatchDisabled 1 CONN_WRITE_BUF_SIZE 0) t n)
    as (b & Hb & _ & _ & Hg & Ha & Hw & _). eauto.
Qed.
End backend.

(** ** Runs *)

Definition set_command : RespVec := command_value [bytes_of "SET"; bytes_of "k"; bytes_of "1"].
Definition get_command : RespVec := command_value [bytes_of "GET"; bytes_of "k"].
Definition one_batch : BatchState := batch_state_new 0 BatchDisabled 1 CONN_WRITE_BUF_SIZE 0.
Definition ok_response : outcome BackendError RespVec := Ok (Simple (bytes_of "OK")).

(** Two commands, of which one is answered. *)
Definition write_two : conn_env (P := RespVec) :=
  mkConnEnv [WReady None; WReady None; WReady None] FDone 0 false [] false false.
Definition read_one : conn_env (P := RespVec) := mkConnEnv [] FPending 0 false [ok_response] false false.

Lemma responses_matched_witness : ∃ c,
  conn_run id (λ _, Some 30%N) None one_batch c [set_command; get_command] [ok_response] ∧
  cn_sent c = [set_command; get_command] ∧ cn_handled c = [(set_command, ok_response)].
Proof.
  assert (∃ c, conn_run id (λ _, Some 30%N) None one_batch c ([] ++ [set_command; get_command] ++ []) ([] ++ [] ++ [ok_response]) ∧
    cn_sent c = [set_command; get_command]) as (c & Hrun & Hsent).
  { eexists. split.
    - eapply (conn_run_poll _ _ _ _ _ _ _ [] read_one);
        [eapply (conn_run_poll _ _ _ _ _ [] [] [set_command; get_command] write_two); [exact (conn_run_new _ _ None one_batch)|reflexivity]|reflexivity].
    - reflexivity. }
  exists c. split; [exact Hrun|]. split; [exact Hsent|]. destruct (responses_matched _ _ _ _ _ _ _ Hrun) as [_ ->]. reflexivity.
Defined.

Definition demo_actions : list (BAction (T := RespVec) (P := RespVec)) :=
  [NodeSend set_command; NodeSend get_command; Resolve true; Connect (Some one_batch); PollConn 2 write_two;
   PollConn 0 read_one; CloseSenders; PollConn 0 read_one].
Definition demo_backend : Backend :=
  default backend_new (backend_run id (λ _, Some 30%N) "127.0.0.1:6379" demo_actions backend_new).

Lemma backend_run_reachable {T P} (get_packet : T → P) size_hint address actions b b' :
  backend_reachable get_packet size_hint address b → backend_run get_packet size_hint address actions b = Some b' →
  backend_reachable get_packet size_hint address b'.
Proof. apply run_steps_invariant. intros a s s' _. apply backend_next. Qed.

Lemma demo_backend_reachable : backend_reachable id (λ _, Some 30%N) "127.0.0.1:6379" demo_backend.
Proof.
  unfold demo_backend. destruct (backend_run _ _ _ _ _) as [b|] eqn:Hb; [|apply backend_init].
  exact (backend_run_reachable _ _ _ _ _ _ (backend_init _ _ _) Hb).
Qed.

Lemma tasks_answered_once_witness :
  bk_phase demo_backend = Ended ∧ bk_given demo_backend ≡ₚ (bk_answers demo_backend).*1 ∧
  bk_answers demo_backend = [(set_command, HandleTask ok_response); (get_command, DropTask)].
Proof.
  assert (bk_phase demo_backend = Ended) as Hp by (vm_compute; reflexivity).
  split; [exact Hp|]. split; [|vm_compute; reflexivity].
  apply (tasks_answered_once _ _ _ _ demo_backend_reachable). exact Hp.
Defined.

(** Commands that one client sends one after the other are given to the
    connections of a node in turn, and another connection may be faster: with
    two connections, the default, a [GET] is written before the [SET] that was
    sent before it. *)
Theorem pipeline_reordered :
  sg_order <$> group_run id (λ _, Some 30%N) "127.0.0.1:6379"
    [GroupStep 0 (Resolve true); GroupStep 1 (Resolve true); GroupStep 0 (Connect (Some one_batch));
     GroupStep 1 (Connect (Some one_batch)); GroupSend set_command; GroupSend get_command;
     GroupStep 1 (PollConn 1 write_two); GroupStep 0 (PollConn 1 write_two)] (group_new 2) =
  Some [get_command; set_command].
Proof. vm_compute. reflexivity. Qed.
