(* ===== verification/Session.v ===== *)
(** * Sessions

    The connection of a client ([proxy/session.rs]) and the channel on which
    the reply to a command comes back ([CmdReplySender] and [CmdReplyReceiver]
    of [proxy/command.rs]).  A poll of [handle_session] is one step; what the
    socket answers during the poll, and which replies have arrived, are its
    arguments.  Replies may arrive in any order and are written in the order of
    the requests. *)

From S2P Require Import Prelude RangeList RustStr Resp Packet Command ClusterMeta Wire MetaMap Keys Batch Backend.

(** ** The reply to a command *)

Abbreviation TaskResult := (outcome CommandError RespVec) (only parsing).

(** A channel for one value; [rc_sender] is whether [reply_sender] is still
    there, [rc_receiver] whether the receiver is. *)
Record reply_channel : Type := mkReplyChannel {
  rc_sender : bool;
  rc_receiver : bool;
  rc_value : option TaskResult;
}.

(** [new_command_pair]. *)
Definition new_command_pair : reply_channel := mkReplyChannel true true None.

Definition reply_try_send (res : TaskResult) (c : reply_channel) : reply_channel * option (outcome CommandError ()) :=
  if rc_sender c then
    if rc_receiver c then (mkReplyChannel false true (Some res), Some (Ok ()))
    else (mkReplyChannel false false None, Some (Err CmdCanceled))
  else (c, None).

Definition reply_send (res : TaskResult) (c : reply_channel) : reply_channel * outcome CommandError () :=
  match reply_try_send res c with
  | (c, Some r) => (c, r)
  | (c, None) => (c, Err InnerError)
  end.

(** [CmdReplySender::drop]. *)
Definition drop_sender (c : reply_channel) : reply_channel := (reply_try_send (Err CmdDropped) c).1.

(** [CmdReplyReceiver::poll]: [None] is pending. *)
Definition poll_receiver (c : reply_channel) : option TaskResult :=
  match rc_value c with
  | Some res => Some res
  | None => if rc_sender c then None else Some (Err CmdCanceled)
  end.

(** ** The loop of a session *)

Inductive SessionError : Type := SessionIo | SessionCmdErr | SessionInvalidProtocol | SessionCanceled | SessionInvalidState.

Inductive read_end : Type := ReadPending | ReadClosed | ReadError (err : SessionError).

(** A request is known by its number.  [ss_requests] and [ss_written] are the
    history of the session. *)
Record Session : Type := mkSession {
  ss_reply_receiver_list : list nat;
  ss_replies : list RespVec;
  ss_requests : list RespVec;
  ss_written : list RespVec;
}.

Definition session_new : Session := mkSession [] [] [] [].

Record session_env : Type := mkSessionEnv {
  se_requests : list RespVec;
  se_read_end : read_end;
  se_results : nat → option TaskResult;
  se_writer : list write_poll;
  se_flush : flush_poll;
}.

Section session.
(** The text of an error in a reply. *)
Context (error_text : CommandError → string).

Definition reply_packet (res : TaskResult) : RespVec :=
  match res with
  | Ok packet => packet
  | Err err => error_reply ("Err cmd error " +:+ error_text err)
  | Panic => error_reply ""
  end.

(** The futures whose results are there, from the front. *)
Fixpoint collect_replies (results : nat → option TaskResult) (receivers : list nat) (replies : list RespVec) :
    list nat * list RespVec :=
  match receivers with
  | [] => ([], replies)
  | n :: receivers' =>
      match results n with
      | None => (receivers, replies)
      | Some res => collect_replies results receivers' (replies ++ [reply_packet res])
      end
  end.

Fixpoint write_replies (flush : flush_poll) (polls : list write_poll) (replies written : list RespVec) :
    option BackendError * list RespVec * list RespVec :=
  match polls with
  | [] | WPending :: _ => (None, replies, written)
  | WError err :: _ => (Some err, replies, written)
  | WReady send :: polls =>
      match replies with
      | reply :: replies =>
          match send with
          | Some err => (Some err, replies, written)
          | None => write_replies flush polls replies (written ++ [reply])
          end
      | [] => ((match flush with FError err => Some err | _ => None end), [], written)
      end
  end.

Inductive session_poll : Type :=
| SessionPending (s : Session)
| SessionEnded (s : Session) (res : outcome SessionError ()).

Definition write_error (err : BackendError) : SessionError :=
  match err with BackendIo => SessionIo | _ => SessionInvalidState end.

Definition poll_session (env : session_env) (s : Session) : session_poll :=
  let receivers := ss_reply_receiver_list s ++ seq (length (ss_requests s)) (length (se_requests env)) in
  let requests := ss_requests s ++ se_requests env in
  match se_read_end env with
  | ReadClosed => SessionEnded (mkSession receivers (ss_replies s) requests (ss_written s)) (Ok ())
  | ReadError err => SessionEnded (mkSession receivers (ss_replies s) requests (ss_written s)) (Err err)
  | ReadPending =>
      let '(receivers, replies) := collect_replies (se_results env) receivers (ss_replies s) in
      let '(res, replies, written) := write_replies (se_flush env) (se_writer env) replies (ss_written s) in
      let s := mkSession receivers replies requests written in
      match res with
      | Some err => SessionEnded s (Err (write_error err))
      | None => SessionPending s
      end
  end.

(** ** Facts *)

(** The reply to a command: the first result that was sent, or an error if the
    command was dropped without one. *)
Lemma reply_channel_once (sends : list TaskResult) :
  poll_receiver (drop_sender (foldl (λ c r, (reply_send r c).1) new_command_pair sends)) =
  Some (default (Err CmdDropped) (head sends)).
Proof.
  destruct sends as [|r sends]; [done|]. cbn [foldl head default]. cbn [new_command_pair reply_send fst].
  assert ((reply_send r new_command_pair).1 = mkReplyChannel false true (Some r)) as -> by done.
  assert (foldl (λ c r, (reply_send r c).1) (mkReplyChannel false true (Some r)) sends =
          mkReplyChannel false true (Some r)) as -> by (by induction sends).
  done.
Qed.

Lemma collect_replies_spec results receivers : ∀ replies receivers' replies',
  collect_replies results receivers replies = (receivers', replies') →
  ∃ dn, receivers = dn.*1 ++ receivers' ∧ replies' = replies ++ (reply_packet <$> dn.*2) ∧
    Forall (λ nr, results nr.1 = Some nr.2) dn.
Proof.
  induction receivers as [|n receivers IH]; intros replies receivers' replies'; cbn.
  - intros [= <- <-]. exists []. cbn. by rewrite app_nil_r.
  - destruct (results n) as [res|] eqn:Hn.
    + intros (dn & -> & -> & Hf)%IH. exists ((n, res) :: dn). split_and!; [done|by rewrite <-app_assoc|by constructor].
    + intros [= <- <-]. exists []. cbn. by rewrite app_nil_r.
Qed.

Lemma write_replies_spec flush polls : ∀ replies written res replies' written',
  write_replies flush polls replies written = (res, replies', written') →
  ∃ sent lost, replies = sent ++ lost ++ replies' ∧ written' = written ++ sent ∧ (res = None → lost = []).
Proof.
  induction polls as [|[|[err|]|err] polls IH]; intros replies written res replies' written'; cbn.
  1,2,5: intros [= <- <- <-]; exists [], []; cbn; by rewrite app_nil_r.
  - destruct replies as [|reply replies]; intros [= <- <- <-].
    + exists [], []; cbn; by rewrite app_nil_r.
    + exists [], [reply]. cbn. by rewrite app_nil_r.
  - destruct replies as [|reply replies].
    + intros [= <- <- <-]. exists [], []; cbn; by rewrite app_nil_r.
    + intros (sent & lost & -> & -> & Hl)%IH. exists (reply :: sent), lost. by rewrite <-app_assoc.
Qed.

(** ** Replies come in the order of the requests *)

(** The result of every request, once and for all. *)
Context (result : nat → TaskResult).

Definition respects (env : session_env) : Prop := ∀ n res, se_results env n = Some res → res = result n.

Inductive session_reachable : session_poll → Prop :=
| session_init : session_reachable (SessionPending session_new)
| session_next s env :
    session_reachable (SessionPending s) → respects env → session_reachable (poll_session env s).

(** The replies of the first [n] requests. *)
Definition replies_to (n : nat) : list RespVec := (λ i, reply_packet (result i)) <$> seq 0 n.

Definition session_ok (s : Session) : Prop := ∃ n,
  n + length (ss_reply_receiver_list s) = length (ss_requests s) ∧
  ss_reply_receiver_list s = seq n (length (ss_reply_receiver_list s)) ∧
  ss_written s ++ ss_replies s = replies_to n.

Definition session_written (s : Session) : Prop := ∃ n, n ≤ length (ss_requests s) ∧ ss_written s = replies_to n.

Lemma replies_to_app n k :
  replies_to (n + k) = replies_to n ++ ((λ i, reply_packet (result i)) <$> seq n k).
Proof. unfold replies_to. by rewrite seq_app, fmap_app. Qed.

Lemma replies_to_prefix l n : l `prefix_of` replies_to n → l = replies_to (length l) ∧ length l ≤ n.
Proof.
  intros [k Hk]. assert (length l ≤ n) as Hl.
  { assert (length (replies_to n) = n) as Hn by (unfold replies_to; by rewrite length_fmap, length_seq).
    rewrite Hk, length_app in Hn. lia. }
  split; [|done]. replace n with (length l + (n - length l)) in Hk by lia. rewrite replies_to_app in Hk.
  apply app_inj_1 in Hk as [-> _]; [done|]. unfold replies_to. by rewrite length_fmap, length_seq.
Qed.

Lemma session_ok_written s : session_ok s → session_written s.
Proof.
  intros (n & Hn & _ & Hw). destruct (replies_to_prefix (ss_written s) n) as [Heq Hle].
  - rewrite <-Hw. by apply prefix_app_r.
  - exists (length (ss_written s)). split; [lia|done].
Qed.

Lemma poll_session_ok env s :
  respects env → session_ok s →
  match poll_session env s with
  | SessionPending s' => session_ok s'
  | SessionEnded s' _ => session_written s'
  end.
Proof.
  intros Henv (n & Hlen & Hseq & Hw). unfold poll_session.
  assert (session_ok (mkSession (ss_reply_receiver_list s ++ seq (length (ss_requests s)) (length (se_requests env)))
    (ss_replies s) (ss_requests s ++ se_requests env) (ss_written s))) as Hread.
  { exists n. cbn. rewrite !length_app, length_seq. split_and!; [lia| |done].
    rewrite Hseq at 1. by rewrite <-Hlen, <-seq_app. }
  destruct (se_read_end env); [|by apply session_ok_written..].
  destruct Hread as (m & Hm & Hmseq & Hmw). cbn in Hm, Hmseq, Hmw. set (receivers := _ ++ seq _ _) in *.
  destruct (collect_replies _ _ _) as [receivers' replies'] eqn:Hc.
  destruct (collect_replies_spec _ _ _ _ _ Hc) as (dn & Hr & -> & Hdn).
  destruct (write_replies _ _ _ _) as [[res replies''] written'] eqn:Hwr.
  destruct (write_replies_spec _ _ _ _ _ _ _ Hwr) as (sent & lost & Hs & -> & Hlost).
  assert (dn.*1 = seq m (length dn) ∧ receivers' = seq (m + length dn) (length receivers')) as [Hd1 Hd2].
  { rewrite Hr in Hmseq. rewrite length_app, length_fmap, seq_app in Hmseq.
    apply app_inj_1 in Hmseq as [? ?]; [done|]. by rewrite length_fmap, length_seq. }
  assert (reply_packet <$> dn.*2 = (λ i, reply_packet (result i)) <$> dn.*1) as Hres.
  { clear -Hdn Henv. induction Hdn as [|[i r] dn Hi _ IH]; [done|]. cbn in *. f_equal; [|done]. by rewrite (Henv i r Hi). }
  assert (ss_written s ++ sent ++ lost ++ replies'' = replies_to (m + length dn)) as Hall.
  { rewrite <-Hs, app_assoc, Hmw, Hres, Hd1. by rewrite replies_to_app. }
  assert (m + length dn + length receivers' = length (ss_requests s ++ se_requests env)) as Hcount.
  { rewrite <-Hm, Hr, length_app, length_fmap. lia. }
  destruct res as [err|]; cbn.
  - destruct (replies_to_prefix (ss_written s ++ sent) (m + length dn)) as [Heq Hle].
    + rewrite <-Hall, app_assoc. by apply prefix_app_r.
    + exists (length (ss_written s ++ sent)). cbn. split; [lia|done].
  - rewrite (Hlost eq_refl) in Hall. exists (m + length dn). cbn. split_and!; [lia|done|]. by rewrite <-app_assoc.
Qed.

Lemma session_reachable_ok p :
  session_reachable p → match p with SessionPending s => session_ok s | SessionEnded s _ => session_written s end.
Proof. induction 1 as [|s env _ IH Henv]; [by exists 0|]. by apply poll_session_ok. Qed.

(** C26. Whatever the order in which the commands of a client are executed, and
    however the socket behaves, the replies written to it are those of its
    first requests, one for each, in the order of the requests. *)
Theorem replies_in_order p s :
  session_reachable p → p = SessionPending s ∨ (∃ res, p = SessionEnded s res) →
  ∃ n, n ≤ length (ss_requests s) ∧ ss_written s = (λ i, reply_packet (result i)) <$> seq 0 n.
Proof.
  intros Hp%session_reachable_ok [-> | [res ->]]; [by apply session_ok_written|done].
Qed.
End session.

(** The second of two requests is answered first. *)
Definition late_results (known : list (nat * RespVec)) (n : nat) : option TaskResult :=
  Ok <$> (list_find (λ p, p.1 = n) known ≫= λ p, Some p.2.2).
Definition two_requests : session_env :=
  mkSessionEnv [get_command; set_command] ReadPending (late_results [(1, Simple (bytes_of "OK"))])
    [WReady None; WReady None] FDone.
Definition both_answered : session_env :=
  mkSessionEnv [] ReadPending (late_results [(1, Simple (bytes_of "OK")); (0, Bulk BulkNil)])
    [WReady None; WReady None; WReady None] FDone.

Lemma replies_in_order_witness : ∃ s,
  ss_written s = [Bulk BulkNil; Simple (bytes_of "OK")] ∧
  ∃ n, n ≤ length (ss_requests s) ∧
    ss_written s = (λ i, reply_packet (λ _, ""%string)
      (if bool_decide (i = 0) then Ok (Bulk BulkNil) else Ok (Simple (bytes_of "OK")))) <$> seq 0 n.
Proof.
  set (result := λ i, if bool_decide (i = 0) then Ok (Bulk BulkNil) else Ok (Simple (bytes_of "OK")) : TaskResult).
  assert (respects result two_requests ∧ respects result both_answered) as [H1 H2].
  { split; intros [|[|n]] res; cbn; try done; by intros [= <-]. }
  assert (session_reachable (λ _, ""%string) result (poll_session (λ _, ""%string) both_answered
    (mkSession [0; 1] [] [get_command; set_command] []))) as Hr.
  { apply session_next; [|exact H2].
    apply (session_next (λ _, ""%string) result session_new two_requests); [constructor|exact H1]. }
  exists (mkSession [] [] [get_command; set_command] [Bulk BulkNil; Simple (bytes_of "OK")]).
  split; [reflexivity|]. apply (replies_in_order (λ _, ""%string) result _ _ Hr). left. reflexivity.
Defined.
