(* ===== verification/Compress.v ===== *)
(** * Compression

    The values that the proxy compresses on their way to Redis and
    decompresses on their way back ([proxy/compress.rs]), and the handlers of
    the replies of Redis and of other proxies ([proxy/reply.rs]).  zstd is a
    class; the only law is that decoding undoes encoding. *)

From S2P Require Import Prelude RangeList RustStr Resp Packet Command ClusterMeta Wire MetaMap Keys Strings.

Class Zstd := {
  zstd_encode : bytes → option bytes;
  zstd_decode : bytes → option bytes;
}.

Class ZstdLaws `{Zstd} : Prop := zstd_roundtrip b c : zstd_encode b = Some c → zstd_decode c = Some b.

Inductive CompressionError : Type :=
| CompressIo | CompressInvalidRequest | CompressInvalidResp | CompressDisabled | UnsupportedCmdType | RestrictedCmd.

(** ** Commands *)

(** The elements that [(2..l).step_by(2)] visits. *)
Definition value_positions (l : nat) : list nat := (λ i, 2 * i + 2) <$> seq 0 ((l - 1) / 2).

(** Where the values of the command are; [Ok None] if it has none. *)
Definition value_indices (strategy : CompressionStrategy) (c : CmdCtx) :
    outcome CompressionError (option (OptionalMulti nat)) :=
  match get_data_cmd_type (ctx_cmd c) with
  | DGetset | DSet | DSetnx => Ok (Some (Single 2))
  | DPsetex | DSetex => Ok (Some (Single 3))
  | DMset | DMsetnx =>
      match get_command_len (cmd_request (ctx_cmd c)) with
      | None => Err CompressInvalidRequest
      | Some l => Ok (Some (Multi (value_positions l)))
      end
  | DAppend | DBitcount | DBitfield | DBitop | DBitpos | DDecr | DDecrby | DGetbit | DGetrange | DIncr | DIncrby
  | DIncrbyfloat | DMget | DSetbit | DSetrange | DStrlen =>
      match strategy with
      | SetGetOnly => Err RestrictedCmd
      | _ => Err UnsupportedCmdType
      end
  | _ => Ok None
  end.

Section compress.
Context `{Zstd}.

(** [CmdCtx::change_cmd_element]. *)
Definition change_cmd_element (c : CmdCtx) (index : nat) (data : bytes) : CmdCtx * bool :=
  let '(cmd, success) := change_element (ctx_cmd c) index data in
  (mkCmdCtx cmd (ctx_redirection_times c), success).

Definition compress_one_element (c : CmdCtx) (index : nat) : CmdCtx * outcome CompressionError () :=
  match get_command_element (cmd_request (ctx_cmd c)) index with
  | None => (c, Err CompressInvalidRequest)
  | Some value =>
      match zstd_encode value with
      | None => (c, Err CompressIo)
      | Some compressed =>
          match change_cmd_element c index compressed with
          | (c, true) => (c, Ok ())
          | (c, false) => (c, Err CompressInvalidRequest)
          end
      end
  end.

Fixpoint compress_elements (c : CmdCtx) (indices : list nat) : CmdCtx * outcome CompressionError () :=
  match indices with
  | [] => (c, Ok ())
  | index :: indices =>
      match compress_one_element c index with
      | (c, Ok ()) => compress_elements c indices
      | r => r
      end
  end.

(** The command is changed in place, also when an error is returned. *)
Definition try_compressing_cmd_ctx (strategy : CompressionStrategy) (c : CmdCtx) :
    CmdCtx * outcome CompressionError () :=
  if bool_decide (strategy = Disabled) then (c, Err CompressDisabled)
  else match value_indices strategy c with
       | Ok None => (c, Ok ())
       | Ok (Some (Single index)) => compress_one_element c index
       | Ok (Some (Multi indices)) => compress_elements c indices
       | Err e => (c, Err e)
       | Panic => (c, Panic)
       end.

(** ** Replies *)

(** The elements of an array to be changed, and what they are changed to. *)
Fixpoint decode_elements (i : nat) (arr : list RespVec) : outcome CompressionError (list (nat * bytes)) :=
  match arr with
  | [] => Ok []
  | Bulk (Str s) :: arr =>
      match zstd_decode s with
      | None => Err CompressIo
      | Some d => cons (i, d) <$> decode_elements (S i) arr
      end
  | _ :: arr => decode_elements (S i) arr
  end.

Fixpoint change_elements (packet : RespVec) (changes : list (nat * bytes)) : RespVec * outcome CompressionError () :=
  match changes with
  | [] => (packet, Ok ())
  | (i, d) :: changes =>
      match change_bulk_array_element packet i d with
      | (packet, true) => change_elements packet changes
      | (packet, false) => (packet, Err CompressInvalidResp)
      end
  end.

Definition decompress (strategy : CompressionStrategy) (c : CmdCtx) (packet : RespVec) :
    RespVec * outcome CompressionError () :=
  if bool_decide (strategy = Disabled) then (packet, Err CompressDisabled)
  else match get_data_cmd_type (ctx_cmd c) with
       | DGet | DGetset =>
           match packet with
           | Bulk (Str s) =>
               match zstd_decode s with
               | None => (packet, Err CompressIo)
               | Some d =>
                   match change_bulk_str packet d with
                   | (packet, true) => (packet, Ok ())
                   | (packet, false) => (packet, Err CompressInvalidResp)
                   end
               end
           | _ => (packet, Ok ())
           end
       | DMget =>
           match packet with
           | Arr (Elements arr) =>
               match decode_elements 0 arr with
               | Ok changes => change_elements packet changes
               | Err e => (packet, Err e)
               | Panic => (packet, Panic)
               end
           | _ => (packet, Ok ())
           end
       | _ => (packet, Err UnsupportedCmdType)
       end.

(** ** The handlers of replies ([reply.rs]) *)

(** The text of an error in a reply. *)
Context (backend_error_text : BackendError → string).

Definition backend_failure (err : BackendError) : RespVec :=
  error_reply ("backend failed to handle task: " +:+ backend_error_text err).

(** [DecompressCommitHandler::handle_task], for the replies of Redis. *)
Definition decompress_commit (strategy : CompressionStrategy) (c : CmdCtx) (result : outcome BackendError RespVec) :
    RespVec :=
  match result with
  | Ok packet =>
      match decompress strategy c packet with
      | (packet, Ok ()) | (packet, Err (UnsupportedCmdType | CompressDisabled)) => packet
      | (_, _) => Bulk BulkNil
      end
  | Err err => backend_failure err
  | Panic => Bulk BulkNil
  end.

(** [ReplyCommitHandler::handle_task], for the replies of other proxies. *)
Definition reply_commit (c : CmdCtx) (result : outcome BackendError RespVec) : RespVec :=
  match result with
  | Ok packet => packet
  | Err err => backend_failure err
  | Panic => Bulk BulkNil
  end.

(** ** A command of one key ([executor.rs]) *)

(** [ForwardHandler::handle_single_key_data_cmd]: the command to send, or the
    reply if it is not sent. *)
Context (compress_error_text : string).

Definition handle_single_key_data_cmd (strategy : CompressionStrategy) (c : CmdCtx) : CmdCtx + RespVec :=
  match try_compressing_cmd_ctx strategy c with
  | (c, Ok ()) | (c, Err (UnsupportedCmdType | CompressDisabled)) => inl c
  | (_, Err (CompressInvalidRequest | CompressInvalidResp)) => inr (error_reply "invalid command")
  | (_, Err RestrictedCmd) => inr (error_reply "unsupported string command when compression is enabled")
  | (_, Err CompressIo) => inr (error_reply ("failed to compress data: " +:+ compress_error_text))
  | (_, Panic) => inr (error_reply "")
  end.
End compress.

(** ** Compression is invisible *)

Section transparent.
Context `{ZstdLaws} `{Crc16} `{RedisLaws} `{!Strings} `{!StringLaws}.
Context (backend_error_text : BackendError → string) (compress_error_text : string).

(** [w] is what Redis has for a key that has the value [v] for the clients. *)
Definition stored (v w : option (data * option N)) : Prop :=
  match v, w with
  | None, None => True
  | Some (d, t), Some (d', t') =>
      t = t' ∧ match string_of d with
               | Some b => ∃ c, string_of d' = Some c ∧ zstd_decode c = Some b
               | None => d' = d
               end
  | _, _ => False
  end.

Definition all_stored (n m : node) : Prop := ∀ k, stored (node_get n k) (node_get m k).

(** A command through the proxy: to Redis and back. *)
Definition proxied (strategy : CompressionStrategy) (c : CmdCtx) (m : node) : node * RespVec :=
  match handle_single_key_data_cmd compress_error_text strategy c with
  | inl c =>
      let '(m, r) := node_exec (cmd_request (ctx_cmd c)) m in
      (m, decompress_commit backend_error_text strategy c (Ok r))
  | inr reply => (m, reply)
  end.

(** The commands that write a whole string. *)
Inductive string_write (k : bytes) : (bytes → RespVec) → Prop :=
| write_set : string_write k (set_cmd k)
| write_setnx : string_write k (setnx_cmd k)
| write_getset : string_write k (getset_cmd k)
| write_setex millis t : string_write k (setex_cmd millis k t).

Lemma command_ok_type c :
  command_ok c → get_data_cmd_type c = data_cmd_type_from_packet (cmd_request c).
Proof.
  unfold command_ok, command_new. destruct (command_info_new (cmd_request c)) as [i| |] eqn:Hi; [|done..].
  intros [= Hc]. rewrite <-Hc at 1. unfold command_info_new in Hi. unfold get_data_cmd_type. cbn [cmd_info].
  destruct (match info_get_key _ _ with Some _ => _ | None => _ end) as [slot| |]; [|done..].
  by injection Hi as <-.
Qed.

Lemma stored_updated n m n2 m2 k v w :
  all_stored n m → updated n n2 k v → updated m m2 k w → stored v w → all_stored n2 m2.
Proof.
  intros Hs [Hv Hn] [Hw Hm] Hvw k'. destruct (decide (k' = k)) as [->|Hne]; [by rewrite Hv, Hw|].
  rewrite Hn, Hm by done. apply Hs.
Qed.

Lemma proxied_effect strategy c c' n m k v w r r' :
  handle_single_key_data_cmd compress_error_text strategy c = inl c' →
  key_command (cmd_request (ctx_cmd c)) k → key_command (cmd_request (ctx_cmd c')) k →
  command_effect (cmd_request (ctx_cmd c)) (node_get n k) = (v, r) →
  command_effect (cmd_request (ctx_cmd c')) (node_get m k) = (w, r') →
  decompress_commit backend_error_text strategy c' (Ok r') = r → stored v w → all_stored n m →
  ∃ n2 m2, node_exec (cmd_request (ctx_cmd c)) n = (n2, r) ∧ proxied strategy c m = (m2, r) ∧ all_stored n2 m2.
Proof.
  intros Hc Hk Hk' He He' Hr Hvw Hs. destruct (exec_effect _ _ _ _ _ Hk He) as (n2 & Hn & Hu).
  destruct (exec_effect _ _ _ _ _ Hk' He') as (m2 & Hm & Hu'). exists n2, m2. split; [done|].
  split; [|by eapply stored_updated]. unfold proxied. by rewrite Hc, Hm, Hr.
Qed.

Lemma stored_string b z t : zstd_encode b = Some z → stored (Some (string_data b, t)) (Some (string_data z, t)).
Proof. intros Hz. cbn. rewrite !string_of_data. split; [done|]. exists z. split; [done|]. by apply zstd_roundtrip. Qed.

(** The reply to a read, decompressed. *)
Lemma decompress_get strategy c v w :
  strategy ≠ Disabled → get_data_cmd_type (ctx_cmd c) = DGet ∨ get_data_cmd_type (ctx_cmd c) = DGetset → stored v w →
  decompress_commit backend_error_text strategy c (Ok (get_reply w)) = get_reply v.
Proof.
  intros Hs Hc Hvw. unfold decompress_commit, decompress. rewrite bool_decide_eq_false_2 by done.
  destruct v as [[d t]|], w as [[d' t']|]; cbn [stored] in Hvw; try done; [|by destruct Hc as [-> | ->]].
  destruct Hvw as [_ Hd]. unfold get_reply. destruct (string_of d) as [b|] eqn:Hb.
  - destruct Hd as (z & -> & Hz). destruct Hc as [-> | ->]; by rewrite Hz.
  - subst d'. rewrite Hb. by destruct Hc as [-> | ->].
Qed.

(** Replies that are not decompressed. *)
Definition plain_reply (r : RespVec) : Prop := (∀ b, r ≠ Bulk (Str b)) ∧ ∀ l, r ≠ Arr (Elements l).

Lemma decompress_plain strategy c r : plain_reply r → decompress_commit backend_error_text strategy c (Ok r) = r.
Proof.
  intros [Hb Ha]. unfold decompress_commit, decompress. case_bool_decide; [done|].
  destruct (get_data_cmd_type (ctx_cmd c)); try done; destruct r as [| |[b|]| |[l|]]; try done; first [by destruct (Hb b)|by destruct (Ha l)].
Qed.

Lemma command_value_element l i : get_command_element (command_value l) i = l !! i.
Proof. unfold command_value. cbn [get_command_element]. rewrite list_lookup_fmap. by destruct (l !! i). Qed.

Lemma command_value_change l i b z :
  l !! i = Some b → change_bulk_array_element (command_value l) i z = (command_value (<[i := z]> l), true).
Proof.
  intros Hb. unfold command_value. cbn [change_bulk_array_element]. rewrite list_lookup_fmap, Hb.
  cbn [fmap option_fmap option_map change_bulk_str]. by rewrite list_fmap_insert.
Qed.

Lemma compress_value strategy c i l b z :
  strategy ≠ Disabled → value_indices strategy c = Ok (Some (Single i)) →
  cmd_request (ctx_cmd c) = command_value l → l !! i = Some b → zstd_encode b = Some z →
  handle_single_key_data_cmd compress_error_text strategy c =
    inl (mkCmdCtx (mkCommand (command_value (<[i := z]> l)) (cmd_info (ctx_cmd c))) (ctx_redirection_times c)).
Proof.
  intros Hs Hi Hl Hb Hz. unfold handle_single_key_data_cmd, try_compressing_cmd_ctx.
  rewrite bool_decide_eq_false_2, Hi by done. unfold compress_one_element, change_cmd_element, change_element.
  by rewrite Hl, command_value_element, Hb, Hz, (command_value_change _ _ b).
Qed.

Lemma compress_fails strategy c i l b :
  strategy ≠ Disabled → value_indices strategy c = Ok (Some (Single i)) →
  cmd_request (ctx_cmd c) = command_value l → l !! i = Some b → zstd_encode b = None →
  handle_single_key_data_cmd compress_error_text strategy c =
    inr (error_reply ("failed to compress data: " +:+ compress_error_text)).
Proof.
  intros Hs Hi Hl Hb Hz. unfold handle_single_key_data_cmd, try_compressing_cmd_ctx.
  rewrite bool_decide_eq_false_2, Hi by done. unfold compress_one_element.
  by rewrite Hl, command_value_element, Hb, Hz.
Qed.

(** The place of the value in a writing command. *)
Lemma string_write_value k f b c :
  string_write k f → command_ok (ctx_cmd c) → cmd_request (ctx_cmd c) = f b →
  ∃ i l, f b = command_value l ∧ l !! i = Some b ∧ (∀ z, command_value (<[i := z]> l) = f z) ∧
    ∀ strategy, value_indices strategy c = Ok (Some (Single i)).
Proof.
  intros Hf Hok Hc. pose proof (command_ok_type _ Hok) as Ht. unfold value_indices. rewrite Ht, Hc.
  destruct Hf as [| | |millis t].
  1-3: exists 2; eexists; by split_and!.
  exists 3. eexists. split_and!; [done..|]. by destruct millis.
Qed.

(** What a writing command does, for the clients and at Redis. *)
Lemma string_write_effect k f b z v w :
  string_write k f → zstd_encode b = Some z → stored v w →
  key_command (f b) k ∧ key_command (f z) k ∧ ∃ v' w' r r',
    command_effect (f b) v = (v', r) ∧ command_effect (f z) w = (w', r') ∧ stored v' w' ∧
    (r = r' ∧ plain_reply r' ∨ r = get_reply v ∧ r' = get_reply w ∧ f = getset_cmd k).
Proof.
  intros Hf Hz Hvw. pose proof (λ t, stored_string b z t Hz) as Hnew. destruct Hf as [| | |millis t].
  - destruct (set_law k b) as [? Hb], (set_law k z) as [? Hz']. split_and!; [done..|].
    do 4 eexists. rewrite Hb, Hz'. split; [done|]. split; [done|]. split; [apply Hnew|by left].
  - destruct (setnx_law k b) as [? Hb], (setnx_law k z) as [? Hz']. split_and!; [done..|].
    rewrite Hb, Hz'. destruct v as [[]|], w as [[]|]; try done; do 4 eexists; (split; [done|]; split; [done|]; split; [|by left]); [done|apply Hnew].
  - destruct (getset_law k b) as [? Hb], (getset_law k z) as [? Hz']. split_and!; [done..|].
    rewrite Hb, Hz'. destruct v as [[d s]|], w as [[d' s']|]; try done.
    + destruct Hvw as [-> Hd]. cbn [get_reply]. destruct (string_of d) as [x|] eqn:Hx.
      * destruct Hd as (y & -> & _). do 4 eexists. split; [done|]. split; [done|]. split; [apply Hnew|by right].
      * subst d'. rewrite Hx. do 4 eexists. split; [done|]. split; [done|]. split; [|by left]. cbn. by rewrite Hx.
    + do 4 eexists. split; [done|]. split; [done|]. split; [apply Hnew|by left].
  - destruct (setex_law millis k t) as [Hk He]. split_and!; [done..|].
    destruct He as [[err He]|[ttl He]]; do 4 eexists; rewrite !He; (split; [done|]; split; [done|]; split; [|by left]); [done|apply Hnew].
Qed.

Lemma write_transparent strategy c n m k f b :
  strategy ≠ Disabled → string_write k f → command_ok (ctx_cmd c) → cmd_request (ctx_cmd c) = f b → all_stored n m →
  if zstd_encode b is Some _ then
    ∃ n' m' r, node_exec (f b) n = (n', r) ∧ proxied strategy c m = (m', r) ∧ all_stored n' m'
  else proxied strategy c m = (m, error_reply ("failed to compress data: " +:+ compress_error_text)).
Proof.
  intros Hs Hf Hok Hc Hnm. destruct (string_write_value k f b c Hf Hok Hc) as (i & l & Hl & Hi & Hchange & Hindex).
  destruct (zstd_encode b) as [z|] eqn:Hz.
  2: { unfold proxied. by rewrite (compress_fails strategy c i l b) by (congruence || done). }
  destruct (string_write_effect k f b z _ _ Hf Hz (Hnm k)) as (Hkb & Hkz & v & w & r & r' & Hv & Hw & Hvw & Hr).
  pose proof (compress_value strategy c i l b z Hs (Hindex _) (eq_trans Hc Hl) Hi Hz) as Hcv. rewrite Hchange in Hcv.
  rewrite <-Hc in Hkb, Hv |- *.
  destruct (proxied_effect strategy c _ n m k v w r r' Hcv Hkb Hkz Hv Hw) as (n' & m' & Hn & Hm & Hnm'); [|done..|eauto 10].
  destruct Hr as [[-> Hp]|(-> & -> & ->)]; [by apply decompress_plain|].
  apply decompress_get; [done| |apply Hnm]. right. cbn. pose proof (command_ok_type _ Hok) as Ht. by rewrite Hc in Ht.
Qed.

Lemma get_transparent strategy c n m k :
  strategy ≠ Disabled → command_ok (ctx_cmd c) → cmd_request (ctx_cmd c) = get_cmd k → all_stored n m →
  ∃ n' m' r, node_exec (get_cmd k) n = (n', r) ∧ proxied strategy c m = (m', r) ∧ all_stored n' m'.
Proof.
  intros Hs Hok Hc Hnm. pose proof (command_ok_type _ Hok) as Ht. rewrite Hc in Ht. destruct (get_law k) as [Hk He].
  assert (handle_single_key_data_cmd compress_error_text strategy c = inl c) as Hsend.
  { unfold handle_single_key_data_cmd, try_compressing_cmd_ctx, value_indices. rewrite Ht. by case_bool_decide. }
  rewrite <-Hc in Hk, He |- *.
  destruct (proxied_effect strategy c c n m k _ _ _ _ Hsend Hk Hk (He _) (He _)) as (n' & m' & Hn & Hm & Hnm');
    [|done..|eauto 10].
  apply decompress_get; [done|by left|apply Hnm].
Qed.

(** The commands that change part of a string or depend on its bytes. *)
Definition partial_command (t : DataCmdType) : bool :=
  match t with
  | DAppend | DBitcount | DBitfield | DBitop | DBitpos | DDecr | DDecrby | DGetbit | DGetrange | DIncr | DIncrby
  | DIncrbyfloat | DMget | DSetbit | DSetrange | DStrlen => true
  | _ => false
  end.
End transparent.

(** C23. With compression the clients see the store they would see without it:
    a GET, a SET without options, a SETNX, a GETSET, a SETEX or a PSETEX gets
    the reply of a Redis that has the uncompressed values, and leaves the two
    stores related; one of these whose value cannot be compressed is refused;
    and with the strategy [SetGetOnly] the commands that the proxy classifies
    as ones that look into a string never reach Redis.  Nothing is said of
    other commands, and GETDEL, GETEX and SET with GET do return compressed
    bytes; nor of a command that another proxy redirects, whose value is
    compressed twice. *)
Theorem compression_transparent `{ZstdLaws} `{Crc16} `{RedisLaws} `{!Strings} `{!StringLaws}
    backend_error_text compress_error_text strategy c n m k :
  strategy ≠ Disabled → command_ok (ctx_cmd c) → all_stored n m →
  (∀ f b, string_write k f → cmd_request (ctx_cmd c) = f b →
    if zstd_encode b is Some _ then
      ∃ n' m' r, node_exec (f b) n = (n', r) ∧
        proxied backend_error_text compress_error_text strategy c m = (m', r) ∧ all_stored n' m'
    else proxied backend_error_text compress_error_text strategy c m =
      (m, error_reply ("failed to compress data: " +:+ compress_error_text))) ∧
  (cmd_request (ctx_cmd c) = get_cmd k →
    ∃ n' m' r, node_exec (get_cmd k) n = (n', r) ∧
      proxied backend_error_text compress_error_text strategy c m = (m', r) ∧ all_stored n' m') ∧
  (strategy = SetGetOnly → partial_command (get_data_cmd_type (ctx_cmd c)) = true →
    proxied backend_error_text compress_error_text strategy c m =
      (m, error_reply "unsupported string command when compression is enabled")).
Proof.
  intros Hs Hok Hnm. split_and!.
  - intros f b Hf Hc. by apply write_transparent with (k := k).
  - intros Hc. by apply get_transparent.
  - intros -> Hp. unfold proxied, handle_single_key_data_cmd, try_compressing_cmd_ctx, value_indices.
    by destruct (get_data_cmd_type (ctx_cmd c)).
Qed.

(** ** A run *)

(** Frames that hold the data as it is. *)
Definition zstd_magic : bytes := ascii_of_N <$> [40; 181; 47; 253]%N.

#[global] Instance raw_zstd : Zstd := {|
  zstd_encode b := Some (zstd_magic ++ b);
  zstd_decode c := if bool_decide (take 4 c = zstd_magic) then Some (drop 4 c) else None;
|}.

#[global] Instance raw_zstd_laws : ZstdLaws.
Proof. intros b c [= <-]. cbn. by rewrite drop_0. Qed.

From S2P Require Import MiniRedis.

Definition demo_plain : node := {[ bytes_of "k" := (bytes_of "old", None) ]}.
Definition demo_compressed : node := {[ bytes_of "k" := (zstd_magic ++ bytes_of "old", None) ]}.

Lemma demo_stored : all_stored demo_plain demo_compressed.
Proof.
  intros k. destruct (decide (k = bytes_of "k")) as [->|Hne].
  - vm_compute. split; [done|]. by eexists.
  - assert (node_get demo_plain k = None ∧ node_get demo_compressed k = None) as [-> ->]; [|done].
    by split; refine (lookup_singleton_ne (M := gmap bytes) (bytes_of "k") k _ _).
Qed.

Lemma compression_transparent_witness : ∃ n' m' r,
  node_exec (getset_cmd (bytes_of "k") (bytes_of "new")) demo_plain = (n', r) ∧
  proxied (λ _, "") "" SetGetOnly (ctx_of (H := bitwise_crc16) [bytes_of "GETSET"; bytes_of "k"; bytes_of "new"])
    demo_compressed = (m', r) ∧ all_stored n' m'.
Proof.
  destruct (compression_transparent (H1 := bitwise_crc16) (λ _, "") "" SetGetOnly
    (ctx_of (H := bitwise_crc16) [bytes_of "GETSET"; bytes_of "k"; bytes_of "new"]) demo_plain demo_compressed
    (bytes_of "k")) as [Hw _]; [done|apply ctx_of_ok|exact demo_stored|].
  exact (Hw (getset_cmd (bytes_of "k")) (bytes_of "new") (write_getset _) (proj2 (ctx_of_ok _))).
Defined.
