(* ===== verification/Slowlog.v ===== *)
(** * The slow log

    The events of a request, the sampling of requests, the short form of a
    command and the ring of records ([proxy/slowlog.rs], and the part of
    [proxy/session.rs] that fills it).  A Rust string is the list of its
    bytes; times are nanoseconds in 64-bit signed integers. *)

From S2P Require Import Prelude RangeList RustStr Resp Packet Command ClusterMeta Wire Keys.

Definition MAX_ELEMENT_LENGTH : nat := 100.
Definition EVENT_NUMBER : nat := 8.
Definition LOG_ELEMENT_NUMBER : nat := 5.

(** Signed 64-bit arithmetic wraps around. *)
Definition i64_wrap (z : Z) : Z := ((z + 2 ^ 63) `mod` 2 ^ 64 - 2 ^ 63)%Z.

Inductive TaskEvent : Type :=
| Created | SentToMigrationBackend | SentToCluster | SentToWritingQueue | WritingQueueReceived | SentToBackend
| ReceivedFromBackend | WaitDone.

Definition event_index (e : TaskEvent) : nat :=
  match e with
  | Created => 0 | SentToMigrationBackend => 1 | SentToCluster => 2 | SentToWritingQueue => 3
  | WritingQueueReceived => 4 | SentToBackend => 5 | ReceivedFromBackend => 6 | WaitDone => 7
  end.

Abbreviation RequestEventMap := (list Z) (only parsing).
Definition event_map_default : RequestEventMap := replicate EVENT_NUMBER 0%Z.

Definition set_event_time (event : TaskEvent) (timestamp : Z) (m : RequestEventMap) : may_panic RequestEventMap :=
  if event_index event <? length m then Ok (<[event_index event := timestamp]> m) else Panic.
Definition get_event_time (event : TaskEvent) (m : RequestEventMap) : may_panic Z := expect (m !! event_index event).
Definition get_used_time (event : TaskEvent) (m : RequestEventMap) : may_panic Z :=
  t ← get_event_time event m;
  if (t =? 0)%Z then Ok 0%Z
  else created_time ← get_event_time Created m; Ok (i64_wrap (t - created_time)).

Record Slowlog : Type := mkSlowlog { sl_event_map : RequestEventMap; sl_session_id : N; sl_enabled : bool }.

Definition slowlog_new (session_id : N) (enabled : bool) : Slowlog := mkSlowlog event_map_default session_id enabled.

Definition log_event (now : Z) (event : TaskEvent) (l : Slowlog) : may_panic Slowlog :=
  if negb (sl_enabled l) then Ok l
  else m ← set_event_time event now (sl_event_map l); Ok (mkSlowlog m (sl_session_id l) (sl_enabled l)).

(** ** The short form of a command *)

(** [str::is_char_boundary]: not in front of a continuation byte. *)
Definition continuation (b : ascii) : bool := ((128 <=? N_of_ascii b) && (N_of_ascii b <? 192))%N.
Definition is_char_boundary (s : bytes) (i : nat) : bool :=
  match s !! i with
  | Some b => (i =? 0) || negb (continuation b)
  | None => i =? length s
  end.

(** [String::truncate]. *)
Definition truncate (s : bytes) (new_len : nat) : may_panic bytes :=
  if new_len <=? length s then if is_char_boundary s new_len then Ok (take new_len s) else Panic else Ok s.

Fixpoint comma_separated (l : list string) : string :=
  match l with
  | [] => ""
  | [s] => s
  | s :: l => s +:+ ", " +:+ comma_separated l
  end.

(** [format!("{:?}", data)] of bytes and of RESP values. *)
Definition debug_bytes (data : bytes) : string :=
  "[" +:+ comma_separated ((λ b, to_string (N_of_ascii b)) <$> data) +:+ "]".
Definition debug_bulk (s : BulkStr bytes) : string :=
  match s with Str data => "Str(" +:+ debug_bytes data +:+ ")" | BulkNil => "Nil" end.
Fixpoint debug_resp (r : RespVec) : string :=
  match r with
  | Error data => "Error(" +:+ debug_bytes data +:+ ")"
  | Simple data => "Simple(" +:+ debug_bytes data +:+ ")"
  | Bulk s => "Bulk(" +:+ debug_bulk s +:+ ")"
  | Integer data => "Integer(" +:+ debug_bytes data +:+ ")"
  | Arr ArrayNil => "Arr(Nil)"
  | Arr (Elements l) => "Arr(Arr([" +:+ comma_separated (debug_resp <$> l) +:+ "]))"
  end.

Definition data_to_string (data : bytes) : bytes := if utf8_valid data then data else bytes_of (debug_bytes data).

Definition limit_len (s : bytes) : may_panic bytes :=
  let real_len := length s in
  s ← truncate s MAX_ELEMENT_LENGTH;
  Ok (if MAX_ELEMENT_LENGTH <? real_len then s ++ bytes_of ("(" +:+ to_string (N.of_nat real_len) +:+ "bytes)") else s).

Definition element_to_string (element : RespVec) : bytes :=
  match element with
  | Bulk (Str data) => data_to_string data
  | others => bytes_of (debug_resp others)
  end.

Definition get_brief_command (request : RespPacket) : may_panic (list bytes) :=
  match request with
  | Data (Arr (Elements resps)) => omapM (λ e, limit_len (element_to_string e)) (take LOG_ELEMENT_NUMBER resps)
  | Data others => Ok [bytes_of (debug_resp others)]
  | Indexed r =>
      match get_array_len r with
      | Some num =>
          elements ← omapM (get_array_element r) (take LOG_ELEMENT_NUMBER (seq 0 num));
          omapM (λ data, limit_len (data_to_string data)) (omap id elements)
      | None => Ok [bytes_of "None"]
      end
  end.

Record SlowlogRecord : Type := mkSlowlogRecord {
  sr_event_map : RequestEventMap;
  sr_command : list bytes;
  sr_session_id : N;
}.

Definition from_slow_log (request : RespPacket) (l : Slowlog) : may_panic SlowlogRecord :=
  command ← get_brief_command request;
  Ok (mkSlowlogRecord (sl_event_map l) command (sl_session_id l)).

(** ** The ring of records *)

Record SlowRequestLogger : Type := mkSlowRequestLogger {
  lg_slowlogs : list (option SlowlogRecord);
  lg_curr_index : N;
  lg_count : N;
}.

Definition logger_new (slowlog_len : nat) : SlowRequestLogger := mkSlowRequestLogger (replicate slowlog_len None) 0 0.

Definition store_record (log : SlowlogRecord) (g : SlowRequestLogger) : SlowRequestLogger :=
  let index := (lg_curr_index g `mod` N.of_nat (length (lg_slowlogs g)))%N in
  mkSlowRequestLogger (<[N.to_nat index := Some log]> (lg_slowlogs g)) (wadd (lg_curr_index g) 1) (lg_count g).

Definition logger_add (request : RespPacket) (l : Slowlog) (g : SlowRequestLogger) : may_panic SlowRequestLogger :=
  log ← from_slow_log request l; Ok (store_record log g).

(** [threshold] is the setting [slowlog_log_slower_than]. *)
Definition add_slow_log (threshold : Z) (request : RespPacket) (l : Slowlog) (g : SlowRequestLogger) :
    may_panic SlowRequestLogger :=
  dt ← get_used_time WaitDone (sl_event_map l);
  if (i64_wrap (threshold * 1000) <? dt)%Z then logger_add request l g else Ok g.

Definition logger_get (limit : option nat) (g : SlowRequestLogger) : list SlowlogRecord :=
  take (default (length (lg_slowlogs g)) limit) (omap id (lg_slowlogs g)).

Definition logger_reset (g : SlowRequestLogger) : SlowRequestLogger :=
  mkSlowRequestLogger ((λ _, None) <$> lg_slowlogs g) (lg_curr_index g) (lg_count g).

(** [SlowLogRateLimiter::check_current_enabled]. *)
Definition limit_rate (slowlog_sample_rate : N) (g : SlowRequestLogger) : SlowRequestLogger * bool :=
  let rate := N.max 1 slowlog_sample_rate in
  (mkSlowRequestLogger (lg_slowlogs g) (lg_curr_index g) (wadd (lg_count g) 1), (lg_count g `mod` rate =? 0)%N).

Section report.
(** The date of a timestamp, from the seconds and the nanoseconds. *)
Context (to_rfc3339 : Z → Z → option bytes) (i64_to_string : Z → bytes).

Definition slowlog_to_report (log : SlowlogRecord) : may_panic RespVec :=
  let used label event :=
    t ← get_used_time event (sr_event_map log); Ok (bytes_of (label +:+ ": ") ++ i64_to_string t) in
  start ← get_event_time Created (sr_event_map log);
  let start_date := default (i64_to_string start)
    (to_rfc3339 (Z.quot start 1000000000) (Z.rem start 1000000000 `mod` 2 ^ 32)%Z) in
  times ← omapM (λ p, used p.1 p.2)
    [("sent_to_migration_backend", SentToMigrationBackend); ("sent_to_cluster", SentToCluster);
     ("sent_to_queue", SentToWritingQueue); ("queue_received", WritingQueueReceived); ("sent_to_backend", SentToBackend);
     ("received_from_backend", ReceivedFromBackend); ("wait_done", WaitDone)];
  Ok (Arr (Elements ((λ s, Bulk (Str s)) <$>
    [bytes_of ("session_id: " +:+ to_string (sr_session_id log)); bytes_of "created: " ++ start_date] ++ times ++
    [bytes_of "command: " ++ mjoin (match sr_command log with
                                    | [] => []
                                    | s :: l => s :: ((λ s, bytes_of " " ++ s) <$> l)
                                    end)]))).

Definition slowlogs_to_resp (logs : list SlowlogRecord) : may_panic RespVec :=
  elements ← omapM slowlog_to_report logs; Ok (Arr (Elements elements)).
End report.

(** ** The log of one request *)

(** [Session::handle_cmd] and [Session::handle_slowlog]: a request is sampled
    when it arrives; its record is looked at when its reply is there. *)
Definition session_request (session_id sample_rate : N) (now : Z) (g : SlowRequestLogger) :
    may_panic (SlowRequestLogger * Slowlog) :=
  let '(g, enabled) := limit_rate sample_rate g in
  l ← log_event now Created (slowlog_new session_id enabled); Ok (g, l).

Definition session_reply (threshold now : Z) (request : RespPacket) (l : Slowlog) (g : SlowRequestLogger) :
    may_panic SlowRequestLogger :=
  l ← log_event now WaitDone l; add_slow_log threshold request l g.

(** ** Facts *)

Definition events_ok (m : RequestEventMap) : Prop := length m = EVENT_NUMBER.

Lemma event_index_lt e : event_index e < EVENT_NUMBER.
Proof. unfold EVENT_NUMBER. destruct e; cbn; lia. Qed.

Lemma set_event_time_ok e t m : events_ok m → ∃ m', set_event_time e t m = Ok m' ∧ events_ok m' ∧
  ∀ e', get_event_time e' m' = if bool_decide (event_index e' = event_index e) then Ok t else get_event_time e' m.
Proof.
  unfold events_ok, set_event_time, get_event_time. intros Hm. rewrite Hm. pose proof (event_index_lt e) as He.
  destruct (Nat.ltb_spec (event_index e) EVENT_NUMBER); [|lia]. eexists. split; [done|].
  split; [by rewrite length_insert|]. intros e'. case_bool_decide as Hd.
  - by rewrite Hd, list_lookup_insert_eq by lia.
  - by rewrite list_lookup_insert_ne.
Qed.

Lemma get_used_time_ok e m : events_ok m → ∃ t, get_used_time e m = Ok t.
Proof.
  unfold events_ok. intros Hm. unfold get_used_time, get_event_time.
  destruct (lookup_lt_is_Some_2 m (event_index e)) as [t ->]; [rewrite Hm; apply event_index_lt|].
  destruct (lookup_lt_is_Some_2 m (event_index Created)) as [c Hc]; [rewrite Hm; apply event_index_lt|].
  cbn [expect mbind outcome_bind]. rewrite Hc. destruct (_ =? _)%Z; eauto.
Qed.

Lemma log_event_ok now e l :
  events_ok (sl_event_map l) → ∃ l', log_event now e l = Ok l' ∧ events_ok (sl_event_map l') ∧
    sl_session_id l' = sl_session_id l ∧ sl_enabled l' = sl_enabled l.
Proof.
  intros Hl. unfold log_event. destruct (sl_enabled l) eqn:He; cbn [negb]; [|by eauto].
  destruct (set_event_time_ok e now _ Hl) as (m & -> & Hm & _). eexists. by split_and!.
Qed.

Lemma debug_bytes_ascii c data : (128 ≤ N_of_ascii c)%N → no_char c (debug_bytes data).
Proof.
  intros Hc. unfold debug_bytes.
  assert (∀ x, (N_of_ascii x < 128)%N → x ≠ c) as Hx by (intros x ? ->; lia).
  apply no_char_append; [split; [by apply Hx|done]|]. apply no_char_append; [|split; [by apply Hx|done]].
  assert (∀ n, no_char c (to_string n)) as Hn.
  { intros n. apply to_string_no_char. destruct (digit c) as [d|] eqn:Hd; [|done].
    assert (48 ≤ N_of_ascii c ≤ 57)%N by (apply digit_Some; by rewrite Hd). lia. }
  induction data as [|b [|b' data] IH]; [done|apply Hn|]. cbn [comma_separated fmap list_fmap] in IH |- *.
  apply no_char_append; [apply Hn|]. apply no_char_append; [|done]. repeat (split; [by apply Hx|]). done.
Qed.

(** A string that is cut inside a character: the byte behind the limit is a
    continuation byte. *)
Definition cut_inside (s : bytes) : Prop := ∃ b, s !! MAX_ELEMENT_LENGTH = Some b ∧ continuation b = true.

Lemma limit_len_panics s : limit_len s = Panic ↔ cut_inside s.
Proof.
  unfold limit_len, truncate, is_char_boundary, cut_inside. destruct (s !! MAX_ELEMENT_LENGTH) as [b|] eqn:Hb.
  - pose proof (lookup_lt_Some _ _ _ Hb). destruct (Nat.leb_spec MAX_ELEMENT_LENGTH (length s)); [|lia]. cbn [Nat.eqb orb].
    change (MAX_ELEMENT_LENGTH =? 0) with false. cbn [orb]. split; [|intros (x & [= <-] & ->); done].
    destruct (continuation b) eqn:Hc; [by eauto|done].
  - pose proof (lookup_ge_None_1 _ _ Hb). split; [|naive_solver].
    destruct (Nat.leb_spec MAX_ELEMENT_LENGTH (length s)); [|done].
    by destruct (Nat.eqb_spec MAX_ELEMENT_LENGTH (length s)); [|lia].
Qed.

Lemma data_to_string_cut data : cut_inside (data_to_string data) ↔ utf8_valid data = true ∧ cut_inside data.
Proof.
  unfold data_to_string. destruct (utf8_valid data); [naive_solver|]. split; [|naive_solver].
  intros (b & Hb & Hc). exfalso. apply list_elem_of_lookup_2 in Hb. revert Hb. apply no_char_b, debug_bytes_ascii.
  unfold continuation in Hc. apply andb_true_iff in Hc as [?%N.leb_le _]. done.
Qed.

Lemma omapM_panics {A B} (f : A → may_panic B) l : omapM f l = Panic ↔ ∃ x, x ∈ l ∧ f x = Panic.
Proof.
  induction l as [|x l IH]; cbn; [split; [done|]; by intros (x & ?%elem_of_nil & _)|].
  destruct (f x) as [y|[]|] eqn:Hx; cbn.
  - destruct (omapM f l) as [ys|[]|]; cbn.
    + split; [done|]. intros (z & [-> | Hz]%elem_of_cons & Hp); [by rewrite Hx in Hp|].
      assert (Ok ys = Panic) by (apply IH; eauto). done.
    + split; [|done]. intros _. destruct IH as [IH _]. destruct (IH eq_refl) as (z & ? & ?). exists z. set_solver.
  - split; [|done]. intros _. exists x. set_solver.
Qed.

Lemma omapM_fmap {E A B C} (f : B → outcome E C) (g : A → B) l : omapM f (g <$> l) = omapM (λ x, f (g x)) l.
Proof. induction l as [|x l IH]; [done|]. cbn. destruct (f (g x)); cbn; [|done..]. by rewrite IH. Qed.

Lemma lookups_take {A} (l : list A) n : ∀ k, k + n ≤ length l → omap id ((λ i, l !! i) <$> seq k n) = take n (drop k l).
Proof.
  induction n as [|n IH]; intros k Hk; [done|]. destruct (lookup_lt_is_Some_2 l k) as [x Hx]; [lia|].
  cbn. rewrite Hx. cbn. rewrite IH by lia. by rewrite (drop_S l x k Hx).
Qed.

(** A command, decoded or not, is logged by its first elements. *)
Lemma brief_command_elements p l :
  packet_to_resp_vec p = Ok (command_value l) →
  get_brief_command p = omapM (λ b, limit_len (data_to_string b)) (take LOG_ELEMENT_NUMBER l).
Proof.
  intros Hp. destruct p as [r|v]; cbn [packet_to_resp_vec] in Hp.
  - cbn [get_brief_command]. rewrite (get_array_len_refines r _ Hp). cbn [command_value get_command_len].
    rewrite length_fmap, (omapM_Ok _ (λ i, l !! i)).
    2: { intros i _. rewrite (get_array_element_refines r _ i Hp). cbn [get_command_element command_value].
         rewrite list_lookup_fmap. by destruct (l !! i). }
    cbn [mbind outcome_bind]. f_equal. rewrite take_seq, lookups_take, drop_0 by lia.
    destruct (Nat.le_gt_cases LOG_ELEMENT_NUMBER (length l)).
    + by rewrite Nat.min_l by lia.
    + rewrite Nat.min_r by lia. rewrite !take_ge by lia. done.
  - injection Hp as ->. cbn [get_brief_command command_value]. by rewrite <-fmap_take, omapM_fmap.
Qed.

(** A request panics when it is logged exactly if one of its first five
    arguments is valid UTF-8 and has a character across the 100th byte. *)
Theorem brief_command_panics p l :
  packet_to_resp_vec p = Ok (command_value l) →
  get_brief_command p = Panic ↔
  ∃ i b, i < LOG_ELEMENT_NUMBER ∧ l !! i = Some b ∧ utf8_valid b = true ∧ cut_inside b.
Proof.
  intros Hp. rewrite (brief_command_elements p l Hp), omapM_panics. split.
  - intros (b & (i & Hi)%list_elem_of_lookup_1 & Hb). apply limit_len_panics, data_to_string_cut in Hb.
    apply lookup_take_Some in Hi as [Hi Hlt]. by exists i, b.
  - intros (i & b & Hlt & Hi & Hb). exists b. split; [|by apply limit_len_panics, data_to_string_cut].
    apply (list_elem_of_lookup_2 _ i). by apply lookup_take_Some.
Qed.

(** ** The ring *)

Lemma omap_insert_Permutation {A} (s : list (option A)) i o r :
  s !! i = Some o → omap id (<[i := Some r]> s) ++ option_list o ≡ₚ r :: omap id s.
Proof.
  revert i. induction s as [|x s IH]; intros [|i] Hi; [done..| |]; cbn in Hi |- *.
  - injection Hi as ->. destruct o as [y|]; cbn; [|by rewrite app_nil_r]. by rewrite <-Permutation_cons_append.
  - specialize (IH i Hi). destruct x as [y|]; cbn; [|done]. rewrite IH. by apply Permutation_swap.
Qed.

(** The state after the records [rs]. *)
Record ring_ok (len : nat) (rs : list SlowlogRecord) (g : SlowRequestLogger) : Prop := {
  ring_len : length (lg_slowlogs g) = len;
  ring_index : lg_curr_index g = N.of_nat (length rs);
  ring_recent j r : length rs - len ≤ j → rs !! j = Some r → lg_slowlogs g !! (j `mod` len) = Some (Some r);
  ring_empty i : length rs ≤ i < len → lg_slowlogs g !! i = Some None;
  ring_records : omap id (lg_slowlogs g) ≡ₚ drop (length rs - len) rs;
}.

Lemma ring_new len : ring_ok len [] (logger_new len).
Proof.
  split; cbn; [apply length_replicate|done|done| |].
  - intros i [_ Hi]. by apply lookup_replicate_2.
  - rewrite drop_nil. induction len; [done|]. by cbn.
Qed.

Lemma mod_distinct j k len : 0 < len → k < j + len → j < k → j `mod` len ≠ k `mod` len.
Proof.
  intros Hl Hj Hk Heq. pose proof (Nat.div_mod_eq j len). pose proof (Nat.div_mod_eq k len).
  assert (j `div` len < k `div` len ∨ j `div` len = k `div` len ∨ k `div` len < j `div` len) as [?|[?|?]] by lia; nia.
Qed.

Lemma ring_store len rs g r :
  0 < len → (N.of_nat (length rs) < u64_max)%N → ring_ok len rs g → ring_ok len (rs ++ [r]) (store_record r g).
Proof.
  intros Hlen Hmax [Hl Hi Hr He Hp].
  assert (N.to_nat (lg_curr_index g `mod` N.of_nat (length (lg_slowlogs g))) = length rs `mod` len) as Hidx.
  { rewrite Hi, Hl. rewrite <-Nat2N.inj_mod. by rewrite Nat2N.id. }
  assert (length rs `mod` len < len) as Hlt by (apply Nat.mod_upper_bound; lia).
  split; unfold store_record; rewrite Hidx; cbn [lg_slowlogs lg_curr_index].
  - by rewrite length_insert.
  - rewrite Hi, wadd_small by (unfold u64_max in Hmax; lia). rewrite length_app. cbn. lia.
  - intros j x Hj Hx. rewrite length_app in Hj. cbn in Hj. apply lookup_snoc_Some in Hx as [[Hjk Hx]|[-> ->]].
    + rewrite list_lookup_insert_ne; [apply Hr; [lia|done]|]. apply not_eq_sym, mod_distinct; lia.
    + apply list_lookup_insert_eq. lia.
  - intros i Hii. rewrite length_app in Hii. cbn in Hii. rewrite list_lookup_insert_ne; [apply He; lia|].
    rewrite Nat.mod_small by lia. lia.
  - destruct (Nat.lt_ge_cases (length rs) len) as [Hs|Hs].
    + rewrite Nat.mod_small by lia. pose proof (omap_insert_Permutation _ _ _ r (He (length rs) ltac:(lia))) as Hperm.
      cbn [option_list] in Hperm. rewrite app_nil_r in Hperm. rewrite Hperm, Hp, length_app. cbn [length].
      replace (length rs + 1 - len) with 0 by lia. replace (length rs - len) with 0 by lia.
      rewrite !drop_0. by rewrite Permutation_cons_append.
    + destruct (lookup_lt_is_Some_2 rs (length rs - len)) as [x Hx]; [lia|].
      assert (lg_slowlogs g !! (length rs `mod` len) = Some (Some x)) as Hslot.
      { rewrite <-(Hr (length rs - len) x) by done. f_equal.
        replace (length rs) with (length rs - len + 1 * len) at 1 by lia. by rewrite Nat.Div0.mod_add. }
      pose proof (omap_insert_Permutation _ _ _ r Hslot) as Hperm. change (option_list (Some x)) with [x] in Hperm.
      rewrite Hp, (drop_S rs x _ Hx), <-Permutation_cons_append in Hperm.
      assert (omap id (<[length rs `mod` len := Some r]> (lg_slowlogs g)) ≡ₚ r :: drop (S (length rs - len)) rs) as ->.
      { apply (Permutation_cons_inv (a := x)). rewrite Hperm. by apply Permutation_swap. }
      rewrite length_app. cbn [length]. replace (length rs + 1 - len) with (S (length rs - len)) by lia.
      rewrite drop_app_le by lia. by rewrite Permutation_cons_append.
Qed.

(** The log keeps the most recent records: after any number of slow
    requests [SLOWLOG GET] returns, in some order, exactly the last
    [slowlog_len] of them. *)
Theorem slowlog_keeps_last len rs :
  0 < len → (N.of_nat (length rs) ≤ u64_max)%N →
  logger_get None (foldl (λ g r, store_record r g) (logger_new len) rs) ≡ₚ drop (length rs - len) rs.
Proof.
  intros Hlen Hmax.
  assert (ring_ok len rs (foldl (λ g r, store_record r g) (logger_new len) rs)) as [Hl _ _ _ Hp].
  { induction rs as [|r rs IH] using rev_ind; [apply ring_new|]. rewrite foldl_snoc. rewrite length_app in Hmax. cbn in Hmax.
    apply ring_store; [done|lia|]. apply IH. lia. }
  unfold logger_get. cbn [default]. rewrite take_ge; [done|]. rewrite Hp, Hl, length_drop. lia.
Qed.

Lemma slowlog_keeps_last_witness :
  let r n := mkSlowlogRecord event_map_default [] n in
  logger_get None (foldl (λ g r, store_record r g) (logger_new 2) [r 1%N; r 2%N; r 3%N]) ≡ₚ [r 2%N; r 3%N].
Proof.
  intros r. apply (slowlog_keeps_last 2 [r 1%N; r 2%N; r 3%N]); [lia|]. vm_compute. discriminate.
Defined.

(** A key of 34 characters of three bytes each. *)
Definition long_key : bytes := mjoin (replicate 34 (ascii_of_N <$> [228; 184; 150]%N)).

Lemma brief_command_panics_witness :
  get_brief_command (Data (command_value [bytes_of "GET"; long_key])) = Panic.
Proof.
  apply (brief_command_panics _ [bytes_of "GET"; long_key]); [reflexivity|].
  exists 1, long_key. split; [unfold LOG_ELEMENT_NUMBER; lia|]. split; [reflexivity|].
  split; [vm_compute; reflexivity|]. eexists. split; vm_compute; reflexivity.
Defined.

(** A threshold below zero does not turn the log off, as it does in Redis: it
    logs every request, also those that were not sampled and have no times. *)
Theorem negative_threshold_logs_all threshold now session_id request g :
  (- 9223372036854775 ≤ threshold < 0)%Z →
  session_reply threshold now request (slowlog_new session_id false) g =
    logger_add request (slowlog_new session_id false) g.
Proof.
  intros Ht. unfold session_reply, add_slow_log. cbn [log_event slowlog_new sl_enabled negb mbind outcome_bind].
  change (get_used_time WaitDone (sl_event_map (slowlog_new session_id false))) with (Ok (E := Empty_set) 0%Z).
  cbn [mbind outcome_bind]. assert (i64_wrap (threshold * 1000) = threshold * 1000)%Z as ->.
  { unfold i64_wrap. rewrite Z.mod_small; lia. }
  destruct (Z.ltb_spec (threshold * 1000) 0); [done|lia].
Qed.
