(* ===== verification/Replicate.v ===== *)
(** * Replication of the nodes of a proxy

    The replicators that tell the nodes of a proxy their roles
    ([replication/manager.rs]): concurrent calls of [update_replicators], at
    the grain of their accesses to the shared state, the reports, and the
    rounds of a replicator ([replication/redis_replicator.rs]). *)

From S2P Require Import Prelude RangeList RustStr Resp Packet Command ClusterMeta Wire MetaMap Keys.

#[global] Instance MasterMeta_eq_dec : EqDecision MasterMeta.
Proof. solve_decision. Defined.
#[global] Instance ReplicaMeta_eq_dec : EqDecision ReplicaMeta.
Proof. solve_decision. Defined.

Abbreviation repl_key := (ClusterName * string)%type (only parsing).
Abbreviation repl_role := (MasterMeta + ReplicaMeta)%type (only parsing).

(** A replicator is known by the call that made it. *)
Record Replicator : Type := mkReplicator { rt_call : nat; rt_role : repl_role }.

Definition master_key (m : MasterMeta) : repl_key := (ma_cluster_name m, ma_master_node_address m).
Definition replica_key (m : ReplicaMeta) : repl_key := (re_cluster_name m, re_replica_node_address m).

Definition master_key_set (meta : ReplicatorMeta) : gmap repl_key MasterMeta :=
  hash_collect ((λ m, (master_key m, m)) <$> rep_masters meta).
Definition replica_key_set (meta : ReplicatorMeta) : gmap repl_key ReplicaMeta :=
  hash_collect ((λ m, (replica_key m, m)) <$> rep_replicas meta).

(** ** One call *)

Definition is_my_node (announce_host address : string) : bool :=
  bool_decide (extract_host_from_address address = Some announce_host).
Definition validate_replicators (announce_host : string) (meta : ReplicatorMeta) : bool :=
  forallb (λ m, is_my_node announce_host (ma_master_node_address m)) (rep_masters meta) &&
  forallb (λ m, is_my_node announce_host (re_replica_node_address m)) (rep_replicas meta).

(** The replicators that have the role that the metadata gives their node. *)
Definition unchanged (meta : ReplicatorMeta) (key : repl_key) (r : Replicator) : bool :=
  match rt_role r with
  | inl m => bool_decide (master_key_set meta !! key = Some m)
  | inr m => bool_decide (replica_key_set meta !! key = Some m)
  end.
Definition existing_replicators (meta : ReplicatorMeta) (replicators : gmap repl_key Replicator) :
    gmap repl_key Replicator := filter (λ kr, unchanged meta kr.1 kr.2 = true) replicators.

Definition new_masters (meta : ReplicatorMeta) (kept : gmap repl_key Replicator) : gmap repl_key MasterMeta :=
  hash_collect (filter (λ km, kept !! km.1 = None) ((λ m, (master_key m, m)) <$> rep_masters meta)).
Definition new_replicas (meta : ReplicatorMeta) (kept : gmap repl_key Replicator) : gmap repl_key ReplicaMeta :=
  hash_collect (filter (λ km, kept !! km.1 = None) ((λ m, (replica_key m, m)) <$> rep_replicas meta)).

(** The new map; call [t] starts the new replicators. *)
Definition new_replicators (t : nat) (meta : ReplicatorMeta) (kept : gmap repl_key Replicator) : gmap repl_key Replicator :=
  ((λ m, mkReplicator t (inr m)) <$> new_replicas meta kept) ∪
  ((λ m, mkReplicator t (inl m)) <$> new_masters meta kept) ∪ kept.

(** ** The manager and its calls *)

(** Where a call is: before the test of [updating_epoch], before the store,
    before the read lock, before the write lock. *)
Inductive call_pc : Type := CallTest | CallStore | CallRead | CallWrite (kept : gmap repl_key Replicator).

(** [rm_given] and [rm_installed] are history: the calls that were made, and
    the metadata that the map is from. *)
Record ReplicatorManager : Type := mkReplicatorManager {
  rm_updating_epoch : N;
  rm_epoch : N;
  rm_replicators : gmap repl_key Replicator;
  rm_calls : gmap nat call_pc;
  rm_results : gmap nat (outcome ClusterMetaError ());
  rm_given : gmap nat ReplicatorMeta;
  rm_installed : ReplicatorMeta;
}.

Definition no_roles : ReplicatorMeta := mkReplicatorMeta 0 (mkFlags false false) [] [].
Definition replicator_manager_new : ReplicatorManager := mkReplicatorManager 0 0 ∅ ∅ ∅ ∅ no_roles.

Inductive RAction : Type := UpdateCall (t : nat) (meta : ReplicatorMeta) | UpdateStep (t : nat).

Definition move_call (t : nat) (pc : call_pc) (s : ReplicatorManager) : ReplicatorManager :=
  mkReplicatorManager (rm_updating_epoch s) (rm_epoch s) (rm_replicators s) (<[t := pc]> (rm_calls s)) (rm_results s)
    (rm_given s) (rm_installed s).
Definition end_call (t : nat) (res : outcome ClusterMetaError ()) (s : ReplicatorManager) : ReplicatorManager :=
  mkReplicatorManager (rm_updating_epoch s) (rm_epoch s) (rm_replicators s) (delete t (rm_calls s))
    (<[t := res]> (rm_results s)) (rm_given s) (rm_installed s).
Definition store_updating (epoch : N) (s : ReplicatorManager) : ReplicatorManager :=
  mkReplicatorManager epoch (rm_epoch s) (rm_replicators s) (rm_calls s) (rm_results s) (rm_given s) (rm_installed s).

Definition call_step (t : nat) (meta : ReplicatorMeta) (pc : call_pc) (s : ReplicatorManager) : ReplicatorManager :=
  let force := force (rep_flags meta) in
  match pc with
  | CallTest =>
      if negb force && (rep_epoch meta <=? rm_updating_epoch s)%N then end_call t (Err OldEpoch) s
      else move_call t CallStore s
  | CallStore => move_call t CallRead (store_updating (rep_epoch meta) s)
  | CallRead => move_call t (CallWrite (existing_replicators meta (rm_replicators s))) s
  | CallWrite kept =>
      if negb force && (rep_epoch meta <=? rm_epoch s)%N then
        end_call t (Err OldEpoch) (store_updating (rm_epoch s) s)
      else
        end_call t (Ok ())
          (mkReplicatorManager (rm_updating_epoch s) (rep_epoch meta) (new_replicators t meta kept) (rm_calls s)
             (rm_results s) (rm_given s) meta)
  end.

Definition manager_step (announce_host : string) (a : RAction) (s : ReplicatorManager) : option ReplicatorManager :=
  match a with
  | UpdateCall t meta =>
      match rm_given s !! t, rm_results s !! t with
      | None, None =>
          Some (if validate_replicators announce_host meta then
                  mkReplicatorManager (rm_updating_epoch s) (rm_epoch s) (rm_replicators s) (<[t := CallTest]> (rm_calls s))
                    (rm_results s) (<[t := meta]> (rm_given s)) (rm_installed s)
                else end_call t (Err NotMyMeta) s)
      | _, _ => None
      end
  | UpdateStep t =>
      pc ← rm_calls s !! t; meta ← rm_given s !! t; Some (call_step t meta pc s)
  end.

Inductive manager_reachable (announce_host : string) : ReplicatorManager → Prop :=
| manager_init : manager_reachable announce_host replicator_manager_new
| manager_next a s s' : manager_reachable announce_host s → manager_step announce_host a s = Some s' →
    manager_reachable announce_host s'.

(** ** Reports *)

Definition get_role_num `{HashOrder} (s : ReplicatorManager) : nat * nat :=
  (length (filter (λ r, is_Some (match rt_role r with inl m => Some m | inr _ => None end)) (hash_values (rm_replicators s))),
   length (filter (λ r, is_Some (match rt_role r with inr m => Some m | inl _ => None end)) (hash_values (rm_replicators s)))).

Definition get_metadata `{HashOrder} (s : ReplicatorManager) : list MasterMeta * list ReplicaMeta :=
  (omap (λ r, match rt_role r with inl m => Some m | inr _ => None end) (hash_values (rm_replicators s)),
   omap (λ r, match rt_role r with inr m => Some m | inl _ => None end) (hash_values (rm_replicators s))).

Definition repl_lines (name role address peer : string) (peers : list ReplPeer) : RespVec :=
  let nl := String.String "010" "" in
  command_value (bytes_of <$> ["cluster:" +:+ name +:+ nl; "role:" +:+ role +:+ nl; "node_address:" +:+ address +:+ nl] ++
    ((λ p, peer +:+ ":" +:+ rp_node_address p +:+ "@" +:+ rp_proxy_address p +:+ nl) <$> peers)).

Definition get_metadata_report `{HashOrder} (s : ReplicatorManager) : RespVec :=
  let '(masters, replicas) := get_metadata s in
  Arr (Elements
    (((λ m, repl_lines (ma_cluster_name m) "master" (ma_master_node_address m) "replica" (ma_replicas m)) <$> masters) ++
     ((λ m, repl_lines (re_cluster_name m) "replica" (re_replica_node_address m) "master" (re_masters m)) <$> replicas))).

(** ** The roles of a metadata *)

Definition roles_of (meta : ReplicatorMeta) : gmap repl_key repl_role :=
  (inr <$> replica_key_set meta) ∪ (inl <$> master_key_set meta).

(** No node is a master and a replica. *)
Definition roles_disjoint (meta : ReplicatorMeta) : Prop :=
  ∀ m r, m ∈ rep_masters meta → r ∈ rep_replicas meta → master_key m ≠ replica_key r.

Lemma hash_collect_filter `{Countable K} {V W} (l : list (K * V)) (kept : gmap K W) k :
  hash_collect (filter (λ kv, kept !! kv.1 = None) l) !! k = if kept !! k is Some _ then None else hash_collect l !! k.
Proof.
  unfold hash_collect. induction l as [|[k' v] l IH] using rev_ind; [by destruct (kept !! k)|].
  rewrite filter_app. destruct (decide (kept !! k' = None)) as [Hk|Hk].
  - rewrite filter_cons_True, filter_nil, !foldl_app by done. cbn [foldl fst snd]. destruct (decide (k = k')) as [->|Hne].
    + by rewrite !lookup_insert_eq, Hk.
    + by rewrite !lookup_insert_ne.
  - rewrite filter_cons_False, filter_nil, app_nil_r, foldl_app, IH by done. cbn [foldl fst snd].
    destruct (kept !! k) as [w|] eqn:Hkk; [done|]. rewrite lookup_insert_ne; [done|]. congruence.
Qed.

Lemma hash_collect_elem `{Countable K} {V} (l : list (K * V)) k v : hash_collect l !! k = Some v → (k, v) ∈ l.
Proof.
  unfold hash_collect. induction l as [|[k' v'] l IH] using rev_ind; [done|]. rewrite foldl_app. cbn.
  rewrite elem_of_app, list_elem_of_singleton. destruct (decide (k = k')) as [->|Hne].
  - rewrite lookup_insert_eq. intros [= ->]. by right.
  - rewrite lookup_insert_ne by done. auto.
Qed.

Lemma master_set_key meta k m : master_key_set meta !! k = Some m → k = master_key m ∧ m ∈ rep_masters meta.
Proof. intros (m' & [= -> ->] & Hm)%hash_collect_elem%list_elem_of_fmap. done. Qed.

Lemma replica_set_key meta k m : replica_key_set meta !! k = Some m → k = replica_key m ∧ m ∈ rep_replicas meta.
Proof. intros (m' & [= -> ->] & Hm)%hash_collect_elem%list_elem_of_fmap. done. Qed.

Lemma new_replicators_roles t meta kept :
  roles_disjoint meta → map_Forall (λ k r, unchanged meta k r = true) kept →
  rt_role <$> new_replicators t meta kept = roles_of meta.
Proof.
  intros Hd Hkept. apply map_eq. intros k. unfold new_replicators, roles_of, new_masters, new_replicas.
  rewrite lookup_fmap, !lookup_union, !lookup_fmap, !hash_collect_filter. fold (master_key_set meta) (replica_key_set meta).
  destruct (kept !! k) as [r|] eqn:Hk.
  - specialize (Hkept k r Hk). cbn. unfold unchanged in Hkept. destruct (rt_role r) as [m|m] eqn:Hr; apply bool_decide_eq_true in Hkept.
    + destruct (master_set_key _ _ _ Hkept) as [Hkm Hm]. rewrite Hkept. cbn.
      destruct (replica_key_set meta !! k) as [x|] eqn:Hx; [|done]. apply replica_set_key in Hx as [Hkx Hx].
      exfalso. apply (Hd m x Hm Hx). congruence.
    + rewrite Hkept. cbn. by destruct (master_key_set meta !! k).
  - destruct (replica_key_set meta !! k), (master_key_set meta !! k); done.
Qed.

(** ** The invariant *)

Section invariant.
Context (s0_host : string).

(** The map has the roles of the metadata that was installed last; what a call
    keeps has the role that the call gives it. *)
Record manager_ok (s : ReplicatorManager) : Prop := {
  mok_roles : rt_role <$> rm_replicators s = roles_of (rm_installed s);
  mok_epoch : rm_epoch s = rep_epoch (rm_installed s);
  mok_given : rm_installed s = no_roles ∨ ∃ t, rm_given s !! t = Some (rm_installed s);
  mok_calls t pc : rm_calls s !! t = Some pc → is_Some (rm_given s !! t) ∧ rm_results s !! t = None;
  mok_done t : is_Some (rm_given s !! t) → is_Some (rm_calls s !! t) ∨ is_Some (rm_results s !! t);
  mok_kept t kept meta : rm_calls s !! t = Some (CallWrite kept) → rm_given s !! t = Some meta →
    map_Forall (λ k r, unchanged meta k r = true) kept;
}.

Definition all_disjoint (s : ReplicatorManager) : Prop := map_Forall (λ _ meta, roles_disjoint meta) (rm_given s).

Lemma given_step a s s' t meta :
  manager_step s0_host a s = Some s' → rm_given s !! t = Some meta → rm_given s' !! t = Some meta.
Proof.
  destruct a as [u m|u]; cbn.
  - destruct (rm_given s !! u) eqn:Hu; [done|]. destruct (rm_results s !! u); [done|]. intros [= <-] Ht.
    destruct (validate_replicators _ _); [|done]. cbn. rewrite lookup_insert_ne; [done|congruence].
  - destruct (rm_calls s !! u) as [pc|]; [|done]. destruct (rm_given s !! u) as [m|]; [|done]. intros [= <-].
    by destruct pc; cbn [call_step]; repeat case_match.
Qed.

Lemma end_call_ok t res s :
  manager_ok s → is_Some (rm_calls s !! t) → manager_ok (end_call t res s).
Proof.
  intros [Hr He Hg Hc Hd Hk] [pc Ht]. split; cbn; [done..| | |].
  - intros u pc' [Hne Hu]%lookup_delete_Some. rewrite lookup_insert_ne by done. by eapply Hc.
  - intros u Hu. destruct (decide (u = t)) as [->|Hne].
    + right. by rewrite lookup_insert_eq.
    + rewrite lookup_delete_ne, lookup_insert_ne by done. by apply Hd.
  - intros u kept meta [_ Hu]%lookup_delete_Some. by eapply Hk.
Qed.

Lemma move_call_ok t pc s :
  manager_ok s → is_Some (rm_calls s !! t) →
  (∀ kept meta, pc = CallWrite kept → rm_given s !! t = Some meta → map_Forall (λ k r, unchanged meta k r = true) kept) →
  manager_ok (move_call t pc s).
Proof.
  intros [Hr He Hg Hc Hd Hk] [pc0 Ht] Hpc. split; cbn; [done..| | |].
  - intros u pc'. rewrite lookup_insert_Some. intros [[<- <-]|[Hne Hu]]; [|by apply (Hc u pc')]. by apply (Hc t pc0).
  - intros u Hu. destruct (decide (u = t)) as [->|Hne]; [left; by rewrite lookup_insert_eq|].
    rewrite lookup_insert_ne by done. by apply Hd.
  - intros u kept meta. rewrite lookup_insert_Some. intros [[<- ->]|[Hne Hu]] Hm; [by eapply Hpc|by eapply Hk].
Qed.

Lemma store_updating_ok e s : manager_ok s → manager_ok (store_updating e s).
Proof. by intros []; split. Qed.

Lemma existing_unchanged meta replicators :
  map_Forall (λ k r, unchanged meta k r = true) (existing_replicators meta replicators).
Proof. intros k r [_ H]%map_lookup_filter_Some. done. Qed.

Lemma manager_step_ok a s s' :
  manager_ok s → all_disjoint s → manager_step s0_host a s = Some s' → manager_ok s'.
Proof.
  intros Hok Hdis. destruct a as [t m|t]; cbn.
  - destruct (rm_given s !! t) eqn:Hg; [done|]. destruct (rm_results s !! t) eqn:Hres; [done|]. intros [= <-].
    assert (rm_calls s !! t = None) as Hct.
    { destruct (rm_calls s !! t) eqn:Hc; [|done]. apply (mok_calls s Hok) in Hc as [[? ?] _]. congruence. }
    destruct Hok as [Hr He Hgi Hc Hd Hk]. destruct (validate_replicators _ _); split; cbn; try done.
    + destruct Hgi as [->|[u Hu]]; [by left|]. right. exists u. rewrite lookup_insert_ne; [done|congruence].
    + intros u pc. rewrite lookup_insert_Some. intros [[<- <-]|[Hne Hu]]; [by rewrite lookup_insert_eq|].
      rewrite lookup_insert_ne by done. by eapply Hc.
    + intros u. destruct (decide (u = t)) as [->|Hne]; [left; by rewrite lookup_insert_eq|].
      rewrite !lookup_insert_ne by done. apply Hd.
    + intros u kept meta. rewrite !lookup_insert_Some. intros [[<- Hpc]|[Hne Hu]]; [done|].
      intros [[Heq _]|[_ Hm]]; [done|]. by eapply Hk.
    + intros u pc. rewrite lookup_delete_Some. intros [Hne Hu]. rewrite lookup_insert_ne by done. by eapply Hc.
    + intros u Hu. destruct (decide (u = t)) as [->|Hne]; [right; by rewrite lookup_insert_eq|].
      rewrite lookup_delete_ne, lookup_insert_ne by done. by apply Hd.
    + intros u kept meta. rewrite lookup_delete_Some. intros [_ Hu]. by eapply Hk.
  - destruct (rm_calls s !! t) as [pc|] eqn:Hc; [|done]. destruct (rm_given s !! t) as [meta|] eqn:Hg; [|done].
    intros [= <-]. destruct pc as [| | |kept]; cbn [call_step].
    + destruct (_ && _); [by apply end_call_ok|]. by apply move_call_ok.
    + apply move_call_ok; [by apply store_updating_ok|done|done].
    + apply move_call_ok; [done|done|]. intros kept meta' [= <-] Hm. cbn in Hm. assert (meta' = meta) as -> by congruence.
      apply existing_unchanged.
    + destruct (_ && _); [apply end_call_ok; [by apply store_updating_ok|done]|].
      apply end_call_ok; [|done]. pose proof (mok_kept s Hok t kept meta Hc Hg) as Hkept.
      destruct Hok as [Hr He Hgi Hcs Hd Hk]. split; cbn; try done; [|by right; exists t].
      apply new_replicators_roles; [by apply (Hdis t)|done].
Qed.
End invariant.

(** ** Convergence *)

Section converge.
Context (announce_host : string).

Definition past_store (pc : call_pc) : bool := match pc with CallTest | CallStore => false | _ => true end.

(** An epoch is reached, or a call that has announced it or a larger one is
    still running. *)
Definition covered (e : N) (s : ReplicatorManager) : Prop :=
  (e ≤ rm_epoch s)%N ∨ ∃ t pc meta, rm_calls s !! t = Some pc ∧ past_store pc = true ∧ rm_given s !! t = Some meta ∧
    (e ≤ rep_epoch meta)%N.

Definition unforced (s : ReplicatorManager) : Prop := map_Forall (λ _ meta, force (rep_flags meta) = false) (rm_given s).

Record epochs_ok (s : ReplicatorManager) : Prop := {
  eok_updating : covered (rm_updating_epoch s) s;
  eok_done t meta : rm_given s !! t = Some meta → rm_calls s !! t = None → covered (rep_epoch meta) s;
}.

(** A step of another call does not touch a call. *)
Lemma call_step_other t meta pc s u : u ≠ t → rm_calls (call_step t meta pc s) !! u = rm_calls s !! u.
Proof.
  intros Hne. destruct pc; cbn [call_step]; repeat case_match; cbn;
    by rewrite ?lookup_insert_ne, ?lookup_delete_ne by done.
Qed.

Lemma call_step_given t meta pc s : rm_given (call_step t meta pc s) = rm_given s.
Proof. destruct pc; cbn [call_step]; by repeat case_match. Qed.

Lemma call_step_epoch t meta pc s :
  force (rep_flags meta) = false → (rm_epoch s ≤ rm_epoch (call_step t meta pc s))%N.
Proof.
  intros Hf. destruct pc; cbn [call_step]; rewrite ?Hf; cbn [negb andb]; repeat case_match; cbn; try reflexivity.
  match goal with H : (_ <=? _)%N = false |- _ => apply N.leb_gt in H end. lia.
Qed.

Lemma covered_step t meta pc s e :
  rm_calls s !! t = Some pc → rm_given s !! t = Some meta → force (rep_flags meta) = false →
  covered e s → covered e (call_step t meta pc s).
Proof.
  intros Hc Hg Hf [He|(u & pc' & meta' & Hu & Hp & Hm & He)].
  { left. pose proof (call_step_epoch t meta pc s Hf). lia. }
  destruct (decide (u = t)) as [->|Hne].
  2: { right. exists u, pc', meta'. by rewrite call_step_other, call_step_given. }
  assert (pc' = pc ∧ meta' = meta) as [-> ->] by (split; congruence).
  destruct pc as [| | |kept]; cbn in Hp; [done..| |]; cbn [call_step].
  - right. exists t. do 2 eexists. cbn. rewrite lookup_insert_eq. split_and!; [done..|exact Hg|done].
  - left. rewrite Hf. cbn [negb andb]. destruct (N.leb_spec (rep_epoch meta) (rm_epoch s)); cbn; lia.
Qed.

Lemma ended_covered t meta pc s :
  epochs_ok s → rm_calls s !! t = Some pc → rm_given s !! t = Some meta → force (rep_flags meta) = false →
  rm_calls (call_step t meta pc s) !! t = None → covered (rep_epoch meta) (call_step t meta pc s).
Proof.
  intros [Hup _] Hc Hg Hf Hend. destruct pc as [| | |kept].
  - pose proof (covered_step t meta CallTest s _ Hc Hg Hf Hup) as Hcov. revert Hend Hcov. cbn [call_step]. rewrite Hf. cbn [negb andb].
    destruct (N.leb_spec (rep_epoch meta) (rm_updating_epoch s)) as [Hle|]; [|cbn; by rewrite lookup_insert_eq].
    intros _ [?|(u & pc' & m & Hu & Hp & Hm & He)]; [left; lia|]. right. exists u, pc', m. split_and!; [done..|lia].
  - exfalso. revert Hend. cbn. by rewrite lookup_insert_eq.
  - exfalso. revert Hend. cbn. by rewrite lookup_insert_eq.
  - left. cbn [call_step]. rewrite Hf. cbn [negb andb]. destruct (N.leb_spec (rep_epoch meta) (rm_epoch s)); cbn; lia.
Qed.

Lemma updating_step t meta pc s :
  epochs_ok s → rm_calls s !! t = Some pc → rm_given s !! t = Some meta → force (rep_flags meta) = false →
  covered (rm_updating_epoch (call_step t meta pc s)) (call_step t meta pc s).
Proof.
  intros [Hup _] Hc Hg Hf. pose proof (covered_step t meta pc s _ Hc Hg Hf Hup) as Hcov. revert Hcov.
  destruct pc as [| | |kept]; cbn [call_step]; rewrite ?Hf; cbn [negb andb].
  - by destruct (_ <=? _)%N.
  - intros _. right. exists t. do 2 eexists. cbn. rewrite lookup_insert_eq. split_and!; [done..|exact Hg|done].
  - done.
  - destruct (_ <=? _)%N; [|done]. intros _. by left.
Qed.

Lemma epochs_step_ok a s s' :
  manager_ok s → unforced s → epochs_ok s → manager_step announce_host a s = Some s' → epochs_ok s'.
Proof.
  intros Hok Hun Heok. destruct a as [t m|t]; cbn.
  - destruct (rm_given s !! t) eqn:Hg; [done|]. destruct (rm_results s !! t) eqn:Hres; [done|]. intros [= <-].
    assert (rm_calls s !! t = None) as Hct.
    { destruct (rm_calls s !! t) eqn:Hc; [|done]. apply (mok_calls s Hok) in Hc as [[? ?] _]. congruence. }
    destruct Heok as [Hup Hd].
    assert (∀ e, covered e s → covered e (if validate_replicators announce_host m then
        mkReplicatorManager (rm_updating_epoch s) (rm_epoch s) (rm_replicators s) (<[t := CallTest]> (rm_calls s))
          (rm_results s) (<[t := m]> (rm_given s)) (rm_installed s) else end_call t (Err NotMyMeta) s)) as Hcov.
    { intros e [He|(u & pc & meta & Hu & Hp & Hm & He)]; [left; by destruct (validate_replicators _ _)|].
      assert (u ≠ t) by congruence. right. exists u, pc, meta. destruct (validate_replicators _ _); cbn.
      - by rewrite !lookup_insert_ne.
      - by rewrite lookup_delete_ne. }
    split.
    + specialize (Hcov _ Hup). by destruct (validate_replicators _ _).
    + intros u meta Hm Hc. apply Hcov. revert Hm Hc. destruct (validate_replicators _ _); cbn.
      * rewrite lookup_insert_Some. intros [[<- _]|[Hne Hm]]; [by rewrite lookup_insert_eq|].
        rewrite lookup_insert_ne by done. by apply Hd.
      * intros Hm. assert (u ≠ t) by congruence. rewrite lookup_delete_ne by done. by apply Hd.
  - destruct (rm_calls s !! t) as [pc|] eqn:Hc; [|done]. destruct (rm_given s !! t) as [meta|] eqn:Hg; [|done].
    intros [= <-]. pose proof (Hun t meta Hg) as Hf. split; [by apply updating_step|].
    intros u m. rewrite call_step_given. intros Hm Hend. destruct (decide (u = t)) as [->|Hne].
    + assert (m = meta) as -> by congruence. by apply ended_covered.
    + rewrite call_step_other in Hend by done. apply covered_step; [done..|]. by apply (eok_done s Heok u).
Qed.
End converge.

Lemma manager_new_ok : manager_ok replicator_manager_new.
Proof. split; cbn; [done|done|by left|done| |done]. by intros t [? ?]. Qed.

Lemma manager_new_epochs : epochs_ok replicator_manager_new.
Proof. split; [by left|done]. Qed.

Lemma earlier_given host (P : ReplicatorMeta → Prop) a s s' :
  manager_step host a s = Some s' → map_Forall (λ _ meta, P meta) (rm_given s') → map_Forall (λ _ meta, P meta) (rm_given s).
Proof. intros Hs HP t meta Ht. eapply HP. by eapply given_step. Qed.

Lemma manager_reachable_ok host s : manager_reachable host s → all_disjoint s → manager_ok s.
Proof.
  induction 1 as [|a s s' _ IH Hs]; intros Hd; [apply manager_new_ok|].
  pose proof (earlier_given _ _ _ _ _ Hs Hd) as Hd'. eapply manager_step_ok; [by apply IH|done|exact Hs].
Qed.

Lemma manager_reachable_epochs host s : manager_reachable host s → all_disjoint s → unforced s → epochs_ok s.
Proof.
  induction 1 as [|a s s' Hr IH Hs]; intros Hd Hu; [apply manager_new_epochs|].
  pose proof (earlier_given _ _ _ _ _ Hs Hd) as Hd'. pose proof (earlier_given _ _ _ _ _ Hs Hu) as Hu'.
  eapply epochs_step_ok; [by eapply manager_reachable_ok|done|by apply IH|exact Hs].
Qed.

(** C34. However the calls of [update_replicators] interleave, the replicators
    always have exactly the roles of one metadata, the one that was installed
    last, and its epoch.  If none was forced then, once no call is running,
    this is the metadata with the greatest epoch of all calls, and the epoch
    that calls are tested against is not larger, so that no newer metadata is
    refused. *)
Theorem replicators_converge host s :
  manager_reachable host s → all_disjoint s →
  rt_role <$> rm_replicators s = roles_of (rm_installed s) ∧ rm_epoch s = rep_epoch (rm_installed s) ∧
  (rm_installed s = no_roles ∨ ∃ t, rm_given s !! t = Some (rm_installed s)) ∧
  (unforced s → rm_calls s = ∅ →
    (∀ t meta, rm_given s !! t = Some meta → (rep_epoch meta ≤ rm_epoch s)%N) ∧ (rm_updating_epoch s ≤ rm_epoch s)%N).
Proof.
  intros Hr Hd. destruct (manager_reachable_ok host s Hr Hd) as [Hroles Hepoch Hgiven _ _ _]. split_and!; [done..|].
  intros Hu Hrest. destruct (manager_reachable_epochs host s Hr Hd Hu) as [Hup Hdone].
  assert (∀ e, covered e s → (e ≤ rm_epoch s)%N) as Hcov.
  { intros e [?|(t & pc & meta & Hc & _)]; [done|]. by rewrite Hrest, lookup_empty in Hc. }
  split; [|by apply Hcov]. intros t meta Ht. apply Hcov, (Hdone t); [done|]. by rewrite Hrest.
Qed.

(** The call with the greater epoch writes first; the other one stores its
    epoch last and is then refused. *)
Definition demo_roles (epoch : N) : ReplicatorMeta :=
  mkReplicatorMeta epoch (mkFlags false false) [mkMasterMeta "c" "h:6001" []] [mkReplicaMeta "c" "h:6002" []].
Definition demo_calls : list RAction :=
  [UpdateCall 1 (demo_roles 10); UpdateCall 2 (demo_roles 11); UpdateStep 1; UpdateStep 2; UpdateStep 2; UpdateStep 1;
   UpdateStep 2; UpdateStep 1; UpdateStep 2; UpdateStep 1].
Definition demo_manager : ReplicatorManager :=
  default replicator_manager_new (run_steps (manager_step "h") demo_calls replicator_manager_new).

Lemma demo_manager_reachable : manager_reachable "h" demo_manager.
Proof.
  unfold demo_manager. destruct (run_steps _ _ _) as [s|] eqn:Hs; [|constructor].
  apply (run_steps_invariant _ (manager_reachable "h")) in Hs; [done| |constructor].
  intros a t t' _ Ht Hstep. by econstructor.
Qed.

Lemma replicators_converge_witness :
  rt_role <$> rm_replicators demo_manager = roles_of (rm_installed demo_manager) ∧ rm_epoch demo_manager = 11%N.
Proof.
  split; [|vm_compute; reflexivity]. apply (replicators_converge "h"); [exact demo_manager_reachable|].
  assert (rm_given demo_manager = <[2 := demo_roles 11]> (<[1 := demo_roles 10]> ∅)) as Hg by (vm_compute; reflexivity).
  unfold all_disjoint. rewrite Hg. intros t meta [[_ <-]|[_ [[_ <-]|[_ H]]%lookup_insert_Some]]%lookup_insert_Some; [..|done];
    intros m r [-> | []%not_elem_of_nil]%elem_of_cons [-> | []%not_elem_of_nil]%elem_of_cons [=].
Defined.

(** ** A forced update *)

(** A forced metadata with a smaller epoch and an ordinary one overlap: the
    epoch that is announced stays above the epoch of the replicators, so that
    metadata that is newer than theirs is refused, with no call running. *)
Definition forced_calls : list RAction :=
  [UpdateCall 1 (mkReplicatorMeta 5 (mkFlags true false) [] []); UpdateCall 2 (demo_roles 10); UpdateStep 1; UpdateStep 1;
   UpdateStep 2; UpdateStep 2; UpdateStep 2; UpdateStep 2; UpdateStep 1; UpdateStep 1;
   UpdateCall 3 (demo_roles 7); UpdateStep 3].

Theorem forced_update_refuses_newer : ∃ s,
  run_steps (manager_step "h") forced_calls replicator_manager_new = Some s ∧
  rm_calls s = ∅ ∧ rm_epoch s = 5%N ∧ rm_updating_epoch s = 10%N ∧ rm_results s !! 3 = Some (Err OldEpoch).
Proof. eexists. split; [vm_compute; reflexivity|]. vm_compute. done. Qed.

(** ** The same role, the same replicator *)

(** A node whose role is the same as at the time of the read lock keeps the
    replicator it has; the others get one of this call. *)
Lemma replicator_kept t meta replicators k r :
  roles_disjoint meta → replicators !! k = Some r →
  (roles_of meta !! k = Some (rt_role r) → new_replicators t meta (existing_replicators meta replicators) !! k = Some r) ∧
  (roles_of meta !! k ≠ Some (rt_role r) → ∀ r', 
    new_replicators t meta (existing_replicators meta replicators) !! k = Some r' → rt_call r' = t).
Proof.
  intros Hd Hk. unfold new_replicators, new_masters, new_replicas, roles_of.
  rewrite !lookup_union, !lookup_fmap, !hash_collect_filter. fold (master_key_set meta) (replica_key_set meta).
  destruct (existing_replicators meta replicators !! k) as [x|] eqn:Hx.
  - apply map_lookup_filter_Some in Hx as [Hx Hu]. assert (x = r) as -> by congruence. cbn [fst snd] in Hu.
    split; [done|]. intros Hne. exfalso. apply Hne. unfold unchanged in Hu. destruct (rt_role r) as [m|m]; apply bool_decide_eq_true in Hu.
    + rewrite Hu. destruct (replica_key_set meta !! k) as [y|] eqn:Hy; [|done].
      apply replica_set_key in Hy as [Hky Hy]. apply master_set_key in Hu as [Hkm Hm]. exfalso. apply (Hd m y Hm Hy). congruence.
    + rewrite Hu. by destruct (master_key_set meta !! k).
  - split.
    + intros Hr. exfalso. apply map_lookup_filter_None in Hx as [Hx|Hx]; [congruence|]. specialize (Hx r Hk). apply Hx. cbn [fst snd].
      unfold unchanged. destruct (replica_key_set meta !! k) as [y|], (master_key_set meta !! k) as [m|]; cbn in Hr;
        destruct (rt_role r); simplify_eq; by apply bool_decide_eq_true.
    + intros _ r'. destruct (replica_key_set meta !! k) as [y|], (master_key_set meta !! k) as [m|]; cbn; by intros [= <-].
Qed.

(** ** The rounds of a replicator ([redis_replicator.rs]) *)

Inductive ReplicatorError : Type := ReplAlreadyStarted | ReplAlreadyEnded | ReplInvalidMeta.

(** [rr_running] is the first master, once the loop runs; [rr_cached]: a client
    is kept from the last round; [rr_first]: the first round is still to come. *)
Record ReplicaReplicator : Type := mkReplicaReplicator {
  rr_meta : ReplicaMeta;
  rr_started : bool;
  rr_stopped : bool;
  rr_running : option string;
  rr_cached : bool;
  rr_first : bool;
}.

Definition replica_replicator_new (meta : ReplicaMeta) : ReplicaReplicator :=
  mkReplicaReplicator meta false false None false true.

(** [send_stop_signal]. *)
Definition replica_stop (r : ReplicaReplicator) : ReplicaReplicator * outcome ReplicatorError () :=
  if rr_stopped r then (r, Err ReplAlreadyEnded)
  else (mkReplicaReplicator (rr_meta r) (rr_started r) true (rr_running r) (rr_cached r) (rr_first r), Ok ()).

(** The part of [start_impl] before the loop. *)
Definition replica_start (r : ReplicaReplicator) : ReplicaReplicator * outcome ReplicatorError () :=
  if rr_started r then (r, Err ReplAlreadyStarted)
  else match re_masters (rr_meta r) with
       | [] => (mkReplicaReplicator (rr_meta r) true (rr_stopped r) None (rr_cached r) (rr_first r), Err ReplInvalidMeta)
       | peer :: _ =>
           (mkReplicaReplicator (rr_meta r) true (rr_stopped r) (Some (rp_node_address peer)) (rr_cached r) (rr_first r), Ok ())
       end.

(** What happens in a round: the address of the master, resolved; whether a
    connection to the replica can be made; the reply. *)
Record round_env : Type := mkRoundEnv {
  re_resolve : string → option (string * string);
  re_connect : bool;
  re_reply : outcome RedisClientError RespVec;
}.

(** One pass of the loop: the pause before it, and the command sent to the
    replica. *)
Definition replica_round (env : round_env) (r : ReplicaReplicator) : ReplicaReplicator * bool * option (list bytes) :=
  match rr_running r with
  | Some master_node_address =>
      if rr_stopped r then
        (mkReplicaReplicator (rr_meta r) (rr_started r) true None (rr_cached r) (rr_first r), false, None)
      else
        let with_client cached :=
          mkReplicaReplicator (rr_meta r) (rr_started r) (rr_stopped r) (rr_running r) cached false in
        let slept := negb (rr_first r) in
        match re_resolve env master_node_address with
        | None => (with_client (rr_cached r), slept, None)
        | Some (host, port) =>
            let cmd := bytes_of <$> ["SLAVEOF"; host; port] in
            if rr_cached r || re_connect env then
              (with_client (match re_reply env with Ok (Error _) => false | Ok _ => true | _ => false end), slept, Some cmd)
            else (with_client false, slept, None)
        end
  | None => (r, false, None)
  end.

Definition replica_rounds (envs : list round_env) (r : ReplicaReplicator) : ReplicaReplicator * list (list bytes) :=
  foldl (λ st env, let '(r, _, cmd) := replica_round env st.1 in (r, st.2 ++ option_list cmd)) (r, []) envs.

(** Until it is stopped, a replicator sends the command in every round in
    which the master can be resolved and the replica can be reached, with the
    address the master has in that round; after the first one it pauses. *)
Lemma replica_rounds_send meta r envs :
  replica_start (replica_replicator_new meta) = (r, Ok ()) →
  ∃ peer, head (re_masters meta) = Some peer ∧
    (Forall (λ env, re_connect env = true) envs →
      (replica_rounds envs r).2 =
        omap (λ env, (λ hp, bytes_of <$> ["SLAVEOF"; hp.1; hp.2]) <$> re_resolve env (rp_node_address peer)) envs).
Proof.
  unfold replica_start. cbn. destruct (re_masters meta) as [|peer l]; [done|]. intros [= <-]. exists peer. split; [done|].
  assert (∀ envs r out, rr_running r = Some (rp_node_address peer) → rr_stopped r = false →
    Forall (λ env, re_connect env = true) envs →
    (foldl (λ st env, let '(r, _, cmd) := replica_round env st.1 in (r, st.2 ++ option_list cmd)) (r, out) envs).2 =
      out ++ omap (λ env, (λ hp, bytes_of <$> ["SLAVEOF"; hp.1; hp.2]) <$> re_resolve env (rp_node_address peer)) envs) as Hgen.
  { clear envs. intros envs. induction envs as [|env envs IH]; intros r out Hr Hs Hc; [cbn; by rewrite app_nil_r|].
    apply Forall_cons in Hc as [Hc Hcs]. cbn [foldl fst snd omap list_omap]. unfold replica_round at 2. rewrite Hr, Hs.
    destruct (re_resolve env (rp_node_address peer)) as [[host port]|]; cbn [fmap option_fmap option_map].
    - rewrite Hc, orb_true_r. rewrite IH by done. cbn. by rewrite <-app_assoc.
    - rewrite IH by done. cbn. by rewrite app_nil_r. }
  intros Hc. unfold replica_rounds. by rewrite Hgen.
Qed.
