(* ===== verification/DataCmd.v ===== *)
(** * Data commands

    How the proxy executes the commands of clients that access data
    ([ForwardHandler::handle_data_cmd] and what it calls in
    [proxy/executor.rs], [ensure_keys_imported] of [proxy/manager.rs]).  A
    handler is a [program]: it sends commands of one key and waits for their
    results.  What the commands do is left to the world the program runs in. *)

From S2P Require Import Prelude RangeList RustStr Resp Packet Command ClusterMeta Wire MetaMap Keys Batch Backend Session.

(** [btoi::btou::<usize>] and [btoi::btoi::<usize>]. *)
Class NumberParsers := {
  btou : bytes → option N;
  btoi_usize : bytes → option N;
}.

Class NumberLaws `{NumberParsers} : Prop :=
  btou_to_string n : (n ≤ u64_max)%N → btou (bytes_of (to_string n)) = Some n.

(** ** Blocking commands *)

(** A blocking pop: its type, its timeout in seconds, the commands of a round
    with their keys, those of this round that are still to be sent, and the
    number of rounds before this one. *)
Record BlockingPop : Type := mkBlockingPop {
  bp_type : DataCmdType;
  bp_timeout : N;
  bp_cmds : list (bytes * RespVec);
  bp_pending : list (bytes * RespVec);
  bp_retry_num : N;
}.

Definition get_non_blocking_name (c : CmdCtx) (data_cmd_type : DataCmdType) : RespVec + string :=
  match data_cmd_type with
  | DBlpop => inr "LPOP"
  | DBrpop => inr "RPOP"
  | DBrpoplpush => inr "RPOPLPUSH"
  | DBzpopmin => inr "ZPOPMIN"
  | DBzpopmax => inr "ZPOPMAX"
  | _ => inl (error_reply ("ERR unexpected command name '" +:+ default ""
           (get_command_element (cmd_request (ctx_cmd c)) 0 ≫= from_utf8) +:+ "'"))
  end.

(** The name is one of the five, in any case, so that its debug form only has
    quotes around it. *)
Definition quote : string := String.String (ascii_of_N 34) "".

Definition get_command_arg_len (c : CmdCtx) (data_cmd_type : DataCmdType) : RespVec + nat :=
  let err := error_reply ("ERR invalid argument number for " +:+ quote +:+ default ""
               (get_command_element (cmd_request (ctx_cmd c)) 0 ≫= from_utf8) +:+ quote) in
  match data_cmd_type, get_command_len (cmd_request (ctx_cmd c)) with
  | (DBlpop | DBrpop | DBzpopmin | DBzpopmax), Some len => if 2 <? len then inr len else inl err
  | DBrpoplpush, Some len => if len =? 4 then inr len else inl err
  | _, _ => inl err
  end.

Definition get_command_last_element (request : RespVec) : option bytes :=
  match get_command_len request with
  | Some (S index) => get_command_element request index
  | _ => None
  end.

Definition get_blocking_command_timeout `{NumberParsers} (c : CmdCtx) : RespVec + N :=
  match get_command_last_element (cmd_request (ctx_cmd c)) with
  | None => inl (error_reply "ERR wrong number of arguments")
  | Some last => match btou last with
                 | Some timeout => inr timeout
                 | None => inl (error_reply "ERR invalid timeout argument")
                 end
  end.

Definition is_empty_resp (resp : RespVec) (data_cmd_type : DataCmdType) : bool :=
  match resp, data_cmd_type with
  | Bulk BulkNil, (DBlpop | DBrpop | DBrpoplpush) => true
  | Arr (Elements []), (DBzpopmin | DBzpopmax) => true
  | _, _ => false
  end.

(** The elements from index [i], at most [n] of them, up to the first one that
    is not a string. *)
Fixpoint leading_elements (request : RespVec) (i n : nat) : list bytes :=
  match n with
  | 0 => []
  | S n => match get_command_element request i with
           | Some e => e :: leading_elements request (S i) n
           | None => []
           end
  end.

Definition transfer_cmd_from_blocking_to_non_blocking (c : CmdCtx) (data_cmd_type : DataCmdType) (arg_len : nat)
    (non_blocking_cmd_name : string) : RespVec + list (bytes * RespVec) :=
  let request := cmd_request (ctx_cmd c) in
  match data_cmd_type with
  | DBlpop | DBrpop | DBzpopmin | DBzpopmax =>
      inr ((λ key, (key, command_value [bytes_of non_blocking_cmd_name; key])) <$> leading_elements request 1 (arg_len - 2))
  | DBrpoplpush =>
      let '(resp, _) := change_bulk_array_element request 0 (bytes_of non_blocking_cmd_name) in
      inr [([], match resp with
                | Arr (Elements resps) => Arr (Elements (take (length resps - 1) resps))
                | _ => resp
                end)]
  | _ => inl (error_reply "ERR unsupported blocking command")
  end.

Definition adjust_lrpop_response (resp : RespVec) (key : bytes) : RespVec :=
  match resp with
  | Bulk BulkNil => Arr ArrayNil
  | Bulk (Str s) => Arr (Elements [Bulk (Str key); Bulk (Str s)])
  | _ => resp
  end.

Definition adjust_zpop_response (resp : RespVec) (key : bytes) : RespVec :=
  match resp with
  | Arr (Elements []) => Arr ArrayNil
  | Arr (Elements [member; score]) => Arr (Elements [Bulk (Str key); member; score])
  | _ => resp
  end.

Definition adjust_response (data_cmd_type : DataCmdType) (resp : RespVec) (key : bytes) : RespVec :=
  match data_cmd_type with
  | DBlpop | DBrpop => adjust_lrpop_response resp key
  | DBzpopmin | DBzpopmax => adjust_zpop_response resp key
  | _ => resp
  end.

(** The next command to send; a round that has ended is followed by a pause of
    one second and the next round.  [None]: a round has no commands. *)
Definition next_cmd (b : BlockingPop) : option (bytes * RespVec * BlockingPop) :=
  match bp_pending b with
  | (key, cmd) :: rest => Some (key, cmd, mkBlockingPop (bp_type b) (bp_timeout b) (bp_cmds b) rest (bp_retry_num b))
  | [] =>
      match bp_cmds b with
      | (key, cmd) :: rest => Some (key, cmd, mkBlockingPop (bp_type b) (bp_timeout b) (bp_cmds b) rest (wadd (bp_retry_num b) 1))
      | [] => None
      end
  end.

(** The result of the command for [key]: go on, or answer. *)
Definition handle_pop (key : bytes) (result : TaskResult) (b : BlockingPop) : BlockingPop + TaskResult :=
  match result with
  | Ok resp =>
      if is_empty_resp resp (bp_type b) && ((bp_timeout b =? 0) || (bp_retry_num b <? bp_timeout b))%N then inl b
      else inr (Ok (adjust_response (bp_type b) resp key))
  | other => inr other
  end.

(** ** Programs *)

Inductive program : Type :=
| Answer (res : TaskResult)
| Single (c : CmdCtx)
  (** [handle_single_key_data_cmd]; the reply of the command is the reply. *)
| Join (direct : bool) (cmds : list RespVec) (k : list TaskResult → program)
  (** Sub-commands, all sent at once; [direct]: without compression. *)
| Launch (cmds : list RespVec) (p : program)
  (** Sub-commands that nobody waits for. *)
| Importing (keys : list bytes) (k : bool → program)
  (** [keys_are_importing]. *)
| Pop (b : BlockingPop)
| LocalNode (c : CmdCtx) (k : RespVec → program)
  (** [send_to_any_local_node]. *)
| SyncTask (c : CmdCtx).

Definition answer (resp : RespVec) : program := Answer (Ok resp).
Definition answer_error (msg : string) : program := answer (error_reply msg).

(** ** Commands of several keys *)

Definition ERR_NOT_THE_SAME_SLOT : string := "ERR_MULTI_SLOTS slots of the keys are not the same".

Section handlers.
Context `{Crc16} `{NumberParsers} `{HashOrder} (config : ServerProxyConfig).

(** The text of a [CommandError] in a reply. *)
Context (error_text : CommandError → string).

(** The elements of a range of indices that are strings. *)
Definition elements_of (request : RespVec) (start n : nat) : list bytes :=
  omap (get_command_element request) (seq start n).

(** The test that all keys are in one slot, unless the proxy redirects. *)
Definition check_slots (keys : list bytes) (p : may_panic program) : may_panic program :=
  if active_redirection config then p
  else in_same_slot ← same_slot keys;
       if in_same_slot : bool then p else Ok (answer_error ERR_NOT_THE_SAME_SLOT).

(** The loop over the results of [MGET]. *)
Fixpoint mget_results (results : list TaskResult) (values : list RespVec) : TaskResult :=
  match results with
  | [] => Ok (Arr (Elements values))
  | Ok (Error err) :: _ => Ok (Error err)
  | Ok reply :: results => mget_results results (values ++ [reply])
  | Err err :: _ => Err err
  | Panic :: _ => Panic
  end.

Definition handle_mget (c : CmdCtx) : may_panic program :=
  let request := cmd_request (ctx_cmd c) in
  let arg_len := default 0 (get_command_len request) in
  check_slots (elements_of request 1 (arg_len - 1))
    (Ok match leading_elements request 1 (arg_len - 1) with
     | [] => answer_error "ERR wrong number of arguments for 'mget' command"
     | keys => Join false ((λ key, command_value [bytes_of "GET"; key]) <$> keys) (λ results, Answer (mget_results results []))
     end).

(** The pairs of keys and values, and whether the last key has a value. *)
Fixpoint key_values (request : RespVec) (i n : nat) : list (bytes * bytes) * option bytes :=
  match n with
  | 0 => ([], None)
  | S n =>
      match get_command_element request (2 * i + 1) with
      | None => ([], None)
      | Some key =>
          match get_command_element request (2 * i + 2) with
          | None => ([], Some key)
          | Some value => let '(kvs, alone) := key_values request (S i) n in ((key, value) :: kvs, alone)
          end
      end
  end.

(** The loop over the results of [MSET]. *)
Fixpoint mset_results (results : list TaskResult) : TaskResult :=
  match results with
  | [] => Ok (Simple (bytes_of OK_REPLY))
  | Ok (Error err) :: _ => Ok (Error err)
  | Ok _ :: results => mset_results results
  | Err err :: _ => Err err
  | Panic :: _ => Panic
  end.

(** The keys of [MSET] and [MSETNX]: every second element. *)
Definition odd_elements (request : RespVec) (arg_len : nat) : list bytes :=
  omap (λ i, get_command_element request (2 * i + 1)) (seq 0 (arg_len `div` 2)).

Definition handle_mset (c : CmdCtx) : may_panic program :=
  let request := cmd_request (ctx_cmd c) in
  let arg_len := default 0 (get_command_len request) in
  check_slots (odd_elements request arg_len)
    (let '(kvs, alone) := key_values request 0 arg_len in
     let cmds := (λ kv, command_value [bytes_of "SET"; kv.1; kv.2]) <$> kvs in
     Ok match alone, cmds with
     | Some _, _ => Launch cmds (answer_error "ERR wrong number of arguments for 'mset' command")
     | None, [] => answer_error "ERR wrong number of arguments for 'mset' command"
     | None, _ => Join false cmds (λ results, Answer (mset_results results))
     end).

(** The loop over results that are numbers; [unexpected] is the text of the
    error for any other reply. *)
Fixpoint number_results (unexpected : RespVec → string) (results : list TaskResult) (count : N) : TaskResult :=
  match results with
  | [] => Ok (Integer (bytes_of (to_string count)))
  | Ok (Error err) :: _ => Ok (Error err)
  | Ok (Integer data) :: results =>
      match btou data with
      | Some n => number_results unexpected results (wadd count n)
      | None => Ok (error_reply (unexpected (Integer data)))
      end
  | Ok other :: _ => Ok (error_reply (unexpected other))
  | Err err :: _ => Err err
  | Panic :: _ => Panic
  end.

(** [ensure_keys_imported]: a command is sent for each key, so that its value
    is moved here. *)
Fixpoint import_results (results : list TaskResult) : option RespVec :=
  match results with
  | [] => None
  | Ok (Error err) :: _ => Some (Error err)
  | Ok _ :: results => import_results results
  | Err err :: _ => Some (error_reply ("ERR: " +:+ error_text err))
  | Panic :: _ => Some (error_reply "")
  end.
Definition ensure_keys_imported (keys : list bytes) (p : program) : program :=
  Importing keys (λ importing : bool,
    if importing then
      Join true (gen_exists_resp <$> keys) (λ results, match import_results results with Some err => answer err | None => p end)
    else p).

(** Groups by slot; a group is the words of a command. *)
Definition add_to_slot (m : gmap N (list bytes)) (kv : bytes * bytes) : may_panic (gmap N (list bytes)) :=
  slot ← generate_slot kv.1;
  Ok (<[slot := default [bytes_of "MSETNX"] (m !! slot) ++ [kv.1; kv.2]]> m).
Fixpoint slotted_kvs (m : gmap N (list bytes)) (kvs : list (bytes * bytes)) : may_panic (gmap N (list bytes)) :=
  match kvs with
  | [] => Ok m
  | kv :: kvs => m ← add_to_slot m kv; slotted_kvs m kvs
  end.

Context (unexpected_reply : string → RespVec → string).

Definition handle_msetnx (c : CmdCtx) : may_panic program :=
  let request := cmd_request (ctx_cmd c) in
  let arg_len := default 0 (get_command_len request) in
  check_slots (odd_elements request arg_len)
    (let '(kvs, alone) := key_values request 0 arg_len in
     groups ← slotted_kvs ∅ kvs;
     Ok match alone with
        | Some _ => answer_error "ERR wrong number of arguments for 'mset' command"
        | None =>
            ensure_keys_imported kvs.*1
              (match (λ g, command_value g.2) <$> hash_iter groups with
               | [] => answer_error "ERR wrong number of arguments for 'mset' command"
               | cmds => Join false cmds (λ results, Answer (number_results (unexpected_reply "MSETNX") results 0))
               end)
        end).

(** [DEL] and [EXISTS]. *)
Definition handle_multi_int_cmd (c : CmdCtx) (cmd_name : string) : may_panic program :=
  let request := cmd_request (ctx_cmd c) in
  let arg_len := default 0 (get_command_len request) in
  check_slots (elements_of request 1 (arg_len - 1))
    (Ok match leading_elements request 1 (arg_len - 1) with
     | [] => answer_error ("ERR wrong number of arguments for '" +:+ cmd_name +:+ "' command")
     | keys => Join false ((λ key, command_value [bytes_of cmd_name; key]) <$> keys)
                 (λ results, Answer (number_results (unexpected_reply cmd_name) results 0))
     end).

Definition handle_blocking_commands (c : CmdCtx) : may_panic program :=
  let data_cmd_type := get_data_cmd_type (ctx_cmd c) in
  match get_non_blocking_name c data_cmd_type with
  | inl resp => Ok (answer resp)
  | inr name =>
      match get_command_arg_len c data_cmd_type with
      | inl resp => Ok (answer resp)
      | inr arg_len =>
          match get_blocking_command_timeout c with
          | inl resp => Ok (answer resp)
          | inr timeout =>
              check_slots (elements_of (cmd_request (ctx_cmd c)) 1 (arg_len - 2))
                (Ok match transfer_cmd_from_blocking_to_non_blocking c data_cmd_type arg_len name with
                    | inl resp => answer resp
                    | inr cmds => Pop (mkBlockingPop data_cmd_type timeout cmds cmds 0)
                    end)
          end
      end
  end.

(** The indices of [3..3 + key_num] that are in the command. *)
Definition eval_keys (request : RespVec) (key_num : N) : list bytes :=
  let last := N.min (wadd 3 key_num) (N.of_nat (default 0 (get_command_len request))) in
  elements_of request 3 (N.to_nat last - 3).

Context (numkeys_error : bytes → string).

Definition handle_multi_key_eval_cmd (c : CmdCtx) (key_num : N) : may_panic program :=
  let keys := eval_keys (cmd_request (ctx_cmd c)) key_num in
  in_same_slot ← same_slot keys;
  Ok (if in_same_slot : bool then ensure_keys_imported keys (Single c) else answer_error ERR_NOT_THE_SAME_SLOT).

Definition handle_eval_cmd (c : CmdCtx) : may_panic program :=
  match get_command_element (cmd_request (ctx_cmd c)) 2 with
  | None => Ok (answer_error "ERR: Missing `numkeys` for EVAL")
  | Some key_num_str =>
      match btoi_usize key_num_str with
      | None => Ok (answer_error ("ERR: Invalid `numkeys` " +:+ numkeys_error key_num_str))
      | Some key_num => if (key_num =? 1)%N then Ok (Single c) else handle_multi_key_eval_cmd c key_num
      end
  end.

Definition handle_data_cmd (c : CmdCtx) : may_panic program :=
  let several := bool_decide (get_command_element (cmd_request (ctx_cmd c)) 2 ≠ None) in
  match get_data_cmd_type (ctx_cmd c) with
  | DMget => handle_mget c
  | DMset => handle_mset c
  | DMsetnx => handle_msetnx c
  | DDel => if several then handle_multi_int_cmd c "DEL" else Ok (Single c)
  | DExists => if several then handle_multi_int_cmd c "EXISTS" else Ok (Single c)
  | DBlpop | DBrpop | DBrpoplpush | DBzpopmin | DBzpopmax => handle_blocking_commands c
  | DEval => handle_eval_cmd c
  | _ => Ok (Single c)
  end.
End handlers.

(** ** Runs *)

Section runs.
Context `{Crc16} {W : Type}.

(** The effect and the result of one command of one key, through [manager.send]
    with or without [handle_single_key_data_cmd]; whether keys are being
    imported; what the other clients may do in between. *)
Context (exec : bool → CmdCtx → W → W * TaskResult) (importing : list bytes → W → bool) (other : W → W → Prop).

(** [CmdCtxFactory::create_with_ctx]. *)
Definition create_with_ctx (resp : RespVec) : may_panic CmdCtx := cmd ← command_new resp; Ok (mkCmdCtx cmd None).

(** The sub-commands in the order in which they are executed, with their
    results. *)
Inductive executed (direct : bool) : W → list (RespVec * TaskResult) → W → Prop :=
| executed_nil w : executed direct w [] w
| executed_cons w cmd c w1 r l w2 :
    create_with_ctx cmd = Ok c → exec direct c w = (w1, r) → executed direct w1 l w2 → executed direct w ((cmd, r) :: l) w2
| executed_other w w1 l w2 : other w w1 → executed direct w1 l w2 → executed direct w l w2.

(** Sub-commands are executed in any order. *)
Inductive runs : program → W → TaskResult → W → Prop :=
| runs_answer res w : runs (Answer res) w res w
| runs_single c w w1 r : exec false c w = (w1, r) → runs (Single c) w r w1
| runs_join direct cmds k w ex w1 results res w2 :
    executed direct w ex w1 → length results = length cmds → zip cmds results ≡ₚ ex → runs (k results) w1 res w2 →
    runs (Join direct cmds k) w res w2
| runs_launch cmds p w ex w1 res w2 :
    executed false w ex w1 → cmds ≡ₚ ex.*1 → runs p w1 res w2 → runs (Launch cmds p) w res w2
| runs_importing keys k w res w1 : runs (k (importing keys w)) w res w1 → runs (Importing keys k) w res w1
| runs_pop b w key cmd b' c w1 r w2 res w3 :
    next_cmd b = Some (key, cmd, b') → rtc other w w1 → create_with_ctx cmd = Ok c → exec false c w1 = (w2, r) →
    popped (handle_pop key r b') w2 res w3 → runs (Pop b) w res w3
with popped : BlockingPop + TaskResult → W → TaskResult → W → Prop :=
| popped_answer res w : popped (inr res) w res w
| popped_next b w res w1 : runs (Pop b) w res w1 → popped (inl b) w res w1.
End runs.
