(* ===== verification/MultiKey.v ===== *)
(** * Commands of several keys

    [MGET], [MSET], [DEL] and [EXISTS] of several keys, which the proxy splits
    into commands of one key that are executed in any order, do what one Redis
    would do ([proxy/executor.rs]). *)

From S2P Require Import Prelude RangeList RustStr Resp Packet Command ClusterMeta Wire MetaMap Keys Strings.
From S2P Require Import Batch Backend Session DataCmd.

(** ** A Redis as the world *)

Definition redis_exec `{Redis} (direct : bool) (c : CmdCtx) (n : node) : node * TaskResult :=
  let '(n', r) := node_exec (cmd_request (ctx_cmd c)) n in (n', Ok r).

Section redis.
Context `{Crc16} `{RedisLaws} `{!Strings} `{!StringLaws}.

Abbreviation alone := (λ _ _ : node, False).
Abbreviation sent := (executed redis_exec alone false).

Lemma create_with_ctx_request cmd c : create_with_ctx cmd = Ok c → cmd_request (ctx_cmd c) = cmd.
Proof.
  unfold create_with_ctx, command_new. destruct (command_info_new cmd) as [i|[]|]; cbn; [|done]. by intros [= <-].
Qed.

Lemma create_with_ctx_Ok cmd : ∃ c, create_with_ctx cmd = Ok c.
Proof. unfold create_with_ctx. destruct (command_new_ok cmd) as (c & -> & _). by eexists. Qed.

Lemma sent_cons_inv n cmd r l n' :
  sent n ((cmd, r) :: l) n' → ∃ n1 resp, node_exec cmd n = (n1, resp) ∧ r = Ok resp ∧ sent n1 l n'.
Proof.
  intros He. remember ((cmd, r) :: l) as ex eqn:Hex. destruct He as [|w cmd' c w1 r' l' w2 Hc Hx He|? ? ? ? []]; [done|].
  injection Hex as -> -> ->. unfold redis_exec in Hx. rewrite (create_with_ctx_request _ _ Hc) in Hx.
  destruct (node_exec cmd w) as [n1 resp]. injection Hx as -> <-. eauto.
Qed.

Lemma sent_nil_inv n n' : sent n [] n' → n' = n.
Proof. intros He. remember [] as ex eqn:Hex. by destruct He as [| |? ? ? ? []]. Qed.

(** Sending in the given order. *)
Fixpoint run_sent (cmds : list RespVec) (n : node) : list (RespVec * TaskResult) * node :=
  match cmds with
  | [] => ([], n)
  | cmd :: cmds =>
      let '(n1, r) := node_exec cmd n in
      let '(ex, n') := run_sent cmds n1 in ((cmd, Ok r) :: ex, n')
  end.

Lemma run_sent_ok cmds : ∀ n, sent n (run_sent cmds n).1 (run_sent cmds n).2 ∧ (run_sent cmds n).1.*1 = cmds.
Proof.
  induction cmds as [|cmd cmds IH]; intros n; [split; [constructor|done]|]. cbn.
  destruct (node_exec cmd n) as [n1 r] eqn:Hx. destruct (IH n1) as [Hs Hf]. destruct (run_sent cmds n1) as [ex n'].
  cbn in *. split; [|by rewrite Hf]. destruct (create_with_ctx_Ok cmd) as [c Hc]. econstructor; [exact Hc| |exact Hs].
  unfold redis_exec. by rewrite (create_with_ctx_request _ _ Hc), Hx.
Qed.

Lemma sent_total cmds n : ∃ ex n', sent n ex n' ∧ ex.*1 = cmds.
Proof. destruct (run_sent_ok cmds n) as [Hs Hf]. eauto. Qed.

(** *** Commands that change nothing *)

Section reads.
Context (f : bytes → RespVec) `{!Inj (=) (=) f} (reply : option (data * option N) → RespVec).
Context (Hf : ∀ k, key_command (f k) k ∧ ∀ v, command_effect (f k) v = (v, reply v)).

Lemma sent_reads ks : ∀ ex n n',
  ex.*1 ≡ₚ f <$> ks → sent n ex n' →
  same_data n n' ∧ ∀ k r, (f k, r) ∈ ex → r = Ok (reply (node_get n k)).
Proof.
  assert (∀ ex n n', (∀ p, p ∈ ex → ∃ k, p.1 = f k) → sent n ex n' →
    same_data n n' ∧ ∀ k r, (f k, r) ∈ ex → r = Ok (reply (node_get n k))) as Hgen.
  { intros ex. induction ex as [|[cmd r] ex IH]; intros n n' Hex Hs.
    { apply sent_nil_inv in Hs as ->. split; [done|]. intros k r Hr. by apply elem_of_nil in Hr. }
    apply sent_cons_inv in Hs as (n1 & resp & Hx & -> & Hs). destruct (Hex (cmd, Ok resp)) as [k0 Hk0]; [by left|]. cbn in Hk0. subst cmd.
    destruct (Hf k0) as [Hk He]. destruct (exec_effect (f k0) k0 n _ _ Hk (He _)) as (n1' & Hx' & Hu).
    rewrite Hx in Hx'. injection Hx' as <- ->. apply updated_same in Hu.
    destruct (IH n1 n' (λ p Hp, Hex p (list_elem_of_further _ _ _ Hp)) Hs) as [Hsame Hr]. split.
    - intros k. by rewrite Hsame, Hu.
    - intros k r [[= Hkk ->]|Hin]%elem_of_cons; [|by rewrite (Hr k r Hin), Hu]. by apply (inj f) in Hkk as ->. }
  intros ex n n' Hp. apply Hgen. intros p Hin. assert (p.1 ∈ f <$> ks) as (k & Hk & _)%list_elem_of_fmap; [|by eauto].
  rewrite <-Hp. by apply list_elem_of_fmap_2.
Qed.
End reads.

Lemma zip_results {A B} (l : list A) (results : list B) (g : A → B) :
  length results = length l → (∀ x y, (x, y) ∈ zip l results → y = g x) → results = g <$> l.
Proof.
  revert results. induction l as [|x l IH]; intros [|y results] Hlen Hz; try done. cbn in *.
  rewrite (Hz x y) by (by left). f_equal. apply IH; [lia|]. intros a b Hab. apply Hz. by right.
Qed.

Lemma zip_fst {A B} (l : list A) (results : list B) : length results = length l → (zip l results).*1 = l.
Proof. intros Hlen. apply fst_zip. lia. Qed.

Lemma zip_fmap {A B C} (f : A → C) (l : list A) (results : list B) :
  zip (f <$> l) results = (λ p, (f p.1, p.2)) <$> zip l results.
Proof. revert results. induction l as [|x l IH]; intros [|y results]; [done..|]. cbn. by rewrite IH. Qed.

(** The results of reading commands, in the order of the keys. *)
Lemma read_results f `{!Inj (=) (=) f} reply ks ex results n n' :
  (∀ k, key_command (f k) k ∧ ∀ v, command_effect (f k) v = (v, reply v)) →
  sent n ex n' → length results = length (f <$> ks) → zip (f <$> ks) results ≡ₚ ex →
  same_data n n' ∧ results = (λ k, Ok (reply (node_get n k))) <$> ks.
Proof.
  intros Hf Hs Hlen Hz. destruct (sent_reads f reply Hf ks ex n n') as [Hsame Hr]; [|done|].
  { by rewrite <-Hz, zip_fst. }
  split; [done|]. rewrite length_fmap in Hlen.
  assert (∀ k r, (k, r) ∈ zip ks results → r = Ok (reply (node_get n k))) as Hzip.
  { intros k r Hin. apply Hr. rewrite <-Hz, zip_fmap. apply list_elem_of_fmap. by exists (k, r). }
  by apply zip_results.
Qed.

(** *** [DEL] *)

Lemma list_to_set_size (ks : list bytes) : size (list_to_set ks : gset bytes) ≤ length ks.
Proof.
  induction ks as [|k ks IH]; [done|]. cbn [list_to_set length]. destruct (decide (k ∈ (list_to_set ks : gset bytes))) as [Hk|Hk].
  - assert ({[k]} ∪ list_to_set ks = (list_to_set ks : gset bytes)) as -> by set_solver. lia.
  - rewrite size_union, size_singleton by set_solver. lia.
Qed.

Definition present_keys (n : node) (ks : list bytes) : gset bytes := filter (λ k, node_get n k ≠ None) (list_to_set ks).

Lemma present_keys_cons n n1 k ks :
  updated n n1 k None →
  size (present_keys n (k :: ks)) = N.to_nat (present (node_get n k)) + size (present_keys n1 ks).
Proof.
  intros [Hk Hne]. destruct (node_get n k) as [v|] eqn:Hv; cbn [present].
  - assert (present_keys n (k :: ks) = {[k]} ∪ present_keys n1 ks) as ->.
    { apply set_eq. intros x. unfold present_keys. rewrite elem_of_union, !elem_of_filter, elem_of_singleton. cbn [list_to_set].
      rewrite elem_of_union, elem_of_singleton. destruct (decide (x = k)) as [->|Hx].
      - rewrite Hv. naive_solver.
      - rewrite (Hne x Hx). naive_solver. }
    rewrite size_union, size_singleton; [done|]. intros x ->%elem_of_singleton [Hx _]%elem_of_filter. by rewrite Hk in Hx.
  - change (N.to_nat 0) with 0. cbn [Nat.add]. f_equal. apply set_eq. intros x. unfold present_keys. rewrite !elem_of_filter. cbn [list_to_set].
    rewrite elem_of_union, elem_of_singleton. destruct (decide (x = k)) as [->|Hx].
    + rewrite Hv, Hk. naive_solver.
    + rewrite (Hne x Hx). naive_solver.
Qed.

Lemma sent_dels ks : ∀ ex n n',
  ex.*1 = gen_del_resp <$> ks → sent n ex n' →
  (∃ ns, ex.*2 = (λ i, Ok (number_reply (N.of_nat i))) <$> ns ∧ sum_list ns = size (present_keys n ks)) ∧
  ∀ k, node_get n' k = if bool_decide (k ∈ ks) then None else node_get n k.
Proof.
  induction ks as [|k ks IH]; intros [|[cmd r] ex] n n' Hex Hs; try done.
  { apply sent_nil_inv in Hs as ->. split; [by exists []|done]. }
  injection Hex as -> Hex. apply sent_cons_inv in Hs as (n1 & resp & Hx & -> & Hs).
  destruct (del_law k) as [Hk He]. destruct (exec_effect _ k n _ _ Hk (He _)) as (n1' & Hx' & Hu).
  rewrite Hx in Hx'. injection Hx' as <- ->. destruct (IH ex n1 n' Hex Hs) as [(ns & Hns & Hsum) Hget]. split.
  - exists (N.to_nat (present (node_get n k)) :: ns). cbn. rewrite Hns, N2Nat.id, Hsum. split; [done|].
    symmetry. by apply present_keys_cons.
  - intros x. rewrite Hget. destruct Hu as [Hk1 Hne]. destruct (decide (x = k)) as [->|Hxk].
    + rewrite (bool_decide_eq_true_2 (k ∈ k :: ks)) by (by left). by case_bool_decide.
    + rewrite Hne by done. by rewrite (bool_decide_ext (x ∈ k :: ks) (x ∈ ks)) by set_solver.
Qed.

Lemma present_keys_perm n ks ks' : ks ≡ₚ ks' → present_keys n ks = present_keys n ks'.
Proof. intros Hp. apply set_eq. intros x. unfold present_keys. by rewrite !elem_of_filter, !elem_of_list_to_set, Hp. Qed.

Lemma zip_snd {A B} (l : list A) (results : list B) : length results = length l → (zip l results).*2 = results.
Proof. intros Hlen. apply snd_zip. lia. Qed.

(** The results of [DEL] of each key. *)
Lemma del_results ks ex results n n' :
  sent n ex n' → length results = length (gen_del_resp <$> ks) → zip (gen_del_resp <$> ks) results ≡ₚ ex →
  (∃ ns, results = (λ i, Ok (number_reply (N.of_nat i))) <$> ns ∧ sum_list ns = size (present_keys n ks)) ∧
  ∀ k, node_get n' k = if bool_decide (k ∈ ks) then None else node_get n k.
Proof.
  intros Hs Hlen Hz. pose proof (fmap_Permutation fst _ _ Hz) as Hfst. rewrite zip_fst in Hfst by done. symmetry in Hfst.
  destruct (Permutation_map_inv _ _ Hfst) as (ks' & Hks & Hperm).
  destruct (sent_dels ks' ex n n' Hks Hs) as [(ns & Hns & Hsum) Hget].
  pose proof (fmap_Permutation snd _ _ Hz) as Hsnd. rewrite zip_snd, Hns in Hsnd by done.
  destruct (Permutation_map_inv _ _ Hsnd) as (ns' & Hns' & Hperm'). split.
  - exists ns'. split; [done|]. rewrite (present_keys_perm n ks ks') by done. rewrite <-Hsum. by rewrite Hperm'.
  - intros k. rewrite Hget. by rewrite (bool_decide_ext (k ∈ ks) (k ∈ ks')) by (by rewrite Hperm).
Qed.

(** *** [SET] *)

Lemma sent_sets kvs : ∀ ex n n',
  NoDup kvs.*1 → ex.*1 = (λ kv, set_cmd kv.1 kv.2) <$> kvs → sent n ex n' →
  ex.*2 = (λ _, Ok OK) <$> kvs ∧
  ∀ k, node_get n' k = if (list_to_map kvs : gmap bytes bytes) !! k is Some v then Some (string_data v, None) else node_get n k.
Proof.
  induction kvs as [|[k v] kvs IH]; intros [|[cmd r] ex] n n' Hnd Hex Hs; try done.
  { apply sent_nil_inv in Hs as ->. done. }
  injection Hex as -> Hex. apply NoDup_cons in Hnd as [Hk Hnd]. apply sent_cons_inv in Hs as (n1 & resp & Hx & -> & Hs). cbn [fst snd] in *.
  destruct (set_law k v) as [Hkc He]. destruct (exec_effect _ k n _ _ Hkc (He _)) as (n1' & Hx' & Hk1 & Hne).
  rewrite Hx in Hx'. injection Hx' as <- ->. destruct (IH ex n1 n' Hnd Hex Hs) as [Hr Hget]. split; [cbn; by rewrite Hr|].
  intros x. rewrite Hget. cbn [list_to_map foldr fst snd]. destruct (decide (x = k)) as [->|Hxk].
  - rewrite lookup_insert_eq. by rewrite (not_elem_of_list_to_map_1 _ _ Hk).
  - rewrite lookup_insert_ne by done. by rewrite Hne.
Qed.

Lemma fmap_const_length {A B} (c : B) (l l' : list A) : length l = length l' → (λ _, c) <$> l = (λ _, c) <$> l'.
Proof. revert l'. induction l as [|x l IH]; intros [|y l'] Hl; try done. cbn in *. f_equal. apply IH. lia. Qed.

Lemma set_results kvs ex results n n' :
  NoDup kvs.*1 → sent n ex n' → length results = length kvs →
  zip ((λ kv, set_cmd kv.1 kv.2) <$> kvs) results ≡ₚ ex →
  results = (λ _, Ok OK) <$> kvs ∧
  ∀ k, node_get n' k = if (list_to_map kvs : gmap bytes bytes) !! k is Some v then Some (string_data v, None) else node_get n k.
Proof.
  intros Hnd Hs Hlen Hz. pose proof (fmap_Permutation fst _ _ Hz) as Hfst. rewrite zip_fst in Hfst by (by rewrite length_fmap).
  symmetry in Hfst. destruct (Permutation_map_inv _ _ Hfst) as (kvs' & Hkvs & Hperm).
  assert (NoDup kvs'.*1) as Hnd' by (by rewrite <-Hperm).
  destruct (sent_sets kvs' ex n n' Hnd' Hkvs Hs) as [Hr Hget].
  pose proof (fmap_Permutation snd _ _ Hz) as Hsnd. rewrite zip_snd, Hr in Hsnd by (by rewrite length_fmap).
  destruct (Permutation_map_inv _ _ Hsnd) as (l & Hl & Hperm'). split.
  - rewrite Hl. apply fmap_const_length. by rewrite (Permutation_length Hperm), (Permutation_length Hperm').
  - intros k. rewrite Hget. by rewrite (list_to_map_proper _ _ Hnd Hperm).
Qed.
End redis.

(** ** The handlers *)

Lemma mget_results_ok (rs values : list RespVec) :
  (∀ r e, r ∈ rs → r ≠ Error e) → mget_results (Ok <$> rs) values = Ok (Arr (Elements (values ++ rs))).
Proof.
  revert values. induction rs as [|r rs IH]; intros values Hr; [cbn; by rewrite app_nil_r|].
  assert (mget_results (Ok <$> rs) (values ++ [r]) = Ok (Arr (Elements (values ++ r :: rs)))) as Hrest.
  { rewrite IH, <-app_assoc; [done|]. intros r' e Hin. apply Hr. by right. }
  cbn. destruct r as [e| | | |]; try exact Hrest. by destruct (Hr (Error e) e); [left|].
Qed.

Lemma mset_results_ok {A} (l : list A) : mset_results ((λ _, Ok OK) <$> l) = Ok OK.
Proof. by induction l. Qed.

Lemma number_results_ok `{NumberLaws} u ns : ∀ count,
  (count + N.of_nat (sum_list ns) ≤ u64_max)%N →
  number_results u ((λ i, Ok (number_reply (N.of_nat i))) <$> ns) count = Ok (number_reply (count + N.of_nat (sum_list ns))).
Proof.
  induction ns as [|i ns IH]; intros count Hmax; [cbn; by rewrite N.add_0_r|].
  change (sum_list (i :: ns)) with (i + sum_list ns) in *. cbn [fmap list_fmap number_results]. unfold number_reply at 1.
  rewrite btou_to_string by lia. rewrite wadd_small by (unfold u64_max, u64_modulus in *; lia). rewrite IH by lia. do 2 f_equal. lia.
Qed.

Lemma command_value_lookup l i : get_command_element (command_value l) i = l !! i.
Proof. unfold command_value. cbn [get_command_element]. rewrite list_lookup_fmap. by destruct (l !! i). Qed.

Lemma command_value_len l : get_command_len (command_value l) = Some (length l).
Proof. cbn. by rewrite length_fmap. Qed.

Lemma leading_elements_words l n : ∀ i, leading_elements (command_value l) i n = take n (drop i l).
Proof.
  induction n as [|n IH]; intros i; [done|]. cbn [leading_elements]. rewrite command_value_lookup, IH.
  destruct (l !! i) as [e|] eqn:Hi; [by rewrite (drop_S l e i Hi)|]. by rewrite drop_ge by by apply lookup_ge_None.
Qed.

Lemma elements_of_words l n : ∀ i, elements_of (command_value l) i n = take n (drop i l).
Proof.
  unfold elements_of. induction n as [|n IH]; intros i; [done|]. cbn [seq omap list_omap]. rewrite command_value_lookup.
  destruct (l !! i) as [e|] eqn:Hi; [rewrite (drop_S l e i Hi); cbn; f_equal; apply IH|].
  apply lookup_ge_None in Hi. etransitivity; [apply IH|]. by rewrite (drop_ge l (S i)), (drop_ge l i), !take_nil by lia.
Qed.

Definition flat (kvs : list (bytes * bytes)) : list bytes := kvs ≫= λ kv, [kv.1; kv.2].

Lemma flat_length kvs : length (flat kvs) = 2 * length kvs.
Proof. induction kvs as [|kv kvs IH]; [done|]. change (flat (kv :: kvs)) with ([kv.1; kv.2] ++ flat kvs). cbn [length app]. lia. Qed.

Lemma flat_lookup kvs i kv pre : kvs !! i = Some kv → length pre = 1 →
  (pre ++ flat kvs) !! (2 * i + 1) = Some kv.1 ∧ (pre ++ flat kvs) !! (2 * i + 2) = Some kv.2.
Proof.
  intros Hi Hp. rewrite !lookup_app_r, Hp by lia.
  replace (2 * i + 1 - 1) with (2 * i) by lia. replace (2 * i + 2 - 1) with (2 * i + 1) by lia.
  revert i Hi. induction kvs as [|x kvs IH]; intros [|i] Hi; try done; cbn in Hi |- *; [by simplify_eq|].
  replace (i + S (i + 0)) with (S (2 * i)) by lia. cbn. by apply IH.
Qed.

Lemma key_values_words name kvs m : ∀ n i, i + m = length kvs → m ≤ n →
  key_values (command_value (name :: flat kvs)) i n = (drop i kvs, None).
Proof.
  induction m as [|m IH]; intros n i Hi Hn.
  - rewrite drop_ge by lia. destruct n as [|n]; [done|]. cbn [key_values]. rewrite command_value_lookup.
    rewrite (lookup_ge_None_2 _ (2 * i + 1)); [done|]. cbn. rewrite flat_length. lia.
  - destruct n as [|n]; [lia|]. destruct (lookup_lt_is_Some_2 kvs i) as [kv Hkv]; [lia|].
    destruct (flat_lookup kvs i kv [name] Hkv eq_refl) as [H1 H2]. cbn [key_values]. rewrite !command_value_lookup.
    change (name :: flat kvs) with ([name] ++ flat kvs) in H1, H2 |- *. rewrite H1, H2. cbn [app].
    rewrite (IH n (S i)) by lia. rewrite (drop_S kvs kv i Hkv). by destruct kv.
Qed.

Lemma odd_elements_words name kvs : odd_elements (command_value (name :: flat kvs)) (S (2 * length kvs)) = kvs.*1.
Proof.
  unfold odd_elements. replace (S (2 * length kvs) `div` 2) with (length kvs).
  2: { rewrite <-Nat.add_1_r, Nat.add_comm, Nat.mul_comm, Nat.div_add by lia. done. }
  assert (∀ m i, i + m = length kvs →
    omap (λ j, get_command_element (command_value (name :: flat kvs)) (2 * j + 1)) (seq i m) = (drop i kvs).*1) as Hgen.
  { induction m as [|m IH]; intros i Hi; [by rewrite drop_ge by lia|]. destruct (lookup_lt_is_Some_2 kvs i) as [kv Hkv]; [lia|].
    destruct (flat_lookup kvs i kv [name] Hkv eq_refl) as [H1 _]. cbn [seq omap list_omap]. rewrite command_value_lookup.
    change (name :: flat kvs) with ([name] ++ flat kvs) in H1 |- *. rewrite H1. cbn [app]. rewrite (drop_S kvs kv i Hkv). cbn.
    f_equal. etransitivity; [|apply IH; lia]. done. }
  by apply Hgen.
Qed.

Definition slots_allowed `{Crc16} (config : ServerProxyConfig) (keys : list bytes) : Prop :=
  active_redirection config = true ∨ ∀ k k', k ∈ keys → k' ∈ keys → slot_of k = slot_of k'.

Lemma check_slots_allowed `{Crc16} config keys p : keys ≠ [] → slots_allowed config keys → check_slots config keys p = p.
Proof.
  intros Hne Ha. unfold check_slots. destruct (active_redirection config) eqn:Hr; [done|].
  destruct Ha as [Ha|Ha]; [congruence|]. destruct keys as [|k keys]; [done|]. rewrite same_slot_Ok. cbn [mbind outcome_bind].
  rewrite bool_decide_eq_true_2; [done|]. apply Forall_forall. intros k' Hk'. apply Ha; [by right|by left].
Qed.

Section multi_key.
Context `{Crc16} `{RedisLaws} `{!Strings} `{!StringLaws} `{NumberLaws} `{HashOrder}.
Context (config : ServerProxyConfig) (error_text : CommandError → string) (unexpected : string → RespVec → string)
  (numkeys_error : bytes → string) (importing : list bytes → node → bool).

Abbreviation alone := (λ _ _ : node, False).
Abbreviation handle := (handle_data_cmd config error_text unexpected numkeys_error).
Abbreviation running := (runs redis_exec importing alone).

(** A program that sends commands and computes its answer from the results. *)
Lemma join_answers cmds f n res n' :
  running (Join false cmds (λ results, Answer (f results))) n res n' ↔
  ∃ ex results, executed redis_exec alone false n ex n' ∧ length results = length cmds ∧ zip cmds results ≡ₚ ex ∧
    res = f results.
Proof.
  split.
  - intros Hr. inversion Hr as [| |? ? ? ? ex n1 results ? ? He Hlen Hz Hk| | |]; subst.
    inversion Hk; subst. eauto 10.
  - intros (ex & results & He & Hlen & Hz & ->). econstructor; [exact He|exact Hlen|exact Hz|constructor].
Qed.

(** It has an answer. *)
Lemma join_total cmds f n : ∃ res n', running (Join false cmds (λ results, Answer (f results))) n res n'.
Proof.
  destruct (sent_total cmds n) as (ex & n' & He & Hex). exists (f ex.*2), n'. apply join_answers. exists ex, ex.*2.
  assert (length ex.*2 = length cmds) as Hlen by (by rewrite <-Hex, !length_fmap).
  split_and!; [done..| |done]. rewrite <-Hex. by rewrite zip_fst_snd.
Qed.

Definition key_words (c : CmdCtx) (name : bytes) (words : list bytes) : Prop :=
  cmd_request (ctx_cmd c) = command_value (name :: words).

Lemma key_words_elements c name keys : key_words c name keys →
  elements_of (cmd_request (ctx_cmd c)) 1 (default 0 (get_command_len (cmd_request (ctx_cmd c))) - 1) = keys ∧
  leading_elements (cmd_request (ctx_cmd c)) 1 (default 0 (get_command_len (cmd_request (ctx_cmd c))) - 1) = keys.
Proof.
  intros Hw. rewrite Hw, command_value_len, elements_of_words, leading_elements_words. cbn [default length].
  replace (S (length keys) - 1) with (length keys) by lia. cbn [drop].
  rewrite take_ge by (rewrite ?length_drop; cbn; lia). by rewrite ?drop_0.
Qed.

Lemma mget_refines c name keys n :
  get_data_cmd_type (ctx_cmd c) = DMget → key_words c name keys → keys ≠ [] → slots_allowed config keys →
  (∀ k, k ∈ keys → get_reply (node_get n k) ≠ WRONGTYPE) →
  ∃ p, handle c = Ok p ∧ (∃ res n', running p n res n') ∧
    ∀ res n', running p n res n' →
      res = Ok (Arr (Elements ((λ k, get_reply (node_get n k)) <$> keys))) ∧ same_data n n'.
Proof.
  intros Ht Hw Hne Ha Hstr. unfold handle_data_cmd, handle_mget. rewrite Ht. destruct (key_words_elements _ _ _ Hw) as [-> ->].
  rewrite check_slots_allowed by done. destruct keys as [|k0 keys]; [done|]. eexists. split; [done|]. split; [apply join_total|].
  intros res n' (ex & results & He & Hlen & Hz & ->)%join_answers.
  assert (Inj (=) (=) get_cmd) as Hinj by (intros x y [= Hxy]; done).
  destruct (read_results get_cmd get_reply (k0 :: keys) ex results n n' get_law He Hlen Hz) as [Hsame ->]. split; [|done].
  replace ((λ k, Ok (get_reply (node_get n k))) <$> k0 :: keys)
    with (Ok (E := CommandError) <$> ((λ k, get_reply (node_get n k)) <$> k0 :: keys)) by (by rewrite <-list_fmap_compose).
  rewrite mget_results_ok; [done|].
  intros r e (k & -> & Hk)%list_elem_of_fmap Hr. apply (Hstr k Hk). unfold get_reply in *.
  destruct (node_get n k) as [[d t]|]; [|done]. by destruct (string_of d).
Qed.

Lemma exists_refines c name keys n :
  get_data_cmd_type (ctx_cmd c) = DExists → key_words c name keys → 2 ≤ length keys → slots_allowed config keys →
  (N.of_nat (length keys) ≤ u64_max)%N →
  ∃ p, handle c = Ok p ∧ (∃ res n', running p n res n') ∧
    ∀ res n', running p n res n' →
      res = Ok (number_reply (N.of_nat (length (filter (λ k, node_get n k ≠ None) keys)))) ∧ same_data n n'.
Proof.
  intros Ht Hw Hlen2 Ha Hmax. unfold handle_data_cmd, handle_multi_int_cmd. rewrite Ht.
  assert (get_command_element (cmd_request (ctx_cmd c)) 2 ≠ None) as Hsev.
  { rewrite Hw, command_value_lookup. cbn. apply not_eq_None_Some, lookup_lt_is_Some_2. lia. }
  rewrite bool_decide_eq_true_2 by done. destruct (key_words_elements _ _ _ Hw) as [-> ->].
  assert (keys ≠ []) as Hne by (intros ->; cbn in Hlen2; lia).
  rewrite check_slots_allowed by done. destruct keys as [|k0 keys]; [done|].
  eexists. split; [done|]. split; [apply join_total|].
  intros res n' (ex & results & He & Hlen & Hz & ->)%join_answers.
  assert (Inj (=) (=) gen_exists_resp) as Hinj by (intros x y [= Hxy]; done).
  destruct (read_results gen_exists_resp (λ v, number_reply (present v)) (k0 :: keys) ex results n n' exists_law He Hlen Hz)
    as [Hsame ->]. split; [|done].
  assert (∀ ks : list bytes, (λ k, Ok (E := CommandError) (number_reply (present (node_get n k)))) <$> ks =
    (λ i, Ok (number_reply (N.of_nat i))) <$> ((λ k, N.to_nat (present (node_get n k))) <$> ks)) as Hfmap.
  { intros ks. rewrite <-list_fmap_compose. apply list_fmap_ext. intros i k _. cbn. by rewrite N2Nat.id. }
  assert (∀ ks : list bytes, sum_list ((λ k, N.to_nat (present (node_get n k))) <$> ks) =
    length (filter (λ k, node_get n k ≠ None) ks)) as Hsum.
  { intros ks. induction ks as [|k ks IH]; [done|]. rewrite filter_cons. cbn [fmap list_fmap].
    change (sum_list (?x :: ?l)) with (x + sum_list l).
    destruct (node_get n k) as [v|] eqn:Hv; case_decide; try done. cbn [length]. rewrite <-IH. done. }
  rewrite Hfmap, number_results_ok, Hsum; [done|]. rewrite Hsum. pose proof (length_filter (λ k, node_get n k ≠ None) (k0 :: keys)). lia.
Qed.

Lemma del_refines c name keys n :
  get_data_cmd_type (ctx_cmd c) = DDel → key_words c name keys → 2 ≤ length keys → slots_allowed config keys →
  (N.of_nat (length keys) ≤ u64_max)%N →
  ∃ p, handle c = Ok p ∧ (∃ res n', running p n res n') ∧
    ∀ res n', running p n res n' →
      res = Ok (number_reply (N.of_nat (size (present_keys n keys)))) ∧
      ∀ k, node_get n' k = if bool_decide (k ∈ keys) then None else node_get n k.
Proof.
  intros Ht Hw Hlen2 Ha Hmax. unfold handle_data_cmd, handle_multi_int_cmd. rewrite Ht.
  assert (get_command_element (cmd_request (ctx_cmd c)) 2 ≠ None) as Hsev.
  { rewrite Hw, command_value_lookup. cbn. apply not_eq_None_Some, lookup_lt_is_Some_2. lia. }
  rewrite bool_decide_eq_true_2 by done. destruct (key_words_elements _ _ _ Hw) as [-> ->].
  assert (keys ≠ []) as Hne by (intros ->; cbn in Hlen2; lia).
  rewrite check_slots_allowed by done. destruct keys as [|k0 keys]; [done|].
  eexists. split; [done|]. split; [apply join_total|].
  intros res n' (ex & results & He & Hlen & Hz & ->)%join_answers.
  destruct (del_results (k0 :: keys) ex results n n' He Hlen Hz) as [(ns & -> & Hsum) Hget]. split; [|done].
  rewrite number_results_ok, Hsum; [done|]. rewrite Hsum.
  assert (size (present_keys n (k0 :: keys)) ≤ length (k0 :: keys)); [|lia].
  transitivity (size (list_to_set (k0 :: keys) : gset bytes)); [apply subseteq_size; unfold present_keys; set_solver|].
  apply list_to_set_size.
Qed.

Lemma mset_refines c name kvs n :
  get_data_cmd_type (ctx_cmd c) = DMset → key_words c name (flat kvs) → kvs ≠ [] → NoDup kvs.*1 →
  slots_allowed config kvs.*1 →
  ∃ p, handle c = Ok p ∧ (∃ res n', running p n res n') ∧
    ∀ res n', running p n res n' →
      res = Ok OK ∧ ∀ k, node_get n' k =
        if (list_to_map kvs : gmap bytes bytes) !! k is Some v then Some (string_data v, None) else node_get n k.
Proof.
  intros Ht Hw Hne Hnd Ha. unfold handle_data_cmd, handle_mset. rewrite Ht, Hw, command_value_len. cbn [default from_option id].
  cbn [length]. rewrite flat_length, odd_elements_words.
  rewrite check_slots_allowed by (done || by destruct kvs).
  rewrite (key_values_words name kvs (length kvs) (S (2 * length kvs)) 0) by lia. rewrite drop_0. destruct kvs as [|kv0 kvs]; [done|].
  eexists. split; [done|]. split; [apply join_total|].
  intros res n' (ex & results & He & Hlen & Hz & ->)%join_answers. rewrite length_fmap in Hlen.
  destruct (set_results (kv0 :: kvs) ex results n n' Hnd He Hlen Hz) as [-> Hget]. split; [|done]. apply mset_results_ok.
Qed.
End multi_key.

(** C22. The proxy splits [MGET], [EXISTS], [DEL] and [MSET] of several keys
    into commands of one key.  In whatever order these are executed, the reply
    and the data afterwards are those of one Redis: the values of the keys,
    the number of keys that exist, counted as often as they are named, the
    number of different keys that were deleted, and all keys set.  The keys
    must be in one slot unless the proxy redirects, those of [MGET] must not
    have a value of another type than strings, [MSET] must have complete pairs
    with different keys, and no other client comes in between. *)
Theorem multi_key_commands `{Crc16} `{RedisLaws} `{!Strings} `{!StringLaws} `{NumberLaws} `{HashOrder}
    config error_text unexpected numkeys_error importing c name words n :
  let handle := handle_data_cmd config error_text unexpected numkeys_error in
  let running := runs redis_exec importing (λ _ _, False) in
  cmd_request (ctx_cmd c) = command_value (name :: words) → (N.of_nat (length words) ≤ u64_max)%N →
  let executes spec := ∃ p, handle c = Ok p ∧ (∃ res n', running p n res n') ∧ ∀ res n', running p n res n' → spec res n' in
  (get_data_cmd_type (ctx_cmd c) = DMget → words ≠ [] → slots_allowed config words →
   (∀ k, k ∈ words → get_reply (node_get n k) ≠ WRONGTYPE) →
   executes (λ res n', res = Ok (Arr (Elements ((λ k, get_reply (node_get n k)) <$> words))) ∧ same_data n n')) ∧
  (get_data_cmd_type (ctx_cmd c) = DExists → 2 ≤ length words → slots_allowed config words →
   executes (λ res n',
     res = Ok (number_reply (N.of_nat (length (filter (λ k, node_get n k ≠ None) words)))) ∧ same_data n n')) ∧
  (get_data_cmd_type (ctx_cmd c) = DDel → 2 ≤ length words → slots_allowed config words →
   executes (λ res n', res = Ok (number_reply (N.of_nat (size (present_keys n words)))) ∧
     ∀ k, node_get n' k = if bool_decide (k ∈ words) then None else node_get n k)) ∧
  (∀ kvs, get_data_cmd_type (ctx_cmd c) = DMset → words = flat kvs → kvs ≠ [] → NoDup kvs.*1 → slots_allowed config kvs.*1 →
   executes (λ res n', res = Ok OK ∧ ∀ k, node_get n' k =
     if (list_to_map kvs : gmap bytes bytes) !! k is Some v then Some (string_data v, None) else node_get n k)).
Proof.
  intros handle running Hw Hmax executes. split_and!; intros.
  - by eapply mget_refines.
  - by eapply exists_refines.
  - by eapply del_refines.
  - subst words. by eapply mset_refines.
Qed.

(** ** [MSET] without the last value *)

Lemma key_values_odd name kvs alone m : ∀ n i, i + m = length kvs → m < n →
  key_values (command_value (name :: flat kvs ++ [alone])) i n = (drop i kvs, Some alone).
Proof.
  assert (∀ j x, (name :: flat kvs) !! j = Some x → (name :: flat kvs ++ [alone]) !! j = Some x) as Happ.
  { intros j x Hj. change (name :: flat kvs ++ [alone]) with ((name :: flat kvs) ++ [alone]). by apply lookup_app_l_Some. }
  induction m as [|m IH]; intros n i Hi Hn; (destruct n as [|n]; [lia|]); cbn [key_values]; rewrite !command_value_lookup.
  - rewrite drop_ge by lia. change (name :: flat kvs ++ [alone]) with ((name :: flat kvs) ++ [alone]).
    assert (length (name :: flat kvs) = 2 * i + 1) as Hlen by (cbn [length]; rewrite flat_length; lia).
    rewrite !lookup_app_r, !Hlen by lia. replace (2 * i + 1 - (2 * i + 1)) with 0 by lia.
    by replace (2 * i + 2 - (2 * i + 1)) with 1 by lia.
  - destruct (lookup_lt_is_Some_2 kvs i) as [kv Hkv]; [lia|]. destruct (flat_lookup kvs i kv [name] Hkv eq_refl) as [Hk Hv].
    rewrite (Happ _ _ Hk), (Happ _ _ Hv), (IH n (S i)) by lia. rewrite (drop_S kvs kv i Hkv). by destruct kv.
Qed.

(** [MSET] with a key that has no value is answered with an error, but the
    pairs before this key are written: their commands have been sent when the
    error is found. *)
Theorem mset_incomplete_writes `{Crc16} `{RedisLaws} `{!Strings} `{!StringLaws} `{NumberLaws} `{HashOrder}
    config error_text unexpected numkeys_error importing c name kvs alone n :
  get_data_cmd_type (ctx_cmd c) = DMset → cmd_request (ctx_cmd c) = command_value (name :: flat kvs ++ [alone]) →
  NoDup kvs.*1 → active_redirection config = true →
  ∃ p, handle_data_cmd config error_text unexpected numkeys_error c = Ok p ∧
    (∃ res n', runs redis_exec importing (λ _ _, False) p n res n') ∧
    ∀ res n', runs redis_exec importing (λ _ _, False) p n res n' →
      res = Ok (error_reply "ERR wrong number of arguments for 'mset' command") ∧
      ∀ k, node_get n' k =
        if (list_to_map kvs : gmap bytes bytes) !! k is Some v then Some (string_data v, None) else node_get n k.
Proof.
  intros Ht Hw Hnd Ha. unfold handle_data_cmd, handle_mset, check_slots. rewrite Ht, Ha, Hw, command_value_len.
  cbn [default from_option id length]. rewrite length_app, flat_length, (key_values_odd name kvs alone (length kvs)) by (cbn; lia).
  rewrite drop_0. eexists. split; [done|]. split.
  - destruct (sent_total ((λ kv, set_cmd kv.1 kv.2) <$> kvs) n) as (ex & n' & He & Hex). do 2 eexists.
    econstructor; [exact He|by rewrite Hex|constructor].
  - intros res n' Hr. inversion Hr as [| | |? ? ? ex n1 ? ? He Hz Hk| |]; subst. inversion Hk; subst. split; [done|].
    symmetry in Hz. destruct (Permutation_map_inv _ _ Hz) as (kvs' & Hkvs & Hperm).
    assert (NoDup kvs'.*1) as Hnd' by (by rewrite <-Hperm). destruct (sent_sets kvs' ex n n' Hnd' Hkvs He) as [_ Hget].
    intros k. rewrite Hget. by rewrite (list_to_map_proper _ _ Hnd Hperm).
Qed.

(** ** Runs *)

From S2P Require Import MiniRedis.

#[export] Instance decimal_parsers : NumberParsers := {|
  btou s := parse_u64 (String.string_of_list_ascii s);
  btoi_usize s := parse_u64 (String.string_of_list_ascii s);
|}.

#[export] Instance decimal_laws : NumberLaws.
Proof.
  intros n Hn. cbn. unfold bytes_of. rewrite String.string_of_list_ascii_of_string. by apply parse_u64_to_string.
Qed.

Definition demo_config (active : bool) : ServerProxyConfig := mkServerProxyConfig "a:7000" "a" active None None.
Definition demo_handle : CmdCtx → may_panic program :=
  @handle_data_cmd bitwise_crc16 _ canonical_order (demo_config true) (λ _, "") (λ _ _, "") (λ _, "").
Definition demo_store : node := {[ bytes_of "a" := (bytes_of "1", None) ]}.
Abbreviation demo_ctx := (ctx_of (H := bitwise_crc16)).

Lemma multi_key_commands_witness : ∃ p,
  demo_handle (demo_ctx [bytes_of "del"; bytes_of "a"; bytes_of "b"; bytes_of "a"]) = Ok p ∧
  ∃ n', runs (H := bitwise_crc16) redis_exec (λ _ _, false) (λ _ _, False) p demo_store (Ok (number_reply 1)) n' ∧
    node_get n' (bytes_of "a") = None.
Proof.
  set (words := [bytes_of "a"; bytes_of "b"; bytes_of "a"]).
  destruct (multi_key_commands (H := bitwise_crc16) (H6 := canonical_order) (demo_config true) (λ _, "") (λ _ _, "") (λ _, "")
    (λ _ _, false) (demo_ctx (bytes_of "del" :: words)) (bytes_of "del") words demo_store) as (_ & _ & Hdel & _).
  - apply ctx_of_ok.
  - vm_compute. discriminate.
  - destruct Hdel as (p & Hp & (res & n' & Hr) & Hspec); [vm_compute; reflexivity|cbn; lia|by left|].
    exists p. split; [exact Hp|]. exists n'. destruct (Hspec res n' Hr) as [Hres Hget]. split.
    + rewrite Hres in Hr. exact Hr.
    + rewrite Hget. reflexivity.
Defined.

Lemma mset_incomplete_writes_witness : ∃ p n',
  demo_handle (demo_ctx [bytes_of "mset"; bytes_of "a"; bytes_of "2"; bytes_of "b"]) = Ok p ∧
  runs (H := bitwise_crc16) redis_exec (λ _ _, false) (λ _ _, False) p demo_store
    (Ok (error_reply "ERR wrong number of arguments for 'mset' command")) n' ∧
  node_get n' (bytes_of "a") = Some (bytes_of "2", None).
Proof.
  destruct (mset_incomplete_writes (H := bitwise_crc16) (H6 := canonical_order) (demo_config true) (λ _, "") (λ _ _, "") (λ _, "")
    (λ _ _, false) (demo_ctx [bytes_of "mset"; bytes_of "a"; bytes_of "2"; bytes_of "b"]) (bytes_of "mset")
    [(bytes_of "a", bytes_of "2")] (bytes_of "b") demo_store) as (p & Hp & (res & n' & Hr) & Hspec).
  - vm_compute. reflexivity.
  - apply ctx_of_ok.
  - apply NoDup_singleton.
  - reflexivity.
  - exists p, n'. destruct (Hspec res n' Hr) as [Hres Hget]. split; [exact Hp|]. split; [rewrite Hres in Hr; exact Hr|].
    rewrite Hget. reflexivity.
Defined.

(** ** [MSETNX] over several slots *)

Definition msetnx_cmds : list RespVec :=
  [command_value [bytes_of "MSETNX"; bytes_of "b"; bytes_of "3"]; command_value [bytes_of "MSETNX"; bytes_of "a"; bytes_of "2"]].
Definition msetnx_program : program :=
  ensure_keys_imported (λ _, "") [bytes_of "a"; bytes_of "b"]
    (Join false msetnx_cmds (λ results, Answer (number_results (λ _, "") results 0))).

(** With active redirection [MSETNX] is split by slots and is not atomic: one
    key exists and keeps its value, the other one is set, and the reply is 1,
    which means that all keys were set. *)
Theorem msetnx_not_atomic : ∃ n',
  demo_handle (demo_ctx [bytes_of "MSETNX"; bytes_of "a"; bytes_of "2"; bytes_of "b"; bytes_of "3"]) = Ok msetnx_program ∧
  runs (H := bitwise_crc16) redis_exec (λ _ _, false) (λ _ _, False) msetnx_program demo_store (Ok (number_reply 1)) n' ∧
  node_get n' (bytes_of "a") = Some (bytes_of "1", None) ∧ node_get n' (bytes_of "b") = Some (bytes_of "3", None).
Proof.
  exists (run_sent msetnx_cmds demo_store).2. split; [vm_compute; reflexivity|]. split; [|split; vm_compute; reflexivity].
  unfold msetnx_program, ensure_keys_imported. apply runs_importing. apply join_answers.
  exists (run_sent msetnx_cmds demo_store).1, [Ok (number_reply 1); Ok (number_reply 0)].
  split; [apply run_sent_ok|]. split; [reflexivity|]. split; [|vm_compute; reflexivity].
  assert ((run_sent msetnx_cmds demo_store).1 = zip msetnx_cmds [Ok (number_reply 1); Ok (number_reply 0)]) as ->;
    [vm_compute; reflexivity|done].
Qed.
