(* ===== verification/BlockPop.v ===== *)
(** * Blocking pops

    [BLPOP], [BRPOP], [BRPOPLPUSH], [BZPOPMIN] and [BZPOPMAX] are rounds of
    commands that do not block ([ForwardHandler::handle_blocking_commands] of
    [proxy/executor.rs]).  A pop ends in time, takes at most one element, and
    answers with it. *)

From S2P Require Import Prelude RangeList RustStr Resp Packet Command ClusterMeta Wire MetaMap Keys Batch Backend Session DataCmd.

(** The pop with the results of its commands, one after the other: the
    commands that were sent with their results, and the pop or its answer. *)
Fixpoint feed (results : list TaskResult) (b : BlockingPop) :
    list (bytes * RespVec * TaskResult) * (BlockingPop + TaskResult) :=
  match results with
  | [] => ([], inl b)
  | r :: results =>
      match next_cmd b with
      | None => ([], inl b)
      | Some (key, cmd, b') =>
          match handle_pop key r b' with
          | inr res => ([(key, cmd, r)], inr res)
          | inl b'' => let '(sent, end_) := feed results b'' in ((key, cmd, r) :: sent, end_)
          end
      end
  end.

(** A pop as [handle_blocking_commands] starts it. *)
Definition fresh_pop (t : DataCmdType) (timeout : N) (cmds : list (bytes * RespVec)) : BlockingPop :=
  mkBlockingPop t timeout cmds cmds 0.

(** A result that says that there is nothing to pop. *)
Definition nothing (t : DataCmdType) (r : TaskResult) : Prop := ∃ resp, r = Ok resp ∧ is_empty_resp resp t = true.

(** The answer to a result. *)
Definition pop_answer (t : DataCmdType) (key : bytes) (r : TaskResult) : TaskResult :=
  match r with Ok resp => Ok (adjust_response t resp key) | other => other end.

(** The commands of the rounds, from a pop on. *)
Definition upcoming (b : BlockingPop) (rounds : nat) : list (bytes * RespVec) :=
  bp_pending b ++ mjoin (replicate rounds (bp_cmds b)).

(** The pop of a handler starts its first round. *)
Lemma handle_blocking_fresh `{Crc16} `{NumberParsers} config c b :
  handle_blocking_commands config c = Ok (Pop b) → b = fresh_pop (get_data_cmd_type (ctx_cmd c)) (bp_timeout b) (bp_cmds b).
Proof.
  unfold handle_blocking_commands, check_slots, answer, answer_error. intros Hb.
  repeat (case_match; simplify_eq/=; try done). all: destruct (same_slot _) as [[]|[]|]; by simplify_eq/=.
Qed.

Lemma next_cmd_upcoming b key cmd b' rounds :
  next_cmd b = Some (key, cmd, b') → upcoming b (S rounds) = (key, cmd) :: upcoming b' (if bp_pending b is [] then rounds else S rounds) ∧
  bp_type b' = bp_type b ∧ bp_timeout b' = bp_timeout b ∧ bp_cmds b' = bp_cmds b.
Proof.
  unfold next_cmd, upcoming. destruct (bp_pending b) as [|[k c] rest].
  - destruct (bp_cmds b) as [|[k c] rest] eqn:Hc; [done|]. intros [= -> -> <-]. cbn [bp_type bp_timeout bp_cmds bp_pending].
    by split_and!.
  - intros [= -> -> <-]. done.
Qed.

Lemma handle_pop_spec key r b :
  (∃ resp, r = Ok resp ∧ is_empty_resp resp (bp_type b) = true ∧ (bp_timeout b = 0 ∨ bp_retry_num b < bp_timeout b)%N ∧
    handle_pop key r b = inl b) ∨
  (handle_pop key r b = inr (pop_answer (bp_type b) key r) ∧
    (nothing (bp_type b) r → bp_timeout b ≠ 0 ∧ bp_timeout b ≤ bp_retry_num b)%N).
Proof.
  unfold handle_pop. destruct r as [resp|e|]; [|by right; split; [|intros (? & ? & ?)]..].
  destruct (is_empty_resp resp (bp_type b)) eqn:He; cbn [andb].
  2: { right. split; [done|]. intros (x & [= <-] & Hx). congruence. }
  destruct (N.eqb_spec (bp_timeout b) 0) as [H0|H0]; cbn [orb]; [left; exists resp; auto|].
  destruct (N.ltb_spec (bp_retry_num b) (bp_timeout b)) as [Hlt|Hge]; [left; exists resp; auto|]. right. auto.
Qed.

(** Every result before the last one was empty, and the answer is made of the
    last one. *)
Lemma feed_answer results : ∀ b sent res, feed results b = (sent, inr res) →
  ∃ pre key cmd r, sent = pre ++ [(key, cmd, r)] ∧ Forall (λ x, nothing (bp_type b) x.2) pre ∧
    res = pop_answer (bp_type b) key r.
Proof.
  induction results as [|r results IH]; intros b sent res Hf; [done|]. cbn in Hf.
  destruct (next_cmd b) as [[[key cmd] b']|] eqn:Hn; [|done].
  destruct (next_cmd_upcoming b key cmd b' 0 Hn) as (_ & Ht & _ & _).
  destruct (handle_pop_spec key r b') as [(resp & -> & He & _ & Hh)|[Hh _]]; rewrite Hh in Hf.
  - destruct (feed results b') as [sent' e] eqn:Hfe. injection Hf as <- ->.
    destruct (IH b' sent' res Hfe) as (pre & k & c & r & -> & Hpre & Hres). rewrite Ht in *.
    exists ((key, cmd, Ok resp) :: pre), k, c, r. split_and!; [done| |done]. constructor; [|done]. exists resp. done.
  - injection Hf as <- <-. exists [], key, cmd, r. rewrite Ht. by split_and!.
Qed.

(** The commands are sent round by round. *)
Lemma feed_order results : ∀ b sent e rounds, feed results b = (sent, e) → length results ≤ rounds →
  sent.*1 `prefix_of` upcoming b rounds.
Proof.
  induction results as [|r results IH]; intros b sent e rounds Hf Hr; cbn in Hf; [injection Hf as <- _; apply prefix_nil|].
  destruct (next_cmd b) as [[[key cmd] b']|] eqn:Hn; [|injection Hf as <- _; apply prefix_nil].
  cbn in Hr. destruct rounds as [|rounds]; [lia|]. destruct (next_cmd_upcoming b key cmd b' rounds Hn) as (-> & _).
  assert (∀ n, length results ≤ n → ∀ sent' e', feed results b' = (sent', e') → sent'.*1 `prefix_of` upcoming b' n) as Hrest by eauto.
  destruct (handle_pop key r b') as [b''|res] eqn:Hh.
  - assert (b'' = b') as ->. { destruct (handle_pop_spec key r b') as [(? & _ & _ & _ & Hx)|[Hx _]]; congruence. }
    destruct (feed results b') as [sent' e'] eqn:Hfe. injection Hf as <- <-. cbn. apply prefix_cons.
    destruct (bp_pending b); eapply Hrest; try done; lia.
  - injection Hf as <- <-. cbn. apply prefix_cons, prefix_nil.
Qed.

(** ** How long it takes *)

(** The commands that a pop can still send when nothing is found. *)
Definition budget (b : BlockingPop) : nat :=
  length (bp_pending b) + N.to_nat (bp_timeout b - 1 - bp_retry_num b) * length (bp_cmds b) + 1.

Lemma budget_pos b : 1 ≤ budget b.
Proof. unfold budget. rewrite Nat.add_comm. apply le_n_S, Nat.le_0_l. Qed.

(** One more command: the pop answers, or less is left of its budget. *)
Lemma feed_step b r : bp_cmds b ≠ [] → (bp_retry_num b < bp_timeout b <= u64_max)%N → 
  ∃ key cmd b', next_cmd b = Some (key, cmd, b') ∧ bp_type b' = bp_type b ∧
    ((∃ res, handle_pop key r b' = inr res ∧ (nothing (bp_type b) r → budget b = 1)) ∨
     (handle_pop key r b' = inl b' ∧ bp_cmds b' = bp_cmds b ∧ bp_timeout b' = bp_timeout b ∧
      (bp_retry_num b' < bp_timeout b)%N ∧ budget b = S (budget b'))).
Proof.
  intros Hc Hr. destruct (next_cmd b) as [[[key cmd] b']|] eqn:Hn.
  2: { unfold next_cmd in Hn. by repeat case_match. }
  exists key, cmd, b'. split; [done|]. destruct (next_cmd_upcoming b key cmd b' 0 Hn) as (_ & Ht & Hto & Hcs). split; [done|].
  assert (bp_retry_num b' = bp_retry_num b ∧ bp_pending b = (key, cmd) :: bp_pending b' ∨
    bp_retry_num b' = (bp_retry_num b + 1)%N ∧ bp_pending b = [] ∧ bp_cmds b = (key, cmd) :: bp_pending b') as Hcase.
  { unfold next_cmd in Hn. destruct (bp_pending b) as [|[k c] l]; [|injection Hn as -> -> <-; by left].
    destruct (bp_cmds b) as [|[k c] l] eqn:Hb; [done|]. injection Hn as -> -> <-. right. cbn. rewrite wadd_small; [done|].
    unfold u64_max, u64_modulus in *. lia. }
  rewrite <- Ht. destruct (handle_pop_spec key r b') as [(resp & -> & He & Hlt & Hh)|[Hh Hlast]]; rewrite Hh.
  - right. rewrite Hto in *. split_and!; [done..|destruct Hlt; lia|].
    unfold budget. rewrite Hto, Hcs. destruct Hcase as [[-> ->]|(Hrn & -> & Hb)]; cbn [length]; [lia|].
    destruct Hlt as [|Hlt]; [lia|].
    replace (N.to_nat (bp_timeout b - 1 - bp_retry_num b)) with (S (N.to_nat (bp_timeout b - 1 - bp_retry_num b'))) by lia.
    rewrite Hb. cbn [length]. lia.
  - left. eexists. split; [done|]. intros Hno. destruct (Hlast Hno) as [_ Hge]. rewrite Hto in Hge.
    destruct Hcase as [[Heq _]|(Hrn & Hp & _)]; [lia|]. unfold budget. rewrite Hp. cbn [length].
    replace (N.to_nat (bp_timeout b - 1 - bp_retry_num b)) with 0 by lia. lia.
Qed.

Lemma feed_ends results : ∀ b, bp_cmds b ≠ [] → (bp_retry_num b < bp_timeout b <= u64_max)%N → budget b ≤ length results →
  ∃ sent res, feed results b = (sent, inr res) ∧ length sent ≤ budget b ∧
    (Forall (nothing (bp_type b)) results → length sent = budget b).
Proof.
  induction results as [|r results IH]; intros b Hc Hr Hl; pose proof (budget_pos b); [cbn [length] in Hl; lia|].
  destruct (feed_step b r Hc Hr) as (key & cmd & b' & Hn & Ht & [(res & Hh & Hno)|(Hh & Hcs & Hto & Hlt & Hb)]);
    cbn [feed]; rewrite Hn, Hh.
  - exists [(key, cmd, r)], res. split_and!; [done|done|]. intros [Hr1 _]%Forall_cons. by rewrite Hno.
  - destruct (IH b') as (sent & res & -> & Hls & Hall); [congruence|rewrite Hto; lia|cbn [length] in Hl; lia|].
    exists ((key, cmd, r) :: sent), res. rewrite Hb. cbn [length]. split_and!; [done|lia|].
    intros [_ Hrs]%Forall_cons. rewrite Ht in Hall. by rewrite Hall.
Qed.

Lemma budget_fresh t timeout cmds : (timeout ≠ 0)%N → budget (fresh_pop t timeout cmds) = N.to_nat timeout * length cmds + 1.
Proof.
  intros H0. unfold budget, fresh_pop. cbn. replace (N.to_nat timeout) with (S (N.to_nat (timeout - 1 - 0))) by lia. lia.
Qed.

(** The commands of [n] rounds. *)
Definition rounds_of (n : nat) (cmds : list (bytes * RespVec)) : list (bytes * RespVec) := mjoin (replicate n cmds).

Lemma rounds_of_length n cmds : length (rounds_of n cmds) = n * length cmds.
Proof.
  induction n as [|n IH]; [done|]. change (rounds_of (S n) cmds) with (cmds ++ rounds_of n cmds). by rewrite length_app, IH.
Qed.

Lemma rounds_of_add n m cmds : rounds_of (n + m) cmds = rounds_of n cmds ++ rounds_of m cmds.
Proof.
  induction n as [|n IH]; [done|].
  change (rounds_of (S n + m) cmds) with (cmds ++ rounds_of (n + m) cmds). rewrite IH.
  change (rounds_of (S n) cmds) with (cmds ++ rounds_of n cmds). apply app_assoc.
Qed.

(** A blocking pop with a timeout is answered: whatever the sub commands
    reply, it ends after at most [timeout] rounds and one command more.  The
    commands are sent round by round, every one before the last found nothing,
    and the answer is the reply of the last one with its key, so that no
    element is taken without being given to the client. *)
Theorem blocking_pop_answers `{Crc16} `{NumberParsers} config c b results :
  handle_blocking_commands config c = Ok (Pop b) → bp_cmds b ≠ [] → (bp_timeout b ≠ 0)%N → (bp_timeout b <= u64_max)%N →
  N.to_nat (bp_timeout b) * length (bp_cmds b) + 1 ≤ length results →
  ∃ pre key cmd r, feed results b = (pre ++ [(key, cmd, r)], inr (pop_answer (get_data_cmd_type (ctx_cmd c)) key r)) ∧
    length pre ≤ N.to_nat (bp_timeout b) * length (bp_cmds b) ∧ Forall (λ x, nothing (get_data_cmd_type (ctx_cmd c)) x.2) pre ∧
    pre.*1 ++ [(key, cmd)] `prefix_of` rounds_of (S (N.to_nat (bp_timeout b))) (bp_cmds b).
Proof.
  intros Hb%handle_blocking_fresh Hc Hto Hmax Hl. revert Hb Hc Hto Hmax Hl.
  generalize (get_data_cmd_type (ctx_cmd c)), (bp_timeout b), (bp_cmds b). intros t timeout cmds -> Hc Hto Hmax Hl.
  set (b' := fresh_pop t timeout cmds).
  destruct (feed_ends results b') as (sent & res & Hf & Hls & _); [done|cbn; lia|unfold b'; by rewrite budget_fresh|].
  destruct (feed_answer results b' sent res Hf) as (pre & key & cmd & r & -> & Hpre & ->). exists pre, key, cmd, r.
  unfold b' in Hls. rewrite budget_fresh, length_app in Hls by done. cbn [length] in Hls.
  split_and!; [done|lia|done|].
  pose proof (feed_order results b' _ _ (length results + N.to_nat timeout) Hf ltac:(lia)) as Hp.
  rewrite fmap_app in Hp.
  assert (∃ m, upcoming b' (length results + N.to_nat timeout) = rounds_of (S (N.to_nat timeout)) cmds ++ rounds_of m cmds) as [m Hm].
  { exists (length results). rewrite <- rounds_of_add. unfold upcoming, b', fresh_pop, rounds_of. cbn.
    by rewrite (Nat.add_comm (length results)). }
  rewrite Hm in Hp. destruct (prefix_weak_total _ _ _ Hp (prefix_app_r _ _ (rounds_of m cmds) (reflexivity _))) as [Hx|Ha]; [exact Hx|].
  apply prefix_length_eq in Ha as ->; [reflexivity|].
  rewrite rounds_of_length, length_app, !length_fmap, Nat.mul_succ_l. destruct cmds; [done|]. cbn [length] in *. lia.
Qed.

(** The last round of a blocking pop looks at its first key only: when the
    sub commands find nothing, [timeout] whole rounds are sent and then the
    first command once more, whose empty reply is the answer.  What is pushed
    to another key in the last second before the timeout is not found, while
    Redis serves a client that waits on any of the keys until the timeout. *)
Theorem last_round_first_key `{Crc16} `{NumberParsers} config c b key cmd cmds results :
  handle_blocking_commands config c = Ok (Pop b) → bp_cmds b = (key, cmd) :: cmds →
  (bp_timeout b ≠ 0)%N → (bp_timeout b <= u64_max)%N →
  length results = N.to_nat (bp_timeout b) * S (length cmds) + 1 → Forall (nothing (get_data_cmd_type (ctx_cmd c))) results →
  ∃ sent res, feed results b = (sent, inr res) ∧
    sent.*1 = rounds_of (N.to_nat (bp_timeout b)) ((key, cmd) :: cmds) ++ [(key, cmd)].
Proof.
  intros Hb%handle_blocking_fresh Hc. rewrite Hc in Hb. revert Hb.
  generalize (get_data_cmd_type (ctx_cmd c)), (bp_timeout b). intros t timeout -> Hto Hmax Hl Hno.
  clear Hc. set (b := fresh_pop t timeout ((key, cmd) :: cmds)).
  assert (budget b = length results) as Hbud by (unfold b; by rewrite budget_fresh, Hl).
  destruct (feed_ends results b) as (sent & res & Hf & _ & Hall); [done|cbn; lia|lia|].
  exists sent, res. split; [done|]. specialize (Hall Hno). rewrite Hbud, Hl in Hall.
  pose proof (feed_order results b _ _ (length results + N.to_nat timeout) Hf ltac:(lia)) as Hp.
  assert (upcoming b (length results + N.to_nat timeout) =
    (rounds_of (N.to_nat timeout) ((key, cmd) :: cmds) ++ [(key, cmd)]) ++ cmds ++ rounds_of (length results) ((key, cmd) :: cmds)) as Hm.
  { transitivity (rounds_of (N.to_nat timeout + S (length results)) ((key, cmd) :: cmds)).
    - unfold upcoming, b, fresh_pop, rounds_of. cbn. by rewrite (Nat.add_comm (length results)), Nat.add_succ_r.
    - rewrite rounds_of_add, <- app_assoc. done. }
  rewrite Hm in Hp. destruct Hp as [rest Hp]. apply app_inj_1 in Hp as [Hp _]; [by symmetry|].
  rewrite length_app, rounds_of_length, length_fmap, Hall. cbn. lia.
Qed.

(** ** Examples *)

From S2P Require Import MultiKey.

Definition blpop_ctx : CmdCtx := ctx_of (H := bitwise_crc16) [bytes_of "BLPOP"; bytes_of "a"; bytes_of "b"; bytes_of "1"].
Definition blpop_cmds : list (bytes * RespVec) :=
  [(bytes_of "a", command_value [bytes_of "LPOP"; bytes_of "a"]); (bytes_of "b", command_value [bytes_of "LPOP"; bytes_of "b"])].
Definition nil_reply : TaskResult := Ok (Bulk BulkNil).
Definition blpop_results : list TaskResult := [nil_reply; Ok (Bulk (Str (bytes_of "x"))); nil_reply].

(** The element of the second list. *)
Lemma blocking_pop_answers_witness : ∃ pre key cmd r,
  feed blpop_results (fresh_pop DBlpop 1 blpop_cmds) = (pre ++ [(key, cmd, r)], inr (pop_answer DBlpop key r)) ∧
  pop_answer DBlpop key r = Ok (Arr (Elements [Bulk (Str (bytes_of "b")); Bulk (Str (bytes_of "x"))])).
Proof.
  destruct (blocking_pop_answers (H := bitwise_crc16) (demo_config true) blpop_ctx (fresh_pop DBlpop 1 blpop_cmds) blpop_results)
    as (pre & key & cmd & r & Hf & _).
  - vm_compute. reflexivity.
  - discriminate.
  - discriminate.
  - discriminate.
  - cbn. lia.
  - change (get_data_cmd_type (ctx_cmd blpop_ctx)) with DBlpop in Hf.
    assert ((feed blpop_results (fresh_pop DBlpop 1 blpop_cmds)).2 =
      inr (Ok (Arr (Elements [Bulk (Str (bytes_of "b")); Bulk (Str (bytes_of "x"))])))) as Hx by (vm_compute; reflexivity).
    exists pre, key, cmd, r. split; [exact Hf|]. rewrite Hf in Hx. by injection Hx.
Defined.

(** Nothing is found; the second list is looked at once. *)
Lemma last_round_first_key_witness : ∃ sent res,
  feed [nil_reply; nil_reply; nil_reply] (fresh_pop DBlpop 1 blpop_cmds) = (sent, inr res) ∧
  sent.*1 = blpop_cmds ++ take 1 blpop_cmds.
Proof.
  apply (last_round_first_key (H := bitwise_crc16) (demo_config true) blpop_ctx (fresh_pop DBlpop 1 blpop_cmds) _ _ (drop 1 blpop_cmds)).
  - vm_compute. reflexivity.
  - reflexivity.
  - discriminate.
  - discriminate.
  - reflexivity.
  - repeat constructor; by eexists.
Defined.
