(* ===== verification/Control.v ===== *)
(** * Control commands of a migration

    The text forms of a migration task: the commands [UMCTL PRECHECK],
    [PRESWITCH] and [FINALSWITCH] that the source of a migration sends
    ([gen_switch_arg] of [migration/scan_task.rs], [SwitchArg] and
    [parse_switch_command] of [migration/task.rs]), and the reply of
    [UMCTL INFOMGR] that the coordinator reads
    ([coordinator/migration.rs]). *)

From S2P Require Import Prelude RangeList RustStr Resp Packet Command ClusterMeta Wire MetaMap Keys.
From S2P Require Import ClusterCmd.

(** ** Text forms *)

(** [MigrationTaskMeta::into_strings] and [from_strings]. *)
Definition task_meta_into_strings (m : MigrationTaskMeta) : list string :=
  mtm_cluster_name m :: slot_range_into_strings (mtm_slot_range m).

Definition task_meta_from_strings `{UnicodeCase} (it : list string) : option (MigrationTaskMeta * list string) :=
  match it with
  | [] => None
  | cluster_name_str :: it =>
      cluster_name ← cluster_name_try_from cluster_name_str;
      '(slot_range, it) ← slot_range_from_strings it;
      Some (mkMigrationTaskMeta cluster_name slot_range, it)
  end.

(** [SwitchArg::into_strings] and [from_strings]. *)
Definition switch_arg_into_strings (a : SwitchArg) : list string :=
  sa_version a :: task_meta_into_strings (sa_meta a).

Definition switch_arg_from_strings `{UnicodeCase} (it : list string) : option (SwitchArg * list string) :=
  match it with
  | [] => None
  | version :: it => '(meta, it) ← task_meta_from_strings it; Some (mkSwitchArg version meta, it)
  end.

(** [get_resp_strings] of [common/utils.rs]. *)
Definition element_string (r : RespVec) : option string :=
  match r with Bulk (Str s) | Simple s => from_utf8 s | _ => None end.
Definition get_resp_strings (resp : RespVec) : option (list string) :=
  match resp with Arr (Elements resps) => mapM element_string resps | _ => None end.

Definition parse_switch_command `{UnicodeCase} (resp : RespVec) : option SwitchArg :=
  command ← get_resp_strings resp;
  match command with
  | _ :: _ :: it => fst <$> switch_arg_from_strings it
  | _ => None
  end.

Definition mgr_sub_cmd_str (c : MgrSubCmd) : string :=
  match c with CmdPreCheck => "PRECHECK" | CmdPreSwitch => "PRESWITCH" | CmdFinalSwitch => "FINALSWITCH" end.

Definition gen_switch_arg (cluster_name : ClusterName) (slot_range : SlotRange) (meta : MigrationMeta) (sub_cmd : string) :
    list string :=
  ["UMCTL"; sub_cmd] ++ switch_arg_into_strings
    (mkSwitchArg UNDERMOON_MIGRATION_VERSION
       (mkMigrationTaskMeta cluster_name (mkSlotRange (sr_range_list slot_range) (Migrating meta)))).

(** [handle_umctl_info_migration] of [proxy/executor.rs]: the reply. *)
Definition info_migration (finished_tasks : list MigrationTaskMeta) : RespVec :=
  array ((λ task, bulk (join " " (task_meta_into_strings task))) <$> finished_tasks).

(** [MigrationStateRespChecker::parse_migration_task_meta] and the treatment of
    the reply in [check_impl]; [None] is [CoordinateError::InvalidReply]. *)
Definition parse_migration_task_meta `{UnicodeCase} (element : RespVec) : option MigrationTaskMeta :=
  match element with
  | Bulk (Str s) => data ← from_utf8 s; fst <$> task_meta_from_strings (split " " data)
  | _ => None
  end.

Definition check_reply `{UnicodeCase} (info_mgr_reply : RespVec) : option (list MigrationTaskMeta) :=
  match info_mgr_reply with
  | Arr (Elements arr) => mapM parse_migration_task_meta arr
  | _ => None
  end.

(** ** Round trips *)

(** A text of the program is UTF-8; names and addresses have no blanks. *)
Definition text_ok (s : string) : Prop := utf8_valid (bytes_of s) = true.
Definition word_ok (s : string) : Prop := text_ok s ∧ no_char " " s.

Definition migration_words_ok (P : string → Prop) (m : MigrationMeta) : Prop :=
  P (mm_src_proxy_address m) ∧ P (mm_src_node_address m) ∧ P (mm_dst_proxy_address m) ∧ P (mm_dst_node_address m).

Definition task_meta_ok (P : string → Prop) (m : MigrationTaskMeta) : Prop :=
  cluster_name_try_from (mtm_cluster_name m) = Some (mtm_cluster_name m) ∧ slot_range_ok (mtm_slot_range m) ∧
  match get_migration_meta (sr_tag (mtm_slot_range m)) with Some meta => migration_words_ok P meta | None => True end.

Lemma task_meta_print `{UnicodeCase} P m rest :
  task_meta_ok P m → task_meta_from_strings (task_meta_into_strings m ++ rest) = Some (m, rest).
Proof.
  intros (Hn & Hs & _). unfold task_meta_into_strings. cbn [app task_meta_from_strings].
  rewrite Hn. cbn [mbind option_bind]. rewrite slot_range_print by done. by destruct m.
Qed.

Lemma text_from_utf8 s : text_ok s → from_utf8 (bytes_of s) = Some s.
Proof.
  intros Hs. unfold from_utf8. rewrite Hs. unfold bytes_of. by rewrite String.string_of_list_ascii_of_string.
Qed.

Lemma get_resp_strings_words l : Forall text_ok l → get_resp_strings (command_value (bytes_of <$> l)) = Some l.
Proof.
  intros Hl. cbn. rewrite <- list_fmap_compose. apply mapM_fmap_Forall_Some. eapply Forall_impl; [exact Hl|]. apply text_from_utf8.
Qed.

Lemma ascii_word s : (∀ c, (128 ≤ N_of_ascii c)%N → no_char c s) → no_char " " s → word_ok s.
Proof. intros Ha Hb. split; [by apply ascii_text_valid|done]. Qed.

Lemma to_string_ascii n c : (128 ≤ N_of_ascii c)%N → no_char c (to_string n).
Proof.
  intros Hc. apply to_string_no_char. destruct (digit c) as [d|] eqn:Hd; [|done].
  assert (48 ≤ N_of_ascii c ≤ 57)%N by (apply digit_Some; by rewrite Hd). lia.
Qed.

Lemma number_word n : word_ok (to_string n).
Proof. apply ascii_word; [apply to_string_ascii|by apply to_string_no_char]. Qed.

Lemma no_char_forallb (P : ascii → bool) c s : string_forallb P s = true → P c = false → no_char c s.
Proof.
  induction s as [|a s IH]; [done|]. cbn. intros [Ha Hs]%andb_true_iff Hc. split; [congruence|auto].
Qed.

Lemma cluster_name_word s n : cluster_name_try_from s = Some n → word_ok s.
Proof.
  unfold cluster_name_try_from. destruct (string_forallb _ s) eqn:Hs; [|done]. intros _.
  assert (∀ c, cluster_name_char c = false → no_char c s) as Hno by (intros c; by apply no_char_forallb).
  apply ascii_word; [|by apply Hno]. intros c Hc. apply Hno. unfold cluster_name_char, is_ascii_alphanumeric.
  repeat (rewrite orb_false_iff || rewrite andb_false_iff || rewrite N.leb_gt || rewrite bool_decide_eq_false).
  split_and!; try lia; intros ->; cbn in Hc; lia.
Qed.

Lemma task_meta_words (P : string → Prop) m :
  (∀ s, word_ok s → P s) → task_meta_ok P m → Forall P (task_meta_into_strings m).
Proof.
  intros HP (Hn & _ & Ha). unfold task_meta_into_strings. constructor; [by eapply HP, cluster_name_word|].
  destruct m as [name [l tag]]. cbn [mtm_slot_range sr_tag sr_range_list] in *.
  assert (Forall P (range_list_to_strings l)) as Hl.
  { constructor; [apply HP, number_word|]. apply Forall_fmap, Forall_true. intros r. apply HP, ascii_word; [intros c Hc|];
      repeat apply no_char_append; auto using to_string_ascii, to_string_no_char; [|done].
    cbn. split; [|done]. intros <-. cbn in Hc. lia. }
  assert (∀ meta, migration_words_ok P meta → Forall P (migration_meta_into_strings meta)) as Hm.
  { intros meta (? & ? & ? & ?). repeat constructor; auto using number_word. }
  destruct tag as [meta|meta|]; cbn [get_migration_meta slot_range_into_strings sr_tag sr_range_list] in *;
    [constructor; [by apply HP|]..|done]; apply Forall_app; auto.
Qed.

Lemma split_join c l : l ≠ [] → Forall (no_char c) l → split c (join (String c "") l) = l.
Proof.
  intros Hne Hl. induction Hl as [|s l Hs Hl IH]; [done|]. destruct l as [|s' l]; [by apply split_no_char|].
  change (join (String c "") (s :: s' :: l)) with (s +:+ String c (join (String c "") (s' :: l))). rewrite split_app by done.
  by rewrite IH.
Qed.

Lemma utf8_app_length n : ∀ a b, length a ≤ n → utf8_valid a = true → utf8_valid b = true → utf8_valid (a ++ b) = true.
Proof.
  induction n as [|n IH]; intros [|x a] b Hn Ha Hb; try done; cbn [length] in Hn; [lia|].
  cbn [app utf8_valid] in *. destruct (N_of_ascii x <? 128)%N; [apply IH; auto with lia|].
  destruct ((194 <=? N_of_ascii x) && (N_of_ascii x <=? 223))%N.
  { destruct a as [|c1 a]; [done|]. cbn [app length] in *. apply andb_true_iff in Ha as [-> Ha]. apply IH; auto with lia. }
  destruct ((224 <=? N_of_ascii x) && (N_of_ascii x <=? 239))%N.
  { destruct a as [|c1 [|c2 a]]; [done..|]. cbn [app length] in *. apply andb_true_iff in Ha as [-> Ha]. apply IH; auto with lia. }
  destruct ((240 <=? N_of_ascii x) && (N_of_ascii x <=? 244))%N; [|done].
  destruct a as [|c1 [|c2 [|c3 a]]]; [done..|]. cbn [app length] in *. apply andb_true_iff in Ha as [-> Ha]. apply IH; auto with lia.
Qed.

Lemma bytes_of_append s t : bytes_of (s +:+ t) = bytes_of s ++ bytes_of t.
Proof. unfold bytes_of. induction s as [|a s IH]; [done|]. change (String a s +:+ t) with (String a (s +:+ t)). cbn. by rewrite IH. Qed.

Lemma join_text sep l : text_ok sep → Forall text_ok l → text_ok (join sep l).
Proof.
  intros Hsep Hl. induction Hl as [|s l Hs Hl IH]; [done|]. destruct l as [|s' l]; [done|].
  change (join sep (s :: s' :: l)) with (s +:+ sep +:+ join sep (s' :: l)). unfold text_ok in *.
  rewrite !bytes_of_append. eauto using utf8_app_length.
Qed.

Lemma switch_command_print `{UnicodeCase} name sr meta sub_cmd :
  task_meta_ok text_ok (mkMigrationTaskMeta name (mkSlotRange (sr_range_list sr) (Migrating meta))) →
  parse_switch_command (command_value (bytes_of <$> gen_switch_arg name sr meta (mgr_sub_cmd_str sub_cmd))) =
    Some (mkSwitchArg UNDERMOON_MIGRATION_VERSION (mkMigrationTaskMeta name (mkSlotRange (sr_range_list sr) (Migrating meta)))).
Proof.
  intros Hm. unfold parse_switch_command. rewrite get_resp_strings_words.
  - cbn [mbind option_bind gen_switch_arg app switch_arg_into_strings switch_arg_from_strings].
    pose proof (task_meta_print text_ok _ [] Hm) as Hp. rewrite app_nil_r in Hp. cbn [sa_meta sa_version]. by rewrite Hp.
  - do 3 (constructor; [by destruct sub_cmd|]). apply task_meta_words; [|done]. by intros s [].
Qed.

Lemma parse_task_print `{UnicodeCase} m :
  task_meta_ok word_ok m → parse_migration_task_meta (bulk (join " " (task_meta_into_strings m))) = Some m.
Proof.
  intros Hm. pose proof (task_meta_words word_ok m (λ _ h, h) Hm) as Hw. unfold parse_migration_task_meta, bulk.
  rewrite text_from_utf8; [|apply join_text; [done|eapply Forall_impl; [exact Hw|by intros s []]]].
  cbn [mbind option_bind]. rewrite split_join; [|done|eapply Forall_impl; [exact Hw|by intros s []]].
  pose proof (task_meta_print word_ok m [] Hm) as Hp. rewrite app_nil_r in Hp. by rewrite Hp.
Qed.

(** The finished migrations that a proxy reports to [UMCTL INFOMGR] are the
    ones the coordinator reads from the reply and commits: every task with its
    cluster, slots, epoch and addresses, in the same order. *)
Theorem finished_tasks_reported `{UnicodeCase} tasks :
  Forall (task_meta_ok word_ok) tasks → check_reply (info_migration tasks) = Some tasks.
Proof.
  intros Ht. apply mapM_fmap_Forall_Some. eapply Forall_impl; [exact Ht|]. apply parse_task_print.
Qed.

(** ** Examples *)

Definition demo_control_task : MigrationTaskMeta :=
  mkMigrationTaskMeta "mycluster" (mkSlotRange [mkRange 233 666] (Migrating (mkMigrationMeta 7799 "h1:6000" "h1:7000" "h2:6001" "h2:7001"))).

Lemma demo_control_task_ok : task_meta_ok word_ok demo_control_task.
Proof.
  split; [done|]. split; [|by repeat split].
  repeat constructor; cbn; try done; unfold u64_max, u64_modulus; try lia; repeat constructor; cbn; unfold u64_max, u64_modulus; lia.
Qed.

Lemma finished_tasks_reported_witness : check_reply (H := ascii_case) (info_migration [demo_control_task]) = Some [demo_control_task].
Proof. apply (finished_tasks_reported (H := ascii_case)). repeat constructor; apply demo_control_task_ok. Defined.
