(* ===== verification/Executor.v ===== *)
(** * The handler of a command

    [ForwardHandler] of [proxy/executor.rs]: the dispatch of the commands of a
    client with the password check, the commands that the proxy answers by
    itself ([AUTH], [CLUSTER], [CONFIG], [COMMAND], [UMCTL] ...), and
    [UMFORWARD], the command that another proxy redirects.  The commands that
    access data are the programs of [DataCmd].  A session ([run_session]) is the
    sequence of its commands and of the replies with their slow log entries. *)

From S2P Require Import Prelude RangeList RustStr Resp Packet Command ClusterMeta Wire MetaMap Keys.
From S2P Require Import Route ClusterCmd Batch Backend Session Slowlog Replicate Control DataCmd BlockPop.

(** ** Signed numbers *)

(** [str::parse::<i64>] and [i64::to_string]. *)
Definition i64_in_range (z : Z) : Prop := (- 2 ^ 63 ≤ z < 2 ^ 63)%Z.
Definition parse_i64 (s : string) : option Z :=
  match s with
  | EmptyString => None
  | String c s' =>
      if bool_decide (c = "-"%char) then
        match s' with EmptyString => None | _ => (λ n, - Z.of_N n)%Z <$> parse_digits (2 ^ 63) 0 s' end
      else if bool_decide (c = "+"%char) then
        match s' with EmptyString => None | _ => Z.of_N <$> parse_digits (2 ^ 63 - 1) 0 s' end
      else Z.of_N <$> parse_digits (2 ^ 63 - 1) 0 s
  end.
Definition i64_to_string (z : Z) : string :=
  if (z <? 0)%Z then String "-" (to_string (Z.to_N (- z))) else to_string (Z.to_N z).

(** ** Configuration ([proxy/service.rs]) *)

(** The fields of [ServerProxyConfig] that routing does not use, and the two
    that change while the proxy runs. *)
Record ExecutorConfig : Type := mkExecutorConfig {
  ec_server : ServerProxyConfig;
  ec_address : string;
  ec_slowlog_len : N;
  ec_thread_number : N;
  ec_backend_conn_num : N;
  ec_password : option string;
  ec_cluster_nodes_version : ClusterNodesVersion;
}.
Record DynamicConfig : Type := mkDynamicConfig { slowlog_log_slower_than : Z; slowlog_sample_rate : N }.

Definition config_error_debug (e : ConfigError) : string :=
  match e with
  | ReadonlyField => "ReadonlyField" | FieldNotFound => "FieldNotFound"
  | InvalidValue => "InvalidValue" | Forbidden => "Forbidden"
  end.

Section config.
Context `{UnicodeCase} (config : ExecutorConfig).

Definition get_field (d : DynamicConfig) (field : string) : outcome ConfigError string :=
  let field := to_lowercase field in
  if bool_decide (field = "address") then Ok (ec_address config)
  else if bool_decide (field = "announce_address") then Ok (announce_address (ec_server config))
  else if bool_decide (field = "announce_host") then Ok (announce_host (ec_server config))
  else if bool_decide (field = "slowlog_len") then Ok (to_string (ec_slowlog_len config))
  else if bool_decide (field = "thread_number") then Ok (to_string (ec_thread_number config))
  else if bool_decide (field = "backend_conn_num") then Ok (to_string (ec_backend_conn_num config))
  else if bool_decide (field = "slowlog_log_slower_than") then Ok (i64_to_string (slowlog_log_slower_than d))
  else if bool_decide (field = "slowlog_sample_rate") then Ok (to_string (slowlog_sample_rate d))
  else if bool_decide (field = "active_redirection") then
    Ok (if active_redirection (ec_server config) then "true" else "false")
  else if bool_decide (field = "max_redirections") then
    Ok (match max_redirections (ec_server config) with Some n => to_string n | None => "none" end)
  else if bool_decide (field = "password") then Err Forbidden
  else Err FieldNotFound.

Definition readonly_fields : list string :=
  ["address"; "announce_address"; "announce_host"; "slowlog_len"; "thread_number"; "backend_conn_num";
   "active_redirection"; "max_redirections"; "password"].

Definition set_value (d : DynamicConfig) (field value : string) : DynamicConfig * outcome ConfigError () :=
  let field := to_lowercase field in
  if bool_decide (field ∈ readonly_fields) then (d, Err ReadonlyField)
  else if bool_decide (field = "slowlog_log_slower_than") then
    match parse_i64 value with
    | Some int_value => (mkDynamicConfig int_value (slowlog_sample_rate d), Ok ())
    | None => (d, Err InvalidValue)
    end
  else if bool_decide (field = "slowlog_sample_rate") then
    match parse_u64 value with
    | Some int_value => (mkDynamicConfig (slowlog_log_slower_than d) int_value, Ok ())
    | None => (d, Err InvalidValue)
    end
  else (d, Err FieldNotFound).
End config.

(** ** State *)

(** What the proxy keeps: the metadata, the migration tasks that were started,
    the replicators, the slow log, the configuration, and the channel of the
    stop requests ([None]: its receiver is gone). *)
Record ProxyState : Type := mkProxyState {
  ps_meta : MetaManager;
  ps_started : list NewTask;
  ps_repl : ReplicatorManager;
  ps_slowlog : SlowRequestLogger;
  ps_config : DynamicConfig;
  ps_stopped : option nat;
}.

Definition set_ps_meta (m : MetaManager) (started : list NewTask) (s : ProxyState) : ProxyState :=
  mkProxyState m (ps_started s ++ started) (ps_repl s) (ps_slowlog s) (ps_config s) (ps_stopped s).
Definition set_ps_repl (r : ReplicatorManager) (s : ProxyState) : ProxyState :=
  mkProxyState (ps_meta s) (ps_started s) r (ps_slowlog s) (ps_config s) (ps_stopped s).
Definition set_ps_slowlog (g : SlowRequestLogger) (s : ProxyState) : ProxyState :=
  mkProxyState (ps_meta s) (ps_started s) (ps_repl s) g (ps_config s) (ps_stopped s).
Definition set_ps_config (d : DynamicConfig) (s : ProxyState) : ProxyState :=
  mkProxyState (ps_meta s) (ps_started s) (ps_repl s) (ps_slowlog s) d (ps_stopped s).
Definition set_ps_stopped (n : nat) (s : ProxyState) : ProxyState :=
  mkProxyState (ps_meta s) (ps_started s) (ps_repl s) (ps_slowlog s) (ps_config s) (Some n).

(** ** Replicators: one call of [update_replicators], alone *)

Definition fresh_call (s : ReplicatorManager) : nat := fresh (dom (rm_given s) ∪ dom (rm_results s)).

Fixpoint call_steps (announce_host : string) (n t : nat) (s : ReplicatorManager) : ReplicatorManager :=
  match n with
  | 0 => s
  | S n => match manager_step announce_host (UpdateStep t) s with
           | Some s' => call_steps announce_host n t s'
           | None => s
           end
  end.

Definition update_replicators (announce_host : string) (meta : ReplicatorMeta) (s : ReplicatorManager) :
    ReplicatorManager * outcome ClusterMetaError () :=
  let t := fresh_call s in
  let s := call_steps announce_host 4 t (default s (manager_step announce_host (UpdateCall t meta) s)) in
  (s, default Panic (rm_results s !! t)).

(** ** Reports *)

Definition migration_state_text (s : MigrationState) : string :=
  match s with
  | PreCheck => "PRE_CHECK" | PreBlocking => "PRE_BLOCKING" | PreSwitch => "PRE_SWITCH"
  | Scanning => "SCANNING" | FinalSwitch => "FINAL_SWITCH" | SwitchCommitted => "SWITCH_COMMITTED"
  end.

(** [MigrationMap::info]. *)
Definition migration_info `{HashOrder} (m : MigrationMap) : RespVec :=
  let lines := omap (λ '(task_meta, task),
      migration_meta ← get_migration_meta (sr_tag (mtm_slot_range task_meta));
      Some (join " " (range_list_to_strings (sr_range_list (mtm_slot_range task_meta))) +:+ " " +:+
            mm_src_node_address migration_meta +:+ " -> " +:+ mm_dst_node_address migration_meta +:+ " " +:+
            migration_state_text (task_state task)))
    (hash_iter (mp_task_map m)) in
  array (bulk <$> ("name: " +:+ mp_cluster_name m) :: lines).

(** [MetaManager::info]. *)
Definition manager_info `{HashOrder} (s : ProxyState) : RespVec :=
  array [bulk "Cluster"; cluster_info (mm_cluster_map (mgr_meta_map (ps_meta s)));
         bulk "Replication"; get_metadata_report (ps_repl s);
         bulk "Migration"; migration_info (mm_migration_map (mgr_meta_map (ps_meta s)))].

(** What other parts of the proxy report: the last flush, the futures by their
    start time, and the counters of the migrations. *)
Record Reports : Type := mkReports {
  rp_flush_size : N;
  rp_flush_interval : N;
  rp_futures : list bytes;
  rp_stats : list (string * N);
}.

(** ** The command table ([proxy/table.rs]) *)

Definition SUPPORTED_COMMANDS : list string :=
  ["restore"; "zrangebylex"; "zcount"; "ttl"; "touch"; "rpoplpush"; "decr"; "pttl"; "zrevrank";
   "georadiusbymember_ro"; "persist"; "zrem"; "zinterstore"; "hincrbyfloat"; "bitcount"; "get"; "sscan"; "incrby";
   "xpending"; "xclaim"; "hexists"; "xlen"; "hlen"; "pfadd"; "smembers"; "geodist"; "lset"; "geohash"; "pfmerge";
   "mget"; "set"; "dump"; "setex"; "zremrangebyrank"; "blpop"; "zscan"; "append"; "srem"; "pexpire"; "hstrlen";
   "zremrangebyscore"; "xack"; "hsetnx"; "lpushx"; "georadius"; "spop"; "asking"; "srandmember"; "sismember";
   "zlexcount"; "zscore"; "zpopmin"; "expire"; "sdiffstore"; "setbit"; "rpop"; "lpop"; "hgetall"; "lpush"; "hmget";
   "xrevrange"; "hdel"; "lrem"; "rename"; "pfcount"; "sunion"; "hincrby"; "geopos"; "echo"; "georadiusbymember";
   "pexpireat"; "getbit"; "xadd"; "rpush"; "zpopmax"; "type"; "exists"; "georadius_ro"; "zrevrangebylex";
   "zrevrangebyscore"; "linsert"; "sort"; "zrevrange"; "setnx"; "lindex"; "hget"; "info"; "zadd"; "sinter";
   "expireat"; "hvals"; "hset"; "xdel"; "hkeys"; "del"; "decrby"; "setrange"; "zcard"; "xrange"; "sdiff";
   "brpoplpush"; "bitfield"; "cluster"; "geoadd"; "bzpopmin"; "mset"; "strlen"; "incr"; "getrange"; "bzpopmax";
   "ping"; "smove"; "incrbyfloat"; "bitpos"; "rpushx"; "zunionstore"; "hmset"; "getset"; "zrange"; "config"; "zrank";
   "psetex"; "zremrangebylex"; "sadd"; "ltrim"; "sinterstore"; "brpop"; "lrange"; "eval"; "zincrby"; "unlink";
   "hscan"; "zrangebyscore"; "scard"; "xtrim"; "llen"; "command"].
Definition is_supported (cmd : bytes) : bool := bool_decide (cmd ∈ bytes_of <$> SUPPORTED_COMMANDS).

(** The commands of the reply of Redis to [COMMAND] that the proxy supports;
    [None]: the name of a command cannot be found. *)
Definition command_name (cmd : RespVec) : option bytes :=
  match cmd with
  | Arr (Elements (Bulk (Str s) :: _)) => Some s
  | _ => None
  end.
Fixpoint filter_supported (cmds : list RespVec) : option (list RespVec) :=
  match cmds with
  | [] => Some []
  | cmd :: cmds =>
      s ← command_name cmd;
      filtered ← filter_supported cmds;
      Some (if is_supported s then cmd :: filtered else filtered)
  end.

(** ** Handlers *)

(** The package version. *)
Definition UNDERMOON_VERSION : string := "0.6.1".
Definition ok_reply : RespVec := Simple (bytes_of "OK").
Definition text_reply (s : string) : RespVec := Simple (bytes_of s).

Definition meta_error_reply (e : ClusterMetaError) : RespVec :=
  error_reply match e with OldEpoch => "OLD_EPOCH" | MetaTryAgain => "TRY_AGAIN" | NotMyMeta => "ERR_NOT_MY_META" end.

Definition parse_error_debug (e : CmdParseError) : string :=
  match e with
  | InvalidVersion => "InvalidVersion" | InvalidEpoch => "InvalidEpoch" | InvalidClusterName => "InvalidClusterName"
  | InvalidSlots => "InvalidSlots" | Wire.InvalidConfig => "InvalidConfig" | InvalidRole => "InvalidRole"
  | InvalidArgs => "InvalidArgs"
  end.

(** A text argument, or the reply to a command without it. *)
Definition get_sub_command (c : CmdCtx) (index : nat) : string + RespVec :=
  match get_command_element (cmd_request (ctx_cmd c)) index with
  | None => inr (error_reply "Missing sub command")
  | Some k => match from_utf8 k with
              | Some sub_cmd => inl sub_cmd
              | None => inr (error_reply "Invalid sub command")
              end
  end.

Section handler.
Context `{UnicodeCase} `{HashOrder} `{MetaCodec} `{Crc16} `{NumberParsers} (config : ExecutorConfig).

(** [atoi] (a crate), CRC-64 (a crate), the dates, the debug texts. *)
Context (atoi_usize : bytes → option N) (crc64 : bytes → N) (to_rfc3339 : Z → Z → option bytes).
Context (mgr_error_debug : MigrationError → string) (reply_debug : RespVec → string).
Context (error_text : CommandError → string) (unexpected_reply : string → RespVec → string) (numkeys_error : bytes → string).

(** The handlers of the control commands: the state and the reply. *)
Definition handling : Type := may_panic (ProxyState * RespVec).

Definition handle_info (reports : Reports) : RespVec :=
  let crlf := String "013" (String "010" "") in
  bulk ("version:" +:+ UNDERMOON_VERSION +:+ crlf +:+ crlf +:+ "# Stats" +:+ crlf +:+ "flush_size:" +:+
        to_string (rp_flush_size reports) +:+ crlf +:+ "flush_interval:" +:+ to_string (rp_flush_interval reports) +:+ crlf).

(** [AUTH]: whether the session is authenticated, and the reply. *)
Definition handle_auth (c : CmdCtx) (authenticated : bool) : bool * RespVec :=
  match get_key (ctx_cmd c) with
  | None => (authenticated, error_reply "Missing password")
  | Some pwd =>
      match from_utf8 pwd with
      | None => (authenticated, error_reply "Invalid password")
      | Some pwd =>
          match ec_password config with
          | None => (authenticated, error_reply "no password configured")
          | Some conf_pwd =>
              if bool_decide (conf_pwd = pwd) then (true, ok_reply) else (authenticated, error_reply "invalid password")
          end
      end
  end.

Definition handle_cluster (c : CmdCtx) (s : ProxyState) : may_panic RespVec :=
  match get_sub_command c 1 with
  | inr reply => Ok reply
  | inl sub_cmd =>
      if str_ascii_case_insensitive_eq sub_cmd "nodes" then
        Ok (bulk (manager_cluster_nodes crc64 (ec_server config) (ec_cluster_nodes_version config) (ps_meta s)))
      else if str_ascii_case_insensitive_eq sub_cmd "slots" then
        match manager_cluster_slots crc64 (ec_server config) (ps_meta s) with
        | Ok resp => Ok resp
        | Err e => Ok (error_reply e)
        | Panic => Panic
        end
      else if str_ascii_case_insensitive_eq sub_cmd "keyslot" then
        match get_command_element (cmd_request (ctx_cmd c)) 2 with
        | Some key => slot ← generate_slot key; Ok (integer (to_string slot))
        | None => Ok (error_reply "Missing key")
        end
      else Ok (error_reply "Unsupported sub command")
  end.

Definition handle_umctl_set_cluster (c : CmdCtx) (s : ProxyState) : handling :=
  match meta_from_resp (cmd_request (ctx_cmd c)) with
  | Panic => Panic
  | Err err => Ok (s, error_reply ("Failed to parse args: " +:+ parse_error_debug err))
  | Ok (cluster_meta, extended_res) =>
      match set_meta (ec_server config) (ps_meta s) cluster_meta with
      | (m, started, Ok ()) =>
          Ok (set_ps_meta m started s, if extended_res then ok_reply else text_reply "WARNING: ignored invalid config")
      | (m, started, Err err) => Ok (set_ps_meta m started s, meta_error_reply err)
      | (_, _, Panic) => Panic
      end
  end.

Definition handle_umctl_setrepl (c : CmdCtx) (s : ProxyState) : handling :=
  match parse_repl_meta (cmd_request (ctx_cmd c)) with
  | Panic => Panic
  | Err _ => Ok (s, error_reply "Invalid arguments")
  | Ok meta =>
      match update_replicators (announce_host (ec_server config)) meta (ps_repl s) with
      | (r, Ok ()) => Ok (set_ps_repl r s, ok_reply)
      | (r, Err e) => Ok (set_ps_repl r s, meta_error_reply e)
      | (_, Panic) => Panic
      end
  end.

Definition switch_error_text (err : SwitchError) : string :=
  match err with
  | InvalidArg => "Invalid Arg"
  | TaskNotFound => "TASK_NOT_FOUND"
  | PeerMigrating => "Peer Not Migrating"
  | SwitchNotReady => "NOT_READY_FOR_SWITCHING"
  | MgrErr err => "switch failed: " +:+ mgr_error_debug err
  end.

Definition handle_umctl_mgr_cmd (c : CmdCtx) (sub_cmd : MgrSubCmd) (s : ProxyState) : handling :=
  match parse_switch_command (cmd_request (ctx_cmd c)) with
  | None => Ok (s, error_reply "failed to parse migration switch arguments")
  | Some switch_arg =>
      match handle_switch (ps_meta s) switch_arg sub_cmd with
      | (m, Ok ()) => Ok (set_ps_meta m [] s, ok_reply)
      | (m, Err err) => Ok (set_ps_meta m [] s, error_reply (switch_error_text err))
      | (_, Panic) => Panic
      end
  end.

Definition handle_umctl_slowlog (c : CmdCtx) (s : ProxyState) : handling :=
  match get_sub_command c 2 with
  | inr reply => Ok (s, reply)
  | inl sub_cmd =>
      let sub_cmd := to_uppercase sub_cmd in
      if bool_decide (sub_cmd = "GET") then
        let limit := get_command_element (cmd_request (ctx_cmd c)) 3 ≫= atoi_usize in
        reply ← slowlogs_to_resp to_rfc3339 (λ z, bytes_of (i64_to_string z)) (logger_get (N.to_nat <$> limit) (ps_slowlog s));
        Ok (s, reply)
      else if bool_decide (sub_cmd = "RESET") then Ok (set_ps_slowlog (logger_reset (ps_slowlog s)) s, ok_reply)
      else Ok (s, error_reply "invalid slowlog sub-command")
  end.

Definition handle_umctl_debug (reports : Reports) (c : CmdCtx) : RespVec :=
  match get_sub_command c 2 with
  | inr reply => reply
  | inl sub_cmd =>
      if bool_decide (to_uppercase sub_cmd = "FUTURE") then array ((λ s, Bulk (Str s)) <$> rp_futures reports)
      else error_reply "invalid debug sub-command"
  end.

Definition handle_umctl_stats (reports : Reports) : RespVec :=
  array (bulk <$> "# Migration" :: ((λ kv, kv.1 +:+ ": " +:+ to_string kv.2) <$> rp_stats reports)).

Definition handle_umctl_shutdown (s : ProxyState) : ProxyState * RespVec :=
  match ps_stopped s with
  | Some n => (set_ps_stopped (S n) s, ok_reply)
  | None => (s, error_reply "failed to send shutdown")
  end.

Definition handle_umctl (reports : Reports) (c : CmdCtx) (s : ProxyState) : handling :=
  match get_sub_command c 1 with
  | inr reply => Ok (s, reply)
  | inl sub_cmd =>
      let sub_cmd := to_uppercase sub_cmd in
      let m := mgr_meta_map (ps_meta s) in
      if bool_decide (sub_cmd = "LISTCLUSTER") then Ok (s, array [bulk (cb_cluster_name (mm_cluster_map m))])
      else if bool_decide (sub_cmd = "SETCLUSTER") then handle_umctl_set_cluster c s
      else if bool_decide (sub_cmd = "SETREPL") then handle_umctl_setrepl c s
      else if bool_decide (sub_cmd = "INFO") then Ok (s, manager_info s)
      else if bool_decide (sub_cmd = "INFOREPL") then Ok (s, get_metadata_report (ps_repl s))
      else if bool_decide (sub_cmd = "INFOMGR") then Ok (s, info_migration (get_finished_tasks (mm_migration_map m)))
      else if bool_decide (sub_cmd = mgr_sub_cmd_str CmdPreCheck) then handle_umctl_mgr_cmd c CmdPreCheck s
      else if bool_decide (sub_cmd = mgr_sub_cmd_str CmdPreSwitch) then handle_umctl_mgr_cmd c CmdPreSwitch s
      else if bool_decide (sub_cmd = mgr_sub_cmd_str CmdFinalSwitch) then handle_umctl_mgr_cmd c CmdFinalSwitch s
      else if bool_decide (sub_cmd = "SLOWLOG") then handle_umctl_slowlog c s
      else if bool_decide (sub_cmd = "DEBUG") then Ok (s, handle_umctl_debug reports c)
      else if bool_decide (sub_cmd = "STATS") then Ok (s, handle_umctl_stats reports)
      else if bool_decide (sub_cmd = "GETEPOCH") then Ok (s, integer (to_string (mgr_epoch (ps_meta s))))
      else if bool_decide (sub_cmd = "READY") then
        Ok (s, integer (if is_ready (get_role_num (ps_repl s)) (ps_meta s) then "1" else "0"))
      else if bool_decide (sub_cmd = "SHUTDOWN") then Ok (handle_umctl_shutdown s)
      else Ok (s, error_reply "Invalid sub command")
  end.

Definition handle_config (c : CmdCtx) (s : ProxyState) : ProxyState * RespVec :=
  match get_sub_command c 1 with
  | inr reply => (s, reply)
  | inl sub_cmd =>
      let sub_cmd := to_uppercase sub_cmd in
      if bool_decide (sub_cmd = "GET") then
        match get_sub_command c 2 with
        | inr reply => (s, reply)
        | inl field =>
            (s, match get_field config (ps_config s) field with
                | Ok value => bulk value
                | _ => error_reply ("config field " +:+ field +:+ " not found")
                end)
        end
      else if bool_decide (sub_cmd = "SET") then
        match get_sub_command c 2, get_sub_command c 3 with
        | inr reply, _ | inl _, inr reply => (s, reply)
        | inl field, inl value =>
            match set_value (ps_config s) field value with
            | (d, Ok ()) => (set_ps_config d s, ok_reply)
            | (d, Err err) => (set_ps_config d s, error_reply (config_error_debug err))
            | (d, Panic) => (set_ps_config d s, error_reply "")
            end
        end
      else (s, error_reply "invalid config sub-command")
  end.

Definition handle_command_cmd (c : CmdCtx) : program :=
  LocalNode c (λ res,
    match res with
    | Arr (Elements cmds) =>
        match filter_supported cmds with
        | Some filtered => answer (array filtered)
        | None => answer_error "cannot get command name"
        end
    | others => answer_error ("invalid command reply: " +:+ reply_debug others)
    end).

Definition data_cmd (c : CmdCtx) : may_panic program :=
  handle_data_cmd (ec_server config) error_text unexpected_reply numkeys_error c.

Definition handle_umforward (c : CmdCtx) : may_panic program :=
  match get_sub_command c 1 with
  | inr reply => Ok (answer reply)
  | inl redirection_times =>
      match parse_u64 (to_uppercase redirection_times) with
      | None => Ok (answer_error "invalid redirection times")
      | Some times =>
          '(cmd, remaining) ← extract_inner_cmd (ctx_cmd c) 2;
          match remaining with
          | Some (S _) => data_cmd (mkCmdCtx cmd (Some times))
          | _ => Ok (answer_error "missing forwarded command")
          end
      end
  end.

(** The state, whether the session is authenticated, and what is left to do. *)
Definition handle_cmd_ctx (reports : Reports) (c : CmdCtx) (authenticated : bool) (s : ProxyState) :
    may_panic (ProxyState * bool * program) :=
  let done_with (resp : RespVec) := Ok (s, authenticated, answer resp) in
  let controlled (h : handling) := '(s', resp) ← h; Ok (s', authenticated, answer resp) in
  match ci_cmd_type (cmd_info (ctx_cmd c)) with
  | TPing | TQuit | TSelect | TAsking => done_with ok_reply
  | TInfo => done_with (handle_info reports)
  | TAuth => let '(authenticated', resp) := handle_auth c authenticated in Ok (s, authenticated', answer resp)
  | TEcho => done_with match get_command_element (cmd_request (ctx_cmd c)) 1 with
                      | Some msg => Bulk (Str msg)
                      | None => error_reply "Missing message"
                      end
  | TInvalid => done_with (error_reply "Invalid command")
  | TUmCtl => controlled (handle_umctl reports c s)
  | TUmForward => p ← handle_umforward c; Ok (s, authenticated, p)
  | TUmSync => Ok (s, authenticated, SyncTask c)
  | TCluster => resp ← handle_cluster c s; done_with resp
  | TConfig => controlled (Ok (handle_config c s))
  | TCommand => Ok (s, authenticated, handle_command_cmd c)
  | THello => done_with (error_reply "ERR unknown command `hello`")
  | TOthers =>
      if bool_decide (ec_password config ≠ None) && negb authenticated then
        done_with (error_reply "Password not given by AUTH command")
      else p ← data_cmd c; Ok (s, authenticated, p)
  end.
End handler.

(** ** Facts *)

(** *** No handler panics *)

Lemma slowlog_to_report_Ok date text r :
  events_ok (sr_event_map r) → ∃ resp, slowlog_to_report date text r = Ok resp.
Proof.
  intros Hr. unfold slowlog_to_report.
  assert (∃ t, get_event_time Created (sr_event_map r) = Ok t) as [t ->].
  { unfold get_event_time. destruct (lookup_lt_is_Some_2 (sr_event_map r) (event_index Created)) as [t ->]; [|by eexists].
    rewrite Hr. apply event_index_lt. }
  cbn [mbind outcome_bind omapM fst snd].
  repeat match goal with |- context [get_used_time ?e ?m] =>
    let t := fresh in destruct (get_used_time_ok e m Hr) as [t ->]; cbn [mbind outcome_bind] end.
  by eexists.
Qed.

Lemma omapM_all_Ok {E A B} (f : A → outcome E B) l : Forall (λ x, ∃ y, f x = Ok y) l → ∃ l', omapM f l = Ok l'.
Proof.
  induction 1 as [|x l [y Hy] _ [l' IH]]; [by eexists|]. cbn. rewrite Hy. cbn. rewrite IH. by eexists.
Qed.

Lemma slowlogs_to_resp_Ok date text logs :
  Forall (λ r, events_ok (sr_event_map r)) logs → ∃ resp, slowlogs_to_resp date text logs = Ok resp.
Proof.
  intros Hl. unfold slowlogs_to_resp. destruct (omapM_all_Ok (slowlog_to_report date text) logs) as [l ->]; [|by eexists].
  eapply Forall_impl; [exact Hl|]. apply slowlog_to_report_Ok.
Qed.

Lemma omapM_no_panic {E A B} (f : A → outcome E B) l : (∀ x, f x ≠ Panic) → omapM f l ≠ Panic.
Proof.
  intros Hf. induction l as [|x l IH]; [done|]. cbn. specialize (Hf x). destruct (f x); [|done..]. cbn. by destruct (omapM f l).
Qed.

Lemma parse_peers_no_panic k : ∀ it n, length it ≤ k → parse_peers n it ≠ Panic ∧
  ∀ peers it', parse_peers n it = Ok (peers, it') → length it' ≤ length it.
Proof.
  induction k as [|k IH]; intros it n Hk; (destruct it as [|a [|b it]]; cbn [length] in Hk; try lia); cbn [parse_peers].
  1-3: destruct (n =? 0)%N; by naive_solver.
  destruct (n =? 0)%N; [naive_solver|]. destruct (IH it (n - 1)%N) as [Hn Hl]; [lia|].
  destruct (parse_peers (n - 1) it) as [[peers it']| |]; [|naive_solver..]. cbn.
  split; [done|]. intros ? ? [= <- <-]. specialize (Hl _ _ eq_refl). lia.
Qed.

Lemma parse_repl_node_no_panic `{UnicodeCase} it : parse_repl_node it ≠ Panic ∧
  ∀ node it', parse_repl_node it = Ok (node, it') → length it' < length it.
Proof.
  unfold parse_repl_node. destruct it as [|role [|name it]]; cbn; [naive_solver..|].
  destruct (cluster_name_try_from name); cbn; [|naive_solver]. destruct it as [|node [|num it]]; cbn; [naive_solver..|].
  destruct (parse_u64 num) as [num'|]; cbn; [|naive_solver]. destruct (parse_peers_no_panic (length it) it num') as [Hn Hl]; [lia|].
  destruct (parse_peers num' it) as [[peers it']| |]; cbn; [|naive_solver..].
  specialize (Hl _ _ eq_refl). repeat case_bool_decide; (split; [done|]); intros ? ? [=]; subst; lia.
Qed.

Lemma parse_repl_meta_no_panic `{UnicodeCase} resp : parse_repl_meta resp ≠ Panic.
Proof.
  unfold parse_repl_meta, parse_repl_args. do 2 (case_match; try done).
  generalize (text_args l). clear. intros it.
  assert (∀ fuel masters replicas it, length it < fuel → parse_repl_loop fuel masters replicas it ≠ Panic) as Hloop.
  { induction fuel as [|fuel IH]; intros masters replicas it' Hit; [lia|]. cbn. destruct it' as [|a it']; [done|].
    destruct (parse_repl_node_no_panic (a :: it')) as [Hn Hl]. destruct (parse_repl_node (a :: it')) as [[node it2]| |]; [|done..].
    specialize (Hl _ _ eq_refl). cbn [mbind outcome_bind]. destruct node; apply IH; cbn in *; lia. }
  destruct it as [|e it]; [done|]. cbn [next ok_or mbind outcome_bind]. destruct (parse_u64 e); [|done]. cbn [ok_or mbind outcome_bind].
  destruct it as [|f it]; [done|]. cbn [next ok_or mbind outcome_bind].
  specialize (Hloop (S (length it)) [] [] it). destruct (parse_repl_loop _ _ _ _) as [[]| |]; [done..|]. exfalso. apply Hloop; [lia|done].
Qed.

Lemma cluster_slots_no_panic `{HashOrder} crc64 m addr states : gen_cluster_slots crc64 m addr states ≠ Panic.
Proof.
  assert (∀ name slots, gen_cluster_slots_helper crc64 name slots states ≠ Panic) as Hh.
  { intros name slots. unfold gen_cluster_slots_helper.
    assert (omapM (slots_of_address crc64 (gen_cluster_name_seg name) states) (hash_iter slots) ≠ Panic) as Ho.
    { apply omapM_no_panic. intros kv. unfold slots_of_address. by repeat case_match. }
    by destruct (omapM _ _). }
  unfold gen_cluster_slots, gen_local_cluster_slots, gen_remote_cluster_slots.
  pose proof (Hh (lc_cluster_name (cb_local_cluster m)) (local_slots (cb_local_cluster m) addr)) as Hl.
  destruct (gen_cluster_slots_helper _ _ _ _) as [l| |]; [|done..]. cbn [mbind outcome_bind].
  pose proof (Hh (rc_cluster_name (cb_remote_cluster m)) (rc_slot_ranges (cb_remote_cluster m))) as Hr.
  by destruct (gen_cluster_slots_helper _ _ _ _).
Qed.

Lemma handle_switch_no_panic st arg sub_cmd : (handle_switch st arg sub_cmd).2 ≠ Panic.
Proof.
  unfold handle_switch, map_handle_switch, importing_handle_switch. by repeat case_match; simplify_eq/=.
Qed.

(** *** One call of [update_replicators] *)

Lemma fresh_call_new s : rm_given s !! fresh_call s = None ∧ rm_results s !! fresh_call s = None.
Proof.
  pose proof (is_fresh (dom (rm_given s) ∪ dom (rm_results s))) as Hf. fold (fresh_call s) in Hf.
  split; apply not_elem_of_dom; set_solver.
Qed.

Lemma call_steps_reachable host n t s : manager_reachable host s → manager_reachable host (call_steps host n t s).
Proof.
  revert s. induction n as [|n IH]; intros s Hs; [done|]. cbn [call_steps].
  destruct (manager_step host (UpdateStep t) s) as [s'|] eqn:Hstep; [|done].
  apply IH. by eapply manager_next.
Qed.

Lemma call_steps_next host n t s pc meta : rm_calls s !! t = Some pc → rm_given s !! t = Some meta →
  call_steps host (S n) t s = call_steps host n t (call_step t meta pc s).
Proof. intros Hc Hg. cbn. by rewrite Hc, Hg. Qed.

Lemma call_steps_ended host n t s : rm_calls s !! t = None → call_steps host n t s = s.
Proof. intros Hc. destruct n; [done|]. cbn. by rewrite Hc. Qed.

(** A call that is alone takes four steps. *)
Lemma call_ends host t meta s : rm_calls s = {[ t := CallTest ]} → rm_given s !! t = Some meta →
  rm_calls (call_steps host 4 t s) = ∅ ∧ ∃ res, rm_results (call_steps host 4 t s) !! t = Some res ∧ res ≠ Panic.
Proof.
  intros Hc Hg. rewrite (call_steps_next host 3 t s CallTest meta) by (done || by rewrite Hc, lookup_singleton_eq).
  cbn [call_step]. destruct (_ && _).
  { rewrite call_steps_ended by (cbn; by rewrite lookup_delete_eq). cbn. rewrite Hc, delete_singleton_eq, lookup_insert_eq. eauto. }
  rewrite (call_steps_next host 2 t _ CallStore meta) by (done || by (cbn; rewrite lookup_insert_eq)). cbn [call_step].
  rewrite (call_steps_next host 1 t _ CallRead meta) by (done || by (cbn; rewrite lookup_insert_eq)). cbn [call_step].
  erewrite (call_steps_next host 0); [|by cbn; rewrite lookup_insert_eq|done]. cbn [call_step].
  destruct (_ && _); cbn; rewrite Hc, !insert_singleton_eq, delete_singleton_eq, lookup_insert_eq; eauto.
Qed.

(** The call ends, and the manager is one that the calls can lead to. *)
Lemma update_replicators_ends host meta s :
  manager_reachable host s → rm_calls s = ∅ →
  (update_replicators host meta s).2 ≠ Panic ∧
  manager_reachable host (update_replicators host meta s).1 ∧ rm_calls (update_replicators host meta s).1 = ∅.
Proof.
  intros Hs Hc. destruct (fresh_call_new s) as [Hg Hr]. unfold update_replicators. set (t := fresh_call s) in *. cbn [fst snd].
  destruct (manager_step host (UpdateCall t meta) s) as [s1|] eqn:Hstep; [|cbn in Hstep; by rewrite Hg, Hr in Hstep].
  cbn [default]. assert (manager_reachable host s1) as Hs1 by by eapply manager_next.
  assert (manager_reachable host (call_steps host 4 t s1)) as Hs2 by by apply call_steps_reachable.
  cbn in Hstep. rewrite Hg, Hr in Hstep. injection Hstep as <-. destruct (validate_replicators host meta).
  - match goal with |- context [call_steps host 4 t ?s1] =>
      destruct (call_ends host t meta s1) as (Hcalls & res & Hres & Hne) end.
    + cbn. by rewrite Hc.
    + cbn. by rewrite lookup_insert_eq.
    + by rewrite Hres.
  - rewrite call_steps_ended in * by (cbn; by rewrite lookup_delete_eq). cbn. rewrite lookup_insert_eq, Hc, delete_empty. done.
Qed.

(** *** Data commands *)

Lemma same_slot_total `{Crc16} keys : ∃ b, same_slot keys = Ok b.
Proof. destruct keys as [|k keys]; [by eexists|]. rewrite same_slot_Ok. by eexists. Qed.

Lemma check_slots_total `{Crc16} config keys p : (∃ q, p = Ok q) → ∃ q, check_slots config keys p = Ok q.
Proof.
  intros [q ->]. unfold check_slots. destruct (active_redirection config); [by eexists|].
  destruct (same_slot_total keys) as [b ->]. cbn. destruct b; by eexists.
Qed.

Lemma slotted_kvs_total `{Crc16} kvs : ∀ m, ∃ m', slotted_kvs m kvs = Ok m'.
Proof.
  induction kvs as [|kv kvs IH]; intros m; [by eexists|]. cbn. unfold add_to_slot. rewrite generate_slot_Ok. cbn. apply IH.
Qed.

Lemma handle_data_cmd_total `{Crc16} `{NumberParsers} `{HashOrder} config et ur ne c :
  ∃ p, handle_data_cmd config et ur ne c = Ok p.
Proof.
  unfold handle_data_cmd, handle_mget, handle_mset, handle_msetnx, handle_multi_int_cmd, handle_blocking_commands, handle_eval_cmd,
    handle_multi_key_eval_cmd.
  assert (∀ keys (q : may_panic program), (∃ p, q = Ok p) → ∃ p, check_slots config keys q = Ok p) as Hcs
    by (intros; by apply check_slots_total).
  destruct (get_data_cmd_type (ctx_cmd c)); try (by eexists); try (apply Hcs; by eexists);
    try (destruct (bool_decide _); [apply Hcs; by eexists|by eexists]).
  all: repeat case_match; try (apply Hcs; eexists; reflexivity); try (eexists; reflexivity).
  all: try (match goal with |- context [same_slot ?k] => destruct (same_slot_total k) as [[] ->] end; by eexists).
  all: apply Hcs; match goal with |- context [slotted_kvs ∅ ?k] => destruct (slotted_kvs_total k ∅) as [m ->] end; cbn; by eexists.
Qed.

(** What is left to do for a command ends with a result that is no panic,
    whatever results the sub commands have: at once, with the one command that it
    is, or after its sub commands.  A blocking pop must have a timeout and keys. *)
Fixpoint concludes (p : program) : Prop :=
  match p with
  | Answer res => res ≠ Panic
  | Single _ | SyncTask _ => True
  | Join _ cmds k => ∀ results, length results = length cmds → Forall (λ r, r ≠ Panic) results → concludes (k results)
  | Launch _ p => concludes p
  | DataCmd.Importing _ k => ∀ importing, concludes (k importing)
  | Pop b =>
      bp_cmds b ≠ [] → (0 < bp_timeout b ≤ u64_max)%N → ∀ results,
      N.to_nat (bp_timeout b) * length (bp_cmds b) + 1 ≤ length results → Forall (λ r, r ≠ Panic) results →
      ∃ sent res, feed results b = (sent, inr res) ∧ res ≠ Panic
  | LocalNode _ k => ∀ resp, concludes (k resp)
  end.

Lemma mget_concludes results : ∀ values, Forall (λ r, r ≠ Panic) results → mget_results results values ≠ Panic.
Proof.
  induction results as [|r results IH]; intros values Hr; [done|]. apply Forall_cons in Hr as [H1 Hr].
  destruct r as [[]|e|]; cbn; try done; by apply IH.
Qed.
Lemma mset_concludes results : Forall (λ r, r ≠ Panic) results → mset_results results ≠ Panic.
Proof.
  induction results as [|r results IH]; intros Hr; [done|]. apply Forall_cons in Hr as [H1 Hr].
  destruct r as [[]|e|]; cbn; try done; by apply IH.
Qed.
Lemma number_concludes `{NumberParsers} unexpected results :
  ∀ count, Forall (λ r, r ≠ Panic) results → number_results unexpected results count ≠ Panic.
Proof.
  induction results as [|r results IH]; intros count Hr; [done|]. apply Forall_cons in Hr as [H1 Hr].
  destruct r as [[]|e|]; cbn; try done. destruct (btou t); [by apply IH|done].
Qed.
Lemma ensure_imported_concludes error_text keys p : concludes p → concludes (ensure_keys_imported error_text keys p).
Proof. intros Hp [|]; [|done]. cbn. intros results _ _. by destruct (import_results error_text results). Qed.

Lemma feed_result results : ∀ b sent res, feed results b = (sent, inr res) → Forall (λ r, r ≠ Panic) results → res ≠ Panic.
Proof.
  induction results as [|r results IH]; intros b sent res Hf Hr; [done|]. apply Forall_cons in Hr as [H1 Hr]. cbn in Hf.
  destruct (next_cmd b) as [[[key cmd] b']|]; [|done]. destruct (handle_pop key r b') as [b''|res'] eqn:Hh.
  - destruct (feed results b'') as [sent' e] eqn:Hfe. injection Hf as <- ->. by eapply IH.
  - injection Hf as <- <-. unfold handle_pop in Hh. destruct r as [resp|e|]; [destruct (_ && _)|..]; by simplify_eq.
Qed.

Lemma pop_concludes t timeout cmds : concludes (Pop (mkBlockingPop t timeout cmds cmds 0)).
Proof.
  intros Hc Ht results Hl Hr. cbn [bp_cmds bp_timeout] in *.
  destruct (feed_ends results (fresh_pop t timeout cmds)) as (sent & res & Hf & _); [done|cbn; lia|rewrite budget_fresh by lia; done|].
  exists sent, res. split; [exact Hf|]. by eapply feed_result.
Qed.

Lemma check_slots_concludes `{Crc16} config keys q p :
  (∀ p, q = Ok p → concludes p) → check_slots config keys q = Ok p → concludes p.
Proof.
  intros Hq. unfold check_slots. destruct (active_redirection config); [apply Hq|].
  destruct (same_slot keys) as [[]| |]; cbn; [apply Hq|by intros [= <-]|done..].
Qed.

Lemma handle_data_cmd_concludes `{Crc16} `{NumberParsers} `{HashOrder} config et ur ne c p :
  handle_data_cmd config et ur ne c = Ok p → concludes p.
Proof.
  assert (∀ b cmds k, (∀ results, Forall (λ r, r ≠ Panic) results → k results ≠ Panic) →
    concludes (Join b cmds (λ results, Answer (k results)))) as Hjoin by (intros b cmds k Hk results _ Hr; by apply Hk).
  unfold handle_data_cmd, handle_mget, handle_mset, handle_msetnx, handle_multi_int_cmd, handle_blocking_commands, handle_eval_cmd,
    handle_multi_key_eval_cmd.
  destruct (get_data_cmd_type (ctx_cmd c)); try (by intros [= <-]);
    try (case_bool_decide; [|by intros [= <-]]); repeat case_match; try (by intros [= <-]);
    try (apply check_slots_concludes; clear p; intros p).
  all: try (by intros [= <-]).
  all: try (intros [= <-]; apply Hjoin; intros results Hr; first [by apply mget_concludes|by apply mset_concludes|by apply number_concludes]).
  all: try (intros [= <-]; by apply pop_concludes).
  all: try (destruct (slotted_kvs _ _); cbn; [|done..]; intros [= <-]; apply ensure_imported_concludes; repeat case_match; try done;
    apply Hjoin; intros results Hr; by apply number_concludes).
  all: try (destruct (same_slot _) as [[]| |]; cbn; try done; intros [= <-]; [by apply ensure_imported_concludes|done]).
  destruct (slotted_kvs _ _); cbn; [by intros [= <-]|done..].
Qed.

(** *** Numbers *)

Lemma to_string_digits max n : (n ≤ max)%N → ∃ c s, to_string n = String c s ∧ parse_digits max 0 (String c s) = Some n ∧
  c ≠ "-"%char ∧ c ≠ "+"%char.
Proof.
  intros Hn. assert (parse_digits max 0 (to_string n) = Some n) as Hp.
  { unfold to_string, pretty, pretty_N. case_decide as H0; [subst; by destruct max|]. by rewrite parse_digits_pretty. }
  pose proof (to_string_no_char "-" n eq_refl) as Hm. pose proof (to_string_no_char "+" n eq_refl) as Hpl.
  destruct (to_string n) as [|c s] eqn:Hs; [|by exists c, s; destruct Hm, Hpl].
  exfalso. cbn in Hp. injection Hp as <-. by vm_compute in Hs.
Qed.

Lemma parse_i64_to_string z : i64_in_range z → parse_i64 (i64_to_string z) = Some z.
Proof.
  unfold i64_in_range, i64_to_string. intros Hz. destruct (Z.ltb_spec z 0).
  - destruct (to_string_digits (2 ^ 63) (Z.to_N (- z))) as (c & s & Hs & Hp & _); [lia|]. cbn [parse_i64].
    rewrite bool_decide_eq_true_2, Hs by done. rewrite Hp. cbn. f_equal. lia.
  - destruct (to_string_digits (2 ^ 63 - 1) (Z.to_N z)) as (c & s & Hs & Hp & Hm & Hpl); [lia|]. rewrite Hs. cbn [parse_i64].
    rewrite !bool_decide_eq_false_2, Hp by done. cbn. f_equal. lia.
Qed.

Lemma parse_i64_range s z : parse_i64 s = Some z → i64_in_range z.
Proof.
  unfold parse_i64, i64_in_range. destruct s as [|c s]; [done|].
  repeat case_bool_decide; repeat (destruct s as [|? s]; [done|]); intros (n & Hn & ->)%fmap_Some;
    apply parse_digits_le in Hn; lia.
Qed.

(** ** The states of a proxy *)

(** The metadata and the replicators are ones that updates lead to, no update
    is going on, the records of the slow log are whole, and the numbers fit. *)
Record proxy_ok `{HashOrder} (config : ExecutorConfig) (s : ProxyState) : Prop := {
  po_meta : managed (ec_server config) (ps_meta s);
  po_repl : manager_reachable (announce_host (ec_server config)) (ps_repl s);
  po_calls : rm_calls (ps_repl s) = ∅;
  po_slowlog : Forall (λ r, events_ok (sr_event_map r)) (omap id (lg_slowlogs (ps_slowlog s)));
  po_slower : i64_in_range (slowlog_log_slower_than (ps_config s));
  po_rate : (slowlog_sample_rate (ps_config s) ≤ u64_max)%N;
}.

(** A proxy that has just been started. *)
Definition proxy_new `{HashOrder} (slowlog_len : nat) (d : DynamicConfig) : ProxyState :=
  mkProxyState meta_manager_new [] replicator_manager_new (logger_new slowlog_len) d (Some 0).

Lemma proxy_new_ok `{HashOrder} config len d :
  i64_in_range (slowlog_log_slower_than d) → (slowlog_sample_rate d ≤ u64_max)%N → proxy_ok config (proxy_new len d).
Proof.
  intros Hd Hr. split; cbn; [constructor|constructor|done| |done..].
  assert (omap id (replicate len None) = @nil SlowlogRecord) as -> by (by induction len). constructor.
Qed.

Lemma parse_u64_le s n : parse_u64 s = Some n → (n ≤ u64_max)%N.
Proof.
  unfold parse_u64. destruct s as [|c s]; [done|].
  case_bool_decide; [destruct s; [done|]|]; intros Hn; eapply parse_digits_le in Hn; done.
Qed.

Lemma no_records {A B} (l : list A) : omap id ((λ _, @None B) <$> l) = [].
Proof. by induction l. Qed.

Section handler_ok.
Context `{UnicodeCase} `{HashOrder} `{MetaCodec} `{Crc16} `{NumberParsers} (config : ExecutorConfig).
Context (atoi_usize : bytes → option N) (crc64 : bytes → N) (to_rfc3339 : Z → Z → option bytes).
Context (mgr_error_debug : MigrationError → string) (reply_debug : RespVec → string).
Context (error_text : CommandError → string) (unexpected_reply : string → RespVec → string) (numkeys_error : bytes → string).

(** What a handler of control commands does. *)
Definition handled (h : handling) : Prop := ∃ s' resp, h = Ok (s', resp) ∧ proxy_ok config s'.

Lemma handled_same s resp : proxy_ok config s → handled (Ok (s, resp)).
Proof. intros Hs. by exists s, resp. Qed.

Lemma set_cluster_ok c s : proxy_ok config s → handled (handle_umctl_set_cluster config c s).
Proof.
  intros Hs. unfold handle_umctl_set_cluster.
  assert (meta_from_resp (cmd_request (ctx_cmd c)) ≠ Panic) as Hp.
  { unfold meta_from_resp. do 2 (case_match; try done). apply parse_no_panic. }
  destruct (meta_from_resp _) as [[m ext]|e|]; [|by apply handled_same|done].
  assert ((set_meta (ec_server config) (ps_meta s) m).2 ≠ Panic) as Hsp.
  { unfold set_meta. by repeat case_match. }
  pose proof (managed_set_meta _ _ m (po_meta _ _ Hs)) as Hm.
  destruct (set_meta _ _ _) as [[m' started] [[]| |]]; [| |done];
    (eexists _, _; split; [done|]; destruct Hs; by split).
Qed.

Lemma setrepl_ok c s : proxy_ok config s → handled (handle_umctl_setrepl config c s).
Proof.
  intros Hs. unfold handle_umctl_setrepl. pose proof (parse_repl_meta_no_panic (cmd_request (ctx_cmd c))) as Hp.
  destruct (parse_repl_meta _) as [m|e|]; [|by apply handled_same|done].
  destruct (update_replicators_ends (announce_host (ec_server config)) m (ps_repl s) (po_repl _ _ Hs) (po_calls _ _ Hs))
    as (Hne & Hr & Hc).
  destruct (update_replicators _ _ _) as [r [[]| |]]; [| |done]; (eexists _, _; split; [done|]; destruct Hs; by split).
Qed.

Lemma mgr_cmd_ok c sub_cmd s : proxy_ok config s → handled (handle_umctl_mgr_cmd mgr_error_debug c sub_cmd s).
Proof.
  intros Hs. unfold handle_umctl_mgr_cmd. destruct (parse_switch_command _) as [arg|]; [|by apply handled_same].
  pose proof (handle_switch_no_panic (ps_meta s) arg sub_cmd) as Hp.
  pose proof (managed_switch _ _ arg sub_cmd (po_meta _ _ Hs)) as Hm.
  destruct (handle_switch _ _ _) as [m [[]| |]]; [| |done]; (eexists _, _; split; [done|]; destruct Hs; by split).
Qed.

Lemma slowlog_ok c s : proxy_ok config s → handled (handle_umctl_slowlog atoi_usize to_rfc3339 c s).
Proof.
  intros Hs. unfold handle_umctl_slowlog. destruct (get_sub_command c 2) as [sub|resp]; [|by apply handled_same].
  case_bool_decide; [|case_bool_decide; [|by apply handled_same]].
  - destruct (slowlogs_to_resp_Ok to_rfc3339 (λ z, bytes_of (i64_to_string z))
      (logger_get (N.to_nat <$> (get_command_element (cmd_request (ctx_cmd c)) 3 ≫= atoi_usize)) (ps_slowlog s))) as [resp ->].
    + apply Forall_take, (po_slowlog _ _ Hs).
    + by apply handled_same.
  - eexists _, _. split; [done|]. destruct Hs. split; cbn; try done.
    rewrite no_records. constructor.
Qed.

Lemma umctl_ok reports c s : proxy_ok config s → handled (handle_umctl config atoi_usize to_rfc3339 mgr_error_debug reports c s).
Proof.
  intros Hs. unfold handle_umctl. destruct (get_sub_command c 1) as [sub|resp]; [|by apply handled_same].
  repeat (case_bool_decide;
    [first [by apply handled_same|by apply set_cluster_ok|by apply setrepl_ok|by apply mgr_cmd_ok|by apply slowlog_ok|idtac]|]);
    [|by apply handled_same].
  unfold handle_umctl_shutdown. destruct (ps_stopped s) as [n|]; [|by apply handled_same].
  eexists _, _. split; [done|]. destruct Hs. by split.
Qed.

Lemma config_ok c s : proxy_ok config s → handled (Ok (handle_config config c s)).
Proof.
  intros Hs. assert (∀ field value, proxy_ok config (set_ps_config (set_value (ps_config s) field value).1 s)) as Hset.
  { intros field value. unfold set_value. destruct Hs. repeat case_bool_decide; repeat case_match; split; cbn; try done.
    - by eapply parse_i64_range.
    - by eapply parse_u64_le. }
  unfold handle_config. destruct (get_sub_command c 1) as [sub|resp]; [|by apply handled_same].
  case_bool_decide; [destruct (get_sub_command c 2); by apply handled_same|].
  case_bool_decide; [|by apply handled_same].
  destruct (get_sub_command c 2) as [field|]; [|by apply handled_same].
  destruct (get_sub_command c 3) as [value|]; [|by apply handled_same]. specialize (Hset field value).
  destruct (set_value _ _ _) as [d [[]| |]]; by apply handled_same.
Qed.
End handler_ok.

(** ** Sessions *)

Section session.
Context `{UnicodeCase} `{HashOrder} `{MetaCodec} `{Crc16} `{NumberParsers} (config : ExecutorConfig).
Context (atoi_usize : bytes → option N) (crc64 : bytes → N) (to_rfc3339 : Z → Z → option bytes).
Context (mgr_error_debug : MigrationError → string) (reply_debug : RespVec → string).
Context (error_text : CommandError → string) (unexpected_reply : string → RespVec → string) (numkeys_error : bytes → string).
Context (reports : Reports).

Definition handle_one : CmdCtx → bool → ProxyState → may_panic (ProxyState * bool * program) :=
  handle_cmd_ctx config atoi_usize crc64 to_rfc3339 mgr_error_debug reply_debug error_text unexpected_reply numkeys_error reports.

(** The commands of one client, with what is left to do for each. *)
Fixpoint handle_all (cs : list CmdCtx) (authenticated : bool) (s : ProxyState) :
    may_panic (ProxyState * bool * list program) :=
  match cs with
  | [] => Ok (s, authenticated, [])
  | c :: cs =>
      '(s, authenticated, p) ← handle_one c authenticated s;
      '(s, authenticated, ps) ← handle_all cs authenticated s;
      Ok (s, authenticated, p :: ps)
  end.

(** The events of a session: a command comes in, with the entry that it gets in
    the slow log if it is sampled ([Session::handle_cmd]); the reply of a command
    is there and its entry is looked at ([Session::handle_slowlog]). *)
Inductive SessionEvent : Type :=
| Requested (session_id : N) (now : Z) (c : CmdCtx)
| Replied (now : Z) (request : RespPacket) (l : Slowlog).

Fixpoint run_session (es : list SessionEvent) (authenticated : bool) (s : ProxyState) :
    may_panic (ProxyState * bool * list program) :=
  match es with
  | [] => Ok (s, authenticated, [])
  | Requested session_id now c :: es =>
      '(g, _) ← session_request session_id (slowlog_sample_rate (ps_config s)) now (ps_slowlog s);
      '(s, authenticated, p) ← handle_one c authenticated (set_ps_slowlog g s);
      '(s, authenticated, ps) ← run_session es authenticated s;
      Ok (s, authenticated, p :: ps)
  | Replied now request l :: es =>
      g ← session_reply (slowlog_log_slower_than (ps_config s)) now request l (ps_slowlog s);
      run_session es authenticated (set_ps_slowlog g s)
  end.

(** The slow log can take an entry: it has a time for every event, and the short
    form of its request can be made (see [brief_command_panics] for when it can
    not). *)
Definition loggable (e : SessionEvent) : Prop :=
  match e with
  | Requested _ _ _ => True
  | Replied _ request l => get_brief_command request ≠ Panic ∧ events_ok (sl_event_map l)
  end.
Definition requests (es : list SessionEvent) : list CmdCtx :=
  omap (λ e, match e with Requested _ _ c => Some c | Replied _ _ _ => None end) es.

Lemma handle_one_ok c authenticated s : proxy_ok config s →
  ∃ s' authenticated' p, handle_one c authenticated s = Ok (s', authenticated', p) ∧ proxy_ok config s' ∧ concludes p.
Proof.
  intros Hs. unfold handle_one, handle_cmd_ctx. destruct (ci_cmd_type (cmd_info (ctx_cmd c))); try (by eexists _, _, _).
  - destruct (handle_auth config c authenticated). by eexists _, _, _.
  - destruct (_ && _); [by eexists _, _, _|]. unfold data_cmd.
    destruct (handle_data_cmd_total (ec_server config) error_text unexpected_reply numkeys_error c) as [p Hp]. rewrite Hp.
    eexists _, _, _. split; [done|]. split; [done|]. by eapply handle_data_cmd_concludes.
  - destruct (umctl_ok config atoi_usize to_rfc3339 mgr_error_debug reports c s Hs) as (s' & resp & -> & Hs'). by eexists _, _, _.
  - unfold handle_umforward. destruct (get_sub_command c 1) as [times|resp]; [|by eexists _, _, _].
    destruct (parse_u64 _) as [n|]; [|by eexists _, _, _]. unfold extract_inner_cmd.
    destruct (left_trim_array _ _) as [request [remaining|]]; [|by eexists _, _, _].
    destruct (command_info_Ok request) as (info & -> & _). cbn [mbind outcome_bind].
    destruct remaining as [|remaining]; [by eexists _, _, _|]. unfold data_cmd.
    destruct (handle_data_cmd_total (ec_server config) error_text unexpected_reply numkeys_error
      (mkCmdCtx (mkCommand request info) (Some n))) as [p Hp]. rewrite Hp.
    eexists _, _, _. split; [done|]. split; [done|]. by eapply handle_data_cmd_concludes.
  - assert (∃ resp, handle_cluster config crc64 c s = Ok resp) as [resp ->]; [|by eexists _, _, _].
    unfold handle_cluster. destruct (get_sub_command c 1) as [sub|resp]; [|by eexists].
    destruct (str_ascii_case_insensitive_eq _ _); [by eexists|]. destruct (str_ascii_case_insensitive_eq _ _).
    + pose proof (cluster_slots_no_panic crc64 (mm_cluster_map (mgr_meta_map (ps_meta s))) (announce_address (ec_server config))
        (get_states (mm_migration_map (mgr_meta_map (ps_meta s))))) as Hp.
      fold (manager_cluster_slots crc64 (ec_server config) (ps_meta s)) in Hp.
      destruct (manager_cluster_slots _ _ _); [by eexists..|done].
    + destruct (str_ascii_case_insensitive_eq _ _); [|by eexists].
      destruct (get_command_element _ _); [rewrite generate_slot_Ok|]; by eexists.
  - destruct (config_ok config c s Hs) as (s' & resp & [= Hr] & Hs'). rewrite Hr. by eexists _, _, _.
  - eexists _, _, _. split; [done|]. split; [done|]. intros res. cbn. repeat case_match; done.
Qed.

(** *** The slow log *)

Lemma set_slowlog_ok g s :
  proxy_ok config s → Forall (λ r, events_ok (sr_event_map r)) (omap id (lg_slowlogs g)) → proxy_ok config (set_ps_slowlog g s).
Proof. intros [] Hg. by split. Qed.

Lemma session_request_ok session_id rate now g : ∃ g' l,
  session_request session_id rate now g = Ok (g', l) ∧ lg_slowlogs g' = lg_slowlogs g ∧ events_ok (sl_event_map l).
Proof.
  unfold session_request. destruct (limit_rate rate g) as [g' enabled] eqn:Hl.
  destruct (log_event_ok now Created (slowlog_new session_id enabled)) as (l & -> & Hev & _); [done|]. cbn.
  exists g', l. split; [done|]. split; [|done]. unfold limit_rate in Hl. repeat case_match; by simplify_eq.
Qed.

Lemma store_record_ok r g :
  events_ok (sr_event_map r) → Forall (λ r, events_ok (sr_event_map r)) (omap id (lg_slowlogs g)) →
  Forall (λ r, events_ok (sr_event_map r)) (omap id (lg_slowlogs (store_record r g))).
Proof.
  intros Hr. rewrite !Forall_forall. intros Hg r' (o & Ho & Hid)%list_elem_of_omap. cbn in Hid. subst o.
  apply list_elem_of_lookup_1 in Ho as [i Hi]. cbn in Hi. apply list_lookup_insert_Some in Hi as [(_ & [= ->] & _)|(_ & Hi)]; [done|].
  apply Hg, list_elem_of_omap. exists (Some r'). split; [by eapply list_elem_of_lookup_2|done].
Qed.

Lemma session_reply_ok threshold now request l g :
  get_brief_command request ≠ Panic → events_ok (sl_event_map l) →
  Forall (λ r, events_ok (sr_event_map r)) (omap id (lg_slowlogs g)) →
  ∃ g', session_reply threshold now request l g = Ok g' ∧ Forall (λ r, events_ok (sr_event_map r)) (omap id (lg_slowlogs g')).
Proof.
  intros Hb Hl Hg. unfold session_reply. destruct (log_event_ok now WaitDone l Hl) as (l' & -> & Hl' & _). cbn [mbind outcome_bind].
  unfold add_slow_log. destruct (get_used_time_ok WaitDone _ Hl') as [t ->]. cbn [mbind outcome_bind].
  destruct (_ <? t)%Z; [|by eexists]. unfold logger_add, from_slow_log. destruct (get_brief_command request) as [b|[]|]; [|done].
  cbn. eexists. split; [done|]. by apply store_record_ok.
Qed.

(** How a session becomes authenticated. *)
Lemma handle_one_auth c authenticated s s' authenticated' p :
  handle_one c authenticated s = Ok (s', authenticated', p) →
  authenticated' = authenticated ∨
  ci_cmd_type (cmd_info (ctx_cmd c)) = TAuth ∧ bytes_of <$> ec_password config = get_key (ctx_cmd c).
Proof.
  unfold handle_one, handle_cmd_ctx. destruct (ci_cmd_type (cmd_info (ctx_cmd c))); cbn; try (intros; simplify_eq; by left).
  - unfold handle_auth. destruct (get_key (ctx_cmd c)) as [k|]; [|intros; simplify_eq; by left].
    destruct (from_utf8 k) as [pwd|] eqn:Hu; [|intros; simplify_eq; by left].
    destruct (ec_password config) as [pw|]; [|intros; simplify_eq; by left].
    case_bool_decide as Heq; intros; simplify_eq; [|by left]. right. split; [done|]. cbn. f_equal.
    unfold from_utf8 in Hu. destruct (utf8_valid k); [|done]. injection Hu as <-.
    unfold bytes_of. by rewrite String.list_ascii_of_string_of_list_ascii.
  - destruct (_ && _); [intros; simplify_eq; by left|]. destruct (data_cmd _ _ _ _ c); cbn; intros; simplify_eq; by left.
  - destruct (handle_umctl _ _ _ _ _ _ _) as [[]| |]; cbn; intros; simplify_eq; by left.
  - destruct (handle_umforward _ _ _ _ c); cbn; intros; simplify_eq; by left.
  - destruct (handle_cluster _ _ _ _); cbn; intros; simplify_eq; by left.
  - destruct (handle_config _ _ _); cbn; intros; simplify_eq; by left.
Qed.
End session.

(** ** Claims *)

Section claims.
Context `{UnicodeCase} `{HashOrder} `{MetaCodec} `{Crc16} `{NumberParsers} (config : ExecutorConfig).
Context (atoi_usize : bytes → option N) (crc64 : bytes → N) (to_rfc3339 : Z → Z → option bytes).
Context (mgr_error_debug : MigrationError → string) (reply_debug : RespVec → string).
Context (error_text : CommandError → string) (unexpected_reply : string → RespVec → string) (numkeys_error : bytes → string).
Context (reports : Reports).
Abbreviation session_of :=
  (handle_all config atoi_usize crc64 to_rfc3339 mgr_error_debug reply_debug error_text unexpected_reply numkeys_error reports).
Abbreviation handling_of :=
  (handle_one config atoi_usize crc64 to_rfc3339 mgr_error_debug reply_debug error_text unexpected_reply numkeys_error reports).

Abbreviation run_of :=
  (run_session config atoi_usize crc64 to_rfc3339 mgr_error_debug reply_debug error_text unexpected_reply numkeys_error reports).

Lemma run_session_ok es : ∀ authenticated s, proxy_ok config s → Forall loggable es →
  ∃ s' authenticated' ps, run_of es authenticated s = Ok (s', authenticated', ps) ∧ proxy_ok config s' ∧
    length ps = length (requests es) ∧ Forall concludes ps.
Proof.
  induction es as [|e es IH]; intros authenticated s Hs He; [by eexists _, _, _|]. apply Forall_cons in He as [He Hes].
  destruct e as [session_id now c|now request l]; cbn [run_session].
  - destruct (session_request_ok session_id (slowlog_sample_rate (ps_config s)) now (ps_slowlog s)) as (g & l & -> & Hg & _).
    cbn [mbind outcome_bind]. assert (proxy_ok config (set_ps_slowlog g s)) as Hs0.
    { apply set_slowlog_ok; [done|]. rewrite Hg. apply Hs. }
    destruct (handle_one_ok config atoi_usize crc64 to_rfc3339 mgr_error_debug reply_debug error_text unexpected_reply numkeys_error
      reports c authenticated _ Hs0) as (s1 & a1 & p & -> & Hs1 & Hp). cbn [mbind outcome_bind].
    destruct (IH a1 s1 Hs1 Hes) as (s2 & a2 & ps & -> & Hs2 & Hl & Hps). eexists _, _, _. split; [reflexivity|].
    split; [done|]. cbn. by rewrite Hl, Forall_cons.
  - destruct He as [Hb Hl]. destruct (session_reply_ok (slowlog_log_slower_than (ps_config s)) now request l (ps_slowlog s) Hb Hl)
      as (g & -> & Hg); [apply Hs|]. cbn [mbind outcome_bind]. apply IH; [|done]. by apply set_slowlog_ok.
Qed.

(** The type of a command is the one of its name. *)
Lemma command_type c : command_ok c → ci_cmd_type (cmd_info c) = cmd_type_from_packet (cmd_request c).
Proof.
  unfold command_ok, command_new, command_info_new. destruct (info_get_key _ _) as [k|]; [rewrite generate_slot_Ok|]; cbn;
    intros [= <-]; done.
Qed.

(** A command of type [Others] of a session that is not authenticated. *)
Lemma others_refused c s p s' a' :
  ci_cmd_type (cmd_info (ctx_cmd c)) = TOthers → ec_password config ≠ None → handling_of c false s = Ok (s', a', p) →
  p = answer_error "Password not given by AUTH command".
Proof.
  intros Hc Hp. unfold handle_one, handle_cmd_ctx. rewrite Hc, bool_decide_eq_true_2 by done. cbn. by intros [= _ _ <-].
Qed.

Lemma session_authenticated pw cs : ∀ authenticated s s' a' ps i c p,
  ec_password config = Some pw → session_of cs authenticated s = Ok (s', a', ps) →
  cs !! i = Some c → ps !! i = Some p → ci_cmd_type (cmd_info (ctx_cmd c)) = TOthers →
  p ≠ answer_error "Password not given by AUTH command" →
  authenticated = true ∨ ∃ j c', j < i ∧ cs !! j = Some c' ∧ ci_cmd_type (cmd_info (ctx_cmd c')) = TAuth ∧
    get_key (ctx_cmd c') = Some (bytes_of pw).
Proof.
  induction cs as [|c0 cs IH]; intros authenticated s s' a' ps i c p Hpw Hs Hc Hp Ht Hne; [done|]. cbn [handle_all] in Hs.
  destruct (handling_of c0 authenticated s) as [[[s1 a1] p0]| |] eqn:Hone; [|done..]. cbn [mbind outcome_bind] in Hs.
  destruct (session_of cs a1 s1) as [[[s2 a2] ps']| |] eqn:Hrest; [|done..]. cbn in Hs. injection Hs as <- <- <-.
  destruct i as [|i]; cbn in Hc, Hp.
  - simplify_eq. destruct authenticated; [by left|]. destruct Hne. by eapply others_refused; [..|exact Hone]; [|rewrite Hpw].
  - destruct (IH a1 s1 s2 a2 ps' i c p Hpw Hrest Hc Hp Ht Hne) as [->|(j & c' & Hj & Hc' & Hauth)].
    + destruct (handle_one_auth _ _ _ _ _ _ _ _ _ _ _ _ _ _ _ _ Hone) as [<-|[Hauth Hk]]; [by left|].
      right. exists 0, c0. rewrite Hpw in Hk. split; [lia|]. done.
    + right. exists (S j), c'. split; [lia|]. done.
Qed.
End claims.

(** C7. The proxy keeps its state well formed: in a session with any commands,
    and with replies whose entries the slow log can take, nothing panics, the
    metadata, the migration tasks, the replicators, the slow log and the
    configuration remain ones that the operations of the proxy can produce, and
    what is left to do for each command ends with a result that is no panic, for
    any results of its sub commands that are none.  The slow log panics on a
    request with a word that has a character across its 100th byte
    ([brief_command_panics]). *)
Theorem commands_handled `{UnicodeCase} `{HashOrder} `{MetaCodec} `{Crc16} `{NumberParsers}
    config atoi_usize crc64 to_rfc3339 mgr_error_debug reply_debug error_text unexpected_reply numkeys_error reports
    es authenticated s :
  proxy_ok config s → Forall loggable es →
  ∃ s' authenticated' ps,
    run_session config atoi_usize crc64 to_rfc3339 mgr_error_debug reply_debug error_text unexpected_reply numkeys_error reports
      es authenticated s = Ok (s', authenticated', ps) ∧
    proxy_ok config s' ∧ length ps = length (requests es) ∧ Forall concludes ps.
Proof. apply run_session_ok. Qed.

(** A password protects the data from ordinary commands: in a session of a
    proxy with a password, a command that is not one of the control commands
    is executed only after an [AUTH] with exactly this password. *)
Theorem password_protects `{UnicodeCase} `{HashOrder} `{MetaCodec} `{Crc16} `{NumberParsers}
    config atoi_usize crc64 to_rfc3339 mgr_error_debug reply_debug error_text unexpected_reply numkeys_error reports
    pw cs s s' authenticated' ps i c p :
  ec_password config = Some pw →
  handle_all config atoi_usize crc64 to_rfc3339 mgr_error_debug reply_debug error_text unexpected_reply numkeys_error reports
    cs false s = Ok (s', authenticated', ps) →
  cs !! i = Some c → ps !! i = Some p → ci_cmd_type (cmd_info (ctx_cmd c)) = TOthers →
  p ≠ answer_error "Password not given by AUTH command" →
  ∃ j c', j < i ∧ cs !! j = Some c' ∧ ci_cmd_type (cmd_info (ctx_cmd c')) = TAuth ∧ get_key (ctx_cmd c') = Some (bytes_of pw).
Proof.
  intros Hpw Hs Hc Hp Ht Hne.
  by edestruct (session_authenticated config atoi_usize crc64 to_rfc3339 mgr_error_debug reply_debug error_text unexpected_reply
    numkeys_error reports pw cs false s s' authenticated' ps i c p) as [|Hj].
Qed.

(** The command that a proxy redirects with [UMFORWARD] is executed by the
    next proxy like the command itself, with the number of redirections that
    are left; and this holds for a session without [AUTH] as well, so that
    the password does not protect the data from a client that sends
    [UMFORWARD]. *)
Theorem forwarded_command `{UnicodeCase} `{HashOrder} `{MetaCodec} `{Crc16} `{NumberParsers}
    config atoi_usize crc64 to_rfc3339 mgr_error_debug reply_debug error_text unexpected_reply numkeys_error reports
    c e l times authenticated s :
  command_ok c → cmd_request c = Arr (Elements (e :: l)) → (times ≤ u64_max)%N →
  ∃ c' p, wrap_cmd c [bytes_of "UMFORWARD"; bytes_of (to_string times)] = Ok (c', true) ∧
    handle_data_cmd (ec_server config) error_text unexpected_reply numkeys_error (mkCmdCtx c (Some times)) = Ok p ∧
    handle_one config atoi_usize crc64 to_rfc3339 mgr_error_debug reply_debug error_text unexpected_reply numkeys_error reports
      (mkCmdCtx c' None) authenticated s = Ok (s, authenticated, p).
Proof.
  intros Hc Hreq Ht.
  destruct (extract_wrapped c [bytes_of "UMFORWARD"; bytes_of (to_string times)] e l Hc Hreq) as (c' & Hw & Hok & Hreq' & He).
  destruct (handle_data_cmd_total (ec_server config) error_text unexpected_reply numkeys_error (mkCmdCtx c (Some times))) as [p Hp].
  exists c', p. split; [done|]. split; [done|]. unfold handle_one, handle_cmd_ctx. cbn [ctx_cmd].
  assert (ci_cmd_type (cmd_info c') = TUmForward) as ->.
  { by rewrite (command_type c' Hok), Hreq'. }
  unfold handle_umforward, get_sub_command. cbn [ctx_cmd]. rewrite Hreq'. cbn [fmap list_fmap app get_command_element lookup].
  cbn. rewrite number_text. rewrite to_uppercase_number, parse_u64_to_string by done.
  change (length [bytes_of "UMFORWARD"; bytes_of (to_string times)]) with 2 in He. rewrite He. cbn. unfold data_cmd. by rewrite Hp.
Qed.

(** A control command of [UMCTL]. *)
Lemma umctl_one `{UnicodeCase} `{HashOrder} `{MetaCodec} `{Crc16} `{NumberParsers}
    config atoi_usize crc64 to_rfc3339 mgr_error_debug reply_debug error_text unexpected_reply numkeys_error reports words authenticated s :
  handle_one config atoi_usize crc64 to_rfc3339 mgr_error_debug reply_debug error_text unexpected_reply numkeys_error reports
    (ctx_of (bytes_of <$> "UMCTL" :: words)) authenticated s =
  ('(s', resp) ← handle_umctl config atoi_usize to_rfc3339 mgr_error_debug reports (ctx_of (bytes_of <$> "UMCTL" :: words)) s;
   Ok (s', authenticated, answer resp)).
Proof.
  unfold handle_one, handle_cmd_ctx. destruct (ctx_of_ok (bytes_of <$> "UMCTL" :: words)) as [Hok Hreq].
  by rewrite (command_type _ Hok), Hreq.
Qed.

Lemma umctl_sub_command `{Crc16} sub rest :
  text_ok sub → get_sub_command (ctx_of (bytes_of <$> "UMCTL" :: sub :: rest)) 1 = inl sub.
Proof.
  intros Hs. unfold get_sub_command. destruct (ctx_of_ok (bytes_of <$> "UMCTL" :: sub :: rest)) as [_ ->]. cbn.
  by rewrite text_from_utf8.
Qed.

Lemma umctl_switch `{UnicodeCase} `{HashOrder} `{MetaCodec} `{Crc16} config atoi_usize to_rfc3339 mgr_error_debug reports sub_cmd rest s :
  handle_umctl config atoi_usize to_rfc3339 mgr_error_debug reports (ctx_of (bytes_of <$> "UMCTL" :: mgr_sub_cmd_str sub_cmd :: rest)) s =
  handle_umctl_mgr_cmd mgr_error_debug (ctx_of (bytes_of <$> "UMCTL" :: mgr_sub_cmd_str sub_cmd :: rest)) sub_cmd s.
Proof.
  unfold handle_umctl. rewrite umctl_sub_command by by destruct sub_cmd. rewrite to_uppercase_ascii by by destruct sub_cmd.
  destruct sub_cmd; cbn [mgr_sub_cmd_str string_map]; repeat (case_bool_decide; [discriminate|]); by case_bool_decide.
Qed.

(** A switch command takes effect at the destination: when the source of a
    migration sends [PRECHECK], [PRESWITCH] or [FINALSWITCH] to a proxy that
    knows the epoch and imports the range, the handler of that proxy answers
    OK and moves exactly this task to the state of the command. *)
Theorem switch_handled `{UnicodeCase} `{HashOrder} `{MetaCodec} `{Crc16} `{NumberParsers}
    config atoi_usize crc64 to_rfc3339 mgr_error_debug reply_debug error_text unexpected_reply numkeys_error reports
    name sr meta sub_cmd t authenticated s :
  let m := mm_migration_map (mgr_meta_map (ps_meta s)) in
  let key := mkMigrationTaskMeta name (mkSlotRange (sr_range_list sr) (ClusterMeta.Importing meta)) in
  task_meta_ok text_ok (mkMigrationTaskMeta name (mkSlotRange (sr_range_list sr) (Migrating meta))) →
  (mm_epoch meta ≤ mgr_epoch (ps_meta s))%N → mp_cluster_name m = name → mp_task_map m !! key = Some (inr t) →
  ∃ s', handle_one config atoi_usize crc64 to_rfc3339 mgr_error_debug reply_debug error_text unexpected_reply numkeys_error reports
      (ctx_of (bytes_of <$> gen_switch_arg name sr meta (mgr_sub_cmd_str sub_cmd))) authenticated s =
      Ok (s', authenticated, answer ok_reply) ∧
    mgr_epoch (ps_meta s') = mgr_epoch (ps_meta s) ∧
    mp_task_map (mm_migration_map (mgr_meta_map (ps_meta s'))) =
      <[key := with_state (inr t) match sub_cmd with
                                  | CmdPreCheck => PreCheck
                                  | CmdPreSwitch => PreSwitch
                                  | CmdFinalSwitch => SwitchCommitted
                                  end]> (mp_task_map m).
Proof.
  intros m key Hok He Hn Ht. unfold gen_switch_arg. cbn [app]. rewrite umctl_one, umctl_switch. unfold handle_umctl_mgr_cmd.
  match goal with |- context [ctx_of ?l] => destruct (ctx_of_ok l) as [_ ->] end.
  pose proof (switch_command_print name sr meta sub_cmd Hok) as Hp. unfold gen_switch_arg in Hp. cbn [app] in Hp. rewrite Hp.
  unfold handle_switch. cbn [sa_meta sa_version mtm_slot_range sr_tag sr_range_list mtm_cluster_name].
  rewrite (proj2 (N.ltb_ge _ _) He). unfold map_handle_switch. cbn [sa_meta sa_version mtm_cluster_name].
  fold m key. rewrite bool_decide_eq_true_2, Ht by done. unfold importing_handle_switch. cbn [sa_version].
  rewrite bool_decide_eq_false_2 by naive_solver. cbn. eexists. split; [done|]. cbn. split; [done|]. by destruct sub_cmd.
Qed.

(** A setting that [CONFIG SET] accepts is the one that [CONFIG GET] reports,
    and the other fields keep their values; a setting that is refused changes
    nothing. *)
Lemma config_set_get `{UnicodeCase} config d field value d' r :
  i64_in_range (slowlog_log_slower_than d) → (slowlog_sample_rate d ≤ u64_max)%N → set_value d field value = (d', r) →
  match r with
  | Ok () => (∃ text, get_field config d' field = Ok text ∧
               (parse_i64 text = parse_i64 value ∧ parse_i64 value ≠ None ∨ parse_u64 text = parse_u64 value ∧ parse_u64 value ≠ None)) ∧
             ∀ other, to_lowercase other ≠ to_lowercase field → get_field config d' other = get_field config d other
  | _ => d' = d
  end.
Proof.
  intros Hd Hr. unfold set_value. case_bool_decide as Hro; [by intros [= <- <-]|].
  case_bool_decide as Hf; [|case_bool_decide as Hf2; [|by intros [= <- <-]]].
  - destruct (parse_i64 value) as [z|] eqn:Hz; [|by intros [= <- <-]]. intros [= <- <-]. split.
    + unfold get_field. rewrite Hf. exists (i64_to_string z). split; [done|]. left.
      rewrite parse_i64_to_string by by eapply parse_i64_range. done.
    + intros other Hne. unfold get_field. by repeat case_bool_decide; try congruence.
  - destruct (parse_u64 value) as [n|] eqn:Hz; [|by intros [= <- <-]]. intros [= <- <-]. split.
    + unfold get_field. rewrite Hf2. exists (to_string n). split; [done|]. right.
      rewrite parse_u64_to_string by by eapply parse_u64_le. done.
    + intros other Hne. unfold get_field. by repeat case_bool_decide; try congruence.
Qed.

(** ** Examples *)

From S2P Require Import MultiKey.

Definition demo_executor (password : option string) : ExecutorConfig :=
  mkExecutorConfig (mkServerProxyConfig "a:7000" "a" true None None) "0.0.0.0:7000" 1024 4 2 password V1.
Definition demo_reports : Reports := mkReports 0 0 [] [].
Definition demo_handle_one (password : option string) : CmdCtx → bool → ProxyState → may_panic (ProxyState * bool * program) :=
  @handle_one ascii_case canonical_order binary_codec bitwise_crc16 _ (demo_executor password) (λ _, None) (λ _, 0%N) (λ _ _, None)
    (λ _, "") (λ _, "") (λ _, "") (λ _ _, "") (λ _, "") demo_reports.
Definition demo_proxy : ProxyState := @proxy_new canonical_order 4 (mkDynamicConfig 20000 1).
Definition demo_words (l : list string) : CmdCtx := ctx_of (H := bitwise_crc16) (bytes_of <$> l).

(** A command that is sampled, its reply after a second, and a look at the log. *)
Definition demo_events : list SessionEvent :=
  [Requested 1 10 (demo_words ["SET"; "k"; "v"]);
   Replied 1000000010 (Data (cmd_request (ctx_cmd (demo_words ["SET"; "k"; "v"])))) (slowlog_new 1 true);
   Requested 1 1000000020 (demo_words ["UMCTL"; "SLOWLOG"; "GET"])].

Lemma commands_handled_witness : ∃ s' authenticated ps,
  run_session (H := ascii_case) (H0 := canonical_order) (H1 := binary_codec) (H2 := bitwise_crc16) (demo_executor None)
    (λ _, None) (λ _, 0%N) (λ _ _, None) (λ _, "") (λ _, "") (λ _, "") (λ _ _, "") (λ _, "") demo_reports
    demo_events false demo_proxy = Ok (s', authenticated, ps) ∧
  proxy_ok (H := canonical_order) (demo_executor None) s' ∧ length ps = 2 ∧ Forall concludes ps.
Proof.
  apply (commands_handled (H := ascii_case) (H0 := canonical_order) (H1 := binary_codec) (H2 := bitwise_crc16) (demo_executor None)).
  - apply proxy_new_ok; [split; cbn; lia|done].
  - repeat constructor. vm_compute. discriminate.
Defined.

Lemma password_protects_witness : ∃ j c',
  j < 1 ∧ [demo_words ["AUTH"; "pw"]; demo_words ["GET"; "k"]] !! j = Some c' ∧
  ci_cmd_type (cmd_info (ctx_cmd c')) = TAuth ∧ get_key (ctx_cmd c') = Some (bytes_of "pw").
Proof.
  apply (password_protects (H := ascii_case) (H0 := canonical_order) (H1 := binary_codec) (H2 := bitwise_crc16) (demo_executor (Some "pw"))
    (λ _, None) (λ _, 0%N) (λ _ _, None) (λ _, "") (λ _, "") (λ _, "") (λ _ _, "") (λ _, "") demo_reports
    "pw" [demo_words ["AUTH"; "pw"]; demo_words ["GET"; "k"]] demo_proxy demo_proxy true
    [answer ok_reply; Single (demo_words ["GET"; "k"])] 1 (demo_words ["GET"; "k"]) (Single (demo_words ["GET"; "k"]))).
  - reflexivity.
  - vm_compute. reflexivity.
  - reflexivity.
  - reflexivity.
  - vm_compute. reflexivity.
  - discriminate.
Defined.

Lemma forwarded_command_witness : ∃ c' p,
  wrap_cmd (H := bitwise_crc16) (ctx_cmd (demo_words ["GET"; "k"])) [bytes_of "UMFORWARD"; bytes_of (to_string 3)] = Ok (c', true) ∧
  p = Single (mkCmdCtx (ctx_cmd (demo_words ["GET"; "k"])) (Some 3%N)) ∧
  demo_handle_one (Some "pw") (mkCmdCtx c' None) false demo_proxy = Ok (demo_proxy, false, p).
Proof.
  destruct (forwarded_command (H := ascii_case) (H0 := canonical_order) (H1 := binary_codec) (H2 := bitwise_crc16) (demo_executor (Some "pw"))
    (λ _, None) (λ _, 0%N) (λ _ _, None) (λ _, "") (λ _, "") (λ _, "") (λ _ _, "") (λ _, "") demo_reports
    (ctx_cmd (demo_words ["GET"; "k"])) (Bulk (Str (bytes_of "GET"))) [Bulk (Str (bytes_of "k"))] 3 false demo_proxy)
    as (c' & p & Hw & Hp & Hh).
  - vm_compute. reflexivity.
  - vm_compute. reflexivity.
  - discriminate.
  - exists c', p. split; [exact Hw|]. split; [|exact Hh]. injection Hp as <-. reflexivity.
Defined.

Definition demo_switch_meta : MigrationMeta := mkMigrationMeta 7 "h1:6000" "h1:7000" "h2:6001" "h2:7001".
Definition demo_switch_range (tag : SlotRangeTag) : SlotRange := mkSlotRange [mkRange 233 666] tag.
Definition demo_switch_key : MigrationTaskMeta :=
  mkMigrationTaskMeta "mycluster" (demo_switch_range (ClusterMeta.Importing demo_switch_meta)).
Definition demo_importing : ImportingTask :=
  importing_task_new false demo_switch_meta (demo_switch_range (ClusterMeta.Importing demo_switch_meta)).
Definition demo_destination : ProxyState :=
  set_ps_meta (mkMetaManager 7 (mkMetaMap (@cluster_backend_map_default canonical_order)
    (mkMigrationMap false "mycluster" {[ demo_switch_key := inr demo_importing ]}))) [] demo_proxy.

Lemma switch_handled_witness : ∃ s',
  demo_handle_one None (ctx_of (H := bitwise_crc16) (bytes_of <$>
    gen_switch_arg "mycluster" (demo_switch_range TagNone) demo_switch_meta "FINALSWITCH")) false demo_destination =
    Ok (s', false, answer ok_reply) ∧
  mp_task_map (mm_migration_map (mgr_meta_map (ps_meta s'))) =
    <[demo_switch_key := with_state (inr demo_importing) SwitchCommitted]> {[ demo_switch_key := inr demo_importing ]}.
Proof.
  destruct (switch_handled (H := ascii_case) (H0 := canonical_order) (H1 := binary_codec) (H2 := bitwise_crc16) (demo_executor None)
    (λ _, None) (λ _, 0%N) (λ _ _, None) (λ _, "") (λ _, "") (λ _, "") (λ _ _, "") (λ _, "") demo_reports
    "mycluster" (demo_switch_range TagNone) demo_switch_meta CmdFinalSwitch demo_importing false demo_destination) as (s' & Hh & _ & Ht).
  - destruct demo_control_task_ok as (Hn & Hs & _). split; [exact Hn|]. split; [|by repeat split].
    destruct Hs as [Hl _]. split; [exact Hl|]. vm_compute. discriminate.
  - vm_compute. discriminate.
  - reflexivity.
  - apply lookup_singleton_eq.
  - exists s'. split; [exact Hh|exact Ht].
Defined.
