(* ===== verification/Redirect.v ===== *)
(** * Redirected commands with compression

    With active redirection a proxy that does not own the slot of a command
    sends it to another proxy as [UMFORWARD].  Both proxies run
    [handle_single_key_data_cmd] of [proxy/executor.rs], which compresses the
    value; the reply of the other proxy goes through [ReplyCommitHandler] of
    [proxy/reply.rs], which does not decompress. *)

From S2P Require Import Prelude RangeList RustStr Resp Packet Command ClusterMeta Wire MetaMap Keys Strings.
From S2P Require Import Compress Batch Backend Session DataCmd Executor.

Section redirect.
Context `{UnicodeCase} `{HashOrder} `{Crc16} `{NumberParsers} `{Zstd} `{Redis} `{!Strings}.
Context (config : ExecutorConfig) (error_text : CommandError → string) (unexpected_reply : string → RespVec → string)
  (numkeys_error : bytes → string) (backend_error_text : BackendError → string) (compress_error_text : string).

(** A command of one key that is sent to the proxy of its slot, with [times]
    redirections left, and executed by the Redis of that proxy. *)
Definition redirected (strategy : CompressionStrategy) (times : N) (c : CmdCtx) (m : node) : node * RespVec :=
  match handle_single_key_data_cmd compress_error_text strategy c with
  | inr reply => (m, reply)
  | inl c1 =>
      match wrap_cmd (ctx_cmd c1) [bytes_of "UMFORWARD"; bytes_of (to_string times)] with
      | Ok (w, true) =>
          match handle_umforward config error_text unexpected_reply numkeys_error (mkCmdCtx w None) with
          | Ok (DataCmd.Single c2) =>
              let '(m, r) := proxied backend_error_text compress_error_text strategy c2 m in
              (m, reply_commit backend_error_text c1 (Ok r))
          | Ok (Answer (Ok reply)) => (m, reply_commit backend_error_text c1 (Ok reply))
          | _ => (m, Bulk BulkNil)
          end
      | _ => (m, error_reply "failed to wrap command for redirections")
      end
  end.

(** A command of one key. *)
Definition plain_type (t : DataCmdType) : bool := match t with DSet | DGet => true | _ => false end.

Lemma redirected_sent strategy times c e l m c1 :
  handle_single_key_data_cmd compress_error_text strategy c = inl c1 →
  command_ok (ctx_cmd c1) → cmd_request (ctx_cmd c1) = Arr (Elements (e :: l)) → (times ≤ u64_max)%N →
  plain_type (get_data_cmd_type (ctx_cmd c1)) = true →
  redirected strategy times c m =
    let '(m', r) := proxied backend_error_text compress_error_text strategy (mkCmdCtx (ctx_cmd c1) (Some times)) m in (m', r).
Proof.
  intros Hc1 Hok Hreq Ht Hd. unfold redirected. rewrite Hc1.
  destruct (extract_wrapped (ctx_cmd c1) [bytes_of "UMFORWARD"; bytes_of (to_string times)] e l Hok Hreq) as (w & Hw & _ & Hreq' & He).
  rewrite Hw. unfold handle_umforward, get_sub_command. cbn [ctx_cmd]. rewrite Hreq'. cbn. rewrite number_text.
  rewrite to_uppercase_number, parse_u64_to_string by done.
  change (length [bytes_of "UMFORWARD"; bytes_of (to_string times)]) with 2 in He. rewrite He. cbn [mbind outcome_bind].
  unfold data_cmd, handle_data_cmd. cbn [ctx_cmd]. destruct (get_data_cmd_type (ctx_cmd c1)); try done; by destruct (proxied _ _ _ _ _).
Qed.
End redirect.

Section twice.
Context `{UnicodeCase} `{HashOrder} `{Crc16} `{NumberParsers} `{ZstdLaws} `{RedisLaws} `{!Strings} `{!StringLaws}.
Context (config : ExecutorConfig) (error_text : CommandError → string) (unexpected_reply : string → RespVec → string)
  (numkeys_error : bytes → string) (backend_error_text : BackendError → string) (compress_error_text : string).
Context (strategy : CompressionStrategy) (Hs : strategy ≠ Disabled).

(** The command with its value compressed is a [SET] of the same key. *)
Lemma compressed_set c k v e :
  command_ok (ctx_cmd c) → cmd_request (ctx_cmd c) = set_cmd k v → zstd_encode v = Some e →
  ∃ cmd, handle_single_key_data_cmd compress_error_text strategy c = inl (mkCmdCtx cmd (ctx_redirection_times c)) ∧
    command_ok cmd ∧ cmd_request cmd = set_cmd k e.
Proof.
  intros Hok Hreq He.
  destruct (string_write_value k (set_cmd k) v c (write_set k) Hok Hreq) as (i & l & Hl & Hi & Hchange & Hindex).
  rewrite (compress_value compress_error_text strategy c i l v e Hs (Hindex _) (eq_trans Hreq Hl) Hi He), Hchange.
  eexists. split; [done|]. split; [|done]. clear Hindex. destruct c as [[request info] times]. cbn in *. subst request. revert Hok.
  unfold command_ok, command_new. cbn [cmd_request]. unfold command_info_new.
  assert (∀ b, info_get_key (data_cmd_type_from_packet (set_cmd k b)) (set_cmd k b) = Some k) as Hkey by done.
  rewrite !Hkey, generate_slot_Ok. cbn [mbind outcome_bind]. by intros [= <-].
Qed.

Lemma set_once c k v e m :
  command_ok (ctx_cmd c) → cmd_request (ctx_cmd c) = set_cmd k v → zstd_encode v = Some e →
  ∃ m', proxied backend_error_text compress_error_text strategy c m = (m', OK) ∧
    node_get m' k = Some (string_data e, None).
Proof.
  intros Hok Hreq He. destruct (compressed_set c k v e Hok Hreq He) as (cmd & Hc & _ & Hreq').
  unfold proxied. rewrite Hc. cbn [ctx_cmd]. rewrite Hreq'. destruct (set_law k e) as [Hk Hx].
  destruct (exec_effect _ k m _ _ Hk (Hx _)) as (m' & -> & Hu & _). exists m'. split; [|done].
  by rewrite decompress_plain.
Qed.

Lemma get_once c k b d m t :
  command_ok (ctx_cmd c) → cmd_request (ctx_cmd c) = get_cmd k → node_get m k = Some (string_data b, t) → zstd_decode b = Some d →
  ∃ m', proxied backend_error_text compress_error_text strategy c m = (m', Bulk (Str d)).
Proof.
  intros Hok Hreq Hm Hd. pose proof (command_ok_type _ Hok) as Ht. rewrite Hreq in Ht.
  assert (handle_single_key_data_cmd compress_error_text strategy c = inl c) as Hsend.
  { unfold handle_single_key_data_cmd, try_compressing_cmd_ctx, value_indices. rewrite Ht. by case_bool_decide. }
  unfold proxied. rewrite Hsend, Hreq. destruct (get_law k) as [Hk Hx].
  destruct (exec_effect _ k m _ _ Hk (Hx _)) as (m' & -> & _). exists m'. rewrite Hm. cbn [get_reply]. rewrite string_of_data.
  unfold decompress_commit, decompress. rewrite bool_decide_eq_false_2, Ht by done. change (data_cmd_type_from_packet (get_cmd k)) with DGet.
  cbn. by rewrite Hd.
Qed.
End twice.

(** A redirected value is compressed twice: with compression and active
    redirection, a [SET] that the client sends to a proxy which redirects it
    stores the value compressed twice, and every [GET] afterwards, redirected
    or not, gives the client the compressed bytes instead of the value. *)
Theorem redirected_value_compressed_twice
    `{UnicodeCase} `{HashOrder} `{Crc16} `{NumberParsers} `{ZstdLaws} `{RedisLaws} `{!Strings} `{!StringLaws}
    config error_text unexpected_reply numkeys_error backend_error_text compress_error_text strategy times set get k v once twice m :
  strategy ≠ Disabled → (times ≤ u64_max)%N → zstd_encode v = Some once → zstd_encode once = Some twice →
  command_ok (ctx_cmd set) → cmd_request (ctx_cmd set) = set_cmd k v →
  command_ok (ctx_cmd get) → cmd_request (ctx_cmd get) = get_cmd k →
  ∃ m1 m2 m3,
    redirected config error_text unexpected_reply numkeys_error backend_error_text compress_error_text strategy times set m = (m1, OK) ∧
    node_get m1 k = Some (string_data twice, None) ∧
    redirected config error_text unexpected_reply numkeys_error backend_error_text compress_error_text strategy times get m1 =
      (m2, Bulk (Str once)) ∧
    proxied backend_error_text compress_error_text strategy get m1 = (m3, Bulk (Str once)).
Proof.
  intros Hs Ht Hv Honce Hok Hreq Hokg Hreqg.
  destruct (compressed_set compress_error_text strategy Hs set k v once Hok Hreq Hv) as (cmd & Hc & Hok1 & Hreq1).
  destruct (set_once backend_error_text compress_error_text strategy Hs (mkCmdCtx cmd (Some times)) k once twice m Hok1 Hreq1 Honce)
    as (m1 & Hm1 & Hk).
  pose proof (zstd_roundtrip _ _ Honce) as Hd. pose proof (command_ok_type _ Hokg) as Htype. rewrite Hreqg in Htype.
  destruct (get_once backend_error_text compress_error_text strategy Hs (mkCmdCtx (ctx_cmd get) (Some times)) k twice once m1 None
    Hokg Hreqg Hk Hd) as (m2 & Hm2).
  destruct (get_once backend_error_text compress_error_text strategy Hs get k twice once m1 None Hokg Hreqg Hk Hd) as (m3 & Hm3).
  exists m1, m2, m3. split_and!; [|done| |done].
  - rewrite (redirected_sent _ _ _ _ _ _ _ _ _ _ _ _ _ Hc Hok1 Hreq1 Ht); cbn [ctx_cmd]; [by rewrite Hm1|].
    by rewrite (command_ok_type _ Hok1), Hreq1.
  - erewrite (redirected_sent _ _ _ _ _ _ _ _ _ _ _ _ get); [by rewrite Hm2|..|exact Hokg|exact Hreqg|done|by rewrite Htype].
    unfold handle_single_key_data_cmd, try_compressing_cmd_ctx, value_indices. rewrite Htype. by case_bool_decide.
Qed.

(** ** Example *)

From S2P Require Import MiniRedis MultiKey.

Definition redirect_set : CmdCtx := ctx_of (H := bitwise_crc16) [bytes_of "SET"; bytes_of "k"; bytes_of "v"].
Definition redirect_get : CmdCtx := ctx_of (H := bitwise_crc16) [bytes_of "GET"; bytes_of "k"].
Definition demo_redirected (c : CmdCtx) (m : node) : node * RespVec :=
  redirected (H := ascii_case) (H0 := canonical_order) (H1 := bitwise_crc16) (demo_executor None) (λ _, "") (λ _ _, "") (λ _, "")
    (λ _, "") "" SetGetOnly 3 c m.

(** The client reads the magic number of a frame and the value. *)
Lemma redirected_value_compressed_twice_witness : ∃ m1 m2,
  demo_redirected redirect_set (∅ : node) = (m1, OK) ∧
  demo_redirected redirect_get m1 = (m2, Bulk (Str (zstd_magic ++ bytes_of "v"))).
Proof.
  destruct (redirected_value_compressed_twice (H := ascii_case) (H0 := canonical_order) (H1 := bitwise_crc16) (demo_executor None)
    (λ _, "") (λ _ _, "") (λ _, "") (λ _, "") "" SetGetOnly 3 redirect_set redirect_get (bytes_of "k") (bytes_of "v")
    (zstd_magic ++ bytes_of "v") (zstd_magic ++ zstd_magic ++ bytes_of "v") ∅) as (m1 & m2 & m3 & Hset & _ & Hget & _).
  - discriminate.
  - discriminate.
  - reflexivity.
  - reflexivity.
  - apply (ctx_of_ok (H := bitwise_crc16)).
  - apply (ctx_of_ok (H := bitwise_crc16)).
  - apply (ctx_of_ok (H := bitwise_crc16)).
  - apply (ctx_of_ok (H := bitwise_crc16)).
  - exists m1, m2. split; [exact Hset|exact Hget].
Defined.
