(* ===== verification/Coordinator.v ===== *)
(** * The coordinator

    The loops of [coordinator/core.rs] with the retrievers, the checker and the
    handlers of [detector.rs], [migration.rs], [recover.rs] and [sync.rs]:
    detection of failures, failover, synchronisation of the metadata and commit
    of finished migrations.  A task of the coordinator is a [coord], a program
    of calls to the broker and to the proxies; the tasks of a batch run
    concurrently, and every call may fail. *)

From S2P Require Import Prelude RangeList RustStr Resp Packet Command ClusterMeta Wire MetaMap Keys.
From S2P Require Import Store SlotInv Query Update Broker Reach Api Sync Route Control.
From S2P Require Import Batch Backend Session Slowlog Replicate DataCmd Executor.

(** ** Calls *)

(** The methods of [MetaDataBroker] and [MetaManipulationBroker]
    ([coordinator/broker.rs]), and the two of a Redis client; an error carries
    no information that the coordinator uses. *)
Inductive query : Type → Type :=
| GetClusterNames : query (list (outcome () ClusterName))
| GetCluster (name : ClusterName) : query (outcome () (option Cluster))
| GetProxyAddresses : query (list (outcome () string))
| GetProxy (address : string) : query (outcome () (option Proxy))
| ReportFailure (address reporter_id : string) : query (outcome () ())
| GetFailedReports : query (list (outcome () string))
| GetFailedProxies : query (list (outcome () string))
| ReplaceProxy (failed_proxy_address : string) : query (outcome () (option Proxy))
| CommitTask (meta : MigrationTaskMeta) : query (outcome () ())
| CreateClient (address : string) : query (outcome () ())
| ExecuteSingle (address : string) (command : list bytes) : query (outcome () RespVec).

Inductive coord (A : Type) : Type :=
| CRet (a : A)
| CCall (X : Type) (q : query X) (k : X → coord A).
Arguments CRet {A} _.
Arguments CCall {A X} _ _.

Fixpoint coord_bind {A B} (f : A → coord B) (m : coord A) : coord B :=
  match m with CRet a => f a | CCall q k => CCall q (λ x, coord_bind f (k x)) end.
#[export] Instance coord_ret : MRet coord := λ A, CRet.
#[export] Instance coord_mbind : MBind coord := λ A B, coord_bind.

Definition call {X} (q : query X) : coord X := CCall q CRet.

(** A computation with errors, its composition with [?], and [map_err]. *)
Abbreviation fallible A := (coord (outcome CoordinateError A)).
Definition and_then {A B} (m : fallible A) (f : A → fallible B) : fallible B :=
  r ← m;
  match r with Ok a => f a | Err e => CRet (Err e) | Panic => CRet Panic end.
Definition map_err {E A} (e : CoordinateError) (m : coord (outcome E A)) : fallible A :=
  r ← m;
  CRet match r with Ok a => Ok a | Err _ => Err e | Panic => Panic end.

Declare Scope coord_scope.
Notation "x <~ m ; f" := (and_then m (λ x, f)) (at level 20, m at level 100, f at level 200, right associativity) : coord_scope.
Open Scope coord_scope.

(** ** Retrievers ([detector.rs], [recover.rs]) *)

Definition oks {E A} (l : list (outcome E A)) : list A := omap (λ r, match r with Ok a => Some a | _ => None end) l.
Definition coordinate_errors {E A} (e : CoordinateError) (l : list (outcome E A)) : list (outcome CoordinateError A) :=
  (λ r, match r with Ok a => Ok a | Err _ => Err e | Panic => Panic end) <$> l.

(** [BrokerProxiesRetriever::retrieve_proxies_impl]. *)
Definition not_in (s : gset string) (r : outcome () string) : Prop := match r with Ok addr => addr ∉ s | _ => True end.
#[global] Instance not_in_dec s r : Decision (not_in s r).
Proof. destruct r; apply _. Defined.

Definition retrieve_proxies_impl : coord (list (outcome CoordinateError string)) :=
  failed ← call GetFailedProxies;
  addresses ← call GetProxyAddresses;
  mret (coordinate_errors MetaData (filter (not_in (list_to_set (oks failed))) addresses)).

(** [BrokerOrderedProxiesRetriever]. *)
Section ordered.
(** [sort_unstable_by] with the comparison below, and the chunks of
    [chunks_timeout]. *)
Context (sort_nodes : list Node → list Node) (chunks_timeout : ∀ A, nat → list A → list (list A)).

Definition get_free_proxies (added_tag : gset string) : coord (list (outcome CoordinateError string)) :=
  failed ← call GetFailedProxies;
  addresses ← call GetProxyAddresses;
  mret (coordinate_errors MetaData (filter (not_in (added_tag ∪ list_to_set (oks failed))) addresses)).

(** The loop over the nodes of a cluster. *)
Fixpoint add_nodes (nodes : list Node) (st : list (outcome CoordinateError string) * gset string) :
    list (outcome CoordinateError string) * gset string :=
  match nodes with
  | [] => st
  | node :: nodes =>
      add_nodes nodes
        (if bool_decide (node_proxy_address node ∈ st.2) then st
         else (st.1 ++ [Ok (node_proxy_address node)], {[ node_proxy_address node ]} ∪ st.2))
  end.

Definition add_cluster_nodes (st : list (outcome CoordinateError string) * gset string) (r : outcome CoordinateError (option Cluster)) :
    list (outcome CoordinateError string) * gset string :=
  match r with
  | Ok (Some cluster) => add_nodes (sort_nodes (cluster_nodes cluster)) st
  | Ok None => st
  | Err err => (st.1 ++ [Err err], st.2)
  | Panic => st
  end.

Fixpoint get_clusters (names : list ClusterName) : coord (list (outcome CoordinateError (option Cluster))) :=
  match names with
  | [] => mret []
  | name :: names =>
      r ← map_err MetaData (call (GetCluster name));
      rs ← get_clusters names;
      mret (r :: rs)
  end.

Definition name_errors (results : list (outcome () ClusterName)) : list (outcome CoordinateError string) :=
  omap (λ r, match r with Err _ => Some (Err MetaData) | _ => None end) results.

Fixpoint add_chunks (chunks : list (list (outcome () ClusterName))) (st : list (outcome CoordinateError string) * gset string) :
    coord (list (outcome CoordinateError string) * gset string) :=
  match chunks with
  | [] => mret st
  | results :: chunks =>
      clusters ← get_clusters (oks results);
      add_chunks chunks (foldl add_cluster_nodes (st.1 ++ name_errors results, st.2) clusters)
  end.

Definition get_all_cluster_ordered_proxies : coord (list (outcome CoordinateError string) * gset string) :=
  names ← call GetClusterNames;
  add_chunks (chunks_timeout _ 10 names) ([], ∅).

Definition get_ordered_proxies : coord (list (outcome CoordinateError string)) :=
  '(results, added_tag) ← get_all_cluster_ordered_proxies;
  free_results ← get_free_proxies added_tag;
  mret (results ++ free_results).
End ordered.

(** The comparison of two nodes. *)
Definition has_importing (n : Node) : bool := existsb (λ sr, tag_is_importing (sr_tag sr)) (node_slots n).
Definition compare_nodes (a b : Node) : comparison :=
  if has_importing a then Lt
  else if has_importing b then Gt
  else if bool_decide (node_slots a = []) then Lt
  else if bool_decide (node_slots b = []) then Gt
  else Eq.

(** ** Failure detection and failover *)

Definition PING : list bytes := [bytes_of "PING"].

(** [PingFailureDetector::ping] and [check_impl]. *)
Definition ping (address : string) : fallible (option string) :=
  client ← call (CreateClient address);
  match client with
  | Ok () =>
      r ← call (ExecuteSingle address PING);
      mret match r with Ok _ => Ok None | _ => Err CoordRedis end
  | _ => mret (Ok (Some address))
  end.

Definition RETRY : nat := 3.

(** The loop [for i in 1..=RETRY], with [n] rounds left. *)
Fixpoint check_rounds (n : nat) (address : string) : fallible (option string) :=
  match n with
  | 0 => mret (Ok (Some address))
  | S n =>
      r ← ping address;
      match r with
      | Ok None => mret (Ok None)
      | _ => if bool_decide (n = 0) then mret (Ok (Some address)) else check_rounds n address
      end
  end.
Definition check_impl (address : string) : fallible (option string) := check_rounds RETRY address.

(** [ParFailureDetector::check_and_report] with [BrokerFailureReporter]. *)
Definition check_and_report (reporter_id address : string) : fallible () :=
  r <~ check_impl address;
  match r with
  | Some addr => map_err MetaData (call (ReportFailure addr reporter_id))
  | None => mret (Ok ())
  end.

(** [ReplaceNodeHandler::handle_proxy_failure], as [ParFailureHandler] runs it:
    its errors are dropped. *)
Definition handle_proxy_failure (proxy_failure : string) : fallible () :=
  _ <~ map_err MetaMani (call (ReplaceProxy proxy_failure)); mret (Ok ()).
Definition handle_failure (proxy_address : string) : fallible () :=
  r ← handle_proxy_failure proxy_address;
  mret match r with Panic => Panic | _ => Ok () end.

(** ** Metadata ([sync.rs], [core.rs]) *)

Section sync.
Context `{HashOrder} `{MetaCodec} (enable_compression : bool).

(** [send_meta]: one command and its reply. *)
Definition send_meta (address sub_command : string) (args : list string) : fallible () :=
  resp <~ map_err CoordRedis (call (ExecuteSingle address (meta_command sub_command args)));
  mret (send_meta_reply resp).

(** [ProxyMetaRespSender::send_meta_impl]. *)
Definition send_proxy_meta (p : Proxy) : fallible () :=
  _ <~ map_err CoordRedis (call (CreateClient (proxy_address p)));
  _ <~ send_meta (proxy_address p) "SETREPL" (generate_repl_meta_cmd_args p (mkFlags false false));
  match generate_proxy_meta_cmd_args (mkFlags false enable_compression) (filter_proxy_masters p) with
  | Ok args => send_meta (proxy_address p) "SETCLUSTER" args
  | Err _ => mret (Err CompressionError)
  | Panic => mret Panic
  end.

(** [ProxyMetaRespSynchronizer::retrieve_and_send_meta]. *)
Definition retrieve_and_send_meta (address : string) : fallible () :=
  proxy_opt <~ map_err MetaData (call (GetProxy address));
  match proxy_opt with
  | Some proxy => send_proxy_meta proxy
  | None => mret (Ok ())
  end.

(** [ParMigrationStateSynchronizer]. *)
Definition set_cluster_meta (address : string) : fallible () :=
  proxy_opt <~ map_err MetaData (call (GetProxy address));
  match proxy_opt with
  | Some proxy => send_proxy_meta proxy
  | None => mret (Ok ())
  end.

Definition sync_migration_state (meta : MigrationTaskMeta) : fallible () :=
  match get_migration_meta (sr_tag (mtm_slot_range meta)) with
  | None => mret (Ok ())
  | Some migration_meta =>
      _ <~ map_err MetaMani (call (CommitTask meta));
      _ <~ set_cluster_meta (mm_dst_proxy_address migration_meta);
      _ <~ set_cluster_meta (mm_src_proxy_address migration_meta);
      mret (Ok ())
  end.

(** [MigrationStateRespChecker::check_impl] and [check_and_sync]. *)
Definition check_finished `{UnicodeCase} (address : string) : fallible (list MigrationTaskMeta) :=
  _ <~ map_err CoordRedis (call (CreateClient address));
  info_mgr_reply <~ map_err CoordRedis (call (ExecuteSingle address (bytes_of <$> ["UMCTL"; "INFOMGR"])));
  mret match check_reply info_mgr_reply with Some metadata => Ok metadata | None => Err InvalidReply end.

Fixpoint sync_all (metas : list MigrationTaskMeta) : fallible () :=
  match metas with
  | [] => mret (Ok ())
  | meta :: metas => _ <~ sync_migration_state meta; sync_all metas
  end.
Definition check_and_sync `{UnicodeCase} (address : string) : fallible () :=
  metas <~ check_finished address; sync_all metas.
End sync.

(** ** The broker and the proxies *)

(** A proxy with its configuration, its state and its connections to Redis. *)
Record live : Type := mkLive { lv_config : ExecutorConfig; lv_state : ProxyState; lv_senders : Senders }.
Record World : Type := mkWorld { w_store : MetaStore; w_proxies : gmap string live }.

Section world.
Context `{UnicodeCase} `{HashOrder} `{MetaCodec} `{Crc16} `{NumberParsers}.
Context (atoi_usize : bytes → option N) (crc64 : bytes → N) (to_rfc3339 : Z → Z → option bytes).
Context (mgr_error_debug : MigrationError → string) (reply_debug : RespVec → string).
Context (error_text : CommandError → string) (unexpected_reply : string → RespVec → string) (numkeys_error : bytes → string).
Context (reports : Reports).
(** The configuration of the broker. *)
Context (migration_limit : N) (clear_free_nodes : bool).

(** A command on a new connection to a proxy. *)
Definition deliver (lv : live) (command : list bytes) : live * RespVec :=
  match handle_one (lv_config lv) atoi_usize crc64 to_rfc3339 mgr_error_debug reply_debug error_text unexpected_reply numkeys_error
          reports (ctx_of command) false (lv_state lv) with
  | Ok (s', _, Answer (Ok resp)) => (mkLive (lv_config lv) s' (lv_senders lv), resp)
  | _ => (lv, Error [])
  end.

(** A read of the broker: it may fail.  A list may be cut short, because the
    pages after a failed one are not asked for. *)
Definition reads {A} (v : A) (x : outcome () A) : Prop := x = Err () ∨ x = Ok v.
Definition lists {A} (l : list A) (x : list (outcome () A)) : Prop := ∃ n, x = Ok <$> take n l.
(** A list that is one answer. *)
Definition lists_at_once {A} (l : list A) (x : list (outcome () A)) : Prop := x = [Err ()] ∨ x = Ok <$> l.

(** A change of the broker: the request or the reply may be lost. *)
Definition changes {A} (m : SM A) (w : World) (x : outcome () A) (w' : World) : Prop :=
  let '(s', r) := m (w_store w) in
  (x = Err () ∧ (w' = w ∨ w' = mkWorld s' (w_proxies w))) ∨
  (∃ a, r = Ok a ∧ x = Ok a ∧ w' = mkWorld s' (w_proxies w)).

(** The commit of a task that is not found is none that failed. *)
Definition commit_task (meta : MigrationTaskMeta) : SM () := λ s,
  let '(s', r) := exec (CommitMigration meta clear_free_nodes) s in
  (s', match r with Err e => if (status_code e =? 404)%N then Ok () else Err e | _ => r end).

Definition serve {X} (q : query X) (w : World) : X → World → Prop :=
  match q in query X return X → World → Prop with
  | GetClusterNames => λ x w', w' = w ∧ lists (get_cluster_names (w_store w)) x
  | GetCluster name => λ x w', w' = w ∧
      match get_cluster_by_name (w_store w) name migration_limit with Ok o => reads o x | _ => x = Err () end
  | GetProxyAddresses => λ x w', w' = w ∧ lists (get_proxies (w_store w)) x
  | GetProxy address => λ x w', w' = w ∧
      match get_proxy_by_address (w_store w) address migration_limit with Ok o => reads o x | _ => x = Err () end
  | ReportFailure address reporter_id => λ x w', ∃ now, changes (exec (AddFailure now address reporter_id)) w x w'
  | GetFailedReports => λ x w', w' = w ∧ x = [Err ()] ∨ ∃ fresh quorum,
      w' = mkWorld (get_failures fresh quorum (w_store w)).1 (w_proxies w) ∧ lists_at_once (get_failures fresh quorum (w_store w)).2 x
  | GetFailedProxies => λ x w', w' = w ∧ lists_at_once (get_failed_proxies (w_store w)) x
  | ReplaceProxy failed_proxy_address => λ x w', changes (replace_failed_proxy failed_proxy_address migration_limit) w x w'
  | CommitTask meta => λ x w', changes (commit_task meta) w x w'
  | CreateClient address => λ x w', w' = w ∧ (x = Err () ∨ x = Ok () ∧ is_Some (w_proxies w !! address))
  | ExecuteSingle address command => λ x w',
      match w_proxies w !! address with
      | None => w' = w ∧ x = Err ()
      | Some lv =>
          let '(lv', resp) := deliver lv command in
          let w1 := mkWorld (w_store w) (<[address := lv']> (w_proxies w)) in
          (x = Ok resp ∧ w' = w1) ∨ (x = Err () ∧ (w' = w ∨ w' = w1))
      end
  end.

(** Tasks that run at the same time: one of them makes its next call, or
    something else happens in the world. *)
Context (other : World → World → Prop).

Inductive pool_step {A} : list (coord A) * World → list (coord A) * World → Prop :=
| pool_call ts w i X (q : query X) k x w' :
    ts !! i = Some (CCall q k) → serve q w x w' → pool_step (ts, w) (<[i := k x]> ts, w')
| pool_other ts w w' : other w w' → pool_step (ts, w) (ts, w').

(** [join_all]. *)
Definition join_all {A} (ts : list (coord A)) (w : World) (results : list A) (w' : World) : Prop :=
  rtc pool_step (ts, w) (CRet <$> results, w').

(** The loops of [run_impl]: the items come in chunks, the tasks of a chunk
    run together, and the last error is the result. *)
Definition last_error (res : outcome CoordinateError ()) (rs : list (outcome CoordinateError ())) : outcome CoordinateError () :=
  foldl (λ res r, match r with Err err => Err err | _ => res end) res rs.
Definition item_errors {A} (items : list (outcome CoordinateError A)) : list (outcome CoordinateError ()) :=
  (λ r, match r with Err err => Err err | _ => Ok () end) <$> items.

Inductive batches (task : string → fallible ()) :
    list (list (outcome CoordinateError string)) → outcome CoordinateError () → World → outcome CoordinateError () → World → Prop :=
| batches_nil res w : batches task [] res w res w
| batches_chunk chunk chunks res w results w1 res' w2 :
    join_all (task <$> oks chunk) w results w1 →
    batches task chunks (last_error (last_error res (item_errors chunk)) results) w1 res' w2 →
    batches task (chunk :: chunks) res w res' w2.
End world.
