(* ===== verification/Detect.v ===== *)
(** * The tasks of the coordinator, call by call

    A task of [Coordinator] against answers that may depend on everything it
    has asked before: when a proxy is reported as failed, the order in which
    the ends of a finished migration are told, and which proxies a round
    visits. *)

From S2P Require Import Prelude RangeList RustStr Resp Packet Command ClusterMeta Wire MetaMap Keys.
From S2P Require Import Store SlotInv Query Registry Update Broker Reach Lifecycle Sync Control Executor Coordinator.

(** ** Runs *)

Inductive event : Type :=
| Event (X : Type) (q : query X) (x : X).
Arguments Event {X} _ _.

(** The answers to a task, given the calls so far. *)
Definition oracle : Type := ∀ X, list event → query X → X.

Fixpoint run {A} (answer : oracle) (m : coord A) (past : list event) : list event * A :=
  match m with
  | CRet a => ([], a)
  | CCall q k =>
      let e := Event q (answer _ past q) in
      let '(es, a) := run answer (k (answer _ past q)) (past ++ [e]) in
      (e :: es, a)
  end.

Lemma run_bind {A B} answer (m : coord A) (f : A → coord B) past :
  run answer (m ≫= f) past =
  let '(es1, a) := run answer m past in
  let '(es2, b) := run answer (f a) (past ++ es1) in (es1 ++ es2, b).
Proof.
  change (m ≫= f) with (coord_bind f m). revert past.
  induction m as [a|X q k IH]; intros past; cbn [coord_bind run].
  - rewrite app_nil_r. by destruct (run answer (f a) past).
  - rewrite IH. destruct (run answer (k _) _) as [es1 a]. rewrite <- app_assoc. cbn [app].
    by destruct (run answer (f a) _).
Qed.

(** The calls of a composition: those of the first part, and, if it
    succeeds, those of the second. *)
Lemma run_and_then {A B} answer (m : fallible A) (f : A → fallible B) past :
  run answer (and_then m f) past =
  let '(es1, r) := run answer m past in
  match r with
  | Ok a => let '(es2, b) := run answer (f a) (past ++ es1) in (es1 ++ es2, b)
  | Err e => (es1, Err e)
  | Panic => (es1, Panic)
  end.
Proof.
  unfold and_then. rewrite run_bind. destruct (run answer m past) as [es1 [a|e|]]; [done|cbn; by rewrite app_nil_r..].
Qed.

Lemma run_map_err_call {E X} answer e (q : query (outcome E X)) past :
  run answer (map_err e (call q)) past =
  ([Event q (answer _ past q)],
   match answer _ past q with Ok a => Ok a | Err _ => Err e | Panic => Panic end).
Proof. done. Qed.

(** What a call was. *)
Definition is_connect (e : event) : Prop := match e with Event q _ => match q with CreateClient _ => True | _ => False end end.
#[global] Instance is_connect_dec e : Decision (is_connect e).
Proof. destruct e as [X q x]. destruct q; apply _. Defined.
Definition is_report (e : event) : Prop := match e with Event q _ => match q with ReportFailure _ _ => True | _ => False end end.
Definition command_to (e : event) : option string :=
  match e with Event q _ => match q with ExecuteSingle a _ => Some a | _ => None end end.
(** A command that got a reply. *)
Definition is_reply (e : event) : Prop :=
  match e with
  | Event q x =>
      match q in query X return X → Prop with
      | ExecuteSingle _ _ => λ r, match r with Ok _ => True | _ => False end
      | _ => λ _, False
      end x
  end.

(** ** Failure detection *)

Section detection.
Context (answer : oracle) (reporter_id address : string).

(** One attempt: a connection, and a reply exactly if the attempt succeeds. *)
Lemma ping_run past :
  ∃ es r, run answer (ping address) past = (es, r) ∧ length (filter is_connect es) = 1 ∧
    Forall (λ e, ¬ is_report e) es ∧ (r = Ok None ↔ Exists is_reply es).
Proof.
  unfold ping, call. cbn [mbind coord_mbind coord_bind run]. set (x := answer _ past (CreateClient address)).
  destruct x as [[]|e|].
  - cbn [coord_bind run]. set (y := answer _ _ (ExecuteSingle address PING)).
    eexists _, _. split; [reflexivity|]. split; [done|]. split; [repeat (apply Forall_cons_2; [intros []|]); apply Forall_nil_2|].
    destruct y as [resp|e|]; (split; [intros ?; try discriminate|intros Hr; try done]).
    + right. left. done.
    + apply Exists_cons in Hr as [Hr|[Hr|Hr%Exists_nil]%Exists_cons]; done.
    + apply Exists_cons in Hr as [Hr|[Hr|Hr%Exists_nil]%Exists_cons]; done.
  - eexists _, _. split; [reflexivity|]. split; [done|]. split; [repeat (apply Forall_cons_2; [intros []|]); apply Forall_nil_2|]. split; [done|].
    by intros [Hr|Hr%Exists_nil]%Exists_cons.
  - eexists _, _. split; [reflexivity|]. split; [done|]. split; [repeat (apply Forall_cons_2; [intros []|]); apply Forall_nil_2|]. split; [done|].
    by intros [Hr|Hr%Exists_nil]%Exists_cons.
Qed.

Lemma check_rounds_S n :
  check_rounds (S n) address =
  r ← ping address;
  match r with
  | Ok None => mret (Ok None)
  | _ => if bool_decide (n = 0) then mret (Ok (Some address)) else check_rounds n address
  end.
Proof. done. Qed.

Lemma check_rounds_run n past :
  ∃ es r, run answer (check_rounds (S n) address) past = (es, Ok r) ∧ Forall (λ e, ¬ is_report e) es ∧
    1 ≤ length (filter is_connect es) ≤ S n ∧
    ((r = None ∧ Exists is_reply es) ∨ (r = Some address ∧ ¬ Exists is_reply es ∧ length (filter is_connect es) = S n)).
Proof.
  revert past. induction n as [|n IH]; intros past; rewrite check_rounds_S, run_bind;
    destruct (ping_run past) as (es1 & r1 & -> & Hc1 & Hrep1 & Hr1).
  - assert (r1 = Ok None ∨ r1 ≠ Ok None) as [->|Hne] by (destruct r1 as [[?|]|?|]; auto).
    + cbn. rewrite app_nil_r. eexists es1, None. split; [done|]. split; [done|]. split; [lia|]. left. split; [done|by apply Hr1].
    + eexists es1, (Some address). split; [destruct r1 as [[?|]|?|]; [|done|..]; rewrite bool_decide_true by done; cbn; by rewrite app_nil_r|]. split; [done|]. split; [lia|].
      right. split; [done|]. by rewrite <- Hr1.
  - assert (r1 = Ok None ∨ r1 ≠ Ok None) as [->|Hne] by (destruct r1 as [[?|]|?|]; auto).
    + cbn. rewrite app_nil_r. eexists es1, None. split; [done|]. split; [done|]. split; [lia|]. left. split; [done|by apply Hr1].
    + destruct (IH (past ++ es1)) as (es2 & r2 & Hrun & Hrep2 & Hc2 & Hr2). exists (es1 ++ es2), r2.
      split.
      { destruct r1 as [[?|]|?|]; [|done|..]; rewrite bool_decide_false by done; by rewrite Hrun. }
      rewrite filter_app, length_app, Exists_app. split; [by apply Forall_app_2|]. split; [lia|].
      assert (¬ Exists is_reply es1) as Hno by by rewrite <- Hr1.
      destruct Hr2 as [[-> ?]|(-> & ? & ?)]; [left; auto|right]. split; [done|]. split; [tauto|lia].
Qed.
End detection.

(** ** The ends of a migration *)

Section commit.
Context `{HashOrder} `{MetaCodec} (enable_compression : bool) (answer : oracle).

(** A task that sends commands to one proxy only. *)
Definition only_to (a : string) (es : list event) : Prop := Forall (λ e, command_to e = None ∨ command_to e = Some a) es.

(** The proxy has answered its metadata with OK, or with OLD_EPOCH, which
    [send_meta] takes for success. *)
Definition accepted (p : Proxy) (es : list event) : Prop :=
  ∃ args resp, generate_proxy_meta_cmd_args (mkFlags false enable_compression) (filter_proxy_masters p) = Ok args ∧
    Event (ExecuteSingle (proxy_address p) (meta_command "SETCLUSTER" args)) (Ok resp) ∈ es ∧ send_meta_reply resp = Ok ().
(** This, or the broker has answered that it knows no such proxy, when
    [set_cluster_meta] sends nothing. *)
Definition told (a : string) (es : list event) : Prop :=
  Event (GetProxy a) (Ok None) ∈ es ∨ ∃ p, Event (GetProxy a) (Ok (Some p)) ∈ es ∧ accepted p es.

Lemma told_mono a es es' : es ⊆ es' → told a es → told a es'.
Proof.
  intros Hs [?|(p & ? & args & resp & ? & ? & ?)]; [left; by apply Hs|right]. exists p. split; [by apply Hs|]. exists args, resp. auto.
Qed.

Lemma send_meta_run a sub_command args past :
  ∃ x, run answer (send_meta a sub_command args) past =
    ([Event (ExecuteSingle a (meta_command sub_command args)) x],
     match x with Ok resp => send_meta_reply resp | Err _ => Err CoordRedis | Panic => Panic end).
Proof.
  exists (answer _ past (ExecuteSingle a (meta_command sub_command args))).
  unfold send_meta. rewrite run_and_then, run_map_err_call. by destruct (answer _ past _).
Qed.

Lemma send_proxy_meta_run p past :
  ∃ es r, run answer (send_proxy_meta enable_compression p) past = (es, r) ∧ only_to (proxy_address p) es ∧
    (r = Ok () → accepted p es).
Proof.
  unfold send_proxy_meta. rewrite run_and_then, run_map_err_call.
  assert (∀ X (q : query X) x, match q with ExecuteSingle a _ => a = proxy_address p | _ => True end →
    command_to (Event q x) = None ∨ command_to (Event q x) = Some (proxy_address p)) as Hone by (intros X q x; destruct q; cbn; naive_solver).
  destruct (answer _ past _) as [[]|e|]; [|eexists _, _; split; [reflexivity|]; split; [by repeat constructor; apply Hone|done]..].
  rewrite run_and_then. destruct (send_meta_run (proxy_address p) "SETREPL" (generate_repl_meta_cmd_args p (mkFlags false false))
    (past ++ [Event (CreateClient (proxy_address p)) (Ok ())])) as [x ->].
  destruct (match x with Ok _ => _ | _ => _ end) as [[]|e|];
    [|eexists _, _; split; [reflexivity|]; split; [by repeat constructor; apply Hone|done]..].
  destruct (generate_proxy_meta_cmd_args _ _) as [args|e|] eqn:Hargs;
    [|eexists _, _; split; [reflexivity|]; split; [by repeat constructor; apply Hone|done]..].
  match goal with |- context [run answer (send_meta _ _ args) ?pst] => destruct (send_meta_run (proxy_address p) "SETCLUSTER" args pst) as [y ->] end.
  eexists _, _. split; [reflexivity|]. split; [by repeat constructor; apply Hone|].
  destruct y as [resp|e|]; [|done..]. intros Hr. exists args, resp. split; [done|]. split; [|done]. cbn. set_solver.
Qed.

Lemma set_cluster_meta_run a past :
  (∀ past p, answer _ past (GetProxy a) = Ok (Some p) → proxy_address p = a) →
  ∃ es r, run answer (set_cluster_meta enable_compression a) past = (es, r) ∧ only_to a es ∧ (r = Ok () → told a es).
Proof.
  intros Ha. unfold set_cluster_meta. rewrite run_and_then, run_map_err_call.
  destruct (answer _ past (GetProxy a)) as [[p|]|e|] eqn:Hp.
  - destruct (send_proxy_meta_run p (past ++ [Event (GetProxy a) (Ok (Some p))])) as (es & r & -> & Hto & Hacc).
    eexists _, _. split; [reflexivity|]. rewrite (Ha _ _ Hp) in Hto. split; [constructor; [by left|done]|].
    intros Hr. right. exists p. split; [apply list_elem_of_here|]. destruct (Hacc Hr) as (args & resp & Hargs & He & Hok).
    exists args, resp. split; [done|]. split; [by apply list_elem_of_further|done].
  - eexists _, _. split; [reflexivity|]. split; [by repeat constructor|]. intros _. left. apply list_elem_of_here.
  - eexists _, _. split; [reflexivity|]. split; [by repeat constructor|done].
  - eexists _, _. split; [reflexivity|]. split; [by repeat constructor|done].
Qed.
End commit.

(** ** The proxies of a round *)

(** A broker that answers every read from the store [s]. *)
Definition broker_answers `{HashOrder} (s : MetaStore) (limit : N) : oracle := λ X past q,
  match q in query X return X with
  | GetClusterNames => Ok <$> get_cluster_names s
  | GetCluster name => match get_cluster_by_name s name limit with Ok o => Ok o | _ => Err () end
  | GetProxyAddresses => Ok <$> get_proxies s
  | GetProxy address => match get_proxy_by_address s address limit with Ok o => Ok o | _ => Err () end
  | GetFailedProxies => Ok <$> get_failed_proxies s
  | GetFailedReports => []
  | ReportFailure _ _ | ReplaceProxy _ | CommitTask _ | CreateClient _ | ExecuteSingle _ _ => Err ()
  end.

Lemma oks_Ok {E A} (l : list A) : oks (Ok (E := E) <$> l) = l.
Proof. unfold oks. induction l as [|a l IH]; cbn; [done|]. f_equal. exact IH. Qed.

(** The list so far: addresses without an error, none twice, those that are
    marked. *)
Definition listed (st : list (outcome CoordinateError string) * gset string) (P : string → Prop) : Prop :=
  ∃ l, st.1 = Ok <$> l ∧ NoDup l ∧ (∀ a, a ∈ l ↔ a ∈ st.2) ∧ ∀ a, a ∈ l ↔ P a.

Lemma add_nodes_listed nodes : ∀ st P,
  listed st P → listed (add_nodes nodes st) (λ a, P a ∨ a ∈ node_proxy_address <$> nodes).
Proof.
  induction nodes as [|n nodes IH]; intros [res tag] P Hst; cbn [add_nodes].
  - destruct Hst as (l & ? & ? & ? & HP). exists l. split_and!; try done. intros a. rewrite HP. set_solver.
  - destruct Hst as (l & Hl & Hnd & Htag & HP). cbn [fst snd] in *. case_bool_decide as Hin.
    + destruct (IH (res, tag) (λ a, P a ∨ a = node_proxy_address n)) as (l' & ? & ? & ? & HP').
      * exists l. split_and!; try done. intros a. rewrite HP. split; [auto|]. intros [?| ->]; [done|]. by apply HP, Htag.
      * exists l'. split_and!; try done. intros a. rewrite HP'. set_solver.
    + destruct (IH (res ++ [Ok (node_proxy_address n)], {[node_proxy_address n]} ∪ tag) (λ a, P a ∨ a = node_proxy_address n))
        as (l' & ? & ? & ? & HP').
      * exists (l ++ [node_proxy_address n]). cbn [fst snd]. rewrite fmap_app, Hl. split; [done|]. split.
        { apply NoDup_app. split; [done|]. split; [|apply NoDup_singleton]. intros a Ha ->%list_elem_of_singleton. by apply Hin, Htag. }
        split; intros a; rewrite elem_of_app, list_elem_of_singleton; [rewrite Htag; set_solver|by rewrite HP].
      * exists l'. split_and!; try done. intros a. rewrite HP'. set_solver.
Qed.

Section proxies.
Context `{HashOrder} (s : MetaStore) (limit : N).
Context (sort_nodes : list Node → list Node) (chunks_timeout : ∀ A, nat → list A → list (list A)).
Hypothesis Hwf : store_wf s.
Hypothesis Hnames : ∀ name cs, clusters s !! name = Some cs → cluster_name_try_from name = Some name.
Hypothesis Hsort : ∀ l, sort_nodes l ≡ₚ l.
Hypothesis Hchunks : ∀ A n (l : list A), mjoin (chunks_timeout A n l) = l.

Definition shown_cluster (name : ClusterName) : outcome CoordinateError (option Cluster) :=
  match get_cluster_by_name s name limit with Ok o => Ok o | _ => Err MetaData end.

Lemma get_clusters_run names past :
  ∃ es, run (broker_answers s limit) (get_clusters names) past = (es, shown_cluster <$> names).
Proof.
  revert past. induction names as [|name names IH]; intros past; cbn [get_clusters]; [by exists []|].
  rewrite run_bind, run_map_err_call, run_bind. match goal with |- context [run _ (get_clusters names) ?p] => destruct (IH p) as [es ->] end.
  eexists. cbn. f_equal. f_equal. unfold shown_cluster. by destruct (get_cluster_by_name s name limit).
Qed.

(** The addresses of a cluster. *)
Definition of_cluster (name : ClusterName) (a : string) : Prop :=
  ∃ cs, clusters s !! name = Some cs ∧ a ∈ chunk_addresses (cs_chunks cs).

Lemma shown_cluster_listed name st P :
  is_Some (clusters s !! name) → listed st P →
  listed (add_cluster_nodes sort_nodes st (shown_cluster name)) (λ a, P a ∨ of_cluster name a).
Proof.
  intros [cs Hcs] Hst. unfold shown_cluster.
  destruct (get_cluster_by_name_Ok s name name cs limit Hwf (Hnames _ _ Hcs) Hcs) as (cs' & ns & Hlim & Hwf' & -> & Hv). cbn.
  destruct (add_nodes_listed (sort_nodes ns) st P Hst) as (l & ? & ? & ? & HP). exists l. split_and!; try done.
  intros a. rewrite HP, Hsort, (view_proxies _ _ a Hv), layout_addresses.
  destruct (limit_migration_spec cs limit (wf_slots _ Hwf _ _ Hcs)) as (cs1 & Hl1 & _ & Hfr & _).
  rewrite Hlim in Hl1. injection Hl1 as <-. rewrite (frames_addresses _ _ Hfr). unfold of_cluster. rewrite Hcs. naive_solver.
Qed.

Lemma shown_clusters_listed names : ∀ st P,
  (∀ name, name ∈ names → is_Some (clusters s !! name)) → listed st P →
  listed (foldl (add_cluster_nodes sort_nodes) st (shown_cluster <$> names)) (λ a, P a ∨ ∃ name, name ∈ names ∧ of_cluster name a).
Proof.
  induction names as [|name names IH]; intros st P Hn Hst; cbn.
  - destruct Hst as (l & ? & ? & ? & HP). exists l. split_and!; try done. intros a. rewrite HP. set_solver.
  - destruct (IH _ _ ltac:(set_solver) (shown_cluster_listed name st P ltac:(set_solver) Hst)) as (l & ? & ? & ? & HP).
    exists l. split_and!; try done. intros a. rewrite HP. set_solver.
Qed.

Lemma add_chunks_listed chunks : ∀ st P past,
  (∀ name, name ∈ mjoin chunks → is_Some (clusters s !! name)) → listed st P →
  ∃ es st', run (broker_answers s limit) (add_chunks sort_nodes ((λ c, Ok <$> c) <$> chunks) st) past = (es, st') ∧
    listed st' (λ a, P a ∨ ∃ name, name ∈ mjoin chunks ∧ of_cluster name a).
Proof.
  induction chunks as [|c chunks IH]; intros st P past Hn Hst; cbn [fmap list_fmap add_chunks].
  - eexists [], st. split; [done|]. destruct Hst as (l & ? & ? & ? & HP). exists l. split_and!; try done. intros a. rewrite HP. set_solver.
  - cbn [mjoin list_join] in Hn. rewrite run_bind, oks_Ok. destruct (get_clusters_run c past) as [es1 ->].
    assert (name_errors (Ok <$> c) = []) as -> by (clear; induction c; done). rewrite app_nil_r.
    destruct (IH (foldl (add_cluster_nodes sort_nodes) (st.1, st.2) (shown_cluster <$> c)) (λ a, P a ∨ ∃ name, name ∈ c ∧ of_cluster name a)
      (past ++ es1)) as (es2 & st' & -> & Hst').
    + set_solver.
    + apply shown_clusters_listed; [set_solver|]. by destruct st.
    + eexists _, st'. split; [done|]. destruct Hst' as (l & ? & ? & ? & HP). exists l. split_and!; try done. intros a. rewrite HP.
      cbn [mjoin list_join]. set_solver.
Qed.

(** Chunks of names without an error. *)
Lemma chunks_Ok {E A} (chunks : list (list (outcome E A))) : ∀ l,
  mjoin chunks = Ok <$> l → ∃ cs, chunks = (λ c, Ok <$> c) <$> cs ∧ mjoin cs = l.
Proof.
  induction chunks as [|c chunks IH]; intros l Hl; cbn in Hl.
  - exists []. split; [done|]. by destruct l.
  - symmetry in Hl. apply fmap_app_inv in Hl as (l1 & l2 & -> & Hl2 & ->). destruct (IH l2 Hl2) as (cs & -> & <-).
    by exists (l1 :: cs).
Qed.

Lemma free_listed (st : gset string) ps :
  coordinate_errors MetaData (filter (not_in st) (Ok <$> ps)) = Ok <$> filter (.∉ st) ps.
Proof.
  induction ps as [|a ps IH]; [done|]. cbn [fmap list_fmap]. rewrite !filter_cons. cbn [not_in].
  case_decide; case_decide; try done. cbn. by f_equal.
Qed.

Lemma of_cluster_registered a :
  (∃ name, of_cluster name a) ↔ ∃ pr, all_proxies s !! a = Some pr ∧ is_Some (pr_cluster pr).
Proof.
  split.
  - intros (name & cs & Hcs & Ha). rewrite <-layout_addresses in Ha. apply list_elem_of_fmap in Ha as (x & -> & Hx).
    destruct (rg_half _ _ (sf_registry _ Hwf) name (layout (cs_chunks cs)) x) as (pr & ? & ? & _);
      [apply layouts_lookup; by exists cs|done|]. eauto.
  - intros (pr & Hpr & name & Hname). destruct (rg_listed _ _ (sf_registry _ Hwf) _ _ _ Hpr Hname) as (l & Hl & Ha).
    apply layouts_lookup in Hl as (cs & Hcs & ->). exists name, cs. by rewrite <- layout_addresses.
Qed.

Lemma get_ordered_proxies_run :
  ∃ es l, run (broker_answers s limit) (get_ordered_proxies sort_nodes chunks_timeout) [] = (es, Ok <$> l) ∧ NoDup l ∧
    ∀ a, a ∈ l ↔ ∃ pr, all_proxies s !! a = Some pr ∧ (is_Some (pr_cluster pr) ∨ a ∉ failed_proxies s).
Proof.
  unfold get_ordered_proxies, get_all_cluster_ordered_proxies. rewrite !run_bind. cbn [call run broker_answers app].
  destruct (chunks_Ok (E := ()) (chunks_timeout _ 10 (Ok <$> get_cluster_names s)) (get_cluster_names s) (Hchunks _ _ _)) as (cs & -> & Hcs).
  match goal with |- context [run _ (add_chunks _ _ ?st) ?past] =>
    destruct (add_chunks_listed cs st (λ _, False) past) as (es & [res tag] & -> & l & Hl & Hnd & Htag & HP) end.
  { intros name. rewrite Hcs. apply elem_of_hash_keys. }
  { exists []. cbn. split; [done|]. split; [constructor|]. set_solver. }
  cbn [fst snd] in *. unfold get_free_proxies. rewrite !run_bind. cbn [call run broker_answers mret coord_ret]. rewrite oks_Ok. subst res.
  rewrite run_bind. cbn [call run broker_answers mret coord_ret]. rewrite free_listed, list_to_set_failed.
  eexists _, _. rewrite <- fmap_app. split; [reflexivity|].
  assert (∀ a, a ∈ get_proxies s ↔ is_Some (all_proxies s !! a)) as Hps by (intros a; apply elem_of_hash_keys). split.
  - apply NoDup_app. split; [done|]. split; [|apply NoDup_filter, NoDup_hash_keys].
    intros a Ha [Hn _]%list_elem_of_filter. set_solver.
  - intros a. assert (a ∈ l ↔ ∃ name, of_cluster name a) as Hl.
    { rewrite HP, Hcs. split; [naive_solver|]. intros (name & cs1 & Hcs1 & Ha). right. exists name.
      split; [apply elem_of_hash_keys; eauto|by exists cs1]. }
    rewrite elem_of_app, list_elem_of_filter, Hps, elem_of_union, <- Htag, Hl, of_cluster_registered. split.
    + intros [(pr & Hpr & Hin)|[Hn [pr Hpr]]]; exists pr; naive_solver.
    + intros (pr & Hpr & Hin). rewrite Hpr. destruct (pr_cluster pr) eqn:Hname; [left; naive_solver|]. right.
      destruct Hin as [[? ?]|Hin]; [done|]. split; [|done]. intros [(pr' & Hpr' & [? ?])|?]; [congruence|done].
Qed.
End proxies.

(** ** The comparison of nodes *)

(** The comparison is not an order: a node that imports slots is less than
    itself, and two of them are less than each other; so
    [sort_unstable_by] gives some permutation of the nodes and no more. *)
Lemma compare_nodes_no_order a b :
  has_importing a = true → has_importing b = true → compare_nodes a b = Lt ∧ compare_nodes b a = Lt ∧ compare_nodes a a = Lt.
Proof. intros Ha Hb. unfold compare_nodes. by rewrite Ha, Hb. Qed.

(** ** Claims *)

(** A proxy is reported as failed exactly when three attempts in a row to
    ping it get no reply, whatever the calls answer: a single reply is enough
    not to report it, and the report names the proxy and this coordinator. *)
Theorem failure_reports answer reporter_id address :
  ∃ es r, run answer (check_and_report reporter_id address) [] = (es, r) ∧
    (Exists is_report es ↔ ¬ Exists is_reply es) ∧
    (Exists is_report es → length (filter is_connect es) = RETRY ∧
       ∃ x, last es = Some (Event (ReportFailure address reporter_id) x)) ∧
    (Exists is_reply es → r = Ok () ∧ 1 ≤ length (filter is_connect es) ≤ RETRY).
Proof.
  unfold check_and_report, check_impl, RETRY. rewrite run_and_then.
  destruct (check_rounds_run answer address 2 []) as (es & r & -> & Hrep & Hn & [[-> Hy]|(-> & Hno & Hl)]).
  - eexists _, _. cbn. rewrite app_nil_r. split; [reflexivity|].
    assert (¬ Exists is_report es) as Hnr by by apply Forall_not_Exists. tauto.
  - cbn [app]. rewrite run_map_err_call. eexists _, _. split; [reflexivity|].
    assert (¬ Exists is_reply (es ++ [Event (ReportFailure address reporter_id) (answer _ es (ReportFailure address reporter_id))])) as Hno'.
    { rewrite Exists_app, Exists_cons, Exists_nil. cbn. tauto. }
    split; [split; [done|intros _; apply Exists_app; right; by left]|]. split; [|done].
    intros _. rewrite filter_app, length_app, Hl, last_snoc. split; [done|eauto].
Qed.

(** C33. The source of a finished migration is told after the destination: the
    task commits the migration first, and whenever it sends a command to the
    source, the commit has succeeded and the broker has answered that it knows
    no proxy at the address of the destination, or it has given its metadata
    and the proxy has answered the SETCLUSTER with OK or OLD_EPOCH; a task
    that ends well has told both in this sense.  The two addresses differ, and
    the broker gives the metadata of the address it is asked for. *)
Theorem source_told_last `{HashOrder} `{MetaCodec} enable_compression (answer : oracle) meta migration_meta :
  get_migration_meta (sr_tag (mtm_slot_range meta)) = Some migration_meta →
  mm_src_proxy_address migration_meta ≠ mm_dst_proxy_address migration_meta →
  (∀ a past p, answer _ past (GetProxy a) = Ok (Some p) → proxy_address p = a) →
  ∃ x es r, run answer (sync_migration_state enable_compression meta) [] = (Event (CommitTask meta) x :: es, r) ∧
    (∀ i e, es !! i = Some e → command_to e = Some (mm_src_proxy_address migration_meta) →
      x = Ok () ∧ told enable_compression (mm_dst_proxy_address migration_meta) (take i es)) ∧
    (r = Ok () → x = Ok () ∧ told enable_compression (mm_dst_proxy_address migration_meta) es ∧
      told enable_compression (mm_src_proxy_address migration_meta) es).
Proof.
  intros Hmm Hne Ha. unfold sync_migration_state. rewrite Hmm, run_and_then, run_map_err_call.
  set (x := answer _ [] (CommitTask meta)). exists x. destruct x as [[]|e|];
    [|eexists _, _; split; [reflexivity|]; split; [by intros [|i] e' Hi|done]..].
  rewrite run_and_then. cbn [app]. destruct (set_cluster_meta_run enable_compression answer (mm_dst_proxy_address migration_meta)
    [Event (CommitTask meta) (Ok ())] (Ha _)) as (es1 & r1 & -> & Hto1 & Htold1).
  assert (∀ e, e ∈ es1 → command_to e ≠ Some (mm_src_proxy_address migration_meta)) as Hdst.
  { intros e He Hc. destruct (proj1 (Forall_forall _ _) Hto1 e He); congruence. }
  destruct r1 as [[]|e|].
  2, 3: eexists _, _; split; [reflexivity|]; split; [|done]; intros i e' Hi%list_elem_of_lookup_2 Hc; by destruct (Hdst e' Hi).
  rewrite run_and_then. match goal with |- context [run answer (set_cluster_meta _ ?a) ?past] =>
    destruct (set_cluster_meta_run enable_compression answer a past (Ha _)) as (es2 & r2 & -> & Hto2 & Htold2) end.
  exists (es1 ++ es2), r2. split; [by destruct r2 as [[]|e|]; cbn; rewrite ?app_nil_r|]. split.
  - intros i e Hi Hc. split; [done|]. destruct (decide (i < length es1)) as [Hlt|Hge].
    + rewrite lookup_app_l in Hi by done. apply list_elem_of_lookup_2 in Hi. by destruct (Hdst e Hi).
    + rewrite take_app, take_ge by lia. eapply told_mono; [|by apply Htold1]. set_solver.
  - intros Hr. split; [done|]. split; (eapply told_mono; [|by apply Htold1 || by apply Htold2]); set_solver.
Qed.

(** The proxies of a round: with answers from the broker's store the
    retriever lists, without an error and without a duplicate, exactly the
    proxies of the clusters and the free proxies that have not failed, however
    the nodes are sorted and the names of the clusters are batched. *)
Theorem ordered_proxies_complete `{UnicodeCase} `{HashOrder} s limit sort_nodes chunks_timeout :
  reachable s → (∀ name cs, clusters s !! name = Some cs → cluster_name_try_from name = Some name) →
  (∀ l, sort_nodes l ≡ₚ l) → (∀ A n (l : list A), mjoin (chunks_timeout A n l) = l) →
  ∃ es l, run (broker_answers s limit) (get_ordered_proxies sort_nodes chunks_timeout) [] = (es, Ok <$> l) ∧ NoDup l ∧
    ∀ a, a ∈ l ↔ ∃ pr, all_proxies s !! a = Some pr ∧ (is_Some (pr_cluster pr) ∨ a ∉ failed_proxies s).
Proof. intros Hs. by apply get_ordered_proxies_run, reachable_wf. Qed.

(** ** Examples *)

(** A broker and proxies that answer everything. *)
Definition demo_answers : oracle := λ X past q,
  match q in query X return X with
  | GetClusterNames | GetProxyAddresses | GetFailedReports | GetFailedProxies => []
  | GetCluster _ | ReplaceProxy _ => Ok None
  | GetProxy address => Ok (Some (mkProxy None address 1 [] [] None))
  | ReportFailure _ _ | CommitTask _ | CreateClient _ => Ok ()
  | ExecuteSingle _ _ => Ok ok_reply
  end.

Definition demo_finished_meta : MigrationMeta := mkMigrationMeta 7 "h1:6000" "h1:7000" "h2:6001" "h2:7001".
Definition demo_finished : MigrationTaskMeta := mkMigrationTaskMeta "mycluster" (mkSlotRange [mkRange 233 666] (Migrating demo_finished_meta)).

Lemma source_told_last_witness : ∃ x es r,
  run demo_answers (@sync_migration_state canonical_order binary_codec false demo_finished) [] =
    (Event (CommitTask demo_finished) x :: es, r) ∧
  (∀ i e, es !! i = Some e → command_to e = Some "h1:6000" →
    x = Ok () ∧ @told canonical_order binary_codec false "h2:6001" (take i es)) ∧
  (r = Ok () → x = Ok () ∧ @told canonical_order binary_codec false "h2:6001" es ∧ @told canonical_order binary_codec false "h1:6000" es).
Proof.
  apply (source_told_last (H := canonical_order) (H0 := binary_codec) false demo_answers demo_finished demo_finished_meta).
  - reflexivity.
  - discriminate.
  - intros a past p [= <-]. reflexivity.
Defined.

Lemma ordered_proxies_complete_witness : ∃ es l,
  run (@broker_answers canonical_order demo_store 1) (get_ordered_proxies (λ l, l) (λ A n l, [l])) [] = (es, Ok <$> l) ∧ NoDup l ∧
  ∀ a, a ∈ l ↔ ∃ pr, all_proxies demo_store !! a = Some pr ∧ (is_Some (pr_cluster pr) ∨ a ∉ failed_proxies demo_store).
Proof.
  apply (ordered_proxies_complete (H := ascii_case) (H0 := canonical_order) demo_store 1 (λ l, l) (λ A n l, [l])).
  - exact demo_reachable.
  - intros name cs Hcs. assert (map_Forall (λ name _, cluster_name_try_from name = Some name) (clusters demo_store)) as Hn
      by (apply (bool_decide_unpack _); vm_compute; exact I). exact (Hn name cs Hcs).
  - reflexivity.
  - intros A n l. exact (app_nil_r l).
Defined.
