(* ===== verification/SyncRound.v ===== *)
(** * A round of synchronisation

    The synchronisation of metadata from the broker's store to the proxies, by
    the coordinator's tasks of [Coordinator], the command handler of
    [Executor] and the routing of [Route]: after a round without errors every
    command reaches the owner of its slot. *)

From S2P Require Import Prelude RangeList RustStr Resp Packet Command ClusterMeta Wire MetaMap Keys.
From S2P Require Import Store SlotInv Query Migrate Plan Balance Commit ChunkAlloc Update Registry.
From S2P Require Import NewChunks Failover Broker Reach Sync Route Control.
From S2P Require Import Batch Backend Session Slowlog Replicate DataCmd Executor Coordinator.

(** ** What happens besides *)

(** A proxy goes on with its own work: clients are served, migrations advance;
    its metadata stays. *)
Record goes_on `{HashOrder} (lv lv' : live) : Prop := {
  go_config : lv_config lv' = lv_config lv;
  go_senders : lv_senders lv' = lv_senders lv;
  go_ok : proxy_ok (lv_config lv) (lv_state lv) → proxy_ok (lv_config lv) (lv_state lv');
  go_epoch : mgr_epoch (ps_meta (lv_state lv')) = mgr_epoch (ps_meta (lv_state lv));
  go_meta m : has_meta (ec_server (lv_config lv)) m (ps_meta (lv_state lv)) →
    has_meta (ec_server (lv_config lv)) m (ps_meta (lv_state lv'));
}.

Definition quiet `{HashOrder} (w w' : World) : Prop :=
  w_store w' = w_store w ∧ ∀ a, option_Forall2 goes_on (w_proxies w !! a) (w_proxies w' !! a).

#[export] Instance goes_on_preorder `{HashOrder} : PreOrder goes_on.
Proof.
  split; [by intros lv; split|]. intros a b c [Hc1 Hs1 Ho1 He1 Hm1] [Hc2 Hs2 Ho2 He2 Hm2]. rewrite Hc1 in *.
  split; [congruence..|auto|congruence|auto].
Qed.

#[export] Instance goes_on_option_preorder `{HashOrder} : PreOrder (option_Forall2 goes_on).
Proof.
  split; [intros [lv|]; constructor; reflexivity|].
  intros a b c Hab Hbc. destruct Hab; inversion Hbc; subst; constructor. by etrans.
Qed.

(** A task that changes its state is such work. *)
Lemma set_task_state_goes_on `{HashOrder} lv k st :
  goes_on lv (mkLive (lv_config lv) (set_ps_meta (set_task_state k st (ps_meta (lv_state lv))) [] (lv_state lv)) (lv_senders lv)).
Proof.
  split; cbn; [done..| |done|].
  - intros [Hm Hr Hc Hs Hl Hrate]. split; cbn; [by constructor|done..].
  - intros m (He & Hc & Hn & Hem & Ht). unfold has_meta, set_task_state. cbn. split_and!; [done..| |].
    + rewrite Hem. apply bool_decide_ext. split; intros Hz.
      * rewrite Hz. apply map_eq. intros k'. by rewrite lookup_alter, lookup_empty; case_decide.
      * apply map_eq. intros k'. apply (f_equal (.!! k')) in Hz. rewrite lookup_empty in *. rewrite lookup_alter in Hz.
        case_decide; [|done]. subst. by destruct (_ !! k').
    + intros name sr. rewrite <- Ht, lookup_alter. case_decide; [|done]. subst.
      unfold is_Some. destruct (_ !! _); naive_solver.
Qed.

(** ** The commands of the coordinator at a proxy *)

Section deliver.
Context `{UnicodeCase} `{HashOrder} `{MetaCodec} `{Crc16} `{NumberParsers}.
Context (atoi_usize : bytes → option N) (crc64 : bytes → N) (to_rfc3339 : Z → Z → option bytes).
Context (mgr_error_debug : MigrationError → string) (reply_debug : RespVec → string).
Context (error_text : CommandError → string) (unexpected_reply : string → RespVec → string) (numkeys_error : bytes → string).
Context (reports : Reports).
Abbreviation delivered :=
  (deliver atoi_usize crc64 to_rfc3339 mgr_error_debug reply_debug error_text unexpected_reply numkeys_error reports).

(** A command of [UMCTL] on a well-formed proxy. *)
Lemma deliver_umctl lv words h :
  (∀ s', handle_umctl (lv_config lv) atoi_usize to_rfc3339 mgr_error_debug reports (ctx_of (bytes_of <$> "UMCTL" :: words)) s' = h s') →
  ∀ s' resp, h (lv_state lv) = Ok (s', resp) →
  delivered lv (bytes_of <$> "UMCTL" :: words) = (mkLive (lv_config lv) s' (lv_senders lv), resp).
Proof. intros Hh s' resp Hr. unfold deliver. rewrite umctl_one, Hh, Hr. done. Qed.

Lemma umctl_set_cluster config args s :
  handle_umctl config atoi_usize to_rfc3339 mgr_error_debug reports (ctx_of (bytes_of <$> "UMCTL" :: "SETCLUSTER" :: args)) s =
  handle_umctl_set_cluster config (ctx_of (bytes_of <$> "UMCTL" :: "SETCLUSTER" :: args)) s.
Proof.
  unfold handle_umctl. rewrite umctl_sub_command, to_uppercase_ascii by done. cbn [string_map].
  by repeat (case_bool_decide; [try discriminate; done|]).
Qed.

Lemma umctl_setrepl config args s :
  handle_umctl config atoi_usize to_rfc3339 mgr_error_debug reports (ctx_of (bytes_of <$> "UMCTL" :: "SETREPL" :: args)) s =
  handle_umctl_setrepl config (ctx_of (bytes_of <$> "UMCTL" :: "SETREPL" :: args)) s.
Proof.
  unfold handle_umctl. rewrite umctl_sub_command, to_uppercase_ascii by done. cbn [string_map].
  by repeat (case_bool_decide; [try discriminate; done|]).
Qed.

(** The replication roles leave the metadata alone. *)
Lemma deliver_setrepl lv args :
  proxy_ok (lv_config lv) (lv_state lv) → goes_on lv (delivered lv (meta_command "SETREPL" args)).1.
Proof.
  intros Hok. destruct (setrepl_ok (lv_config lv) (ctx_of (bytes_of <$> "UMCTL" :: "SETREPL" :: args)) (lv_state lv) Hok)
    as (s' & resp & Hr & Hok').
  unfold meta_command. rewrite (deliver_umctl lv _ _ (umctl_setrepl (lv_config lv) args) s' resp Hr). cbn [fst].
  assert (ps_meta s' = ps_meta (lv_state lv)) as Hm.
  { unfold handle_umctl_setrepl in Hr. by repeat case_match; simplify_eq/=. }
  split; cbn; rewrite ?Hm; done.
Qed.

Lemma deliver_setrepl_meta lv args :
  proxy_ok (lv_config lv) (lv_state lv) →
  ps_meta (lv_state (delivered lv (meta_command "SETREPL" args)).1) = ps_meta (lv_state lv).
Proof.
  intros Hok. destruct (setrepl_ok (lv_config lv) (ctx_of (bytes_of <$> "UMCTL" :: "SETREPL" :: args)) (lv_state lv) Hok)
    as (s' & resp & Hr & _).
  unfold meta_command. rewrite (deliver_umctl lv _ _ (umctl_setrepl (lv_config lv) args) s' resp Hr). cbn.
  unfold handle_umctl_setrepl in Hr. by repeat case_match; simplify_eq/=.
Qed.

Lemma deliver_setcluster_new m lv args :
  meta_from_resp (command_value (meta_command "SETCLUSTER" args)) = Ok (m, true) →
  check_hosts (pcm_local m) (announce_host (ec_server (lv_config lv))) = true → (mgr_epoch (ps_meta (lv_state lv)) < pcm_epoch m)%N →
  ∃ lv', delivered lv (meta_command "SETCLUSTER" args) = (lv', ok_reply) ∧ lv_config lv' = lv_config lv ∧ lv_senders lv' = lv_senders lv ∧
    ps_meta (lv_state lv') = (set_meta (ec_server (lv_config lv)) (ps_meta (lv_state lv)) m).1.1.
Proof.
  intros Hm Hh He. set (c := ctx_of (bytes_of <$> "UMCTL" :: "SETCLUSTER" :: args)).
  destruct (set_meta_installs (ec_server (lv_config lv)) (ps_meta (lv_state lv)) m Hh) as (st & nt & Hset & _); [by left|].
  assert (handle_umctl_set_cluster (lv_config lv) c (lv_state lv) = Ok (set_ps_meta st nt (lv_state lv), ok_reply)) as Hr.
  { unfold handle_umctl_set_cluster. destruct (ctx_of_ok (bytes_of <$> "UMCTL" :: "SETCLUSTER" :: args)) as [_ Hreq].
    fold c in Hreq. rewrite Hreq. unfold meta_command in Hm. rewrite Hm, Hset. done. }
  eexists. split; [exact (deliver_umctl lv _ _ (umctl_set_cluster (lv_config lv) args) _ _ Hr)|]. cbn. by rewrite Hset.
Qed.

(** [m] is newer than the metadata of the proxy, or the proxy has it. *)
Definition wants (m : ProxyClusterMeta) (lv : live) : Prop :=
  proxy_ok (lv_config lv) (lv_state lv) ∧
  ((mgr_epoch (ps_meta (lv_state lv)) < pcm_epoch m)%N ∨
   has_meta (ec_server (lv_config lv)) m (ps_meta (lv_state lv))).
Definition has_it (m : ProxyClusterMeta) (lv : live) : Prop :=
  proxy_ok (lv_config lv) (lv_state lv) ∧ has_meta (ec_server (lv_config lv)) m (ps_meta (lv_state lv)).

Lemma wants_goes_on m lv lv' : goes_on lv lv' → wants m lv → wants m lv'.
Proof.
  intros [Hc Hs Ho He Hm] [Hok Hw]. unfold wants. rewrite Hc, He. split; [auto|]. destruct Hw; auto.
Qed.
Lemma has_it_goes_on m lv lv' : goes_on lv lv' → has_it m lv → has_it m lv'.
Proof. intros [Hc Hs Ho He Hm] [Hok Hw]. unfold has_it. rewrite Hc. auto. Qed.

Lemma deliver_setcluster m lv args :
  meta_from_resp (command_value (meta_command "SETCLUSTER" args)) = Ok (m, true) → force (pcm_flags m) = false → wants m lv →
  ∃ lv' resp, delivered lv (meta_command "SETCLUSTER" args) = (lv', resp) ∧ lv_config lv' = lv_config lv ∧ lv_senders lv' = lv_senders lv ∧
    wants m lv' ∧ (send_meta_reply resp = Ok () → has_it m lv').
Proof.
  intros Hm Hf [Hok Hw]. set (c := ctx_of (bytes_of <$> "UMCTL" :: "SETCLUSTER" :: args)).
  destruct (set_cluster_ok (lv_config lv) c (lv_state lv) Hok) as (s' & resp & Hr & Hok').
  exists (mkLive (lv_config lv) s' (lv_senders lv)), resp.
  split; [exact (deliver_umctl lv _ _ (umctl_set_cluster (lv_config lv) args) s' resp Hr)|]. split; [done|]. split; [done|].
  unfold handle_umctl_set_cluster in Hr. destruct (ctx_of_ok (bytes_of <$> "UMCTL" :: "SETCLUSTER" :: args)) as [_ Hreq].
  fold c in Hreq. rewrite Hreq in Hr. unfold meta_command in Hm. rewrite Hm in Hr. unfold wants, has_it. cbn [lv_config lv_state lv_senders].
  unfold set_meta in Hr. destruct (check_hosts (pcm_local m) (announce_host (ec_server (lv_config lv)))) eqn:Hh; cbn [negb] in Hr.
  2: { injection Hr as <- <-. split; [|done]. split; [done|]. by cbn. }
  rewrite Hf in Hr. cbn [negb] in Hr. rewrite andb_true_r in Hr.
  destruct (N.leb_spec (pcm_epoch m) (mgr_epoch (ps_meta (lv_state lv)))) as [Hle|Hlt].
  - injection Hr as <- <-. destruct Hw as [?|Hhas]; [lia|]. cbn. auto.
  - destruct (set_meta_installs (ec_server (lv_config lv)) (ps_meta (lv_state lv)) m Hh) as (st' & nt & Hset & Hhas); [by left|].
    unfold set_meta in Hset. rewrite Hh, Hf in Hset. cbn [negb] in Hset. rewrite andb_true_r in Hset.
    rewrite (proj2 (N.leb_gt _ _) Hlt) in Hset. destruct (update_from_old_task_map _ _ _ _) as [mp tasks].
    injection Hset as <- <-. injection Hr as <- <-. auto.
Qed.
End deliver.

(** ** Tasks that touch one proxy each *)

Section round.
Context `{UnicodeCase} `{HashOrder} `{MetaCodec} `{Crc16} `{NumberParsers}.
Context (atoi_usize : bytes → option N) (crc64 : bytes → N) (to_rfc3339 : Z → Z → option bytes).
Context (mgr_error_debug : MigrationError → string) (reply_debug : RespVec → string).
Context (error_text : CommandError → string) (unexpected_reply : string → RespVec → string) (numkeys_error : bytes → string).
Context (reports : Reports) (migration_limit : N) (clear_free_nodes : bool).
Abbreviation served := (serve atoi_usize crc64 to_rfc3339 mgr_error_debug reply_debug error_text unexpected_reply numkeys_error
  reports migration_limit clear_free_nodes).
Abbreviation stepped := (pool_step atoi_usize crc64 to_rfc3339 mgr_error_debug reply_debug error_text unexpected_reply numkeys_error
  reports migration_limit clear_free_nodes quiet).

Section safe.
Context {A : Type} (s : MetaStore) (a : string) (Q : A → option live → Prop).

(** Whatever the calls answer and the proxy does in between, the task changes
    proxy [a] only and ends with a result that [Q] allows. *)
Fixpoint safe (m : coord A) (lv : option live) : Prop :=
  match m with
  | CRet r => Q r lv
  | CCall q k => ∀ w x w', w_store w = s → w_proxies w !! a = lv → served q w x w' →
      w_store w' = s ∧ (∀ b, b ≠ a → w_proxies w' !! b = w_proxies w !! b) ∧
      ∀ lv', option_Forall2 goes_on (w_proxies w' !! a) lv' → safe (k x) lv'
  end.
Definition always_safe (m : coord A) (lv : option live) : Prop := ∀ lv', option_Forall2 goes_on lv lv' → safe m lv'.
End safe.

(** The tasks of a batch, with their proxies and what they promise. *)
Definition pool_safe {A} (s : MetaStore) (Q : string → A → option live → Prop) (addrs : list string) (ts : list (coord A)) (w : World) : Prop :=
  w_store w = s ∧ length ts = length addrs ∧
  ∀ i a m, addrs !! i = Some a → ts !! i = Some m → always_safe s a (Q a) m (w_proxies w !! a).

Lemma pool_safe_step {A} s (Q : string → A → option live → Prop) addrs ts w ts' w' :
  NoDup addrs → pool_safe s Q addrs ts w → stepped (ts, w) (ts', w') →
  pool_safe s Q addrs ts' w' ∧ ∀ b, b ∉ addrs → option_Forall2 goes_on (w_proxies w !! b) (w_proxies w' !! b).
Proof.
  intros Hnd (Hs & Hl & Hsafe) Hstep. inversion Hstep as [ts0 w0 i X q k x w1 Hi Hq|ts0 w0 w1 [Hst Hlv]]; subst.
  - destruct (lookup_lt_is_Some_2 addrs i) as [a Ha]; [rewrite <- Hl; by eapply lookup_lt_Some|].
    destruct (Hsafe i a _ Ha Hi (w_proxies w !! a) (reflexivity _) w x w' eq_refl eq_refl Hq) as (Hst & Hother & Hk).
    split; [split_and!; [done|by rewrite length_insert|]|].
    + intros j b m Hb Hm. destruct (decide (j = i)) as [->|Hne].
      * rewrite Ha in Hb. injection Hb as <-. rewrite list_lookup_insert_eq in Hm by by eapply lookup_lt_Some.
        injection Hm as <-. exact Hk.
      * rewrite list_lookup_insert_ne in Hm by done. rewrite Hother; [by eapply Hsafe|].
        intros ->. apply Hne. by eapply NoDup_lookup.
    + intros b Hb. rewrite Hother; [reflexivity|]. intros ->. apply Hb. by eapply list_elem_of_lookup_2.
  - split; [split_and!; [done|done|]|intros b _; apply Hlv]. intros i a m Ha Hm lv' Hlv'. apply (Hsafe i a m Ha Hm).
    etrans; [apply Hlv|exact Hlv'].
Qed.

Lemma pool_safe_join {A} s (Q : string → A → option live → Prop) addrs ts w results w' :
  NoDup addrs → pool_safe s Q addrs ts w → rtc stepped (ts, w) (CRet <$> results, w') →
  w_store w' = s ∧ length results = length addrs ∧
  (∀ i a r, addrs !! i = Some a → results !! i = Some r → Q a r (w_proxies w' !! a)) ∧
  ∀ b, b ∉ addrs → option_Forall2 goes_on (w_proxies w !! b) (w_proxies w' !! b).
Proof.
  intros Hnd Hsafe Hsteps. remember (ts, w) as x eqn:Hx. remember (CRet <$> results, w') as y eqn:Hy.
  revert ts w Hx Hsafe. induction Hsteps as [y|x z y Hstep Hsteps IH]; intros ts w Hx Hsafe; subst.
  - injection Hx as <- <-. destruct Hsafe as (Hs & Hl & Hq). rewrite length_fmap in Hl. split_and!; [done..| |by intros].
    intros i a r Ha Hr. apply (Hq i a (CRet r) Ha); [by rewrite list_lookup_fmap, Hr|reflexivity].
  - destruct z as [ts1 w1]. destruct (pool_safe_step s Q addrs ts w ts1 w1 Hnd Hsafe Hstep) as [Hsafe1 Hframe].
    destruct (IH eq_refl ts1 w1 eq_refl Hsafe1) as (Hs & Hl & Hr & Hframe1). split_and!; [done..|].
    intros b Hb. etrans; [by apply Hframe|by apply Hframe1].
Qed.

(** *** The task of one proxy *)

Section task.
Context (s : MetaStore) (a : string) (p : Proxy) (m : ProxyClusterMeta) (setup : ExecutorConfig * Senders).
Hypothesis Hp : get_proxy_by_address s a migration_limit = Ok (Some p).
Hypothesis Ha : proxy_address p = a.
Hypothesis Hm : meta_from_resp (command_value (meta_command "SETCLUSTER"
  (to_args (proxy_cluster_meta (mkFlags false false) (filter_proxy_masters p))))) = Ok (m, true).
Hypothesis Hforce : force (pcm_flags m) = false.

Definition set_up (lv : live) : Prop := (lv_config lv, lv_senders lv) = setup.
Definition ready_for (lv : option live) : Prop := match lv with Some lv => wants m lv ∧ set_up lv | None => True end.
Definition synced (r : outcome CoordinateError ()) (lv : option live) : Prop :=
  r ≠ Panic ∧ (r = Ok () → match lv with Some lv => has_it m lv ∧ set_up lv | None => False end).

Lemma ready_goes_on lv lv' : option_Forall2 goes_on lv lv' → ready_for lv → ready_for lv'.
Proof.
  intros [x y Hxy|]; [|done]. intros [Hw Hs]. split; [by eapply wants_goes_on|].
  unfold set_up in *. by rewrite (go_config _ _ Hxy), (go_senders _ _ Hxy).
Qed.
Lemma synced_goes_on r lv lv' : option_Forall2 goes_on lv lv' → synced r lv → synced r lv'.
Proof.
  intros [x y Hxy|]; [|done]. intros [Hr Hs]. split; [done|]. intros Hok. destruct (Hs Hok) as [Hi Hsu].
  split; [by eapply has_it_goes_on|]. unfold set_up in *. by rewrite (go_config _ _ Hxy), (go_senders _ _ Hxy).
Qed.

Lemma failed_safe e lv : synced (Err e) lv.
Proof. split; [done|]. discriminate. Qed.

(** A call that leaves the world as it is. *)
Lemma safe_read {X} (q : query X) k lv :
  (∀ w x w', w_store w = s → w_proxies w !! a = lv → served q w x w' → w' = w ∧ ∀ lv', option_Forall2 goes_on lv lv' → safe s a synced (k x) lv') →
  safe s a synced (CCall q k) lv.
Proof. intros Hk w x w' Hs Hlv Hq. destruct (Hk w x w' Hs Hlv Hq) as [-> Hsafe]. split_and!; [done..|]. by rewrite Hlv. Qed.

(** A command to the proxy, executed or not. *)
Lemma safe_execute cmd k lv :
  ready_for lv → (∀ lv', ready_for lv' → safe s a synced (k (Err ())) lv') →
  (∀ lv0, lv = Some lv0 → ∀ lv' resp,
    deliver atoi_usize crc64 to_rfc3339 mgr_error_debug reply_debug error_text unexpected_reply numkeys_error reports lv0 cmd = (lv', resp) →
    ready_for (Some lv') ∧ ∀ lv2, goes_on lv' lv2 → safe s a synced (k (Ok resp)) (Some lv2)) →
  safe s a synced (CCall (ExecuteSingle a cmd) k) lv.
Proof.
  intros Hr Herr Hok w x w' Hs Hlv Hq. cbn [serve] in Hq. rewrite Hlv in Hq. destruct lv as [lv0|].
  2: { destruct Hq as [-> ->]. split_and!; [done..|]. rewrite Hlv. intros lv' Hg. apply Herr. by eapply ready_goes_on. }
  destruct (deliver _ _ _ _ _ _ _ _ _ lv0 cmd) as [lv' resp] eqn:Hd. destruct (Hok lv0 eq_refl lv' resp Hd) as [Hr' Hsafe].
  destruct Hq as [[-> ->]|[-> [-> | ->]]]; cbn [w_store w_proxies].
  - split_and!; [done|intros b Hb; by rewrite lookup_insert_ne|]. rewrite lookup_insert_eq. intros lv2 Hg. inversion Hg; subst. by apply Hsafe.
  - split_and!; [done..|]. rewrite Hlv. intros lv2 Hg. apply Herr. by eapply ready_goes_on.
  - split_and!; [done|intros b Hb; by rewrite lookup_insert_ne|]. rewrite lookup_insert_eq. intros lv2 Hg. apply Herr. by eapply ready_goes_on.
Qed.

Lemma sync_task_safe lv : ready_for lv → safe s a synced (retrieve_and_send_meta false a) lv.
Proof.
  intros Hr. unfold retrieve_and_send_meta, and_then, map_err, call. cbn [mbind coord_mbind coord_bind].
  apply safe_read. intros w x w' Hs Hlv [-> Hq]. rewrite Hs, Hp in Hq. split; [done|]. intros lv1 Hg1.
  destruct Hq as [-> | ->]; [apply failed_safe|]. apply (ready_goes_on _ _ Hg1) in Hr. clear w lv Hs Hlv Hg1.
  unfold send_proxy_meta, and_then, map_err, call. cbn [mbind coord_mbind coord_bind].
  apply safe_read. intros w x w' Hs Hlv [-> Hc]. split; [done|]. intros lv2 Hg2. apply (ready_goes_on _ _ Hg2) in Hr.
  destruct Hc as [-> | [-> _]]; [apply failed_safe|]. clear w lv1 Hs Hlv Hg2. rewrite Ha.
  unfold send_meta, and_then, map_err, call. cbn [mbind coord_mbind coord_bind].
  apply safe_execute; [done|intros; apply failed_safe|].
  intros lv0 -> lv' resp Hd. destruct Hr as [Hw Hsu].
  pose proof (deliver_setrepl atoi_usize crc64 to_rfc3339 mgr_error_debug reply_debug error_text unexpected_reply numkeys_error reports
    lv0 (generate_repl_meta_cmd_args p (mkFlags false false)) (proj1 Hw)) as Hgo. rewrite Hd in Hgo. cbn [fst] in Hgo.
  assert (ready_for (Some lv')) as Hr' by (eapply ready_goes_on; [by constructor|by split]). split; [done|]. clear lv0 Hd Hgo Hw Hsu.
  intros lv2 Hgo. destruct (send_meta_reply resp) as [[]| |] eqn:Hreply; [|apply failed_safe|].
  2: { exfalso. unfold send_meta_reply in Hreply. by repeat case_match. }
  assert (ready_for (Some lv2)) as Hr2 by (eapply ready_goes_on; [by constructor|done]). clear lv' resp Hreply Hr' Hgo.
  cbn [coord_bind generate_proxy_meta_cmd_args compress]. apply safe_execute; [done|intros; apply failed_safe|].
  intros lv0 [= <-] lv' resp Hd. destruct Hr2 as [Hw Hsu].
  destruct (deliver_setcluster atoi_usize crc64 to_rfc3339 mgr_error_debug reply_debug error_text unexpected_reply numkeys_error reports
    m lv2 _ Hm Hforce Hw) as (lv3 & resp' & Hd' & Hc & Hse & Hw' & Hi). rewrite Hd in Hd'. injection Hd' as <- <-.
  assert (set_up lv') as Hsu' by (unfold set_up in *; by rewrite Hc, Hse).
  split; [by split|]. intros lv3 Hgo. cbn. apply (synced_goes_on _ (Some lv')); [by constructor|].
  split; [unfold send_meta_reply; by repeat case_match|]. intros Hok. split; [by apply Hi|done].
Qed.
End task.

(** *** Any task touches its own proxy only *)

Lemma get_proxy_address s a p : get_proxy_by_address s a migration_limit = Ok (Some p) → proxy_address p = a.
Proof.
  unfold get_proxy_by_address. destruct (all_proxies s !! a); [|done].
  destruct (match pr_cluster _ with Some _ => _ | None => _ end) as [[cs|]| |]; cbn [mbind outcome_bind]; [|by intros [= <-]|done..].
  destruct (cluster_store_to_cluster cs); cbn [mbind outcome_bind]; [by intros [= <-]|done..].
Qed.

Lemma safe_any {X} s a (q : query X) (k : X → fallible ()) lv :
  (∀ w x w', w_store w = s → served q w x w' → w_store w' = s ∧ ∀ b, b ≠ a → w_proxies w' !! b = w_proxies w !! b) →
  (∀ w x w', w_store w = s → served q w x w' → ∀ lv, safe s a (λ _ _, True) (k x) lv) →
  safe s a (λ _ _, True) (CCall q k) lv.
Proof. intros Hq Hk w x w' Hs Hlv Hc. destruct (Hq w x w' Hs Hc) as [Hs' Hb]. split; [done|]. split; [done|]. intros lv' _. exact (Hk w x w' Hs Hc lv'). Qed.

Lemma execute_local s a cmd w x w' :
  w_store w = s → served (ExecuteSingle a cmd) w x w' → w_store w' = s ∧ ∀ b, b ≠ a → w_proxies w' !! b = w_proxies w !! b.
Proof.
  intros Hs Hq. cbn [serve] in Hq. destruct (w_proxies w !! a) as [lv|]; [|by destruct Hq as [-> ->]].
  destruct (deliver _ _ _ _ _ _ _ _ _ lv cmd) as [lv' resp].
  destruct Hq as [[-> ->]|[-> [-> | ->]]]; (split; [done|]); cbn; intros b Hb; by rewrite ?lookup_insert_ne.
Qed.

Lemma task_local s a lv : safe s a (λ _ _, True) (retrieve_and_send_meta false a) lv.
Proof.
  unfold retrieve_and_send_meta, and_then, map_err, call. cbn [mbind coord_mbind coord_bind].
  apply safe_any; [by intros w x w' ? [-> _]|]. intros w x w' Hs [-> Hq] lv1. rewrite Hs in Hq.
  destruct (get_proxy_by_address s a migration_limit) as [[p|]| |] eqn:Hp; [|by destruct Hq as [-> | ->]|by subst..].
  apply get_proxy_address in Hp. destruct Hq as [-> | ->]; [done|].
  unfold send_proxy_meta, and_then, map_err, call. cbn [mbind coord_mbind coord_bind]. rewrite Hp.
  apply safe_any; [by intros ? ? ? ? [-> _]|]. intros w1 x w2 Hs1 [-> Hc] lv2. destruct Hc as [-> | [-> _]]; [done|].
  unfold send_meta, and_then, map_err, call. cbn [mbind coord_mbind coord_bind].
  apply safe_any; [intros; by eapply execute_local|]. intros w3 x w4 Hs3 Hq3 lv3. destruct x as [resp| |]; [|done..].
  destruct (send_meta_reply resp); [|done..]. cbn [coord_bind generate_proxy_meta_cmd_args compress].
  apply safe_any; [intros; by eapply execute_local|]. intros w5 x w6 Hs5 Hq5 lv4. by destruct x.
Qed.

Lemma safe_mono s a (Q Q' : outcome CoordinateError () → option live → Prop) t : (∀ r lv, Q r lv → Q' r lv) →
  ∀ lv, safe s a Q t lv → safe s a Q' t lv.
Proof.
  intros HQ. induction t as [r|X q k IH]; intros lv Ht; [by apply HQ|]. intros w x w' Hs Hlv Hq.
  destruct (Ht w x w' Hs Hlv Hq) as (Hs' & Hb & Hk). split; [done|]. split; [done|]. intros lv' Hgo. by apply IH, Hk.
Qed.

(** *** The results of a round *)

Lemma last_error_Err rs : ∀ e, ∃ e', last_error (Err e) rs = Err e'.
Proof. induction rs as [|r rs IH]; intros e; [by eexists|]. destruct r; apply IH. Qed.

Lemma last_error_Ok rs : ∀ res, last_error res rs = Ok () → res = Ok () ∧ ∀ e, Err e ∉ rs.
Proof.
  induction rs as [|r rs IH]; intros res Hl; [split; [done|]; intros e; apply not_elem_of_nil|].
  unfold last_error in Hl. cbn in Hl. destruct r as [[]|e|].
  - destruct (IH res Hl) as [-> Hn]. split; [done|]. intros e [?|?]%elem_of_cons; [done|by eapply Hn].
  - exfalso. destruct (last_error_Err rs e) as [e' He]. unfold last_error in He. congruence.
  - destruct (IH res Hl) as [-> Hn]. split; [done|]. intros e [?|?]%elem_of_cons; [done|by eapply Hn].
Qed.

Abbreviation round_of := (batches atoi_usize crc64 to_rfc3339 mgr_error_debug reply_debug error_text unexpected_reply numkeys_error
  reports migration_limit clear_free_nodes quiet (retrieve_and_send_meta false)).

Lemma round_Ok chunks res w w' : round_of chunks res w (Ok ()) w' → res = Ok ().
Proof.
  remember (Ok ()) as r eqn:Hr. induction 1 as [res w|chunk chunks res w results w1 res' w2 _ _ IH]; [done|]. subst.
  destruct (last_error_Ok _ _ (IH eq_refl)) as [Hl _]. by destruct (last_error_Ok _ _ Hl).
Qed.

Section target.
Context (s : MetaStore) (a : string) (p : Proxy) (m : ProxyClusterMeta) (setup : ExecutorConfig * Senders).
Hypothesis Hp : get_proxy_by_address s a migration_limit = Ok (Some p).
Hypothesis Hm : meta_from_resp (command_value (meta_command "SETCLUSTER"
  (to_args (proxy_cluster_meta (mkFlags false false) (filter_proxy_masters p))))) = Ok (m, true).
Hypothesis Hforce : force (pcm_flags m) = false.

(** A batch without errors brings the metadata to its proxies, and leaves the
    metadata of the others. *)
Lemma batch_target addrs w results w' :
  NoDup addrs → w_store w = s → ready_for m setup (w_proxies w !! a) →
  rtc stepped (retrieve_and_send_meta false <$> addrs, w) (CRet <$> results, w') →
  (∀ e, Err e ∉ results) →
  w_store w' = s ∧
  (a ∈ addrs → synced m setup (Ok ()) (w_proxies w' !! a)) ∧
  (a ∉ addrs → option_Forall2 goes_on (w_proxies w !! a) (w_proxies w' !! a)).
Proof.
  intros Hnd Hs Hr Hsteps Hne.
  destruct (pool_safe_join s (λ b r lv, b = a → synced m setup r lv) addrs (retrieve_and_send_meta false <$> addrs) w results w' Hnd)
    as (Hs' & Hl & Hq & Hframe); [|done|].
  - split_and!; [done|by rewrite length_fmap|]. intros i b t Hb Ht lv' Hgo. rewrite list_lookup_fmap, Hb in Ht. injection Ht as <-.
    destruct (decide (b = a)) as [->|Hba].
    + eapply safe_mono; [|by eapply sync_task_safe; [done|by eapply get_proxy_address|done|done|eapply ready_goes_on]]. auto.
    + eapply safe_mono; [|apply task_local]. done.
  - split_and!; [done| |by apply Hframe]. intros (i & Hi)%list_elem_of_lookup_1.
    destruct (lookup_lt_is_Some_2 results i) as [r Hri]; [rewrite Hl; by eapply lookup_lt_Some|].
    pose proof (Hq i a r Hi Hri eq_refl) as Hsy. destruct r as [[]|e|]; [done| |by destruct Hsy].
    exfalso. apply (Hne e). by eapply list_elem_of_lookup_2.
Qed.

Lemma synced_ready lv : synced m setup (Ok ()) lv → ready_for m setup lv.
Proof. intros [_ Hs]. specialize (Hs eq_refl). destruct lv as [lv|]; [|done]. destruct Hs as [[Hok Hhas] Hsu]. split; [split; auto|done]. Qed.

Lemma round_target chunks res w w' :
  round_of chunks res w (Ok ()) w' → w_store w = s → Forall (λ chunk, NoDup (oks chunk)) chunks → ready_for m setup (w_proxies w !! a) →
  w_store w' = s ∧
  (synced m setup (Ok ()) (w_proxies w !! a) ∨ a ∈ (chunks ≫= oks) → synced m setup (Ok ()) (w_proxies w' !! a)).
Proof.
  remember (Ok ()) as r eqn:Hr. induction 1 as [res w|chunk chunks res w results w1 res' w2 Hjoin Hround IH]; intros Hs Hnd Hst.
  { split; [done|]. intros [?|?%elem_of_nil]; done. }
  subst res'. apply Forall_cons in Hnd as [Hnd Hnds]. destruct (last_error_Ok _ _ (round_Ok _ _ _ _ Hround)) as [_ Hne].
  destruct (batch_target (oks chunk) w results w1 Hnd Hs Hst Hjoin Hne) as (Hs1 & Hin & Hout).
  assert (synced m setup (Ok ()) (w_proxies w !! a) → a ∉ oks chunk → synced m setup (Ok ()) (w_proxies w1 !! a)) as Hkeep.
  { intros Hsy Ha. eapply synced_goes_on; [by apply Hout|done]. }
  destruct (IH eq_refl Hs1 Hnds) as [Hs2 Hsync].
  { destruct (decide (a ∈ oks chunk)) as [Ha|Ha]; [by apply synced_ready, Hin|]. eapply ready_goes_on; [by apply Hout|done]. }
  split; [done|]. intros Hcase. apply Hsync. cbn in Hcase. rewrite elem_of_app in Hcase.
  destruct (decide (a ∈ oks chunk)) as [Ha|Ha]; [left; by apply Hin|]. destruct Hcase as [Hsy|[?|?]]; [left; by apply Hkeep|done|by right].
Qed.
End target.

(** *** A run of one task *)

Lemma pool_run {X} ts i w (q : query X) (k : X → fallible ()) x w' ts' w2 :
  ts !! i = Some (CCall q k) → served q w x w' → rtc stepped (<[i := k x]> ts, w') (ts', w2) → rtc stepped (ts, w) (ts', w2).
Proof. intros Hi Hq Hr. eapply rtc_l; [by eapply pool_call|exact Hr]. Qed.

Lemma task_runs ts i w a p lv lv1 resp1 lv2 resp2 :
  ts !! i = Some (retrieve_and_send_meta false a) →
  get_proxy_by_address (w_store w) a migration_limit = Ok (Some p) → w_proxies w !! a = Some lv →
  deliver atoi_usize crc64 to_rfc3339 mgr_error_debug reply_debug error_text unexpected_reply numkeys_error reports lv
    (meta_command "SETREPL" (generate_repl_meta_cmd_args p (mkFlags false false))) = (lv1, resp1) → send_meta_reply resp1 = Ok () →
  deliver atoi_usize crc64 to_rfc3339 mgr_error_debug reply_debug error_text unexpected_reply numkeys_error reports lv1
    (meta_command "SETCLUSTER" (to_args (proxy_cluster_meta (mkFlags false false) (filter_proxy_masters p)))) = (lv2, resp2) →
  send_meta_reply resp2 = Ok () →
  rtc stepped (ts, w) (<[i := CRet (Ok ())]> ts, mkWorld (w_store w) (<[a := lv2]> (w_proxies w))).
Proof.
  intros Hi Hp Hlv He1 Hr1 He2 Hr2. assert (i < length ts) as Hlt by by eapply lookup_lt_Some.
  pose proof (get_proxy_address _ _ _ Hp) as Ha.
  eapply pool_run; [exact Hi|split; [done|]; rewrite Hp; by right|]. cbn [coord_bind coord_mbind mbind].
  unfold send_proxy_meta, and_then, map_err, call. cbn [mbind coord_mbind coord_bind]. rewrite Ha.
  eapply pool_run; [by rewrite list_lookup_insert_eq|split; [done|]; right; by rewrite Hlv|]. rewrite list_insert_insert_eq.
  unfold send_meta, and_then, map_err, call. cbn [mbind coord_mbind coord_bind].
  eapply pool_run; [by rewrite list_lookup_insert_eq|cbn [serve]; rewrite Hlv, He1; by left|]. rewrite list_insert_insert_eq.
  cbn [coord_bind]. rewrite Hr1. cbn [coord_bind generate_proxy_meta_cmd_args compress].
  eapply pool_run; [by rewrite list_lookup_insert_eq|cbn [serve w_proxies]; rewrite lookup_insert_eq, He2; by left|].
  rewrite list_insert_insert_eq. cbn [w_proxies w_store coord_bind]. rewrite Hr2, insert_insert_eq. reflexivity.
Qed.
End round.

(** ** Claims *)

(** The proxies of the world, as the routing sees them. *)
Definition network_of (w : World) : gmap string ProxyNode :=
  (λ lv, mkProxyNode (ec_server (lv_config lv)) (ps_meta (lv_state lv)) (lv_senders lv)) <$> w_proxies w.

Lemma network_lookup w a lv :
  w_proxies w !! a = Some lv →
  network_of w !! a = Some (mkProxyNode (ec_server (lv_config lv)) (ps_meta (lv_state lv)) (lv_senders lv)).
Proof. intros Ha. unfold network_of. by rewrite lookup_fmap, Ha. Qed.

(** The metadata that the proxy of [p] is to get. *)
Definition meta_for (p : Proxy) : ProxyClusterMeta :=
  meta_with_slots (proxy_cluster_meta (mkFlags false false) (filter_proxy_masters p)).

(** A running proxy of the cluster, whose metadata is older than that of the
    broker or is that of the broker. *)
Definition can_sync `{UnicodeCase} `{HashOrder} `{MetaCodec} `{DecoderEnv} (s : MetaStore) (limit : N) (w : World) (a : string) : Prop :=
  ∃ p lv, get_proxy_by_address s a limit = Ok (Some p) ∧ sendable p ∧ w_proxies w !! a = Some lv ∧ wants (meta_for p) lv ∧
    accepting (lv_senders lv) ∧ active_redirection (ec_server (lv_config lv)) = false.

(** C2. From the broker to the clients, through the coordinator: when a round
    of synchronisation without compression ends without an error, whatever the
    order of its calls, then every proxy of the cluster has the metadata of
    the broker, and a command for any slot reaches, from every proxy of the
    cluster and after at most two redirections, the one proxy that serves it.
    It is assumed that the list that was retrieved has every proxy of the
    cluster (a page that fails ends the list without an error), that each of
    them runs without active redirection, takes connections and has metadata
    that is older than that of the broker or the same ([can_sync]); that
    during the round the store of the broker does not change and the proxies
    keep their configuration, their senders and their epochs and metadata
    except for what the round sends ([quiet]); and that after the round the
    two ends of each migration agree on whether the switch is done
    ([in_step]). *)
Theorem synchronised_round_routes `{UnicodeCase} `{HashOrder} `{MetaCodec} `{DecoderEnv} `{Crc16} `{NumberParsers}
    atoi_usize crc64 to_rfc3339 mgr_error_debug reply_debug error_text unexpected_reply numkeys_error reports limit clear_free_nodes
    s name cs chunks w w' c slot :
  reachable s → clusters s !! name = Some cs → name ≠ EMPTY_CLUSTER_NAME → w_store w = s →
  (∀ a, a ∈ chunk_addresses (cs_chunks cs) → can_sync s limit w a ∧ a ∈ (chunks ≫= oks)) →
  Forall (λ chunk, NoDup (oks chunk)) chunks →
  batches atoi_usize crc64 to_rfc3339 mgr_error_debug reply_debug error_text unexpected_reply numkeys_error reports limit
    clear_free_nodes quiet (retrieve_and_send_meta false) chunks (Ok ()) w (Ok ()) w' →
  in_step (network_of w') name → ctx_slot c = Some slot → (slot < SLOT_NUM)%N →
  (∀ a, a ∈ chunk_addresses (cs_chunks cs) → up_to_date s limit (network_of w') a) ∧
  ∃ shown cluster owner act, limit_migration cs limit = Ok shown ∧ cluster_store_to_cluster shown = Ok cluster ∧
    serves (cluster_nodes cluster) name c slot owner act ∧
    ∀ a, a ∈ chunk_addresses (cs_chunks cs) → ∃ k, k ≤ 2 ∧ follows (network_of w') c slot a k owner act.
Proof.
  intros Hs Hcs Hne Hw Hsync Hnd Hround Hstep Hc Hslot. pose proof (reachable_wf s Hs) as Hwf.
  assert (∀ a, a ∈ chunk_addresses (cs_chunks cs) → up_to_date s limit (network_of w') a) as Hup.
  { intros a Ha. destruct (Hsync a Ha) as [(p & lv & Hp & Hsend & Hlv & Hwants & Hacc & Hpas) Hin].
    pose proof Ha as Hx. rewrite <-layout_addresses in Hx. apply list_elem_of_fmap in Hx as (x & -> & Hx).
    destruct (rg_half _ _ (sf_registry _ Hwf) name (layout (cs_chunks cs)) x) as (pr & Hpr & Hprn & _);
      [apply layouts_lookup; by exists cs|done|].
    pose proof (sent_meta_from_resp s _ pr name cs limit p Hwf Hpr Hprn Hcs Hp Hsend) as Hm.
    destruct (round_target atoi_usize crc64 to_rfc3339 mgr_error_debug reply_debug error_text unexpected_reply numkeys_error reports
      limit clear_free_nodes s (half_address x) p (meta_for p) (lv_config lv, lv_senders lv) Hp Hm eq_refl chunks (Ok ()) w w' Hround Hw Hnd)
      as [_ Hdone]; [rewrite Hlv; by split|].
    destruct (Hdone (or_intror Hin)) as [_ Hgot]. specialize (Hgot eq_refl).
    destruct (w_proxies w' !! half_address x) as [lv'|] eqn:Hlv'; [|done]. destruct Hgot as [[Hok Hhas] Hsu].
    injection Hsu as Hcfg Hsnd. exists (mkProxyNode (ec_server (lv_config lv')) (ps_meta (lv_state lv')) (lv_senders lv')), p, (meta_for p).
    cbn [pn_config pn_manager pn_senders]. rewrite Hcfg, Hsnd in *. split; [|split_and!; try done; apply (po_meta _ _ Hok)].
    rewrite <- Hcfg, <- Hsnd. by apply network_lookup. }
  split; [done|]. by eapply routes_to_owner.
Qed.

(** ** An example *)

From S2P Require Import ClusterCmd MultiKey.

Section demo.
#[local] Existing Instances ascii_case canonical_order binary_codec env_64 bitwise_crc16.

Definition demo_live (a host : string) : live :=
  mkLive (mkExecutorConfig (Route.demo_config a host) a 1024 4 2 None V1) (proxy_new 4 (mkDynamicConfig 20000 1)) Route.demo_senders.
Definition demo_lives : gmap string live := list_to_map ((λ ah, (ah.1, demo_live ah.1 ah.2)) <$> Route.demo_hosts).
Definition demo_world : World := mkWorld Reach.demo_store demo_lives.

Abbreviation demo_deliver :=
  (deliver (λ _, None) (λ _, 0%N) (λ _ _, None) (λ _, "") (λ _, "") (λ _, "") (λ _ _, "") (λ _, "") demo_reports).
Abbreviation demo_step :=
  (pool_step (λ _, None) (λ _, 0%N) (λ _ _, None) (λ _, "") (λ _, "") (λ _, "") (λ _ _, "") (λ _, "") demo_reports 1 false quiet).
Abbreviation demo_batches :=
  (batches (λ _, None) (λ _, 0%N) (λ _ _, None) (λ _, "") (λ _, "") (λ _, "") (λ _ _, "") (λ _, "") demo_reports 1 false quiet).

Lemma demo_live_ok a host : proxy_ok (lv_config (demo_live a host)) (lv_state (demo_live a host)).
Proof. apply proxy_new_ok; [split; cbn; lia|done]. Qed.

(** What is evaluated for each of the four proxies. *)
Record demo_fact (a host : string) : Prop := {
  df_told : get_proxy_by_address Reach.demo_store a 1 = Ok (Some (Route.demo_told_of a));
  df_sendable : sendable (Route.demo_told_of a);
  df_repl : send_meta_reply (demo_deliver (demo_live a host)
    (meta_command "SETREPL" (generate_repl_meta_cmd_args (Route.demo_told_of a) (mkFlags false false)))).2 = Ok ();
  df_meta : meta_from_resp (command_value (meta_command "SETCLUSTER"
    (to_args (proxy_cluster_meta (mkFlags false false) (filter_proxy_masters (Route.demo_told_of a)))))) = Ok (meta_for (Route.demo_told_of a), true);
  df_hosts : check_hosts (pcm_local (meta_for (Route.demo_told_of a))) host = true;
  df_epoch : (0 < pcm_epoch (meta_for (Route.demo_told_of a)))%N;
}.

Lemma demo_facts : Forall (λ ah, demo_fact ah.1 ah.2) Route.demo_hosts.
Proof.
  repeat apply Forall_cons_2; [..|constructor];
    (split;
     [ vm_compute; reflexivity
     | split;
       [ vm_compute; discriminate | vm_compute; reflexivity | vm_compute; repeat split; discriminate
       | apply (bool_decide_unpack _); vm_compute; exact I
       | apply (bool_decide_unpack _); vm_compute; exact I | apply (bool_decide_unpack _); vm_compute; exact I
       | apply (bool_decide_unpack _); vm_compute; exact I | vm_compute; reflexivity ]
     | vm_compute; reflexivity | vm_compute; reflexivity | vm_compute; reflexivity | vm_compute; reflexivity ]).
Qed.

(** A proxy that has got its first metadata. *)
Definition just_told (lv : live) : Prop :=
  ∃ m, ps_meta (lv_state lv) = (set_meta (ec_server (lv_config lv)) meta_manager_new m).1.1.

Lemma demo_deliveries a host :
  demo_fact a host → ∃ lv1 resp1 lv2, just_told lv2 ∧
    demo_deliver (demo_live a host) (meta_command "SETREPL" (generate_repl_meta_cmd_args (Route.demo_told_of a) (mkFlags false false))) =
      (lv1, resp1) ∧ send_meta_reply resp1 = Ok () ∧
    demo_deliver lv1 (meta_command "SETCLUSTER"
      (to_args (proxy_cluster_meta (mkFlags false false) (filter_proxy_masters (Route.demo_told_of a))))) = (lv2, ok_reply).
Proof.
  intros [_ _ Hrepl Hmeta Hhosts Hepoch]. revert Hrepl Hmeta Hhosts Hepoch. generalize (Route.demo_told_of a). intros p Hrepl Hmeta Hhosts Hepoch.
  pose proof (deliver_setrepl (λ _, None) (λ _, 0%N) (λ _ _, None) (λ _, "") (λ _, "") (λ _, "") (λ _ _, "") (λ _, "") demo_reports
    (demo_live a host) (generate_repl_meta_cmd_args p (mkFlags false false)) (demo_live_ok a host)) as [Hcfg _ _ _ _].
  pose proof (deliver_setrepl_meta (λ _, None) (λ _, 0%N) (λ _ _, None) (λ _, "") (λ _, "") (λ _, "") (λ _ _, "") (λ _, "") demo_reports
    (demo_live a host) (generate_repl_meta_cmd_args p (mkFlags false false)) (demo_live_ok a host)) as Hm1.
  destruct (demo_deliver (demo_live a host) _) as [lv1 resp1]. cbn [fst snd] in *.
  change (ps_meta (lv_state (demo_live a host))) with (@meta_manager_new canonical_order) in Hm1.
  destruct (deliver_setcluster_new (λ _, None) (λ _, 0%N) (λ _ _, None) (λ _, "") (λ _, "") (λ _, "") (λ _ _, "") (λ _, "") demo_reports
    (meta_for p) lv1 _ Hmeta) as (lv2 & Hd2 & Hcfg2 & _ & Hm2); [by rewrite Hcfg|by rewrite Hm1|].
  exists lv1, resp1, lv2. split; [|done]. exists (meta_for p). by rewrite Hm2, Hcfg2, Hm1.
Qed.

Lemma demo_task s ts i lives a host :
  s = Reach.demo_store → demo_fact a host → ts !! i = Some (retrieve_and_send_meta false a) → lives !! a = Some (demo_live a host) →
  ∃ lv, just_told lv ∧ rtc demo_step (ts, mkWorld s lives) (<[i := CRet (Ok ())]> ts, mkWorld s (<[a := lv]> lives)).
Proof.
  intros Hs Hf Hi Ha. pose proof (df_told _ _ Hf) as Htold. rewrite <- Hs in Htold.
  destruct (demo_deliveries a host Hf) as (lv1 & resp1 & lv2 & Hnew & Hd1 & Hr1 & Hd2).
  exists lv2. split; [exact Hnew|].
  exact (task_runs _ _ _ _ _ _ _ _ _ 1 false ts i (mkWorld s lives) a _ _ _ _ _ _ Hi Htold Ha Hd1 Hr1 Hd2 eq_refl).
Qed.

(** The tasks of a batch, one after the other. *)
Lemma demo_tasks s hosts : s = Reach.demo_store → ∀ lives results,
  Forall (λ ah, demo_fact ah.1 ah.2) hosts → NoDup hosts.*1 →
  (∀ ah, ah ∈ hosts → lives !! ah.1 = Some (demo_live ah.1 ah.2)) →
  ∃ told, Forall (just_told ∘ snd) told ∧ told.*1 = reverse hosts.*1 ∧
    rtc demo_step ((CRet <$> results) ++ (retrieve_and_send_meta false <$> hosts.*1), mkWorld s lives)
      (CRet <$> (results ++ replicate (length hosts) (Ok ())), mkWorld s (list_to_map told ∪ lives)).
Proof.
  intros Hs. induction hosts as [|[a host] hosts IH]; intros lives results Hf Hnd Hl.
  - exists []. split; [constructor|]. split; [done|]. cbn. rewrite app_nil_r, app_nil_r, map_empty_union. reflexivity.
  - apply Forall_cons in Hf as [Ha Hf]. cbn in Hnd. apply NoDup_cons in Hnd as [Hna Hnd].
    destruct (demo_task s ((CRet <$> results) ++ (retrieve_and_send_meta false <$> a :: hosts.*1)) (length results) lives a host Hs Ha)
      as (lv & Hlv & Hrun); [by rewrite lookup_app_r, length_fmap, Nat.sub_diag by by rewrite length_fmap|by apply (Hl (a, host)), list_elem_of_here|].
    destruct (IH (<[a := lv]> lives) (results ++ [Ok ()]) Hf Hnd) as (told & Htold & Hdom & Hrest).
    + intros [b h] Hb. cbn. rewrite lookup_insert_ne; [by apply (Hl (b, h)), list_elem_of_further|].
      intros ->. apply Hna. by apply (list_elem_of_fmap_2 fst _ (b, h)).
    + exists (told ++ [(a, lv)]). split; [by apply Forall_app_2; [|constructor]|].
      split; [by rewrite fmap_app, Hdom; cbn [fmap list_fmap fst]; rewrite reverse_cons|].
      etrans; [exact Hrun|].
      replace (<[length results := CRet (Ok ())]> ((CRet <$> results) ++ (retrieve_and_send_meta false <$> a :: hosts.*1)))
        with ((CRet <$> results ++ [Ok ()]) ++ (retrieve_and_send_meta false <$> hosts.*1)).
      * rewrite list_to_map_app. cbn [list_to_map foldr fst snd length replicate]. rewrite <- map_union_assoc, <- insert_union_l, map_empty_union.
        rewrite <- app_assoc in Hrest. exact Hrest.
      * rewrite insert_app_r_alt by by rewrite length_fmap. rewrite length_fmap, Nat.sub_diag, fmap_app, <- app_assoc. reflexivity.
Qed.

Lemma just_told_in_step w name : map_Forall (λ _, just_told) (w_proxies w) → in_step (network_of w) name.
Proof.
  intros Hw. assert (∀ a k x, net_state (network_of w) a k = Some x → x = PreCheck) as Hx.
  { intros a k x. unfold net_state. destruct (_ !! a) as [pn|] eqn:Hpn; [|done].
    apply lookup_fmap_Some in Hpn as (lv & <- & Hlv). destruct (Hw a lv Hlv) as [m Hm]. cbn [mbind option_bind pn_manager]. rewrite Hm.
    intros (t & Ht & ->)%fmap_Some. by apply set_meta_fresh in Ht. }
  intros rl meta x y ->%Hx ->%Hx. reflexivity.
Qed.

Definition demo_chunk : list (outcome CoordinateError string) := Ok <$> Route.demo_hosts.*1.

Lemma demo_lives_lookup ah : ah ∈ Route.demo_hosts → demo_lives !! ah.1 = Some (demo_live ah.1 ah.2).
Proof.
  revert ah. apply Forall_forall. repeat apply Forall_cons_2; [reflexivity..|constructor].
Qed.

Lemma demo_round : ∃ w', demo_batches (retrieve_and_send_meta false) [demo_chunk] (Ok ()) demo_world (Ok ()) w' ∧
  in_step (network_of w') "demo".
Proof.
  destruct (demo_tasks _ Route.demo_hosts eq_refl demo_lives [] demo_facts) as (told & Htold & Hdom & Hrun);
    [apply (bool_decide_unpack _); vm_compute; exact I|exact demo_lives_lookup|].
  exists (mkWorld Reach.demo_store (list_to_map told ∪ demo_lives)). split.
  - eapply batches_chunk; [exact Hrun|constructor].
  - apply just_told_in_step. intros a lv Hlv. apply lookup_union_Some_raw in Hlv as [Hlv|[Hno Hlv]].
    + apply elem_of_list_to_map_2 in Hlv. by apply (proj1 (Forall_forall _ _) Htold (a, lv)).
    + exfalso. apply not_elem_of_list_to_map in Hno. apply Hno. rewrite Hdom. apply elem_of_list_to_map_2 in Hlv.
      apply list_elem_of_fmap in Hlv as ([b h] & [= -> _] & Hb). apply elem_of_reverse. by apply (list_elem_of_fmap_2 fst _ (b, h)).
Qed.

Lemma demo_can_sync a : a ∈ chunk_addresses (cs_chunks demo_cluster) →
  can_sync Reach.demo_store 1 demo_world a ∧ a ∈ ([demo_chunk] ≫= oks).
Proof.
  assert (chunk_addresses (cs_chunks demo_cluster) = Route.demo_hosts.*1) as -> by (vm_compute; reflexivity).
  intros Ha. split; [|by apply (bool_decide_unpack (a ∈ _)), bool_decide_pack].
  apply list_elem_of_fmap in Ha as ([b host] & -> & Hb). pose proof (proj1 (Forall_forall _ _) demo_facts _ Hb) as Hf. cbn [fst snd] in *.
  exists (Route.demo_told_of b), (demo_live b host). split; [exact (df_told _ _ Hf)|]. split; [exact (df_sendable _ _ Hf)|].
  split; [exact (demo_lives_lookup _ Hb)|]. split; [|by repeat split].
  split; [apply demo_live_ok|]. left. exact (df_epoch _ _ Hf).
Qed.

Lemma synchronised_round_routes_witness : ∃ w',
  demo_batches (retrieve_and_send_meta false) [demo_chunk] (Ok ()) demo_world (Ok ()) w' ∧
  (∀ a, a ∈ chunk_addresses (cs_chunks demo_cluster) → up_to_date Reach.demo_store 1 (network_of w') a) ∧
  ∃ shown cluster owner act, limit_migration demo_cluster 1 = Ok shown ∧ cluster_store_to_cluster shown = Ok cluster ∧
    serves (cluster_nodes cluster) "demo" Route.demo_ctx 12182 owner act ∧
    ∀ a, a ∈ chunk_addresses (cs_chunks demo_cluster) → ∃ k, k ≤ 2 ∧ follows (network_of w') Route.demo_ctx 12182 a k owner act.
Proof.
  destruct demo_round as (w' & Hround & Hstep). exists w'. split; [exact Hround|].
  apply (synchronised_round_routes (λ _, None) (λ _, 0%N) (λ _ _, None) (λ _, "") (λ _, "") (λ _, "") (λ _ _, "") (λ _, "") demo_reports
    1 false Reach.demo_store "demo" demo_cluster [demo_chunk] demo_world w' Route.demo_ctx 12182).
  - exact demo_reachable.
  - exact demo_lookup.
  - discriminate.
  - reflexivity.
  - exact demo_can_sync.
  - constructor; [|constructor]. apply (bool_decide_unpack _). vm_compute. exact I.
  - exact Hround.
  - exact Hstep.
  - vm_compute. reflexivity.
  - reflexivity.
Defined.
End demo.
