(* ===== verification/External.v ===== *)
(** * The external storage of the broker

    [broker/external.rs]: several brokers keep their metadata in one HTTP
    service.  A request reads the store with its version, changes it and writes
    it back; the service refuses a write whose version is not the current one.
    The brokers, their requests, their refreshing tasks and the messages
    between them and the service interleave in any order, answers may be lost,
    and a write may arrive after its sender has given it up.  The storage still
    behaves as one store that executes the requests one at a time, as
    [MemoryStorage] does. *)

From S2P Require Import Prelude RangeList RustStr ClusterMeta Store SlotInv Query Migrate Plan.
From S2P Require Import Balance Commit ChunkAlloc Update Registry NewChunks Failover Broker Reach.

Record ExternalStore : Type := mkExternalStore { es_store : MetaStore; es_version : option string }.

(** ** The HTTP service *)

Inductive put_answer : Type := PutOk | PutConflict | PutFailed.

(** [hs_data] is the answer to GET, [hs_put] serves a PUT, and [hs_seen]
    are the versions that the service has given out. *)
Class HttpStore := {
  http_store : Type;
  hs_data : http_store → option ExternalStore;
  hs_seen : http_store → gset string;
  hs_put : ExternalStore → http_store → http_store * put_answer;
}.

(** A PUT that takes effect: its version is the current one, or there are no
    data yet; the new version is one that was not given out before. *)
Definition put_allowed (es : ExternalStore) (old : option ExternalStore) : Prop :=
  match old with
  | Some cur => es_version es = es_version cur ∧ is_Some (es_version es)
  | None => es_version es = None
  end.

(** What the comments in [external.rs] ask of the service: the version check,
    and that a PUT without a version is ignored when there are data; a PUT that
    is answered 200 and has a version took effect, one that is answered 409 did
    not. *)
Class HttpStoreLaws `{HttpStore} : Prop := {
  hs_current st es v : hs_data st = Some es → es_version es = Some v → v ∈ hs_seen st;
  hs_put_spec es st : let '(st', a) := hs_put es st in
    hs_seen st ⊆ hs_seen st' ∧
    ((hs_data st' = hs_data st ∧ (a = PutOk → es_version es = None)) ∨
     (put_allowed es (hs_data st) ∧ a ≠ PutConflict ∧
      ∃ v, hs_data st' = Some (mkExternalStore (es_store es) v) ∧ ∀ x, v = Some x → x ∉ hs_seen st));
}.

(** ** The brokers *)

Section external.
Context `{UnicodeCase} `{HttpStore}.

(** How a request ended: with the result on a store that it read, with a PUT
    that was accepted or refused, or without a known effect. *)
Inductive ending : Type :=
| EndRead (order : HashOrder)
| EndWrote (order : HashOrder) (id : nat)
| EndRefused (id : nat)
| EndFailed.

(** The points where a request waits. *)
Inductive Task : Type :=
| Reading (r : Request)
| Replied (r : Request) (es : ExternalStore)
| Writing (r : Request) (order : HashOrder) (id : nat) (store : MetaStore) (result : res ())
| Finished (r : Request) (e : ending) (result : res ()).

(** The points where [keep_refreshing_cache] waits. *)
Inductive Refresh : Type :=
| RInit
| RInitPut (id : nat)
| RInitGet
| RSleep
| RReading
| RReplied (es : ExternalStore)
| RWriting (id : nat) (store : MetaStore).

Record BrokerNode : Type := mkBrokerNode {
  bk_lock : bool;
  bk_cache : MetaStore;
  bk_tasks : gmap nat Task;
  bk_refresh : Refresh;
}.

(** [ExternalHttpStorage::new]. *)
Definition broker_new (enable_ordered_proxy : bool) : BrokerNode :=
  mkBrokerNode false (store_new enable_ordered_proxy) ∅ RInit.

(** A PUT on its way; for a request, with the store it was made from. *)
Record Put : Type := mkPut { put_body : ExternalStore; put_origin : option (HashOrder * Request * MetaStore) }.

Record System : Type := mkSystem {
  sy_service : http_store;
  sy_puts : gmap nat Put;
  sy_answers : gmap nat put_answer;
  sy_next : nat;
  sy_brokers : gmap nat BrokerNode;
}.

Definition set_broker (b : nat) (n : BrokerNode) (y : System) : System :=
  mkSystem (sy_service y) (sy_puts y) (sy_answers y) (sy_next y) (<[b := n]> (sy_brokers y)).
Definition send_put (p : Put) (y : System) : System :=
  mkSystem (sy_service y) (<[sy_next y := p]> (sy_puts y)) (sy_answers y) (S (sy_next y)) (sy_brokers y).

Definition set_task (t : nat) (x : Task) (n : BrokerNode) : BrokerNode :=
  mkBrokerNode (bk_lock n) (bk_cache n) (<[t := x]> (bk_tasks n)) (bk_refresh n).
Definition set_lock (l : bool) (n : BrokerNode) : BrokerNode :=
  mkBrokerNode l (bk_cache n) (bk_tasks n) (bk_refresh n).
Definition set_cache (s : MetaStore) (n : BrokerNode) : BrokerNode :=
  mkBrokerNode (bk_lock n) s (bk_tasks n) (bk_refresh n).
Definition set_refresh (r : Refresh) (n : BrokerNode) : BrokerNode :=
  mkBrokerNode (bk_lock n) (bk_cache n) (bk_tasks n) r.

(** [AtomicLock::lock]: a lock that is held is not waited for. *)
Definition try_lock (n : BrokerNode) : option BrokerNode := if bk_lock n then None else Some (set_lock true n).

(** The end of a request drops the guard of the lock. *)
Definition finish (t : nat) (r : Request) (e : ending) (result : res ()) (n : BrokerNode) : BrokerNode :=
  set_lock false (set_task t (Finished r e result) n).

(** The methods that change the store; [get_failures] only reads the cache. *)
Definition is_write (r : Request) : bool :=
  match r with GetFailures _ _ | CleanupFailures _ _ => false | _ => true end.

(** Whether the method writes the store [x.1] back, made from [s] with the
    result [x.2]. *)
Definition writes_back (r : Request) (s : MetaStore) (x : MetaStore * res ()) : bool :=
  match r with
  | AddFailure now address reporter_id => (add_failure now address reporter_id s).2
  | ReplaceFailedProxy _ _ => match x.2 with Panic => false | _ => true end
  | AddProxy _ _ _ _ => match x.2 with Panic => false | _ => negb (global_epoch s =? global_epoch x.1)%N end
  | _ => match x.2 with Ok _ => true | _ => false end
  end.

(** The rest of a request when the answer to its GET is there: the cache is
    updated, the store changed, and the PUT sent. *)
Definition got_store (order : HashOrder) (t : nat) (r : Request) (es : ExternalStore) (b : nat) (n : BrokerNode) (y : System) : System :=
  let n := set_cache (es_store es) n in
  let x := exec (H := order) r (es_store es) in
  if writes_back r (es_store es) x then
    match es_version es with
    | None => set_broker b (finish t r EndFailed (Err EmptyExternalVersion) n) y
    | Some _ =>
        set_broker b (set_task t (Writing r order (sy_next y) x.1 x.2) n)
          (send_put (mkPut (mkExternalStore x.1 (es_version es)) (Some (order, r, es_store es))) y)
    end
  else set_broker b (finish t r (EndRead order) x.2 n) y.

(** The answer to the PUT of a request. *)
Definition put_answered (t : nat) (r : Request) (order : HashOrder) (id : nat) (store : MetaStore) (result : res ())
    (a : put_answer) (n : BrokerNode) : BrokerNode :=
  match a with
  | PutOk => finish t r (EndWrote order id) result (set_cache store n)
  | PutConflict => finish t r (EndRefused id) (Err Retry) n
  | PutFailed => finish t r EndFailed (Err External) n
  end.

(** [restore_metadata] changes the cache only. *)
Definition restore_metadata (other : MetaStore) (n : BrokerNode) : BrokerNode :=
  if (global_epoch other <=? global_epoch (bk_cache n))%N then n else set_cache other n.

(** A call that is given up. *)
Definition lost (timeout : bool) : MetaStoreError := if timeout then ExternalTimeout else External.

(** One round of the refreshing loop, with the store and its version. *)
Definition refresh_store (order : HashOrder) (fresh : Z → bool) (quorum : nat) (es : ExternalStore) (b : nat) (n : BrokerNode) (y : System) : System :=
  let '(store, changed) := cleanup_failures (H := order) fresh quorum (es_store es) in
  if changed then
    match es_version es with
    | None => set_broker b (set_refresh RSleep n) y
    | Some _ =>
        set_broker b (set_refresh (RWriting (sy_next y) store) n)
          (send_put (mkPut (mkExternalStore store (es_version es)) (Some (order, CleanupFailures fresh quorum, es_store es))) y)
    end
  else set_broker b (set_refresh RSleep (set_cache store n)) y.

(** ** Steps *)

Inductive Action : Type :=
(** A broker starts, or starts again with nothing but its configuration. *)
| Boot (b : nat) (enable_ordered_proxy : bool)
(** A request [t] arrives and tries the lock. *)
| Begin (b t : nat) (r : Request)
(** The service answers the GET of a request; the answer comes back. *)
| Serve (b t : nat)
| GotReply (b t : nat) (order : HashOrder)
(** A PUT arrives at the service; its answer comes back. *)
| Arrive (id : nat)
| Answered (b t : nat)
(** A request gives up its GET or its PUT. *)
| Lose (b t : nat) (timeout : bool)
(** [restore_metadata]. *)
| Restore (b : nat) (other : MetaStore)
(** The refreshing task makes its next step; a call of it succeeds or fails. *)
| RefreshStep (b : nat) (order : HashOrder) (fresh : Z → bool) (quorum : nat) (success : bool).

Definition refresh_step (b : nat) (order : HashOrder) (fresh : Z → bool) (quorum : nat) (success : bool) (n : BrokerNode) (y : System) :
    option System :=
  match bk_refresh n with
  | RInit =>
      Some (set_broker b (set_refresh (RInitPut (sy_next y)) n) (send_put (mkPut (mkExternalStore (bk_cache n) None) None) y))
  | RInitPut id =>
      if success then
        a ← sy_answers y !! id;
        Some (set_broker b (set_refresh match a with PutOk => RSleep | _ => RInitGet end n) y)
      else Some (set_broker b (set_refresh RInitGet n) y)
  | RInitGet =>
      if success then _ ← hs_data (sy_service y); Some (set_broker b (set_refresh RSleep n) y)
      else Some (set_broker b (set_refresh RInit n) y)
  | RSleep => Some (set_broker b (set_refresh RReading n) y)
  | RReading =>
      if success then es ← hs_data (sy_service y); Some (set_broker b (set_refresh (RReplied es) n) y)
      else Some (set_broker b (set_refresh RSleep n) y)
  | RReplied es =>
      Some (if success then refresh_store order fresh quorum es b n y else set_broker b (set_refresh RSleep n) y)
  | RWriting id store =>
      if success then
        a ← sy_answers y !! id;
        Some (set_broker b (set_refresh RSleep match a with PutOk => set_cache store n | _ => n end) y)
      else Some (set_broker b (set_refresh RSleep n) y)
  end.

Definition arrive (id : nat) (y : System) : option System :=
  p ← sy_puts y !! id;
  let '(st, a) := hs_put (put_body p) (sy_service y) in
  Some (mkSystem st (delete id (sy_puts y)) (<[id := a]> (sy_answers y)) (sy_next y) (sy_brokers y)).

Definition step (a : Action) (y : System) : option System :=
  match a with
  | Boot b ordered => Some (set_broker b (broker_new ordered) y)
  | Begin b t r =>
      n ← sy_brokers y !! b;
      match bk_tasks n !! t with
      | Some _ => None
      | None =>
          if negb (is_write r) then None
          else Some (set_broker b match try_lock n with
                                  | Some n => set_task t (Reading r) n
                                  | None => set_task t (Finished r EndFailed (Err Retry)) n
                                  end y)
      end
  | Serve b t =>
      n ← sy_brokers y !! b;
      match bk_tasks n !! t with
      | Some (Reading r) => es ← hs_data (sy_service y); Some (set_broker b (set_task t (Replied r es) n) y)
      | _ => None
      end
  | GotReply b t order =>
      n ← sy_brokers y !! b;
      match bk_tasks n !! t with
      | Some (Replied r es) => Some (got_store order t r es b n y)
      | _ => None
      end
  | Arrive id => arrive id y
  | Answered b t =>
      n ← sy_brokers y !! b;
      match bk_tasks n !! t with
      | Some (Writing r order id store result) =>
          a ← sy_answers y !! id; Some (set_broker b (put_answered t r order id store result a n) y)
      | _ => None
      end
  | Lose b t timeout =>
      n ← sy_brokers y !! b;
      match bk_tasks n !! t with
      | Some (Reading r | Replied r _ | Writing r _ _ _ _) => Some (set_broker b (finish t r EndFailed (Err (lost timeout)) n) y)
      | _ => None
      end
  | Restore b other =>
      n ← sy_brokers y !! b;
      Some (set_broker b (restore_metadata other n) y)
  | RefreshStep b order fresh quorum success => n ← sy_brokers y !! b; refresh_step b order fresh quorum success n y
  end.

Definition system_new (st : http_store) : System := mkSystem st ∅ ∅ 0 ∅.

(** From a service without data; [restorable] are the stores that other
    brokers replicate to these. *)
Context (restorable : MetaStore → Prop).

Inductive system_reachable : System → Prop :=
| system_start st : hs_data st = None → system_reachable (system_new st)
| system_step a y y' :
    system_reachable y → match a with Restore _ other => restorable other | _ => True end → step a y = Some y' → system_reachable y'.

(** The store of a broker that has not heard of the service. *)
Definition first (s : MetaStore) : Prop := (∃ ordered, s = store_new ordered) ∨ restorable s.

(** ** The store as a sequence of requests *)

(** An accepted PUT: its number and the request it carried out. *)
Record entry : Type := mkEntry { en_id : nat; en_order : HashOrder; en_request : Request }.
Definition after (s0 : MetaStore) (log : list entry) : MetaStore :=
  foldl (λ s e, (exec (H := en_order e) (en_request e) s).1) s0 log.

Lemma after_snoc s0 log e : after s0 (log ++ [e]) = (exec (H := en_order e) (en_request e) (after s0 log)).1.
Proof. unfold after. by rewrite foldl_app. Qed.

Section invariant.
Context (s0 : MetaStore) (log : list entry) (y : System).

(** A store that was read: one of the past, and the current one if it has the
    current version. *)
Definition snapshot (es : ExternalStore) : Prop :=
  ∃ c, hs_data (sy_service y) = Some c ∧ (∀ v, es_version es = Some v → v ∈ hs_seen (sy_service y)) ∧
    ∃ i, i ≤ length log ∧ es_store es = after s0 (take i log) ∧
      (es_version es = es_version c → is_Some (es_version es) → i = length log).

(** A request that the log contains, with its effect. *)
Definition wrote (order : HashOrder) (r : Request) (id : nat) (x : MetaStore * res ()) : Prop :=
  ∃ i, log !! i = Some (mkEntry id order r) ∧ x = exec (H := order) r (after s0 (take i log)).
(** A request with its result on a store of the past. *)
Definition read (order : HashOrder) (r : Request) (result : res ()) : Prop :=
  is_Some (hs_data (sy_service y)) ∧ ∃ i, i ≤ length log ∧ result = (exec (H := order) r (after s0 (take i log))).2.

(** A store of the past, as a cache has it: the refreshing task may have
    dropped old failures from it. *)
Definition past (c : MetaStore) : Prop :=
  ∃ i, i ≤ length log ∧ (c = after s0 (take i log) ∨
    ∃ order fresh quorum, c = (cleanup_failures (H := order) fresh quorum (after s0 (take i log))).1).
Definition cache_ok (c : MetaStore) : Prop := first c ∨ is_Some (hs_data (sy_service y)) ∧ past c.

Definition put_ok (id : nat) (p : Put) : Prop :=
  id < sy_next y ∧ (id ∉ (en_id <$> log)) ∧ sy_answers y !! id = None ∧
  match put_origin p with
  | None => es_version (put_body p) = None ∧ cache_ok (es_store (put_body p))
  | Some (order, r, base) =>
      es_store (put_body p) = (exec (H := order) r base).1 ∧ is_Some (es_version (put_body p)) ∧
      snapshot (mkExternalStore base (es_version (put_body p)))
  end.

Definition writing_ok (r : Request) (order : HashOrder) (id : nat) (store : MetaStore) (result : res ()) : Prop :=
  (∃ p base, sy_puts y !! id = Some p ∧ put_origin p = Some (order, r, base) ∧ (store, result) = exec (H := order) r base) ∨
  (∃ a, sy_answers y !! id = Some a ∧ (a = PutOk → wrote order r id (store, result))).

Definition task_ok (x : Task) : Prop :=
  match x with
  | Reading _ => True
  | Replied _ es => snapshot es
  | Writing r order id store result => id < sy_next y ∧ writing_ok r order id store result
  | Finished r (EndRead order) result => read order r result
  | Finished r (EndWrote order id) result => id < sy_next y ∧ ∃ store, wrote order r id (store, result)
  | Finished r (EndRefused id) result => id < sy_next y ∧ sy_puts y !! id = None ∧ (id ∉ (en_id <$> log)) ∧ result = Err Retry
  | Finished _ EndFailed result =>
      ∃ e, result = Err e ∧ e ∈ [Retry; External; ExternalTimeout; EmptyExternalVersion]
  end.

Definition refresh_ok (x : Refresh) : Prop :=
  match x with
  | RReplied es => snapshot es
  | RWriting id store => id < sy_next y ∧ ∃ r order result, writing_ok r order id store result
  | _ => True
  end.

(** The number of the PUT of a request. *)
Definition task_put (x : Task) : option nat :=
  match x with
  | Writing _ _ id _ _ | Finished _ (EndWrote _ id | EndRefused id) _ => Some id
  | _ => None
  end.
Definition task_at (b t : nat) : option Task := n ← sy_brokers y !! b; bk_tasks n !! t.

Record inv : Prop := {
  iv_data : match hs_data (sy_service y) with Some es => es_store es = after s0 log | None => log = [] end;
  iv_first : is_Some (hs_data (sy_service y)) → first s0;
  iv_log : NoDup (en_id <$> log) ∧ ∀ id, id ∈ (en_id <$> log) → id < sy_next y ∧ is_Some (sy_answers y !! id);
  iv_puts id p : sy_puts y !! id = Some p → put_ok id p;
  iv_answers id a : sy_answers y !! id = Some a → id < sy_next y ∧ (a = PutConflict → id ∉ (en_id <$> log));
  iv_tasks b t x : task_at b t = Some x → task_ok x;
  iv_broker b n : sy_brokers y !! b = Some n → refresh_ok (bk_refresh n) ∧ cache_ok (bk_cache n);
  iv_once b t b' t' x x' id : task_at b t = Some x → task_at b' t' = Some x' →
    task_put x = Some id → task_put x' = Some id → b = b' ∧ t = t';
}.
End invariant.

(** *** Changes at the brokers *)

Lemma snapshot_same s0 log y y' es :
  sy_service y' = sy_service y → snapshot s0 log y es → snapshot s0 log y' es.
Proof. unfold snapshot. by intros ->. Qed.

Lemma cache_ok_same s0 log y y' c :
  sy_service y' = sy_service y → cache_ok s0 log y c → cache_ok s0 log y' c.
Proof. unfold cache_ok. by intros ->. Qed.

Lemma put_ok_same s0 log y y' id p :
  sy_service y' = sy_service y → sy_answers y' = sy_answers y → sy_next y ≤ sy_next y' → put_ok s0 log y id p → put_ok s0 log y' id p.
Proof.
  intros Hs Ha Hn (Hid & Hlog & Hans & Ho). unfold put_ok. rewrite Ha. split_and!; [lia|done|done|].
  destruct (put_origin p) as [[[order r] base]|]; [|destruct Ho; split; [done|by eapply cache_ok_same]].
  destruct Ho as (? & ? & ?). split_and!; [done..|]. by eapply snapshot_same.
Qed.

Lemma writing_ok_same s0 log y y' r order id store result :
  sy_answers y' = sy_answers y → sy_puts y ⊆ sy_puts y' → writing_ok s0 log y r order id store result → writing_ok s0 log y' r order id store result.
Proof.
  intros Ha Hp [(p & base & Hl & Ho & Hr)|(a & Hl & Hr)]; [left|right].
  - exists p, base. split; [by eapply lookup_weaken|done].
  - exists a. by rewrite Ha.
Qed.

Lemma task_ok_same s0 log y y' x :
  sy_service y' = sy_service y → sy_answers y' = sy_answers y → sy_next y ≤ sy_next y' → sy_puts y ⊆ sy_puts y' →
  (∀ id, id < sy_next y → sy_puts y !! id = None → sy_puts y' !! id = None) →
  task_ok s0 log y x → task_ok s0 log y' x.
Proof.
  intros Hs Ha Hn Hp Hnone. destruct x as [r|r es|r order id store result|r e result]; cbn; [done|by apply snapshot_same| |].
  - intros [Hid Hw]. split; [lia|by eapply writing_ok_same].
  - destruct e as [order|order id|id|]; [unfold read; by rewrite Hs|intros [? ?]; split; [lia|done]| |done].
    intros (? & ? & ? & ?). split_and!; [lia|by apply Hnone|done..].
Qed.

Lemma refresh_ok_same s0 log y y' x :
  sy_service y' = sy_service y → sy_answers y' = sy_answers y → sy_next y ≤ sy_next y' → sy_puts y ⊆ sy_puts y' →
  refresh_ok s0 log y x → refresh_ok s0 log y' x.
Proof.
  intros Hs Ha Hn Hp. destruct x; cbn; try done; [by apply snapshot_same|].
  intros [? (r & order & result & ?)]. split; [lia|]. exists r, order, result. by eapply writing_ok_same.
Qed.

Lemma task_put_lt s0 log y b t x id :
  inv s0 log y → task_at y b t = Some x → task_put x = Some id → id < sy_next y.
Proof.
  intros Hinv Hx Hid. pose proof (iv_tasks _ _ _ Hinv _ _ _ Hx) as Hok.
  destruct x as [| |r order i store result|r e result]; cbn in *; simplify_eq; [by destruct Hok|].
  destruct e; simplify_eq; by destruct Hok.
Qed.

Lemma task_at_insert y y' b n' b1 t :
  sy_brokers y' = <[b := n']> (sy_brokers y) →
  task_at y' b1 t = if decide (b1 = b) then bk_tasks n' !! t else task_at y b1 t.
Proof.
  intros Hb. unfold task_at. rewrite Hb. case_decide as Hc; [subst; by rewrite lookup_insert_eq|by rewrite lookup_insert_ne].
Qed.

Lemma inv_change s0 log y y' b n' :
  inv s0 log y → sy_service y' = sy_service y → sy_answers y' = sy_answers y → sy_brokers y' = <[b := n']> (sy_brokers y) →
  sy_next y ≤ sy_next y' → sy_puts y ⊆ sy_puts y' →
  (∀ id p, sy_puts y' !! id = Some p → sy_puts y !! id = Some p ∨ sy_next y ≤ id ∧ put_ok s0 log y' id p) →
  refresh_ok s0 log y' (bk_refresh n') → cache_ok s0 log y (bk_cache n') →
  (∀ t x, bk_tasks n' !! t = Some x → task_at y b t = Some x ∨
    task_ok s0 log y' x ∧ ∀ id, task_put x = Some id → (∃ x0, task_at y b t = Some x0 ∧ task_put x0 = Some id) ∨
      sy_next y ≤ id ∧ ∀ t' x', bk_tasks n' !! t' = Some x' → task_put x' = Some id → t' = t) →
  inv s0 log y'.
Proof.
  intros Hinv Hs Ha Hb Hn Hsub Hputs Hrefresh Hcache Htasks. pose proof Hinv as [Hdata Hfirst [Hnd Hlog] Hp Hans Ht Hr Honce].
  assert (∀ id, id < sy_next y → sy_puts y !! id = None → sy_puts y' !! id = None) as Hnone.
  { intros id Hid Hno. destruct (sy_puts y' !! id) as [p|] eqn:Hl; [|done]. destruct (Hputs _ _ Hl) as [?|[? _]]; [congruence|lia]. }
  (* what an id of a task of the new state says about the old one *)
  assert (∀ b1 t x id, task_at y' b1 t = Some x → task_put x = Some id →
    (∃ x0, task_at y b1 t = Some x0 ∧ task_put x0 = Some id) ∨
    sy_next y ≤ id ∧ b1 = b ∧ ∀ t' x', bk_tasks n' !! t' = Some x' → task_put x' = Some id → t' = t) as Hold.
  { intros b1 t x id Hx Hid. rewrite (task_at_insert y y' b n') in Hx by done. case_decide as Hc; [subst|by left; eauto].
    destruct (Htasks t x Hx) as [?|[_ Hput]]; [left; eauto|]. destruct (Hput id Hid) as [?|[? ?]]; [by left|by right]. }
  split.
  - by rewrite Hs.
  - by rewrite Hs.
  - split; [done|]. intros id Hid. rewrite Ha. destruct (Hlog id Hid). split; [lia|done].
  - intros id p Hl. destruct (Hputs id p Hl) as [Hold'|[_ ?]]; [|done]. eapply put_ok_same; eauto.
  - intros id a Hl. rewrite Ha in Hl. destruct (Hans id a Hl). split; [lia|done].
  - intros b1 t x Hx. rewrite (task_at_insert y y' b n') in Hx by done. case_decide as Hc; [|eapply task_ok_same; eauto].
    subst. destruct (Htasks t x Hx) as [Hx0|[? _]]; [|done]. eapply task_ok_same; eauto.
  - intros b1 n Hb1. rewrite Hb in Hb1. apply lookup_insert_Some in Hb1 as [[<- <-]|[_ Hb1]].
    + split; [done|by eapply cache_ok_same].
    + destruct (Hr _ _ Hb1). split; [by eapply refresh_ok_same|by eapply cache_ok_same].
  - intros b1 t1 b2 t2 x1 x2 id Hx1 Hx2 Hi1 Hi2.
    destruct (Hold _ _ _ _ Hx1 Hi1) as [(u1 & Hu1 & Hp1)|(Hge1 & -> & Hu1)],
      (Hold _ _ _ _ Hx2 Hi2) as [(u2 & Hu2 & Hp2)|(Hge2 & -> & Hu2)].
    + by eapply Honce.
    + pose proof (task_put_lt _ _ _ _ _ _ _ Hinv Hu1 Hp1). lia.
    + pose proof (task_put_lt _ _ _ _ _ _ _ Hinv Hu2 Hp2). lia.
    + split; [done|]. rewrite (task_at_insert y y' b n') in Hx1 by done. rewrite decide_True in Hx1 by done. by eapply Hu2.
Qed.

(** *** A PUT arrives *)

Section arrives.
Context `{!HttpStoreLaws}.
Context (s0 : MetaStore) (log : list entry) (y : System) (id : nat) (p : Put) (st' : http_store) (a : put_answer).
Hypothesis Hinv : inv s0 log y.
Hypothesis Hput : sy_puts y !! id = Some p.

Let y' : System := mkSystem st' (delete id (sy_puts y)) (<[id := a]> (sy_answers y)) (sy_next y) (sy_brokers y).

(** The invariant for a log [log'] and a first store [s0'] that keep what was
    known and account for this PUT. *)
Lemma inv_arrived s0' log' :
  match hs_data st' with Some es => es_store es = after s0' log' | None => log' = [] end →
  (is_Some (hs_data st') → first s0') → (∀ c, cache_ok s0 log y c → cache_ok s0' log' y' c) → NoDup (en_id <$> log') → (∀ i, i ∈ (en_id <$> log') → i ∈ (en_id <$> log) ∨ i = id) →
  (a = PutConflict → id ∉ (en_id <$> log')) →
  (∀ es, snapshot s0 log y es → snapshot s0' log' y' es) →
  (∀ order r i x, wrote s0 log order r i x → wrote s0' log' order r i x) →
  (∀ order r result, read s0 log y order r result → read s0' log' y' order r result) →
  (a = PutOk → ∀ order r base, put_origin p = Some (order, r, base) → wrote s0' log' order r id (exec (H := order) r base)) →
  inv s0' log' y'.
Proof.
  intros Hdata' Hfirst' Hcache Hnd' Hids Hconf Hsnap Hwrote Hread Hok. pose proof Hinv as [Hdata _ [Hnd Hlog] Hp Hans Ht Hr Honce].
  destruct (Hp _ _ Hput) as (Hlt & Hfresh & Hnone & _).
  assert (∀ i, i ≠ id → i ∉ (en_id <$> log) → i ∉ (en_id <$> log')) as Hout by (intros i Hne Hi [?|?]%Hids; done).
  assert (∀ r order i store result, writing_ok s0 log y r order i store result → writing_ok s0' log' y' r order i store result) as Hwriting.
  { intros r order i store result Hw. destruct (decide (i = id)) as [->|Hne].
    - right. exists a. cbn. rewrite lookup_insert_eq. split; [done|]. intros Ha.
      destruct Hw as [(q & base & Hq & Ho & ->)|(x & Hx' & _)]; [|congruence].
      rewrite Hput in Hq. injection Hq as <-. by apply Hok.
    - destruct Hw as [(q & base & ? & ? & ?)|(x & ? & ?)]; [left; exists q, base|right; exists x]; cbn.
      + by rewrite lookup_delete_ne.
      + rewrite lookup_insert_ne by done. auto. }
  split; [done|done| | | | | |exact Honce].
  - split; [done|]. intros i [Hi|Hi]%Hids; cbn.
    + destruct (Hlog i Hi) as [? [x Hx]]. split; [done|]. rewrite lookup_insert. case_decide; eauto.
    + subst. rewrite lookup_insert_eq. eauto.
  - intros i q Hq. cbn in Hq. apply lookup_delete_Some in Hq as [Hne Hq]. destruct (Hp _ _ Hq) as (? & ? & ? & Ho).
    unfold put_ok. cbn. rewrite lookup_insert_ne by done. split_and!; [done|by apply Hout|done|].
    destruct (put_origin q) as [[[order r] base]|]; [|destruct Ho; auto]. destruct Ho as (? & ? & ?). split_and!; try done. by apply Hsnap.
  - intros i x Hx. cbn in Hx. apply lookup_insert_Some in Hx as [[<- <-]|[Hne Hx]]; [done|].
    destruct (Hans _ _ Hx). split; [done|]. intros ?. apply Hout; auto.
  - intros b t x Hx. specialize (Ht b t x Hx). destruct x as [r|r es|r order i store result|r e result]; cbn in *; [done|auto| |].
    + destruct Ht. split; [done|by apply Hwriting].
    + destruct e as [order|order i|i|]; [auto|naive_solver| |done]. destruct Ht as (? & Hi & ? & ?).
      assert (i ≠ id) by congruence. split_and!; [done| |by apply Hout|done]. by rewrite lookup_delete_ne.
  - intros b n Hb. destruct (Hr b n Hb) as [Href ?]. split; [|auto]. destruct (bk_refresh n); try done; [by apply Hsnap|].
    destruct Href as [? (r & order & result & ?)]. split; [done|]. exists r, order, result. auto.
Qed.
End arrives.

Lemma take_snoc {A} i (l : list A) x : i ≤ length l → take i (l ++ [x]) = take i l.
Proof. intros Hi. by rewrite take_app_le. Qed.

(** *** The other steps *)

Lemma task_at_broker y b n t : sy_brokers y !! b = Some n → task_at y b t = bk_tasks n !! t.
Proof. intros Hb. unfold task_at. by rewrite Hb. Qed.

(** A broker changes without sending: one of its tasks may get to a state that
    is all right and has no PUT but the one it had. *)
Lemma inv_set_broker s0 log y b n n' :
  inv s0 log y → sy_brokers y !! b = Some n → refresh_ok s0 log y (bk_refresh n') → cache_ok s0 log y (bk_cache n') →
  (∀ t x, bk_tasks n' !! t = Some x → bk_tasks n !! t = Some x ∨
    task_ok s0 log y x ∧ ∀ id, task_put x = Some id → ∃ x0, bk_tasks n !! t = Some x0 ∧ task_put x0 = Some id) →
  inv s0 log (set_broker b n' y).
Proof.
  intros Hinv Hb Hr Hc Ht. apply (inv_change s0 log y _ b n'); try done; [by left|].
  intros t x Hx. rewrite (task_at_broker y b n t Hb). destruct (Ht t x Hx) as [?|[? Hid]]; [by left|right].
  split; [done|]. intros id Hi. left. auto.
Qed.

Lemma inv_set_task s0 log y b n n' t x :
  inv s0 log y → sy_brokers y !! b = Some n → bk_refresh n' = bk_refresh n → cache_ok s0 log y (bk_cache n') → bk_tasks n' = <[t := x]> (bk_tasks n) →
  task_ok s0 log y x → (∀ id, task_put x = Some id → ∃ x0, bk_tasks n !! t = Some x0 ∧ task_put x0 = Some id) →
  inv s0 log (set_broker b n' y).
Proof.
  intros Hinv Hb Hr Hc Ht Hok Hid. apply (inv_set_broker s0 log y b n); [done|done| |done|].
  - rewrite Hr. apply (iv_broker _ _ _ Hinv b n Hb).
  - intros u z Hz. rewrite Ht in Hz. apply lookup_insert_Some in Hz as [[<- <-]|[_ Hz]]; auto.
Qed.

Lemma inv_set_refresh s0 log y b n n' :
  inv s0 log y → sy_brokers y !! b = Some n → bk_tasks n' = bk_tasks n → refresh_ok s0 log y (bk_refresh n') → cache_ok s0 log y (bk_cache n') →
  inv s0 log (set_broker b n' y).
Proof.
  intros Hinv Hb Ht Hr Hc. apply (inv_set_broker s0 log y b n); [done..|]. intros t x Hx. rewrite Ht in Hx. by left.
Qed.

(** A broker sends a PUT, for a request or for its refreshing task. *)
Lemma inv_send s0 log y b n n' q :
  inv s0 log y → sy_brokers y !! b = Some n → put_ok s0 log (set_broker b n' (send_put q y)) (sy_next y) q →
  refresh_ok s0 log (set_broker b n' (send_put q y)) (bk_refresh n') → cache_ok s0 log y (bk_cache n') →
  (bk_tasks n' = bk_tasks n ∨ ∃ t r order base, bk_tasks n' =
     <[t := Writing r order (sy_next y) (exec (H := order) r base).1 (exec (H := order) r base).2]> (bk_tasks n) ∧ put_origin q = Some (order, r, base)) →
  inv s0 log (set_broker b n' (send_put q y)).
Proof.
  intros Hinv Hb Hq Hr Hc Ht.
  assert (sy_puts y !! sy_next y = None) as Hnone.
  { destruct (sy_puts y !! sy_next y) as [q'|] eqn:Hl; [|done]. destruct (iv_puts _ _ _ Hinv _ _ Hl). lia. }
  apply (inv_change s0 log y _ b n'); cbn; try done; [lia|by apply insert_subseteq| |].
  - intros id p Hl. apply lookup_insert_Some in Hl as [[<- <-]|[_ ?]]; [right; split; [lia|done]|by left].
  - intros t x Hx. rewrite (task_at_broker y b n t Hb). destruct Ht as [Ht|(u & r & order & base & Ht & Ho)]; [left; congruence|].
    rewrite Ht in Hx |- *. apply lookup_insert_Some in Hx as [[<- <-]|[_ ?]]; [right|by left]. cbn. split.
    + split; [lia|]. left. exists q, base. cbn. rewrite lookup_insert_eq. split_and!; try done. by destruct (exec r base).
    + intros id [= <-]. right. split; [lia|]. intros t' x' Hx' Hid. apply lookup_insert_Some in Hx' as [[<- _]|[_ Hx']]; [done|].
      rewrite <- (task_at_broker y b n t' Hb) in Hx'. pose proof (task_put_lt _ _ _ _ _ _ _ Hinv Hx' Hid). lia.
Qed.

Lemma puts_grow s0 log y b n' q : inv s0 log y → sy_puts y ⊆ sy_puts (set_broker b n' (send_put q y)).
Proof.
  intros Hinv. cbn. apply insert_subseteq. destruct (sy_puts y !! sy_next y) as [q'|] eqn:Hl; [|done].
  destruct (iv_puts _ _ _ Hinv _ _ Hl). lia.
Qed.

Section laws.
Context `{!HttpStoreLaws}.

(** The answer to a GET. *)
Lemma served_snapshot s0 log y es : inv s0 log y → hs_data (sy_service y) = Some es → snapshot s0 log y es.
Proof.
  intros Hinv Hes. exists es. split; [done|]. split; [intros v Hv; by eapply hs_current|].
  exists (length log). split; [done|]. rewrite firstn_all. pose proof (iv_data _ _ _ Hinv) as Hd. by rewrite Hes in Hd.
Qed.

Lemma arrive_inv s0 log y id y' :
  inv s0 log y → arrive id y = Some y' → ∃ s0' log', inv s0' log' y'.
Proof.
  intros Hinv Harr. unfold arrive in Harr. destruct (sy_puts y !! id) as [p|] eqn:Hput; [|done]. cbn in Harr.
  pose proof (hs_put_spec (put_body p) (sy_service y)) as Hspec.
  destruct (hs_put (put_body p) (sy_service y)) as [st' a]. injection Harr as <-. destruct Hspec as [Hseen Hspec].
  destruct (iv_puts _ _ _ Hinv _ _ Hput) as (Hlt & Hfresh & Hnone & Ho). destruct (iv_log _ _ _ Hinv) as [Hnd Hlog].
  destruct Hspec as [[Hdata Hok]|(Hallow & Hconf & v & Hdata & Hv)].
  { exists s0, log. apply (inv_arrived s0 log y id p st' a Hinv Hput); [| | |done|auto|done| |done| |].
    - rewrite Hdata. apply (iv_data _ _ _ Hinv).
    - rewrite Hdata. apply (iv_first _ _ _ Hinv).
    - intros c. unfold cache_ok. cbn. by rewrite Hdata.
    - intros es (c & Hc & Hvs & Hi). exists c. cbn. rewrite Hdata. split; [done|]. split; [|done]. set_solver.
    - intros order r result [? ?]. split; [cbn; by rewrite Hdata|done].
    - intros Ha order r base Hor. rewrite Hor in Ho. destruct Ho as (_ & [x Hx] & _). rewrite (Hok Ha) in Hx. done. }
  destruct (put_origin p) as [[[order r] base]|] eqn:Hor.
  - destruct Ho as (Hbody & Hsome & c & Hc & Hvs & i & Hi & Hbase & Hcur). cbn in Hbase, Hcur. rewrite Hc in Hallow.
    destruct Hallow as [Hver _]. assert (i = length log) as -> by auto. rewrite firstn_all in Hbase. subst base.
    exists s0, (log ++ [mkEntry id order r]). apply (inv_arrived s0 log y id p st' a Hinv Hput).
    + rewrite Hdata, after_snoc. done.
    + intros _. apply (iv_first _ _ _ Hinv). by rewrite Hc.
    + intros x [?|[_ (j & Hj & Hx)]]; [by left|right]. split; [cbn; by rewrite Hdata|]. exists j.
      rewrite length_app, take_snoc by done. split; [lia|done].
    + rewrite fmap_app. apply NoDup_app. split; [done|]. split; [|apply NoDup_singleton]. intros x Hx ->%list_elem_of_singleton. done.
    + intros x. rewrite fmap_app, elem_of_app. intros [?|Hx%list_elem_of_singleton]; auto.
    + done.
    + intros es (c' & Hc' & Hvs' & j & Hj & Hes & Hcur'). eexists. split; [exact Hdata|]. split; [set_solver|].
      exists j. rewrite length_app, take_snoc by done. split; [lia|]. split; [done|]. cbn. intros Hsame [x Hx].
      exfalso. apply (Hv x); [congruence|by apply Hvs'].
    + intros o q j result (k & Hk & Hres). exists k. pose proof (lookup_lt_Some _ _ _ Hk).
      rewrite take_snoc by lia. split; [by apply lookup_app_l_Some|done].
    + intros o q result (_ & k & Hk & Hres). split; [cbn; by rewrite Hdata|]. exists k. rewrite length_app, take_snoc by done.
      split; [lia|done].
    + intros Ha o q b Hob. rewrite Hor in Hob. injection Hob as <- <- <-. exists (length log).
      rewrite take_snoc, firstn_all by done. split; [by apply list_lookup_middle|done].
  - destruct Ho as [Hvn Ho]. unfold put_allowed in Hallow. destruct (hs_data (sy_service y)) as [c|] eqn:Hc; [destruct Hallow as [_ [x Hx]]; congruence|].
    assert (log = []) as -> by (pose proof (iv_data _ _ _ Hinv) as Hd; by rewrite Hc in Hd).
    destruct Ho as [Hfirst|[[? ?] _]]; [|congruence].
    exists (es_store (put_body p)), []. apply (inv_arrived s0 [] y id p st' a Hinv Hput); [by rewrite Hdata|done| |constructor|auto|done|..].
    + intros x [?|[[? ?] _]]; [by left|congruence].
    + intros es (c & Hc' & _). congruence.
    + intros o q j result (k & Hk & _). done.
    + intros o q result [[c Hc'] _]. congruence.
    + intros Ha o q b Hob. congruence.
Qed.

(** The PUT of a request that has read [es]. *)
Lemma request_put_ok s0 log y b n' order r es :
  inv s0 log y → snapshot s0 log y es → is_Some (es_version es) →
  let q := mkPut (mkExternalStore (exec (H := order) r (es_store es)).1 (es_version es)) (Some (order, r, es_store es)) in
  put_ok s0 log (set_broker b n' (send_put q y)) (sy_next y) q.
Proof.
  intros Hinv Hes Hv q. unfold put_ok. cbn. destruct (iv_log _ _ _ Hinv) as [_ Hlog]. split_and!; [lia| | |done|done|].
  - intros Hin%Hlog. lia.
  - destruct (sy_answers y !! sy_next y) as [a|] eqn:Ha; [|done]. destruct (iv_answers _ _ _ Hinv _ _ Ha). lia.
  - destruct es. exact Hes.
Qed.

Lemma got_store_inv s0 log y b n t order r es :
  inv s0 log y → sy_brokers y !! b = Some n → bk_tasks n !! t = Some (Replied r es) → inv s0 log (got_store order t r es b n y).
Proof.
  intros Hinv Hb Ht. assert (snapshot s0 log y es) as Hes.
  { apply (iv_tasks _ _ _ Hinv b t (Replied r es)). by rewrite (task_at_broker y b n). }
  assert (cache_ok s0 log y (es_store es)) as Hc.
  { destruct Hes as (c & Hc & _ & i & Hi & -> & _). right. split; [by rewrite Hc|]. exists i. auto. }
  unfold got_store. destruct (writes_back _ _ _); [destruct (es_version es) as [v|] eqn:Hv|].
  - rewrite <- Hv. apply (inv_send s0 log y b n); [done|done|apply request_put_ok; [done|done|by rewrite Hv]| |done|].
    + eapply (refresh_ok_same s0 log y); [done..|cbn; lia|by eapply puts_grow|apply (iv_broker _ _ _ Hinv b n Hb)].
    + right. exists t, r, order, (es_store es). split; reflexivity.
  - eapply (inv_set_task s0 log y b n); [done|done|done|done|done| |done]. cbn. eexists. split; [done|set_solver].
  - eapply (inv_set_task s0 log y b n); [done|done|done|done|done| |done]. cbn.
    destruct Hes as (c & Hd & _ & i & Hi & -> & _). split; [by rewrite Hd|]. eauto.
Qed.

(** The store of an accepted PUT is one of the past. *)
Lemma wrote_cache s0 log y order r id store result :
  inv s0 log y → wrote s0 log order r id (store, result) → cache_ok s0 log y store.
Proof.
  intros Hinv (i & Hi & Hx). right. split.
  - pose proof (iv_data _ _ _ Hinv) as Hd. destruct (hs_data _); [done|]. by subst log.
  - exists (S i). pose proof (lookup_lt_Some _ _ _ Hi). split; [lia|]. left.
    rewrite (take_S_r _ _ _ Hi), after_snoc. cbn. by rewrite <- Hx.
Qed.

Lemma put_answered_inv s0 log y b n t r order id store result a :
  inv s0 log y → sy_brokers y !! b = Some n → bk_tasks n !! t = Some (Writing r order id store result) →
  sy_answers y !! id = Some a → inv s0 log (set_broker b (put_answered t r order id store result a n) y).
Proof.
  intros Hinv Hb Ht Ha. destruct (iv_tasks _ _ _ Hinv b t (Writing r order id store result)) as [Hlt Hw]; [by rewrite (task_at_broker y b n)|].
  assert (sy_puts y !! id = None) as Hnone.
  { destruct (sy_puts y !! id) as [p|] eqn:Hp; [|done]. destruct (iv_puts _ _ _ Hinv _ _ Hp) as (_ & _ & ? & _). congruence. }
  destruct Hw as [(p & base & Hp & _)|(a' & Ha' & Hwrote)]; [congruence|]. rewrite Ha in Ha'. injection Ha' as <-.
  destruct (iv_answers _ _ _ Hinv _ _ Ha) as [_ Hconf]. destruct (iv_broker _ _ _ Hinv b n Hb) as [_ Hc]. destruct a; cbn [put_answered].
  - eapply (inv_set_task s0 log y b n); [done|done|done| |done| |]; cbn; [by eapply wrote_cache; auto|eauto|]. intros i [= <-]. eauto.
  - eapply (inv_set_task s0 log y b n); [done|done|done|done|done| |]; cbn; [auto|]. intros i [= <-]. eauto.
  - eapply (inv_set_task s0 log y b n); [done|done|done|done|done| |done]. cbn. eexists. split; [done|set_solver].
Qed.

Lemma refresh_step_inv s0 log y b n order fresh quorum success y' :
  inv s0 log y → sy_brokers y !! b = Some n → refresh_step b order fresh quorum success n y = Some y' → inv s0 log y'.
Proof.
  intros Hinv Hb Hstep. destruct (iv_broker _ _ _ Hinv b n Hb) as [Hr Hcache]. unfold refresh_step in Hstep.
  assert (∀ c x, refresh_ok s0 log y x → cache_ok s0 log y c →
    inv s0 log (set_broker b (mkBrokerNode (bk_lock n) c (bk_tasks n) x) y)) as Hset
    by (intros c x Hx Hc; by apply (inv_set_refresh s0 log y b n (mkBrokerNode _ c _ x))).
  destruct (bk_refresh n) as [|id| | | |es|id store] eqn:Hpc.
  - injection Hstep as <-. apply (inv_send s0 log y b n); [done|done| |done|done|by left].
    destruct (iv_log _ _ _ Hinv) as [_ Hlog]. unfold put_ok. cbn. split_and!; [lia| | |done|done].
    + intros Hin%Hlog. lia.
    + destruct (sy_answers y !! sy_next y) as [a|] eqn:Ha; [|done]. destruct (iv_answers _ _ _ Hinv _ _ Ha). lia.
  - destruct success; [|simplify_eq; by apply Hset]. destruct (sy_answers y !! id) as [a|]; [|done]. cbn in Hstep. simplify_eq.
    apply Hset; [by destruct a|done].
  - destruct success; [|simplify_eq; by apply Hset]. destruct (hs_data _); [|done]. cbn in Hstep. simplify_eq. by apply Hset.
  - simplify_eq. by apply Hset.
  - destruct success; [|simplify_eq; by apply Hset]. destruct (hs_data _) as [es|] eqn:Hes; [|done]. cbn in Hstep. simplify_eq.
    apply Hset; [by apply served_snapshot|done].
  - injection Hstep as <-. destruct success; [|by apply Hset]. unfold refresh_store.
    destruct (cleanup_failures fresh quorum (es_store es)) as [store changed] eqn:Hc.
    destruct changed; [destruct (es_version es) as [v|] eqn:Hv|].
    + rewrite <- Hv. replace store with (exec (H := order) (CleanupFailures fresh quorum) (es_store es)).1 by (cbn [exec]; by rewrite Hc).
      apply (inv_send s0 log y b n); [done|done|apply request_put_ok; [done|exact Hr|by rewrite Hv]| |done|by left].
      split; [cbn; lia|]. exists (CleanupFailures fresh quorum), order, (Ok ()). left.
      eexists _, (es_store es). cbn [sy_puts set_broker send_put]. by rewrite lookup_insert_eq.
    + by apply Hset.
    + apply Hset; [done|]. destruct Hr as (c & Hc' & _ & i & Hi & Hes & _). right. split; [by rewrite Hc'|]. exists i. split; [done|].
      right. exists order, fresh, quorum. by rewrite <- Hes, Hc.
  - destruct success; [|simplify_eq; by apply Hset]. destruct (sy_answers y !! id) as [a|] eqn:Ha; [|done]. cbn in Hstep. simplify_eq.
    destruct a; [|by apply Hset..]. apply Hset; [done|]. destruct Hr as [_ (r & o & result & Hw)].
    destruct Hw as [(p & base & Hp & _)|(a & Ha' & Hwrote)].
    + destruct (iv_puts _ _ _ Hinv _ _ Hp) as (_ & _ & ? & _). congruence.
    + rewrite Ha in Ha'. injection Ha' as <-. eapply wrote_cache; auto.
Qed.

Lemma step_inv s0 log a y y' :
  inv s0 log y → match a with Restore _ other => restorable other | _ => True end → step a y = Some y' →
  ∃ s0' log', inv s0' log' y'.
Proof.
  intros Hinv Hres Hstep. assert ((∃ id, a = Arrive id) ∨ ∀ id, a ≠ Arrive id) as [[id ->]|Hne] by (destruct a; eauto); [by eapply arrive_inv|].
  exists s0, log. destruct a as [b ordered|b t r|b t|b t order|id|b t|b t timeout|b other|b order fresh quorum success];
    [| | | |by destruct (Hne id)|..]; cbn [step] in Hstep;
    [|destruct (sy_brokers y !! b) as [n|] eqn:Hb; [cbn [mbind option_bind] in Hstep; destruct (iv_broker _ _ _ Hinv b n Hb) as [_ Hc]|done]..].
  - injection Hstep as <-. apply (inv_change s0 log y _ b (broker_new ordered)); try done; [by left|]. left. left. by exists ordered.
  - destruct (bk_tasks n !! t); [done|]. destruct (negb _); [done|].
    unfold try_lock in Hstep. destruct (bk_lock n); injection Hstep as <-; (eapply (inv_set_task s0 log y b n); [done|done|done|done|done| |done]); [|done].
    cbn. eexists. split; [done|set_solver].
  - destruct (bk_tasks n !! t) as [[r| | |]|]; try done. destruct (hs_data _) as [es|] eqn:Hes; [|done]. cbn in Hstep. injection Hstep as <-.
    eapply (inv_set_task s0 log y b n); [done|done|done|done|done| |done]. by apply served_snapshot.
  - destruct (bk_tasks n !! t) as [[|r es| |]|] eqn:Ht; try done. injection Hstep as <-. by apply got_store_inv.
  - destruct (bk_tasks n !! t) as [[| |r order id store result|]|] eqn:Ht; try done.
    destruct (sy_answers y !! id) as [x|] eqn:Hx; [|done]. cbn in Hstep. injection Hstep as <-. by apply put_answered_inv.
  - assert (∀ r, Some (set_broker b (finish t r EndFailed (Err (lost timeout)) n) y) = Some y' → inv s0 log y') as Hlost.
    { intros r [= <-]. eapply (inv_set_task s0 log y b n); [done|done|done|done|done| |done]. cbn. eexists. split; [done|].
      destruct timeout; set_solver. }
    destruct (bk_tasks n !! t) as [[]|]; try done; by eapply Hlost.
  - injection Hstep as <-. unfold restore_metadata. destruct (_ <=? _)%N.
    + by apply (inv_set_refresh s0 log y b n); try done; apply (iv_broker _ _ _ Hinv b n Hb).
    + apply (inv_set_refresh s0 log y b n); try done; [|by left; right]. apply (iv_broker _ _ _ Hinv b n Hb).
  - by eapply refresh_step_inv.
Qed.

Lemma system_inv y : system_reachable y → ∃ s0 log, inv s0 log y.
Proof.
  induction 1 as [st Hst|a y y' _ (s0 & log & Hinv) Hres Hstep]; [|by eapply step_inv].
  exists (store_new false), []. split; cbn; try done.
  - by rewrite Hst.
  - rewrite Hst. by intros [? ?].
  - split; [constructor|]. intros id Hid. set_solver.
Qed.
End laws.

(** ** The lock of a broker *)

Definition active (x : Task) : bool := match x with Finished _ _ _ => false | _ => true end.
Definition lock_ok (n : BrokerNode) : Prop :=
  ∀ t x, bk_tasks n !! t = Some x → active x = true →
    bk_lock n = true ∧ ∀ t' x', bk_tasks n !! t' = Some x' → active x' = true → t' = t.

Lemma lock_ok_move n n' t x x' :
  lock_ok n → bk_tasks n !! t = Some x → active x = true → bk_lock n' = bk_lock n → bk_tasks n' = <[t := x']> (bk_tasks n) → lock_ok n'.
Proof.
  intros Hok Hx Ha Hl Ht u z Hz Hza. destruct (Hok t x Hx Ha) as [Hlock Honly]. rewrite Hl. split; [done|].
  assert (∀ v w, bk_tasks n' !! v = Some w → active w = true → v = t) as Hall.
  { intros v w Hv Hw. rewrite Ht in Hv. apply lookup_insert_Some in Hv as [[<- _]|[_ Hv]]; [done|by eapply Honly]. }
  intros v w Hv Hw. by rewrite (Hall v w Hv Hw), (Hall u z Hz Hza).
Qed.

Lemma lock_ok_finish n c t x r e result :
  lock_ok n → bk_tasks n !! t = Some x → active x = true → lock_ok (finish t r e result (set_cache c n)).
Proof.
  intros Hok Hx Ha u z Hz Hza. cbn in Hz. apply lookup_insert_Some in Hz as [[<- <-]|[Hne Hz]]; [done|].
  destruct (Hok t x Hx Ha) as [_ Honly]. destruct Hne. symmetry. by eapply Honly.
Qed.

Lemma lock_ok_same n n' : bk_lock n' = bk_lock n → bk_tasks n' = bk_tasks n → lock_ok n → lock_ok n'.
Proof. unfold lock_ok. by intros -> ->. Qed.

Definition all_locks (y : System) : Prop := map_Forall (λ _, lock_ok) (sy_brokers y).
Lemma all_locks_set y y' b n' : all_locks y → sy_brokers y' = <[b := n']> (sy_brokers y) → lock_ok n' → all_locks y'.
Proof. unfold all_locks. intros Hy -> Hn. by apply map_Forall_insert_2. Qed.

Lemma step_locks a y y' : all_locks y → step a y = Some y' → all_locks y'.
Proof.
  intros Hy Hstep. assert ((∃ id, a = Arrive id) ∨ ∀ id, a ≠ Arrive id) as [[id ->]|Hne] by (destruct a; eauto).
  { cbn in Hstep. unfold arrive in Hstep. destruct (sy_puts y !! id); [|done]. cbn in Hstep. destruct (hs_put _ _). by injection Hstep as <-. }
  destruct a as [b ordered|b t r|b t|b t order|id|b t|b t timeout|b other|b order fresh quorum success];
    [| | | |by destruct (Hne id)|..]; cbn [step] in Hstep;
    [|destruct (sy_brokers y !! b) as [n|] eqn:Hb; [cbn [mbind option_bind] in Hstep; pose proof (Hy b n Hb) as Hn; cbn in Hn|done]..].
  - injection Hstep as <-. by eapply all_locks_set.
  - destruct (bk_tasks n !! t) eqn:Ht; [done|]. destruct (negb _); [done|].
    unfold try_lock in Hstep. destruct (bk_lock n) eqn:Hl; injection Hstep as <-; (eapply all_locks_set; [done|done|]); intros u z Hz Hza; cbn in *;
      apply lookup_insert_Some in Hz as [[<- <-]|[Hu Hz]]; try done.
    + destruct (Hn u z Hz Hza) as [? Honly]. split; [done|]. intros v w Hv Hw.
      apply lookup_insert_Some in Hv as [[<- <-]|[_ Hv]]; [done|by eapply Honly].
    + split; [done|]. intros v w Hv Hw. apply lookup_insert_Some in Hv as [[<- <-]|[_ Hv]]; [done|].
      destruct (Hn v w Hv Hw). congruence.
    + destruct (Hn u z Hz Hza). congruence.
  - destruct (bk_tasks n !! t) as [[r| | |]|] eqn:Ht; try done. destruct (hs_data _); [|done]. cbn in Hstep. injection Hstep as <-.
    eapply all_locks_set; [done|done|]. by eapply lock_ok_move.
  - destruct (bk_tasks n !! t) as [[|r es| |]|] eqn:Ht; try done. injection Hstep as <-. unfold got_store.
    destruct (writes_back _ _ _); [destruct (es_version es)|]; (eapply all_locks_set; [done|done|]); [|by eapply lock_ok_finish..].
    by eapply lock_ok_move.
  - destruct (bk_tasks n !! t) as [[| |r order id store result|]|] eqn:Ht; try done.
    destruct (sy_answers y !! id) as [x|] eqn:Hx; [|done]. cbn in Hstep. injection Hstep as <-.
    eapply all_locks_set; [done|done|]. destruct x; cbn [put_answered]; [by eapply lock_ok_finish|..];
      eapply (lock_ok_finish n (bk_cache n)); done.
  - assert (∀ r x, bk_tasks n !! t = Some x → active x = true →
      Some (set_broker b (finish t r EndFailed (Err (lost timeout)) n) y) = Some y' → all_locks y') as Hlost.
    { intros r x Hx Ha [= <-]. eapply all_locks_set; [done|done|]. by eapply (lock_ok_finish n (bk_cache n)). }
    destruct (bk_tasks n !! t) as [[]|] eqn:Ht; try done; by eapply Hlost.
  - injection Hstep as <-. eapply all_locks_set; [done|done|]. unfold restore_metadata. by destruct (_ <=? _)%N.
  - assert (∀ y0 n', sy_brokers y0 = <[b := n']> (sy_brokers y) → bk_lock n' = bk_lock n → bk_tasks n' = bk_tasks n → all_locks y0) as Hset.
    { intros y0 n' Hy0 Hl Ht. eapply all_locks_set; [done|done|by eapply lock_ok_same]. }
    unfold refresh_step in Hstep. destruct (bk_refresh n) as [|id| | | |es|id store]; try destruct success; simplify_eq/=;
      try destruct (sy_answers y !! id) as [[]|]; try destruct (hs_data _); simplify_eq/=; try by eapply Hset.
    unfold refresh_store. destruct (cleanup_failures _ _ _) as [store []]; [destruct (es_version es)|]; by eapply Hset.
Qed.

(** ** Runs within the limits *)

(** A request is within the limits on the store it has read, and other brokers
    replicate reachable stores. *)
Definition step_within (a : Action) (y : System) : Prop :=
  match a with
  | GotReply b t _ => ∀ n r es, sy_brokers y !! b = Some n → bk_tasks n !! t = Some (Replied r es) →
      room 2 (es_store es) ∧ within_limits r (es_store es)
  | RefreshStep b _ _ _ _ => ∀ n es, sy_brokers y !! b = Some n → bk_refresh n = RReplied es → room 2 (es_store es)
  | Restore _ other => reachable other
  | _ => True
  end.

Inductive limited_reachable : System → Prop :=
| limited_start st : hs_data st = None → limited_reachable (system_new st)
| limited_step a y y' : limited_reachable y → step_within a y → step a y = Some y' → limited_reachable y'.

Definition task_stores (x : Task) : Prop :=
  match x with Replied _ es => reachable (es_store es) | Writing _ _ _ store _ => reachable store | _ => True end.
Definition refresh_stores (x : Refresh) : Prop :=
  match x with RReplied es => reachable (es_store es) | RWriting _ store => reachable store | _ => True end.

(** Every store anywhere in the system is reachable. *)
Record node_stores (n : BrokerNode) : Prop := {
  ns_cache : reachable (bk_cache n);
  ns_tasks : map_Forall (λ _, task_stores) (bk_tasks n);
  ns_refresh : refresh_stores (bk_refresh n);
}.
Record stores_ok (y : System) : Prop := {
  so_data es : hs_data (sy_service y) = Some es → reachable (es_store es);
  so_puts : map_Forall (λ _ p, reachable (es_store (put_body p))) (sy_puts y);
  so_nodes : map_Forall (λ _, node_stores) (sy_brokers y);
}.

Lemma stores_broker y b n' : stores_ok y → node_stores n' → stores_ok (set_broker b n' y).
Proof. intros [Hd Hp Hn] Hn'. split; [done|done|]. by apply map_Forall_insert_2. Qed.
Lemma stores_send y q : stores_ok y → reachable (es_store (put_body q)) → stores_ok (send_put q y).
Proof. intros [Hd Hp Hn] Hq. split; [done| |done]. by apply map_Forall_insert_2. Qed.
Lemma node_stores_set l c t x r n :
  node_stores n → reachable c → task_stores x → refresh_stores r → node_stores (mkBrokerNode l c (<[t := x]> (bk_tasks n)) r).
Proof. intros [Hc Ht Hr] Hc' Hx Hr'. split; [done| |done]. by apply map_Forall_insert_2. Qed.

Lemma refresh_stores_step b order fresh quorum success n y y' :
  stores_ok y → node_stores n → (∀ es, bk_refresh n = RReplied es → room 2 (es_store es)) →
  refresh_step b order fresh quorum success n y = Some y' → stores_ok y'.
Proof.
  intros Hy Hn Hroom Hstep. pose proof Hn as [Hc Ht Hr]. unfold refresh_step in Hstep.
  assert (∀ y0 c x, stores_ok y0 → reachable c → refresh_stores x → stores_ok (set_broker b (mkBrokerNode (bk_lock n) c (bk_tasks n) x) y0))
    as Hset by (intros y0 c x Hy0 Hc' Hx; apply stores_broker; [done|by split]).
  destruct (bk_refresh n) as [|id| | | |es|id store] eqn:Hpc; try destruct success; simplify_eq/=;
    try destruct (sy_answers y !! id) as [[]|]; try destruct (hs_data _) eqn:Hdata; simplify_eq/=; try by apply Hset.
  - apply Hset; [by apply stores_send|done|done].
  - apply Hset; [by apply stores_send|done|done].
  - apply Hset; [done|done|]. by apply (so_data _ Hy).
  - assert (reachable (cleanup_failures (H := order) fresh quorum (es_store es)).1) as Hclean
      by (apply (reach_exec order (CleanupFailures fresh quorum)); [done|by apply Hroom|done]).
    unfold refresh_store. destruct (cleanup_failures _ _ _) as [store []]; [destruct (es_version es)|]; cbn in Hclean.
    + apply Hset; [by apply stores_send|done|done].
    + by apply Hset.
    + by apply Hset.
Qed.

Lemma arrive_stores `{!HttpStoreLaws} id y y' : stores_ok y → arrive id y = Some y' → stores_ok y'.
Proof.
  intros [Hd Hp Hn] Harr. unfold arrive in Harr. destruct (sy_puts y !! id) as [p|] eqn:Hput; [|done]. cbn in Harr.
  pose proof (hs_put_spec (put_body p) (sy_service y)) as Hspec. destruct (hs_put (put_body p) (sy_service y)) as [st' a].
  injection Harr as <-. destruct Hspec as [_ Hspec]. split; cbn; [|by apply map_Forall_delete|done].
  intros es Hes. destruct Hspec as [[Hsame _]|(_ & _ & v & Hnew & _)]; [apply Hd; congruence|].
  rewrite Hnew in Hes. injection Hes as <-. by apply (Hp id p).
Qed.

Lemma step_stores `{!HttpStoreLaws} a y y' : stores_ok y → step_within a y → step a y = Some y' → stores_ok y'.
Proof.
  intros Hy Hwithin Hstep. assert ((∃ id, a = Arrive id) ∨ ∀ id, a ≠ Arrive id) as [[id ->]|Hne] by (destruct a; eauto);
    [by eapply arrive_stores|].
  destruct a as [b ordered|b t r|b t|b t order|id|b t|b t timeout|b other|b order fresh quorum success];
    [| | | |by destruct (Hne id)|..]; cbn [step] in Hstep;
    [|destruct (sy_brokers y !! b) as [n|] eqn:Hb; [cbn [mbind option_bind] in Hstep; pose proof (so_nodes _ Hy b n Hb) as Hn; pose proof Hn as [Hc Hts Hr]|done]..].
  - injection Hstep as <-. apply stores_broker; [done|]. split; [constructor|apply map_Forall_empty|done].
  - destruct (bk_tasks n !! t); [done|]. destruct (negb _); [done|].
    unfold try_lock in Hstep. destruct (bk_lock n); injection Hstep as <-; (apply stores_broker; [done|]); by apply node_stores_set.
  - destruct (bk_tasks n !! t) as [[r| | |]|]; try done. destruct (hs_data _) as [es|] eqn:Hes; [|done]. cbn in Hstep. injection Hstep as <-.
    apply stores_broker; [done|]. apply node_stores_set; [done|done| |done]. by apply (so_data _ Hy).
  - destruct (bk_tasks n !! t) as [[|r es| |]|] eqn:Ht; try done. injection Hstep as <-.
    pose proof (Hts t _ Ht) as Hes. cbn in Hes. destruct (Hwithin n r es Hb Ht) as [Hroom Hlim].
    assert (reachable (exec (H := order) r (es_store es)).1) as Hx by by constructor.
    unfold got_store. destruct (writes_back _ _ _); [destruct (es_version es)|]; (apply stores_broker; [|by apply node_stores_set]);
      [by apply stores_send|done..].
  - destruct (bk_tasks n !! t) as [[| |r order id store result|]|] eqn:Ht; try done.
    destruct (sy_answers y !! id) as [x|]; [|done]. cbn in Hstep. injection Hstep as <-. pose proof (Hts t _ Ht) as Hst.
    apply stores_broker; [done|]. destruct x; by apply node_stores_set.
  - assert (∀ r, Some (set_broker b (finish t r EndFailed (Err (lost timeout)) n) y) = Some y' → stores_ok y') as Hlost.
    { intros r [= <-]. apply stores_broker; [done|]. by apply node_stores_set. }
    destruct (bk_tasks n !! t) as [[]|]; try done; by eapply Hlost.
  - injection Hstep as <-. apply stores_broker; [done|]. unfold restore_metadata. by destruct (_ <=? _)%N; [|split].
  - eapply refresh_stores_step; [done|done| |done]. intros es Hes. by eapply Hwithin.
Qed.
End external.

(** ** Claims *)


(** What a broker tells is a store that requests can reach, although the
    caches are not protected by the version: as long as the requests are
    within the limits on the stores they have read, the data of the service and
    the cache of every broker, from which it answers all reads, are reachable
    stores; and a broker has at most one request under way, which holds its
    lock. *)
Theorem external_caches_reachable `{UnicodeCase} `{HttpStoreLaws} y :
  limited_reachable y →
  (∀ es, hs_data (sy_service y) = Some es → reachable (es_store es)) ∧
  ∀ b n, sy_brokers y !! b = Some n → reachable (bk_cache n) ∧ lock_ok n.
Proof.
  intros Hy. assert (stores_ok y ∧ all_locks y) as [Hs Hl].
  { induction Hy as [st Hst|a y y' _ [IHs IHl] Hw Hstep]; [|split; [by eapply step_stores|by eapply step_locks]].
    split; [|apply map_Forall_empty]. split; [intros es Hes; cbn in Hes; congruence|apply map_Forall_empty..]. }
  split; [apply Hs|]. intros b n Hb. split; [by apply (so_nodes _ Hs b n)|by apply (Hl b n)].
Qed.

(** ** An example *)

(** A service that numbers the versions. *)
Definition demo_version (n : nat) : string := Nat.iter n (String.String "x") "".
Record counter_store : Type := mkCounterStore { ct_store : option MetaStore; ct_count : nat }.
Definition counter_put (es : ExternalStore) (st : counter_store) : counter_store * put_answer :=
  let accept := (mkCounterStore (Some (es_store es)) (S (ct_count st)), PutOk) in
  match ct_store st, es_version es with
  | None, None => accept
  | Some _, Some v => if bool_decide (v = demo_version (ct_count st)) then accept else (st, PutConflict)
  | _, _ => (st, PutConflict)
  end.

#[local] Instance counter_service : HttpStore := {|
  http_store := counter_store;
  hs_data st := (λ s, mkExternalStore s (Some (demo_version (ct_count st)))) <$> ct_store st;
  hs_seen st := list_to_set (demo_version <$> seq 0 (S (ct_count st)));
  hs_put := counter_put;
|}.

Lemma tick_inj n m : demo_version n = demo_version m → n = m.
Proof.
  intros Hn. assert (∀ k, String.length (demo_version k) = k) as Hl by (induction k as [|k IH]; cbn; [done|]; by f_equal).
  by rewrite <- (Hl n), Hn.
Qed.

#[local] Instance counter_laws : HttpStoreLaws.
Proof.
  split.
  - intros st es v Hes Hv. cbn [hs_data hs_seen counter_service] in *. apply fmap_Some in Hes as (s & _ & ->). injection Hv as <-.
    apply elem_of_list_to_set, list_elem_of_fmap_2, elem_of_seq. lia.
  - intros es st. cbn [hs_put counter_service].
    assert (put_allowed es (hs_data st) → let '(st', a) := (mkCounterStore (Some (es_store es)) (S (ct_count st)), PutOk) in
      hs_seen st ⊆ hs_seen st' ∧ ((hs_data st' = hs_data st ∧ (a = PutOk → es_version es = None)) ∨
        (put_allowed es (hs_data st) ∧ a ≠ PutConflict ∧
         ∃ v, hs_data st' = Some (mkExternalStore (es_store es) v) ∧ ∀ x, v = Some x → x ∉ hs_seen st))) as Haccept.
    { intros Hallow. split.
      - intros x (n & -> & Hn%elem_of_seq)%elem_of_list_to_set%list_elem_of_fmap. cbn in Hn.
        apply elem_of_list_to_set, list_elem_of_fmap_2, elem_of_seq. cbn. lia.
      - right. split; [done|]. split; [done|]. eexists. split; [reflexivity|].
        intros x [= <-] (n & Hn & Hin%elem_of_seq)%elem_of_list_to_set%list_elem_of_fmap. apply (tick_inj (S _)) in Hn. cbn in *. lia. }
    unfold counter_put. destruct (ct_store st) as [s|] eqn:Hs, (es_version es) as [v|] eqn:Hv; try (split; [done|]; by left).
    + case_bool_decide as Hc; [|split; [done|]; by left]. apply Haccept. cbn. rewrite Hs. cbn. rewrite Hv, Hc. eauto.
    + apply Haccept. cbn. by rewrite Hs.
Qed.

#[local] Existing Instance ascii_case.

(** A check that implies [step_within]. *)
Definition room_check (s : MetaStore) : bool := (global_epoch s + 2 <? u64_modulus)%N.
Definition step_check (a : Action) (y : System) : bool :=
  match a with
  | GotReply b t _ =>
      match task_at y b t with Some (Replied r es) => in_limits r && room_check (es_store es) | _ => true end
  | RefreshStep b _ _ _ _ =>
      match bk_refresh <$> sy_brokers y !! b with Some (RReplied es) => room_check (es_store es) | _ => true end
  | Restore _ _ => false
  | _ => true
  end.

Lemma step_check_ok a y : step_check a y = true → step_within a y.
Proof.
  destruct a; cbn; try done.
  - intros Hc n r es Hb Ht. rewrite (task_at_broker y b n t Hb), Ht in Hc. apply andb_true_iff in Hc as [Hl Hr%N.ltb_lt].
    split; [exact Hr|by apply in_limits_ok].
  - intros Hc n es Hb Hr. rewrite Hb in Hc. cbn in Hc. rewrite Hr in Hc. by apply N.ltb_lt in Hc.
Qed.

Fixpoint run_actions (l : list Action) (y : System) : option System :=
  match l with
  | [] => Some y
  | a :: l => if step_check a y then y ← step a y; run_actions l y else None
  end.

Lemma run_actions_reachable restorable l : ∀ y y',
  system_reachable restorable y → limited_reachable y →
  run_actions l y = Some y' → system_reachable restorable y' ∧ limited_reachable y'.
Proof.
  induction l as [|a l IH]; intros y y' Hy Hy' Hrun; cbn in Hrun; [by simplify_eq|].
  destruct (step_check a y) eqn:Hc; [|done]. destruct (step a y) as [y1|] eqn:Hs; [|done]. apply (IH y1); [|by econstructor; eauto using step_check_ok|done].
  apply (system_step restorable a y); [done|destruct a; cbn in Hc; done|done].
Qed.

(** Two brokers: the first one sets the data up; both add a proxy to the same
    version, and the one whose PUT comes second is refused. *)
Definition demo_actions : list Action :=
  let refresh b := RefreshStep b canonical_order (λ _, true) 1 true in
  [Boot 0 false; Boot 1 false; refresh 0; Arrive 0; refresh 0;
   Begin 0 0 (proxy_request "a" "70"); Begin 1 0 (proxy_request "b" "70"); Serve 0 0; Serve 1 0;
   GotReply 0 0 canonical_order; GotReply 1 0 canonical_order; Arrive 2; Arrive 1; Answered 1 0; Answered 0 0].
Definition demo_start : System := @system_new counter_service (mkCounterStore None 0).
Definition demo_system : System := default demo_start (run_actions demo_actions demo_start).

Lemma demo_system_reached restorable : system_reachable restorable demo_system ∧ limited_reachable demo_system.
Proof.
  apply (run_actions_reachable restorable demo_actions demo_start);
    [by apply system_start|by apply limited_start|vm_compute; reflexivity].
Qed.


Lemma external_caches_reachable_witness :
  (∀ es, hs_data (sy_service demo_system) = Some es → reachable (es_store es)) ∧
  ∀ b n, sy_brokers demo_system !! b = Some n → reachable (bk_cache n) ∧ lock_ok n.
Proof. exact (external_caches_reachable demo_system (proj2 (demo_system_reached (λ _, False)))). Defined.
