(* ===== verification/Replicas.v ===== *)
(** * The replicas of a broker

    [broker/replication.rs]: a broker sends its whole store to its replicas,
    which take it with [restore].  The requests are sent to all the replicas at
    the same time and arrive late, in any order or not at all; the broker
    changes its store in the meantime. *)

From S2P Require Import Prelude RangeList RustStr ClusterMeta Store SlotInv Query Migrate Plan.
From S2P Require Import Balance Commit ChunkAlloc Update Registry NewChunks Failover Broker Reach Resource Api Service.

(** The broker, the replicas, and the requests on their way. *)
Record ReplicaSystem : Type := mkReplicaSystem {
  rp_master : MetaStore;
  rp_replicas : gmap string MetaStore;
  rp_requests : list (string * MetaStore);
}.

(** [sync_one_replica]: the status of the answer, if there is one. *)
Definition sync_one_replica (response : option Response) : outcome MetaSyncError () :=
  match response with
  | None => Err Replication
  | Some r => if ((200 <=? rs_status r)%N && (rs_status r <? 300)%N) then Ok () else Err Replication
  end.

(** [sync_meta_impl]: the first error of the replicas. *)
Fixpoint sync_meta_impl (results : list (outcome MetaSyncError ())) : outcome MetaSyncError () :=
  match results with [] => Ok () | r :: results => _ ← r; sync_meta_impl results end.

(** The requests of one round. *)
Definition sync_requests (replica_addresses : list string) (store : MetaStore) : list (string * MetaStore) :=
  (λ address, (address, store)) <$> replica_addresses.

(** The handler of [PUT /metadata] at a replica. *)
Definition put_metadata (store : MetaStore) (s : MetaStore) : MetaStore * option Response :=
  let '(s', r) := empty_of (restore store) s in (s', warp_json r).

Section replication.
Context `{UnicodeCase}.

Inductive repl_step : ReplicaSystem → ReplicaSystem → Prop :=
| repl_exec (order : HashOrder) r m reps rqs :
    room 2 m → within_limits r m → repl_step (mkReplicaSystem m reps rqs) (mkReplicaSystem (exec r m).1 reps rqs)
| repl_sync addresses m reps rqs : repl_step (mkReplicaSystem m reps rqs) (mkReplicaSystem m reps (rqs ++ sync_requests addresses m))
| repl_arrive k address store rs m reps rqs :
    rqs !! k = Some (address, store) → reps !! address = Some rs →
    repl_step (mkReplicaSystem m reps rqs) (mkReplicaSystem m (<[address := (put_metadata store rs).1]> reps) (delete k rqs))
| repl_lost k m reps rqs : repl_step (mkReplicaSystem m reps rqs) (mkReplicaSystem m reps (delete k rqs)).

(** The replicas start empty, the broker with some store. *)
Inductive repl_reachable : ReplicaSystem → Prop :=
| repl_new m reps :
    reachable m → version m = UNDERMOON_MEM_BROKER_META_VERSION → (∀ a rs, reps !! a = Some rs → ∃ ordered, rs = store_new ordered) →
    repl_reachable (mkReplicaSystem m reps [])
| repl_next st st' : repl_reachable st → repl_step st st' → repl_reachable st'.

(** ** The versions of the store *)

Definition before (x y : MetaStore) : Prop := evolves x y ∨ ∃ ordered, x = store_new ordered.
Definition known (st : ReplicaSystem) (x : MetaStore) : Prop := (∃ a, rp_replicas st !! a = Some x) ∨ ∃ a, (a, x) ∈ rp_requests st.

Record repl_inv (st : ReplicaSystem) : Prop := {
  ri_master : reachable (rp_master st) ∧ version (rp_master st) = UNDERMOON_MEM_BROKER_META_VERSION;
  ri_known x : known st x → reachable x ∧ version x = UNDERMOON_MEM_BROKER_META_VERSION ∧ before x (rp_master st);
  ri_order x y : known st x → known st y → before x y ∨ before y x;
}.

Lemma exec_evolves (order : HashOrder) r m : reachable m → room 2 m → within_limits r m → evolves m (exec r m).1.
Proof. intros Hm Hr Hl. apply (steps_evolves m); [by apply reachable_wf|]. by apply steps_exec; [constructor|..]. Qed.

Lemma before_evolves x y z : before x y → evolves y z → before x z.
Proof. intros [Hx|Hx] Hy; [left; by etransitivity|by right]. Qed.

(** What a replica has after a request. *)
Lemma put_metadata_known store rs : (put_metadata store rs).1 = rs ∨ (put_metadata store rs).1 = store ∧ (global_epoch rs ≤ global_epoch store)%N.
Proof.
  unfold put_metadata, empty_of, body_of, mbind, SM_bind, restore. case_bool_decide; [by left|].
  destruct (N.ltb_spec (global_epoch store) (global_epoch rs)); [by left|by right].
Qed.

(** Steps that bring no store that was not known. *)
Lemma repl_inv_fewer st st' :
  repl_inv st → rp_master st' = rp_master st → (∀ x, known st' x → known st x) → repl_inv st'.
Proof.
  intros [Hm Hk Ho] He Hsub. split; rewrite ?He; [done|by eauto|by eauto].
Qed.

Lemma repl_step_inv st st' : repl_inv st → repl_step st st' → repl_inv st'.
Proof.
  intros Hinv Hstep. destruct Hstep as [order r m reps rqs Hr Hl|addresses m reps rqs|k address store rs m reps rqs Hk Hrs|k m reps rqs].
  - destruct Hinv as [[Hm Hv] Hk Ho]. cbn in Hm, Hv, Hk. pose proof (exec_evolves order r m Hm Hr Hl) as Hev. split; cbn.
    + split; [by constructor|]. by apply exec_keeps.
    + intros x Hx. destruct (Hk x Hx) as (? & ? & ?). split_and!; [done..|]. by eapply before_evolves.
    + apply Ho.
  - destruct Hinv as [[Hm Hv] Hk Ho]. cbn in Hm, Hv, Hk.
    assert (∀ x, known (mkReplicaSystem m reps (rqs ++ sync_requests addresses m)) x → known (mkReplicaSystem m reps rqs) x ∨ x = m) as Hkn.
    { intros x [Hx|[a [Hx|(b & [= -> ->] & _)%list_elem_of_fmap]%elem_of_app]]; [by left; left|left; right; by exists a|by right]. }
    split; cbn; [done|..].
    + intros x [Hx| ->]%Hkn; [by apply Hk|]. split_and!; [done..|]. by left.
    + intros x y [Hx| ->]%Hkn [Hy| ->]%Hkn; [by apply Ho|left; by apply Hk|right; by apply Hk|by left; left].
  - apply (repl_inv_fewer (mkReplicaSystem m reps rqs)); [done..|]. intros x [[a Hx]|[a Hx]].
    + cbn in Hx. apply lookup_insert_Some in Hx as [[<- Hx]|[_ Hx]]; [|left; by exists a].
      destruct (put_metadata_known store rs) as [He|[He _]]; rewrite He in Hx; subst x; [left; by exists address|].
      right. exists address. by eapply list_elem_of_lookup_2.
    + right. exists a. cbn in Hx. by eapply list_elem_of_delete_inv.
  - apply (repl_inv_fewer (mkReplicaSystem m reps rqs)); [done..|]. intros x [[a Hx]|[a Hx]]; [left; by exists a|right; exists a].
    cbn in Hx. by eapply list_elem_of_delete_inv.
Qed.

Lemma repl_reachable_inv st : repl_reachable st → repl_inv st.
Proof.
  induction 1 as [m reps Hm Hv Hreps|st st' _ IH Hs]; [|by eapply repl_step_inv].
  assert (∀ x, known (mkReplicaSystem m reps []) x → ∃ ordered, x = store_new ordered) as Hk.
  { intros x [[a Hx]|[a []%not_elem_of_nil]]. by eapply Hreps. }
  split; cbn; [done|..].
  - intros x [ordered ->]%Hk. split_and!; [constructor|done|right; eauto].
  - intros x y [ordered ->]%Hk _. left. right. eauto.
Qed.

(** The current store of the broker is always taken. *)
Lemma master_accepted m rs :
  before rs m → version rs = version m → put_metadata m rs = (m, Some (mkResponse 200 Empty)).
Proof.
  intros Hb Hv. unfold put_metadata, empty_of, body_of, mbind, SM_bind, restore. rewrite bool_decide_eq_false_2 by auto.
  destruct (N.ltb_spec (global_epoch m) (global_epoch rs)) as [Hlt|]; [|done].
  destruct Hb as [[Hle _]|[ordered ->]]; [lia|cbn in Hlt; lia].
Qed.

(** A store with a larger epoch has no cluster as it was earlier. *)
Lemma versions_forward rs x n cs cs' :
  reachable rs → reachable x → before rs x ∨ before x rs → (global_epoch rs ≤ global_epoch x)%N →
  clusters rs !! n = Some cs → clusters x !! n = Some cs' → cs' = cs ∨ (cs_epoch cs < cs_epoch cs')%N.
Proof.
  intros Hrs Hx Hb Hle Hcs Hcs'. pose proof (sf_epoch _ (reachable_wf rs Hrs) _ _ Hcs) as He.
  destruct Hb as [[[_ Hev]|[ordered ->]]|[[Hle' Hev]|[ordered ->]]]; [|done| |done].
  - destruct (Hev n cs' Hcs') as [Hcs1|Hlt]; [left; congruence|right; lia].
  - destruct (Hev n cs Hcs) as [Hcs1|Hlt]; [left; congruence|lia].
Qed.
End replication.

Lemma sync_meta_impl_Ok results : sync_meta_impl results = Ok () → ∀ r, r ∈ results → r = Ok ().
Proof.
  induction results as [|[[]|e|] results IH]; cbn; try done; [by intros _ r ?%not_elem_of_nil|].
  intros Hr r [->|Hin]%elem_of_cons; [done|by apply IH].
Qed.

(** C12. Replicas follow their broker: whatever requests are lost or arrive late
    or in another order while the broker changes its store, the store of a
    replica is a reachable one, so that it can take over; its epoch never
    decreases and no cluster goes back to an earlier state.  The current store
    of the broker is never refused: a replica that it reaches has exactly it. *)
Theorem replicas_follow `{UnicodeCase} st st' address rs rs' :
  repl_reachable st → repl_step st st' → rp_replicas st !! address = Some rs → rp_replicas st' !! address = Some rs' →
  (reachable rs' ∧ (global_epoch rs ≤ global_epoch rs')%N ∧
   ∀ n cs cs', clusters rs !! n = Some cs → clusters rs' !! n = Some cs' → cs' = cs ∨ (cs_epoch cs < cs_epoch cs')%N) ∧
  (put_metadata (rp_master st) rs).1 = rp_master st ∧ sync_one_replica (put_metadata (rp_master st) rs).2 = Ok ().
Proof.
  intros Hst%repl_reachable_inv Hstep Hrs Hrs'. assert (known st rs) as Hk by (left; by exists address).
  destruct (ri_known st Hst rs Hk) as (Hreach & Hv & Hb). destruct (ri_master st Hst) as [_ Hvm].
  split; [|by rewrite master_accepted by (done || congruence)].
  assert (rs' = rs → reachable rs' ∧ (global_epoch rs ≤ global_epoch rs')%N ∧
   ∀ n cs cs', clusters rs !! n = Some cs → clusters rs' !! n = Some cs' → cs' = cs ∨ (cs_epoch cs < cs_epoch cs')%N) as Hsame.
  { intros ->. split_and!; [done|lia|]. intros n cs cs' ? ?. left. congruence. }
  destruct Hstep as [order r m reps rqs _ _|addresses m reps rqs|k address1 store rs1 m reps rqs Hreq Hrs1|k m reps rqs]; cbn in Hrs, Hrs';
    try (apply Hsame; congruence).
  apply lookup_insert_Some in Hrs' as [[-> <-]|[_ Hrs']]; [|apply Hsame; congruence]. rewrite Hrs in Hrs1. injection Hrs1 as <-.
  destruct (put_metadata_known store rs) as [He|[He Hle]]; [by apply Hsame|]. rewrite He.
  assert (known (mkReplicaSystem m reps rqs) store) as Hks by (right; exists address; by eapply list_elem_of_lookup_2).
  destruct (ri_known _ Hst store Hks) as (Hrstore & _ & _). split_and!; [done|done|]. intros n cs cs'.
  apply versions_forward; [done..| |done]. by apply (ri_order _ Hst).
Qed.

(** ** An example *)

Section demo.
#[local] Existing Instances canonical_order ascii_case.

(** A replica that is empty, and the store of the broker on its way. *)
Definition demo_master : MetaStore := Reach.run [proxy_request "a" "70"] (store_new false).
Definition demo_system : ReplicaSystem :=
  mkReplicaSystem demo_master {[ "r:1" := store_new false ]} ([] ++ sync_requests ["r:1"] demo_master).
Definition demo_arrived : ReplicaSystem :=
  mkReplicaSystem demo_master (<["r:1" := (put_metadata demo_master (store_new false)).1]> {[ "r:1" := store_new false ]})
    (delete 0 ([] ++ sync_requests ["r:1"] demo_master)).

Lemma demo_master_reachable : reachable demo_master.
Proof. apply run_reachable; [constructor|]. vm_compute. reflexivity. Qed.

Lemma demo_system_reachable : repl_reachable demo_system.
Proof.
  eapply repl_next; [|apply repl_sync]. apply repl_new; [exact demo_master_reachable|vm_compute; reflexivity|].
  intros a rs [<- <-]%lookup_singleton_Some. by exists false.
Qed.

Lemma replicas_follow_witness :
  (reachable demo_master ∧ (global_epoch (store_new false) ≤ global_epoch demo_master)%N ∧
   ∀ n cs cs', clusters (store_new false) !! n = Some cs → clusters demo_master !! n = Some cs' → cs' = cs ∨ (cs_epoch cs < cs_epoch cs')%N) ∧
  (put_metadata demo_master (store_new false)).1 = demo_master ∧
  sync_one_replica (put_metadata demo_master (store_new false)).2 = Ok ().
Proof.
  apply (replicas_follow demo_system demo_arrived "r:1" (store_new false) demo_master).
  - exact demo_system_reachable.
  - exact (repl_arrive 0 "r:1" demo_master (store_new false) demo_master {[ "r:1" := store_new false ]}
      ([] ++ sync_requests ["r:1"] demo_master) eq_refl (lookup_singleton_eq _ _)).
  - exact (lookup_singleton_eq _ _).
  - vm_compute. reflexivity.
Defined.
End demo.
