(* ===== verification/WaitRegistry.v ===== *)
(** * Waiting for the commands of a migration

    [WaitRegistry] of [proxy/migration_backend.rs]: the task that ends a
    migration waits until all the commands that are still on their way are
    done.  The commands are counted; the last one or [close] gives the signal,
    and the two run at the same time.  Every operation is split at its atomic
    accesses, which interleave freely. *)

From S2P Require Import Prelude.

Record WaitRegistry : Type := mkWaitRegistry { wr_pending : N; wr_closed : bool; wr_signal : bool }.

(** [WaitRegistry::new]: the signal is there as long as nobody has dropped it. *)
Definition registry_new : WaitRegistry := mkWaitRegistry 0 false true.
Definition signalled (r : WaitRegistry) : Prop := wr_signal r = false.

(** Where a command is in [unregister]: not yet, after [fetch_sub] gave 1
    ([early]: when [closed] was not set yet), before [swap]. *)
Inductive TaskPhase : Type := Registered | WasLast (early : bool) | BeforeSwap.
(** Where [close] is: not called, after [store], before [swap], returned. *)
Inductive ClosePhase : Type := NotCalled | Stored | CloseSwap | Returned.
#[global] Instance ClosePhase_eq_dec : EqDecision ClosePhase.
Proof. solve_decision. Defined.

Record WaitState : Type := mkWaitState {
  ws_registry : WaitRegistry;
  ws_tasks : gmap nat TaskPhase;
  ws_close : ClosePhase;
  (** A command that was the last one before [close] has seen [closed]. *)
  ws_raced : bool;
}.

Definition wait_new : WaitState := mkWaitState registry_new ∅ NotCalled false.

Inductive WaitAction : Type :=
| Register (t : nat)
| FetchSub (t : nat) | LoadClosed (t : nat) | SwapSignal (t : nat)
| StoreClosed | LoadPending | CloseSwapSignal.

Definition set_pending (n : N) (r : WaitRegistry) : WaitRegistry := mkWaitRegistry n (wr_closed r) (wr_signal r).
Definition give_signal (r : WaitRegistry) : WaitRegistry := mkWaitRegistry (wr_pending r) (wr_closed r) false.
Definition set_closed (r : WaitRegistry) : WaitRegistry := mkWaitRegistry (wr_pending r) true (wr_signal r).

(** [WaitableTask::new_with_registry]. *)
Definition registered (t : nat) (st : WaitState) : WaitState :=
  mkWaitState (set_pending (wadd (wr_pending (ws_registry st)) 1) (ws_registry st)) (<[t := Registered]> (ws_tasks st)) (ws_close st) (ws_raced st).

(** A task is [Registered] as long as it lives; [drop] is [unregister].  The
    calls of [register] come before [close]. *)
Definition wait_step (a : WaitAction) (st : WaitState) : option WaitState :=
  let '(mkWaitState r tasks close raced) := st in
  match a with
  | Register t =>
      match tasks !! t, close with
      | None, NotCalled => Some (registered t st)
      | _, _ => None
      end
  | FetchSub t =>
      match tasks !! t with
      | Some Registered =>
          let r' := set_pending (wsub (wr_pending r) 1) r in
          Some (mkWaitState r' (if (wr_pending r =? 1)%N then <[t := WasLast (negb (wr_closed r))]> tasks else delete t tasks) close raced)
      | _ => None
      end
  | LoadClosed t =>
      match tasks !! t with
      | Some (WasLast early) =>
          Some (if wr_closed r then mkWaitState r (<[t := BeforeSwap]> tasks) close (raced || early)
                else mkWaitState r (delete t tasks) close raced)
      | _ => None
      end
  | SwapSignal t =>
      match tasks !! t with Some BeforeSwap => Some (mkWaitState (give_signal r) (delete t tasks) close raced) | _ => None end
  | StoreClosed => match close with NotCalled => Some (mkWaitState (set_closed r) tasks Stored raced) | _ => None end
  | LoadPending =>
      match close with
      | Stored => Some (mkWaitState r tasks (if (wr_pending r =? 0)%N then CloseSwap else Returned) raced)
      | _ => None
      end
  | CloseSwapSignal => match close with CloseSwap => Some (mkWaitState (give_signal r) tasks Returned raced) | _ => None end
  end.

(** There are fewer than 2^64 tasks. *)
Inductive wait_reachable : WaitState → Prop :=
| wait_start : wait_reachable wait_new
| wait_next a st st' : wait_reachable st → (wr_pending (ws_registry st) + 1 < u64_modulus)%N → wait_step a st = Some st' → wait_reachable st'.

Definition is_registered (p : TaskPhase) : Prop := p = Registered.
#[global] Instance is_registered_dec p : Decision (is_registered p).
Proof. unfold is_registered. destruct p; (by left) || (by right). Defined.

(** The tasks that live. *)
Definition live_tasks (tasks : gmap nat TaskPhase) : gmap nat TaskPhase := filter (λ kv, is_registered kv.2) tasks.
Definition about_to_signal (st : WaitState) : Prop :=
  (∃ t p, ws_tasks st !! t = Some p ∧ p ≠ Registered) ∨ ws_close st = Stored ∨ ws_close st = CloseSwap.

Record wait_inv (st : WaitState) : Prop := {
  wi_pending : wr_pending (ws_registry st) = N.of_nat (size (live_tasks (ws_tasks st)));
  wi_closed : wr_closed (ws_registry st) = true ↔ ws_close st ≠ NotCalled;
  wi_swap t : ws_tasks st !! t = Some BeforeSwap → wr_closed (ws_registry st) = true;
  wi_safe : signalled (ws_registry st) → wr_closed (ws_registry st) = true;
  wi_last t : ws_tasks st !! t = Some (WasLast false) → wr_pending (ws_registry st) = 0%N ∧ wr_closed (ws_registry st) = true;
  wi_before t : ws_tasks st !! t = Some BeforeSwap → ws_raced st = true ∨ wr_pending (ws_registry st) = 0%N;
  wi_close : ws_close st = CloseSwap → wr_pending (ws_registry st) = 0%N;
  wi_sound : signalled (ws_registry st) → ws_raced st = true ∨ wr_pending (ws_registry st) = 0%N;
  wi_live : wr_closed (ws_registry st) = true → wr_pending (ws_registry st) = 0%N → signalled (ws_registry st) ∨ about_to_signal st;
}.

(** What a step of a task does to the number of those that live. *)
Lemma live_insert t p tasks : p ≠ Registered → live_tasks (<[t := p]> tasks) = delete t (live_tasks tasks).
Proof. intros Hp. unfold live_tasks. rewrite map_filter_insert_False by done. by rewrite map_filter_delete. Qed.
Lemma live_delete t tasks : live_tasks (delete t tasks) = delete t (live_tasks tasks).
Proof. apply map_filter_delete. Qed.
Lemma live_not t p tasks : tasks !! t = Some p → p ≠ Registered → live_tasks tasks !! t = None.
Proof. intros Ht Hp. apply map_lookup_filter_None. right. intros q Hq. rewrite Ht in Hq. injection Hq as <-. exact Hp. Qed.
Lemma live_size t tasks : tasks !! t = Some Registered → size (live_tasks tasks) = S (size (delete t (live_tasks tasks))).
Proof.
  intros Ht. rewrite map_size_delete_Some; [|exists Registered; by apply map_lookup_filter_Some].
  assert (size (live_tasks tasks) ≠ 0); [|lia]. apply map_size_non_empty_iff. intros He.
  assert (live_tasks tasks !! t = Some Registered) as Hl by by apply map_lookup_filter_Some. by rewrite He in Hl.
Qed.

(** The tasks go on. *)
Lemma register_inv t st st' :
  wait_inv st → (wr_pending (ws_registry st) + 1 < u64_modulus)%N → wait_step (Register t) st = Some st' → wait_inv st'.
Proof.
  destruct st as [[n closed signal] tasks close raced]. intros [Hp Hc Hw Hs Hla Hb _ _ _] Hn. cbn in Hp, Hc, Hw, Hs, Hla, Hb, Hn. cbn [wait_step].
  destruct (tasks !! t) eqn:Ht; [done|]. destruct close; [|done..]. intros [= <-].
  assert (live_tasks tasks !! t = None) as Hno by (apply map_lookup_filter_None; by left).
  assert (live_tasks (<[t := Registered]> tasks) = <[t := Registered]> (live_tasks tasks)) as Hins by by apply map_filter_insert_True.
  assert (∀ t' p, p ≠ Registered → <[t := Registered]> tasks !! t' = Some p → tasks !! t' = Some p) as Hold.
  { intros t' p Hne [[_ ?]|[_ ?]]%lookup_insert_Some; congruence. }
  assert (closed ≠ true) as Hopen by (intros Hcl; by apply Hc in Hcl).
  split; cbn; [|done|..|done].
  - rewrite Hins, map_size_insert_None by done. rewrite wadd_small by lia. lia.
  - intros t' Ht'. by apply (Hw t'), Hold.
  - done.
  - intros t' Ht'. destruct (Hla t') as [_ Hcl]; [by apply Hold|done].
  - intros t' Ht'. destruct Hopen. by apply (Hw t'), Hold.
  - done.
  - intros Hsig. by destruct Hopen, (Hs Hsig).
Qed.

Lemma fetch_sub_inv t st st' :
  wait_inv st → (wr_pending (ws_registry st) + 1 < u64_modulus)%N → wait_step (FetchSub t) st = Some st' → wait_inv st'.
Proof.
  destruct st as [[n closed signal] tasks close raced]. intros [Hp Hc Hw Hs Hla Hb Hcl Hso _] Hn. cbn in Hp, Hc, Hw, Hs, Hla, Hb, Hcl, Hso, Hn.
  cbn [wait_step]. destruct (tasks !! t) as [[]|] eqn:Ht; [|done..]. intros [= <-]. pose proof (live_size t tasks Ht) as Hsize.
  set (tasks' := if (n =? 1)%N then <[t := WasLast (negb closed)]> tasks else delete t tasks).
  assert (live_tasks tasks' = delete t (live_tasks tasks)) as Hlive.
  { subst tasks'. destruct (n =? 1)%N; [by apply live_insert|apply live_delete]. }
  assert (∀ t', tasks' !! t' = Some BeforeSwap → tasks !! t' = Some BeforeSwap) as Hbe.
  { subst tasks'. intros t'. destruct (n =? 1)%N; [|by intros [_ ?]%lookup_delete_Some]. by intros [[_ ?]|[_ ?]]%lookup_insert_Some. }
  assert (∀ t', tasks' !! t' = Some (WasLast false) → n = 1%N ∧ closed = true ∨ tasks !! t' = Some (WasLast false)) as Hlb.
  { subst tasks'. intros t'. destruct (N.eqb_spec n 1); [|intros [_ ?]%lookup_delete_Some; by right].
    intros [[_ Heq]|[_ ?]]%lookup_insert_Some; [left|by right]. by destruct closed. }
  split; cbn [ws_registry ws_tasks ws_close ws_raced wr_pending wr_closed wr_signal set_pending]; [|done|by eauto|done|..];
    rewrite ?wsub_small by lia.
  - rewrite Hlive. lia.
  - intros t' [[-> ->]|Hl]%Hlb; [done|]. apply Hla in Hl as [-> ->]. lia.
  - intros t' [->|Hz]%Hbe%Hb; [by left|]. lia.
  - intros Hz%Hcl. lia.
  - intros [->|Hz]%Hso; [by left|]. lia.
  - intros _ Hz. right. left. exists t, (WasLast (negb closed)). split; [|done]. cbn. subst tasks'.
    destruct (N.eqb_spec n 1); [apply lookup_insert_eq|lia].
Qed.

Lemma load_closed_inv t st st' : wait_inv st → wait_step (LoadClosed t) st = Some st' → wait_inv st'.
Proof.
  destruct st as [[n closed signal] tasks close raced]. intros [Hp Hc Hw Hs Hla Hb Hcl Hso _]. cbn in Hp, Hc, Hw, Hs, Hla, Hb, Hcl, Hso.
  cbn [wait_step wr_closed]. destruct (tasks !! t) as [[|early|]|] eqn:Ht; [done| |done..]. intros [= <-].
  assert (delete t (live_tasks tasks) = live_tasks tasks) as Hno by (apply delete_id; by eapply live_not).
  destruct closed; split; cbn; try done.
  - by rewrite live_insert, Hno.
  - intros t' [[_ ?]|[_ ?]]%lookup_insert_Some; [done|by eapply Hla].
  - intros t' [[_ _]|[_ Ht']]%lookup_insert_Some.
    + destruct early; [left; by rewrite orb_true_r|right]. by eapply Hla.
    + destruct (Hb t' Ht') as [->|]; [by left|by right].
  - intros [->|]%Hso; [by left|by right].
  - intros _ _. right. left. exists t, BeforeSwap. cbn. by rewrite lookup_insert_eq.
  - by rewrite live_delete, Hno.
  - intros t' [_ ?]%lookup_delete_Some. by eapply Hw.
  - intros t' [_ ?]%lookup_delete_Some. by eapply Hla.
  - intros t' [_ ?]%lookup_delete_Some. by eapply Hb.
Qed.

Lemma swap_signal_inv t st st' : wait_inv st → wait_step (SwapSignal t) st = Some st' → wait_inv st'.
Proof.
  destruct st as [[n closed signal] tasks close raced]. intros [Hp Hc Hw Hs Hla Hb Hcl Hso _]. cbn in Hp, Hc, Hw, Hs, Hla, Hb, Hcl, Hso.
  cbn [wait_step]. destruct (tasks !! t) as [[]|] eqn:Ht; [done..| |done]. intros [= <-].
  assert (delete t (live_tasks tasks) = live_tasks tasks) as Hno by (apply delete_id; by eapply live_not).
  split; cbn; [by rewrite live_delete, Hno|done|intros t' [_ ?]%lookup_delete_Some; by eapply Hw|intros _; by eapply Hw
    |intros t' [_ ?]%lookup_delete_Some; by eapply Hla|intros t' [_ ?]%lookup_delete_Some; by eapply Hb|done|intros _; by eapply Hb|by left].
Qed.

Lemma wait_step_inv a st st' :
  wait_inv st → (wr_pending (ws_registry st) + 1 < u64_modulus)%N → wait_step a st = Some st' → wait_inv st'.
Proof.
  destruct a as [t|t|t|t| | |]; [by apply register_inv|by apply fetch_sub_inv|intros Hi _; by apply load_closed_inv
    |intros Hi _; by apply swap_signal_inv|..];
    destruct st as [[n closed signal] tasks close raced]; intros [Hp Hc Hw Hs Hla Hb Hcl Hso Hl] _;
    cbn in Hp, Hc, Hw, Hs, Hla, Hb, Hcl, Hso, Hl; cbn [wait_step wr_pending]; destruct close; try done; intros [= <-].
  - split; cbn; try done; [intros t' Ht'; by destruct (Hla t' Ht')|intros _ _; right; right; by left].
  - destruct (N.eqb_spec n 0) as [Hz|Hz]; split; cbn; try done; [by rewrite Hc|intros _ _; right; right; by right|by rewrite Hc].
  - split; cbn; try done; [by rewrite Hc|intros _; by apply Hc|intros _; right; by apply Hcl|by left].
Qed.

Lemma wait_reachable_inv st : wait_reachable st → wait_inv st.
Proof. induction 1 as [|a st st' _ IH Hn Hs]; [split; cbn; try done; by split|by eapply wait_step_inv]. Qed.

Lemma wait_sound st : wait_inv st → signalled (ws_registry st) → ws_raced st = true ∨ live_tasks (ws_tasks st) = ∅.
Proof.
  intros Hst Hs. destruct (wi_sound st Hst Hs) as [|Hz]; [by left|right]. rewrite (wi_pending st Hst) in Hz.
  apply map_size_empty_iff. lia.
Qed.

Lemma wait_complete st : wait_inv st → ws_close st = Returned → ws_tasks st = ∅ → signalled (ws_registry st).
Proof.
  intros Hst Hret Hempty. destruct (wi_live st Hst) as [Hsig|[(t & p & Ht & _)|[Hc|Hc]]]; [| |done|..]; try congruence.
  - apply (wi_closed st Hst). by rewrite Hret.
  - rewrite (wi_pending st Hst), Hempty. done.
  - by rewrite Hempty in Ht.
Qed.

(** The signal is not lost: however the commands that end and [close]
    interleave, the signal is given only after [close] was called, and not while
    a command is on its way, unless one that was the last before [close] has
    looked at [closed] after it; and when [close] has returned and no command is
    left, it has been given.  So the task that ends the migration does not wait
    for ever. *)
Theorem wait_signal_not_lost st :
  wait_reachable st →
  (signalled (ws_registry st) → ws_close st ≠ NotCalled ∧ (ws_raced st = true ∨ live_tasks (ws_tasks st) = ∅)) ∧
  (ws_close st = Returned → ws_tasks st = ∅ → signalled (ws_registry st)).
Proof.
  intros Hst%wait_reachable_inv. split; [intros Hs; split; [by apply (wi_closed st Hst), (wi_safe st Hst)|by apply wait_sound]|].
  by apply wait_complete.
Qed.

(** Runs within the number of tasks. *)
Definition bounded_step (a : WaitAction) (st : WaitState) : option WaitState :=
  if (wr_pending (ws_registry st) + 1 <? u64_modulus)%N then wait_step a st else None.
Definition wait_run (actions : list WaitAction) : option WaitState :=
  run_steps bounded_step actions wait_new.

Lemma wait_run_reachable actions st : wait_run actions = Some st → wait_reachable st.
Proof.
  apply (run_steps_invariant _ wait_reachable); [|constructor]. intros a s s' _ Hs. unfold bounded_step.
  destruct (N.ltb_spec (wr_pending (ws_registry s) + 1) u64_modulus); [|done]. by apply wait_next.
Qed.

Definition demo_wait_actions : list WaitAction :=
  [Register 0; StoreClosed; FetchSub 0; LoadPending; LoadClosed 0; SwapSignal 0; CloseSwapSignal].
Definition demo_wait : WaitState := default wait_new (wait_run demo_wait_actions).
Definition early_actions : list WaitAction :=
  [Register 0; FetchSub 0; Register 1; StoreClosed; LoadPending; LoadClosed 0; SwapSignal 0].
Definition early_wait : WaitState := default wait_new (wait_run early_actions).

Lemma wait_signal_not_lost_witness :
  (signalled (ws_registry demo_wait) →
    ws_close demo_wait ≠ NotCalled ∧ (ws_raced demo_wait = true ∨ live_tasks (ws_tasks demo_wait) = ∅)) ∧
  (ws_close demo_wait = Returned → ws_tasks demo_wait = ∅ → signalled (ws_registry demo_wait)).
Proof. apply (wait_signal_not_lost demo_wait), (wait_run_reachable demo_wait_actions). vm_compute. reflexivity. Defined.

(** The signal may come too early: a command that was the last one for a
    moment looks at [closed] only after another command was registered and
    [close] was called, and gives the signal while that one is still on its
    way, although every [register] came before [close]. *)
Theorem wait_signal_early : ∃ actions st, wait_run actions = Some st ∧ wait_reachable st ∧
  signalled (ws_registry st) ∧ ws_tasks st = {[ 1 := Registered ]}.
Proof.
  exists early_actions, early_wait. assert (wait_run early_actions = Some early_wait) as Hrun by (vm_compute; reflexivity).
  split; [exact Hrun|]. split; [exact (wait_run_reachable _ _ Hrun)|]. split; vm_compute; reflexivity.
Qed.
