(* ===== verification/Shutdown.v ===== *)
(** * The end of an importing task

    [RestoreDataCmdTaskHandler::run_task_handler] of
    [proxy/migration_backend.rs]: six handlers take commands from channels and
    hand them on, all polled by one future.  When the task is stopped the
    channels are closed one after the other, each after the handler before it
    has ended, so that the commands that are still on their way are finished.
    What the nodes reply is an argument of the steps; what the handlers do to
    the keys is in [Transfer].  At the end the registry of the commands at the
    destination ([WaitRegistry]) is closed and its signal awaited. *)

From stdpp Require Import functions.
From S2P Require Import Prelude WaitRegistry.

(** The channels, in the order in which they are closed. *)
Inductive Chan : Type := ChExists | ChPendingUmSync | ChDumpPttl | ChRestore | ChUmSync | ChDel.
#[global] Instance Chan_eq_dec : EqDecision Chan.
Proof. solve_decision. Defined.

Definition chan_index (c : Chan) : nat :=
  match c with ChExists => 0 | ChPendingUmSync => 1 | ChDumpPttl => 2 | ChRestore => 3 | ChUmSync => 4 | ChDel => 5 end.
Definition chans : list Chan := [ChExists; ChPendingUmSync; ChDumpPttl; ChRestore; ChUmSync; ChDel].

(** A command with its key; in [ChRestore] and [ChDel] the command is gone and
    the key is being restored or deleted at the source. *)
Record Item : Type := mkItem { it_id : nat; it_key : nat }.

(** What becomes of a command: an error reply (that of a dropped command
    included), the destination node, or another try of the caller. *)
Inductive CmdFate : Type := AnsweredError | SentToDst | Retried.

Record Handlers : Type := mkHandlers {
  ha_queue : Chan → list Item;
  ha_busy : Chan → option Item;
  ha_open : Chan → bool;
  ha_ended : Chan → bool;
  (** The handlers whose end a [select!] has seen. *)
  ha_seen : Chan → bool;
  (** The [select!] that runs; 6 is the wait for the registry, 7 the end. *)
  ha_stage : nat;
  ha_arrived : list nat;
  ha_fates : list (nat * CmdFate);
  (** Work that a closed channel has refused. *)
  ha_lost : list Item;
  (** The tasks sent to the destination: the commands and the restores. *)
  ha_wait : WaitState;
}.

Definition handlers_new : Handlers := mkHandlers (λ _, []) (λ _, None) (λ _, true) (λ _, false) (λ _, false) 0 [] [] [] wait_new.

Definition set_queue (c : Chan) (q : list Item) (h : Handlers) : Handlers :=
  mkHandlers (<[c := q]> (ha_queue h)) (ha_busy h) (ha_open h) (ha_ended h) (ha_seen h) (ha_stage h) (ha_arrived h) (ha_fates h) (ha_lost h) (ha_wait h).
Definition set_busy (c : Chan) (o : option Item) (h : Handlers) : Handlers :=
  mkHandlers (ha_queue h) (<[c := o]> (ha_busy h)) (ha_open h) (ha_ended h) (ha_seen h) (ha_stage h) (ha_arrived h) (ha_fates h) (ha_lost h) (ha_wait h).
Definition close_channel (c : Chan) (h : Handlers) : Handlers :=
  mkHandlers (ha_queue h) (ha_busy h) (<[c := false]> (ha_open h)) (ha_ended h) (ha_seen h) (ha_stage h) (ha_arrived h) (ha_fates h) (ha_lost h) (ha_wait h).
Definition dispose (i : Item) (f : CmdFate) (h : Handlers) : Handlers :=
  mkHandlers (ha_queue h) (ha_busy h) (ha_open h) (ha_ended h) (ha_seen h) (ha_stage h) (ha_arrived h) (ha_fates h ++ [(it_id i, f)]) (ha_lost h) (ha_wait h).
Definition lose (i : Item) (h : Handlers) : Handlers :=
  mkHandlers (ha_queue h) (ha_busy h) (ha_open h) (ha_ended h) (ha_seen h) (ha_stage h) (ha_arrived h) (ha_fates h) (ha_lost h ++ [i]) (ha_wait h).
Definition arrived (i : Item) (h : Handlers) : Handlers :=
  mkHandlers (ha_queue h) (ha_busy h) (ha_open h) (ha_ended h) (ha_seen h) (ha_stage h) (ha_arrived h ++ [it_id i]) (ha_fates h) (ha_lost h) (ha_wait h).

Definition set_wait (w : WaitState) (h : Handlers) : Handlers :=
  mkHandlers (ha_queue h) (ha_busy h) (ha_open h) (ha_ended h) (ha_seen h) (ha_stage h) (ha_arrived h) (ha_fates h) (ha_lost h) w.

(** The tasks of a command at the destination. *)
Definition cmd_task (i : Item) : nat := 2 * it_id i.
Definition restore_task (i : Item) : nat := S (2 * it_id i).
Definition register (t : nat) (h : Handlers) : Handlers := set_wait (registered t (ha_wait h)) h.
(** [MgrCmdStateForward]. *)
Definition forward (i : Item) (h : Handlers) : Handlers := dispose i SentToDst (register (cmd_task i) h).

(** [unbounded_send]. *)
Definition send_to (c : Chan) (i : Item) (refused h : Handlers) : Handlers :=
  if ha_open h c then set_queue c (ha_queue h c ++ [i]) h else refused.

(** The keys whose lock is held: by the commands and restores on their way. *)
Definition items_of (c : Chan) (h : Handlers) : list Item := ha_queue h c ++ match ha_busy h c with Some i => [i] | None => [] end.
Definition held (k : nat) (h : Handlers) : bool :=
  bool_decide (k ∈ it_key <$> items_of ChDumpPttl h ++ items_of ChRestore h ++ items_of ChUmSync h).

(** What the sender of the other node says: to try again when its queue is
    full or closed, or another error. *)
Inductive SendResult : Type := Sent | SendRetry | SendFailed.

(** A command with a key of the range: [handle_cmd_task] and
    [send_to_umsync]. *)
Definition handle_cmd_task (blocking : bool) (sent : SendResult) (i : Item) (h : Handlers) : Handlers :=
  let h := arrived i h in
  if blocking then
    if held (it_key i) h then send_to ChPendingUmSync i (dispose i Retried h) h
    else match sent with Sent => send_to ChUmSync i (dispose i Retried h) h | _ => dispose i AnsweredError h end
  else
    match sent with
    | Sent => send_to ChExists i (dispose i Retried h) h
    | SendRetry => dispose i Retried h
    | SendFailed => dispose i AnsweredError h
    end.

(** The reply that a handler waits for: that the key is there or that the
    command was done, the other one, an error of the node or of the sender.
    [ChPendingUmSync] waits for a while for the lock, and its reply is that of
    the sender. *)
Inductive Reply : Type := Yes | No | Failed.

(** A handler has the reply for its item; [None]: it waits for the lock. *)
Definition finish (c : Chan) (r : Reply) (i : Item) (h : Handlers) : option Handlers :=
  let h0 := set_busy c None h in
  match c, r with
  | ChExists, Yes => Some (forward i h0)
  | ChExists, No =>
      if held (it_key i) h then if ha_open h ChExists then Some (send_to ChExists i h0 h0) else None
      else Some (send_to ChDumpPttl i (lose i h0) h0)
  | ChExists, Failed => Some (dispose i AnsweredError h0)
  | ChPendingUmSync, Yes =>
      Some (if held (it_key i) h then dispose i AnsweredError h0 else send_to ChUmSync i (forward i h0) h0)
  | ChPendingUmSync, _ => Some (dispose i AnsweredError h0)
  | ChDumpPttl, Yes => let h1 := forward i (register (restore_task i) h0) in Some (send_to ChRestore i (lose i h1) h1)
  | ChDumpPttl, No => Some (forward i h0)
  | ChDumpPttl, Failed => Some (dispose i AnsweredError h0)
  | ChRestore, Yes => Some (send_to ChDel i (lose i h0) h0)
  | ChRestore, _ => Some h0
  | ChUmSync, Yes => Some (forward i h0)
  | ChUmSync, _ => Some (dispose i AnsweredError h0)
  | ChDel, _ => Some h0
  end.

(** The futures of the [select!] of a stage. *)
Definition polled (h : Handlers) (c : Chan) : bool := ha_stage h <=? chan_index c.

Inductive HandlerAction : Type :=
| HArrive (blocking : bool) (sent : SendResult) (i : Item)
| HStop
| HTake (c : Chan)
| HFinish (c : Chan) (r : Reply)
| HEnd (c : Chan)
| HSelect (c : Chan)
(** A task at the destination ends, or [close] of the registry goes on. *)
| HWait (a : WaitAction)
| HSignal.

Definition next_stage (h : Handlers) : Handlers :=
  mkHandlers (ha_queue h) (ha_busy h) (ha_open h) (ha_ended h) (ha_seen h) (S (ha_stage h)) (ha_arrived h) (ha_fates h) (ha_lost h) (ha_wait h).
Definition set_ended (c : Chan) (h : Handlers) : Handlers :=
  mkHandlers (ha_queue h) (ha_busy h) (ha_open h) (<[c := true]> (ha_ended h)) (ha_seen h) (ha_stage h) (ha_arrived h) (ha_fates h) (ha_lost h) (ha_wait h).
Definition set_seen (c : Chan) (h : Handlers) : Handlers :=
  mkHandlers (ha_queue h) (ha_busy h) (ha_open h) (ha_ended h) (<[c := true]> (ha_seen h)) (ha_stage h) (ha_arrived h) (ha_fates h) (ha_lost h) (ha_wait h).

(** The channel that is closed after a stage. *)
Definition closed_next (stage : nat) : option Chan := chans !! S stage.

Definition select_end (h : Handlers) : Handlers :=
  next_stage match closed_next (ha_stage h) with Some c => close_channel c h | None => h end.

(** [select!] ends with one of its futures that is complete; a fused future
    that a [select!] has seen is not looked at again. *)
Definition handler_step (a : HandlerAction) (h : Handlers) : option Handlers :=
  match a with
  | HArrive blocking sent i => if bool_decide (it_id i ∈ ha_arrived h) then None else Some (handle_cmd_task blocking sent i h)
  | HStop => Some (close_channel ChExists h)
  | HTake c =>
      match ha_queue h c, ha_busy h c with
      | i :: q, None => if polled h c && negb (ha_ended h c) then Some (set_busy c (Some i) (set_queue c q h)) else None
      | _, _ => None
      end
  | HFinish c r =>
      match ha_busy h c with Some i => if polled h c && negb (ha_ended h c) then finish c r i h else None | None => None end
  | HEnd c =>
      match ha_queue h c, ha_busy h c with
      | [], None => if polled h c && negb (ha_ended h c) && negb (ha_open h c) then Some (set_ended c h) else None
      | _, _ => None
      end
  | HSelect c =>
      if polled h c && ha_ended h c && negb (ha_seen h c) then
        Some (select_end (set_seen c h))
      else None
  | HWait a =>
      match a with
      | Register _ => None
      | FetchSub _ | LoadClosed _ | SwapSignal _ => w ← wait_step a (ha_wait h); Some (set_wait w h)
      | StoreClosed | LoadPending | CloseSwapSignal =>
          if ha_stage h =? 6 then w ← wait_step a (ha_wait h); Some (set_wait w h) else None
      end
  | HSignal =>
      if wr_signal (ws_registry (ha_wait h)) then None
      else if ha_stage h <? 6 then Some (select_end h)
      else if (ha_stage h =? 6) && bool_decide (ws_close (ha_wait h) = Returned) then Some (next_stage h)
      else None
  end.

(** The number of commands fits into the counter of the registry. *)
Definition countable (h : Handlers) : Prop := (2 * N.of_nat (length (ha_arrived h)) + 2 < u64_modulus)%N.

Inductive handlers_reachable : Handlers → Prop :=
| handlers_start : handlers_reachable handlers_new
| handlers_next a h h' : handlers_reachable h → handler_step a h = Some h' → countable h' → handlers_reachable h'.

(** ** The order of the ends *)

Record order_inv (h : Handlers) : Prop := {
  oi_open c : ha_open h c = false → chan_index c ≤ ha_stage h;
  oi_closed c : 0 < chan_index c ≤ ha_stage h → ha_open h c = false;
  oi_ended c : ha_ended h c = true → ha_open h c = false ∧ ha_queue h c = [] ∧ ha_busy h c = None;
  oi_past c : chan_index c < ha_stage h → ha_ended h c = true;
  oi_seen c : ha_seen h c = true ↔ chan_index c < ha_stage h;
  oi_lost : ha_lost h = [];
}.

Ltac fn_simpl := repeat (rewrite fn_lookup_insert || rewrite fn_lookup_insert_ne by done).

(** Work at a handler that has not ended. *)
Lemma order_inv_work h h' :
  order_inv h → ha_open h' = ha_open h → ha_ended h' = ha_ended h → ha_seen h' = ha_seen h → ha_stage h' = ha_stage h → ha_lost h' = ha_lost h →
  (∀ c, ha_open h c = false → ha_ended h c = true → ha_queue h' c = ha_queue h c ∧ ha_busy h' c = ha_busy h c) → order_inv h'.
Proof.
  intros [H1 H2 H3 H4 H5 H6] Ho He Hs Hst Hl Hsame. split; rewrite ?Ho, ?He, ?Hs, ?Hst, ?Hl; try done.
  intros c Hc. destruct (H3 c Hc) as (Hop & Hq & Hb). by destruct (Hsame c Hop Hc) as [-> ->].
Qed.

Lemma order_inv_send c i refused h : order_inv h → order_inv refused → order_inv (send_to c i refused h).
Proof.
  intros Hh Hr. unfold send_to. destruct (ha_open h c) eqn:Ho; [|done]. apply (order_inv_work h); try done. cbn.
  intros c' Hc' _. by rewrite fn_lookup_insert_ne by (intros ->; congruence).
Qed.

Lemma order_inv_dispose i f h : order_inv h → order_inv (dispose i f h).
Proof. intros Hh. by apply (order_inv_work h). Qed.
Lemma order_inv_arrived i h : order_inv h → order_inv (arrived i h).
Proof. intros Hh. by apply (order_inv_work h). Qed.
Lemma order_inv_busy c o h : order_inv h → ha_ended h c = false → order_inv (set_busy c o h).
Proof.
  intros Hh Hc. apply (order_inv_work h); try done. cbn. intros c' _ He. by rewrite fn_lookup_insert_ne by (intros ->; congruence).
Qed.
Lemma order_inv_queue c q h : order_inv h → ha_ended h c = false → order_inv (set_queue c q h).
Proof.
  intros Hh Hc. apply (order_inv_work h); try done. cbn. intros c' _ He. by rewrite fn_lookup_insert_ne by (intros ->; congruence).
Qed.

Lemma order_inv_wait w h : order_inv h → order_inv (set_wait w h).
Proof. intros Hh. by apply (order_inv_work h). Qed.
Lemma order_inv_register t h : order_inv h → order_inv (register t h).
Proof. apply order_inv_wait. Qed.
Lemma order_inv_forward i h : order_inv h → order_inv (forward i h).
Proof. intros Hh. by apply order_inv_dispose, order_inv_register. Qed.

Create HintDb handlers.
#[export] Hint Resolve order_inv_wait order_inv_register order_inv_forward order_inv_send order_inv_dispose order_inv_arrived order_inv_busy order_inv_queue : handlers.

(** A handler that is polled finds the channels after its own open. *)
Lemma later_open h c c' : order_inv h → polled h c = true → chan_index c < chan_index c' → ha_open h c' = true.
Proof.
  intros Hh Hp%Nat.leb_le Hlt. destruct (ha_open h c') eqn:Ho; [done|]. apply (oi_open h Hh) in Ho. lia.
Qed.

Lemma order_inv_send_open c i refused h : order_inv h → ha_open h c = true → order_inv (send_to c i refused h).
Proof.
  intros Hh Ho. replace (send_to c i refused h) with (send_to c i h h) by (unfold send_to; by rewrite Ho). by apply order_inv_send.
Qed.

Lemma finish_order c r i h h' :
  order_inv h → polled h c = true → ha_ended h c = false → finish c r i h = Some h' → order_inv h'.
Proof.
  intros Hh Hp Hc. pose proof (order_inv_busy c None h Hh Hc) as Hb.
  assert (∀ c', chan_index c < chan_index c' → ha_open h c' = true) as Hlater by (intros c' ?; by eapply later_open).
  destruct c, r; cbn [finish]; try (intros [= <-]; by auto with handlers).
  - destruct (held (it_key i) h); [destruct (ha_open h ChExists); [|done]|]; intros [= <-]; [by auto with handlers|].
    apply order_inv_send_open; [done|]. apply Hlater. cbn. lia.
  - intros [= <-]. destruct (held (it_key i) h); by auto with handlers.
  - intros [= <-]. apply order_inv_send_open; [by auto with handlers|]. apply Hlater. cbn. lia.
  - intros [= <-]. apply order_inv_send_open; [done|]. apply Hlater. cbn. lia.
Qed.

(** A [select!] ends with the handler that its stage waits for. *)
Lemma select_index h c :
  order_inv h → polled h c = true → ha_ended h c = true → chan_index c = ha_stage h.
Proof.
  intros Hh Hp%Nat.leb_le He. destruct (oi_ended h Hh c He) as (Ho & _). apply (oi_open h Hh) in Ho. lia.
Qed.

Lemma chan_of_index c c' : chan_index c = chan_index c' → c = c'.
Proof. by destruct c, c'. Qed.
Lemma closed_next_index n c : closed_next n = Some c ↔ chan_index c = S n.
Proof.
  split; [destruct n as [|[|[|[|[|[|]]]]]]; cbn; by intros [= <-]|].
  destruct c, n as [|[|[|[|[|]]]]]; cbn; intros ?; try lia; done.
Qed.

Lemma select_order h c :
  order_inv h → polled h c = true → ha_ended h c = true →
  order_inv (select_end (set_seen c h)).
Proof.
  intros Hh Hp He. unfold select_end. change (ha_stage (set_seen c h)) with (ha_stage h). pose proof (select_index h c Hh Hp He) as Hi. destruct Hh as [H1 H2 H3 H4 H5 H6].
  set (h1 := match closed_next (ha_stage h) with Some c' => _ | None => _ end).
  assert (∀ c', ha_open h1 c' = if decide (chan_index c' = S (ha_stage h)) then false else ha_open h c') as Hopen.
  { intros c'. subst h1. destruct (closed_next (ha_stage h)) as [c1|] eqn:Hn.
    - pose proof Hn as Hc1%closed_next_index. cbn. destruct (decide (chan_index c' = S (ha_stage h))) as [Heq|Hne].
      + rewrite (chan_of_index c1 c') by congruence. apply fn_lookup_insert.
      + rewrite fn_lookup_insert_ne; [done|]. by intros ->.
    - destruct (decide (chan_index c' = S (ha_stage h))) as [Heq%closed_next_index|]; [congruence|done]. }
  assert (ha_ended h1 = ha_ended h ∧ ha_queue h1 = ha_queue h ∧ ha_busy h1 = ha_busy h ∧ ha_lost h1 = ha_lost h ∧
    ha_seen h1 = <[c := true]> (ha_seen h) ∧ ha_stage h1 = ha_stage h) as (Eended & Equeue & Ebusy & Elost & Eseen & Estage).
  { subst h1. by destruct (closed_next (ha_stage h)). }
  split; cbn [ha_open ha_ended ha_queue ha_busy ha_lost ha_seen ha_stage next_stage]; rewrite ?Eended, ?Equeue, ?Ebusy, ?Elost, ?Eseen, ?Estage; [..|done].
  - intros c'. rewrite Hopen. case_decide; [lia|]. intros ?%H1. lia.
  - intros c' Hc'. rewrite Hopen. case_decide; [done|]. apply H2. lia.
  - intros c' Hc'. rewrite Hopen. destruct (H3 c' Hc') as (-> & -> & ->). by case_decide.
  - intros c' Hc'. destruct (decide (chan_index c' = ha_stage h)) as [Heq|]; [|apply H4; lia].
    by rewrite (chan_of_index c' c) by congruence.
  - intros c'. destruct (decide (c = c')) as [->|Hne]; [rewrite fn_lookup_insert; split; [lia|done]|].
    rewrite fn_lookup_insert_ne by done. rewrite H5. assert (chan_index c' ≠ ha_stage h); [|lia].
    intros Heq. apply Hne, chan_of_index. congruence.
Qed.

(** The registry gives its signal after [close] only. *)
Definition quiet (h : Handlers) : Prop := signalled (ws_registry (ha_wait h)) → 6 ≤ ha_stage h.

Lemma handler_step_order a h h' : order_inv h → quiet h → handler_step a h = Some h' → order_inv h'.
Proof.
  intros Hh Hquiet. destruct a as [blocking sent i| |c|c r|c|c|a|]; cbn [handler_step].
  - case_bool_decide; [done|]. intros [= <-]. unfold handle_cmd_task.
    destruct blocking; [destruct (held _ _)|]; [|destruct sent..]; by auto 6 with handlers.
  - intros [= <-]. destruct Hh as [H1 H2 H3 H4 H5 H6]. split; cbn; try done.
    + intros c. destruct (decide (ChExists = c)) as [<-|]; [cbn; lia|]. rewrite fn_lookup_insert_ne by done. apply H1.
    + intros c Hc. destruct (decide (ChExists = c)) as [<-|]; [apply fn_lookup_insert|]. rewrite fn_lookup_insert_ne by done. by apply H2.
    + intros c Hc. destruct (H3 c Hc) as (Ho & ? & ?). split; [|done].
      destruct (decide (ChExists = c)) as [<-|]; [apply fn_lookup_insert|by rewrite fn_lookup_insert_ne].
  - destruct (ha_queue h c) as [|i q]; [done|]. destruct (ha_busy h c); [done|]. destruct (ha_ended h c) eqn:He; [by rewrite andb_false_r|].
    destruct (polled h c); [|done]. intros [= <-]. apply order_inv_busy; [|done]. by apply order_inv_queue.
  - destruct (ha_busy h c) as [i|]; [|done]. destruct (polled h c) eqn:Hp; [|done]. destruct (ha_ended h c) eqn:He; [done|]. by apply finish_order.
  - destruct (ha_queue h c) eqn:Hq; [|done]. destruct (ha_busy h c) eqn:Hb; [done|].
    destruct (polled h c && negb (ha_ended h c)); [|done]. destruct (ha_open h c) eqn:Ho; [done|]. intros [= <-].
    destruct Hh as [H1 H2 H3 H4 H5 H6]. split; cbn; try done.
    + intros c'. destruct (decide (c = c')) as [<-|]; [done|]. rewrite fn_lookup_insert_ne by done. apply H3.
    + intros c' Hc'. destruct (decide (c = c')) as [<-|]; [apply fn_lookup_insert|]. rewrite fn_lookup_insert_ne by done. by apply H4.
  - destruct (polled h c) eqn:Hp; [|done]. destruct (ha_ended h c) eqn:He; [|done]. destruct (ha_seen h c); [done|]. intros [= <-]. by apply select_order.
  - destruct a; try done; try (destruct (_ =? _); [|done]); (destruct (wait_step _ _) as [w|]; [|done]); intros [= <-]; by auto with handlers.
  - destruct (wr_signal _) eqn:Hsig; [done|]. specialize (Hquiet Hsig). destruct (Nat.ltb_spec (ha_stage h) 6); [lia|].
    destruct (Nat.eqb_spec (ha_stage h) 6) as [Hs|]; [|done]. destruct (bool_decide _); [|done]. intros [= <-]. destruct Hh as [H1 H2 H3 H4 H5 H6].
    assert (∀ c, chan_index c < 6) as Hlt by (intros []; cbn; lia). rewrite Hs in *. split; cbn; rewrite ?Hs; try done.
    + intros c Hc. specialize (Hlt c). lia.
    + intros c Hc. apply H2. specialize (Hlt c). lia.
    + intros c _. by apply H4.
    + intros c. rewrite H5. specialize (Hlt c). lia.
Qed.

(** ** No command is lost *)

Definition times (x : nat) (l : list nat) : nat := count_occ Nat.eq_dec l x.

Lemma times_app x l l' : times x (l ++ l') = times x l + times x l'.
Proof. apply count_occ_app. Qed.

Lemma times_cons x y l : times x (y :: l) = times x [y] + times x l.
Proof. apply (times_app x [y]). Qed.

(** The commands on their way. *)
Definition pending (h : Handlers) : list nat :=
  it_id <$> items_of ChExists h ++ items_of ChPendingUmSync h ++ items_of ChDumpPttl h ++ items_of ChUmSync h.

Definition carries (c : Chan) : bool := match c with ChRestore | ChDel => false | _ => true end.
Definition one (x : nat) (c : Chan) (i : Item) : nat := if carries c then times x [it_id i] else 0.

Lemma pending_push x c i h : times x (pending (set_queue c (ha_queue h c ++ [i]) h)) = times x (pending h) + one x c i.
Proof.
  unfold pending, items_of, one. cbn [ha_queue ha_busy set_queue]. rewrite !fmap_app, !times_app.
  destruct c; cbn [carries]; fn_simpl; rewrite ?fmap_app, ?times_app; cbn [fmap list_fmap]; lia.
Qed.
Lemma pending_idle x c i h : ha_busy h c = Some i → times x (pending h) = times x (pending (set_busy c None h)) + one x c i.
Proof.
  intros Hb. unfold pending, items_of, one. cbn [ha_queue ha_busy set_busy]. rewrite !fmap_app, !times_app.
  destruct c; cbn [carries]; fn_simpl; rewrite ?Hb; cbn [fmap list_fmap]; change (times x []) with 0; lia.
Qed.
Lemma pending_take x c i q h :
  ha_queue h c = i :: q → ha_busy h c = None → times x (pending (set_busy c (Some i) (set_queue c q h))) = times x (pending h).
Proof.
  intros Hq Hb. unfold pending, items_of. cbn [ha_queue ha_busy set_busy set_queue]. rewrite !fmap_app, !times_app.
  destruct c; fn_simpl; rewrite ?Hq, ?Hb; rewrite ?(fmap_cons it_id i q), ?(times_cons x (it_id i) (it_id <$> q)); cbn [fmap list_fmap];
    change (times x []) with 0; lia.
Qed.

(** Every command that has arrived is on its way or has its fate. *)
Definition all_there (h : Handlers) : Prop := ∀ x, times x (ha_arrived h) = times x (ha_fates h).*1 + times x (pending h).

Lemma all_there_dispose i f h : (∀ x, times x (ha_arrived h) = times x (ha_fates h).*1 + times x (pending h) + times x [it_id i]) → all_there (dispose i f h).
Proof. intros Hh x. cbn [ha_arrived ha_fates dispose]. rewrite fmap_app, times_app. specialize (Hh x). cbn [fmap list_fmap fst]. change (pending (dispose i f h)) with (pending h). lia. Qed.

Lemma all_there_send c i refused h :
  (∀ x, times x (ha_arrived h) = times x (ha_fates h).*1 + times x (pending h) + one x c i) → (ha_open h c = false → all_there refused) →
  all_there (send_to c i refused h).
Proof.
  intros Hh Hr. unfold send_to. destruct (ha_open h c); [|by apply Hr]. intros x. rewrite pending_push. cbn [ha_arrived ha_fates set_queue].
  rewrite Hh. lia.
Qed.

Lemma finish_there c r i h h' :
  order_inv h → polled h c = true → ha_busy h c = Some i → all_there h → finish c r i h = Some h' → all_there h'.
Proof.
  intros Hh Hp Hb Hall. assert (∀ c', chan_index c < chan_index c' → ha_open h c' = true) as Hlater by (intros c' ?; by eapply later_open).
  set (h0 := set_busy c None h).
  assert (∀ x, times x (ha_arrived h0) = times x (ha_fates h0).*1 + times x (pending h0) + one x c i) as H0.
  { intros x. specialize (Hall x). rewrite (pending_idle x c i h Hb) in Hall. subst h0. cbn [ha_arrived ha_fates set_busy]. lia. }
  assert (∀ f, carries c = true → all_there (dispose i f h0)) as Hdis.
  { intros f Hc. apply all_there_dispose. intros x. rewrite H0. unfold one. by rewrite Hc. }
  assert (carries c = true → all_there (forward i h0) ∧ all_there (forward i (register (restore_task i) h0))) as Hfor.
  { intros Hc. by split; apply (Hdis SentToDst). }
  unfold finish. fold h0. destruct c, r; try (intros [= <-]; by apply Hdis); try (intros [= <-]; by apply Hfor);
    try (intros [= <-]; intros x; rewrite H0; cbn [one carries]; lia).
  - destruct (held (it_key i) h); [destruct (ha_open h ChExists) eqn:Ho; [|done]|]; intros [= <-]; apply all_there_send; try done.
    + intros Hc. change (ha_open h ChExists = false) in Hc. congruence.
    + intros Hc. change (ha_open h ChDumpPttl = false) in Hc. rewrite Hlater in Hc by (cbn; lia). done.
  - intros [= <-]. destruct (held (it_key i) h); [by apply Hdis|]. apply all_there_send; [done|]. intros _. by apply Hfor.
  - intros [= <-]. apply all_there_send.
    + intros x. rewrite (proj2 (Hfor eq_refl) x). unfold one. cbn. lia.
    + intros Hc. change (ha_open h ChRestore = false) in Hc. rewrite Hlater in Hc by (cbn; lia). done.
  - intros [= <-]. apply all_there_send.
    + done.
    + intros Hc. change (ha_open h ChDel = false) in Hc. rewrite Hlater in Hc by (cbn; lia). done.
Qed.

Lemma handler_step_there a h h' : order_inv h → all_there h → handler_step a h = Some h' → all_there h'.
Proof.
  intros Hh Hall. destruct a as [blocking sent i| |c|c r|c|c|a|]; cbn [handler_step].
  - case_bool_decide; [done|]. intros [= <-].
    assert (∀ x, times x (ha_arrived (arrived i h)) = times x (ha_fates (arrived i h)).*1 + times x (pending (arrived i h)) + times x [it_id i]) as H1.
    { intros x. cbn [ha_arrived ha_fates arrived]. rewrite times_app, Hall. done. }
    pose proof (λ f, all_there_dispose i f _ H1) as Hdis. unfold handle_cmd_task.
    destruct blocking; [destruct (held _ _)|]; [|destruct sent..]; try apply Hdis; (apply all_there_send; [exact H1|intros _; apply Hdis]).
  - intros [= <-]. done.
  - destruct (ha_queue h c) as [|i q] eqn:Hq; [done|]. destruct (ha_busy h c) eqn:Hb; [done|]. destruct (polled h c && _); [|done].
    intros [= <-] x. rewrite (pending_take x c i q h Hq Hb). apply Hall.
  - destruct (ha_busy h c) as [i|] eqn:Hb; [|done]. destruct (polled h c) eqn:Hp; [|done]. destruct (ha_ended h c); [done|]. by apply finish_there.
  - destruct (ha_queue h c); [|done]. destruct (ha_busy h c); [done|]. destruct (_ && _); [|done]. by intros [= <-].
  - destruct (_ && _); [|done]. intros [= <-]. unfold select_end. by destruct (closed_next _).
  - destruct a; try done; try (destruct (_ =? _); [|done]); (destruct (wait_step _ _) as [w|]; [|done]); by intros [= <-].
  - destruct (wr_signal _); [done|]. destruct (_ <? _); [|destruct (_ && _); [|done]]; intros [= <-]; [|done].
    unfold select_end. by destruct (closed_next _).
Qed.

(** ** The end comes *)

Definition queue_weight (c : Chan) : nat :=
  match c with ChExists => 14 | ChPendingUmSync => 7 | ChDumpPttl => 12 | ChRestore => 4 | ChUmSync => 5 | ChDel => 2 end.
Definition chan_weight (h : Handlers) (c : Chan) : nat :=
  length (ha_queue h c) * queue_weight c + (match ha_busy h c with Some _ => queue_weight c - 1 | None => 0 end) + (if ha_ended h c then 0 else 1).
(** The steps that the registry has still to do. *)
Definition phase_weight (p : TaskPhase) : nat := match p with Registered => 3 | WasLast _ => 2 | BeforeSwap => 1 end.
Definition close_weight (c : ClosePhase) : nat := match c with NotCalled => 3 | Stored => 2 | CloseSwap => 1 | Returned => 0 end.
Definition wait_weight (w : WaitState) : nat := map_sum phase_weight (ws_tasks w) + close_weight (ws_close w).
Definition weight (h : Handlers) : nat := sum_list (chan_weight h <$> chans) + (7 - ha_stage h) + wait_weight (ha_wait h).

Ltac weigh c := unfold weight, chan_weight; cbn [chans fmap list_fmap sum_list sum_list_with id ha_queue ha_busy ha_ended ha_stage ha_wait set_queue set_busy set_ended];
  destruct c; cbn [queue_weight]; fn_simpl.

Lemma weight_push c i h : weight (set_queue c (ha_queue h c ++ [i]) h) = weight h + queue_weight c.
Proof. weigh c; rewrite length_app; cbn [length]; lia. Qed.
Lemma weight_idle c i h : ha_busy h c = Some i → weight h = weight (set_busy c None h) + (queue_weight c - 1).
Proof. intros Hb. weigh c; rewrite Hb; lia. Qed.
Lemma weight_take c i q h :
  ha_queue h c = i :: q → ha_busy h c = None → weight h = S (weight (set_busy c (Some i) (set_queue c q h))).
Proof. intros Hq Hb. weigh c; rewrite Hq, Hb; cbn [length]; lia. Qed.
Lemma weight_ended c h : ha_ended h c = false → weight h = S (weight (set_ended c h)).
Proof. intros He. weigh c; rewrite He; lia. Qed.

Lemma weight_send c i refused h : weight (send_to c i refused h) = if ha_open h c then weight h + queue_weight c else weight refused.
Proof. unfold send_to. destruct (ha_open h c); [apply weight_push|done]. Qed.

Lemma weight_register t h : weight (register t h) ≤ 3 + weight h.
Proof.
  assert (wait_weight (registered t (ha_wait h)) ≤ 3 + wait_weight (ha_wait h)) as Hw.
  { unfold wait_weight. cbn [registered ws_tasks ws_close]. destruct (ws_tasks (ha_wait h) !! t) as [p|] eqn:Ht.
    - pose proof (map_sum_update phase_weight _ t p Registered Ht) as Hu. cbn [phase_weight] in Hu. lia.
    - rewrite (map_sum_insert phase_weight _ t Registered Ht). cbn [phase_weight]. lia. }
  unfold weight, register. cbn [ha_stage ha_wait set_wait]. change (chan_weight (set_wait (registered t (ha_wait h)) h)) with (chan_weight h). lia.
Qed.
Lemma weight_forward i h : weight (forward i h) ≤ 3 + weight h.
Proof. apply (weight_register (cmd_task i) h). Qed.

(** The steps of the handlers, of [run_task_handler] and of the tasks at the
    destination. *)
Definition internal (a : HandlerAction) : bool := match a with HArrive _ _ _ | HStop => false | _ => true end.

Lemma finish_weight c r i h h' :
  ha_busy h c = Some i → ha_open h ChExists = false → finish c r i h = Some h' → weight h' < weight h.
Proof.
  intros Hb Ho. pose proof (weight_idle c i h Hb) as Hw. assert (0 < queue_weight c - 1) as Hpos by (destruct c; cbn; lia).
  assert (∀ i f (g : Handlers), weight (dispose i f g) = weight g) as Hd by done.
  assert (∀ i (g : Handlers), weight (lose i g) = weight g) as Hl by done.
  unfold finish. set (h0 := set_busy c None h) in *. pose proof (weight_forward i h0) as Hf.
  pose proof (weight_forward i (register (restore_task i) h0)) as Hf2. pose proof (weight_register (restore_task i) h0) as Hr.
  destruct c, r; cbn [queue_weight] in *; try (intros [= <-]; rewrite ?Hd; lia).
  - destruct (held (it_key i) h); [by rewrite Ho|]. intros [= <-]. rewrite weight_send, Hl. destruct (ha_open h0 _); cbn [queue_weight]; lia.
  - intros [= <-]. destruct (held (it_key i) h); rewrite ?weight_send, ?Hd; [lia|]. destruct (ha_open h0 _); cbn [queue_weight]; lia.
  - intros [= <-]. rewrite weight_send, Hl. destruct (ha_open (forward _ _) ChRestore); cbn [queue_weight]; lia.
  - intros [= <-]. rewrite weight_send, Hl. destruct (ha_open h0 _); cbn [queue_weight]; lia.
Qed.

Lemma wait_step_weight a w w' : wait_step a w = Some w' → (∀ t, a ≠ Register t) → wait_weight w' < wait_weight w.
Proof.
  destruct w as [r tasks close raced]. unfold wait_weight. intros Hw Hne. destruct a as [t|t|t|t| | |]; cbn [wait_step] in Hw.
  1: by destruct (Hne t).
  1-3: destruct (tasks !! t) as [p|] eqn:Ht; [|done]; pose proof (map_sum_delete phase_weight tasks t p Ht) as Hdel;
    pose proof (λ q, map_sum_update phase_weight tasks t p q Ht) as Hup; destruct p as [|early|]; try done; injection Hw as <-;
    repeat (case_match; cbn [ws_tasks ws_close]).
  all: try (specialize (Hup (WasLast (negb (wr_closed r)))); cbn in Hup, Hdel |- *; lia).
  all: try (specialize (Hup BeforeSwap); cbn in Hup, Hdel |- *; lia).
  all: destruct close; try done; injection Hw as <-; cbn; try case_match; cbn; lia.
Qed.

Lemma weight_wait a w h : wait_step a (ha_wait h) = Some w → (∀ t, a ≠ Register t) → weight (set_wait w h) < weight h.
Proof.
  intros Hw Hne. pose proof (wait_step_weight _ _ _ Hw Hne). unfold weight. cbn [ha_stage ha_wait set_wait].
  change (chan_weight (set_wait w h)) with (chan_weight h). lia.
Qed.

Lemma weight_select h : ha_stage h < 6 → weight (select_end h) < weight h.
Proof.
  intros Hs. unfold select_end. destruct (closed_next _); unfold weight, chan_weight;
    cbn [ha_stage ha_wait next_stage close_channel ha_queue ha_busy ha_ended]; lia.
Qed.

Lemma internal_weight a h h' :
  order_inv h → ha_open h ChExists = false → internal a = true → handler_step a h = Some h' → weight h' < weight h.
Proof.
  intros Hh Ho. destruct a as [blocking sent i| |c|c r|c|c|a|]; cbn [internal handler_step]; try done; intros _.
  - destruct (ha_queue h c) as [|i q] eqn:Hq; [done|]. destruct (ha_busy h c) eqn:Hb; [done|]. destruct (_ && _); [|done].
    intros [= <-]. rewrite (weight_take c i q h Hq Hb). lia.
  - destruct (ha_busy h c) as [i|] eqn:Hb; [|done]. destruct (_ && _); [|done]. by apply finish_weight.
  - destruct (ha_queue h c); [|done]. destruct (ha_busy h c); [done|]. destruct (ha_ended h c) eqn:He; [by rewrite andb_false_r|].
    destruct (_ && _); [|done]. intros [= <-]. rewrite (weight_ended c h He). lia.
  - destruct (polled h c) eqn:Hp; [|done]. destruct (_ && _); [|done]. intros [= <-]. apply Nat.leb_le in Hp.
    assert (chan_index c < 6) by (destruct c; cbn; lia). apply (weight_select (set_seen c h)). cbn. lia.
  - destruct a; try done; try (destruct (_ =? _); [|done]); (destruct (wait_step _ _) as [w|] eqn:Hw; [|done]); intros [= <-];
      by eapply weight_wait.
  - destruct (wr_signal _); [done|]. destruct (Nat.ltb_spec (ha_stage h) 6); [intros [= <-]; by apply weight_select|].
    destruct (Nat.eqb_spec (ha_stage h) 6) as [Hs|]; [|done]. destruct (bool_decide _); [|done]. intros [= <-].
    unfold weight, chan_weight. cbn [ha_stage ha_queue ha_busy ha_ended ha_wait next_stage]. lia.
Qed.

(** Something can go on: the handlers that hold the lock that [ChExists] waits
    for, otherwise the handler that the [select!] waits for. *)
Definition ready (ans : Chan → Reply) (h : Handlers) : Prop :=
  ∃ a h', internal a = true ∧ (∀ c r, a = HFinish c r → r = ans c) ∧ handler_step a h = Some h'.

Lemma busy_ready ans c i h :
  polled h c = true → ha_ended h c = false → ha_busy h c = Some i → finish c (ans c) i h ≠ None → ready ans h.
Proof.
  intros Hp He Hb Hf. destruct (finish c (ans c) i h) as [h'|] eqn:Hfin; [|done]. exists (HFinish c (ans c)), h'.
  split; [done|]. split; [by intros ?? [= <- <-]|]. cbn [handler_step]. by rewrite Hb, Hp, He.
Qed.
Lemma queue_ready ans c i q h :
  polled h c = true → ha_ended h c = false → ha_busy h c = None → ha_queue h c = i :: q → ready ans h.
Proof.
  intros Hp He Hb Hq. exists (HTake c), (set_busy c (Some i) (set_queue c q h)).
  split; [done|]. split; [done|]. cbn [handler_step]. by rewrite Hq, Hb, Hp, He.
Qed.
Lemma finish_later c r i h : c ≠ ChExists → finish c r i h ≠ None.
Proof. by destruct c, r. Qed.

Lemma holder_ready ans c h : order_inv h → c ≠ ChExists → polled h c = true → items_of c h ≠ [] → ready ans h.
Proof.
  intros Hh Hc Hp Hi. destruct (ha_ended h c) eqn:He.
  - destruct (oi_ended h Hh c He) as (_ & Hq & Hb). unfold items_of in Hi. by rewrite Hq, Hb in Hi.
  - destruct (ha_busy h c) as [i|] eqn:Hb; [by apply (busy_ready ans c i), finish_later|].
    unfold items_of in Hi. rewrite Hb, app_nil_r in Hi. destruct (ha_queue h c) as [|i q] eqn:Hq; [done|]. by apply (queue_ready ans c i q).
Qed.

Lemma held_holder k h : held k h = true → ∃ c, c ≠ ChExists ∧ items_of c h ≠ [].
Proof.
  unfold held. rewrite bool_decide_eq_true. intros (i & _ & Hi)%list_elem_of_fmap.
  rewrite !elem_of_app in Hi. destruct Hi as [Hi|[Hi|Hi]]; [exists ChDumpPttl|exists ChRestore|exists ChUmSync];
    (split; [done|]; intros He; rewrite He in Hi; by apply elem_of_nil in Hi).
Qed.

Lemma exists_ready ans i h :
  order_inv h → ha_stage h = 0 → ha_open h ChExists = false → ha_ended h ChExists = false → ha_busy h ChExists = Some i → ready ans h.
Proof.
  intros Hh Hs Ho He Hb. assert (∀ c, polled h c = true) as Hp by (intros c; unfold polled; by rewrite Hs).
  destruct (held (it_key i) h) eqn:Hk.
  - apply held_holder in Hk as (c & Hc & Hi). by apply (holder_ready ans c).
  - apply (busy_ready ans ChExists i); auto. cbn [finish]. rewrite Hk. by destruct (ans ChExists).
Qed.

Lemma wait_ready ans a w h :
  ha_stage h = 6 → (∀ t, a ≠ Register t) → wait_step a (ha_wait h) = Some w → ready ans h.
Proof.
  intros H6 Hne Hw. exists (HWait a), (set_wait w h). split; [done|]. split; [done|]. cbn [handler_step]. rewrite H6, Hw.
  destruct a as [t|t|t|t| | |]; try done. by destruct (Hne t).
Qed.

(** [close] goes on, then the tasks at the destination end, and then the signal
    is there. *)
Lemma end_ready ans h : wait_inv (ha_wait h) → ha_stage h = 6 → ready ans h.
Proof.
  intros Hw H6. destruct (ws_close (ha_wait h)) eqn:Hc; destruct (ha_wait h) as [r tasks close raced] eqn:Hst; cbn in Hc; subst close.
  1: eapply (wait_ready ans StoreClosed); [done|done|by rewrite Hst].
  1: eapply (wait_ready ans LoadPending); [done|done|by rewrite Hst].
  1: eapply (wait_ready ans CloseSwapSignal); [done|done|by rewrite Hst].
  destruct (map_choose_or_empty tasks) as [(t & p & Ht)|Hempty].
  - destruct p as [|early|]; [eapply (wait_ready ans (FetchSub t))|eapply (wait_ready ans (LoadClosed t))|eapply (wait_ready ans (SwapSignal t))];
      try done; rewrite Hst; cbn; by rewrite Ht.
  - pose proof (wait_complete _ Hw eq_refl Hempty) as Hsig. exists HSignal, (next_stage h). split; [done|]. split; [done|].
    cbn [handler_step]. rewrite Hst, H6. unfold signalled in Hsig. cbn in Hsig |- *. by rewrite Hsig.
Qed.

Lemma stage_ready ans h :
  order_inv h → wait_inv (ha_wait h) → ha_open h ChExists = false → ha_stage h < 7 → ready ans h.
Proof.
  intros Hh Hw Ho Hs. destruct (decide (ha_stage h = 6)) as [H6|H6]; [by apply end_ready|].
  destruct (chans !! ha_stage h) as [c|] eqn:Hc.
  2: { apply lookup_ge_None in Hc. cbn in Hc. lia. }
  assert (chan_index c = ha_stage h) as Hi.
  { destruct (ha_stage h) as [|[|[|[|[|[|]]]]]]; cbn in Hc; try done; by injection Hc as <-. }
  assert (polled h c = true) as Hp by (apply Nat.leb_le; lia).
  assert (ha_open h c = false) as Hoc.
  { destruct (decide (c = ChExists)) as [->|]; [done|]. apply (oi_closed h Hh). destruct c; cbn in *; [done|lia..]. }
  destruct (ha_ended h c) eqn:He.
  - assert (ha_seen h c = false) as Hn.
    { destruct (ha_seen h c) eqn:Hn; [|done]. apply (oi_seen h Hh) in Hn. lia. }
    eexists (HSelect c), _. split; [done|]. split; [done|]. cbn [handler_step]. by rewrite Hp, He, Hn.
  - destruct (ha_busy h c) as [i|] eqn:Hb.
    + destruct (decide (c = ChExists)) as [->|]; [by apply (exists_ready ans i)|]. by apply (busy_ready ans c i), finish_later.
    + destruct (ha_queue h c) as [|i q] eqn:Hq; [|by apply (queue_ready ans c i q)].
      exists (HEnd c), (set_ended c h). split; [done|]. split; [done|]. cbn [handler_step]. by rewrite Hq, Hb, Hp, He, Hoc.
Qed.

(** ** The registry *)

Record wait_ok (h : Handlers) : Prop := {
  wo_inv : wait_inv (ha_wait h);
  wo_close : ws_close (ha_wait h) ≠ NotCalled → 6 ≤ ha_stage h;
  wo_tasks t p : ws_tasks (ha_wait h) !! t = Some p → Nat.div2 t ∈ (ha_fates h).*1;
}.

Lemma wait_ok_quiet h : wait_ok h → quiet h.
Proof. intros Hw Hs. apply (wo_close h Hw), (wi_closed _ (wo_inv h Hw)), (wi_safe _ (wo_inv h Hw)), Hs. Qed.

(** Two tasks for each command at most. *)
Lemma tasks_bound (l : list nat) (m : gmap nat TaskPhase) :
  (∀ t p, m !! t = Some p → Nat.div2 t ∈ l) → size m ≤ 2 * length l.
Proof.
  intros Hm. set (l2 := l ≫= λ x, [2 * x; S (2 * x)]).
  assert (length l2 = 2 * length l) as <- by (subst l2; clear Hm; induction l as [|x l IH]; [done|]; cbn in *; lia).
  assert (NoDup (map_to_list m).*1) as Hnd by apply NoDup_fst_map_to_list.
  assert ((map_to_list m).*1 ⊆+ l2) as Hsub.
  { apply NoDup_submseteq; [done|]. intros t ((t' & p) & -> & Hp%elem_of_map_to_list)%list_elem_of_fmap.
    apply list_elem_of_bind. exists (Nat.div2 t'). split; [|by eapply Hm]. pose proof (Nat.div2_odd t') as Ht. cbn [fst].
    rewrite !elem_of_cons. destruct (Nat.odd t'); cbn [Nat.b2n] in Ht; lia. }
  apply submseteq_length in Hsub. by rewrite length_fmap, length_map_to_list in Hsub.
Qed.

Lemma pending_bound w : wait_inv w → (wr_pending (ws_registry w) ≤ N.of_nat (size (ws_tasks w)))%N.
Proof.
  intros Hw. rewrite (wi_pending w Hw). assert (size (live_tasks (ws_tasks w)) ≤ size (ws_tasks w)); [|lia].
  apply map_size_filter.
Qed.

(** A command on its way has no task yet. *)
Lemma carried_pending c i h : carries c = true → ha_busy h c = Some i → it_id i ∈ pending h.
Proof.
  intros Hc Hb. unfold pending. apply list_elem_of_fmap. exists i. split; [done|]. assert (i ∈ items_of c h) as Hi.
  { unfold items_of. rewrite Hb. set_solver. }
  rewrite !elem_of_app. destruct c; try done; auto.
Qed.

Lemma all_there_perm h : all_there h → (ha_fates h).*1 ++ pending h ≡ₚ ha_arrived h.
Proof.
  intros Ht. apply (Permutation_count_occ Nat.eq_dec). intros x. specialize (Ht x). unfold times in Ht. rewrite count_occ_app. lia.
Qed.

Lemma carried_fresh c i h :
  all_there h → NoDup (ha_arrived h) → carries c = true → ha_busy h c = Some i → it_id i ∉ (ha_fates h).*1.
Proof.
  intros Ht%all_there_perm Hn Hc Hb Hin. rewrite <- Ht in Hn. apply NoDup_app in Hn as (_ & Hn & _).
  by eapply Hn, carried_pending.
Qed.

Lemma registered_ok t h :
  wait_ok h → ws_close (ha_wait h) = NotCalled → ws_tasks (ha_wait h) !! t = None →
  (N.of_nat (size (ws_tasks (ha_wait h))) + 1 < u64_modulus)%N → wait_inv (registered t (ha_wait h)).
Proof.
  intros [Hw _ _] Hc Ht Hn. pose proof (pending_bound _ Hw). eapply (register_inv t _ _ Hw); [lia|].
  destruct (ha_wait h) as [r tasks close raced]. cbn in *. by rewrite Ht, Hc.
Qed.

(** ** The run of the handlers *)

Record handlers_inv (h : Handlers) : Prop := {
  hi_order : order_inv h;
  hi_there : all_there h;
  hi_arrived : NoDup (ha_arrived h);
  hi_stage : ha_stage h ≤ 7;
  hi_wait : wait_ok h;
}.

Lemma send_keeps {A} (proj : Handlers → A) c i refused h :
  (∀ q, proj (set_queue c q h) = proj h) → proj refused = proj h → proj (send_to c i refused h) = proj h.
Proof. intros Hq Hr. unfold send_to. by destruct (ha_open h c). Qed.

(** What a command on its way does not touch. *)
Definition frame (h : Handlers) : list nat * nat * (Chan → bool) := (ha_arrived h, ha_stage h, ha_open h).

Lemma finish_frame c r i h h' : finish c r i h = Some h' → frame h' = frame h.
Proof.
  unfold finish. destruct c, r; try (by intros [= <-]); try (intros [= <-]; by etrans; [apply (send_keeps frame)|]).
  - destruct (held _ _); [destruct (ha_open h ChExists); [|done]|]; intros [= <-]; by etrans; [apply (send_keeps frame)|].
  - intros [= <-]. destruct (held _ _); [done|]. unfold send_to. by destruct (ha_open _ _).
Qed.

Lemma handle_frame blocking sent i h : frame (handle_cmd_task blocking sent i h) = frame (arrived i h).
Proof.
  unfold handle_cmd_task. destruct blocking; [destruct (held _ _)|]; [|destruct sent..]; try done; by apply (send_keeps frame).
Qed.

(** The tasks that a handler has started. *)
Definition launched (c : Chan) (i : Item) (h h' : Handlers) : Prop :=
  (ha_wait h' = ha_wait h ∨
   carries c = true ∧ it_id i ∈ (ha_fates h').*1 ∧
   (ha_wait h' = registered (cmd_task i) (ha_wait h) ∨
    ha_wait h' = registered (cmd_task i) (registered (restore_task i) (ha_wait h)))) ∧
  (ha_fates h).*1 ⊆ (ha_fates h').*1.

Lemma dispose_fates i f h : (ha_fates (dispose i f h)).*1 = (ha_fates h).*1 ++ [it_id i].
Proof. cbn. by rewrite fmap_app. Qed.

Lemma finish_launched c r i h h' : finish c r i h = Some h' → launched c i h h'.
Proof.
  set (after := λ g : Handlers, (ha_wait g, ha_fates g)).
  assert (∀ g g', after g = after g' → launched c i h g → launched c i h g') as Hafter.
  { intros g g' [= Hw Hf]. unfold launched. by rewrite Hw, Hf. }
  assert (∀ c' refused g, after refused = after g → launched c i h g → launched c i h (send_to c' i refused g)) as Hsend.
  { intros c' refused g Hr. apply Hafter. symmetry. by apply (send_keeps after). }
  assert (launched c i h (set_busy c None h)) as H0 by (split; [by left|done]).
  assert (∀ f, launched c i h (dispose i f (set_busy c None h))) as Hdis.
  { intros f. split; [by left|]. rewrite dispose_fates. set_solver. }
  assert (carries c = true → launched c i h (forward i (set_busy c None h)) ∧
    launched c i h (forward i (register (restore_task i) (set_busy c None h)))) as Hfor.
  { intros Hc. unfold launched, forward. rewrite !dispose_fates. split; (split; [right; split; [done|]; split; [set_solver|by eauto]|set_solver]). }
  unfold finish. destruct c, r; try (intros [= <-]; by auto); try (intros [= <-]; by apply Hfor).
  - destruct (held _ _); [destruct (ha_open h ChExists); [|done]|]; intros [= <-]; by apply Hsend.
  - intros [= <-]. destruct (held _ _); [by apply Hdis|]. unfold send_to. destruct (ha_open _ _); [exact H0|by apply Hfor].
  - intros [= <-]. apply Hsend; [done|by apply Hfor].
Qed.

Lemma finish_wait c r i h h' :
  handlers_inv h → countable h → polled h c = true → ha_busy h c = Some i → finish c r i h = Some h' → wait_ok h'.
Proof.
  intros [_ Ht Hn _ Hw] Hcount Hp Hb Hf. pose proof (finish_frame _ _ _ _ _ Hf) as [= _ Hst _]. apply finish_launched in Hf as [Hl Hsub].
  assert (ws_close (ha_wait h) = NotCalled) as Hclose.
  { apply Nat.leb_le in Hp. assert (chan_index c < 6) by (destruct c; cbn; lia). destruct (ws_close (ha_wait h)) eqn:Hc; [done|..];
      (exfalso; assert (6 ≤ ha_stage h) by (apply (wo_close h Hw); congruence); lia). }
  assert (∀ t p, ws_tasks (ha_wait h) !! t = Some p → Nat.div2 t ∈ (ha_fates h').*1) as Hold by (intros t p Htp; by eapply Hsub, wo_tasks).
  destruct Hl as [Heq|(Hc & Hi & Hl)].
  { destruct Hw as [Hinv Hcl _]. split; rewrite ?Heq, ?Hst; done. }
  assert (∀ t, Nat.div2 t = it_id i → ws_tasks (ha_wait h) !! t = None) as Hfresh.
  { intros t Hti. destruct (ws_tasks (ha_wait h) !! t) eqn:Htp; [|done]. apply (wo_tasks h Hw) in Htp. rewrite Hti in Htp.
    by eapply carried_fresh in Htp. }
  assert (Nat.div2 (cmd_task i) = it_id i ∧ Nat.div2 (restore_task i) = it_id i) as [Hd1 Hd2].
  { split; [apply Nat.div2_double|apply Nat.div2_succ_double]. }
  assert (N.of_nat (size (ws_tasks (ha_wait h))) + 2 < u64_modulus)%N as Hsize.
  { pose proof (tasks_bound (ha_fates h).*1 _ (wo_tasks h Hw)). apply all_there_perm, Permutation_length in Ht. rewrite length_app in Ht.
    unfold countable in Hcount. lia. }
  destruct Hl as [Heq|Heq].
  - split; rewrite ?Heq, ?Hst; [apply registered_ok; auto; lia|cbn; by rewrite Hclose|].
    intros t p Hreg. cbn [registered ws_tasks] in Hreg.
    apply lookup_insert_Some in Hreg as [[<- _]|[_ Htp]]; [by rewrite Hd1|by eapply Hold].
  - pose proof (registered_ok (restore_task i) h Hw Hclose (Hfresh _ Hd2) ltac:(lia)) as Hw1.
    split; rewrite ?Heq, ?Hst; [|cbn; by rewrite Hclose|].
    + eapply (register_inv (cmd_task i) _ _ Hw1).
      * pose proof (pending_bound _ Hw1) as Hpb. cbn [registered ws_tasks] in Hpb. rewrite map_size_insert_None in Hpb by auto. lia.
      * cbn [wait_step registered ws_tasks ws_close ws_registry ws_raced]. rewrite Hclose, lookup_insert_ne by (unfold cmd_task, restore_task; lia). by rewrite (Hfresh _ Hd1).
    + intros t p Hreg. cbn [registered ws_tasks] in Hreg.
      apply lookup_insert_Some in Hreg as [[<- _]|[_ [[<- _]|[_ Htp]]%lookup_insert_Some]]; [by rewrite Hd1|by rewrite Hd2|by eapply Hold].
Qed.
(** The tasks at the destination and [close] go on. *)
Lemma wait_step_ok a w h :
  wait_ok h → countable h → all_there h → (∀ t, a ≠ Register t) → wait_step a (ha_wait h) = Some w →
  (ws_close w ≠ NotCalled → 6 ≤ ha_stage h) → wait_ok (set_wait w h).
Proof.
  intros Hw Hcount Ht Hne Hstep Hcl. pose proof (pending_bound _ (wo_inv h Hw)) as Hb.
  pose proof (tasks_bound (ha_fates h).*1 _ (wo_tasks h Hw)). apply all_there_perm, Permutation_length in Ht. rewrite length_app in Ht.
  unfold countable in Hcount. split; cbn [ha_wait ha_stage ha_fates set_wait].
  - eapply wait_step_inv; [by apply wo_inv|lia|exact Hstep].
  - exact Hcl.
  - intros t p Htp. assert (is_Some (ws_tasks (ha_wait h) !! t)) as [q Hq]; [|by eapply (wo_tasks h Hw)].
    clear - Hne Hstep Htp. destruct (ha_wait h) as [r tasks close raced].
    assert (∀ t' q, is_Some (tasks !! t') → <[t' := q]> tasks !! t = Some p → is_Some (tasks !! t)) as Hins.
    { intros t' q Ht' [[<- _]|[_ ?]]%lookup_insert_Some; [done|by eexists]. }
    assert (∀ t', delete t' tasks !! t = Some p → is_Some (tasks !! t)) as Hdel by (intros t' [_ ?]%lookup_delete_Some; by eexists).
    destruct a as [t'|t'|t'|t'| | |]; cbn in Hstep |- *; [by destruct (Hne t')|..].
    1-3: destruct (tasks !! t') as [[]|] eqn:Ht'; try done; injection Hstep as <-; repeat case_match; cbn in Htp; eauto.
    all: destruct close; try done; injection Hstep as <-; cbn in Htp; by eexists.
Qed.

Lemma wait_ok_same h h' :
  wait_ok h → ha_wait h' = ha_wait h → ha_stage h ≤ ha_stage h' → (ha_fates h).*1 ⊆ (ha_fates h').*1 → wait_ok h'.
Proof.
  intros [Hi Hc Ht] Hw Hst Hf. split; rewrite Hw; [done|intros Hn%Hc; lia|]. intros t p Htp. by eapply Hf, Ht.
Qed.

Lemma handle_wait blocking sent i h :
  ha_wait (handle_cmd_task blocking sent i h) = ha_wait h ∧ (ha_fates h).*1 ⊆ (ha_fates (handle_cmd_task blocking sent i h)).*1.
Proof.
  assert (∀ f, (ha_fates h).*1 ⊆ (ha_fates (dispose i f (arrived i h))).*1) as Hd by (intros f; rewrite dispose_fates; set_solver).
  unfold handle_cmd_task, send_to. destruct blocking; [destruct (held _ _)|]; [|destruct sent..]; repeat case_match; by auto.
Qed.

Lemma handler_step_wait a h h' : handlers_inv h → countable h → handler_step a h = Some h' → wait_ok h'.
Proof.
  intros Hh Hcount. pose proof Hh as [_ Ht _ _ Hw]. destruct a as [blocking sent i| |c|c r|c|c|a|]; cbn [handler_step].
  - case_bool_decide; [done|]. intros [= <-]. destruct (handle_wait blocking sent i h) as [Heq Hf].
    pose proof (handle_frame blocking sent i h) as [= _ Hst _]. apply (wait_ok_same h); [done|done|by rewrite Hst|done].
  - intros [= <-]. by apply (wait_ok_same h).
  - destruct (ha_queue h c); [done|]. destruct (ha_busy h c); [done|]. destruct (_ && _); [|done]. intros [= <-]. by apply (wait_ok_same h).
  - destruct (ha_busy h c) as [i|] eqn:Hb; [|done]. destruct (polled h c) eqn:Hp; [|done]. destruct (_ && _); [|done]. by apply finish_wait.
  - destruct (ha_queue h c); [|done]. destruct (ha_busy h c); [done|]. destruct (_ && _); [|done]. intros [= <-]. by apply (wait_ok_same h).
  - destruct (_ && _); [|done]. intros [= <-]. unfold select_end. destruct (closed_next _); apply (wait_ok_same h); cbn; done || lia.
  - assert (∀ w, wait_step a (ha_wait h) = Some w → (∀ t, a ≠ Register t) → ws_close w = ws_close (ha_wait h) ∨ ha_stage h = 6 →
      wait_ok (set_wait w h)) as Hstep.
    { intros w Hstep Hne Hcl. eapply wait_step_ok; try done. intros Hc. destruct Hcl as [Hcl|Hcl]; [|lia].
      apply (wo_close h Hw). by rewrite <- Hcl. }
    destruct a as [t|t|t|t| | |]; [done|..].
    1-3: destruct (wait_step _ _) as [w|] eqn:Hs; [|done]; intros [= <-]; apply Hstep; [done|done|left];
      clear - Hs; destruct (ha_wait h) as [r tasks close raced]; cbn in Hs; repeat case_match; simplify_eq; done.
    all: destruct (Nat.eqb_spec (ha_stage h) 6); [|done]; destruct (wait_step _ _) as [w|] eqn:Hs; [|done]; intros [= <-]; apply Hstep; auto.
  - destruct (wr_signal _); [done|]. destruct (_ <? _); [|destruct (_ && _); [|done]]; intros [= <-];
      unfold select_end; try destruct (closed_next _); apply (wait_ok_same h); cbn; done || lia.
Qed.

Lemma handler_step_frame a h h' :
  handler_step a h = Some h' → NoDup (ha_arrived h) → ha_stage h ≤ 7 → NoDup (ha_arrived h') ∧ ha_stage h' ≤ 7.
Proof.
  intros Hstep Hn Hs. destruct a as [blocking sent i| |c|c r|c|c|a|]; cbn [handler_step] in Hstep.
  - revert Hstep. case_bool_decide as Hi; [done|]. intros [= <-].
    pose proof (handle_frame blocking sent i h) as [= -> -> _]. split; [|done].
    apply NoDup_app. split; [done|]. split; [intros x Hx ->%list_elem_of_singleton; done|apply NoDup_singleton].
  - by injection Hstep as <-.
  - destruct (ha_queue h c); [done|]. destruct (ha_busy h c); [done|]. destruct (_ && _); [|done]. by injection Hstep as <-.
  - destruct (ha_busy h c); [|done]. destruct (_ && _); [|done]. by apply finish_frame in Hstep as [= -> -> _].
  - destruct (ha_queue h c); [|done]. destruct (ha_busy h c); [done|]. destruct (_ && _); [|done]. by injection Hstep as <-.
  - destruct (polled h c) eqn:Hp; [|done]. destruct (_ && _); [|done]. injection Hstep as <-. apply Nat.leb_le in Hp.
    assert (chan_index c < 6) by (destruct c; cbn; lia). unfold select_end.
    destruct (closed_next _); cbn [ha_arrived ha_stage next_stage close_channel set_seen]; (split; [done|lia]).
  - destruct a; try done; try (destruct (_ =? _); [|done]); (destruct (wait_step _ _) as [w|]; [|done]); by injection Hstep as <-.
  - destruct (wr_signal _); [done|]. destruct (Nat.ltb_spec (ha_stage h) 6).
    + injection Hstep as <-. unfold select_end. destruct (closed_next _); cbn; (split; [done|lia]).
    + destruct (Nat.eqb_spec (ha_stage h) 6) as [H6|]; [|done]. destruct (bool_decide _); [|done]. injection Hstep as <-.
      split; [done|]. cbn. lia.
Qed.

Lemma handlers_inv_step a h h' : handlers_inv h → countable h → handler_step a h = Some h' → handlers_inv h'.
Proof.
  intros Hh Hcount Hstep. pose proof (handler_step_wait a h h' Hh Hcount Hstep) as Hw'. pose proof Hh as [Ho Ht Hn Hs Hw].
  destruct (handler_step_frame a h h' Hstep Hn Hs) as [Hn' Hs'].
  split; [eapply handler_step_order; [done|by apply wait_ok_quiet|done]|by eapply handler_step_there|done|done|done].
Qed.

Lemma handlers_new_inv : handlers_inv handlers_new.
Proof.
  split; [|done|apply NoDup_nil_2|cbn; lia|].
  - split; cbn; try done; try lia.
  - split; [|done|done]. apply wait_reachable_inv. constructor.
Qed.

Lemma handlers_reachable_inv h : handlers_reachable h → handlers_inv h ∧ countable h.
Proof.
  induction 1 as [|a h h' _ [IH Hcount] Hstep Hc]; [|split; [by eapply handlers_inv_step|done]].
  split; [exact handlers_new_inv|done].
Qed.

(** At the end every command has one fate. *)
Lemma drained h : handlers_inv h → ha_stage h = 7 → (∀ c, items_of c h = []) ∧ (ha_fates h).*1 ≡ₚ ha_arrived h.
Proof.
  intros [Ho Ht _ _ _] H7. assert (∀ c, items_of c h = []) as Hempty.
  { intros c. assert (chan_index c < 6) by (destruct c; cbn; lia).
    destruct (oi_ended h Ho c) as (_ & Hq & Hb); [apply (oi_past h Ho); lia|]. unfold items_of. by rewrite Hq, Hb. }
  split; [done|]. apply (Permutation_count_occ Nat.eq_dec). intros x. specialize (Ht x). unfold pending in Ht.
  rewrite !Hempty in Ht. unfold times in Ht. cbn in Ht. lia.
Qed.

(** A signal that was given stays. *)
Lemma signal_kept a h h' :
  handler_step a h = Some h' → signalled (ws_registry (ha_wait h)) → signalled (ws_registry (ha_wait h')).
Proof.
  intros Hstep Hs. destruct a as [blocking sent i| |c|c r|c|c|a|]; cbn [handler_step] in Hstep.
  - case_bool_decide; [done|]. injection Hstep as <-. by rewrite (proj1 (handle_wait blocking sent i h)).
  - by injection Hstep as <-.
  - destruct (ha_queue h c); [done|]. destruct (ha_busy h c); [done|]. destruct (_ && _); [|done]. by injection Hstep as <-.
  - destruct (ha_busy h c); [|done]. destruct (_ && _); [|done]. by apply finish_launched in Hstep as [[->|(_ & _ & [-> | ->])] _].
  - destruct (ha_queue h c); [|done]. destruct (ha_busy h c); [done|]. destruct (_ && _); [|done]. by injection Hstep as <-.
  - destruct (_ && _); [|done]. injection Hstep as <-. unfold select_end. by destruct (closed_next _).
  - destruct a; try done; try (destruct (_ =? _); [|done]); (destruct (wait_step _ _) as [w|] eqn:Hw; [|done]); injection Hstep as <-; cbn;
      clear - Hs Hw; destruct (ha_wait h) as [r tasks close raced]; cbn in Hw; repeat case_match; simplify_eq; done.
  - destruct (wr_signal _); [done|]. destruct (_ <? _); [|destruct (_ && _); [|done]]; injection Hstep as <-; [|done].
    unfold select_end. by destruct (closed_next _).
Qed.

(** Only the signal leads out of the last wait. *)
Lemma last_step a h h' :
  handler_step a h = Some h' → ha_stage h' = 7 → ha_stage h ≠ 7 → signalled (ws_registry (ha_wait h)).
Proof.
  intros Hstep H7 Hne. assert (∀ g, ha_stage (select_end g) = S (ha_stage g)) as Hsel by (intros g; unfold select_end; by destruct (closed_next _)).
  destruct a as [blocking sent i| |c|c r|c|c|a|]; cbn [handler_step] in Hstep.
  - case_bool_decide; [done|]. injection Hstep as <-. pose proof (handle_frame blocking sent i h) as [= _ Hst _]. cbn in Hst. congruence.
  - by injection Hstep as <-.
  - destruct (ha_queue h c); [done|]. destruct (ha_busy h c); [done|]. destruct (_ && _); [|done]. by injection Hstep as <-.
  - destruct (ha_busy h c); [|done]. destruct (_ && _); [|done]. apply finish_frame in Hstep as [= _ Hst _]. congruence.
  - destruct (ha_queue h c); [|done]. destruct (ha_busy h c); [done|]. destruct (_ && _); [|done]. by injection Hstep as <-.
  - destruct (polled h c) eqn:Hp; [|done]. destruct (_ && _); [|done]. injection Hstep as <-. apply Nat.leb_le in Hp.
    assert (chan_index c < 6) by (destruct c; cbn; lia). rewrite Hsel in H7. cbn in H7. lia.
  - destruct a; try done; try (destruct (_ =? _); [|done]); (destruct (wait_step _ _) as [w|]; [|done]); by injection Hstep as <-.
  - by destruct (wr_signal _) eqn:Hsig.
Qed.

(** [run_task_handler] returns with the signal only. *)
Lemma returned_signalled h : handlers_reachable h → ha_stage h = 7 → signalled (ws_registry (ha_wait h)).
Proof.
  induction 1 as [|a h h' _ IH Hstep _]; [done|]. intros H7. eapply signal_kept; [done|].
  destruct (decide (ha_stage h = 7)); [by apply IH|by eapply last_step].
Qed.

Lemma stopped_step a h h' : handler_step a h = Some h' → ha_open h ChExists = false → ha_open h' ChExists = false.
Proof.
  intros Hstep Ho.
  assert (∀ g, ha_open g ChExists = false → ha_open (select_end g) ChExists = false) as Hsel.
  { intros g Hg. unfold select_end. destruct (closed_next _) as [c'|]; [|done]. cbn [ha_open next_stage close_channel].
    destruct (decide (c' = ChExists)) as [->|]; [apply fn_lookup_insert|by rewrite fn_lookup_insert_ne]. }
  destruct a as [blocking sent i| |c|c r|c|c|a|]; cbn [handler_step] in Hstep.
  - revert Hstep. case_bool_decide; [done|]. intros [= <-]. by pose proof (handle_frame blocking sent i h) as [= _ _ ->].
  - injection Hstep as <-. apply fn_lookup_insert.
  - destruct (ha_queue h c); [done|]. destruct (ha_busy h c); [done|]. destruct (_ && _); [|done]. by injection Hstep as <-.
  - destruct (ha_busy h c); [|done]. destruct (_ && _); [|done]. by apply finish_frame in Hstep as [= _ _ ->].
  - destruct (ha_queue h c); [|done]. destruct (ha_busy h c); [done|]. destruct (_ && _); [|done]. by injection Hstep as <-.
  - destruct (_ && _); [|done]. injection Hstep as <-. by apply Hsel.
  - destruct a; try done; try (destruct (_ =? _); [|done]); (destruct (wait_step _ _) as [w|]; [|done]); by injection Hstep as <-.
  - destruct (wr_signal _); [done|]. destruct (_ <? _); [|destruct (_ && _); [|done]]; injection Hstep as <-; [by apply Hsel|done].
Qed.

Lemma internal_arrived a h h' : internal a = true → handler_step a h = Some h' → ha_arrived h' = ha_arrived h.
Proof.
  destruct a as [blocking sent i| |c|c r|c|c|a|]; cbn [internal handler_step]; try done; intros _ Hstep.
  - destruct (ha_queue h c); [done|]. destruct (ha_busy h c); [done|]. destruct (_ && _); [|done]. by injection Hstep as <-.
  - destruct (ha_busy h c); [|done]. destruct (_ && _); [|done]. by apply finish_frame in Hstep as [= -> _ _].
  - destruct (ha_queue h c); [|done]. destruct (ha_busy h c); [done|]. destruct (_ && _); [|done]. by injection Hstep as <-.
  - destruct (_ && _); [|done]. injection Hstep as <-. unfold select_end. by destruct (closed_next _).
  - destruct a; try done; try (destruct (_ =? _); [|done]); (destruct (wait_step _ _) as [w|]; [|done]); by injection Hstep as <-.
  - destruct (wr_signal _); [done|]. destruct (_ <? _); [|destruct (_ && _); [|done]]; injection Hstep as <-; [|done].
    unfold select_end. by destruct (closed_next _).
Qed.

(** C18. No command is lost when an importing task ends.  In every reachable
    state, whatever the order in which commands arrive, the task is stopped, the
    nodes reply and the handlers run, no closed channel has refused the work of
    a handler, and every command that has arrived is once on its way or has one
    fate.  When [run_task_handler] returns, no command, restore or deletion is
    left in a channel or a handler, the fates are those of exactly the commands
    that have arrived, the registry has given its signal, and every command and
    restore that was sent to the destination has ended there; unless one that
    was the last before [close] of the registry has looked at [closed] after it,
    so that the signal came early. *)
Theorem shutdown_drains h :
  handlers_reachable h →
  ha_lost h = [] ∧ NoDup (ha_arrived h) ∧ (ha_fates h).*1 ++ pending h ≡ₚ ha_arrived h ∧
  (ha_stage h = 7 → (∀ c, items_of c h = []) ∧ (ha_fates h).*1 ≡ₚ ha_arrived h ∧ signalled (ws_registry (ha_wait h)) ∧
    (ws_raced (ha_wait h) = true ∨ live_tasks (ws_tasks (ha_wait h)) = ∅)).
Proof.
  intros Hr. destruct (handlers_reachable_inv h Hr) as [Hh _]. split; [apply (oi_lost h (hi_order h Hh))|].
  split; [by apply hi_arrived|]. split; [by apply all_there_perm, hi_there|]. intros H7. destruct (drained h Hh H7) as [Hempty Hf].
  pose proof (returned_signalled h Hr H7) as Hsig. split_and!; [done|done|done|].
  apply wait_sound; [|done]. by apply wo_inv, hi_wait.
Qed.

Lemma internal_run actions h h' :
  handlers_inv h → countable h → ha_open h ChExists = false → Forall (λ a, internal a = true) actions →
  run_steps handler_step actions h = Some h' →
  handlers_inv h' ∧ ha_open h' ChExists = false ∧ length actions + weight h' ≤ weight h.
Proof.
  revert h. induction actions as [|a actions IH]; intros h Hh Hcount Ho Hall.
  { intros [= <-]. cbn. auto. }
  apply Forall_cons in Hall as [Ha Hall]. rewrite run_steps_cons. destruct (handler_step a h) as [h1|] eqn:Hstep; [|done]. cbn [mbind option_bind].
  intros Hrun. destruct (IH h1) as (? & ? & ?); [by eapply handlers_inv_step| |by eapply stopped_step|done..|].
  { unfold countable. by rewrite (internal_arrived a h h1 Ha Hstep). }
  split; [done|]. split; [done|]. pose proof (internal_weight a h h1 (hi_order h Hh) Ho Ha Hstep). cbn [length]. lia.
Qed.

(** C19. An importing task that is stopped ends.  From any reachable state in
    which the task has been stopped, a run of the handlers, of
    [run_task_handler] and of the tasks at the destination takes at most
    [weight h] steps, whatever the nodes reply and whichever handler runs; and
    a run that cannot go on, with a reply for every handler that waits for one
    and an end of every task at the destination, has returned from
    [run_task_handler] with a fate for every command.  In particular the handler
    of EXISTS that waits for the lock of a key and the wait for the registry do
    not last for ever. *)
Theorem shutdown_ends h actions h' ans :
  handlers_reachable h → ha_open h ChExists = false → Forall (λ a, internal a = true) actions →
  run_steps handler_step actions h = Some h' →
  length actions ≤ weight h ∧ (ready ans h' ∨ ha_stage h' = 7 ∧ (ha_fates h').*1 ≡ₚ ha_arrived h').
Proof.
  intros [Hh Hcount]%handlers_reachable_inv Ho Hall Hrun.
  destruct (internal_run actions h h' Hh Hcount Ho Hall Hrun) as (Hh' & Ho' & Hlen).
  split; [lia|]. destruct (decide (ha_stage h' = 7)) as [H7|H7]; [right; split; [done|by apply drained]|].
  left. apply stage_ready; [by apply hi_order|by apply wo_inv, hi_wait|done|]. pose proof (hi_stage h' Hh'). lia.
Qed.

(** ** A run

    Two commands for one key, one after the other, and a blocking one; the task
    is stopped while the second one is about to find the key locked.  The last
    command ends at the destination after the registry was closed. *)
Definition demo_work : list HandlerAction :=
  [HArrive false Sent (mkItem 1 7); HArrive true Sent (mkItem 3 8); HTake ChExists; HFinish ChExists No;
   HArrive false Sent (mkItem 2 7); HTake ChExists; HStop].
Definition demo_end_actions : list HandlerAction :=
  [HTake ChDumpPttl; HFinish ChDumpPttl Yes; HTake ChRestore; HFinish ChRestore Yes; HFinish ChExists No; HEnd ChExists; HSelect ChExists;
   HEnd ChPendingUmSync; HSelect ChPendingUmSync; HTake ChDumpPttl; HFinish ChDumpPttl No; HEnd ChDumpPttl; HSelect ChDumpPttl;
   HEnd ChRestore; HSelect ChRestore; HTake ChUmSync; HFinish ChUmSync Failed; HEnd ChUmSync; HSelect ChUmSync;
   HWait (FetchSub 2); HWait (FetchSub 3); HTake ChDel; HFinish ChDel Yes; HEnd ChDel; HSelect ChDel;
   HWait StoreClosed; HWait LoadPending; HWait (FetchSub 4); HWait (LoadClosed 4); HWait (SwapSignal 4); HSignal].
Definition demo_stopped : Handlers := default handlers_new (run_steps handler_step demo_work handlers_new).
Definition demo_returned : Handlers := default handlers_new (run_steps handler_step demo_end_actions demo_stopped).

Lemma step_arrived a h h' : handler_step a h = Some h' → length (ha_arrived h) ≤ length (ha_arrived h').
Proof.
  intros Hstep. destruct (internal a) eqn:Ha; [by rewrite (internal_arrived a h h' Ha Hstep)|]. destruct a as [blocking sent i| |c|c r|c|c|a|]; try done.
  - cbn in Hstep. case_bool_decide; [done|]. injection Hstep as <-. pose proof (handle_frame blocking sent i h) as [= -> _ _].
    cbn [ha_arrived arrived]. rewrite length_app. lia.
  - by injection Hstep as <-.
Qed.

Lemma handlers_run_reachable actions h h' :
  handlers_reachable h → run_steps handler_step actions h = Some h' → countable h' → handlers_reachable h'.
Proof.
  revert h. induction actions as [|a actions IH]; intros h Hh; [by intros [= <-]|]. rewrite run_steps_cons.
  destruct (handler_step a h) as [h1|] eqn:Hstep; [|done]. cbn [mbind option_bind]. intros Hrun Hc.
  apply (IH h1); [|done|done]. eapply handlers_next; [done|done|].
  assert (length (ha_arrived h1) ≤ length (ha_arrived h')) as Hle; [|unfold countable in *; lia]. revert Hrun.
  apply (run_steps_invariant _ (λ g, length (ha_arrived h1) ≤ length (ha_arrived g))); [|done].
  intros b g g' _ Hg Hs%step_arrived. lia.
Qed.

Lemma demo_stopped_run : run_steps handler_step demo_work handlers_new = Some demo_stopped.
Proof. vm_compute. reflexivity. Qed.
Lemma demo_returned_run : run_steps handler_step demo_end_actions demo_stopped = Some demo_returned.
Proof. vm_compute. reflexivity. Qed.

Lemma demo_stopped_reachable : handlers_reachable demo_stopped.
Proof.
  exact (handlers_run_reachable demo_work handlers_new demo_stopped handlers_start demo_stopped_run ltac:(vm_compute; reflexivity)).
Qed.

(** The second command waits for the lock. *)
Example demo_waits : handler_step (HFinish ChExists No) demo_stopped = None.
Proof. vm_compute. reflexivity. Qed.

Lemma shutdown_drains_witness :
  ha_stage demo_returned = 7 ∧ (ha_fates demo_returned).*1 ≡ₚ [1; 3; 2] ∧ live_tasks (ws_tasks (ha_wait demo_returned)) = ∅.
Proof.
  assert (ha_stage demo_returned = 7) as H7 by (vm_compute; reflexivity). split; [exact H7|].
  pose proof (shutdown_drains demo_returned (handlers_run_reachable demo_end_actions demo_stopped demo_returned
    demo_stopped_reachable demo_returned_run ltac:(vm_compute; reflexivity))) as (_ & _ & _ & Hend).
  destruct (Hend H7) as (_ & Hf & _ & [Hr|Hl]); [vm_compute in Hr; discriminate|]. split; [exact Hf|exact Hl].
Defined.

Lemma shutdown_ends_witness :
  length demo_end_actions ≤ weight demo_stopped ∧
  (ready (λ _, Yes) demo_returned ∨ ha_stage demo_returned = 7 ∧ (ha_fates demo_returned).*1 ≡ₚ ha_arrived demo_returned).
Proof.
  apply (shutdown_ends demo_stopped demo_end_actions demo_returned (λ _, Yes));
    [exact demo_stopped_reachable|vm_compute; reflexivity| |exact demo_returned_run].
  repeat constructor.
Defined.

(** The exception is real: a command that was the last one at the destination for
    a moment gives the signal after [close], and [run_task_handler] returns while
    a later command is still at the destination. *)
Definition early_end_actions : list HandlerAction :=
  [HArrive false Sent (mkItem 1 7); HTake ChExists; HFinish ChExists Yes; HWait (FetchSub 2);
   HArrive false Sent (mkItem 2 8); HTake ChExists; HFinish ChExists Yes; HStop] ++
  (chans ≫= λ c, [HEnd c; HSelect c]) ++
  [HWait StoreClosed; HWait LoadPending; HWait (LoadClosed 2); HWait (SwapSignal 2); HSignal].
Definition early_returned : Handlers := default handlers_new (run_steps handler_step early_end_actions handlers_new).

Theorem shutdown_early :
  handlers_reachable early_returned ∧ ha_stage early_returned = 7 ∧ ws_tasks (ha_wait early_returned) !! 4 = Some Registered.
Proof.
  assert (run_steps handler_step early_end_actions handlers_new = Some early_returned) as Hrun by (vm_compute; reflexivity).
  split; [exact (handlers_run_reachable _ _ _ handlers_start Hrun ltac:(vm_compute; reflexivity))|]. split; vm_compute; reflexivity.
Qed.
