(* ===== verification/Client.v ===== *)
(** * The pooled Redis client

    [protocol/client.rs]: connections to the Redis servers and the proxies,
    which are kept in a pool for each address and used by one client at a time.
    A call may be given up at any moment; a connection with replies that nobody
    has read must not be used again.  The clients, the servers and the pools
    are one system whose steps interleave freely; the bytes of the replies
    arrive in pieces and are decoded by the codec of [Packet]. *)

From S2P Require Import Prelude RustStr Resp Packet Keys.

(** [execute], [execute_single] and [execute_multi]. *)
Inductive Call : Type :=
| Execute (packet : OptionalMulti (list bytes))
| ExecuteOne (command : list bytes)
| ExecuteMany (commands : list (list bytes)).

Definition call_packet (call : Call) : OptionalMulti (list bytes) :=
  match call with Execute p => p | ExecuteOne c => Single c | ExecuteMany cs => Multi cs end.
Definition packet_list {T} (p : OptionalMulti T) : list T := match p with Single t => [t] | Multi l => l end.

Definition process_single_cmd_result (r : outcome RedisClientError (OptionalMulti RespVec)) : outcome RedisClientError RespVec :=
  match r with Ok (Single t) => Ok t | Ok (Multi _) => Err InvalidState | Err e => Err e | Panic => Panic end.
Definition process_multi_cmd_result (r : outcome RedisClientError (OptionalMulti RespVec)) : outcome RedisClientError (list RespVec) :=
  match r with Ok (Single _) => Err InvalidState | Ok (Multi v) => Ok v | Err e => Err e | Panic => Panic end.

(** The result of a call, as the packet that it is. *)
Definition process (call : Call) (r : outcome RedisClientError (OptionalMulti RespVec)) : outcome RedisClientError (OptionalMulti RespVec) :=
  match call with
  | Execute _ => r
  | ExecuteOne _ => Single <$> process_single_cmd_result r
  | ExecuteMany _ => Multi <$> process_multi_cmd_result r
  end.

(** ** Connections, pools and clients *)

(** A connection: its address, the commands that the server has not handled, the bytes that
    the client has not read, and what the server has answered so far. *)
Record Socket : Type := mkSocket {
  so_address : string;
  so_requests : list (list bytes);
  so_stream : bytes;
  so_log : list (list bytes * RespVec);
}.

(** A client: the pool that it gives its connection back to, the connection
    with its codec, [err], and the call that is being executed with the number
    of answers there were before. *)
Record PooledRedisClient : Type := mkPooledRedisClient {
  pc_address : string;
  pc_socket : nat;
  pc_conn : Conn RespVec;
  pc_err : bool;
  pc_running : option (Call * nat);
}.

Record Factory : Type := mkFactory {
  fa_capacity : nat;
  fa_pool_map : gmap string (list nat);
  fa_clients : gmap nat PooledRedisClient;
  fa_sockets : gmap nat Socket;
}.

Definition new_socket (address : string) : Socket := mkSocket address [] [] [].
Definition set_client (c : nat) (pc : PooledRedisClient) (f : Factory) : Factory :=
  mkFactory (fa_capacity f) (fa_pool_map f) (<[c := pc]> (fa_clients f)) (fa_sockets f).
Definition drop_client (c : nat) (f : Factory) : Factory :=
  mkFactory (fa_capacity f) (fa_pool_map f) (delete c (fa_clients f)) (fa_sockets f).
Definition set_socket (i : nat) (so : Socket) (f : Factory) : Factory :=
  mkFactory (fa_capacity f) (fa_pool_map f) (fa_clients f) (<[i := so]> (fa_sockets f)).
Definition set_pool (address : string) (pool : list nat) (f : Factory) : Factory :=
  mkFactory (fa_capacity f) (<[address := pool]> (fa_pool_map f)) (fa_clients f) (fa_sockets f).

(** [Pool::get_raw] and [try_send]; the pool holds a sender, so that its
    channel is never disconnected. *)
Definition pool_get (pool : list nat) : option (nat * list nat) := match pool with [] => None | i :: pool => Some (i, pool) end.
Definition pool_put (capacity : nat) (i : nat) (pool : list nat) : list nat := if bool_decide (length pool < capacity) then pool ++ [i] else pool.

(** [PooledRedisClient::new]. *)
Definition client_new (address : string) (i : nat) : PooledRedisClient := mkPooledRedisClient address i idle false None.

(** [PooledRedisClientFactory::create_client_impl]: a connection of the pool,
    or the new one [i]. *)
Definition create_client (c : nat) (address : string) (i : nat) (f : Factory) : option Factory :=
  if bool_decide (fa_clients f !! c = None) then
    match pool_get (default [] (fa_pool_map f !! address)) with
    | Some (j, pool) => Some (set_client c (client_new address j) (set_pool address pool f))
    | None =>
        if bool_decide (fa_sockets f !! i = None)
        then Some (set_client c (client_new address i) (set_socket i (new_socket address) (set_pool address [] f)))
        else None
    end
  else None.

Inductive Event : Type := Finished (c : nat) (call : Call) (r : outcome RedisClientError (OptionalMulti RespVec)).

(** A call begins: [err] is set before anything is sent.  Of the commands the
    first [sent] are written; [None] is a success of [frame.send]. *)
Definition start_call (c : nat) (call : Call) (sent : option nat) (f : Factory) : option (Factory * list Event) :=
  pc ← fa_clients f !! c;
  so ← fa_sockets f !! pc_socket pc;
  if bool_decide (pc_running pc = None) then
    if pc_err pc then Some (f, [Finished c call (process call (Err StaleClient))])
    else
      let commands := packet_list (call_packet call) in
      match multi_encode (pc_conn pc) (call_packet call) with
      | (conn, Err NotReady) =>
          Some (set_client c (mkPooledRedisClient (pc_address pc) (pc_socket pc) conn true None) f,
                [Finished c call (process call (Err InvalidState))])
      | (conn, _) =>
          let written := match sent with Some k => take k commands | None => commands end in
          let f := set_socket (pc_socket pc) (mkSocket (so_address so) (so_requests so ++ written) (so_stream so) (so_log so)) f in
          let running := match sent with Some _ => None | None => Some (call, length (so_log so)) end in
          Some (set_client c (mkPooledRedisClient (pc_address pc) (pc_socket pc) conn true running) f,
                match sent with Some _ => [Finished c call (process call (Err ClientIo))] | None => [] end)
      end
  else None.

Section codec.
Context `{DecoderEnv}.

(** [n] bytes arrive and the codec is asked. *)
Definition receive_bytes (c n : nat) (f : Factory) : option (Factory * list Event) :=
  pc ← fa_clients f !! c;
  so ← fa_sockets f !! pc_socket pc;
  '(call, start) ← pc_running pc;
  let f := set_socket (pc_socket pc) (mkSocket (so_address so) (so_requests so) (drop n (so_stream so)) (so_log so)) f in
  let '(conn, r) := receive (pc_conn pc) (take n (so_stream so)) in
  let finish r :=
    let r := process call r in
    (set_client c (mkPooledRedisClient (pc_address pc) (pc_socket pc) conn (negb (match r with Ok _ => true | _ => false end)) None) f,
     [Finished c call r]) in
  Some match r with
       | Ok None => (set_client c (mkPooledRedisClient (pc_address pc) (pc_socket pc) conn (pc_err pc) (pc_running pc)) f, [])
       | Ok (Some resp) => finish (Ok resp)
       | Err _ => finish (Err InvalidReply)
       | Panic => finish Panic
       end.

(** The call ends with an error: the timeout, a closed connection. *)
Definition fail_call (c : nat) (e : RedisClientError) (f : Factory) : option (Factory * list Event) :=
  pc ← fa_clients f !! c;
  '(call, _) ← pc_running pc;
  Some (set_client c (mkPooledRedisClient (pc_address pc) (pc_socket pc) (pc_conn pc) true None) f, [Finished c call (process call (Err e))]).

(** The future of the call is dropped. *)
Definition cancel_call (c : nat) (f : Factory) : option Factory :=
  pc ← fa_clients f !! c;
  _ ← pc_running pc;
  Some (set_client c (mkPooledRedisClient (pc_address pc) (pc_socket pc) (pc_conn pc) (pc_err pc) None) f).

Definition quit (c : nat) (f : Factory) : option Factory :=
  pc ← fa_clients f !! c;
  if bool_decide (pc_running pc = None)
  then Some (set_client c (mkPooledRedisClient (pc_address pc) (pc_socket pc) (pc_conn pc) true None) f) else None.

(** [PooledRedisClient::drop]; the codec goes, the connection may stay. *)
Definition drop_pooled (c : nat) (f : Factory) : option Factory :=
  pc ← fa_clients f !! c;
  if bool_decide (pc_running pc = None) then
    Some (drop_client c
      (if pc_err pc then f
       else set_pool (pc_address pc) (pool_put (fa_capacity f) (pc_socket pc) (default [] (fa_pool_map f !! pc_address pc))) f))
  else None.

(** The server of connection [i] handles the next command. *)
Definition server_answers (i : nat) (reply : RespVec) (f : Factory) : option Factory :=
  so ← fa_sockets f !! i;
  match so_requests so with
  | [] => None
  | command :: requests =>
      if encodable reply
      then Some (set_socket i (mkSocket (so_address so) requests (so_stream so ++ (resp_to_buf [] reply).1) (so_log so ++ [(command, reply)])) f)
      else None
  end.

Inductive Action : Type :=
| ActCreate (c : nat) (address : string) (i : nat)
| ActStart (c : nat) (call : Call) (sent : option nat)
| ActReceive (c n : nat)
| ActFail (c : nat) (e : RedisClientError)
| ActCancel (c : nat)
| ActQuit (c : nat)
| ActDrop (c : nat)
| ActServer (i : nat) (reply : RespVec).

Definition silent (o : option Factory) : option (Factory * list Event) := f ← o; Some (f, []).
Definition client_step (a : Action) (f : Factory) : option (Factory * list Event) :=
  match a with
  | ActCreate c address i => silent (create_client c address i f)
  | ActStart c call sent => start_call c call sent f
  | ActReceive c n => receive_bytes c n f
  | ActFail c e => fail_call c e f
  | ActCancel c => silent (cancel_call c f)
  | ActQuit c => silent (quit c f)
  | ActDrop c => silent (drop_pooled c f)
  | ActServer i reply => silent (server_answers i reply f)
  end.

Definition factory_new (capacity : nat) : Factory := mkFactory capacity ∅ ∅ ∅.

Inductive client_reachable : Factory → Prop :=
| clients_new capacity : client_reachable (factory_new capacity)
| clients_step a f f' es : client_reachable f → client_step a f = Some (f', es) → client_reachable f'.
End codec.

(** ** One call *)

(** The answers of the server are those to the commands, each to its own. *)
Definition answers_to (packet : OptionalMulti (list bytes)) (resp : OptionalMulti RespVec) (answers : list (list bytes * RespVec)) : Prop :=
  match packet, resp with
  | Single command, Single reply => answers = [(command, reply)]
  | Multi commands, Multi replies => length commands = length replies ∧ answers = zip commands replies
  | _, _ => False
  end.

Definition clean (so : Socket) : Prop := so_requests so = [] ∧ so_stream so = [].
Definition wires (replies : list RespVec) : bytes := concat ((λ r, (resp_to_buf [] r).1) <$> replies).

Section call.
Context `{DecoderEnv} {Hb : BtoiLaws}.

(** The call [call] is being executed since there were [start] answers: the
    commands are answered or wait, and whatever the answers to come, the codec
    has read some of the bytes and not all. *)
Definition executing (call : Call) (start : nat) (conn : Conn RespVec) (so : Socket) : Prop :=
  ∃ base answered, so_log so = base ++ answered ∧ length base = start ∧
    answered.*1 ++ so_requests so = packet_list (call_packet call) ∧
    (so_requests so ≠ [] ∨ so_stream so ≠ [] ∨ packet_list (call_packet call) = []) ∧
    ∀ fill, forallb encodable fill = true → length fill = length (so_requests so) →
      receiving (wire := resp_wire) (get_hint (call_packet call)) (answered.*2 ++ fill) conn (so_stream so ++ wires fill).

Lemma wires_app l l' : wires (l ++ l') = wires l ++ wires l'.
Proof. unfold wires. by rewrite fmap_app, concat_app. Qed.

Lemma wires_nonempty r l : encodable r = true → wires (r :: l) ≠ [].
Proof.
  intros Hr. unfold wires. cbn. intros [Hw _]%app_eq_nil. by eapply (wire_nonempty (wire := resp_wire) r); [split; [done|reflexivity]|].
Qed.

(** The response to a packet with its replies. *)
Definition response_of (packet : OptionalMulti (list bytes)) (replies : list RespVec) : OptionalMulti RespVec :=
  match packet, replies with Single _, r :: _ => Single r | _, _ => Multi replies end.

Lemma response_shape packet replies :
  length (packet_list packet) = length replies → packet_list packet ≠ [] → shape (get_hint packet) replies (response_of packet replies).
Proof.
  destruct packet as [c|cs]; cbn; intros Hlen Hne.
  - destruct replies as [|r [|]]; [done| |done]. constructor.
  - destruct replies; constructor; (by rewrite length_fmap) || by destruct cs.
Qed.

Lemma response_answers packet (answers : list (list bytes * RespVec)) :
  answers.*1 = packet_list packet → answers_to packet (response_of packet answers.*2) answers.
Proof.
  destruct packet as [c|cs]; cbn.
  - destruct answers as [|[c' r] [|]]; cbn; [done| |done]. by intros [= ->].
  - intros <-. split; [by rewrite !length_fmap|]. by rewrite zip_fst_snd.
Qed.

Lemma executing_filled call start conn so : executing call start conn so → ∃ fill,
  forallb encodable fill = true ∧ length fill = length (so_requests so).
Proof.
  intros _. exists (replicate (length (so_requests so)) (Simple [])). split; [|by rewrite length_replicate].
  induction (length (so_requests so)); [done|]. done.
Qed.

(** All the bytes have been read: the codec has the answer. *)
Lemma receive_last call conn so answered :
  answered.*1 = packet_list (call_packet call) → (so_stream so ≠ [] ∨ packet_list (call_packet call) = []) →
  receiving (wire := resp_wire) (get_hint (call_packet call)) (answered.*2) conn (so_stream so) →
  receive conn (so_stream so) = (idle, Ok (Some (response_of (call_packet call) answered.*2))).
Proof.
  intros Hcmds Hmore Hrec. destruct (decide (packet_list (call_packet call) = [])) as [Hnil|Hne].
  - rewrite Hnil in Hcmds. apply fmap_nil_inv in Hcmds as ->. destruct (call_packet call) as [|cs]; [done|]. cbn in Hnil. subst cs.
    destruct Hrec as (Hp & ps2 & ws2 & Hps & Hw & Hu). cbn in Hps. symmetry in Hps. apply app_eq_nil in Hps as [Hd ->].
    inversion Hw; subst. cbn in Hu. unfold receive, multi_decode. rewrite Hu, Hd. cbn [curr_hint hint_state read_buf dec_buf get_hint fmap list_fmap].
    destruct Hp as [[-> ->]|[-> Hn]]; [done|]. cbn in Hn. by injection Hn as <-.
  - destruct Hmore as [Hs|]; [|done]. apply (receive_whole (wire := resp_wire) (get_hint (call_packet call)) answered.*2); [|done..].
    apply response_shape; [by rewrite <- Hcmds, !length_fmap|done].
Qed.

(** A piece of the answers is read: the call goes on, or it has its answer. *)
Lemma executing_receive call start conn so n :
  executing call start conn so →
  let so' := mkSocket (so_address so) (so_requests so) (drop n (so_stream so)) (so_log so) in
  (∃ conn', receive conn (take n (so_stream so)) = (conn', Ok None) ∧ executing call start conn' so' ∧ ¬ clean so') ∨
  (∃ resp, receive conn (take n (so_stream so)) = (idle, Ok (Some resp)) ∧ clean so' ∧
    answers_to (call_packet call) resp (drop start (so_log so))).
Proof.
  intros Hex. pose proof Hex as (base & answered & Hlog & Hbase & Hcmds & Hmore & Hrec). cbv zeta.
  set (rest := drop n (so_stream so)). set (chunk := take n (so_stream so)).
  assert (so_stream so = chunk ++ rest) as Hstream by (symmetry; apply take_drop).
  destruct (decide (so_requests so = [] ∧ rest = [])) as [[Hreq Hrest]|Hnot].
  - right. rewrite Hrest, app_nil_r in Hstream. rewrite Hreq, app_nil_r in Hcmds. specialize (Hrec [] eq_refl). rewrite Hreq in Hrec.
    specialize (Hrec eq_refl). rewrite !app_nil_r in Hrec. rewrite <- Hstream.
    rewrite (receive_last call conn so answered) by (done || naive_solver). eexists. split; [done|]. split; [done|].
    rewrite Hlog, <- Hbase, drop_app_length. by apply response_answers.
  - left. assert (packet_list (call_packet call) ≠ []) as Hne.
    { intros Hnil. rewrite Hnil in Hcmds. apply app_eq_nil in Hcmds as [Ha%fmap_nil_inv Hreq]. subst answered. apply Hnot. split; [done|].
      destruct (Hrec [] eq_refl) as (_ & ps2 & ws2 & Hps & Hw & Hu); [by rewrite Hreq|]. cbn in Hps. symmetry in Hps.
      apply app_eq_nil in Hps as [_ ->]. inversion Hw; subst. cbn in Hu. apply app_eq_nil in Hu as [_ [Hu _]%app_eq_nil].
      rewrite Hstream in Hu. by apply app_eq_nil in Hu as [_ ->]. }
    assert (∀ fill, forallb encodable fill = true → length fill = length (so_requests so) → ∃ conn',
      receive conn chunk = (conn', Ok None) ∧
      receiving (wire := resp_wire) (get_hint (call_packet call)) (answered.*2 ++ fill) conn' (rest ++ wires fill)) as Hpart.
    { intros fill Henc Hl. eapply receive_part.
      - apply response_shape; [|done]. rewrite <- Hcmds, !length_app, !length_fmap. lia.
      - specialize (Hrec fill Henc Hl). by rewrite Hstream, <- app_assoc in Hrec.
      - intros [Hr Hw]%app_eq_nil. apply Hnot. split; [|done]. destruct fill as [|r fill]; [by destruct (so_requests so)|].
        cbn in Henc. apply andb_true_iff in Henc as [Henc _]. by eapply wires_nonempty in Hw. }
    destruct (executing_filled call start conn so Hex) as (fill & Henc & Hl). destruct (Hpart fill Henc Hl) as (conn' & Hconn' & _).
    exists conn'. split; [done|]. split; [|exact Hnot]. exists base, answered. cbn [so_log so_requests so_stream]. split_and!; [done..| |].
    { destruct (so_requests so); [|by left]. right. left. naive_solver. }
    intros fill' Henc' Hl'. destruct (Hpart fill' Henc' Hl') as (conn2 & Hconn2 & Hr). rewrite Hconn' in Hconn2. by injection Hconn2 as <-.
Qed.

(** The server answers one of the commands. *)
Lemma executing_answered call start conn so command requests reply :
  executing call start conn so → so_requests so = command :: requests → encodable reply = true →
  executing call start conn (mkSocket (so_address so) requests (so_stream so ++ (resp_to_buf [] reply).1) (so_log so ++ [(command, reply)])).
Proof.
  intros (base & answered & Hlog & Hbase & Hcmds & _ & Hrec) Hreq Henc. exists base, (answered ++ [(command, reply)]).
  cbn [so_log so_requests so_stream]. rewrite Hlog, Hreq in *. split_and!; [by rewrite app_assoc|done| | |].
  - by rewrite fmap_app, <- app_assoc.
  - right. left. intros [_ Hw]%app_eq_nil. eapply (wires_nonempty reply []); [done|]. unfold wires. cbn. by rewrite Hw.
  - intros fill Hf Hl. specialize (Hrec (reply :: fill)). cbn in Hrec. rewrite Henc in Hrec. specialize (Hrec Hf). rewrite fmap_app. cbn [fmap list_fmap].
    rewrite <- !app_assoc. apply Hrec. by rewrite Hl.
Qed.

(** A call begins on a connection without unread replies. *)
Lemma executing_start call so :
  clean so → ∃ conn bytes, multi_encode idle (call_packet call) = (conn, Ok bytes) ∧
    executing call (length (so_log so)) conn (mkSocket (so_address so) (so_requests so ++ packet_list (call_packet call)) (so_stream so) (so_log so)).
Proof.
  intros [Hreq Hstr]. eexists _, _. split; [reflexivity|]. exists (so_log so), []. cbn [so_log so_requests so_stream]. rewrite Hreq, Hstr, app_nil_r.
  cbn [app fmap list_fmap]. split_and!; [done..| |].
  - destruct (packet_list (call_packet call)); auto.
  - intros fill Hf Hl. split; [by right|]. exists fill, ((λ r, (resp_to_buf [] r).1) <$> fill). cbn. split_and!; [done| |done].
    by apply encodable_wires.
Qed.
End call.

(** ** All calls *)

(** Who uses connection [i]: the pool of an address or a client. *)
Definition uses (f : Factory) (o : string + nat) (i : nat) : Prop :=
  match o with
  | inl address => i ∈ default [] (fa_pool_map f !! address)
  | inr c => pc_socket <$> fa_clients f !! c = Some i
  end.

Section system.
Context `{DecoderEnv} {Hb : BtoiLaws}.

Definition client_ok (pc : PooledRedisClient) (so : Socket) : Prop :=
  match pc_running pc with
  | None => pc_err pc = true ∨ pc_conn pc = idle ∧ clean so
  | Some (call, start) => pc_err pc = true ∧ executing call start (pc_conn pc) so
  end.

(** Every connection has one user, those of the pools are clean. *)
Record client_inv (f : Factory) : Prop := {
  ci_one o o' i : uses f o i → uses f o' i → o = o';
  ci_nodup address pool : fa_pool_map f !! address = Some pool → NoDup pool ∧ length pool ≤ fa_capacity f;
  ci_pool address i : uses f (inl address) i → ∃ so, fa_sockets f !! i = Some so ∧ clean so ∧ so_address so = address;
  ci_client c pc : fa_clients f !! c = Some pc →
    ∃ so, fa_sockets f !! pc_socket pc = Some so ∧ client_ok pc so ∧ so_address so = pc_address pc;
}.

Lemma factory_new_inv capacity : client_inv (factory_new capacity).
Proof.
  assert (∀ o i, ¬ uses (factory_new capacity) o i) as Hno.
  { intros [a|c] i; cbn; rewrite lookup_empty; [apply not_elem_of_nil|done]. }
  split; [by intros o o' i ?%Hno|done|by intros a i ?%Hno|done].
Qed.

(** A client and its connection go on; nobody else uses it. *)
Lemma client_inv_local f c pc pc' so so' :
  client_inv f → fa_clients f !! c = Some pc → fa_sockets f !! pc_socket pc = Some so → pc_socket pc' = pc_socket pc → client_ok pc' so' → so_address so' = pc_address pc' →
  client_inv (set_client c pc' (set_socket (pc_socket pc) so' f)).
Proof.
  intros Hinv Hc Hso Hsame Hok Hadr. pose proof (ci_one f Hinv) as Hone.
  assert (∀ o i, uses (set_client c pc' (set_socket (pc_socket pc) so' f)) o i ↔ uses f o i) as Huses.
  { intros [a|c1] i; [done|]. cbn. destruct (decide (c1 = c)) as [->|]; [|by rewrite lookup_insert_ne].
    rewrite lookup_insert_eq, Hc. cbn. by rewrite Hsame. }
  assert (uses f (inr c) (pc_socket pc)) as Hmine by (cbn; by rewrite Hc). split.
  - intros o o' i. rewrite !Huses. apply Hone.
  - apply (ci_nodup f Hinv).
  - intros a i. rewrite Huses. intros Ha. destruct (ci_pool f Hinv a i Ha) as (so1 & Hso1 & Hcl & Ha1). exists so1. split; [|done]. cbn.
    rewrite lookup_insert_ne; [done|]. intros <-. by specialize (Hone _ _ _ Ha Hmine).
  - intros c1 pc1. cbn. destruct (decide (c1 = c)) as [->|Hne].
    + rewrite lookup_insert_eq. intros [= <-]. rewrite Hsame, lookup_insert_eq. eauto.
    + rewrite lookup_insert_ne by done. intros Hc1. destruct (ci_client f Hinv c1 pc1 Hc1) as (so1 & Hso1 & Hok1). exists so1.
      rewrite lookup_insert_ne; [done|]. intros Heq. assert (uses f (inr c1) (pc_socket pc)) as Hu by (cbn; rewrite Hc1; cbn; by rewrite Heq).
      by specialize (Hone _ _ _ Hu Hmine) as [= ->].
Qed.

(** A client goes on. *)
Lemma client_inv_set f c pc pc' so :
  client_inv f → fa_clients f !! c = Some pc → fa_sockets f !! pc_socket pc = Some so → pc_socket pc' = pc_socket pc → client_ok pc' so → pc_address pc' = pc_address pc →
  client_inv (set_client c pc' f).
Proof.
  intros Hinv Hc Hso Hsame Hok Hadr. destruct (ci_client f Hinv c pc Hc) as (so1 & Hso1 & _ & Ha). rewrite Hso in Hso1. injection Hso1 as <-.
  pose proof (client_inv_local f c pc pc' so so Hinv Hc Hso Hsame Hok ltac:(congruence)) as Hi.
  unfold set_client, set_socket in *. cbn in Hi. by rewrite (insert_id (fa_sockets f)) in Hi.
Qed.

(** A new client takes the connection [j], which nobody else has. *)
Lemma client_inv_take f f' c address j so :
  client_inv f → fa_clients f !! c = None → fa_capacity f' = fa_capacity f → fa_clients f' = <[c := client_new address j]> (fa_clients f) →
  (∀ a x, uses f' (inl a) x → uses f (inl a) x ∧ x ≠ j) → (∀ c', ¬ uses f (inr c') j) →
  (∀ a pool, fa_pool_map f' !! a = Some pool → NoDup pool ∧ length pool ≤ fa_capacity f) →
  fa_sockets f' !! j = Some so → clean so → so_address so = address → (∀ x, x ≠ j → fa_sockets f' !! x = fa_sockets f !! x) → client_inv f'.
Proof.
  intros Hinv Hc Hcap Hcl Hpool Hno Hnd Hj Hclean Hadr Hsame.
  assert (∀ o x, uses f' o x → o = inr c ∧ x = j ∨ uses f o x ∧ x ≠ j) as Huses.
  { intros [a|c'] x Hu; [right; by apply Hpool|]. cbn in Hu. rewrite Hcl in Hu. destruct (decide (c' = c)) as [->|Hne].
    - rewrite lookup_insert_eq in Hu. injection Hu as <-. by left.
    - rewrite lookup_insert_ne in Hu by done. right. split; [done|]. intros ->. by apply (Hno c'). }
  split.
  - intros o o' x Ho%Huses Ho'%Huses. destruct Ho as [[-> ->]|[Ho Hx]], Ho' as [[-> ?]|[Ho' ?]]; try done. by eapply (ci_one f Hinv).
  - intros a pool Ha. rewrite Hcap. by eapply Hnd.
  - intros a x [[? _]|[Ha Hx]]%Huses; [done|]. destruct (ci_pool f Hinv a x Ha) as (so1 & ? & ?). exists so1. by rewrite Hsame.
  - intros c' pc. rewrite Hcl. destruct (decide (c' = c)) as [->|Hne].
    + rewrite lookup_insert_eq. intros [= <-]. exists so. split; [done|]. split; [by right|done].
    + rewrite lookup_insert_ne by done. intros Hpc. destruct (ci_client f Hinv c' pc Hpc) as (so1 & ? & ?). exists so1. split; [|done].
      rewrite Hsame; [done|]. intros Heq. apply (Hno c'). cbn. by rewrite Hpc, <- Heq.
Qed.

Lemma create_inv c address i f f' : client_inv f → create_client c address i f = Some f' → client_inv f'.
Proof.
  intros Hinv. unfold create_client. case_bool_decide as Hc; [|done].
  destruct (default [] (fa_pool_map f !! address)) as [|j pool] eqn:Hpool; cbn [pool_get].
  - case_bool_decide as Hi; [|done]. intros [= <-].
    assert (∀ o, ¬ uses f o i) as Hno.
    { intros [a|c'] Hu; [by destruct (ci_pool f Hinv a i Hu) as (? & ? & _); congruence|]. cbn in Hu.
      apply fmap_Some in Hu as (pc & Hpc & ->). destruct (ci_client f Hinv c' pc Hpc) as (? & ? & _). congruence. }
    eapply (client_inv_take f _ c address i (new_socket address)); try done; cbn.
    + intros a x Hx. destruct (decide (a = address)) as [->|]; [rewrite lookup_insert_eq in Hx; by apply not_elem_of_nil in Hx|].
      rewrite lookup_insert_ne in Hx by done. split; [done|]. intros ->. by apply (Hno (inl a)).
    + intros a pool. destruct (decide (a = address)) as [->|]; [rewrite lookup_insert_eq; intros [= <-]; split; [constructor|cbn; lia]|].
      rewrite lookup_insert_ne by done. apply (ci_nodup f Hinv).
    + apply lookup_insert_eq.
    + intros x Hx. by rewrite lookup_insert_ne.
  - intros [= <-]. destruct (fa_pool_map f !! address) as [pool'|] eqn:Ha; [|done]. cbn in Hpool. subst pool'.
    destruct (ci_nodup f Hinv _ _ Ha) as [[Hj Hnd]%NoDup_cons Hlen].
    assert (uses f (inl address) j) as Huse by (cbn; rewrite Ha; cbn; by left). destruct (ci_pool f Hinv _ _ Huse) as (so & Hso & Hcl & Hadr).
    eapply (client_inv_take f _ c address j so); try done; cbn.
    + intros a x Hx. destruct (decide (a = address)) as [->|Hne].
      * rewrite lookup_insert_eq in Hx. rewrite Ha. cbn in *. split; [by right|]. by intros ->.
      * rewrite lookup_insert_ne in Hx by done. split; [done|]. intros ->. by specialize (ci_one f Hinv (inl a) _ j Hx Huse) as [= ->].
    + intros c' Hu. by specialize (ci_one f Hinv (inl address) (inr c') j Huse Hu).
    + intros a pool1. destruct (decide (a = address)) as [->|]; [rewrite lookup_insert_eq; intros [= <-]; split; [done|cbn in Hlen; lia]|].
      rewrite lookup_insert_ne by done. apply (ci_nodup f Hinv).
Qed.

Lemma drop_inv c f f' : client_inv f → drop_pooled c f = Some f' → client_inv f'.
Proof.
  intros Hinv. unfold drop_pooled. destruct (fa_clients f !! c) as [pc|] eqn:Hc; [|done]. cbn [mbind option_bind].
  case_bool_decide as Hrun; [|done]. intros [= <-]. destruct (ci_client f Hinv c pc Hc) as (so & Hso & Hok & Hadr).
  assert (∀ c' pc', delete c (fa_clients f) !! c' = Some pc' → c' ≠ c ∧ fa_clients f !! c' = Some pc') as Hdel.
  { intros c' pc' [? ?]%lookup_delete_Some. done. }
  assert (uses f (inr c) (pc_socket pc)) as Hmine by (cbn; by rewrite Hc).
  set (keep := if pc_err pc then f else _).
  assert (∀ o x, uses (drop_client c keep) o x → o ≠ inr c ∧ (uses f o x ∨ o = inl (pc_address pc) ∧ x = pc_socket pc ∧ pc_err pc = false)) as Huses.
  { intros [a|c'] x Hu.
    - split; [done|]. subst keep. destruct (pc_err pc) eqn:Herr; [by left|]. cbn in Hu. destruct (decide (a = pc_address pc)) as [->|].
      + rewrite lookup_insert_eq in Hu. cbn in Hu. unfold pool_put in Hu. case_bool_decide; [|by left].
        apply elem_of_app in Hu as [Hu| ->%list_elem_of_singleton]; [by left|by right].
      + rewrite lookup_insert_ne in Hu by done. by left.
    - assert (pc_socket <$> delete c (fa_clients f) !! c' = Some x) as Hu' by (subst keep; by destruct (pc_err pc)).
      apply fmap_Some in Hu' as (pc' & [Hne Hpc']%Hdel & ->). split; [congruence|]. left. cbn. by rewrite Hpc'. }
  assert (fa_sockets (drop_client c keep) = fa_sockets f) as Hsockets by (subst keep; by destruct (pc_err pc)).
  assert (pc_err pc = false → clean so) as Hclean.
  { intros Herr. unfold client_ok in Hok. rewrite Hrun, Herr in Hok. by destruct Hok as [|[_ ?]]. }
  split.
  - intros o o' x [Ho Hu]%Huses [Ho' Hu']%Huses. destruct Hu as [Hu|(-> & -> & He)], Hu' as [Hu'|(-> & ? & He')]; [by eapply (ci_one f Hinv)|..|done].
    + subst x. by specialize (ci_one f Hinv _ _ _ Hu Hmine).
    + by specialize (ci_one f Hinv _ _ _ Hu' Hmine).
  - intros a pool. subst keep. destruct (pc_err pc) eqn:Herr; cbn; [apply (ci_nodup f Hinv)|]. destruct (decide (a = pc_address pc)) as [->|].
    2: { rewrite lookup_insert_ne by done. apply (ci_nodup f Hinv). }
    rewrite lookup_insert_eq. intros [= <-].
    assert (NoDup (default [] (fa_pool_map f !! pc_address pc)) ∧ length (default [] (fa_pool_map f !! pc_address pc)) ≤ fa_capacity f) as [Hnd Hlen].
    { destruct (fa_pool_map f !! pc_address pc) as [pool|] eqn:Hp; [by apply (ci_nodup f Hinv) in Hp|]. split; [constructor|cbn; lia]. }
    unfold pool_put. case_bool_decide; [|done]. split; [|rewrite length_app; cbn; lia]. apply NoDup_app. split; [done|]. split; [|apply NoDup_singleton].
    intros x Hx ->%list_elem_of_singleton. by specialize (ci_one f Hinv (inl (pc_address pc)) _ _ Hx Hmine).
  - intros a x [_ Hu]%Huses. rewrite Hsockets. destruct Hu as [Hu|([= ->] & -> & Herr)]; [by eapply (ci_pool f Hinv)|eauto 6].
  - intros c' pc' Hc'. rewrite Hsockets. apply (ci_client f Hinv c'). apply Hdel. subst keep. by destruct (pc_err pc).
Qed.

Lemma server_inv i reply f f' : client_inv f → server_answers i reply f = Some f' → client_inv f'.
Proof.
  intros Hinv. unfold server_answers. destruct (fa_sockets f !! i) as [so|] eqn:Hso; [|done]. cbn [mbind option_bind].
  destruct (so_requests so) as [|command requests] eqn:Hreq; [done|]. destruct (encodable reply) eqn:Henc; [|done]. intros [= <-].
  split; [exact (ci_one f Hinv)|exact (ci_nodup f Hinv)|..].
  - intros a x Hu. destruct (ci_pool f Hinv a x Hu) as (so1 & Hso1 & Hcl & Ha). exists so1. cbn. rewrite lookup_insert_ne; [done|].
    intros ->. rewrite Hso in Hso1. injection Hso1 as <-. destruct Hcl. congruence.
  - intros c pc Hc. destruct (ci_client f Hinv c pc Hc) as (so1 & Hso1 & Hok & Hadr). cbn. destruct (decide (pc_socket pc = i)) as [<-|Hne].
    2: { rewrite lookup_insert_ne by done. eauto. }
    rewrite lookup_insert_eq. eexists. split; [done|]. rewrite Hso in Hso1. injection Hso1 as <-. split; [|done]. unfold client_ok in *.
    destruct (pc_running pc) as [[call start]|].
    + destruct Hok as [? Hex]. split; [done|]. by apply executing_answered.
    + destruct Hok as [?|[_ [? _]]]; [by left|congruence].
Qed.

Lemma start_inv c call sent f f' es : client_inv f → start_call c call sent f = Some (f', es) →
  client_inv f' ∧ ∀ c' call' resp, Finished c' call' (Ok resp) ∉ es.
Proof.
  intros Hinv. unfold start_call. destruct (fa_clients f !! c) as [pc|] eqn:Hc; [|done]. cbn [mbind option_bind].
  destruct (ci_client f Hinv c pc Hc) as (so & Hso & Hok & Hadr). rewrite Hso. cbn [mbind option_bind]. case_bool_decide as Hrun; [|done].
  assert (∀ e c' call' resp, Finished c' call' (Ok resp) ∉ [Finished c call (process call (Err e))]) as Hev.
  { intros e c' call' resp [= _ _ He]%list_elem_of_singleton. by destruct call. }
  unfold client_ok in Hok. rewrite Hrun in Hok. destruct (pc_err pc) eqn:Herr; [intros [= <- <-]; by split|].
  destruct Hok as [|[Hidle Hcl]]; [done|]. rewrite Hidle. destruct (executing_start call so Hcl) as (conn & sent_bytes & -> & Hex).
  intros [= <- <-]. split; [|destruct sent; [by apply Hev|intros ? ? ?; apply not_elem_of_nil]].
  eapply client_inv_local; try done. destruct sent; [by left|by split].
Qed.

Lemma receive_inv c n f f' es : client_inv f → receive_bytes c n f = Some (f', es) →
  client_inv f' ∧ ∀ c call resp, Finished c call (Ok resp) ∈ es → ∃ pc start so, fa_clients f !! c = Some pc ∧ pc_running pc = Some (call, start) ∧
    fa_sockets f !! pc_socket pc = Some so ∧ so_address so = pc_address pc ∧ answers_to (call_packet call) resp (drop start (so_log so)).
Proof.
  intros Hinv. unfold receive_bytes. destruct (fa_clients f !! c) as [pc|] eqn:Hc; [|done]. cbn [mbind option_bind].
  destruct (ci_client f Hinv c pc Hc) as (so & Hso & Hok & Hadr). rewrite Hso. cbn [mbind option_bind].
  unfold client_ok in Hok. destruct (pc_running pc) as [[call start]|] eqn:Hrun; [|done]. cbn [mbind option_bind]. destruct Hok as [Herr Hex].
  destruct (executing_receive call start (pc_conn pc) so n Hex) as [(conn' & -> & Hex' & _)|(resp & -> & Hcl & Hans)].
  - intros [= <- <-]. split; [|intros ? ? ? []%not_elem_of_nil]. by eapply client_inv_local.
  - intros [= <- <-]. assert (process call (Ok resp) = Ok resp) as ->.
    { destruct call; [done|..]; cbn in Hans; by destruct resp. }
    split; [eapply client_inv_local; try done; by right|].
    intros c' call' resp' [= -> -> ->]%list_elem_of_singleton. eauto 10.
Qed.

Lemma set_err_inv c pc f running : client_inv f → fa_clients f !! c = Some pc → running = None →
  client_inv (set_client c (mkPooledRedisClient (pc_address pc) (pc_socket pc) (pc_conn pc) true running) f).
Proof.
  intros Hinv Hc ->. destruct (ci_client f Hinv c pc Hc) as (so & Hso & _). eapply client_inv_set; try done. by left.
Qed.

Lemma client_step_inv a f f' es : client_inv f → client_step a f = Some (f', es) →
  client_inv f' ∧ ∀ c call resp, Finished c call (Ok resp) ∈ es → ∃ pc start so, fa_clients f !! c = Some pc ∧ pc_running pc = Some (call, start) ∧
    fa_sockets f !! pc_socket pc = Some so ∧ so_address so = pc_address pc ∧ answers_to (call_packet call) resp (drop start (so_log so)).
Proof.
  intros Hinv. assert (∀ o P, silent o = Some (f', es) → (∀ f1, o = Some f1 → client_inv f1) →
    client_inv f' ∧ ∀ c call resp, Finished c call (Ok resp) ∈ es → P c call resp) as Hsilent.
  { intros [f1|] P; cbn; [|done]. intros [= <- <-] Ho. split; [by apply Ho|]. intros c call resp []%not_elem_of_nil. }
  destruct a as [c address i|c call sent|c n|c e|c|c|c|i reply]; cbn [client_step].
  - intros Hs. eapply Hsilent; [done|]. intros f1. by apply create_inv.
  - intros [? Hev]%start_inv; [|done]. split; [done|]. by intros c1 call1 resp ?%Hev.
  - by apply receive_inv.
  - unfold fail_call. destruct (fa_clients f !! c) as [pc|] eqn:Hc; [|done]. cbn [mbind option_bind].
    destruct (pc_running pc) as [[call start]|] eqn:Hrun; [|done]. intros [= <- <-]. split; [by apply set_err_inv|].
    intros c1 call1 resp [= _ _ He]%list_elem_of_singleton. by destruct call.
  - intros Hs. eapply Hsilent; [done|]. intros f1. unfold cancel_call. destruct (fa_clients f !! c) as [pc|] eqn:Hc; [|done]. cbn [mbind option_bind].
    destruct (ci_client f Hinv c pc Hc) as (so & _ & Hok & _). unfold client_ok in Hok.
    destruct (pc_running pc) as [[call start]|] eqn:Hrun; [|done]. destruct Hok as [-> _]. intros [= <-]. by apply set_err_inv.
  - intros Hs. eapply Hsilent; [done|]. intros f1. unfold quit. destruct (fa_clients f !! c) as [pc|] eqn:Hc; [|done]. cbn [mbind option_bind].
    case_bool_decide; [|done]. intros [= <-]. by apply set_err_inv.
  - intros Hs. eapply Hsilent; [done|]. intros f1. by apply drop_inv.
  - intros Hs. eapply Hsilent; [done|]. intros f1. by apply server_inv.
Qed.

Lemma client_reachable_inv f : client_reachable f → client_inv f.
Proof. induction 1 as [capacity|a f f' es _ IH Hs]; [apply factory_new_inv|]. by apply (client_step_inv a f f' es). Qed.

(** The server answers all the commands that wait. *)
Lemma server_answers_all i replies : ∀ f so,
  fa_sockets f !! i = Some so → length replies = length (so_requests so) → forallb encodable replies = true →
  ∃ f' so', run_steps (λ a f, fst <$> client_step a f) (ActServer i <$> replies) f = Some f' ∧ fa_clients f' = fa_clients f ∧
    fa_sockets f' !! i = Some so' ∧ so_requests so' = [] ∧ so_log so' = so_log so ++ zip (so_requests so) replies.
Proof.
  induction replies as [|r replies IH]; intros f so Hso Hlen Henc; cbn [fmap list_fmap].
  - exists f, so. destruct (so_requests so); [|done]. by rewrite app_nil_r.
  - cbn in Henc. apply andb_true_iff in Henc as [Hr Henc]. rewrite run_steps_cons. cbn [client_step silent]. unfold server_answers.
    rewrite Hso. cbn [mbind option_bind]. destruct (so_requests so) as [|command requests] eqn:Hreq; [done|]. rewrite Hr. cbn [mbind option_bind fmap option_fmap option_map fst].
    edestruct (IH (set_socket i (mkSocket (so_address so) requests (so_stream so ++ (resp_to_buf [] r).1) (so_log so ++ [(command, r)])) f))
      as (f' & so' & Hrun & Hcl & Hso' & Hreq' & Hlog'); [apply lookup_insert_eq|cbn in *; lia|done|].
    exists f', so'. split_and!; [exact Hrun|by rewrite Hcl|done|done|]. rewrite Hlog'. cbn. by rewrite <- app_assoc.
Qed.
End system.

(** C17. A call of the pooled client gets the answers to its own commands:
    however the calls of all the clients, the servers and the bytes of the
    replies interleave, and whichever calls time out, fail or are given up
    half-way, the response of a call that succeeds has exactly the answers that
    the server at the client's address has given since the call began, one for
    each of its commands, in order.  The connections in the pools have no
    command or reply left, no connection has two users, and no pool has more
    than its capacity. *)
Theorem client_replies_match `{DecoderEnv} {Hb : BtoiLaws} f a f' es :
  client_reachable f → client_step a f = Some (f', es) →
  (∀ c call resp, Finished c call (Ok resp) ∈ es → ∃ pc start so, fa_clients f !! c = Some pc ∧ pc_running pc = Some (call, start) ∧
    fa_sockets f !! pc_socket pc = Some so ∧ so_address so = pc_address pc ∧ answers_to (call_packet call) resp (drop start (so_log so))) ∧
  (∀ address pool, fa_pool_map f' !! address = Some pool → length pool ≤ fa_capacity f' ∧
    ∀ i, i ∈ pool → ∃ so, fa_sockets f' !! i = Some so ∧ clean so ∧ so_address so = address) ∧
  (∀ o o' i, uses f' o i → uses f' o' i → o = o').
Proof.
  intros Hf%client_reachable_inv Hs. destruct (client_step_inv a f f' es Hf Hs) as [Hinv Hev]. split_and!; [done| |exact (ci_one f' Hinv)].
  intros address pool Hp. split; [by destruct (ci_nodup f' Hinv _ _ Hp)|]. intros i Hi. apply (ci_pool f' Hinv). cbn. by rewrite Hp.
Qed.

(** A call ends when the server answers: from every reachable state, a call
    that is being executed gets its response once the server has answered the
    commands that wait and the bytes have arrived, and the client can be used
    again. *)
Theorem client_call_completes `{DecoderEnv} {Hb : BtoiLaws} f c pc call start so replies :
  client_reachable f → fa_clients f !! c = Some pc → pc_running pc = Some (call, start) → fa_sockets f !! pc_socket pc = Some so →
  length replies = length (so_requests so) → forallb encodable replies = true →
  ∃ f1 n f2 resp pc2, run_steps (λ a f, fst <$> client_step a f) (ActServer (pc_socket pc) <$> replies) f = Some f1 ∧
    client_step (ActReceive c n) f1 = Some (f2, [Finished c call (Ok resp)]) ∧
    answers_to (call_packet call) resp (drop start (so_log so) ++ zip (so_requests so) replies) ∧
    fa_clients f2 !! c = Some pc2 ∧ pc_err pc2 = false ∧ pc_running pc2 = None.
Proof.
  intros Hf Hc Hrun Hso Hlen Henc. destruct (server_answers_all (pc_socket pc) replies f so Hso Hlen Henc) as (f1 & so1 & Hrun1 & Hcl1 & Hso1 & Hreq1 & Hlog1).
  assert (client_inv f1) as Hinv1.
  { eapply (run_steps_invariant _ client_inv); [|by apply client_reachable_inv|exact Hrun1]. intros a g g' _ Hg Hs.
    cbn beta in Hs. destruct (client_step a g) as [[g1 es]|] eqn:Heq; [|done]. injection Hs as <-. by apply (client_step_inv a g g1 es). }
  assert (fa_clients f1 !! c = Some pc) as Hc1 by by rewrite Hcl1.
  destruct (ci_client f1 Hinv1 c pc Hc1) as (so1' & Hso1' & Hok & _). rewrite Hso1 in Hso1'. injection Hso1' as <-. unfold client_ok in Hok.
  rewrite Hrun in Hok. destruct Hok as [_ Hex]. pose proof (client_reachable_inv f Hf) as Hinv.
  destruct (ci_client f Hinv c pc Hc) as (so' & Hso' & Hok & _). rewrite Hso in Hso'. injection Hso' as <-. unfold client_ok in Hok.
  rewrite Hrun in Hok. destruct Hok as [_ (base & answered & Hlog & Hbase & _)].
  destruct (executing_receive call start (pc_conn pc) so1 (length (so_stream so1)) Hex) as [(conn & _ & _ & Hno)|(resp & Hr & _ & Hans)].
  { destruct Hno. split; [done|]. cbn. apply drop_ge. lia. }
  assert (process call (Ok resp) = Ok resp) as Hpr by (destruct call; [done|..]; cbn in Hans; by destruct resp).
  eexists f1, (length (so_stream so1)), _, resp, _. split_and!; [done|..].
  - cbn [client_step]. unfold receive_bytes. rewrite Hc1. cbn [mbind option_bind]. rewrite Hso1. cbn [mbind option_bind]. rewrite Hrun. cbn [mbind option_bind].
    rewrite Hr, Hpr. reflexivity.
  - rewrite Hlog1, drop_app_le in Hans; [done|]. rewrite Hlog, length_app. lia.
  - cbn. apply lookup_insert_eq.
  - done.
  - done.
Qed.

(** ** Examples *)

Section demo.
#[local] Existing Instances env_64 env_64_laws.

(** A call is given up after it was sent, its client goes, and another client
    asks the same server. *)
Definition demo_actions : list Action :=
  [ActCreate 0 "r:6379" 0; ActStart 0 (ExecuteOne [bytes_of "GET"; bytes_of "a"]) None; ActCancel 0; ActDrop 0;
   ActCreate 1 "r:6379" 1; ActStart 1 (ExecuteOne [bytes_of "GET"; bytes_of "b"]) None].
Definition demo_factory : Factory :=
  default (factory_new 2) (run_steps (λ a f, fst <$> client_step a f) demo_actions (factory_new 2)).
Definition demo_client : PooledRedisClient := default (client_new "" 0) (fa_clients demo_factory !! 1).
Definition demo_socket : Socket := default (new_socket "") (fa_sockets demo_factory !! 1).
Definition demo_answered : Factory :=
  default demo_factory (fst <$> client_step (ActServer 1 (Bulk (Str (bytes_of "2")))) demo_factory).

Lemma client_run_reachable actions f f' :
  client_reachable f → run_steps (λ a f, fst <$> client_step a f) actions f = Some f' → client_reachable f'.
Proof.
  apply (run_steps_invariant _ client_reachable). intros a g g' _ Hg. destruct (client_step a g) as [[g1 es]|] eqn:Hs; [|done]. intros [= <-].
  by eapply clients_step.
Qed.

Lemma demo_factory_reachable : client_reachable demo_factory.
Proof. eapply (client_run_reachable demo_actions); [constructor|]. vm_compute. reflexivity. Qed.

Lemma demo_answered_reachable : client_reachable demo_answered.
Proof. eapply (client_run_reachable [ActServer 1 (Bulk (Str (bytes_of "2")))]); [apply demo_factory_reachable|]. vm_compute. reflexivity. Qed.

Lemma client_replies_match_witness : ∃ pc start so,
  fa_clients demo_answered !! 1 = Some pc ∧ pc_running pc = Some (ExecuteOne [bytes_of "GET"; bytes_of "b"], start) ∧
  fa_sockets demo_answered !! pc_socket pc = Some so ∧ so_address so = pc_address pc ∧
  answers_to (Single [bytes_of "GET"; bytes_of "b"]) (Single (Bulk (Str (bytes_of "2")))) (drop start (so_log so)).
Proof.
  destruct (client_step (ActReceive 1 7) demo_answered) as [[f' es]|] eqn:Hs; [|vm_compute in Hs; discriminate].
  destruct (client_replies_match demo_answered (ActReceive 1 7) f' es demo_answered_reachable Hs) as [Hev _].
  apply (Hev 1 (ExecuteOne [bytes_of "GET"; bytes_of "b"])). vm_compute in Hs. injection Hs as _ <-. left.
Defined.

Lemma client_call_completes_witness : ∃ f1 n f2 resp pc2,
  run_steps (λ a f, fst <$> client_step a f) (ActServer (pc_socket demo_client) <$> [Bulk (Str (bytes_of "2"))]) demo_factory = Some f1 ∧
  client_step (ActReceive 1 n) f1 = Some (f2, [Finished 1 (ExecuteOne [bytes_of "GET"; bytes_of "b"]) (Ok resp)]) ∧
  answers_to (Single [bytes_of "GET"; bytes_of "b"]) resp (drop 0 (so_log demo_socket) ++ zip (so_requests demo_socket) [Bulk (Str (bytes_of "2"))]) ∧
  fa_clients f2 !! 1 = Some pc2 ∧ pc_err pc2 = false ∧ pc_running pc2 = None.
Proof.
  apply (client_call_completes demo_factory 1 demo_client (ExecuteOne [bytes_of "GET"; bytes_of "b"]) 0 demo_socket [Bulk (Str (bytes_of "2"))]).
  - exact demo_factory_reachable.
  - vm_compute. reflexivity.
  - vm_compute. reflexivity.
  - vm_compute. reflexivity.
  - vm_compute. reflexivity.
  - vm_compute. reflexivity.
Defined.
End demo.
