(* ===== verification/Recovery.v ===== *)
(** * Recovery of the epochs

    [recover_epoch] of [broker/service.rs] with [epoch.rs]: a broker that has
    lost its latest metadata asks the proxies for their epochs and goes on
    above them.  The calls to the proxies run concurrently, in the world of
    [Coordinator], and the proxies answer with the handler of [Executor]. *)

From S2P Require Import Api Service.
From S2P Require Import Prelude RangeList RustStr Resp Packet Command ClusterMeta Wire MetaMap Keys.
From S2P Require Import Store SlotInv Query Migrate Plan Balance Commit ChunkAlloc Update Registry.
From S2P Require Import NewChunks Failover Broker Reach Sync Route ClusterCmd Control.
From S2P Require Import Batch Backend Session Slowlog Replicate DataCmd Executor Coordinator SyncRound.

Section recovery.
Context `{UnicodeCase} `{HashOrder} `{MetaCodec} `{Crc16} `{NumberParsers}.
Context (atoi_usize : bytes → option N) (crc64 : bytes → N) (to_rfc3339 : Z → Z → option bytes).
Context (mgr_error_debug : MigrationError → string) (reply_debug : RespVec → string).
Context (error_text : CommandError → string) (unexpected_reply : string → RespVec → string) (numkeys_error : bytes → string).
Context (reports : Reports) (migration_limit : N) (clear_free_nodes : bool).
(** [btoi::btoi::<u64>]. *)
Context (btoi_u64 : bytes → option N).

Definition GETEPOCH : list bytes := bytes_of <$> ["UMCTL"; "GETEPOCH"].

Definition parse_epoch_reply (address : string) (resp : RespVec) : outcome string N :=
  match resp with
  | Integer int_bytes => ok_or (btoi_u64 int_bytes) address
  | _ => Err address
  end.

Definition fetch_proxy_epoch (address : string) : coord (outcome string N) :=
  client ← call (CreateClient address);
  match client with
  | Ok _ =>
      resp ← call (ExecuteSingle address GETEPOCH);
      mret match resp with Ok resp => parse_epoch_reply address resp | _ => Err address end
  | _ => mret (Err address)
  end.

Abbreviation joined := (join_all atoi_usize crc64 to_rfc3339 mgr_error_debug reply_debug error_text unexpected_reply numkeys_error
  reports migration_limit clear_free_nodes quiet).

(** [MemBrokerService::recover_epoch]: the addresses, the epochs, the new
    epoch. *)
Definition recover (w : World) (results : list (outcome string N)) (w' : World) : Prop :=
  ∃ w1, joined (fetch_proxy_epoch <$> get_proxies_with_pagination (w_store w) None None) w results w1 ∧
    w' = mkWorld (exec (RecoverEpoch (wadd (ef_max_epoch (fetch_max_epoch results)) 1)) (w_store w1)).1 (w_proxies w1).

(** ** The answers of the proxies *)

Lemma umctl_getepoch config s :
  handle_umctl config atoi_usize to_rfc3339 mgr_error_debug reports (ctx_of GETEPOCH) s =
  Ok (s, integer (to_string (mgr_epoch (ps_meta s)))).
Proof.
  unfold handle_umctl, GETEPOCH. rewrite umctl_sub_command, to_uppercase_ascii by done. cbn [string_map].
  by repeat (case_bool_decide; [try discriminate; done|]).
Qed.

Lemma deliver_getepoch lv :
  deliver atoi_usize crc64 to_rfc3339 mgr_error_debug reply_debug error_text unexpected_reply numkeys_error reports lv GETEPOCH =
  (lv, integer (to_string (mgr_epoch (ps_meta (lv_state lv))))).
Proof.
  unfold GETEPOCH. erewrite deliver_umctl; [|apply umctl_getepoch|reflexivity]. by destruct lv.
Qed.

(** What the result of a call tells of the proxy. *)
Definition told_epoch (r : outcome string N) (lv : option live) : Prop :=
  match r with
  | Ok e => ∃ lv0, lv = Some lv0 ∧ (mgr_epoch (ps_meta (lv_state lv0)) ≤ u64_max → mgr_epoch (ps_meta (lv_state lv0)) = e)%N
  | Err _ => True
  | Panic => False
  end.

Hypothesis Hbtoi : ∀ n, (n ≤ u64_max)%N → btoi_u64 (bytes_of (to_string n)) = Some n.

Lemma told_goes_on r lv lv' : option_Forall2 goes_on lv lv' → told_epoch r lv → told_epoch r lv'.
Proof.
  intros Hg. destruct r as [e| |]; [|done..]. intros (lv0 & -> & He). inversion Hg as [? lv1 Hgo|]; subst. exists lv1.
  split; [done|]. by rewrite (go_epoch _ _ Hgo).
Qed.

Lemma fetch_task_safe s a lv :
  safe atoi_usize crc64 to_rfc3339 mgr_error_debug reply_debug error_text unexpected_reply numkeys_error reports migration_limit
    clear_free_nodes s a told_epoch (fetch_proxy_epoch a) lv.
Proof.
  intros w x w' Hs Hlv [-> Hc]. split_and!; [done..|]. intros lv1 _. destruct Hc as [-> | [-> _]]; [done|]. cbn [fetch_proxy_epoch mbind coord_mbind coord_bind].
  intros w1 x w2 Hs1 Hlv1 Hq. cbn [serve] in Hq. rewrite Hlv1 in Hq. destruct lv1 as [lv1|].
  2: { destruct Hq as [-> ->]. split_and!; [done..|]. by intros lv2 _. }
  rewrite deliver_getepoch in Hq.
  assert (x = Err () ∨ x = Ok (integer (to_string (mgr_epoch (ps_meta (lv_state lv1)))))) as Hx by naive_solver.
  assert (w_store w2 = s ∧ w_proxies w2 !! a = Some lv1 ∧ ∀ b, b ≠ a → w_proxies w2 !! b = w_proxies w1 !! b) as (Hs2 & Hlv2 & Hb).
  { destruct Hq as [[_ ->]|[_ [-> | ->]]]; cbn; [|done|]; (split; [done|]); rewrite lookup_insert_eq; (split; [done|]);
      intros b Hne; by rewrite lookup_insert_ne. }
  split_and!; [done|done|]. rewrite Hlv2. intros lv2 Hg. apply (told_goes_on _ (Some lv1)); [done|].
  destruct Hx as [-> | ->]; [done|]. cbn. unfold integer. cbn. destruct (btoi_u64 _) as [e|] eqn:He; [|done].
  exists lv1. split; [done|]. intros Hle. rewrite (Hbtoi _ Hle) in He. congruence.
Qed.

(** ** The largest epoch *)

Lemma fetch_max_from l : ∀ r0,
  let r := foldl (λ r x, match x with
                         | Ok epoch => mkEpochFetchResult (N.max (ef_max_epoch r) epoch) (ef_failed_addresses r)
                         | Err address => mkEpochFetchResult (ef_max_epoch r) (ef_failed_addresses r ++ [address])
                         | Panic => r
                         end) r0 l in
  (ef_max_epoch r0 ≤ ef_max_epoch r)%N ∧ (∀ e : N, Ok e ∈ l → (e ≤ ef_max_epoch r)%N) ∧
  (ef_max_epoch r = ef_max_epoch r0 ∨ Ok (ef_max_epoch r) ∈ l) ∧
  (ef_failed_addresses r = [] → ef_failed_addresses r0 = [] ∧ ∀ a : string, Err a ∉ l).
Proof.
  induction l as [|x l IH]; intros r0; cbn [foldl].
  { split_and!; [done|by intros ? ?%not_elem_of_nil|by left|]. intros Hr. split; [done|]. by intros ? ?%not_elem_of_nil. }
  match goal with |- context [foldl _ ?r1 l] => destruct (IH r1) as (Hge & Hall & Hmax & Hfail) end.
  set (r := foldl _ _ l) in *. destruct x as [e|a|]; cbn [ef_max_epoch ef_failed_addresses] in *.
  - split_and!; [lia| | |].
    + intros e' [[= ->]|Hin]%elem_of_cons; [lia|auto].
    + destruct Hmax as [Hr|?]; [|right; by right]. rewrite Hr. destruct (N.max_spec (ef_max_epoch r0) e) as [[_ ->]|[_ ->]];
        [right; by left|by left].
    + intros [? Hno]%Hfail. split; [done|]. intros b [?|?]%elem_of_cons; [done|by eapply Hno].
  - split_and!; [done|..].
    + intros e [?|?]%elem_of_cons; [done|auto].
    + destruct Hmax; [by left|right; by right].
    + intros [Hx _]%Hfail. by apply app_nil in Hx as [_ ?].
  - split_and!; [done|..].
    + intros e [?|?]%elem_of_cons; [done|auto].
    + destruct Hmax; [by left|right; by right].
    + intros [? Hno]%Hfail. split; [done|]. intros b [?|?]%elem_of_cons; [done|by eapply Hno].
Qed.

(** The metadata of a proxy after the recovery has the new epoch. *)
Lemma recovered_epoch e s a p :
  store_wf s → store_wf (recover_epoch e s) → get_proxy_by_address (recover_epoch e s) a migration_limit = Ok (Some p) →
  is_Some (all_proxies s !! a) ∧ proxy_epoch p = N.max e (wadd (global_epoch s) 1).
Proof.
  intros Hwf Hwf' Hp. assert (∃ pr, all_proxies s !! a = Some pr) as [pr Ha].
  { unfold get_proxy_by_address in Hp. cbn [all_proxies recover_epoch set_clusters set_global_epoch] in Hp.
    destruct (all_proxies s !! a); [by eexists|done]. }
  split; [by eexists|].
  destruct (get_proxy_by_address_Ok (recover_epoch e s) a pr migration_limit) as (p' & Hp' & Hok);
    [by apply wf_slots|by apply wf_distinct|done|by apply (wf_keys _ Hwf)|].
  rewrite Hp in Hp'. injection Hp' as <-. destruct Hok as [_ Hok].
  destruct (pr_cluster pr ≫= _) as [cs|] eqn:Hcs; [|by destruct Hok as (_ & -> & _)].
  destruct Hok as (_ & -> & _). destruct (pr_cluster pr) as [n|]; [|done]. cbn [mbind option_bind] in Hcs.
  cbn [clusters recover_epoch set_clusters] in Hcs. rewrite lookup_fmap_Some in Hcs. by destruct Hcs as (cs0 & <- & _).
Qed.

Lemma recover_tells w results w' :
  reachable (w_store w) → recover w results w' → ef_failed_addresses (fetch_max_epoch results) = [] →
  ∃ w1, w_store w1 = w_store w ∧ w_proxies w1 = w_proxies w' ∧
    w_store w' = (exec (RecoverEpoch (wadd (ef_max_epoch (fetch_max_epoch results)) 1)) (w_store w)).1 ∧
    (∀ e, Ok e ∈ results → ∃ a, told_epoch (Ok e) (w_proxies w' !! a)) ∧
    ∀ a, is_Some (all_proxies (w_store w) !! a) →
      ∃ e, told_epoch (Ok e) (w_proxies w' !! a) ∧ (e ≤ ef_max_epoch (fetch_max_epoch results))%N.
Proof.
  intros Hs (w1 & Hjoin & ->) Hfail. set (addrs := get_proxies_with_pagination (w_store w) None None) in *.
  assert (addrs = hash_keys (all_proxies (w_store w))) as Haddrs by done.
  destruct (pool_safe_join atoi_usize crc64 to_rfc3339 mgr_error_debug reply_debug error_text unexpected_reply numkeys_error reports
    migration_limit clear_free_nodes (w_store w) (λ _, told_epoch) addrs (fetch_proxy_epoch <$> addrs) w results w1) as (Hs1 & Hl & Hq & _).
  { rewrite Haddrs. apply NoDup_hash_keys. }
  { split_and!; [done|by rewrite length_fmap|]. intros i a m Ha Hm lv _. rewrite list_lookup_fmap, Ha in Hm. injection Hm as <-.
    apply fetch_task_safe. }
  { exact Hjoin. }
  pose proof (fetch_max_from results (mkEpochFetchResult 0 [])) as (_ & Hmax & _ & Hno). fold (fetch_max_epoch results) in *.
  destruct (Hno Hfail) as [_ Herr]. exists w1. cbn [w_store w_proxies]. rewrite Hs1. split_and!; [done..| |].
  - intros e (i & Hi)%list_elem_of_lookup_1.
    destruct (lookup_lt_is_Some_2 addrs i) as [a Ha]; [rewrite <- Hl; by eapply lookup_lt_Some|]. exists a. exact (Hq i a _ Ha Hi).
  - intros a Ha. rewrite <- elem_of_hash_keys, <- Haddrs in Ha. apply list_elem_of_lookup_1 in Ha as [i Hi].
    destruct (lookup_lt_is_Some_2 results i) as [r Hr]; [rewrite Hl; by eapply lookup_lt_Some|].
    pose proof (Hq i a r Hi Hr) as Ht. apply list_elem_of_lookup_2 in Hr. destruct r as [e|b|]; [|by destruct (Herr b)|done].
    exists e. split; [done|]. by apply Hmax.
Qed.
End recovery.

(** C15. A broker that has lost its latest metadata recovers: after
    [recover_epoch] without failed addresses, the store is a reachable one and
    the metadata that it has for any proxy is newer than what the proxy has,
    so that the proxy takes the SETCLUSTER of the next round of
    synchronisation.  Meanwhile the proxies may do anything that keeps their
    epochs.  Nothing is said of the epoch of the roles, which the recovery does
    not ask for, so that a SETREPL may still be refused
    ([recovery_misses_roles]). *)
Theorem recovery_effective `{UnicodeCase} `{HashOrder} `{MetaCodec} `{Crc16} `{NumberParsers}
    atoi_usize crc64 to_rfc3339 mgr_error_debug reply_debug error_text unexpected_reply numkeys_error reports limit clear_free_nodes
    btoi_u64 w results w' :
  (∀ n, (n ≤ u64_max)%N → btoi_u64 (bytes_of (to_string n)) = Some n) →
  reachable (w_store w) → room 2 (w_store w) →
  recover atoi_usize crc64 to_rfc3339 mgr_error_debug reply_debug error_text unexpected_reply numkeys_error reports limit clear_free_nodes
    btoi_u64 w results w' →
  ef_failed_addresses (fetch_max_epoch results) = [] →
  (∀ a lv, w_proxies w' !! a = Some lv → mgr_epoch (ps_meta (lv_state lv)) + 2 < u64_modulus)%N →
  reachable (w_store w') ∧
  ∀ a p lv, get_proxy_by_address (w_store w') a limit = Ok (Some p) → w_proxies w' !! a = Some lv →
    proxy_ok (lv_config lv) (lv_state lv) → wants (meta_for p) lv.
Proof.
  intros Hbtoi Hs Hroom Hrec Hfail Hsmall.
  destruct (recover_tells atoi_usize crc64 to_rfc3339 mgr_error_debug reply_debug error_text unexpected_reply numkeys_error reports
    limit clear_free_nodes btoi_u64 Hbtoi w results w' Hs Hrec Hfail) as (w1 & Hs1 & Hp1 & Hs' & Hres & Htold).
  set (m := ef_max_epoch (fetch_max_epoch results)) in *.
  assert (m + 2 < u64_modulus)%N as Hm.
  { pose proof (fetch_max_from results (mkEpochFetchResult 0 [])) as (_ & _ & [Hz|Hin] & _).
    { fold (fetch_max_epoch results) in Hz. fold m in Hz. by rewrite Hz. }
    fold (fetch_max_epoch results) in Hin. fold m in Hin.
    destruct (Hres m Hin) as (a & lv & Hlv & He). rewrite <- He by (specialize (Hsmall a lv Hlv); unfold u64_max; lia). by apply (Hsmall a). }
  assert (wadd m 1 = m + 1)%N as Hw by (apply wadd_small; lia).
  assert (reachable (w_store w')) as Hreach.
  { rewrite Hs'. apply reach_exec; [done|done|]. cbn. rewrite Hw. lia. }
  split; [done|]. intros a p lv Hp Hlv Hok. split; [done|]. left. cbn [exec fst] in Hs'. rewrite Hw, wadd_small in Hs' by lia.
  rewrite Hs' in Hp, Hreach. apply recovered_epoch in Hp as [Ha He]; [|by apply reachable_wf|by apply reachable_wf].
  destruct (Htold a Ha) as (e & (lv0 & Hlv0 & Hep) & Hle). rewrite Hlv in Hlv0. injection Hlv0 as <-.
  specialize (Hsmall a lv Hlv). rewrite Hep by (unfold u64_max; lia). change (pcm_epoch (meta_for p)) with (proxy_epoch p). lia.
Qed.

(** ** An example *)

From S2P Require Import MultiKey.

Section demo.
#[local] Existing Instances ascii_case canonical_order binary_codec bitwise_crc16.

(** A broker with one proxy, which is running. *)
Definition one_proxy : MetaStore := Reach.run [proxy_request "a" "70"] (store_new false).
Definition one_world (lv : live) : World := mkWorld one_proxy {[ "a:70" := lv ]}.
Definition demo_btoi (b : bytes) : option N := parse_u64 (String.string_of_list_ascii b).

Abbreviation demo_pool :=
  (pool_step (λ _, None) (λ _, 0%N) (λ _ _, None) (λ _, "") (λ _, "") (λ _, "") (λ _ _, "") (λ _, "") demo_reports 1 false quiet).

(** The two calls for the proxy. *)
Lemma demo_fetch lv : mgr_epoch (ps_meta (lv_state lv)) = 0%N →
  rtc demo_pool ([fetch_proxy_epoch demo_btoi "a:70"], one_world lv) ([CRet (Ok 0%N)], one_world lv).
Proof.
  intros He. assert (w_proxies (one_world lv) !! "a:70" = Some lv) as Hlv by apply lookup_singleton_eq.
  set (t2 := call (ExecuteSingle "a:70" GETEPOCH) ≫= λ resp : outcome () RespVec,
    CRet match resp with Ok resp => parse_epoch_reply demo_btoi "a:70" resp | _ => Err "a:70" end).
  apply (rtc_l _ _ ([t2], one_world lv)).
  - apply (pool_call _ _ _ _ _ _ _ _ _ _ _ _ [fetch_proxy_epoch demo_btoi "a:70"] (one_world lv) 0 _ (CreateClient "a:70")
      (λ client, match client with Ok _ => t2 | _ => CRet (Err "a:70") end) (Ok ()) (one_world lv)); [reflexivity|].
    split; [reflexivity|]. right. split; [reflexivity|]. by rewrite Hlv.
  - apply (rtc_l _ _ ([CRet (parse_epoch_reply demo_btoi "a:70" (integer "0"))], one_world lv)).
    + apply (pool_call _ _ _ _ _ _ _ _ _ _ _ _ [t2] (one_world lv) 0 _ (ExecuteSingle "a:70" GETEPOCH)
        (λ resp, CRet match resp with Ok resp => parse_epoch_reply demo_btoi "a:70" resp | _ => Err "a:70" end) (Ok (integer "0")) (one_world lv));
        [reflexivity|].
      cbn [serve]. rewrite Hlv, deliver_getepoch, He. left. split; [reflexivity|]. unfold one_world. cbn. by rewrite insert_singleton_eq.
    + assert (parse_epoch_reply demo_btoi "a:70" (integer "0") = Ok 0%N) as -> by (vm_compute; reflexivity). reflexivity.
Qed.

Lemma demo_recover lv : mgr_epoch (ps_meta (lv_state lv)) = 0%N → ∃ w',
  recover (λ _, None) (λ _, 0%N) (λ _ _, None) (λ _, "") (λ _, "") (λ _, "") (λ _ _, "") (λ _, "") demo_reports 1 false
    demo_btoi (one_world lv) [Ok 0%N] w' ∧ w_proxies w' = w_proxies (one_world lv) ∧ w_store w' = (exec (RecoverEpoch 1) one_proxy).1.
Proof.
  intros He. eexists. split_and!; [exists (one_world lv); split; [|reflexivity]|reflexivity|reflexivity].
  assert (get_proxies_with_pagination (w_store (one_world lv)) None None = ["a:70"]) as -> by (vm_compute; reflexivity).
  by apply demo_fetch.
Qed.

Lemma recovery_effective_witness : ∃ w',
  reachable (w_store w') ∧ ∀ p, get_proxy_by_address (w_store w') "a:70" 1 = Ok (Some p) → wants (meta_for p) (demo_live "a:70" "a").
Proof.
  destruct (demo_recover (demo_live "a:70" "a") eq_refl) as (w' & Hrec & Hw & _).
  destruct (recovery_effective (λ _, None) (λ _, 0%N) (λ _ _, None) (λ _, "") (λ _, "") (λ _, "") (λ _ _, "") (λ _, "")
    demo_reports 1 false demo_btoi (one_world (demo_live "a:70" "a")) [Ok 0%N] w') as [Hs Hwants].
  - intros n Hn. unfold demo_btoi, bytes_of. rewrite String.string_of_list_ascii_of_string. by apply parse_u64_to_string.
  - apply run_reachable; [constructor|vm_compute; reflexivity].
  - vm_compute. reflexivity.
  - exact Hrec.
  - reflexivity.
  - rewrite Hw. cbn [w_proxies one_world]. intros a lv [_ <-]%lookup_singleton_Some. vm_compute. reflexivity.
  - exists w'. split; [exact Hs|]. intros p Hp. apply (Hwants "a:70" p); [exact Hp|by rewrite Hw|apply demo_live_ok].
Defined.

Abbreviation demo_deliver :=
  (deliver (λ _, None) (λ _, 0%N) (λ _ _, None) (λ _, "") (λ _, "") (λ _, "") (λ _ _, "") (λ _, "") demo_reports).

(** The proxy with the roles, but not the slots, of epoch 9. *)
Definition told_roles : live := (demo_deliver (demo_live "a:70" "a") (meta_command "SETREPL" ["9"; "NOFLAG"])).1.

(** The recovery asks for the epoch of the slots only, while the coordinator
    sends the roles first: a proxy that had got the roles of a lost epoch, but
    not its slots, refuses the roles of the recovered broker, and the
    coordinator takes the refusal for a success. *)
Theorem recovery_misses_roles : ∃ w results w' p lv lv' resp,
  recover (λ _, None) (λ _, 0%N) (λ _ _, None) (λ _, "") (λ _, "") (λ _, "") (λ _ _, "") (λ _, "") demo_reports 1 false
    demo_btoi w results w' ∧ ef_failed_addresses (fetch_max_epoch results) = [] ∧
  get_proxy_by_address (w_store w') "a:70" 1 = Ok (Some p) ∧ w_proxies w' !! "a:70" = Some lv ∧
  demo_deliver lv (meta_command "SETREPL" (generate_repl_meta_cmd_args p (mkFlags false false))) = (lv', resp) ∧
  send_meta_reply resp = Ok () ∧ rm_replicators (ps_repl (lv_state lv')) = rm_replicators (ps_repl (lv_state lv)) ∧ (proxy_epoch p < rm_epoch (ps_repl (lv_state lv)))%N.
Proof.
  destruct (demo_recover told_roles) as (w' & Hrec & Hp & Hs); [vm_compute; reflexivity|].
  eexists (one_world told_roles), _, w', _, told_roles, _, _. split_and!; [exact Hrec|reflexivity|..].
  - rewrite Hs. vm_compute. reflexivity.
  - rewrite Hp. apply lookup_singleton_eq.
  - apply surjective_pairing.
  - vm_compute. reflexivity.
  - vm_compute. reflexivity.
  - vm_compute. reflexivity.
Qed.
End demo.
