(* ===== verification/Http.v ===== *)
(** * The HTTP clients of the coordinator

    [coordinator/http_meta_broker.rs] and [http_mani_broker.rs]: the calls of
    the coordinator as requests to one of the brokers, in turn, with the lists
    read page by page.  Together with the routes and the handlers of the broker
    they implement the calls that the tasks of the coordinator make. *)

From S2P Require Import Prelude RangeList RustStr Resp Packet Command ClusterMeta Wire MetaMap Keys.
From S2P Require Import Store SlotInv Query Migrate Plan Balance Commit ChunkAlloc Update Registry.
From S2P Require Import NewChunks Failover Broker Reach Lifecycle Sync Route Control Batch Backend Session Slowlog.
From S2P Require Import Replicate DataCmd Executor Coordinator Detect Resource Api Service.

Inductive HttpBrokerError : Type := RequestFailed | InvalidPayload | NoBroker | RetryLater.

(** Both clients have the addresses and the index of the next request. *)
Record HttpBroker : Type := mkHttpBroker { hb_addresses : list string; hb_index : N }.

Definition PAGE_SIZE : nat := 100.

(** The broker and the path of a request; the remainder by zero panics. *)
Definition gen_url (path : string) (b : HttpBroker) : HttpBroker * outcome HttpBrokerError (string * string) :=
  let num := length (hb_addresses b) in
  let next := mkHttpBroker (hb_addresses b) (wadd (hb_index b) 1) in
  (next, if bool_decide (num = 0) then Panic
         else broker ← ok_or (hb_addresses b !! N.to_nat (hb_index b `mod` N.of_nat num)) NoBroker;
              Ok (broker, "/api/" +:+ MEM_BROKER_API_VERSION +:+ path)).

(** What [response.json()] accepts: an optional field may be missing in an
    object. *)
Definition is_object (b : Body) : bool :=
  match b with Text _ | Empty | NodesBody _ | EpochBody _ => false | _ => true end.
Definition json_names (b : Body) : option (list ClusterName) := match b with ClusterNamesPayload l => Some l | _ => None end.
Definition json_addresses (b : Body) : option (list string) := match b with AddressesPayload l => Some l | _ => None end.
Definition json_cluster (b : Body) : option (option Cluster) :=
  match b with ClusterPayload o => Some o | _ => if is_object b then Some None else None end.
Definition json_proxy (b : Body) : option (option Proxy) :=
  match b with ProxyPayload o => Some o | _ => if is_object b then Some None else None end.

Definition is_success (status : N) : bool := (200 <=? status)%N && (status <? 300)%N.

Section client.
(** The network and the brokers: a request changes their state and may get a
    response. *)
Context {W : Type} (send : string → HttpRequest → W → W * option Response).

Definition HttpM (A : Type) : Type := HttpBroker * W → (HttpBroker * W) * outcome HttpBrokerError A.

Definition request {A} (method : Method) (path : string) (payload : Payload) (decode : Response → outcome HttpBrokerError A) : HttpM A :=
  λ '(b, w),
  match gen_url path b with
  | (b, Ok (broker, url)) =>
      let '(w, response) := send broker (mkHttpRequest method url payload) w in
      (b, w, match response with Some r => decode r | None => Err RequestFailed end)
  | (b, Err e) => (b, w, Err e)
  | (b, Panic) => (b, w, Panic)
  end.

Definition from_json {A} (json : Body → option A) (r : Response) : outcome HttpBrokerError A := ok_or (json (rs_body r)) InvalidPayload.

Definition get_cluster_names_impl (offset limit : nat) : HttpM (list ClusterName) :=
  request GET "/clusters/names" (PagePayload (Some offset) (Some limit)) (from_json json_names).
Definition get_cluster_impl (name : ClusterName) : HttpM (option Cluster) :=
  request GET ("/clusters/meta/" +:+ name) NoPayload (from_json json_cluster).
Definition get_proxy_addresses_impl (offset limit : nat) : HttpM (list string) :=
  request GET "/proxies/addresses" (PagePayload (Some offset) (Some limit)) (from_json json_addresses).
Definition get_proxy_impl (address : string) : HttpM (option Proxy) :=
  request GET ("/proxies/meta/" +:+ address) NoPayload (from_json json_proxy).
Definition add_failure_impl (address reporter_id : string) : HttpM () :=
  request POST ("/failures/" +:+ address +:+ "/" +:+ reporter_id) NoPayload
    (λ r, if is_success (rs_status r) then Ok () else Err InvalidPayload).
Definition get_failures_impl : HttpM (list string) := request GET "/failures" NoPayload (from_json json_addresses).
Definition get_failed_proxies_impl : HttpM (list string) :=
  request GET "/proxies/failed/addresses" NoPayload (from_json json_addresses).

Definition replace_proxy_impl (failed_proxy_address : string) : HttpM (option Proxy) :=
  request POST ("/proxies/failover/" +:+ failed_proxy_address) NoPayload (λ r,
    if is_success (rs_status r) then from_json json_proxy r
    else if (rs_status r =? 409)%N then Err RetryLater else Err InvalidPayload).

Definition commit_migration_impl (meta : MigrationTaskMeta) : HttpM () :=
  request PUT "/clusters/migrations" (TaskPayload meta) (λ r,
    if is_success (rs_status r) || (rs_status r =? 404)%N then Ok ()
    else if (rs_status r =? 409)%N then Err RetryLater else Err InvalidPayload).

(** The stream of a listing: page after page up to the first one that is empty
    or failed; [None] when the fuel does not suffice. *)
Fixpoint pages {A} (fuel page : nat) (get : nat → nat → HttpM (list A)) (st : HttpBroker * W) :
    (HttpBroker * W) * option (list (outcome HttpBrokerError A)) :=
  match fuel with
  | 0 => (st, None)
  | S fuel =>
      match get (page * PAGE_SIZE) PAGE_SIZE st with
      | (st, Ok []) | (st, Err _) => (st, Some [])
      | (st, Ok l) => let '(st, rest) := pages fuel (S page) get st in (st, rest' ← rest; Some ((Ok <$> l) ++ rest'))
      | (st, Panic) => (st, Some [Panic])
      end
  end.

Definition get_cluster_names (fuel : nat) : HttpBroker * W → (HttpBroker * W) * option (list (outcome HttpBrokerError ClusterName)) :=
  pages fuel 0 get_cluster_names_impl.
Definition get_proxy_addresses (fuel : nat) : HttpBroker * W → (HttpBroker * W) * option (list (outcome HttpBrokerError string)) :=
  pages fuel 0 get_proxy_addresses_impl.

(** [vec_result_to_stream]. *)
Definition vec_result_to_stream {A} (r : outcome HttpBrokerError (list A)) : list (outcome HttpBrokerError A) :=
  match r with Ok v => Ok <$> v | Err e => [Err e] | Panic => [Panic] end.
End client.

(** ** The calls of the coordinator *)

(** The coordinator does not look at the kind of an error. *)
Definition plain {A} (r : outcome HttpBrokerError A) : outcome () A :=
  match r with Ok a => Ok a | Err _ => Err () | Panic => Panic end.

Lemma plain_Ok {A} (l : list A) : map plain (Ok <$> l) = Ok <$> l.
Proof. induction l as [|x l IH]; cbn; [done|by f_equal]. Qed.

Section ask.
Context {W : Type} (send : string → HttpRequest → W → W * option Response) (fuel : nat).

Definition listed_with {A} (r : (HttpBroker * W) * option (list (outcome HttpBrokerError A))) : (HttpBroker * W) * option (list (outcome () A)) :=
  (r.1, option_map (map plain) r.2).
Definition answered_with {A B} (f : outcome HttpBrokerError A → B) (r : (HttpBroker * W) * outcome HttpBrokerError A) :
    (HttpBroker * W) * option B := (r.1, Some (f r.2)).

(** The calls to the brokers; those to the proxies are none of them. *)
Definition ask {X} (q : query X) (st : HttpBroker * W) : (HttpBroker * W) * option X :=
  match q in query X return (HttpBroker * W) * option X with
  | GetClusterNames => listed_with (get_cluster_names send fuel st)
  | GetCluster name => answered_with plain (get_cluster_impl send name st)
  | GetProxyAddresses => listed_with (get_proxy_addresses send fuel st)
  | GetProxy address => answered_with plain (get_proxy_impl send address st)
  | ReportFailure address reporter_id => answered_with plain (add_failure_impl send address reporter_id st)
  | GetFailedReports => answered_with (map plain ∘ vec_result_to_stream) (get_failures_impl send st)
  | GetFailedProxies => answered_with (map plain ∘ vec_result_to_stream) (get_failed_proxies_impl send st)
  | ReplaceProxy address => answered_with plain (replace_proxy_impl send address st)
  | CommitTask meta => answered_with plain (commit_migration_impl send meta st)
  | CreateClient _ | ExecuteSingle _ _ => (st, None)
  end.
End ask.

(** ** Requests to a list of brokers *)

Section requests.
Context {W : Type} (send : string → HttpRequest → W → W * option Response).

Lemma request_sent {A} method path payload (decode : Response → outcome HttpBrokerError A) b w :
  hb_addresses b ≠ [] → ∃ broker, broker ∈ hb_addresses b ∧
    request send method path payload decode (b, w) =
    let '(w', response) := send broker (mkHttpRequest method ("/api/" +:+ MEM_BROKER_API_VERSION +:+ path) payload) w in
    (mkHttpBroker (hb_addresses b) (wadd (hb_index b) 1), w', match response with Some r => decode r | None => Err RequestFailed end).
Proof.
  intros Hne. unfold request, gen_url.
  assert (length (hb_addresses b) ≠ 0) as Hlen by by destruct (hb_addresses b).
  rewrite bool_decide_eq_false_2 by done.
  destruct (lookup_lt_is_Some_2 (hb_addresses b) (N.to_nat (hb_index b `mod` N.of_nat (length (hb_addresses b))))) as [broker Hb].
  { pose proof (N.mod_lt (hb_index b) (N.of_nat (length (hb_addresses b)))). lia. }
  exists broker. split; [by eapply list_elem_of_lookup_2|]. by rewrite Hb.
Qed.

(** A list that is read page by page, while it does not change: a page that
    fails ends it. *)
Lemma pages_lists {A} (get : nat → nat → HttpM (W := W) (list A)) (l : list A) (I : HttpBroker * W → Prop) (good : Prop) :
  (∀ offset limit st, I st → ∃ st' x, I st' ∧ get offset limit st = (st', x) ∧
    (x = Ok (take limit (drop offset l)) ∨ ¬ good ∧ ∃ e, x = Err e)) →
  ∀ fuel page st, I st → 0 < fuel → length l ≤ (page + fuel - 1) * PAGE_SIZE →
  ∃ st' n, I st' ∧ pages fuel page get st = (st', Some (Ok <$> take n (drop (page * PAGE_SIZE) l))) ∧
    (good → length l ≤ page * PAGE_SIZE + n).
Proof.
  intros Hget. induction fuel as [|fuel IH]; intros page st Hst Hfuel Hlen; [lia|]. cbn [pages].
  destruct (Hget (page * PAGE_SIZE) PAGE_SIZE st Hst) as (st1 & x & Hst1 & -> & [-> | [Hbad [e ->]]]); [|by exists st1, 0].
  destruct (take PAGE_SIZE (drop (page * PAGE_SIZE) l)) as [|x chunk] eqn:Hchunk; apply (f_equal length) in Hchunk as Hcl;
    rewrite length_take, length_drop in Hcl; cbn [length] in Hcl.
  - exists st1, 0. split_and!; [done..|]. intros _. unfold PAGE_SIZE in *. lia.
  - destruct (IH (S page) st1 Hst1) as (st2 & n & Hst2 & -> & Hall); [unfold PAGE_SIZE in *; lia|unfold PAGE_SIZE in *; lia|].
    exists st2, (PAGE_SIZE + n). split; [done|]. split; [|intros Hgood%Hall; lia].
    cbn [mbind option_bind]. do 2 f_equal. rewrite <- Hchunk, <- fmap_app. f_equal.
    replace (S page * PAGE_SIZE) with (page * PAGE_SIZE + PAGE_SIZE) by lia.
    by rewrite <- drop_drop, take_take_drop.
Qed.

(** Whatever the brokers answer, a listing has no errors: a page that fails
    ends the list. *)
Lemma pages_no_error {A} (get : nat → nat → HttpM (W := W) (list A)) fuel : ∀ page st st' l,
  pages fuel page get st = (st', Some l) → ∀ e, Err e ∉ l.
Proof.
  induction fuel as [|fuel IH]; intros page st st' l; cbn [pages]; [done|].
  destruct (get _ _ st) as [st1 [[|x chunk]|e|]].
  - intros [= _ <-] e ?%not_elem_of_nil. done.
  - destruct (pages fuel (S page) get st1) as [st2 [rest|]] eqn:Hrest; [|done]. intros [= _ <-] e.
    change (Err e ∉ (Ok <$> x :: chunk) ++ rest). intros [Hin|Hin]%elem_of_app; [by apply list_elem_of_fmap in Hin as (? & ? & _)|].
    by eapply IH.
  - intros [= _ <-] e' ?%not_elem_of_nil. done.
  - intros [= _ <-] e [?|?%not_elem_of_nil]%elem_of_cons; done.
Qed.
End requests.

(** ** The brokers behind the requests *)

Definition segment_ok (s : string) : Prop := s ≠ "" ∧ no_char "/" s.

(** Paths of segments. *)
Fixpoint path_of (segs : list string) : string :=
  match segs with [] => "" | [s] => "/" +:+ s | s :: segs => "/" +:+ s +:+ path_of segs end.

Lemma split_path s segs : Forall (no_char "/") (s :: segs) → split "/" (path_of (s :: segs)) = "" :: s :: segs.
Proof.
  revert s. induction segs as [|s' segs IH]; intros s [Hs Hsegs]%Forall_cons.
  - change (path_of [s]) with ("" +:+ String "/" s). rewrite split_app by done. by rewrite split_no_char.
  - change (path_of (s :: s' :: segs)) with ("" +:+ String "/" (s +:+ path_of (s' :: segs))). rewrite split_app by done. f_equal.
    assert (∃ rest, path_of (s' :: segs) = String "/" rest ∧ split "/" rest = s' :: segs) as (rest & -> & Hrest).
    { specialize (IH s' Hsegs). destruct segs as [|s'' segs]; (eexists; split; [reflexivity|]); cbn in IH; by injection IH. }
    by rewrite split_app, Hrest.
Qed.

Lemma route_path method segs p :
  Forall (no_char "/") segs → route (mkHttpRequest method (path_of ("api" :: MEM_BROKER_API_VERSION :: segs)) p) = first_route routes method segs p.
Proof.
  intros Hsegs. unfold route. cbn [rq_path rq_method rq_payload]. rewrite split_path; [|repeat constructor; [done..|done]].
  by rewrite bool_decide_eq_true_2.
Qed.

(** A path with the segments [segs], up to evaluation. *)
Ltac route_to segs :=
  lazymatch goal with
  | |- route (mkHttpRequest ?m _ ?p) = ?r =>
      change (route (mkHttpRequest m (path_of ("api" :: MEM_BROKER_API_VERSION :: segs)) p) = r);
      rewrite route_path by (repeat constructor; done)
  end.

Section routed.
Context (a b : string) (Ha : segment_ok a) (Hb : segment_ok b).

Lemma route_cluster : route (mkHttpRequest GET ("/api/" +:+ MEM_BROKER_API_VERSION +:+ "/clusters/meta/" +:+ a) NoPayload) = Some (GetClusterMeta a).
Proof.
  destruct Ha as [Hne Hno]. route_to ["clusters"; "meta"; a]. destruct a; [done|]. vm_compute. reflexivity.
Qed.
Lemma route_proxy : route (mkHttpRequest GET ("/api/" +:+ MEM_BROKER_API_VERSION +:+ "/proxies/meta/" +:+ a) NoPayload) = Some (GetProxyMeta a).
Proof.
  destruct Ha as [Hne Hno]. route_to ["proxies"; "meta"; a]. destruct a; [done|]. vm_compute. reflexivity.
Qed.
Lemma route_failover : route (mkHttpRequest POST ("/api/" +:+ MEM_BROKER_API_VERSION +:+ "/proxies/failover/" +:+ a) NoPayload) = Some (PostFailover a).
Proof.
  destruct Ha as [Hne Hno]. route_to ["proxies"; "failover"; a]. destruct a; [done|]. vm_compute. reflexivity.
Qed.
Lemma route_failure :
  route (mkHttpRequest POST ("/api/" +:+ MEM_BROKER_API_VERSION +:+ "/failures/" +:+ a +:+ "/" +:+ b) NoPayload) = Some (PostFailure a b).
Proof.
  destruct Ha as [Hne Hno], Hb as [Hne' Hno']. route_to ["failures"; a; b]. destruct a, b; [done..|]. vm_compute. reflexivity.
Qed.
End routed.

(** ** Brokers behind a network that loses requests and replies *)

Inductive Fate : Type := Delivered | RequestLost | ReplyLost.

Section served.
Context `{UnicodeCase} (undermoon_version : string) (config : MemBrokerConfig) (envs : string → Env).

(** The result of a handler after the update of the file. *)
Definition updated (env : Env) (e : Endpoint) (r : res Body) : res Body :=
  if triggers_update e r && bc_auto_update_meta_file config
  then with_update e r match en_written env with Ok _ => Ok () | Err err => Err (SyncError err) | Panic => Panic end
  else r.

(** A broker on the store [s]. *)
Definition broker_server (broker : string) (rq : HttpRequest) (s : MetaStore) : MetaStore * option Response :=
  match route rq with
  | None => (s, Some (mkResponse 404 Empty))
  | Some e =>
      match storage_call undermoon_version config (envs broker) e with
      | Some m => let '(s', r) := m s in (s', warp_json (updated (envs broker) e r))
      | None => (s, None)
      end
  end.

(** The fates of the next requests; the later ones are delivered. *)
Definition over_network (broker : string) (rq : HttpRequest) (w : MetaStore * list Fate) : (MetaStore * list Fate) * option Response :=
  let '(s', response) := broker_server broker rq w.1 in
  match head w.2 with
  | Some RequestLost => ((w.1, tail w.2), None)
  | Some ReplyLost => ((s', tail w.2), None)
  | Some Delivered | None => ((s', tail w.2), response)
  end.

Context (addresses : list string) (Haddresses : addresses ≠ []).

(** One request: it is lost before or after it is served, or answered. *)
Lemma request_served {A} method path payload (decode : Response → outcome HttpBrokerError A) e index s fates :
  route (mkHttpRequest method ("/api/" +:+ MEM_BROKER_API_VERSION +:+ path) payload) = Some e →
  (∀ env, is_Some (storage_call undermoon_version config env e)) →
  ∃ broker m s' x, broker ∈ addresses ∧ storage_call undermoon_version config (envs broker) e = Some m ∧
    request over_network method path payload decode (mkHttpBroker addresses index, (s, fates)) =
      (mkHttpBroker addresses (wadd index 1), (s', tail fates), x) ∧
    (x = Err RequestFailed ∧ s' = s ∧ fates ≠ [] ∨ x = Err RequestFailed ∧ s' = (m s).1 ∧ fates ≠ [] ∨
     s' = (m s).1 ∧ x = match warp_json (updated (envs broker) e (m s).2) with Some r => decode r | None => Err RequestFailed end).
Proof.
  intros Hroute Hcall. destruct (request_sent over_network method path payload decode (mkHttpBroker addresses index) (s, fates) Haddresses)
    as (broker & Hin & ->). cbn [hb_addresses hb_index]. unfold over_network, broker_server. rewrite Hroute.
  destruct (Hcall (envs broker)) as [m Hm]. rewrite Hm. cbn [fst snd]. destruct (m s) as [s1 r] eqn:Hr.
  exists broker, m. rewrite Hr. cbn [fst snd]. destruct fates as [|[] fates]; cbn [head tail]; eexists _, _; (split_and!; [done..|]); naive_solver.
Qed.

(** A handler that reads. *)
Lemma read_served {A} method path payload (decode : Response → outcome HttpBrokerError A) e index s fates body v :
  route (mkHttpRequest method ("/api/" +:+ MEM_BROKER_API_VERSION +:+ path) payload) = Some e →
  (∀ env, is_Some (storage_call undermoon_version config env e)) →
  (∀ a m, a ∈ addresses → storage_call undermoon_version config (envs a) e = Some m → m s = (s, Ok body)) →
  triggers_update e (Ok body) = false → decode (mkResponse 200 body) = Ok v →
  ∃ x, request over_network method path payload decode (mkHttpBroker addresses index, (s, fates)) =
      (mkHttpBroker addresses (wadd index 1), (s, tail fates), x) ∧ (x = Ok v ∨ fates ≠ [] ∧ x = Err RequestFailed).
Proof.
  intros Hroute Hcall Hread Htr Hdec.
  destruct (request_served method path payload decode e index s fates Hroute Hcall) as (a & m & s' & x & Ha & Hm & -> & Hx).
  specialize (Hread a m Ha Hm). rewrite Hread in Hx. cbn [fst snd] in Hx. unfold updated in Hx. rewrite Htr in Hx. cbn in Hx.
  exists x. rewrite Hdec in Hx. by destruct Hx as [(-> & -> & ?)|[(-> & -> & ?)|(-> & ->)]]; eauto.
Qed.

Context (order : HashOrder) (Horder : ∀ a, a ∈ addresses → en_order (envs a) = order).

(** The client between two requests. *)
Definition asking (s : MetaStore) (st : HttpBroker * (MetaStore * list Fate)) : Prop := hb_addresses st.1 = addresses ∧ st.2.1 = s.

Lemma pages_served {A} path (json : Body → option (list A)) (body : list A → Body) endpoint (l : list A) fuel index s fates :
  (∀ o n, route (mkHttpRequest GET ("/api/" +:+ MEM_BROKER_API_VERSION +:+ path) (PagePayload (Some o) (Some n))) = Some (endpoint o n)) →
  (∀ env o n, is_Some (storage_call undermoon_version config env (endpoint o n))) →
  (∀ a m o n, a ∈ addresses → storage_call undermoon_version config (envs a) (endpoint o n) = Some m →
     m s = (s, Ok (body (take n (drop o l))))) →
  (∀ o n b, triggers_update (endpoint o n) (Ok b) = false) → (∀ l, json (body l) = Some l) →
  0 < fuel → length l ≤ (fuel - 1) * PAGE_SIZE →
  ∃ st n, asking s st ∧
    pages fuel 0 (λ o n, request over_network GET path (PagePayload (Some o) (Some n)) (from_json json)) (mkHttpBroker addresses index, (s, fates)) =
      (st, Some (Ok <$> take n l)) ∧ (fates = [] → length l ≤ n).
Proof.
  intros Hroute Hcall Hread Htr Hjson Hf Hlen.
  destruct (pages_lists (λ o n, request over_network GET path (PagePayload (Some o) (Some n)) (from_json json)) l
    (λ st, asking s st ∧ (fates = [] → st.2.2 = [])) (fates = [])) with (fuel := fuel) (page := 0) (st := (mkHttpBroker addresses index, (s, fates)))
    as (st' & n & [Hst _] & -> & Hn); [|done|done|done|by exists st', n].
  intros o n [[as1 i] [s1 fs]] [[Has Hs] Hfs]. cbn in Has, Hs, Hfs. subst as1 s1.
  destruct (read_served GET path (PagePayload (Some o) (Some n)) (from_json json) (endpoint o n) i s fs (body (take n (drop o l)))
    (take n (drop o l))) as (x & Hx & Hor); [done|done|by eauto|done|by unfold from_json; cbn; rewrite Hjson|].
  eexists _, x. split; [|split; [exact Hx|]]; [split; [done|]; intros ->%Hfs; done|]. naive_solver.
Qed.

(** A handler that changes the store; [recover] gives the errors that the
    client takes for a success. *)
Lemma updated_Ok env e b :
  updated env e (Ok b) = Ok b ∨ (∃ err, updated env e (Ok b) = Err (SyncError err)) ∨ updated env e (Ok b) = Panic.
Proof. unfold updated. destruct (triggers_update e (Ok b) && _), (en_written env), e; cbn; eauto. Qed.

Lemma change_served {A} method path payload (decode : Response → outcome HttpBrokerError A) e (f : A → Body)
    (m : Env → SM A) (recover : MetaStoreError → option A) index s fates proxies :
  route (mkHttpRequest method ("/api/" +:+ MEM_BROKER_API_VERSION +:+ path) payload) = Some e →
  (∀ env, storage_call undermoon_version config env e = Some (body_of f (m env))) →
  (∀ env err, updated env e (Err err) = Err err) → (∀ v, decode (mkResponse 200 (f v)) = Ok v) →
  (∀ err, plain (decode (mkResponse (status_code err) (ErrorBody err))) = ok_or (recover err) ()) → (∀ err, recover (SyncError err) = None) →
  ∃ a s' x, a ∈ addresses ∧ request over_network method path payload decode (mkHttpBroker addresses index, (s, fates)) =
      (mkHttpBroker addresses (wadd index 1), (s', tail fates), x) ∧
    changes (λ s, let '(s', r) := m (envs a) s in
      (s', match r with Err e => match recover e with Some v => Ok v | None => Err e end | _ => r end))
      (mkWorld s proxies) (plain x) (mkWorld s' proxies).
Proof.
  intros Hroute Hcall Herr Hok Hdec Hsync.
  destruct (request_served method path payload decode e index s fates Hroute) as (a & m' & s' & x & Ha & Hm & -> & Hx); [by eauto|].
  exists a, s', x. split_and!; [done..|]. rewrite Hcall in Hm. injection Hm as <-. unfold changes. cbn [w_store w_proxies].
  unfold body_of, mbind, SM_bind in Hx. destruct (m (envs a) s) as [s1 r]. destruct r as [v|err|]; cbn [fst snd mret SM_ret] in Hx.
  - destruct Hx as [(-> & -> & _)|[(-> & -> & _)|(-> & ->)]]; [by left; auto..|].
    destruct (updated_Ok (envs a) e (f v)) as [-> | [[err ->] | ->]]; cbn [warp_json].
    + rewrite Hok. right. eauto.
    + left. rewrite Hdec, Hsync. auto.
    + by left; auto.
  - rewrite Herr in Hx. cbn [warp_json] in Hx.
    destruct Hx as [(-> & -> & _)|[(-> & -> & _)|(-> & ->)]]; [by left; auto..|]. rewrite Hdec.
    destruct (recover err) as [v|]; [right; eauto|left; auto].
  - destruct Hx as [(-> & -> & _)|[(-> & -> & _)|(-> & ->)]]; [by left; auto..|]. left. split; [|auto].
    unfold updated. by destruct e; cbn; destruct (bc_auto_update_meta_file config); try done; destruct (en_written (envs a)).
Qed.
End served.

(** ** What the tasks of the coordinator rely on *)

(** The calls to the brokers, with the names that the coordinator has read from
    them. *)
Definition broker_query {X} (q : query X) : Prop :=
  match q with
  | CreateClient _ | ExecuteSingle _ _ => False
  | GetCluster name => segment_ok name
  | GetProxy address | ReplaceProxy address => segment_ok address
  | ReportFailure address reporter_id => segment_ok address ∧ segment_ok reporter_id
  | _ => True
  end.
Definition plain_read {X} (q : query X) : bool :=
  match q with GetClusterNames | GetCluster _ | GetProxyAddresses | GetProxy _ | GetFailedProxies => true | _ => false end.

Section refines.
Context `{UnicodeCase} `{HashOrder} `{MetaCodec} `{Crc16} `{NumberParsers}.
Context (atoi_usize : bytes → option N) (crc64 : bytes → N) (to_rfc3339 : Z → Z → option bytes).
Context (mgr_error_debug : MigrationError → string) (reply_debug : RespVec → string).
Context (error_text : CommandError → string) (unexpected_reply : string → RespVec → string) (numkeys_error : bytes → string).
Context (reports : Reports).
Context (undermoon_version : string) (config : MemBrokerConfig) (envs : string → Env) (addresses : list string).
Context (Haddresses : addresses ≠ []) (Horder : ∀ a, a ∈ addresses → en_order (envs a) = H0).
Context (fuel : nat) (index : N) (s : MetaStore) (fates : list Fate) (proxies : gmap string live).
Context (Hwf : store_wf s) (Hfuel : 0 < fuel) (Hnames : length (Query.get_cluster_names s) ≤ (fuel - 1) * PAGE_SIZE)
  (Hproxies : length (get_proxies s) ≤ (fuel - 1) * PAGE_SIZE).

Abbreviation served_by := (serve atoi_usize crc64 to_rfc3339 mgr_error_debug reply_debug error_text unexpected_reply numkeys_error
  reports (bc_migration_limit config) false).

Definition answer_refined {X} (q : query X) : Prop :=
  ∃ client s' fates' x,
    ask (over_network undermoon_version config envs) fuel q (mkHttpBroker addresses index, (s, fates)) = (client, (s', fates'), Some x) ∧
    hb_addresses client = addresses ∧ served_by q (mkWorld s proxies) x (mkWorld s' proxies) ∧
    (fates = [] → plain_read q = true → x = broker_answers s (bc_migration_limit config) X [] q).

Lemma reads_refined (q : query (list (outcome () string))) : q = GetClusterNames ∨ q = GetProxyAddresses → answer_refined q.
Proof.
  assert (∀ (l : list string) n, length l ≤ n → (Ok (E := ()) <$> take n l) = Ok <$> l) as Hall by (intros; by rewrite take_ge).
  intros [-> | ->]; unfold answer_refined; cbn [ask].
  - destruct (pages_served undermoon_version config envs addresses Haddresses "/clusters/names" json_names ClusterNamesPayload
      (λ o n, GetNames (Some o) (Some n)) (Query.get_cluster_names s) fuel index s fates) as (st & n & [Hst1 Hst2] & Hpages & Hn); try done.
    { intros a m o n Ha [= <-]. by rewrite (Horder a Ha). }
    unfold get_cluster_names, get_cluster_names_impl. rewrite Hpages. destruct st as [client [s' fs]]. cbn in Hst1, Hst2. subst s'.
    eexists client, s, fs, _. split; [done|]. split; [done|]. split; [split; [done|by exists n; rewrite plain_Ok]|].
    intros Hf _. rewrite plain_Ok. apply Hall. auto.
  - destruct (pages_served undermoon_version config envs addresses Haddresses "/proxies/addresses" json_addresses AddressesPayload
      (λ o n, GetAddresses (Some o) (Some n)) (get_proxies s) fuel index s fates) as (st & n & [Hst1 Hst2] & Hpages & Hn); try done.
    { intros a m o n Ha [= <-]. by rewrite (Horder a Ha). }
    unfold get_proxy_addresses, get_proxy_addresses_impl. rewrite Hpages. destruct st as [client [s' fs]]. cbn in Hst1, Hst2. subst s'.
    eexists client, s, fs, _. split; [done|]. split; [done|]. split; [split; [done|by exists n; rewrite plain_Ok]|].
    intros Hf _. rewrite plain_Ok. apply Hall. auto.
Qed.

(** The reads with one answer. *)
Lemma get_proxy_Ok address : ∃ o, get_proxy_by_address s address (bc_migration_limit config) = Ok o.
Proof.
  destruct (all_proxies s !! address) as [pr|] eqn:Hpr; [|unfold get_proxy_by_address; rewrite Hpr; eauto].
  destruct (get_proxy_by_address_Ok s address pr (bc_migration_limit config) (wf_slots _ Hwf) (wf_distinct _ Hwf) Hpr) as (p & -> & _);
    [by apply (wf_keys s Hwf)|eauto].
Qed.
Lemma get_cluster_Ok name : ∃ o, get_cluster_by_name s name (bc_migration_limit config) = Ok o.
Proof.
  destruct (cluster_name_try_from name) as [n|] eqn:Hn; [|unfold get_cluster_by_name; rewrite Hn; eauto].
  destruct (clusters s !! n) as [cs|] eqn:Hcs; [|unfold get_cluster_by_name, get_cluster_store; rewrite Hn, Hcs; eauto].
  destruct (get_cluster_by_name_Ok s name n cs (bc_migration_limit config) Hwf Hn Hcs) as (_ & ns & _ & _ & -> & _). eauto.
Qed.

Lemma metadata_refined :
  (∀ name, segment_ok name → answer_refined (GetCluster name)) ∧ (∀ address, segment_ok address → answer_refined (GetProxy address)) ∧
  answer_refined GetFailedProxies.
Proof.
  split_and!; [intros name Hname|intros address Haddress|]; unfold answer_refined; cbn [ask].
  - destruct (get_cluster_Ok name) as [o Ho].
    destruct (read_served undermoon_version config envs addresses Haddresses GET ("/clusters/meta/" +:+ name) NoPayload (from_json json_cluster)
      (GetClusterMeta name) index s fates (ClusterPayload o) o) as (x & Hx & Hor); [by apply route_cluster|done| |done|done|].
    { intros a m Ha [= <-]. unfold read_of. by rewrite Ho. }
    unfold get_cluster_impl, answered_with. rewrite Hx. eexists _, s, _, _. split; [done|]. split; [done|]. cbn. rewrite Ho. unfold reads.
    naive_solver.
  - destruct (get_proxy_Ok address) as [o Ho].
    destruct (read_served undermoon_version config envs addresses Haddresses GET ("/proxies/meta/" +:+ address) NoPayload (from_json json_proxy)
      (GetProxyMeta address) index s fates (ProxyPayload o) o) as (x & Hx & Hor); [by apply route_proxy|done| |done|done|].
    { intros a m Ha [= <-]. unfold read_of. by rewrite Ho. }
    unfold get_proxy_impl, answered_with. rewrite Hx. eexists _, s, _, _. split; [done|]. split; [done|]. cbn. rewrite Ho. unfold reads.
    naive_solver.
  - destruct (read_served undermoon_version config envs addresses Haddresses GET "/proxies/failed/addresses" NoPayload (from_json json_addresses)
      GetFailedAddresses index s fates (AddressesPayload (get_failed_proxies s)) (get_failed_proxies s)) as (x & Hx & Hor); [done|done| |done|done|].
    { intros a m Ha [= <-]. by rewrite (Horder a Ha). }
    unfold get_failed_proxies_impl, answered_with. rewrite Hx. eexists _, s, _, _. split; [done|]. split; [done|]. cbn.
    unfold lists_at_once. destruct Hor as [-> | [Hf ->]]; cbn; [rewrite plain_Ok|]; naive_solver.
Qed.

(** The changes. *)
Lemma failure_refined address reporter_id :
  segment_ok address → segment_ok reporter_id → answer_refined (ReportFailure address reporter_id).
Proof.
  intros Ha Hr. unfold answer_refined. cbn [ask].
  destruct (change_served undermoon_version config envs addresses Haddresses POST ("/failures/" +:+ address +:+ "/" +:+ reporter_id) NoPayload
    (λ r, if is_success (rs_status r) then Ok () else Err InvalidPayload) (PostFailure address reporter_id) (λ _, Empty)
    (λ env, exec (H := en_order env) (AddFailure (en_now env) address reporter_id)) (λ _, None) index s fates proxies)
    as (a & s' & x & Hin & Hx & Hch); [by apply route_failure|done|done|by intros []|by intros []|done|].
  unfold add_failure_impl, answered_with. rewrite Hx. eexists _, s', _, _. split; [done|]. split; [done|]. split; [|done].
  exists (en_now (envs a)). rewrite (Horder a Hin) in Hch. unfold changes in *. cbn [w_store] in *.
  destruct (exec (AddFailure (en_now (envs a)) address reporter_id) s) as [s1 []]; done.
Qed.

Lemma commit_refined meta : answer_refined (CommitTask meta).
Proof.
  unfold answer_refined. cbn [ask].
  destruct (change_served undermoon_version config envs addresses Haddresses PUT "/clusters/migrations" (TaskPayload meta)
    (λ r, if is_success (rs_status r) || (rs_status r =? 404)%N then Ok ()
          else if (rs_status r =? 409)%N then Err RetryLater else Err InvalidPayload) (PutMigration meta) (λ _, Empty)
    (λ env, exec (H := en_order env) (CommitMigration meta false)) (λ e, if (status_code e =? 404)%N then Some () else None) index s fates proxies)
    as (a & s' & x & Hin & Hx & Hch); [done|done|done|by intros []|by intros []|done|].
  unfold commit_migration_impl, answered_with. rewrite Hx. eexists _, s', _, _. split; [done|]. split; [done|]. split; [|done].
  cbn. rewrite (Horder a Hin) in Hch. unfold changes, commit_task in *. cbn [w_store] in *.
  destruct (exec (CommitMigration meta false) s) as [s1 [v|e|]]; [done| |done].
  by destruct (status_code e =? 404)%N.
Qed.

Lemma replace_refined address : segment_ok address → answer_refined (ReplaceProxy address).
Proof.
  intros Ha. unfold answer_refined. cbn [ask].
  destruct (change_served undermoon_version config envs addresses Haddresses POST ("/proxies/failover/" +:+ address) NoPayload
    (λ r, if is_success (rs_status r) then from_json json_proxy r
          else if (rs_status r =? 409)%N then Err RetryLater else Err InvalidPayload) (PostFailover address) ProxyPayload
    (λ env, replace_failed_proxy (H := en_order env) address (bc_migration_limit config)) (λ _, None) index s fates proxies)
    as (a & s' & x & Hin & Hx & Hch); [by apply route_failover|done| |done|by intros []|done|].
  { intros env err. unfold updated. by destruct (bc_auto_update_meta_file config), (en_written env). }
  unfold replace_proxy_impl, answered_with. rewrite Hx. eexists _, s', _, _. split; [done|]. split; [done|]. split; [|done].
  cbn. rewrite (Horder a Hin) in Hch. unfold changes in *. cbn [w_store] in *. 
  destruct (replace_failed_proxy address (bc_migration_limit config) s) as [s1 []]; done.
Qed.

Lemma reports_refined : answer_refined GetFailedReports.
Proof.
  unfold answer_refined. cbn [ask].
  destruct (request_served undermoon_version config envs addresses Haddresses GET "/failures" NoPayload (from_json json_addresses)
    GetFailuresList index s fates) as (a & m & s' & x & Hin & Hm & Hx & Hor); [done|done|]. injection Hm as <-.
  unfold get_failures_impl, answered_with. rewrite Hx. eexists _, s', _, _. split; [done|]. split; [done|]. split; [|done].
  destruct Hor as [(-> & -> & _)|Hor]; [by left|right]. rewrite (Horder a Hin) in Hor.
  exists (en_fresh (envs a)), (bc_failure_quorum config). unfold lists_at_once.
  destruct Hor as [(-> & -> & _)|(-> & ->)]; (split; [done|]); [by left|right]. apply plain_Ok.
Qed.
End refines.

(** C9. The HTTP clients and the brokers behind them are what the tasks of the
    coordinator rely on, for brokers on one store that iterate their hash maps
    in the same order: whatever requests and replies the network loses, and
    whichever broker is asked, every call has an answer that [serve] allows,
    with the store changed as it says.  When nothing is lost, the reads are
    exactly those of the store, with every page of a list.  With different
    orders the pages of two brokers may miss a proxy
    ([pages_of_two_brokers_miss]). *)
Theorem http_broker_refines `{UnicodeCase} `{HashOrder} `{MetaCodec} `{Crc16} `{NumberParsers} atoi_usize crc64 to_rfc3339
    mgr_error_debug reply_debug error_text unexpected_reply numkeys_error reports undermoon_version config envs addresses fuel index s fates
    proxies X (q : query X) :
  addresses ≠ [] → (∀ a, a ∈ addresses → en_order (envs a) = H0) → reachable s → broker_query q →
  0 < fuel → length (Query.get_cluster_names s) ≤ (fuel - 1) * PAGE_SIZE → length (get_proxies s) ≤ (fuel - 1) * PAGE_SIZE →
  answer_refined atoi_usize crc64 to_rfc3339 mgr_error_debug reply_debug error_text unexpected_reply numkeys_error reports
    undermoon_version config envs addresses fuel index s fates proxies q.
Proof.
  intros Hne Horder Hs%reachable_wf Hq Hf Hn Hp. destruct q; cbn [broker_query] in Hq; try done.
  - apply reads_refined; auto.
  - by apply metadata_refined.
  - apply reads_refined; auto.
  - by apply metadata_refined.
  - by apply failure_refined; destruct Hq.
  - by apply reports_refined.
  - by apply metadata_refined.
  - by apply replace_refined.
  - by apply commit_refined.
Qed.

(** ** Examples *)

From S2P Require Import MultiKey.

(** The lists of a broker whose maps iterate the other way round. *)
Definition reversed_order : HashOrder.
Proof.
  refine {| hash_iter _ _ _ _ m := reverse (map_to_list m) |}. intros K E C V m. apply reverse_Permutation.
Defined.

Section demo.
#[local] Existing Instances ascii_case canonical_order binary_codec bitwise_crc16.

Lemma http_broker_refines_witness :
  answer_refined (λ _, None) (λ _, 0%N) (λ _ _, None) (λ _, "") (λ _, "") (λ _, "") (λ _ _, "") (λ _, "") demo_reports
    "v" demo_broker_config (λ _, demo_env) ["b:1"; "b:2"] 2 0 Reach.demo_store [ReplyLost] ∅ (ReplaceProxy "a:70") ∧
  answer_refined (λ _, None) (λ _, 0%N) (λ _ _, None) (λ _, "") (λ _, "") (λ _, "") (λ _ _, "") (λ _, "") demo_reports
    "v" demo_broker_config (λ _, demo_env) ["b:1"; "b:2"] 2 0 Reach.demo_store [] ∅ GetProxyAddresses.
Proof.
  assert (length (Query.get_cluster_names Reach.demo_store) ≤ (2 - 1) * PAGE_SIZE ∧
    length (get_proxies Reach.demo_store) ≤ (2 - 1) * PAGE_SIZE) as [Hn Hp].
  { split; apply (bool_decide_unpack _); vm_compute; exact I. }
  split; apply http_broker_refines;
    [discriminate|done|exact demo_reachable|split; [done|by repeat constructor]|lia|exact Hn|exact Hp
    |discriminate|done|exact demo_reachable|exact I|lia|exact Hn|exact Hp].
Defined.

(** 101 proxies. *)
Definition many_proxies : MetaStore :=
  Reach.run ((λ n, proxy_request (pretty n) "70") <$> seq 0 101) (store_new false).

Lemma many_reachable : reachable many_proxies.
Proof. apply run_reachable; [constructor|]. vm_compute. reflexivity. Qed.

Definition two_orders (broker : string) : Env :=
  mkEnv (if bool_decide (broker = "b:1") then canonical_order else reversed_order) 0 (λ _, true) (λ _, None) (Ok true).
Definition two_listings : (HttpBroker * (MetaStore * list Fate)) * option (list (outcome HttpBrokerError string)) :=
  get_proxy_addresses (over_network "v" demo_broker_config two_orders) 3 (mkHttpBroker ["b:1"; "b:2"] 0, (many_proxies, [])).

(** Two brokers with the same store need not list it alike: the pages of a
    list are asked for in turn, each broker has its own order, and a proxy that
    is registered is in none of the pages although no request fails. *)
Theorem pages_of_two_brokers_miss :
  reachable many_proxies ∧
  ∃ address st l, address ∈ get_proxies many_proxies ∧
    get_proxy_addresses (over_network "v" demo_broker_config two_orders) 3 (mkHttpBroker ["b:1"; "b:2"] 0, (many_proxies, [])) =
      (st, Some (Ok <$> l)) ∧ address ∉ l.
Proof.
  split; [exact many_reachable|]. change (get_proxy_addresses _ _ _) with two_listings.
  exists (default "" (last (get_proxies many_proxies))), two_listings.1, (oks (default [] two_listings.2)). split_and!.
  - apply (bool_decide_unpack _). vm_compute. exact I.
  - rewrite (surjective_pairing two_listings) at 1. f_equal.
  - apply (bool_decide_unpack _). vm_compute. exact I.
Qed.
End demo.
